(* ===== verification/_CoqProject ===== *)
-Q . S2P
Prelude.v
Decimal.v
Store.v
Sockets.v
TCPStore.v
FileStore.v
NetUtils.v
ProcessGroup.v
Bucketing.v
Comm.v
Frontend.v
Tensors.v
ProcessGroupMPI.v
ProcessGroupGloo.v
Reducer.v
RpcTypes.v
RRefContext.v
Wire.v
RpcCommands.v
AutogradContext.v
AutogradCluster.v
DistEngine.v
RpcAgent.v
TensorPipe.v
TensorPipeAgent.v
TensorPipeJoin.v
ProcessGroupAgent.v
SyncDetection.v
NCCL.v
ProcessGroupNCCL.v
NCCLThreads.v
NCCLDestructor.v
NCCLWait.v
NCCLIds.v
