(* ===== verification/Prelude.v ===== *)
(** * c10d and RPC: a verification library

    The repository is a fork of the distributed package of PyTorch.  Its own
    logic, under csrc/c10d/distributed/ and lib/c10d/, has three layers:

    - c10d/: key-value stores used for rendezvous (Store, HashStore,
      PrefixStore, TCPStore, FileStore), the socket and argument-checking
      helpers they and the process groups use (Utils, UnixSockUtils), the
      process groups (ProcessGroup, ProcessGroupRoundRobin, ProcessGroupGloo,
      ProcessGroupMPI, ProcessGroupNCCL), the gradient reducer of DistributedDataParallel
      (reducer, comm, default_comm_hooks) and the front end for TorchScript;
    - rpc/: identifiers, messages and wire format of the RPC framework, the
      agents that carry requests (rpc_agent, process_group_agent,
      tensorpipe_agent, tensorpipe_utils), the reference counting of remote
      references (rref_context, rref_impl) and the request callbacks;
    - autograd/: distributed autograd: contexts, the autograd functions at the
      ends of an RPC, the clean-up of contexts across workers, and the engine
      that runs backward passes.

    ** How the code is modelled

    A function of the source is a function here, with the source's name.  Code
    that cannot fail is pure; code that throws returns an [outcome]: [Ret],
    [Throw] of the exception class thrown at that site (undefined behaviour is
    the separate exception [Undefined]), or [Block] for a call that sleeps until
    another thread acts.  Code with state is in the monad [M S] of this file, a
    function from a state to an outcome and a new state; a throw keeps the
    updates made before it, as in C++.  Integers are [Z] and are wrapped with
    [int32], [int64], [uint64] where the source converts or may overflow.  Byte
    strings are lists of bytes.  A hash map is a [gmap]; where the source
    iterates over one, the iteration order is a parameter constrained only to be
    a permutation.  Threads are program counters, and a run is a list of the
    steps they take, in any order; a step is what happens while a mutex is held.
    The operating system's answers (partial transfers, errors, readiness) and
    other libraries (gloo, MPI, NCCL, CUDA, ATen, the local autograd engine, the pickler)
    are parameters, or classes with the laws that are assumed of them.

    ** Files

    - Prelude: outcomes, the state monad and its notation, machine integers,
      little-endian encoding, generic list lemmas, tactics and hint databases.
    - Decimal: std::to_string and std::stoll, which the stores use for counters
      and the wire format for sizes.
    - Store: the [Store] interface as a class of operations with its contract
      [StoreSpec] (the store is a map, [add] an atomic fetch-and-add of a decimal
      64-bit counter); HashStore with its blocked callers and condition variable;
      PrefixStore over any store.
    - Sockets: SYSCHECK, sendBytes/recvBytes and the framing of Utils.hpp over a
      list of results of send(2)/recv(2).
    - TCPStore: [Daemon] is TCPStoreDaemon (poll loop turn, dispatch, handlers,
      waiting clients, dropped connections); [TCPStore] is the client, whose
      calls write and read the same byte streams.
    - FileStore: [File] is the file wrapper and record log, [FileStore] the
      store, and [sys] several processes that interleave on one file.
    - NetUtils: argument checks and alltoall layout of Utils.hpp; [Connect] is
      listen/connect/accept of Utils.cpp and UnixSockUtils.hpp.
    - ProcessGroup: operation types, Work and its wait, the interface
      [ProcessGroups] of the back ends, ProcessGroupRoundRobin.
    - Bucketing: compute_bucket_assignment_by_size and sync_bucket_indices.
    - Comm: broadcast_coalesced.
    - Frontend: DistributedC10d of lib/c10d/frontend.cpp.
    - Tensors: tensors as handles on a heap, copy_ and the flat tensors of
      Utils.hpp, used by the two back ends.
    - ProcessGroupMPI: collectives, worker thread and queue, destroy,
      asynchronous point-to-point operations.
    - ProcessGroupGloo: reduction functions, devices, collectives with their
      checks and tags, sparse allreduce, worker threads, barriers, destructor.
    - Reducer: the Reducer with tensors as views of a shared memory.
    - RpcTypes: ids, messages and the encoding of the RRef control messages.
    - RRefContext: the RRef tables, objects and handlers of one worker as a
      transition system.
    - Wire: wireSerialize/wireDeserialize, wrapped payloads, error strings.
    - RpcCommands: every RPC command with its encoding, deserializeRequest and
      deserializeResponse.
    - AutogradContext: DistAutogradContainer, DistAutogradContext, sending and
      receiving with autograd information, remote profiling keys.
    - AutogradCluster: the request handlers of distributed autograd on several
      workers that exchange messages.
    - DistEngine: DistEngine: the search for dependencies, the threads of a graph
      task, and backward passes with their futures and callbacks.
    - RpcAgent: WorkerInfo, the current agent, sendWithRetries.
    - TensorPipe: of the TensorPipe agent, devices and device maps, options, the
      exchange of names and addresses, transports and channels, metrics, and the
      translation of messages.
    - TensorPipeAgent: its requests: send() and the callbacks of the pipes, the
      requests of other workers, the time-out thread, join() and shutdown() as
      steps of threads; [effect] says what a step does.
    - TensorPipeJoin: several such agents with the messages between them, and
      join() at all of them.
    - ProcessGroupAgent: one agent: requests, time-outs, counters.
    - SyncDetection: sync() and join() of several such agents.
    - NCCL: NCCLComm, data types, keys and tensor checks of the NCCL back end;
      NCCL, CUDA and ATen are a handler of [call]s, whose answers are logged.
    - ProcessGroupNCCL: WorkNCCL with its wait, the cache of communicators and
      the exchange of ids through the store, collectives and point-to-point
      operations as the library calls they make.
    - NCCLThreads: its watchdog, clean-up thread and destructor with the user
      as one system [sys]; the class [Framed] gives what every function keeps.
    - NCCLDestructor, NCCLWait, NCCLIds: the end of the destructor; blocking
      waits and aborts across ranks; agreement on the ids.

    ** What the theorems show

    - Stores: HashStore, the TCP store (client, bytes and daemon together) and
      any interleaving of FileStore processes refine the same abstract map; the
      client theorems (PrefixStore isolation, rendezvous by counter) are proved
      once, against the contract.  A blocked HashStore caller is never missed by
      [set]; a TCP client waiting for absent keys is released by the last one.
    - Sockets and set-up: framing round trips under every splitting of the
      transfers; no byte is sent twice; connect keeps trying until the listener
      is there and gives up at the time-out.
    - Process groups: wait returns the verdict that polling would find; a round
      robin forwards the n-th call to the (n mod k)-th group.  The MPI queue
      executes its entries one after the other in the order of the calls, for
      every interleaving, and the destructor ends; alltoall hands every rank the
      parts meant for it.  Gloo: a barrier runs after every work before it, all
      works complete and the destructor ends, whatever the number of worker
      threads; the tags of the n-th collective agree on all ranks; a sparse
      allreduce gives the sum; a call with bad arguments has no effect.
      NCCL: no communicator is aborted twice or asked for errors after its
      abort, the destructor ends, a blocking wait ends with a verdict, an abort after a
      time-out reaches the watchdogs of the other ranks, and the ranks agree on
      the ids of communicators.
    - Reducer: for every order in which autograd hooks fire, the bucket
      reductions start in bucket order, once each, and one finalizer is queued
      when all parameters (used, or unused and found by the graph search) are
      marked; bucket construction yields a well-formed state; a second mark is
      refused; bucketing is a partition with homogeneous buckets; the coalesced
      broadcast gives every tensor its value.
    - RRefs: no sequence of operations dereferences a destroyed object; the
      owner's fork table is a reference set, insensitive to duplicated messages;
      the owner outlives its forks; waiting for pending users and for an owner
      not yet created completes exactly when it should.
    - Formats: wire format, wrapped payloads, RPC commands through any number of
      wrappers, and error strings round-trip; ids do not collide in their hash.
    - Agents: retries keep their contract (at most maxRetries, one result); the
      tables of requests and time-outs agree and exactly the due requests time
      out; when sync() ends no message is left.  The TensorPipe agent counts the
      requests that are not finished exactly; nothing it waits for is lost as
      long as its pipes call back, and a time-out stays entered until its request
      has a result; when join() has returned at a worker, no call is active at any
      (without time-outs and failures); workers agree on names and ids; messages round-trip with
      their tensors on the devices of the device map.
    - Distributed autograd: the sharded container refines a map; ids are unique
      across workers; waiting for RPCs gives the first error or success; after a
      release every worker that took part forgets the context.
    - The engine: dependencies are the edges from reachable functions; a graph
      task completes without an error only when all gradients have arrived and
      nothing is left to run, and does complete then; contexts with a graph
      task, initialized ids and running passes correspond, for every history;
      when nothing can move any more no pass is left.

    Some theorems and lemmas state behaviour that differs from what the code
    means to do: a wake-up lost by HashStore::add, a TCP wait that counts present
    keys, a dead waiter that costs the writer its connection, a null dereference
    in the handler of a user delete, a time-out charged to the wrong RRef, a
    negative section size, a retry test that looks at pointers, requests lost by
    join(), an MPI wait that forgets its error, outstanding RPCs forgotten at the
    start of a backward pass, a call count that becomes negative, a notification
    lost at shutdown, and the lemmas [filestore_read_spins_at_eof],
    [split_sizes_sum_truncated], [guid_decode_truncates],
    [rref_late_fork_request_leaks], [wrapped_payload_short_undefined] and
    [computeNumShards_loops].

    ** Bounds and fuel

    Loops over data are structural.  Transfer, poll and retry loops recurse on
    the list of system-call results, so running out of answers is [Block].  The
    graph searches of prepare_for_backward and computeDependencies take fuel; the
    number of roots plus the number of nodes is proved to be enough.  The header
    scan of the wire format takes the length of the message as fuel, and never
    runs out.  Machines of threads are relations between steps and states; that
    they end is a bound on the number of their steps.

    ** What is not modelled

    ProcessGroupHCCL (ProcessGroupNCCL over another vendor's library), branches
    for an NCCL before version 2.7, the CUDA parts of the other process groups, of
    the engine and of the TensorPipe agent (its stream contexts), the Python and TorchScript bindings, and the execution of script and Python
    calls: their behaviour is that of libraries outside the repository.  The
    TensorPipe library is the events that the agent's callbacks get.  Profiling, metrics, timing statistics and
    logging carry no logic of their own; Windows branches are left out.  Of the
    RRef objects, the values of owners and toHere are not modelled; of
    ProcessGroupAgent, the waits on pending sends at shutdown. *)

From stdpp Require Import base option list gmap strings.
From Stdlib Require Import ZArith Lia.
From Stdlib Require Export Strings.Byte.

(** Parsing of byte constants by [x00] etc. is taken from [Byte]; the other
    notations of the library live in their own scope. *)
Declare Scope c10d_scope.
Delimit Scope c10d_scope with c10d.
Open Scope c10d_scope.
#[global] Open Scope Z_scope.

(** ** Exceptions and outcomes

    The C++ code reports errors by throwing.  [exn] has one constructor per
    exception class the modelled code throws; the argument is the (beginning
    of the) message literal of the throw site. *)
Inductive exn : Type :=
  | RuntimeError (what : string)      (* std::runtime_error *)
  | SystemError (code : Z) (what : string) (* std::system_error *)
  | InvalidArgument (what : string)   (* std::invalid_argument *)
  | OutOfRange (what : string)        (* std::out_of_range *)
  | LengthError (what : string)       (* std::length_error *)
  | CheckFailed (what : string)       (* TORCH_CHECK *)
  | AssertFailed (what : string)      (* TORCH_INTERNAL_ASSERT *)
  | Undefined (what : string).        (* undefined behaviour, not an exception *)

#[global] Instance exn_eq_dec : EqDecision exn.
Proof. solve_decision. Defined.

(** [Block]: the calling thread waits, and nothing the call itself does can
    wake it. *)
Inductive outcome (A : Type) : Type :=
  | Ret (a : A)
  | Throw (e : exn)
  | Block.
Arguments Ret {A} a.
Arguments Throw {A} e.
Arguments Block {A}.

#[global] Instance outcome_eq_dec `{EqDecision A} : EqDecision (outcome A).
Proof. solve_decision. Defined.

Definition obind {A B} (o : outcome A) (k : A -> outcome B) : outcome B :=
  match o with
  | Ret a => k a
  | Throw e => Throw e
  | Block => Block
  end.

Notation "'let?' x ':=' c 'in' k" := (obind c (fun x => k))
  (at level 10, x name, c at level 200, k at level 200,
   format "'[v' 'let?'  x  ':='  c  'in' '/' k ']'") : c10d_scope.

(** TORCH_CHECK / TORCH_INTERNAL_ASSERT / [if (!b) throw e]. *)
Definition ocheck (b : bool) (e : exn) : outcome unit :=
  if b then Ret tt else Throw e.

Notation "'check!' b 'else' e 'in' k" :=
  (obind (ocheck b e) (fun _ => k))
  (at level 10, b at level 200, e at level 200, k at level 200,
   format "'[v' 'check!'  b  'else'  e  'in' '/' k ']'") : c10d_scope.

(** ** The state-and-exception monad

    An exception does not undo the mutations made before the throw, so the
    state is returned in every outcome. *)
Definition M (S A : Type) : Type := S -> outcome A * S.

Section monad.
Context {S : Type}.

Definition ret {A} (a : A) : M S A := fun s => (Ret a, s).
Definition throw {A} (e : exn) : M S A := fun s => (Throw e, s).
Definition bind {A B} (m : M S A) (k : A -> M S B) : M S B := fun s =>
  match m s with
  | (Ret a, s') => k a s'
  | (Throw e, s') => (Throw e, s')
  | (Block, s') => (Block, s')
  end.
Definition gets {A} (f : S -> A) : M S A := fun s => (Ret (f s), s).
Definition modify (f : S -> S) : M S unit := fun s => (Ret tt, f s).
Definition lift {A} (o : outcome A) : M S A := fun s => (o, s).
Definition assert_ (b : bool) (e : exn) : M S unit := lift (ocheck b e).

(** A range-based [for] loop whose body mutates the state and may throw. *)
Fixpoint for_each {A} (l : list A) (f : A -> M S unit) : M S unit :=
  match l with
  | [] => ret tt
  | a :: l => bind (f a) (fun _ => for_each l f)
  end.
End monad.

Notation "'let!' x ':=' c 'in' k" := (bind c (fun x => k))
  (at level 10, x name, c at level 200, k at level 200,
   format "'[v' 'let!'  x  ':='  c  'in' '/' k ']'") : c10d_scope.
Notation "'do!' c 'in' k" := (bind c (fun _ => k))
  (at level 10, c at level 200, k at level 200,
   format "'[v' 'do!'  c  'in' '/' k ']'") : c10d_scope.

Lemma bind_ret_l {S A B} (a : A) (k : A -> M S B) s : bind (ret a) k s = k a s.
Proof. reflexivity. Qed.

Lemma bind_assoc {S A B C} (m : M S A) (f : A -> M S B) (g : B -> M S C) s :
  bind (bind m f) g s = bind m (fun a => bind (f a) g) s.
Proof. unfold bind. destruct (m s) as [[a|e|] s']; reflexivity. Qed.

Lemma bind_run {S A B} (m : M S A) (k : A -> M S B) (st : S) a st' : m st = (Ret a, st') -> bind m k st = k a st'.
Proof. intros E. unfold bind. by rewrite E. Qed.
Lemma bind_throw {S A B} (m : M S A) (k : A -> M S B) (st : S) e st' : m st = (Throw e, st') -> bind m k st = (Throw e, st').
Proof. intros E. unfold bind. by rewrite E. Qed.

Lemma bind_Ret_inv {S A B} (m : M S A) (k : A -> M S B) s b s' :
  bind m k s = (Ret b, s') ->
  exists a s1, m s = (Ret a, s1) /\ k a s1 = (Ret b, s').
Proof.
  unfold bind. destruct (m s) as [[a|e|] s1] eqn:E; intros H; try discriminate.
  eauto.
Qed.

Lemma assert_Ret_inv {S} b e (s : S) u s' :
  assert_ b e s = (Ret u, s') -> b = true /\ s' = s.
Proof. unfold assert_, lift. destruct b; cbn; intros H; simplify_eq; done. Qed.

Lemma lift_Ret_inv {S A} (o : outcome A) (s : S) a s' :
  lift o s = (Ret a, s') -> o = Ret a /\ s' = s.
Proof. unfold lift. by intros [= -> ->]. Qed.

Lemma for_each_app {S A} (l1 l2 : list A) (f : A -> M S unit) s :
  for_each (l1 ++ l2) f s = bind (for_each l1 f) (fun _ => for_each l2 f) s.
Proof.
  revert s. induction l1 as [|a l1 IH]; intros s; [reflexivity|].
  simpl. rewrite bind_assoc. unfold bind.
  destruct (f a s) as [[[]|e|] s']; [|reflexivity..]. apply IH.
Qed.

(** Invariant rule for loops. *)
Lemma for_each_inv {S A} (P : S -> Prop) (l : list A) (f : A -> M S unit) :
  (forall a s, a ∈ l -> P s -> P (snd (f a s))) ->
  forall s, P s -> P (snd (for_each l f s)).
Proof.
  induction l as [|a l IH]; intros Hf s Hs; [exact Hs|].
  simpl. unfold bind. pose proof (Hf a s (list_elem_of_here _ _) Hs) as Ha.
  destruct (f a s) as [[[]|e|] s']; simpl in *; [|exact Ha..].
  apply IH; [|exact Ha]. intros b s0 Hb. apply Hf. by apply list_elem_of_further.
Qed.

(** Unfold the monad in the goal and the hypotheses. *)
Ltac unfold_M :=
  unfold bind, ret, throw, gets, modify, lift, assert_, ocheck, obind in *.

(** Case analysis on the innermost scrutinee of the goal or a hypothesis. *)
Ltac split_match :=
  match goal with
  | |- context [match ?x with _ => _ end] => destruct x eqn:?
  | H : context [match ?x with _ => _ end] |- _ => destruct x eqn:?
  end.
Ltac crush_M := unfold_M; repeat (split_match; simplify_eq/=); try done.

(** ** Fixed-width integers *)

Definition wrap (w : Z) (z : Z) : Z := z mod 2 ^ w.
(** Two's complement value of the low [w] bits of [z]. *)
Definition swrap (w : Z) (z : Z) : Z :=
  let m := z mod 2 ^ w in if m <? 2 ^ (w - 1) then m else m - 2 ^ w.

Definition int8 := swrap 8.
Definition int16 := swrap 16.
Definition int32 := swrap 32.
Definition int64 := swrap 64.
Definition uint32 := wrap 32.
Definition uint64 := wrap 64.

Definition in_int64 (z : Z) : Prop := - 2 ^ 63 <= z < 2 ^ 63.
Definition in_int32 (z : Z) : Prop := - 2 ^ 31 <= z < 2 ^ 31.
Definition in_int16 (z : Z) : Prop := - 2 ^ 15 <= z < 2 ^ 15.
Definition in_int8 (z : Z) : Prop := - 2 ^ 7 <= z < 2 ^ 7.
Definition in_uint64 (z : Z) : Prop := 0 <= z < 2 ^ 64.
Definition in_uint32 (z : Z) : Prop := 0 <= z < 2 ^ 32.

Definition INT_MAX : Z := 2 ^ 31 - 1.

Lemma wrap_small w z : 0 <= z < 2 ^ w -> wrap w z = z.
Proof. apply Z.mod_small. Qed.

Lemma wrap_range w z : 0 <= w -> 0 <= wrap w z < 2 ^ w.
Proof. intros Hw. apply Z.mod_pos_bound. apply Z.pow_pos_nonneg; lia. Qed.

Lemma pow2_half w : 1 <= w -> 2 ^ w = 2 * 2 ^ (w - 1).
Proof. intros. replace w with (Z.succ (w - 1)) at 1 by lia. apply Z.pow_succ_r. lia. Qed.

Lemma swrap_small w z : 1 <= w -> - 2 ^ (w - 1) <= z < 2 ^ (w - 1) -> swrap w z = z.
Proof.
  intros Hw Hz. pose proof (pow2_half w Hw) as Hp. unfold swrap.
  destruct (decide (0 <= z)).
  - rewrite Z.mod_small by lia. destruct (Z.ltb_spec z (2 ^ (w - 1))); lia.
  - replace (z mod 2 ^ w) with (z + 2 ^ w).
    + destruct (Z.ltb_spec (z + 2 ^ w) (2 ^ (w - 1))); lia.
    + rewrite <- (Z.mod_small (z + 2 ^ w) (2 ^ w)) by lia.
      rewrite <- (Z.mul_1_l (2 ^ w)) at 1. rewrite Z.mod_add by lia. reflexivity.
Qed.

Lemma swrap_range w z : 1 <= w -> - 2 ^ (w - 1) <= swrap w z < 2 ^ (w - 1).
Proof.
  intros Hw. pose proof (pow2_half w Hw) as Hp.
  pose proof (Z.pow_pos_nonneg 2 (w - 1) ltac:(lia) ltac:(lia)).
  pose proof (Z.mod_pos_bound z (2 ^ w) ltac:(lia)). unfold swrap.
  destruct (Z.ltb_spec (z mod 2 ^ w) (2 ^ (w - 1))); lia.
Qed.

Lemma int64_id z : in_int64 z -> int64 z = z.
Proof. intros H. apply swrap_small; [lia|]. exact H. Qed.

Lemma int32_id z : in_int32 z -> int32 z = z.
Proof. intros H. apply swrap_small; [lia|]. exact H. Qed.

Lemma int8_id z : in_int8 z -> int8 z = z.
Proof. intros H. apply swrap_small; [lia|]. exact H. Qed.

Lemma int16_id z : in_int16 z -> int16 z = z.
Proof. intros H. apply swrap_small; [lia|]. exact H. Qed.

Lemma int64_range z : in_int64 (int64 z).
Proof. apply (swrap_range 64). lia. Qed.

Lemma uint64_id z : in_uint64 z -> uint64 z = z.
Proof. apply (wrap_small 64). Qed.

Lemma uint32_id z : in_uint32 z -> uint32 z = z.
Proof. apply (wrap_small 32). Qed.

(** The wrap-around of an increment. *)
Lemma int32_add a b : int32 (int32 a + b) = int32 (a + b).
Proof.
  unfold int32, swrap at 1 3. assert ((swrap 32 a + b) mod 2 ^ 32 = (a + b) mod 2 ^ 32) as ->; [|done].
  unfold swrap. destruct (_ <? _); [by rewrite Zplus_mod_idemp_l|].
  replace (a mod 2 ^ 32 - 2 ^ 32 + b) with (a mod 2 ^ 32 + b + (-1) * 2 ^ 32) by lia.
  by rewrite Z.mod_add, Zplus_mod_idemp_l by lia.
Qed.

Create HintDb c10d.
Create Rewrite HintDb c10d.
#[export] Hint Resolve int64_range : c10d.
#[export] Hint Rewrite int64_id int32_id int16_id uint64_id uint32_id
  using (first [assumption | lia]) : c10d.

(** ** Bytes *)

Abbreviation bytes := (list byte).

#[global] Instance byte_eq_dec : EqDecision byte := Byte.byte_eq_dec.

#[global] Instance byte_countable : Countable byte :=
  inj_countable Byte.to_N Byte.of_N Byte.of_to_N.

Definition byte_of_Z (z : Z) : byte :=
  match Byte.of_N (Z.to_N (z mod 256)) with Some b => b | None => x00 end.
Definition Z_of_byte (b : byte) : Z := Z.of_N (Byte.to_N b).

Lemma Z_of_byte_range b : 0 <= Z_of_byte b < 256.
Proof. unfold Z_of_byte. pose proof (Byte.to_N_bounded b). lia. Qed.

Lemma Z_of_byte_of_Z z : Z_of_byte (byte_of_Z z) = z mod 256.
Proof.
  unfold Z_of_byte, byte_of_Z.
  pose proof (Z.mod_pos_bound z 256 ltac:(lia)) as Hb.
  destruct (Byte.of_N (Z.to_N (z mod 256))) as [b|] eqn:E.
  - apply Byte.to_of_N in E. rewrite E. lia.
  - apply Byte.of_N_None_iff in E. lia.
Qed.

Lemma byte_of_Z_of_byte b : byte_of_Z (Z_of_byte b) = b.
Proof.
  unfold byte_of_Z. rewrite Z.mod_small by apply Z_of_byte_range.
  unfold Z_of_byte. rewrite N2Z.id, Byte.of_to_N. reflexivity.
Qed.

(** Object representation of an unsigned integer: little endian, as on the
    x86-64 and aarch64 targets. *)
Fixpoint le_bytes (n : nat) (z : Z) : bytes :=
  match n with
  | O => []
  | S n => byte_of_Z z :: le_bytes n (z / 256)
  end.

Fixpoint le_value (l : bytes) : Z :=
  match l with
  | [] => 0
  | b :: l => Z_of_byte b + 256 * le_value l
  end.

Lemma le_bytes_length n z : length (le_bytes n z) = n.
Proof. revert z. induction n; intros; simpl; [reflexivity|by rewrite IHn]. Qed.

Lemma le_value_bytes n z : le_value (le_bytes n z) = z mod 256 ^ Z.of_nat n.
Proof.
  revert z. induction n as [|n IH]; intros z; simpl.
  - by rewrite Z.mod_1_r.
  - rewrite Z_of_byte_of_Z, IH, Nat2Z.inj_succ, Z.pow_succ_r by lia.
    rewrite Z.rem_mul_r; [done|lia|]. apply Z.pow_pos_nonneg; lia.
Qed.

Lemma le_value_range l : 0 <= le_value l < 256 ^ Z.of_nat (length l).
Proof.
  induction l as [|b l IH]; simpl; [done|].
  rewrite Nat2Z.inj_succ, Z.pow_succ_r by lia. pose proof (Z_of_byte_range b). lia.
Qed.

(** ** Lists *)

(** One element of a sum, or of a filtered list, is replaced. *)
Lemma sum_alter {A} (f : A -> nat) g l i x : l !! i = Some x ->
  (sum_list_with f (alter g i l) + f x = sum_list_with f l + f (g x))%nat.
Proof.
  revert i. induction l as [|y l IH]; intros [|i] H; [done|done| |].
  - injection H as ->. change (alter g 0%nat (x :: l)) with (g x :: l). simpl. lia.
  - specialize (IH i H). change (alter g (S i) (y :: l)) with (y :: alter g i l). simpl. lia.
Qed.
Lemma sum_insert {A} (f : A -> nat) l i x y : l !! i = Some x ->
  (sum_list_with f (<[i := y]> l) + f x = sum_list_with f l + f y)%nat.
Proof. rewrite list_insert_alter. apply (sum_alter f (fun _ => y)). Qed.
Lemma omap_replace {A B} (f : A -> option B) l i x y : l !! i = Some x ->
  exists rest, omap f l ≡ₚ option_list (f x) ++ rest /\ omap f (<[i := y]> l) ≡ₚ option_list (f y) ++ rest.
Proof.
  intros Hi. exists (omap f (take i l) ++ omap f (drop (S i) l)).
  rewrite (insert_take_drop l i y) by (by eapply lookup_lt_Some). rewrite <- (take_drop_middle l i x Hi) at 1.
  rewrite !omap_app. simpl. split; [destruct (f x)|destruct (f y)]; simpl; solve_Permutation.
Qed.
Lemma length_delete_list {A} (l : list A) k x : l !! k = Some x -> length l = S (length (delete k l)).
Proof. intros H. rewrite length_delete by done. apply lookup_lt_Some in H. lia. Qed.


Lemma elem_of_list_split_mid {A} (l : list A) i x :
  l !! i = Some x -> l = take i l ++ x :: drop (S i) l.
Proof. intros H. symmetry. by apply take_drop_middle. Qed.

Fixpoint sum_Z (l : list Z) : Z :=
  match l with [] => 0 | x :: l => x + sum_Z l end.

Lemma sum_Z_app l1 l2 : sum_Z (l1 ++ l2) = sum_Z l1 + sum_Z l2.
Proof. induction l1 as [|x l1 IH]; simpl; lia. Qed.

Lemma sum_Z_nonneg l : Forall (fun x => 0 <= x) l -> 0 <= sum_Z l.
Proof. induction 1; simpl; lia. Qed.

Lemma sum_Z_perm l1 l2 : l1 ≡ₚ l2 -> sum_Z l1 = sum_Z l2.
Proof. induction 1; simpl; lia. Qed.

Lemma forallb_ext {A} (f g : A -> bool) l :
  (forall x, f x = g x) -> forallb f l = forallb g l.
Proof. intros H. induction l as [|x l IH]; simpl; [done|]. by rewrite H, IH. Qed.

(** ** Frame conditions

    [preserves f m]: whatever its outcome, [m] leaves [f] of the state alone. *)
Definition preserves {S A B} (f : S -> B) (m : M S A) : Prop :=
  forall s, f (snd (m s)) = f s.

Section preserves.
Context {S B : Type} (f : S -> B).

Lemma preserves_ret {A} (a : A) : preserves f (ret a).
Proof. by intros s. Qed.
Lemma preserves_throw {A} e : preserves f (throw (A := A) e).
Proof. by intros s. Qed.
Lemma preserves_lift {A} (o : outcome A) : preserves f (lift o).
Proof. by intros s. Qed.
Lemma preserves_assert b e : preserves f (assert_ b e).
Proof. by intros s. Qed.
Lemma preserves_gets {A} (g : S -> A) : preserves f (gets g).
Proof. by intros s. Qed.
Lemma preserves_modify g : (forall s, f (g s) = f s) -> preserves f (modify g).
Proof. intros H s. apply H. Qed.
Lemma preserves_bind {A C} (m : M S A) (k : A -> M S C) :
  preserves f m -> (forall a, preserves f (k a)) -> preserves f (bind m k).
Proof.
  intros Hm Hk s. unfold bind. pose proof (Hm s) as H.
  destruct (m s) as [[a|e|] s']; simpl in *; [|done..]. by rewrite Hk.
Qed.
Lemma preserves_for_each {A} (l : list A) (g : A -> M S unit) :
  (forall a, preserves f (g a)) -> preserves f (for_each l g).
Proof.
  intros Hg. induction l as [|a l IH]; simpl; [apply preserves_ret|].
  by apply preserves_bind.
Qed.
End preserves.

Create HintDb frame.
#[export] Hint Resolve preserves_ret preserves_throw preserves_lift preserves_assert
  preserves_gets preserves_modify preserves_bind preserves_for_each : frame.

(** [follows R m]: every run of [m] relates its initial and final states by the
    preorder [R], whatever its outcome. *)
Definition follows {S A} (R : S -> S -> Prop) (m : M S A) : Prop := forall s, R s (snd (m s)).

Section follows.
Context {S : Type} (R : S -> S -> Prop) `{!PreOrder R}.

Lemma follows_bind {A B} (m : M S A) (k : A -> M S B) :
  follows R m -> (forall a, follows R (k a)) -> follows R (bind m k).
Proof.
  intros Hm Hk s. unfold bind. pose proof (Hm s) as H.
  destruct (m s) as [[a|e|] s']; simpl in *; [|done..]. etrans; [exact H|apply Hk].
Qed.
Lemma follows_ret {A} (a : A) : follows R (ret a).
Proof. by intros s. Qed.
Lemma follows_gets {A} (g : S -> A) : follows R (gets g).
Proof. by intros s. Qed.
Lemma follows_throw {A} e : follows R (throw (A := A) e).
Proof. by intros s. Qed.
Lemma follows_lift {A} (o : outcome A) : follows R (lift o).
Proof. by intros s. Qed.
Lemma follows_assert b e : follows R (assert_ b e).
Proof. by intros s. Qed.
Lemma follows_for_each {A} (l : list A) (f : A -> M S unit) :
  (forall a, follows R (f a)) -> follows R (for_each l f).
Proof.
  intros Hf. induction l as [|a l IH]; simpl; [by apply follows_ret|]. by apply follows_bind.
Qed.
End follows.

Lemma follows_run {S A} (R : S -> S -> Prop) (m : M S A) s o s' : m s = (o, s') -> follows R m -> R s s'.
Proof. intros E Hm. specialize (Hm s). by rewrite E in Hm. Qed.

Ltac follows_step :=
  lazymatch goal with
  | |- follows _ (bind _ _) => apply follows_bind; [typeclasses eauto| |intros ?]
  | |- follows _ (for_each _ _) => apply follows_for_each; [typeclasses eauto|intros ?]
  | |- follows _ (ret _) => apply follows_ret; typeclasses eauto
  | |- follows _ (gets _) => apply follows_gets; typeclasses eauto
  | |- follows _ (throw _) => apply follows_throw; typeclasses eauto
  | |- follows _ (lift _) => apply follows_lift; typeclasses eauto
  | |- follows _ (assert_ _ _) => apply follows_assert; typeclasses eauto
  | |- follows _ (match ?x with _ => _ end) => destruct x
  end.

Lemma list_filter_all {A} (P : A -> Prop) `{!forall x, Decision (P x)} (l : list A) :
  (forall x, x ∈ l -> P x) -> filter P l = l.
Proof.
  induction l as [|x l IH]; intros Hl; [done|].
  rewrite filter_cons_True by (apply Hl, list_elem_of_here). f_equal. apply IH.
  intros y Hy. by apply Hl, list_elem_of_further.
Qed.

Lemma list_filter_ext_in {A} (P Q : A -> Prop) `{!forall x, Decision (P x)}
    `{!forall x, Decision (Q x)} (l : list A) :
  (forall x, x ∈ l -> P x <-> Q x) -> filter P l = filter Q l.
Proof.
  induction l as [|x l IH]; intros Hpq; [done|]. rewrite !filter_cons.
  rewrite IH by (intros y Hy; apply Hpq; by apply list_elem_of_further).
  pose proof (Hpq x (list_elem_of_here _ _)). repeat case_decide; tauto || done.
Qed.

(** Removing one element from a duplicate-free selection. *)
Lemma elem_of_delete {A} (k : nat) (l : list A) x : x ∈ delete k l -> x ∈ l.
Proof.
  rewrite delete_take_drop, elem_of_app. intros [H|H].
  - apply elem_of_take in H as (i & H & _). by eapply list_elem_of_lookup_2.
  - apply list_elem_of_lookup in H as [i Hi]. rewrite lookup_drop in Hi. by eapply list_elem_of_lookup_2.
Qed.

Lemma length_filter_remove {A} (P Q : A -> Prop) `{!forall x, Decision (P x)}
    `{!forall x, Decision (Q x)} (l : list A) (x : A) :
  NoDup l -> x ∈ l -> P x -> (forall y, y ∈ l -> Q y <-> P y /\ y <> x) ->
  length (filter P l) = S (length (filter Q l)).
Proof.
  intros Hnd. induction Hnd as [|y l Hy _ IH]; intros Hx HP HQ; [by apply elem_of_nil in Hx|].
  assert (HQl : forall z, z ∈ l -> Q z <-> P z /\ z <> x)
    by (intros z Hz; apply HQ; by apply list_elem_of_further).
  pose proof (HQ y (list_elem_of_here _ _)) as HQy. rewrite !filter_cons.
  apply elem_of_cons in Hx as [->|Hx].
  - rewrite (list_filter_ext_in P Q l).
    + rewrite decide_True by done. rewrite decide_False by tauto. done.
    + intros z Hz. rewrite HQl by done. assert (z <> y) by congruence. tauto.
  - assert (y <> x) by congruence. pose proof (IH Hx HP HQl).
    repeat case_decide; cbn; try tauto; lia.
Qed.

Lemma list_filter_none {A} (P : A -> Prop) `{!forall x, Decision (P x)} (l : list A) :
  (forall x, x ∈ l -> ~ P x) -> filter P l = [].
Proof.
  induction l as [|x l IH]; intros Hl; [done|].
  rewrite filter_cons_False by (apply Hl, list_elem_of_here). apply IH.
  intros y Hy. by apply Hl, list_elem_of_further.
Qed.
