(* ===== verification/Decimal.v ===== *)
(** * Decimal conversions

    [std::to_string] and [std::stoll]/[std::stoi] as the stores, the TCP store
    daemon and the RPC wire format use them to keep counters and sizes as text.
    Strings and byte vectors are both byte sequences here. *)

From stdpp Require Import base option list strings.
From Stdlib Require Import ZArith Lia.
From S2P Require Import Prelude.

(** String literals of the source as byte sequences. *)
Definition str (s : string) : bytes := String.list_byte_of_string s.

Module Decimal.

(** ** Printing *)

Definition digit (d : Z) : byte := byte_of_Z (48 + d).

Fixpoint digits_aux (fuel : nat) (n : Z) (acc : bytes) : bytes :=
  match fuel with
  | O => acc
  | S fuel =>
      let acc := digit (n mod 10) :: acc in
      if n <? 10 then acc else digits_aux fuel (n / 10) acc
  end.

(** One digit per bit is more than enough. *)
Definition digits (n : Z) : bytes := digits_aux (S (Z.to_nat (Z.log2 n))) n [].

(** [std::to_string(z)] *)
Definition to_string (z : Z) : bytes :=
  if z <? 0 then x2d :: digits (- z) else digits z.

(** ** Parsing *)

Definition is_digit (b : byte) : bool := (48 <=? Z_of_byte b) && (Z_of_byte b <=? 57).
(** isspace(3) in the C locale. *)
Definition is_space (b : byte) : bool :=
  (Z_of_byte b =? 32) || ((9 <=? Z_of_byte b) && (Z_of_byte b <=? 13)).

Fixpoint skip_spaces (l : bytes) : bytes :=
  match l with
  | b :: l' => if is_space b then skip_spaces l' else l
  | [] => []
  end.

(** Value of the longest digit prefix, and whether it is non-empty. *)
Fixpoint scan_digits (acc : Z) (some : bool) (l : bytes) : Z * bool :=
  match l with
  | b :: l' =>
      if is_digit b then scan_digits (acc * 10 + (Z_of_byte b - 48)) true l'
      else (acc, some)
  | [] => (acc, some)
  end.

(** strtoll(3) in base 10 as wrapped by std::stoll / std::stoi: leading white
    space is skipped, a sign is accepted, what follows the digits is ignored;
    no digit is an invalid_argument, a value outside [lo, hi] an out_of_range. *)
Definition sto (lo hi : Z) (what : string) (l : bytes) : outcome Z :=
  let l := skip_spaces l in
  let '(neg, l) :=
    match l with
    | b :: l' =>
        if Z_of_byte b =? 45 then (true, l')
        else if Z_of_byte b =? 43 then (false, l')
        else (false, l)
    | [] => (false, [])
    end in
  let '(v, some) := scan_digits 0 false l in
  if negb some then Throw (InvalidArgument what)
  else
    let v := if neg then - v else v in
    if (lo <=? v) && (v <=? hi) then Ret v else Throw (OutOfRange what).

Definition stoll : bytes -> outcome Z := sto (- 2 ^ 63) (2 ^ 63 - 1) "stoll".
Definition stoi : bytes -> outcome Z := sto (- 2 ^ 31) (2 ^ 31 - 1) "stoi".

(** ** Printing then parsing *)

Lemma Z_of_digit d : 0 <= d < 10 -> Z_of_byte (digit d) = 48 + d.
Proof. intros. unfold digit. rewrite Z_of_byte_of_Z, Z.mod_small by lia. lia. Qed.

Definition eval_digits (acc : Z) (ds : list Z) : Z :=
  fold_left (fun a d => a * 10 + d) ds acc.

Lemma scan_digits_app acc some ds rest :
  Forall (fun d => 0 <= d < 10) ds ->
  scan_digits acc some (map digit ds ++ rest) =
  scan_digits (eval_digits acc ds) (some || bool_decide (ds <> [])) rest.
Proof.
  revert acc some. induction ds as [|d ds IH]; intros acc some Hds.
  - simpl. by rewrite orb_false_r.
  - apply Forall_cons in Hds as [Hd Hds]. simpl.
    unfold is_digit at 1. rewrite Z_of_digit by lia.
    destruct (Z.leb_spec 48 (48 + d)); [|lia].
    destruct (Z.leb_spec (48 + d) 57); [|lia]. cbn [andb].
    replace (48 + d - 48) with d by lia. rewrite IH by done.
    by destruct some.
Qed.

Lemma digits_aux_spec fuel n acc :
  0 <= n < 2 ^ Z.of_nat fuel -> (0 < fuel)%nat ->
  exists ds, digits_aux fuel n acc = map digit ds ++ acc /\ ds <> [] /\
             Forall (fun d => 0 <= d < 10) ds /\
             (forall a, eval_digits a ds = a * 10 ^ Z.of_nat (length ds) + n).
Proof.
  revert n acc. induction fuel as [|fuel IH]; intros n acc Hn Hf; [lia|].
  pose proof (Z.mod_pos_bound n 10 ltac:(lia)) as Hm.
  cbn [digits_aux]. destruct (Z.ltb_spec n 10) as [Hlt|Hge].
  - exists [n]. rewrite Z.mod_small by lia. split_and!; [done|done|constructor; [lia|done]|].
    intros a. unfold eval_digits. cbn. lia.
  - rewrite Nat2Z.inj_succ, Z.pow_succ_r in Hn by lia.
    pose proof (Z.div_mod n 10 ltac:(lia)) as Hdm.
    assert (Hf' : (0 < fuel)%nat).
    { destruct fuel; [|lia]. cbn in Hn. lia. }
    destruct (IH (n / 10) (digit (n mod 10) :: acc)) as (ds & E & Hne & Hall & Hev); [|lia|].
    { split; [apply Z.div_pos; lia|]. apply Z.div_lt_upper_bound; lia. }
    exists (ds ++ [n mod 10]). rewrite E, map_app, <- app_assoc. repeat split.
    + by destruct ds.
    + apply Forall_app. split; [done|]. constructor; [lia|done].
    + intros a. unfold eval_digits in *. rewrite fold_left_app, Hev, length_app. cbn.
      rewrite Nat2Z.inj_add, Z.pow_add_r by lia. lia.
Qed.

Lemma digits_spec n :
  0 <= n -> exists ds, digits n = map digit ds /\ ds <> [] /\
    Forall (fun d => 0 <= d < 10) ds /\ eval_digits 0 ds = n.
Proof.
  intros Hn. unfold digits.
  destruct (digits_aux_spec (S (Z.to_nat (Z.log2 n))) n []) as (ds & E & ? & ? & Hev); [|lia|].
  - split; [lia|]. rewrite Nat2Z.inj_succ, Z2Nat.id by apply Z.log2_nonneg.
    destruct (decide (n = 0)) as [->|]; [done|]. apply Z.log2_spec. lia.
  - exists ds. rewrite app_nil_r in E. split_and!; [done..|]. rewrite Hev. lia.
Qed.

Lemma scan_digits_digits n :
  0 <= n -> scan_digits 0 false (digits n) = (n, true).
Proof.
  intros Hn. destruct (digits_spec n Hn) as (ds & -> & Hne & Hall & Hev).
  rewrite <- (app_nil_r (map digit ds)), scan_digits_app by done.
  rewrite Hev. cbn [scan_digits]. by rewrite bool_decide_true.
Qed.

(** The first character of a printed natural is a digit: neither white space
    nor a sign. *)
Lemma digits_head n :
  0 <= n -> exists b l, digits n = b :: l /\ 48 <= Z_of_byte b <= 57.
Proof.
  intros Hn. destruct (digits_spec n Hn) as (ds & -> & Hne & Hall & _).
  destruct ds as [|d ds]; [done|]. apply Forall_cons in Hall as [Hd _].
  exists (digit d), (map digit ds). rewrite Z_of_digit by lia. split; [done|lia].
Qed.

Lemma sto_to_string lo hi what z :
  lo <= z <= hi -> sto lo hi what (to_string z) = Ret z.
Proof.
  intros Hz. unfold to_string, sto. destruct (Z.ltb_spec z 0).
  - cbn -[digits scan_digits]. rewrite scan_digits_digits by lia. cbn.
    rewrite Z.opp_involutive.
    destruct (Z.leb_spec lo z), (Z.leb_spec z hi); try lia. done.
  - destruct (digits_head z) as (b & l & E & Hb); [lia|]. rewrite E.
    cbn [skip_spaces]. unfold is_space.
    destruct (Z.eqb_spec (Z_of_byte b) 32); [lia|].
    destruct (Z.leb_spec (Z_of_byte b) 13); [lia|]. rewrite andb_false_r. cbn [orb].
    destruct (Z.eqb_spec (Z_of_byte b) 45); [lia|].
    destruct (Z.eqb_spec (Z_of_byte b) 43); [lia|].
    rewrite <- E, scan_digits_digits by lia. cbn.
    destruct (Z.leb_spec lo z), (Z.leb_spec z hi); try lia. done.
Qed.

Lemma stoll_to_string z : in_int64 z -> stoll (to_string z) = Ret z.
Proof. intros H. apply sto_to_string. unfold in_int64 in H. lia. Qed.

Lemma stoi_to_string z : in_int32 z -> stoi (to_string z) = Ret z.
Proof. intros H. apply sto_to_string. unfold in_int32 in H. lia. Qed.

Lemma to_string_nonempty z : to_string z <> [].
Proof.
  unfold to_string. destruct (Z.ltb_spec z 0); [done|].
  destruct (digits_head z) as (b & l & E & _); [lia|]. by rewrite E.
Qed.

Lemma digits_aux_length fuel n acc :
  (length (digits_aux fuel n acc) <= fuel + length acc)%nat.
Proof.
  revert n acc. induction fuel as [|fuel IH]; intros n acc; cbn [digits_aux]; [lia|].
  destruct (n <? 10); [cbn; lia|]. etrans; [apply IH|]. cbn. lia.
Qed.

Lemma digits_length n w : 0 <= n < 2 ^ w -> 0 < w -> (length (digits n) <= Z.to_nat w)%nat.
Proof.
  intros Hn Hw. unfold digits.
  pose proof (digits_aux_length (S (Z.to_nat (Z.log2 n))) n []) as H. cbn [length] in H.
  assert (Z.log2 n < w); [|lia]. destruct (decide (n = 0)) as [->|]; [cbn; lia|].
  apply Z.log2_lt_pow2; lia.
Qed.

Lemma to_string_length z : in_int64 z -> (length (to_string z) <= 65)%nat.
Proof.
  intros Hz. unfold in_int64 in Hz. unfold to_string. destruct (Z.ltb_spec z 0).
  - cbn [length]. pose proof (digits_length (- z) 64). lia.
  - pose proof (digits_length z 64). lia.
Qed.

Lemma stoll_range l z : stoll l = Ret z -> in_int64 z.
Proof.
  unfold stoll, sto, in_int64. intros H.
  repeat (split_match; simplify_eq/=);
  match goal with Hb : (_ <=? _) && _ = true |- _ =>
    apply andb_true_iff in Hb as [? ?]; lia end.
Qed.

End Decimal.

#[export] Hint Rewrite Decimal.stoll_to_string Decimal.stoi_to_string
  using (first [assumption | auto with c10d]) : c10d.
