(* ===== verification/Store.v ===== *)
(** * Key-value stores: the [Store] interface, [HashStore] and [PrefixStore]

    Models csrc/c10d/distributed/c10d/Store.hpp, HashStore.cpp and
    PrefixStore.cpp.  Keys ([std::string]) and values
    ([std::vector<uint8_t>]) are byte sequences. *)

From stdpp Require Import base option list gmap strings.
From Stdlib Require Import ZArith Lia.
From S2P Require Import Prelude Decimal.

Definition ETIMEDOUT : Z := 110.

(** ** The abstract class [Store] *)

(** Its virtual methods, over the implementation's state [S].  Timeouts are
    milliseconds. *)
Record StoreOps (S : Type) : Type := {
  store_set : bytes -> bytes -> M S unit;
  store_get : bytes -> M S bytes;
  store_add : bytes -> Z -> M S Z;
  store_deleteKey : bytes -> M S bool;
  store_check : list bytes -> M S bool;
  store_getNumKeys : M S Z;
  store_wait : list bytes -> M S unit;
  store_wait_for : list bytes -> Z -> M S unit;
}.
Arguments store_set {S} _.
Arguments store_get {S} _.
Arguments store_add {S} _.
Arguments store_deleteKey {S} _.
Arguments store_check {S} _.
Arguments store_getNumKeys {S} _.
Arguments store_wait {S} _.
Arguments store_wait_for {S} _.

Definition kDefaultTimeout : Z := 300 * 1000.
Definition kNoTimeout : Z := 0.

(** [Store::setTimeout], on the [timeout_] field of the base class. *)
Definition setTimeout (timeout : Z) (timeout_ : Z) : Z := timeout.

(** The contract the process groups rely on: a store is a map, [add] is an
    atomic fetch-and-add on the decimal text of a 64-bit counter, and neither
    [get] nor [check] changes what later calls see. *)
Class StoreSpec {S : Type} (ops : StoreOps S) : Type := {
  view : S -> bytes -> option bytes;
  inv : S -> Prop;
  (** Side conditions of the encoding the implementation keeps keys and values in. *)
  key_ok : bytes -> Prop;
  keys_ok : list bytes -> Prop;
  val_ok : bytes -> Prop;
  counter_ok : forall z, in_int64 z -> val_ok (Decimal.to_string z);
  set_law : forall s k v, inv s -> key_ok k -> val_ok v ->
    exists s', store_set ops k v s = (Ret tt, s') /\ inv s' /\
      forall k', view s' k' = if decide (k' = k) then Some v else view s k';
  get_law : forall s k v, inv s -> key_ok k -> view s k = Some v ->
    exists s', store_get ops k s = (Ret v, s') /\ inv s' /\ forall k', view s' k' = view s k';
  get_absent_law : forall s k, inv s -> key_ok k -> view s k = None ->
    forall v, fst (store_get ops k s) <> Ret v;
  add_law : forall s k i n, inv s -> key_ok k -> in_int64 i ->
    match view s k with None => n = 0 | Some v => Decimal.stoll v = Ret n end ->
    exists s', store_add ops k i s = (Ret (int64 (i + n)), s') /\ inv s' /\
      forall k', view s' k' =
        if decide (k' = k) then Some (Decimal.to_string (int64 (i + n))) else view s k';
  check_law : forall s ks, inv s -> keys_ok ks ->
    exists s', store_check ops ks s =
        (Ret (forallb (fun k => bool_decide (is_Some (view s k))) ks), s') /\
      inv s' /\ forall k', view s' k' = view s k';
}.

(** Clients of the interface: a value that was set is the value that is read. *)
Section store_clients.
Context {S : Type} (ops : StoreOps S) `{!StoreSpec ops}.

Lemma set_then_get s k v :
  inv s -> key_ok k -> val_ok v ->
  exists s', bind (store_set ops k v) (fun _ => store_get ops k) s = (Ret v, s') /\ inv s'.
Proof.
  intros Hi Hk Hv. destruct (set_law s k v Hi Hk Hv) as (s1 & E & Hi1 & V).
  unfold bind. rewrite E.
  destruct (get_law s1 k v Hi1 Hk) as (s2 & E2 & Hi2 & _); [|eauto].
  rewrite V. by rewrite decide_True.
Qed.

(** [n] workers that each [add] 1 to an absent counter leave [n] in it, the
    rendezvous of [TCPStore::waitForWorkers] and of [FileStore]'s cleanup. *)
Fixpoint add_n (n : nat) (k : bytes) : M S Z :=
  match n with
  | O => ret 0
  | Datatypes.S n => bind (add_n n k) (fun _ => store_add ops k 1)
  end.

Lemma add_n_counts s k n :
  inv s -> key_ok k -> view s k = None -> Z.of_nat n < 2 ^ 63 ->
  exists s', add_n n k s = (Ret (Z.of_nat n), s') /\ inv s' /\
    view s' k = if decide (n = O) then None else Some (Decimal.to_string (Z.of_nat n)).
Proof.
  intros Hi Hk Hv. induction n as [|n IH]; intros Hn.
  - exists s. cbn. auto.
  - destruct IH as (s1 & E1 & Hi1 & V1); [lia|].
    destruct (add_law s1 k 1 (Z.of_nat n) Hi1 Hk) as (s2 & E2 & Hi2 & V2).
    + unfold in_int64; lia.
    + rewrite V1. case_decide as Hz; [lia|].
      apply Decimal.stoll_to_string. unfold in_int64; lia.
    + replace (1 + Z.of_nat n) with (Z.of_nat (Datatypes.S n)) in * by lia.
      rewrite int64_id in * by (unfold in_int64; lia).
      exists s2. cbn [add_n]. unfold bind. rewrite E1, E2.
      split_and!; [done..|]. rewrite V2. by rewrite decide_True.
Qed.
(** *** Refinement of the abstract map

    A client program is a sequence of commands; the specification runs it on a
    finite map, and stops where a command has no answer ([get] of an absent
    key, [add] to a value that is not a number). *)
Inductive cmd : Type :=
  | CSet (k v : bytes)
  | CGet (k : bytes)
  | CAdd (k : bytes) (i : Z)
  | CCheck (ks : list bytes).

Inductive reply : Type :=
  | RUnit
  | RVal (v : bytes)
  | RInt (z : Z)
  | RBool (b : bool).

Definition spec_cmd (c : cmd) (m : gmap bytes bytes) : option (reply * gmap bytes bytes) :=
  match c with
  | CSet k v => Some (RUnit, <[k := v]> m)
  | CGet k => v ← m !! k; Some (RVal v, m)
  | CAdd k i =>
      match m !! k with
      | None => Some (RInt (int64 i), <[k := Decimal.to_string (int64 i)]> m)
      | Some v =>
          match Decimal.stoll v with
          | Ret n => Some (RInt (int64 (i + n)), <[k := Decimal.to_string (int64 (i + n))]> m)
          | _ => None
          end
      end
  | CCheck ks => Some (RBool (forallb (fun k => bool_decide (is_Some (m !! k))) ks), m)
  end.

Fixpoint spec_run (cs : list cmd) (m : gmap bytes bytes) : option (list reply * gmap bytes bytes) :=
  match cs with
  | [] => Some ([], m)
  | c :: cs =>
      '(r, m1) ← spec_cmd c m; '(rs, m2) ← spec_run cs m1; Some (r :: rs, m2)
  end.

Definition run_cmd (c : cmd) : M S reply :=
  match c with
  | CSet k v => let! _ := store_set ops k v in ret RUnit
  | CGet k => let! v := store_get ops k in ret (RVal v)
  | CAdd k i => let! z := store_add ops k i in ret (RInt z)
  | CCheck ks => let! b := store_check ops ks in ret (RBool b)
  end.

Fixpoint run (cs : list cmd) : M S (list reply) :=
  match cs with
  | [] => ret []
  | c :: cs => let! r := run_cmd c in let! rs := run cs in ret (r :: rs)
  end.

Definition cmd_ok (c : cmd) : Prop :=
  match c with
  | CSet k v => key_ok k /\ val_ok v
  | CGet k => key_ok k
  | CAdd k i => key_ok k /\ in_int64 i
  | CCheck ks => keys_ok ks
  end.

Definition represents (s : S) (m : gmap bytes bytes) : Prop :=
  inv s /\ forall k, view s k = m !! k.

Lemma represents_insert s s' m k v :
  inv s' -> (forall k', view s' k' = if decide (k' = k) then Some v else view s k') ->
  (forall k', view s k' = m !! k') -> represents s' (<[k := v]> m).
Proof.
  intros Hi V R. split; [done|]. intros k'. rewrite V, R, lookup_insert.
  by repeat case_decide.
Qed.

Lemma represents_same s s' m :
  inv s' -> (forall k', view s' k' = view s k') ->
  (forall k', view s k' = m !! k') -> represents s' m.
Proof. intros Hi V R. split; [done|]. intros k'. by rewrite V. Qed.

Lemma run_cmd_refines c s m r m' :
  represents s m -> cmd_ok c -> spec_cmd c m = Some (r, m') ->
  exists s', run_cmd c s = (Ret r, s') /\ represents s' m'.
Proof.
  intros [Hi R] Hok E. destruct c as [k v|k|k i|ks]; cbn in E, Hok.
  - simplify_eq. destruct Hok as [Hk Hv].
    destruct (set_law s k v Hi Hk Hv) as (s1 & E1 & Hi1 & V). exists s1.
    cbn. unfold bind. rewrite E1. split; [done|]. by eapply represents_insert.
  - destruct (m !! k) as [v|] eqn:Hm; simplify_eq/=.
    destruct (get_law s k v Hi Hok) as (s1 & E1 & Hi1 & V); [by rewrite R|]. exists s1.
    unfold bind. rewrite E1. split; [done|]. by eapply represents_same.
  - destruct Hok as [Hk Hz].
    assert (exists n, match m !! k with None => n = 0 | Some v => Decimal.stoll v = Ret n end /\
      r = RInt (int64 (i + n)) /\ m' = <[k := Decimal.to_string (int64 (i + n))]> m)
      as (n & Hn & -> & ->).
    { destruct (m !! k) as [v|] eqn:Hm; [|exists 0; rewrite Z.add_0_r; by simplify_eq].
      destruct (Decimal.stoll v) as [n| |] eqn:Hs; simplify_eq. by exists n. }
    destruct (add_law s k i n Hi Hk Hz) as (s1 & E1 & Hi1 & V); [by rewrite R|]. exists s1.
    cbn. unfold bind. rewrite E1. split; [done|]. by eapply represents_insert.
  - simplify_eq. destruct (check_law s ks Hi Hok) as (s1 & E1 & Hi1 & V). exists s1.
    cbn. unfold bind. rewrite E1. split; [|by eapply represents_same].
    unfold ret. do 3 f_equal. apply forallb_ext. intros k. by rewrite R.
Qed.

Lemma run_refines cs s m rs m' :
  represents s m -> Forall cmd_ok cs -> spec_run cs m = Some (rs, m') ->
  exists s', run cs s = (Ret rs, s') /\ represents s' m'.
Proof.
  revert s m rs m'. induction cs as [|c cs IH]; intros s m rs m' HR Hok E; cbn in E.
  - simplify_eq. by exists s.
  - apply Forall_cons in Hok as [Hc Hcs].
    destruct (spec_cmd c m) as [[r m1]|] eqn:E1; [|done]. cbn in E.
    destruct (spec_run cs m1) as [[rs2 m2]|] eqn:E2; simplify_eq/=.
    destruct (run_cmd_refines c s m r m1 HR Hc E1) as (s1 & R1 & HR1).
    destruct (IH s1 m1 rs2 m' HR1 Hcs E2) as (s2 & R2 & HR2).
    exists s2. unfold bind. by rewrite R1, R2.
Qed.
End store_clients.

(** ** HashStore *)

Module HashStore.

(** A thread blocked in [cv_.wait*] inside [get] or [wait]: the keys of its
    predicate, its timeout, and whether a notification reached it since it
    last checked the predicate. *)
Record waiter := mkWaiter {
  w_keys : list bytes;
  w_timeout : Z;
  w_notified : bool;
}.

Record t := mk {
  map_ : gmap bytes bytes;
  timeout_ : Z;
  waiters : gmap nat waiter;  (* the threads waiting on cv_ *)
}.

Definition set_map (m : gmap bytes bytes) (s : t) : t := mk m (timeout_ s) (waiters s).

Definition notify (w : waiter) : waiter := mkWaiter (w_keys w) (w_timeout w) true.
Definition notify_all (s : t) : t := mk (map_ s) (timeout_ s) (notify <$> waiters s).

(** map_.find(key) != map_.end() *)
Definition has (s : t) (key : bytes) : bool := bool_decide (is_Some (map_ s !! key)).

Definition set (key data : bytes) : M t unit := fun s =>
  (Ret tt, notify_all (set_map (<[key := data]> (map_ s)) s)).

(** [cv_.wait(lock, pred)] / [cv_.wait_for(lock, timeout, pred)] when no other
    thread touches the store meanwhile; [step] below has the interleavings. *)
Definition cv_wait (timeout : Z) (pred : t -> bool) : M t unit := fun s =>
  if pred s then (Ret tt, s)
  else if timeout =? kNoTimeout then (Block, s)
  else (Throw (SystemError ETIMEDOUT "Wait timeout"), s).

Definition get (key : bytes) : M t bytes := fun s =>
  match map_ s !! key with
  | Some v => (Ret v, s)
  | None =>
      (do! cv_wait (timeout_ s) (fun s => has s key) in
       (fun s => (* return map_[key]; operator[] default-inserts *)
          (Ret (default [] (map_ s !! key)),
           set_map (<[key := default [] (map_ s !! key)]> (map_ s)) s))) s
  end.

Definition wait_pred (keys : list bytes) (s : t) : bool := forallb (has s) keys.

Definition wait_for (keys : list bytes) (timeout : Z) : M t unit :=
  cv_wait timeout (wait_pred keys).

(** HashStore.hpp: the one-argument overload uses the class constant, not
    [timeout_]. *)
Definition wait (keys : list bytes) : M t unit := wait_for keys kDefaultTimeout.

Definition add (key : bytes) (i : Z) : M t Z := fun s =>
  (* const auto& value = map_[key]; *)
  let value := default [] (map_ s !! key) in
  let s := set_map (<[key := value]> (map_ s)) s in
  (let! ti := match value with
              | [] => ret i
              | _ => let! n := lift (Decimal.stoll value) in ret (int64 (i + n))
              end in
   fun s => (Ret ti, set_map (<[key := Decimal.to_string ti]> (map_ s)) s)) s.

Definition getNumKeys : M t Z := fun s => (Ret (Z.of_nat (size (map_ s))), s).

Definition deleteKey (key : bytes) : M t bool := fun s =>
  let numDeleted := if has s key then 1 else 0 in
  (Ret (numDeleted =? 1), set_map (delete key (map_ s)) s).

Fixpoint check (keys : list bytes) : M t bool := fun s =>
  match keys with
  | [] => (Ret true, s)
  | key :: keys => if has s key then check keys s else (Ret false, s)
  end.

Definition ops : StoreOps t := {|
  store_set := set; store_get := get; store_add := add;
  store_deleteKey := deleteKey; store_check := check;
  store_getNumKeys := getNumKeys; store_wait := wait; store_wait_for := wait_for;
|}.

Lemma check_eq keys s : check keys s = (Ret (forallb (has s) keys), s).
Proof.
  induction keys as [|k keys IH]; [done|]. simpl. by destruct (has s k).
Qed.

Lemma add_eq key i s n :
  in_int64 i ->
  match map_ s !! key with None => n = 0 | Some v => Decimal.stoll v = Ret n end ->
  add key i s = (Ret (int64 (i + n)),
    set_map (<[key := Decimal.to_string (int64 (i + n))]> (map_ s)) s).
Proof.
  intros Hi Hn. unfold add. destruct (map_ s !! key) as [v|]; cbn.
  - destruct v as [|b v]; [done|]. unfold_M. rewrite Hn. cbn.
    unfold set_map. cbn. by rewrite insert_insert_eq.
  - subst n. unfold_M. rewrite Z.add_0_r, int64_id by done.
    unfold set_map. cbn. by rewrite insert_insert_eq.
Qed.

(** [HashStore] implements the store contract, for every key and value. *)
#[global, refine] Instance spec : StoreSpec ops := {|
  view s k := map_ s !! k;
  inv _ := True;
  key_ok _ := True;
  keys_ok _ := True;
  val_ok _ := True;
|}.
Proof.
  - done.
  - intros s k v _ _ _. eexists. split_and!; [done..|]. intros k'. cbn.
    rewrite lookup_insert. by repeat case_decide.
  - intros s k v _ _ Hv. exists s. cbn. unfold get. by rewrite Hv.
  - intros s k _ _ Hv v. cbn. unfold get, cv_wait, has. rewrite Hv.
    unfold_M. rewrite Hv, bool_decide_false by (by intros [? ?]).
    by destruct (timeout_ s =? kNoTimeout).
  - intros s k i n _ _ Hi Hn. eexists. cbn. rewrite (add_eq k i s n) by done.
    split_and!; [done..|]. intros k'. cbn. rewrite lookup_insert. by repeat case_decide.
  - intros s ks _ _. exists s. cbn. by rewrite check_eq.
Defined.

(** *** Interleavings

    Each step runs a critical section of [m_].  [LWait] is the part of
    [get]/[wait] up to the blocking call, [LWake] a return from the wait after
    a notification (the predicate is evaluated again, and the thread waits on
    if it does not hold), [LTimeout] the expiry of a timed wait. *)
Inductive label : Type :=
  | LSet (key data : bytes)
  | LAdd (key : bytes) (i : Z)
  | LDelete (key : bytes)
  | LWait (tid : nat) (keys : list bytes) (timeout : Z)
  | LWake (tid : nat)
  | LTimeout (tid : nat).

Definition set_waiters (ws : gmap nat waiter) (s : t) : t := mk (map_ s) (timeout_ s) ws.

Inductive step : t -> label -> t -> Prop :=
  | SSet s key data : step s (LSet key data) (snd (set key data s))
  | SAdd s key i : step s (LAdd key i) (snd (add key i s))
  | SDelete s key : step s (LDelete key) (snd (deleteKey key s))
  | SWait s tid keys timeout :
      waiters s !! tid = None -> wait_pred keys s = false ->
      step s (LWait tid keys timeout)
        (set_waiters (<[tid := mkWaiter keys timeout false]> (waiters s)) s)
  | SWakeDone s tid w :
      waiters s !! tid = Some w -> w_notified w = true -> wait_pred (w_keys w) s = true ->
      step s (LWake tid) (set_waiters (delete tid (waiters s)) s)
  | SWakeAgain s tid w :
      waiters s !! tid = Some w -> w_notified w = true -> wait_pred (w_keys w) s = false ->
      step s (LWake tid)
        (set_waiters (<[tid := mkWaiter (w_keys w) (w_timeout w) false]> (waiters s)) s)
  | STimeout s tid w :
      waiters s !! tid = Some w -> w_timeout w <> kNoTimeout ->
      step s (LTimeout tid) (set_waiters (delete tid (waiters s)) s).

Inductive steps (ok : t -> label -> Prop) : t -> t -> Prop :=
  | steps_refl s : steps ok s s
  | steps_next s1 l s2 s3 : ok s1 l -> step s1 l s2 -> steps ok s2 s3 -> steps ok s1 s3.

(** No lost wake-up: a waiter no notification is pending for has a key missing. *)
Definition no_lost_wakeup (s : t) : Prop :=
  forall tid w, waiters s !! tid = Some w -> w_notified w = false ->
    wait_pred (w_keys w) s = false.

(** [add] used on present keys only. *)
Definition add_present (s : t) (l : label) : Prop :=
  match l with LAdd key _ => has s key = true | _ => True end.

Lemma wait_pred_mono keys s s' :
  (forall k, has s' k = true -> has s k = true) ->
  wait_pred keys s = false -> wait_pred keys s' = false.
Proof.
  intros H E. destruct (wait_pred keys s') eqn:E'; [|done]. rewrite <- E. symmetry.
  unfold wait_pred in *. rewrite forallb_forall in *. eauto.
Qed.

Lemma add_waiters key i s : waiters (snd (add key i s)) = waiters s.
Proof. unfold add. crush_M. Qed.

Lemma insert_present {A} (m : gmap bytes A) key v k :
  is_Some (m !! key) -> is_Some (<[key := v]> m !! k) <-> is_Some (m !! k).
Proof.
  intros H. rewrite lookup_insert. case_decide; subst; [|done]. split; intros; [done|eauto].
Qed.

Lemma add_has key i s k : has s key = true -> has (snd (add key i s)) k = has s k.
Proof.
  intros H. unfold has in *. apply bool_decide_eq_true in H.
  apply bool_decide_ext. unfold add. unfold_M.
  repeat (split_match; simplify_eq/=); cbn;
    rewrite ?insert_insert_eq; by apply insert_present.
Qed.

Lemma no_lost_wakeup_step s l s' :
  no_lost_wakeup s -> add_present s l -> step s l s' -> no_lost_wakeup s'.
Proof.
  intros HI Hok Hst tid' w' Hw' Hn'.
  destruct Hst as [s key data|s key i|s key|s tid keys timeout Hnone Hp
    |s tid w Hw Hn Hp|s tid w Hw Hn Hp|s tid w Hw Ht]; cbn in Hw'.
  - rewrite lookup_fmap in Hw'. by apply fmap_Some in Hw' as (w0 & ? & ->).
  - rewrite add_waiters in Hw'. eapply wait_pred_mono; [|by eapply HI].
    intros k. by rewrite add_has.
  - eapply wait_pred_mono; [|by eapply HI].
    intros k. unfold has. rewrite !bool_decide_eq_true. cbn. rewrite lookup_delete.
    case_decide; [by intros [? ?]|done].
  - rewrite lookup_insert in Hw'. case_decide; simplify_eq/=; [done|]. by eapply (HI tid').
  - rewrite lookup_delete in Hw'. case_decide; [done|]. by eapply (HI tid').
  - rewrite lookup_insert in Hw'. case_decide; simplify_eq/=; [done|]. by eapply (HI tid').
  - rewrite lookup_delete in Hw'. case_decide; [done|]. by eapply (HI tid').
Qed.

Definition init (timeout : Z) : t := mk ∅ timeout ∅.

Lemma no_lost_wakeup_init timeout : no_lost_wakeup (init timeout).
Proof. by intros tid w H. Qed.

End HashStore.

(** ** PrefixStore *)

Module PrefixStore.
Section prefix.
Context {S : Type} (store_ : StoreOps S) (prefix_ : bytes).

Definition joinKey (key : bytes) : bytes := prefix_ ++ str "/" ++ key.

Fixpoint joinKeys (keys : list bytes) : list bytes :=
  match keys with
  | [] => []
  | key :: keys => joinKey key :: joinKeys keys
  end.

Definition set (key value : bytes) : M S unit := store_set store_ (joinKey key) value.
Definition get (key : bytes) : M S bytes := store_get store_ (joinKey key).
Definition add (key : bytes) (value : Z) : M S Z := store_add store_ (joinKey key) value.
Definition deleteKey (key : bytes) : M S bool := store_deleteKey store_ (joinKey key).
Definition getNumKeys : M S Z := store_getNumKeys store_.
Definition check (keys : list bytes) : M S bool := store_check store_ (joinKeys keys).
Definition wait (keys : list bytes) : M S unit := store_wait store_ (joinKeys keys).
Definition wait_for (keys : list bytes) (timeout : Z) : M S unit :=
  store_wait_for store_ (joinKeys keys) timeout.

Definition ops : StoreOps S := {|
  store_set := set; store_get := get; store_add := add;
  store_deleteKey := deleteKey; store_check := check;
  store_getNumKeys := getNumKeys; store_wait := wait; store_wait_for := wait_for;
|}.

Lemma joinKey_inj k1 k2 : joinKey k1 = joinKey k2 -> k1 = k2.
Proof. unfold joinKey. intros H. by apply app_inv_head in H; simplify_eq/=. Qed.

Lemma joinKeys_map keys : joinKeys keys = map joinKey keys.
Proof. by induction keys as [|k keys IH]; simpl; [|rewrite IH]. Qed.

Context `{Hspec : !StoreSpec store_}.

Lemma view_insert_join (v0 v1 : bytes -> option bytes) k v k' :
  (forall j, v1 j = if decide (j = joinKey k) then Some v else v0 j) ->
  v1 (joinKey k') = if decide (k' = k) then Some v else v0 (joinKey k').
Proof.
  intros H. rewrite H. repeat case_decide; subst; try done. exfalso; eauto using joinKey_inj.
Qed.

(** A prefix store over any store that meets the contract meets it too, with
    the keys below its prefix as its keys. *)
#[global, refine] Instance spec : StoreSpec ops := {|
  view s k := view s (joinKey k);
  inv := inv;
  key_ok k := key_ok (joinKey k);
  keys_ok ks := keys_ok (joinKeys ks);
  val_ok := val_ok;
  counter_ok := counter_ok;
|}.
Proof.
  - intros s k v Hi Hk Hv. destruct (set_law s (joinKey k) v Hi Hk Hv) as (s' & E & ? & V).
    exists s'. split_and!; [done..|]. intros k'. by apply (view_insert_join (view s)).
  - intros s k v Hi Hk Hv. destruct (get_law s (joinKey k) v Hi Hk Hv) as (s' & ? & ? & ?).
    exists s'. eauto.
  - intros s k Hi Hk Hv. by apply (get_absent_law s (joinKey k)).
  - intros s k i n Hi Hk Hz Hn.
    destruct (add_law s (joinKey k) i n Hi Hk Hz Hn) as (s' & E & ? & V).
    exists s'. split_and!; [done..|]. intros k'. by apply (view_insert_join (view s)).
  - intros s ks Hi Hks.
    destruct (check_law s (joinKeys ks) Hi Hks) as (s' & E & ? & ?).
    exists s'. split_and!; [|done|eauto]. cbn. unfold check. rewrite E. do 2 f_equal.
    rewrite joinKeys_map. clear. induction ks as [|k ks IH]; [done|].
    cbn [map forallb]. by rewrite IH.
Defined.
End prefix.

(** Two prefixes without a slash never address the same key. *)
Lemma joinKey_disjoint p1 p2 k1 k2 :
  x2f ∉ p1 -> x2f ∉ p2 -> joinKey p1 k1 = joinKey p2 k2 -> p1 = p2 /\ k1 = k2.
Proof.
  unfold joinKey. change (str "/") with [x2f].
  revert p2. induction p1 as [|b p1 IH]; intros [|c p2] H1 H2 E; simplify_eq/=.
  - done.
  - destruct H2. apply list_elem_of_here.
  - destruct H1. apply list_elem_of_here.
  - rewrite elem_of_cons in H1, H2.
    destruct (IH p2) as [-> ->]; tauto.
Qed.

End PrefixStore.

(** ** Properties *)

Section prefix_isolation.
Context {S : Type} (store_ : StoreOps S) `{!StoreSpec store_}.

(** Two prefix stores over the same store, with different prefixes that
    contain no slash, do not see each other's writes: after [set] and [add]
    through the first, every key of the second reads as before. *)
Theorem prefix_isolation (p1 p2 k1 v : bytes) (i : Z) (s : S) :
  p1 <> p2 -> x2f ∉ p1 -> x2f ∉ p2 ->
  inv s -> key_ok (PrefixStore.joinKey p1 k1) -> val_ok v -> in_int64 i ->
  (forall k2, view (snd (PrefixStore.set store_ p1 k1 v s)) (PrefixStore.joinKey p2 k2) =
              view s (PrefixStore.joinKey p2 k2)) /\
  (view s (PrefixStore.joinKey p1 k1) = None ->
   forall k2, view (snd (PrefixStore.add store_ p1 k1 i s)) (PrefixStore.joinKey p2 k2) =
              view s (PrefixStore.joinKey p2 k2)).
Proof.
  intros Hne H1 H2 Hi Hk Hv Hz.
  assert (forall k2, PrefixStore.joinKey p2 k2 <> PrefixStore.joinKey p1 k1) as Hd.
  { intros k2 E. by apply PrefixStore.joinKey_disjoint in E as [-> _]. }
  split.
  - intros k2. destruct (set_law s _ v Hi Hk Hv) as (s' & E & _ & V).
    unfold PrefixStore.set. rewrite E. cbn. rewrite V. by rewrite decide_False.
  - intros Hn k2. destruct (add_law s _ i 0 Hi Hk Hz) as (s' & E & _ & V); [by rewrite Hn|].
    unfold PrefixStore.add. rewrite E. cbn. rewrite V. by rewrite decide_False.
Qed.
End prefix_isolation.

Lemma prefix_isolation_witness :
  view (snd (PrefixStore.set HashStore.ops (str "pg0") (str "rank") (str "1") (HashStore.init 0)))
       (PrefixStore.joinKey (str "pg1") (str "rank")) = None.
Proof.
  destruct (prefix_isolation HashStore.ops (str "pg0") (str "pg1") (str "rank") (str "1") 3
    (HashStore.init 0)) as [H _].
  - discriminate.
  - by apply (bool_decide_eq_true_1 (x2f ∉ str "pg0")).
  - by apply (bool_decide_eq_true_1 (x2f ∉ str "pg1")).
  - exact I.
  - exact I.
  - exact I.
  - vm_compute; split; [discriminate|reflexivity].
  - exact (H (str "rank")).
Defined.

(** Any program of [set], [get], [add] and [check] calls that the abstract
    map can run gives the same replies on a [HashStore], which ends up holding
    the abstract map. *)
Theorem hashstore_refines_map (cs : list cmd) (s : HashStore.t) rs m' :
  Forall (fun c => match c with CAdd _ i => in_int64 i | _ => True end) cs ->
  spec_run cs (HashStore.map_ s) = Some (rs, m') ->
  exists s', run HashStore.ops cs s = (Ret rs, s') /\ HashStore.map_ s' = m'.
Proof.
  intros Hok E.
  destruct (run_refines HashStore.ops cs s (HashStore.map_ s) rs m') as (s' & R & _ & V).
  - split; done.
  - eapply Forall_impl; [exact Hok|]. intros [k v|k|k i|ks]; cbn; done.
  - done.
  - exists s'. split; [done|]. by apply map_eq.
Qed.

Lemma hashstore_refines_map_witness :
  exists s', run HashStore.ops
    [CSet (str "a") (str "41"); CAdd (str "a") 1; CGet (str "a"); CCheck [str "a"; str "b"]]
    (HashStore.init 0) =
    (Ret [RUnit; RInt 42; RVal (str "42"); RBool false], s') /\
    HashStore.map_ s' = <[str "a" := str "42"]> (<[str "a" := str "41"]> ∅).
Proof.
  apply (hashstore_refines_map _ (HashStore.init 0)).
  - repeat constructor; vm_compute; discriminate.
  - reflexivity.
Defined.

(** The [HashStore] condition variable loses no wake-up in any interleaving
    in which [add] is used on existing keys: a thread that waits with no
    notification pending always has a key that is still missing. *)
Theorem hashstore_no_lost_wakeup timeout (s : HashStore.t) :
  HashStore.steps HashStore.add_present (HashStore.init timeout) s ->
  HashStore.no_lost_wakeup s.
Proof.
  intros H. pose proof (HashStore.no_lost_wakeup_init timeout) as HI.
  induction H as [|s1 l s2 s3 Hok Hst _ IH]; [done|].
  apply IH. by eapply HashStore.no_lost_wakeup_step.
Qed.

Definition hs_waiting : HashStore.t :=
  HashStore.set_waiters {[ 7%nat := HashStore.mkWaiter [str "k"] 0 false ]} (HashStore.init 0).

Lemma hs_waiting_step :
  HashStore.step (HashStore.init 0) (HashStore.LWait 7 [str "k"] 0) hs_waiting.
Proof. apply (HashStore.SWait (HashStore.init 0)); reflexivity. Qed.

Lemma hashstore_no_lost_wakeup_witness :
  HashStore.no_lost_wakeup (snd (HashStore.set (str "k") (str "v") hs_waiting)).
Proof.
  apply (hashstore_no_lost_wakeup 0).
  eapply HashStore.steps_next; [|exact hs_waiting_step|]; [exact I|].
  eapply HashStore.steps_next; [|apply HashStore.SSet|apply HashStore.steps_refl]. exact I.
Defined.

(** [HashStore::add] does not notify the condition variable: a thread that
    waits without timeout for a key which [add] then creates stays blocked,
    with its key present and no wake-up pending. *)
Theorem hashstore_add_loses_wakeup :
  exists s w, HashStore.steps (fun _ _ => True) (HashStore.init kNoTimeout) s /\
    HashStore.waiters s !! 7%nat = Some w /\
    HashStore.w_timeout w = kNoTimeout /\ HashStore.w_notified w = false /\
    HashStore.wait_pred (HashStore.w_keys w) s = true.
Proof.
  exists (snd (HashStore.add (str "k") 1 hs_waiting)), (HashStore.mkWaiter [str "k"] 0 false).
  split; [|by vm_compute].
  eapply HashStore.steps_next; [done|exact hs_waiting_step|].
  eapply HashStore.steps_next; [done|apply HashStore.SAdd|apply HashStore.steps_refl].
Qed.

Section rendezvous.
Context {S : Type} (store_ : StoreOps S) `{!StoreSpec store_}.

(** A counter that [n] workers each increment by one through a prefix store
    of any store reads [n], the rendezvous protocol of store-based
    initialization. *)
Theorem prefix_rendezvous (p k : bytes) (n : nat) (s : S) :
  inv s -> key_ok (PrefixStore.joinKey p k) -> view s (PrefixStore.joinKey p k) = None ->
  (0 < n)%nat -> Z.of_nat n < 2 ^ 63 ->
  exists s' s'', add_n (PrefixStore.ops store_ p) n k s = (Ret (Z.of_nat n), s') /\
    PrefixStore.get store_ p k s' = (Ret (Decimal.to_string (Z.of_nat n)), s'').
Proof.
  intros Hi Hk Hv Hpos Hn.
  destruct (add_n_counts (PrefixStore.ops store_ p) (StoreSpec0 := PrefixStore.spec store_ p)
    s k n Hi Hk Hv Hn) as (s' & E & Hi' & V).
  rewrite decide_False in V by lia.
  destruct (get_law (StoreSpec := PrefixStore.spec store_ p) s' k _ Hi' Hk V) as (s'' & E' & _).
  exists s', s''. split; [done|exact E'].
Qed.
End rendezvous.

Lemma prefix_rendezvous_witness :
  exists s' s'', add_n (PrefixStore.ops HashStore.ops (str "default_pg")) 12 (str "joined")
      (HashStore.init 0) = (Ret 12, s') /\
    PrefixStore.get HashStore.ops (str "default_pg") (str "joined") s' = (Ret (str "12"), s'').
Proof.
  exact (prefix_rendezvous HashStore.ops (str "default_pg") (str "joined") 12 (HashStore.init 0)
    I I eq_refl ltac:(lia) ltac:(lia)).
Defined.
