(* ===== verification/Sockets.v ===== *)
(** * Socket helpers

    Models namespace [tcputil] of csrc/c10d/distributed/c10d/Utils.hpp: the
    [SYSCHECK] retry loop, [sendBytes]/[recvBytes] and the length-prefixed
    framing on top of them.  The kernel's answers to send(2)/recv(2) are a
    parameter: a schedule of results. *)

From stdpp Require Import base option list gmap strings.
From Stdlib Require Import ZArith Lia.
From S2P Require Import Prelude.

Definition EINTR : Z := 4.
Definition EAGAIN : Z := 11.        (* = EWOULDBLOCK *)
Definition EBADF : Z := 9.
Definition ECONNABORTED : Z := 103.
Definition ECONNRESET : Z := 104.
Definition ECONNREFUSED : Z := 111.

Module Tcputil.

(** ** The transfer loops, against a schedule of system call results *)

Inductive sysret : Type :=
  | SysOk (n : nat)    (* return value n >= 0 *)
  | SysErr (errno : Z) (* return value -1 *).

(** What [SYSCHECK] throws on an error other than EINTR. *)
Definition syscheck_exn (errno : Z) : exn :=
  if errno =? EAGAIN then RuntimeError "Socket Timeout" else SystemError errno "".

(** [sendBytes]: the bytes handed to the kernel so far are [wire].  A schedule
    that ends before the loop does leaves the call inside send(2). *)
Fixpoint send_loop (rs : list sysret) (data wire : bytes) : outcome unit * bytes :=
  match data with
  | [] => (Ret tt, wire)
  | _ =>
      match rs with
      | [] => (Block, wire)
      | SysErr errno :: rs =>
          if errno =? EINTR then send_loop rs data wire
          else (Throw (syscheck_exn errno), wire)
      | SysOk n :: rs =>
          if Nat.eqb n 0 then (Throw (SystemError ECONNRESET ""), wire)
          else send_loop rs (drop n data) (wire ++ take n data)
      end
  end.

(** [recvBytes]: [inp] is the stream not yet consumed, [buf] the part of the
    buffer already filled. *)
Fixpoint recv_loop (rs : list sysret) (need : nat) (inp buf : bytes)
  : outcome bytes * bytes :=
  match need with
  | O => (Ret buf, inp)
  | _ =>
      match rs with
      | [] => (Block, inp)
      | SysErr errno :: rs =>
          if errno =? EINTR then recv_loop rs need inp buf
          else (Throw (syscheck_exn errno), inp)
      | SysOk n :: rs =>
          if Nat.eqb n 0 then (Throw (SystemError ECONNRESET ""), inp)
          else recv_loop rs (need - n) (drop n inp) (buf ++ take n inp)
      end
  end.

(** A schedule of interrupted calls and non-empty partial transfers that moves
    exactly [total] bytes: what send(2)/recv(2) may answer on a connection that
    stays up. *)
Fixpoint moves (rs : list sysret) (total : nat) : Prop :=
  match rs with
  | [] => total = O
  | SysErr errno :: rs => errno = EINTR /\ moves rs total
  | SysOk n :: rs => (0 < n <= total)%nat /\ moves rs (total - n)
  end.

(** Whatever the fragmentation, [sendBytes] transmits the buffer. *)
Lemma send_loop_moves rs data wire :
  moves rs (length data) -> send_loop rs data wire = (Ret tt, wire ++ data).
Proof.
  revert data wire. induction rs as [|r rs IH]; intros data wire H; cbn in H.
  - destruct data; [|done]. cbn. by rewrite app_nil_r.
  - destruct data as [|b data]; [by rewrite app_nil_r|].
    destruct r as [n|errno].
    + destruct H as [Hn H]. cbn [send_loop].
      destruct (Nat.eqb_spec n 0); [lia|].
      rewrite IH.
      * by rewrite <- app_assoc, take_drop.
      * by rewrite length_drop.
    + destruct H as [-> H]. cbn [send_loop]. cbn. by apply IH.
Qed.

(** Whatever the fragmentation, [recvBytes] fills the buffer with the next
    bytes of the stream and consumes no more. *)
Lemma recv_loop_moves rs need inp buf :
  moves rs need -> (need <= length inp)%nat ->
  recv_loop rs need inp buf = (Ret (buf ++ take need inp), drop need inp).
Proof.
  revert need inp buf. induction rs as [|r rs IH]; intros need inp buf H Hl; cbn in H.
  - subst need. cbn. by rewrite app_nil_r.
  - destruct need as [|need']; [cbn; by rewrite app_nil_r|].
    destruct r as [n|errno].
    + destruct H as [Hn H]. cbn [recv_loop]. destruct (Nat.eqb_spec n 0); [lia|].
      rewrite IH; [|done|rewrite length_drop; lia].
      rewrite <- app_assoc, drop_drop. f_equal; [|f_equal; lia].
      do 2 f_equal. rewrite <- (take_drop n (take (S need') inp)).
      f_equal; [rewrite take_take; f_equal; lia|].
      by rewrite skipn_firstn_comm.
    + destruct H as [-> H]. cbn [recv_loop]. cbn. by apply IH.
Qed.

(** ** Sockets as byte streams *)

(** One connected socket: what has arrived and was not read, whether the peer
    has closed its end, what was written, and the error a send would give. *)
Record sock := mkSock {
  inp : bytes;
  eof : bool;
  out : bytes;
  werr : option Z;
}.

Definition recvBytes (n : nat) : M sock bytes := fun s =>
  match n with
  | O => (Ret [], s)
  | _ =>
      if (n <=? length (inp s))%nat
      then (Ret (take n (inp s)), mkSock (drop n (inp s)) (eof s) (out s) (werr s))
      else if eof s
      then (Throw (SystemError ECONNRESET ""), mkSock [] (eof s) (out s) (werr s))
      else (Block, s)
  end.

Definition sendBytes (data : bytes) : M sock unit := fun s =>
  match data with
  | [] => (Ret tt, s)
  | _ =>
      match werr s with
      | Some errno => (Throw (syscheck_exn errno), s)
      | None => (Ret tt, mkSock (inp s) (eof s) (out s ++ data) (werr s))
      end
  end.

(** [recvBytes] and [sendBytes] are the transfer loops, for every fragmentation
    of the transfer. *)
Lemma recvBytes_loop rs n s :
  moves rs n -> (n <= length (inp s))%nat ->
  recvBytes n s =
  let '(o, i) := recv_loop rs n (inp s) [] in (o, mkSock i (eof s) (out s) (werr s)).
Proof.
  intros Hm Hl. rewrite recv_loop_moves by done. unfold recvBytes.
  destruct n; [by destruct s|]. destruct (Nat.leb_spec (S n) (length (inp s))); [done|lia].
Qed.

Lemma sendBytes_loop rs data s :
  moves rs (length data) -> werr s = None ->
  sendBytes data s =
  let '(o, w) := send_loop rs data (out s) in (o, mkSock (inp s) (eof s) w (werr s)).
Proof.
  intros Hm Hw. rewrite send_loop_moves by done. unfold sendBytes. rewrite Hw.
  destruct data; [|done]. rewrite app_nil_r, <- Hw. by destruct s.
Qed.

(** ** Framing *)

(** [SizeType] (uint64_t) and [int64_t] on the wire. *)
Definition sendSize (n : Z) : M sock unit := sendBytes (le_bytes 8 n).
Definition recvSize : M sock Z := let! b := recvBytes 8 in ret (le_value b).
Definition sendInt64 (z : Z) : M sock unit := sendBytes (le_bytes 8 z).
Definition recvInt64 : M sock Z := let! b := recvBytes 8 in ret (int64 (le_value b)).
(** The one-byte enums [QueryType], [CheckResponseType], [WaitResponseType]. *)
Definition sendByte (b : byte) : M sock unit := sendBytes [b].
Definition recvByte : M sock byte :=
  let! b := recvBytes 1 in ret (default x00 (head b)).

Definition sendVector (vec : bytes) : M sock unit :=
  do! sendSize (Z.of_nat (length vec)) in
  sendBytes vec.

(** std::vector's constructor throws above max_size() = PTRDIFF_MAX. *)
Definition recvVector : M sock bytes :=
  let! valueSize := recvSize in
  do! assert_ (valueSize <? 2 ^ 63) (LengthError "vector") in
  recvBytes (Z.to_nat valueSize).

Definition sendString (str : bytes) : M sock unit :=
  do! sendSize (Z.of_nat (length str)) in
  sendBytes str.

Definition recvString : M sock bytes :=
  let! valueSize := recvSize in
  do! assert_ (valueSize <? 2 ^ 63) (LengthError "vector") in
  recvBytes (Z.to_nat valueSize).

(** The bytes a framed string occupies. *)
Definition frame (s : bytes) : bytes := le_bytes 8 (Z.of_nat (length s)) ++ s.

Definition fits (s : bytes) : Prop := Z.of_nat (length s) < 2 ^ 63.

Lemma recvBytes_app n data rest e o w :
  length data = n ->
  recvBytes n (mkSock (data ++ rest) e o w) = (Ret data, mkSock rest e o w).
Proof.
  intros <-. unfold recvBytes. destruct data as [|b data]; [done|].
  cbn [length]. change (S (length data)) with (length (b :: data)). cbn [inp eof out werr].
  rewrite length_app. destruct (Nat.leb_spec (length (b :: data)) (length (b :: data) + length rest)); [|lia].
  by rewrite take_app_length, drop_app_length.
Qed.

Lemma recvSize_app z rest e o w :
  0 <= z < 2 ^ 64 ->
  recvSize (mkSock (le_bytes 8 z ++ rest) e o w) = (Ret z, mkSock rest e o w).
Proof.
  intros Hz. unfold recvSize, bind. rewrite recvBytes_app by apply le_bytes_length.
  rewrite le_value_bytes. change (256 ^ Z.of_nat 8) with (2 ^ 64). by rewrite Z.mod_small.
Qed.

Lemma recvInt64_app z rest e o w :
  in_int64 z -> recvInt64 (mkSock (le_bytes 8 z ++ rest) e o w) = (Ret z, mkSock rest e o w).
Proof.
  intros Hz. unfold recvInt64, bind. rewrite recvBytes_app by apply le_bytes_length.
  rewrite le_value_bytes. change (256 ^ Z.of_nat 8) with (2 ^ 64). unfold ret.
  do 2 f_equal. unfold int64, swrap. rewrite Z.mod_mod by done.
  exact (int64_id z Hz).
Qed.

Lemma recvByte_app b rest e o w :
  recvByte (mkSock (b :: rest) e o w) = (Ret b, mkSock rest e o w).
Proof. reflexivity. Qed.

Lemma recvString_frame s rest e o w :
  fits s -> recvString (mkSock (frame s ++ rest) e o w) = (Ret s, mkSock rest e o w).
Proof.
  intros Hf. unfold recvString, frame, bind, assert_, lift, ocheck, fits in *. rewrite <- app_assoc.
  rewrite recvSize_app by lia. destruct (Z.ltb_spec (Z.of_nat (length s)) (2 ^ 63)); [|lia].
  rewrite recvBytes_app; [done|lia].
Qed.

Lemma recvVector_frame s rest e o w :
  fits s -> recvVector (mkSock (frame s ++ rest) e o w) = (Ret s, mkSock rest e o w).
Proof. apply recvString_frame. Qed.

Lemma sendBytes_ok data i e o :
  sendBytes data (mkSock i e o None) = (Ret tt, mkSock i e (o ++ data) None).
Proof. destruct data; cbn; [by rewrite app_nil_r|done]. Qed.

Lemma sendString_ok s i e o :
  sendString s (mkSock i e o None) = (Ret tt, mkSock i e (o ++ frame s) None).
Proof.
  unfold sendString, sendSize, bind, frame. rewrite sendBytes_ok. rewrite sendBytes_ok.
  by rewrite app_assoc.
Qed.

End Tcputil.

(** ** Properties *)

(** A value written with [sendString] or [sendVector] and any other values
    is read back exactly by the matching receive calls on the other side, for
    every way the kernel fragments and interrupts the transfers in both
    directions, and the receiver consumes not one byte of what follows. *)
Theorem framing_roundtrip (rs rs' rs'' : list Tcputil.sysret) (s rest : bytes) :
  Tcputil.fits s ->
  Tcputil.moves rs (length (Tcputil.frame s)) ->
  Tcputil.moves rs' 8 -> Tcputil.moves rs'' (length s) ->
  let '(o, wire) := Tcputil.send_loop rs (Tcputil.frame s) [] in
  let '(hdr, wire1) := Tcputil.recv_loop rs' 8 (wire ++ rest) [] in
  let '(body, wire2) := Tcputil.recv_loop rs'' (length s) wire1 [] in
  o = Ret tt /\ (let? h := hdr in Ret (le_value h)) = Ret (Z.of_nat (length s)) /\
  body = Ret s /\ wire2 = rest.
Proof.
  intros Hf H H1 H2. rewrite Tcputil.send_loop_moves by done. unfold Tcputil.frame.
  rewrite Tcputil.recv_loop_moves;
    [|done|rewrite !length_app, le_bytes_length; cbn [length]; lia].
  assert (Hv : le_value (le_bytes 8 (Z.of_nat (length s))) = Z.of_nat (length s)).
  { rewrite le_value_bytes, Z.mod_small; [done|]. unfold Tcputil.fits in Hf. lia. }
  assert (exists h, le_bytes 8 (Z.of_nat (length s)) = h /\ length h = 8%nat) as (h & Eh & Hl)
    by (eexists; split; [done|apply le_bytes_length]).
  rewrite Eh in *. cbn [app]. rewrite <- app_assoc, take_app_length', drop_app_length' by done.
  rewrite Tcputil.recv_loop_moves; [|done|rewrite length_app; lia].
  cbn [app obind]. by rewrite take_app_length, drop_app_length, Hv.
Qed.

Lemma framing_roundtrip_witness :
  let '(o, wire) := Tcputil.send_loop [Tcputil.SysOk 3; Tcputil.SysErr EINTR; Tcputil.SysOk 7]
                      (Tcputil.frame [x61; x62]) [] in
  let '(hdr, wire1) := Tcputil.recv_loop [Tcputil.SysOk 5; Tcputil.SysOk 3] 8 (wire ++ [xff]) [] in
  let '(body, wire2) := Tcputil.recv_loop [Tcputil.SysErr EINTR; Tcputil.SysOk 2] 2 wire1 [] in
  o = Ret tt /\ (let? h := hdr in Ret (le_value h)) = Ret 2 /\ body = Ret [x61; x62] /\ wire2 = [xff].
Proof.
  apply (framing_roundtrip [Tcputil.SysOk 3; Tcputil.SysErr EINTR; Tcputil.SysOk 7]
    [Tcputil.SysOk 5; Tcputil.SysOk 3] [Tcputil.SysErr EINTR; Tcputil.SysOk 2] [x61; x62] [xff]).
  - reflexivity.
  - cbn. repeat split; lia.
  - cbn. repeat split; lia.
  - cbn. repeat split; lia.
Defined.

(** Whatever results send(2) gives, errors included, what [sendBytes] has
    put on the wire is a prefix of the buffer, so no byte is ever sent twice or
    out of order; the call returns normally only if the whole buffer was sent. *)
Theorem send_never_duplicates (rs : list Tcputil.sysret) (data wire : bytes) :
  exists sent rest, data = sent ++ rest /\
    snd (Tcputil.send_loop rs data wire) = wire ++ sent /\
    (fst (Tcputil.send_loop rs data wire) = Ret tt -> rest = []).
Proof.
  revert data wire. induction rs as [|r rs IH]; intros [|b data] wire.
  1,3: exists [], []; cbn; by rewrite app_nil_r.
  { exists [], (b :: data). cbn. by rewrite app_nil_r. }
  destruct r as [n|errno]; cbn [Tcputil.send_loop].
  - destruct (Nat.eqb n 0); [exists [], (b :: data); cbn; by rewrite app_nil_r|].
    destruct (IH (drop n (b :: data)) (wire ++ take n (b :: data))) as (sent & rest & E & -> & Hr).
    exists (take n (b :: data) ++ sent), rest.
    rewrite <- !app_assoc, <- E, take_drop. by split_and!.
  - destruct (errno =? EINTR); [apply IH|]. exists [], (b :: data). cbn. by rewrite app_nil_r.
Qed.
