(* ===== verification/TCPStore.v ===== *)
(** * TCPStore

    Models csrc/c10d/distributed/c10d/TCPStore.cpp: the daemon thread with its
    poll loop, its request handlers and the table of waiting clients, and the
    client side of every request. *)

From stdpp Require Import base option list gmap strings.
From Stdlib Require Import ZArith Lia.
From S2P Require Import Prelude Decimal Store Sockets.
Import Tcputil.

Inductive QueryType : Type := SET | GET | ADD | CHECK | WAIT | GETNUMKEYS | DELETE_KEY.

Definition QueryType_byte (q : QueryType) : byte :=
  match q with
  | SET => x00 | GET => x01 | ADD => x02 | CHECK => x03
  | WAIT => x04 | GETNUMKEYS => x05 | DELETE_KEY => x06
  end.

Definition QueryType_of_byte (b : byte) : option QueryType :=
  match b with
  | x00 => Some SET | x01 => Some GET | x02 => Some ADD | x03 => Some CHECK
  | x04 => Some WAIT | x05 => Some GETNUMKEYS | x06 => Some DELETE_KEY
  | _ => None
  end.

Definition READY : byte := x00.
Definition NOT_READY : byte := x01.
Definition STOP_WAITING : byte := x00.

(** ** The daemon *)

Module Daemon.

Record t := mk {
  tcpStore_ : gmap bytes bytes;
  waitingSockets_ : gmap bytes (list Z);   (* key -> the sockets waiting on it *)
  keysAwaited_ : gmap Z Z;                 (* socket -> number of keys awaited, size_t *)
  sockets_ : list Z;
  net : gmap Z sock;                       (* the open connections *)
}.

Definition set_store m d := mk m (waitingSockets_ d) (keysAwaited_ d) (sockets_ d) (net d).
Definition set_waiting w d := mk (tcpStore_ d) w (keysAwaited_ d) (sockets_ d) (net d).
Definition set_awaited a d := mk (tcpStore_ d) (waitingSockets_ d) a (sockets_ d) (net d).
Definition set_sockets l d := mk (tcpStore_ d) (waitingSockets_ d) (keysAwaited_ d) l (net d).
Definition set_net n d := mk (tcpStore_ d) (waitingSockets_ d) (keysAwaited_ d) (sockets_ d) n.

(** Run a socket operation on descriptor [fd]. *)
Definition on_sock {A} (fd : Z) (m : M sock A) : M t A := fun d =>
  match net d !! fd with
  | None => (Throw (SystemError EBADF ""), d)
  | Some s => let '(o, s') := m s in (o, set_net (<[fd := s']> (net d)) d)
  end.

(** One iteration of the loop of [wakeupWaitingClients];
    [keysAwaited_[socket]] default-inserts 0 and [--] wraps around. *)
Definition wake_one (socket : Z) : M t unit := fun d =>
  let n := uint64 (default 0 (keysAwaited_ d !! socket) - 1) in
  let d := set_awaited (<[socket := n]> (keysAwaited_ d)) d in
  if n =? 0 then on_sock socket (sendByte STOP_WAITING) d else (Ret tt, d).

Definition wakeupWaitingClients (key : bytes) : M t unit := fun d =>
  match waitingSockets_ d !! key with
  | None => (Ret tt, d)
  | Some socketsToWait =>
      (do! for_each socketsToWait wake_one in
       modify (fun d => set_waiting (delete key (waitingSockets_ d)) d)) d
  end.

(** The part of [setHandler] after the request was read. *)
Definition store_and_wake (key value : bytes) : M t unit :=
  do! modify (fun d => set_store (<[key := value]> (tcpStore_ d)) d) in
  wakeupWaitingClients key.

Definition setHandler (socket : Z) : M t unit :=
  let! key := on_sock socket recvString in
  let! value := on_sock socket recvVector in
  store_and_wake key value.

Definition addHandler (socket : Z) : M t unit :=
  let! key := on_sock socket recvString in
  let! addVal := on_sock socket recvInt64 in
  let! old := gets (fun d => tcpStore_ d !! key) in
  let! addVal := match old with
                 | Some v => let! n := lift (Decimal.stoll v) in ret (int64 (addVal + n))
                 | None => ret addVal
                 end in
  do! modify (fun d => set_store (<[key := Decimal.to_string addVal]> (tcpStore_ d)) d) in
  do! on_sock socket (sendInt64 addVal) in
  wakeupWaitingClients key.

Definition getHandler (socket : Z) : M t unit :=
  let! key := on_sock socket recvString in
  let! data := gets (fun d => tcpStore_ d !! key) in
  match data with
  | None => throw (OutOfRange "unordered_map::at")
  | Some data => on_sock socket (sendVector data)
  end.

Definition getNumKeysHandler (socket : Z) : M t unit :=
  let! n := gets (fun d => Z.of_nat (size (tcpStore_ d))) in
  on_sock socket (sendInt64 n).

Definition deleteHandler (socket : Z) : M t unit :=
  let! key := on_sock socket recvString in
  let! numDeleted := gets (fun d => if decide (is_Some (tcpStore_ d !! key)) then 1 else 0) in
  do! modify (fun d => set_store (delete key (tcpStore_ d)) d) in
  on_sock socket (sendInt64 numDeleted).

Definition checkKeys (keys : list bytes) (d : t) : bool :=
  forallb (fun s => bool_decide (is_Some (tcpStore_ d !! s))) keys.

Fixpoint recvKeys (socket : Z) (nargs : nat) : M t (list bytes) :=
  match nargs with
  | O => ret []
  | S nargs =>
      let! key := on_sock socket recvString in
      let! keys := recvKeys socket nargs in
      ret (key :: keys)
  end.

(** [SizeType nargs; recvBytes(...); std::vector<std::string> keys(nargs); ...]
    with max_size() of a vector of 32-byte strings. *)
Definition recvKeyList (socket : Z) : M t (list bytes) :=
  let! nargs := on_sock socket recvSize in
  do! assert_ (nargs <? 2 ^ 58) (LengthError "vector") in
  recvKeys socket (Z.to_nat nargs).

Definition checkHandler (socket : Z) : M t unit :=
  let! keys := recvKeyList socket in
  let! ready := gets (checkKeys keys) in
  on_sock socket (sendByte (if ready then READY else NOT_READY)).

(** [for (auto& key : keys) waitingSockets_[key].push_back(socket);] *)
Definition push_waiting (socket : Z) (w : gmap bytes (list Z)) (key : bytes)
  : gmap bytes (list Z) := <[key := default [] (w !! key) ++ [socket]]> w.

Definition waitHandler (socket : Z) : M t unit :=
  let! keys := recvKeyList socket in
  let! ready := gets (checkKeys keys) in
  if ready then on_sock socket (sendByte STOP_WAITING)
  else modify (fun d =>
    set_awaited (<[socket := Z.of_nat (length keys)]> (keysAwaited_ d))
      (set_waiting (fold_left (push_waiting socket) keys (waitingSockets_ d)) d)).

Definition query (socket : Z) : M t unit :=
  let! qt := on_sock socket recvByte in
  match QueryType_of_byte qt with
  | Some SET => setHandler socket
  | Some ADD => addHandler socket
  | Some GET => getHandler socket
  | Some CHECK => checkHandler socket
  | Some WAIT => waitHandler socket
  | Some GETNUMKEYS => getNumKeysHandler socket
  | Some DELETE_KEY => deleteHandler socket
  | None => throw (RuntimeError "Unexpected query type")
  end.

(** The catch block of [queryFds]: close the connection and remove all the
    tracking state of the closed descriptor. *)
Definition untrack_waiting (fd : Z) (w : gmap bytes (list Z)) : gmap bytes (list Z) :=
  omap (fun l => match filter (fun x => x <> fd) l with
                 | [] => None
                 | l' => Some l'
                 end) w.

Definition drop_connection (fd : Z) (idx : nat) (d : t) : t :=
  mk (tcpStore_ d) (untrack_waiting fd (waitingSockets_ d)) (delete fd (keysAwaited_ d))
     (delete idx (sockets_ d)) (delete fd (net d)).

(** [queryFds] on the descriptors after the listening socket and the control
    pipe; a descriptor comes with its [revents].  [kept] counts the ones already
    passed, so it is [fdIdx - CONNECT_SOCKET_OFFSET]. *)
Fixpoint queryFds (fds : list (Z * Z)) (kept : nat) : M t (list (Z * Z)) := fun d =>
  match fds with
  | [] => (Ret [], d)
  | (fd, revents) :: fds =>
      if revents =? 0 then
        (let! fds' := queryFds fds (S kept) in ret ((fd, revents) :: fds')) d
      else
        match query fd d with
        | (Ret _, d) => (let! fds' := queryFds fds (S kept) in ret ((fd, revents) :: fds')) d
        | (Throw _, d) => queryFds fds kept (drop_connection fd kept d)
        | (Block, d) => (Block, d)
        end
  end.

Definition POLLIN : Z := 1.
Definition POLLHUP : Z := 16.

(** One turn of the loop of [run], after poll(2): the [revents] of the
    listening socket and of the control pipe, the result of accept, and the
    connected descriptors with their [revents].  Returns [finished] and the new
    descriptors. *)
Definition run_turn (listen_revents pipe_revents : Z) (accepted : outcome Z)
    (fds : list (Z * Z)) : M t (bool * list (Z * Z)) :=
  let! fds :=
    if listen_revents =? 0 then ret fds
    else
      do! assert_ (Z.lxor listen_revents POLLIN =? 0)
            (SystemError ECONNABORTED "Unexpected poll revent on the master's listening socket") in
      let! sockFd := lift accepted in
      do! modify (fun d => set_net (<[sockFd := mkSock [] false [] None]> (net d))
                             (set_sockets (sockets_ d ++ [sockFd]) d)) in
      ret (fds ++ [(sockFd, 0)]) in
  if negb (pipe_revents =? 0) then
    do! assert_ (Z.lxor pipe_revents POLLHUP =? 0)
          (SystemError ECONNABORTED "Unexpected poll revent on the control pipe's reading fd") in
    ret (true, fds)
  else
    let! fds := queryFds fds 0 in ret (false, fds).

End Daemon.

(** ** The client *)

Module TCPStore.
Section client.

(** The connection's descriptor in the daemon and the constructor arguments. *)
Context (fd : Z) (timeout_ : Z) (numWorkers_ : Z) (isServer_ : bool).

(** The daemon together with this client's SO_RCVTIMEO (0: none). *)
Record t := mk { dmn : Daemon.t; rcvtimeo : Z }.

Definition initKey_ : bytes := str "init/".
Definition regularPrefix_ : bytes := str "/".
Definition regKey (key : bytes) : bytes := regularPrefix_ ++ key.

(** The client's end of the connection: it writes what the daemon reads and
    reads what the daemon wrote. *)
Definition as_client {A} (m : M sock A) : M sock A := fun s =>
  let '(o, c) := m (mkSock (out s) false (inp s) None) in
  (o, mkSock (out c) (eof s) (inp c) (werr s)).

Definition client {A} (m : M sock A) : M t A := fun s =>
  match Daemon.net (dmn s) !! fd with
  | None => (Throw (SystemError ECONNRESET ""), s)
  | Some _ => let '(o, d) := Daemon.on_sock fd (as_client m) (dmn s) in (o, mk d (rcvtimeo s))
  end.

(** A receive that finds no answer times out if the socket has a timeout. *)
Definition client_recv {A} (m : M sock A) : M t A := fun s =>
  match client m s with
  | (Block, s) => if rcvtimeo s =? 0 then (Block, s) else (Throw (RuntimeError "Socket Timeout"), s)
  | r => r
  end.

(** The daemon takes its turn on this connection. *)
Definition serve : M t unit := fun s =>
  match Daemon.queryFds [(fd, Daemon.POLLIN)] 0 (dmn s) with
  | (Ret _, d) => (Ret tt, mk d (rcvtimeo s))
  | (Throw e, d) => (Throw e, mk d (rcvtimeo s))
  | (Block, d) => (Ret tt, mk d (rcvtimeo s))
  end.

Definition set (key data : bytes) : M t unit :=
  do! client (sendByte (QueryType_byte SET)) in
  do! client (sendString (regKey key)) in
  do! client (sendVector data) in
  serve.

Definition addHelper_ (key : bytes) (value : Z) : M t Z :=
  do! client (sendByte (QueryType_byte ADD)) in
  do! client (sendString key) in
  do! client (sendInt64 value) in
  do! serve in
  client_recv recvInt64.

Definition add (key : bytes) (value : Z) : M t Z := addHelper_ (regKey key) value.

Definition deleteKey (key : bytes) : M t bool :=
  do! client (sendByte (QueryType_byte DELETE_KEY)) in
  do! client (sendString (regKey key)) in
  do! serve in
  let! numDeleted := client_recv recvInt64 in
  ret (numDeleted =? 1).

Definition getNumKeys : M t Z :=
  do! client (sendByte (QueryType_byte GETNUMKEYS)) in
  do! serve in
  client_recv recvInt64.

Definition sendKeys (keys : list bytes) : M t unit :=
  do! client (sendSize (Z.of_nat (length keys))) in
  for_each keys (fun key => client (sendString key)).

Definition check (keys : list bytes) : M t bool :=
  do! client (sendByte (QueryType_byte CHECK)) in
  do! sendKeys (map regKey keys) in
  do! serve in
  let! checkResponse := client_recv recvByte in
  if bool_decide (checkResponse = READY) then ret true
  else if bool_decide (checkResponse = NOT_READY) then ret false
  else throw (RuntimeError "ready or not_ready response expected").

Definition waitHelper_ (keys : list bytes) (timeout : Z) : M t unit :=
  do! (if timeout =? kNoTimeout then ret tt
       else modify (fun s => mk (dmn s) timeout)) in
  do! client (sendByte (QueryType_byte WAIT)) in
  do! sendKeys keys in
  do! serve in
  let! waitResponse := client_recv recvByte in
  if bool_decide (waitResponse = STOP_WAITING) then ret tt
  else throw (RuntimeError "Stop_waiting response is expected").

Definition wait_for (keys : list bytes) (timeout : Z) : M t unit :=
  waitHelper_ (map regKey keys) timeout.

Definition wait (keys : list bytes) : M t unit := wait_for keys timeout_.

Definition getHelper_ (key : bytes) : M t bytes :=
  do! waitHelper_ [key] timeout_ in
  do! client (sendByte (QueryType_byte GET)) in
  do! client (sendString key) in
  do! serve in
  client_recv recvVector.

Definition get (key : bytes) : M t bytes := getHelper_ (regKey key).

(** The server's polling loop of [waitForWorkers].  A round is the number of
    whole seconds elapsed when the clock is read and what the other workers do
    to the daemon during the sleep. *)
Fixpoint waitForWorkers_loop (rounds : list (Z * (Daemon.t -> Daemon.t))) : M t unit :=
  let! value := getHelper_ initKey_ in
  let! numWorkersCompleted := lift (Decimal.stoi value) in
  if numWorkers_ <=? numWorkersCompleted then ret tt
  else
    match rounds with
    | [] => fun s => (Block, s)
    | (elapsed, others) :: rounds =>
        if negb (timeout_ =? kNoTimeout) && (timeout_ <? elapsed * 1000) then ret tt
        else
          do! modify (fun s => mk (others (dmn s)) (rcvtimeo s)) in
          waitForWorkers_loop rounds
    end.

Definition waitForWorkers (rounds : list (Z * (Daemon.t -> Daemon.t))) : M t unit :=
  do! (let! _ := addHelper_ initKey_ 1 in ret tt) in
  if isServer_ then waitForWorkers_loop rounds else ret tt.

Definition ops : StoreOps t := {|
  store_set := set; store_get := get; store_add := add;
  store_deleteKey := deleteKey; store_check := check;
  store_getNumKeys := getNumKeys; store_wait := wait; store_wait_for := wait_for;
|}.

End client.
End TCPStore.

(** ** Requests, seen from one connection *)

Section requests.
Context (fd : Z).

(** A healthy connection with unread request bytes [i] and unread answer [o]. *)
Definition conn (i o : bytes) : sock := mkSock i false o None.
Definition dupd (d : Daemon.t) (i o : bytes) : Daemon.t :=
  Daemon.set_net (<[fd := conn i o]> (Daemon.net d)) d.

Definition alive (d : Daemon.t) (w : Z) : Prop :=
  exists s, Daemon.net d !! w = Some s /\ werr s = None.

(** The clients that wait on some key are other, live connections. *)
Definition healthy (d : Daemon.t) : Prop :=
  forall k l w, Daemon.waitingSockets_ d !! k = Some l -> w ∈ l -> w <> fd /\ alive d w.

Lemma on_sock_dupd {A} (m : M sock A) d i o r i' o' :
  m (conn i o) = (r, conn i' o') -> Daemon.on_sock fd m (dupd d i o) = (r, dupd d i' o').
Proof.
  intros E. unfold Daemon.on_sock, dupd, Daemon.set_net. cbn. rewrite lookup_insert_eq, E.
  by rewrite insert_insert_eq.
Qed.

Lemma dupd_id d i o : Daemon.net d !! fd = Some (conn i o) -> dupd d i o = d.
Proof. intros E. unfold dupd, Daemon.set_net. rewrite insert_id by done. by destruct d. Qed.

Lemma recv_string_dupd d k rest o :
  fits k -> Daemon.on_sock fd recvString (dupd d (frame k ++ rest) o) = (Ret k, dupd d rest o).
Proof. intros. apply on_sock_dupd. by apply recvString_frame. Qed.

Lemma recv_vector_dupd d v rest o :
  fits v -> Daemon.on_sock fd recvVector (dupd d (frame v ++ rest) o) = (Ret v, dupd d rest o).
Proof. intros. apply on_sock_dupd. by apply recvVector_frame. Qed.

Lemma recv_int64_dupd d z rest o :
  in_int64 z ->
  Daemon.on_sock fd recvInt64 (dupd d (le_bytes 8 z ++ rest) o) = (Ret z, dupd d rest o).
Proof. intros. apply on_sock_dupd. by apply recvInt64_app. Qed.

Lemma recv_size_dupd d z rest o :
  0 <= z < 2 ^ 64 ->
  Daemon.on_sock fd recvSize (dupd d (le_bytes 8 z ++ rest) o) = (Ret z, dupd d rest o).
Proof. intros. apply on_sock_dupd. by apply recvSize_app. Qed.

Lemma recv_byte_dupd d b rest o :
  Daemon.on_sock fd recvByte (dupd d (b :: rest) o) = (Ret b, dupd d rest o).
Proof. apply on_sock_dupd. apply recvByte_app. Qed.

Lemma send_dupd d data i o :
  Daemon.on_sock fd (sendBytes data) (dupd d i o) = (Ret tt, dupd d i (o ++ data)).
Proof. apply on_sock_dupd. apply sendBytes_ok. Qed.

Lemma wake_one_dupd d w i o :
  w <> fd -> alive d w ->
  exists d', Daemon.wake_one w (dupd d i o) = (Ret tt, dupd d' i o) /\
    Daemon.tcpStore_ d' = Daemon.tcpStore_ d /\
    Daemon.waitingSockets_ d' = Daemon.waitingSockets_ d /\
    (forall w', alive d w' -> alive d' w').
Proof.
  intros Hne (s & Hs & Hw). unfold Daemon.wake_one.
  set (n := uint64 _). destruct (n =? 0).
  - unfold Daemon.on_sock. cbn. rewrite lookup_insert_ne, Hs by done.
    unfold sendByte, sendBytes. rewrite Hw.
    exists (Daemon.set_net (<[w := mkSock (inp s) (eof s) (out s ++ [STOP_WAITING]) None]> (Daemon.net d))
             (Daemon.set_awaited (<[w := n]> (Daemon.keysAwaited_ d)) d)).
    split_and!; [|done..|].
    + unfold dupd, Daemon.set_net, Daemon.set_awaited. cbn. by rewrite insert_insert_ne.
    + intros w' (s' & Hs' & Hw'). destruct (decide (w = w')) as [->|Hd].
      * eexists. cbn. rewrite lookup_insert_eq. by split.
      * exists s'. cbn. by rewrite lookup_insert_ne.
  - exists (Daemon.set_awaited (<[w := n]> (Daemon.keysAwaited_ d)) d). by split_and!.
Qed.

Lemma wake_all_dupd l d i o :
  (forall w, w ∈ l -> w <> fd /\ alive d w) ->
  exists d', for_each l Daemon.wake_one (dupd d i o) = (Ret tt, dupd d' i o) /\
    Daemon.tcpStore_ d' = Daemon.tcpStore_ d /\
    Daemon.waitingSockets_ d' = Daemon.waitingSockets_ d /\
    (forall w', alive d w' -> alive d' w').
Proof.
  revert d. induction l as [|w l IH]; intros d Hl; cbn [for_each].
  - by exists d.
  - destruct (Hl w (list_elem_of_here _ _)) as [Hne Ha].
    destruct (wake_one_dupd d w i o Hne Ha) as (d1 & E1 & T1 & W1 & A1).
    destruct (IH d1) as (d2 & E2 & T2 & W2 & A2).
    { intros w' Hw'. destruct (Hl w' (list_elem_of_further _ _ _ Hw')). eauto. }
    exists d2. unfold bind. rewrite E1, E2. split_and!; [done|congruence..|eauto].
Qed.

Lemma wakeup_dupd key d i o :
  healthy d ->
  exists d', Daemon.wakeupWaitingClients key (dupd d i o) = (Ret tt, dupd d' i o) /\
    Daemon.tcpStore_ d' = Daemon.tcpStore_ d /\ healthy d'.
Proof.
  intros Hh. unfold Daemon.wakeupWaitingClients. cbn [dupd Daemon.set_net Daemon.waitingSockets_].
  destruct (Daemon.waitingSockets_ d !! key) as [l|] eqn:El.
  - destruct (wake_all_dupd l d i o) as (d1 & E1 & T1 & W1 & A1).
    { intros w Hw. by eapply Hh. }
    exists (Daemon.set_waiting (delete key (Daemon.waitingSockets_ d1)) d1).
    fold (dupd d i o). unfold bind. rewrite E1. split_and!; [done..|].
    intros k l' w Hl' Hw. cbn in Hl'. rewrite W1, lookup_delete in Hl'. case_decide; [done|].
    destruct (Hh k l' w Hl' Hw). eauto.
  - exists d. by split_and!.
Qed.

(** *** What the daemon does with each request *)

Ltac reqs := repeat first
  [ rewrite recv_string_dupd by assumption | rewrite recv_vector_dupd by assumption
  | rewrite recv_int64_dupd by assumption | rewrite recv_byte_dupd
  | rewrite send_dupd ].

Lemma query_set k v d o :
  fits k -> fits v -> healthy d ->
  exists d', Daemon.query fd (dupd d (x00 :: frame k ++ frame v) o) = (Ret tt, dupd d' [] o) /\
    Daemon.tcpStore_ d' = <[k := v]> (Daemon.tcpStore_ d) /\ healthy d'.
Proof.
  intros Hk Hv Hh. unfold Daemon.query, bind. rewrite recv_byte_dupd. cbn [QueryType_of_byte].
  unfold Daemon.setHandler, bind. reqs. rewrite <- (app_nil_r (frame v)). reqs.
  unfold Daemon.store_and_wake, bind, modify.
  destruct (wakeup_dupd k (Daemon.set_store (<[k := v]> (Daemon.tcpStore_ d)) d) [] o)
    as (d' & E & T & H'); [done|].
  exists d'. split_and!; [exact E|done|done].
Qed.

Lemma query_add k z n d o :
  fits k -> in_int64 z -> healthy d ->
  match Daemon.tcpStore_ d !! k with None => n = 0 | Some v => Decimal.stoll v = Ret n end ->
  exists d', Daemon.query fd (dupd d (x02 :: frame k ++ le_bytes 8 z) o) =
      (Ret tt, dupd d' [] (o ++ le_bytes 8 (int64 (z + n)))) /\
    Daemon.tcpStore_ d' = <[k := Decimal.to_string (int64 (z + n))]> (Daemon.tcpStore_ d) /\
    healthy d'.
Proof.
  intros Hk Hz Hh Hn. unfold Daemon.query, bind. rewrite recv_byte_dupd. cbn [QueryType_of_byte].
  unfold Daemon.addHandler, bind. reqs. rewrite <- (app_nil_r (le_bytes 8 z)). reqs.
  unfold gets. cbn [dupd Daemon.set_net Daemon.tcpStore_].
  set (m := <[k := Decimal.to_string (int64 (z + n))]> (Daemon.tcpStore_ d)).
  destruct (wakeup_dupd k (Daemon.set_store m d) [] (o ++ le_bytes 8 (int64 (z + n))))
    as (d' & E & T & H'); [done|]. exists d'.
  assert (Hv : (match Daemon.tcpStore_ d !! k with
      | Some v => let! n := lift (Decimal.stoll v) in ret (int64 (z + n))
      | None => ret z end) (dupd d [] o) = (Ret (int64 (z + n)), dupd d [] o)).
  { destruct (Daemon.tcpStore_ d !! k) as [v|].
    - unfold_M. by rewrite Hn.
    - subst n. unfold_M. by rewrite Z.add_0_r, int64_id. }
  fold (dupd d [] o). unfold bind in Hv. rewrite Hv. unfold modify.
  change (Daemon.set_store _ (dupd d [] o)) with (dupd (Daemon.set_store m d) [] o).
  unfold sendInt64. rewrite send_dupd. split_and!; [exact E|done|done].
Qed.

Lemma query_get k v d o :
  fits k -> Daemon.tcpStore_ d !! k = Some v ->
  Daemon.query fd (dupd d (x01 :: frame k) o) = (Ret tt, dupd d [] (o ++ frame v)).
Proof.
  intros Hk Hv. unfold Daemon.query, bind. rewrite recv_byte_dupd. cbn [QueryType_of_byte].
  unfold Daemon.getHandler, bind. rewrite <- (app_nil_r (frame k)). reqs.
  unfold gets. cbn [dupd Daemon.set_net Daemon.tcpStore_]. rewrite Hv. fold (dupd d [] o).
  apply on_sock_dupd. unfold conn. apply (sendString_ok v).
Qed.

Definition frames (ks : list bytes) : bytes := concat (map frame ks).
Definition few (ks : list bytes) : Prop := Z.of_nat (length ks) < 2 ^ 58.

Lemma recvKeys_dupd ks d rest o :
  Forall fits ks ->
  Daemon.recvKeys fd (length ks) (dupd d (frames ks ++ rest) o) = (Ret ks, dupd d rest o).
Proof.
  induction ks as [|k ks IH]; intros Hk; [done|]. apply Forall_cons in Hk as [Hk Hks].
  cbn [Daemon.recvKeys length]. unfold frames, bind. cbn [map concat]. rewrite <- app_assoc.
  rewrite recv_string_dupd by done. fold (frames ks). by rewrite IH.
Qed.

Lemma recvKeyList_dupd ks d rest o :
  Forall fits ks -> few ks ->
  Daemon.recvKeyList fd (dupd d (le_bytes 8 (Z.of_nat (length ks)) ++ frames ks ++ rest) o) =
  (Ret ks, dupd d rest o).
Proof.
  intros Hk Hf. unfold few in Hf. unfold Daemon.recvKeyList, bind.
  rewrite recv_size_dupd by lia. unfold assert_, lift, ocheck.
  destruct (Z.ltb_spec (Z.of_nat (length ks)) (2 ^ 58)); [|lia].
  rewrite Nat2Z.id. by apply recvKeys_dupd.
Qed.

Lemma query_check ks d o :
  Forall fits ks -> few ks ->
  Daemon.query fd (dupd d (x03 :: le_bytes 8 (Z.of_nat (length ks)) ++ frames ks) o) =
  (Ret tt, dupd d [] (o ++ [if Daemon.checkKeys ks d then READY else NOT_READY])).
Proof.
  intros Hk Hf. unfold Daemon.query, bind. rewrite recv_byte_dupd. cbn [QueryType_of_byte].
  unfold Daemon.checkHandler, bind. rewrite <- (app_nil_r (frames ks)), recvKeyList_dupd by done.
  unfold gets. change (Daemon.checkKeys ks (dupd d [] o)) with (Daemon.checkKeys ks d).
  apply send_dupd.
Qed.

Lemma query_wait_ready ks d o :
  Forall fits ks -> few ks -> Daemon.checkKeys ks d = true ->
  Daemon.query fd (dupd d (x04 :: le_bytes 8 (Z.of_nat (length ks)) ++ frames ks) o) =
  (Ret tt, dupd d [] (o ++ [STOP_WAITING])).
Proof.
  intros Hk Hf Hc. unfold Daemon.query, bind. rewrite recv_byte_dupd. cbn [QueryType_of_byte].
  unfold Daemon.waitHandler, bind. rewrite <- (app_nil_r (frames ks)), recvKeyList_dupd by done.
  unfold gets. change (Daemon.checkKeys ks (dupd d [] o)) with (Daemon.checkKeys ks d).
  rewrite Hc. apply send_dupd.
Qed.

(** The tables after a wait that has to be parked. *)
Definition park (ks : list bytes) (d : Daemon.t) : Daemon.t :=
  Daemon.set_awaited (<[fd := Z.of_nat (length ks)]> (Daemon.keysAwaited_ d))
    (Daemon.set_waiting (fold_left (Daemon.push_waiting fd) ks (Daemon.waitingSockets_ d)) d).

Lemma query_wait_park ks d o :
  Forall fits ks -> few ks -> Daemon.checkKeys ks d = false ->
  Daemon.query fd (dupd d (x04 :: le_bytes 8 (Z.of_nat (length ks)) ++ frames ks) o) =
  (Ret tt, dupd (park ks d) [] o).
Proof.
  intros Hk Hf Hc. unfold Daemon.query, bind. rewrite recv_byte_dupd. cbn [QueryType_of_byte].
  unfold Daemon.waitHandler, bind. rewrite <- (app_nil_r (frames ks)), recvKeyList_dupd by done.
  unfold gets. change (Daemon.checkKeys ks (dupd d [] o)) with (Daemon.checkKeys ks d).
  by rewrite Hc.
Qed.
End requests.

(** ** The client's methods meet the store contract *)

Section client_laws.
Context (fd timeout_ numWorkers_ : Z) (isServer_ : bool).

Definition cst (d : Daemon.t) (rt : Z) (i o : bytes) : TCPStore.t :=
  TCPStore.mk (dupd fd d i o) rt.

Lemma client_dupd {A} (m : M sock A) d rt i o r i' o' :
  m (mkSock o false i None) = (r, mkSock o' false i' None) ->
  TCPStore.client fd m (cst d rt i o) = (r, cst d rt i' o').
Proof.
  intros E. unfold TCPStore.client, cst.
  cbn [TCPStore.dmn dupd Daemon.set_net Daemon.net TCPStore.rcvtimeo].
  rewrite lookup_insert_eq. fold (dupd fd d i o).
  rewrite (on_sock_dupd fd _ d i o r i' o'); [done|].
  unfold TCPStore.as_client, conn. cbn. by rewrite E.
Qed.

Lemma client_send data d rt i o :
  TCPStore.client fd (sendBytes data) (cst d rt i o) = (Ret tt, cst d rt (i ++ data) o).
Proof. apply client_dupd. apply sendBytes_ok. Qed.

Lemma client_sendString s d rt i o :
  TCPStore.client fd (sendString s) (cst d rt i o) = (Ret tt, cst d rt (i ++ frame s) o).
Proof. apply client_dupd. apply sendString_ok. Qed.

Lemma client_recv_dupd {A} (m : M sock A) d rt i o a o' :
  m (mkSock o false i None) = (Ret a, mkSock o' false i None) ->
  TCPStore.client_recv fd m (cst d rt i o) = (Ret a, cst d rt i o').
Proof. intros E. unfold TCPStore.client_recv. by rewrite (client_dupd _ _ _ _ _ _ _ _ E). Qed.

Lemma serve_dupd d d' rt i o i' o' :
  Daemon.query fd (dupd fd d i o) = (Ret tt, dupd fd d' i' o') ->
  TCPStore.serve fd (cst d rt i o) = (Ret tt, cst d' rt i' o').
Proof.
  intros E. unfold TCPStore.serve, cst. cbn [TCPStore.dmn Daemon.queryFds].
  change (Daemon.POLLIN =? 0) with false. cbn iota. by rewrite E.
Qed.

Lemma for_each_sendString ks d rt i o :
  for_each ks (fun key => TCPStore.client fd (sendString key)) (cst d rt i o) =
  (Ret tt, cst d rt (i ++ frames ks) o).
Proof.
  revert i. induction ks as [|k ks IH]; intros i; cbn [for_each].
  - unfold frames. cbn. by rewrite app_nil_r.
  - unfold bind. rewrite client_sendString, IH.
    change (frames (k :: ks)) with (frame k ++ frames ks). by rewrite app_assoc.
Qed.

Lemma sendKeys_dupd ks d rt i o :
  TCPStore.sendKeys fd ks (cst d rt i o) =
  (Ret tt, cst d rt (i ++ le_bytes 8 (Z.of_nat (length ks)) ++ frames ks) o).
Proof.
  unfold TCPStore.sendKeys, bind, sendSize. rewrite client_send, for_each_sendString.
  by rewrite app_assoc.
Qed.

(** The connection is up, with no bytes in flight. *)
Definition cinv (s : TCPStore.t) : Prop :=
  Daemon.net (TCPStore.dmn s) !! fd = Some (conn [] []) /\ healthy fd (TCPStore.dmn s).

Lemma cinv_cst s : cinv s -> s = cst (TCPStore.dmn s) (TCPStore.rcvtimeo s) [] [].
Proof. intros [E _]. unfold cst. rewrite dupd_id by done. by destruct s. Qed.

Lemma healthy_dupd d i o : healthy fd d -> healthy fd (dupd fd d i o).
Proof.
  intros H k l w Hl Hw. destruct (H k l w Hl Hw) as [Hne (s & Hs & He)].
  split; [done|]. exists s. cbn. by rewrite lookup_insert_ne.
Qed.

Lemma cst_cinv d rt : healthy fd d -> cinv (cst d rt [] []).
Proof. intros H. split; [apply lookup_insert_eq|by apply healthy_dupd]. Qed.

Definition rkey : bytes -> bytes := TCPStore.regKey.

Lemma rkey_inj k1 k2 : rkey k1 = rkey k2 -> k1 = k2.
Proof. unfold rkey, TCPStore.regKey. intros H. by simplify_eq/=. Qed.

Lemma view_insert_rkey (m : gmap bytes bytes) k v k' :
  <[rkey k := v]> m !! rkey k' = if decide (k' = k) then Some v else m !! rkey k'.
Proof.
  rewrite lookup_insert. repeat case_decide; subst; try done.
  exfalso; eauto using rkey_inj.
Qed.

Lemma set_cst k v d rt :
  fits (rkey k) -> fits v -> healthy fd d ->
  exists d', TCPStore.set fd k v (cst d rt [] []) = (Ret tt, cst d' rt [] []) /\
    healthy fd d' /\ Daemon.tcpStore_ d' = <[rkey k := v]> (Daemon.tcpStore_ d).
Proof.
  intros Hk Hv Hh. destruct (query_set fd (rkey k) v d [] Hk Hv Hh) as (d' & E & T & Hh').
  exists d'. split_and!; [|done..]. unfold TCPStore.set, bind, sendByte.
  rewrite client_send, client_sendString. cbn [app].
  unfold TCPStore.set, bind. rewrite (client_dupd (sendVector v)) with
    (r := Ret tt) (i' := x00 :: frame (rkey k) ++ frame v) (o' := []).
  - by apply serve_dupd.
  - apply (sendString_ok v).
Qed.

Lemma add_cst k z n d rt :
  fits (rkey k) -> in_int64 z -> healthy fd d ->
  match Daemon.tcpStore_ d !! rkey k with None => n = 0 | Some v => Decimal.stoll v = Ret n end ->
  exists d', TCPStore.add fd k z (cst d rt [] []) = (Ret (int64 (z + n)), cst d' rt [] []) /\
    healthy fd d' /\
    Daemon.tcpStore_ d' = <[rkey k := Decimal.to_string (int64 (z + n))]> (Daemon.tcpStore_ d).
Proof.
  intros Hk Hz Hh Hn.
  destruct (query_add fd (rkey k) z n d [] Hk Hz Hh Hn) as (d' & E & T & Hh').
  exists d'. split_and!; [|done..]. unfold TCPStore.add, TCPStore.addHelper_, bind, sendByte, sendInt64.
  rewrite client_send, client_sendString, client_send. cbn [app].
  rewrite (serve_dupd _ _ _ _ _ _ _ E).
  apply client_recv_dupd. rewrite <- (app_nil_r (le_bytes 8 _)). apply recvInt64_app. apply int64_range.
Qed.

Lemma wait_ready_cst ks d rt timeout :
  Forall fits ks -> few ks -> healthy fd d -> Daemon.checkKeys ks d = true ->
  exists rt', TCPStore.waitHelper_ fd ks timeout (cst d rt [] []) = (Ret tt, cst d rt' [] []).
Proof.
  intros Hk Hf Hh Hc. exists (if timeout =? kNoTimeout then rt else timeout).
  unfold TCPStore.waitHelper_, bind, sendByte.
  assert (Hm : (if timeout =? kNoTimeout then ret tt
     else modify (fun s => TCPStore.mk (TCPStore.dmn s) timeout)) (cst d rt [] []) =
     (Ret tt, cst d (if timeout =? kNoTimeout then rt else timeout) [] [])).
  { by destruct (timeout =? kNoTimeout). }
  rewrite Hm, client_send, sendKeys_dupd. cbn [app].
  rewrite (serve_dupd _ _ _ _ _ _ _ (query_wait_ready fd ks d [] Hk Hf Hc)).
  rewrite (client_recv_dupd _ _ _ _ _ STOP_WAITING []) by apply recvByte_app.
  by rewrite bool_decide_true.
Qed.

Lemma wait_park_cst ks d rt timeout :
  Forall fits ks -> few ks -> Daemon.checkKeys ks d = false ->
  let rt' := if timeout =? kNoTimeout then rt else timeout in
  TCPStore.waitHelper_ fd ks timeout (cst d rt [] []) =
    (if rt' =? 0 then Block else Throw (RuntimeError "Socket Timeout"),
     cst (park fd ks d) rt' [] []).
Proof.
  intros Hk Hf Hc rt'. unfold TCPStore.waitHelper_, bind, sendByte.
  assert (Hm : (if timeout =? kNoTimeout then ret tt
     else modify (fun s => TCPStore.mk (TCPStore.dmn s) timeout)) (cst d rt [] []) =
     (Ret tt, cst d rt' [] [])).
  { subst rt'. by destruct (timeout =? kNoTimeout). }
  rewrite Hm, client_send, sendKeys_dupd. cbn [app].
  rewrite (serve_dupd _ _ _ _ _ _ _ (query_wait_park fd ks d [] Hk Hf Hc)).
  unfold TCPStore.client_recv. rewrite (client_dupd _ _ _ _ _ Block [] []) by done.
  cbn [TCPStore.rcvtimeo cst]. by destruct (rt' =? 0).
Qed.

Lemma checkKeys_single k d : Daemon.checkKeys [k] d = bool_decide (is_Some (Daemon.tcpStore_ d !! k)).
Proof. unfold Daemon.checkKeys. cbn. by rewrite andb_true_r. Qed.

Lemma get_cst k v d rt :
  fits (rkey k) -> fits v -> healthy fd d -> Daemon.tcpStore_ d !! rkey k = Some v ->
  exists rt', TCPStore.get fd timeout_ k (cst d rt [] []) = (Ret v, cst d rt' [] []).
Proof.
  intros Hk Hv Hh Hs.
  destruct (wait_ready_cst [rkey k] d rt timeout_) as (rt' & E); [by constructor|done|done|..].
  { rewrite checkKeys_single, Hs. by apply bool_decide_true. }
  exists rt'. unfold TCPStore.get, TCPStore.getHelper_, bind. fold rkey. rewrite E.
  unfold sendByte. rewrite client_send, client_sendString. cbn [app].
  rewrite (serve_dupd _ _ _ _ _ _ _ (query_get fd (rkey k) v d [] Hk Hs)).
  apply client_recv_dupd. rewrite <- (app_nil_r (frame v)). by apply recvVector_frame.
Qed.

Lemma check_cst ks d rt :
  Forall (fun k => fits (rkey k)) ks -> few ks ->
  TCPStore.check fd ks (cst d rt [] []) = (Ret (Daemon.checkKeys (map rkey ks) d), cst d rt [] []).
Proof.
  intros Hk Hf. unfold TCPStore.check, bind, sendByte.
  rewrite client_send, sendKeys_dupd. cbn [app].
  rewrite (serve_dupd _ _ _ _ _ _ _ (query_check fd (map rkey ks) d []
    (proj2 (Forall_map _ _ _) Hk) ltac:(unfold few; by rewrite length_map))).
  rewrite (client_recv_dupd _ _ _ _ _ _ []) by apply recvByte_app.
  by destruct (Daemon.checkKeys _ _).
Qed.

Lemma to_string_fits z : in_int64 z -> fits (Decimal.to_string z).
Proof. intros H. pose proof (Decimal.to_string_length z H). unfold fits. lia. Qed.

(** The store of a daemon whose values all fit a length prefix. *)
Definition values_fit (d : Daemon.t) : Prop :=
  forall k v, Daemon.tcpStore_ d !! k = Some v -> fits v.

Lemma values_fit_insert d d' k v :
  values_fit d -> fits v -> Daemon.tcpStore_ d' = <[k := v]> (Daemon.tcpStore_ d) -> values_fit d'.
Proof.
  intros H Hv E k' v'. rewrite E, lookup_insert. case_decide; [by intros [= <-]|]. apply H.
Qed.

(** Replace the state of an idle connection by its components. *)
Ltac open_cst s Hi Hvf d rt Hh :=
  rewrite (cinv_cst s Hi); destruct Hi as [_ Hh]; cbn [TCPStore.dmn cst TCPStore.rcvtimeo];
  revert Hh Hvf; generalize (TCPStore.rcvtimeo s) as rt; generalize (TCPStore.dmn s) as d;
  clear s; intros d rt Hh Hvf.

#[global, refine] Instance tcp_spec
  : StoreSpec (TCPStore.ops fd timeout_) := {|
  view s k := Daemon.tcpStore_ (TCPStore.dmn s) !! rkey k;
  inv s := cinv s /\ values_fit (TCPStore.dmn s);
  key_ok k := fits (rkey k);
  keys_ok ks := Forall (fun k => fits (rkey k)) ks /\ few ks;
  val_ok := fits;
  counter_ok := to_string_fits;
|}.
Proof.
  - intros s k v [Hi Hvf] Hk. open_cst s Hi Hvf d rt Hh.
    intros Hv. destruct (set_cst k v d rt Hk Hv Hh) as (d' & E & Hh' & T).
    exists (cst d' rt [] []). split_and!; [done|by apply cst_cinv|by eapply values_fit_insert|].
    intros k'. cbn. rewrite T. apply view_insert_rkey.
  - intros s k v [Hi Hvf] Hk. open_cst s Hi Hvf d rt Hh.
    intros Hv. destruct (get_cst k v d rt Hk (Hvf _ _ Hv) Hh Hv) as (rt' & E).
    exists (cst d rt' [] []). split_and!; [done|by apply cst_cinv|done|done].
  - intros s k [Hi Hvf] Hk. open_cst s Hi Hvf d rt Hh.
    intros Hn v. cbn. unfold TCPStore.get, TCPStore.getHelper_, bind.
    fold rkey. rewrite wait_park_cst; [|by constructor|done|].
    + by destruct ((if timeout_ =? kNoTimeout then rt else timeout_) =? 0).
    + rewrite checkKeys_single. apply bool_decide_false. intros [v0 Hv0]. change (Daemon.tcpStore_ d !! rkey k = None) in Hn. congruence.
  - intros s k z n [Hi Hvf] Hk. open_cst s Hi Hvf d rt Hh.
    intros Hz Hn. destruct (add_cst k z n d rt Hk Hz Hh Hn) as (d' & E & Hh' & T).
    exists (cst d' rt [] []). split_and!; [done|by apply cst_cinv| |].
    + eapply values_fit_insert; [done| |done]. apply to_string_fits, int64_range.
    + intros k'. cbn. rewrite T. apply view_insert_rkey.
  - intros s ks [Hi Hvf] [Hk Hf]. open_cst s Hi Hvf d rt Hh.
    exists (cst d rt [] []). split_and!; [|by apply cst_cinv|done|done].
    cbn. rewrite check_cst by done. do 2 f_equal. unfold Daemon.checkKeys.
    clear. induction ks as [|k ks IH]; [done|]. cbn [map forallb]. by rewrite IH.
Defined.
End client_laws.

(** ** The waiting protocol *)

Section waiting.
Context (fd : Z).

Definition count (w : Z) (l : list Z) : nat := length (filter (eq w) l).
Definition occ (k : bytes) (ks : list bytes) : nat := length (filter (eq k) ks).

Lemma count_cons w x l : count w (x :: l) = ((if decide (w = x) then 1 else 0) + count w l)%nat.
Proof. unfold count. rewrite filter_cons. by case_decide. Qed.

Lemma count_app w l1 l2 : count w (l1 ++ l2) = (count w l1 + count w l2)%nat.
Proof. unfold count. by rewrite filter_app, length_app. Qed.

Lemma occ_cons k x ks : occ k (x :: ks) = ((if decide (k = x) then 1 else 0) + occ k ks)%nat.
Proof. unfold occ. rewrite filter_cons. by case_decide. Qed.

(** [fd] waits for the keys [ks]: it is in the waiting list of every key as
    often as the key is in [ks], and its counter is the length of [ks]. *)
Definition waiting_on (d : Daemon.t) (ks : list bytes) : Prop :=
  (forall k, count fd (default [] (Daemon.waitingSockets_ d !! k)) = occ k ks) /\
  Daemon.keysAwaited_ d !! fd = Some (Z.of_nat (length ks)).

Definition all_alive (d : Daemon.t) : Prop :=
  forall k l w, Daemon.waitingSockets_ d !! k = Some l -> w ∈ l -> w <> fd -> alive d w.

Definition stop_if (b : bool) (s : sock) : sock :=
  if b then mkSock (inp s) (eof s) (out s ++ [STOP_WAITING]) (werr s) else s.

Lemma wake_other d w s :
  w <> fd -> alive d w -> Daemon.net d !! fd = Some s ->
  exists d', Daemon.wake_one w d = (Ret tt, d') /\
    Daemon.net d' !! fd = Some s /\
    Daemon.keysAwaited_ d' !! fd = Daemon.keysAwaited_ d !! fd /\
    Daemon.tcpStore_ d' = Daemon.tcpStore_ d /\
    Daemon.waitingSockets_ d' = Daemon.waitingSockets_ d /\
    (forall w', alive d w' -> alive d' w').
Proof.
  intros Hne (sw & Hs & Hw) Hfd. unfold Daemon.wake_one. set (n := uint64 _).
  destruct (n =? 0).
  - unfold Daemon.on_sock, sendByte, sendBytes. cbn. rewrite Hs, Hw. eexists.
    split_and!; [done|cbn; by rewrite ?lookup_insert_ne..|done|done|].
    intros w' (s' & Hs' & Hw'). destruct (decide (w = w')) as [->|Hd].
    + eexists. cbn. rewrite lookup_insert_eq. by split.
    + exists s'. cbn. by rewrite lookup_insert_ne.
  - eexists. split_and!; [done|exact Hfd|cbn; by rewrite lookup_insert_ne|done|done|done].
Qed.

Lemma wake_self d s n :
  Daemon.net d !! fd = Some s -> werr s = None ->
  Daemon.keysAwaited_ d !! fd = Some (Z.of_nat (S n)) -> Z.of_nat (S n) < 2 ^ 64 ->
  exists d', Daemon.wake_one fd d = (Ret tt, d') /\
    Daemon.net d' !! fd = Some (stop_if (Nat.eqb n 0) s) /\
    Daemon.keysAwaited_ d' !! fd = Some (Z.of_nat n) /\
    Daemon.tcpStore_ d' = Daemon.tcpStore_ d /\
    Daemon.waitingSockets_ d' = Daemon.waitingSockets_ d /\
    (forall w', alive d w' -> alive d' w').
Proof.
  intros Hs Hw Ha Hb. unfold Daemon.wake_one. rewrite Ha.
  change (default 0 (Some (Z.of_nat (S n)))) with (Z.of_nat (S n)).
  replace (uint64 (Z.of_nat (S n) - 1)) with (Z.of_nat n).
  2:{ symmetry. rewrite uint64_id; [lia|]. unfold in_uint64. lia. }
  destruct n as [|n]; cbn [Nat.eqb stop_if].
  - cbn [Z.of_nat Z.eqb]. unfold Daemon.on_sock, sendByte, sendBytes. cbn. rewrite Hs, Hw.
    eexists. split_and!; [done|cbn; by rewrite lookup_insert_eq, ?Hw..|done|done|].
    intros w' (s' & Hs' & Hw'). destruct (decide (fd = w')) as [->|Hd].
    + eexists. cbn. rewrite lookup_insert_eq. by split.
    + exists s'. cbn. by rewrite lookup_insert_ne.
  - destruct (Z.eqb_spec (Z.of_nat (S n)) 0); [lia|]. eexists.
    split_and!; [done|done|cbn; by rewrite lookup_insert_eq|done|done|done].
Qed.

Lemma wake_all l d s n :
  Daemon.net d !! fd = Some s -> werr s = None ->
  Daemon.keysAwaited_ d !! fd = Some (Z.of_nat n) -> Z.of_nat n < 2 ^ 64 ->
  (count fd l <= n)%nat -> (forall w, w ∈ l -> w <> fd -> alive d w) ->
  exists d', for_each l Daemon.wake_one d = (Ret tt, d') /\
    Daemon.net d' !! fd = Some (stop_if ((0 <? count fd l)%nat && Nat.eqb (count fd l) n) s) /\
    Daemon.keysAwaited_ d' !! fd = Some (Z.of_nat (n - count fd l)) /\
    Daemon.tcpStore_ d' = Daemon.tcpStore_ d /\
    Daemon.waitingSockets_ d' = Daemon.waitingSockets_ d /\
    (forall w', alive d w' -> alive d' w').
Proof.
  revert d s n. induction l as [|w l IH]; intros d s n Hs Hw Ha Hb Hc Hal; cbn [for_each].
  - exists d. rewrite Nat.sub_0_r. by split_and!.
  - rewrite count_cons in *. destruct (decide (fd = w)) as [<-|Hne].
    + destruct n as [|n]; [lia|].
      destruct (wake_self d s n Hs Hw Ha Hb) as (d1 & E1 & N1 & A1 & T1 & W1 & L1).
      destruct (IH d1 (stop_if (Nat.eqb n 0) s) n) as (d2 & E2 & N2 & A2 & T2 & W2 & L2);
        [done|by destruct n|done|lia|lia| |].
      { intros w' Hw' Hne'. apply L1, Hal; [by apply list_elem_of_further|done]. }
      exists d2. unfold bind. rewrite E1, E2. split_and!; [done| |..].
      * rewrite N2. f_equal.
        change (Nat.ltb 0 (1 + count fd l)) with true. cbn [andb Nat.eqb Nat.add].
        destruct (Nat.eqb_spec n 0) as [->|Hn0]; cbn [stop_if].
        -- assert (count fd l = 0)%nat as -> by lia. done.
        -- destruct (Nat.eqb_spec (count fd l) n) as [->|]; [|by rewrite andb_false_r].
           destruct (Nat.ltb_spec 0 n); [done|lia].
      * rewrite A2. do 2 f_equal.
      * congruence.
      * congruence.
      * eauto.
    + destruct (wake_other d w s) as (d1 & E1 & N1 & A1 & T1 & W1 & L1);
        [done|apply Hal; [by apply list_elem_of_here|done]|done|].
      destruct (IH d1 s n) as (d2 & E2 & N2 & A2 & T2 & W2 & L2);
        [done|done|by rewrite A1|done|lia| |].
      { intros w' Hw' Hne'. apply L1, Hal; [by apply list_elem_of_further|done]. }
      exists d2. unfold bind. rewrite E1, E2. split_and!; [done|done|done|congruence..|eauto].
Qed.

Lemma occ_filter k k' ks :
  occ k' (filter (fun x => x <> k) ks) = if decide (k' = k) then 0%nat else occ k' ks.
Proof.
  induction ks as [|x ks IH]; [by case_decide|]. rewrite filter_cons, occ_cons.
  repeat (case_decide; rewrite ?occ_cons, ?IH in *); subst; simplify_eq/=; try done; lia.
Qed.

Lemma length_filter_occ k ks :
  (occ k ks + length (filter (fun x => x <> k) ks) = length ks)%nat.
Proof.
  induction ks as [|x ks IH]; [done|]. rewrite filter_cons, occ_cons. cbn [length].
  repeat case_decide; subst; cbn [length]; try done; lia.
Qed.

(** One write of [k]: the wait shrinks by the occurrences of [k], and
    STOP_WAITING is sent when that empties it. *)
Lemma wakeup_waiting d ks k s :
  waiting_on d ks -> all_alive d -> Z.of_nat (length ks) < 2 ^ 64 ->
  Daemon.net d !! fd = Some s -> werr s = None ->
  exists d', Daemon.wakeupWaitingClients k d = (Ret tt, d') /\
    waiting_on d' (filter (fun x => x <> k) ks) /\ all_alive d' /\
    Daemon.net d' !! fd =
      Some (stop_if (negb (Nat.eqb (length ks) 0) &&
                     Nat.eqb (length (filter (fun x => x <> k) ks)) 0) s) /\
    Daemon.tcpStore_ d' = Daemon.tcpStore_ d.
Proof.
  intros [Hc Ha] Hal Hb Hs Hw. unfold Daemon.wakeupWaitingClients.
  pose proof (length_filter_occ k ks) as Hlen. pose proof (Hc k) as Hk.
  destruct (Daemon.waitingSockets_ d !! k) as [l|] eqn:El.
  - change (default [] (Some l)) with l in Hk.
    destruct (wake_all l d s (length ks)) as (d1 & E1 & N1 & A1 & T1 & W1 & L1);
      [done..|lia| |].
    { intros w Hw' Hne. by eapply Hal. }
    unfold bind. rewrite E1. eexists. split_and!; [done|split|..].
    + intros k'. cbn. rewrite W1, lookup_delete, occ_filter.
      destruct (decide (k' = k)) as [->|]; [by rewrite decide_True|]. rewrite decide_False by done. apply Hc.
    + cbn. rewrite A1. do 2 f_equal. lia.
    + intros k' l' w Hl' Hw' Hne. cbn in Hl'. rewrite W1, lookup_delete in Hl'.
      case_decide; [done|]. apply L1. by eapply Hal.
    + cbn. rewrite N1. do 2 f_equal. rewrite Hk.
      destruct (Nat.ltb_spec 0 (occ k ks)), (Nat.eqb_spec (occ k ks) (length ks)),
        (Nat.eqb_spec (length ks) 0), (Nat.eqb_spec (length (filter (fun x => x <> k) ks)) 0);
        cbn; try done; lia.
    + done.
  - cbn in Hk. unfold count in Hk. cbn in Hk. exists d. rewrite <- Hk in Hlen. cbn in Hlen.
    assert (Hf : forall k', occ k' (filter (fun x => x <> k) ks) = occ k' ks).
    { intros k'. rewrite occ_filter. case_decide; subst; [lia|done]. }
    split_and!; [done|split|done| |done].
    + intros k'. rewrite Hf. apply Hc.
    + rewrite Hlen. exact Ha.
    + rewrite Hlen, Hs. f_equal. by destruct (Nat.eqb (length ks) 0).
Qed.

Lemma store_and_wake_waiting d ks kv s :
  waiting_on d ks -> all_alive d -> Z.of_nat (length ks) < 2 ^ 64 ->
  Daemon.net d !! fd = Some s -> werr s = None ->
  exists d', Daemon.store_and_wake kv.1 kv.2 d = (Ret tt, d') /\
    waiting_on d' (filter (fun x => x <> kv.1) ks) /\ all_alive d' /\
    Daemon.net d' !! fd =
      Some (stop_if (negb (Nat.eqb (length ks) 0) &&
                     Nat.eqb (length (filter (fun x => x <> kv.1) ks)) 0) s) /\
    Daemon.tcpStore_ d' = <[kv.1 := kv.2]> (Daemon.tcpStore_ d).
Proof.
  intros. unfold Daemon.store_and_wake, bind, modify.
  destruct (wakeup_waiting (Daemon.set_store (<[kv.1 := kv.2]> (Daemon.tcpStore_ d)) d) ks kv.1 s)
    as (d' & E & W & A & N & T); [done..|].
  exists d'. split_and!; [exact E|exact W|exact A|exact N|exact T].
Qed.

Definition unwritten (ks : list bytes) (kvs : list (bytes * bytes)) : list bytes :=
  filter (fun k => k ∉ kvs.*1) ks.

(** A sequence of writes releases the client exactly when it empties the wait. *)
Lemma writes_waiting kvs d ks i e o :
  waiting_on d ks -> all_alive d -> Z.of_nat (length ks) < 2 ^ 64 -> ks <> [] ->
  Daemon.net d !! fd = Some (mkSock i e o None) ->
  exists d', for_each kvs (fun kv => Daemon.store_and_wake kv.1 kv.2) d = (Ret tt, d') /\
    waiting_on d' (unwritten ks kvs) /\
    Daemon.net d' !! fd =
      Some (mkSock i e (if decide (unwritten ks kvs = []) then o ++ [STOP_WAITING] else o) None) /\
    (forall k, is_Some (Daemon.tcpStore_ d' !! k) <->
               is_Some (Daemon.tcpStore_ d !! k) \/ k ∈ kvs.*1).
Proof.
  intros Hwt Hal Hb Hne Hs.
  assert (H : exists d', for_each kvs (fun kv => Daemon.store_and_wake kv.1 kv.2) d = (Ret tt, d') /\
    waiting_on d' (unwritten ks kvs) /\ all_alive d' /\
    Daemon.net d' !! fd =
      Some (stop_if (bool_decide (unwritten ks kvs = [])) (mkSock i e o None)) /\
    (forall k, is_Some (Daemon.tcpStore_ d' !! k) <->
               is_Some (Daemon.tcpStore_ d !! k) \/ k ∈ kvs.*1)).
  2:{ destruct H as (d' & ? & ? & ? & N & ?). exists d'. split_and!; [done..| |done]. rewrite N.
      by case_decide; [rewrite bool_decide_true|rewrite bool_decide_false]. }
  induction kvs as [|kv kvs IH] using rev_ind.
  - exists d. unfold unwritten.
    rewrite (list_filter_all _ ks) by (intros; apply not_elem_of_nil).
    rewrite bool_decide_false by done. split_and!; [done..|].
    intros k. cbn. pose proof (not_elem_of_nil k). tauto.
  - destruct IH as (d1 & E1 & W1 & A1 & N1 & T1).
    assert (Hlen : (length (unwritten ks kvs) <= length ks)%nat) by apply length_filter.
    destruct (store_and_wake_waiting d1 (unwritten ks kvs) kv _ W1 A1 ltac:(lia) N1)
      as (d2 & E2 & W2 & A2 & N2 & T2).
    { by destruct (bool_decide _). }
    exists d2. rewrite for_each_app. unfold bind. rewrite E1. cbn [for_each].
    unfold bind at 1. rewrite E2.
    assert (Hu : unwritten ks (kvs ++ [kv]) = filter (fun x => x <> kv.1) (unwritten ks kvs)).
    { unfold unwritten. rewrite list_filter_filter. apply list_filter_iff. intros k0.
      rewrite fmap_app, not_elem_of_app. cbn [fmap list_fmap].
      rewrite not_elem_of_cons. pose proof (not_elem_of_nil k0). tauto. }
    rewrite Hu. split_and!; [done..| |].
    2:{ intros k. rewrite T2, fmap_app, elem_of_app, lookup_insert. cbn [fmap list_fmap].
        rewrite list_elem_of_singleton. specialize (T1 k).
        case_decide; subst; [split; [by right; right|eauto]|]. rewrite T1. intuition congruence. }
    rewrite N2. f_equal.
    destruct (unwritten ks kvs) as [|k l] eqn:Eu; [done|].
    rewrite (bool_decide_false (k :: l = [])) by done. cbn [length Nat.eqb negb andb].
    destruct (filter (fun x => x <> kv.1) (k :: l)) eqn:Ef; cbn [length Nat.eqb].
    + by rewrite bool_decide_true.
    + by rewrite bool_decide_false.
Qed.

Lemma park_waiting ks d :
  (forall k, count fd (default [] (Daemon.waitingSockets_ d !! k)) = 0%nat) ->
  waiting_on (park fd ks d) ks.
Proof.
  intros H0. split; [|cbn; apply lookup_insert_eq].
  intros k. cbn. transitivity (0 + occ k ks)%nat; [|done]. rewrite <- (H0 k). clear H0.
  generalize (Daemon.waitingSockets_ d) as w. induction ks as [|x ks IH]; intros w; cbn [fold_left].
  - cbn. unfold occ. cbn. lia.
  - rewrite IH, occ_cons. unfold Daemon.push_waiting. rewrite lookup_insert.
    destruct (decide (k = x)) as [->|].
    + rewrite decide_True by done.
      match goal with |- context [default [] (Some ?l)] => change (default [] (Some l)) with l end.
      rewrite count_app, count_cons, decide_True by done. cbn [count]. unfold count. cbn. lia.
    + rewrite decide_False by done. lia.
Qed.

Lemma push_all_others (P : Z -> Prop) ks w :
  (forall k l x, w !! k = Some l -> x ∈ l -> x <> fd -> P x) ->
  forall k l x, fold_left (Daemon.push_waiting fd) ks w !! k = Some l -> x ∈ l -> x <> fd -> P x.
Proof.
  revert w. induction ks as [|k0 ks IH]; intros w H; [done|]. apply IH.
  intros k l x. unfold Daemon.push_waiting. rewrite lookup_insert. case_decide as Hd.
  - intros [= <-]. rewrite elem_of_app, list_elem_of_singleton. intros [Hx| ->] Hne; [|done].
    destruct (w !! k0) as [l0|] eqn:E; [by eapply H|by apply elem_of_nil in Hx].
  - apply H.
Qed.

Lemma park_alive ks d : all_alive d -> all_alive (park fd ks d).
Proof. intros H. exact (push_all_others (alive d) ks _ H). Qed.
End waiting.

(** ** The table of connections *)

Lemma preserves_on_sock {A} fd (m : M sock A) :
  preserves Daemon.sockets_ (Daemon.on_sock fd m).
Proof.
  intros d. unfold Daemon.on_sock. destruct (Daemon.net d !! fd); [|done].
  by destruct (m _).
Qed.
#[export] Hint Resolve preserves_on_sock : frame.

Lemma preserves_wakeup key : preserves Daemon.sockets_ (Daemon.wakeupWaitingClients key).
Proof.
  intros d. unfold Daemon.wakeupWaitingClients. destruct (_ !! key); [|done].
  apply preserves_bind; [|eauto with frame].
  apply preserves_for_each. intros w d0. unfold Daemon.wake_one.
  destruct (_ =? 0); [|done]. apply (preserves_on_sock w _ (Daemon.set_awaited _ d0)).
Qed.
#[export] Hint Resolve preserves_wakeup : frame.

Lemma preserves_recvKeyList fd : preserves Daemon.sockets_ (Daemon.recvKeyList fd).
Proof.
  unfold Daemon.recvKeyList. repeat (apply preserves_bind; [eauto with frame|intros]).
  generalize (Z.to_nat a). induction n as [|n IH]; cbn [Daemon.recvKeys]; eauto 6 with frame.
Qed.
#[export] Hint Resolve preserves_recvKeyList : frame.

(** No handler touches [sockets_]. *)
Lemma query_sockets fd : preserves Daemon.sockets_ (Daemon.query fd).
Proof.
  unfold Daemon.query. apply preserves_bind; [eauto with frame|]. intros b.
  destruct (QueryType_of_byte b) as [[]|];
    unfold Daemon.setHandler, Daemon.store_and_wake, Daemon.addHandler, Daemon.getHandler,
      Daemon.checkHandler, Daemon.waitHandler, Daemon.getNumKeysHandler, Daemon.deleteHandler;
    repeat (apply preserves_bind; [eauto with frame|intros]); eauto with frame;
    repeat case_match; eauto 6 with frame.
Qed.

Lemma queryFds_sync fds kept d r d' pre :
  length pre = kept -> Daemon.sockets_ d = pre ++ fds.*1 ->
  Daemon.queryFds fds kept d = (Ret r, d') -> Daemon.sockets_ d' = pre ++ r.*1.
Proof.
  revert kept d r pre. induction fds as [|[fd rev] fds IH]; intros kept d r pre Hl Hs E; cbn in E.
  { by simplify_eq. }
  assert (Hgo : forall d1, Daemon.sockets_ d1 = Daemon.sockets_ d ->
    (let! fds' := Daemon.queryFds fds (S kept) in ret ((fd, rev) :: fds')) d1 = (Ret r, d') ->
    Daemon.sockets_ d' = pre ++ r.*1).
  { intros d1 Hd1 E1. apply bind_Ret_inv in E1 as (r' & d2 & E1 & E2). cbv [ret] in E2. simplify_eq/=.
    rewrite (IH (S (length pre)) d1 r' (pre ++ [fd])); [by rewrite <- app_assoc| | |done].
    - rewrite length_app. cbn. lia.
    - rewrite Hd1, Hs. cbn. by rewrite <- app_assoc. }
  destruct (rev =? 0); [by eapply Hgo|].
  pose proof (query_sockets fd d) as Hq. destruct (Daemon.query fd d) as [[u|e|] d1]; [by eapply Hgo| |done].
  eapply (IH kept); [exact Hl| |exact E]. cbn in *. rewrite Hq, Hs, <- Hl. cbn.
  by rewrite delete_middle.
Qed.

(** ** Properties *)


Definition daemon0 (l : list Z) : Daemon.t :=
  Daemon.mk ∅ ∅ ∅ l (list_to_map (map (fun fd => (fd, conn [] [])) l)).




(** [waitHandler] counts keys that are already in the store: a client that
    waits for a present key "a" and a missing key "b" is not released when "b"
    is set, although then both keys are present. *)
Theorem tcp_wait_partial_hang :
  exists d0 d1 d2,
    snd (Daemon.store_and_wake (str "/a") (str "1") (daemon0 [5; 6])) = d0 /\
    Daemon.query 5 (dupd 5 d0 (x04 :: le_bytes 8 2 ++ frames [str "/a"; str "/b"]) []) = (Ret tt, d1) /\
    Daemon.store_and_wake (str "/b") (str "2") d1 = (Ret tt, d2) /\
    Daemon.checkKeys [str "/a"; str "/b"] d2 = true /\
    Daemon.net d2 !! 5 = Some (conn [] []) /\ Daemon.keysAwaited_ d2 !! 5 = Some 1.
Proof.
  eexists _, _, _. split; [reflexivity|].
  split; [apply (query_wait_park 5 [str "/a"; str "/b"]); [by repeat constructor|done|reflexivity]|].
  split; [reflexivity|]. by vm_compute.
Qed.

(** A client that died while waiting makes the daemon drop the connection of
    the client whose write would have woken it: the failed send is reported in
    the writer's request. *)
Theorem tcp_dead_waiter_drops_writer :
  exists d0 fds d1,
    Daemon.net d0 !! 6 = Some (conn (x00 :: frame (str "/k") ++ frame (str "v")) []) /\
    Daemon.sockets_ d0 = [5; 6] /\
    Daemon.queryFds [(5, 0); (6, Daemon.POLLIN)] 0 d0 = (Ret fds, d1) /\
    fds = [(5, 0)] /\ Daemon.sockets_ d1 = [5] /\ Daemon.net d1 !! 6 = None /\
    is_Some (Daemon.net d1 !! 5).
Proof.
  exists (Daemon.mk ∅ {[ str "/k" := [5] ]} {[ 5 := 1 ]} [5; 6]
    {[ 5 := mkSock [] true [] (Some 32);
       6 := conn (x00 :: frame (str "/k") ++ frame (str "v")) [] ]}).
  eexists _, _. split; [reflexivity|]. split; [reflexivity|]. split; [reflexivity|].
  split; [reflexivity|]. split; [reflexivity|]. split; [reflexivity|].
  eexists. reflexivity.
Qed.

(** One turn of the daemon's poll loop keeps [sockets_] and the polled
    descriptors in step: a connection that is accepted is appended to both, one
    whose request fails is erased from both at the same index, and the stop
    signal changes neither. *)
Theorem tcp_run_turn_sync (lrev prev : Z) (accepted : outcome Z) (fds fds' : list (Z * Z))
    (fin : bool) (d d' : Daemon.t) :
  Daemon.sockets_ d = fds.*1 ->
  Daemon.run_turn lrev prev accepted fds d = (Ret (fin, fds'), d') ->
  Daemon.sockets_ d' = fds'.*1 /\ fin = negb (prev =? 0).
Proof.
  intros Hs E. unfold Daemon.run_turn in E.
  apply bind_Ret_inv in E as (fds1 & d1 & E1 & E).
  assert (H1 : Daemon.sockets_ d1 = fds1.*1).
  { destruct (lrev =? 0); [cbv [ret] in E1; by simplify_eq|].
    apply bind_Ret_inv in E1 as (? & d2 & [_ ->]%assert_Ret_inv & E2).
    apply bind_Ret_inv in E2 as (fd & d3 & [-> ->]%lift_Ret_inv & E3).
    cbv [bind modify ret] in E3. simplify_eq. cbn. rewrite fmap_app. by f_equal. }
  destruct (prev =? 0); cbn [negb] in *.
  - apply bind_Ret_inv in E as (fds2 & d2 & E2 & E). cbv [ret] in E. simplify_eq.
    split; [|done]. exact (queryFds_sync fds1 0 d1 fds' d' [] eq_refl H1 E2).
  - apply bind_Ret_inv in E as (? & d2 & [_ ->]%assert_Ret_inv & E). cbv [ret] in E. by simplify_eq.
Qed.

Lemma tcp_run_turn_sync_witness :
  exists d', Daemon.run_turn 1 0 (Ret 9) [(5, 1); (6, 1)]
    (Daemon.mk ∅ ∅ ∅ [5; 6] {[ 5 := conn [x07] []; 6 := conn [x05] [] ]}) =
    (Ret (false, [(6, 1); (9, 0)]), d') /\ Daemon.sockets_ d' = [6; 9].
Proof.
  eexists. split; [reflexivity|].
  apply (tcp_run_turn_sync 1 0 (Ret 9) [(5, 1); (6, 1)] [(6, 1); (9, 0)] false
    (Daemon.mk ∅ ∅ ∅ [5; 6] {[ 5 := conn [x07] []; 6 := conn [x05] [] ]})); reflexivity.
Defined.

(** The clean-up of a failed connection leaves no trace of the descriptor in
    the waiting tables, keeps no empty waiting list, and changes neither the
    stored data nor what any other client waits for; so a later connection that
    reuses the number starts clean. *)
Theorem tcp_drop_connection_untracks (fd w : Z) (idx : nat) (d : Daemon.t) (k : bytes) :
  let d' := Daemon.drop_connection fd idx d in
  let waiting := fun x => default [] (Daemon.waitingSockets_ x !! k) in
  Daemon.keysAwaited_ d' !! fd = None /\ (fd ∉ waiting d') /\
  Daemon.waitingSockets_ d' !! k <> Some [] /\
  Daemon.tcpStore_ d' = Daemon.tcpStore_ d /\
  (w <> fd -> count w (waiting d') = count w (waiting d) /\
              Daemon.keysAwaited_ d' !! w = Daemon.keysAwaited_ d !! w /\
              Daemon.net d' !! w = Daemon.net d !! w).
Proof.
  cbn. unfold Daemon.untrack_waiting. rewrite lookup_omap.
  rewrite lookup_delete_eq. split; [done|].
  assert (Hf : forall l, count w (filter (fun x => x <> fd) l) = count w l \/ w = fd).
  { intros l. destruct (decide (w = fd)); [by right|left].
    induction l as [|x l IH]; [done|]. rewrite filter_cons, count_cons.
    case_decide as Hx; [rewrite count_cons, IH; done|].
    rewrite IH. destruct (decide _); [congruence|lia]. }
  split_and!; [| |done|].
  - destruct (Daemon.waitingSockets_ d !! k) as [l|]; cbn; [|apply not_elem_of_nil].
    assert (fd ∉ filter (fun x => x <> fd) l) by (by intros [? _]%list_elem_of_filter).
    destruct (filter _ l); cbn; [apply not_elem_of_nil|done].
  - destruct (Daemon.waitingSockets_ d !! k) as [l|]; cbn; [|done]. by destruct (filter _ l).
  - intros Hne. rewrite !lookup_delete_ne by done. split_and!; [|done..].
    destruct (Daemon.waitingSockets_ d !! k) as [l|]; cbn; [|done].
    destruct (Hf l) as [Hc|]; [|done]. unfold count in Hc. rewrite <- Hc. by destruct (filter (fun x => x <> fd) l).
Qed.
