(* ===== verification/FileStore.v ===== *)
(** * FileStore

    Models csrc/c10d/distributed/c10d/FileStore.cpp: the [File] wrapper with
    its transfer loops and record format, [refresh], every operation of the
    store, its destructor, and several processes that share the file.

    Every operation holds flock(2) on the file while it reads or writes it (an
    iteration of [get] does), so an operation is one atomic step on the file. *)

From stdpp Require Import base option list gmap strings.
From Stdlib Require Import ZArith Lia.
From S2P Require Import Prelude Decimal Store Sockets.
Import Tcputil(sysret(..), moves).

Definition ENOENT : Z := 2.

(** ** The class [File] *)

Module File.

(** The transfer loops, against a schedule of results of read(2) and write(2).
    [syscall] retries after EINTR; the loops do not treat 0 specially. *)
Fixpoint write_loop (rs : list sysret) (data disk : bytes) : outcome unit * bytes :=
  match data with
  | [] => (Ret tt, disk)
  | _ =>
      match rs with
      | [] => (Block, disk)
      | SysErr errno :: rs =>
          if errno =? EINTR then write_loop rs data disk
          else (Throw (SystemError errno "write"), disk)
      | SysOk n :: rs => write_loop rs (drop n data) (disk ++ take n data)
      end
  end.

Fixpoint read_loop (rs : list sysret) (count : nat) (inp buf : bytes) : outcome bytes * bytes :=
  match count with
  | O => (Ret buf, inp)
  | _ =>
      match rs with
      | [] => (Block, inp)
      | SysErr errno :: rs =>
          if errno =? EINTR then read_loop rs count inp buf
          else (Throw (SystemError errno "read"), inp)
      | SysOk n :: rs => read_loop rs (count - n) (drop n inp) (buf ++ take n inp)
      end
  end.

Lemma write_loop_moves rs data disk :
  moves rs (length data) -> write_loop rs data disk = (Ret tt, disk ++ data).
Proof.
  revert data disk. induction rs as [|r rs IH]; intros data disk H; cbn in H.
  - destruct data; [|done]. cbn. by rewrite app_nil_r.
  - destruct data as [|b data]; [by rewrite app_nil_r|]. destruct r as [n|errno]; cbn [write_loop].
    + destruct H as [Hn H]. rewrite IH by (by rewrite length_drop).
      by rewrite <- app_assoc, take_drop.
    + destruct H as [-> H]. by apply IH.
Qed.

Lemma read_loop_moves rs count inp buf :
  moves rs count -> (count <= length inp)%nat ->
  read_loop rs count inp buf = (Ret (buf ++ take count inp), drop count inp).
Proof.
  revert count inp buf. induction rs as [|r rs IH]; intros count inp buf H Hl; cbn in H.
  - subst count. cbn. by rewrite app_nil_r.
  - destruct count as [|count']; [cbn; by rewrite app_nil_r|].
    destruct r as [n|errno]; cbn [read_loop].
    + destruct H as [Hn H]. rewrite IH; [|done|rewrite length_drop; lia].
      rewrite <- app_assoc, drop_drop. f_equal; [|f_equal; lia].
      do 2 f_equal. rewrite <- (take_drop n (take (S count') inp)).
      f_equal; [rewrite take_take; f_equal; lia|]. by rewrite skipn_firstn_comm.
    + destruct H as [-> H]. by apply IH.
Qed.

(** An open file: its contents and the descriptor's cursor. *)
Record t := mk { contents : bytes; cur : nat }.

Inductive whence : Type := SEEK_SET | SEEK_END.

Definition seek (offset : nat) (w : whence) : M t nat := fun f =>
  let pos := match w with SEEK_SET => offset | SEEK_END => (length (contents f) + offset)%nat end in
  (Ret pos, mk (contents f) pos).

Definition tell : M t nat := gets cur.

Definition size : M t nat :=
  let! pos := tell in
  let! size := seek 0 SEEK_END in
  do! seek pos SEEK_SET in
  ret size.

Definition write_bytes (data : bytes) : M t unit := fun f =>
  (Ret tt, mk (take (cur f) (contents f) ++ data ++ drop (cur f + length data) (contents f))
              (cur f + length data)).

(** At the end of the file read(2) returns 0 and the loop does not end. *)
Definition read_bytes (count : nat) : M t bytes := fun f =>
  let rest := drop (cur f) (contents f) in
  if (count <=? length rest)%nat
  then (Ret (take count rest), mk (contents f) (cur f + count))
  else (Block, mk (contents f) (cur f + length rest)).

(** The two [write] overloads; [uint32_t len = str.size()], and the assert on
    the size is not compiled into a release build. *)
Definition write (str : bytes) : M t unit :=
  let len := uint32 (Z.of_nat (length str)) in
  do! write_bytes (le_bytes 4 len) in
  write_bytes (take (Z.to_nat len) str).

Definition read : M t bytes :=
  let! len := read_bytes 4 in
  read_bytes (Z.to_nat (le_value len)).

(** [refresh]; an iteration consumes at least the two length fields, so the
    size of the file bounds the number of iterations. *)
Fixpoint refresh_loop (fuel : nat) (size pos : nat) (cache : gmap bytes bytes)
  : M t (nat * gmap bytes bytes) :=
  if (pos <? size)%nat then
    match fuel with
    | O => fun f => (Block, f)
    | S fuel =>
        let! tmpKey := read in
        let! tmpValue := read in
        let! pos := tell in
        refresh_loop fuel size pos (<[tmpKey := tmpValue]> cache)
    end
  else ret (pos, cache).

Definition refresh (pos : nat) (cache : gmap bytes bytes) : M t (nat * gmap bytes bytes) :=
  let! size := size in
  let! r := if Nat.eqb size pos then ret (pos, cache)
            else do! seek pos SEEK_SET in refresh_loop size size pos cache in
  do! seek 0 SEEK_SET in
  ret r.

End File.

(** ** The store *)

Module FileStore.

(** The file behind [path_] (absent until created) and the fields of one
    process's [FileStore] object that change. *)
Record t := mk { file : option bytes; pos_ : nat; cache_ : gmap bytes bytes }.

Definition cleanupKey_ : bytes := str "cleanup/".
Definition regularPrefix_ : bytes := str "/".
Definition regKey (key : bytes) : bytes := regularPrefix_ ++ key.

Section ops.

(** [timeout_] and [numWorkers_] of the object.  [rounds]: for each time a call
    sleeps, the whole seconds it then reads off its clock and what the other
    processes did to the file meanwhile. *)
Context (timeout_ : Z) (numWorkers_ : Z)
        (rounds : list (Z * (option bytes -> option bytes))).

Definition construct : outcome t :=
  check! (1 <=? numWorkers_)
    else RuntimeError "Number of workers for FileStore should be greater than zero" in
  Ret (mk None 0 ∅).

(** Run a file operation on a fresh descriptor of the existing file. *)
Definition on_file {A} (m : M File.t A) : M t A := fun s =>
  let '(o, f) := m (File.mk (default [] (file s)) 0) in
  (o, mk (Some (File.contents f)) (pos_ s) (cache_ s)).

(** [File file(path_, O_RDWR | O_CREAT, timeout_)]. *)
Definition open_create : M t unit :=
  modify (fun s => mk (Some (default [] (file s))) (pos_ s) (cache_ s)).

Definition refresh_ : M t unit := fun s =>
  (let! r := on_file (File.refresh (pos_ s) (cache_ s)) in
   modify (fun s => mk (file s) (fst r) (snd r))) s.

Definition set (key value : bytes) : M t unit :=
  do! open_create in
  on_file (do! File.seek 0 File.SEEK_END in
           do! File.write (regKey key) in
           File.write value).

Definition expired (timeout elapsed : Z) : bool :=
  negb (timeout =? kNoTimeout) && (timeout <? elapsed * 1000).

(** What the sleeping call finds when it wakes up. *)
Definition others_run (f : option bytes -> option bytes) (s : t) : t :=
  mk (f (file s)) (pos_ s) (cache_ s).

(** The loop in [File]'s constructor without O_CREAT. *)
Fixpoint open_existing (rounds : list (Z * (option bytes -> option bytes))) : M t unit := fun s =>
  match file s with
  | Some _ => (Ret tt, s)
  | None =>
      match rounds with
      | [] => (Block, s)
      | (elapsed, others) :: rounds =>
          if expired timeout_ elapsed then (Throw (SystemError ENOENT "open"), s)
          else open_existing rounds (others_run others s)
      end
  end.

(** [get].  An iteration that refreshes without finding the key gives up its
    locks and starts over without sleeping; that is a round too. *)
Fixpoint get_loop (rounds : list (Z * (option bytes -> option bytes))) (key : bytes)
  : M t bytes := fun s =>
  match file s with
  | None =>
      match rounds with
      | [] => (Block, s)
      | (elapsed, others) :: rounds =>
          if expired timeout_ elapsed then (Throw (SystemError ENOENT "open"), s)
          else get_loop rounds key (others_run others s)
      end
  | Some contents =>
      if bool_decide (cache_ s !! regKey key = None) && Nat.eqb (length contents) (pos_ s) then
        match rounds with
        | [] => (Block, s)
        | (elapsed, others) :: rounds =>
            if expired timeout_ elapsed
            then (Throw (RuntimeError "Timeout waiting for key: "), s)
            else get_loop rounds key (others_run others s)
        end
      else
        match refresh_ s with
        | (Ret _, s) =>
            match cache_ s !! regKey key with
            | Some v => (Ret v, s)
            | None =>
                match rounds with
                | [] => (Block, s)
                | (_, others) :: rounds => get_loop rounds key (others_run others s)
                end
            end
        | (Throw e, s) => (Throw e, s)
        | (Block, s) => (Block, s)
        end
  end.

Definition get (key : bytes) : M t bytes := get_loop rounds key.

(** [cache_[key]] default-inserts an empty value; [pos_] is not moved past the
    record that is written, so the next [refresh] reads it back. *)
Definition addHelper (key : bytes) (i : Z) : M t Z :=
  do! open_create in
  do! refresh_ in
  let! value := gets (fun s => default [] (cache_ s !! key)) in
  do! modify (fun s => mk (file s) (pos_ s) (<[key := value]> (cache_ s))) in
  let! ti := match value with
             | [] => ret i
             | _ => let! n := lift (Decimal.stoll value) in ret (int64 (i + n))
             end in
  do! on_file (do! File.seek 0 File.SEEK_END in
               do! File.write key in
               File.write (Decimal.to_string ti)) in
  ret ti.

Definition add (key : bytes) (value : Z) : M t Z := addHelper (regKey key) value.

Definition getNumKeys : M t Z :=
  do! open_existing rounds in
  do! refresh_ in
  gets (fun s => Z.of_nat (size (cache_ s))).

Definition deleteKey (key : bytes) : M t bool :=
  throw (CheckFailed "deleteKey not implemented for FileStore").

Definition check_with (rounds : list (Z * (option bytes -> option bytes))) (keys : list bytes)
  : M t bool :=
  do! open_existing rounds in
  do! refresh_ in
  gets (fun s => forallb (fun key => bool_decide (is_Some (cache_ s !! regKey key))) keys).

Definition check (keys : list bytes) : M t bool := check_with rounds keys.

(** [while (!check(keys)) { ... sleep }]; the file is opened by [check]. *)
Fixpoint wait_loop (rounds : list (Z * (option bytes -> option bytes))) (keys : list bytes)
    (timeout : Z) : M t unit := fun s =>
  match file s with
  | None =>
      match rounds with
      | [] => (Block, s)
      | (elapsed, others) :: rounds =>
          if expired timeout_ elapsed then (Throw (SystemError ENOENT "open"), s)
          else wait_loop rounds keys timeout (others_run others s)
      end
  | Some _ =>
      (let! ready := check_with [] keys in
       if ready then ret tt
       else
         match rounds with
         | [] => fun s => (Block, s)
         | (elapsed, others) :: rounds =>
             if expired timeout elapsed then throw (RuntimeError "Wait timeout")
             else do! modify (others_run others) in wait_loop rounds keys timeout
         end) s
  end.

Definition wait_for (keys : list bytes) (timeout : Z) : M t unit := wait_loop rounds keys timeout.
Definition wait (keys : list bytes) : M t unit := wait_for keys timeout_.

(** The destructor: the last worker removes the file. *)
Definition destruct_ : M t unit :=
  let! numFinishedWorker := addHelper cleanupKey_ 1 in
  if numFinishedWorker =? numWorkers_ then modify (fun s => mk None (pos_ s) (cache_ s))
  else ret tt.

Definition ops : StoreOps t := {|
  store_set := set; store_get := get; store_add := add;
  store_deleteKey := deleteKey; store_check := check;
  store_getNumKeys := getNumKeys; store_wait := wait; store_wait_for := wait_for;
|}.

End ops.
End FileStore.

(** ** The record format *)

Section records.
Import FileStore.

Definition fits32 (s : bytes) : Prop := Z.of_nat (length s) < 2 ^ 32.
Definition frame32 (s : bytes) : bytes := le_bytes 4 (Z.of_nat (length s)) ++ s.

Definition encode (recs : list (bytes * bytes)) : bytes :=
  concat (map (fun kv => frame32 kv.1 ++ frame32 kv.2) recs).
Definition replay (recs : list (bytes * bytes)) (m : gmap bytes bytes) : gmap bytes bytes :=
  fold_left (fun m kv => <[kv.1 := kv.2]> m) recs m.
Definition rec_ok (kv : bytes * bytes) : Prop := fits32 kv.1 /\ fits32 kv.2.

Lemma encode_app r1 r2 : encode (r1 ++ r2) = encode r1 ++ encode r2.
Proof. unfold encode. by rewrite map_app, concat_app. Qed.

Lemma encode_one kv : encode [kv] = frame32 kv.1 ++ frame32 kv.2.
Proof. unfold encode. cbn. by rewrite app_nil_r. Qed.

Lemma frame32_length s : length (frame32 s) = (4 + length s)%nat.
Proof. unfold frame32. by rewrite length_app, le_bytes_length. Qed.

Lemma encode_length recs : (length recs <= length (encode recs))%nat.
Proof.
  induction recs as [|kv recs IH]; [done|]. change (kv :: recs) with ([kv] ++ recs).
  rewrite encode_app, encode_one, !length_app, !frame32_length. cbn. lia.
Qed.

Lemma replay_app r1 r2 m : replay (r1 ++ r2) m = replay r2 (replay r1 m).
Proof. apply fold_left_app. Qed.

(** What a replay says of a key: the last record for it, or the old entry. *)
Lemma replay_lookup recs m k :
  replay recs m !! k = match replay recs ∅ !! k with Some v => Some v | None => m !! k end.
Proof.
  induction recs as [|kv recs IH] using rev_ind; [cbn; by rewrite lookup_empty|].
  rewrite !replay_app. cbn. rewrite !lookup_insert. by case_decide.
Qed.

Lemma write_bytes_end c data :
  File.write_bytes data (File.mk c (length c)) = (Ret tt, File.mk (c ++ data) (length (c ++ data))).
Proof.
  unfold File.write_bytes. cbn. rewrite take_ge, drop_ge, app_nil_r by lia. by rewrite length_app.
Qed.

Lemma write_end c s :
  fits32 s ->
  File.write s (File.mk c (length c)) = (Ret tt, File.mk (c ++ frame32 s) (length (c ++ frame32 s))).
Proof.
  intros Hs. unfold File.write, bind. rewrite uint32_id by (unfold fits32, in_uint32 in *; lia).
  rewrite write_bytes_end, Nat2Z.id, take_ge by lia. rewrite write_bytes_end.
  unfold frame32. by rewrite <- app_assoc.
Qed.

Lemma read_bytes_at pre data rest :
  File.read_bytes (length data) (File.mk (pre ++ data ++ rest) (length pre)) =
  (Ret data, File.mk (pre ++ data ++ rest) (length pre + length data)).
Proof.
  unfold File.read_bytes. cbn. rewrite drop_app_length, length_app.
  destruct (Nat.leb_spec (length data) (length data + length rest)); [|lia].
  by rewrite take_app_length.
Qed.

Lemma read_frame pre s rest :
  fits32 s ->
  File.read (File.mk (pre ++ frame32 s ++ rest) (length pre)) =
  (Ret s, File.mk (pre ++ frame32 s ++ rest) (length (pre ++ frame32 s))).
Proof.
  intros Hs. unfold File.read, bind, frame32.
  pose proof (read_bytes_at pre (le_bytes 4 (Z.of_nat (length s))) (s ++ rest)) as E.
  rewrite le_bytes_length in E. rewrite <- app_assoc, E.
  rewrite le_value_bytes, Z.mod_small, Nat2Z.id by (unfold fits32 in Hs; lia).
  pose proof (read_bytes_at (pre ++ le_bytes 4 (Z.of_nat (length s))) s rest) as E2.
  rewrite length_app, le_bytes_length, <- app_assoc in E2. rewrite E2.
  do 2 f_equal. rewrite !length_app, le_bytes_length. lia.
Qed.

Lemma refresh_loop_records fuel pre recs cache :
  Forall rec_ok recs -> (length recs <= fuel)%nat ->
  File.refresh_loop fuel (length (pre ++ encode recs)) (length pre) cache
    (File.mk (pre ++ encode recs) (length pre)) =
  (Ret (length (pre ++ encode recs), replay recs cache),
   File.mk (pre ++ encode recs) (length (pre ++ encode recs))).
Proof.
  revert fuel pre cache. induction recs as [|kv recs IH]; intros fuel pre cache Hok Hf.
  - cbn. rewrite app_nil_r. destruct fuel; cbn [File.refresh_loop]; by rewrite Nat.ltb_irrefl.
  - apply Forall_cons in Hok as [[Hk Hv] Hok]. destruct fuel as [|fuel]; cbn in Hf; [lia|].
    change (kv :: recs) with ([kv] ++ recs). rewrite encode_app, encode_one.
    cbn [File.refresh_loop].
    destruct (Nat.ltb_spec (length pre) (length (pre ++ (frame32 kv.1 ++ frame32 kv.2) ++ encode recs)))
      as [_|Hge]; [|rewrite !length_app, !frame32_length in Hge; lia].
    unfold bind at 1. rewrite <- !app_assoc, read_frame by done.
    unfold bind at 1. rewrite (app_assoc pre), read_frame by done.
    unfold bind at 1, File.tell, gets. cbn [File.cur].
    rewrite (app_assoc (pre ++ frame32 kv.1)). rewrite IH; [done|done|lia].
Qed.

(** [refresh] reads exactly the records appended since [pos_]. *)
Lemma refresh_records pre recs cache :
  Forall rec_ok recs ->
  File.refresh (length pre) cache (File.mk (pre ++ encode recs) 0) =
  (Ret (length (pre ++ encode recs), replay recs cache), File.mk (pre ++ encode recs) 0).
Proof.
  intros Hok. unfold File.refresh, File.size, File.tell, File.seek, bind, gets, ret. cbn.
  rewrite Nat.add_0_r. destruct (Nat.eqb_spec (length (pre ++ encode recs)) (length pre)) as [He|He].
  - assert (recs = []) as ->.
    { rewrite length_app in He. pose proof (encode_length recs). destruct recs; [done|].
      cbn in *. lia. }
    cbn in *. by rewrite app_nil_r.
  - rewrite refresh_loop_records; [done|done|].
    rewrite length_app. pose proof (encode_length recs). lia.
Qed.

(** The object's fields are consistent with a log of which it has read the
    first [n] records.  An entry that [addHelper] default-inserted is empty
    until the object reads its own record back. *)
Definition proc_inv (recs : list (bytes * bytes)) (pos : nat) (cache : gmap bytes bytes) : Prop :=
  exists r1 r2, recs = r1 ++ r2 /\ pos = length (encode r1) /\
    forall k, match replay r1 ∅ !! k with
              | Some v => cache !! k = Some v
              | None => cache !! k = None \/ (cache !! k = Some [] /\ is_Some (replay r2 ∅ !! k))
              end.

(** Other processes' appends keep it. *)
Lemma proc_inv_app recs more pos cache :
  proc_inv recs pos cache -> proc_inv (recs ++ more) pos cache.
Proof.
  intros (r1 & r2 & -> & -> & H). exists r1, (r2 ++ more). rewrite app_assoc. split_and!; [done..|].
  intros k. specialize (H k). destruct (replay r1 ∅ !! k); [done|].
  destruct H as [H|[H [v Hv]]]; [by left|right]. split; [done|].
  rewrite replay_app, replay_lookup, Hv. destruct (replay more ∅ !! k); eauto.
Qed.

Lemma refresh_inv recs pos cache :
  Forall rec_ok recs -> proc_inv recs pos cache ->
  exists cache', refresh_ (mk (Some (encode recs)) pos cache) =
      (Ret tt, mk (Some (encode recs)) (length (encode recs)) cache') /\
    (forall k, cache' !! k = replay recs ∅ !! k).
Proof.
  intros Hok (r1 & r2 & -> & -> & H). exists (replay r2 cache).
  rewrite Forall_app in Hok. destruct Hok as [Hok1 Hok2]. split.
  - unfold refresh_, bind, on_file, modify. cbn [file pos_ cache_]. rewrite encode_app.
    change (default [] (Some ?l)) with l. by rewrite refresh_records.
  - intros k. rewrite replay_lookup, replay_app, (replay_lookup r2 (replay r1 ∅)).
    specialize (H k). destruct (replay r2 ∅ !! k); [done|].
    destruct (replay r1 ∅ !! k); [done|]. destruct H as [H|[_ [? [=]]]]; done.
Qed.

Lemma proc_inv_synced recs cache :
  (forall k, cache !! k = replay recs ∅ !! k) -> proc_inv recs (length (encode recs)) cache.
Proof.
  intros H. exists recs, []. rewrite app_nil_r. split_and!; [done..|].
  intros k. rewrite H. destruct (replay recs ∅ !! k); [done|by left].
Qed.

Lemma append_record recs pos cache k v :
  fits32 k -> fits32 v ->
  on_file (do! File.seek 0 File.SEEK_END in do! File.write k in File.write v)
    (mk (Some (encode recs)) pos cache) =
  (Ret tt, mk (Some (encode (recs ++ [(k, v)]))) pos cache).
Proof.
  intros Hk Hv. unfold on_file, File.seek, bind at 1. cbn [file default File.contents].
  change (default [] (Some (encode recs))) with (encode recs). rewrite Nat.add_0_r.
  unfold bind. rewrite write_end, write_end by done. cbn.
  by rewrite encode_app, encode_one, app_assoc.
Qed.
End records.

(** ** The operations on a consistent log *)

Section laws.
Import FileStore.
Context (timeout_ : Z).

Definition log_inv (s : t) (recs : list (bytes * bytes)) : Prop :=
  file s = Some (encode recs) /\ Forall rec_ok recs /\ proc_inv recs (pos_ s) (cache_ s).

Definition contents_map (s : t) : gmap bytes bytes :=
  match fst (File.refresh 0 ∅ (File.mk (default [] (file s)) 0)) with
  | Ret (_, m) => m
  | _ => ∅
  end.

Lemma contents_map_log s recs : log_inv s recs -> contents_map s = replay recs ∅.
Proof.
  intros (E & Hok & _). unfold contents_map. rewrite E.
  change (default [] (Some ?l)) with l. by rewrite (refresh_records [] recs ∅ Hok).
Qed.

Lemma log_inv_open s recs : log_inv s recs -> open_create s = (Ret tt, s).
Proof. intros (E & _ & _). destruct s; cbn in *. subst. reflexivity. Qed.

Lemma log_inv_existing s recs rounds : log_inv s recs -> open_existing timeout_ rounds s = (Ret tt, s).
Proof. intros (E & _ & _). destruct s; cbn in *. subst. by destruct rounds. Qed.

Lemma refresh_log s recs :
  log_inv s recs ->
  exists s', refresh_ s = (Ret tt, s') /\ log_inv s' recs /\
    pos_ s' = length (encode recs) /\ forall k, cache_ s' !! k = replay recs ∅ !! k.
Proof.
  destruct s as [f p c]. intros (E & Hok & Hp). cbn in *. subst.
  destruct (refresh_inv recs p c Hok Hp) as (c' & E & Hc).
  exists (mk (Some (encode recs)) (length (encode recs)) c'). split_and!; [done| |done..].
  split_and!; [done..|]. by apply proc_inv_synced.
Qed.

Lemma append_log s recs k v :
  log_inv s recs -> fits32 k -> fits32 v ->
  exists s', on_file (do! File.seek 0 File.SEEK_END in do! File.write k in File.write v) s =
      (Ret tt, s') /\ log_inv s' (recs ++ [(k, v)]).
Proof.
  destruct s as [f p c]. intros (E & Hok & Hp) Hk Hv. cbn [file pos_ cache_] in *. subst f.
  rewrite append_record by done. eexists. split; [done|]. split_and!; [done| |].
  - apply Forall_app. split; [done|]. by repeat constructor.
  - by apply proc_inv_app.
Qed.

Lemma set_log s recs k v :
  log_inv s recs -> fits32 (regKey k) -> fits32 v ->
  exists s', set k v s = (Ret tt, s') /\ log_inv s' (recs ++ [(regKey k, v)]).
Proof.
  intros Hi Hk Hv. unfold set, bind at 1. rewrite (log_inv_open s recs) by done.
  by apply append_log.
Qed.

Lemma add_log s recs k i n :
  log_inv s recs -> fits32 k ->
  match replay recs ∅ !! k with None => n = 0 | Some v => Decimal.stoll v = Ret n end ->
  in_int64 i ->
  exists s', addHelper k i s = (Ret (int64 (i + n)), s') /\
    log_inv s' (recs ++ [(k, Decimal.to_string (int64 (i + n)))]).
Proof.
  intros Hi Hk Hn Hint. unfold addHelper, bind at 1. rewrite (log_inv_open s recs) by done.
  destruct (refresh_log s recs Hi) as (s1 & E1 & (F1 & Hok & Hp) & Hpos & Hc).
  unfold bind at 1. rewrite E1. unfold bind at 1, gets. unfold bind at 1, modify.
  rewrite Hc. set (z := int64 (i + n)).
  assert (Hz : fits32 (Decimal.to_string z)).
  { pose proof (Decimal.to_string_length z (int64_range _)). unfold fits32. lia. }
  set (s2 := mk _ _ _).
  assert (E2 : forall o, o = (ret z : M t Z) ->
    (let! ti := o in
     do! on_file (do! File.seek 0 File.SEEK_END in
                  do! File.write k in File.write (Decimal.to_string ti)) in ret ti) s2 =
    (Ret z, mk (Some (encode (recs ++ [(k, Decimal.to_string z)]))) (pos_ s2) (cache_ s2))).
  { intros o ->. unfold bind at 1, ret at 1. unfold bind at 1. subst s2. rewrite F1.
    by rewrite append_record. }
  rewrite E2.
  - eexists. split; [done|]. split_and!; [done|apply Forall_app; by repeat constructor|].
    exists recs, [(k, Decimal.to_string z)]. split_and!; [done..|]. intros k'. cbn.
    rewrite !lookup_insert, Hc. destruct (decide (k = k')) as [->|].
    + destruct (replay recs ∅ !! k'); [done|]. right. eauto.
    + destruct (replay recs ∅ !! k'); [done|by left].
  - destruct (replay recs ∅ !! k) as [v|]; cbn.
    + destruct v as [|b v]; [discriminate Hn|]. change (default [] (Some ?l)) with l.
      unfold bind, lift. by rewrite Hn.
    + subst n. unfold z. by rewrite Z.add_0_r, int64_id.
Qed.

Lemma get_log s recs k v rounds :
  log_inv s recs -> replay recs ∅ !! regKey k = Some v ->
  exists s', get timeout_ rounds k s = (Ret v, s') /\ log_inv s' recs.
Proof.
  intros Hi Hv. destruct (refresh_log s recs Hi) as (s1 & E1 & Hi1 & _ & Hc).
  pose proof Hi as (F & Hok & Hp). unfold get.
  assert (E : get_loop timeout_ rounds k s = (Ret v, s1)).
  { destruct rounds; cbn [get_loop]; rewrite F;
      (destruct (bool_decide _ && _) eqn:Hb; [exfalso|rewrite E1, Hc, Hv; done]);
      apply andb_true_iff in Hb as [Hb1%bool_decide_eq_true Hb2%Nat.eqb_eq];
      destruct Hp as (r1 & r2 & -> & Hpos & H); specialize (H (regKey k));
      (assert (r2 = []) as -> by (rewrite Hpos, encode_app, length_app in Hb2;
        pose proof (encode_length r2); destruct r2; [done|cbn in *; lia]));
      rewrite app_nil_r in Hv; rewrite Hv in H; congruence. }
  eauto.
Qed.

Lemma get_absent s recs k v :
  log_inv s recs -> replay recs ∅ !! regKey k = None -> fst (get timeout_ [] k s) <> Ret v.
Proof.
  intros Hi Hv. destruct (refresh_log s recs Hi) as (s1 & E1 & _ & _ & Hc).
  destruct Hi as (F & _). unfold get. cbn [get_loop]. rewrite F.
  destruct (bool_decide _ && _); [done|]. by rewrite E1, Hc, Hv.
Qed.

Lemma check_log s recs ks rounds :
  log_inv s recs ->
  exists s', check timeout_ rounds ks s =
      (Ret (forallb (fun k => bool_decide (is_Some (replay recs ∅ !! regKey k))) ks), s') /\
    log_inv s' recs.
Proof.
  intros Hi. destruct (refresh_log s recs Hi) as (s1 & E1 & Hi1 & _ & Hc).
  exists s1. unfold check, check_with, bind. rewrite (log_inv_existing s recs) by done.
  rewrite E1. unfold gets. split; [|done]. do 2 f_equal.
  apply forallb_ext. intros k. by rewrite Hc.
Qed.

Definition key_fits (k : bytes) : Prop := fits32 (regKey k).

#[global, refine] Instance filestore_spec : StoreSpec (ops timeout_ []) := {|
  view s k := contents_map s !! regKey k;
  inv s := exists recs, log_inv s recs;
  key_ok := key_fits;
  keys_ok _ := True;
  val_ok := fits32;
|}.
Proof.
  - intros z Hz. pose proof (Decimal.to_string_length z Hz). unfold fits32. lia.
  - intros s k v [recs Hi] Hk Hv. destruct (set_log s recs k v Hi Hk Hv) as (s' & E & Hi').
    exists s'. split_and!; [done|eauto|]. intros k'.
    rewrite (contents_map_log s recs), (contents_map_log s' _ Hi') by done.
    rewrite replay_app. cbn. rewrite lookup_insert.
    repeat case_decide; try done; unfold regKey in *; simplify_eq.
  - intros s k v [recs Hi] Hk. cbn. rewrite (contents_map_log s recs) by done. intros Hv.
    destruct (get_log s recs k v [] Hi Hv) as (s' & E & Hi'). exists s'.
    split_and!; [done|eauto|]. intros k'. by rewrite (contents_map_log s' recs).
  - intros s k [recs Hi] Hk. cbn. rewrite (contents_map_log s recs) by done.
    intros Hv v. by eapply get_absent.
  - intros s k i n [recs Hi] Hk Hz. cbn. rewrite (contents_map_log s recs) by done. intros Hn.
    destruct (add_log s recs (regKey k) i n Hi Hk Hn Hz) as (s' & E & Hi').
    exists s'. split_and!; [done|eauto|]. intros k'.
    rewrite (contents_map_log s' _ Hi'), replay_app. cbn. rewrite lookup_insert.
    repeat case_decide; try done; unfold regKey in *; simplify_eq.
  - intros s ks [recs Hi] _. destruct (check_log s recs ks [] Hi) as (s' & E & Hi').
    exists s'. rewrite (contents_map_log s recs) by done. split_and!; [done|eauto|].
    intros k'. by rewrite (contents_map_log s' recs).
Defined.

End laws.

(** ** Processes that share the file *)

Section processes.
Import FileStore.
Context (timeout_ : Z).

Lemma add_bad_counter s recs k i v e :
  log_inv s recs -> replay recs ∅ !! k = Some v -> v <> [] -> Decimal.stoll v = Throw e ->
  exists s', addHelper k i s = (Throw e, s') /\ log_inv s' recs.
Proof.
  intros Hi Hv Hne He. unfold addHelper, bind at 1. rewrite (log_inv_open s recs) by done.
  destruct (refresh_log s recs Hi) as (s1 & E1 & (F1 & Hok & Hp) & Hpos & Hc).
  unfold bind at 1. rewrite E1. unfold bind at 1, gets. unfold bind at 1, modify.
  rewrite Hc, Hv. change (default [] (Some ?l)) with l. destruct v as [|b v]; [done|].
  unfold bind, lift. rewrite He. eexists. split; [done|]. split_and!; [done..|]. cbn [pos_ cache_].
  rewrite Hpos. apply proc_inv_synced. intros k'. rewrite lookup_insert, Hc.
  case_decide; by subst.
Qed.

(** A successful command only appends to the log. *)
Lemma log_grows c s recs r s' m m' :
  log_inv s recs -> (forall k, replay recs ∅ !! regKey k = m !! k) ->
  cmd_ok (ops timeout_ []) c -> spec_cmd c m = Some (r, m') ->
  run_cmd (ops timeout_ []) c s = (Ret r, s') ->
  exists more, log_inv s' (recs ++ more).
Proof.
  intros Hi Hm Hok Es E. destruct c as [k v|k|k i|ks]; cbn in Hok.
  - destruct Hok as [Hk Hv]. destruct (set_log s recs k v Hi Hk Hv) as (s1 & E1 & H1).
    cbn [run_cmd store_set store_get store_add store_check ops] in E. unfold bind in E. rewrite E1 in E. cbv [ret] in E. simplify_eq. eauto.
  - cbn in Es. rewrite <- Hm in Es. destruct (replay recs ∅ !! regKey k) as [v|] eqn:Hv; [|done].
    destruct (get_log timeout_ s recs k v [] Hi Hv) as (s1 & E1 & H1).
    cbn [run_cmd store_set store_get store_add store_check ops] in E. unfold bind in E. rewrite E1 in E. cbv [ret] in E. simplify_eq.
    exists []. by rewrite app_nil_r.
  - destruct Hok as [Hk Hz].
    assert (exists n, match replay recs ∅ !! regKey k with
                      | None => n = 0 | Some v => Decimal.stoll v = Ret n end) as [n Hn].
    { cbn in Es. rewrite <- Hm in Es. destruct (replay recs ∅ !! regKey k) as [v|]; [|eauto].
      destruct (Decimal.stoll v); [eauto|done..]. }
    destruct (add_log s recs (regKey k) i n Hi Hk Hn Hz) as (s1 & E1 & H1).
    cbn [run_cmd store_set store_get store_add store_check ops] in E. unfold add, bind in E. rewrite E1 in E. cbv [ret] in E. simplify_eq. eauto.
  - destruct (check_log timeout_ s recs ks [] Hi) as (s1 & E1 & H1).
    cbn [run_cmd store_set store_get store_add store_check ops] in E. unfold bind in E. rewrite E1 in E. cbv [ret] in E. simplify_eq.
    exists []. by rewrite app_nil_r.
Qed.

(** The shared file and each process's [pos_] and [cache_]. *)
Record sys := mkSys { sfile : option bytes; procs : gmap nat (nat * gmap bytes bytes) }.

Definition on_proc {A} (i : nat) (m : M t A) : M sys A := fun y =>
  let '(pos, cache) := default (O, ∅) (procs y !! i) in
  let '(o, s) := m (mk (sfile y) pos cache) in
  (o, mkSys (file s) (<[i := (pos_ s, cache_ s)]> (procs y))).

Fixpoint run_sys (cs : list (nat * cmd)) : M sys (list reply) :=
  match cs with
  | [] => ret []
  | (i, c) :: cs =>
      let! r := on_proc i (run_cmd (ops timeout_ []) c) in
      let! rs := run_sys cs in ret (r :: rs)
  end.

Definition sys_inv (y : sys) (recs : list (bytes * bytes)) : Prop :=
  sfile y = Some (encode recs) /\ Forall rec_ok recs /\
  forall i p, procs y !! i = Some p -> proc_inv recs p.1 p.2.

Lemma proc_inv_fresh recs : proc_inv recs 0 ∅.
Proof. exists [], recs. split_and!; [done..|]. intros k. cbn. by left. Qed.

Lemma sys_inv_proc y recs i pos cache :
  sys_inv y recs -> default (O, ∅) (procs y !! i) = (pos, cache) ->
  log_inv (mk (sfile y) pos cache) recs.
Proof.
  intros (F & Hok & Hp) E. split_and!; [done..|]. cbn [pos_ cache_].
  destruct (procs y !! i) as [p|] eqn:Ei; cbn in E; simplify_eq.
  - exact (Hp i (pos, cache) Ei).
  - apply proc_inv_fresh.
Qed.

Lemma sys_inv_update y recs more i s :
  sys_inv y recs -> log_inv s (recs ++ more) ->
  sys_inv (mkSys (file s) (<[i := (pos_ s, cache_ s)]> (procs y))) (recs ++ more).
Proof.
  intros (F & Hok & Hp) (F' & Hok' & Hp'). split_and!; [done..|]. cbn. intros j p.
  rewrite lookup_insert. case_decide; intros Hj; simplify_eq; [done|].
  apply proc_inv_app. by eapply Hp.
Qed.

Lemma run_sys_refines cs y recs m rs m' :
  sys_inv y recs -> (forall k, replay recs ∅ !! regKey k = m !! k) ->
  Forall (cmd_ok (ops timeout_ [])) cs.*2 -> spec_run cs.*2 m = Some (rs, m') ->
  exists y' recs', run_sys cs y = (Ret rs, y') /\ sys_inv y' recs' /\
    forall k, replay recs' ∅ !! regKey k = m' !! k.
Proof.
  revert y recs m rs. induction cs as [|[i c] cs IH]; intros y recs m rs Hi Hm Hok E; cbn in E.
  { simplify_eq. exists y, recs. done. }
  apply Forall_cons in Hok as [Hc Hcs].
  destruct (spec_cmd c m) as [[r m1]|] eqn:E1; [|done]. cbn in E.
  destruct (spec_run cs.*2 m1) as [[rs2 m2]|] eqn:E2; simplify_eq/=.
  destruct (default (O, ∅) (procs y !! i)) as [pos cache] eqn:Ep.
  pose proof (sys_inv_proc y recs i pos cache Hi Ep) as Hl.
  assert (HR : represents (ops timeout_ []) (mk (sfile y) pos cache) m).
  { split; [by exists recs|]. intros k. cbn. by rewrite (contents_map_log _ recs). }
  destruct (run_cmd_refines _ c _ m r m1 HR Hc E1) as (s1 & R1 & [_ V1]).
  destruct (log_grows c _ recs r s1 m m1 Hl Hm Hc E1 R1) as [more Hl1].
  destruct (IH (mkSys (file s1) (<[i := (pos_ s1, cache_ s1)]> (procs y))) (recs ++ more) m1 rs2)
    as (y2 & recs2 & R2 & Hi2 & V2); [by apply sys_inv_update| |done..|].
  { intros k. rewrite <- V1. cbn. by rewrite (contents_map_log _ _ Hl1). }
  exists y2, recs2. split; [|done]. unfold bind at 1, on_proc. rewrite Ep, R1.
  unfold bind at 1. by rewrite R2.
Qed.

Lemma destruct_sys numWorkers_ y recs i n :
  sys_inv y recs -> 0 <= n < 2 ^ 62 ->
  replay recs ∅ !! cleanupKey_ = (if n =? 0 then None else Some (Decimal.to_string n)) ->
  exists y', on_proc i (destruct_ numWorkers_) y = (Ret tt, y') /\
    (n + 1 = numWorkers_ -> sfile y' = None) /\
    (n + 1 <> numWorkers_ -> exists recs', sys_inv y' recs' /\
       replay recs' ∅ !! cleanupKey_ = Some (Decimal.to_string (n + 1))).
Proof.
  intros Hi Hn Hc. unfold on_proc.
  destruct (default (O, ∅) (procs y !! i)) as [pos cache] eqn:Ep.
  pose proof (sys_inv_proc y recs i pos cache Hi Ep) as Hl.
  destruct (add_log (mk (sfile y) pos cache) recs cleanupKey_ 1 n Hl) as (s1 & E1 & Hl1).
  { by vm_compute. }
  { rewrite Hc. destruct (Z.eqb_spec n 0); [done|]. apply Decimal.stoll_to_string. unfold in_int64; lia. }
  { unfold in_int64; lia. }
  rewrite int64_id in E1, Hl1 by (unfold in_int64; lia). rewrite (Z.add_comm 1 n) in *.
  unfold destruct_, bind. rewrite E1. destruct (Z.eqb_spec (n + 1) numWorkers_) as [He|He].
  - eexists. split; [done|]. split; [done|lia].
  - eexists. split; [done|]. split; [lia|]. intros _.
    exists (recs ++ [(cleanupKey_, Decimal.to_string (n + 1))]). split; [by apply sys_inv_update|].
    rewrite replay_app. cbn [replay fold_left fst snd]. apply lookup_insert_eq.
Qed.

Lemma destructors_keep_file numWorkers_ ids y recs :
  sys_inv y recs -> replay recs ∅ !! cleanupKey_ = None ->
  Z.of_nat (length ids) < numWorkers_ -> numWorkers_ < 2 ^ 31 ->
  exists y' recs', for_each ids (fun i => on_proc i (destruct_ numWorkers_)) y = (Ret tt, y') /\
    sys_inv y' recs' /\
    replay recs' ∅ !! cleanupKey_ =
      (if Z.of_nat (length ids) =? 0 then None else Some (Decimal.to_string (Z.of_nat (length ids)))).
Proof.
  intros Hi Hc. induction ids as [|i ids IH] using rev_ind; intros Hlt Hw.
  - exists y, recs. done.
  - rewrite length_app in *. cbn [length] in *.
    destruct IH as (y1 & recs1 & E1 & Hi1 & Hc1); [lia..|].
    destruct (destruct_sys numWorkers_ y1 recs1 i (Z.of_nat (length ids)) Hi1 ltac:(lia) Hc1)
      as (y2 & E2 & _ & H2). destruct H2 as (recs2 & Hi2 & Hc2); [lia|].
    exists y2, recs2. rewrite for_each_app. unfold bind. rewrite E1. cbn [for_each].
    unfold bind. rewrite E2. split_and!; [done..|].
    destruct (Z.eqb_spec (Z.of_nat (length ids + 1)) 0); [lia|]. rewrite Hc2. do 2 f_equal. lia.
Qed.
End processes.

Definition fresh_sys : sys := mkSys (Some []) ∅.

Lemma fresh_sys_inv : sys_inv fresh_sys [].
Proof. split_and!; [done..|]. by intros i p. Qed.

(** ** Properties *)

(** C31: processes that share one file and interleave their [set], [get], [add]
    and [check] calls in any order get exactly the replies of one shared map
    driven in that order, although each process only reads the records appended
    since its own last refresh and caches the rest. *)
Theorem filestore_processes_refine_map (timeout_ : Z) (cs : list (nat * cmd)) rs m' :
  Forall (cmd_ok (FileStore.ops timeout_ [])) cs.*2 ->
  spec_run cs.*2 ∅ = Some (rs, m') ->
  exists y', run_sys timeout_ cs fresh_sys = (Ret rs, y').
Proof.
  intros Hok E.
  destruct (run_sys_refines timeout_ cs fresh_sys [] ∅ rs m') as (y' & recs & R & _);
    [apply fresh_sys_inv|done..|]. by exists y'.
Qed.

Lemma filestore_processes_refine_map_witness :
  exists y', run_sys 0
    [(0%nat, CSet (str "k") (str "v")); (1%nat, CAdd (str "n") 2); (0%nat, CAdd (str "n") 5);
     (1%nat, CGet (str "k")); (2%nat, CGet (str "n"))] fresh_sys =
    (Ret [RUnit; RInt 2; RInt 7; RVal (str "v"); RVal (str "7")], y').
Proof.
  eapply (filestore_processes_refine_map 0
    [(0%nat, CSet (str "k") (str "v")); (1%nat, CAdd (str "n") 2); (0%nat, CAdd (str "n") 5);
     (1%nat, CGet (str "k")); (2%nat, CGet (str "n"))]).
  - repeat constructor; cbv; discriminate.
  - reflexivity.
Defined.

(** The file is removed by the last of the [numWorkers_] objects to be
    destroyed, whichever process that is, and by no earlier one: the other
    workers still find every record. *)
Theorem filestore_last_worker_removes (numWorkers_ : Z) (ids : list nat) (i : nat)
    (y : sys) (recs : list (bytes * bytes)) :
  sys_inv y recs -> replay recs ∅ !! FileStore.cleanupKey_ = None ->
  Z.of_nat (length ids) + 1 = numWorkers_ -> numWorkers_ < 2 ^ 31 ->
  exists y1 y2,
    for_each ids (fun i => on_proc i (FileStore.destruct_ numWorkers_)) y = (Ret tt, y1) /\
    (exists recs1, sys_inv y1 recs1) /\
    on_proc i (FileStore.destruct_ numWorkers_) y1 = (Ret tt, y2) /\ sfile y2 = None.
Proof.
  intros Hi Hc Hn Hw.
  destruct (destructors_keep_file numWorkers_ ids y recs Hi Hc) as (y1 & recs1 & E1 & Hi1 & Hc1);
    [lia..|].
  destruct (destruct_sys numWorkers_ y1 recs1 i (Z.of_nat (length ids)) Hi1 ltac:(lia) Hc1)
    as (y2 & E2 & H2 & _).
  exists y1, y2. split_and!; [done|by exists recs1|done|by apply H2].
Qed.

Lemma filestore_last_worker_removes_witness :
  exists y1 y2,
    for_each [2%nat; 0%nat] (fun i => on_proc i (FileStore.destruct_ 3)) fresh_sys = (Ret tt, y1) /\
    (exists recs1, sys_inv y1 recs1) /\
    on_proc 1 (FileStore.destruct_ 3) y1 = (Ret tt, y2) /\ sfile y2 = None.
Proof.
  apply (filestore_last_worker_removes 3 [2%nat; 0%nat] 1 fresh_sys []).
  - split; [reflexivity|split; [constructor|]]. intros i p H. discriminate H.
  - reflexivity.
  - reflexivity.
  - reflexivity.
Defined.

(** [File::read] does not treat the end of the file: once read(2) returns 0
    the loop goes round for ever (no number of further calls ends it), so a
    record cut short by a writer that died leaves every later reader spinning
    with the file lock held. *)
Theorem filestore_read_spins_at_eof (n count : nat) (inp buf : bytes) :
  File.read_loop (replicate n (SysOk 0)) (S count) inp buf = (Block, inp) /\
  fst (FileStore.check kDefaultTimeout [] [str "k"]
         (FileStore.mk (Some (take 5 (encode [(str "/k", str "v")]))) 0 ∅)) = Block.
Proof.
  split; [|by vm_compute]. revert buf. induction n as [|n IH]; intros buf; [done|].
  cbn [replicate File.read_loop]. rewrite Nat.sub_0_r, drop_0, app_nil_r. apply IH.
Qed.
