(* ===== verification/NetUtils.v ===== *)
(** * Collective argument checks and connection set-up

    Models csrc/c10d/distributed/c10d/Utils.hpp (argument checks, alltoall
    layout), Utils.cpp and UnixSockUtils.hpp (listen, connect, accept). *)

From stdpp Require Import base option list gmap strings.
From Stdlib Require Import ZArith Lia.
From S2P Require Import Prelude Decimal Sockets.

(** ** Argument checks *)

(** [toString(at::IntArrayRef)] *)
Fixpoint toString_rest (l : list Z) : bytes :=
  match l with
  | [] => []
  | x :: l => str ", " ++ Decimal.to_string x ++ toString_rest l
  end.
Definition toString (l : list Z) : bytes :=
  str "(" ++
  match l with [] => [] | x :: l => Decimal.to_string x ++ toString_rest l end ++ str ")".

(** [env] is the result of getenv(3). *)
Definition parseEnvVarFlag (env : option bytes) : outcome bool :=
  match env with
  | None => Ret false
  | Some stringValue =>
      match Decimal.stoi stringValue with
      | Ret val =>
          if val =? 1 then Ret true
          else if val =? 0 then Ret false
          else Throw (RuntimeError "Invalid value for environment variable: ")
      | _ => Throw (RuntimeError "Invalid value for environment variable: ")
      end
  end.

Inductive Layout : Type := kStrided | kSparse | kMkldnn.
Inductive DeviceType : Type := kCPU | kCUDA.
Record Device := mkDevice { device_type : DeviceType; device_index : Z }.

#[global] Instance Layout_eq_dec : EqDecision Layout.
Proof. solve_decision. Defined.
#[global] Instance DeviceType_eq_dec : EqDecision DeviceType.
Proof. solve_decision. Defined.
#[global] Instance Device_eq_dec : EqDecision Device.
Proof. solve_decision. Defined.

Section checks.

(** [at::TensorOptions] and its [type_equal] belong to ATen.  [fn] is the
    caller's error reporter; the collectives pass one that throws. *)
Context {options : Type} (type_equal : options -> options -> bool).

Record Tensor := mkTensor {
  topts : options;
  tlayout : Layout;
  tdevice : Device;
  tsizes : list Z;
  tstrides : list Z;
}.

Definition numel (t : Tensor) : Z := fold_right Z.mul 1 (tsizes t).

(** [tensors[index]] of an [ArrayRef] or [vector] is not bounds-checked. *)
Definition at_index {A} (l : list A) (index : nat) : outcome A :=
  match l !! index with Some x => Ret x | None => Throw (Undefined "index") end.

(** [for (size_t i = lo; i < hi; i++) body(i)] where the body may throw. *)
Fixpoint for_range (i n : nat) (body : nat -> outcome unit) : outcome unit :=
  match n with
  | O => Ret tt
  | S n => let? _ := body i in for_range (S i) n body
  end.

Definition assertSameType (type : options) (tensors : list Tensor) : outcome unit :=
  for_range 0 (length tensors) (fun i =>
    let? t := at_index tensors i in
    ocheck (type_equal (topts t) type) (InvalidArgument "mixed types (")).

Definition assertSameSizes (sizes : list Z) (tensors : list Tensor) : outcome unit :=
  for_range 0 (length tensors) (fun i =>
    let? t := at_index tensors i in
    ocheck (bool_decide (tsizes t = sizes)) (InvalidArgument "mixed sizes (")).

Definition assertSameSizeAndType (tensors : list Tensor) : outcome unit :=
  check! negb (Nat.eqb (length tensors) 0) else InvalidArgument "argument is empty" in
  let? t0 := at_index tensors 0 in
  for_range 1 (length tensors - 1) (fun i =>
    let? t := at_index tensors i in
    check! type_equal (topts t) (topts t0)
      else InvalidArgument "argument contains mixed types (" in
    ocheck (bool_decide (tsizes t = tsizes t0)) (InvalidArgument "argument contains mixed sizes (")).

Context (fn : string -> outcome unit).

Definition report (bad : bool) (msg : string) : outcome unit := if bad then fn msg else Ret tt.

Definition assertTypeMatch (opts : options) (tensors : list Tensor) (index : nat) : outcome unit :=
  let? t := at_index tensors index in
  report (negb (type_equal (topts t) opts)) "invalid tensor type at index ".

Definition assertSizesMatch (sizes : list Z) (tensors : list Tensor) (index : nat) : outcome unit :=
  let? t := at_index tensors index in
  report (bool_decide (tsizes t <> sizes)) "invalid tensor size at index ".

Definition assertLayoutMatch_at (expected : Layout) (tensors : list Tensor) (index : nat)
  : outcome unit :=
  let? t := at_index tensors index in
  report (bool_decide (tlayout t <> expected)) "invalid tensor layout at index ".

Definition assertLayoutMatch (tensors : list Tensor) : outcome unit :=
  let? t0 := at_index tensors 0 in
  for_range 1 (length tensors - 1) (assertLayoutMatch_at (tlayout t0) tensors).

Definition assertNonEmpty (tensors : list Tensor) : outcome unit :=
  report (Nat.eqb (length tensors) 0) "requires non-empty tensor list".
Definition assertSingleElement (tensors : list Tensor) : outcome unit :=
  report (negb (Nat.eqb (length tensors) 1)) "requires a single-element tensor list".
Definition assertSingleElementInput (tensors : list Tensor) : outcome unit :=
  report (negb (Nat.eqb (length tensors) 1)) "requires a single-element input tensor list".
Definition assertSingleElementOutput (tensors : list Tensor) : outcome unit :=
  report (negb (Nat.eqb (length tensors) 1)) "requires a single-element output tensor list".

Definition assertRootRank (rank size : Z) : outcome unit :=
  report ((rank <? 0) || (size <=? rank)) "invalid root rank: ".
Definition assertRootTensor (rank size : Z) : outcome unit :=
  report ((rank <? 0) || (size <=? rank)) "invalid root tensor: ".

Definition assertDense (tensors : list Tensor) : outcome unit :=
  let? t0 := at_index tensors 0 in
  report (bool_decide (tlayout t0 <> kStrided)) "only supports dense tensors".
Definition assertCPU (tensors : list Tensor) : outcome unit :=
  let? t0 := at_index tensors 0 in
  report (bool_decide (device_type (tdevice t0) <> kCPU)) "only supports CPU tensors".

Definition assertSameDevice (tensors : list Tensor) : outcome unit :=
  if (length tensors <? 2)%nat then Ret tt
  else
    let? t0 := at_index tensors 0 in
    for_range 1 (length tensors - 1) (fun i =>
      let? t := at_index tensors i in
      report (bool_decide (tdevice t <> tdevice t0)) "tensors should be on the same device").

Definition assertTypeAndSizesMatch_with (tensors : list Tensor) (opts : options) (sizes : list Z)
  : outcome unit :=
  for_range 0 (length tensors) (fun i =>
    let? _ := assertTypeMatch opts tensors i in
    assertSizesMatch sizes tensors i).

Definition assertTypeAndSizesMatch (tensors : list Tensor) : outcome unit :=
  let? t0 := at_index tensors 0 in
  assertTypeAndSizesMatch_with (drop 1 tensors) (topts t0) (tsizes t0).

(** [newLikeFlat] of a list per device: the sizes and strides it allocates. *)
Definition newLikeFlat_device (tensors : list (list Tensor)) (deviceIdx : nat)
  : outcome (list Z * list Z) :=
  check! negb (Nat.eqb (length tensors) 0) else RuntimeError "Received an empty list" in
  let? l0 := at_index tensors 0 in
  check! negb (Nat.eqb (length l0) 0) else RuntimeError "Received an empty list" in
  check! (deviceIdx <? length tensors)%nat else RuntimeError "Invalid device index" in
  let? l := at_index tensors deviceIdx in
  let? t := at_index l 0 in
  let? _ := for_range 1 (length l - 1) (fun i =>
    let? ti := at_index l i in
    ocheck (bool_decide (tdevice ti = tdevice t))
      (RuntimeError "Expecting all tensors on the same device")) in
  Ret (Z.of_nat (length l) :: tsizes t, numel t :: tstrides t).

Definition newLikeFlat (tensors : list Tensor) : outcome (list Z) :=
  check! negb (Nat.eqb (length tensors) 0) else RuntimeError "Received an empty list" in
  let? t := at_index tensors 0 in
  Ret (Z.of_nat (length tensors) :: tsizes t).

Definition getSizes (tensors : list Tensor) : list (list Z) := map tsizes tensors.

Definition getDevices (tensors : list Tensor) : outcome (list Z) :=
  let? t0 := at_index tensors 0 in
  Ret (map (fun t => if bool_decide (device_type (tdevice t0) = kCUDA)
                     then device_index (tdevice t) else -1) tensors).

(** What the loops decide. *)
Lemma for_range_ret i n body :
  for_range i n body = Ret tt <-> forall j, (i <= j < i + n)%nat -> body j = Ret tt.
Proof.
  revert i. induction n as [|n IH]; intros i; cbn.
  - split; [lia|done].
  - destruct (body i) as [[]|e|] eqn:E; cbn.
    + rewrite IH. split; intros H j Hj; [|apply H; lia].
      destruct (decide (j = i)) as [->|]; [done|]. apply H. lia.
    + split; [done|]. intros H. rewrite <- (H i), E by lia. done.
    + split; [done|]. intros H. rewrite <- (H i), E by lia. done.
Qed.

Lemma for_tensors_ret (l : list Tensor) i0 (body : Tensor -> outcome unit) :
  for_range i0 (length l - i0) (fun i => let? t := at_index l i in body t) = Ret tt <->
  Forall (fun t => body t = Ret tt) (drop i0 l).
Proof.
  rewrite for_range_ret, Forall_lookup. setoid_rewrite lookup_drop. unfold at_index. split.
  - intros H j t Ht. pose proof (lookup_lt_Some _ _ _ Ht).
    specialize (H (i0 + j)%nat ltac:(lia)). by rewrite Ht in H.
  - intros H j Hj. destruct (lookup_lt_is_Some_2 l j ltac:(lia)) as [t Ht]. rewrite Ht. cbn.
    apply (H (j - i0)%nat). by replace (i0 + (j - i0))%nat with j by lia.
Qed.

(** The collectives pass a reporter that throws: then a check passes only on
    the good inputs. *)
Definition throws : Prop := forall msg, exists e, fn msg = Throw e.

Lemma report_ret bad msg : throws -> report bad msg = Ret tt <-> bad = false.
Proof.
  intros Ht. unfold report. destruct bad; [|done]. destruct (Ht msg) as [e ->]. done.
Qed.
End checks.
Arguments Tensor : clear implicits.

(** ** The alltoall layout *)

(** [std::accumulate(begin, end, 0)]: the accumulator has the type of the
    initial value, [int]. *)
Definition accumulate_int (l : list Z) : Z := fold_left (fun acc x => int32 (acc + x)) l 0.

Definition checkSplitSizes (split_sizes : list Z) (dim0 : Z) (group_size : Z) : outcome unit :=
  match split_sizes with
  | [] => ocheck (Z.rem dim0 group_size =? 0)
            (CheckFailed "Tensor's dim 0 does not divide equally across group size")
  | _ =>
      check! (Z.of_nat (length split_sizes) =? uint64 group_size)
        else CheckFailed "Number of tensor splits not equal to group size" in
      ocheck (accumulate_int split_sizes =? dim0)
        (CheckFailed "Split sizes doesn't match total dim 0 size")
  end.

(** The common loop: [length_of i] is the i-th length before the check. *)
Fixpoint lengths_loop (length_of : nat -> outcome Z) (i n : nat) (offset : Z)
  : outcome (list Z * list Z * Z) :=
  match n with
  | O => Ret ([], [], offset)
  | S n =>
      let? len := length_of i in
      check! (len <=? INT_MAX) && (offset <=? INT_MAX)
        else AssertFailed "Length or offset larger than INT_MAX not supported" in
      let? r := lengths_loop length_of (S i) n (uint64 (offset + len)) in
      let '(lengths, offsets, total) := r in
      Ret (len :: lengths, offset :: offsets, total)
  end.

Definition computeLengthsAndOffsets (split_sizes : list Z) (dim0 numel : Z) (group_size : nat)
  : outcome (list Z * list Z * Z) :=
  let dim0_size := uint64 dim0 in
  let row_size := if dim0_size =? 0 then 1 else uint64 numel / dim0_size in
  let equal_splits := Nat.eqb (length split_sizes) 0 in
  let split_size := uint64 dim0 / Z.of_nat group_size in
  lengths_loop (fun i =>
    let? s := if equal_splits then Ret split_size else at_index split_sizes i in
    Ret (uint64 (row_size * s))) 0 group_size 0.

Definition computeLengthsAndOffsets_tensors (numels : list Z) (group_size : nat)
  : outcome (list Z * list Z * Z) :=
  lengths_loop (fun i => let? n := at_index numels i in Ret (uint64 n)) 0 group_size 0.

(** ** Setting up connections *)

Module Connect.
Import Tcputil.

Definition kNoTimeout : Z := -1.
Definition kConnectTimeoutMsg : string := "connect() timed out.".
Definition EINPROGRESS : Z := 115.

(** Result of one system call under SYSCHECK once EINTR has been retried. *)
Definition syscheck (errno : option Z) : outcome unit :=
  match errno with None => Ret tt | Some errno => Throw (syscheck_exn errno) end.

(** *** waitSocketConnected *)

Record calls := mkCalls {
  c_setfl : option Z;          (* fcntl(F_SETFL, O_NONBLOCK): errno on failure *)
  c_connect : option Z;        (* connect: errno on failure *)
  c_poll : Z;                  (* poll: number ready, or -1 *)
  c_poll_errno : Z;
  c_so_error : Z;              (* errno after getsockopt(SO_ERROR) *)
  c_getfl : option Z;
  c_clearfl : option Z;
}.

(** Timeout handed to poll(2); [elapsed] in milliseconds. *)
Definition pollTimeout (timeout elapsed : Z) : Z :=
  if timeout =? kNoTimeout then -1 else Z.max 0 (timeout - elapsed).

Definition waitSocketConnected (c : calls) : outcome unit :=
  let? _ := syscheck (c_setfl c) in
  let? _ := match c_connect c with
            | None => Ret tt
            | Some errno => ocheck (errno =? EINPROGRESS) (SystemError errno "")
            end in
  if c_poll c <? 0 then Throw (SystemError (c_poll_errno c) "")
  else if c_poll c =? 0 then Throw (RuntimeError kConnectTimeoutMsg)
  else
    check! (c_so_error c =? 0) else SystemError (c_so_error c) "" in
    let? _ := syscheck (c_getfl c) in
    syscheck (c_clearfl c).

(** *** connect *)

Record state := mkState {
  nextAddr : nat;              (* position in the list of addresses *)
  anyRefused : bool;
  anyReset : bool;
  closed : list Z;             (* sockets closed by the resource guard *)
}.

Section connect.
Context (addresses : nat) (wait : bool) (timeout : Z).

(** [e] is the exception being handled, [elapsed] the clock at that moment.
    The test [!anyRefused && !anyReset] is on the two pointers, which are never
    null. *)
Definition handleConnectException (error_code : Z) (e : exn) (elapsed : Z) : M state unit := fun s =>
  let s := mkState (nextAddr s) (anyRefused s || (error_code =? ECONNREFUSED))
                   (anyReset s || (error_code =? ECONNRESET)) (closed s) in
  let next := S (nextAddr s) in
  let s := mkState next (anyRefused s) (anyReset s) (closed s) in
  if (next <? addresses)%nat then (Ret tt, s)
  else
    let refused_is_null := false in
    let reset_is_null := false in
    if negb wait || (refused_is_null && reset_is_null) then (Throw e, s)
    else if negb (timeout =? kNoTimeout) && (timeout <? elapsed)
    then (Throw (RuntimeError kConnectTimeoutMsg), s)
    else (Ret tt, mkState 0 false false (closed s)).

(** One pass through the loop: what socket(2) gives (or errno), what
    [waitSocketConnected] sees, [errno] in the handler and the clock there. *)
Record attempt := mkAttempt {
  a_socket : Z + Z;            (* descriptor, or errno *)
  a_calls : calls;
  a_errno : Z;
  a_elapsed : Z;
}.

Definition try_once (a : attempt) : M state Z := fun s =>
  match a_socket a with
  | inr errno => (Throw (syscheck_exn errno), s)
  | inl socket =>
      match waitSocketConnected (a_calls a) with
      | Ret _ => (Ret socket, s)
      | Throw e => (Throw e, mkState (nextAddr s) (anyRefused s) (anyReset s) (socket :: closed s))
      | Block => (Block, s)
      end
  end.

(** The code a handler passes on: [e.code()] of a system_error, else errno. *)
Definition error_code (e : exn) (a : attempt) : Z :=
  match e with SystemError code _ => code | _ => a_errno a end.

Fixpoint connect_loop (attempts : list attempt) : M state Z := fun s =>
  match attempts with
  | [] => (Block, s)
  | a :: attempts =>
      match try_once a s with
      | (Ret socket, s) => (Ret socket, s)
      | (Block, s) => (Block, s)
      | (Throw e, s) =>
          (do! handleConnectException (error_code e a) e (a_elapsed a) in connect_loop attempts) s
      end
  end.

(** [gai]: error of getaddrinfo; [nodelay]: errno of setsockopt(TCP_NODELAY). *)
Definition connect (gai : Z) (attempts : list attempt) (nodelay : option Z) : M state Z :=
  do! assert_ ((gai =? 0) && (0 <? addresses)%nat) (InvalidArgument "host not found: ") in
  do! modify (fun s => mkState 0 false false (closed s)) in
  let! socket := connect_loop attempts in
  do! lift (syscheck nodelay) in
  ret socket.
End connect.

(** *** listen *)

(** One address: errno of socket, setsockopt, bind and listen. *)
Record bind_calls := mkBind {
  b_socket : Z + Z; b_reuse : option Z; b_bind : option Z; b_listen : option Z }.

Definition try_listen (b : bind_calls) : outcome Z :=
  match b_socket b with
  | inr errno => Throw (syscheck_exn errno)
  | inl socket =>
      let? _ := syscheck (b_reuse b) in
      let? _ := syscheck (b_bind b) in
      let? _ := syscheck (b_listen b) in
      Ret socket
  end.

(** Only system_error is caught; the last address's error is rethrown. *)
Fixpoint listen_loop (addrs : list bind_calls) : outcome Z :=
  match addrs with
  | [] => Throw (Undefined "null addrinfo")
  | b :: addrs =>
      match try_listen b, addrs with
      | Throw (SystemError _ _), _ :: _ => listen_loop addrs
      | o, _ => o
      end
  end.

(** Address family and port of getsockname(2). *)
Inductive family : Type := AF_INET | AF_INET6 | AF_OTHER.

Definition getSocketPort (errno : option Z) (f : family) (sin_port : Z) : outcome Z :=
  let? _ := syscheck errno in
  match f with
  | AF_INET | AF_INET6 => Ret sin_port
  | AF_OTHER => Throw (RuntimeError "unsupported protocol")
  end.

Definition listen (gai : Z) (addrs : list bind_calls) (sockname : option Z * family * Z)
  : outcome (Z * Z) :=
  check! (gai =? 0) && negb (Nat.eqb (length addrs) 0)
    else InvalidArgument "cannot find host to listen on: " in
  let? socket := listen_loop addrs in
  let '(errno, f, p) := sockname in
  let? port := getSocketPort errno f p in
  Ret (socket, port).

(** *** accept *)

Definition POLLIN : Z := 1.

(** Results of poll(2): number ready, errno and revents. *)
Fixpoint accept_poll (polls : list (Z * Z * Z)) : outcome unit :=
  match polls with
  | [] => Block
  | (res, errno, revents) :: polls =>
      if res =? 0 then Throw (RuntimeError "waiting for processes to connect has timed out")
      else if res =? -1 then
        if errno =? EINTR then accept_poll polls else Throw (SystemError errno "")
      else ocheck (negb (Z.land revents POLLIN =? 0)) (SystemError ECONNABORTED "")
  end.

Definition sockaddrToString (f : family) (ntop : option bytes) (errno : Z) : outcome bytes :=
  match f with
  | AF_INET | AF_INET6 =>
      match ntop with Some a => Ret a | None => Throw (syscheck_exn errno) end
  | AF_OTHER => Throw (RuntimeError "unsupported protocol")
  end.

Definition accept (polls : list (Z * Z * Z)) (accepted : Z + Z) (peername nodelay : option Z)
    (f : family) (ntop : option bytes) (ntop_errno : Z) : outcome (Z * bytes) :=
  let? _ := accept_poll polls in
  let? socket := match accepted with inl s => Ret s | inr errno => Throw (syscheck_exn errno) end in
  let? _ := syscheck peername in
  let? _ := syscheck nodelay in
  let? addr := sockaddrToString f ntop ntop_errno in
  Ret (socket, addr).

End Connect.

(** ** Lemmas on the alltoall layout *)

Lemma accumulate_int_exact_from l acc :
  Forall (fun x => 0 <= x) l -> 0 <= acc -> acc + sum_Z l < 2 ^ 31 ->
  fold_left (fun acc x => int32 (acc + x)) l acc = acc + sum_Z l.
Proof.
  intros Hl. revert acc. induction Hl as [|x l Hx Hl IH]; intros acc Ha Hs; cbn in *; [lia|].
  pose proof (sum_Z_nonneg l Hl). rewrite int32_id by (unfold in_int32; lia). rewrite IH; lia.
Qed.

Lemma accumulate_int_exact l :
  Forall (fun x => 0 <= x) l -> sum_Z l < 2 ^ 31 -> accumulate_int l = sum_Z l.
Proof. intros Hl Hs. unfold accumulate_int. by rewrite accumulate_int_exact_from by (done || lia). Qed.

(** The loop gives prefix sums. *)
Lemma lengths_loop_spec f n i offset lengths offsets total :
  (forall j l, f j = Ret l -> 0 <= l < 2 ^ 64) -> 0 <= offset <= 2 * INT_MAX ->
  lengths_loop f i n offset = Ret (lengths, offsets, total) ->
  length lengths = n /\ length offsets = n /\
  (forall j l, lengths !! j = Some l -> f (i + j)%nat = Ret l /\ 0 <= l <= INT_MAX) /\
  (forall j o, offsets !! j = Some o -> o = offset + sum_Z (take j lengths) /\ o <= INT_MAX) /\
  total = offset + sum_Z lengths.
Proof.
  intros Hf. revert i offset lengths offsets total. unfold INT_MAX.
  induction n as [|n IH]; intros i offset lengths offsets total Ho E; cbn in E.
  { simplify_eq. cbn. split_and!; [done..|by intros []|by intros []|lia]. }
  destruct (f i) as [len| |] eqn:Ef; cbn in E; [|done..]. pose proof (Hf i len Ef) as Hlen.
  unfold ocheck, INT_MAX in E. destruct ((len <=? _) && (offset <=? _)) eqn:Hb; cbn in E; [|done].
  apply andb_true_iff in Hb as [Hb1%Z.leb_le Hb2%Z.leb_le].
  rewrite uint64_id in E by (unfold in_uint64; lia).
  destruct (lengths_loop f (S i) n (offset + len)) as [[[ls os] tot]| |] eqn:El; cbn in E; simplify_eq.
  assert (Ho' : 0 <= offset + len <= 2 * (2 ^ 31 - 1)) by lia.
  destruct (IH _ _ _ _ _ Ho' El) as (L1 & L2 & H1 & H2 & H3). cbn. split_and!; try lia.
  - intros [|j] l Hj; cbn in Hj; simplify_eq; [rewrite Nat.add_0_r; split; [done|lia]|].
    rewrite Nat.add_succ_r. by apply H1.
  - intros [|j] o Hj; cbn in *; simplify_eq; [lia|]. destruct (H2 j o Hj). lia.
Qed.

Lemma sum_Z_scale r l : sum_Z (map (Z.mul r) l) = r * sum_Z l.
Proof. induction l as [|x l IH]; cbn; lia. Qed.

Lemma sum_Z_replicate n x : sum_Z (replicate n x) = Z.of_nat n * x.
Proof. induction n as [|n IH]; cbn [replicate sum_Z]; lia. Qed.

Lemma list_eq_map_lookup {A B} (l : list B) (k : list A) (g : A -> B) :
  length l = length k -> (forall j y x, l !! j = Some y -> k !! j = Some x -> y = g x) ->
  l = map g k.
Proof.
  revert k. induction l as [|y l IH]; intros [|x k] Hl H; cbn in *; try done.
  f_equal; [by apply (H 0%nat)|]. apply IH; [lia|]. intros j. apply (H (S j)).
Qed.

Lemma elem_le_sum x l : x ∈ l -> Forall (fun x => 0 <= x) l -> x <= sum_Z l.
Proof.
  intros Hx Hl. apply elem_of_Permutation in Hx as [l' Hp].
  rewrite (sum_Z_perm _ _ Hp). cbn. rewrite Hp in Hl. apply Forall_cons in Hl as [_ Hl'].
  pose proof (sum_Z_nonneg l' Hl'). lia.
Qed.

(** ** Properties *)

(** With a reporter that throws, the entry checks of a collective
    ([assertNonEmpty], [assertLayoutMatch], [assertTypeAndSizesMatch]) pass
    exactly on the non-empty lists whose tensors all have the type, the sizes
    and the layout of the first one; and no check indexes out of range once
    [assertNonEmpty] has passed. *)
Theorem collective_checks_sound {options} (type_equal : options -> options -> bool)
    (fn : string -> outcome unit) (tensors : list (Tensor options)) :
  throws fn ->
  (let? _ := assertNonEmpty fn tensors in
   let? _ := assertLayoutMatch fn tensors in
   assertTypeAndSizesMatch type_equal fn tensors) = Ret tt <->
  exists t0, head tensors = Some t0 /\
    Forall (fun t => tlayout t = tlayout t0 /\ type_equal (topts t) (topts t0) = true /\
                     tsizes t = tsizes t0) (tail tensors).
Proof.
  intros Ht. destruct tensors as [|t0 ts].
  { cbn. unfold assertNonEmpty. cbn. destruct (Ht "requires non-empty tensor list") as [e ->]; cbn.
    split; [done|]. by intros (t & [=] & _). }
  cbn [assertNonEmpty report Nat.eqb length obind].
  unfold assertLayoutMatch, assertTypeAndSizesMatch, assertTypeAndSizesMatch_with.
  cbn [at_index lookup list_lookup obind length drop head tail].
  assert (HL : for_range 1 (S (length ts) - 1) (assertLayoutMatch_at fn (tlayout t0) (t0 :: ts)) = Ret tt
    <-> Forall (fun t => tlayout t = tlayout t0) ts).
  { unfold assertLayoutMatch_at. change (S (length ts)) with (length (t0 :: ts)).
    rewrite for_tensors_ret. cbn [drop]. apply Forall_proper; [|done]. intros t.
    rewrite report_ret by done. rewrite bool_decide_eq_false. destruct (decide (tlayout t = tlayout t0)); tauto. }
  assert (HT : for_range 0 (length ts) (fun i => let? _ := assertTypeMatch type_equal fn (topts t0) ts i in
      assertSizesMatch fn (tsizes t0) ts i) = Ret tt <->
    Forall (fun t => type_equal (topts t) (topts t0) = true /\ tsizes t = tsizes t0) ts).
  { rewrite for_range_ret, Forall_lookup. unfold assertTypeMatch, assertSizesMatch, at_index. split.
    - intros H j t Hj. specialize (H j). rewrite Hj in H. cbn in H.
      specialize (H (conj (Nat.le_0_l _) (lookup_lt_Some _ _ _ Hj))).
      destruct (report fn (negb _) _) as [[]| |] eqn:E; cbn in H; [|done..].
      apply report_ret in E, H; [|done..]. rewrite negb_false_iff in E.
      apply bool_decide_eq_false, dec_stable in H. done.
    - intros H j [_ Hj]. destruct (lookup_lt_is_Some_2 ts j Hj) as [t Hjt]. rewrite Hjt. cbn.
      destruct (H j t Hjt) as [H1 H2]. rewrite H1. cbn. apply report_ret; [done|].
      apply bool_decide_eq_false. intros Hn. by apply Hn. }
  split.
  - intros H. exists t0. split; [done|].
    destruct (for_range 1 _ _) as [[]| |]; cbn in H; [|done..].
    apply HT in H. apply proj1 in HL. specialize (HL eq_refl).
    eapply Forall_impl; [apply Forall_and; split; [exact HL|exact H]|]. cbn. tauto.
  - intros (t & [= <-] & H). rewrite (proj2 HL); [cbn; apply HT|];
      (eapply Forall_impl; [exact H|]; cbn; tauto).
Qed.

Lemma collective_checks_sound_witness :
  let t := mkTensor (options := Z) 7 kStrided (mkDevice kCPU 0) [2; 3] [3; 1] in
  let fn := fun msg => Throw (InvalidArgument msg) in
  (let? _ := assertNonEmpty fn [t; t] in
   let? _ := assertLayoutMatch fn [t; t] in
   assertTypeAndSizesMatch Z.eqb fn [t; t]) = Ret tt.
Proof.
  intros t fn.
  apply (collective_checks_sound Z.eqb fn [t; t]).
  - intros msg. exists (InvalidArgument msg). reflexivity.
  - exists t. split; [reflexivity|]. repeat constructor.
Defined.

(** For split sizes that pass [checkSplitSizes], [computeLengthsAndOffsets]
    lays the segments out back to back: one per rank, the offset of each is the
    sum of the lengths before it, and together they cover exactly the tensor. *)
Theorem alltoall_layout (split_sizes : list Z) (dim0 row : Z) (group_size : nat)
    (lengths offsets : list Z) (total : Z) :
  (0 < group_size)%nat -> Z.of_nat group_size < 2 ^ 31 ->
  0 < dim0 -> 0 < row -> dim0 * row < 2 ^ 63 ->
  Forall (fun s => 0 <= s) split_sizes -> sum_Z split_sizes < 2 ^ 31 ->
  checkSplitSizes split_sizes dim0 (Z.of_nat group_size) = Ret tt ->
  computeLengthsAndOffsets split_sizes dim0 (dim0 * row) group_size = Ret (lengths, offsets, total) ->
  length lengths = group_size /\ length offsets = group_size /\
  (forall j o, offsets !! j = Some o -> o = sum_Z (take j lengths)) /\
  total = sum_Z lengths /\ total = dim0 * row.
Proof.
  intros Hg Hg2 Hd Hr Hn Hs Hsum Hc E. unfold computeLengthsAndOffsets in E.
  rewrite (uint64_id dim0), (uint64_id (dim0 * row)) in E by (unfold in_uint64; nia).
  destruct (Z.eqb_spec dim0 0) as [|_]; [lia|]. rewrite (Z.mul_comm dim0 row), Z.div_mul in E by lia.
  apply lengths_loop_spec in E as (L1 & L2 & H1 & H2 & H3); [|intros j l|unfold INT_MAX; lia].
  2:{ destruct (if Nat.eqb _ _ then _ else _); cbn; intros ?; simplify_eq.
      apply (wrap_range 64). lia. }
  split_and!; [done|done| |lia|]. { intros j o Hj. destruct (H2 j o Hj). lia. }
  rewrite H3, Z.add_0_l.
  assert (exists parts, length parts = group_size /\ Forall (fun s => 0 <= s) parts /\
    sum_Z parts = dim0 /\ forall j s, parts !! j = Some s ->
      (if Nat.eqb (length split_sizes) 0 then Ret (dim0 / Z.of_nat group_size)
       else at_index split_sizes j) = Ret s) as (parts & P1 & P2 & P3 & P4).
  { destruct split_sizes as [|s0 ss].
    - cbn in Hc. unfold ocheck in Hc. destruct (Z.eqb_spec (Z.rem dim0 (Z.of_nat group_size)) 0) as [Hz|]; [|done].
      exists (replicate group_size (dim0 / Z.of_nat group_size)). cbn. split_and!.
      + apply length_replicate.
      + apply Forall_replicate. apply Z.div_pos; lia.
      + rewrite sum_Z_replicate. rewrite Z.rem_mod_nonneg in Hz by lia.
        pose proof (Z.div_mod dim0 (Z.of_nat group_size)). lia.
      + intros j s [-> _]%lookup_replicate. done.
    - unfold checkSplitSizes in Hc. unfold ocheck in Hc.
      destruct (Z.eqb_spec (Z.of_nat (length (s0 :: ss))) (uint64 (Z.of_nat group_size))) as [Hl|]; [|done].
      rewrite uint64_id in Hl by (unfold in_uint64; lia). cbn [obind] in Hc.
      destruct (Z.eqb_spec (accumulate_int (s0 :: ss)) dim0) as [Ha|]; [|done].
      rewrite accumulate_int_exact in Ha by done.
      exists (s0 :: ss). split_and!; [lia|done|done|]. intros j s Hj. cbn [length Nat.eqb].
      unfold at_index. by rewrite Hj. }
  rewrite (list_eq_map_lookup lengths parts (Z.mul row)); [by rewrite sum_Z_scale, P3; lia|lia|].
  intros j y x Hy Hx. destruct (H1 j y Hy) as [E _]. cbn [Nat.add] in E. rewrite (P4 j x Hx) in E.
  cbn in E. injection E as <-. apply uint64_id.
  assert (x <= dim0) by (rewrite <- P3; apply elem_le_sum; [by eapply list_elem_of_lookup_2|done]).
  rewrite Forall_lookup in P2. pose proof (P2 j x Hx). unfold in_uint64. nia.
Qed.

Lemma alltoall_layout_witness :
  length [4; 0; 8] = 3%nat /\ length [0; 4; 4] = 3%nat /\
  (forall j o, [0; 4; 4] !! j = Some o -> o = sum_Z (take j [4; 0; 8])) /\
  12 = sum_Z [4; 0; 8] /\ 12 = 3 * 4.
Proof.
  apply (alltoall_layout [1; 0; 2] 3 4 3 [4; 0; 8] [0; 4; 4] 12); try lia; try reflexivity.
  repeat constructor; lia.
Defined.

(** [checkSplitSizes] adds the 64-bit split sizes in an [int]: sizes whose
    true sum exceeds dimension 0 by a multiple of 2^32 are accepted. *)
Theorem split_sizes_sum_truncated :
  checkSplitSizes [2 ^ 32; 4] 4 2 = Ret tt /\ sum_Z [2 ^ 32; 4] <> 4.
Proof. split; [by vm_compute|done]. Qed.

Section connect_lemmas.
Import Connect.

(** The exception an attempt ends in, if it fails, and the socket it closes. *)
Definition attempt_error (a : attempt) : option exn :=
  match a_socket a with
  | inr errno => Some (Tcputil.syscheck_exn errno)
  | inl _ => match waitSocketConnected (a_calls a) with Throw e => Some e | _ => None end
  end.
Definition attempt_sockets (a : attempt) : list Z :=
  match a_socket a with inl fd => [fd] | inr _ => [] end.

Lemma try_once_error a e s :
  attempt_error a = Some e ->
  try_once a s = (Throw e, mkState (nextAddr s) (anyRefused s) (anyReset s)
                                   (attempt_sockets a ++ closed s)).
Proof.
  unfold attempt_error, attempt_sockets, try_once. destruct (a_socket a); intros H.
  - destruct (waitSocketConnected _); by simplify_eq.
  - simplify_eq. by destruct s.
Qed.

(** Where the loop stands after a failure that is retried. *)
Lemma handle_retry n e code elapsed timeout s :
  (nextAddr s < n)%nat -> timeout = kNoTimeout \/ elapsed <= timeout ->
  exists r t, handleConnectException n true timeout code e elapsed s =
    (Ret tt, mkState (S (nextAddr s) mod n) r t (closed s)).
Proof.
  intros Hn Ht. unfold handleConnectException. cbn [nextAddr anyRefused anyReset closed negb orb andb].
  destruct (Nat.ltb_spec (S (nextAddr s)) n).
  - rewrite Nat.mod_small by lia. eauto.
  - assert (negb (timeout =? kNoTimeout) && (timeout <? elapsed) = false) as ->.
    { destruct Ht as [->|Ht]; [done|]. destruct (Z.ltb_spec timeout elapsed); [lia|]. apply andb_false_r. }
    assert (S (nextAddr s) = n) as -> by lia. rewrite Nat.Div0.mod_same. eauto.
Qed.

Lemma connect_loop_retry n fails k timeout s :
  (0 < n)%nat -> (nextAddr s < n)%nat ->
  Forall (fun a => is_Some (attempt_error a) /\ (timeout = kNoTimeout \/ a_elapsed a <= timeout)) fails ->
  exists r t, connect_loop n true timeout (fails ++ k) s =
    connect_loop n true timeout k
      (mkState ((nextAddr s + length fails) mod n) r t
         (fold_left (fun c a => attempt_sockets a ++ c) fails (closed s))).
Proof.
  intros Hn0 Hn Hf. revert s Hn. induction Hf as [|a fails [[e He] Ht] _ IH]; intros s Hn.
  - cbn. rewrite Nat.add_0_r, Nat.mod_small by done. exists (anyRefused s), (anyReset s). by destruct s.
  - cbn [app connect_loop]. rewrite (try_once_error _ _ _ He). unfold bind.
    destruct (handle_retry n e (error_code e a) (a_elapsed a) timeout
      (mkState (nextAddr s) (anyRefused s) (anyReset s) (attempt_sockets a ++ closed s)) Hn Ht)
      as (r & t & ->). cbn [nextAddr closed].
    destruct (IH (mkState (S (nextAddr s) mod n) r t (attempt_sockets a ++ closed s))) as (r' & t' & ->).
    { cbn. apply Nat.mod_upper_bound. lia. }
    exists r', t'. cbn [nextAddr closed length fold_left]. do 2 f_equal.
    rewrite Nat.Div0.add_mod_idemp_l. f_equal. lia.
Qed.
End connect_lemmas.

(** A worker that starts before the server keeps trying: whatever errors the
    first attempts end in, as long as the deadline has not passed, [connect]
    returns the socket of the first attempt that succeeds; it goes round the
    addresses in order, and every socket of a failed attempt was closed. *)
Theorem connect_waits_for_listener (addresses : nat) (timeout : Z)
    (fails rest : list Connect.attempt) (a : Connect.attempt) (fd : Z) (s : Connect.state) :
  (0 < addresses)%nat ->
  Forall (fun a => is_Some (attempt_error a) /\
                   (timeout = Connect.kNoTimeout \/ Connect.a_elapsed a <= timeout)) fails ->
  Connect.a_socket a = inl fd -> Connect.waitSocketConnected (Connect.a_calls a) = Ret tt ->
  exists s', Connect.connect addresses true timeout 0 (fails ++ a :: rest) None s = (Ret fd, s') /\
    Connect.nextAddr s' = (length fails mod addresses)%nat /\
    Connect.closed s' = fold_left (fun c a => attempt_sockets a ++ c) fails (Connect.closed s).
Proof.
  intros Hn Hf Ha Hw. unfold Connect.connect, bind, assert_, lift, modify.
  destruct (Nat.ltb_spec 0 addresses); [|lia]. cbn [ocheck Z.eqb andb].
  destruct (connect_loop_retry addresses fails (a :: rest) timeout
    (Connect.mkState 0 false false (Connect.closed s)) Hn Hn Hf) as (r & t & ->).
  cbn [Connect.connect_loop]. unfold Connect.try_once. rewrite Ha, Hw. cbn. eauto.
Qed.

Lemma connect_waits_for_listener_witness :
  let bad := Connect.mkAttempt (inl 3) (Connect.mkCalls None (Some ECONNREFUSED) 0 0 0 None None) 0 500 in
  let good := Connect.mkAttempt (inl 4) (Connect.mkCalls None (Some Connect.EINPROGRESS) 1 0 0 None None) 0 0 in
  exists s', Connect.connect 2 true 1000 0 ([bad; bad; bad] ++ good :: []) None
      (Connect.mkState 0 false false []) = (Ret 4, s') /\
    Connect.nextAddr s' = 1%nat /\ Connect.closed s' = [3; 3; 3].
Proof.
  intros bad good.
  apply (connect_waits_for_listener 2 1000 [bad; bad; bad] [] good 4 (Connect.mkState 0 false false [])).
  - lia.
  - repeat (apply Forall_cons_2; [split; [eexists; reflexivity|right; cbn; lia]|]). apply Forall_nil_2.
  - reflexivity.
  - reflexivity.
Defined.

(** Without [wait], [connect] tries every address once and then rethrows the
    error of the last one; the documented condition "at least one of them gave
    us ECONNREFUSED or ECONNRESET" is not what decides about a retry, since the
    code tests the two flag pointers: with [wait] an error of any other kind
    (here EACCES, 13) is retried as well. *)
Theorem connect_retry_ignores_error_kind (e : exn) (elapsed : Z) (s : Connect.state) :
  Connect.handleConnectException 1 true Connect.kNoTimeout 13 e elapsed
    (Connect.mkState 0 false false []) = (Ret tt, Connect.mkState 0 false false []) /\
  fst (Connect.handleConnectException 1 false Connect.kNoTimeout 13 e elapsed s) = Throw e.
Proof. by split; destruct s. Qed.
