(* ===== verification/ProcessGroup.v ===== *)
(** * Process groups

    Models csrc/c10d/distributed/c10d/ProcessGroup.hpp, ProcessGroup.cpp,
    Types.hpp and ProcessGroupRoundRobin.cpp: operation types, the Work objects
    with their wait, the interface that the back ends implement, and the process
    group that distributes its operations over others in turn.

    The back ends are libraries outside the repository; here they are instances
    of the class [ProcessGroups]. *)

From stdpp Require Import base option list strings.
From Stdlib Require Import ZArith Lia.
From S2P Require Import Prelude.

(** ** Operation types *)

Inductive OpType : Type :=
  | BROADCAST | ALLREDUCE | ALLREDUCE_COALESCED | REDUCE | ALLGATHER | ALLGATHER_BASE
  | ALLGATHER_COALESCED | GATHER | SCATTER | REDUCE_SCATTER | ALLTOALL_BASE | ALLTOALL
  | SEND | RECV | RECVANYSOURCE | BARRIER | UNKNOWN.
#[global] Instance OpType_eq_dec : EqDecision OpType.
Proof. solve_decision. Defined.

Definition opTypeToString (opType : OpType) : string :=
  match opType with
  | BROADCAST => "BROADCAST" | ALLREDUCE => "ALLREDUCE" | ALLREDUCE_COALESCED => "ALLREDUCE_COALESCED"
  | REDUCE => "REDUCE" | ALLGATHER => "ALLGATHER" | ALLGATHER_BASE => "ALLGATHER_BASE"
  | ALLGATHER_COALESCED => "ALLGATHER_COALESCED" | GATHER => "GATHER" | SCATTER => "SCATTER"
  | REDUCE_SCATTER => "REDUCE_SCATTER" | ALLTOALL_BASE => "ALLTOALL_BASE" | ALLTOALL => "ALLTOALL"
  | SEND => "SEND" | RECV => "RECV" | RECVANYSOURCE => "RECVANYSOURCE" | BARRIER => "BARRIER"
  | UNKNOWN => "UNKNOWN"
  end.
Definition isP2POp (opType : OpType) : bool :=
  bool_decide (opType = SEND) || bool_decide (opType = RECV) || bool_decide (opType = RECVANYSOURCE).

(** ** Work *)

(** [end_runs] counts the calls of the profiling callback. *)
Record Work := mkWork {
  completed_ : bool;
  exception_ : option exn;
  wk_rank_ : Z;
  opType_ : OpType;
  recordFunctionEndCallback_ : bool;
  end_runs : nat;
}.

(** [profiled]: there is a profiling title and a profiler is active. *)
Definition new_Work (rank : Z) (opType : OpType) (profiled : bool) : Work :=
  mkWork false None rank opType profiled 0.

Definition kNoTimeout : Z := 0.
Definition isCompleted (w : Work) : bool := completed_ w.
Definition isSuccess (w : Work) : bool := bool_decide (exception_ w = None).
Definition sourceRank : M Work Z :=
  throw (RuntimeError "sourceRank() may only be called on work objects that correspond to a recv or recv-from-any call.").
Definition work_result : M Work unit := throw (RuntimeError "result() not implemented.").
Definition abort : M Work unit := throw (CheckFailed "ProcessGroup::Work::abort not implemented.").

Definition set_finished (exception : option exn) (w : Work) : Work :=
  mkWork true exception (wk_rank_ w) (opType_ w) false
    (if recordFunctionEndCallback_ w then S (end_runs w) else end_runs w).
(** finish wakes the waiters; finishAndThrow does not. *)
Definition finish (exception : option exn) : M Work unit := modify (set_finished exception).
Definition finishAndThrow (exception : option exn) : M Work unit :=
  do! modify (set_finished exception) in
  let! e := gets exception_ in
  match e with Some e => throw e | None => ret tt end.

(** What happens to a work object while a thread sleeps in wait(): it is
    finished, the thread wakes up without a reason, or its time is up. *)
Inductive work_event : Type :=
  | WFinish (exception : option exn)
  | WFinishAndThrow (exception : option exn)
  | WSpurious
  | WTimeUp.
Definition happen (e : work_event) (w : Work) : Work :=
  match e with
  | WFinish x => snd (finish x w)
  | WFinishAndThrow x => snd (finishAndThrow x w)
  | WSpurious | WTimeUp => w
  end.

(** The end of wait; synchronize() does nothing in the base class. *)
Definition wait_verdict : M Work bool :=
  let! e := gets exception_ in
  match e with Some e => throw e | None => ret true end.
Fixpoint wait_sleep (timed : bool) (evs : list work_event) : M Work bool :=
  match evs with
  | [] => lift Block
  | e :: evs =>
      do! modify (happen e) in
      let! completed := gets completed_ in
      match e with
      | WFinish _ => wait_verdict
      | WFinishAndThrow _ => wait_sleep timed evs
      | WSpurious => if completed then wait_verdict else wait_sleep timed evs
      | WTimeUp =>
          if negb timed then wait_sleep timed evs
          else if completed then wait_verdict else throw (RuntimeError "Operation timed out!")
      end
  end.
Definition wait (timeout : Z) (evs : list work_event) : M Work bool :=
  let! completed := gets completed_ in
  if completed then wait_verdict else wait_sleep (negb (timeout =? kNoTimeout)) evs.

(** The header's description of wait: poll isCompleted, then look at isSuccess. *)
Fixpoint poll_until_completed (evs : list work_event) : M Work bool :=
  let! completed := gets isCompleted in
  if completed then
    let! success := gets isSuccess in
    let! e := gets exception_ in
    if success then ret success else match e with Some e => throw e | None => ret success end
  else
    match evs with
    | [] => lift Block
    | e :: evs => do! modify (happen e) in poll_until_completed evs
    end.

Definition wakes (e : work_event) : bool := match e with WFinishAndThrow _ => false | _ => true end.

Lemma wait_verdict_poll evs w : completed_ w = true -> wait_verdict w = poll_until_completed evs w.
Proof.
  intros Hc. unfold wait_verdict. destruct evs; cbn [poll_until_completed]; unfold isCompleted, isSuccess, bind, gets, ret, throw;
    rewrite Hc; destruct (exception_ w); done.
Qed.

Lemma wait_sleep_poll evs : forall w, completed_ w = false -> Forall (fun e => wakes e = true) evs ->
  wait_sleep false evs w = poll_until_completed evs w.
Proof.
  induction evs as [|e evs IH]; intros w Hc Hw.
  - cbn. unfold bind, gets, isCompleted. by rewrite Hc.
  - apply Forall_cons in Hw as [He Hw]. cbn [wait_sleep poll_until_completed]. unfold bind at 1 2 3 4, gets at 1 2, modify at 1 2, isCompleted at 1.
    rewrite Hc. destruct e as [x|x| |]; [|done| |]; cbn [happen negb].
    + by apply wait_verdict_poll.
    + rewrite Hc. by apply IH.
    + by apply IH.
Qed.

(** Work::wait without a time-out is the loop that its documentation gives
    (poll isCompleted, then rethrow or return isSuccess): with whatever happens
    while the thread sleeps, wake-ups without a reason included, both return the
    same result or throw the same exception, and both go on for ever when nothing
    completes the work.  With a time-out, wait does the same if the work is
    completed before the time is up, and throws otherwise. *)
Theorem work_wait_is_polling (w : Work) (evs later : list work_event) (timeout : Z) :
  Forall (fun e => wakes e = true) evs ->
  wait kNoTimeout evs w = poll_until_completed evs w /\
  (timeout <> kNoTimeout -> WTimeUp ∉ evs ->
   wait timeout (evs ++ WTimeUp :: later) w =
     match poll_until_completed evs w with
     | (Block, w') => (Throw (RuntimeError "Operation timed out!"), w')
     | r => r
     end).
Proof.
  intros Hw. split.
  - unfold wait, bind, gets. destruct (completed_ w) eqn:Hc; [by apply wait_verdict_poll|by apply wait_sleep_poll].
  - intros Ht Hno. unfold wait, bind at 1, gets at 1. destruct (completed_ w) eqn:Hc.
    { rewrite (wait_verdict_poll evs w Hc). destruct evs; cbn [poll_until_completed]; unfold isCompleted, isSuccess, bind, gets, ret, throw;
        rewrite Hc; destruct (exception_ w); done. }
    destruct (Z.eqb_spec timeout kNoTimeout); [done|]. cbn [negb]. revert w Hc.
    induction evs as [|e evs IH]; intros w Hc.
    + cbn. unfold bind, gets, modify, isCompleted. by rewrite Hc.
    + apply Forall_cons in Hw as [He Hw]. apply not_elem_of_cons in Hno as [Hne Hno].
      cbn [app wait_sleep poll_until_completed]. unfold bind at 1 2 3 4, gets at 1 2, modify at 1 2, isCompleted at 1.
      rewrite Hc. destruct e as [x|x| |]; [|done| |done]; cbn [happen negb].
      * rewrite (wait_verdict_poll evs (snd (finish x w)) eq_refl). destruct evs; cbn [poll_until_completed]; unfold finish, modify, isCompleted, isSuccess, bind, gets, ret, throw;
          cbn [completed_ set_finished snd]; destruct (exception_ _); done.
      * rewrite Hc. by apply IH.
Qed.

Lemma work_wait_is_polling_witness :
  wait 5 [WSpurious; WTimeUp] (new_Work 0 ALLREDUCE false) =
    (Throw (RuntimeError "Operation timed out!"), new_Work 0 ALLREDUCE false) /\
  fst (wait kNoTimeout [WSpurious; WFinish (Some (RuntimeError "peer"))] (new_Work 0 ALLREDUCE false)) = Throw (RuntimeError "peer").
Proof.
  split.
  - exact (proj2 (work_wait_is_polling (new_Work 0 ALLREDUCE false) [WSpurious] [] 5 ltac:(repeat constructor))
      ltac:(discriminate) ltac:(by rewrite list_elem_of_singleton)).
  - rewrite (proj1 (work_wait_is_polling (new_Work 0 ALLREDUCE false) [WSpurious; WFinish (Some (RuntimeError "peer"))] [] 0
      ltac:(repeat constructor))). reflexivity.
Defined.

(** A thread that sleeps in wait() misses finishAndThrow. *)
Lemma work_finishAndThrow_no_wakeup w e : completed_ w = false ->
  fst (wait kNoTimeout [WFinishAndThrow e] w) = Block /\ completed_ (snd (wait kNoTimeout [WFinishAndThrow e] w)) = true.
Proof.
  intros Hc. unfold wait, bind, gets. rewrite Hc. cbn [wait_sleep happen]. unfold finishAndThrow, bind, modify, gets, lift, ret, throw.
  cbn [exception_ set_finished]. by destruct e.
Qed.

(** ** The interface *)

Inductive ReduceOp : Type := SUM | PRODUCT | MIN | MAX | BAND | BOR | BXOR | UNUSED.
#[global] Instance ReduceOp_eq_dec : EqDecision ReduceOp.
Proof. solve_decision. Defined.

(** The virtual functions with their arguments and options; the options of int
    type are the values after the conversion to int.  Time-outs keep their
    default. *)
Inductive pg_call (T : Type) : Type :=
  | PBroadcast (tensors : list T) (rootRank rootTensor : Z)
  | PAllreduce (tensors : list T) (reduceOp : ReduceOp)
  | PAllreduceCoalesced (tensors : list T) (reduceOp : ReduceOp)
  | PReduce (tensors : list T) (reduceOp : ReduceOp) (rootRank rootTensor : Z)
  | PAllgather (outputTensors : list (list T)) (inputTensors : list T)
  | PAllgatherBase (outputBuffer inputBuffer : T)
  | PAllgatherCoalesced (outputTensorLists : list (list T)) (inputTensors : list T)
  | PGather (outputTensors : list (list T)) (inputTensors : list T) (rootRank : Z)
  | PScatter (outputTensors : list T) (inputTensors : list (list T)) (rootRank : Z)
  | PReduceScatter (outputTensors : list T) (inputTensors : list (list T)) (reduceOp : ReduceOp)
  | PAlltoallBase (outputTensor inputTensor : T) (outputSplitSizes inputSplitSizes : list Z)
  | PAlltoall (outputTensors inputTensors : list T)
  | PSend (tensors : list T) (dstRank tag : Z)
  | PRecv (tensors : list T) (srcRank tag : Z)
  | PRecvAnysource (tensors : list T) (tag : Z)
  | PBarrier.
Arguments PBroadcast {T}. Arguments PAllreduce {T}. Arguments PAllreduceCoalesced {T}. Arguments PReduce {T}.
Arguments PAllgather {T}. Arguments PAllgatherBase {T}. Arguments PAllgatherCoalesced {T}. Arguments PGather {T}.
Arguments PScatter {T}. Arguments PReduceScatter {T}. Arguments PAlltoallBase {T}. Arguments PAlltoall {T}.
Arguments PSend {T}. Arguments PRecv {T}. Arguments PRecvAnysource {T}. Arguments PBarrier {T}.

(** The process groups of a process in a world [W]: a group and a work object
    are names; an operation of a group starts a work object or throws. *)
Class ProcessGroups (T W : Type) := {
  pg_getRank : nat -> Z;
  pg_getSize : nat -> Z;
  pg_issue : nat -> pg_call T -> M W nat;
  pg_wait : nat -> M W bool;
  pg_sourceRank : nat -> M W Z;
}.

(** ** ProcessGroupRoundRobin *)

Section round_robin.
Context {T W : Type} `{PGs : ProcessGroups T W}.

Record RoundRobin := mkRoundRobin {
  rr_rank_ : Z;
  rr_size_ : Z;
  processGroups_ : list nat;
  iterator_ : nat;
}.

Fixpoint check_groups (rank size : Z) (groups : list nat) : outcome unit :=
  match groups with
  | [] => Ret tt
  | g :: groups =>
      check! pg_getRank g =? rank else CheckFailed "" in
      check! pg_getSize g =? size else CheckFailed "" in
      check_groups rank size groups
  end.
Definition RoundRobin_construct (rank size : Z) (processGroups : list nat) : outcome RoundRobin :=
  check! 1 <=? Z.of_nat (length processGroups) else CheckFailed "" in
  let? _ := check_groups rank size processGroups in
  Ret (mkRoundRobin rank size processGroups 0).

Abbreviation op A := (M (RoundRobin * W) A).
Definition in_world {A} (m : M W A) : op A := fun s => let '(o, w) := m s.2 in (o, (s.1, w)).

Definition next : op nat :=
  let! g := gets (fun s => processGroups_ s.1 !! iterator_ s.1) in
  match g with
  | None => throw (Undefined "*iterator_")
  | Some processGroup =>
      do! modify (fun s =>
        let it := S (iterator_ s.1) in
        (mkRoundRobin (rr_rank_ s.1) (rr_size_ s.1) (processGroups_ s.1)
           (if (it =? length (processGroups_ s.1))%nat then 0%nat else it), s.2)) in
      ret processGroup
  end.

Definition forward (c : pg_call T) : op nat := let! g := next in in_world (pg_issue g c).

Definition rr_call (c : pg_call T) : op nat :=
  match c with
  | PBroadcast _ _ _ | PAllreduce _ _ | PAllreduceCoalesced _ _ | PReduce _ _ _ _ | PAllgather _ _
  | PGather _ _ _ | PScatter _ _ _ | PReduceScatter _ _ _ | PAlltoallBase _ _ _ _ => forward c
  | PAllgatherCoalesced outputTensorLists inputTensors => forward (PAllgather outputTensorLists inputTensors)
  | PAlltoall _ _ => throw (RuntimeError "ProcessGroup does not support alltoall")
  | PSend _ _ _ => throw (RuntimeError "ProcessGroupRoundRobin does not support send")
  | PRecv _ _ _ | PRecvAnysource _ _ => throw (RuntimeError "ProcessGroupRoundRobin does not support recv")
  | PBarrier => throw (RuntimeError "ProcessGroupRoundRobin does not support barrier")
  | PAllgatherBase _ _ => throw (RuntimeError "no support for allgather_base in RoundRobin process group")
  end.

(** A caller that goes on after an exception. *)
Fixpoint rr_calls (cs : list (pg_call T)) : RoundRobin * W -> list (outcome nat) * (RoundRobin * W) := fun s =>
  match cs with
  | [] => ([], s)
  | c :: cs => let '(o, s) := rr_call c s in let '(os, s) := rr_calls cs s in (o :: os, s)
  end.

(** The reference: [k] calls have been forwarded so far. *)
Definition forwarded (c : pg_call T) : option (pg_call T) :=
  match c with
  | PAllgatherCoalesced outs ins => Some (PAllgather outs ins)
  | PAlltoall _ _ | PSend _ _ _ | PRecv _ _ _ | PRecvAnysource _ _ | PBarrier | PAllgatherBase _ _ => None
  | c => Some c
  end.
Definition refusal (c : pg_call T) : exn :=
  match c with
  | PAlltoall _ _ => RuntimeError "ProcessGroup does not support alltoall"
  | PSend _ _ _ => RuntimeError "ProcessGroupRoundRobin does not support send"
  | PRecv _ _ _ | PRecvAnysource _ _ => RuntimeError "ProcessGroupRoundRobin does not support recv"
  | PBarrier => RuntimeError "ProcessGroupRoundRobin does not support barrier"
  | _ => RuntimeError "no support for allgather_base in RoundRobin process group"
  end.
Fixpoint schedule (groups : list nat) (k : nat) (cs : list (pg_call T)) (w : W) : list (outcome nat) * W :=
  match cs with
  | [] => ([], w)
  | c :: cs =>
      match forwarded c with
      | None => let '(os, w) := schedule groups k cs w in (Throw (refusal c) :: os, w)
      | Some c =>
          let '(o, w) := pg_issue (nth (k mod length groups) groups 0%nat) c w in
          let '(os, w) := schedule groups (S k) cs w in (o :: os, w)
      end
  end.

Lemma next_ok rr k w : processGroups_ rr <> [] -> iterator_ rr = (k mod length (processGroups_ rr))%nat ->
  exists rr', next (rr, w) = (Ret (nth (k mod length (processGroups_ rr)) (processGroups_ rr) 0%nat), (rr', w)) /\
    processGroups_ rr' = processGroups_ rr /\ iterator_ rr' = (S k mod length (processGroups_ rr))%nat.
Proof.
  intros Hne Hit. assert (Hlen : length (processGroups_ rr) <> 0%nat) by (by destruct (processGroups_ rr)).
  pose proof (Nat.mod_upper_bound k _ Hlen) as Hlt. unfold next, bind, gets, modify, ret. cbn [fst snd].
  destruct (lookup_lt_is_Some_2 (processGroups_ rr) (iterator_ rr)) as [g Hg]; [lia|]. rewrite Hg.
  assert (nth (k mod length (processGroups_ rr)) (processGroups_ rr) 0%nat = g) as -> by (by rewrite nth_lookup, <- Hit, Hg).
  eexists. split; [reflexivity|]. split; [reflexivity|]. cbn [fst iterator_ processGroups_]. rewrite Hit.
  set (n := length (processGroups_ rr)) in *.
  replace (S k mod n)%nat with (S (k mod n) mod n)%nat
    by (rewrite <- (Nat.add_1_r (k mod n)), Nat.Div0.add_mod_idemp_l, Nat.add_1_r; done).
  destruct (Nat.eqb_spec (S (k mod n)) n) as [E|E]; [by rewrite E, Nat.Div0.mod_same|symmetry; apply Nat.mod_small; lia].
Qed.

Lemma rr_call_refused c s : forwarded c = None -> rr_call c s = (Throw (refusal c), s).
Proof. by destruct c. Qed.
Lemma rr_call_forwarded c c' : forwarded c = Some c' -> rr_call c = forward c'.
Proof. by destruct c; intros [= <-]. Qed.

Lemma rr_calls_schedule cs : forall rr k w, processGroups_ rr <> [] ->
  iterator_ rr = (k mod length (processGroups_ rr))%nat ->
  let '(os, s) := rr_calls cs (rr, w) in (os, s.2) = schedule (processGroups_ rr) k cs w.
Proof.
  induction cs as [|c cs IH]; intros rr k w Hne Hit; cbn [rr_calls schedule]; [done|].
  destruct (forwarded c) as [c'|] eqn:Hc.
  - rewrite (rr_call_forwarded c c' Hc). destruct (next_ok rr k w Hne Hit) as (rr' & E & Eg & Ei).
    unfold forward, bind. rewrite E. unfold in_world. cbn [snd fst]. destruct (pg_issue _ c' w) as [o w1].
    rewrite <- Eg in Hne, Ei |- *. specialize (IH rr' (S k) w1 Hne Ei). destruct (rr_calls cs (rr', w1)) as [os s].
    rewrite <- IH. done.
  - rewrite (rr_call_refused c _ Hc). specialize (IH rr k w Hne Hit). destruct (rr_calls cs (rr, w)) as [os s].
    by rewrite <- IH.
Qed.

(** ProcessGroupRoundRobin is its specification with a counter: over any
    sequence of operations, failing ones included, the k-th operation it
    supports goes, unchanged, to the group with index k modulo the number of
    groups (allgather_coalesced as allgather), and the others throw without
    using up a turn.  Its iterator never leaves the vector. *)
Theorem round_robin_schedule (rank size : Z) (groups : list nat) (rr : RoundRobin) (cs : list (pg_call T)) (w : W) :
  RoundRobin_construct rank size groups = Ret rr ->
  let '(os, s) := rr_calls cs (rr, w) in (os, s.2) = schedule groups 0 cs w.
Proof.
  unfold RoundRobin_construct, ocheck. destruct (Z.leb_spec 1 (Z.of_nat (length groups))); [|done]. cbn [obind].
  destruct (check_groups rank size groups); [|done..]. cbn [obind]. intros [= <-].
  apply (rr_calls_schedule cs (mkRoundRobin rank size groups 0) 0 w); cbn; [by destruct groups|].
  by rewrite Nat.Div0.mod_0_l.
Qed.
End round_robin.

(** A world that records the calls. *)
#[local] Instance recorder : ProcessGroups unit (list (nat * pg_call unit)) := {
  pg_getRank _ := 0;
  pg_getSize _ := 4;
  pg_issue g c := fun w => (Ret (length w), w ++ [(g, c)]);
  pg_wait _ := ret true;
  pg_sourceRank _ := ret 0;
}.
Lemma round_robin_schedule_witness :
  (rr_calls [PAllreduce [tt] SUM; PBarrier; PBroadcast [tt] 0 0; PAllreduce [tt] SUM]
     (mkRoundRobin 0 4 [7%nat; 9%nat] 0, [])).2.2 =
  [(7%nat, PAllreduce [tt] SUM); (9%nat, PBroadcast [tt] 0 0); (7%nat, PAllreduce [tt] SUM)].
Proof.
  pose proof (round_robin_schedule (PGs := recorder) 0 4 [7%nat; 9%nat] (mkRoundRobin 0 4 [7%nat; 9%nat] 0)
    [PAllreduce [tt] SUM; PBarrier; PBroadcast [tt] 0 0; PAllreduce [tt] SUM] [] eq_refl) as H.
  destruct (rr_calls _ _) as [os s]. cbn [snd]. apply (f_equal snd) in H. exact H.
Defined.
