(* ===== verification/Bucketing.v ===== *)
(** * Gradient bucketing

    Models [compute_bucket_assignment_by_size], [physical_numel] and
    [Reducer::sync_bucket_indices] of
    csrc/c10d/distributed/c10d/reducer.cpp. *)

From stdpp Require Import base option list gmap strings sorting fin_maps.
From Stdlib Require Import ZArith Lia.
From S2P Require Import Prelude.

(** What bucketing looks at in a tensor.  [storage_sizes] is the NPU storage
    descriptor's shape. *)
Record BTensor := mkBTensor {
  is_sparse : bool;
  scalar_type : Z;
  bdevice : Z * Z;             (* device type and index *)
  storage_sizes : list Z;
  element_size : Z;
}.

Definition physical_numel (self : BTensor) : Z :=
  fold_left (fun n s => int64 (n * s)) (storage_sizes self) 1.

(** [BucketKey]: two tensors may share a bucket when these agree. *)
Definition BucketKey : Type := Z * (Z * Z).
#[global] Instance BucketKey_eq_dec : EqDecision BucketKey := _.
#[global] Instance BucketKey_countable : Countable BucketKey := _.
Definition bucket_key (t : BTensor) : BucketKey := (scalar_type t, bdevice t).

Record BucketAccumulator := mkAcc { indices : list Z; acc_size : Z }.
Definition empty_acc : BucketAccumulator := mkAcc [] 0.

(** The locals of the loop: [result], [bucket_size_limit_iterators] (as
    positions) and [buckets]. *)
Record bstate := mkB {
  result : list (list Z);
  limit_iters : gmap BucketKey nat;
  buckets : gmap BucketKey BucketAccumulator;
}.

Section assignment.
Context (bucket_size_limits : list Z) (expect_sparse_gradient : list bool)
        (tensor_indices : list Z).

(** [tensor_indices[i]] and [expect_sparse_gradient[tensor_index]] are not
    bounds-checked; the int64 index becomes a size_t. *)
Definition tensor_index (i : nat) : outcome Z :=
  match tensor_indices with
  | [] => Ret (Z.of_nat i)
  | _ => match tensor_indices !! i with
         | Some x => Ret (uint64 x)
         | None => Throw (Undefined "tensor_indices[i]")
         end
  end.

Definition expects_sparse (index : Z) : outcome bool :=
  match expect_sparse_gradient with
  | [] => Ret false
  | _ => match expect_sparse_gradient !! Z.to_nat index with
         | Some b => Ret b
         | None => Throw (Undefined "expect_sparse_gradient[tensor_index]")
         end
  end.

Definition tensor_bytes (t : BTensor) : Z := uint64 (physical_numel t * element_size t).

(** [if (iterators.count(key) == 0) iterators[key] = limits.begin()] *)
Definition init_iter (key : BucketKey) (iters : gmap BucketKey nat) : gmap BucketKey nat :=
  match iters !! key with Some _ => iters | None => <[key := O]> iters end.

(** Put a dense tensor's index into its bucket and close the bucket if it has
    reached the current limit of its key. *)
Definition place (key : BucketKey) (index bytes : Z) (s : bstate) : outcome bstate :=
  let bucket := default empty_acc (buckets s !! key) in
  let bucket := mkAcc (indices bucket ++ [index]) (uint64 (acc_size bucket + bytes)) in
  let iters := init_iter key (limit_iters s) in
  let iter := default O (iters !! key) in
  match bucket_size_limits !! iter with
  | None => Throw (Undefined "*bucket_size_limit_iterator")
  | Some bucket_size_limit =>
      if bucket_size_limit <=? acc_size bucket then
        Ret (mkB (result s ++ [indices bucket])
                 (if Nat.eqb (S iter) (length bucket_size_limits) then iters
                  else <[key := S iter]> iters)
                 (<[key := empty_acc]> (buckets s)))
      else Ret (mkB (result s) iters (<[key := bucket]> (buckets s)))
  end.

(** One iteration of the loop. *)
Definition assign_one (i : nat) (tensor : BTensor) (s : bstate) : outcome bstate :=
  check! negb (is_sparse tensor) else CheckFailed "No support for sparse tensors." in
  let? index := tensor_index i in
  let? sparse := expects_sparse index in
  if sparse then Ret (mkB (result s ++ [[index]]) (limit_iters s) (buckets s))
  else place (bucket_key tensor) index (tensor_bytes tensor) s.

Fixpoint assign_loop (i : nat) (tensors : list BTensor) (s : bstate) : outcome bstate :=
  match tensors with
  | [] => Ret s
  | t :: tensors => let? s := assign_one i t s in assign_loop (S i) tensors s
  end.

(** [std::min_element]; buckets are never empty. *)
Definition min_index (b : list Z) : Z :=
  match b with [] => 0 | x :: b => fold_left Z.min b x end.

Definition bucket_le (a b : list Z) : Prop := min_index a <= min_index b.
#[export] Instance bucket_le_dec a b : Decision (bucket_le a b).
Proof. unfold bucket_le. apply _. Defined.

(** [iter] is the iteration order of the unordered_map, which the language
    leaves open. *)
Definition compute_bucket_assignment_by_size
    (iter : list (BucketKey * BucketAccumulator) -> list (BucketKey * BucketAccumulator))
    (tensors : list BTensor) : outcome (list (list Z)) :=
  check! Nat.eqb (length expect_sparse_gradient) 0 ||
         Nat.eqb (length tensors) (length expect_sparse_gradient) else AssertFailed "" in
  check! negb (Nat.eqb (length tensors) 0) else AssertFailed "" in
  let? s := assign_loop 0 tensors (mkB [] ∅ ∅) in
  let remaining :=
    filter (fun b => b <> []) (map (fun kb => indices kb.2) (iter (map_to_list (buckets s)))) in
  let res := result s ++ remaining in
  Ret (match tensor_indices with [] => merge_sort bucket_le res | _ => res end).

End assignment.

(** ** sync_bucket_indices *)

(** The two broadcasts: [broadcast] is the process group's, from rank 0.  The
    tensors are of 32-bit ints. *)
Section sync.
Context (broadcast_indices broadcast_sizes : list Z -> list Z).

(** [bucket.push_back(indices_accessor[indices_accessor_Index++])] for each
    bucket size received. *)
Fixpoint split_sizes (sizes flat : list Z) : list (list Z) :=
  match sizes with
  | [] => []
  | n :: sizes => take (Z.to_nat n) flat :: split_sizes sizes (drop (Z.to_nat n) flat)
  end.

Definition sync_bucket_indices (bucket_indices : list (list Z)) : outcome (list (list Z)) :=
  let bucket_sizes := map (fun b => Z.of_nat (length b)) bucket_indices in
  let total_size := length (concat bucket_indices) in
  let indices_tensor :=
    map int32 (concat bucket_indices ++ [Z.of_nat (length bucket_indices)]) in
  let indices_tensor := broadcast_indices indices_tensor in
  let num_buckets := Z.to_nat (default 0 (indices_tensor !! total_size)) in
  check! negb (Nat.eqb (length bucket_sizes) 0) || Nat.eqb num_buckets 0
    else OutOfRange "vector::_M_range_check" in
  let bucket_sizes_tensor :=
    map (fun i => int32 (default 0 (bucket_sizes !! Nat.min i (length bucket_sizes - 1))))
        (seq 0 num_buckets) in
  let bucket_sizes_tensor := broadcast_sizes bucket_sizes_tensor in
  Ret (map (map uint64) (split_sizes bucket_sizes_tensor indices_tensor)).

End sync.

(** ** The loop invariant *)

Section invariant.
Context (limits : list Z) (es : list bool) (ti : list Z).

(** For the indices of a run: the key, the size and the sparse flag of each. *)
Context (kf : Z -> BucketKey) (sz : Z -> Z) (sp : Z -> bool).
Context (sz_nonneg : forall x, 0 <= sz x) (limits_nonempty : limits <> []).

Definition bytes_of (l : list Z) : Z := sum_Z (map sz l).

(** A finished bucket: a lone sparse gradient, or dense gradients of one key
    that were below a limit before the last one was added. *)
Definition bucket_ok (b : list Z) : Prop :=
  (exists x, b = [x] /\ sp x = true) \/
  (exists k l x lim, b = l ++ [x] /\ Forall (fun y => kf y = k /\ sp y = false) b /\
     lim ∈ limits /\ (l = [] \/ bytes_of l < lim)).

Definition acc_ok (k : BucketKey) (a : BucketAccumulator) (iter : nat) : Prop :=
  Forall (fun y => kf y = k /\ sp y = false) (indices a) /\ acc_size a = bytes_of (indices a) /\
  exists lim, limits !! iter = Some lim /\ (indices a = [] \/ acc_size a < lim).

Definition open_indices (m : gmap BucketKey BucketAccumulator) : list Z :=
  concat (map (fun kb => indices kb.2) (map_to_list m)).
Definition all_indices (s : bstate) : list Z := concat (result s) ++ open_indices (buckets s).

Definition get_acc (s : bstate) (k : BucketKey) : BucketAccumulator :=
  default empty_acc (buckets s !! k).
Definition get_iter (s : bstate) (k : BucketKey) : nat := default O (limit_iters s !! k).

Record loop_inv (done : list Z) (s : bstate) : Prop := {
  li_perm : all_indices s ≡ₚ done;
  li_result : Forall bucket_ok (result s);
  li_accs : forall k, acc_ok k (get_acc s k) (get_iter s k);
}.

Lemma open_indices_insert m k a :
  open_indices (<[k := a]> m) ≡ₚ indices a ++ open_indices (delete k m).
Proof.
  unfold open_indices. rewrite <- insert_delete_eq.
  by rewrite map_to_list_insert by apply lookup_delete_eq.
Qed.

Lemma open_indices_split m k :
  open_indices m ≡ₚ indices (default empty_acc (m !! k)) ++ open_indices (delete k m).
Proof.
  destruct (m !! k) as [a|] eqn:E; cbn.
  - rewrite <- (insert_id m k a E) at 1. apply open_indices_insert.
  - by rewrite delete_id.
Qed.

Lemma bytes_of_app l1 l2 : bytes_of (l1 ++ l2) = bytes_of l1 + bytes_of l2.
Proof. unfold bytes_of. by rewrite map_app, sum_Z_app. Qed.

Lemma bytes_of_nonneg l : 0 <= bytes_of l.
Proof. apply sum_Z_nonneg, Forall_fmap, Forall_true. intros x. apply sz_nonneg. Qed.

Lemma bytes_of_perm l1 l2 : l1 ≡ₚ l2 -> bytes_of l1 = bytes_of l2.
Proof. intros H. apply sum_Z_perm. by rewrite H. Qed.

Lemma loop_inv_init : loop_inv [] (mkB [] ∅ ∅).
Proof.
  split; [done|constructor|]. intros k. unfold get_acc, get_iter. cbn. rewrite !lookup_empty.
  split; [constructor|split; [done|]]. destruct limits as [|lim ls]; [done|].
  exists lim. split; [done|by left].
Qed.

(** A state that differs from a good one in one key's accumulator, and has the
    right indices. *)
Lemma loop_inv_update done s k r iters a i :
  loop_inv done s ->
  Forall bucket_ok r -> acc_ok k a i ->
  (forall k', k' <> k -> iters !! k' = limit_iters s !! k') -> default O (iters !! k) = i ->
  forall done', concat r ++ indices a ++ open_indices (delete k (buckets s)) ≡ₚ done' ->
  loop_inv done' (mkB r iters (<[k := a]> (buckets s))).
Proof.
  intros Hi Hr Ha Hit Hk done' Hp. split; [|done|].
  - rewrite <- Hp. unfold all_indices. cbn. by rewrite open_indices_insert.
  - intros k'. unfold get_acc, get_iter. cbn. rewrite lookup_insert. case_decide as Hd.
    + subst k'. cbn. by rewrite Hk.
    + rewrite Hit by done. by apply Hi.
Qed.

(** The lists the state holds after one more index of key [k]. *)
Lemma placed_perm done s k index :
  loop_inv done s ->
  concat (result s) ++ (indices (get_acc s k) ++ [index]) ++ open_indices (delete k (buckets s))
  ≡ₚ done ++ [index].
Proof.
  intros Hi. rewrite <- (li_perm _ _ Hi). unfold all_indices, get_acc.
  rewrite (open_indices_split (buckets s) k). solve_Permutation.
Qed.

Lemma place_inv done s k index :
  loop_inv done s -> kf index = k -> sp index = false -> bytes_of (done ++ [index]) < 2 ^ 64 ->
  exists s', place limits k index (sz index) s = Ret s' /\ loop_inv (done ++ [index]) s'.
Proof.
  intros Hi Hk Hs Hb. pose proof (placed_perm done s k index Hi) as Hp.
  destruct (li_accs _ _ Hi k) as (A1 & A2 & lim & A3 & A4). unfold place.
  fold (get_acc s k). set (a := mkAcc _ _). set (iters := init_iter k (limit_iters s)).
  assert (Hiter : default O (iters !! k) = get_iter s k).
  { unfold iters, init_iter, get_iter. destruct (limit_iters s !! k) eqn:E; [by rewrite E|].
    by rewrite lookup_insert_eq. }
  assert (Hoth : forall k', k' <> k -> iters !! k' = limit_iters s !! k').
  { intros k' Hne. unfold iters, init_iter. destruct (limit_iters s !! k); [done|]. by rewrite lookup_insert_ne. }
  assert (Hsize : acc_size a = bytes_of (indices (get_acc s k) ++ [index])).
  { cbn. rewrite A2, bytes_of_app. cbn. rewrite Z.add_0_r. apply uint64_id.
    pose proof (bytes_of_nonneg (indices (get_acc s k))). pose proof (sz_nonneg index).
    rewrite <- (bytes_of_perm _ _ Hp), !bytes_of_app in Hb. cbn in Hb.
    pose proof (bytes_of_nonneg (concat (result s))).
    pose proof (bytes_of_nonneg (open_indices (delete k (buckets s)))). unfold in_uint64. lia. }
  assert (Hall : Forall (fun y => kf y = k /\ sp y = false) (indices a)).
  { cbn. apply Forall_app. split; [done|]. by repeat constructor. }
  rewrite Hiter, A3. destruct (Z.leb_spec lim (acc_size a)) as [Hge|Hlt].
  - eexists. split; [done|]. eapply (loop_inv_update done s k).
    + done.
    + apply Forall_app. split; [apply Hi|]. constructor; [|constructor]. right.
      exists k, (indices (get_acc s k)), index, lim. split_and!; [done..| |].
      * by eapply list_elem_of_lookup_2.
      * destruct A4 as [A4|A4]; [by left|right]. by rewrite <- A2.
    + split; [constructor|split; [done|]].
      instantiate (1 := if Nat.eqb (S (get_iter s k)) (length limits) then get_iter s k
                        else S (get_iter s k)).
      pose proof (lookup_lt_Some _ _ _ A3). destruct (Nat.eqb_spec (S (get_iter s k)) (length limits)).
      * exists lim. split; [done|by left].
      * destruct (lookup_lt_is_Some_2 limits (S (get_iter s k)) ltac:(lia)) as [lim' ?].
        exists lim'. split; [done|by left].
    + intros k' Hne. destruct (Nat.eqb _ _); [by apply Hoth|].
      rewrite lookup_insert_ne by done. by apply Hoth.
    + destruct (Nat.eqb _ _); [done|]. by rewrite lookup_insert_eq.
    + rewrite <- Hp. rewrite concat_app. cbn. rewrite app_nil_r. solve_Permutation.
  - eexists. split; [done|].
    apply (loop_inv_update done s k _ _ _ (get_iter s k)); [done|apply Hi| |done|done|done].
    split; [done|split; [done|]]. exists lim. split; [done|by right].
Qed.

Lemma assign_one_inv done s i t index sparse :
  loop_inv done s -> is_sparse t = false ->
  tensor_index ti i = Ret index -> expects_sparse es index = Ret sparse ->
  kf index = bucket_key t -> sz index = tensor_bytes t -> sp index = sparse ->
  bytes_of (done ++ [index]) < 2 ^ 64 ->
  exists s', assign_one limits es ti i t s = Ret s' /\ loop_inv (done ++ [index]) s'.
Proof.
  intros Hi Ht Hti Hes Hk Hsz Hsp Hb. unfold assign_one. rewrite Ht, Hti. cbn. rewrite Hes. cbn.
  destruct sparse.
  - eexists. split; [done|]. split.
    + rewrite <- (li_perm _ _ Hi). unfold all_indices. cbn. rewrite concat_app. cbn. solve_Permutation.
    + cbn. apply Forall_app. split; [apply Hi|]. constructor; [|constructor]. left. eauto.
    + apply Hi.
  - rewrite <- Hsz. by apply place_inv.
Qed.
End invariant.

(** [kf], [sz] and [sp] describe the tensors under the indices [idx] they are
    assigned by, and every table lookup is in range. *)
Definition describes (es : list bool) (ti : list Z) (tensors : list BTensor)
    (kf : Z -> BucketKey) (sz : Z -> Z) (sp : Z -> bool) (idx : list Z) : Prop :=
  Forall2 (fun it ix => tensor_index ti it.1 = Ret ix /\ expects_sparse es ix = Ret (sp ix) /\
             kf ix = bucket_key it.2 /\ sz ix = tensor_bytes it.2 /\ is_sparse it.2 = false)
    (zip (seq 0 (length tensors)) tensors) idx.

Lemma assign_loop_inv limits es ti kf sz sp :
  (forall x, 0 <= sz x) -> limits <> [] ->
  forall tensors i done idx s,
  loop_inv limits kf sz sp done s ->
  Forall2 (fun it ix => tensor_index ti it.1 = Ret ix /\ expects_sparse es ix = Ret (sp ix) /\
             kf ix = bucket_key it.2 /\ sz ix = tensor_bytes it.2 /\ is_sparse it.2 = false)
    (zip (seq i (length tensors)) tensors) idx ->
  bytes_of sz (done ++ idx) < 2 ^ 64 ->
  exists s', assign_loop limits es ti i tensors s = Ret s' /\
    loop_inv limits kf sz sp (done ++ idx) s'.
Proof.
  intros Hsz Hl. induction tensors as [|t ts IH]; intros i done idx s Hi Hd Hb; cbn in Hd.
  - apply Forall2_nil_inv_l in Hd as ->. exists s. by rewrite app_nil_r.
  - apply Forall2_cons_inv_l in Hd as (ix & idx' & (H1 & H2 & H3 & H4 & H5) & Hd & ->). cbn in *.
    change (ix :: idx') with ([ix] ++ idx') in *. rewrite app_assoc in *.
    destruct (assign_one_inv limits es ti kf sz sp Hsz done s i t ix (sp ix)) as (s1 & E1 & Hi1);
      try done.
    { rewrite bytes_of_app in Hb. pose proof (bytes_of_nonneg sz Hsz idx'). lia. }
    rewrite E1. cbn. by apply IH.
Qed.

#[global] Instance bucket_le_total : Total bucket_le.
Proof. intros a b. unfold bucket_le. lia. Qed.
#[global] Instance bucket_le_trans : Transitive bucket_le.
Proof. intros a b c. unfold bucket_le. lia. Qed.

Lemma concat_filter_nonempty {A} (ls : list (list A)) :
  concat (filter (fun b => b <> []) ls) = concat ls.
Proof.
  induction ls as [|l ls IH]; [done|]. rewrite filter_cons. case_decide as Hd; cbn; [by rewrite IH|].
  by rewrite Hd, IH.
Qed.

Lemma elem_length_concat {A} (ls : list (list A)) x : x ∈ ls -> (length x <= length (concat ls))%nat.
Proof.
  induction 1 as [l ls|l l' ls _ IH]; cbn; rewrite length_app; lia.
Qed.

Lemma remaining_ok limits kf sz sp (Hsz : forall x, 0 <= sz x) done s
    (iter : list (BucketKey * BucketAccumulator) -> list (BucketKey * BucketAccumulator)) :
  loop_inv limits kf sz sp done s -> (forall l, iter l ≡ₚ l) ->
  let remaining :=
    filter (fun b => b <> []) (map (fun kb => indices kb.2) (iter (map_to_list (buckets s)))) in
  Forall (bucket_ok limits kf sz sp) remaining /\ concat remaining ≡ₚ open_indices (buckets s).
Proof.
  intros Hi Hit remaining. subst remaining. split.
  - apply Forall_forall. intros b. rewrite list_elem_of_filter, list_elem_of_fmap.
    intros [Hne ([k a] & -> & Hin)]. rewrite Hit in Hin. apply elem_of_map_to_list in Hin.
    cbn in *. pose proof (li_accs _ _ _ _ _ _ Hi k) as Ha. unfold get_acc in Ha. rewrite Hin in Ha.
    destruct Ha as (A1 & A2 & lim & A3 & A4). cbn in *. destruct A4 as [A4|A4]; [done|].
    right. destruct (exists_last Hne) as (l & x & E). rewrite E in *.
    exists k, l, x, lim. split_and!; [done..| |].
    + by eapply list_elem_of_lookup_2.
    + right. rewrite A2, bytes_of_app in A4. cbn in A4. pose proof (Hsz x). lia.
  - rewrite concat_filter_nonempty. unfold open_indices. by rewrite Hit.
Qed.

(** ** Properties *)

Lemma bucket_partition (limits : list Z) (es : list bool) (ti : list Z)
    (iter : list (BucketKey * BucketAccumulator) -> list (BucketKey * BucketAccumulator))
    (tensors : list BTensor) (kf : Z -> BucketKey) (sz : Z -> Z) (sp : Z -> bool) (idx : list Z) :
  (forall l, iter l ≡ₚ l) -> limits <> [] -> tensors <> [] ->
  (es = [] \/ length tensors = length es) ->
  (forall x, 0 <= sz x) -> bytes_of sz idx < 2 ^ 64 ->
  describes es ti tensors kf sz sp idx ->
  exists bs, compute_bucket_assignment_by_size limits es ti iter tensors = Ret bs /\
    concat bs ≡ₚ idx /\ Forall (bucket_ok limits kf sz sp) bs /\
    (ti = [] -> Sorted bucket_le bs).
Proof.
  intros Hit Hl Ht Hes Hsz Hb Hd. unfold compute_bucket_assignment_by_size.
  assert (Nat.eqb (length es) 0 || Nat.eqb (length tensors) (length es) = true) as ->.
  { destruct Hes as [->| ->]; [done|]. rewrite Nat.eqb_refl. apply orb_true_r. }
  destruct tensors as [|t ts]; [done|]. cbn [ocheck obind length Nat.eqb negb].
  destruct (assign_loop_inv limits es ti kf sz sp Hsz Hl (t :: ts) 0 [] idx (mkB [] ∅ ∅))
    as (s & E & Hi); [by apply loop_inv_init|done|done|].
  rewrite E. cbn [obind].
  destruct (remaining_ok limits kf sz sp Hsz _ s iter Hi Hit) as [R1 R2].
  set (rem := filter _ _) in *.
  assert (Hp : concat (result s ++ rem) ≡ₚ idx).
  { rewrite concat_app, R2. apply (li_perm _ _ _ _ _ _ Hi). }
  assert (Hok : Forall (bucket_ok limits kf sz sp) (result s ++ rem)).
  { apply Forall_app. split; [apply Hi|done]. }
  eexists. split; [done|]. destruct ti as [|x ti]; [|by split_and!].
  split_and!.
  - by rewrite merge_sort_Permutation.
  - by rewrite merge_sort_Permutation.
  - intros _. apply Sorted_merge_sort. apply _.
Qed.

(** The order in which the hash map is iterated does not show in the result. *)
Lemma min_index_elem b : b <> [] -> min_index b ∈ b.
Proof.
  destruct b as [|x b]; [done|]. intros _. cbn. revert x. induction b as [|y b IH]; intros x; cbn; [apply list_elem_of_here|].
  destruct (Z.min_spec x y) as [[_ ->]|[_ ->]].
  - specialize (IH x). apply elem_of_cons in IH as [->|IH]; [apply list_elem_of_here|]. do 2 apply list_elem_of_further. done.
  - apply list_elem_of_further, IH.
Qed.
Lemma concat_disjoint {A} (bs : list (list A)) (b1 b2 : list A) x :
  NoDup (concat bs) -> b1 ∈ bs -> b2 ∈ bs -> x ∈ b1 -> x ∈ b2 -> b1 = b2.
Proof.
  induction bs as [|b bs IH]; intros Hnd H1 H2 Hx1 Hx2; [by apply elem_of_nil in H1|]. cbn in Hnd.
  apply NoDup_app in Hnd as (Hnb & Hdis & Hnd).
  assert (Hin : forall b', b' ∈ bs -> x ∈ b' -> x ∈ concat bs) by (intros b' Hb' Hx'; apply list_elem_of_In, in_concat; exists b'; by rewrite <- !list_elem_of_In).
  apply elem_of_cons in H1 as [->|H1]; apply elem_of_cons in H2 as [->|H2]; [done| | |by apply IH].
  - destruct (Hdis x Hx1). by apply (Hin b2).
  - destruct (Hdis x Hx2). by apply (Hin b1).
Qed.
Lemma bucket_iter_irrelevant limits es iter1 iter2 tensors bs1 bs2 :
  (forall l, iter1 l ≡ₚ l) -> (forall l, iter2 l ≡ₚ l) ->
  compute_bucket_assignment_by_size limits es [] iter1 tensors = Ret bs1 ->
  compute_bucket_assignment_by_size limits es [] iter2 tensors = Ret bs2 ->
  NoDup (concat bs1) -> Forall (fun b => b <> []) bs1 -> bs1 = bs2.
Proof.
  intros H1 H2. unfold compute_bucket_assignment_by_size, ocheck. destruct (_ || _); [|done]. destruct (negb _); [|done]. cbn [obind].
  destruct (assign_loop _ _ _ _ _ _) as [s| |]; [|done..]. cbn [obind]. intros [= <-] [= <-] Hnd Hne.
  set (l1 := result s ++ filter _ (map _ (iter1 _))) in *. set (l2 := result s ++ filter _ (map _ (iter2 _))).
  assert (Hp : l1 ≡ₚ l2) by (unfold l1, l2; by rewrite H1, H2).
  apply (StronglySorted_unique_strong bucket_le).
  - intros b1 b2 Hb1 Hb2 Hle1 Hle2. assert (Hb2' : b2 ∈ merge_sort bucket_le l1).
    { rewrite merge_sort_Permutation in Hb2 |- *. by rewrite Hp. }
    rewrite Forall_forall in Hne. apply (concat_disjoint _ b1 b2 (min_index b1) Hnd Hb1 Hb2').
    + by apply min_index_elem, Hne.
    + assert (min_index b1 = min_index b2) as -> by (unfold bucket_le in *; lia). by apply min_index_elem, Hne.
  - apply Sorted_StronglySorted; [apply _|]. apply Sorted_merge_sort. apply _.
  - apply Sorted_StronglySorted; [apply _|]. apply Sorted_merge_sort. apply _.
  - by rewrite !merge_sort_Permutation.
Qed.

(** C32: [compute_bucket_assignment_by_size] puts every tensor into exactly one
    bucket, whatever the iteration order of its hash map; a tensor that expects
    a sparse gradient is alone in its bucket, the tensors of any other bucket
    share data type and device, and each bucket was below a size limit before
    its last tensor; without [tensor_indices] the buckets come in the order of
    their smallest index. *)
Theorem bucket_assignment_partition (limits : list Z) (es : list bool) (ti : list Z)
    (iter : list (BucketKey * BucketAccumulator) -> list (BucketKey * BucketAccumulator))
    (tensors : list BTensor) (kf : Z -> BucketKey) (sz : Z -> Z) (sp : Z -> bool) (idx : list Z) :
  (forall l, iter l ≡ₚ l) -> limits <> [] -> tensors <> [] ->
  (es = [] \/ length tensors = length es) ->
  (forall x, 0 <= sz x) -> bytes_of sz idx < 2 ^ 64 ->
  describes es ti tensors kf sz sp idx ->
  exists bs, compute_bucket_assignment_by_size limits es ti iter tensors = Ret bs /\
    concat bs ≡ₚ idx /\ Forall (bucket_ok limits kf sz sp) bs /\
    (ti = [] -> Sorted bucket_le bs).
Proof. apply bucket_partition. Qed.

Definition ex_tensor (ty n : Z) : BTensor := mkBTensor false ty (0, 0) [n] 4.

Lemma bucket_assignment_partition_witness :
  exists bs, compute_bucket_assignment_by_size [16; 64] [] [] id
      [ex_tensor 1 2; ex_tensor 2 3; ex_tensor 1 5; ex_tensor 1 1] = Ret bs /\
    concat bs ≡ₚ [0; 1; 2; 3] /\
    Forall (bucket_ok [16; 64] (fun x => (if x =? 1 then 2 else 1, (0, 0)))
      (fun x => if x =? 0 then 8 else if x =? 1 then 12 else if x =? 2 then 20 else 4)
      (fun _ => false)) bs /\
    (([] : list Z) = [] -> Sorted bucket_le bs).
Proof.
  apply (bucket_assignment_partition [16; 64] [] [] id
    [ex_tensor 1 2; ex_tensor 2 3; ex_tensor 1 5; ex_tensor 1 1]).
  - intros l. reflexivity.
  - discriminate.
  - discriminate.
  - left. reflexivity.
  - intros x. destruct (x =? 0), (x =? 1), (x =? 2); lia.
  - reflexivity.
  - repeat constructor.
Defined.

(** After [sync_bucket_indices] every rank has rank 0's bucket assignment,
    whatever it had computed itself (it may even have another number of
    buckets), since all ranks assign the same number of parameters. *)
Theorem sync_bucket_indices_agree (b0 b : list (list Z)) :
  b <> [] -> length (concat b) = length (concat b0) ->
  Forall (fun x => 0 <= x < 2 ^ 31) (concat b0) ->
  Z.of_nat (length b0) < 2 ^ 31 -> Z.of_nat (length (concat b0)) < 2 ^ 31 ->
  sync_bucket_indices (fun _ => map int32 (concat b0 ++ [Z.of_nat (length b0)]))
    (fun _ => map (fun x => int32 (Z.of_nat (length x))) b0) b = Ret b0.
Proof.
  intros Hne Hlen H0 Hn Ht. unfold sync_bucket_indices.
  assert (Hflat : map int32 (concat b0 ++ [Z.of_nat (length b0)]) =
                  concat b0 ++ [Z.of_nat (length b0)]).
  { rewrite <- (map_id (concat b0 ++ _)) at 2. apply map_ext_in. intros x Hx.
    apply int32_id. apply in_app_or in Hx as [Hx|[<-|[]]]; unfold in_int32; [|lia].
    rewrite Forall_forall in H0. apply list_elem_of_In in Hx. pose proof (H0 x Hx). lia. }
  rewrite Hflat, Hlen, lookup_app_r, Nat.sub_diag by lia. cbn [lookup list_lookup default].
  destruct b as [|b1 b]; [done|]. cbn [map length Nat.eqb negb orb ocheck obind]. f_equal.
  assert (Hs : forall x, x ∈ b0 -> int32 (Z.of_nat (length x)) = Z.of_nat (length x)).
  { intros x Hx. apply int32_id. unfold in_int32. pose proof (elem_length_concat b0 x Hx). lia. }
  clear Hflat Hlen Hn Ht. revert Hs H0. generalize (Z.of_nat (length b0)) as tail. clear Hne.
  intros tail. induction b0 as [|x b0 IH]; intros Hs H0; [done|]. cbn [map split_sizes concat].
  rewrite (Hs x), Nat2Z.id by apply list_elem_of_here. cbn [map].
  rewrite <- app_assoc, take_app_length, drop_app_length.
  apply Forall_app in H0 as [Hx H0]. f_equal; [|apply IH; [|done]].
  - rewrite <- (map_id x) at 2. apply map_ext_in. intros y Hy. apply uint64_id.
    rewrite Forall_forall in Hx. apply list_elem_of_In in Hy. pose proof (Hx y Hy).
    unfold in_uint64. lia.
  - intros y Hy. by apply Hs, list_elem_of_further.
Qed.

Lemma sync_bucket_indices_agree_witness :
  sync_bucket_indices (fun _ => map int32 (concat [[2; 0]; [1]] ++ [2]))
    (fun _ => map (fun x => int32 (Z.of_nat (length x))) [[2; 0]; [1]]) [[0; 1; 2]] =
  Ret [[2; 0]; [1]].
Proof.
  apply (sync_bucket_indices_agree [[2; 0]; [1]] [[0; 1; 2]]).
  - discriminate.
  - reflexivity.
  - repeat constructor; lia.
  - reflexivity.
  - reflexivity.
Defined.
