(* ===== verification/Comm.v ===== *)
(** * Coalesced broadcast

    Models broadcast_coalesced of csrc/c10d/distributed/c10d/comm.cpp: the
    tensors are broadcast in flattened buckets, with at most two broadcasts
    under way. *)

From stdpp Require Import base option list sorting strings.
From Stdlib Require Import ZArith Lia.
From S2P Require Import Prelude Bucketing.

Section comm.
(** The values of a tensor; flattening and unflattening are torch's. *)
Context {D : Type}.
Variable flatten_dense_tensors : list D -> D.
Variable unflatten_dense_tensors : D -> list D -> list D.

(** A BroadcastWork: the indices of [bucket_tensors_], and the position of its
    broadcast among those of the process group. *)
Record BroadcastWork := mkBroadcastWork { bucket_tensors_ : list Z; work_ : nat }.

(** One rank: its tensors, the flat tensors it gave to ProcessGroup::broadcast,
    and the deque of works. *)
Record rank_state := mkRank {
  tensors : list D;
  issued : list D;
  in_flight : list BroadcastWork;
}.

(** [answers]: what each broadcast leaves in the flat tensor of this rank, or
    the exception that its wait throws. *)
Variable answers : list (outcome D).

Definition lookup_tensor (index : Z) (s : rank_state) : outcome D :=
  match tensors s !! Z.to_nat index with
  | Some t => Ret t
  | None => Throw (Undefined "tensors[index]")
  end.
Fixpoint lookup_all (bucket : list Z) (s : rank_state) : outcome (list D) :=
  match bucket with
  | [] => Ret []
  | i :: bucket => let? t := lookup_tensor i s in let? ts := lookup_all bucket s in Ret (t :: ts)
  end.

(** The constructor, which starts the broadcast. *)
Definition BroadcastWork_construct (bucket : list Z) (s : rank_state) : outcome (BroadcastWork * rank_state) :=
  let? bucket_tensors := lookup_all bucket s in
  let flat_tensor := flatten_dense_tensors bucket_tensors in
  Ret (mkBroadcastWork bucket (length (issued s)), mkRank (tensors s) (issued s ++ [flat_tensor]) (in_flight s)).

(** [copy_] of the output tensors. *)
Fixpoint copy_back (bucket : list Z) (output_tensors : list D) (ts : list D) : list D :=
  match bucket, output_tensors with
  | i :: bucket, o :: output_tensors => copy_back bucket output_tensors (<[Z.to_nat i := o]> ts)
  | _, _ => ts
  end.
Definition finish (w : BroadcastWork) (s : rank_state) : outcome rank_state :=
  match answers !! work_ w with
  | None => Block
  | Some answer =>
      let? flat_tensor := answer in
      let? bucket_tensors := lookup_all (bucket_tensors_ w) s in
      let output_tensors := unflatten_dense_tensors flat_tensor bucket_tensors in
      check! Nat.eqb (length output_tensors) (length bucket_tensors) else AssertFailed "" in
      Ret (mkRank (copy_back (bucket_tensors_ w) output_tensors (tensors s)) (issued s) (in_flight s))
  end.

Definition max_in_flight : nat := 2.

(** [in_flight.front().finish(); in_flight.pop_front()]. *)
Definition finish_front (s : rank_state) : outcome rank_state :=
  match in_flight s with
  | [] => Throw (Undefined "in_flight.front()")
  | w :: _ =>
      let? s := finish w s in
      Ret (mkRank (tensors s) (issued s) (tail (in_flight s)))
  end.
Definition start_bucket (bucket : list Z) (s : rank_state) : outcome rank_state :=
  let? s := if (max_in_flight <=? length (in_flight s))%nat then finish_front s else Ret s in
  let? ws := BroadcastWork_construct bucket s in
  Ret (mkRank (tensors ws.2) (issued ws.2) (in_flight ws.2 ++ [ws.1])).
Fixpoint start_all (buckets : list (list Z)) (s : rank_state) : outcome rank_state :=
  match buckets with
  | [] => Ret s
  | b :: buckets => let? s := start_bucket b s in start_all buckets s
  end.
Fixpoint drain (fuel : nat) (s : rank_state) : outcome rank_state :=
  match in_flight s, fuel with
  | [], _ => Ret s
  | _ :: _, O => Block
  | _ :: _, S fuel => let? s := finish_front s in drain fuel s
  end.

(** [metas]: type, device and size of the tensors. *)
Definition broadcast_coalesced
    (iter : list (BucketKey * BucketAccumulator) -> list (BucketKey * BucketAccumulator))
    (metas : list BTensor) (ts : list D) (buffer_size : Z) : outcome rank_state :=
  let? buckets := compute_bucket_assignment_by_size [buffer_size] [] [] iter metas in
  let? s := start_all buckets (mkRank ts [] []) in
  drain (length (in_flight s)) s.

(** ** Every rank ends up with the tensors of the root *)

#[local] Set Default Proof Using "Type".
#[local] Set Proof Using Clear Unused.

(** Values that have the shape of a tensor. *)
Variable fits : BTensor -> D -> Prop.
Hypothesis unflatten_flatten : forall (ms : list BTensor) (ds ds' : list D),
  Forall2 fits ms ds -> Forall2 fits ms ds' -> unflatten_dense_tensors (flatten_dense_tensors ds) ds' = ds.

Context (metas : list BTensor) (own root : list D).
Hypothesis own_fits : Forall2 fits metas own.
Hypothesis root_fits : Forall2 fits metas root.
Context (bs : list (list Z)).
Hypothesis bs_perm : concat bs ≡ₚ map Z.of_nat (seq 0 (length metas)).

Definition pick (ts : list D) (bucket : list Z) : list D := omap (fun i => ts !! Z.to_nat i) bucket.

(** [f] works are finished, [j] have been started. *)
Definition mixed (f : nat) : list D :=
  imap (fun i x => if bool_decide (Z.of_nat i ∈ concat (take f bs)) then default x (root !! i) else x) own.
Definition works (f j : nat) : list BroadcastWork :=
  map (fun k => mkBroadcastWork (nth k bs []) k) (seq f (j - f)).
Definition at_point (f j : nat) (s : rank_state) : Prop :=
  tensors s = mixed f /\ issued s = map (fun b => flatten_dense_tensors (pick own b)) (take j bs) /\ in_flight s = works f j.

Lemma in_range k b i : bs !! k = Some b -> i ∈ b -> 0 <= i < Z.of_nat (length metas).
Proof using bs_perm.
  intros Hb Hi. assert (H : i ∈ concat bs).
  { apply list_elem_of_In, in_concat. exists b. rewrite <- !list_elem_of_In. split; [by eapply list_elem_of_lookup_2|done]. }
  rewrite bs_perm in H. apply list_elem_of_fmap in H as (n & -> & Hn%elem_of_seq). lia.
Qed.
Lemma nodup_concat : NoDup (concat bs).
Proof using bs_perm. rewrite bs_perm. apply NoDup_fmap_2; [apply _|]. apply NoDup_ListNoDup, seq_NoDup. Qed.

Lemma concat_take_S k b i : bs !! k = Some b -> (i ∈ concat (take (S k) bs) <-> i ∈ concat (take k bs) \/ i ∈ b).
Proof.
  intros Hb. rewrite (take_S_r _ _ _ Hb), concat_app. cbn. rewrite app_nil_r. apply elem_of_app.
Qed.
Lemma not_before f k b i : (f <= k)%nat -> bs !! k = Some b -> i ∈ b -> i ∉ concat (take f bs).
Proof using bs_perm.
  intros Hle Hb Hi Hin. pose proof nodup_concat as Hnd.
  rewrite <- (take_drop k bs), concat_app in Hnd. apply NoDup_app in Hnd as (_ & Hdis & _).
  apply (Hdis i).
  - rewrite <- (take_drop f (take k bs)), concat_app, take_take, Nat.min_l by done. apply elem_of_app. by left.
  - rewrite (drop_S _ _ _ Hb). cbn. apply elem_of_app. by left.
Qed.

Lemma lengths : length own = length metas /\ length root = length metas.
Proof using own_fits root_fits. split; symmetry; by eapply Forall2_length. Qed.

Lemma mixed_lookup f i : (i < length metas)%nat ->
  mixed f !! i = (if bool_decide (Z.of_nat i ∈ concat (take f bs)) then root !! i else own !! i).
Proof using own_fits root_fits.
  intros Hi. destruct lengths as [Hlo Hlr]. unfold mixed. rewrite list_lookup_imap.
  destruct (lookup_lt_is_Some_2 own i) as [x Hx]; [lia|]. destruct (lookup_lt_is_Some_2 root i) as [y Hy]; [lia|].
  rewrite Hx, Hy. cbn. by case_bool_decide.
Qed.

Lemma lookup_all_pick ts bucket s : tensors s = ts -> Forall (fun i => (Z.to_nat i < length ts)%nat) bucket ->
  lookup_all bucket s = Ret (pick ts bucket).
Proof.
  intros Et. induction 1 as [|i b Hi Hb IH]; [done|]. cbn [lookup_all pick omap]. unfold lookup_tensor. rewrite Et.
  destruct (lookup_lt_is_Some_2 ts (Z.to_nat i) Hi) as [t Ht]. rewrite Ht. cbn [obind]. rewrite IH. cbn [obind]. by simpl; rewrite Ht.
Qed.
Lemma pick_fits ts bucket : Forall2 fits metas ts -> Forall (fun i => (Z.to_nat i < length metas)%nat) bucket ->
  Forall2 fits (omap (fun i => metas !! Z.to_nat i) bucket) (pick ts bucket).
Proof.
  intros Hf. induction 1 as [|i b Hi Hb IH]; [constructor|]. cbn.
  destruct (lookup_lt_is_Some_2 metas (Z.to_nat i) Hi) as [m Hm]. destruct (Forall2_lookup_l _ _ _ _ _ Hf Hm) as (t & Ht & Hft).
  rewrite Hm, Ht. by constructor.
Qed.

Lemma bucket_bound k b n : bs !! k = Some b -> length metas = n -> Forall (fun i => (Z.to_nat i < n)%nat) b.
Proof using bs_perm. intros Hb <-. apply Forall_forall. intros i Hi. pose proof (in_range k b i Hb Hi). lia. Qed.

Lemma mixed_length f : length (mixed f) = length metas.
Proof using own_fits root_fits. unfold mixed. rewrite length_imap. apply lengths. Qed.

Lemma mixed_fits f : Forall2 fits metas (mixed f).
Proof using own_fits root_fits.
  apply Forall2_same_length_lookup. split; [by rewrite mixed_length|]. intros i m x Hm Hx.
  rewrite mixed_lookup in Hx by (by eapply lookup_lt_Some). case_bool_decide.
  - destruct (Forall2_lookup_l _ _ _ _ _ root_fits Hm) as (y & Hy & Hf). by simplify_eq.
  - destruct (Forall2_lookup_l _ _ _ _ _ own_fits Hm) as (y & Hy & Hf). by simplify_eq.
Qed.

(** A bucket that is not finished still has the values of this rank. *)
Lemma pick_mixed f k b : (f <= k)%nat -> bs !! k = Some b -> pick (mixed f) b = pick own b.
Proof using own_fits root_fits bs_perm.
  intros Hle Hb. unfold pick. assert (H : forall i, i ∈ b -> mixed f !! Z.to_nat i = own !! Z.to_nat i).
  { intros i Hi. pose proof (in_range k b i Hb Hi). rewrite mixed_lookup by lia.
    rewrite Z2Nat.id by lia. rewrite bool_decide_false; [done|]. by apply (not_before f k b). }
  clear Hb Hle. induction b as [|i b IH]; [done|]. cbn. rewrite (H i) by apply list_elem_of_here.
  rewrite IH; [done|]. intros j Hj. apply H. by apply list_elem_of_further.
Qed.

Lemma copy_back_lookup b : forall outs ts i, NoDup b -> Forall (fun i => 0 <= i) b -> length outs = length b ->
  copy_back b outs ts !! i =
    match list_find (fun x => x = Z.of_nat i) b with
    | Some (k, _) => if bool_decide (i < length ts)%nat then outs !! k else None
    | None => ts !! i
    end.
Proof.
  induction b as [|x b IH]; intros outs ts i Hnd Hpos Hlen; [done|]. apply NoDup_cons in Hnd as [Hx Hnd].
  apply Forall_cons in Hpos as [Hp Hpos]. destruct outs as [|o outs]; [done|]. cbn [copy_back list_find].
  rewrite (IH outs _ i Hnd Hpos) by (cbn in Hlen; lia). rewrite length_insert. case_decide as E.
  - subst x. destruct (list_find _ b) as [[k y]|] eqn:Ef.
    + apply list_find_Some in Ef as (Hk & -> & _). destruct Hx. by eapply list_elem_of_lookup_2.
    + rewrite Nat2Z.id. case_bool_decide as Hl; [by rewrite list_lookup_insert_eq|].
      rewrite lookup_ge_None_2; [done|]. rewrite length_insert. lia.
  - destruct (list_find _ b) as [[k y]|]; [done|]. rewrite list_lookup_insert_ne; [done|]. lia.
Qed.

Lemma pick_lookup ts b k : Forall (fun i => (Z.to_nat i < length ts)%nat) b ->
  length (pick ts b) = length b /\ pick ts b !! k = (b !! k) ≫= (fun i => ts !! Z.to_nat i).
Proof.
  intros Hb. revert k. induction Hb as [|i b Hi Hb IH]; intros k; [done|]. cbn [pick omap list_omap].
  destruct (lookup_lt_is_Some_2 ts (Z.to_nat i) Hi) as [t Ht]. unfold pick. cbn. rewrite Ht. cbn. split.
  - f_equal. apply (IH 0%nat).
  - destruct k as [|k]; cbn; [by rewrite Ht|]. apply IH.
Qed.

Lemma copy_back_mixed f b : bs !! f = Some b -> copy_back b (pick root b) (mixed f) = mixed (S f).
Proof using own_fits root_fits bs_perm.
  intros Hb. destruct lengths as [_ Hlr].
  destruct (pick_lookup root b 0 (bucket_bound f b _ Hb (eq_sym Hlr))) as [Hlen _].
  assert (Hnd : NoDup b).
  { pose proof nodup_concat as Hnd. rewrite <- (take_drop_middle _ _ _ Hb), concat_app in Hnd. cbn in Hnd.
    by apply NoDup_app in Hnd as (_ & _ & [Hnd _]%NoDup_app). }
  apply list_eq. intros i. rewrite copy_back_lookup; [|done| |done].
  2:{ apply Forall_forall. intros x Hx. by destruct (in_range f b x Hb Hx). }
  rewrite mixed_length. destruct (decide (i < length metas)%nat) as [Hi|Hi].
  - rewrite !mixed_lookup by done. destruct (list_find _ b) as [[k y]|] eqn:Ef.
    + apply list_find_Some in Ef as (Hk & -> & _). rewrite (bool_decide_true (i < length metas)%nat) by done.
      rewrite bool_decide_true by (apply (concat_take_S f b _ Hb); right; by eapply list_elem_of_lookup_2).
      rewrite (proj2 (pick_lookup root b k (bucket_bound f b _ Hb (eq_sym Hlr)))), Hk. cbn. by rewrite Nat2Z.id.
    + apply list_find_None in Ef. rewrite Forall_forall in Ef.
      assert (Hiff : Z.of_nat i ∈ concat (take (S f) bs) <-> Z.of_nat i ∈ concat (take f bs)).
      { rewrite (concat_take_S f b _ Hb). split; [|by left]. intros [?|Hin]; [done|]. by destruct (Ef _ Hin). }
      by rewrite (bool_decide_ext _ _ Hiff).
  - rewrite lookup_ge_None_2 with (l := mixed (S f)) by (rewrite mixed_length; lia).
    destruct (list_find _ b) as [[k y]|]; [by rewrite bool_decide_false|]. apply lookup_ge_None_2. rewrite mixed_length. lia.
Qed.

Hypothesis answers_root : answers = map (fun b => Ret (flatten_dense_tensors (pick root b))) bs.

Lemma works_S f j : (f < j)%nat -> works f j = mkBroadcastWork (nth f bs []) f :: works (S f) j.
Proof. intros H. unfold works. replace (j - f)%nat with (S (j - S f)) by lia. done. Qed.
Lemma works_snoc f j : (f <= j)%nat -> works f (S j) = works f j ++ [mkBroadcastWork (nth j bs []) j].
Proof.
  intros H. unfold works. replace (S j - f)%nat with ((j - f) + 1)%nat by lia. rewrite seq_app, map_app. cbn.
  by replace (f + (j - f))%nat with j by lia.
Qed.

Lemma finish_front_ok f j s : (f < j <= length bs)%nat -> at_point f j s ->
  exists s', finish_front s = Ret s' /\ at_point (S f) j s'.
Proof using unflatten_flatten own_fits root_fits bs_perm answers_root.
  intros Hf (E1 & E2 & E3). destruct (lookup_lt_is_Some_2 bs f) as [b Hb]; [lia|].
  destruct lengths as [Hlo Hlr].
  unfold finish_front, finish. rewrite E3, works_S by lia. cbn [work_ bucket_tensors_].
  rewrite answers_root, list_lookup_fmap, Hb. cbn [fmap option_fmap option_map obind].
  assert (Hn : nth f bs [] = b) by (by rewrite nth_lookup, Hb). rewrite Hn.
  rewrite (lookup_all_pick (mixed f) b s E1) by (apply (bucket_bound f); [done|by rewrite mixed_length]). cbn [obind].
  pose proof (bucket_bound f b _ Hb eq_refl) as Hbb.
  rewrite (unflatten_flatten _ (pick root b) (pick (mixed f) b) (pick_fits root b root_fits Hbb) (pick_fits (mixed f) b (mixed_fits f) Hbb)).
  rewrite <- (Forall2_length _ _ _ (pick_fits root b root_fits Hbb)), <- (Forall2_length _ _ _ (pick_fits (mixed f) b (mixed_fits f) Hbb)), Nat.eqb_refl.
  cbn [ocheck obind]. eexists. split; [reflexivity|]. unfold at_point. cbn [tensors issued in_flight].
  rewrite E1, (copy_back_mixed f b Hb). by split_and!.
Qed.

Lemma start_ok f j b s : (f <= j <= f + max_in_flight)%nat -> bs !! j = Some b -> at_point f j s ->
  exists f' s', start_bucket b s = Ret s' /\ at_point f' (S j) s' /\ (f' <= S j <= f' + max_in_flight)%nat.
Proof using unflatten_flatten own_fits root_fits bs_perm answers_root.
  intros Hf Hb Hs. pose proof (lookup_lt_Some _ _ _ Hb) as Hlt. unfold start_bucket.
  assert (Hpre : exists f' s', (if (max_in_flight <=? length (in_flight s))%nat then finish_front s else Ret s) = Ret s' /\
    at_point f' j s' /\ (f' <= j)%nat /\ (S j <= f' + max_in_flight)%nat).
  { assert (Hl : length (in_flight s) = (j - f)%nat).
    { destruct Hs as (_ & _ & ->). unfold works. by rewrite length_map, length_seq. }
    destruct (Nat.leb_spec max_in_flight (length (in_flight s))).
    - destruct (finish_front_ok f j s) as (s' & E & Hs'); [unfold max_in_flight in *; lia|done|].
      exists (S f), s'. split_and!; try done; unfold max_in_flight in *; lia.
    - exists f, s. split_and!; try done; unfold max_in_flight in *; lia. }
  destruct Hpre as (f' & s' & -> & (E1 & E2 & E3) & Hle & Hle'). cbn [obind]. unfold BroadcastWork_construct.
  rewrite (lookup_all_pick (mixed f') b s' E1) by (apply (bucket_bound j); [done|by rewrite mixed_length]). cbn [obind fst snd].
  eexists f', _. split; [reflexivity|]. split; [|unfold max_in_flight in *; lia]. unfold at_point. cbn [tensors issued in_flight].
  rewrite E1, E2, E3, works_snoc, (take_S_r _ _ _ Hb), map_app, (pick_mixed f' j b Hle Hb) by lia. split; [done|]. split; [done|].
  by rewrite nth_lookup, Hb, length_map, length_take_le by lia.
Qed.

Lemma start_all_ok l : forall f j s, drop j bs = l -> (f <= j <= f + max_in_flight)%nat -> (j <= length bs)%nat -> at_point f j s ->
  exists f' s', start_all l s = Ret s' /\ at_point f' (length bs) s' /\ (f' <= length bs <= f' + max_in_flight)%nat.
Proof using unflatten_flatten own_fits root_fits bs_perm answers_root.
  induction l as [|b l IH]; intros f j s Hd Hf Hj Hs; cbn [start_all].
  - assert (j = length bs) as -> by (apply (f_equal length) in Hd; rewrite length_drop in Hd; cbn in Hd; lia). by exists f, s.
  - assert (Hb : bs !! j = Some b) by (rewrite <- (Nat.add_0_r j), <- lookup_drop, Hd; done).
    destruct (start_ok f j b s Hf Hb Hs) as (f' & s' & -> & Hs' & Hf'). cbn [obind].
    apply (IH f' (S j)); try done; [pose proof (drop_S _ _ _ Hb); congruence|].
    apply lookup_lt_Some in Hb. lia.
Qed.

Lemma drain_ok d : forall f s, (length bs - f)%nat = d -> (f <= length bs)%nat -> at_point f (length bs) s ->
  exists s', drain d s = Ret s' /\ at_point (length bs) (length bs) s'.
Proof using unflatten_flatten own_fits root_fits bs_perm answers_root.
  induction d as [|d IH]; intros f s Hd Hf Hs.
  - assert (f = length bs) as -> by lia. exists s. split; [|done]. destruct Hs as (_ & _ & E). unfold drain. rewrite E. unfold works.
    by rewrite Nat.sub_diag.
  - destruct (finish_front_ok f (length bs) s) as (s' & E & Hs'); [lia|done|]. cbn [drain].
    assert (Hne : in_flight s <> []) by (destruct Hs as (_ & _ & ->); by rewrite works_S by lia).
    destruct (in_flight s) as [|w ws]; [done|]. rewrite E. cbn [obind]. apply (IH (S f)); [lia|lia|done].
Qed.

Lemma mixed_all : mixed (length bs) = root.
Proof using own_fits root_fits bs_perm.
  destruct lengths as [_ Hlr]. apply list_eq. intros i. destruct (decide (i < length metas)%nat) as [Hi|Hi].
  - rewrite mixed_lookup by done. rewrite bool_decide_true; [done|]. rewrite take_ge by done. rewrite bs_perm.
    apply list_elem_of_fmap_2, elem_of_seq. lia.
  - rewrite !lookup_ge_None_2; [done|lia|rewrite mixed_length; lia].
Qed.
Lemma mixed_none : mixed 0 = own.
Proof.
  apply list_eq. intros i. unfold mixed. rewrite list_lookup_imap. destruct (own !! i); [|done]. cbn.
  by rewrite bool_decide_false by apply not_elem_of_nil.
Qed.
End comm.

(** The tensors of a call without sparse ones, by index. *)
Definition key_at (metas : list BTensor) (i : Z) : BucketKey :=
  match metas !! Z.to_nat i with Some m => bucket_key m | None => (0, (0, 0)) end.
Definition bytes_at (metas : list BTensor) (i : Z) : Z :=
  match metas !! Z.to_nat i with Some m => tensor_bytes m | None => 0 end.

Lemma describes_dense metas : Forall (fun m => is_sparse m = false) metas ->
  describes [] [] metas (key_at metas) (bytes_at metas) (fun _ => false) (map Z.of_nat (seq 0 (length metas))).
Proof.
  intros Hd. unfold describes. apply Forall2_same_length_lookup. split.
  - by rewrite length_zip, length_map, !length_seq, Nat.min_id.
  - intros i [n m] ix Hz Hix. apply lookup_zip_Some in Hz as [Hn Hm]. rewrite list_lookup_fmap, Hn in Hix. injection Hix as <-.
    apply lookup_seq in Hn as [-> _]. cbn in *. unfold key_at, bytes_at. rewrite Nat2Z.id, Hm.
    split_and!; try done. rewrite Forall_forall in Hd. apply Hd. by eapply list_elem_of_lookup_2.
Qed.

(** C38: broadcast_coalesced is a broadcast of every tensor: for any tensors
    without sparse ones, any buffer size and any order in which the ranks iterate
    over their hash maps, the root and another rank form the same buckets and
    start the same number of broadcasts; when the k-th broadcast leaves the
    root's k-th flat tensor on both, both end with exactly the root's tensors,
    and nothing is left under way. *)
Theorem broadcast_coalesced_ok {D : Type} (flatten : list D -> D) (unflatten : D -> list D -> list D) (fits : BTensor -> D -> Prop)
    (iter_root iter_own : list (BucketKey * BucketAccumulator) -> list (BucketKey * BucketAccumulator))
    (metas : list BTensor) (root own : list D) (buffer_size : Z) :
  (forall ms ds ds', Forall2 fits ms ds -> Forall2 fits ms ds' -> unflatten (flatten ds) ds' = ds) ->
  (forall l, iter_root l ≡ₚ l) -> (forall l, iter_own l ≡ₚ l) ->
  metas <> [] -> Forall (fun m => is_sparse m = false) metas ->
  bytes_of (bytes_at metas) (map Z.of_nat (seq 0 (length metas))) < 2 ^ 64 ->
  Forall2 fits metas root -> Forall2 fits metas own ->
  exists flats issued_own,
    broadcast_coalesced flatten unflatten (map Ret flats) iter_root metas root buffer_size = Ret (mkRank root flats []) /\
    broadcast_coalesced flatten unflatten (map Ret flats) iter_own metas own buffer_size = Ret (mkRank root issued_own []) /\
    length issued_own = length flats.
Proof.
  intros Hun Hir Hio Hne Hd Hb Hfr Hfo.
  assert (Hpart : forall iter, (forall l, iter l ≡ₚ l) -> exists bs, compute_bucket_assignment_by_size [buffer_size] [] [] iter metas = Ret bs /\
    concat bs ≡ₚ map Z.of_nat (seq 0 (length metas)) /\ Forall (bucket_ok [buffer_size] (key_at metas) (bytes_at metas) (fun _ => false)) bs).
  { intros iter Hi. destruct (bucket_partition [buffer_size] [] [] iter metas (key_at metas) (bytes_at metas) (fun _ => false)
      (map Z.of_nat (seq 0 (length metas)))) as (bs & E & Hp & Hok & _); try done; [by left| |by apply describes_dense|by exists bs].
    intros x. unfold bytes_at. destruct (metas !! Z.to_nat x); [|done]. apply Z.mod_pos_bound. lia. }
  destruct (Hpart iter_root Hir) as (bs & Er & Hp & Hok), (Hpart iter_own Hio) as (bs' & Eo & _ & _).
  assert (Hnd : NoDup (concat bs)) by (rewrite Hp; apply NoDup_fmap_2; [apply _|]; apply NoDup_ListNoDup, seq_NoDup).
  assert (bs = bs') as <-.
  { apply (bucket_iter_irrelevant _ _ _ _ _ _ _ Hir Hio Er Eo Hnd). eapply Forall_impl; [exact Hok|]. intros b [(x & -> & _)|(k & l & x & lim & -> & _)]; [done|].
    by destruct l. }
  set (flats := map (fun b => flatten (pick root b)) bs).
  assert (Hrun : forall own0 iter, Forall2 fits metas own0 -> compute_bucket_assignment_by_size [buffer_size] [] [] iter metas = Ret bs ->
    broadcast_coalesced flatten unflatten (map Ret flats) iter metas own0 buffer_size = Ret (mkRank root (map (fun b => flatten (pick own0 b)) bs) [])).
  { intros own0 iter Hf0 E. unfold broadcast_coalesced. rewrite E. cbn [obind].
    assert (Ha : map Ret flats = map (fun b => Ret (flatten (pick root b))) bs) by (unfold flats; by rewrite map_map).
    destruct (start_all_ok flatten unflatten (map Ret flats) fits Hun metas own0 root Hf0 Hfr bs Hp Ha bs 0 0 (mkRank own0 [] []))
      as (f & s & -> & Hs & Hle); [done|unfold max_in_flight; lia|lia|by split_and!; [rewrite mixed_none| |]|].
    cbn [obind]. assert (Hl : length (in_flight s) = (length bs - f)%nat).
    { destruct Hs as (_ & _ & ->). unfold works. by rewrite length_map, length_seq. }
    rewrite Hl. destruct (drain_ok flatten unflatten (map Ret flats) fits Hun metas own0 root Hf0 Hfr bs Hp Ha (length bs - f) f s eq_refl)
      as (s' & -> & E1 & E2 & E3); [lia|done|]. destruct s'. cbn in *. subst. f_equal. f_equal.
    - by apply (mixed_all fits metas).
    - by rewrite take_ge.
    - unfold works. by rewrite Nat.sub_diag. }
  exists flats, (map (fun b => flatten (pick own b)) bs). split_and!; [by apply Hrun|by apply Hrun|]. unfold flats. by rewrite !length_map.
Qed.

Definition ex_unflatten (flat : list Z) (ds : list (list Z)) : list (list Z) :=
  fst (foldl (fun '(out, rest) d => (out ++ [take (length d) rest], drop (length d) rest)) ([], flat) ds).
Lemma ex_unflatten_concat ds ds' : Forall2 (fun d d' : list Z => length d = length d') ds ds' ->
  ex_unflatten (concat ds) ds' = ds.
Proof.
  intros Hf. unfold ex_unflatten.
  assert (H : forall out, foldl (fun '(out, rest) d => (out ++ [take (length d) rest], drop (length d) rest)) (out, concat ds) ds' = (out ++ ds, [])).
  { induction Hf as [|d d' ds ds' Hd Hf IH]; intros out; cbn; [by rewrite app_nil_r|].
    rewrite <- Hd, take_app_length, drop_app_length, IH. by rewrite <- app_assoc. }
  by rewrite H.
Qed.
Definition ex_fits (m : BTensor) (d : list Z) : Prop := Z.of_nat (length d) = physical_numel m.

Lemma broadcast_coalesced_ok_witness : exists flats issued_own,
  broadcast_coalesced (@concat Z) ex_unflatten (map Ret flats) id [ex_tensor 1 2; ex_tensor 2 1; ex_tensor 1 3] [[1; 2]; [3]; [4; 5; 6]] 8 =
    Ret (mkRank [[1; 2]; [3]; [4; 5; 6]] flats []) /\
  broadcast_coalesced (@concat Z) ex_unflatten (map Ret flats) (@rev _) [ex_tensor 1 2; ex_tensor 2 1; ex_tensor 1 3] [[0; 0]; [0]; [0; 0; 0]] 8 =
    Ret (mkRank [[1; 2]; [3]; [4; 5; 6]] issued_own []) /\ length issued_own = length flats.
Proof.
  apply (broadcast_coalesced_ok (@concat Z) ex_unflatten ex_fits id (@rev _)).
  - intros ms ds ds' H1 H2. apply ex_unflatten_concat. apply Forall2_same_length_lookup.
    split; [rewrite <- (Forall2_length _ _ _ H1); apply (Forall2_length _ _ _ H2)|].
    intros i d d' Hd Hd'. destruct (Forall2_lookup_r _ _ _ _ _ H1 Hd) as (m & Hm & E1).
    destruct (Forall2_lookup_l _ _ _ _ _ H2 Hm) as (d'' & Hd'' & E2). unfold ex_fits in *. assert (d'' = d') as -> by congruence. lia.
  - reflexivity.
  - intros l. symmetry. apply Permutation_rev.
  - discriminate.
  - repeat constructor.
  - reflexivity.
  - repeat constructor.
  - repeat constructor.
Defined.
