(* ===== verification/Frontend.v ===== *)
(** * The TorchScript front end of c10d

    Models lib/c10d/frontend.cpp and frontend.hpp: the object DistributedC10d
    with its registries of process groups, names and ranks, the creation of
    groups, and the collective and point-to-point functions.

    The process groups are an instance of [ProcessGroups]; the constructors of
    the back ends, their compile-time switches and the environment are an
    instance of [Backends]. *)

From stdpp Require Import base option list gmap strings.
From Stdlib Require Import ZArith Lia.
From S2P Require Import Prelude Decimal ProcessGroup.

(** A [c10::intrusive_ptr<ProcessGroup>]. *)
Abbreviation group_ptr := (option nat).

Record GlooOptions := mkGlooOptions { gl_devices : list nat; gl_timeout : Z; gl_threads : Z }.
Record NCCLOptions := mkNCCLOptions { isHighPriorityStream : bool; opTimeout : Z }.

Class Backends (W S : Type) := {
  USE_C10D_GLOO : bool;
  USE_C10D_NCCL : bool;
  USE_C10D_MPI : bool;
  getenv_GLOO_SOCKET_IFNAME : option bytes;
  createDeviceForInterface : bytes -> M W nat;
  createDefaultDevice : M W nat;
  make_ProcessGroupGloo : bytes * S -> Z -> Z -> GlooOptions -> M W nat;
  make_ProcessGroupNCCL : bytes * S -> Z -> Z -> NCCLOptions -> M W nat;
  createProcessGroupMPI : list Z -> M W group_ptr;
}.

(** std::getline drops an empty last piece. *)
Fixpoint getlines (separator : byte) (item string : bytes) : list bytes :=
  match string with
  | [] => match item with [] => [] | _ => [item] end
  | c :: string =>
      if bool_decide (c = separator) then item :: getlines separator [] string
      else getlines separator (item ++ [c]) string
  end.
Definition split (separator : byte) (string : bytes) : list bytes := getlines separator [] string.

Definition Backend_get (backend_type : bytes) : bytes := backend_type.
Definition registerBackend : outcome unit :=
  Throw (CheckFailed "Registering third-party backend is currently not supported by TorchScript-friendly c10d").

Section frontend.
Context {T W S : Type} `{PGs : ProcessGroups T W} `{Backs : Backends W S}.
(** at::Tensor::is_complex and at::view_as_real. *)
Variable is_complex : T -> bool.
Variable view_as_real : T -> T.

Definition preprocess_tensor (tensor : T) : T := if negb (is_complex tensor) then tensor else view_as_real tensor.
Definition preprocess_list (tensors : list T) : list T := map preprocess_tensor tensors.
Definition preprocess_lists (tensors_lists : list (list T)) : list (list T) := map preprocess_list tensors_lists.

Definition assertReduceOpSupportsComplexTensor (op : ReduceOp) : outcome unit :=
  match op with
  | MAX | MIN | PRODUCT => Throw (CheckFailed "all_reduce does not support requested Reduce op on complex tensors")
  | _ => Ret tt
  end.

(** ** The object *)

Record DistributedC10d := mkC10d {
  pg_map_ : gmap group_ptr (bytes * S);
  pg_names_ : gmap group_ptr bytes;
  pg_group_ranks_ : gmap group_ptr (gmap Z Z);
  default_pg_ : group_ptr;
  group_count_ : Z;
}.
(** [new DistributedC10d()] zero-initializes. *)
Definition initial : DistributedC10d := mkC10d ∅ ∅ ∅ None 0.
Definition upd_count (f : Z -> Z) (d : DistributedC10d) : DistributedC10d :=
  mkC10d (pg_map_ d) (pg_names_ d) (pg_group_ranks_ d) (default_pg_ d) (f (group_count_ d)).
Definition upd_names (f : gmap group_ptr bytes -> gmap group_ptr bytes) (d : DistributedC10d) : DistributedC10d :=
  mkC10d (pg_map_ d) (f (pg_names_ d)) (pg_group_ranks_ d) (default_pg_ d) (group_count_ d).
Definition upd_map (f : gmap group_ptr (bytes * S) -> gmap group_ptr (bytes * S)) (d : DistributedC10d) : DistributedC10d :=
  mkC10d (f (pg_map_ d)) (pg_names_ d) (pg_group_ranks_ d) (default_pg_ d) (group_count_ d).

(** The order in which the hash maps are iterated over. *)
Variable iter_names : list (group_ptr * bytes) -> list (group_ptr * bytes).
Variable iter_ranks : list (Z * Z) -> list (Z * Z).

Definition find_name (d : DistributedC10d) (name : bytes) : option (group_ptr * bytes) :=
  find (fun pg_name => bool_decide (pg_name.2 = name)) (iter_names (map_to_list (pg_names_ d))).

Definition getProcessGroupByName (d : DistributedC10d) (name : bytes) : outcome group_ptr :=
  match find_name d name with
  | None => Throw (CheckFailed "Unable to find process group with name: ")
  | Some it =>
      check! bool_decide (it.1 <> None) else CheckFailed "found a process group that's null" in
      Ret it.1
  end.
Definition getNameOfProcessGroup (d : DistributedC10d) (pg : group_ptr) : outcome bytes :=
  match pg_names_ d !! pg with
  | None => Throw (CheckFailed "Unable to find name of process group ")
  | Some name => Ret name
  end.

Abbreviation op A := (M (DistributedC10d * W) A).
Definition in_world {A} (m : M W A) : op A := fun s => let '(o, w) := m s.2 in (o, (s.1, w)).
Definition set_d (f : DistributedC10d -> DistributedC10d) : op unit := modify (fun s => (f s.1, s.2)).

Definition registerProcessGroupName (process_group : group_ptr) (name : bytes) : op unit :=
  let! it := gets (fun s => find_name s.1 name) in
  match it with
  | Some it =>
      do! assert_ (bool_decide (it.1 = process_group)) (CheckFailed "Requested name already exists: ") in
      ret tt
  | None =>
      let! it := gets (fun s => pg_names_ s.1 !! process_group) in
      do! assert_ (bool_decide (it = None))
        (CheckFailed "Given process group has been registered before with a different name: ") in
      set_d (upd_names (<[process_group := name]>))
  end.

Definition deref {R} (group : group_ptr) : M R nat :=
  match group with Some g => ret g | None => throw (Undefined "null process group") end.

(** *** newProcessGroupHelper *)

Fixpoint devices_for (ifaces : list bytes) : op (list nat) :=
  match ifaces with
  | [] => ret []
  | iface :: ifaces =>
      let! device := in_world (createDeviceForInterface iface) in
      let! devices := devices_for ifaces in
      ret (device :: devices)
  end.
Definition gloo_devices : op (list nat) :=
  match getenv_GLOO_SOCKET_IFNAME with
  | Some ifnameEnv => devices_for (split x2c ifnameEnv)
  | None => let! device := in_world createDefaultDevice in ret [device]
  end.

Definition make_group (backend : bytes) (prefix_store : bytes * S) (rank world_size timeout : Z) : op group_ptr :=
  if bool_decide (backend = str "gloo") then
    if USE_C10D_GLOO then
      let! devices := gloo_devices in
      let options := mkGlooOptions devices timeout (int32 (uint64 (Z.of_nat (length devices) * 2))) in
      let! pg := in_world (make_ProcessGroupGloo prefix_store (int32 rank) (int32 world_size) options) in
      ret (Some pg)
    else throw (CheckFailed "Attempting to create GLOO-based process group while GLOO is either not enabled or built")
  else if bool_decide (backend = str "nccl") then
    if USE_C10D_NCCL then
      let! pg := in_world (make_ProcessGroupNCCL prefix_store (int32 rank) (int32 world_size) (mkNCCLOptions false timeout)) in
      ret (Some pg)
    else throw (CheckFailed "Attempting to create NCCL-based process group while NCCL is either not enabled or built")
  else throw (CheckFailed "Unsupported backend type: ").

Definition register_group (pg : group_ptr) (backend : bytes) (store : S) (group_name : bytes) : op group_ptr :=
  do! set_d (upd_map (<[pg := (backend, store)]>)) in
  do! set_d (upd_names (<[pg := group_name]>)) in
  ret pg.

Definition choose_name (group_name : option bytes) : op bytes :=
  match group_name with
  | Some name => ret name
  | None =>
      let! name := gets (fun s => Decimal.to_string (group_count_ s.1)) in
      do! set_d (upd_count (fun n => int64 (n + 1))) in
      ret name
  end.

(** Whether this process is to be in the group. *)
Definition is_member (group_ranks : list Z) : op bool :=
  if (length group_ranks =? 0)%nat then ret true
  else
    let! default_pg := gets (fun s => default_pg_ s.1) in
    let! g := deref default_pg in
    ret (bool_decide (pg_getRank g ∈ group_ranks)).

Definition newProcessGroupHelper (world_size rank : Z) (group_ranks : list Z) (backend_str : bytes) (store : S)
    (group_name : option bytes) (timeout_milisesonds : Z) : op group_ptr :=
  let! group_name := choose_name group_name in
  let! it := gets (fun s => find_name s.1 group_name) in
  match it with
  | Some _ => throw (RuntimeError "The specified group name has already been created, please use a different group name")
  | None =>
      let backend := Backend_get backend_str in
      if bool_decide (backend = str "mpi") then
        if USE_C10D_MPI then
          let! pg := in_world (createProcessGroupMPI (map int32 group_ranks)) in
          register_group pg backend store group_name
        else throw (CheckFailed "Distributed package doesn't have MPI built in.")
      else
        let! member := is_member group_ranks in
        if negb member then ret None
        else
          let! pg := make_group backend (group_name, store) rank world_size timeout_milisesonds in
          register_group pg backend store group_name
  end.

(** ** Ranks and sizes *)

Definition checkDefaultPg (d : DistributedC10d) : outcome unit :=
  ocheck (bool_decide (default_pg_ d <> None)) (CheckFailed "Default process group is not initialized").
Definition worldProcessGroup (d : DistributedC10d) : outcome group_ptr :=
  let? _ := checkDefaultPg d in Ret (default_pg_ d).
Definition is_default (d : DistributedC10d) (group : group_ptr) : bool := bool_decide (group = default_pg_ d).

Definition rankNotInGroup (d : DistributedC10d) (group : group_ptr) : bool :=
  if is_default d group then false else bool_decide (group <> None).

Definition rank_of (group : group_ptr) : outcome Z :=
  match group with Some g => Ret (pg_getRank g) | None => Throw (Undefined "null process group") end.
Definition getRank (d : DistributedC10d) (group : group_ptr) : outcome Z :=
  if rankNotInGroup d group then Ret (-1) else rank_of group.

Definition group_ranks_of (d : DistributedC10d) (group : group_ptr) : outcome (gmap Z Z) :=
  match pg_group_ranks_ d !! group with
  | None => Throw (CheckFailed "The given group does not exist")
  | Some ranks => Ret ranks
  end.
(** The size of the default group is computed and dropped. *)
Definition getGroupSize (d : DistributedC10d) (group : group_ptr) : outcome Z :=
  let? _ := if is_default d group then
              match default_pg_ d with
              | Some g => Ret (pg_getSize g)
              | None => Throw (Undefined "null process group")
              end
            else Ret 0 in
  let? ranks := group_ranks_of d group in
  Ret (Z.of_nat (size ranks)).
Definition getWorldSize (d : DistributedC10d) (group : group_ptr) : outcome Z :=
  if rankNotInGroup d group then Ret (-1) else getGroupSize d group.

Definition getGroupRank (d : DistributedC10d) (group : group_ptr) (rank : Z) : outcome Z :=
  check! negb (is_default d group) else CheckFailed "group.WORLD does not have local rank to global rank mapping" in
  let? group_rank_map := group_ranks_of d group in
  match group_rank_map !! rank with
  | None => Throw (CheckFailed "The global rank ")
  | Some r => Ret r
  end.
Definition getGlobalRank (d : DistributedC10d) (group : group_ptr) (group_rank : Z) : outcome Z :=
  check! negb (is_default d group) else CheckFailed "group.WORLD does not have local rank to global rank mapping" in
  let? group_rank_map := group_ranks_of d group in
  match find (fun p => p.2 =? group_rank) (iter_ranks (map_to_list group_rank_map)) with
  | None => Throw (CheckFailed "The group rank is not part of the group")
  | Some p => Ret p.1
  end.
Definition getBackend (d : DistributedC10d) (group : group_ptr) : outcome bytes :=
  check! negb (rankNotInGroup d group) else CheckFailed "Invalid process group specified" in
  match pg_map_ d !! group with
  | None => Throw (CheckFailed "The given group does not exist")
  | Some it => Ret it.1
  end.

(** ** Communication

    The vectors that a function takes by reference and changes live in the
    frame of the caller. *)
Record frame := mkFrame { tensor_list : list T; tensor_lists : list (list T); world : W }.
Abbreviation call A := (M frame A).
Definition on_world {A} (m : M W A) : call A := fun f =>
  let '(o, w) := m (world f) in (o, mkFrame (tensor_list f) (tensor_lists f) w).
Definition set_list (g : list T -> list T) : call unit := modify (fun f => mkFrame (g (tensor_list f)) (tensor_lists f) (world f)).
Definition set_lists (g : list (list T) -> list (list T)) : call unit :=
  modify (fun f => mkFrame (tensor_list f) (g (tensor_lists f)) (world f)).

Definition issue (group : group_ptr) (c : pg_call T) : call nat :=
  let! g := deref group in on_world (pg_issue g c).
(** The common end: the work object, or the empty one after waiting. *)
Definition complete (async_op : bool) (work : nat) : call (option nat) :=
  if async_op then ret (Some work) else do! on_world (pg_wait work) in ret None.
(** The options' rootRank: the given rank in the default group, its rank in
    another one. *)
Definition rooted (d : DistributedC10d) (group : group_ptr) (root : Z) (c : Z -> pg_call T) : call nat :=
  if is_default d group then issue group (c (int32 root))
  else
    let! group_rank := lift (getGroupRank d group root) in
    issue group (c (int32 group_rank)).
Definition empty_work : option nat := None.

Section operations.
Variable d : DistributedC10d.
Variable group : group_ptr.

Definition isend (tensor : T) (dst : Z) (tag : option Z) : call (option nat) :=
  if rankNotInGroup d group then ret empty_work
  else
    do! lift (checkDefaultPg d) in
    let! work := rooted d group dst (fun dst => PSend [tensor] dst (int32 (default 0 tag))) in
    ret (Some work).
Definition irecv (tensor : T) (src : Z) (tag : option Z) : call (option nat) :=
  if rankNotInGroup d group then ret empty_work
  else
    do! lift (checkDefaultPg d) in
    let! work := rooted d group src (fun src => PRecv [tensor] src (int32 (default 0 tag))) in
    ret (Some work).
Definition send (tensor : T) (dst : Z) (tag : option Z) : call unit :=
  let! work := isend tensor dst tag in
  match work with
  | Some work => do! on_world (pg_wait work) in ret tt
  | None => ret tt
  end.
Definition recv (tensor : T) (src : option Z) (tag : option Z) : call Z :=
  if rankNotInGroup d group then ret (-1)
  else
    match src with
    | None =>
        let! work := issue group (PRecvAnysource [tensor] (int32 (default 0 tag))) in
        do! on_world (pg_wait work) in
        let! src_rank := on_world (pg_sourceRank work) in
        if is_default d group then ret src_rank else lift (getGlobalRank d group src_rank)
    | Some src =>
        let! work := rooted d group src (fun src => PRecv [tensor] src (int32 (default 0 tag))) in
        do! on_world (pg_wait work) in
        ret src
    end.

Definition broadcastMultiGPU (tensors : list T) (src : Z) (async_op : bool) (src_tensor : Z) : call (option nat) :=
  if rankNotInGroup d group then ret empty_work
  else
    do! lift (checkDefaultPg d) in
    let! work := rooted d group src (fun root => PBroadcast tensors root (int32 src_tensor)) in
    complete async_op work.
Definition broadcast (tensor : T) (src : Z) (async_op : bool) : call (option nat) :=
  if rankNotInGroup d group then ret empty_work
  else
    do! lift (checkDefaultPg d) in
    let! work := rooted d group src (fun root => PBroadcast [tensor] root 0) in
    complete async_op work.

Definition allReduceMultiGPU (op : ReduceOp) (async_op : bool) : call (option nat) :=
  if rankNotInGroup d group then ret empty_work
  else
    do! lift (assertReduceOpSupportsComplexTensor op) in
    do! set_list preprocess_list in
    let! tensors := gets tensor_list in
    let! work := issue group (PAllreduce tensors op) in
    complete async_op work.
Definition allReduce (tensor : T) (op : ReduceOp) (async_op : bool) : call (option nat) :=
  if rankNotInGroup d group then ret empty_work
  else
    do! lift (assertReduceOpSupportsComplexTensor op) in
    let! work := issue group (PAllreduce [preprocess_tensor tensor] op) in
    complete async_op work.
Definition allReduceCoalesced (op : ReduceOp) (async_op : bool) : call (option nat) :=
  if rankNotInGroup d group then ret empty_work
  else
    do! lift (assertReduceOpSupportsComplexTensor op) in
    do! set_list preprocess_list in
    let! tensors := gets tensor_list in
    let! work := issue group (PAllreduceCoalesced tensors op) in
    complete async_op work.

Definition reduceMultiGPU (tensors : list T) (dst : Z) (op : ReduceOp) (async_op : bool) (dst_tensor : Z) : call (option nat) :=
  if rankNotInGroup d group then ret empty_work
  else
    do! lift (checkDefaultPg d) in
    let! work := rooted d group dst (fun root => PReduce tensors op root (int32 dst_tensor)) in
    complete async_op work.
Definition reduce (tensor : T) (dst : Z) (op : ReduceOp) (async_op : bool) : call (option nat) :=
  if rankNotInGroup d group then ret empty_work
  else
    do! lift (checkDefaultPg d) in
    let! work := rooted d group dst (fun root => PReduce [tensor] op root 0) in
    complete async_op work.

Definition allGatherMultiGPU (async_op : bool) : call (option nat) :=
  if rankNotInGroup d group then ret empty_work
  else
    do! set_lists preprocess_lists in
    do! set_list preprocess_list in
    let! outputs := gets tensor_lists in
    let! inputs := gets tensor_list in
    let! work := issue group (PAllgather outputs inputs) in
    complete async_op work.
(** The list is moved into the outputs, which leaves it empty. *)
Definition allGather (tensor : T) (async_op : bool) : call (option nat) :=
  if rankNotInGroup d group then ret empty_work
  else
    do! set_list preprocess_list in
    let! outputs := gets tensor_list in
    do! set_list (fun _ => []) in
    let! work := issue group (PAllgather [outputs] [preprocess_tensor tensor]) in
    complete async_op work.
Definition allGatherCoalesced (async_op : bool) : call (option nat) :=
  if rankNotInGroup d group then ret empty_work
  else
    do! set_lists preprocess_lists in
    do! set_list preprocess_list in
    let! outputs := gets tensor_lists in
    let! inputs := gets tensor_list in
    let! work := issue group (PAllgatherCoalesced outputs inputs) in
    complete async_op work.

Definition gather (tensor : T) (gather_list : option (list T)) (dst : Z) (async_op : bool) : call (option nat) :=
  if rankNotInGroup d group then ret empty_work
  else
    let! my_rank := lift (rank_of group) in
    let! output_tensors :=
      if dst =? my_rank then
        match gather_list with
        | Some l => ret [l]
        | None => throw (CheckFailed "Argument ``gather_list`` must be specified on destination rank")
        end
      else
        match gather_list with
        | Some _ => throw (CheckFailed "Argument ``gather_list`` must NOT be specified on non-destination ranks.")
        | None => ret []
        end in
    let! work := rooted d group dst (fun root => PGather output_tensors [tensor] root) in
    complete async_op work.
Definition scatter (tensor : T) (scatter_list : list T) (src : Z) (async_op : bool) : call (option nat) :=
  if rankNotInGroup d group then ret empty_work
  else
    let! my_rank := lift (getRank d (default_pg_ d)) in
    let input_tensors := if src =? my_rank then [scatter_list] else [] in
    let! work := rooted d group src (fun root => PScatter [tensor] input_tensors root) in
    complete async_op work.

Definition reduceScatterMultiGPU (outputs : list T) (inputs : list (list T)) (op : ReduceOp) (async_op : bool) : call (option nat) :=
  if rankNotInGroup d group then ret empty_work
  else let! work := issue group (PReduceScatter outputs inputs op) in complete async_op work.
Definition reduceScatter (output : T) (op : ReduceOp) (async_op : bool) : call (option nat) :=
  if rankNotInGroup d group then ret empty_work
  else
    let! inputs := gets tensor_list in
    do! set_list (fun _ => []) in
    let! work := issue group (PReduceScatter [output] [inputs] op) in
    complete async_op work.
Definition allToAllSingle (output input : T) (output_split_sizes input_split_sizes : list Z) (async_op : bool) : call (option nat) :=
  if rankNotInGroup d group then ret empty_work
  else
    let! work := issue group (PAlltoallBase output input output_split_sizes input_split_sizes) in
    complete async_op work.
Definition allToAll (outputs inputs : list T) (async_op : bool) : call (option nat) :=
  if rankNotInGroup d group then ret empty_work
  else let! work := issue group (PAlltoall outputs inputs) in complete async_op work.
Definition barrier (async_op : bool) : call (option nat) :=
  if rankNotInGroup d group then ret empty_work
  else let! work := issue group PBarrier in complete async_op work.
End operations.

(** Any of these calls. *)
Inductive fe_call : Type :=
  | Isend (tensor : T) (dst : Z) (tag : option Z)
  | Irecv (tensor : T) (src : Z) (tag : option Z)
  | Send (tensor : T) (dst : Z) (tag : option Z)
  | Recv (tensor : T) (src : option Z) (tag : option Z)
  | BroadcastMultiGPU (tensors : list T) (src : Z) (async_op : bool) (src_tensor : Z)
  | Broadcast (tensor : T) (src : Z) (async_op : bool)
  | AllReduceMultiGPU (op : ReduceOp) (async_op : bool)
  | AllReduce (tensor : T) (op : ReduceOp) (async_op : bool)
  | AllReduceCoalesced (op : ReduceOp) (async_op : bool)
  | ReduceMultiGPU (tensors : list T) (dst : Z) (op : ReduceOp) (async_op : bool) (dst_tensor : Z)
  | Reduce (tensor : T) (dst : Z) (op : ReduceOp) (async_op : bool)
  | AllGatherMultiGPU (async_op : bool)
  | AllGather (tensor : T) (async_op : bool)
  | AllGatherCoalesced (async_op : bool)
  | Gather (tensor : T) (gather_list : option (list T)) (dst : Z) (async_op : bool)
  | Scatter (tensor : T) (scatter_list : list T) (src : Z) (async_op : bool)
  | ReduceScatterMultiGPU (outputs : list T) (inputs : list (list T)) (op : ReduceOp) (async_op : bool)
  | ReduceScatter (output : T) (op : ReduceOp) (async_op : bool)
  | AllToAllSingle (output input : T) (output_split_sizes input_split_sizes : list Z) (async_op : bool)
  | AllToAll (outputs inputs : list T) (async_op : bool)
  | Barrier (async_op : bool).

Inductive answer : Type := AWork (work : option nat) | ARank (rank : Z) | ADone.
Definition work_answer (m : call (option nat)) : call answer := let! w := m in ret (AWork w).

Definition run (d : DistributedC10d) (group : group_ptr) (c : fe_call) : call answer :=
  match c with
  | Isend t dst tag => work_answer (isend d group t dst tag)
  | Irecv t src tag => work_answer (irecv d group t src tag)
  | Send t dst tag => do! send d group t dst tag in ret ADone
  | Recv t src tag => let! r := recv d group t src tag in ret (ARank r)
  | BroadcastMultiGPU ts src b st => work_answer (broadcastMultiGPU d group ts src b st)
  | Broadcast t src b => work_answer (broadcast d group t src b)
  | AllReduceMultiGPU op b => work_answer (allReduceMultiGPU d group op b)
  | AllReduce t op b => work_answer (allReduce d group t op b)
  | AllReduceCoalesced op b => work_answer (allReduceCoalesced d group op b)
  | ReduceMultiGPU ts dst op b dt => work_answer (reduceMultiGPU d group ts dst op b dt)
  | Reduce t dst op b => work_answer (reduce d group t dst op b)
  | AllGatherMultiGPU b => work_answer (allGatherMultiGPU d group b)
  | AllGather t b => work_answer (allGather d group t b)
  | AllGatherCoalesced b => work_answer (allGatherCoalesced d group b)
  | Gather t l dst b => work_answer (gather d group t l dst b)
  | Scatter t l src b => work_answer (scatter d group t l src b)
  | ReduceScatterMultiGPU outs ins op b => work_answer (reduceScatterMultiGPU d group outs ins op b)
  | ReduceScatter o op b => work_answer (reduceScatter d group o op b)
  | AllToAllSingle o i outs ins b => work_answer (allToAllSingle d group o i outs ins b)
  | AllToAll outs ins b => work_answer (allToAll d group outs ins b)
  | Barrier b => work_answer (barrier d group b)
  end.

(** ** The registries *)

Inductive registration : Type :=
  | NewGroup (world_size rank : Z) (group_ranks : list Z) (backend : bytes) (store : S) (group_name : option bytes) (timeout : Z)
  | RegisterName (process_group : group_ptr) (name : bytes).
Definition register (r : registration) : op unit :=
  match r with
  | NewGroup ws rk ranks backend store name timeout =>
      do! newProcessGroupHelper ws rk ranks backend store name timeout in ret tt
  | RegisterName pg name => registerProcessGroupName pg name
  end.
(** A program that goes on after exceptions. *)
Fixpoint registers (rs : list registration) (s : DistributedC10d * W) : DistributedC10d * W :=
  match rs with
  | [] => s
  | r :: rs => registers rs (snd (register r s))
  end.
Definition reachable (d : DistributedC10d) : Prop := exists rs w w', registers rs (initial, w) = (d, w').

#[local] Set Default Proof Using "Type".
#[local] Set Proof Using Clear Unused.

(** No two groups have the same name; the default group and the table of ranks
    are never set. *)
Record registry_inv (d : DistributedC10d) : Prop := mkInv {
  inv_names : forall g g' n, pg_names_ d !! g = Some n -> pg_names_ d !! g' = Some n -> g = g';
  inv_default : default_pg_ d = None;
  inv_ranks : pg_group_ranks_ d = ∅;
}.

Hypothesis iter_names_perm : forall l, iter_names l ≡ₚ l.

Lemma find_name_Some d name it : find_name d name = Some it -> pg_names_ d !! it.1 = Some name.
Proof using iter_names_perm.
  intros [Hin Hn%bool_decide_eq_true_1]%find_some. rewrite <- list_elem_of_In, iter_names_perm in Hin.
  destruct it as [g n]. cbn in *. subst. by apply elem_of_map_to_list in Hin.
Qed.
Lemma find_name_None d name g : find_name d name = None -> pg_names_ d !! g <> Some name.
Proof using iter_names_perm.
  intros Hf Hg. apply elem_of_map_to_list in Hg. rewrite <- iter_names_perm, list_elem_of_In in Hg.
  apply (find_none _ _ Hf) in Hg. by apply bool_decide_eq_false_1 in Hg.
Qed.

Lemma add_name_inv d g name : registry_inv d -> find_name d name = None -> registry_inv (upd_names (<[g := name]>) d).
Proof using iter_names_perm.
  intros [Hn Hd Hr] Hf. split; [|done..]. cbn. intros g1 g2 n H1 H2. destruct (decide (g1 = g)) as [->|N1], (decide (g2 = g)) as [->|N2].
  - done.
  - rewrite lookup_insert_eq in H1. rewrite lookup_insert_ne in H2 by done. simplify_eq. by destruct (find_name_None d n g2).
  - rewrite lookup_insert_eq in H2. rewrite lookup_insert_ne in H1 by done. simplify_eq. by destruct (find_name_None d n g1).
  - rewrite lookup_insert_ne in H1, H2 by done. by eapply Hn.
Qed.

(** Operations of a group leave the registries alone. *)
Definition quiet {A} (m : op A) : Prop := forall s, (snd (m s)).1 = s.1.
Lemma quiet_bind {A B} (m : op A) (k : A -> op B) : quiet m -> (forall a, quiet (k a)) -> quiet (let! a := m in k a).
Proof.
  intros Hm Hk s. unfold bind. specialize (Hm s). destruct (m s) as [[a|e|] s1]; [|done..]. cbn in Hm. by rewrite Hk.
Qed.
Lemma quiet_in_world {A} (m : M W A) : quiet (in_world m).
Proof. intros s. unfold in_world. by destruct (m s.2). Qed.
Lemma quiet_done {A} (o : outcome A) : quiet (lift o).
Proof. done. Qed.
#[local] Hint Resolve quiet_in_world quiet_done : core.

Lemma quiet_devices l : quiet (devices_for l).
Proof. induction l as [|x l IH]; [done|]. cbn. repeat (apply quiet_bind; [done|intros ?]). done. Qed.
Lemma quiet_make_group backend st rk ws t : quiet (make_group backend st rk ws t).
Proof.
  unfold make_group, gloo_devices. repeat case_match; try done;
    repeat (apply quiet_bind; [try done; try apply quiet_devices|intros ?]); try done.
Qed.
Lemma quiet_is_member ranks : quiet (is_member ranks).
Proof. unfold is_member. case_match; [done|]. repeat (apply quiet_bind; [|intros ?]); try done. by destruct a. Qed.

Lemma register_group_inv pg backend st name s : registry_inv s.1 -> find_name s.1 name = None ->
  registry_inv (snd (register_group pg backend st name s)).1.
Proof using iter_names_perm. intros Hi Hf. cbn. apply (add_name_inv (upd_map _ s.1)); [|done]. by destruct Hi. Qed.

Lemma after_quiet {A} (m : op A) (k : A -> op group_ptr) (P : DistributedC10d -> Prop) s :
  quiet m -> P s.1 -> (forall a s', P s'.1 -> s'.1 = s.1 -> P (snd (k a s')).1) -> P (snd (bind m k s)).1.
Proof.
  intros Hm Hp Hk. unfold bind. specialize (Hm s). destruct (m s) as [[a|e|] s1]; cbn in *; try (by rewrite Hm).
  apply Hk; [by rewrite Hm|done].
Qed.

Lemma newProcessGroupHelper_inv ws rk ranks backend st name timeout s : registry_inv s.1 ->
  registry_inv (snd (newProcessGroupHelper ws rk ranks backend st name timeout s)).1.
Proof using iter_names_perm.
  intros Hi. unfold newProcessGroupHelper.
  assert (Hc : exists n s1, choose_name name s = (Ret n, s1) /\ registry_inv s1.1).
  { destruct name as [n|]; [by eexists n, s|]. eexists _, _. split; [reflexivity|]. by destruct Hi. }
  destruct Hc as (n & s1 & E & H1). unfold bind at 1. rewrite E. clear E Hi. unfold bind at 1, gets at 1.
  destruct (find_name s1.1 n) as [it|] eqn:Hf; [done|]. case_bool_decide.
  - destruct USE_C10D_MPI; [|done]. apply (after_quiet _ _ registry_inv); [done..|]. intros g s2 H2 E.
    apply register_group_inv; [done|by rewrite E].
  - apply (after_quiet _ _ registry_inv); [apply quiet_is_member|done|]. intros b s2 H2 E2. destruct b; [|done].
    apply (after_quiet _ _ registry_inv); [apply quiet_make_group|done|]. intros g s3 H3 E3.
    apply register_group_inv; [done|]. by rewrite E3, E2.
Qed.

Lemma registerProcessGroupName_inv pg name s : registry_inv s.1 -> registry_inv (snd (registerProcessGroupName pg name s)).1.
Proof using iter_names_perm.
  intros Hi. unfold registerProcessGroupName, bind at 1, gets at 1. destruct (find_name s.1 name) eqn:Hf; cbn -[bool_decide].
  - unfold bind, assert_, lift, ocheck. by case_bool_decide.
  - unfold bind, gets, assert_, lift, ocheck. case_bool_decide; cbn; [by apply add_name_inv|done].
Qed.

Lemma registers_inv rs : forall s, registry_inv s.1 -> registry_inv (registers rs s).1.
Proof using iter_names_perm.
  induction rs as [|r rs IH]; intros s Hi; [done|]. cbn [registers]. apply IH. destruct r as [ws rk ranks b st n t|pg n]; cbn [register].
  - unfold bind. pose proof (newProcessGroupHelper_inv ws rk ranks b st n t s Hi) as H.
    destruct (newProcessGroupHelper ws rk ranks b st n t s) as [[a|e|] s1]; done.
  - by apply registerProcessGroupName_inv.
Qed.

Lemma registry_reachable d : reachable d -> registry_inv d.
Proof using iter_names_perm.
  intros (rs & w & w' & E). pose proof (registers_inv rs (initial, w)) as H. rewrite E in H. apply H. by split.
Qed.


Lemma names_inverse d g name : registry_inv d ->
  getProcessGroupByName d name = Ret (Some g) <-> getNameOfProcessGroup d (Some g) = Ret name.
Proof using iter_names_perm.
  intros [Hn _ _]. unfold getProcessGroupByName, getNameOfProcessGroup, ocheck. split.
  - destruct (find_name d name) as [it|] eqn:Hf; [|done]. apply find_name_Some in Hf. case_bool_decide; [|done].
    cbn. intros [= E]. by rewrite <- E, Hf.
  - destruct (pg_names_ d !! Some g) as [n|] eqn:Hg; [|done]. intros [= ->].
    destruct (find_name d name) as [it|] eqn:Hf.
    + apply find_name_Some in Hf. rewrite (Hn _ _ _ Hf Hg). by rewrite bool_decide_true.
    + by destruct (find_name_None d name (Some g) Hf).
Qed.

(** The registry of names is one-to-one: after any program of
    newProcessGroupHelper and registerProcessGroupName calls, with any back
    ends, refused and failing calls included, looking a name up gives a group
    exactly when that name is the group's name, and the answer does not depend
    on the order in which the hash map is iterated over. *)
Theorem frontend_names_inverse (d : DistributedC10d) (g : nat) (name : bytes) :
  reachable d -> getProcessGroupByName d name = Ret (Some g) <-> getNameOfProcessGroup d (Some g) = Ret name.
Proof using iter_names_perm. intros H. by apply names_inverse, registry_reachable. Qed.

Lemma registers_app rs rs' s : registers (rs ++ rs') s = registers rs' (registers rs s).
Proof. revert s. by induction rs as [|r rs IH]; intros s; cbn; [|rewrite IH]. Qed.

(** The registered groups are known under their names at once. *)
Lemma register_then_find d w g name : reachable d -> pg_names_ d !! Some g = None -> find_name d name = None ->
  exists d', registerProcessGroupName (Some g) name (d, w) = (Ret tt, (d', w)) /\ getProcessGroupByName d' name = Ret (Some g).
Proof using iter_names_perm.
  intros Hr Hg Hf. assert (E : forall w, registerProcessGroupName (Some g) name (d, w) = (Ret tt, (upd_names (<[Some g := name]>) d, w))).
  { intros w0. unfold registerProcessGroupName, bind, gets, assert_, lift, ocheck. cbn -[bool_decide]. rewrite Hf. cbn -[bool_decide].
    by rewrite Hg. }
  eexists. split; [apply E|]. apply names_inverse; [apply registry_reachable|].
  - destruct Hr as (rs & w0 & w' & Er). exists (rs ++ [RegisterName (Some g) name]), w0, w'. rewrite registers_app, Er. cbn [registers register].
    by rewrite E.
  - unfold getNameOfProcessGroup. cbn. by rewrite lookup_insert_eq.
Qed.

(** ** What the calls do *)

Definition nothing (c : fe_call) : answer :=
  match c with Send _ _ _ => ADone | Recv _ _ _ => ARank (-1) | _ => AWork None end.

Ltac unfold_calls :=
  unfold work_answer, isend, irecv, send, recv, isend, broadcastMultiGPU, broadcast, allReduceMultiGPU, allReduce,
    allReduceCoalesced, reduceMultiGPU, reduce, allGatherMultiGPU, allGather, allGatherCoalesced, gather, scatter,
    reduceScatterMultiGPU, reduceScatter, allToAllSingle, allToAll, barrier.

Lemma run_not_in_group d group c f : rankNotInGroup d group = true -> run d group c f = (Ret (nothing c), f).
Proof.
  intros Hn. destruct c; cbn [run nothing]; unfold_calls; by rewrite Hn.
Qed.

(** Without a default group, its calls fail before they reach a back end. *)
Lemma run_null_world d c f : default_pg_ d = None -> exists e lists,
  run d None c f = (Throw e, mkFrame (lists.1) (lists.2) (world f)).
Proof.
  intros Hd. assert (Hr : rankNotInGroup d None = false) by (unfold rankNotInGroup, is_default; by rewrite Hd).
  assert (Hc : checkDefaultPg d = Throw (CheckFailed "Default process group is not initialized")) by (unfold checkDefaultPg; by rewrite Hd).
  destruct f as [l ls w].
  destruct c; cbn [run]; unfold_calls; unfold getRank, rooted, is_default;
    rewrite ?Hr, ?Hc, ?Hd, ?Hr; try (by eexists _, (l, ls)); try (by destruct op; eexists _, (_, _)).
  all: try by eexists _, (_, _).
  destruct src; by eexists _, (l, ls).
Qed.

(** The object never reaches a back end: its default group is never set, and
    rankNotInGroup is true of every other group.  So whatever groups a program
    has created and registered, every communication call on a group returns at
    once, with the empty work object or rank -1 and without any effect, and so do
    getRank and getWorldSize; on the world group every call fails before it
    issues an operation, and getWorldSize fails. *)
Theorem frontend_inert (d : DistributedC10d) :
  reachable d ->
  (forall g c f, run d (Some g) c f = (Ret (nothing c), f)) /\
  (forall g, getRank d (Some g) = Ret (-1) /\ getWorldSize d (Some g) = Ret (-1)) /\
  (forall c f, exists e f', run d None c f = (Throw e, f') /\ world f' = world f) /\
  (exists e, getWorldSize d None = Throw e).
Proof using iter_names_perm.
  intros [_ Hd _]%registry_reachable.
  assert (Hn : forall g, rankNotInGroup d (Some g) = true) by (intros g; unfold rankNotInGroup, is_default; by rewrite Hd).
  split_and!.
  - intros g c f. by apply run_not_in_group.
  - intros g. unfold getRank, getWorldSize. by rewrite Hn.
  - intros c f. destruct (run_null_world d c f Hd) as (e & ls & E). by eexists e, _.
  - unfold getWorldSize, rankNotInGroup, getGroupSize, is_default. rewrite Hd. by eexists.
Qed.

(** *** The table of requests

    What a call on the default group asks of it; [rank] is this process's rank. *)
Definition complex_check (op : ReduceOp) (c : pg_call T) : outcome (pg_call T) :=
  let? _ := assertReduceOpSupportsComplexTensor op in Ret c.
Definition request (rank : Z) (c : fe_call) (f : frame) : outcome (pg_call T) :=
  match c with
  | Isend t dst tag | Send t dst tag => Ret (PSend [t] (int32 dst) (int32 (default 0 tag)))
  | Irecv t src tag | Recv t (Some src) tag => Ret (PRecv [t] (int32 src) (int32 (default 0 tag)))
  | Recv t None tag => Ret (PRecvAnysource [t] (int32 (default 0 tag)))
  | BroadcastMultiGPU ts src _ st => Ret (PBroadcast ts (int32 src) (int32 st))
  | Broadcast t src _ => Ret (PBroadcast [t] (int32 src) 0)
  | AllReduceMultiGPU op _ => complex_check op (PAllreduce (preprocess_list (tensor_list f)) op)
  | AllReduce t op _ => complex_check op (PAllreduce [preprocess_tensor t] op)
  | AllReduceCoalesced op _ => complex_check op (PAllreduceCoalesced (preprocess_list (tensor_list f)) op)
  | ReduceMultiGPU ts dst op _ dt => Ret (PReduce ts op (int32 dst) (int32 dt))
  | Reduce t dst op _ => Ret (PReduce [t] op (int32 dst) 0)
  | AllGatherMultiGPU _ => Ret (PAllgather (preprocess_lists (tensor_lists f)) (preprocess_list (tensor_list f)))
  | AllGather t _ => Ret (PAllgather [preprocess_list (tensor_list f)] [preprocess_tensor t])
  | AllGatherCoalesced _ => Ret (PAllgatherCoalesced (preprocess_lists (tensor_lists f)) (preprocess_list (tensor_list f)))
  | Gather t l dst _ =>
      match l with
      | Some l => if dst =? rank then Ret (PGather [l] [t] (int32 dst))
                  else Throw (CheckFailed "Argument ``gather_list`` must NOT be specified on non-destination ranks.")
      | None => if dst =? rank then Throw (CheckFailed "Argument ``gather_list`` must be specified on destination rank")
                else Ret (PGather [] [t] (int32 dst))
      end
  | Scatter t l src _ => Ret (PScatter [t] (if src =? rank then [l] else []) (int32 src))
  | ReduceScatterMultiGPU outs ins op _ => Ret (PReduceScatter outs ins op)
  | ReduceScatter o op _ => Ret (PReduceScatter [o] [tensor_list f] op)
  | AllToAllSingle o i outs ins _ => Ret (PAlltoallBase o i outs ins)
  | AllToAll outs ins _ => Ret (PAlltoall outs ins)
  | Barrier _ => Ret PBarrier
  end.
Definition frame_after (c : fe_call) (f : frame) : frame :=
  match c with
  | AllReduceMultiGPU _ _ | AllReduceCoalesced _ _ => mkFrame (preprocess_list (tensor_list f)) (tensor_lists f) (world f)
  | AllGatherMultiGPU _ | AllGatherCoalesced _ =>
      mkFrame (preprocess_list (tensor_list f)) (preprocess_lists (tensor_lists f)) (world f)
  | AllGather _ _ | ReduceScatter _ _ _ => mkFrame [] (tensor_lists f) (world f)
  | _ => f
  end.
Definition reply (c : fe_call) (work : nat) : call answer :=
  match c with
  | Isend _ _ _ | Irecv _ _ _ => ret (AWork (Some work))
  | Send _ _ _ => do! on_world (pg_wait work) in ret ADone
  | Recv _ (Some src) _ => do! on_world (pg_wait work) in ret (ARank src)
  | Recv _ None _ => do! on_world (pg_wait work) in let! r := on_world (pg_sourceRank work) in ret (ARank r)
  | BroadcastMultiGPU _ _ b _ | Broadcast _ _ b | AllReduceMultiGPU _ b | AllReduce _ _ b | AllReduceCoalesced _ b
  | ReduceMultiGPU _ _ _ b _ | Reduce _ _ _ b | AllGatherMultiGPU b | AllGather _ b | AllGatherCoalesced b
  | Gather _ _ _ b | Scatter _ _ _ b | ReduceScatterMultiGPU _ _ _ b | ReduceScatter _ _ b | AllToAllSingle _ _ _ _ b
  | AllToAll _ _ b | Barrier b =>
      if b then ret (AWork (Some work)) else do! on_world (pg_wait work) in ret (AWork None)
  end.

(** On the default group g, every call of the front end issues exactly one
    operation on g, that of the table [request] with ranks and tags cut to int,
    and answers by [reply]: the work object when asynchronous, after the wait
    otherwise; a failing check issues nothing. *)
Theorem frontend_default_forwards (d : DistributedC10d) (g : nat) (c : fe_call) (f : frame) :
  default_pg_ d = Some g ->
  run d (Some g) c f =
    match request (pg_getRank g) c f with
    | Ret pc => bind (on_world (pg_issue g pc)) (reply c) (frame_after c f)
    | Throw e => (Throw e, f)
    | Block => (Block, f)
    end.
Proof.
  intros Hd. assert (Hi : is_default d (Some g) = true) by (unfold is_default; rewrite Hd; by apply bool_decide_true).
  assert (Hr : rankNotInGroup d (Some g) = false) by (unfold rankNotInGroup; by rewrite Hi).
  assert (Hc : checkDefaultPg d = Ret tt) by (unfold checkDefaultPg; by rewrite Hd).
  destruct f as [l ls w].
  destruct c; cbn [run request frame_after reply]; unfold_calls; unfold getRank, rooted, complete;
    rewrite ?Hr, ?Hc, ?Hd, ?Hr, ?Hi; unfold complex_check, issue.
  all: try destruct op; try destruct async_op; try destruct gather_list; try destruct src as [|].
  all: unfold reply, bind, lift, ret, gets, throw, on_world, set_list, set_lists, modify, deref, rank_of; cbn; rewrite ?Hi, ?Hr, ?Hd; cbn; try destruct (dst =? pg_getRank g); cbn.
  all: repeat first [done|destruct (pg_issue g _ _) as [[] ?]; cbn|destruct (pg_wait _ _) as [[] ?]; cbn|destruct (pg_sourceRank _ _) as [[] ?]; cbn].
Qed.
End frontend.

(** ** A small world: groups record their operations, gloo is built in *)

#[local] Instance ex_groups : ProcessGroups unit (list (nat * pg_call unit)) := {
  pg_getRank _ := 1;
  pg_getSize _ := 4;
  pg_issue g c := fun w => (Ret (length w), w ++ [(g, c)]);
  pg_wait _ := ret true;
  pg_sourceRank _ := ret 0;
}.
#[local] Instance ex_backends : Backends (list (nat * pg_call unit)) unit := {
  USE_C10D_GLOO := true;
  USE_C10D_NCCL := false;
  USE_C10D_MPI := false;
  getenv_GLOO_SOCKET_IFNAME := Some (str "eth0,eth1,");
  createDeviceForInterface iface := ret (length iface);
  createDefaultDevice := ret 0%nat;
  make_ProcessGroupGloo _ _ _ options := ret (length (gl_devices options));
  make_ProcessGroupNCCL _ _ _ _ := ret 0%nat;
  createProcessGroupMPI _ := ret None;
}.
Definition ex_registrations : list (registration (S := unit)) :=
  [ NewGroup 4 1 [] (str "gloo") tt None 1000; NewGroup 4 1 [] (str "gloo") tt (Some (str "0")) 1000;
    RegisterName (Some 7%nat) (str "seven"); RegisterName (Some 8%nat) (str "seven") ].
Definition ex_object : DistributedC10d (S := unit) := fst (registers id ex_registrations (initial, [])).
Lemma ex_reachable : reachable id ex_object.
Proof. exists ex_registrations, [], (snd (registers id ex_registrations (initial, []))). apply surjective_pairing. Qed.

(** The second creation and the second registration are refused; the group that
    gloo made on two devices, group 2, has the automatic name. *)
Lemma frontend_names_inverse_witness :
  getProcessGroupByName id ex_object (str "0") = Ret (Some 2%nat) /\ getProcessGroupByName id ex_object (str "seven") = Ret (Some 7%nat).
Proof.
  split; apply (frontend_names_inverse id (fun l => Permutation_refl l) ex_object _ _ ex_reachable); vm_compute; reflexivity.
Defined.

Lemma frontend_inert_witness :
  run (fun _ => false) id id ex_object (Some 2%nat) (Broadcast tt 0 false) (mkFrame [] [] []) =
    (Ret (AWork None), mkFrame (T := unit) [] [] []).
Proof.
  exact (proj1 (frontend_inert (fun _ => false) id id id (fun l => Permutation_refl l) ex_object ex_reachable)
    2%nat (Broadcast tt 0 false) (mkFrame [] [] [])).
Defined.

Lemma frontend_default_forwards_witness :
  run (fun _ => false) id id (mkC10d (S := unit) ∅ ∅ ∅ (Some 3%nat) 0) (Some 3%nat) (AllReduce tt SUM false) (mkFrame [] [] []) =
    (Ret (AWork None), mkFrame [] [] [(3%nat, PAllreduce [tt] SUM)]).
Proof.
  rewrite (frontend_default_forwards (fun _ => false) id id (mkC10d (S := unit) ∅ ∅ ∅ (Some 3%nat) 0) 3 (AllReduce tt SUM false)
    (mkFrame [] [] []) eq_refl). reflexivity.
Defined.
