(* ===== verification/Tensors.v ===== *)
(** * Tensors and their memory

    What the back ends of ProcessGroup use of ATen: metadata, values in a heap
    that several handles may share, copy_ and view, and the flat tensors of
    newLikeFlat (csrc/c10d/distributed/c10d/Utils.hpp) into which ProcessGroupMPI.cpp and
    ProcessGroupGloo.cpp copy lists of tensors.

    ATen is an interface of this file. *)

From stdpp Require Import base option list gmap strings.
From Stdlib Require Import ZArith Lia.
From S2P Require Import Prelude NetUtils.

(** at::ScalarType; the types that no back end here knows are [kOther]. *)
Inductive ScalarType : Type :=
  | kByte | kChar | kDouble | kFloat | kInt | kLong | kShort | kHalf | kOther (n : nat).
#[global] Instance ScalarType_eq_dec : EqDecision ScalarType.
Proof. solve_decision. Defined.

(** ** Tensors

    A tensor has its metadata, and its values are those of [ref] in the heap. *)
Record Tensor := mkT { base : @NetUtils.Tensor ScalarType; ref : nat; is_contiguous : bool }.
Definition is_sparse (t : Tensor) : bool := bool_decide (tlayout (base t) = kSparse).
Definition is_cuda (t : Tensor) : bool := bool_decide (device_type (tdevice (base t)) = kCUDA).
Definition scalar_type (t : Tensor) : ScalarType := topts (base t).
Definition numel (t : Tensor) : Z := NetUtils.numel (base t).
Definition type (t : Tensor) : bool * bool * ScalarType := (is_sparse t, is_cuda t, scalar_type t).

(** The values of a new tensor, whether copy_ accepts the shapes of the
    destination and the source, its conversion, and whether view({-1}) works. *)
Class ATen (D : Type) := {
  at_empty : nat -> list D;
  copy_shapes : list Z -> list Z -> bool;
  copy_data : ScalarType -> ScalarType -> list D -> list D;
  viewable : Tensor -> bool;
}.

(** The values of the tensors, and with them the rest of the world. *)
Abbreviation heap_of D := (gmap nat (list D)).
Abbreviation rstate_of D W := (heap_of D * W)%type.

Section heap.
Context {D W : Type} `{aten : ATen D}.
#[local] Set Default Proof Using "Type".
#[local] Set Proof Using Clear Unused.
Abbreviation heap := (heap_of D).
Abbreviation rstate := (rstate_of D W).
Definition read (h : heap) (t : Tensor) : list D := default [] (h !! ref t).
Definition write (t : Tensor) (l : list D) : M rstate unit := modify (fun s => (<[ref t := l]> s.1, s.2)).

(** [destination.copy_(source)] of [l]: the values that are written. *)
Definition copied (to_sizes : list Z) (to_type : ScalarType) (from_sizes : list Z) (from_type : ScalarType) (l : list D) : outcome (list D) :=
  check! copy_shapes to_sizes from_sizes else CheckFailed "The size of tensor a must match the size of tensor b" in
  Ret (copy_data to_type from_type l).
Definition viewed (t : Tensor) : outcome unit :=
  ocheck (viewable t) (CheckFailed "view size is not compatible with input tensor's size and stride").

(** [dst.copy_(src)] *)
Definition copy_ (dst src : Tensor) : M rstate unit :=
  let! h := gets fst in
  let! l := lift (copied (tsizes (base dst)) (scalar_type dst) (tsizes (base src)) (scalar_type src) (read h src)) in
  write dst l.
(** A function of a library that does not touch the tensors. *)
Definition in_world {A} (m : M W A) : M rstate A := fun s => let '(o, w) := m s.2 in (o, (s.1, w)).

(** [flat[i].copy_(tensors[i])] for a flat tensor like [t0]. *)
Fixpoint fill_flat (h : heap) (t0 : Tensor) (tensors : list Tensor) : outcome (list D) :=
  match tensors with
  | [] => Ret []
  | t :: tensors =>
      let? l := copied (tsizes (base t0)) (scalar_type t0) (tsizes (base t)) (scalar_type t) (read h t) in
      let? ls := fill_flat h t0 tensors in
      Ret (l ++ ls)
  end.
(** [splits[i].copy_(tensors[i].view({-1}))] *)
Fixpoint fill_splits (h : heap) (t0 : Tensor) (tensors : list Tensor) : outcome (list D) :=
  match tensors with
  | [] => Ret []
  | t :: tensors =>
      let? _ := viewed t in
      let? l := copied [numel t] (scalar_type t0) [numel t] (scalar_type t) (read h t) in
      let? ls := fill_splits h t0 tensors in
      Ret (l ++ ls)
  end.
(** [tensors[i].copy_(flat[i])] *)
Fixpoint copy_flat (t0 : Tensor) (tensors : list Tensor) (flat : list D) : M rstate unit :=
  match tensors with
  | [] => ret tt
  | t :: tensors =>
      let row := Z.to_nat (numel t0) in
      let! l := lift (copied (tsizes (base t)) (scalar_type t) (tsizes (base t0)) (scalar_type t0) (take row flat)) in
      do! write t l in
      copy_flat t0 tensors (drop row flat)
  end.
(** [tensors[i].view({-1}).copy_(splits[i])] *)
Fixpoint copy_splits (t0 : Tensor) (tensors : list Tensor) (flat : list D) : M rstate unit :=
  match tensors with
  | [] => ret tt
  | t :: tensors =>
      do! lift (viewed t) in
      let! l := lift (copied [numel t] (scalar_type t) [numel t] (scalar_type t0) (take (Z.to_nat (numel t)) flat)) in
      do! write t l in
      copy_splits t0 tensors (drop (Z.to_nat (numel t)) flat)
  end.

(** The new tensor of newLikeFlat. *)
Definition flat_like (tensors : list Tensor) : outcome (list D) :=
  let? sizes := newLikeFlat (map base tensors) in
  Ret (at_empty (Z.to_nat (fold_right Z.mul 1 sizes))).

Lemma copy_flat_returns t0 ts : forall flat st, fst (copy_flat t0 ts flat st) <> Block.
Proof.
  induction ts as [|t ts IH]; intros flat st; [done|]. cbn. unfold bind, lift, copied, ocheck. destruct (copy_shapes _ _); cbn; [|done].
  apply IH.
Qed.
Lemma copy_splits_returns t0 ts : forall flat st, fst (copy_splits t0 ts flat st) <> Block.
Proof.
  induction ts as [|t ts IH]; intros flat st; [done|]. cbn. unfold bind, lift, viewed, copied, ocheck.
  destruct (viewable t); cbn; [|done]. destruct (copy_shapes _ _); cbn; [|done]. apply IH.
Qed.
End heap.
