(* ===== verification/ProcessGroupMPI.v ===== *)
(** * ProcessGroupMPI

    Models csrc/c10d/distributed/c10d/ProcessGroupMPI.cpp and
    ProcessGroupMPI.hpp: the checks and the work entry of every collective, the
    worker thread with its queue and condition variables, destroy(), the
    asynchronous point-to-point operations, and the creation of groups.

    The functions of MPI and of ATen are parameters. *)

From stdpp Require Import base option list gmap strings.
From Stdlib Require Import ZArith Lia.
From S2P Require Import Prelude NetUtils ProcessGroup Tensors.

(** ** Tables *)

Inductive MPI_Op : Type := MPI_MIN | MPI_MAX | MPI_SUM | MPI_PROD.
Inductive MPI_Datatype : Type :=
  | MPI_UNSIGNED_CHAR | MPI_CHAR | MPI_DOUBLE | MPI_FLOAT | MPI_INT | MPI_LONG | MPI_SHORT.

Definition mpiOp_at (op : ReduceOp) : outcome MPI_Op :=
  match op with
  | MIN => Ret MPI_MIN | MAX => Ret MPI_MAX | SUM => Ret MPI_SUM | PRODUCT => Ret MPI_PROD
  | _ => Throw (OutOfRange "map::at")
  end.
Definition mpiDatatype_at (t : ScalarType) : outcome MPI_Datatype :=
  match t with
  | kByte => Ret MPI_UNSIGNED_CHAR | kChar => Ret MPI_CHAR | kDouble => Ret MPI_DOUBLE | kFloat => Ret MPI_FLOAT
  | kInt => Ret MPI_INT | kLong => Ret MPI_LONG | kShort => Ret MPI_SHORT
  | kHalf | kOther _ => Throw (OutOfRange "map::at")
  end.

Definition MPI_SUCCESS : Z := 0.
Definition MPI_CHECK {S} (mpiStatus : Z) : M S unit :=
  assert_ (mpiStatus =? MPI_SUCCESS) (RuntimeError "MPI error in: ").

(** The buffers, counts and arguments of a collective MPI call; no send buffer
    is MPI_IN_PLACE or nullptr, no receive buffer is nullptr. *)
Inductive mpi_op (D : Type) : Type :=
  | MPI_Bcast (buf : list D) (count : Z) (t : MPI_Datatype) (root : Z)
  | MPI_Allreduce (buf : list D) (count : Z) (t : MPI_Datatype) (op : MPI_Op)
  | MPI_Reduce (sendbuf recvbuf : option (list D)) (count : Z) (t : MPI_Datatype) (op : MPI_Op) (root : Z)
  | MPI_Allgather (sendbuf : list D) (sendcount : Z) (st : MPI_Datatype) (recvbuf : list D) (recvcount : Z) (rt : MPI_Datatype)
  | MPI_Gather (sendbuf : list D) (sendcount : Z) (st : MPI_Datatype) (recvbuf : option (list D)) (recvcount : Z) (rt : MPI_Datatype) (root : Z)
  | MPI_Scatter (sendbuf : option (list D)) (sendcount : Z) (st : MPI_Datatype) (recvbuf : list D) (recvcount : Z) (rt : MPI_Datatype) (root : Z)
  | MPI_Alltoall (sendbuf : list D) (sendcount : Z) (st : MPI_Datatype) (recvbuf : list D) (recvcount : Z) (rt : MPI_Datatype)
  | MPI_Alltoallv (sendbuf : list D) (sendcounts sdispls : list Z) (st : MPI_Datatype)
                  (recvbuf : list D) (recvcounts rdispls : list Z) (rt : MPI_Datatype)
  | MPI_Barrier.
Arguments MPI_Bcast {D}. Arguments MPI_Allreduce {D}. Arguments MPI_Reduce {D}. Arguments MPI_Allgather {D}.
Arguments MPI_Gather {D}. Arguments MPI_Scatter {D}. Arguments MPI_Alltoall {D}. Arguments MPI_Alltoallv {D}.
Arguments MPI_Barrier {D}.

(** The run function of an entry: what its closure captures. *)
Inductive run_fn : Type :=
  | RBroadcast (rootRank : Z)
  | RAllreduce (reduceOp : ReduceOp)
  | RReduce (reduceOp : ReduceOp) (rootRank : Z)
  | RAllgather
  | RGather (rootRank : Z)
  | RScatter (rootRank : Z)
  | RAlltoall
  | RAlltoallv (outputSplitSizes inputSplitSizes : list Z)
  | RAlltoallTensors
  | RBarrier.
(** src and dst are copies of the vectors of handles. *)
Record WorkEntry := mkEntry { src : list Tensor; dst : list Tensor; run : run_fn }.

Section mpi.
Context {D W : Type} `{aten : ATen D}.
(** MPIX_CUDA_AWARE_SUPPORT is defined / MPIX_Query_cuda_support(). *)
Variable MPIX_CUDA_AWARE_SUPPORT : bool.
Variable MPIX_Query_cuda_support : Z.
(** A collective call of MPI: its status and what it leaves in the receive
    buffer. *)
Variable mpi_collective : mpi_op D -> M W (Z * list D).

Variable rank_ size_ : Z.

(** ** Checks *)

Definition cudaAwareMpiCheck : bool :=
  if MPIX_CUDA_AWARE_SUPPORT then if MPIX_Query_cuda_support =? 1 then true else false else false.

Definition checkSingleTensorHelper (tensor : Tensor) : outcome unit :=
  check! is_contiguous tensor else RuntimeError "input tensor has to be contiguous" in
  check! negb (is_sparse tensor) else RuntimeError "input tensor has to be dense" in
  ocheck (negb (is_cuda tensor && negb cudaAwareMpiCheck))
    (RuntimeError "CUDA tensor detected and the MPI used doesn't have CUDA-aware MPI support").
Definition checkSingleTensor (tensors : list Tensor) : outcome unit :=
  check! Nat.eqb (length tensors) 1 else RuntimeError "MPI process group does not support multi-GPU collectives" in
  let? t := at_index tensors 0 in
  checkSingleTensorHelper t.
Fixpoint checkSameSizeAndType (tensor : Tensor) (tensors : list Tensor) : outcome unit :=
  match tensors with
  | [] => Ret tt
  | t :: tensors =>
      check! (numel t =? numel tensor) && bool_decide (type t = type tensor)
        else RuntimeError "Tensors are not equal in size or data type" in
      let? _ := checkSingleTensorHelper t in
      checkSameSizeAndType tensor tensors
  end.

(** ** The collectives: checks and entry *)

Definition broadcast (tensors : list Tensor) (rootRank : Z) : outcome WorkEntry :=
  let? _ := checkSingleTensor tensors in
  Ret (mkEntry tensors [] (RBroadcast rootRank)).
Definition allreduce (tensors : list Tensor) (reduceOp : ReduceOp) : outcome WorkEntry :=
  let? _ := checkSingleTensor tensors in
  Ret (mkEntry tensors [] (RAllreduce reduceOp)).
Definition reduce (tensors : list Tensor) (reduceOp : ReduceOp) (rootRank : Z) : outcome WorkEntry :=
  let? _ := checkSingleTensor tensors in
  Ret (mkEntry tensors [] (RReduce reduceOp rootRank)).

Definition allgather (outputTensors : list (list Tensor)) (inputTensors : list Tensor) : outcome WorkEntry :=
  let? _ := checkSingleTensor inputTensors in
  check! Nat.eqb (length outputTensors) 1 else RuntimeError "MPI process group only supports a single tensor op" in
  let? out0 := at_index outputTensors 0 in
  check! uint64 size_ =? Z.of_nat (length out0)
    else RuntimeError "All gather: number of output tensors should equal to the world size" in
  let? in0 := at_index inputTensors 0 in
  let? _ := checkSameSizeAndType in0 out0 in
  Ret (mkEntry inputTensors out0 RAllgather).

Definition gather (outputTensors : list (list Tensor)) (inputTensors : list Tensor) (rootRank : Z) : outcome WorkEntry :=
  let? _ := checkSingleTensor inputTensors in
  if negb (rank_ =? rootRank) then
    check! Nat.eqb (length outputTensors) 0
      else RuntimeError "Gather: number of output tensors should be 0 for non-root" in
    Ret (mkEntry inputTensors [] (RGather rootRank))
  else
    check! Nat.eqb (length outputTensors) 1 else RuntimeError "Gather: multi-GPU collective is not supported" in
    let? out0 := at_index outputTensors 0 in
    check! uint64 size_ =? Z.of_nat (length out0)
      else RuntimeError "Gather: number of output tensors should equal to the world size" in
    let? in0 := at_index inputTensors 0 in
    let? _ := checkSameSizeAndType in0 out0 in
    Ret (mkEntry inputTensors out0 (RGather rootRank)).

Definition scatter (outputTensors : list Tensor) (inputTensors : list (list Tensor)) (rootRank : Z) : outcome WorkEntry :=
  let? _ := checkSingleTensor outputTensors in
  if negb (rank_ =? rootRank) then
    check! Nat.eqb (length inputTensors) 0
      else RuntimeError "Scatter: number of input tensors should be 0 for non-root" in
    Ret (mkEntry [] outputTensors (RScatter rootRank))
  else
    check! Nat.eqb (length inputTensors) 1 else RuntimeError "Scatter: multi-GPU collective is not supported" in
    let? in0 := at_index inputTensors 0 in
    check! uint64 size_ =? Z.of_nat (length in0)
      else RuntimeError "Scatter: number of input tensors should equal to the world size" in
    let? out0 := at_index outputTensors 0 in
    let? _ := checkSameSizeAndType out0 in0 in
    Ret (mkEntry in0 outputTensors (RScatter rootRank)).

(** [tensor.size(0)]: ATen throws for a tensor without dimensions. *)
Definition size0 (t : Tensor) : outcome Z :=
  match tsizes (base t) with [] => Throw (CheckFailed "Dimension specified as 0 but tensor has no dimensions") | d :: _ => Ret d end.
(** The check of Utils.hpp; the size is read after the test of the number of
    splits. *)
Definition checkSplitSizes_of (split_sizes : list Z) (t : Tensor) : outcome unit :=
  match size0 t with
  | Ret dim0 => checkSplitSizes split_sizes dim0 size_
  | _ =>
      check! Nat.eqb (length split_sizes) 0 || (Z.of_nat (length split_sizes) =? uint64 size_)
        else CheckFailed "Number of tensor splits not equal to group size" in
      let? _ := size0 t in Ret tt
  end.
Definition alltoall_base (outputTensor inputTensor : Tensor) (outputSplitSizes inputSplitSizes : list Z) : outcome WorkEntry :=
  let? _ := checkSingleTensorHelper inputTensor in
  let? _ := checkSingleTensorHelper outputTensor in
  if Nat.eqb (length outputSplitSizes) 0 && Nat.eqb (length inputSplitSizes) 0 then
    check! (numel outputTensor =? numel inputTensor) && bool_decide (type outputTensor = type inputTensor)
      else CheckFailed "Tensors are not equal in size or data type" in
    let? dim0 := size0 outputTensor in
    check! Z.rem dim0 size_ =? 0 else CheckFailed "Tensor's dim 0 does not divide equally across group size" in
    Ret (mkEntry [inputTensor] [outputTensor] RAlltoall)
  else
    let? _ := checkSplitSizes_of inputSplitSizes inputTensor in
    let? _ := checkSplitSizes_of outputSplitSizes outputTensor in
    Ret (mkEntry [inputTensor] [outputTensor] (RAlltoallv outputSplitSizes inputSplitSizes)).

Definition alltoall (outputTensors inputTensors : list Tensor) : outcome WorkEntry :=
  check! Z.of_nat (length inputTensors) =? uint64 size_ else CheckFailed "Number of input tensors are not equal to group size" in
  check! Z.of_nat (length outputTensors) =? uint64 size_ else CheckFailed "Number of output tensors are not equal to group size" in
  Ret (mkEntry inputTensors outputTensors RAlltoallTensors).
Definition barrier : outcome WorkEntry := Ret (mkEntry [] [] RBarrier).

(** The operations that are not supported. *)
Definition allreduce_coalesced : outcome WorkEntry := Throw (RuntimeError "allreduce_coalesced is currently not supported with MPI").
Definition allgather_coalesced : outcome WorkEntry := Throw (RuntimeError "ProcessGroupMPI does not support allgather_coalesced").
Definition reduce_scatter : outcome WorkEntry := Throw (RuntimeError "ProcessGroupMPI does not support reduce_scatter").
Definition allgather_base : outcome WorkEntry := Throw (RuntimeError "no support for allgather_base in MPI process group").

(** ** Running an entry *)

Abbreviation heap := (heap_of D).
Abbreviation rstate := (rstate_of D W).
Definition group : nat := Z.to_nat size_.
Definition lengths_of (split_sizes : list Z) (t : Tensor) : outcome (list Z * list Z * Z) :=
  let? dim0 := size0 t in
  computeLengthsAndOffsets split_sizes dim0 (numel t) group.

(** What happens before the MPI call. *)
Definition prepare (e : WorkEntry) (h : heap) : outcome (mpi_op D) :=
  match run e with
  | RBroadcast rootRank =>
      let? data := at_index (src e) 0 in
      let? t := mpiDatatype_at (scalar_type data) in
      Ret (MPI_Bcast (read h data) (int32 (numel data)) t rootRank)
  | RAllreduce reduceOp =>
      let? data := at_index (src e) 0 in
      let? t := mpiDatatype_at (scalar_type data) in
      let? op := mpiOp_at reduceOp in
      Ret (MPI_Allreduce (read h data) (int32 (numel data)) t op)
  | RReduce reduceOp rootRank =>
      let? data := at_index (src e) 0 in
      let sendbuf := if rank_ =? rootRank then None else Some (read h data) in
      let recvbuf := if rank_ =? rootRank then Some (read h data) else None in
      let? t := mpiDatatype_at (scalar_type data) in
      let? op := mpiOp_at reduceOp in
      Ret (MPI_Reduce sendbuf recvbuf (int32 (numel data)) t op rootRank)
  | RAllgather =>
      let? data := at_index (src e) 0 in
      let? flat := flat_like (dst e) in
      let? t := mpiDatatype_at (scalar_type data) in
      Ret (MPI_Allgather (read h data) (int32 (numel data)) t flat (int32 (numel data)) t)
  | RGather rootRank =>
      let? data := at_index (src e) 0 in
      let? recvbuf := if rank_ =? rootRank then let? flat := flat_like (dst e) in Ret (Some flat) else Ret None in
      let? t := mpiDatatype_at (scalar_type data) in
      Ret (MPI_Gather (read h data) (int32 (numel data)) t recvbuf (int32 (numel data)) t rootRank)
  | RScatter rootRank =>
      let? data := at_index (dst e) 0 in
      let? sendbuf :=
        if rank_ =? rootRank then
          let? _ := flat_like (src e) in
          let? t0 := at_index (src e) 0 in
          let? flat := fill_flat h t0 (src e) in Ret (Some flat)
        else Ret None in
      let? t := mpiDatatype_at (scalar_type data) in
      Ret (MPI_Scatter sendbuf (int32 (numel data)) t (read h data) (int32 (numel data)) t rootRank)
  | RAlltoall =>
      let? srcdata := at_index (src e) 0 in
      let? dstdata := at_index (dst e) 0 in
      let? st := mpiDatatype_at (scalar_type srcdata) in
      let? rt := mpiDatatype_at (scalar_type dstdata) in
      Ret (MPI_Alltoall (read h srcdata) (int32 (Z.quot (numel srcdata) size_)) st
                        (read h dstdata) (int32 (Z.quot (numel dstdata) size_)) rt)
  | RAlltoallv outputSplitSizes inputSplitSizes =>
      let? srcdata := at_index (src e) 0 in
      let? dstdata := at_index (dst e) 0 in
      let? s := lengths_of inputSplitSizes srcdata in
      let? r := lengths_of outputSplitSizes dstdata in
      let? st := mpiDatatype_at (scalar_type srcdata) in
      let? rt := mpiDatatype_at (scalar_type dstdata) in
      Ret (MPI_Alltoallv (read h srcdata) s.1.1 s.1.2 st (read h dstdata) r.1.1 r.1.2 rt)
  | RAlltoallTensors =>
      let? s := computeLengthsAndOffsets_tensors (map numel (src e)) group in
      let? r := computeLengthsAndOffsets_tensors (map numel (dst e)) group in
      let? src0 := at_index (src e) 0 in
      let? dst0 := at_index (dst e) 0 in
      let? srcFlatData := fill_splits h src0 (src e) in
      let? st := mpiDatatype_at (scalar_type src0) in
      let? rt := mpiDatatype_at (scalar_type dst0) in
      Ret (MPI_Alltoallv srcFlatData s.1.1 s.1.2 st (at_empty (Z.to_nat r.2)) r.1.1 r.1.2 rt)
  | RBarrier => Ret MPI_Barrier
  end.

(** What happens after it: [buf] is what the receive buffer holds. *)
Definition write_first (tensors : list Tensor) (buf : list D) : M rstate unit :=
  let! data := lift (at_index tensors 0) in write data buf.
Definition deliver (e : WorkEntry) (buf : list D) : M rstate unit :=
  match run e with
  | RBroadcast _ | RAllreduce _ => write_first (src e) buf
  | RReduce _ rootRank => if rank_ =? rootRank then write_first (src e) buf else ret tt
  | RAllgather => let! t0 := lift (at_index (dst e) 0) in copy_flat t0 (dst e) buf
  | RGather rootRank =>
      if rank_ =? rootRank then let! t0 := lift (at_index (dst e) 0) in copy_flat t0 (dst e) buf else ret tt
  | RScatter _ | RAlltoall | RAlltoallv _ _ => write_first (dst e) buf
  | RAlltoallTensors => let! t0 := lift (at_index (dst e) 0) in copy_splits t0 (dst e) buf
  | RBarrier => ret tt
  end.

Definition run_entry (e : WorkEntry) : M rstate unit :=
  let! h := gets fst in
  let! op := lift (prepare e h) in
  let! r := in_world (mpi_collective op) in
  do! MPI_CHECK r.1 in
  deliver e r.2.
#[local] Arguments run_entry : simpl never.

(** ** The queue and the worker thread *)

Inductive worker_pc : Type :=
  | WTest                                   (* about to test stop_ and the queue, under the lock *)
  | WWaiting                                (* in queueProduceCV_.wait *)
  | WPopped (e : WorkEntry) (id : nat)      (* before queueConsumeCV_.notify_one *)
  | WRunning (e : WorkEntry) (id : nat)
  | WExited.
(** The thread that runs destroy(). *)
Inductive destroyer_pc : Type :=
  | DNone
  | DTest                                   (* about to test the queue, under the lock *)
  | DWaiting                                (* in queueConsumeCV_.wait *)
  | DNotify                                 (* stop_ is set; before notify_all *)
  | DJoin
  | DDone.

#[global] Instance destroyer_pc_eq_dec : EqDecision destroyer_pc.
Proof. solve_decision. Defined.

(** [notifies_]: calls of enqueue that are about to notify.  Work objects are
    named by their position in [works_].  [issued_], [finished_] and
    [issued_at_stop_] record the history. *)
Record pgm := mkPG {
  queue_ : list (WorkEntry * nat);
  stop_ : bool;
  works_ : list Work;
  state_ : rstate;
  worker_ : worker_pc;
  destroyer_ : destroyer_pc;
  notifies_ : nat;
  issued_ : list WorkEntry;
  finished_ : list nat;
  issued_at_stop_ : nat;
}.
Definition ProcessGroupMPI_construct (s0 : rstate) : pgm := mkPG [] false [] s0 WTest DNone 0 [] [] 0.

Definition set_worker (w : worker_pc) (s : pgm) : pgm :=
  mkPG (queue_ s) (stop_ s) (works_ s) (state_ s) w (destroyer_ s) (notifies_ s) (issued_ s) (finished_ s) (issued_at_stop_ s).
Definition set_destroyer (d : destroyer_pc) (s : pgm) : pgm :=
  mkPG (queue_ s) (stop_ s) (works_ s) (state_ s) (worker_ s) d (notifies_ s) (issued_ s) (finished_ s) (issued_at_stop_ s).

Definition wake_worker (w : worker_pc) : worker_pc := match w with WWaiting => WTest | w => w end.
Definition wake_destroyer (d : destroyer_pc) : destroyer_pc := match d with DWaiting => DTest | d => d end.

(** enqueue up to the unlocking, and its notify_one. *)
Definition enqueue (e : WorkEntry) (s : pgm) : pgm :=
  mkPG (queue_ s ++ [(e, length (works_ s))]) (stop_ s) (works_ s ++ [new_Work (-1) UNKNOWN false]) (state_ s)
    (worker_ s) (destroyer_ s) (S (notifies_ s)) (issued_ s ++ [e]) (finished_ s) (issued_at_stop_ s).
Definition enqueue_notify (s : pgm) : option pgm :=
  match notifies_ s with
  | O => None
  | S n => Some (mkPG (queue_ s) (stop_ s) (works_ s) (state_ s) (wake_worker (worker_ s)) (destroyer_ s) n
                      (issued_ s) (finished_ s) (issued_at_stop_ s))
  end.

(** The exception that the handler of runLoop stores; [Block]: the MPI call does
    not return. *)
Definition run_result (o : outcome unit) : option (option exn) :=
  match o with Ret _ => Some None | Throw e => Some (Some e) | Block => None end.

(** One step of runLoop. *)
Definition runLoop_step (s : pgm) : option pgm :=
  match worker_ s with
  | WTest =>
      if stop_ s then Some (set_worker WExited s)
      else
        match queue_ s with
        | [] => Some (set_worker WWaiting s)
        | (e, id) :: queue =>
            Some (mkPG queue (stop_ s) (works_ s) (state_ s) (WPopped e id) (destroyer_ s) (notifies_ s)
                       (issued_ s) (finished_ s) (issued_at_stop_ s))
        end
  | WWaiting | WExited => None
  | WPopped e id => Some (set_worker (WRunning e id) (set_destroyer (wake_destroyer (destroyer_ s)) s))
  | WRunning e id =>
      let '(o, st) := run_entry e (state_ s) in
      match run_result o with
      | None => None
      | Some exception =>
          Some (mkPG (queue_ s) (stop_ s) (alter (set_finished exception) id (works_ s)) st WTest (destroyer_ s)
                     (notifies_ s) (issued_ s) (finished_ s ++ [id]) (issued_at_stop_ s))
      end
  end.

(** One step of destroy(). *)
Definition destroy_step (s : pgm) : option pgm :=
  match destroyer_ s with
  | DNone | DWaiting | DDone => None
  | DTest =>
      match queue_ s with
      | [] => Some (mkPG [] true (works_ s) (state_ s) (worker_ s) DNotify (notifies_ s) (issued_ s) (finished_ s) (length (issued_ s)))
      | _ => Some (set_destroyer DWaiting s)
      end
  | DNotify => Some (set_destroyer DJoin (set_worker (wake_worker (worker_ s)) s))
  | DJoin => match worker_ s with WExited => Some (set_destroyer DDone s) | _ => None end
  end.

(** What can happen: the threads of the object take a step; a caller enqueues or
    starts destroy(); a waiting thread wakes up without a reason. *)
Inductive pg_event : Type :=
  | EWorker | EDestroyer | ENotify
  | EEnqueue (e : WorkEntry) | EDestroy | ESpuriousWorker | ESpuriousDestroyer.
Definition pg_step (ev : pg_event) (s : pgm) : option pgm :=
  match ev with
  | EWorker => runLoop_step s
  | EDestroyer => destroy_step s
  | ENotify => enqueue_notify s
  | EEnqueue e => Some (enqueue e s)
  | EDestroy => match destroyer_ s with DNone => Some (set_destroyer DTest s) | _ => None end
  | ESpuriousWorker => match worker_ s with WWaiting => Some (set_worker WTest s) | _ => None end
  | ESpuriousDestroyer => match destroyer_ s with DWaiting => Some (set_destroyer DTest s) | _ => None end
  end.
Fixpoint pg_run (evs : list pg_event) (s : pgm) : option pgm :=
  match evs with [] => Some s | ev :: evs => match pg_step ev s with Some s => pg_run evs s | None => None end end.

(** The reference: entries run one after the other. *)
Fixpoint run_sync (es : list WorkEntry) (st : rstate) : list (option exn) * rstate :=
  match es with
  | [] => ([], st)
  | e :: es =>
      let '(o, st) := run_entry e st in
      let '(rs, st) := run_sync es st in
      (match o with Throw x => Some x | _ => None end :: rs, st)
  end.

#[local] Set Default Proof Using "Type".
#[local] Set Proof Using Clear Unused.
#[local] Set Warnings "-clear-no-such-hyp".

Definition running (w : worker_pc) : list (WorkEntry * nat) :=
  match w with WPopped e id | WRunning e id => [(e, id)] | _ => [] end.

Definition numbered (es : list WorkEntry) : list (WorkEntry * nat) := zip es (seq 0 (length es)).
#[local] Arguments numbered : simpl never.
#[local] Arguments new_Work : simpl never.

Record queue_inv (s0 : rstate) (s : pgm) : Prop := mkQInv {
  qi_order : drop (length (finished_ s)) (numbered (issued_ s)) = running (worker_ s) ++ queue_ s;
  qi_finished : finished_ s = seq 0 (length (finished_ s));
  qi_works : works_ s = map (fun x => set_finished x (new_Work (-1) UNKNOWN false)) (run_sync (take (length (finished_ s)) (issued_ s)) s0).1 ++
             replicate (length (issued_ s) - length (finished_ s)) (new_Work (-1) UNKNOWN false);
  qi_state : state_ s = (run_sync (take (length (finished_ s)) (issued_ s)) s0).2;
  qi_le : (length (finished_ s) <= length (issued_ s))%nat;
  qi_waiting : worker_ s = WWaiting -> (queue_ s = [] \/ (0 < notifies_ s)%nat) /\ (stop_ s = true -> destroyer_ s = DNotify);
  qi_stop : stop_ s = true <-> destroyer_ s = DNotify \/ destroyer_ s = DJoin \/ destroyer_ s = DDone;
  qi_exited : worker_ s = WExited -> stop_ s = true;
  qi_dwaiting : destroyer_ s = DWaiting -> queue_ s <> [] \/ exists e id, worker_ s = WPopped e id;
  qi_done : destroyer_ s = DDone -> worker_ s = WExited;
  qi_at_stop : stop_ s = true -> (length (finished_ s) + length (running (worker_ s)) = issued_at_stop_ s)%nat;
}.

Lemma numbered_snoc es e : numbered (es ++ [e]) = numbered es ++ [(e, length es)].
Proof.
  unfold numbered. rewrite length_app, Nat.add_1_r, seq_S, zip_with_app by (by rewrite length_seq). done.
Qed.
Lemma numbered_length es : length (numbered es) = length es.
Proof. unfold numbered. rewrite length_zip_with, length_seq. lia. Qed.
Lemma numbered_lookup es i p : numbered es !! i = Some p -> es !! i = Some p.1 /\ p.2 = i.
Proof. unfold numbered. destruct p. intros [H1 [-> _]%lookup_seq]%lookup_zip_Some. done. Qed.

Lemma run_sync_app es es' st : run_sync (es ++ es') st =
  let '(rs, st) := run_sync es st in let '(rs', st) := run_sync es' st in (rs ++ rs', st).
Proof.
  revert st. induction es as [|e es IH]; intros st; cbn; [by destruct (run_sync es' st)|].
  destruct (run_entry e st) as [o st1]. rewrite IH. destruct (run_sync es st1) as [rs st2]. by destruct (run_sync es' st2).
Qed.
Lemma run_sync_length es st : length (run_sync es st).1 = length es.
Proof.
  revert st. induction es as [|e es IH]; intros st; [done|]. cbn. destruct (run_entry e st) as [o st1].
  specialize (IH st1). destruct (run_sync es st1). cbn in *. by f_equal.
Qed.

Lemma enqueue_inv s0 e s : queue_inv s0 s -> queue_inv s0 (enqueue e s).
Proof.
  intros [Ho Hf Hw Hs Hle Hwait Hstop Hex Hdw Hdn Hat]. unfold enqueue. split; cbn; try done.
  - rewrite numbered_snoc, drop_app_le by (by rewrite numbered_length). rewrite Ho, <- app_assoc. do 3 f_equal.
    rewrite Hw, length_app, length_map, run_sync_length, length_take, length_replicate. do 2 f_equal. lia.
  - rewrite take_app_le by done. rewrite Hw, <- app_assoc. f_equal. rewrite length_app. cbn.
    replace (length (issued_ s) + 1 - length (finished_ s))%nat with ((length (issued_ s) - length (finished_ s)) + 1)%nat by lia.
    by rewrite replicate_add.
  - by rewrite take_app_le.
  - rewrite length_app. lia.
  - intros H. split; [right; lia|]. by apply Hwait.
  - intros H. left. by destruct (queue_ s).
Qed.

Lemma notify_inv s0 s s' : queue_inv s0 s -> enqueue_notify s = Some s' -> queue_inv s0 s'.
Proof.
  intros [Ho Hf Hw Hs Hle Hwait Hstop Hex Hdw Hdn Hat]. unfold enqueue_notify. destruct (notifies_ s) as [|n]; [done|].
  intros [= <-]. destruct (worker_ s) eqn:E; split; cbn; rewrite ?E; try done; cbn; try naive_solver.
Qed.

Lemma set_destroyer_inv s0 s d : queue_inv s0 s -> (stop_ s = true <-> d = DNotify \/ d = DJoin \/ d = DDone) ->
  (worker_ s = WWaiting -> stop_ s = true -> d = DNotify) ->
  (d = DWaiting -> queue_ s <> [] \/ exists e id, worker_ s = WPopped e id) -> (d = DDone -> worker_ s = WExited) ->
  queue_inv s0 (set_destroyer d s).
Proof. intros [Ho Hf Hw Hs Hle Hwait Hstop Hex Hdw Hdn Hat] H1 H2 H3 H4. split; cbn; try done. naive_solver. Qed.

Lemma set_worker_inv s0 s w : queue_inv s0 s -> running w = running (worker_ s) -> w <> WWaiting ->
  (w = WExited -> stop_ s = true) -> (destroyer_ s = DDone -> w = WExited) ->
  (destroyer_ s = DWaiting -> queue_ s <> [] \/ exists e id, w = WPopped e id) ->
  queue_inv s0 (set_worker w s).
Proof. intros [Ho Hf Hw Hs Hle Hwait Hstop Hex Hdw Hdn Hat] H1 H2 H3 H4 H5. split; cbn; rewrite ?H1; try done. Qed.

Lemma finish_entry_inv s0 s e id x o st : queue_inv s0 s -> worker_ s = WRunning e id -> run_entry e (state_ s) = (o, st) -> run_result o = Some x ->
  queue_inv s0 (mkPG (queue_ s) (stop_ s) (alter (set_finished x) id (works_ s)) st WTest (destroyer_ s) (notifies_ s) (issued_ s)
                     (finished_ s ++ [id]) (issued_at_stop_ s)).
Proof.
  intros [Ho Hf Hw Hs Hle Hwait Hstop Hex Hdw Hdn Hat] E Er Ex. rewrite E in *. cbn [running app] in Ho.
  set (k := length (finished_ s)) in *.
  assert (Hk : numbered (issued_ s) !! k = Some (e, id)).
  { rewrite <- (Nat.add_0_r k), <- lookup_drop, Ho. done. }
  destruct (numbered_lookup _ _ _ Hk) as [Hi Hid]. cbn in Hi, Hid. subst id. pose proof (lookup_lt_Some _ _ _ Hi) as Hlt.
  assert (Hx : match o with Throw y => Some y | _ => None end = x) by (destruct o; by simplify_eq/=).
  assert (Hsync : run_sync (take (S k) (issued_ s)) s0 = ((run_sync (take k (issued_ s)) s0).1 ++ [x], st)).
  { rewrite (take_S_r _ _ _ Hi), run_sync_app. destruct (run_sync (take k (issued_ s)) s0) as [rs st1] eqn:Es. cbn in Hs |- *. subst st1.
    by rewrite Er, Hx. }
  split; cbn; rewrite ?length_app, ?Nat.add_1_r; fold k; try done; try lia.
  - assert (Hd : drop (S k) (numbered (issued_ s)) = queue_ s) by (pose proof (drop_S _ _ _ Hk); congruence). by rewrite Hd.
  - rewrite Hf at 1. by rewrite <- Nat.add_1_r, seq_app.
  - rewrite Hsync. cbn. rewrite map_app, <- app_assoc. cbn. rewrite Hw.
    assert (Hl : length (map (fun x0 => set_finished x0 (new_Work (-1) UNKNOWN false)) (run_sync (take k (issued_ s)) s0).1) = k)
      by (rewrite length_map, run_sync_length, length_take; lia).
    replace (length (issued_ s) - k)%nat with (S (length (issued_ s) - S k)) by lia. cbn [replicate].
    replace k with (length (map (fun x0 => set_finished x0 (new_Work (-1) UNKNOWN false)) (run_sync (take k (issued_ s)) s0).1) + 0)%nat at 1 by lia.
    rewrite alter_app_r. done.
  - by rewrite Hsync.
  - intros H. destruct (Hdw H) as [?|(? & ? & ?)]; [by left|done].
  - intros H. by apply Hdn in H.
  - intros H. rewrite <- (Hat H). cbn. lia.
Qed.

Lemma runLoop_inv s0 s s' : queue_inv s0 s -> runLoop_step s = Some s' -> queue_inv s0 s'.
Proof.
  intros Hi. unfold runLoop_step. destruct (worker_ s) as [| |e id|e id|] eqn:E; [| done | | | done].
  - destruct (stop_ s) eqn:Es; [|destruct (queue_ s) as [|[e id] queue] eqn:Eq]; intros [= <-].
    + apply set_worker_inv; try done; [by rewrite E|]. intros [?|(? & ? & ?)]%(qi_dwaiting _ _ Hi); [by left|congruence].
    + destruct Hi as [Ho Hf Hw Hs Hle Hwait Hstop Hex Hdw Hdn Hat]. rewrite E, Eq, Es in *.
      split; cbn; rewrite ?Eq, ?Es; try done; [split; [by left|done]| |]; intros H.
      * destruct (Hdw H) as [?|(? & ? & ?)]; done.
      * by apply Hdn in H.
    + destruct Hi as [Ho Hf Hw Hs Hle Hwait Hstop Hex Hdw Hdn Hat]. rewrite E, Eq, Es in *.
      split; cbn; rewrite ?Es; try done; intros H; [right; by eexists _, _|by apply Hdn in H].
  - intros [= <-]. apply set_worker_inv; cbn; try done; [| | |].
    + apply set_destroyer_inv; [done| | | |].
      * rewrite (qi_stop _ _ Hi). by destruct (destroyer_ s); cbn; naive_solver.
      * congruence.
      * by destruct (destroyer_ s).
      * intros H. apply (qi_done _ _ Hi). by destruct (destroyer_ s).
    + by rewrite E.
    + intros H. assert (destroyer_ s = DDone) as Hd%(qi_done _ _ Hi) by (by destruct (destroyer_ s)). congruence.
    + by destruct (destroyer_ s).
  - destruct (run_entry e (state_ s)) as [o st] eqn:Er. destruct (run_result o) as [x|] eqn:Ex; [|done]. intros [= <-].
    by eapply finish_entry_inv.
Qed.

Lemma destroy_inv s0 s s' : queue_inv s0 s -> destroy_step s = Some s' -> queue_inv s0 s'.
Proof.
  intros Hi. unfold destroy_step. destruct (destroyer_ s) eqn:E; [done| |done| | |done].
  - destruct (queue_ s) as [|p queue] eqn:Eq; intros [= <-].
    + destruct Hi as [Ho Hf Hw Hs Hle Hwait Hstop Hex Hdw Hdn Hat]. rewrite E, Eq in *. split; cbn; try done; [| |].
      * intros H. split; [by left|done].
      * naive_solver.
      * intros _. apply (f_equal length) in Ho. rewrite app_nil_r, length_drop, numbered_length in Ho. lia.
    + apply set_destroyer_inv; try done; [| |].
      * rewrite (qi_stop _ _ Hi), E. naive_solver.
      * intros Hw Hs. by apply (qi_waiting _ _ Hi) in Hw as [_ Hw%(fun H => H Hs)]; congruence.
      * rewrite Eq. by left.
  - intros [= <-]. pose proof Hi as [Ho Hf Hw Hs Hle Hwait Hstop Hex Hdw Hdn Hat].
    assert (stop_ s = true) as Hst by (apply Hstop; by left).
    assert (Hi' : queue_inv s0 (set_worker (wake_worker (worker_ s)) s)).
    { destruct (worker_ s) eqn:Ew; cbn; apply set_worker_inv; rewrite ?Ew, ?E; done || (intros; naive_solver). }
    apply set_destroyer_inv; cbn; try done; [naive_solver|by destruct (worker_ s)].
  - destruct (worker_ s) eqn:Ew; intros [= <-]. pose proof Hi as [Ho Hf Hw Hs Hle Hwait Hstop Hex Hdw Hdn Hat].
    apply set_destroyer_inv; try done; [|congruence]. rewrite Hstop, E. naive_solver.
Qed.

Lemma pg_step_inv s0 ev s s' : queue_inv s0 s -> pg_step ev s = Some s' -> queue_inv s0 s'.
Proof.
  intros Hi. destruct ev as [| | |e| | |]; cbn.
  - by apply runLoop_inv.
  - by apply destroy_inv.
  - by apply notify_inv.
  - intros [= <-]. by apply enqueue_inv.
  - destruct (destroyer_ s) eqn:E; intros [= <-]. apply set_destroyer_inv; try done; rewrite (qi_stop _ _ Hi), E; naive_solver.
  - destruct (worker_ s) eqn:E; intros [= <-]. apply set_worker_inv; rewrite ?E; try done.
    + by intros H%(qi_done _ _ Hi); congruence.
    + by intros [?|(? & ? & ?)]%(qi_dwaiting _ _ Hi); [left|congruence].
  - destruct (destroyer_ s) eqn:E; intros [= <-]. apply set_destroyer_inv; try done; rewrite (qi_stop _ _ Hi), E; naive_solver.
Qed.
Lemma pg_run_inv s0 evs : forall s s', queue_inv s0 s -> pg_run evs s = Some s' -> queue_inv s0 s'.
Proof.
  induction evs as [|ev evs IH]; cbn; intros s s' Hi; [congruence|]. destruct (pg_step ev s) as [s1|] eqn:E; [|done].
  apply IH. by eapply pg_step_inv.
Qed.
Lemma queue_construct_inv s0 : queue_inv s0 (ProcessGroupMPI_construct s0).
Proof. split; cbn; try done. naive_solver. Qed.

(** The entries of the enqueue calls of a run. *)
Definition enqueued (evs : list pg_event) : list WorkEntry := omap (fun ev => match ev with EEnqueue e => Some e | _ => None end) evs.

Lemma pg_step_issued ev s s' : pg_step ev s = Some s' -> issued_ s' = issued_ s ++ enqueued [ev].
Proof.
  destruct ev; cbn; unfold runLoop_step, destroy_step, enqueue_notify; intros H; repeat case_match; simplify_eq/=; by rewrite ?app_nil_r.
Qed.
Lemma pg_run_issued evs : forall s s', pg_run evs s = Some s' -> issued_ s' = issued_ s ++ enqueued evs.
Proof.
  induction evs as [|ev evs IH]; cbn; intros s s'; [intros [= <-]; by rewrite app_nil_r|].
  destruct (pg_step ev s) as [s1|] eqn:E; [|done]. intros H%IH. rewrite H, (pg_step_issued _ _ _ E), <- app_assoc. f_equal.
  cbn. by destruct ev.
Qed.

(** C23: The asynchronous queue is the sequential program: in every state that the
    threads can reach, with any interleaving of callers, worker, destroy() and
    wake-ups without a reason, there is a k such that exactly the first k
    enqueued entries have run, in the order of their enqueue calls; the tensors
    and MPI are in the state that running these k entries one after the other
    gives, their work objects are completed, with the exception that the run
    threw if it did, and the other work objects are not completed. *)
Theorem mpi_queue_is_sequential (s0 : rstate) (evs : list pg_event) (s : pgm) :
  pg_run evs (ProcessGroupMPI_construct s0) = Some s ->
  exists k, (k <= length (enqueued evs))%nat /\
    let '(results, st) := run_sync (take k (enqueued evs)) s0 in
    state_ s = st /\
    works_ s = map (fun x => set_finished x (new_Work (-1) UNKNOWN false)) results ++
               replicate (length (enqueued evs) - k) (new_Work (-1) UNKNOWN false).
Proof.
  intros H. pose proof (pg_run_inv s0 _ _ _ (queue_construct_inv s0) H) as [Ho Hf Hw Hs Hle _ _ _ _ _ _].
  apply pg_run_issued in H. cbn in H. rewrite H in *. exists (length (finished_ s)). split; [done|]. by destruct (run_sync _ s0).
Qed.

(** *** destroy() terminates *)

Definition internal (ev : pg_event) : Prop := match ev with EWorker | EDestroyer | ENotify => True | _ => False end.

Definition worker_rank (w : worker_pc) : nat :=
  match w with WWaiting | WExited => 0 | WTest => 1 | WRunning _ _ => 2 | WPopped _ _ => 5 end.
Definition destroyer_rank (d : destroyer_pc) : nat :=
  match d with DNone | DDone => 0 | DJoin => 1 | DNotify => 3 | DWaiting => 4 | DTest => 5 end.
Definition steps_left (s : pgm) : nat :=
  10 * length (queue_ s) + 2 * notifies_ s + worker_rank (worker_ s) + destroyer_rank (destroyer_ s).

Lemma internal_decreases ev s s' : internal ev -> pg_step ev s = Some s' -> (steps_left s' < steps_left s)%nat.
Proof.
  intros Hi. destruct ev; try done; cbn; unfold runLoop_step, destroy_step, enqueue_notify, steps_left; intros H;
    repeat case_match; simplify_eq/=; repeat match goal with H : _ s = _ |- _ => rewrite ?H; clear H end; cbn; try lia.
  all: repeat match goal with |- context [wake_worker ?w] => destruct w; cbn | |- context [wake_destroyer ?d] => destruct d; cbn end; try lia.
Qed.

Lemma internal_keeps ev s s' : internal ev -> pg_step ev s = Some s' -> destroyer_ s <> DNone ->
  (stop_ s = true -> issued_at_stop_ s = length (issued_ s)) ->
  destroyer_ s' <> DNone /\ (stop_ s' = true -> issued_at_stop_ s' = length (issued_ s')).
Proof.
  intros Hi. destruct ev; try done; cbn; unfold runLoop_step, destroy_step, enqueue_notify; intros H;
    repeat case_match; simplify_eq/=; try done; try congruence.
  all: intros Hd Hs; split; [by destruct (destroyer_ s)|auto || congruence].
Qed.

Hypothesis mpi_returns : forall op w, fst (mpi_collective op w) <> Block.

Lemma write_first_returns ts buf st : fst (write_first ts buf st) <> Block.
Proof. unfold write_first, at_index. by destruct ts. Qed.
#[local] Hint Resolve copy_flat_returns copy_splits_returns write_first_returns : core.

Lemma deliver_returns e buf st : fst (deliver e buf st) <> Block.
Proof.
  unfold deliver, bind, lift, at_index. repeat case_match; simplify_eq/=; auto; try done.
Qed.
Lemma obind_returns {A B} (o : outcome A) (k : A -> outcome B) : o <> Block -> (forall a, k a <> Block) -> obind o k <> Block.
Proof. by destruct o; cbn; auto. Qed.
Lemma ocheck_returns b e : ocheck b e <> Block.
Proof. by destruct b. Qed.
Lemma at_index_returns {A} (l : list A) i : at_index l i <> Block.
Proof. unfold at_index. by destruct (l !! i). Qed.
Lemma tables_return t op : mpiDatatype_at t <> Block /\ mpiOp_at op <> Block.
Proof. by destruct t, op. Qed.
Ltac returns :=
  repeat first [done | apply ocheck_returns | apply at_index_returns | apply (proj1 (tables_return _ SUM)) | apply (proj2 (tables_return kByte _))
               | apply obind_returns; [|intros ?] | assumption].

Lemma fill_flat_returns h t0 ts : fill_flat h t0 ts <> Block.
Proof. induction ts as [|t ts IH]; [done|]. cbn. unfold copied. returns. Qed.
Lemma fill_splits_returns h t0 ts : fill_splits h t0 ts <> Block.
Proof. induction ts as [|t ts IH]; [done|]. cbn. unfold viewed, copied. returns. Qed.
Lemma lengths_loop_returns f n : (forall i, f i <> Block) -> forall i o, lengths_loop f i n o <> Block.
Proof. intros Hf. induction n as [|n IH]; intros i o; [done|]. cbn. returns. by repeat case_match. Qed.
Lemma flat_like_returns ts : flat_like ts <> Block.
Proof. unfold flat_like, newLikeFlat. returns. Qed.
Lemma size0_returns t : size0 t <> Block.
Proof. unfold size0. by destruct (tsizes _). Qed.
Lemma lengths_return splits dim0 n g : computeLengthsAndOffsets splits dim0 n g <> Block.
Proof. apply lengths_loop_returns. intros i. returns. case_match; returns. Qed.
Lemma lengths_tensors_return numels n : computeLengthsAndOffsets_tensors numels n <> Block.
Proof. apply lengths_loop_returns. intros i. returns. Qed.
Lemma prepare_returns e h : prepare e h <> Block.
Proof.
  unfold prepare. destruct (run e); repeat first [progress returns | apply flat_like_returns | apply fill_flat_returns | apply size0_returns | apply lengths_return
    | apply lengths_tensors_return | apply fill_splits_returns | case_match].
Qed.
Lemma run_entry_returns e st : is_Some (run_result (fst (run_entry e st))).
Proof using mpi_returns.
  assert (H : fst (run_entry e st) <> Block).
  { unfold run_entry, bind, gets, lift, in_world, MPI_CHECK, assert_, ocheck. destruct (prepare e st.1) as [op|x|] eqn:Ep; cbn; [|done|].
    - pose proof (mpi_returns op st.2) as Hm. destruct (mpi_collective op st.2) as [[r|x|] w]; cbn in *; [|done..].
      destruct (r.1 =? MPI_SUCCESS); cbn; [|done]. apply deliver_returns.
    - by apply prepare_returns in Ep. }
  destruct (fst (run_entry e st)); cbn; [by eexists..|done].
Qed.

Lemma progress s0 s : queue_inv s0 s -> destroyer_ s <> DNone -> destroyer_ s <> DDone ->
  exists ev, internal ev /\ is_Some (pg_step ev s).
Proof using mpi_returns.
  intros Hi Hn Hd. destruct (worker_ s) as [| |e id|e id|] eqn:Ew.
  - exists EWorker. cbn. unfold runLoop_step. rewrite Ew. repeat case_match; split; done || by eexists.
  - destruct (qi_waiting _ _ Hi Ew) as [Hq Hs]. destruct (destroyer_ s) eqn:Ed; try done.
    + exists EDestroyer. cbn. unfold destroy_step. rewrite Ed. case_match; split; done || by eexists.
    + destruct (qi_dwaiting _ _ Hi Ed) as [Hne|(? & ? & ?)]; [|congruence]. exists ENotify. cbn. unfold enqueue_notify.
      destruct Hq as [?|?]; [done|]. destruct (notifies_ s); [lia|]. split; done || by eexists.
    + exists EDestroyer. cbn. unfold destroy_step. rewrite Ed. split; done || by eexists.
    + discriminate Hs. apply (qi_stop _ _ Hi). rewrite Ed. by right; left.
  - exists EWorker. cbn. unfold runLoop_step. rewrite Ew. split; done || by eexists.
  - exists EWorker. cbn. unfold runLoop_step. rewrite Ew. pose proof (run_entry_returns e (state_ s)) as [x Hx].
    destruct (run_entry e (state_ s)) as [o st]. cbn in Hx. rewrite Hx. split; done || by eexists.
  - pose proof (qi_exited _ _ Hi Ew) as Hs. apply (qi_stop _ _ Hi) in Hs. exists EDestroyer. cbn. unfold destroy_step.
    destruct Hs as [->|[->|?]]; [split; done || by eexists| |done]. rewrite Ew. split; done || by eexists.
Qed.

Lemma internal_run s0 evs : forall s s', queue_inv s0 s -> destroyer_ s <> DNone ->
  (stop_ s = true -> issued_at_stop_ s = length (issued_ s)) -> Forall internal evs -> pg_run evs s = Some s' ->
  (length evs + steps_left s' <= steps_left s)%nat /\ queue_inv s0 s' /\ destroyer_ s' <> DNone /\ issued_ s' = issued_ s /\
  (stop_ s' = true -> issued_at_stop_ s' = length (issued_ s')).
Proof.
  induction evs as [|ev evs IH]; cbn [pg_run length]; intros s s' Hi Hn Hs He H.
  - simplify_eq. split_and!; done.
  - apply Forall_cons in He as [Hev He]. destruct (pg_step ev s) as [s1|] eqn:E; [|done].
    pose proof (internal_decreases _ _ _ Hev E). destruct (internal_keeps _ _ _ Hev E Hn Hs) as [Hn1 Hs1].
    destruct (IH s1 s' (pg_step_inv _ _ _ _ Hi E) Hn1 Hs1 He H) as (Hl & Hi' & Hn' & Hiss & Hs').
    split_and!; try done; [cbn [length]; lia|]. rewrite Hiss, (pg_step_issued _ _ _ E). destruct ev; try done; cbn; by rewrite app_nil_r.
Qed.

(** Destroy() terminates, and waits for all the work: from any reachable
    state in which a thread has called destroy() and stop_ is not set yet, the
    threads of the object take at most [steps_left] steps if nothing more is
    enqueued; when none of them can take a step any more, the worker thread has
    been joined, and every entry that was enqueued has run and its work object
    is completed.  So no wake-up is lost, whatever the interleaving; the calls of
    MPI are assumed to return. *)
Theorem mpi_destroy_completes (s0 : rstate) (before evs : list pg_event) (s s' : pgm) :
  pg_run before (ProcessGroupMPI_construct s0) = Some s -> destroyer_ s <> DNone -> stop_ s = false ->
  Forall internal evs -> pg_run evs s = Some s' ->
  (length evs <= steps_left s)%nat /\
  ((forall ev, internal ev -> pg_step ev s' = None) ->
   destroyer_ s' = DDone /\ worker_ s' = WExited /\ finished_ s' = seq 0 (length (enqueued before)) /\
   Forall (fun w => completed_ w = true) (works_ s')).
Proof using mpi_returns.
  intros Hb Hn Hst He H. pose proof (pg_run_inv s0 _ _ _ (queue_construct_inv s0) Hb) as Hi.
  destruct (internal_run s0 evs s s' Hi Hn ltac:(congruence) He H) as (Hl & Hi' & Hn' & Hiss & Hs'). split; [lia|].
  intros Hstuck. destruct (decide (destroyer_ s' = DDone)) as [Ed|Ed].
  2:{ destruct (progress s0 s' Hi' Hn' Ed) as (ev & Hev & [x Hx]). rewrite (Hstuck ev Hev) in Hx. done. }
  pose proof (qi_done _ _ Hi' Ed) as Hw. assert (Hstop : stop_ s' = true) by (apply (qi_stop _ _ Hi'); by right; right).
  pose proof (qi_at_stop _ _ Hi' Hstop) as Hat. rewrite Hw, (Hs' Hstop), Hiss, (pg_run_issued _ _ _ Hb) in Hat. cbn in Hat.
  split_and!; try done.
  - rewrite (qi_finished _ _ Hi'). f_equal. lia.
  - rewrite (qi_works _ _ Hi'). rewrite Hiss, (pg_run_issued _ _ _ Hb). cbn [issued_ ProcessGroupMPI_construct app].
    replace (length (enqueued before) - length (finished_ s'))%nat with 0%nat by lia. rewrite app_nil_r.
    apply Forall_map, Forall_forall. by intros.
Qed.

(** ** What alltoall exchanges *)

(** MPI_Alltoallv on rank [r]: the segment for [r] of every send buffer is
    written into the receive buffer at its displacement. *)
Definition overwrite (buf : list D) (at_ : Z) (data : list D) : list D :=
  take (Z.to_nat at_) buf ++ data ++ drop (Z.to_nat at_ + length data) buf.
Definition segment (op : mpi_op D) (r : nat) : list D :=
  match op with
  | MPI_Alltoallv sendbuf counts displs _ _ _ _ _ =>
      take (Z.to_nat (nth r counts 0)) (drop (Z.to_nat (nth r displs 0)) sendbuf)
  | _ => []
  end.
Definition alltoallv_answer (ops : list (mpi_op D)) (r : nat) : list D :=
  match ops !! r with
  | Some (MPI_Alltoallv _ _ _ _ recvbuf _ rdispls _) =>
      foldl (fun buf p => overwrite buf p.1 p.2) recvbuf (zip rdispls (map (fun op => segment op r) ops))
  | _ => []
  end.

Fixpoint offsets_from (o : Z) (ns : list Z) : list Z :=
  match ns with [] => [] | n :: ns => o :: offsets_from (o + n) ns end.
Lemma offsets_from_length ns : forall o, length (offsets_from o ns) = length ns.
Proof. induction ns as [|n ns IH]; intros o; cbn; [done|]. by rewrite IH. Qed.
Lemma offsets_from_lookup ns : forall o i n, ns !! i = Some n -> offsets_from o ns !! i = Some (o + sum_Z (take i ns)).
Proof.
  induction ns as [|m ns IH]; intros o [|i] n H; simplify_eq/=; [by rewrite Z.add_0_r|].
  rewrite (IH _ _ _ H). f_equal. cbn. lia.
Qed.

Lemma tensor_lengths ns : forall (pre : list Z) o, Forall (fun n => 0 <= n) ns -> 0 <= o -> o + sum_Z ns <= INT_MAX ->
  lengths_loop (fun i => let? n := at_index (pre ++ ns) i in Ret (uint64 n)) (length pre) (length ns) o =
  Ret (ns, offsets_from o ns, o + sum_Z ns).
Proof.
  induction ns as [|n ns IH]; intros pre o Hns Ho Hle; cbn; [by rewrite Z.add_0_r|].
  apply Forall_cons in Hns as [Hn Hns]. pose proof (sum_Z_nonneg ns Hns) as Hs. cbn in Hle. unfold INT_MAX in *.
  unfold at_index at 1. rewrite (list_lookup_middle pre ns n) by done. cbn [obind]. rewrite uint64_id by (unfold in_uint64; lia).
  rewrite (proj2 (Z.leb_le n _)), (proj2 (Z.leb_le o _)) by lia. cbn [andb ocheck obind].
  rewrite uint64_id by (unfold in_uint64; lia).
  specialize (IH (pre ++ [n]) (o + n) Hns ltac:(lia) ltac:(lia)). rewrite <- app_assoc in IH. cbn [app] in IH.
  rewrite length_app, Nat.add_1_r in IH. rewrite IH. cbn. by rewrite Z.add_assoc.
Qed.

Lemma overwrite_tiles segs : forall (pre buf : list D), length buf = length (concat segs) ->
  foldl (fun buf p => overwrite buf p.1 p.2) (pre ++ buf) (zip (offsets_from (Z.of_nat (length pre)) (map (fun l => Z.of_nat (length l)) segs)) segs) =
  pre ++ concat segs.
Proof.
  induction segs as [|l segs IH]; intros pre buf Hl; cbn in *; [by destruct buf|]. rewrite length_app in Hl.
  assert (E : overwrite (pre ++ buf) (Z.of_nat (length pre)) l = (pre ++ l) ++ drop (length l) buf).
  { unfold overwrite. rewrite Nat2Z.id, take_app_length, drop_app_ge, <- app_assoc by lia. do 3 f_equal. lia. }
  rewrite E. replace (Z.of_nat (length pre) + Z.of_nat (length l)) with (Z.of_nat (length (pre ++ l))) by (rewrite length_app; lia).
  rewrite IH by (rewrite length_drop; lia). by rewrite app_assoc.
Qed.

Lemma sum_lengths (ls : list (list D)) : sum_Z (map (fun l => Z.of_nat (length l)) ls) = Z.of_nat (length (concat ls)).
Proof. induction ls as [|l ls IH]; cbn; [done|]. rewrite IH, length_app. lia. Qed.
Lemma concat_segment (ls : list (list D)) r l : ls !! r = Some l ->
  take (length l) (drop (Z.to_nat (sum_Z (take r (map (fun l => Z.of_nat (length l)) ls)))) (concat ls)) = l.
Proof.
  intros Hr. rewrite <- fmap_take. change (@fmap list list_fmap) with (fun A B => @map A B). cbv beta. rewrite sum_lengths, Nat2Z.id.
  rewrite <- (take_drop_middle _ _ _ Hr) at 2. rewrite concat_app. cbn. rewrite drop_app_length. apply take_app_length.
Qed.

(** A rank of the exchange: its tensors and their values. *)
Record participant := mkPart { p_src : list Tensor; p_dst : list Tensor; p_heap : heap }.
Definition entry_of (p : participant) : WorkEntry := mkEntry (p_src p) (p_dst p) RAlltoallTensors.

Section exchange.
Context (ty : ScalarType) (t : MPI_Datatype).
Hypothesis ty_known : mpiDatatype_at ty = Ret t.
Hypothesis shapes_ok : forall k, copy_shapes [k] [k] = true.
Hypothesis same_type : forall l, copy_data ty ty l = l.
Hypothesis empty_length : forall k, length (at_empty k) = k.

Definition plain (x : Tensor) : Prop := 0 <= numel x /\ scalar_type x = ty /\ viewable x = true.
Definition has_values (h : heap) (x : Tensor) : Prop := Z.of_nat (length (read h x)) = numel x.
Record part_ok (n : nat) (p : participant) : Prop := mkPartOk {
  po_src : length (p_src p) = n;
  po_dst : length (p_dst p) = n;
  po_src_plain : Forall plain (p_src p);
  po_dst_plain : Forall plain (p_dst p);
  po_values : Forall (has_values (p_heap p)) (p_src p);
  po_src_small : sum_Z (map numel (p_src p)) <= INT_MAX;
  po_dst_small : sum_Z (map numel (p_dst p)) <= INT_MAX;
  po_distinct : NoDup (map ref (p_dst p));
}.

Definition op_of (p : participant) : mpi_op D :=
  MPI_Alltoallv (concat (map (read (p_heap p)) (p_src p))) (map numel (p_src p)) (offsets_from 0 (map numel (p_src p))) t
    (at_empty (Z.to_nat (sum_Z (map numel (p_dst p))))) (map numel (p_dst p)) (offsets_from 0 (map numel (p_dst p))) t.

Lemma fill_splits_ok h t0 ts : scalar_type t0 = ty -> Forall plain ts -> fill_splits h t0 ts = Ret (concat (map (read h) ts)).
Proof using shapes_ok same_type.
  intros H0. induction 1 as [|x ts (Hn & Ht & Hv) _ IH]; [done|]. cbn. unfold viewed, copied. rewrite Hv, shapes_ok. cbn.
  rewrite H0, Ht, same_type, IH. done.
Qed.

Lemma plain_lengths ts : length ts = group -> Forall plain ts -> sum_Z (map numel ts) <= INT_MAX ->
  computeLengthsAndOffsets_tensors (map numel ts) group = Ret (map numel ts, offsets_from 0 (map numel ts), sum_Z (map numel ts)).
Proof.
  intros Hl Hp Hs. pose proof (tensor_lengths (map numel ts) [] 0) as H. rewrite length_map, Hl in H. cbn in H. apply H; [|lia|lia].
  apply Forall_map. eapply Forall_impl; [exact Hp|]. by intros x [? _].
Qed.

Lemma prepare_alltoall p : (0 < group)%nat -> part_ok group p -> prepare (entry_of p) (p_heap p) = Ret (op_of p).
Proof using ty_known shapes_ok same_type.
  intros Hg [Hs Hd Hps Hpd Hv Hss Hsd _]. unfold prepare, entry_of. cbn [run src dst].
  rewrite (plain_lengths (p_src p)), (plain_lengths (p_dst p)) by done. cbn [obind].
  destruct (p_src p) as [|s0 ss] eqn:Es; [cbn in Hs; lia|]. destruct (p_dst p) as [|d0 ds] eqn:Ed; [cbn in Hd; lia|].
  unfold at_index. cbn [lookup list_lookup obind]. pose proof (Forall_inv Hps) as (_ & Hts & _). pose proof (Forall_inv Hpd) as (_ & Htd & _).
  rewrite (fill_splits_ok _ s0 (s0 :: ss) Hts Hps). cbn [obind fst snd]. rewrite Hts, Htd, ty_known. cbn [obind].
  unfold op_of. by rewrite Es, Ed.
Qed.

Lemma segment_of p j s : Forall (has_values (p_heap p)) (p_src p) -> p_src p !! j = Some s -> segment (op_of p) j = read (p_heap p) s.
Proof.
  intros Hv Hj. unfold segment, op_of.
  assert (E : map numel (p_src p) = map (fun l => Z.of_nat (length l)) (map (read (p_heap p)) (p_src p))).
  { rewrite map_map. apply map_ext_in. intros x Hx%list_elem_of_In. rewrite Forall_forall in Hv. by rewrite (Hv x Hx). }
  assert (Hn : map numel (p_src p) !! j = Some (numel s)) by (by rewrite list_lookup_fmap, Hj).
  rewrite (nth_lookup_Some _ _ _ _ Hn), (nth_lookup_Some _ _ _ _ (offsets_from_lookup _ 0 _ _ Hn)), Z.add_0_l, E.
  rewrite Forall_lookup in Hv. pose proof (Hv j s Hj) as Hs. unfold has_values in Hs. rewrite <- Hs, Nat2Z.id. apply concat_segment.
  by rewrite list_lookup_fmap, Hj.
Qed.

Lemma copy_splits_ok t0 ts : scalar_type t0 = ty -> forall segs h w, Forall plain ts ->
  Forall2 (fun x l => numel x = Z.of_nat (length l)) ts segs -> NoDup (map ref ts) ->
  exists h', copy_splits (W := W) t0 ts (concat segs) (h, w) = (Ret tt, (h', w)) /\ Forall2 (fun x l => read h' x = l) ts segs /\
    (forall r, r ∉ map ref ts -> h' !! r = h !! r).
Proof using shapes_ok same_type.
  intros H0. induction ts as [|x ts IH]; intros segs h w Hp Hf Hnd.
  - apply Forall2_nil_inv_l in Hf as ->. by exists h.
  - apply Forall2_cons_inv_l in Hf as (l & segs' & Hl & Hf & ->). apply Forall_cons in Hp as [(Hn & Ht & Hv) Hp]. apply NoDup_cons in Hnd as [Hx Hnd].
    destruct (IH segs' (<[ref x := l]> h) w Hp Hf Hnd) as (h' & E & Hr & Hk). exists h'. split_and!.
    + cbn [copy_splits concat]. unfold bind at 1, lift at 1, viewed, ocheck. rewrite Hv. unfold bind at 1, lift at 1, copied, ocheck. rewrite shapes_ok.
      cbn [obind]. rewrite H0, Ht, same_type. replace (Z.to_nat (numel x)) with (length l) by lia.
      rewrite take_app_length, drop_app_length. unfold bind, write, modify. cbn. exact E.
    + constructor; [|done]. unfold read. rewrite (Hk _ Hx). by rewrite lookup_insert_eq.
    + cbn. intros r [Hr1 Hr2]%not_elem_of_cons. rewrite (Hk r Hr2). by rewrite lookup_insert_ne.
Qed.

(** C24: alltoall exchanges: let all ranks of a group run the entry of an alltoall
    whose i-th input on rank j has as many elements as the j-th output on rank i,
    with all tensors of one type that MPI knows and at most INT_MAX elements per
    rank, and let MPI_Alltoallv do what the standard says.  Then the checks
    accept the calls, every run gets as far as its MPI call, and afterwards the
    i-th output of rank j holds the values of the j-th input of rank i. *)
Theorem mpi_alltoall_exchanges (ps : list participant) :
  (0 < length ps)%nat -> size_ = Z.of_nat (length ps) -> size_ < 2 ^ 31 ->
  Forall (part_ok (length ps)) ps ->
  (forall i j p q s d, ps !! i = Some p -> ps !! j = Some q -> p_src p !! j = Some s -> p_dst q !! i = Some d -> numel s = numel d) ->
  exists ops,
    Forall2 (fun p op => alltoall (p_dst p) (p_src p) = Ret (entry_of p) /\ prepare (entry_of p) (p_heap p) = Ret op) ps ops /\
    forall j q w, ps !! j = Some q -> exists h',
      deliver (entry_of q) (alltoallv_answer ops j) (p_heap q, w) = (Ret tt, (h', w)) /\
      forall i p s d, ps !! i = Some p -> p_src p !! j = Some s -> p_dst q !! i = Some d -> read h' d = read (p_heap p) s.
Proof using ty_known shapes_ok same_type empty_length.
  intros Hpos Hsize Hsmall Hok Hmatch. assert (Hg : group = length ps) by (unfold group; lia). rewrite <- Hg in Hok, Hpos.
  exists (map op_of ps). split.
  { apply Forall2_fmap_r, Forall_Forall2_diag. eapply Forall_impl; [exact Hok|]. intros p Hp. split; [|by apply prepare_alltoall].
    destruct Hp as [Hs Hd _ _ _ _ _ _]. unfold alltoall, ocheck. rewrite Hs, Hd, Hg, <- Hsize, uint64_id, Z.eqb_refl by (unfold in_uint64; lia). done. }
  intros j q w Hq. rewrite Forall_lookup in Hok. pose proof (Hok j q Hq) as [_ Hdl _ Hdp _ _ Hdsmall Hdn].
  set (segs := map (fun p => segment (op_of p) j) ps).
  assert (Hsegs : Forall2 (fun d l => numel d = Z.of_nat (length l)) (p_dst q) segs).
  { apply Forall2_same_length_lookup. unfold segs. split; [by rewrite length_map, Hdl|]. intros i d l Hd Hl.
    rewrite list_lookup_fmap in Hl. destruct (ps !! i) as [p|] eqn:Hp; [|done]. apply (inj Some) in Hl as <-. pose proof (Hok i p Hp) as [Hsl _ _ _ Hv _ _ _].
    destruct (lookup_lt_is_Some_2 (p_src p) j) as [s Hs]; [rewrite Hsl, Hg; by eapply lookup_lt_Some|].
    cbv beta. rewrite (segment_of p j s Hv Hs), <- (Hmatch i j p q s d Hp Hq Hs Hd). rewrite Forall_lookup in Hv. symmetry. by apply (Hv j). }
  assert (Hnum : map numel (p_dst q) = map (fun l => Z.of_nat (length l)) segs) by (clear -Hsegs; induction Hsegs; cbn; congruence).
  assert (Hans : alltoallv_answer (map op_of ps) j = concat segs).
  { unfold alltoallv_answer. rewrite list_lookup_fmap, Hq. cbn [fmap option_fmap option_map]. unfold op_of at 1. rewrite map_map. fold segs.
    rewrite Hnum. apply (overwrite_tiles segs []). rewrite empty_length, sum_lengths. lia. }
  rewrite Hans. unfold deliver, entry_of. cbn [run dst].
  destruct (p_dst q) as [|d0 ds] eqn:Ed; [cbn in Hdl; lia|]. unfold bind at 1, lift, at_index. cbn [lookup list_lookup].
  pose proof (Forall_inv Hdp) as (_ & Ht0 & _).
  destruct (copy_splits_ok d0 (d0 :: ds) Ht0 segs (p_heap q) w Hdp Hsegs Hdn) as (h' & E & Hr & _). exists h'. split; [exact E|].
  intros i p s d Hp Hs Hd. destruct (Forall2_lookup_l _ _ _ _ _ Hr Hd) as (l & Hl & ->). unfold segs in Hl.
  rewrite list_lookup_fmap, Hp in Hl. apply (inj Some) in Hl as <-. apply segment_of; [|done]. by apply (po_values _ _ (Hok i p Hp)).
Qed.
End exchange.

End mpi.

(** ** Point-to-point operations *)

Record Status := mkStatus { MPI_SOURCE : Z; MPI_ERROR : Z }.
(** [None] is MPI_REQUEST_NULL. *)
Record AsyncWork := mkAsync { tensor_ : Tensor; request_ : option nat; status_ : Status; aw_exception : option exn }.

(** The point-to-point functions of MPI: the value of the call and what it
    leaves in its output arguments.  A receive gets the tensor it fills. *)
Class MPI_P2P (W : Type) := {
  MPI_Isend : Tensor -> Z -> MPI_Datatype -> Z -> Z -> M W (Z * option nat);
  MPI_Irecv : Tensor -> Z -> MPI_Datatype -> Z -> Z -> M W (Z * option nat);
  MPI_Test : nat -> Status -> M W (Z * option nat * Status);
  MPI_Wait : nat -> Status -> M W (Z * option nat * Status);
  MPI_Error_string : Z -> M W (Z * string);
  MPI_ANY_SOURCE : Z;
}.

Section p2p.
Context {W : Type} `{MPI_P2P W}.
Abbreviation aw A := (M (AsyncWork * W) A).
Definition in_aw {A} (m : M W A) : aw A := fun s => let '(o, w) := m s.2 in (o, (s.1, w)).
Definition set_aw (f : AsyncWork -> AsyncWork) : aw unit := modify (fun s => (f s.1, s.2)).

Definition AsyncWork_construct (tensor : Tensor) (request : option nat) : AsyncWork := mkAsync tensor request (mkStatus 0 0) None.

Definition populateException : aw unit :=
  let! error := gets (fun s => MPI_ERROR (status_ s.1)) in
  let! r := in_aw (MPI_Error_string error) in
  do! MPI_CHECK r.1 in
  set_aw (fun w => mkAsync (tensor_ w) (request_ w) (status_ w) (Some (RuntimeError r.2))).

Definition store_answer (r : Z * option nat * Status) : aw unit :=
  do! set_aw (fun w => mkAsync (tensor_ w) r.1.2 r.2 (aw_exception w)) in
  MPI_CHECK r.1.1.

Definition aw_isCompleted : aw bool :=
  let! request := gets (fun s => request_ s.1) in
  match request with
  | None => ret true
  | Some request =>
      let! st := gets (fun s => status_ s.1) in
      let! r := in_aw (MPI_Test request st) in
      do! store_answer r in
      let! request := gets (fun s => request_ s.1) in
      match request with
      | Some _ => ret false
      | None =>
          let! error := gets (fun s => MPI_ERROR (status_ s.1)) in
          do! (if negb (error =? MPI_SUCCESS) then populateException else ret tt) in
          ret true
      end
  end.
Definition aw_isSuccess : aw bool :=
  let! request := gets (fun s => request_ s.1) in
  match request with
  | Some _ => throw (RuntimeError "Invalid call to AsyncWork::isSuccess before work has completed")
  | None => gets (fun s => MPI_ERROR (status_ s.1) =? MPI_SUCCESS)
  end.
Definition aw_sourceRank : aw Z := gets (fun s => MPI_SOURCE (status_ s.1)).
Definition aw_wait : aw bool :=
  let! request := gets (fun s => request_ s.1) in
  match request with
  | None => ret true
  | Some request =>
      let! st := gets (fun s => status_ s.1) in
      let! r := in_aw (MPI_Wait request st) in
      do! store_answer r in
      let! error := gets (fun s => MPI_ERROR (status_ s.1)) in
      if negb (error =? MPI_SUCCESS) then
        do! populateException in
        let! e := gets (fun s => aw_exception s.1) in
        match e with Some e => throw e | None => throw (Undefined "std::rethrow_exception(nullptr)") end
      else ret true
  end.
Definition aw_abort : aw unit := throw (CheckFailed "ProcessGroupMPI::AsyncWork::abort not implemented.").
(** Destruction: [false] is std::terminate. *)
Definition aw_destroy (w : AsyncWork) : bool := bool_decide (request_ w = None).

(** send, recv and recvAnysource. *)
Definition start_p2p (MPIX_CUDA : bool) (query : Z) (tensors : list Tensor)
    (start : Tensor -> Z -> MPI_Datatype -> M W (Z * option nat)) : M W AsyncWork :=
  do! lift (checkSingleTensor MPIX_CUDA query tensors) in
  let! tensor := lift (at_index tensors 0) in
  let! t := lift (mpiDatatype_at (scalar_type tensor)) in
  let! r := start tensor (int32 (numel tensor)) t in
  do! MPI_CHECK r.1 in
  ret (AsyncWork_construct tensor r.2).
Definition send (MPIX_CUDA : bool) (query : Z) (tensors : list Tensor) (dstRank tag : Z) : M W AsyncWork :=
  start_p2p MPIX_CUDA query tensors (fun tensor count t => MPI_Isend tensor count t dstRank tag).
Definition recv (MPIX_CUDA : bool) (query : Z) (tensors : list Tensor) (srcRank tag : Z) : M W AsyncWork :=
  start_p2p MPIX_CUDA query tensors (fun tensor count t => MPI_Irecv tensor count t srcRank tag).
Definition recvAnysource (MPIX_CUDA : bool) (query : Z) (tensors : list Tensor) (tag : Z) : M W AsyncWork :=
  start_p2p MPIX_CUDA query tensors (fun tensor count t => MPI_Irecv tensor count t MPI_ANY_SOURCE tag).

(** A failed point-to-point operation forgets its error: when a poll with
    isCompleted, or a first wait, finds that the operation has failed, every later
    wait returns true without throwing, although isSuccess answers false and
    the exception is stored; the first wait itself throws it. *)
Theorem mpi_async_wait_forgets (w : AsyncWork) (m m1 m2 : W) (request : nat) (st : Status) (what : string) :
  request_ w = Some request -> MPI_ERROR st <> MPI_SUCCESS -> MPI_Error_string (MPI_ERROR st) m1 = (Ret (MPI_SUCCESS, what), m2) ->
  (MPI_Test request (status_ w) m = (Ret (MPI_SUCCESS, None, st), m1) ->
   exists w', aw_isCompleted (w, m) = (Ret true, (w', m2)) /\ aw_exception w' = Some (RuntimeError what) /\
     aw_isSuccess (w', m2) = (Ret false, (w', m2)) /\ aw_wait (w', m2) = (Ret true, (w', m2))) /\
  (MPI_Wait request (status_ w) m = (Ret (MPI_SUCCESS, None, st), m1) ->
   exists w', aw_wait (w, m) = (Throw (RuntimeError what), (w', m2)) /\
     aw_isSuccess (w', m2) = (Ret false, (w', m2)) /\ aw_wait (w', m2) = (Ret true, (w', m2))).
Proof.
  intros Hr He Hs. apply Z.eqb_neq in He.
  split; intros Ht; exists (mkAsync (tensor_ w) None st (Some (RuntimeError what))); split_and!;
    unfold aw_isCompleted, aw_wait, aw_isSuccess, populateException, store_answer, MPI_CHECK, assert_, ocheck, in_aw, set_aw, bind, gets, modify, lift;
    cbn; rewrite ?Hr; cbn; rewrite ?Ht; cbn; rewrite ?He; cbn; rewrite ?Hs; reflexivity.
Qed.
End p2p.

(** ** Creation *)

Class MPI_Env (W : Type) := {
  comm : Type;
  MPI_COMM_WORLD : comm;
  MPI_Init_thread : M W (Z * Z);
  MPI_THREAD_SERIALIZED : Z;
  std_atexit : M W Z;
  MPI_Comm_group : M W Z;
  MPI_Group_incl : list Z -> M W Z;
  (* the new communicator, or MPI_COMM_NULL *)
  MPI_Comm_create : M W (Z * option comm);
  MPI_Group_free : M W Z;
  MPI_Comm_rank : comm -> M W (Z * Z);
  MPI_Comm_size : comm -> M W (Z * Z);
}.

Section creation.
Context {W : Type} `{MPI_Env W}.

(** onceFlagInitMPI and mpiThreadSupport_. *)
Record globals := mkGlobals { onceFlagInitMPI : bool; mpiThreadSupport_ : Z }.
Definition initial_globals : globals := mkGlobals false 0.
Abbreviation env A := (M (globals * W) A).
Definition in_env {A} (m : M W A) : env A := fun s => let '(o, w) := m s.2 in (o, (s.1, w)).
Definition checked (m : M W Z) : env unit := let! st := in_env m in MPI_CHECK st.

(** An exception of the function leaves the once flag unset. *)
Definition initMPIOnce : env unit :=
  let! done_ := gets (fun s => onceFlagInitMPI s.1) in
  if done_ then ret tt
  else
    let! r := in_env MPI_Init_thread in
    do! modify (fun s => (mkGlobals (onceFlagInitMPI s.1) r.2, s.2)) in
    do! MPI_CHECK r.1 in
    do! assert_ (negb (r.2 <? MPI_THREAD_SERIALIZED))
      (RuntimeError "Used MPI implementation doesn't have the minimum level of threading support: MPI_THREAD_SERIALIZED.") in
    let! x := in_env std_atexit in
    do! assert_ (x =? 0) (RuntimeError "Fail to register the MPI exit handler") in
    modify (fun s => (mkGlobals true (mpiThreadSupport_ s.1), s.2)).

(** The rank, size and communicator of the new group, if this process is in it. *)
Definition createProcessGroupMPI (ranks : list Z) : env (option (Z * Z * comm)) :=
  do! initMPIOnce in
  let! groupComm :=
    if (length ranks =? 0)%nat then ret (Some MPI_COMM_WORLD)
    else
      do! checked MPI_Comm_group in
      do! checked (MPI_Group_incl ranks) in
      let! r := in_env MPI_Comm_create in
      do! MPI_CHECK r.1 in
      do! checked MPI_Group_free in
      do! checked MPI_Group_free in
      ret r.2 in
  match groupComm with
  | None => ret None
  | Some groupComm =>
      let! rank := in_env (MPI_Comm_rank groupComm) in
      do! MPI_CHECK rank.1 in
      let! size := in_env (MPI_Comm_size groupComm) in
      do! MPI_CHECK size.1 in
      do! assert_ (negb ((rank.2 <? 0) || (size.2 <? 0))) (RuntimeError "Failed to get the world_size / rank") in
      ret (Some (rank.2, size.2, groupComm))
  end.

Lemma created_group_valid ranks s rank size c s' :
  createProcessGroupMPI ranks s = (Ret (Some (rank, size, c)), s') -> 0 <= rank /\ 0 <= size.
Proof.
  unfold createProcessGroupMPI. intros (_ & s1 & _ & H1)%bind_Ret_inv. apply bind_Ret_inv in H1 as ([g|] & s2 & _ & H1); [|done].
  apply bind_Ret_inv in H1 as (r & s3 & _ & H1). apply bind_Ret_inv in H1 as (_ & s4 & _ & H1).
  apply bind_Ret_inv in H1 as (z & s5 & _ & H1). apply bind_Ret_inv in H1 as (_ & s6 & _ & H1).
  apply bind_Ret_inv in H1 as (u & s7 & Ha & H1). apply assert_Ret_inv in Ha as [Hz _].
  injection H1 as <- <- _ _. apply negb_true_iff, orb_false_iff in Hz as [?%Z.ltb_ge ?%Z.ltb_ge]. done.
Qed.
End creation.

(** ** A small world *)

Module Example_mpi.
Definition cpu (n r : nat) (ty : ScalarType) : Tensor :=
  mkT (mkTensor ty kStrided (mkDevice kCPU 0) [Z.of_nat n] [1]) r true.
#[export] Instance aten : ATen Z := {
  at_empty k := replicate k 0;
  copy_shapes a b := bool_decide (a = b);
  copy_data _ _ l := l;
  viewable _ := true;
}.
(** A lonely rank: every call leaves its buffer as it is. *)
Definition collective (op : mpi_op Z) : M unit (Z * list Z) :=
  ret (MPI_SUCCESS, match op with MPI_Bcast buf _ _ _ => buf | _ => [] end).
Definition world : gmap nat (list Z) * unit := (<[0%nat := [7; 8]]> ∅, tt).
Definition start : @pgm Z unit := ProcessGroupMPI_construct world.

(** A barrier and a broadcast of a type without an MPI datatype, then destroy(),
    which has to wait for the queue. *)
Definition before : list pg_event :=
  [EEnqueue (mkEntry [] [] RBarrier); EWorker; ENotify; EEnqueue (mkEntry [cpu 2 0 (kOther 5)] [] (RBroadcast 0)); EDestroy; EDestroyer].
Definition middle : @pgm Z unit := default start (pg_run collective 0 1 before start).
Definition after_ : list pg_event :=
  [EWorker; EWorker; ENotify; EWorker; EWorker; EWorker; EWorker; EDestroyer; EDestroyer; EWorker; EDestroyer].
Definition final : @pgm Z unit := default start (pg_run collective 0 1 after_ middle).
Lemma before_runs : pg_run collective 0 1 before (ProcessGroupMPI_construct world) = Some middle.
Proof. vm_compute. reflexivity. Qed.
Lemma after_runs : pg_run collective 0 1 after_ middle = Some final.
Proof. vm_compute. reflexivity. Qed.
Lemma middle_ok : destroyer_ middle <> DNone /\ stop_ middle = false.
Proof. assert (destroyer_ middle = DWaiting) as -> by (vm_compute; reflexivity). split; [done|]. vm_compute. reflexivity. Qed.
Lemma final_stuck ev : internal ev -> pg_step collective 0 1 ev final = None.
Proof. by destruct ev. Qed.

(** Two ranks; rank i sends i * 10 + j to rank j, and two elements to itself. *)
Definition rank0 : participant :=
  mkPart [cpu 2 0 kInt; cpu 1 1 kInt] [cpu 2 2 kInt; cpu 1 3 kInt] (<[0%nat := [0; 100]]> (<[1%nat := [1]]> ∅)).
Definition rank1 : participant :=
  mkPart [cpu 1 0 kInt; cpu 2 1 kInt] [cpu 1 2 kInt; cpu 2 3 kInt] (<[0%nat := [10]]> (<[1%nat := [11; 111]]> ∅)).
Lemma parts_ok : Forall (part_ok kInt 2) [rank0; rank1].
Proof.
  repeat apply Forall_cons_2; try apply Forall_nil_2; split; try done; try (repeat apply Forall_cons_2; try apply Forall_nil_2; done).
  all: repeat constructor; cbn; rewrite ?list_elem_of_singleton; try lia; apply not_elem_of_nil.
Qed.
Lemma parts_match i j p q s d : [rank0; rank1] !! i = Some p -> [rank0; rank1] !! j = Some q -> p_src p !! j = Some s -> p_dst q !! i = Some d ->
  numel s = numel d.
Proof.
  intros Hp Hq Hs Hd. destruct i as [|[|i]], j as [|[|j]]; simplify_eq/=; reflexivity.
Qed.

#[local] Instance failing : MPI_P2P nat := {
  MPI_Isend _ _ _ _ _ := fun n => (Ret (MPI_SUCCESS, Some n), S n);
  MPI_Irecv _ _ _ _ _ := fun n => (Ret (MPI_SUCCESS, Some n), S n);
  MPI_Test _ _ := fun n => (Ret (MPI_SUCCESS, None, mkStatus 1 15), n);
  MPI_Wait _ _ := fun n => (Ret (MPI_SUCCESS, None, mkStatus 1 15), n);
  MPI_Error_string _ := fun n => (Ret (MPI_SUCCESS, "message truncated"%string), n);
  MPI_ANY_SOURCE := -1;
}.
End Example_mpi.

Lemma mpi_queue_is_sequential_witness : exists k, (k <= length (enqueued Example_mpi.before))%nat /\
  let '(results, st) := run_sync (aten := Example_mpi.aten) Example_mpi.collective 0 1
                          (take k (enqueued Example_mpi.before)) Example_mpi.world in
  state_ Example_mpi.middle = st /\
  works_ Example_mpi.middle = map (fun x => set_finished x (new_Work (-1) UNKNOWN false)) results ++
    replicate (length (enqueued Example_mpi.before) - k) (new_Work (-1) UNKNOWN false).
Proof.
  apply (mpi_queue_is_sequential (aten := Example_mpi.aten) _ _ _ Example_mpi.world Example_mpi.before Example_mpi.middle Example_mpi.before_runs).
Defined.

Lemma mpi_destroy_completes_witness :
  destroyer_ Example_mpi.final = DDone /\ worker_ Example_mpi.final = WExited /\ finished_ Example_mpi.final = [0%nat; 1%nat] /\
  Forall (fun w => completed_ w = true) (works_ Example_mpi.final).
Proof.
  exact (proj2 (mpi_destroy_completes (aten := Example_mpi.aten) Example_mpi.collective 0 1 ltac:(done) Example_mpi.world
    Example_mpi.before Example_mpi.after_ Example_mpi.middle Example_mpi.final Example_mpi.before_runs
    (proj1 Example_mpi.middle_ok) (proj2 Example_mpi.middle_ok)
    ltac:(repeat constructor) Example_mpi.after_runs) Example_mpi.final_stuck).
Defined.

Lemma mpi_alltoall_exchanges_witness : exists ops,
  Forall2 (fun p op => alltoall 2 (p_dst p) (p_src p) = Ret (entry_of p) /\
             prepare (aten := Example_mpi.aten) 0 2 (entry_of p) (p_heap p) = Ret op)
    [Example_mpi.rank0; Example_mpi.rank1] ops /\
  forall j q w, [Example_mpi.rank0; Example_mpi.rank1] !! j = Some q -> exists h',
    deliver (aten := Example_mpi.aten) 0 (entry_of q) (alltoallv_answer ops j) (p_heap q, w : unit) = (Ret tt, (h', w)) /\
    forall i p s d, [Example_mpi.rank0; Example_mpi.rank1] !! i = Some p -> p_src p !! j = Some s -> p_dst q !! i = Some d ->
      read h' d = read (p_heap p) s.
Proof.
  apply (mpi_alltoall_exchanges (aten := Example_mpi.aten) 0 2 kInt MPI_INT).
  - reflexivity.
  - intros k. by apply bool_decide_true.
  - reflexivity.
  - intros k. apply length_replicate.
  - cbn. lia.
  - reflexivity.
  - reflexivity.
  - apply Example_mpi.parts_ok.
  - apply Example_mpi.parts_match.
Defined.

Lemma mpi_async_wait_forgets_witness : exists w' : AsyncWork,
  aw_wait (H := Example_mpi.failing) (mkAsync (Example_mpi.cpu 1 0 kInt) (Some 3%nat) (mkStatus 0 0) None, 0%nat) =
    (Throw (RuntimeError "message truncated"), (w', 0%nat)) /\
  aw_isSuccess (w', 0%nat) = (Ret false, (w', 0%nat)) /\ aw_wait (H := Example_mpi.failing) (w', 0%nat) = (Ret true, (w', 0%nat)).
Proof.
  apply (mpi_async_wait_forgets (H := Example_mpi.failing) (mkAsync (Example_mpi.cpu 1 0 kInt) (Some 3%nat) (mkStatus 0 0) None)
    0%nat 0%nat 0%nat 3%nat (mkStatus 1 15) "message truncated"); done.
Defined.
