(* ===== verification/ProcessGroupGloo.v ===== *)
(** * ProcessGroupGloo

    Models csrc/c10d/distributed/c10d/ProcessGroupGloo.cpp, ProcessGroupGloo.hpp and
    GlooDeviceFactory.cpp, built for Linux without CUDA: the reduction functions,
    the store wrapper, the choice of a device, construction, the checks and the
    work object of every collective, what each of them runs, the worker threads
    with their queue, barriers and the destructor under every interleaving, and
    the point-to-point operations.

    The functions of gloo, of ATen and of the operating system are parameters. *)

From stdpp Require Import base option list gmap strings.
From Stdlib Require Import ZArith Lia.
From S2P Require Import Prelude Decimal Store NetUtils ProcessGroup Tensors.

(** ** Types and reduction functions *)

(** GENERATE_ALL_TYPES: the types that gloo has. *)
Definition GENERATE_ALL_TYPES (type : ScalarType) : outcome unit :=
  match type with
  | kFloat | kDouble | kHalf | kChar | kByte | kInt | kLong => Ret tt
  | _ => Throw (RuntimeError "Invalid scalar type")
  end.
Definition is_integral (type : ScalarType) : bool :=
  match type with kChar | kByte | kInt | kLong => true | _ => false end.

Inductive ReduceFunc : Type := gloo_sum | gloo_product | gloo_min | gloo_max | fn_band | fn_bor | fn_bxor.

(** The two templates, for types that are integral and types that are not. *)
Definition toFunction (integral : bool) (r : ReduceOp) : outcome ReduceFunc :=
  match r with
  | SUM => Ret gloo_sum
  | PRODUCT => Ret gloo_product
  | MIN => Ret gloo_min
  | MAX => Ret gloo_max
  | BAND => if integral then Ret fn_band else Throw (RuntimeError "Cannot use ReduceOp.BAND with non-integral dtype")
  | BOR => if integral then Ret fn_bor else Throw (RuntimeError "Cannot use ReduceOp.BOR with non-integral dtype")
  | BXOR => if integral then Ret fn_bxor else Throw (RuntimeError "Cannot use ReduceOp.BXOR with non-integral dtype")
  | UNUSED => Throw (RuntimeError "Unhandled ReduceOp")
  end.
Definition getFunction (dtype : ScalarType) (op : ReduceOp) : outcome ReduceFunc :=
  let? _ := GENERATE_ALL_TYPES dtype in
  toFunction (is_integral dtype) op.

(** c[i] = a[i] & b[i] for i < n; [c] may be one of the others. *)
Definition pointwise (f : Z -> Z -> Z) (c a b : list Z) (n : nat) : list Z :=
  zip_with f (take n a) (take n b) ++ drop n c.
Definition band := pointwise Z.land.
Definition bor := pointwise Z.lor.
Definition bxor := pointwise Z.lxor.

(** ** The store that gloo sees *)

Module GlooStore.
Section store.
Context {S : Type} (store_ : StoreOps S).
(** Copying between vector<char> and vector<uint8_t> keeps the bytes. *)
Definition set (key value : bytes) : M S unit := store_set store_ key value.
Definition get (key : bytes) : M S bytes := store_get store_ key.
Definition wait (keys : list bytes) : M S unit := store_wait_for store_ keys kDefaultTimeout.
Definition wait_for (keys : list bytes) (timeout : Z) : M S unit := store_wait_for store_ keys timeout.
End store.
End GlooStore.

(** ** Devices *)

Module Device.
Section device.
(** gloo's devices; CreateDevice of the tcp transport with its attributes
    (iface, hostname).  [getenv]: GLOO_DEVICE_TRANSPORT when the library was loaded.
    [other]: what else is registered under a name. *)
Context {device : Type} (CreateDevice : string -> string -> outcome device).
Variable getenv : option string.
Variable other : string -> option (string -> string -> outcome device).

Definition makeTCPDevice (interfaceName hostname : string) : outcome device :=
  check! negb (bool_decide (interfaceName = "")) || negb (bool_decide (hostname = ""))
    else CheckFailed "GlooDeviceFactory::makeTCPDevice(): interface or hostname can't be empty" in
  if negb (bool_decide (interfaceName = "")) then CreateDevice interfaceName "" else CreateDevice "" hostname.
(** GlooDeviceRegistry()->Create: a null pointer for a name without a creator. *)
Definition Create (key interfaceName hostname : string) : outcome (option device) :=
  if bool_decide (key = "LINUX") || bool_decide (key = "TCP") then
    let? d := makeTCPDevice interfaceName hostname in Ret (Some d)
  else
    match other key with
    | Some creator => let? d := creator interfaceName hostname in Ret (Some d)
    | None => Ret None
    end.
Definition makeDeviceForInterface (interfaceName : string) : outcome (option device) :=
  match getenv with
  | Some glooDeviceTransport => Create glooDeviceTransport interfaceName ""
  | None => Create "LINUX" interfaceName ""
  end.
Definition makeDeviceForHostname (hostname : string) : outcome (option device) :=
  match getenv with
  | Some glooDeviceTransport => Create glooDeviceTransport "" hostname
  | None => Create "LINUX" "" hostname
  end.

(** The answers for a host name: getaddrinfo, and for every address socket and
    bind.  With a positive value [result] is not set. *)
Record resolution := mkResolution { gai : Z; addresses : list (Z * Z) }.
Fixpoint try_addresses (l : list (Z * Z)) : bool :=
  match l with
  | [] => false
  | (fd, rv) :: l => if fd =? -1 then try_addresses l else if rv =? -1 then try_addresses l else true
  end.
Definition doesHostnameResolveToUsableAddress (r : resolution) : outcome bool :=
  if gai r <? 0 then Ret false
  else if 0 <? gai r then Throw (Undefined "result")
  else Ret (try_addresses (addresses r)).

Definition kLoopbackAddress : string := "127.0.0.1".
Section lookup.
Variable resolve : string -> resolution.

Definition createDeviceForInterface (interface_name : string) : outcome (option device) :=
  makeDeviceForInterface interface_name.
Definition createDeviceForHostname (hostname : string) : outcome (option device) :=
  let? ok := doesHostnameResolveToUsableAddress (resolve hostname) in
  check! ok else CheckFailed "Cannot resolve " in
  makeDeviceForHostname hostname.
(** [gethostname]: the name, or the error number. *)
Definition createDefaultDevice (gethostname : string + Z) : outcome (option device) :=
  match gethostname with
  | inr errno => Throw (SystemError errno "")
  | inl hostname =>
      let? ok := doesHostnameResolveToUsableAddress (resolve hostname) in
      if ok then makeDeviceForHostname hostname else createDeviceForHostname kLoopbackAddress
  end.
End lookup.

(** The default device never fails for lack of a name: it is the one of the host
    name if that can be bound, and of the loopback address otherwise. *)
Lemma default_device_falls_back resolve hostname l :
  getenv = None -> (forall name, gai (resolve name) <= 0) -> hostname <> ""%string ->
  resolve kLoopbackAddress = mkResolution 0 l -> (exists fd, (fd, 0) ∈ l /\ fd <> -1) ->
  exists name, (name = hostname \/ name = kLoopbackAddress) /\
    createDefaultDevice resolve (inl hostname) = (let? d := CreateDevice "" name in Ret (Some d)).
Proof.
  intros He Hg Hn Hl (fd & Hin & Hfd).
  assert (Hloop : try_addresses l = true).
  { clear Hl. induction l as [|[fd' rv] l IH]; [by apply not_elem_of_nil in Hin|].
    apply elem_of_cons in Hin as [[= <- <-]|Hin]; cbn.
    - by rewrite (proj2 (Z.eqb_neq _ _) Hfd).
    - rewrite IH by done. by destruct (fd' =? -1), (rv =? -1). }
  assert (Hmake : forall name, name <> ""%string -> makeDeviceForHostname name = (let? d := CreateDevice "" name in Ret (Some d))).
  { intros name Hname. unfold makeDeviceForHostname, Create, makeTCPDevice. rewrite He. cbn.
    rewrite (bool_decide_false _ Hname). done. }
  assert (Hok : exists b, doesHostnameResolveToUsableAddress (resolve hostname) = Ret b).
  { unfold doesHostnameResolveToUsableAddress. pose proof (Hg hostname). destruct (gai (resolve hostname) <? 0); [eauto|].
    rewrite (proj2 (Z.ltb_ge _ _)) by done. eauto. }
  destruct Hok as [[] Hok].
  - exists hostname. split; [by left|]. unfold createDefaultDevice. rewrite Hok. by apply Hmake.
  - exists kLoopbackAddress. split; [by right|]. unfold createDefaultDevice, createDeviceForHostname. rewrite Hok. cbn [obind].
    unfold doesHostnameResolveToUsableAddress. rewrite Hl. cbn [gai addresses Z.ltb Z.compare]. rewrite Hloop. cbn. by apply Hmake.
Qed.
End device.
End Device.

(** ** Work *)

(** Calls of gloo with their tag, buffers, counts and other options; of a buffer
    that is input and output only the contents before the call are given. *)
Inductive gloo_op (D : Type) : Type :=
  | gloo_broadcast (tag root : Z) (output : list D)
  | gloo_allreduce (tag : Z) (fn : ReduceFunc) (outputs : list (list D)) (elements : Z)
  | gloo_reduce (tag root : Z) (fn : ReduceFunc) (output : list D)
  | gloo_allgather (tag : Z) (input : option (list D)) (output : list D)
  | gloo_allgatherv (tag : Z) (input output : list D) (counts : list Z)
  | gloo_gather (tag root : Z) (input : list D) (output : option (list D))
  | gloo_scatter (tag root : Z) (inputs : option (list (list D))) (elements : Z) (output : list D)
  | gloo_alltoall (tag : Z) (input output : list D)
  | gloo_alltoallv (tag : Z) (input : list D) (sendCounts : list Z) (output : list D) (recvCounts : list Z)
  | gloo_barrier (tag : Z).
Arguments gloo_broadcast {D}. Arguments gloo_allreduce {D}. Arguments gloo_reduce {D}. Arguments gloo_allgather {D}.
Arguments gloo_allgatherv {D}. Arguments gloo_gather {D}. Arguments gloo_scatter {D}. Arguments gloo_alltoall {D}.
Arguments gloo_alltoallv {D}. Arguments gloo_barrier {D}.

(** A sparse tensor: sizes, of which the first [sparse_dim] are the sparse ones;
    the index matrix row by row; the values. *)
Record sparse (D : Type) := mkSparse {
  sizes : list Z; sparse_dim : Z; nnz : Z; indices : list Z; values : list D; sparse_type : ScalarType
}.
Arguments mkSparse {D}. Arguments sizes {D}. Arguments sparse_dim {D}. Arguments nnz {D}. Arguments indices {D}.
Arguments values {D}. Arguments sparse_type {D}.

(** gloo, by the index of the context: what the output buffers hold after a call
    (all outputs of an allreduce hold the same).  ATen: cat of flat tensors, and
    the operations on sparse tensors, whose contents are part of the world. *)
Class Gloo (D W : Type) := {
  gloo_call : nat -> gloo_op D -> M W (list D);
  gloo_call_long : nat -> gloo_op Z -> M W (list Z);
  at_empty_long : nat -> list Z;
  at_cat : list (ScalarType * list D) -> ScalarType * list D;
  sparse_read : Tensor -> W -> sparse D;
  sparse_add_ : Tensor -> Tensor -> M W unit;
  coalesce : sparse D -> sparse D;
  sparse_coo_tensor : list Z -> list D -> list Z -> Z -> ScalarType -> outcome (sparse D);
  sparse_add : sparse D -> sparse D -> outcome (sparse D);
  sparse_copy_ : Tensor -> sparse D -> M W unit;
}.

(** The work objects of the collectives, with what they capture. *)
Inductive entry : Type :=
  | AsyncBroadcastWork (inputs : list Tensor) (rootRank rootTensor : Z)
  | AsyncAllreduceWork (inputs : list Tensor) (reduceOp : ReduceOp)
  | AsyncAllreduceCoalescedWork (inputs : list Tensor) (reduceOp : ReduceOp)
  | AsyncSparseAllreduceWork (inputs : list Tensor)
  | AsyncReduceWork (inputs : list Tensor) (rootRank rootTensor : Z) (reduceOp : ReduceOp)
  | AsyncAllgatherWork (outputs : list (list Tensor)) (inputs : list Tensor)
  | AsyncAllgatherCoalescedWork (output_lists : list (list Tensor)) (input_list : list Tensor)
  | AsyncGatherWork (outputs : list (list Tensor)) (inputs : list Tensor) (root : Z)
  | AsyncScatterWork (outputs : list Tensor) (inputs : list (list Tensor)) (root : Z)
  | AsyncAlltoallWork (outputTensor inputTensor : Tensor) (outputCounts inputCounts : list Z)
  | AsyncBarrierWork (priorWork : list (option nat)).
(** [issued_before] records how many works the group had when the call began. *)
Record job := mkJob { context : nat; tag : Z; what : entry; issued_before : nat }.

(** *** Metadata of sparse tensors

    Nine numbers: sparse sizes in the first four, dense sizes in the next four,
    then nnz. *)
Definition SparseTensorMetadata_dim : nat := 9.
Definition populate_from_sparse_tensor {D} (tensor : sparse D) (data_ : list Z) : outcome (list Z) :=
  check! sparse_dim tensor <=? 4 else AssertFailed "sparse_dim <= 4" in
  let sd := Z.to_nat (sparse_dim tensor) in
  let data_ := list_inserts 0 (take sd (sizes tensor)) data_ in
  check! Z.of_nat (length (sizes tensor)) - sparse_dim tensor <=? 4 else AssertFailed "dense_dim <= 4" in
  let data_ := list_inserts 4 (drop sd (sizes tensor)) data_ in
  Ret (<[8%nat := nnz tensor]> data_).
(** The loops of sizes(): they stop at the first number that is not positive. *)
Fixpoint positives (l : list Z) : list Z :=
  match l with [] => [] | x :: l => if x <=? 0 then [] else x :: positives l end.
Definition metadata_sizes (data_ : list Z) : list Z :=
  positives (take 4 data_) ++ positives (take 4 (drop 4 data_)).
Definition metadata_nnz (data_ : list Z) : Z := nth 8 data_ 0.

Section gloo.
Context {D W : Type} `{aten : ATen D} `{gloo : Gloo D W}.
#[local] Set Default Proof Using "Type".
#[local] Set Proof Using Clear Unused.
#[local] Set Warnings "-clear-no-such-hyp".
Variable rank_ size_ : Z.
Abbreviation heap := (heap_of D).
Abbreviation rstate := (rstate_of D W).
Definition group : nat := Z.to_nat size_.

(** ** Running *)

(** getDataPointer<T>, and what is behind it. *)
Definition data_ptr (T : ScalarType) (t : Tensor) : M rstate (list D) :=
  do! lift (ocheck (is_contiguous t) (Undefined "data_ptr of a tensor that is not contiguous")) in
  do! lift (ocheck (bool_decide (scalar_type t = T)) (Undefined "data_ptr cast to another type")) in
  gets (fun s => read s.1 t).
Fixpoint data_ptrs (T : ScalarType) (tensors : list Tensor) : M rstate (list (list D)) :=
  match tensors with
  | [] => ret []
  | t :: tensors => let! p := data_ptr T t in let! ps := data_ptrs T tensors in ret (p :: ps)
  end.
Definition flattenDenseTensors (tensors : list Tensor) : M rstate (ScalarType * list D) :=
  let! h := gets fst in
  match tensors with
  | [] => throw (RuntimeError "expected a non-empty list of Tensors")
  | [t] => ret (scalar_type t, read h t)
  | _ => ret (at_cat (map (fun t => (scalar_type t, read h t)) tensors))
  end.
(** The pointer to a flat tensor. *)
Definition flat_ptr (T : ScalarType) (flat : ScalarType * list D) : M rstate (list D) :=
  do! lift (ocheck (bool_decide (flat.1 = T)) (Undefined "data_ptr cast to another type")) in ret flat.2.

Definition run_broadcast (c : nat) (tag : Z) (inputs : list Tensor) (rootRank rootTensor : Z) : M rstate unit :=
  let! root := lift (at_index inputs (Z.to_nat rootTensor)) in
  do! lift (GENERATE_ALL_TYPES (scalar_type root)) in
  let! output := data_ptr (scalar_type root) root in
  let! result := in_world (gloo_call c (gloo_broadcast tag rootRank output)) in
  do! write root result in
  for_each (seq 0 (length inputs)) (fun i =>
    if (i =? Z.to_nat rootTensor)%nat then ret tt
    else let! t := lift (at_index inputs i) in copy_ t root).

(** AsyncAllreduceWork::allreduce up to the call. *)
Definition call_allreduce (c : nat) (tag : Z) (type : ScalarType) (reduceOp : ReduceOp)
    (outputs : M rstate (list (list D))) (numel0 : Z) : M rstate (list D) :=
  let! fn := lift (getFunction type reduceOp) in
  do! lift (GENERATE_ALL_TYPES type) in
  let! outputs := outputs in
  in_world (gloo_call c (gloo_allreduce tag fn outputs numel0)).
Definition run_allreduce (c : nat) (tag : Z) (inputs : list Tensor) (reduceOp : ReduceOp) : M rstate unit :=
  let! t0 := lift (at_index inputs 0) in
  let! result := call_allreduce c tag (scalar_type t0) reduceOp (data_ptrs (scalar_type t0) inputs) (numel t0) in
  for_each inputs (fun t => write t result).

(** [tensor.copy_(flat.slice(0, offset, offset + numel).view(sizes))] *)
Fixpoint copy_slices (flat_type : ScalarType) (tensors : list Tensor) (flat : list D) : M rstate unit :=
  match tensors with
  | [] => ret tt
  | t :: tensors =>
      let n := Z.to_nat (numel t) in
      let! l := lift (copied (tsizes (base t)) (scalar_type t) (tsizes (base t)) flat_type (take n flat)) in
      do! write t l in
      copy_slices flat_type tensors (drop n flat)
  end.
Definition run_allreduce_coalesced (c : nat) (tag : Z) (inputs : list Tensor) (reduceOp : ReduceOp) : M rstate unit :=
  let! flat := flattenDenseTensors inputs in
  let! result := call_allreduce c tag flat.1 reduceOp (ret [flat.2]) (Z.of_nat (length flat.2)) in
  copy_slices flat.1 inputs result.

(** The outputs are read in the order of their positions in the list. *)
Definition run_reduce (c : nat) (tag : Z) (inputs : list Tensor) (rootRank : Z) (reduceOp : ReduceOp) : M rstate unit :=
  let! t0 := lift (at_index inputs 0) in
  let! fn := lift (getFunction (scalar_type t0) reduceOp) in
  do! lift (GENERATE_ALL_TYPES (scalar_type t0)) in
  let! output := data_ptr (scalar_type t0) t0 in
  let! result := in_world (gloo_call c (gloo_reduce tag rootRank fn output)) in
  write t0 result.

Definition run_allgather (c : nat) (tag : Z) (outputs : list (list Tensor)) (inputs : list Tensor) : M rstate unit :=
  let! in0 := lift (at_index inputs 0) in
  let! flatInput := flattenDenseTensors inputs in
  do! lift (GENERATE_ALL_TYPES (scalar_type in0)) in
  let! input := flat_ptr (scalar_type in0) flatInput in
  let! outputs0 := lift (at_index outputs 0) in
  let! flatOutput := lift (flat_like outputs0) in
  let! result := in_world (gloo_call c (gloo_allgather tag (Some input) flatOutput)) in
  let! t0 := lift (at_index outputs0 0) in
  for_each outputs (fun l => copy_flat t0 l result).

Definition run_allgather_coalesced (c : nat) (tag : Z) (output_lists : list (list Tensor)) (input_list : list Tensor) : M rstate unit :=
  let! in0 := lift (at_index input_list 0) in
  let! flatInput := flattenDenseTensors input_list in
  do! lift (GENERATE_ALL_TYPES (scalar_type in0)) in
  let! input := flat_ptr (scalar_type in0) flatInput in
  let! list0 := lift (at_index output_lists 0) in
  let output_numel := int64 (foldl (fun n t => int64 (n + numel t)) 0 list0 * Z.of_nat (length output_lists)) in
  let! out00 := lift (at_index list0 0) in
  let! result := in_world (gloo_call c (gloo_allgather tag (Some input) (at_empty (Z.to_nat output_numel)))) in
  copy_slices (scalar_type out00) (concat output_lists) result.

Definition run_gather (c : nat) (tag : Z) (outputs : list (list Tensor)) (inputs : list Tensor) (root : Z) : M rstate unit :=
  let! in0 := lift (at_index inputs 0) in
  let! output :=
    if rank_ =? root then
      let! outputs0 := lift (at_index outputs 0) in
      let! flat := lift (flat_like outputs0) in
      do! lift (GENERATE_ALL_TYPES (scalar_type in0)) in ret (Some flat)
    else ret None in
  do! lift (GENERATE_ALL_TYPES (scalar_type in0)) in
  let! input := data_ptr (scalar_type in0) in0 in
  let! result := in_world (gloo_call c (gloo_gather tag root input output)) in
  if rank_ =? root then
    let! outputs0 := lift (at_index outputs 0) in
    let! t0 := lift (at_index outputs0 0) in
    copy_flat t0 outputs0 result
  else ret tt.

Definition run_scatter (c : nat) (tag : Z) (outputs : list Tensor) (inputs : list (list Tensor)) (root : Z) : M rstate unit :=
  let! out0 := lift (at_index outputs 0) in
  let type := scalar_type out0 in
  let! ins :=
    if rank_ =? root then
      let! inputs0 := lift (at_index inputs 0) in
      do! lift (GENERATE_ALL_TYPES type) in
      let! ptrs := data_ptrs type inputs0 in
      let! t0 := lift (at_index inputs0 0) in
      ret (Some ptrs, numel t0)
    else ret (None, 0) in
  do! lift (GENERATE_ALL_TYPES type) in
  let! output := data_ptr type out0 in
  let! result := in_world (gloo_call c (gloo_scatter tag root ins.1 ins.2 output)) in
  write out0 result.

(** checkSplitSizes of Utils.hpp; the size is read after the test of the number
    of splits. *)
Definition size0 (t : Tensor) : outcome Z :=
  match tsizes (base t) with [] => Throw (CheckFailed "Dimension specified as 0 but tensor has no dimensions") | d :: _ => Ret d end.
Definition checkSplitSizes_of (split_sizes : list Z) (t : Tensor) : outcome unit :=
  check! Nat.eqb (length split_sizes) 0 || (Z.of_nat (length split_sizes) =? uint64 size_)
    else CheckFailed "Number of tensor splits not equal to group size" in
  let? dim0 := size0 t in
  checkSplitSizes split_sizes dim0 size_.
Definition lengths_of (split_sizes : list Z) (t : Tensor) : outcome (list Z * list Z * Z) :=
  let? dim0 := size0 t in
  computeLengthsAndOffsets split_sizes dim0 (numel t) group.

Definition run_alltoall (c : nat) (tag : Z) (outputTensor inputTensor : Tensor) (outputCounts inputCounts : list Z) : M rstate unit :=
  let type := scalar_type outputTensor in
  let! op :=
    if (length outputCounts =? 0)%nat && (length inputCounts =? 0)%nat then
      do! lift (GENERATE_ALL_TYPES type) in
      let! input := data_ptr type inputTensor in
      let! output := data_ptr type outputTensor in
      ret (gloo_alltoall tag input output)
    else
      do! lift (checkSplitSizes_of inputCounts inputTensor) in
      do! lift (checkSplitSizes_of outputCounts outputTensor) in
      let! s := lift (lengths_of inputCounts inputTensor) in
      let! r := lift (lengths_of outputCounts outputTensor) in
      do! lift (GENERATE_ALL_TYPES type) in
      let! input := data_ptr type inputTensor in
      let! output := data_ptr type outputTensor in
      ret (gloo_alltoallv tag input s.1.1 output r.1.1) in
  let! result := in_world (gloo_call c op) in
  write outputTensor result.

Definition run_barrier (c : nat) (tag : Z) : M rstate unit :=
  do! in_world (gloo_call c (gloo_barrier tag)) in ret tt.

(** *** Sparse allreduce *)

Definition row_of (buffer : list Z) (i : nat) : list Z :=
  take SparseTensorMetadata_dim (drop (i * SparseTensorMetadata_dim) buffer).
Definition allgather_metadata (c : nat) (tag : Z) (tensor : sparse D) : M rstate (list (list Z)) :=
  let buffer := replicate (group * SparseTensorMetadata_dim) 0 in
  let r := Z.to_nat rank_ in
  let! row := lift (populate_from_sparse_tensor tensor (row_of buffer r)) in
  let buffer := list_inserts (r * SparseTensorMetadata_dim) row buffer in
  let! result := in_world (gloo_call_long c (gloo_allgather tag None buffer)) in
  ret (map (row_of result) (seq 0 group)).

(** Tensor.narrow(0, start, length) of a flat tensor. *)
Definition narrow {A} (l : list A) (start len : Z) : outcome (list A) :=
  check! (0 <=? start) && (0 <=? len) && (start + len <=? Z.of_nat (length l)) else CheckFailed "start + length exceeds dimension size" in
  Ret (take (Z.to_nat len) (drop (Z.to_nat start) l)).
Fixpoint narrow_all {A} (l : list A) (offset : Z) (numels : list Z) : outcome (list (list A)) :=
  match numels with
  | [] => Ret []
  | n :: numels =>
      let? x := narrow l (int64 offset) n in
      let? xs := narrow_all l (uint64 (offset + n)) numels in
      Ret (x :: xs)
  end.
(** totalSize += counts[i] *)
Definition totalSize (counts : list Z) : Z := foldl (fun n k => int64 (n + k)) 0 counts.

Definition allgather_indices (c : nat) (tag : Z) (tensor : sparse D) (metadata : list (list Z)) : M rstate (list (list Z)) :=
  let counts := map (fun m => uint64 (metadata_nnz m * sparse_dim tensor)) metadata in
  do! lift (ocheck (0 <=? totalSize counts) (CheckFailed "Trying to create tensor with negative dimension ")) in
  let output := at_empty_long (Z.to_nat (totalSize counts)) in
  let! result := in_world (gloo_call_long c (gloo_allgatherv tag (indices tensor) output counts)) in
  lift (narrow_all result 0 (map (fun m => int64 (sparse_dim tensor * metadata_nnz m)) metadata)).
Definition denseNumel (tensor : sparse D) : Z :=
  foldl (fun n d => uint64 (n * d)) 1 (drop (Z.to_nat (sparse_dim tensor)) (sizes tensor)).
Definition allgather_values (c : nat) (tag : Z) (tensor : sparse D) (metadata : list (list Z)) : M rstate (list (list D)) :=
  let counts := map (fun m => uint64 (metadata_nnz m * denseNumel tensor)) metadata in
  do! lift (ocheck (0 <=? totalSize counts) (CheckFailed "Trying to create tensor with negative dimension ")) in
  let output := at_empty (Z.to_nat (totalSize counts)) in
  do! lift (GENERATE_ALL_TYPES (sparse_type tensor)) in
  let! result := in_world (gloo_call c (gloo_allgatherv tag (values tensor) output counts)) in
  lift (narrow_all result 0 (map (fun m => int64 (uint64 (denseNumel tensor * metadata_nnz m))) metadata)).

(** "Sanity check dimensionality across ranks." *)
Definition dimensions_match (metadata : list (list Z)) : outcome unit :=
  let? expected := at_index metadata (Z.to_nat rank_) in
  for_range 0 group (fun i =>
    if (i =? Z.to_nat rank_)%nat then Ret tt
    else
      let? actual := at_index metadata i in
      ocheck (bool_decide (metadata_sizes actual = metadata_sizes expected)) (CheckFailed "Sparse dimensions do not match")).
(** output += sparse_coo_tensor(indices[i], values[i], ...) *)
Fixpoint sum_sparse (input : sparse D) (output : sparse D) (l : list (list Z * list D)) : outcome (sparse D) :=
  match l with
  | [] => Ret output
  | (i, v) :: l =>
      let? t := sparse_coo_tensor i v (sizes input) (sparse_dim input) (sparse_type input) in
      let? output := sparse_add output t in
      sum_sparse input output l
  end.
Definition sparse_allreduce (c : nat) (tag : Z) (tensors : list Tensor) : M rstate (sparse D) :=
  let! t0 := lift (at_index tensors 0) in
  do! for_each (drop 1 tensors) (fun t => in_world (sparse_add_ t0 t)) in
  let! input := gets (fun s => coalesce (sparse_read t0 s.2)) in
  let! metadata := allgather_metadata c tag input in
  do! lift (dimensions_match metadata) in
  let! indices := allgather_indices c tag input metadata in
  let! values := allgather_values c tag input metadata in
  match zip indices values with
  | [] => throw (Undefined "indices[0]")
  | (i, v) :: l =>
      let! output := lift (sparse_coo_tensor i v (sizes input) (sparse_dim input) (sparse_type input)) in
      let! output := lift (sum_sparse input output l) in
      ret (coalesce output)
  end.
Definition run_sparse_allreduce (c : nat) (tag : Z) (inputs : list Tensor) : M rstate unit :=
  let! output := sparse_allreduce c tag inputs in
  for_each inputs (fun t => in_world (sparse_copy_ t output)).

(** The run functions; that of a barrier without its waits. *)
Definition run_job (j : job) : M rstate unit :=
  let c := context j in
  let tag := tag j in
  match what j with
  | AsyncBroadcastWork inputs rootRank rootTensor => run_broadcast c tag inputs rootRank rootTensor
  | AsyncAllreduceWork inputs reduceOp => run_allreduce c tag inputs reduceOp
  | AsyncAllreduceCoalescedWork inputs reduceOp => run_allreduce_coalesced c tag inputs reduceOp
  | AsyncSparseAllreduceWork inputs => run_sparse_allreduce c tag inputs
  | AsyncReduceWork inputs rootRank _ reduceOp => run_reduce c tag inputs rootRank reduceOp
  | AsyncAllgatherWork outputs inputs => run_allgather c tag outputs inputs
  | AsyncAllgatherCoalescedWork output_lists input_list => run_allgather_coalesced c tag output_lists input_list
  | AsyncGatherWork outputs inputs root => run_gather c tag outputs inputs root
  | AsyncScatterWork outputs inputs root => run_scatter c tag outputs inputs root
  | AsyncAlltoallWork outputTensor inputTensor outputCounts inputCounts =>
      run_alltoall c tag outputTensor inputTensor outputCounts inputCounts
  | AsyncBarrierWork _ => run_barrier c tag
  end.
(** result() of an allreduce work that has been completed with [w]: outputs_ is set
    at the end of a run, and never by the coalesced variant. *)
Definition result_allreduce (e : entry) (w : Work) : outcome (list Tensor) :=
  match e with
  | AsyncAllreduceWork inputs _ =>
      check! isCompleted w else CheckFailed "Work needs to be completed before calling result(). Should call wait() before result()." in
      Ret (if isSuccess w then inputs else [])
  | AsyncAllreduceCoalescedWork _ _ =>
      check! isCompleted w else CheckFailed "Work needs to be completed before calling result(). Should call wait() before result()." in
      Ret []
  | _ => Throw (RuntimeError "result() not implemented.")
  end.

#[local] Arguments run_job : simpl never.

(** ** The process group *)

Inductive worker_pc : Type :=
  | WTest                                              (* about to test stop_ and the queue, under the lock *)
  | WWaiting                                           (* in workProduceCV_.wait *)
  | WPopped (id : nat)                                 (* before workConsumeCV_.notify_one *)
  | WStart (id : nat)                                  (* at work->run() *)
  | WPrior (id : nat) (priorWork : list (option nat))  (* a barrier with the prior works it has not looked at *)
  | WFinish (id : nat) (eptr : option exn)             (* at work->finish(eptr) *)
  | WReset (id : nat)                                  (* before workInProgress_[workerIndex].reset() *)
  | WExited.
(** The thread that runs the destructor. *)
Inductive destroyer_pc : Type :=
  | DNone
  | DTest                                              (* about to test the queue, under the lock *)
  | DWaiting                                           (* in workConsumeCV_.wait *)
  | DNotify                                            (* stop_ is set; before notify_all *)
  | DJoin
  | DDone.
#[global] Instance destroyer_pc_eq_dec : EqDecision destroyer_pc.
Proof. solve_decision. Defined.
#[global] Instance worker_pc_eq_dec : EqDecision worker_pc.
Proof. solve_decision. Defined.

(** Work objects are named by their position in [works_]; [jobs_] has what they
    captured.  [notifies_]: calls of enqueue that are about to notify.
    [snapshots_]: calls of barrier() that have taken their snapshot, with the
    number of works there were. *)
Record pgg := mkPG {
  contexts_ : nat;
  collectiveCounter_ : Z;
  workQueue_ : list nat;
  workInProgress_ : list (option nat);
  stop_ : bool;
  jobs_ : list job;
  works_ : list Work;
  state_ : rstate;
  workers_ : list worker_pc;
  destroyer_ : destroyer_pc;
  notifies_ : nat;
  snapshots_ : list (list (option nat) * nat);
}.
Definition upd_counter (f : Z -> Z) (s : pgg) : pgg :=
  mkPG (contexts_ s) (f (collectiveCounter_ s)) (workQueue_ s) (workInProgress_ s) (stop_ s) (jobs_ s) (works_ s) (state_ s)
    (workers_ s) (destroyer_ s) (notifies_ s) (snapshots_ s).
Definition set_worker (i : nat) (w : worker_pc) (s : pgg) : pgg :=
  mkPG (contexts_ s) (collectiveCounter_ s) (workQueue_ s) (workInProgress_ s) (stop_ s) (jobs_ s) (works_ s) (state_ s)
    (<[i := w]> (workers_ s)) (destroyer_ s) (notifies_ s) (snapshots_ s).
Definition set_destroyer (d : destroyer_pc) (s : pgg) : pgg :=
  mkPG (contexts_ s) (collectiveCounter_ s) (workQueue_ s) (workInProgress_ s) (stop_ s) (jobs_ s) (works_ s) (state_ s)
    (workers_ s) d (notifies_ s) (snapshots_ s).

(** [connect i d]: a context for the i-th device, connected to the other ranks
    through the store with prefix i. *)
Definition ProcessGroupGloo_construct {device ctx : Type} (connect : nat -> device -> M rstate ctx)
    (devices : list device) (threads : Z) (s0 : rstate) : outcome pgg * rstate :=
  if (length devices =? 0)%nat then (Throw (RuntimeError "No device(s) specified"), s0)
  else
    match for_each (zip (seq 0 (length devices)) devices) (fun p => do! connect p.1 p.2 in ret tt) s0 with
    | (Ret _, s1) =>
        if threads <? 0 then (Throw (LengthError "vector::_M_default_append"), s1)
        else (Ret (mkPG (length devices) 0 [] (replicate (Z.to_nat threads) None) false [] [] s1
                        (replicate (Z.to_nat threads) WTest) DNone 0 []), s1)
    | (Throw e, s1) => (Throw e, s1)
    | (Block, s1) => (Block, s1)
    end.

Definition nextTag : M pgg Z :=
  let! tag := gets collectiveCounter_ in
  do! modify (upd_counter (fun c => uint32 (c + 1))) in
  ret tag.
Definition getContext (tag : Z) : M pgg nat :=
  let! n := gets contexts_ in
  do! assert_ (negb (n =? 0)%nat) (Undefined "tag % 0") in
  ret (Z.to_nat (tag mod Z.of_nat n)).
(** enqueue up to the unlocking; the notification is a step of its own. *)
Definition enqueue (j : job) : M pgg nat :=
  let! id := gets (fun s => length (works_ s)) in
  do! modify (fun s =>
    mkPG (contexts_ s) (collectiveCounter_ s) (workQueue_ s ++ [id]) (workInProgress_ s) (stop_ s) (jobs_ s ++ [j])
      (works_ s ++ [new_Work (-1) UNKNOWN false]) (state_ s) (workers_ s) (destroyer_ s) (S (notifies_ s)) (snapshots_ s)) in
  ret id.
(** The common end of the collectives. *)
Definition start_work (e : entry) : M pgg nat :=
  let! n := gets (fun s => length (works_ s)) in
  let! tag := nextTag in
  let! c := getContext tag in
  enqueue (mkJob c tag e n).

(** ** The collectives *)

(** The options of a tensor with what their type_equal compares. *)
Abbreviation tensor_type := (bool * bool * ScalarType)%type.
Definition type_equal (a b : tensor_type) : bool := bool_decide (a = b).
Definition view (t : Tensor) : @NetUtils.Tensor tensor_type :=
  mkTensor (type t) (tlayout (base t)) (tdevice (base t)) (tsizes (base t)) (tstrides (base t)).
Definition views (l : list Tensor) : list (@NetUtils.Tensor tensor_type) := map view l.
Definition invalid (fn msg : string) : outcome unit := Throw (InvalidArgument (fn +:+ msg)).
(** The switch on the type of the device of the first tensor. *)
Definition check_device (fn : string -> outcome unit) (tensors : list Tensor) : outcome unit :=
  let? t := at_index tensors 0 in
  report fn (is_cuda t) "unsupported device type ".
Definition int_size {A} (l : list A) : Z := int32 (Z.of_nat (length l)).

Definition check_broadcast (inputs : list Tensor) (rootRank rootTensor : Z) : outcome unit :=
  let fn := invalid "ProcessGroupGloo::broadcast: " in
  let? _ := assertRootRank fn rootRank size_ in
  let? _ := assertRootTensor fn rootTensor (int_size inputs) in
  let? _ := assertDense fn (views inputs) in
  let? _ := assertTypeAndSizesMatch type_equal fn (views inputs) in
  check_device fn inputs.
Definition broadcast (inputs : list Tensor) (rootRank rootTensor : Z) : M pgg nat :=
  do! lift (check_broadcast inputs rootRank rootTensor) in
  start_work (AsyncBroadcastWork inputs rootRank rootTensor).

Definition check_allreduce (inputs : list Tensor) (reduceOp : ReduceOp) : outcome unit :=
  let fn := invalid "ProcessGroupGloo::allreduce: " in
  let? _ := assertNonEmpty fn (views inputs) in
  let? _ := assertLayoutMatch fn (views inputs) in
  let? _ := assertTypeAndSizesMatch type_equal fn (views inputs) in
  let? _ := check_device fn inputs in
  let? t0 := at_index inputs 0 in
  report fn (is_sparse t0 && negb (bool_decide (reduceOp = SUM))) "unsupported reduction operation ".
(** The layout is looked at only after the tag has been taken. *)
Definition allreduce (inputs : list Tensor) (reduceOp : ReduceOp) : M pgg nat :=
  do! lift (check_allreduce inputs reduceOp) in
  let! n := gets (fun s => length (works_ s)) in
  let! tag := nextTag in
  let! c := getContext tag in
  let! t0 := lift (at_index inputs 0) in
  match tlayout (base t0) with
  | kStrided => enqueue (mkJob c tag (AsyncAllreduceWork inputs reduceOp) n)
  | kSparse => enqueue (mkJob c tag (AsyncSparseAllreduceWork inputs) n)
  | kMkldnn => throw (InvalidArgument "ProcessGroupGloo::allreduce: unsupported layout")
  end.

Definition check_allreduce_coalesced (tensors : list Tensor) : outcome unit :=
  let fn := invalid "ProcessGroupGloo::allreduce_coalesced: " in
  let? _ := assertNonEmpty fn (views tensors) in
  let? _ := assertLayoutMatch fn (views tensors) in
  let? t0 := at_index tensors 0 in
  let? _ := report fn (negb (forallb (fun t => type_equal (type t) (type t0)) tensors)) "tensors must all have the same type" in
  let? _ := report fn (negb (forallb (fun t => bool_decide (tdevice (base t) = tdevice (base t0))) tensors))
              "tensors must all be on the same device" in
  let? _ := check_device fn tensors in
  report fn (negb (bool_decide (tlayout (base t0) = kStrided))) "unsupported layout".
Definition allreduce_coalesced (tensors : list Tensor) (reduceOp : ReduceOp) : M pgg nat :=
  do! lift (check_allreduce_coalesced tensors) in
  start_work (AsyncAllreduceCoalescedWork tensors reduceOp).

Definition check_reduce (inputs : list Tensor) (rootRank rootTensor : Z) : outcome unit :=
  let fn := invalid "ProcessGroupGloo::reduce: " in
  let? _ := assertRootRank fn rootRank size_ in
  let? _ := assertRootTensor fn rootTensor (int_size inputs) in
  let? _ := assertSingleElement fn (views inputs) in
  let? _ := assertDense fn (views inputs) in
  check_device fn inputs.
Definition reduce (inputs : list Tensor) (reduceOp : ReduceOp) (rootRank rootTensor : Z) : M pgg nat :=
  do! lift (check_reduce inputs rootRank rootTensor) in
  start_work (AsyncReduceWork inputs rootRank rootTensor reduceOp).

Definition check_allgather (outputs : list (list Tensor)) (inputs : list Tensor) : outcome unit :=
  let fn := invalid "ProcessGroupGloo::allgather: " in
  let? _ := report fn (length inputs =? 0)%nat "requires non-empty input tensor list" in
  let? _ := report fn (negb (length inputs =? length outputs)%nat) "requires input/output tensor lists to have the same length" in
  let? _ := for_range 0 (length outputs) (fun i =>
    let? l := at_index outputs i in
    report fn (negb (Z.of_nat (length l) =? uint64 (Z.of_nat (length inputs) * uint64 size_))) "invalid output tensor list at index ") in
  let? _ := assertDense fn (views inputs) in
  let? t0 := at_index (views inputs) 0 in
  let? _ := assertTypeAndSizesMatch_with type_equal fn (views inputs) (topts t0) (tsizes t0) in
  let? _ := for_range 0 (length outputs) (fun i =>
    let? l := at_index outputs i in
    assertTypeAndSizesMatch_with type_equal fn (views l) (topts t0) (tsizes t0)) in
  check_device fn inputs.
Definition allgather (outputs : list (list Tensor)) (inputs : list Tensor) : M pgg nat :=
  do! lift (check_allgather outputs inputs) in
  start_work (AsyncAllgatherWork outputs inputs).

Definition check_allgather_coalesced (output_lists : list (list Tensor)) (input_list : list Tensor) : outcome unit :=
  let fn := invalid "ProcessGroupGloo::allgather_coalesced: " in
  let? _ := report fn (length input_list =? 0)%nat "requires non-empty input tensor list" in
  let? _ := report fn (negb (Z.of_nat (length output_lists) =? uint64 size_)) "output lists should be equal to world size" in
  let? _ := assertSameDevice fn (views input_list) in
  let? _ := for_range 0 (length output_lists) (fun k =>
    let? output_list := at_index output_lists k in
    let? _ := report fn (negb (length output_list =? length input_list)%nat) "invalid output size: (expected length " in
    for_range 0 (length output_list) (fun i =>
      let? expected := at_index input_list i in
      let? actual := at_index output_list i in
      let? _ := report fn (negb (bool_decide (tsizes (base actual) = tsizes (base expected)))) "invalid size of output tensor at index " in
      report fn (negb (type_equal (type expected) (type actual))) "invalid tensor type at index ")) in
  assertDense fn (views input_list).
Definition allgather_coalesced (output_lists : list (list Tensor)) (input_list : list Tensor) : M pgg nat :=
  do! lift (check_allgather_coalesced output_lists input_list) in
  start_work (AsyncAllgatherCoalescedWork output_lists input_list).

Definition check_gather (outputs : list (list Tensor)) (inputs : list Tensor) (rootRank : Z) : outcome unit :=
  let fn := invalid "ProcessGroupGloo::gather: " in
  let? _ := assertRootRank fn rootRank size_ in
  let? _ := assertSingleElementInput fn (views inputs) in
  let? _ := assertDense fn (views inputs) in
  let? _ :=
    if rank_ =? rootRank then
      let? _ := report fn (negb (length outputs =? 1)%nat) "requires a single-element output list containing a list with " in
      let? outputs0 := at_index outputs 0 in
      let? _ := report fn (negb (Z.of_nat (length outputs0) =? uint64 size_)) "Incorrect output list size " in
      let? t0 := at_index (views inputs) 0 in
      assertTypeAndSizesMatch_with type_equal fn (views outputs0) (topts t0) (tsizes t0)
    else report fn (negb (length outputs =? 0)%nat) "requires empty output on non-root" in
  check_device fn inputs.
Definition gather (outputs : list (list Tensor)) (inputs : list Tensor) (rootRank : Z) : M pgg nat :=
  do! lift (check_gather outputs inputs rootRank) in
  start_work (AsyncGatherWork outputs inputs rootRank).

Definition check_scatter (outputs : list Tensor) (inputs : list (list Tensor)) (rootRank : Z) : outcome unit :=
  let fn := invalid "ProcessGroupGloo::scatter: " in
  let? _ := assertRootRank fn rootRank size_ in
  let? _ := assertSingleElementOutput fn (views outputs) in
  let? _ := assertDense fn (views outputs) in
  let? _ :=
    if rank_ =? rootRank then
      let? _ := report fn (negb (length inputs =? 1)%nat) "requires a single-element input list containing a list with " in
      let? inputs0 := at_index inputs 0 in
      let? _ := report fn (negb (Z.of_nat (length inputs0) =? uint64 size_)) "Incorrect input list size " in
      let? t0 := at_index (views outputs) 0 in
      assertTypeAndSizesMatch_with type_equal fn (views inputs0) (topts t0) (tsizes t0)
    else report fn (negb (length inputs =? 0)%nat) "requires empty input on non-root" in
  check_device fn outputs.
Definition scatter (outputs : list Tensor) (inputs : list (list Tensor)) (rootRank : Z) : M pgg nat :=
  do! lift (check_scatter outputs inputs rootRank) in
  start_work (AsyncScatterWork outputs inputs rootRank).

Definition check_alltoall_base (outputTensor inputTensor : Tensor) : outcome unit :=
  let fn := invalid "ProcessGroupGloo::alltoall_base: " in
  check! bool_decide (tdevice (base outputTensor) = tdevice (base inputTensor))
    else CheckFailed "output tensor and input tensor must be on the same type of device" in
  let? _ := assertDense fn [view outputTensor] in
  assertDense fn [view inputTensor].
(** The device is looked at only after the tag has been taken. *)
Definition alltoall_base (outputTensor inputTensor : Tensor) (outputCounts inputCounts : list Z) : M pgg nat :=
  do! lift (check_alltoall_base outputTensor inputTensor) in
  let! n := gets (fun s => length (works_ s)) in
  let! tag := nextTag in
  let! c := getContext tag in
  if is_cuda outputTensor then throw (InvalidArgument "ProcessGroupGloo::alltoall_base: unsupported device type ")
  else enqueue (mkJob c tag (AsyncAlltoallWork outputTensor inputTensor outputCounts inputCounts) n).

(** The operations that are not supported. *)
Definition allgather_base : M pgg nat := throw (RuntimeError "no support for allgather_base in Gloo process group").
Definition reduce_scatter : M pgg nat := throw (RuntimeError "ProcessGroupGloo does not support reduce_scatter").

(** barrier() in two parts: the snapshot, under the lock, and the rest. *)
Definition barrier_snapshot (s : pgg) : list (option nat) * nat :=
  (workInProgress_ s ++ map Some (workQueue_ s), length (works_ s)).
Definition barrier_enqueue (snapshot : list (option nat) * nat) : M pgg nat :=
  let! tag := nextTag in
  let! c := getContext tag in
  enqueue (mkJob c tag (AsyncBarrierWork snapshot.1) snapshot.2).

(** A call of a collective other than barrier. *)
Inductive call : Type :=
  | CBroadcast (inputs : list Tensor) (rootRank rootTensor : Z)
  | CAllreduce (inputs : list Tensor) (reduceOp : ReduceOp)
  | CAllreduceCoalesced (tensors : list Tensor) (reduceOp : ReduceOp)
  | CReduce (inputs : list Tensor) (reduceOp : ReduceOp) (rootRank rootTensor : Z)
  | CAllgather (outputs : list (list Tensor)) (inputs : list Tensor)
  | CAllgatherCoalesced (output_lists : list (list Tensor)) (input_list : list Tensor)
  | CGather (outputs : list (list Tensor)) (inputs : list Tensor) (rootRank : Z)
  | CScatter (outputs : list Tensor) (inputs : list (list Tensor)) (rootRank : Z)
  | CAlltoallBase (outputTensor inputTensor : Tensor) (outputCounts inputCounts : list Z)
  | CAllgatherBase
  | CReduceScatter.
Definition do_call (c : call) : M pgg nat :=
  match c with
  | CBroadcast inputs rootRank rootTensor => broadcast inputs rootRank rootTensor
  | CAllreduce inputs reduceOp => allreduce inputs reduceOp
  | CAllreduceCoalesced tensors reduceOp => allreduce_coalesced tensors reduceOp
  | CReduce inputs reduceOp rootRank rootTensor => reduce inputs reduceOp rootRank rootTensor
  | CAllgather outputs inputs => allgather outputs inputs
  | CAllgatherCoalesced output_lists input_list => allgather_coalesced output_lists input_list
  | CGather outputs inputs rootRank => gather outputs inputs rootRank
  | CScatter outputs inputs rootRank => scatter outputs inputs rootRank
  | CAlltoallBase outputTensor inputTensor outputCounts inputCounts => alltoall_base outputTensor inputTensor outputCounts inputCounts
  | CAllgatherBase => allgather_base
  | CReduceScatter => reduce_scatter
  end.
#[local] Arguments do_call : simpl never.
#[local] Arguments barrier_enqueue : simpl never.

(** ** Threads *)

Definition wake_destroyer (d : destroyer_pc) : destroyer_pc := match d with DWaiting => DTest | d => d end.
Definition wake_worker (w : worker_pc) : worker_pc := match w with WWaiting => WTest | w => w end.

(** The exception that execute() catches; [Block]: a call of gloo does not return. *)
Definition run_result (o : outcome unit) : option (option exn) :=
  match o with Ret _ => Some None | Throw e => Some (Some e) | Block => None end.
(** work->run(), but for the waits of a barrier. *)
Definition run_step (i id : nat) (s : pgg) : option pgg :=
  match jobs_ s !! id with
  | None => None
  | Some j =>
      let '(o, st) := run_job j (state_ s) in
      match run_result o with
      | None => None
      | Some eptr =>
          Some (mkPG (contexts_ s) (collectiveCounter_ s) (workQueue_ s) (workInProgress_ s) (stop_ s) (jobs_ s) (works_ s) st
                  (<[i := WFinish id eptr]> (workers_ s)) (destroyer_ s) (notifies_ s) (snapshots_ s))
      end
  end.

(** One step of runLoop on the i-th worker.  When a barrier looks at a prior work,
    [held] tells whether its weak pointer can be locked: a work that the group
    still refers to is held; otherwise that depends on the callers. *)
Definition worker_step (i : nat) (held : bool) (s : pgg) : option pgg :=
  match workers_ s !! i with
  | None => None
  | Some WTest =>
      if stop_ s then Some (set_worker i WExited s)
      else
        match workQueue_ s with
        | [] => Some (set_worker i WWaiting s)
        | id :: queue =>
            Some (mkPG (contexts_ s) (collectiveCounter_ s) queue (<[i := Some id]> (workInProgress_ s)) (stop_ s) (jobs_ s) (works_ s)
                    (state_ s) (<[i := WPopped id]> (workers_ s)) (destroyer_ s) (notifies_ s) (snapshots_ s))
        end
  | Some WWaiting | Some WExited => None
  | Some (WPopped id) => Some (set_worker i (WStart id) (set_destroyer (wake_destroyer (destroyer_ s)) s))
  | Some (WStart id) =>
      match jobs_ s !! id with
      | Some (mkJob _ _ (AsyncBarrierWork priorWork) _) => Some (set_worker i (WPrior id priorWork) s)
      | _ => run_step i id s
      end
  | Some (WPrior id []) => run_step i id s
  | Some (WPrior id (None :: l)) => Some (set_worker i (WPrior id l) s)
  | Some (WPrior id (Some w :: l)) =>
      match works_ s !! w with
      | None => None
      | Some work =>
          if negb (completed_ work) then None
          else if held then
            match exception_ work with
            | None => Some (set_worker i (WPrior id l) s)
            | Some e => Some (set_worker i (WFinish id (Some e)) s)
            end
          else if bool_decide (Some w ∈ workInProgress_ s) then None
          else Some (set_worker i (WPrior id l) s)
      end
  | Some (WFinish id eptr) =>
      Some (mkPG (contexts_ s) (collectiveCounter_ s) (workQueue_ s) (workInProgress_ s) (stop_ s) (jobs_ s)
              (alter (set_finished eptr) id (works_ s)) (state_ s)
              (<[i := WReset id]> (workers_ s)) (destroyer_ s) (notifies_ s) (snapshots_ s))
  | Some (WReset id) =>
      Some (mkPG (contexts_ s) (collectiveCounter_ s) (workQueue_ s) (<[i := None]> (workInProgress_ s)) (stop_ s) (jobs_ s) (works_ s)
              (state_ s) (<[i := WTest]> (workers_ s)) (destroyer_ s) (notifies_ s) (snapshots_ s))
  end.

(** One step of the destructor. *)
Definition destroy_step (s : pgg) : option pgg :=
  match destroyer_ s with
  | DNone | DWaiting | DDone => None
  | DTest =>
      match workQueue_ s with
      | [] =>
          Some (mkPG (contexts_ s) (collectiveCounter_ s) [] (workInProgress_ s) true (jobs_ s) (works_ s) (state_ s)
                  (workers_ s) DNotify (notifies_ s) (snapshots_ s))
      | _ => Some (set_destroyer DWaiting s)
      end
  | DNotify =>
      Some (mkPG (contexts_ s) (collectiveCounter_ s) (workQueue_ s) (workInProgress_ s) (stop_ s) (jobs_ s) (works_ s) (state_ s)
              (map wake_worker (workers_ s)) DJoin (notifies_ s) (snapshots_ s))
  | DJoin => if forallb (fun w => bool_decide (w = WExited)) (workers_ s) then Some (set_destroyer DDone s) else None
  end.

(** notify_one of an enqueue: one of the waiting workers, if there is one. *)
Definition notify_step (target : option nat) (s : pgg) : option pgg :=
  match notifies_ s with
  | O => None
  | S n =>
      let woken w := Some (mkPG (contexts_ s) (collectiveCounter_ s) (workQueue_ s) (workInProgress_ s) (stop_ s) (jobs_ s) (works_ s)
                             (state_ s) w (destroyer_ s) n (snapshots_ s)) in
      match target with
      | Some i => if bool_decide (workers_ s !! i = Some WWaiting) then woken (<[i := WTest]> (workers_ s)) else None
      | None => if bool_decide (WWaiting ∈ workers_ s) then None else woken (workers_ s)
      end
  end.
Definition set_snapshots (l : list (list (option nat) * nat)) (s : pgg) : pgg :=
  mkPG (contexts_ s) (collectiveCounter_ s) (workQueue_ s) (workInProgress_ s) (stop_ s) (jobs_ s) (works_ s) (state_ s)
    (workers_ s) (destroyer_ s) (notifies_ s) l.

(** What can happen: the threads of the group take a step; a caller calls a
    collective, takes the snapshot of a barrier or goes on with it, or destroys
    the group, after its calls have returned; a thread wakes up without a reason. *)
Inductive pg_event : Type :=
  | EWorker (i : nat) (held : bool) | EDestroyer | ENotify (target : option nat)
  | ECall (c : call) | ESnapshot | EBarrier (k : nat) | EDestroy | ESpuriousWorker (i : nat) | ESpuriousDestroyer.
Definition pg_step (ev : pg_event) (s : pgg) : option pgg :=
  match ev with
  | EWorker i held => worker_step i held s
  | EDestroyer => destroy_step s
  | ENotify target => notify_step target s
  | ECall c => if bool_decide (destroyer_ s = DNone) then Some (snd (do_call c s)) else None
  | ESnapshot => if bool_decide (destroyer_ s = DNone) then Some (set_snapshots (snapshots_ s ++ [barrier_snapshot s]) s) else None
  | EBarrier k =>
      match snapshots_ s !! k with
      | None => None
      | Some snapshot => Some (snd (barrier_enqueue snapshot (set_snapshots (take k (snapshots_ s) ++ drop (S k) (snapshots_ s)) s)))
      end
  | EDestroy =>
      if bool_decide (destroyer_ s = DNone) && bool_decide (snapshots_ s = []) && (notifies_ s =? 0)%nat
      then Some (set_destroyer DTest s) else None
  | ESpuriousWorker i => if bool_decide (workers_ s !! i = Some WWaiting) then Some (set_worker i WTest s) else None
  | ESpuriousDestroyer => match destroyer_ s with DWaiting => Some (set_destroyer DTest s) | _ => None end
  end.
Fixpoint pg_run (evs : list pg_event) (s : pgg) : option pgg :=
  match evs with
  | [] => Some s
  | ev :: evs => match pg_step ev s with Some s => pg_run evs s | None => None end
  end.

(** *** What a call does to the group *)

Definition tagged (s : pgg) : pgg := upd_counter (fun c => uint32 (c + 1)) s.
Definition enqueued (j : job) (s : pgg) : pgg :=
  mkPG (contexts_ s) (collectiveCounter_ s) (workQueue_ s ++ [length (works_ s)]) (workInProgress_ s) (stop_ s) (jobs_ s ++ [j])
    (works_ s ++ [new_Work (-1) UNKNOWN false]) (state_ s) (workers_ s) (destroyer_ s) (S (notifies_ s)) (snapshots_ s).
Definition context_of (s : pgg) : nat := Z.to_nat (collectiveCounter_ s mod Z.of_nat (contexts_ s)).
(** The work that a call starts. *)
Definition entry_of (c : call) : option entry :=
  match c with
  | CBroadcast inputs rootRank rootTensor => Some (AsyncBroadcastWork inputs rootRank rootTensor)
  | CAllreduce inputs reduceOp =>
      match inputs with
      | t :: _ => Some (if is_sparse t then AsyncSparseAllreduceWork inputs else AsyncAllreduceWork inputs reduceOp)
      | [] => None
      end
  | CAllreduceCoalesced tensors reduceOp => Some (AsyncAllreduceCoalescedWork tensors reduceOp)
  | CReduce inputs reduceOp rootRank rootTensor => Some (AsyncReduceWork inputs rootRank rootTensor reduceOp)
  | CAllgather outputs inputs => Some (AsyncAllgatherWork outputs inputs)
  | CAllgatherCoalesced output_lists input_list => Some (AsyncAllgatherCoalescedWork output_lists input_list)
  | CGather outputs inputs rootRank => Some (AsyncGatherWork outputs inputs rootRank)
  | CScatter outputs inputs rootRank => Some (AsyncScatterWork outputs inputs rootRank)
  | CAlltoallBase outputTensor inputTensor outputCounts inputCounts =>
      Some (AsyncAlltoallWork outputTensor inputTensor outputCounts inputCounts)
  | CAllgatherBase | CReduceScatter => None
  end.
(** The calls that fail after they have taken a tag. *)
Definition late_failure (c : call) : bool :=
  match c with
  | CAllreduce (t :: _) _ => bool_decide (tlayout (base t) = kMkldnn)
  | CAlltoallBase outputTensor _ _ _ => is_cuda outputTensor
  | _ => false
  end.

Lemma getContext_eq s s' : contexts_ s' = contexts_ s -> contexts_ s <> 0%nat ->
  getContext (collectiveCounter_ s) s' = (Ret (context_of s), s').
Proof.
  intros Hc H0. unfold getContext, bind, gets, assert_, lift, ret, context_of. rewrite Hc. by rewrite (proj2 (Nat.eqb_neq _ _) H0).
Qed.
Lemma start_work_eq e s : contexts_ s <> 0%nat ->
  start_work e s = (Ret (length (works_ s)), enqueued (mkJob (context_of s) (collectiveCounter_ s) e (length (works_ s))) (tagged s)).
Proof.
  intros H0. unfold start_work, nextTag, bind at 1 2 3 4 5, gets, modify, ret. fold (tagged s). rewrite getContext_eq by done. reflexivity.
Qed.

(** The result of a call whose argument checks gave [o]. *)
Definition call_post (c : call) (s : pgg) (r : outcome nat * pgg) : Prop :=
  match r with
  | (Ret id, s') =>
      id = length (works_ s) /\ exists e, entry_of c = Some e /\
      s' = enqueued (mkJob (context_of s) (collectiveCounter_ s) e id) (tagged s)
  | (Throw e, s') => s' = s \/ (late_failure c = true /\ s' = tagged s)
  | (Block, _) => False
  end.

Definition returns {A} (o : outcome A) : Prop := o <> Block.
Lemma returns_obind {A B} (o : outcome A) (k : A -> outcome B) : returns o -> (forall a, returns (k a)) -> returns (obind o k).
Proof. unfold returns. destruct o; cbn; auto. Qed.
Lemma returns_ocheck b e : returns (ocheck b e).
Proof. by destruct b. Qed.
Lemma returns_at_index {A} (l : list A) i : returns (at_index l i).
Proof. unfold at_index. by destruct (l !! i). Qed.
Lemma returns_report fn b msg : returns (report (invalid fn) b msg).
Proof. by destruct b. Qed.
Lemma returns_for_range i n body : (forall j, returns (body j)) -> returns (for_range i n body).
Proof. intros Hb. revert i. induction n as [|n IH]; intros i; cbn; [done|]. by apply returns_obind. Qed.
Ltac returns_tac := repeat first [progress intros | apply returns_obind | apply returns_ocheck | apply returns_at_index | apply returns_report
  | apply returns_for_range | progress unfold assertRootRank, assertRootTensor, assertDense, assertTypeAndSizesMatch, assertTypeAndSizesMatch_with,
    assertTypeMatch, assertSizesMatch, assertNonEmpty, assertLayoutMatch, assertLayoutMatch_at, assertSingleElement, assertSingleElementInput,
    assertSingleElementOutput, assertSameDevice, check_device | done | case_match].

Lemma checked_post c s (o : outcome unit) e : returns o -> contexts_ s <> 0%nat -> entry_of c = Some e ->
  call_post c s (bind (lift o) (fun _ => start_work e) s).
Proof.
  intros Ho H0 He. unfold bind, lift. destruct o as [[]|x|]; [|by left|done]. rewrite start_work_eq by done. split; [done|]. by exists e.
Qed.

Lemma tagged_post c s (o : outcome unit) (k : nat -> Z -> nat -> M pgg nat) :
  returns o -> contexts_ s <> 0%nat ->
  (o = Ret tt -> forall s' n tag ctx,
     (exists e, entry_of c = Some e /\ k n tag ctx s' = enqueue (mkJob ctx tag e n) s') \/
     (late_failure c = true /\ exists e, k n tag ctx s' = (Throw e, s'))) ->
  call_post c s (bind (lift o) (fun _ => bind (gets (fun s => length (works_ s))) (fun n => bind nextTag (fun tag => bind (getContext tag) (k n tag)))) s).
Proof.
  intros Ho H0 Hk. unfold bind at 1, lift. destruct o as [[]|x|]; [|by left|done]. specialize (Hk eq_refl).
  unfold nextTag, bind, gets, modify, ret. fold (tagged s). rewrite getContext_eq by done.
  destruct (Hk (tagged s) (length (works_ s)) (collectiveCounter_ s) (context_of s)) as [(e & He & ->)|(Hl & e & ->)]; [|by right].
  split; [done|]. by exists e.
Qed.

Lemma do_call_post c s : contexts_ s <> 0%nat -> call_post c s (do_call c s).
Proof.
  intros H0. destruct c; unfold do_call; [|shelve|..]; [..|shelve| |]; try by left.
  all: try (apply checked_post; [|done|done]).
  Unshelve.
  all: try match goal with |- returns _ => unfold check_broadcast, check_allreduce_coalesced, check_reduce, check_allgather,
    check_allgather_coalesced, check_gather, check_scatter; returns_tac end.
  - apply (tagged_post (CAllreduce inputs reduceOp)); [unfold check_allreduce; returns_tac|done|].
    intros Hr s' n tag ctx. destruct inputs as [|t inputs]; [done|]. unfold bind, lift, at_index. cbn [lookup list_lookup entry_of late_failure].
    unfold is_sparse. destruct (tlayout (base t)); [left..|right]; eauto.
  - apply (tagged_post (CAlltoallBase outputTensor inputTensor outputCounts inputCounts)); [unfold check_alltoall_base; returns_tac|done|].
    intros Hr s' n tag ctx. cbn [late_failure entry_of]. destruct (is_cuda outputTensor); [right; unfold throw|left]; eauto.
Qed.

(** *** Works and workers *)

Definition busy_id (w : worker_pc) : option nat :=
  match w with
  | WTest | WWaiting | WExited => None
  | WPopped id | WStart id | WPrior id _ | WFinish id _ | WReset id => Some id
  end.
Definition unfinished_id (w : worker_pc) : option nat := match w with WReset _ => None | w => busy_id w end.
Definition done (s : pgg) (id : nat) : Prop := exists w, works_ s !! id = Some w /\ completed_ w = true.

(** [p] works have been taken from the queue. *)
Record ids_inv (p : nat) (s : pgg) : Prop := mkIds {
  ii_contexts : contexts_ s <> 0%nat;
  ii_jobs : length (jobs_ s) = length (works_ s);
  ii_le : (p <= length (works_ s))%nat;
  ii_queue : workQueue_ s = seq p (length (works_ s) - p);
  ii_progress : workInProgress_ s = map busy_id (workers_ s);
  ii_busy : forall i w id, workers_ s !! i = Some w -> busy_id w = Some id -> (id < p)%nat;
  ii_distinct : forall i j v w id, workers_ s !! i = Some v -> workers_ s !! j = Some w ->
    busy_id v = Some id -> busy_id w = Some id -> i = j;
  ii_pending : forall id, (id < p)%nat -> done s id \/ exists i w, workers_ s !! i = Some w /\ unfinished_id w = Some id;
}.

(** What the steps change. *)
Inductive worker_move : Type := MKeep | MPop (id : nat) | MFinish (id : nat) | MReset.
Ltac step_cases H :=
  cbn in H; unfold worker_step, run_step, destroy_step, notify_step in H;
  repeat (case_match; simplify_eq/=); try done.
Ltac at_worker :=
  repeat match goal with
  | H : <[_ := _]> _ !! _ = Some _ |- _ => apply list_lookup_insert_Some in H as [(? & ? & ?)|[? H]]; subst
  | H : map wake_worker _ !! _ = Some _ |- _ => apply list_lookup_fmap_Some in H as (? & ? & ?); subst
  end; simplify_eq/=.

Lemma busy_wake w : busy_id (wake_worker w) = busy_id w.
Proof. by destruct w. Qed.
Lemma unfinished_wake w : unfinished_id (wake_worker w) = unfinished_id w.
Proof. by destruct w. Qed.
Lemma unfinished_busy w id : unfinished_id w = Some id -> busy_id w = Some id.
Proof. by destruct w. Qed.

(** A worker moves without changing what it is busy with. *)
Lemma ids_move p s s' i v w :
  ids_inv p s -> workers_ s !! i = Some v -> workers_ s' = <[i := w]> (workers_ s) ->
  busy_id w = busy_id v -> unfinished_id w = unfinished_id v ->
  contexts_ s' = contexts_ s -> jobs_ s' = jobs_ s -> works_ s' = works_ s -> workQueue_ s' = workQueue_ s ->
  workInProgress_ s' = workInProgress_ s -> ids_inv p s'.
Proof.
  intros [H1 H2 H3 H4 H5 H6 H7 H8] Hv Hw Hb Hu Ec Ej Ew Eq Ep.
  assert (Hold : forall k x, workers_ s' !! k = Some x -> exists y, workers_ s !! k = Some y /\ busy_id y = busy_id x).
  { rewrite Hw. intros k x Hk. apply list_lookup_insert_Some in Hk as [(-> & <- & _)|[_ Hk]]; eauto. }
  split; rewrite ?Ec, ?Ej, ?Ew, ?Eq, ?Ep; try done.
  - rewrite Hw, H5. change (map busy_id) with (fmap (M := list) busy_id). rewrite list_fmap_insert, Hb.
    symmetry. apply list_insert_id. by rewrite list_lookup_fmap, Hv.
  - intros k x id Hk Hx. destruct (Hold k x Hk) as (y & Hy & E). eapply H6; [exact Hy|congruence].
  - intros k l x y id Hk Hl Hx Hy. destruct (Hold k x Hk) as (x' & Hx' & E), (Hold l y Hl) as (y' & Hy' & E').
    apply (H7 k l x' y' id); congruence.
  - intros id Hid. unfold done. rewrite Ew. destruct (H8 id Hid) as [?|(k & x & Hk & Hx)]; [by left|right]. rewrite Hw.
    destruct (decide (k = i)) as [->|Hne].
    + exists i, w. rewrite list_lookup_insert_eq by eauto using lookup_lt_Some. split; [done|congruence].
    + exists k, x. by rewrite list_lookup_insert_ne by done.
Qed.

Lemma ids_enqueued p s j : ids_inv p s -> ids_inv p (enqueued j (tagged s)).
Proof.
  intros [H1 H2 H3 H4 H5 H6 H7 H8]. split; cbn; rewrite ?length_app; cbn; try done; try lia.
  - rewrite H4. replace (length (works_ s) + 1 - p)%nat with (S (length (works_ s) - p)) by lia. rewrite seq_S. do 2 f_equal. lia.
  - intros id Hid. destruct (H8 id Hid) as [(w & Hw & Hc)|?]; [left|by right]. exists w. split; [|done].
    cbn. by apply lookup_app_l_Some.
Qed.
Lemma ids_same p s s' : ids_inv p s -> contexts_ s' = contexts_ s -> jobs_ s' = jobs_ s -> works_ s' = works_ s -> workQueue_ s' = workQueue_ s ->
  workInProgress_ s' = workInProgress_ s -> workers_ s' = workers_ s -> ids_inv p s'.
Proof. intros [] Ec Ej Ew Eq Ep Es. split; unfold done in *; rewrite ?Ec, ?Ej, ?Ew, ?Eq, ?Ep, ?Es; done. Qed.
Lemma ids_call p c s : ids_inv p s -> ids_inv p (snd (do_call c s)).
Proof.
  intros Hi. pose proof (do_call_post c s (ii_contexts _ _ Hi)) as Hp. destruct (do_call c s) as [[id|e|] s'] eqn:E; [|..|done].
  - destruct Hp as (-> & x & _ & ->). by apply ids_enqueued.
  - destruct Hp as [->|[_ ->]]; [done|]. by apply (ids_same _ s).
Qed.
Lemma barrier_enqueue_eq sn s : contexts_ s <> 0%nat ->
  snd (barrier_enqueue sn s) = enqueued (mkJob (context_of s) (collectiveCounter_ s) (AsyncBarrierWork sn.1) sn.2) (tagged s).
Proof.
  intros H0. unfold barrier_enqueue, nextTag, bind at 1 2 3 4, gets, modify, ret. fold (tagged s). rewrite getContext_eq by done. reflexivity.
Qed.

(** The steps in which a worker takes a work, finishes it and lets go of it. *)
Lemma ids_pop p s i id queue : ids_inv p s -> workers_ s !! i = Some WTest -> workQueue_ s = id :: queue ->
  id = p /\
  ids_inv (S p) (mkPG (contexts_ s) (collectiveCounter_ s) queue (<[i := Some id]> (workInProgress_ s)) (stop_ s) (jobs_ s) (works_ s)
                   (state_ s) (<[i := WPopped id]> (workers_ s)) (destroyer_ s) (notifies_ s) (snapshots_ s)).
Proof.
  intros [H1 H2 H3 H4 H5 H6 H7 H8] Hi Hq. rewrite H4 in Hq.
  destruct (length (works_ s) - p)%nat as [|n] eqn:En; [done|]. cbn in Hq. injection Hq as <- <-. split; [done|]. split; cbn; try done; try lia.
  - f_equal. lia.
  - rewrite H5. change (map busy_id) with (fmap (M := list) busy_id). by rewrite list_fmap_insert.
  - intros k w id Hk Hb. at_worker; [lia|]. pose proof (H6 _ _ _ Hk Hb). lia.
  - intros k l v w id Hk Hl Hv Hw. at_worker; try done.
    + pose proof (H6 _ _ _ Hk Hv). lia.
    + pose proof (H6 _ _ _ Hl Hw). lia.
    + by eapply H7.
  - intros id Hid. destruct (decide (id = p)) as [->|Hne].
    + right. exists i, (WPopped p). by rewrite list_lookup_insert_eq by eauto using lookup_lt_Some.
    + destruct (H8 id ltac:(lia)) as [?|(k & w & Hk & Hw)]; [by left|right]. exists k, w. split; [|done].
      rewrite list_lookup_insert_ne; [done|]. intros ->. rewrite Hi in Hk. by simplify_eq/=.
Qed.
Lemma ids_finish p s i id eptr : ids_inv p s -> workers_ s !! i = Some (WFinish id eptr) ->
  ids_inv p (mkPG (contexts_ s) (collectiveCounter_ s) (workQueue_ s) (workInProgress_ s) (stop_ s) (jobs_ s)
              (alter (set_finished eptr) id (works_ s)) (state_ s) (<[i := WReset id]> (workers_ s)) (destroyer_ s) (notifies_ s) (snapshots_ s)).
Proof.
  intros [H1 H2 H3 H4 H5 H6 H7 H8] Hi. split; cbn; rewrite ?length_alter; try done.
  - rewrite H5. change (map busy_id) with (fmap (M := list) busy_id). rewrite list_fmap_insert. symmetry. apply list_insert_id.
    by rewrite list_lookup_fmap, Hi.
  - intros k w id' Hk Hb. at_worker; eapply H6; eauto.
  - intros k l v w id' Hk Hl Hv Hw. at_worker; try done; eapply H7; eauto.
  - intros id' Hid. unfold done. cbn. destruct (decide (id' = id)) as [->|Hne].
    + left. destruct (lookup_lt_is_Some_2 (works_ s) id ltac:(lia)) as [w Hw]. exists (set_finished eptr w).
      split; [by rewrite list_lookup_alter_eq, Hw|done].
    + destruct (H8 id' Hid) as [(w & Hw & Hc)|(k & w & Hk & Hw)].
      * left. exists w. by rewrite list_lookup_alter_ne.
      * right. exists k, w. split; [|done]. rewrite list_lookup_insert_ne; [done|]. intros ->. rewrite Hi in Hk. simplify_eq/=.
Qed.
Lemma ids_reset p s i id : ids_inv p s -> workers_ s !! i = Some (WReset id) ->
  ids_inv p (mkPG (contexts_ s) (collectiveCounter_ s) (workQueue_ s) (<[i := None]> (workInProgress_ s)) (stop_ s) (jobs_ s) (works_ s)
              (state_ s) (<[i := WTest]> (workers_ s)) (destroyer_ s) (notifies_ s) (snapshots_ s)).
Proof.
  intros [H1 H2 H3 H4 H5 H6 H7 H8] Hi. split; cbn; try done.
  - rewrite H5. change (map busy_id) with (fmap (M := list) busy_id). by rewrite list_fmap_insert.
  - intros k w id' Hk Hb. at_worker. eapply H6; eauto.
  - intros k l v w id' Hk Hl Hv Hw. at_worker. eapply H7; eauto.
  - intros id' Hid. destruct (H8 id' Hid) as [?|(k & w & Hk & Hw)]; [by left|right]. exists k, w. split; [|done].
    rewrite list_lookup_insert_ne; [done|]. intros ->. rewrite Hi in Hk. by simplify_eq/=.
Qed.
Lemma ids_wake p s d stop : ids_inv p s ->
  ids_inv p (mkPG (contexts_ s) (collectiveCounter_ s) (workQueue_ s) (workInProgress_ s) stop (jobs_ s) (works_ s) (state_ s)
              (map wake_worker (workers_ s)) d (notifies_ s) (snapshots_ s)).
Proof.
  intros [H1 H2 H3 H4 H5 H6 H7 H8]. split; cbn; try done.
  - rewrite H5, map_map. apply map_ext. intros w. by rewrite busy_wake.
  - intros k w id Hk Hb. at_worker. rewrite busy_wake in Hb. eauto.
  - intros k l v w id Hk Hl Hv Hw. at_worker. rewrite busy_wake in *. eauto.
  - intros id Hid. destruct (H8 id Hid) as [?|(k & w & Hk & Hw)]; [by left|right]. exists k, (wake_worker w).
    change (map wake_worker) with (fmap (M := list) wake_worker). by rewrite list_lookup_fmap, Hk, unfinished_wake.
Qed.

Lemma ids_step ev p s s' : ids_inv p s -> pg_step ev s = Some s' -> exists p', (p <= p')%nat /\ ids_inv p' s'.
Proof.
  intros Hi Hs. destruct ev; cbn in Hs.
  - unfold worker_step, run_step in Hs. destruct (workers_ s !! i) as [w|] eqn:Hw; [|done]. destruct w; try done.
    + destruct (stop_ s) eqn:Hstop; [|destruct (workQueue_ s) eqn:Hq]; simplify_eq.
      * exists p. split; [done|]. eapply ids_move; eauto; done.
      * exists p. split; [done|]. eapply ids_move; eauto; done.
      * destruct (ids_pop _ _ _ _ _ Hi Hw Hq) as [-> H]. exists (S p). split; [lia|]. rewrite Hstop in H. exact H.
    + simplify_eq. exists p. split; [done|]. eapply ids_move; eauto; done.
    + exists p. split; [done|]. repeat case_match; simplify_eq; eapply ids_move; eauto; done.
    + exists p. split; [done|]. repeat case_match; simplify_eq; eapply ids_move; eauto; done.
    + simplify_eq. exists p. split; [done|]. by apply ids_finish.
    + simplify_eq. exists p. split; [done|]. by apply (ids_reset p s i id).
  - exists p. split; [done|]. unfold destroy_step in Hs. repeat case_match; simplify_eq; try by apply ids_wake. all: by apply (ids_same _ s).
  - exists p. split; [done|]. unfold notify_step in Hs. repeat case_match; simplify_eq; [|by apply (ids_same _ s)].
    rewrite bool_decide_eq_true in *. eapply ids_move; eauto; done.
  - exists p. split; [done|]. case_bool_decide; simplify_eq. by apply ids_call.
  - exists p. split; [done|]. case_bool_decide; simplify_eq. by apply (ids_same _ s).
  - exists p. split; [done|]. destruct (snapshots_ s !! k) as [sn|]; [|done]. apply (inj Some) in Hs as <-. set (s1 := set_snapshots _ s).
    assert (ids_inv p s1) as H1 by by apply (ids_same _ s).
    rewrite barrier_enqueue_eq by apply H1. by apply ids_enqueued.
  - exists p. split; [done|]. repeat case_match; simplify_eq. by apply (ids_same _ s).
  - exists p. split; [done|]. case_bool_decide; simplify_eq. eapply ids_move; eauto; done.
  - exists p. split; [done|]. repeat case_match; simplify_eq. by apply (ids_same _ s).
Qed.

(** *** Barriers *)

(** Every one of the first [n] works is done or in the snapshot. *)
Definition covers (s : pgg) (n : nat) (priorWork : list (option nat)) : Prop :=
  forall w, (w < n)%nat -> done s w \/ Some w ∈ priorWork.
Definition below (n : nat) (priorWork : list (option nat)) : Prop := forall w, Some w ∈ priorWork -> (w < n)%nat.
Definition snapshot_ok (s : pgg) (sn : list (option nat) * nat) : Prop :=
  (sn.2 <= length (works_ s))%nat /\ covers s sn.2 sn.1 /\ below sn.2 sn.1.
Definition job_ok (s : pgg) (id : nat) (j : job) : Prop :=
  match what j with
  | AsyncBarrierWork priorWork => (issued_before j <= id)%nat /\ covers s (issued_before j) priorWork /\ below (issued_before j) priorWork
  | _ => True
  end.
(** If the work is a barrier, the works before it are done. *)
Definition barrier_ok (s : pgg) (id : nat) : Prop :=
  exists j, jobs_ s !! id = Some j /\
    forall priorWork w, what j = AsyncBarrierWork priorWork -> (w < issued_before j)%nat -> done s w.
Definition worker_ok (s : pgg) (w : worker_pc) : Prop :=
  match w with
  | WPrior id l => exists j priorWork, jobs_ s !! id = Some j /\ what j = AsyncBarrierWork priorWork /\
      (forall w, Some w ∈ priorWork -> Some w ∈ l \/ done s w) /\ (forall w, Some w ∈ l -> Some w ∈ priorWork)
  | WFinish id None => barrier_ok s id
  | _ => True
  end.
Record barrier_inv (s : pgg) : Prop := mkBarrierInv {
  bi_snapshots : forall sn, sn ∈ snapshots_ s -> snapshot_ok s sn;
  bi_jobs : forall id j, jobs_ s !! id = Some j -> job_ok s id j;
  bi_workers : forall w, w ∈ workers_ s -> worker_ok s w;
  bi_done : forall id w, works_ s !! id = Some w -> completed_ w = true -> exception_ w = None -> barrier_ok s id;
}.

Definition extends (s s' : pgg) : Prop :=
  (forall id, done s id -> done s' id) /\ (exists js, jobs_ s' = jobs_ s ++ js) /\ (length (works_ s) <= length (works_ s'))%nat.
Lemma extends_same s s' : jobs_ s' = jobs_ s -> works_ s' = works_ s -> extends s s'.
Proof. intros Hj Hw. split_and!; [unfold done; by rewrite Hw|exists []; by rewrite Hj, app_nil_r|by rewrite Hw]. Qed.
Lemma extends_job s s' id j : extends s s' -> jobs_ s !! id = Some j -> jobs_ s' !! id = Some j.
Proof. intros (_ & [js ->] & _). apply lookup_app_l_Some. Qed.

Lemma covers_extends s s' n l : extends s s' -> covers s n l -> covers s' n l.
Proof. intros (Hd & _) Hc w Hw. destruct (Hc w Hw); auto. Qed.
Lemma job_ok_extends s s' id j : extends s s' -> job_ok s id j -> job_ok s' id j.
Proof. intros He. unfold job_ok. destruct (what j); try done. intros (? & ? & ?). split_and!; eauto using covers_extends. Qed.
Lemma barrier_ok_extends s s' id : extends s s' -> barrier_ok s id -> barrier_ok s' id.
Proof. intros He (j & Hj & H). exists j. split; [by eapply extends_job|]. intros prior w Hp Hw. by eapply He, H. Qed.
Lemma worker_ok_extends s s' w : extends s s' -> worker_ok s w -> worker_ok s' w.
Proof.
  intros He. destruct w as [| | | |id l|id []| |]; cbn; try done; [|by apply barrier_ok_extends].
  intros (j & prior & Hj & Hp & Hl & Hl'). exists j, prior. split_and!; [by eapply extends_job|done| |done].
  intros w Hw. destruct (Hl w Hw); [by left|right; by apply He].
Qed.

Lemma barrier_update s s' : barrier_inv s -> extends s s' ->
  (forall sn, sn ∈ snapshots_ s' -> sn ∈ snapshots_ s \/ snapshot_ok s' sn) ->
  (forall id j, jobs_ s' !! id = Some j -> jobs_ s !! id = Some j \/ job_ok s' id j) ->
  (forall w, w ∈ workers_ s' -> w ∈ workers_ s \/ worker_ok s' w) ->
  (forall id w, works_ s' !! id = Some w -> completed_ w = true -> exception_ w = None -> works_ s !! id = Some w \/ barrier_ok s' id) ->
  barrier_inv s'.
Proof.
  intros [B1 B2 B3 B4] He H1 H2 H3 H4. split.
  - intros sn Hsn. destruct (H1 sn Hsn) as [Ho|]; [|done]. destruct (B1 sn Ho) as (? & ? & ?).
    split_and!; [etrans; [done|apply He]|by eapply covers_extends|done].
  - intros id j Hj. destruct (H2 id j Hj); [|done]. eapply job_ok_extends; eauto.
  - intros w Hw. destruct (H3 w Hw); [|done]. eapply worker_ok_extends; eauto.
  - intros id w Hw Hc Hx. destruct (H4 id w Hw Hc Hx); [|done]. eapply barrier_ok_extends; eauto.
Qed.
(** A worker moves, and nothing else of interest changes. *)
Lemma barrier_move s s' i w : barrier_inv s -> jobs_ s' = jobs_ s -> works_ s' = works_ s -> snapshots_ s' = snapshots_ s ->
  workers_ s' = <[i := w]> (workers_ s) -> worker_ok s w -> barrier_inv s'.
Proof.
  intros Hb Ej Ew Es Ewk Hok. pose proof (extends_same s s' Ej Ew) as He. apply (barrier_update s); rewrite ?Ej, ?Ew, ?Es, ?Ewk; try done; try (by intros; left).
  intros x Hx. apply list_elem_of_lookup in Hx as [k Hk]. apply list_lookup_insert_Some in Hk as [(_ & <- & _)|[_ Hk]].
  - right. by eapply worker_ok_extends.
  - left. by eapply list_elem_of_lookup_2.
Qed.
Lemma barrier_same s s' : barrier_inv s -> jobs_ s' = jobs_ s -> works_ s' = works_ s -> (forall sn, sn ∈ snapshots_ s' -> sn ∈ snapshots_ s) ->
  workers_ s' = workers_ s -> barrier_inv s'.
Proof.
  intros Hb Ej Ew Es Ewk. apply (barrier_update s); rewrite ?Ej, ?Ew, ?Ewk; try done; try (by intros; left); [by apply extends_same|].
  intros sn Hsn. left. auto.
Qed.

Lemma done_enqueued j s id : done s id -> done (enqueued j (tagged s)) id.
Proof. intros (w & Hw & Hc). exists w. split; [|done]. cbn. by apply lookup_app_l_Some. Qed.
Lemma barrier_enqueued j s : barrier_inv s -> length (jobs_ s) = length (works_ s) ->
  job_ok s (length (works_ s)) j -> barrier_inv (enqueued j (tagged s)).
Proof.
  intros Hb Hl Hj. assert (He : extends s (enqueued j (tagged s))).
  { split_and!; [apply done_enqueued|by exists [j]|cbn; rewrite length_app; lia]. }
  apply (barrier_update s); [done|done|by intros; left| |by intros; left|].
  - intros id j' Hj'. cbn in Hj'. apply lookup_app_Some in Hj' as [?|[Hge Hj']]; [by left|right].
    apply list_lookup_singleton_Some in Hj' as [H0 <-]. replace id with (length (works_ s)) by lia. by eapply job_ok_extends.
  - intros id w Hw Hc Hx. cbn in Hw. apply lookup_app_Some in Hw as [?|[_ Hw]]; [by left|].
    apply list_lookup_singleton_Some in Hw as [_ <-]. done.
Qed.
Lemma snapshot_taken p s : ids_inv p s -> snapshot_ok s (barrier_snapshot s).
Proof.
  intros [H1 H2 H3 H4 H5 H6 H7 H8]. split_and!; cbn; [done| |].
  - intros w Hw. destruct (decide (w < p)%nat) as [Hlt|].
    + destruct (H8 w Hlt) as [?|(i & x & Hx & Hu)]; [by left|right]. apply elem_of_app. left. rewrite H5.
      apply list_elem_of_fmap. exists x. split; [by rewrite (unfinished_busy _ _ Hu)|by eapply list_elem_of_lookup_2].
    + right. apply elem_of_app. right. apply list_elem_of_fmap. exists w. split; [done|]. rewrite H4. apply elem_of_seq. lia.
  - intros w. rewrite elem_of_app, H5, !list_elem_of_fmap. intros [(x & Hx & Hin)|(y & Hy & Hin)].
    + apply list_elem_of_lookup in Hin as [i Hi]. pose proof (H6 i x w Hi (eq_sym Hx)). lia.
    + simplify_eq. rewrite H4, elem_of_seq in Hin. lia.
Qed.

(** A work that a worker finishes. *)
Lemma barrier_finish s i id eptr : barrier_inv s -> workers_ s !! i = Some (WFinish id eptr) ->
  barrier_inv (mkPG (contexts_ s) (collectiveCounter_ s) (workQueue_ s) (workInProgress_ s) (stop_ s) (jobs_ s)
              (alter (set_finished eptr) id (works_ s)) (state_ s) (<[i := WReset id]> (workers_ s)) (destroyer_ s) (notifies_ s) (snapshots_ s)).
Proof.
  intros Hb Hi. set (s' := mkPG _ _ _ _ _ _ _ _ _ _ _ _).
  assert (He : extends s s').
  { split_and!; [|by exists []; rewrite app_nil_r|cbn; by rewrite length_alter].
    intros w (x & Hx & Hc). unfold done. cbn. destruct (decide (w = id)) as [->|].
    - exists (set_finished eptr x). by rewrite list_lookup_alter_eq, Hx.
    - exists x. by rewrite list_lookup_alter_ne. }
  apply (barrier_update s); [done|done|by intros; left|by intros; left| |].
  - intros w Hw. cbn in Hw. apply list_elem_of_lookup in Hw as [k Hk]. at_worker; [by right|left]. by eapply list_elem_of_lookup_2.
  - intros w x Hx Hc Hn. cbn in Hx. destruct (decide (w = id)) as [->|Hne]; [right|left; by rewrite list_lookup_alter_ne in Hx].
    rewrite list_lookup_alter_eq in Hx. destruct (works_ s !! id) as [y|]; [|done]. cbn in Hx. simplify_eq/=.
    eapply barrier_ok_extends; [exact He|]. apply (bi_workers _ Hb (WFinish id None)). by eapply list_elem_of_lookup_2.
Qed.
Lemma not_barrier c e prior : entry_of c = Some e -> e <> AsyncBarrierWork prior.
Proof. destruct c; cbn; intros H; repeat case_match; simplify_eq; done. Qed.
Lemma barrier_call c p s : ids_inv p s -> barrier_inv s -> barrier_inv (snd (do_call c s)).
Proof.
  intros Hi Hb. pose proof (do_call_post c s (ii_contexts _ _ Hi)) as Hp. destruct (do_call c s) as [[id|e|] s'] eqn:E; [|..|done].
  - destruct Hp as (-> & x & Hx & ->). apply barrier_enqueued; [done|apply Hi|]. unfold job_ok. cbn. destruct x; try done.
    exfalso. by eapply (not_barrier c).
  - destruct Hp as [->|[_ ->]]; [done|]. by apply (barrier_same s).
Qed.

Lemma barrier_worker_step i held p s s' : ids_inv p s -> barrier_inv s -> worker_step i held s = Some s' -> barrier_inv s'.
Proof.
  intros Hi Hb Hs. unfold worker_step, run_step in Hs. destruct (workers_ s !! i) as [w|] eqn:Hw; [|done].
  pose proof (bi_workers _ Hb w ltac:(by eapply list_elem_of_lookup_2)) as Hok. destruct w as [| |id|id|id l|id eptr|id|]; try done.
  - destruct (stop_ s); [|destruct (workQueue_ s)]; apply (inj Some) in Hs as <-; by eapply barrier_move.
  - apply (inj Some) in Hs as <-. by eapply barrier_move.
  - destruct (jobs_ s !! id) as [j|] eqn:Hj; [|done]. destruct j as [c t e n].
    assert (Hrun : forall st ptr, (forall prior, e <> AsyncBarrierWork prior) ->
      barrier_inv (mkPG (contexts_ s) (collectiveCounter_ s) (workQueue_ s) (workInProgress_ s) (stop_ s) (jobs_ s) (works_ s) st
                  (<[i := WFinish id ptr]> (workers_ s)) (destroyer_ s) (notifies_ s) (snapshots_ s))).
    { intros st ptr Hne. eapply barrier_move; try done. destruct ptr; [done|]. exists (mkJob c t e n). split; [done|].
      intros prior w Hp. by destruct (Hne prior). }
    destruct e; try (destruct (run_job _ _) as [o st]; destruct (run_result o); apply (inj Some) in Hs as <- || done; by apply Hrun).
    apply (inj Some) in Hs as <-. eapply barrier_move; try done. exists (mkJob c t (AsyncBarrierWork priorWork) n), priorWork.
    split_and!; [done|done|by left|done].
  - destruct Hok as (j & prior & Hj & Hp & Hl & Hl'). destruct l as [|[w|] l].
    + rewrite Hj in Hs. destruct (run_job _ _) as [o st]. destruct (run_result o) as [ptr|]; [|done]. apply (inj Some) in Hs as <-.
      eapply barrier_move; try done. destruct ptr; [done|]. exists j. split; [done|]. intros prior' w Hp' Hlt.
      rewrite Hp in Hp'. simplify_eq. pose proof (bi_jobs _ Hb _ _ Hj) as Hjob. unfold job_ok in Hjob. rewrite Hp in Hjob.
      destruct Hjob as (_ & Hc & _). destruct (Hc w Hlt) as [?|Hin]; [done|]. destruct (Hl w Hin) as [Hnil|?]; [by apply not_elem_of_nil in Hnil|done].
    + destruct (works_ s !! w) as [wk|] eqn:Hwk; [|done]. destruct (completed_ wk) eqn:Hc; [|done]. cbn [negb] in Hs.
      assert (Hok : worker_ok s (WPrior id l)).
      { exists j, prior. split_and!; [done|done| |intros x Hx; apply Hl'; by right]. intros x Hx. destruct (Hl x Hx) as [Hin|?]; [|by right].
        apply elem_of_cons in Hin as [[= ->]|Hin]; [right|by left]. by exists wk. }
      destruct held; [destruct (exception_ wk)|case_bool_decide]; try done; apply (inj Some) in Hs as <-; by eapply barrier_move.
    + apply (inj Some) in Hs as <-. eapply barrier_move; try done. exists j, prior. split_and!; [done|done| |intros x Hx; apply Hl'; by right].
      intros x Hx. destruct (Hl x Hx) as [Hin|?]; [|by right]. apply elem_of_cons in Hin as [|Hin]; [done|by left].
  - apply (inj Some) in Hs as <-. by apply barrier_finish.
  - apply (inj Some) in Hs as <-. by eapply barrier_move.
Qed.

Lemma barrier_step ev p s s' : ids_inv p s -> barrier_inv s -> pg_step ev s = Some s' -> barrier_inv s'.
Proof.
  intros Hi Hb Hs. destruct ev as [i held| |t|c| |k| |i|]; unfold pg_step in Hs.
  - by eapply barrier_worker_step.
  - unfold destroy_step in Hs. repeat case_match; simplify_eq; try by apply (barrier_same s).
    apply (barrier_update s); [done|by apply extends_same|by intros; left..| |by intros; left]. intros w Hw. cbn in Hw.
    apply list_elem_of_fmap in Hw as (x & -> & Hx). destruct x; (by right) || (by left).
  - unfold notify_step in Hs. repeat case_match; simplify_eq; [by eapply barrier_move|by apply (barrier_same s)].
  - case_bool_decide; [|done]. apply (inj Some) in Hs as <-. by eapply barrier_call.
  - case_bool_decide; [|done]. apply (inj Some) in Hs as <-.
    apply (barrier_update s); [done|by apply extends_same| |by intros; left..]. intros sn Hsn. cbn in Hsn.
    apply elem_of_app in Hsn as [|Hsn]; [by left|right]. apply list_elem_of_singleton in Hsn as ->. exact (snapshot_taken p s Hi).
  - destruct (snapshots_ s !! k) as [sn|] eqn:Hk; [|done]. apply (inj Some) in Hs as <-. set (s1 := set_snapshots _ s).
    assert (Hi1 : ids_inv p s1) by by apply (ids_same _ s).
    assert (Hb1 : barrier_inv s1).
    { apply (barrier_same s); try done. intros x Hx. cbn in Hx. apply elem_of_app in Hx as [Hx|Hx].
      - apply list_elem_of_lookup in Hx as [n Hn]. apply lookup_take_Some in Hn as [Hn _]. by eapply list_elem_of_lookup_2.
      - apply list_elem_of_lookup in Hx as [n Hn]. rewrite lookup_drop in Hn. by eapply list_elem_of_lookup_2. }
    rewrite barrier_enqueue_eq by apply Hi1. apply barrier_enqueued; [done|apply Hi1|]. unfold job_ok. cbn.
    by apply (bi_snapshots _ Hb sn), (list_elem_of_lookup_2 _ k).
  - repeat case_match; simplify_eq. by apply (barrier_same s).
  - case_bool_decide; simplify_eq. by eapply barrier_move.
  - repeat case_match; simplify_eq. by apply (barrier_same s).
Qed.

(** *** Reachable states *)

Definition initial (contexts threads : nat) (st : rstate) : pgg :=
  mkPG contexts 0 [] (replicate threads None) false [] [] st (replicate threads WTest) DNone 0 [].
Lemma construct_initial {device ctx} (connect : nat -> device -> M rstate ctx) devices threads s0 s s1 :
  ProcessGroupGloo_construct connect devices threads s0 = (Ret s, s1) ->
  s = initial (length devices) (Z.to_nat threads) s1 /\ length devices <> 0%nat.
Proof.
  unfold ProcessGroupGloo_construct. destruct (length devices =? 0)%nat eqn:E; [done|]. apply Nat.eqb_neq in E.
  destruct (for_each _ _ _) as [[[]|e|] st]; try done. destruct (threads <? 0); [done|]. by intros [= <- <-].
Qed.

Lemma initial_ids contexts threads st : contexts <> 0%nat -> ids_inv 0 (initial contexts threads st).
Proof.
  intros Hc. split; cbn; try done; try lia.
  - change (@map worker_pc) with (fun B => fmap (M := list) (B := B) (A := worker_pc)). cbn. by rewrite fmap_replicate.
  - intros i w id Hi Hw. apply lookup_replicate in Hi as [-> _]. done.
  - intros i j v w id Hi Hj Hv. apply lookup_replicate in Hi as [-> _]. done.
Qed.
Lemma initial_barrier contexts threads st : barrier_inv (initial contexts threads st).
Proof.
  split; cbn; try done; [intros sn H; by apply not_elem_of_nil in H|].
  intros w Hw. apply elem_of_replicate in Hw as [-> _]. done.
Qed.
Lemma gloo_run_inv evs : forall p s s', ids_inv p s -> barrier_inv s -> pg_run evs s = Some s' ->
  exists p', ids_inv p' s' /\ barrier_inv s'.
Proof.
  induction evs as [|ev evs IH]; cbn; intros p s s' Hi Hb H; [simplify_eq; eauto|].
  destruct (pg_step ev s) as [s1|] eqn:E; [|done]. pose proof (barrier_step _ _ _ _ Hi Hb E).
  destruct (ids_step _ _ _ _ Hi E) as (p1 & _ & Hi1). by eapply (IH p1).
Qed.

(** C16: A barrier waits for what came before it: with any number of worker
    threads and any interleaving of callers, workers and wake-ups, when the work
    of a barrier is completed without an exception, and already when its worker
    is about to call gloo::barrier, every work that had been enqueued when the
    call took its snapshot is completed, also those whose weak pointers had
    expired. *)
Theorem gloo_barrier_waits {device ctx : Type} (connect : nat -> device -> M rstate ctx) (devices : list device) (threads : Z)
    (st0 st : rstate) (s0 s : pgg) (evs : list pg_event) (id : nat) (j : job) (priorWork : list (option nat)) :
  ProcessGroupGloo_construct connect devices threads st0 = (Ret s0, st) -> pg_run evs s0 = Some s ->
  jobs_ s !! id = Some j -> what j = AsyncBarrierWork priorWork ->
  (exists i, workers_ s !! i = Some (WPrior id [])) \/
  (exists w, works_ s !! id = Some w /\ isCompleted w = true /\ isSuccess w = true) ->
  forall w, (w < issued_before j)%nat -> exists wk, works_ s !! w = Some wk /\ isCompleted wk = true.
Proof.
  intros Hc Hr Hj Hp Hcase w Hw. apply construct_initial in Hc as [-> Hd].
  destruct (gloo_run_inv evs 0 _ s (initial_ids _ _ _ Hd) (initial_barrier _ _ _) Hr) as (p & Hi & Hb).
  destruct Hcase as [(i & Hwk)|(x & Hx & Hdone & Hok)].
  - apply list_elem_of_lookup_2, (bi_workers _ Hb) in Hwk as (j' & prior & Hj' & Hp' & Hl & _). simplify_eq.
    pose proof (bi_jobs _ Hb _ _ Hj) as Hjob. unfold job_ok in Hjob. rewrite Hp in Hjob. destruct Hjob as (_ & Hcov & _).
    destruct (Hcov w Hw) as [?|Hin]; [done|]. destruct (Hl w ltac:(congruence)) as [Hnil|?]; [by apply not_elem_of_nil in Hnil|done].
  - unfold isSuccess in Hok. apply bool_decide_eq_true in Hok. destruct (bi_done _ Hb id x Hx Hdone Hok) as (j' & Hj' & H). simplify_eq. exact (H priorWork w Hp Hw).
Qed.

(** Invalid arguments are found before a tag is taken: a collective returns
    the number of a new work that is last in the queue and has the next tag and
    the context for it; when it throws, the group is unchanged, so the tags of the
    ranks stay aligned.  There are two exceptions: an allreduce of tensors that are
    neither strided nor sparse, and alltoall_base on a CUDA device, fail after
    they have taken a tag; the former always does. *)
Theorem gloo_calls_fail_early (c : call) (s : pgg) :
  contexts_ s <> 0%nat ->
  match do_call c s with
  | (Ret id, s') =>
      id = length (works_ s) /\ workQueue_ s' = workQueue_ s ++ [id] /\ collectiveCounter_ s' = uint32 (collectiveCounter_ s + 1) /\
      exists e, entry_of c = Some e /\ jobs_ s' = jobs_ s ++ [mkJob (context_of s) (collectiveCounter_ s) e id]
  | (Throw _, s') => s' = s \/ (late_failure c = true /\ s' = upd_counter (fun c => uint32 (c + 1)) s)
  | (Block, _) => False
  end /\
  (forall t l op, c = CAllreduce (t :: l) op -> tlayout (base t) = kMkldnn -> check_allreduce (t :: l) op = Ret tt ->
   exists e, do_call c s = (Throw e, upd_counter (fun c => uint32 (c + 1)) s)).
Proof.
  intros H0. split.
  - pose proof (do_call_post c s H0) as Hp. destruct (do_call c s) as [[id|e|] s']; [|done..].
    destruct Hp as (-> & e & He & ->). split_and!; try done. by exists e.
  - intros t l op -> Hl Hc. unfold do_call, allreduce, bind at 1, lift. rewrite Hc.
    unfold nextTag, bind, gets, modify, ret. fold (tagged s). rewrite getContext_eq by done. cbn. rewrite Hl. by eexists.
Qed.

(** *** Tags *)

Definition early (ev : pg_event) : Prop := match ev with ECall c => late_failure c = false | _ => True end.
Record tags_inv (n : nat) (s : pgg) : Prop := mkTags {
  ti_contexts : contexts_ s = n;
  ti_counter : collectiveCounter_ s = uint32 (Z.of_nat (length (jobs_ s)));
  ti_jobs : forall i j, jobs_ s !! i = Some j -> tag j = uint32 (Z.of_nat i) /\ context j = Z.to_nat (tag j mod Z.of_nat n);
}.
Lemma uint32_succ z : uint32 (uint32 z + 1) = uint32 (z + 1).
Proof. unfold uint32, wrap. by rewrite Z.add_mod_idemp_l. Qed.
Lemma tags_enqueued n s e b : tags_inv n s ->
  tags_inv n (enqueued (mkJob (context_of s) (collectiveCounter_ s) e b) (tagged s)).
Proof.
  intros [H1 H2 H3]. split; cbn; [done| |].
  - rewrite length_app, H2, uint32_succ. f_equal. cbn. lia.
  - intros i j Hj. apply lookup_app_Some in Hj as [Hj|[Hge Hj]]; [by apply H3|].
    apply list_lookup_singleton_Some in Hj as [H0 <-]. cbn. unfold context_of. rewrite H1, H2. by replace i with (length (jobs_ s)) by lia.
Qed.
Lemma tags_same n s s' : tags_inv n s -> contexts_ s' = contexts_ s -> collectiveCounter_ s' = collectiveCounter_ s -> jobs_ s' = jobs_ s ->
  tags_inv n s'.
Proof. intros [] Hc Hn Hj. by split; rewrite ?Hc, ?Hn, ?Hj. Qed.
Lemma tags_step n ev s s' : n <> 0%nat -> tags_inv n s -> early ev -> pg_step ev s = Some s' -> tags_inv n s'.
Proof.
  intros Hn Hi He Hs. assert (H0 : contexts_ s <> 0%nat) by (by rewrite (ti_contexts _ _ Hi)).
  destruct ev as [i held| |t|c| |k| |i|]; unfold pg_step in Hs.
  4:{ case_bool_decide; [|done]. apply (inj Some) in Hs as <-. pose proof (do_call_post c s H0) as Hp.
      destruct (do_call c s) as [[id|e|] s']; [|..|done].
      - destruct Hp as (-> & e & _ & ->). by apply tags_enqueued.
      - destruct Hp as [->|[Hl _]]; [done|]. cbn in He. congruence. }
  5:{ destruct (snapshots_ s !! k) as [sn|]; [|done]. apply (inj Some) in Hs as <-. rewrite barrier_enqueue_eq by done.
      apply tags_enqueued. by apply (tags_same n s). }
  all: unfold worker_step, run_step, destroy_step, notify_step in Hs; repeat case_match; simplify_eq; by apply (tags_same n s).
Qed.

(** Works are numbered alike on every rank: as long as no call fails late,
    the i-th work that was enqueued on a group has the tag i modulo 2^32 and the
    context with that number modulo the number of contexts, whatever the threads
    do and however many calls were refused in between.  So ranks that make the
    same valid calls in the same order agree on tag and context of each. *)
Theorem gloo_tags_match {device ctx : Type} (connect : nat -> device -> M rstate ctx) (devices : list device) (threads : Z)
    (st0 st : rstate) (s0 s : pgg) (evs : list pg_event) (i : nat) (j : job) :
  ProcessGroupGloo_construct connect devices threads st0 = (Ret s0, st) -> Forall early evs -> pg_run evs s0 = Some s ->
  jobs_ s !! i = Some j ->
  tag j = uint32 (Z.of_nat i) /\ context j = Z.to_nat (uint32 (Z.of_nat i) mod Z.of_nat (length devices)) /\ (context j < length devices)%nat.
Proof.
  intros Hc He Hr Hj. apply construct_initial in Hc as [-> Hd].
  assert (Hi : tags_inv (length devices) s).
  { assert (H0 : tags_inv (length devices) (initial (length devices) (Z.to_nat threads) st)) by done.
    revert H0 He Hr. generalize (initial (length devices) (Z.to_nat threads) st). clear Hj j i.
    induction evs as [|ev evs IH]; cbn; intros s1 H1 He Hr; [by simplify_eq|].
    apply Forall_cons in He as [He Hes]. destruct (pg_step ev s1) as [s2|] eqn:E; [|done].
    apply (IH s2); [|done..]. by eapply tags_step. }
  destruct (ti_jobs _ _ Hi i j Hj) as [Ht Hx]. rewrite Ht in Hx. split_and!; [done|done|]. rewrite Hx.
  pose proof (Z.mod_pos_bound (uint32 (Z.of_nat i)) (Z.of_nat (length devices)) ltac:(lia)). lia.
Qed.

(** *** All work is completed *)

(** The calls of the libraries return or throw. *)
Record libraries_return : Prop := mkReturn {
  lr_call : forall c op w, fst (gloo_call c op w) <> Block;
  lr_call_long : forall c op w, fst (gloo_call_long c op w) <> Block;
  lr_add_ : forall t u w, fst (sparse_add_ t u w) <> Block;
  lr_copy_ : forall t u w, fst (sparse_copy_ t u w) <> Block;
  lr_coo : forall i v l d t, sparse_coo_tensor i v l d t <> Block;
  lr_add : forall a b, sparse_add a b <> Block;
}.
Definition mreturns {S A} (m : M S A) : Prop := forall s, fst (m s) <> Block.
Lemma mreturns_bind {S A B} (m : M S A) (k : A -> M S B) : mreturns m -> (forall a, mreturns (k a)) -> mreturns (bind m k).
Proof. intros Hm Hk s. unfold bind. pose proof (Hm s). destruct (m s) as [[a|e|] s']; [apply Hk|done..]. Qed.
Lemma mreturns_lift {S A} (o : outcome A) : returns o -> mreturns (S := S) (lift o).
Proof. by intros Ho s. Qed.
Lemma mreturns_world {A} (m : M W A) : (forall w, fst (m w) <> Block) -> mreturns (in_world m : M rstate A).
Proof. intros Hm s. unfold in_world. pose proof (Hm s.2). by destruct (m s.2). Qed.
Lemma mreturns_for_each {S A} (l : list A) (f : A -> M S unit) : (forall a, mreturns (f a)) -> mreturns (for_each l f).
Proof. intros Hf. induction l as [|a l IH]; cbn; [done|]. by apply mreturns_bind. Qed.
Lemma mreturns_data_ptrs T l : mreturns (data_ptrs T l).
Proof.
  induction l as [|t l IH]; cbn; [done|]. unfold data_ptr.
  repeat first [progress intros | apply mreturns_bind | apply mreturns_lift, returns_ocheck | done].
Qed.
Lemma returns_copied a b c d (l : list D) : returns (copied a b c d l).
Proof. unfold copied. by destruct (copy_shapes _ _). Qed.
Lemma mreturns_copy_slices T l : forall flat, mreturns (copy_slices T l flat).
Proof.
  induction l as [|t l IH]; intros flat; cbn; [done|]. apply mreturns_bind; [apply mreturns_lift, returns_copied|]. intros. by apply mreturns_bind.
Qed.
Lemma returns_generate T : returns (GENERATE_ALL_TYPES T).
Proof. by destruct T. Qed.
Lemma returns_function T op : returns (getFunction T op).
Proof. unfold getFunction. apply returns_obind; [apply returns_generate|]. intros. by destruct op, T. Qed.
Lemma returns_flat l : returns (flat_like (D := D) l).
Proof. unfold flat_like, newLikeFlat. returns_tac. Qed.
Lemma returns_lengths_loop f n : (forall i, returns (f i)) -> forall i o, returns (lengths_loop f i n o).
Proof.
  intros Hf. induction n as [|n IH]; intros i o; cbn; [done|]. apply returns_obind; [done|]. intros. apply returns_obind; [apply returns_ocheck|].
  intros. apply returns_obind; [done|]. by intros [[??]?].
Qed.
Lemma returns_lengths l t : returns (lengths_of l t).
Proof.
  unfold lengths_of. apply returns_obind; [unfold size0; by destruct (tsizes _)|]. intros d. apply returns_lengths_loop. intros i. case_match; returns_tac.
Qed.
Lemma returns_splits l t : returns (checkSplitSizes_of l t).
Proof. unfold checkSplitSizes_of, size0, checkSplitSizes. returns_tac. Qed.
Lemma returns_narrow {A} (l : list A) ns : forall o, returns (narrow_all l o ns).
Proof. induction ns as [|n ns IH]; intros o; cbn; [done|]. unfold narrow. returns_tac. Qed.
Lemma returns_sum input l : libraries_return -> forall output, returns (sum_sparse input output l).
Proof.
  intros H. induction l as [|[i v] l IH]; intros o; cbn; [done|]. apply returns_obind; [apply H|]. intros. apply returns_obind; [apply H|]. auto.
Qed.
Lemma returns_match m : returns (dimensions_match m).
Proof. unfold dimensions_match. returns_tac. Qed.
Lemma returns_populate (t : sparse D) l : returns (populate_from_sparse_tensor t l).
Proof. unfold populate_from_sparse_tensor. returns_tac. Qed.

Lemma run_job_returns : libraries_return -> forall j, mreturns (run_job j).
Proof.
  intros H j. unfold run_job. destruct (what j); unfold run_broadcast, run_allreduce, run_allreduce_coalesced, run_sparse_allreduce, run_reduce, run_allgather,
    run_allgather_coalesced, run_gather, run_scatter, run_alltoall, run_barrier, sparse_allreduce, allgather_metadata, allgather_indices,
    allgather_values, call_allreduce.
  all: repeat first [progress intros | apply mreturns_bind | apply mreturns_for_each | apply mreturns_data_ptrs | apply mreturns_copy_slices
    | (apply mreturns_world; intros; apply H) | (apply mreturns_lift; first [apply returns_at_index | apply returns_generate | apply returns_function
      | apply returns_flat | apply returns_lengths | apply returns_splits | apply returns_narrow | apply returns_ocheck | apply returns_copied
      | apply returns_match | apply returns_populate | (by apply returns_sum) | apply H])
    | (intros ?; apply copy_flat_returns) | done | progress unfold data_ptr, flat_ptr, flattenDenseTensors, copy_ | case_match].
Qed.

Record live_inv (s : pgg) : Prop := mkLive {
  li_stop : stop_ s = true <-> destroyer_ s = DNotify \/ destroyer_ s = DJoin \/ destroyer_ s = DDone;
  li_queue : stop_ s = true -> workQueue_ s = [];
  li_exit : WExited ∈ workers_ s -> stop_ s = true;
  li_calls : destroyer_ s <> DNone -> snapshots_ s = [] /\ notifies_ s = 0%nat;
  li_join : destroyer_ s = DJoin \/ destroyer_ s = DDone -> WWaiting ∉ workers_ s;
  li_done : destroyer_ s = DDone -> forall w, w ∈ workers_ s -> w = WExited;
  li_wake : workQueue_ s <> [] -> notifies_ s = 0%nat -> workers_ s <> [] -> exists w, w ∈ workers_ s /\ w <> WWaiting;
  li_dwait : destroyer_ s = DWaiting -> workQueue_ s <> [] \/ exists id, WPopped id ∈ workers_ s;
}.

Lemma elem_insert_inv {A} (l : list A) i w x : x ∈ <[i := w]> l -> x = w \/ x ∈ l.
Proof.
  intros [k Hk]%list_elem_of_lookup. apply list_lookup_insert_Some in Hk as [(_ & <- & _)|[_ Hk]]; [by left|right].
  by eapply list_elem_of_lookup_2.
Qed.
Lemma elem_insert {A} (l : list A) i v w : l !! i = Some v -> w ∈ <[i := w]> l.
Proof. intros Hv. apply (list_elem_of_lookup_2 _ i). apply list_lookup_insert_eq. by eapply lookup_lt_Some. Qed.
Lemma elem_insert_other {A} (l : list A) i v w x : l !! i = Some v -> x ∈ l -> x <> v -> x ∈ <[i := w]> l.
Proof.
  intros Hv [k Hk]%list_elem_of_lookup Hne. apply (list_elem_of_lookup_2 _ k). rewrite list_lookup_insert_ne; [done|]. congruence.
Qed.
Lemma insert_nil {A} (l : list A) i w : <[i := w]> l <> [] -> l <> [].
Proof. by destruct l. Qed.

(** A worker moves between states in which it is neither waiting nor gone. *)
Lemma live_move s s' i v w : live_inv s -> workers_ s !! i = Some v -> workers_ s' = <[i := w]> (workers_ s) ->
  v <> WExited -> w <> WWaiting -> (w = WExited -> stop_ s = true) ->
  stop_ s' = stop_ s -> snapshots_ s' = snapshots_ s -> workQueue_ s' = workQueue_ s ->
  (notifies_ s' = notifies_ s \/ v = WWaiting /\ notifies_ s' = pred (notifies_ s)) ->
  (destroyer_ s' = destroyer_ s /\ (forall id, v <> WPopped id) \/ destroyer_ s' = wake_destroyer (destroyer_ s)) ->
  live_inv s'.
Proof.
  intros [L1 L2 L3 L4 L5 L6 L7 L8] Hv Hw Hve Hww Hwe Es En Eq Enot Hd.
  assert (Hdd : (destroyer_ s' = destroyer_ s \/ destroyer_ s = DWaiting /\ destroyer_ s' = DTest)).
  { destruct Hd as [[-> _]| ->]; [by left|]. destruct (destroyer_ s); auto. }
  assert (Hin : forall x, x ∈ workers_ s' -> x = w \/ x ∈ workers_ s) by (rewrite Hw; apply elem_insert_inv).
  split; rewrite ?Es, ?En, ?Eq.
  - destruct Hdd as [->|[E ->]]; [done|]. rewrite L1, E. naive_solver.
  - done.
  - intros Hx. destruct (Hin _ Hx); auto.
  - intros Hne. destruct L4 as [-> H0]; [destruct Hdd as [E|[E _]]; congruence|]. split; [done|]. destruct Enot as [->|[_ ->]]; by rewrite H0.
  - intros Hj Hx. destruct (Hin _ Hx) as [<-|Hx']; [done|]. revert Hx'. apply L5. destruct Hdd as [<-|[_ E]]; [done|]. rewrite E in Hj. naive_solver.
  - intros Hdn x Hx. destruct Hdd as [E|[_ E]]; [|congruence]. rewrite E in Hdn. exfalso. apply Hve, L6; [done|]. by eapply list_elem_of_lookup_2.
  - intros _ _ _. exists w. split; [|done]. rewrite Hw. by eapply elem_insert.
  - intros Hdw. destruct Hd as [[E Hnp]|E]; [|rewrite E in Hdw; by destruct (destroyer_ s)]. rewrite E in Hdw.
    destruct (L8 Hdw) as [?|[id Hid]]; [by left|right]. exists id. rewrite Hw. eapply elem_insert_other; eauto.
Qed.

Lemma live_call c s : contexts_ s <> 0%nat -> live_inv s -> destroyer_ s = DNone -> live_inv (snd (do_call c s)).
Proof.
  intros H0 [L1 L2 L3 L4 L5 L6 L7 L8] Hd. pose proof (do_call_post c s H0) as Hp. destruct (do_call c s) as [[id|e|] s']; [|..|done].
  - destruct Hp as (_ & x & _ & ->). split; cbn; rewrite ?Hd in *; try done.
    intros Hs. apply L1 in Hs. naive_solver.
  - by destruct Hp as [->|[_ ->]].
Qed.

Ltac live_move_tac :=
  eapply live_move; [eassumption|eassumption|reflexivity|done|done|done|reflexivity|reflexivity|reflexivity|by left|first [by left|by right]].

Lemma run_step_eq i id s s' : run_step i id s = Some s' ->
  exists j st eptr, jobs_ s !! id = Some j /\ run_job j (state_ s) = (match eptr with None => Ret tt | Some e => Throw e end, st) /\
    s' = mkPG (contexts_ s) (collectiveCounter_ s) (workQueue_ s) (workInProgress_ s) (stop_ s) (jobs_ s) (works_ s) st
          (<[i := WFinish id eptr]> (workers_ s)) (destroyer_ s) (notifies_ s) (snapshots_ s).
Proof.
  unfold run_step. destruct (jobs_ s !! id) as [j|]; [|done]. destruct (run_job j (state_ s)) as [[[]|e|] st] eqn:E; cbn; [..|done];
    intros [= <-]; exists j, st; [exists None|exists (Some e)]; done.
Qed.
Lemma live_worker_step i held s s' : live_inv s -> worker_step i held s = Some s' -> live_inv s'.
Proof.
  intros Hi Hs. unfold worker_step in Hs. destruct (workers_ s !! i) as [w|] eqn:Hw; [|done].
  destruct w as [| |id|id|id l|id eptr|id|]; try done.
  - destruct (stop_ s) eqn:Hst; [|destruct (workQueue_ s) as [|x queue] eqn:Hq]; apply (inj Some) in Hs as <-.
    + live_move_tac.
    + destruct Hi as [L1 L2 L3 L4 L5 L6 L7 L8]. split; cbn; try done.
      * intros Hx. destruct (elem_insert_inv _ _ _ _ Hx) as [|Hx']; [done|]. by rewrite <- (L3 Hx').
      * intros Hj. rewrite (proj2 L1) in Hst by tauto. done.
      * intros Hj. rewrite (proj2 L1) in Hst by tauto. done.
      * intros Hj. destruct (L8 Hj) as [|[id Hid]]; [by rewrite Hq in *|right]. exists id. by eapply elem_insert_other.
    + destruct Hi as [L1 L2 L3 L4 L5 L6 L7 L8]. split; cbn; rewrite ?Hst; try done.
      * by rewrite <- Hst.
      * intros Hx. destruct (elem_insert_inv _ _ _ _ Hx) as [|Hx']; [done|]. rewrite <- Hst. auto.
      * intros Hj. rewrite (proj2 L1) in Hst by tauto. done.
      * intros Hj. rewrite (proj2 L1) in Hst by tauto. done.
      * intros _ _ _. exists (WPopped x). split; [by eapply elem_insert|done].
      * intros _. right. exists x. by eapply elem_insert.
  - apply (inj Some) in Hs as <-. live_move_tac.
  - assert (Hs' : run_step i id s = Some s' \/ exists l, s' = set_worker i (WPrior id l) s).
    { destruct (jobs_ s !! id) as [[? ? []]|]; try by left. right. eexists. by apply (inj Some) in Hs. }
    destruct Hs' as [(j & st & eptr & _ & _ & ->)%run_step_eq|[l ->]]; live_move_tac.
  - destruct l as [|[w|] l].
    + destruct (run_step_eq _ _ _ _ Hs) as (j & st & eptr & _ & _ & ->). live_move_tac.
    + destruct (works_ s !! w) as [wk|]; [|done]. destruct (negb _); [done|].
      destruct held; [destruct (exception_ wk)|destruct (bool_decide _)]; try done; apply (inj Some) in Hs as <-; live_move_tac.
    + apply (inj Some) in Hs as <-. live_move_tac.
  - apply (inj Some) in Hs as <-. live_move_tac.
  - apply (inj Some) in Hs as <-. live_move_tac.
Qed.
Lemma live_destroy_step s s' : live_inv s -> destroy_step s = Some s' -> live_inv s'.
Proof.
  intros [L1 L2 L3 L4 L5 L6 L7 L8] Hs. unfold destroy_step in Hs. destruct (destroyer_ s) eqn:Hd; try done.
  - destruct (workQueue_ s) eqn:Hq; apply (inj Some) in Hs as <-; split; cbn; rewrite ?Hq in *; try done; try tauto.
    + intros _. by apply L4.
    + by intros [|].
    + rewrite L1. intuition congruence.
    + intros _. by apply L4.
    + by intros [|].
    + by left.
  - apply (inj Some) in Hs as <-. assert (Hst : stop_ s = true) by (apply L1; tauto). split; cbn; rewrite ?Hst; try done; try tauto.
    + auto.
    + intros _ Hx. apply list_elem_of_fmap in Hx as (w & Hx & _). by destruct w.
  - destruct (forallb _ _) eqn:Hall; [|done]. apply (inj Some) in Hs as <-. assert (Hst : stop_ s = true) by (apply L1; tauto).
    split; cbn; rewrite ?Hst; try done; try tauto; [intros _; by apply L4|].
    intros _ w Hw. rewrite forallb_forall in Hall. apply list_elem_of_In, Hall in Hw. by apply bool_decide_eq_true in Hw.
Qed.

Lemma live_step ev p s s' : ids_inv p s -> live_inv s -> pg_step ev s = Some s' -> live_inv s'.
Proof.
  intros Hi Hl Hs. destruct ev as [i held| |t|c| |k| |i|]; unfold pg_step in Hs.
  - by eapply live_worker_step.
  - by eapply live_destroy_step.
  - unfold notify_step in Hs. destruct (notifies_ s) as [|n] eqn:Hn; [done|].
    assert (Hd : destroyer_ s = DNone).
    { destruct (decide (destroyer_ s = DNone)) as [|Hne]; [done|]. destruct (li_calls _ Hl Hne). congruence. }
    destruct t as [i|]; case_bool_decide as Hw; try done; apply (inj Some) in Hs as <-.
    + eapply live_move; [eassumption..|reflexivity|done|done|done|reflexivity|reflexivity|reflexivity|right; by rewrite Hn|by left].
    + destruct Hl as [L1 L2 L3 L4 L5 L6 L7 L8]. split; cbn; rewrite ?Hd in *; try done.
      intros _ _ Hne. destruct (workers_ s) as [|w ws]; [done|]. exists w. split; [by left|]. intros ->. apply Hw. by left.
  - case_bool_decide; [|done]. apply (inj Some) in Hs as <-. by apply live_call; [apply Hi|..].
  - case_bool_decide as Hd; [|done]. apply (inj Some) in Hs as <-. destruct Hl as [L1 L2 L3 L4 L5 L6 L7 L8]. by split; cbn; rewrite ?Hd in *.
  - destruct (snapshots_ s !! k) as [sn|] eqn:Hk; [|done]. apply (inj Some) in Hs as <-. rewrite barrier_enqueue_eq by apply Hi.
    assert (Hd : destroyer_ s = DNone).
    { destruct (decide (destroyer_ s = DNone)) as [|Hne]; [done|]. destruct (li_calls _ Hl Hne) as [E _]. by rewrite E in Hk. }
    destruct Hl as [L1 L2 L3 L4 L5 L6 L7 L8]. split; cbn; rewrite ?Hd in *; try done. intros Hs. apply L1 in Hs. naive_solver.
  - destruct (bool_decide (destroyer_ s = DNone)) eqn:Hd, (bool_decide (snapshots_ s = [])) eqn:Hsn, (notifies_ s =? 0)%nat eqn:Hn; try done.
    apply bool_decide_eq_true in Hd, Hsn. apply Nat.eqb_eq in Hn. apply (inj Some) in Hs as <-.
    destruct Hl as [L1 L2 L3 L4 L5 L6 L7 L8]. split; cbn; rewrite ?Hd in *; try done; naive_solver.
  - case_bool_decide as Hw; [|done]. apply (inj Some) in Hs as <-. live_move_tac.
  - destruct (destroyer_ s) eqn:Hd; try done. apply (inj Some) in Hs as <-.
    destruct Hl as [L1 L2 L3 L4 L5 L6 L7 L8]. split; cbn; rewrite ?Hd in *; try done; naive_solver.
Qed.

(** The steps that the threads of the group still have to take. *)
Definition prior_length (jobs : list job) (id : nat) : nat :=
  match jobs !! id with Some (mkJob _ _ (AsyncBarrierWork l) _) => length l | _ => 0 end.
Definition worker_rank (jobs : list job) (w : worker_pc) : nat :=
  match w with
  | WExited | WWaiting => 0 | WTest => 1 | WReset _ => 2 | WFinish _ _ => 3
  | WPrior _ l => 4 + length l | WStart id => 5 + prior_length jobs id | WPopped id => 7 + prior_length jobs id
  end.
Definition destroyer_rank (threads : nat) (d : destroyer_pc) : nat :=
  match d with DNone | DDone => 0 | DJoin => 1 | DNotify => 2 + threads | DWaiting => 3 + threads | DTest => 4 + threads end.
Definition steps_left (s : pgg) : nat :=
  2 * notifies_ s + sum_list_with (fun id => 7 + prior_length (jobs_ s) id)%nat (workQueue_ s) +
  sum_list_with (worker_rank (jobs_ s)) (workers_ s) + destroyer_rank (length (workers_ s)) (destroyer_ s).
#[local] Arguments steps_left : simpl never.
Definition internal (ev : pg_event) : Prop := match ev with EWorker _ _ | EDestroyer | ENotify _ => True | _ => False end.

Lemma sum_wake jobs l : (sum_list_with (worker_rank jobs) (map wake_worker l) <= sum_list_with (worker_rank jobs) l + length l)%nat.
Proof. induction l as [|w l IH]; cbn; [lia|]. destruct w; cbn; lia. Qed.

(** A step of a worker in which only its state and that of the destructor change. *)
Lemma rank_move s s' i v w : workers_ s !! i = Some v -> workers_ s' = <[i := w]> (workers_ s) -> jobs_ s' = jobs_ s ->
  workQueue_ s' = workQueue_ s -> notifies_ s' = notifies_ s -> destroyer_ s' = destroyer_ s ->
  (worker_rank (jobs_ s) w < worker_rank (jobs_ s) v)%nat -> (steps_left s' < steps_left s)%nat.
Proof.
  intros Hv Hw Hj Hq Hn Hd Hr. unfold steps_left. rewrite Hw, Hj, Hq, Hn, Hd, length_insert.
  pose proof (sum_insert (worker_rank (jobs_ s)) _ i v w Hv). lia.
Qed.
Ltac rank_tac := eapply rank_move; [eassumption|reflexivity..|cbn; lia].

Lemma gloo_internal_decreases ev s s' : internal ev -> pg_step ev s = Some s' -> (steps_left s' < steps_left s)%nat.
Proof.
  intros Hi Hs. destruct ev as [i held| |t|c| |k| |i|]; try done; unfold pg_step in Hs.
  - unfold worker_step in Hs. destruct (workers_ s !! i) as [w|] eqn:Hw; [|done]. destruct w as [| |id|id|id l|id eptr|id|]; try done.
    + destruct (stop_ s) eqn:Hst; [|destruct (workQueue_ s) as [|x queue] eqn:Hq]; apply (inj Some) in Hs as <-; [rank_tac..|].
      unfold steps_left. cbn [notifies_ jobs_ workQueue_ workers_ destroyer_]. rewrite Hq, length_insert.
      pose proof (sum_insert (worker_rank (jobs_ s)) _ i _ (WPopped x) Hw). cbn in *. lia.
    + apply (inj Some) in Hs as <-. unfold steps_left. cbn [notifies_ jobs_ workQueue_ workers_ destroyer_ set_worker set_destroyer].
      rewrite length_insert. pose proof (sum_insert (worker_rank (jobs_ s)) _ i _ (WStart id) Hw) as H. cbn in *.
      destruct (destroyer_ s); cbn; lia.
    + destruct (jobs_ s !! id) as [[c t [] b]|] eqn:Hj;
        try (destruct (run_step_eq _ _ _ _ Hs) as (j & st & eptr & _ & _ & ->); rank_tac).
      apply (inj Some) in Hs as <-. eapply rank_move; [eassumption|reflexivity..|]. cbn. unfold prior_length. rewrite Hj. lia.
    + destruct l as [|[w|] l].
      * destruct (run_step_eq _ _ _ _ Hs) as (j & st & eptr & _ & _ & ->). rank_tac.
      * destruct (works_ s !! w) as [wk|]; [|done]. destruct (negb _); [done|].
        destruct held; [destruct (exception_ wk)|destruct (bool_decide _)]; try done; apply (inj Some) in Hs as <-; rank_tac.
      * apply (inj Some) in Hs as <-. rank_tac.
    + apply (inj Some) in Hs as <-. rank_tac.
    + apply (inj Some) in Hs as <-. rank_tac.
  - unfold destroy_step in Hs. destruct (destroyer_ s) eqn:Hd; try done; unfold steps_left; rewrite Hd.
    + destruct (workQueue_ s) eqn:Hq; apply (inj Some) in Hs as <-; cbn; rewrite ?Hq; cbn; lia.
    + apply (inj Some) in Hs as <-. cbn [notifies_ jobs_ workQueue_ workers_ destroyer_]. pose proof (sum_wake (jobs_ s) (workers_ s)).
      rewrite length_map. cbn. lia.
    + destruct (forallb _ _); [|done]. apply (inj Some) in Hs as <-. cbn. lia.
  - unfold notify_step in Hs. destruct (notifies_ s) as [|n] eqn:Hn; [done|].
    destruct t as [i|]; case_bool_decide as Hw; try done; apply (inj Some) in Hs as <-; unfold steps_left; rewrite Hn;
      cbn [notifies_ jobs_ workQueue_ workers_ destroyer_]; [|lia].
    rewrite length_insert. pose proof (sum_insert (worker_rank (jobs_ s)) _ i _ WTest Hw). cbn in *. lia.
Qed.
Lemma gloo_internal_keeps ev s s' : internal ev -> pg_step ev s = Some s' ->
  length (works_ s') = length (works_ s) /\ length (workers_ s') = length (workers_ s) /\ (destroyer_ s <> DNone -> destroyer_ s' <> DNone).
Proof.
  intros Hi Hs. destruct ev as [i held| |t|c| |k| |i|]; try done; unfold pg_step in Hs.
  - unfold worker_step, run_step in Hs. repeat case_match; simplify_eq; cbn; rewrite ?length_insert, ?length_alter; split_and!; try done.
    by destruct (destroyer_ s).
  - unfold destroy_step in Hs. repeat case_match; simplify_eq; cbn; rewrite ?length_map; done.
  - unfold notify_step in Hs. repeat case_match; simplify_eq; cbn; rewrite ?length_insert; done.
Qed.

(** A state in which no thread of the group can take a step. *)
Definition stuck (s : pgg) : Prop := forall ev, internal ev -> pg_step ev s = None.
Definition resting (w : worker_pc) : Prop := w = WWaiting \/ w = WExited.

Section stuck.
Variables (p : nat) (s : pgg).
Hypothesis Hret : libraries_return.
Hypothesis Hi : ids_inv p s.
Hypothesis Hb : barrier_inv s.
Hypothesis Hl : live_inv s.
Hypothesis Hstuck : stuck s.

Lemma run_step_some i id : (id < p)%nat -> run_step i id s <> None.
Proof using Hi Hret.
  intros Hid. unfold run_step. pose proof (ii_jobs _ _ Hi). pose proof (ii_le _ _ Hi).
  destruct (lookup_lt_is_Some_2 (jobs_ s) id ltac:(lia)) as [j ->]. pose proof (run_job_returns Hret j (state_ s)) as Hr.
  by destruct (run_job j (state_ s)) as [[[]|e|] st].
Qed.
Lemma stuck_worker i w : workers_ s !! i = Some w -> resting w \/ exists id x l, w = WPrior id (Some x :: l) /\ ~ done s x.
Proof using Hi Hret Hstuck.
  intros Hw. pose proof (Hstuck (EWorker i true) I) as Hs. cbn [pg_step] in Hs. unfold worker_step in Hs. rewrite Hw in Hs.
  destruct w as [| |id|id|id l|id eptr|id|]; try done; try (by left; left); try (by left; right).
  - destruct (stop_ s); [done|]. by destruct (workQueue_ s).
  - assert (Hid : (id < p)%nat) by (by eapply (ii_busy _ _ Hi)). destruct (jobs_ s !! id) as [[c t [] b]|]; by destruct (run_step_some i id Hid).
  - assert (Hid : (id < p)%nat) by (by eapply (ii_busy _ _ Hi)). destruct l as [|[x|] l]; [by destruct (run_step_some i id Hid)| |done].
    right. exists id, x, l. split; [done|]. intros (wk & Hwk & Hc). rewrite Hwk, Hc in Hs. cbn in Hs. by destruct (exception_ wk).
Qed.
(** Barriers do not wait for one another in a circle: they wait for older works. *)
Lemma no_deadlock id : forall i x l, workers_ s !! i = Some (WPrior id (Some x :: l)) -> ~ done s x -> False.
Proof using Hi Hret Hb Hstuck.
  induction id as [id IH] using lt_wf_ind. intros i x l Hw Hx.
  pose proof (bi_workers _ Hb _ (list_elem_of_lookup_2 _ _ _ Hw)) as (j & prior & Hj & Hp & _ & Hl').
  pose proof (bi_jobs _ Hb _ _ Hj) as Hjob. unfold job_ok in Hjob. rewrite Hp in Hjob. destruct Hjob as (Hle & _ & Hbelow).
  assert (Hlt : (x < id)%nat) by (pose proof (Hbelow x (Hl' x (list_elem_of_here _ _))); lia).
  assert (Hid : (id < p)%nat) by (by eapply (ii_busy _ _ Hi)).
  destruct (ii_pending _ _ Hi x ltac:(lia)) as [?|(k & w & Hk & Hu)]; [done|].
  destruct (stuck_worker k w Hk) as [[->| ->]|(id' & y & l' & -> & Hy)]; [done..|]. cbn in Hu. simplify_eq. by eapply (IH x).
Qed.
Lemma stuck_rests w : w ∈ workers_ s -> resting w.
Proof using Hi Hret Hb Hstuck.
  intros [i Hw]%list_elem_of_lookup. destruct (stuck_worker i w Hw) as [?|(id & x & l & -> & Hx)]; [done|]. by destruct (no_deadlock id i x l).
Qed.
Lemma stuck_quiet : workers_ s <> [] -> workQueue_ s = [] /\ notifies_ s = 0%nat.
Proof using Hi Hret Hb Hl Hstuck.
  intros Hne. assert (Hn : notifies_ s = 0%nat).
  { destruct (notifies_ s) as [|n] eqn:Hn; [done|]. exfalso. destruct (decide (WWaiting ∈ workers_ s)) as [Hin|Hin].
    - pose proof Hin as [i Hw]%list_elem_of_lookup. pose proof (Hstuck (ENotify (Some i)) I) as Hs. cbn [pg_step] in Hs. unfold notify_step in Hs.
      by rewrite Hn, bool_decide_true in Hs.
    - pose proof (Hstuck (ENotify None) I) as Hs. cbn [pg_step] in Hs. unfold notify_step in Hs. by rewrite Hn, bool_decide_false in Hs. }
  split; [|done]. destruct (workQueue_ s) eqn:Hq; [done|]. destruct (li_wake _ Hl ltac:(by rewrite Hq) Hn Hne) as (w & Hw & Hnw).
  destruct (stuck_rests w Hw) as [->| ->]; [done|]. pose proof (li_queue _ Hl (li_exit _ Hl Hw)). congruence.
Qed.
Lemma stuck_works : workers_ s <> [] -> Forall (fun w => completed_ w = true) (works_ s).
Proof using Hi Hret Hb Hl Hstuck.
  intros Hne. destruct (stuck_quiet Hne) as [Hq _]. pose proof (ii_queue _ _ Hi) as E. rewrite Hq in E.
  assert (Hp : (length (works_ s) <= p)%nat) by (apply (f_equal length) in E; rewrite length_seq in E; cbn in E; lia).
  apply Forall_lookup. intros id w Hw. pose proof (lookup_lt_Some _ _ _ Hw).
  destruct (ii_pending _ _ Hi id ltac:(lia)) as [(w' & Hw' & Hc)|(i & x & Hx & Hu)]; [congruence|].
  destruct (stuck_rests x ltac:(by eapply list_elem_of_lookup_2)) as [->| ->]; done.
Qed.
Lemma stuck_destroyer : workers_ s <> [] -> destroyer_ s <> DNone -> destroyer_ s = DDone /\ Forall (fun w => w = WExited) (workers_ s).
Proof using Hi Hret Hb Hl Hstuck.
  intros Hne Hd. destruct (stuck_quiet Hne) as [Hq _]. pose proof (Hstuck EDestroyer I) as Hs. cbn [pg_step] in Hs. unfold destroy_step in Hs.
  destruct (destroyer_ s) eqn:Ed; try done.
  - by destruct (workQueue_ s).
  - destruct (li_dwait _ Hl Ed) as [?|[id Hid]]; [done|]. by destruct (stuck_rests _ Hid).
  - destruct (forallb _ _) eqn:Hall; [done|]. exfalso. apply not_true_iff_false in Hall. apply Hall. apply forallb_forall. intros w Hw%list_elem_of_In.
    apply bool_decide_true. destruct (stuck_rests w Hw) as [->|]; [|done]. by destruct (li_join _ Hl (or_introl Ed)).
  - split; [done|]. apply Forall_forall. by apply (li_done _ Hl).
Qed.
End stuck.

Lemma initial_live contexts threads st : live_inv (initial contexts threads st).
Proof.
  split; cbn; try done; [naive_solver| |].
  - intros [H _]%elem_of_replicate. done.
  - by intros [|].
Qed.
Lemma run_all_inv evs : forall p s s', ids_inv p s -> barrier_inv s -> live_inv s -> pg_run evs s = Some s' ->
  exists p', ids_inv p' s' /\ barrier_inv s' /\ live_inv s'.
Proof.
  induction evs as [|ev evs IH]; cbn; intros p s s' Hi Hb Hl H; [simplify_eq; eauto|].
  destruct (pg_step ev s) as [s1|] eqn:E; [|done]. pose proof (barrier_step _ _ _ _ Hi Hb E). pose proof (live_step _ _ _ _ Hi Hl E).
  destruct (ids_step _ _ _ _ Hi E) as (p1 & _ & Hi1). by eapply (IH p1).
Qed.
Lemma gloo_internal_run evs : forall s s', Forall internal evs -> pg_run evs s = Some s' ->
  (length evs + steps_left s' <= steps_left s)%nat /\ length (works_ s') = length (works_ s) /\ length (workers_ s') = length (workers_ s) /\
  (destroyer_ s <> DNone -> destroyer_ s' <> DNone).
Proof.
  induction evs as [|ev evs IH]; cbn; intros s s' He H; [by simplify_eq|]. apply Forall_cons in He as [He Hes].
  destruct (pg_step ev s) as [s1|] eqn:E; [|done]. pose proof (gloo_internal_decreases _ _ _ He E). destruct (gloo_internal_keeps _ _ _ He E) as (? & ? & ?).
  destruct (IH s1 s' Hes H) as (? & ? & ? & ?). split_and!; [lia|lia|lia|auto].
Qed.
Lemma threads_kept ev s s' : contexts_ s <> 0%nat -> pg_step ev s = Some s' -> length (workers_ s') = length (workers_ s) /\ contexts_ s' = contexts_ s.
Proof.
  intros H0 Hs. destruct ev as [i held| |t|c| |k| |i|]; unfold pg_step in Hs.
  4:{ case_bool_decide; [|done]. apply (inj Some) in Hs as <-. pose proof (do_call_post c s H0) as Hp.
      destruct (do_call c s) as [[id|e|] s']; [|..|done]; [by destruct Hp as (_ & e & _ & ->)|by destruct Hp as [->|[_ ->]]]. }
  5:{ destruct (snapshots_ s !! k) as [sn|]; [|done]. apply (inj Some) in Hs as <-. by rewrite barrier_enqueue_eq. }
  all: unfold worker_step, run_step, destroy_step, notify_step in Hs; repeat case_match; simplify_eq; cbn; by rewrite ?length_insert, ?length_map.
Qed.
Lemma run_threads evs : forall s s', contexts_ s <> 0%nat -> pg_run evs s = Some s' -> length (workers_ s') = length (workers_ s).
Proof.
  induction evs as [|ev evs IH]; cbn; intros s s' H0 H; [by simplify_eq|]. destruct (pg_step ev s) as [s1|] eqn:E; [|done].
  destruct (threads_kept _ _ _ H0 E) as [<- Hc]. apply IH; [by rewrite Hc|done].
Qed.

(** C17: All work is completed and the destructor returns: from any reachable state
    of a group with at least one worker thread, the threads of the group take at
    most [steps_left] steps if nothing more is called; when none of them can take
    a step, every work that was ever enqueued is completed, barriers that wait for
    barriers included, and a destructor that has been started has returned after
    joining all the threads.  So no wake-up is lost and no circle of waiting
    workers arises; the calls of gloo and ATen are assumed to return. *)
Theorem gloo_work_completes {device ctx : Type} (connect : nat -> device -> M rstate ctx) (devices : list device) (threads : Z)
    (st0 st : rstate) (s0 s s' : pgg) (before evs : list pg_event) :
  libraries_return -> 0 < threads ->
  ProcessGroupGloo_construct connect devices threads st0 = (Ret s0, st) -> pg_run before s0 = Some s ->
  Forall internal evs -> pg_run evs s = Some s' ->
  (length evs <= steps_left s)%nat /\
  ((forall ev, internal ev -> pg_step ev s' = None) ->
   length (works_ s') = length (works_ s) /\ Forall (fun w => completed_ w = true) (works_ s') /\
   (destroyer_ s <> DNone -> destroyer_ s' = DDone /\ Forall (fun w => w = WExited) (workers_ s'))).
Proof.
  intros Hret Ht Hc Hr He Hr'. apply construct_initial in Hc as [-> Hd].
  destruct (run_all_inv before 0 _ s (initial_ids _ _ _ Hd) (initial_barrier _ _ _) (initial_live _ _ _) Hr) as (p & Hi & Hb & Hl).
  destruct (run_all_inv evs p s s' Hi Hb Hl Hr') as (p' & Hi' & Hb' & Hl').
  destruct (gloo_internal_run evs s s' He Hr') as (Hsteps & Hw & Hk & Hdn). split; [lia|]. intros Hstuck.
  assert (Hne : workers_ s' <> []).
  { intros E. rewrite E, (run_threads _ (initial (length devices) (Z.to_nat threads) st) s Hd Hr) in Hk. cbn in Hk. rewrite length_replicate in Hk. lia. }
  split_and!; [done|by eapply stuck_works|]. intros Hnone. eapply stuck_destroyer; eauto.
Qed.

(** ** The sum of sparse tensors *)

(** The layout that the comment of SparseTensorMetadata gives. *)
Definition metadata_row (t : sparse D) : list Z :=
  let sd := Z.to_nat (sparse_dim t) in
  let dense := drop sd (sizes t) in
  take sd (sizes t) ++ replicate (4 - sd) 0 ++ dense ++ replicate (4 - length dense) 0 ++ [nnz t].
(** At most four sparse and four dense dimensions, none of them empty. *)
Record metadata_fits (t : sparse D) : Prop := mkFits {
  mf_sparse : 0 <= sparse_dim t <= Z.of_nat (length (sizes t));
  mf_sparse4 : sparse_dim t <= 4;
  mf_dense4 : Z.of_nat (length (sizes t)) - sparse_dim t <= 4;
  mf_positive : Forall (fun d => 0 < d) (sizes t);
}.

Lemma row_parts t : metadata_fits t -> let sd := Z.to_nat (sparse_dim t) in
  (sd <= 4)%nat /\ length (take sd (sizes t)) = sd /\ (length (drop sd (sizes t)) <= 4)%nat.
Proof. intros [H1 H2 H3 H4] sd. rewrite length_take, length_drop. lia. Qed.
Lemma row_length t : metadata_fits t -> length (metadata_row t) = 9%nat.
Proof. intros H. destruct (row_parts t H) as (H1 & H2 & H3). unfold metadata_row. rewrite !length_app, !length_replicate, H2. cbn. lia. Qed.
Lemma populate_row t : metadata_fits t -> populate_from_sparse_tensor t (replicate 9 0) = Ret (metadata_row t).
Proof.
  intros H. destruct (row_parts t H) as (H1 & H2 & H3). destruct H as [F1 F2 F3 F4]. unfold populate_from_sparse_tensor, metadata_row.
  rewrite (proj2 (Z.leb_le _ _)), (proj2 (Z.leb_le _ _)) by done. cbn [ocheck obind].
  revert H1 H2 H3. generalize (Z.to_nat (sparse_dim t)) (take (Z.to_nat (sparse_dim t)) (sizes t)) (drop (Z.to_nat (sparse_dim t)) (sizes t)).
  clear. intros sd a b H1 <- H3. f_equal.
  destruct a as [|a1 [|a2 [|a3 [|a4 [|a5 a]]]]]; cbn in H1; try lia;
    (destruct b as [|b1 [|b2 [|b3 [|b4 [|b5 b]]]]]; cbn in H3; [reflexivity..|lia]).
Qed.
Lemma row_sizes t : metadata_fits t -> metadata_sizes (metadata_row t) = sizes t /\ metadata_nnz (metadata_row t) = nnz t.
Proof.
  intros H. destruct (row_parts t H) as (H1 & H2 & H3). destruct H as [F1 F2 F3 F4]. unfold metadata_row, metadata_sizes, metadata_nnz.
  rewrite <- (take_drop (Z.to_nat (sparse_dim t)) (sizes t)) in F4. apply Forall_app in F4 as [Fa Fb].
  assert (E : forall x, x = take (Z.to_nat (sparse_dim t)) (sizes t) ++ drop (Z.to_nat (sparse_dim t)) (sizes t) -> x = sizes t).
  { intros x ->. apply take_drop. }
  match goal with |- ?x = _ /\ ?y => cut (x = take (Z.to_nat (sparse_dim t)) (sizes t) ++ drop (Z.to_nat (sparse_dim t)) (sizes t) /\ y);
    [intros [Hx Hy]; split; [by apply E|exact Hy]|] end. clear E.
  revert H1 H2 H3 Fa Fb. generalize (Z.to_nat (sparse_dim t)) (take (Z.to_nat (sparse_dim t)) (sizes t)) (drop (Z.to_nat (sparse_dim t)) (sizes t)).
  clear. intros sd a b H1 <- H3 Fa Fb.
  destruct a as [|a1 [|a2 [|a3 [|a4 [|a5 a]]]]]; cbn in H1; try lia;
    (destruct b as [|b1 [|b2 [|b3 [|b4 [|b5 b]]]]]; cbn in H3; try lia); cbn in Fa, Fb;
    repeat match goal with H : Forall _ (_ :: _) |- _ => apply Forall_cons in H as [? H] end;
    cbn; rewrite ?(proj2 (Z.leb_gt _ 0)) by done; split; reflexivity.
Qed.

(** The metadata of a sparse tensor survive the transfer: populating the nine
    zeros of a rank's row succeeds and lays them out as documented, and sizes() and
    nnz() read the sizes and the number of entries back, for up to four sparse and
    four dense dimensions, none of them empty. *)
Theorem gloo_metadata_roundtrip (t : sparse D) : metadata_fits t ->
  exists row, populate_from_sparse_tensor t (replicate SparseTensorMetadata_dim 0) = Ret row /\ row = metadata_row t /\
    length row = SparseTensorMetadata_dim /\ metadata_sizes row = sizes t /\ metadata_nnz row = nnz t.
Proof.
  intros H. exists (metadata_row t). destruct (row_sizes t H). split_and!; try done; [by apply populate_row|by apply row_length].
Qed.

Lemma inserts_eq {A} (k : list A) : forall i l, (i + length k <= length l)%nat -> list_inserts i k l = take i l ++ k ++ drop (i + length k) l.
Proof.
  induction k as [|y k IH]; intros i l Hl; cbn [list_inserts length] in *.
  - rewrite Nat.add_0_r. cbn. by rewrite take_drop.
  - rewrite IH by lia. destruct (lookup_lt_is_Some_2 l i ltac:(lia)) as [x Hx]. rewrite (take_S_r _ _ _ Hx), <- app_assoc.
    replace (S i + length k)%nat with (i + S (length k))%nat by lia.
    rewrite insert_app_r_alt by (rewrite length_take; lia). rewrite length_take, (Nat.min_l i) by lia. by rewrite Nat.sub_diag.
Qed.
Lemma rows_lookup {A} n (ls : list (list A)) : Forall (fun l => length l = n) ls -> forall i l, ls !! i = Some l ->
  take n (drop (i * n) (concat ls)) = l.
Proof.
  induction 1 as [|l0 ls Hl _ IH]; intros [|i] l Hi; simplify_eq/=.
  - by apply take_app_length'.
  - rewrite <- drop_drop, (drop_app_length' l0) by done. by apply IH.
Qed.
Lemma narrow_concat {A} (segs : list (list A)) : forall pre, Z.of_nat (length (pre ++ concat segs)) < 2 ^ 63 ->
  narrow_all (pre ++ concat segs) (Z.of_nat (length pre)) (map (fun l => Z.of_nat (length l)) segs) = Ret segs.
Proof.
  induction segs as [|l segs IH]; intros pre Hs; cbn; [done|]. cbn in Hs. rewrite !length_app in Hs.
  unfold narrow. rewrite int64_id by (unfold in_int64; lia). rewrite !length_app.
  rewrite (proj2 (Z.leb_le 0 _)), (proj2 (Z.leb_le 0 _)), (proj2 (Z.leb_le _ _)) by lia. cbn [andb ocheck obind].
  rewrite !Nat2Z.id, drop_app_length, take_app_length, uint64_id by (unfold in_uint64; lia).
  rewrite <- Nat2Z.inj_add, <- length_app, (app_assoc pre l), IH by (rewrite !length_app; lia). done.
Qed.
Lemma narrow_parts {A B} (f : B -> list A) (l : list B) : Z.of_nat (length (concat (map f l))) < 2 ^ 63 ->
  narrow_all (concat (map f l)) 0 (map (fun t => Z.of_nat (length (f t))) l) = Ret (map f l).
Proof. intros H. pose proof (narrow_concat (map f l) [] H) as Hn. by rewrite map_map in Hn. Qed.
Lemma totalSize_sum counts : Forall (fun k => 0 <= k) counts -> forall n, 0 <= n -> n + sum_Z counts < 2 ^ 63 ->
  foldl (fun n k => int64 (n + k)) n counts = n + sum_Z counts.
Proof.
  induction 1 as [|k counts Hk Hc IH]; intros n Hn Hs; cbn in *; [lia|]. pose proof (sum_Z_nonneg _ Hc).
  rewrite int64_id by (unfold in_int64; lia). rewrite IH; lia.
Qed.

(** The buffer of rank [r] in the exchange of the metadata, and what an allgather
    in place and an allgatherv leave in the outputs. *)
Definition metadata_buffer (r : nat) (t : sparse D) : list Z :=
  list_inserts (r * SparseTensorMetadata_dim) (metadata_row t) (replicate (group * SparseTensorMetadata_dim) 0).
Definition gathered_rows (ts : list (sparse D)) : list Z := concat (imap (fun r t => row_of (metadata_buffer r t) r) ts).

(** What every rank sends, after coalescing: tensors of the same sizes and type. *)
Record part_ok (szs : list Z) (sd : Z) (T : ScalarType) (t : sparse D) : Prop := mkPartOk {
  po_fits : metadata_fits t;
  po_sizes : sizes t = szs;
  po_dim : sparse_dim t = sd;
  po_type : sparse_type t = T;
  po_indices : Z.of_nat (length (indices t)) = sd * nnz t;
  po_values : Z.of_nat (length (values t)) = nnz t * fold_right Z.mul 1 (drop (Z.to_nat sd) szs);
  po_nnz : 0 <= nnz t < 2 ^ 63;
}.

Section exchange.
Context (ts : list (sparse D)) (szs : list Z) (sd : Z) (T : ScalarType) (me : sparse D) (c : nat) (tag : Z).
Hypothesis group_size : size_ = Z.of_nat (length ts).
Hypothesis mine : ts !! Z.to_nat rank_ = Some me.
Hypothesis parts : Forall (part_ok szs sd T) ts.
Hypothesis known : GENERATE_ALL_TYPES T = Ret tt.
Hypothesis indices_small : Z.of_nat (length (concat (map indices ts))) < 2 ^ 63.
Hypothesis values_small : Z.of_nat (length (concat (map values ts))) < 2 ^ 63.
Hypothesis dense_small : fold_right Z.mul 1 (drop (Z.to_nat sd) szs) < 2 ^ 63.

Lemma group_ts : group = length ts.
Proof using group_size. unfold group. lia. Qed.
Lemma part_lookup i t : ts !! i = Some t -> part_ok szs sd T t.
Proof using parts. intros H. by eapply Forall_lookup in parts. Qed.
Lemma gathered_eq : gathered_rows ts = concat (map metadata_row ts).
Proof using group_size parts.
  unfold gathered_rows. f_equal. apply list_eq. intros i. rewrite list_lookup_imap. change (map metadata_row) with (fmap (M := list) metadata_row).
  rewrite list_lookup_fmap. destruct (ts !! i) as [t|] eqn:Ht; [|done]. cbn. f_equal. pose proof (row_length t (po_fits _ _ _ _ (part_lookup i t Ht))) as Hl.
  pose proof (lookup_lt_Some _ _ _ Ht). unfold row_of, metadata_buffer, SparseTensorMetadata_dim. rewrite group_ts, inserts_eq by (rewrite length_replicate; lia).
  rewrite drop_app_length' by (rewrite length_take, length_replicate; lia). by rewrite take_app_length'.
Qed.

Lemma metadata_exchanged (h : heap) w w' :
  gloo_call_long c (gloo_allgather tag None (metadata_buffer (Z.to_nat rank_) me)) w = (Ret (gathered_rows ts), w') ->
  allgather_metadata c tag me (h, w) = (Ret (map metadata_row ts), (h, w')).
Proof using group_size mine parts.
  intros E. pose proof (part_lookup _ _ mine) as Hme. pose proof (lookup_lt_Some _ _ _ mine). unfold allgather_metadata.
  assert (row_of (replicate (group * SparseTensorMetadata_dim) 0) (Z.to_nat rank_) = replicate 9 0) as ->.
  { unfold row_of, SparseTensorMetadata_dim. rewrite group_ts, drop_replicate, take_replicate. f_equal. lia. }
  rewrite (populate_row me (po_fits _ _ _ _ Hme)). unfold bind, lift, in_world. fold (metadata_buffer (Z.to_nat rank_) me). cbn [snd]. rewrite E.
  unfold ret. do 2 f_equal. apply list_eq. intros i. change (@map nat) with (fun B => @fmap list list_fmap nat B).
  change (@map (sparse D)) with (fun B => @fmap list list_fmap (sparse D) B). cbv beta. rewrite !list_lookup_fmap.
  destruct (ts !! i) as [t|] eqn:Ht; cbn.
  - pose proof (lookup_lt_Some _ _ _ Ht). rewrite lookup_seq_lt by (rewrite group_ts; lia). cbn. f_equal. rewrite gathered_eq. unfold row_of.
    apply rows_lookup; [|by change (map metadata_row) with (fmap (M := list) metadata_row); rewrite list_lookup_fmap, Ht].
    apply Forall_map. eapply Forall_impl; [exact parts|]. intros x Hx. apply row_length, Hx.
  - apply lookup_ge_None in Ht. by rewrite lookup_seq_ge by (rewrite group_ts; lia).
Qed.
Lemma dimensions_agree : dimensions_match (map metadata_row ts) = Ret tt.
Proof using group_size mine parts.
  unfold dimensions_match, at_index. change (map metadata_row) with (fmap (M := list) metadata_row). rewrite list_lookup_fmap, mine. cbn [fmap option_fmap option_map obind].
  apply for_range_ret. intros i Hi. rewrite group_ts in Hi. destruct (i =? Z.to_nat rank_)%nat; [done|].
  destruct (lookup_lt_is_Some_2 ts i ltac:(lia)) as [t Ht]. rewrite list_lookup_fmap, Ht. cbn.
  destruct (part_lookup _ _ Ht) as [F1 E1 _ _ _ _ _], (part_lookup _ _ mine) as [F2 E2 _ _ _ _ _].
  by rewrite (proj1 (row_sizes t F1)), (proj1 (row_sizes me F2)), E1, E2, bool_decide_true.
Qed.

Lemma length_le_concat {A B} (f : A -> list B) (l : list A) x : x ∈ l -> (length (f x) <= length (concat (map f l)))%nat.
Proof. induction 1; cbn; rewrite length_app; lia. Qed.
Lemma sum_of_lengths {A B} (f : A -> list B) (l : list A) :
  sum_Z (map (fun x => Z.of_nat (length (f x))) l) = Z.of_nat (length (concat (map f l))).
Proof. induction l as [|x l IH]; cbn; [done|]. rewrite IH, length_app. lia. Qed.
Lemma product_uint64 ds : Forall (fun d => 0 < d) ds -> forall n, 0 < n -> n * fold_right Z.mul 1 ds < 2 ^ 63 ->
  foldl (fun n d => uint64 (n * d)) n ds = n * fold_right Z.mul 1 ds /\ 0 < fold_right Z.mul 1 ds.
Proof.
  induction 1 as [|d ds Hd _ IH]; intros n Hn Hs; cbn in *; [lia|]. assert (0 < fold_right Z.mul 1 ds) as Hp.
  { destruct (Z.lt_ge_cases 0 (fold_right Z.mul 1 ds)) as [?|Hle]; [done|]. destruct (IH 1 ltac:(lia) ltac:(lia)). lia. }
  rewrite uint64_id by (unfold in_uint64; nia). destruct (IH (n * d) ltac:(nia) ltac:(nia)) as [-> _]. nia.
Qed.

(** The counts that are passed on are the true lengths. *)
Lemma index_counts : map (fun m => uint64 (metadata_nnz m * sparse_dim me)) (map metadata_row ts) = map (fun t => Z.of_nat (length (indices t))) ts /\
  map (fun m => int64 (sparse_dim me * metadata_nnz m)) (map metadata_row ts) = map (fun t => Z.of_nat (length (indices t))) ts.
Proof using mine parts indices_small.
  rewrite !map_map. pose proof (part_lookup _ _ mine) as Hme.
  split; apply map_ext_in; intros t Ht; apply list_elem_of_In in Ht; pose proof (length_le_concat indices ts t Ht);
    apply list_elem_of_lookup in Ht as [i Ht]; pose proof (part_lookup _ _ Ht) as Hp; rewrite (proj2 (row_sizes t (po_fits _ _ _ _ Hp))), (po_dim _ _ _ _ Hme);
    pose proof (po_indices _ _ _ _ Hp); [rewrite uint64_id by (unfold in_uint64; lia)|rewrite int64_id by (unfold in_int64; lia)]; lia.
Qed.
Lemma dense_numel : denseNumel me = fold_right Z.mul 1 (drop (Z.to_nat sd) szs).
Proof using mine parts dense_small.
  destruct (part_lookup _ _ mine) as [F Es Ed _ _ _ _]. unfold denseNumel. rewrite Es, Ed.
  assert (Hp : Forall (fun d => 0 < d) (drop (Z.to_nat sd) szs)) by (apply Forall_drop; rewrite <- Es; apply F).
  destruct (product_uint64 _ Hp 1 ltac:(lia) ltac:(lia)) as [-> _]. lia.
Qed.
Lemma value_counts : map (fun m => uint64 (metadata_nnz m * denseNumel me)) (map metadata_row ts) = map (fun t => Z.of_nat (length (values t))) ts /\
  map (fun m => int64 (uint64 (denseNumel me * metadata_nnz m))) (map metadata_row ts) = map (fun t => Z.of_nat (length (values t))) ts.
Proof using mine parts dense_small values_small.
  rewrite dense_numel, !map_map.
  split; apply map_ext_in; intros t Ht; apply list_elem_of_In in Ht; pose proof (length_le_concat values ts t Ht);
    apply list_elem_of_lookup in Ht as [i Ht]; pose proof (part_lookup _ _ Ht) as Hp; rewrite (proj2 (row_sizes t (po_fits _ _ _ _ Hp)));
    pose proof (po_values _ _ _ _ Hp); [rewrite uint64_id by (unfold in_uint64; lia)|]; [lia|].
  rewrite uint64_id by (unfold in_uint64; lia). rewrite int64_id by (unfold in_int64; lia). lia.
Qed.
Lemma total_lengths {B} (f : sparse D -> list B) : Z.of_nat (length (concat (map f ts))) < 2 ^ 63 ->
  totalSize (map (fun t => Z.of_nat (length (f t))) ts) = Z.of_nat (length (concat (map f ts))).
Proof using Type.
  intros Hs. unfold totalSize. rewrite totalSize_sum; rewrite ?sum_of_lengths; try lia. apply Forall_map, Forall_forall. intros. lia.
Qed.

Lemma indices_exchanged (h : heap) w w' :
  gloo_call_long c (gloo_allgatherv tag (indices me) (at_empty_long (length (concat (map indices ts))))
    (map (fun t => Z.of_nat (length (indices t))) ts)) w = (Ret (concat (map indices ts)), w') ->
  allgather_indices c tag me (map metadata_row ts) (h, w) = (Ret (map indices ts), (h, w')).
Proof using mine parts indices_small.
  intros E. unfold allgather_indices. destruct index_counts as [-> ->]. rewrite total_lengths by done.
  unfold bind, lift, in_world. rewrite (proj2 (Z.leb_le 0 _)) by lia. cbn [ocheck snd]. rewrite Nat2Z.id, E.
  by rewrite (narrow_parts indices).
Qed.
Lemma values_exchanged (h : heap) w w' :
  gloo_call c (gloo_allgatherv tag (values me) (at_empty (length (concat (map values ts))))
    (map (fun t => Z.of_nat (length (values t))) ts)) w = (Ret (concat (map values ts)), w') ->
  allgather_values c tag me (map metadata_row ts) (h, w) = (Ret (map values ts), (h, w')).
Proof using mine parts values_small dense_small known.
  intros E. unfold allgather_values. destruct value_counts as [-> ->]. rewrite total_lengths by done.
  unfold bind, lift, in_world. rewrite (proj2 (Z.leb_le 0 _)) by lia. rewrite (po_type _ _ _ _ (part_lookup _ _ mine)), known. cbn [ocheck snd].
  rewrite Nat2Z.id, E. by rewrite (narrow_parts values).
Qed.

(** The sum of the tensors of all ranks, in the order of the ranks. *)
Fixpoint add_parts (output : sparse D) (l : list (sparse D)) : outcome (sparse D) :=
  match l with
  | [] => Ret output
  | t :: l =>
      let? x := sparse_coo_tensor (indices t) (values t) szs sd T in
      let? output := sparse_add output x in
      add_parts output l
  end.
Definition sum_of_parts : outcome (sparse D) :=
  match ts with
  | [] => Throw (Undefined "indices[0]")
  | t :: l =>
      let? output := sparse_coo_tensor (indices t) (values t) szs sd T in
      let? output := add_parts output l in
      Ret (coalesce output)
  end.
Lemma sum_sparse_parts output l : sum_sparse me output (zip (map indices l) (map values l)) = add_parts output l.
Proof using mine parts.
  destruct (part_lookup _ _ mine) as [_ Es Ed Et _ _ _]. revert output. induction l as [|t l IH]; intros o; cbn; [done|].
  rewrite Es, Ed, Et. destruct (sparse_coo_tensor _ _ _ _ _) as [x|e|]; [|done..]. cbn. destruct (sparse_add o x); [|done..]. cbn. apply IH.
Qed.

(** C18: The sparse allreduce computes the sum on every rank: let the ranks have
    coalesced tensors of equal sizes and type, with at most four sparse and four
    dense dimensions, none empty, any numbers of entries, and totals below 2^63, and
    let gloo gather as documented when the counts it is given are the true lengths.
    Then the metadata describe every tensor, the check of the dimensions passes,
    the counts are the true lengths, and the result is that of adding up the
    tensors of all ranks in the order of the ranks: the same expression on each
    of them. *)
Theorem gloo_sparse_allreduce_sums (tensors : list Tensor) (t0 : Tensor) (h : heap) (w w0 w1 w2 w3 : W) :
  tensors !! 0%nat = Some t0 ->
  for_each (drop 1 tensors) (fun t => in_world (sparse_add_ t0 t)) (h, w) = (Ret tt, (h, w0)) ->
  coalesce (sparse_read t0 w0) = me ->
  gloo_call_long c (gloo_allgather tag None (metadata_buffer (Z.to_nat rank_) me)) w0 = (Ret (gathered_rows ts), w1) ->
  gloo_call_long c (gloo_allgatherv tag (indices me) (at_empty_long (length (concat (map indices ts))))
    (map (fun t => Z.of_nat (length (indices t))) ts)) w1 = (Ret (concat (map indices ts)), w2) ->
  gloo_call c (gloo_allgatherv tag (values me) (at_empty (length (concat (map values ts))))
    (map (fun t => Z.of_nat (length (values t))) ts)) w2 = (Ret (concat (map values ts)), w3) ->
  sparse_allreduce c tag tensors (h, w) = (sum_of_parts, (h, w3)).
Proof using group_size mine parts known indices_small values_small dense_small.
  intros H0 Hadd Hme Em Ei Ev. unfold sparse_allreduce, at_index. rewrite H0. unfold bind at 1, lift at 1. unfold bind at 1. rewrite Hadd.
  unfold bind at 1, gets. cbn [snd]. rewrite Hme. unfold bind at 1. rewrite (metadata_exchanged h w0 w1 Em).
  unfold bind at 1, lift at 1. rewrite dimensions_agree. unfold bind at 1. rewrite (indices_exchanged h w1 w2 Ei).
  unfold bind at 1. rewrite (values_exchanged h w2 w3 Ev). unfold sum_of_parts.
  pose proof sum_sparse_parts as Hsum. destruct (part_lookup _ _ mine) as [_ Es Ed Et _ _ _]. rewrite Es, Ed, Et. clear - Hsum.
  destruct ts as [|t l]; cbn [map zip zip_with]; [done|]. unfold bind, lift, ret.
  destruct (sparse_coo_tensor _ _ _ _ _) as [x|e|]; [|done..]. cbn [obind]. rewrite Hsum. by destruct (add_parts x l).
Qed.
End exchange.
End gloo.

(** ** Point-to-point operations *)

(** gloo's unbound buffers. *)
Class UnboundBuffers (W : Type) := {
  UnboundBuffer : Type;
  element_size : Tensor -> Z;
  createUnboundBuffer : nat -> Tensor -> Z -> M W UnboundBuffer;
  buf_send : UnboundBuffer -> Z -> Z -> M W unit;
  buf_recv : UnboundBuffer -> list Z -> Z -> M W unit;
  (** Without, or with, a time-out; waitRecv also gives the source rank. *)
  waitSend : UnboundBuffer -> option Z -> M W bool;
  waitRecv : UnboundBuffer -> option Z -> M W (bool * option Z);
  abortWaitSend : UnboundBuffer -> M W unit;
  abortWaitRecv : UnboundBuffer -> M W unit;
}.

Section p2p.
Context {W : Type} `{UnboundBuffers W}.
Variable contexts_size size_ : Z.

Definition checkSingleTensor (tensors : list Tensor) : outcome Tensor :=
  check! (length tensors =? 1)%nat else RuntimeError "ProcessGroupGloo::send takes a single tensor" in
  let? tensor := at_index tensors 0 in
  check! is_contiguous tensor else RuntimeError "input tensor has to be contiguous" in
  check! negb (is_sparse tensor) else RuntimeError "input tensor has to be dense" in
  Ret tensor.
Definition checkTag (tag : Z) : outcome Z :=
  check! 0 <=? tag else CheckFailed "Tag must be nonnegative" in Ret (uint32 tag).

Record SendWork := mkSend { sw_work : Work; sw_tensor : Tensor; sw_buffer : UnboundBuffer }.
Record RecvWork := mkRecv { rw_work : Work; rw_tensor : Tensor; rw_buffer : UnboundBuffer; srcRank_ : Z }.
(** The constructor of the base class with its defaults. *)
Definition new_SendWork (tensor : Tensor) (buffer : UnboundBuffer) : SendWork := mkSend (new_Work (-1) UNKNOWN false) tensor buffer.
Definition new_RecvWork (tensor : Tensor) (buffer : UnboundBuffer) : RecvWork := mkRecv (new_Work (-1) UNKNOWN false) tensor buffer (-1).

(** The buffer of a send or recv, and its tag. *)
Definition prepare_buffer (tensors : list Tensor) (tag : Z) : M W (Tensor * UnboundBuffer * Z) :=
  let! tensor := lift (checkSingleTensor tensors) in
  let! utag := lift (checkTag tag) in
  let size := int64 (numel tensor * element_size tensor) in
  do! assert_ (negb (contexts_size =? 0)) (Undefined "tag % 0") in
  let! buf := createUnboundBuffer (Z.to_nat (uint32 tag mod contexts_size)) tensor size in
  ret (tensor, buf, utag).
Definition send (tensors : list Tensor) (dstRank tag : Z) : M W SendWork :=
  let! r := prepare_buffer tensors tag in
  do! buf_send r.1.2 dstRank r.2 in
  ret (new_SendWork r.1.1 r.1.2).
Definition recv (tensors : list Tensor) (srcRank tag : Z) : M W RecvWork :=
  let! r := prepare_buffer tensors tag in
  do! buf_recv r.1.2 [srcRank] r.2 in
  ret (new_RecvWork r.1.1 r.1.2).
(** resize, then push_back. *)
Definition any_ranks : list Z := replicate (Z.to_nat size_) 0 ++ map Z.of_nat (seq 0 (Z.to_nat size_)).
Definition recvAnysource (tensors : list Tensor) (tag : Z) : M W RecvWork :=
  let! r := prepare_buffer tensors tag in
  do! buf_recv r.1.2 any_ranks r.2 in
  ret (new_RecvWork r.1.1 r.1.2).

(** wait() of the two work objects; [None]: kNoTimeout. *)
Definition timeout_of (timeout : Z) : option Z := if timeout =? kNoTimeout then None else Some timeout.
Definition caught {A} (o : outcome A) : option (option exn) :=
  match o with Ret _ => Some None | Throw e => Some (Some e) | Block => None end.
Definition send_wait (timeout : Z) : M (SendWork * W) bool := fun s =>
  let '(w, m) := s in
  let '(o, m') := waitSend (sw_buffer w) (timeout_of timeout) m in
  match caught o with
  | None => (Block, (w, m'))
  | Some exception =>
      let '(r, work) := finishAndThrow exception (sw_work w) in
      ((let? _ := r in Ret (match o with Ret b => b | _ => false end)), (mkSend work (sw_tensor w) (sw_buffer w), m'))
  end.
Definition recv_wait (timeout : Z) : M (RecvWork * W) bool := fun s =>
  let '(w, m) := s in
  let '(o, m') := waitRecv (rw_buffer w) (timeout_of timeout) m in
  match caught o with
  | None => (Block, (w, m'))
  | Some exception =>
      let '(r, work) := finishAndThrow exception (rw_work w) in
      let src := match o with Ret (_, Some rank) => rank | _ => srcRank_ w end in
      ((let? _ := r in Ret (match o with Ret (b, _) => b | _ => false end)), (mkRecv work (rw_tensor w) (rw_buffer w) src, m'))
  end.
Definition recv_sourceRank (w : RecvWork) : Z := srcRank_ w.
Definition send_abort (w : SendWork) : M W unit := abortWaitSend (sw_buffer w).
Definition recv_abort (w : RecvWork) : M W unit := abortWaitRecv (rw_buffer w).

(** An aborted or failed wait completes the work; a wait that gloo interrupts
    ([false]) completes it without an exception. *)
Lemma send_wait_completes timeout w m o m' :
  waitSend (sw_buffer w) (timeout_of timeout) m = (o, m') -> o <> Block ->
  exists w', send_wait timeout (w, m) = (o, (w', m')) /\ completed_ (sw_work w') = true /\
    isSuccess (sw_work w') = match o with Ret _ => true | _ => false end.
Proof.
  intros E Ho. unfold send_wait. rewrite E. destruct o as [b|e|]; [..|done]; cbn; eexists; split_and!; reflexivity.
Qed.
(** The first half of the ranks that recvAnysource passes on are zeros. *)
Lemma any_ranks_twice : 0 <= size_ -> Z.of_nat (length any_ranks) = 2 * size_ /\
  forall i, (i < Z.to_nat size_)%nat -> any_ranks !! i = Some 0.
Proof.
  intros Hs. unfold any_ranks. rewrite length_app, length_replicate, length_map, length_seq. split; [lia|].
  intros i Hi. apply lookup_app_l_Some. apply lookup_replicate. done.
Qed.
End p2p.

(** ** A small world *)

Module Example_gloo.
Definition cpu (n r : nat) (ty : ScalarType) (l : Layout) : Tensor :=
  mkT (mkTensor ty l (mkDevice kCPU 0) [Z.of_nat n] [1]) r true.
#[export] Instance aten : ATen Z := {
  at_empty k := replicate k 0;
  copy_shapes a b := bool_decide (a = b);
  copy_data _ _ l := l;
  viewable _ := true;
}.
(** Two ranks: the other one contributes tens to every sum, and gathers answer for both.
    The world holds the contents of the sparse tensors. *)
#[export] Instance gloo : Gloo Z (gmap nat (sparse Z)) := {
  gloo_call _ op := match op with
    | gloo_allreduce _ _ (l :: _) _ => ret (map (fun x => x + 10) l)
    | gloo_allgatherv _ input _ _ => ret (input ++ [7])
    | _ => ret [] end;
  gloo_call_long _ op := match op with
    | gloo_allgather _ _ output => ret (take 9 output ++ [5; 0; 0; 0; 0; 0; 0; 0; 1])
    | gloo_allgatherv _ input _ _ => ret (input ++ [3])
    | _ => ret [] end;
  at_empty_long k := replicate k 0;
  at_cat l := (kInt, concat (map snd l));
  sparse_read t w := default (mkSparse [] 0 0 [] [] kInt) (w !! ref t);
  sparse_add_ _ _ := ret tt;
  coalesce t := t;
  sparse_coo_tensor i v l d ty := Ret (mkSparse l d (Z.of_nat (length v)) i v ty);
  sparse_add a b := Ret (mkSparse (sizes a) (sparse_dim a) (nnz a + nnz b) (indices a ++ indices b) (values a ++ values b) (sparse_type a));
  sparse_copy_ t u := modify (<[ref t := u]>);
}.
Definition world : gmap nat (list Z) * gmap nat (sparse Z) := (<[0%nat := [7; 8]]> ∅, ∅).
Definition connect (i : nat) (d : string) : M (gmap nat (list Z) * gmap nat (sparse Z)) nat := ret i.
Definition devices : list string := ["eth0"%string; "eth1"%string].
Definition start : @pgg Z (gmap nat (sparse Z)) := initial 2 2 world.
Lemma start_constructed : ProcessGroupGloo_construct connect devices 2 world = (Ret start, world).
Proof. reflexivity. Qed.

(** An allreduce that is refused, one that is accepted, and a barrier, whose
    snapshot sees the allreduce in progress and waits for it. *)
Definition t0 : Tensor := cpu 2 0 kInt kStrided.
Definition before : list pg_event :=
  [ECall (CAllreduce [] SUM); ECall (CAllreduce [t0] SUM); EWorker 0 true; EWorker 0 true; EWorker 1 true; ENotify (Some 1%nat);
   ESnapshot; EBarrier 0; EWorker 1 true; EWorker 1 true; EWorker 1 true; ENotify None].
Definition between : list pg_event :=
  [EWorker 0 true; EWorker 0 true; EWorker 0 true; EWorker 1 true; EWorker 1 true; EWorker 1 true; EWorker 1 true; EWorker 1 true].
Definition finished : @pgg Z (gmap nat (sparse Z)) := default start (pg_run 0 2 (before ++ between) start).
Lemma finished_reached : pg_run 0 2 (before ++ between) start = Some finished.
Proof. vm_compute. reflexivity. Qed.
Definition barrier_job : job := mkJob 1 1 (AsyncBarrierWork [Some 0%nat; None]) 1.
Lemma barrier_finished : jobs_ finished !! 1%nat = Some barrier_job /\
  exists w, works_ finished !! 1%nat = Some w /\ isCompleted w = true /\ isSuccess w = true.
Proof. split; [vm_compute; reflexivity|]. exists (mkWork true None (-1) UNKNOWN false 0). vm_compute. done. Qed.

(** The destructor is called while both works are in progress. *)
Definition leaving : @pgg Z (gmap nat (sparse Z)) := default start (pg_run 0 2 (before ++ [EDestroy]) start).
Lemma leaving_reached : pg_run 0 2 (before ++ [EDestroy]) start = Some leaving.
Proof. vm_compute. reflexivity. Qed.
Definition after_ : list pg_event := EDestroyer :: EDestroyer :: between ++ [EWorker 1 true; EWorker 0 true; EDestroyer].
Definition departed : @pgg Z (gmap nat (sparse Z)) := default start (pg_run 0 2 after_ leaving).
Lemma left_reached : pg_run 0 2 after_ leaving = Some departed.
Proof. vm_compute. reflexivity. Qed.
Lemma left_stuck ev : internal ev -> pg_step 0 2 ev departed = None.
Proof. destruct ev as [[|[|i]] held| |t|c| |k| |i|]; cbn [internal]; intros H; try done. Qed.
Lemma leaving_destroyed : destroyer_ leaving <> DNone.
Proof. assert (destroyer_ leaving = DTest) as -> by (vm_compute; reflexivity). done. Qed.
Lemma all_return : libraries_return (D := Z) (W := gmap nat (sparse Z)).
Proof. split; try done; [intros c op w|intros c op w]; destruct op; cbn; try done; by destruct outputs. Qed.

(** Vectors of five elements with one entry on each of two ranks. *)
Definition mine : sparse Z := mkSparse [5] 1 1 [2] [4] kInt.
Definition other : sparse Z := mkSparse [5] 1 1 [3] [7] kInt.
Definition ts : Tensor := cpu 5 9 kInt kSparse.
Definition sworld : gmap nat (sparse Z) := {[9%nat := mine]}.
Lemma fits t : t = mine \/ t = other -> metadata_fits t.
Proof. intros [->| ->]; split; cbn; try lia; by repeat constructor. Qed.
Lemma parts : Forall (part_ok [5] 1 kInt) [mine; other].
Proof. repeat constructor; cbn; try lia; try done; apply fits; auto. Qed.
End Example_gloo.

Lemma gloo_barrier_waits_witness : exists wk, works_ Example_gloo.finished !! 0%nat = Some wk /\ isCompleted wk = true.
Proof.
  apply (gloo_barrier_waits 0 2 (aten := Example_gloo.aten) (gloo := Example_gloo.gloo) Example_gloo.connect Example_gloo.devices 2
    Example_gloo.world Example_gloo.world Example_gloo.start Example_gloo.finished (Example_gloo.before ++ Example_gloo.between) 1
    Example_gloo.barrier_job [Some 0%nat; None] Example_gloo.start_constructed Example_gloo.finished_reached
    (proj1 Example_gloo.barrier_finished) eq_refl (or_intror (proj2 Example_gloo.barrier_finished)) 0%nat).
  cbn. lia.
Defined.

Lemma gloo_work_completes_witness :
  Forall (fun w => completed_ w = true) (works_ Example_gloo.departed) /\ destroyer_ Example_gloo.departed = DDone.
Proof.
  destruct (proj2 (gloo_work_completes 0 2 (aten := Example_gloo.aten) (gloo := Example_gloo.gloo) Example_gloo.connect Example_gloo.devices 2
    Example_gloo.world Example_gloo.world Example_gloo.start Example_gloo.leaving Example_gloo.departed
    (Example_gloo.before ++ [EDestroy]) Example_gloo.after_ Example_gloo.all_return ltac:(lia) Example_gloo.start_constructed
    Example_gloo.leaving_reached ltac:(repeat constructor) Example_gloo.left_reached) Example_gloo.left_stuck) as (_ & Hw & Hd).
  split; [exact Hw|]. exact (proj1 (Hd Example_gloo.leaving_destroyed)).
Defined.

Lemma gloo_tags_match_witness : exists j, jobs_ Example_gloo.finished !! 1%nat = Some j /\ tag j = 1 /\ context j = 1%nat.
Proof.
  exists Example_gloo.barrier_job. split; [exact (proj1 Example_gloo.barrier_finished)|].
  destruct (gloo_tags_match 0 2 (aten := Example_gloo.aten) (gloo := Example_gloo.gloo) Example_gloo.connect Example_gloo.devices 2
    Example_gloo.world Example_gloo.world Example_gloo.start Example_gloo.finished (Example_gloo.before ++ Example_gloo.between) 1
    Example_gloo.barrier_job Example_gloo.start_constructed ltac:(repeat constructor) Example_gloo.finished_reached
    (proj1 Example_gloo.barrier_finished)) as (Ht & Hc & _).
  split; [rewrite Ht; reflexivity|rewrite Hc; reflexivity].
Defined.

Lemma gloo_calls_fail_early_witness : exists e, do_call 0 2 (CAllreduce [Example_gloo.cpu 1 0 kInt kMkldnn] SUM) Example_gloo.start =
  (Throw e, upd_counter (fun c => uint32 (c + 1)) Example_gloo.start).
Proof.
  apply (proj2 (gloo_calls_fail_early 0 2 (CAllreduce [Example_gloo.cpu 1 0 kInt kMkldnn] SUM) Example_gloo.start ltac:(done))
    (Example_gloo.cpu 1 0 kInt kMkldnn) [] SUM); reflexivity.
Defined.

Lemma gloo_metadata_roundtrip_witness : exists row,
  populate_from_sparse_tensor Example_gloo.mine (replicate SparseTensorMetadata_dim 0) = Ret row /\ row = metadata_row Example_gloo.mine /\
  length row = SparseTensorMetadata_dim /\ metadata_sizes row = [5] /\ metadata_nnz row = 1.
Proof. apply (gloo_metadata_roundtrip Example_gloo.mine). apply Example_gloo.fits. by left. Defined.

Lemma gloo_sparse_allreduce_sums_witness :
  sparse_allreduce (aten := Example_gloo.aten) (gloo := Example_gloo.gloo) 0 2 0 3 [Example_gloo.ts] (∅, Example_gloo.sworld) =
  (Ret (mkSparse [5] 1 2 [2; 3] [4; 7] kInt), (∅, Example_gloo.sworld)).
Proof.
  apply (gloo_sparse_allreduce_sums (aten := Example_gloo.aten) (gloo := Example_gloo.gloo) 0 2 [Example_gloo.mine; Example_gloo.other] [5] 1 kInt
    Example_gloo.mine 0 3 eq_refl eq_refl Example_gloo.parts eq_refl eq_refl eq_refl eq_refl
    [Example_gloo.ts] Example_gloo.ts ∅ Example_gloo.sworld Example_gloo.sworld Example_gloo.sworld Example_gloo.sworld Example_gloo.sworld);
    vm_compute; reflexivity.
Defined.
