(* ===== verification/Reducer.v ===== *)
(** * The DDP reducer

    Models csrc/c10d/distributed/c10d/reducer.cpp ([Reducer]): bucket
    construction, readiness accounting of a backward pass, the order in which
    bucket reductions are started, finalization and bucket rebuilding, and the
    built-in communication hooks of default_comm_hooks.cpp.

    Tensors share storage: a tensor is a handle (storage, offset, length) into
    a memory of storages, so bucket contents, bucket views and gradients alias
    as in the code. *)

From stdpp Require Import base option list gmap strings.
From Stdlib Require Import ZArith Lia.
From S2P Require Import Prelude Bucketing.
#[local] Set Warnings "-clear-no-such-hyp".

(** ** Tensors and memory *)

Record tensor := T {
  sid : nat; off : nat; len : nat;
  topts : Z;                   (* TensorOptions but for device and layout *)
  tdev : Z;
  tfmt : Z;                    (* npu_format_ *)
  tsparse : bool;
}.

Definition is_alias_of (a b : tensor) : bool := Nat.eqb (sid a) (sid b).

(** A model parameter: what the reducer reads of it. *)
Record param := mkParam {
  p_sizes : list Z; p_strides : list Z;
  p_opts : Z; p_dev : Z; p_fmt : Z;
  p_requires_grad : bool;
  p_meta : BTensor;            (* what bucketing looks at *)
  p_acc : nat;                 (* its gradient accumulator node *)
}.

(** [VariableIndex]: replica_index, variable_index. *)
Abbreviation VariableIndex := (nat * nat)%type.

Record BucketReplica := mkReplica {
  contents : tensor;
  variables : list nat;
  offsets : list nat;
  lengths : list nat;
  bucket_views_in : list tensor;
  bucket_views_out : list tensor;
  r_pending : Z;
}.

Record Bucket := mkBucket {
  b_replicas : list BucketReplica;
  variable_indices : list nat;
  b_pending : Z;
  work : option nat;           (* sequence number of the allreduce *)
  future_work : option nat;    (* sequence number of the hook's run *)
  expect_sparse_gradient : bool;
}.

(** A collective operation handed to the process group, or a hook run. *)
Inductive coll : Type := CBucket (bucket_index : nat) | CUsedMaps.

Section reducer.

(** Element arithmetic, the process group and the NPU format cast belong to
    other libraries.  [allreduce n] is what the n-th collective this process
    starts leaves in its tensors. *)
Context {E : Type} (zero : E) (mul_inv div_ : Z -> E -> E) (to_half to_float : E -> E)
        (format_cast : Z -> Z -> list E -> list E)
        (allreduce : nat -> list (list E) -> list (list E))
        (allreduce_used : nat -> list (list Z) -> list (list Z))
        (pg_size : Z).

Record memory := mkMem {
  heap : gmap nat (list E);
  next_sid : nat;
  grads : gmap VariableIndex tensor;   (* undefined gradients are absent *)
}.

(** A communication hook: what its future leaves behind once waited for. *)
Definition hook : Type := nat -> list tensor -> M memory (list tensor).

Record state := mkState {
  mem : memory;
  buckets_ : list Bucket;
  variable_locators_ : list (nat * nat);
  expect_autograd_hooks_ : bool;
  require_finalize_ : bool;
  next_bucket_ : nat;
  has_marked_unused_parameters_ : bool;
  unused_parameters_ : list VariableIndex;
  local_used_maps_ : list (list Z);
  local_used_maps_dev_ : list (list Z);
  local_used_maps_reduced_ : bool;
  local_used_work_ : option nat;
  has_rebuilt_bucket_ : bool;
  rebuilt_param_indices_ : list nat;
  divFactor_ : Z;
  comm_hook_ : option hook;
  forward_work : option (outcome Z * bool);  (* result of the handle, useStaticWorldSize *)
  colls : list coll;                         (* started so far, in order *)
  finalizers : nat;                          (* callbacks queued on the engine *)
}.

Definition set_mem x s := mkState x (buckets_ s) (variable_locators_ s) (expect_autograd_hooks_ s)
    (require_finalize_ s) (next_bucket_ s) (has_marked_unused_parameters_ s) (unused_parameters_
    s) (local_used_maps_ s) (local_used_maps_dev_ s) (local_used_maps_reduced_ s)
    (local_used_work_ s) (has_rebuilt_bucket_ s) (rebuilt_param_indices_ s) (divFactor_ s)
    (comm_hook_ s) (forward_work s) (colls s) (finalizers s).
Definition set_buckets x s := mkState (mem s) x (variable_locators_ s) (expect_autograd_hooks_ s)
    (require_finalize_ s) (next_bucket_ s) (has_marked_unused_parameters_ s) (unused_parameters_
    s) (local_used_maps_ s) (local_used_maps_dev_ s) (local_used_maps_reduced_ s)
    (local_used_work_ s) (has_rebuilt_bucket_ s) (rebuilt_param_indices_ s) (divFactor_ s)
    (comm_hook_ s) (forward_work s) (colls s) (finalizers s).
Definition set_locators x s := mkState (mem s) (buckets_ s) x (expect_autograd_hooks_ s)
    (require_finalize_ s) (next_bucket_ s) (has_marked_unused_parameters_ s) (unused_parameters_
    s) (local_used_maps_ s) (local_used_maps_dev_ s) (local_used_maps_reduced_ s)
    (local_used_work_ s) (has_rebuilt_bucket_ s) (rebuilt_param_indices_ s) (divFactor_ s)
    (comm_hook_ s) (forward_work s) (colls s) (finalizers s).
Definition set_expect x s := mkState (mem s) (buckets_ s) (variable_locators_ s) x
    (require_finalize_ s) (next_bucket_ s) (has_marked_unused_parameters_ s) (unused_parameters_
    s) (local_used_maps_ s) (local_used_maps_dev_ s) (local_used_maps_reduced_ s)
    (local_used_work_ s) (has_rebuilt_bucket_ s) (rebuilt_param_indices_ s) (divFactor_ s)
    (comm_hook_ s) (forward_work s) (colls s) (finalizers s).
Definition set_require x s := mkState (mem s) (buckets_ s) (variable_locators_ s)
    (expect_autograd_hooks_ s) x (next_bucket_ s) (has_marked_unused_parameters_ s)
    (unused_parameters_ s) (local_used_maps_ s) (local_used_maps_dev_ s) (local_used_maps_reduced_
    s) (local_used_work_ s) (has_rebuilt_bucket_ s) (rebuilt_param_indices_ s) (divFactor_ s)
    (comm_hook_ s) (forward_work s) (colls s) (finalizers s).
Definition set_next x s := mkState (mem s) (buckets_ s) (variable_locators_ s)
    (expect_autograd_hooks_ s) (require_finalize_ s) x (has_marked_unused_parameters_ s)
    (unused_parameters_ s) (local_used_maps_ s) (local_used_maps_dev_ s) (local_used_maps_reduced_
    s) (local_used_work_ s) (has_rebuilt_bucket_ s) (rebuilt_param_indices_ s) (divFactor_ s)
    (comm_hook_ s) (forward_work s) (colls s) (finalizers s).
Definition set_marked x s := mkState (mem s) (buckets_ s) (variable_locators_ s)
    (expect_autograd_hooks_ s) (require_finalize_ s) (next_bucket_ s) x (unused_parameters_ s)
    (local_used_maps_ s) (local_used_maps_dev_ s) (local_used_maps_reduced_ s) (local_used_work_
    s) (has_rebuilt_bucket_ s) (rebuilt_param_indices_ s) (divFactor_ s) (comm_hook_ s)
    (forward_work s) (colls s) (finalizers s).
Definition set_unused x s := mkState (mem s) (buckets_ s) (variable_locators_ s)
    (expect_autograd_hooks_ s) (require_finalize_ s) (next_bucket_ s)
    (has_marked_unused_parameters_ s) x (local_used_maps_ s) (local_used_maps_dev_ s)
    (local_used_maps_reduced_ s) (local_used_work_ s) (has_rebuilt_bucket_ s)
    (rebuilt_param_indices_ s) (divFactor_ s) (comm_hook_ s) (forward_work s) (colls s)
    (finalizers s).
Definition set_used x s := mkState (mem s) (buckets_ s) (variable_locators_ s)
    (expect_autograd_hooks_ s) (require_finalize_ s) (next_bucket_ s)
    (has_marked_unused_parameters_ s) (unused_parameters_ s) x (local_used_maps_dev_ s)
    (local_used_maps_reduced_ s) (local_used_work_ s) (has_rebuilt_bucket_ s)
    (rebuilt_param_indices_ s) (divFactor_ s) (comm_hook_ s) (forward_work s) (colls s)
    (finalizers s).
Definition set_used_dev x w s := mkState (mem s) (buckets_ s) (variable_locators_ s)
    (expect_autograd_hooks_ s) (require_finalize_ s) (next_bucket_ s)
    (has_marked_unused_parameters_ s) (unused_parameters_ s) (local_used_maps_ s) x
    (local_used_maps_reduced_ s) w (has_rebuilt_bucket_ s) (rebuilt_param_indices_ s) (divFactor_
    s) (comm_hook_ s) (forward_work s) (colls s) (finalizers s).
Definition set_reduced x s := mkState (mem s) (buckets_ s) (variable_locators_ s)
    (expect_autograd_hooks_ s) (require_finalize_ s) (next_bucket_ s)
    (has_marked_unused_parameters_ s) (unused_parameters_ s) (local_used_maps_ s)
    (local_used_maps_dev_ s) x (local_used_work_ s) (has_rebuilt_bucket_ s)
    (rebuilt_param_indices_ s) (divFactor_ s) (comm_hook_ s) (forward_work s) (colls s)
    (finalizers s).
Definition set_rebuilt b x s := mkState (mem s) (buckets_ s) (variable_locators_ s)
    (expect_autograd_hooks_ s) (require_finalize_ s) (next_bucket_ s)
    (has_marked_unused_parameters_ s) (unused_parameters_ s) (local_used_maps_ s)
    (local_used_maps_dev_ s) (local_used_maps_reduced_ s) (local_used_work_ s) b x (divFactor_ s)
    (comm_hook_ s) (forward_work s) (colls s) (finalizers s).
Definition set_div x s := mkState (mem s) (buckets_ s) (variable_locators_ s)
    (expect_autograd_hooks_ s) (require_finalize_ s) (next_bucket_ s)
    (has_marked_unused_parameters_ s) (unused_parameters_ s) (local_used_maps_ s)
    (local_used_maps_dev_ s) (local_used_maps_reduced_ s) (local_used_work_ s)
    (has_rebuilt_bucket_ s) (rebuilt_param_indices_ s) x (comm_hook_ s) (forward_work s) (colls s)
    (finalizers s).
Definition set_hook x s := mkState (mem s) (buckets_ s) (variable_locators_ s)
    (expect_autograd_hooks_ s) (require_finalize_ s) (next_bucket_ s)
    (has_marked_unused_parameters_ s) (unused_parameters_ s) (local_used_maps_ s)
    (local_used_maps_dev_ s) (local_used_maps_reduced_ s) (local_used_work_ s)
    (has_rebuilt_bucket_ s) (rebuilt_param_indices_ s) (divFactor_ s) x (forward_work s) (colls s)
    (finalizers s).
Definition set_forward x s := mkState (mem s) (buckets_ s) (variable_locators_ s)
    (expect_autograd_hooks_ s) (require_finalize_ s) (next_bucket_ s)
    (has_marked_unused_parameters_ s) (unused_parameters_ s) (local_used_maps_ s)
    (local_used_maps_dev_ s) (local_used_maps_reduced_ s) (local_used_work_ s)
    (has_rebuilt_bucket_ s) (rebuilt_param_indices_ s) (divFactor_ s) (comm_hook_ s) x (colls s)
    (finalizers s).
Definition set_colls x s := mkState (mem s) (buckets_ s) (variable_locators_ s)
    (expect_autograd_hooks_ s) (require_finalize_ s) (next_bucket_ s)
    (has_marked_unused_parameters_ s) (unused_parameters_ s) (local_used_maps_ s)
    (local_used_maps_dev_ s) (local_used_maps_reduced_ s) (local_used_work_ s)
    (has_rebuilt_bucket_ s) (rebuilt_param_indices_ s) (divFactor_ s) (comm_hook_ s) (forward_work
    s) x (finalizers s).
Definition set_finalizers x s := mkState (mem s) (buckets_ s) (variable_locators_ s)
    (expect_autograd_hooks_ s) (require_finalize_ s) (next_bucket_ s)
    (has_marked_unused_parameters_ s) (unused_parameters_ s) (local_used_maps_ s)
    (local_used_maps_dev_ s) (local_used_maps_reduced_ s) (local_used_work_ s)
    (has_rebuilt_bucket_ s) (rebuilt_param_indices_ s) (divFactor_ s) (comm_hook_ s) (forward_work
    s) (colls s) x.

(** *** Memory operations *)

Definition read (t : tensor) (m : memory) : list E :=
  take (len t) (drop (off t) (default [] (heap m !! sid t))).

Definition splice (o : nat) (data l : list E) : list E :=
  take o l ++ data ++ drop (o + length data) l.

Definition write (t : tensor) (data : list E) (m : memory) : memory :=
  mkMem (<[sid t := splice (off t) (take (len t) data) (default [] (heap m !! sid t))]> (heap m))
        (next_sid m) (grads m).

(** A new storage, with the options of [like] and the given format. *)
Definition alloc (data : list E) (like : tensor) (fmt : Z) (m : memory) : tensor * memory :=
  (T (next_sid m) 0 (length data) (topts like) (tdev like) fmt (tsparse like),
   mkMem (<[next_sid m := data]> (heap m)) (S (next_sid m)) (grads m)).

Definition set_grad (i : VariableIndex) (t : tensor) (m : memory) : memory :=
  mkMem (heap m) (next_sid m) (<[i := t]> (grads m)).

(** [tensor.narrow(0, offset, length)] *)
Definition narrow (t : tensor) (offset length : nat) : tensor :=
  T (sid t) (off t + offset) length (topts t) (tdev t) (tfmt t) (tsparse t).

Definition on_mem {A} (m : M memory A) : M state A := fun s =>
  let '(o, x) := m (mem s) in (o, set_mem x s).

(** An indexing expression of the source that is not bounds-checked. *)
Definition at_ {A} (l : list A) (i : nat) : M state A :=
  lift (match l !! i with Some x => Ret x | None => Throw (Undefined "index") end).

(** The configuration fixed by the constructor. *)
Context (replicas_ : list (list param)) (expect_sparse_gradients_ : list (list bool))
        (find_unused_parameters_ gradient_as_bucket_view_ : bool) (bucket_bytes_cap_ : Z).

Definition kUnsetDivFactor : Z := -1.
Definition kDefaultFirstBucketBytes : Z := 1024 * 1024.

Definition replica_param (r v : nat) : M state param :=
  let! rep := at_ replicas_ r in at_ rep v.

(** *** Marking gradients ready *)

Definition type_equal (a b : tensor) : bool :=
  (topts a =? topts b) && Bool.eqb (tsparse a) (tsparse b).

Definition check_grad_layout (grad bucket_view : tensor) : outcome unit :=
  check! type_equal grad bucket_view else CheckFailed "Expected " in
  check! (tdev grad =? tdev bucket_view) else AssertFailed "grad.device() == bucket_view.device()" in
  if gradient_as_bucket_view_ then Ret tt
  else ocheck (negb (is_alias_of grad bucket_view)) (AssertFailed "!grad.is_alias_of(bucket_view)").

Definition copy_grad_to_bucket (hooked : bool) (divFactor : Z) (grad bucket_view : tensor)
    (m : memory) : memory :=
  if hooked then write bucket_view (read grad m) m
  else write bucket_view (map (mul_inv divFactor) (read grad m)) m.

(** Give the gradient the storage format of its variable. *)
Definition cast_grad (i : VariableIndex) (variable : param) (grad : tensor) (m : memory)
  : tensor * memory :=
  if tfmt grad =? p_fmt variable then (grad, m)
  else
    let '(g, m) := alloc (format_cast (tfmt grad) (p_fmt variable) (read grad m)) grad (p_fmt variable) m in
    (g, set_grad i g m).

(** The callback of [mark_variable_ready_dense]. *)
Definition dense_callback (hooked : bool) (divFactor : Z) (i : VariableIndex) (variable : param)
    (bucket_view : tensor) : M memory unit := fun m =>
  match grads m !! i with
  | None => (Ret tt, write bucket_view (replicate (len bucket_view) zero) m)
  | Some grad =>
      match check_grad_layout grad bucket_view with
      | Ret _ =>
          if is_alias_of grad bucket_view then
            (Ret tt, if hooked then m else write bucket_view (map (div_ divFactor) (read bucket_view m)) m)
          else
            let '(grad, m) := cast_grad i variable grad m in
            let m := copy_grad_to_bucket hooked divFactor grad bucket_view m in
            (Ret tt, if gradient_as_bucket_view_ then set_grad i bucket_view m else m)
      | Throw e => (Throw e, m)
      | Block => (Block, m)
      end
  end.

Definition hooked (s : state) : bool := match comm_hook_ s with None => false | Some _ => true end.

Definition mark_variable_ready_dense (index : VariableIndex) : M state unit := fun s =>
  (let! loc := at_ (variable_locators_ s) index.2 in
   let! bucket := at_ (buckets_ s) loc.1 in
   let! replica := at_ (b_replicas bucket) index.1 in
   let! v := at_ (variables replica) loc.2 in
   let! variable := replica_param index.1 v in
   let! bucket_view := at_ (bucket_views_in replica) loc.2 in
   on_mem (dense_callback (hooked s) (divFactor_ s) (index.1, v) variable bucket_view)) s.

(** Replace one replica of one bucket. *)
Definition update_replica (b r : nat) (f : BucketReplica -> BucketReplica) (s : state) : state :=
  set_buckets (alter (fun bk => mkBucket (alter f r (b_replicas bk)) (variable_indices bk)
    (b_pending bk) (work bk) (future_work bk) (expect_sparse_gradient bk)) b (buckets_ s)) s.

Definition with_contents (t : tensor) (r : BucketReplica) : BucketReplica :=
  mkReplica t (variables r) (offsets r) (lengths r) (bucket_views_in r) (bucket_views_out r) (r_pending r).
Definition with_views_out (l : list tensor) (r : BucketReplica) : BucketReplica :=
  mkReplica (contents r) (variables r) (offsets r) (lengths r) (bucket_views_in r) l (r_pending r).
Definition with_pending (p : Z) (r : BucketReplica) : BucketReplica :=
  mkReplica (contents r) (variables r) (offsets r) (lengths r) (bucket_views_in r) (bucket_views_out r) p.

Definition mark_variable_ready_sparse (index : VariableIndex) : M state unit := fun s =>
  (let! loc := at_ (variable_locators_ s) index.2 in
   let! bucket := at_ (buckets_ s) loc.1 in
   let! replica := at_ (b_replicas bucket) index.1 in
   let! v := at_ (variables replica) loc.2 in
   let! grad := lift (match grads (mem s) !! (index.1, v) with
                      | Some g => Ret g
                      | None => Throw (CheckFailed "Expected sparse gradient to be defined.")
                      end) in
   do! assert_ (tsparse grad) (CheckFailed "Expected variable to have sparse gradient.") in
   do! modify (update_replica loc.1 index.1 (with_contents grad)) in
   if hooked s then ret tt
   else modify (fun s => set_mem (write grad (map (div_ (divFactor_ s)) (read grad (mem s))) (mem s)) s)) s.

(** Start the reduction of bucket [b]. *)
Definition start_bucket (b : nat) (s : state) : state :=
  let n := length (colls s) in
  set_colls (colls s ++ [CBucket b])
    (set_buckets (alter (fun bk =>
       if hooked s
       then mkBucket (b_replicas bk) (variable_indices bk) (b_pending bk) (work bk) (Some n) (expect_sparse_gradient bk)
       else mkBucket (b_replicas bk) (variable_indices bk) (b_pending bk) (Some n) (future_work bk) (expect_sparse_gradient bk))
       b (buckets_ s)) s).

(** The loop of [mark_bucket_ready]; [fuel] is the number of buckets left. *)
Fixpoint start_ready (fuel : nat) (s : state) : state :=
  match fuel with
  | O => s
  | S fuel =>
      match buckets_ s !! next_bucket_ s with
      | Some bk =>
          if b_pending bk =? 0
          then start_ready fuel (set_next (S (next_bucket_ s)) (start_bucket (next_bucket_ s) s))
          else s
      | None => s
      end
  end.

Definition mark_bucket_ready (bucket_index : nat) : M state unit := fun s =>
  (do! assert_ (next_bucket_ s <=? bucket_index)%nat (AssertFailed "bucket_index >= next_bucket_") in
   if (next_bucket_ s <? bucket_index)%nat then ret tt
   else modify (fun s => start_ready (length (buckets_ s) - next_bucket_ s) s)) s.

(** The division factor is taken once per backward pass. *)
Definition set_div_factor : M state unit := fun s =>
  if divFactor_ s =? kUnsetDivFactor then
    (do! modify (set_div pg_size) in
     match forward_work s with
     | Some (result, false) => let! d := lift result in modify (set_div d)
     | _ => ret tt
     end) s
  else (Ret tt, s).

Definition decrement_pending (b r : nat) : M state unit := fun s =>
  (let! bucket := at_ (buckets_ s) b in
   let! replica := at_ (b_replicas bucket) r in
   let p := uint64 (r_pending replica - 1) in
   do! modify (update_replica b r (with_pending p)) in
   if p =? 0 then
     let q := uint64 (b_pending bucket - 1) in
     do! modify (fun s => set_buckets (alter (fun bk =>
       mkBucket (b_replicas bk) (variable_indices bk) q (work bk) (future_work bk) (expect_sparse_gradient bk))
       b (buckets_ s)) s) in
     if q =? 0 then mark_bucket_ready b else ret tt
   else ret tt) s.

(** Once the last bucket has been started. *)
Definition queue_finalizer : M state unit := fun s =>
  if Nat.eqb (next_bucket_ s) (length (buckets_ s)) then
    (do! (if find_unused_parameters_ then
            modify (fun s => set_colls (colls s ++ [CUsedMaps])
              (set_used_dev (local_used_maps_ s) (Some (length (colls s))) s))
          else ret tt) in
     modify (fun s => set_finalizers (S (finalizers s)) s)) s
  else (Ret tt, s).

Definition mark_variable_ready (index : VariableIndex) : M state unit := fun s =>
  (do! assert_ (index.1 <? length replicas_)%nat (CheckFailed "Out of range replica index.") in
   do! assert_ (index.2 <? length (variable_locators_ s))%nat (CheckFailed "Out of range variable index.") in
   do! modify (set_require true) in
   let! loc := at_ (variable_locators_ s) index.2 in
   let! bucket := at_ (buckets_ s) loc.1 in
   let! replica := at_ (b_replicas bucket) index.1 in
   do! assert_ (negb (r_pending replica =? 0)) (CheckFailed "Expected to mark a variable ready only once. ") in
   do! set_div_factor in
   do! (if expect_sparse_gradient bucket then mark_variable_ready_sparse index
        else mark_variable_ready_dense index) in
   do! decrement_pending loc.1 index.1 in
   queue_finalizer) s.

Definition should_rebuild_buckets (s : state) : bool :=
  negb find_unused_parameters_ && negb (has_rebuilt_bucket_ s).

Definition push_rebuilt_params (index : VariableIndex) (s : state) : state :=
  if should_rebuild_buckets s && Nat.eqb index.1 0
  then set_rebuilt (has_rebuilt_bucket_ s) (rebuilt_param_indices_ s ++ [index.2]) s
  else s.

Definition push_rebuilt_params_for_all_indices (s : state) : state :=
  if negb (should_rebuild_buckets s) || negb (Nat.eqb (length (rebuilt_param_indices_ s)) 0) then s
  else fold_left (fun s i => push_rebuilt_params i s)
         (concat (imap (fun r rep => map (pair r) (seq 0 (length rep))) replicas_)) s.

Definition autograd_hook (index : VariableIndex) : M state unit :=
  do! (if find_unused_parameters_
       then modify (fun s => set_used (alter (<[index.2 := 1]>) index.1 (local_used_maps_ s)) s)
       else ret tt) in
  let! expecting := gets expect_autograd_hooks_ in
  if negb expecting then ret tt
  else
    do! modify (push_rebuilt_params index) in
    let! marked := gets has_marked_unused_parameters_ in
    do! (if negb marked && find_unused_parameters_ then
           do! modify (set_marked true) in
           let! unused := gets unused_parameters_ in
           for_each unused mark_variable_ready
         else ret tt) in
    mark_variable_ready index.

(** *** Building the buckets *)

(** The views of one replica: [contents.narrow(0, offset, length)]; with
    [gradient_as_bucket_view_] an existing gradient moves into its view. *)
Definition adopt_grad (i : VariableIndex) (bucket_view : tensor) (m : memory) : memory :=
  match grads m !! i with
  | Some grad =>
      if is_alias_of grad bucket_view then m
      else set_grad i bucket_view (write bucket_view (read grad m) m)
  | None => m
  end.

Fixpoint initialize_bucket_views (r : nat) (vars offs lens : list nat) (contents : tensor)
    (m : memory) : list tensor * memory :=
  match vars, offs, lens with
  | v :: vars, o :: offs, l :: lens =>
      let view := narrow contents o l in
      let m := if gradient_as_bucket_view_ then adopt_grad (r, v) view m else m in
      let '(views, m) := initialize_bucket_views r vars offs lens contents m in
      (view :: views, m)
  | _, _, _ => ([], m)
  end.

Definition populate_bucket_views_out (result : tensor) (replica : BucketReplica) : BucketReplica :=
  with_views_out (zip_with (fun o l => narrow result o l) (offsets replica) (lengths replica)) replica.

(** The loop over the variables of a dense bucket replica: device and options of
    the first one, offsets and lengths. *)
Fixpoint layout_variables (rep : list param) (vars : list nat) (opts : option (Z * Z)) (offset : nat)
  : outcome (list nat * list nat * option (Z * Z) * nat) :=
  match vars with
  | [] => Ret ([], [], opts, offset)
  | v :: vars =>
      match rep !! v with
      | None => Throw (CheckFailed "Out of range variable index specified.")
      | Some variable =>
          let? opts := match opts with
                       | None => Ret (p_dev variable, p_opts variable)
                       | Some (dev, ty) =>
                           check! (p_dev variable =? dev)
                             else CheckFailed "All parameters in a bucket must be placed on the same device." in
                           check! (p_opts variable =? ty)
                             else CheckFailed "All parameters in a bucket must have the same dtype." in
                           Ret (dev, ty)
                       end in
          let length := Z.to_nat (physical_numel (p_meta variable)) in
          let? r := layout_variables rep vars (Some opts) (offset + length) in
          let '(offs, lens, opts, total) := r in
          Ret (offset :: offs, length :: lens, opts, total)
      end
  end.

(** One replica of a bucket.  [at::empty] leaves the contents unspecified: the
    elements are taken to be [zero] until they are written. *)
Definition make_replica (sparse : bool) (r : nat) (vars : list nat) : M state BucketReplica :=
  let! rep := at_ replicas_ r in
  if sparse then
    let! v := at_ vars 0 in
    let! _ := at_ rep v in
    do! assert_ (Nat.eqb (length vars) 1) (AssertFailed "bucket_indices[bucket_index].size() == 1") in
    ret (mkReplica (T 0 0 0 0 0 0 false) [v] [] [] [] [] 0)
  else
    let! layout := lift (layout_variables rep vars None 0) in
    let '(offs, lens, opts, total) := layout in
    let '(dev, ty) := default (0, 0) opts in
    fun s =>
      let '(contents, m) := alloc (replicate total zero) (T 0 0 0 ty dev 0 false) 0 (mem s) in
      let '(views, m) := initialize_bucket_views r vars offs lens contents m in
      (Ret (mkReplica contents vars offs lens views views 0), set_mem m s).

Fixpoint make_replicas (sparse : bool) (r n : nat) (vars : list nat) : M state (list BucketReplica) :=
  match n with
  | O => ret []
  | S n =>
      let! replica := make_replica sparse r vars in
      let! rest := make_replicas sparse (S r) n vars in
      ret (replica :: rest)
  end.

Definition sparse_of (v : nat) : M state bool :=
  let! row := at_ expect_sparse_gradients_ 0 in at_ row v.

Definition bucket_is_sparse (vars : list nat) : M state bool :=
  match vars with
  | [v] => sparse_of v
  | _ =>
      do! for_each vars (fun v =>
        let! sp := sparse_of v in
        assert_ (negb sp) (CheckFailed "Buckets with more than one variable cannot include variables that expect a sparse gradient.")) in
      ret false
  end.

(** [variable_locators_[variable_index] = VariableLocator(bucket_index, intra++)] *)
Fixpoint locate (b intra : nat) (vars : list nat) : M state unit :=
  match vars with
  | [] => ret tt
  | v :: vars =>
      let! n := gets (fun s => length (variable_locators_ s)) in
      do! assert_ (v <? n)%nat (CheckFailed "Out of range variable index specified.") in
      do! modify (fun s => set_locators (<[v := (b, intra)]> (variable_locators_ s)) s) in
      locate b (S intra) vars
  end.

Fixpoint make_buckets (b : nat) (bucket_indices : list (list nat)) : M state unit :=
  match bucket_indices with
  | [] => ret tt
  | vars :: rest =>
      do! assert_ (0 <? length vars)%nat (CheckFailed "Empty bucket specified.") in
      let! sparse := bucket_is_sparse vars in
      let! reps := make_replicas sparse 0 (length replicas_) vars in
      do! locate b 0 vars in
      do! modify (fun s => set_buckets (buckets_ s ++ [mkBucket reps vars 0 None None sparse]) s) in
      make_buckets (S b) rest
  end.

Definition initialize_buckets (bucket_indices : list (list nat)) : M state unit :=
  let! expecting := gets expect_autograd_hooks_ in
  do! assert_ (negb expecting) (CheckFailed "`initialize_buckets` must NOT be called during autograd execution.") in
  let! rep0 := at_ replicas_ 0 in
  do! modify (fun s => set_locators (replicate (length rep0) (O, O)) (set_buckets [] s)) in
  make_buckets 0 bucket_indices.

(** *** Starting a backward pass *)

(** The graph search: [next_edges] of a node, [None] for an edge without
    function.  Every node is pushed at most once besides the seeds. *)
Fixpoint push_edges (edges : list (option nat)) (seen : gset nat) (queue : list nat)
  : gset nat * list nat :=
  match edges with
  | [] => (seen, queue)
  | None :: edges => push_edges edges seen queue
  | Some n :: edges =>
      if bool_decide (n ∈ seen) then push_edges edges seen queue
      else push_edges edges ({[n]} ∪ seen) (n :: queue)
  end.

Fixpoint traverse (next_edges : nat -> list (option nat)) (fuel : nat) (seen : gset nat)
    (queue : list nat) : option (gset nat) :=
  match queue with
  | [] => Some seen
  | fn :: queue =>
      match fuel with
      | O => None
      | S fuel =>
          let '(seen, queue) := push_edges (next_edges fn) seen queue in
          traverse next_edges fuel seen queue
      end
  end.

(** [gradAccToVariablesMap_]: the variables of each gradient accumulator. *)
Definition all_variables : list VariableIndex :=
  concat (imap (fun r rep => map (pair r) (seq 0 (length rep))) replicas_).
Definition acc_of (i : VariableIndex) : option nat :=
  rep ← replicas_ !! i.1; p ← rep !! i.2; Some (p_acc p).

(** The variables whose accumulator the search has not seen, in the iteration
    order [iter] of the unordered_map. *)
Definition find_unused (iter : list VariableIndex -> list VariableIndex) (seen : gset nat)
  : list VariableIndex :=
  iter (List.filter (fun i => match acc_of i with
                            | Some a => bool_decide (a ∉ seen)
                            | None => false
                            end) all_variables).

Definition reset_pending (bk : Bucket) : Bucket :=
  mkBucket (map (fun r => with_pending (Z.of_nat (length (variables r))) r) (b_replicas bk))
           (variable_indices bk) (Z.of_nat (length (b_replicas bk)))
           (work bk) (future_work bk) (expect_sparse_gradient bk).

(** [outputs]: the grad_fn of each output. *)
Definition prepare_for_backward (iter : list VariableIndex -> list VariableIndex)
    (next_edges : nat -> list (option nat)) (fuel : nat) (outputs : list (option nat))
  : M state unit := fun s =>
  let s := set_unused [] (set_marked false
    (set_buckets (map reset_pending (buckets_ s)) (set_next 0 (set_expect true s)))) in
  if negb find_unused_parameters_ then (Ret tt, s)
  else
    match traverse next_edges fuel ∅ (rev (omap id outputs)) with
    | Some seen => (Ret tt, set_unused (find_unused iter seen) s)
    | None => (Block, s)
    end.

(** *** Finishing a backward pass *)

Definition write_all (ts : list tensor) (ds : list (list E)) (m : memory) : memory :=
  fold_left (fun m td => write td.1 td.2 m) (zip ts ds) m.

(** [work->wait()] of an allreduce: its result is in the tensors. *)
Definition wait_allreduce (n : nat) (ts : list tensor) : M memory unit := fun m =>
  (Ret tt, write_all ts (allreduce n (map (fun t => read t m) ts)) m).

(** [AllReduceCommHook] and [FP16CompressCommHook]. *)
Definition AllReduceCommHook : hook := fun n ts =>
  do! wait_allreduce n ts in
  fun m => match ts with
           | t :: _ => let '(r, m) := alloc (map (div_ pg_size) (read t m)) t (tfmt t) m in
                       (Ret [r], m)
           | [] => (Throw (Undefined "result()[0]"), m)
           end.

Definition FP16CompressCommHook : hook := fun n ts =>
  do! modify (fun m => fold_left (fun m t => write t (map to_half (read t m)) m) ts m) in
  do! wait_allreduce n ts in
  fun m => match ts with
           | t :: _ => (Ret [t], write t (map (fun x => div_ pg_size (to_float x)) (read t m)) m)
           | [] => (Throw (Undefined "result()[0]"), m)
           end.

Definition copy_bucket_to_grad (i : VariableIndex) (variable : param) (bucket_view : tensor)
    (global_unused : bool) (m : memory) : memory :=
  if global_unused then m
  else
    match grads m !! i with
    | None =>
        let '(g, m) := alloc (replicate (len bucket_view) zero) bucket_view (p_fmt variable) m in
        set_grad i g (write g (read bucket_view m) m)
    | Some grad => write grad (read bucket_view m) m
    end.

(** Is the variable unused on every rank?  Waits for the reduction of the used
    maps only when it is unused locally. *)
Definition check_global_unused (r v : nat) : M state bool := fun s =>
  if negb find_unused_parameters_ then (Ret false, s)
  else
    (let used s := default 0 (row ← local_used_maps_ s !! r; row !! v) in
     if negb (used s =? 0) then ret false
     else if local_used_maps_reduced_ s then ret true
     else
       match local_used_work_ s with
       | None => throw (Undefined "null local_used_work_")
       | Some n =>
           do! modify (fun s =>
             let dev := allreduce_used n (local_used_maps_dev_ s) in
             set_reduced true (set_used dev (set_used_dev dev (local_used_work_ s) s))) in
           gets (fun s => used s =? 0)
       end) s.

Definition finalize_variable (r : nat) (replica : BucketReplica) (vidx : list nat) (intra : nat)
  : M state unit :=
  let! v := at_ (variables replica) intra in
  let! variable := replica_param r v in
  let! variable_index := at_ vidx intra in
  let! global_unused := check_global_unused r variable_index in
  let! view_out := at_ (bucket_views_out replica) intra in
  if negb gradient_as_bucket_view_ then
    on_mem (modify (copy_bucket_to_grad (r, v) variable view_out global_unused))
  else
    let! view_in := at_ (bucket_views_in replica) intra in
    do! on_mem (modify (fun m =>
      if is_alias_of view_in view_out then m else write view_in (read view_out m) m)) in
    on_mem (modify (fun m =>
      if global_unused then m
      else match grads m !! (r, v) with
           | None => set_grad (r, v) view_in m
           | Some grad => if is_alias_of grad view_in then m else write grad (read view_in m) m
           end)).

Definition finalize_bucket_dense (bucket : Bucket) : M state unit :=
  for_each (imap pair (b_replicas bucket)) (fun ir =>
    for_each (seq 0 (length (variables ir.2)))
      (finalize_variable ir.1 ir.2 (variable_indices bucket))).

(** The hook's results go to the outgoing views of the replicas, or into the
    sparse contents. *)
Fixpoint install_results (sparse : bool) (reps : list BucketReplica) (results : list tensor)
  : M state (list BucketReplica) :=
  match results, reps with
  | [], _ => ret reps
  | _ :: _, [] => throw (Undefined "bucket.replicas[i]")
  | res :: results, replica :: reps =>
      let! replica :=
        if sparse then
          do! on_mem (modify (fun m => write (contents replica) (read res m) m)) in ret replica
        else ret (populate_bucket_views_out res replica) in
      let! rest := install_results sparse reps results in
      ret (replica :: rest)
  end.

Definition finalize_bucket (b : nat) : M state unit := fun s =>
  (let! bucket := at_ (buckets_ s) b in
   let tensors := map contents (b_replicas bucket) in
   do! match comm_hook_ s with
       | None =>
           match work bucket with
           | None => throw (AssertFailed "Expected bucket.work not to be null. ")
           | Some n => on_mem (wait_allreduce n tensors)
           end
       | Some h =>
           match future_work bucket with
           | None => throw (AssertFailed "Expected bucket.future_work not to be null. ")
           | Some n =>
               let! results := on_mem (h n tensors) in
               let! reps := install_results (expect_sparse_gradient bucket) (b_replicas bucket) results in
               modify (fun s => set_buckets (alter (fun bk =>
                 mkBucket reps (variable_indices bk) (b_pending bk) (work bk) (future_work bk)
                          (expect_sparse_gradient bk)) b (buckets_ s)) s)
           end
       end in
   if expect_sparse_gradient bucket then ret tt
   else
     let! bks := gets buckets_ in
     let! bucket := at_ bks b in
     finalize_bucket_dense bucket) s.

Definition finalize_backward : M state unit :=
  let! expecting := gets expect_autograd_hooks_ in
  do! assert_ expecting (AssertFailed "expect_autograd_hooks_") in
  do! modify (set_expect false) in
  let! req := gets require_finalize_ in
  do! assert_ req (AssertFailed "require_finalize_") in
  do! modify (set_require false) in
  do! modify (set_div kUnsetDivFactor) in
  let! complete := gets (fun s => Nat.eqb (next_bucket_ s) (length (buckets_ s))) in
  do! assert_ complete (AssertFailed "next_bucket_ == buckets_.size()") in
  let! nb := gets (fun s => length (buckets_ s)) in
  do! for_each (seq 0 nb) finalize_bucket in
  if find_unused_parameters_ then
    do! modify (fun s => set_used (map (map (fun _ => 0)) (local_used_maps_ s)) s) in
    modify (fun s => set_reduced false
      (if local_used_maps_reduced_ s then s
       else match local_used_work_ s with
            | Some n => set_used_dev (allreduce_used n (local_used_maps_dev_ s)) (Some n) s
            | None => s
            end))
  else ret tt.

(** *** Rebuilding the buckets, hooks *)

Definition ensure_prior_reduction_finished : M state unit :=
  let! req := gets require_finalize_ in
  assert_ (negb req) (CheckFailed "Expected to have finished reduction in the prior iteration before ").

(** [assign] is [compute_bucket_assignment_by_size] on the parameters in the
    order of their gradients, [sync] is [sync_bucket_indices]. *)
Definition rebuild_buckets (iter : list (BucketKey * BucketAccumulator) -> list (BucketKey * BucketAccumulator))
    (broadcast_indices broadcast_sizes : list Z -> list Z) : M state bool :=
  do! ensure_prior_reduction_finished in
  let! go := gets (fun s => should_rebuild_buckets s && negb (Nat.eqb (length (rebuilt_param_indices_ s)) 0)) in
  if negb go then ret false
  else
    let! indices := gets rebuilt_param_indices_ in
    let! rep0 := at_ replicas_ 0 in
    do! assert_ (Nat.eqb (length rep0) (length indices))
          (AssertFailed "rebuilt parameter indices size is not same as original model parameters size.") in
    let! sparse := at_ expect_sparse_gradients_ 0 in
    let params := omap (fun v => rep0 !! v) indices in
    let! assigned := lift (compute_bucket_assignment_by_size [kDefaultFirstBucketBytes; bucket_bytes_cap_]
                             sparse (map Z.of_nat indices) iter (map p_meta params)) in
    let! synced := lift (sync_bucket_indices broadcast_indices broadcast_sizes assigned) in
    do! modify (set_rebuilt true []) in
    do! initialize_buckets (map (map Z.to_nat) synced) in
    ret true.

Definition register_comm_hook (h : hook) : M state unit :=
  let! none := gets (fun s => negb (hooked s)) in
  do! assert_ none (CheckFailed "register_comm_hook or register_builtin_comm_hook can only be called once.") in
  do! assert_ (Nat.eqb (length replicas_) 1)
        (CheckFailed "Communication hook does not support single-process multiple-device mode.") in
  modify (set_hook (Some h)).

Inductive BuiltinCommHookType : Type := ALLREDUCE | FP16_COMPRESS | UNKNOWN_HOOK.

Definition register_builtin_comm_hook (ty : BuiltinCommHookType) : M state unit :=
  let! none := gets (fun s => negb (hooked s)) in
  do! assert_ none (CheckFailed "register_builtin_comm_hook or register_comm_hook can only be called once.") in
  do! assert_ (Nat.eqb (length replicas_) 1)
        (CheckFailed "Communication hook does not support single-process multiple-device mode.") in
  match ty with
  | ALLREDUCE => modify (set_hook (Some AllReduceCommHook))
  | FP16_COMPRESS => modify (set_hook (Some FP16CompressCommHook))
  | UNKNOWN_HOOK => ret tt
  end.

Definition set_forward_pass_work_handle (result : outcome Z) (useStaticWorldSize : bool) (s : state)
  : state := set_forward (Some (result, useStaticWorldSize)) s.

Definition get_bucket_tensors (s : state) : list (list tensor) :=
  map (fun b => map contents (b_replicas b)) (buckets_ s).

(** *** Construction *)

Definition verify_variable (p p0 : param) (sp sp0 : option bool) : outcome unit :=
  check! p_requires_grad p else CheckFailed "Variables must require gradients (have `requires_grad` set)." in
  check! bool_decide (p_sizes p = p_sizes p0) else CheckFailed "Variables across model replicas must have identical sizes." in
  check! bool_decide (p_strides p = p_strides p0) else CheckFailed "Variables across model replicas must have identical strides." in
  check! (p_opts p =? p_opts p0) else CheckFailed "Variables across model replicas must have identical dtype." in
  match sp, sp0 with
  | Some a, Some b => ocheck (Bool.eqb a b) (CheckFailed "Expected the same variables across replicas to either both or neither expect a sparse gradient.")
  | _, _ => Throw (Undefined "expect_sparse_gradients_")
  end.

Fixpoint verify_variables (ps ps0 : list param) (sps sps0 : list bool) (v : nat) : outcome unit :=
  match ps with
  | [] => Ret tt
  | p :: ps =>
      match ps0 with
      | [] => Throw (Undefined "replicas_[0][variable_index]")
      | p0 :: ps0 =>
          let? _ := verify_variable p p0 (sps !! v) (sps0 !! v) in
          verify_variables ps ps0 sps sps0 (S v)
      end
  end.

Fixpoint verify_replicas (reps : list (list param)) (esg : list (list bool)) (rep0 : list param)
    (sp0 : list bool) : outcome unit :=
  match reps, esg with
  | [], _ => Ret tt
  | _ :: _, [] => Throw (Undefined "expect_sparse_gradients_[replica_index]")
  | ps :: reps, sps :: esg =>
      check! Nat.eqb (length ps) (length rep0) else CheckFailed "Model replicas must have an equal number of parameters." in
      check! Nat.eqb (length sps) (length sp0) else CheckFailed "Expected number of entries in expect_sparse_gradients to be equal across replicas." in
      let? _ := verify_variables ps rep0 sps sp0 0 in
      verify_replicas reps esg rep0 sp0
  end.

Definition verify_replicas_within_process : outcome unit :=
  verify_replicas replicas_ expect_sparse_gradients_ (default [] (head replicas_))
    (default [] (head expect_sparse_gradients_)).

(** The metadata every process sends and compares with rank 0's. *)
Definition metadata (rep : list param) : list Z :=
  concat (map (fun p => p_sizes p ++ p_strides p) rep).

Definition verify_replica0_across_processes (broadcast : list Z -> list Z) : outcome unit :=
  let mine := metadata (default [] (head replicas_)) in
  let control := broadcast mine in
  ocheck (bool_decide (take (length mine) control = mine))
    (CheckFailed " appears not to match sizes of the same param in process 0.").

Definition init_state : state := {|
  mem := mkMem ∅ 1 ∅; buckets_ := []; variable_locators_ := [];
  expect_autograd_hooks_ := false; require_finalize_ := false; next_bucket_ := 0;
  has_marked_unused_parameters_ := false; unused_parameters_ := [];
  local_used_maps_ := if find_unused_parameters_
    then replicate (length replicas_) (replicate (length (default [] (head replicas_))) 0) else [];
  local_used_maps_dev_ := if find_unused_parameters_
    then replicate (length replicas_) (replicate (length (default [] (head replicas_))) 0) else [];
  local_used_maps_reduced_ := false; local_used_work_ := None;
  has_rebuilt_bucket_ := false; rebuilt_param_indices_ := [];
  divFactor_ := kUnsetDivFactor; comm_hook_ := None; forward_work := None;
  colls := []; finalizers := 0 |}.

(** The constructor, after [expect_sparse_gradients_] got its default. *)
Definition construct (broadcast : list Z -> list Z) (bucket_indices : list (list nat)) : M state unit :=
  do! assert_ (1 <=? length replicas_)%nat (CheckFailed "Expected at least one model replica.") in
  let! rep0 := at_ replicas_ 0 in
  do! assert_ (1 <=? length rep0)%nat (CheckFailed "Expected at least one parameter.") in
  do! assert_ (Nat.eqb (length expect_sparse_gradients_) (length replicas_))
        (AssertFailed "expect_sparse_gradients_.size() == replicas_.size()") in
  do! lift verify_replicas_within_process in
  do! lift (verify_replica0_across_processes broadcast) in
  initialize_buckets bucket_indices.

#[local] Set Default Proof Using "Type".
#[local] Set Proof Using Clear Unused.

(** ** The part of a bucket that a backward pass does not change *)

Record skeleton := mkSkel {
  k_reps : list (list nat * list tensor);   (* variables and incoming views *)
  k_vars : list nat;
  k_sparse : bool;
}.

Definition skel (bk : Bucket) : skeleton :=
  mkSkel (map (fun r => (variables r, bucket_views_in r)) (b_replicas bk))
         (variable_indices bk) (expect_sparse_gradient bk).
Definition skels (s : state) : list skeleton := map skel (buckets_ s).

Definition nreps : nat := length replicas_.

(** Every variable sits in exactly one bucket, where its locator says. *)
Record wf (sk : list skeleton) (locs : list (nat * nat)) : Prop := {
  wf_loc : forall v b i, locs !! v = Some (b, i) ->
    exists k, sk !! b = Some k /\ k_vars k !! i = Some v;
  wf_bucket : forall b k, sk !! b = Some k ->
    NoDup (k_vars k) /\ k_vars k <> [] /\ length (k_reps k) = nreps /\
    Forall (fun rv => rv.1 = k_vars k) (k_reps k);
  wf_var : forall b k v, sk !! b = Some k -> v ∈ k_vars k -> exists i, locs !! v = Some (b, i);
  wf_bound : Z.of_nat nreps < 2 ^ 63 /\
    forall b k, sk !! b = Some k -> Z.of_nat (length (k_vars k)) < 2 ^ 63;
}.

(** The gradients fit their views, so the copies into the buckets succeed. *)
Definition grad_fits (m : memory) (r v : nat) (sparse : bool) (view : option tensor) : Prop :=
  if sparse then exists g, grads m !! (r, v) = Some g /\ tsparse g = true
  else exists w, view = Some w /\ (sid w < next_sid m)%nat /\
       match grads m !! (r, v) with
       | None => True
       | Some g => check_grad_layout g w = Ret tt
       end.

Definition data_ok (sk : list skeleton) (m : memory) : Prop :=
  forall b k r rv i v, sk !! b = Some k -> k_reps k !! r = Some rv -> rv.1 !! i = Some v ->
    (exists rep p, replicas_ !! r = Some rep /\ rep !! v = Some p) /\
    grad_fits m r v (k_sparse k) (rv.2 !! i).

(** ** Readiness accounting *)

Definition unmarked (marked : list VariableIndex) (r : nat) (vs : list nat) : list nat :=
  filter (fun v => (r, v) ∉ marked) vs.
Definition unfinished (marked : list VariableIndex) (vs : list nat) : list nat :=
  filter (fun r => unmarked marked r vs <> []) (seq 0 nreps).

(** What a bucket counts: pending variables of each replica, pending replicas. *)
Record counts := mkCounts { n_reps : list Z; n_bucket : Z; n_vars : list nat }.
Definition counts_of (bk : Bucket) : counts :=
  mkCounts (map r_pending (b_replicas bk)) (b_pending bk) (variable_indices bk).

Record control := mkControl {
  c_counts : list counts;
  c_locs : list (nat * nat);
  c_next : nat;
  c_colls : list coll;
  c_fin : nat;
  c_fwd : option (outcome Z * bool);
}.
Definition control_of (s : state) : control :=
  mkControl (map counts_of (buckets_ s)) (variable_locators_ s) (next_bucket_ s) (colls s)
            (finalizers s) (forward_work s).

Definition counts_inv (marked : list VariableIndex) (c : counts) : Prop :=
  (forall r z, n_reps c !! r = Some z -> z = Z.of_nat (length (unmarked marked r (n_vars c)))) /\
  n_bucket c = Z.of_nat (length (unfinished marked (n_vars c))).

(** What the pass has started: the buckets below [next_bucket_], in order, and
    the used maps once all buckets are on their way. *)
Definition started (nb next : nat) : list coll :=
  map CBucket (seq 0 next) ++
  (if Nat.eqb next nb && find_unused_parameters_ then [CUsedMaps] else []).

(** [next_bucket_] is the first bucket that is not ready. *)
Definition next_ok (cs : list counts) (next : nat) : Prop :=
  (next <= length cs)%nat /\
  (forall b c, cs !! b = Some c -> (b < next)%nat -> n_bucket c = 0) /\
  (forall c, cs !! next = Some c -> n_bucket c <> 0).

Record ctl_inv (c0 : list coll) (f0 : nat) (marked : list VariableIndex) (c : control) : Prop := {
  ci_fwd : match c_fwd c with Some (result, false) => exists d, result = Ret d | _ => True end;
  ci_counts : forall b x, c_counts c !! b = Some x -> counts_inv marked x;
  ci_next : next_ok (c_counts c) (c_next c);
  ci_colls : c_colls c = c0 ++ started (length (c_counts c)) (c_next c);
  ci_fin : c_fin c = (f0 + if Nat.eqb (c_next c) (length (c_counts c)) then 1 else 0)%nat;
}.

Definition pass_inv (c0 : list coll) (f0 : nat) (marked : list VariableIndex) (s : state) : Prop :=
  wf (skels s) (variable_locators_ s) /\ data_ok (skels s) (mem s) /\
  ctl_inv c0 f0 marked (control_of s).

#[local] Arguments started : simpl never.
#[local] Arguments unmarked : simpl never.
#[local] Arguments unfinished : simpl never.

(** *** Counting *)

Lemma unmarked_cons_other marked r v r' vs :
  r <> r' \/ v ∉ vs -> unmarked ((r, v) :: marked) r' vs = unmarked marked r' vs.
Proof.
  intros H. apply list_filter_ext_in. intros x Hx. rewrite not_elem_of_cons.
  assert ((r', x) <> (r, v)) by (destruct H; congruence). tauto.
Qed.

Lemma unmarked_cons marked r v vs :
  NoDup vs -> v ∈ vs -> (r, v) ∉ marked ->
  length (unmarked marked r vs) = S (length (unmarked ((r, v) :: marked) r vs)).
Proof.
  intros Hnd Hv Hm. apply (length_filter_remove _ _ vs v); [done..|].
  intros y Hy. rewrite not_elem_of_cons. split.
  - intros [Hne ?]. split; [done|]. intros ->. by apply Hne.
  - intros [? Hne]. split; [congruence|done].
Qed.

Lemma unfinished_cons_other marked r v vs :
  v ∉ vs -> unfinished ((r, v) :: marked) vs = unfinished marked vs.
Proof.
  intros H. apply list_filter_iff. intros r'. by rewrite unmarked_cons_other by (by right).
Qed.

(** A mark that leaves the replica with pending variables, and one that does not. *)
Lemma unfinished_cons_pending marked r v vs :
  unmarked ((r, v) :: marked) r vs <> [] -> unmarked marked r vs <> [] ->
  unfinished ((r, v) :: marked) vs = unfinished marked vs.
Proof.
  intros H1 H2. apply list_filter_iff. intros r'. destruct (decide (r = r')) as [<-|]; [done|].
  by rewrite unmarked_cons_other by (by left).
Qed.

Lemma unfinished_cons_done marked r v vs :
  (r < nreps)%nat -> unmarked ((r, v) :: marked) r vs = [] -> unmarked marked r vs <> [] ->
  length (unfinished marked vs) = S (length (unfinished ((r, v) :: marked) vs)).
Proof.
  intros Hr H1 H2. apply (length_filter_remove _ _ (seq 0 nreps) r); [apply NoDup_seq| |done|].
  - apply elem_of_seq. lia.
  - intros r' _. destruct (decide (r = r')) as [<-|Hne].
    { rewrite H1. split; [done|]. by intros [_ ?]. }
    rewrite unmarked_cons_other by (by left). split; [intros ?; split; [done|congruence]|by intros [? _]].
Qed.

(** *** The copies into the buckets *)

Lemma at_Some {A} (l : list A) i x s : l !! i = Some x -> at_ l i s = (Ret x, s).
Proof. intros Hx. unfold at_, lift. by rewrite Hx. Qed.

(** [g'] fits every view of an older storage that [g] fits. *)
Definition refits (n : nat) (g g' : tensor) : Prop :=
  tsparse g' = tsparse g /\
  forall w, (sid w < n)%nat -> check_grad_layout g w = Ret tt -> check_grad_layout g' w = Ret tt.

(** A memory change that keeps every gradient fitting its view. *)
Definition mem_le (m m' : memory) : Prop :=
  (next_sid m <= next_sid m')%nat /\
  forall i, match grads m !! i with
            | None => grads m' !! i = None
            | Some g => exists g', grads m' !! i = Some g' /\ refits (next_sid m) g g'
            end.

Lemma mem_le_same m m' : next_sid m' = next_sid m -> grads m' = grads m -> mem_le m m'.
Proof.
  intros Hn Hg. split; [lia|]. intros i. rewrite Hg. destruct (grads m !! i) as [g|]; [|done].
  exists g. by split.
Qed.

Lemma mem_le_trans m1 m2 m3 : mem_le m1 m2 -> mem_le m2 m3 -> mem_le m1 m3.
Proof.
  intros [N1 G1] [N2 G2]. split; [lia|]. intros i. specialize (G1 i). specialize (G2 i).
  destruct (grads m1 !! i) as [g|].
  - destruct G1 as (g1 & E1 & S1 & C1). rewrite E1 in G2. destruct G2 as (g2 & E2 & S2 & C2).
    exists g2. split; [done|]. split; [congruence|]. intros w Hw Hc. apply C2; [lia|auto].
  - by rewrite G1 in G2.
Qed.

Lemma mem_le_set_grad i g g' m :
  grads m !! i = Some g -> refits (next_sid m) g g' -> mem_le m (set_grad i g' m).
Proof.
  intros Hg Hr. split; [done|]. intros j. cbn. rewrite lookup_insert.
  destruct (decide (i = j)) as [<-|]; [rewrite Hg; eauto|].
  destruct (grads m !! j) as [x|]; [|done]. exists x. by split.
Qed.

Lemma data_ok_le sk m m' : data_ok sk m -> mem_le m m' -> data_ok sk m'.
Proof.
  intros Hd [Hs Hg] b k r rv i v Hb Hr Hv.
  destruct (Hd b k r rv i v Hb Hr Hv) as [Hp Hf]. split; [done|].
  unfold grad_fits in *. specialize (Hg (r, v)). destruct (k_sparse k).
  - destruct Hf as (g & Hl & Ht). rewrite Hl in Hg. destruct Hg as (g' & E' & Hsp & _).
    exists g'. split; [done|congruence].
  - destruct Hf as (w & Hl & Hw & Hc). exists w. split_and!; [done|lia|].
    destruct (grads m !! (r, v)) as [g|]; [destruct Hg as (g' & -> & _ & Hch); auto|by rewrite Hg].
Qed.

Lemma check_grad_layout_Ret g w :
  check_grad_layout g w = Ret tt <->
  type_equal g w = true /\ tdev g = tdev w /\ (gradient_as_bucket_view_ = true \/ sid g <> sid w).
Proof.
  unfold check_grad_layout, ocheck, is_alias_of. rewrite <- Z.eqb_eq.
  destruct (type_equal g w); [|by split; [|intros (? & _)]].
  destruct (tdev g =? tdev w); [|by split; [|intros (_ & ? & _)]]. cbn.
  destruct gradient_as_bucket_view_; [split; auto|].
  destruct (Nat.eqb_spec (sid g) (sid w)); cbn; split; try done; [|auto].
  by intros (_ & _ & [?|?]).
Qed.

Lemma type_equal_eq a b : type_equal a b = true <-> topts a = topts b /\ tsparse a = tsparse b.
Proof. unfold type_equal. by rewrite andb_true_iff, Z.eqb_eq, Bool.eqb_true_iff. Qed.

(** A gradient of the same type in a new storage, or, if gradients live in the
    buckets, in any storage, fits as well. *)
Lemma refits_intro n g g' :
  topts g' = topts g -> tsparse g' = tsparse g -> tdev g' = tdev g ->
  gradient_as_bucket_view_ = true \/ (n <= sid g')%nat -> refits n g g'.
Proof.
  intros Ht Hs Hv Hcase. split; [done|]. intros w Hw.
  rewrite !check_grad_layout_Ret, !type_equal_eq. intros ([? ?] & ? & _).
  split_and!; [congruence..|]. destruct Hcase; [by left|right; lia].
Qed.

Lemma cast_grad_le i p g m :
  grads m !! i = Some g ->
  mem_le m (cast_grad i p g m).2 /\
  grads (cast_grad i p g m).2 !! i = Some (cast_grad i p g m).1 /\
  topts (cast_grad i p g m).1 = topts g /\ tsparse (cast_grad i p g m).1 = tsparse g /\
  tdev (cast_grad i p g m).1 = tdev g.
Proof.
  intros Hg. unfold cast_grad. destruct (tfmt g =? p_fmt p); cbn.
  { split_and!; [by apply mem_le_same|done..]. }
  rewrite lookup_insert_eq. split_and!; [|done..]. split; [cbn; lia|]. intros j. cbn.
  rewrite lookup_insert. destruct (decide (i = j)) as [<-|].
  - rewrite Hg. eexists. split; [done|]. apply refits_intro; try done. right. cbn. lia.
  - destruct (grads m !! j) as [x|]; [|done]. exists x. by split.
Qed.

Lemma dense_callback_ok h d i p w m :
  match grads m !! i with None => True | Some g => check_grad_layout g w = Ret tt end ->
  exists m', dense_callback h d i p w m = (Ret tt, m') /\ mem_le m m'.
Proof.
  intros Hc. unfold dense_callback. destruct (grads m !! i) as [g|] eqn:Eg.
  2:{ eexists. split; [done|]. by apply mem_le_same. }
  rewrite Hc. destruct (is_alias_of g w) eqn:Ea.
  { eexists. split; [done|]. destruct h; by apply mem_le_same. }
  apply check_grad_layout_Ret in Hc as ([Ht Hsp]%type_equal_eq & Hdv & _).
  destruct (cast_grad_le i p g m Eg) as (L1 & G1 & T1 & S1 & D1).
  destruct (cast_grad i p g m) as [g1 m1]. cbn [fst snd] in *.
  eexists. split; [done|]. eapply mem_le_trans; [exact L1|].
  assert (L2 : mem_le m1 (copy_grad_to_bucket h d g1 w m1)).
  { apply mem_le_same; unfold copy_grad_to_bucket; by destruct h. }
  destruct gradient_as_bucket_view_ eqn:Ev; [|done].
  eapply mem_le_trans; [exact L2|]. apply (mem_le_set_grad i g1).
  - unfold copy_grad_to_bucket. by destruct h.
  - apply refits_intro; [congruence..|by left].
Qed.

(** *** One mark *)

(** The operations below change only the memory and what control does not read. *)
Definition flags (s : state) : bool * bool * list VariableIndex :=
  (expect_autograd_hooks_ s, has_marked_unused_parameters_ s, unused_parameters_ s).
Definition same_control (s s' : state) : Prop :=
  skels s' = skels s /\ control_of s' = control_of s /\ flags s' = flags s.

Lemma skels_lookup s b k :
  skels s !! b = Some k -> exists bk, buckets_ s !! b = Some bk /\ k = skel bk.
Proof. unfold skels. rewrite list_lookup_fmap. destruct (buckets_ s !! b); intros; simplify_eq/=; eauto. Qed.

Lemma map_alter_same {A B} (f : A -> B) (g : A -> A) (l : list A) i :
  (forall x, f (g x) = f x) -> map f (alter g i l) = map f l.
Proof.
  intros H. apply list_eq. intros j. rewrite !list_lookup_fmap, list_lookup_alter.
  destruct (decide (i = j)) as [->|]; [|done]. destruct (l !! j); cbn; by rewrite ?H.
Qed.

Lemma update_replica_same b r f s :
  (forall x, variables (f x) = variables x /\ bucket_views_in (f x) = bucket_views_in x) ->
  skels (update_replica b r f s) = skels s.
Proof.
  intros H. unfold skels, update_replica. cbn. apply map_alter_same. intros bk.
  unfold skel. cbn. f_equal. apply map_alter_same. intros x. by destruct (H x) as [-> ->].
Qed.

(** Where a variable is, what its bucket and replica are. *)
Lemma located s r v :
  wf (skels s) (variable_locators_ s) -> (r < nreps)%nat -> (v < length (variable_locators_ s))%nat ->
  exists b i bk rep, variable_locators_ s !! v = Some (b, i) /\ buckets_ s !! b = Some bk /\
    b_replicas bk !! r = Some rep /\ variables rep !! i = Some v /\
    variable_indices bk !! i = Some v /\ NoDup (variable_indices bk).
Proof.
  intros Hwf Hr Hv. destruct (lookup_lt_is_Some_2 _ _ Hv) as [[b i] Hloc].
  destruct (wf_loc _ _ Hwf v b i Hloc) as (k & Hk & Hi).
  destruct (wf_bucket _ _ Hwf b k Hk) as (Hnd & _ & Hl & Hvars).
  destruct (skels_lookup s b k Hk) as (bk & Hb & ->). cbn in *. rewrite length_map in Hl.
  destruct (lookup_lt_is_Some_2 (b_replicas bk) r ltac:(lia)) as [rep Hrep].
  exists b, i, bk, rep. split_and!; try done.
  rewrite Forall_lookup in Hvars.
  assert (Hvr : variables rep = variable_indices bk); [|by rewrite Hvr].
  apply (Hvars r (variables rep, bucket_views_in rep)). by rewrite list_lookup_fmap, Hrep.
Qed.

Lemma mark_data_ok s r v b i bk rep :
  data_ok (skels s) (mem s) ->
  variable_locators_ s !! v = Some (b, i) -> buckets_ s !! b = Some bk ->
  b_replicas bk !! r = Some rep -> variables rep !! i = Some v ->
  exists s', (if expect_sparse_gradient bk then mark_variable_ready_sparse (r, v)
              else mark_variable_ready_dense (r, v)) s = (Ret tt, s') /\
    same_control s s' /\ data_ok (skels s) (mem s').
Proof.
  intros Hd Hloc Hb Hr Hv.
  destruct (Hd b (skel bk) r (variables rep, bucket_views_in rep) i v) as [(ps & p & Hps & Hp) Hf].
  { unfold skels. by rewrite list_lookup_fmap, Hb. }
  { cbn. by rewrite list_lookup_fmap, Hr. }
  { done. }
  cbn in Hf. unfold grad_fits in Hf. destruct (expect_sparse_gradient bk).
  - destruct Hf as (g & Hg & Hs). unfold mark_variable_ready_sparse. cbn [fst snd].
    unfold bind. rewrite (at_Some _ _ _ _ Hloc). cbn [fst snd].
    rewrite (at_Some _ _ _ _ Hb), (at_Some _ _ _ _ Hr), (at_Some _ _ _ _ Hv).
    unfold lift at 1. rewrite Hg. unfold assert_, lift, modify. rewrite Hs. cbn [ocheck].
    assert (Hsk : skels (update_replica b r (with_contents g) s) = skels s)
      by (by apply update_replica_same).
    assert (Hct : control_of (update_replica b r (with_contents g) s) = control_of s).
    { unfold control_of. f_equal. cbn. apply map_alter_same. intros x.
      unfold counts_of. cbn. f_equal. by apply map_alter_same. }
    destruct (hooked s); (eexists; split; [done|]); (split; [by split_and!|]); [done|].
    eapply data_ok_le; [exact Hd|]. by apply mem_le_same.
  - destruct Hf as (w & Hw & _ & Hc). unfold mark_variable_ready_dense, replica_param. cbn [fst snd].
    unfold bind. rewrite (at_Some _ _ _ _ Hloc). cbn [fst snd].
    rewrite (at_Some _ _ _ _ Hb), (at_Some _ _ _ _ Hr), (at_Some _ _ _ _ Hv).
    rewrite (at_Some _ _ _ _ Hps), (at_Some _ _ _ _ Hp), (at_Some _ _ _ _ Hw).
    destruct (dense_callback_ok (hooked s) (divFactor_ s) (r, v) p w (mem s) Hc) as (m' & Em & Hle).
    unfold on_mem. rewrite Em. eexists. split; [done|]. split; [by split_and!|].
    by eapply data_ok_le.
Qed.

Lemma set_div_factor_ok s :
  match forward_work s with Some (result, false) => exists d, result = Ret d | _ => True end ->
  exists d, set_div_factor s = (Ret tt, set_div d s).
Proof.
  intros Hf. unfold set_div_factor, bind, modify, lift, ret.
  destruct (divFactor_ s =? kUnsetDivFactor).
  - destruct (forward_work s) as [[o []]|]; [by eexists| |by eexists].
    destruct Hf as [d ->]. by exists d.
  - exists (divFactor_ s). by destruct s.
Qed.

(** Starting the reduction of the ready buckets. *)
Lemma start_ready_ok fuel s :
  (length (buckets_ s) - next_bucket_ s <= fuel)%nat ->
  (next_bucket_ s <= length (buckets_ s))%nat ->
  exists next, let s' := start_ready fuel s in
    skels s' = skels s /\ mem s' = mem s /\ flags s' = flags s /\
    control_of s' = mkControl (c_counts (control_of s)) (variable_locators_ s) next
      (colls s ++ map CBucket (seq (next_bucket_ s) (next - next_bucket_ s))) (finalizers s) (forward_work s) /\
    (next_bucket_ s <= next <= length (buckets_ s))%nat /\
    (forall b c, c_counts (control_of s) !! b = Some c -> (next_bucket_ s <= b < next)%nat -> n_bucket c = 0) /\
    (forall c, c_counts (control_of s) !! next = Some c -> n_bucket c <> 0).
Proof.
  revert s. induction fuel as [|fuel IH]; intros s Hf Hn; cbn [start_ready].
  - assert (next_bucket_ s = length (buckets_ s)) as Hz by lia.
    exists (next_bucket_ s). cbn zeta. rewrite Nat.sub_diag. cbn [seq map]. rewrite app_nil_r.
    split_and!; try done; [lia..|]. intros c Hc. cbn in Hc.
    rewrite list_lookup_fmap, lookup_ge_None_2 in Hc by lia. done.
  - destruct (buckets_ s !! next_bucket_ s) as [bk|] eqn:Hb.
    2:{ exists (next_bucket_ s). cbn zeta. rewrite Nat.sub_diag. cbn [seq map]. rewrite app_nil_r.
        split_and!; try done; [lia..|]. intros c Hc. cbn in Hc. by rewrite list_lookup_fmap, Hb in Hc. }
    destruct (Z.eqb_spec (b_pending bk) 0) as [Hz|Hz].
    2:{ exists (next_bucket_ s). cbn zeta. rewrite Nat.sub_diag. cbn [seq map]. rewrite app_nil_r.
        split_and!; try done; [lia..|]. intros c Hc. cbn in Hc. rewrite list_lookup_fmap, Hb in Hc.
        by simplify_eq/=. }
    set (s1 := set_next (S (next_bucket_ s)) (start_bucket (next_bucket_ s) s)).
    assert (Hlen : length (buckets_ s1) = length (buckets_ s)) by (cbn; by rewrite length_alter).
    pose proof (lookup_lt_Some _ _ _ Hb) as Hlt.
    destruct (IH s1) as (next & K & Mm & F & C & Hr & Hd & Hw); [cbn [s1 next_bucket_ set_next] in *; lia..|].
    assert (Hsk : skels s1 = skels s).
    { unfold skels, s1. cbn. apply map_alter_same. intros x. by destruct (hooked s). }
    assert (Hcn : c_counts (control_of s1) = c_counts (control_of s)).
    { cbn. apply map_alter_same. intros x. by destruct (hooked s). }
    exists next. cbn zeta. rewrite K, Mm, F, C, Hcn, Hsk. rewrite Hcn in Hd, Hw. rewrite Hlen in Hr.
    cbn in Hr, Hd |- *.
    replace (next - next_bucket_ s)%nat with (S (next - S (next_bucket_ s))) by lia.
    cbn [seq map]. rewrite <- app_assoc. split_and!; try done; try lia.
    intros b c Hc Hbr. destruct (decide (b = next_bucket_ s)) as [->|]; [|apply (Hd b c Hc); lia].
    rewrite list_lookup_fmap, Hb in Hc. by simplify_eq/=.
Qed.

Lemma map_pending_alter r p reps :
  map r_pending (alter (with_pending p) r reps) = <[r := p]> (map r_pending reps).
Proof.
  apply list_eq. intros j. rewrite list_lookup_fmap, list_lookup_alter.
  destruct (decide (r = j)) as [->|Hne].
  - destruct (reps !! j) eqn:Hj; cbn.
    + rewrite list_lookup_insert_eq; [done|]. rewrite length_map. by eapply lookup_lt_Some.
    + symmetry. apply lookup_ge_None_2. rewrite length_insert, length_map. by apply lookup_ge_None_1.
  - by rewrite list_lookup_insert_ne, list_lookup_fmap by done.
Qed.

(** Counts of the bucket of a marked variable, after the mark. *)
Definition marked_counts (marked : list VariableIndex) (r : nat) (x : counts) : counts :=
  mkCounts (<[r := Z.of_nat (length (unmarked marked r (n_vars x)))]> (n_reps x))
           (Z.of_nat (length (unfinished marked (n_vars x)))) (n_vars x).

Lemma marked_counts_inv marked r v x :
  counts_inv marked x -> counts_inv ((r, v) :: marked) (marked_counts ((r, v) :: marked) r x).
Proof.
  intros [H1 H2]. split; [|done]. intros r' z. cbn [marked_counts n_vars n_reps]. intros Hz.
  destruct (decide (r = r')) as [<-|Hne].
  - assert (r < length (n_reps x))%nat.
    { apply lookup_lt_Some in Hz. by rewrite length_insert in Hz. }
    rewrite list_lookup_insert_eq in Hz by done. by simplify_eq.
  - rewrite list_lookup_insert_ne in Hz by done. rewrite unmarked_cons_other by (by left). auto.
Qed.

Lemma other_counts_inv marked r v x :
  v ∉ n_vars x -> counts_inv marked x -> counts_inv ((r, v) :: marked) x.
Proof.
  intros Hv [H1 H2]. split.
  - intros r' z Hz. rewrite unmarked_cons_other by (by right). auto.
  - by rewrite unfinished_cons_other.
Qed.

Lemma unmarked_ne marked r v vs : v ∈ vs -> (r, v) ∉ marked -> unmarked marked r vs <> [].
Proof.
  intros Hv Hm Hz. assert (v ∈ unmarked marked r vs) as Hin by (by apply list_elem_of_filter).
  rewrite Hz in Hin. by apply elem_of_nil in Hin.
Qed.

Lemma unfinished_ne marked r vs :
  (r < nreps)%nat -> unmarked marked r vs <> [] -> unfinished marked vs <> [].
Proof.
  intros Hr Hm Hz. assert (r ∈ unfinished marked vs) as Hin.
  { apply list_elem_of_filter. split; [done|]. apply elem_of_seq. lia. }
  rewrite Hz in Hin. by apply elem_of_nil in Hin.
Qed.

(** Counts of all buckets after the mark. *)
Lemma all_counts_inv s marked r v b i bk :
  wf (skels s) (variable_locators_ s) ->
  (forall b' x, c_counts (control_of s) !! b' = Some x -> counts_inv marked x) ->
  variable_locators_ s !! v = Some (b, i) -> buckets_ s !! b = Some bk ->
  forall b' x, <[b := marked_counts ((r, v) :: marked) r (counts_of bk)]> (c_counts (control_of s)) !! b' = Some x ->
    counts_inv ((r, v) :: marked) x.
Proof.
  intros Hwf Hc Hloc Hb b' x Hx.
  assert (Hcb : c_counts (control_of s) !! b = Some (counts_of bk))
    by (cbn; by rewrite list_lookup_fmap, Hb).
  destruct (decide (b = b')) as [<-|Hne].
  - rewrite list_lookup_insert_eq in Hx by (by eapply lookup_lt_Some). simplify_eq.
    apply marked_counts_inv. by apply (Hc b).
  - rewrite list_lookup_insert_ne in Hx by done. apply other_counts_inv; [|by apply (Hc b')].
    intros Hv. cbn in Hx. rewrite list_lookup_fmap in Hx.
    destruct (buckets_ s !! b') as [bk'|] eqn:Hb'; simplify_eq/=.
    destruct (wf_var _ _ Hwf b' (skel bk') v) as [i' Hi']; [|done|].
    + unfold skels. by rewrite list_lookup_fmap, Hb'.
    + congruence.
Qed.

Lemma queue_finalizer_skip s :
  (next_bucket_ s < length (buckets_ s))%nat -> queue_finalizer s = (Ret tt, s).
Proof.
  intros H. unfold queue_finalizer.
  destruct (Nat.eqb_spec (next_bucket_ s) (length (buckets_ s))); [lia|done].
Qed.

(** The control state after a mark that starts no bucket. *)
Lemma ctl_inv_quiet c0 f0 marked marked' c cs' :
  ctl_inv c0 f0 marked c -> length cs' = length (c_counts c) ->
  (forall b x, cs' !! b = Some x -> counts_inv marked' x) -> next_ok cs' (c_next c) ->
  ctl_inv c0 f0 marked' (mkControl cs' (c_locs c) (c_next c) (c_colls c) (c_fin c) (c_fwd c)).
Proof.
  intros Hi Hl Hc Hn. split; cbn; [apply Hi|done|done| |]; rewrite Hl; apply Hi.
Qed.

Lemma started_S nb next next' :
  (next < nb)%nat -> (next <= next' <= nb)%nat ->
  started nb next ++ map CBucket (seq next (next' - next)) ++
    (if Nat.eqb next' nb && find_unused_parameters_ then [CUsedMaps] else []) = started nb next'.
Proof.
  intros H1 H2. unfold started. destruct (Nat.eqb_spec next nb); [lia|]. cbn [andb].
  rewrite app_nil_r, app_assoc, <- map_app, <- seq_app.
  by replace (next + (next' - next))%nat with next' by lia.
Qed.

Definition mark_result (c0 : list coll) (f0 : nat) (marked : list VariableIndex)
    (s s' : state) : Prop :=
  skels s' = skels s /\ mem s' = mem s /\ variable_locators_ s' = variable_locators_ s /\
  flags s' = flags s /\ ctl_inv c0 f0 marked (control_of s').

(** The control state after the mark that starts the next buckets. *)
Lemma queue_finalizer_ctl c0 f0 marked s cs next next' :
  control_of s = mkControl cs (variable_locators_ s) next'
    ((c0 ++ started (length cs) next) ++ map CBucket (seq next (next' - next))) f0 (forward_work s) ->
  (next < length cs)%nat -> (next <= next')%nat ->
  (match forward_work s with Some (result, false) => exists d, result = Ret d | _ => True end) ->
  (forall b x, cs !! b = Some x -> counts_inv marked x) -> next_ok cs next' ->
  exists s', queue_finalizer s = (Ret tt, s') /\ mark_result c0 f0 marked s s'.
Proof.
  intros C H1 H2 Hf Hc Hn. pose proof Hn as (Hle & _).
  pose proof (f_equal c_next C) as En. pose proof (f_equal c_counts C) as Ec.
  pose proof (f_equal c_colls C) as El. pose proof (f_equal c_fin C) as Ef. cbn in En, Ec, El, Ef.
  assert (Hlen : length (buckets_ s) = length cs) by (rewrite <- Ec; by rewrite length_map).
  pose proof (started_S (length cs) next next' H1 (conj H2 Hle)) as Hst.
  unfold queue_finalizer. rewrite En, Hlen. unfold bind, modify, ret.
  destruct (Nat.eqb_spec next' (length cs)) as [He|He]; cbn [andb] in Hst.
  - destruct find_unused_parameters_; eexists; (split; [done|]); (split_and!; try done);
      (split; cbn; rewrite ?Ec, ?En; try done); try (rewrite He, Nat.eqb_refl, Ef; lia);
      rewrite El, <- Hst, ?app_nil_r, <- !app_assoc; done.
  - eexists. split; [done|]. split_and!; try done. rewrite C. split; cbn; try done.
    + by rewrite <- Hst, app_nil_r, <- !app_assoc.
    + destruct (Nat.eqb_spec next' (length cs)); [done|lia].
Qed.

Lemma map_alter_insert {A B} (f : A -> B) (g : A -> A) (l : list A) i x :
  l !! i = Some x -> map f (alter g i l) = <[i := f (g x)]> (map f l).
Proof.
  intros Hx. apply list_eq. intros j. rewrite list_lookup_fmap, list_lookup_alter.
  destruct (decide (i = j)) as [->|Hne].
  - rewrite Hx. cbn. rewrite list_lookup_insert_eq; [done|]. rewrite length_map. by eapply lookup_lt_Some.
  - by rewrite list_lookup_insert_ne, list_lookup_fmap by done.
Qed.

Lemma next_ok_insert cs next b x y :
  next_ok cs next -> cs !! b = Some x -> n_bucket x <> 0 ->
  (next < b)%nat \/ n_bucket y <> 0 -> next_ok (<[b := y]> cs) next /\ (next <= b)%nat.
Proof.
  intros (H1 & H2 & H3) Hx Hnz Hcase.
  assert (Hle : (next <= b)%nat).
  { destruct (decide (b < next)%nat) as [Hlt|]; [|lia]. by pose proof (H2 b x Hx Hlt). }
  split; [|done]. split_and!; [by rewrite length_insert| |].
  - intros b' z Hz Hlt. rewrite list_lookup_insert_ne in Hz by lia. by eapply H2.
  - intros z Hz. destruct (decide (b = next)) as [->|].
    + rewrite list_lookup_insert_eq in Hz by (by eapply lookup_lt_Some). simplify_eq.
      destruct Hcase; [lia|done].
    + rewrite list_lookup_insert_ne in Hz by done. auto.
Qed.

(** The state once both counters of the bucket are updated. *)
Lemma counted_state s b r bk p q :
  buckets_ s !! b = Some bk ->
  let s1 := update_replica b r (with_pending p) s in
  let s2 := set_buckets (alter (fun bk => mkBucket (b_replicas bk) (variable_indices bk) q (work bk)
              (future_work bk) (expect_sparse_gradient bk)) b (buckets_ s1)) s1 in
  let counts' q := <[b := mkCounts (<[r := p]> (n_reps (counts_of bk))) q (variable_indices bk)]>
                     (c_counts (control_of s)) in
  let control' q := mkControl (counts' q) (variable_locators_ s) (next_bucket_ s) (colls s)
                      (finalizers s) (forward_work s) in
  skels s1 = skels s /\ control_of s1 = control' (b_pending bk) /\
  skels s2 = skels s /\ control_of s2 = control' q.
Proof.
  intros Hb s1 s2 counts' control'.
  assert (Hsk : skels s1 = skels s) by (by apply update_replica_same).
  assert (Hc1 : control_of s1 = control' (b_pending bk)).
  { unfold control_of, control', counts'. f_equal. cbn.
    rewrite (map_alter_insert _ _ _ _ _ Hb). unfold counts_of. cbn. by rewrite map_pending_alter. }
  assert (Hb1 : buckets_ s1 !! b = Some (mkBucket (alter (with_pending p) r (b_replicas bk))
    (variable_indices bk) (b_pending bk) (work bk) (future_work bk) (expect_sparse_gradient bk))).
  { cbn. by rewrite list_lookup_alter_eq, Hb. }
  split_and!; [done..| |].
  - rewrite <- Hsk. unfold skels, s2. cbn. by apply map_alter_same.
  - unfold control_of, control', counts'. f_equal. unfold s2. cbn [buckets_ set_buckets].
    rewrite (map_alter_insert _ _ _ _ _ Hb1). apply (f_equal c_counts) in Hc1. cbn in Hc1 |- *.
    unfold counts_of at 1. cbn. rewrite map_pending_alter. rewrite Hc1. unfold counts'.
    by rewrite list_insert_insert_eq.
Qed.

Section one_mark.
Context (c0 : list coll) (f0 : nat) (marked : list VariableIndex) (s : state) (r v b i : nat)
  (bk : Bucket) (rep : BucketReplica).
Context (Hwf : wf (skels s) (variable_locators_ s)) (Hi : ctl_inv c0 f0 marked (control_of s))
  (Hr : (r < nreps)%nat) (Hm : (r, v) ∉ marked) (Hloc : variable_locators_ s !! v = Some (b, i))
  (Hb : buckets_ s !! b = Some bk) (Hrep : b_replicas bk !! r = Some rep)
  (Hv : v ∈ variable_indices bk) (Hnd : NoDup (variable_indices bk)).

Let vs := variable_indices bk.
Let m' := (r, v) :: marked.
Let cs' := <[b := marked_counts m' r (counts_of bk)]> (c_counts (control_of s)).

Lemma mark_cb : c_counts (control_of s) !! b = Some (counts_of bk).
Proof using Type Hb. cbn. by rewrite list_lookup_fmap, Hb. Qed.

Lemma mark_counts_old :
  r_pending rep = Z.of_nat (S (length (unmarked m' r vs))) /\
  b_pending bk = Z.of_nat (length (unfinished marked vs)) /\
  unmarked marked r vs <> [] /\ unfinished marked vs <> [] /\
  Z.of_nat (length (unmarked m' r vs)) < 2 ^ 63 /\ Z.of_nat (length (unfinished marked vs)) < 2 ^ 63.
Proof using Type Hwf Hi Hr Hm Hb Hrep Hv Hnd.
  destruct (ci_counts _ _ _ _ Hi b _ mark_cb) as [Hp Hq]. cbn in Hp, Hq.
  specialize (Hp r (r_pending rep)). rewrite list_lookup_fmap, Hrep in Hp. specialize (Hp eq_refl).
  pose proof (unmarked_cons marked r v vs Hnd Hv Hm) as Hcount.
  pose proof (unmarked_ne marked r v vs Hv Hm) as Hne.
  pose proof (unfinished_ne marked r vs Hr Hne) as Hune.
  destruct (wf_bound _ _ Hwf) as [Hbr Hbv].
  assert (Hvs : Z.of_nat (length vs) < 2 ^ 63).
  { apply (Hbv b (skel bk)). unfold skels. by rewrite list_lookup_fmap, Hb. }
  assert (Hle : (length (unmarked marked r vs) <= length vs)%nat) by apply length_filter.
  pose proof (length_filter (fun r => unmarked marked r vs <> []) (seq 0 nreps)) as Hlu.
  rewrite length_seq in Hlu. unfold m'.
  split_and!; [|done..| |].
  - rewrite Hp. fold vs. by rewrite Hcount.
  - lia.
  - unfold unfinished. lia.
Qed.

Lemma mark_quiet s' :
  skels s' = skels s -> mem s' = mem s -> flags s' = flags s ->
  control_of s' = mkControl cs' (variable_locators_ s) (next_bucket_ s) (colls s) (finalizers s)
                    (forward_work s) ->
  (next_bucket_ s < b)%nat \/ unfinished m' vs <> [] ->
  exists s2, queue_finalizer s' = (Ret tt, s2) /\ mark_result c0 f0 m' s s2.
Proof using Type Hwf Hi Hr Hm Hloc Hb Hrep Hv Hnd.
  intros Hsk Hme Hfl Hc Hcase. destruct mark_counts_old as (_ & Hq & _ & Hu & _ & _).
  destruct (next_ok_insert (c_counts (control_of s)) (next_bucket_ s) b (counts_of bk)
    (marked_counts m' r (counts_of bk)) (ci_next _ _ _ _ Hi) mark_cb) as [Hn Hle].
  { cbn. rewrite Hq. destruct (unfinished marked vs); [done|]. cbn. lia. }
  { destruct Hcase as [|Hne]; [by left|right]. cbn. fold vs.
    destruct (unfinished m' vs); [done|]. cbn. lia. }
  exists s'. split.
  - apply queue_finalizer_skip. pose proof (f_equal c_next Hc) as E1. cbn in E1.
    pose proof (f_equal (fun c => length (c_counts c)) Hc) as E2. cbn in E2.
    rewrite length_map in E2. unfold cs' in E2. rewrite length_insert in E2. cbn in E2.
    rewrite length_map in E2. pose proof (lookup_lt_Some _ _ _ Hb). lia.
  - pose proof (f_equal c_locs Hc) as E3. cbn in E3. split_and!; [done..|]. rewrite Hc.
    apply (ctl_inv_quiet c0 f0 marked m' (control_of s) cs' Hi).
    + unfold cs'. apply length_insert.
    + apply (all_counts_inv s marked r v b i bk Hwf (ci_counts _ _ _ _ Hi) Hloc Hb).
    + exact Hn.
Qed.

Lemma mark_starts s' :
  skels s' = skels s -> mem s' = mem s -> flags s' = flags s ->
  control_of s' = mkControl cs' (variable_locators_ s) (next_bucket_ s) (colls s) (finalizers s)
                    (forward_work s) ->
  unfinished m' vs = [] ->
  exists s2, (do! mark_bucket_ready b in queue_finalizer) s' = (Ret tt, s2) /\
    mark_result c0 f0 m' s s2.
Proof using Type Hwf Hi Hr Hm Hloc Hb Hrep Hv Hnd.
  intros Hsk Hme Hfl Hc Hdone. destruct mark_counts_old as (_ & Hq & _ & Hu & _ & _).
  assert (Hnz : n_bucket (counts_of bk) <> 0).
  { cbn. rewrite Hq. destruct (unfinished marked vs); [done|]. cbn. lia. }
  destruct (ci_next _ _ _ _ Hi) as (N1 & N2 & N3).
  assert (Hle : (next_bucket_ s <= b)%nat).
  { destruct (decide (b < next_bucket_ s)%nat) as [Hlt|]; [|lia]. by pose proof (N2 b _ mark_cb Hlt). }
  pose proof (f_equal c_next Hc) as En. pose proof (f_equal c_counts Hc) as Ec.
  pose proof (f_equal c_colls Hc) as El. pose proof (f_equal c_fin Hc) as Ef.
  pose proof (f_equal c_fwd Hc) as Ew. pose proof (f_equal c_locs Hc) as Eo.
  cbn in En, Ec, El, Ef, Ew, Eo.
  unfold bind at 1. unfold mark_bucket_ready, bind, assert_, lift. rewrite En.
  destruct (Nat.leb_spec (next_bucket_ s) b) as [_|]; [|lia]. cbn [ocheck].
  destruct (Nat.ltb_spec (next_bucket_ s) b) as [Hlt|Hge].
  { unfold ret. apply mark_quiet; try done. by left. }
  assert (Heq : next_bucket_ s = b) by lia. unfold modify.
  assert (Hlen : length (buckets_ s') = length cs') by (rewrite <- Ec; by rewrite length_map).
  assert (Hlt : (b < length cs')%nat).
  { unfold cs'. rewrite length_insert. by eapply lookup_lt_Some, mark_cb. }
  destruct (start_ready_ok (length (buckets_ s') - next_bucket_ s) s') as (next & K & Mm & F & C & Hrg & Hd & Hw).
  { lia. } { rewrite En, Hlen. lia. }
  cbn in Hd, Hw. rewrite Ec in Hd, Hw. rewrite Hlen in Hrg.
  assert (Hlen' : length cs' = length (c_counts (control_of s))) by (unfold cs'; apply length_insert).
  assert (Hcl : colls s = c0 ++ started (length cs') (next_bucket_ s)).
  { rewrite Hlen'. apply Hi. }
  assert (Hfin : finalizers s = f0).
  { pose proof (ci_fin _ _ _ _ Hi) as Hf. cbn in Hf, Hlen'. rewrite Hf. rewrite <- Hlen'.
    destruct (Nat.eqb_spec (next_bucket_ s) (length cs')); lia. }
  rewrite En in *.
  destruct (queue_finalizer_ctl c0 f0 m' (start_ready (length (buckets_ s') - next_bucket_ s) s') cs'
    (next_bucket_ s) next) as (s2 & E2 & R1 & R2 & R3 & R4 & R5).
  - rewrite C. cbn. rewrite Ec, El, Ef, Ew, Eo. rewrite Hcl, Hfin. cbn.
    pose proof (f_equal c_locs C) as C1. pose proof (f_equal c_fwd C) as C2. cbn in C1, C2.
    by rewrite C1, C2, Eo, Ew.
  - lia.
  - lia.
  - pose proof (f_equal c_fwd C) as C2. cbn in C2. rewrite C2, Ew. apply Hi.
  - apply (all_counts_inv s marked r v b i bk Hwf (ci_counts _ _ _ _ Hi) Hloc Hb).
  - split_and!; [lia| |done]. intros b' x Hx Hlt'.
    destruct (decide (b' < next_bucket_ s)%nat) as [Hl|Hl]; [|apply (Hd b' x Hx); lia].
    unfold cs' in Hx. rewrite list_lookup_insert_ne in Hx by lia. by apply (N2 b').
  - exists s2. split; [done|]. pose proof (f_equal c_locs C) as C1. cbn in C1.
    split_and!; [congruence..|done].
Qed.

Lemma decrement_ok :
  exists s', (do! decrement_pending b r in queue_finalizer) s = (Ret tt, s') /\
    mark_result c0 f0 m' s s'.
Proof using Type Hwf Hi Hr Hm Hloc Hb Hrep Hv Hnd.
  destruct mark_counts_old as (Hp & Hq & Hne & Hune & Hb1 & Hb2).
  unfold bind at 1. unfold decrement_pending, bind at 1 2.
  rewrite (at_Some _ _ _ _ Hb), (at_Some _ _ _ _ Hrep), Hp.
  replace (uint64 (Z.of_nat (S (length (unmarked m' r vs))) - 1))
    with (Z.of_nat (length (unmarked m' r vs))) by (rewrite uint64_id; unfold in_uint64; lia).
  destruct (counted_state s b r bk (Z.of_nat (length (unmarked m' r vs)))
    (Z.of_nat (length (unfinished m' vs))) Hb) as (K1 & C1 & K2 & C2).
  unfold bind at 1, modify. destruct (unmarked m' r vs) as [|x l] eqn:Eu.
  - cbn [length Z.of_nat Z.eqb]. pose proof (unfinished_cons_done marked r v vs Hr Eu Hne) as Hc.
    fold m' in Hc. rewrite Hq, Hc.
    replace (uint64 (Z.of_nat (S (length (unfinished m' vs))) - 1))
      with (Z.of_nat (length (unfinished m' vs))) by (rewrite uint64_id; unfold in_uint64; lia).
    assert (Hmc : mkCounts (<[r := Z.of_nat (length ([] : list nat))]> (n_reps (counts_of bk)))
      (Z.of_nat (length (unfinished m' vs))) (variable_indices bk) = marked_counts m' r (counts_of bk))
      by (unfold marked_counts; cbn; fold vs; by rewrite Eu).
    rewrite Hmc in C2. fold cs' in C2. unfold bind.
    destruct (unfinished m' vs) as [|y l] eqn:Ef.
    + cbn [length Z.of_nat Z.eqb]. apply mark_starts; [exact K2|done|done|exact C2|exact Ef].
    + apply mark_quiet; [exact K2|done|done|exact C2|]. right. by rewrite Ef.
  - assert ((Z.of_nat (length (x :: l)) =? 0) = false) as -> by (cbn; apply Z.eqb_neq; lia).
    unfold ret. apply mark_quiet; try done.
    + rewrite C1. unfold cs', marked_counts. cbn. fold vs. rewrite Eu, Hq.
      assert (unfinished m' vs = unfinished marked vs) as ->; [|done].
      apply unfinished_cons_pending; [|done]. fold m'. by rewrite Eu.
    + right. apply (unfinished_ne m' r); [done|]. by rewrite Eu.
Qed.
End one_mark.

Definition valid (s : state) (i : VariableIndex) : Prop :=
  (i.1 < nreps)%nat /\ (i.2 < length (variable_locators_ s))%nat.

Lemma mark_ok c0 f0 marked s i :
  pass_inv c0 f0 marked s -> valid s i -> i ∉ marked ->
  exists s', mark_variable_ready i s = (Ret tt, s') /\ pass_inv c0 f0 (i :: marked) s' /\
    flags s' = flags s /\ variable_locators_ s' = variable_locators_ s /\ skels s' = skels s.
Proof.
  destruct i as [r v]. intros (Hwf & Hd & Hc) [Hr Hv] Hm. cbn in Hr, Hv.
  destruct (located s r v Hwf Hr Hv) as (b & i & bk & rep & Hloc & Hb & Hrep & Hvar & Hvi & Hnd).
  pose proof (list_elem_of_lookup_2 _ _ _ Hvi) as Hin.
  destruct (mark_counts_old c0 f0 marked s r v b bk rep Hwf Hc Hr Hm Hb Hrep Hin Hnd) as (Hp & _).
  unfold mark_variable_ready. cbn [fst snd]. unfold bind at 1, assert_ at 1, lift at 1.
  destruct (Nat.ltb_spec r (length replicas_)) as [_|]; [|unfold nreps in Hr; lia]. cbn [ocheck].
  unfold bind at 1, assert_ at 1, lift at 1.
  destruct (Nat.ltb_spec v (length (variable_locators_ s))) as [_|]; [|lia]. cbn [ocheck].
  unfold bind at 1, modify at 1. set (s1 := set_require true s).
  unfold bind at 1. rewrite (at_Some _ _ _ _ Hloc). cbn [fst snd].
  unfold bind at 1. rewrite (at_Some _ _ _ _ Hb). unfold bind at 1. rewrite (at_Some _ _ _ _ Hrep).
  unfold bind at 1, assert_, lift at 1. destruct (Z.eqb_spec (r_pending rep) 0); [lia|]. cbn [ocheck negb].
  destruct (set_div_factor_ok s1) as [d Ed]; [apply (ci_fwd _ _ _ _ Hc)|].
  unfold bind at 1. rewrite Ed. set (s2 := set_div d s1).
  destruct (mark_data_ok s2 r v b i bk rep Hd Hloc Hb Hrep Hvar) as (s3 & E3 & (K3 & C3 & F3) & D3).
  unfold bind at 1. rewrite E3.
  assert (Hsk : skels s3 = skels s) by (rewrite K3; done).
  assert (Hct : control_of s3 = control_of s) by (rewrite C3; done).
  pose proof (f_equal c_locs Hct) as Hlc. cbn in Hlc.
  destruct (buckets_ s3 !! b) as [bk3|] eqn:Hb3.
  2:{ apply (f_equal (fun c => c_counts c !! b)) in Hct. cbn in Hct.
      by rewrite !list_lookup_fmap, Hb3, Hb in Hct. }
  assert (Hvi3 : variable_indices bk3 = variable_indices bk).
  { apply (f_equal (fun l => l !! b)) in Hsk. unfold skels in Hsk.
    rewrite !list_lookup_fmap, Hb3, Hb in Hsk. cbn in Hsk. by simplify_eq. }
  assert (exists rep3, b_replicas bk3 !! r = Some rep3) as [rep3 Hrep3].
  { apply lookup_lt_is_Some_2. apply (f_equal (fun l => l !! b)) in Hsk. unfold skels in Hsk.
    rewrite !list_lookup_fmap, Hb3, Hb in Hsk. cbn in Hsk. injection Hsk as Hreps _ _.
    apply (f_equal length) in Hreps. rewrite !length_map in Hreps. rewrite Hreps.
    by eapply lookup_lt_Some. }
  destruct (decrement_ok c0 f0 marked s3 r v b i bk3 rep3) as (s4 & E4 & K4 & M4 & L4 & F4 & C4).
  { by rewrite Hsk, Hlc. } { by rewrite Hct. } { done. } { done. } { by rewrite Hlc. }
  { done. } { done. } { by rewrite Hvi3. } { by rewrite Hvi3. }
  exists s4. split; [exact E4|]. split; [|split_and!; [by rewrite F4, F3|by rewrite L4, Hlc|by rewrite K4, Hsk]].
  split_and!; [by rewrite K4, L4, Hsk, Hlc| |done]. rewrite K4, M4, Hsk. exact D3.
Qed.

Lemma marks_ok c0 f0 l : forall marked s,
  pass_inv c0 f0 marked s -> Forall (valid s) l -> NoDup l -> (forall i, i ∈ l -> i ∉ marked) ->
  exists s', for_each l mark_variable_ready s = (Ret tt, s') /\ pass_inv c0 f0 (rev l ++ marked) s' /\
    flags s' = flags s /\ variable_locators_ s' = variable_locators_ s /\ skels s' = skels s.
Proof.
  induction l as [|i l IH]; intros marked s Hi Hv Hnd Hm; [by exists s|].
  apply Forall_cons in Hv as [Hvi Hvl]. apply NoDup_cons in Hnd as [Hni Hnd].
  destruct (mark_ok c0 f0 marked s i Hi Hvi) as (s1 & E1 & Hi1 & F1 & L1 & K1).
  { apply Hm, list_elem_of_here. }
  destruct (IH (i :: marked) s1 Hi1) as (s2 & E2 & Hi2 & F2 & L2 & K2).
  - eapply Forall_impl; [exact Hvl|]. intros j. unfold valid. by rewrite L1.
  - done.
  - intros j Hj. rewrite not_elem_of_cons. split; [by intros ->|]. by apply Hm, list_elem_of_further.
  - exists s2. cbn [for_each]. unfold bind. rewrite E1, E2. split; [done|].
    cbn [rev]. rewrite <- app_assoc. split_and!; [done|congruence..].
Qed.

(** The order in which marks are made does not matter to the invariant. *)
Lemma pass_inv_marked c0 f0 m1 m2 s :
  (forall i, i ∈ m1 <-> i ∈ m2) -> pass_inv c0 f0 m1 s -> pass_inv c0 f0 m2 s.
Proof.
  intros He (Hwf & Hd & Hc). split_and!; [done..|]. split; [apply Hc| |apply Hc..].
  assert (Hu : forall r vs, unmarked m2 r vs = unmarked m1 r vs).
  { intros r vs. apply list_filter_iff. intros v. by rewrite He. }
  intros b x Hx. destruct (ci_counts _ _ _ _ Hc b x Hx) as [H1 H2]. split.
  - intros r z Hz. rewrite Hu. auto.
  - rewrite H2. do 2 f_equal. apply list_filter_iff. intros r. by rewrite Hu.
Qed.

(** Once every variable of every replica is marked, everything is started. *)
Lemma pass_complete c0 f0 marked s :
  pass_inv c0 f0 marked s -> (forall i, valid s i -> i ∈ marked) ->
  next_bucket_ s = length (buckets_ s) /\
  colls s = c0 ++ map CBucket (seq 0 (length (buckets_ s))) ++
            (if find_unused_parameters_ then [CUsedMaps] else []) /\
  finalizers s = S f0.
Proof.
  intros (Hwf & _ & Hc) Hall. destruct (ci_next _ _ _ _ Hc) as (N1 & N2 & N3).
  assert (Hn : next_bucket_ s = length (buckets_ s)).
  { cbn in N1, N3. rewrite length_map in N1.
    destruct (buckets_ s !! next_bucket_ s) as [bk|] eqn:Hb; [exfalso|apply lookup_ge_None_1 in Hb; lia].
    assert (Hx : map counts_of (buckets_ s) !! next_bucket_ s = Some (counts_of bk))
      by (by rewrite list_lookup_fmap, Hb).
    apply (N3 _ Hx). destruct (ci_counts _ _ _ _ Hc _ _ Hx) as [_ ->]. cbn.
    assert (unfinished marked (variable_indices bk) = []) as ->; [|done].
    apply list_filter_none. intros r Hr Hne. apply Hne.
    apply list_filter_none. intros v Hv Hm. apply Hm, Hall.
    apply elem_of_seq in Hr. split; [cbn; lia|]. cbn.
    destruct (wf_var _ _ Hwf (next_bucket_ s) (skel bk) v) as [i Hi]; [|done|].
    - unfold skels. by rewrite list_lookup_fmap, Hb.
    - by eapply lookup_lt_Some. }
  pose proof (ci_colls _ _ _ _ Hc) as Hcl. pose proof (ci_fin _ _ _ _ Hc) as Hf. cbn in Hcl, Hf.
  rewrite length_map, Hn, Nat.eqb_refl in Hf. rewrite length_map, Hn in Hcl.
  split_and!; [done| |lia]. rewrite Hcl. unfold started. by rewrite Nat.eqb_refl.
Qed.

(** *** Whole passes *)

(** The reducer between passes, with gradients that fit. *)
Definition ready_state (s : state) : Prop :=
  wf (skels s) (variable_locators_ s) /\ data_ok (skels s) (mem s) /\
  match forward_work s with Some (result, false) => exists d, result = Ret d | _ => True end /\
  buckets_ s <> [] /\ (0 < nreps)%nat.

Lemma prepare_inv s u :
  ready_state s ->
  pass_inv (colls s) (finalizers s) []
    (set_unused u (set_marked false
       (set_buckets (map reset_pending (buckets_ s)) (set_next 0 (set_expect true s))))).
Proof.
  intros (Hwf & Hd & Hf & Hne & Hr). set (s' := set_unused _ _).
  assert (Hsk : skels s' = skels s).
  { unfold skels, s'. cbn. rewrite map_map. apply map_ext. intros bk. unfold skel. cbn.
    by rewrite map_map. }
  split_and!; [by rewrite Hsk|by rewrite Hsk|]. split; cbn.
  - done.
  - intros b x Hx. rewrite map_map, list_lookup_fmap in Hx.
    destruct (buckets_ s !! b) as [bk|] eqn:Hb; simplify_eq/=.
    assert (Hk : skels s !! b = Some (skel bk)) by (unfold skels; by rewrite list_lookup_fmap, Hb).
    destruct (wf_bucket _ _ Hwf b _ Hk) as (Hnd & Hvne & Hl & Hvars). cbn in *. rewrite length_map in Hl.
    assert (Hu : forall r, unmarked [] r (variable_indices bk) = variable_indices bk).
    { intros r. apply list_filter_all. intros; apply not_elem_of_nil. }
    split; cbn.
    + intros r z Hz. rewrite map_map, list_lookup_fmap in Hz.
      destruct (b_replicas bk !! r) as [rep|] eqn:Hrep; simplify_eq/=. rewrite Hu.
      rewrite Forall_lookup in Hvars.
      assert (variables rep = variable_indices bk) as ->; [|done].
      apply (Hvars r (variables rep, bucket_views_in rep)). by rewrite list_lookup_fmap, Hrep.
    + rewrite Hl. unfold unfinished. rewrite list_filter_all, length_seq; [done|].
      intros r _. by rewrite Hu.
  - split_and!; [lia..|]. intros c Hx. rewrite map_map, list_lookup_fmap in Hx.
    destruct (buckets_ s !! 0%nat) as [bk|] eqn:Hb; simplify_eq/=.
    assert (Hk : skels s !! 0%nat = Some (skel bk)) by (unfold skels; by rewrite list_lookup_fmap, Hb).
    destruct (wf_bucket _ _ Hwf 0%nat _ Hk) as (_ & _ & Hl & _). cbn in Hl. rewrite length_map in Hl. lia.
  - unfold started. rewrite !length_map. destruct (buckets_ s); [done|]. cbn. by rewrite app_nil_r.
  - rewrite !length_map. destruct (buckets_ s); [done|]. cbn. lia.
Qed.

(** A hook call of a pass whose unused parameters, if any, are already marked. *)
Lemma hook_ok c0 f0 marked s i :
  pass_inv c0 f0 marked s -> valid s i -> i ∉ marked ->
  expect_autograd_hooks_ s = true ->
  find_unused_parameters_ = false \/ has_marked_unused_parameters_ s = true ->
  exists s', autograd_hook i s = (Ret tt, s') /\ pass_inv c0 f0 (i :: marked) s' /\
    flags s' = flags s /\ variable_locators_ s' = variable_locators_ s /\ skels s' = skels s.
Proof.
  intros Hi Hv Hm He Hu. unfold autograd_hook.
  set (s1 := if find_unused_parameters_
    then set_used (alter (<[i.2 := 1]>) i.1 (local_used_maps_ s)) s else s).
  assert (E1 : (if find_unused_parameters_ then modify (fun s => set_used (alter (<[i.2 := 1]>) i.1 (local_used_maps_ s)) s)
    else ret tt) s = (Ret tt, s1)) by (unfold s1; by destruct find_unused_parameters_).
  unfold bind at 1. rewrite E1. unfold bind at 1, gets at 1.
  assert (expect_autograd_hooks_ s1 = true) as -> by (unfold s1; by destruct find_unused_parameters_).
  cbn [negb]. unfold bind at 1, modify at 1. unfold bind at 1, gets at 1.
  set (s2 := push_rebuilt_params i s1).
  assert (F2 : flags s2 = flags s).
  { unfold s2, push_rebuilt_params, s1. by destruct find_unused_parameters_, (_ && _). }
  assert (negb (has_marked_unused_parameters_ s2) && find_unused_parameters_ = false) as ->.
  { destruct Hu as [->|Hu]; [apply andb_false_r|].
    pose proof (f_equal (fun x => x.1.2) F2) as F. cbn in F. by rewrite F, Hu. }
  unfold bind at 1, ret at 1. rewrite <- F2.
  assert (Hi2 : pass_inv c0 f0 marked s2).
  { unfold s2, push_rebuilt_params, s1. by destruct find_unused_parameters_, (_ && _). }
  assert (L2 : variable_locators_ s2 = variable_locators_ s).
  { unfold s2, push_rebuilt_params, s1. by destruct find_unused_parameters_, (_ && _). }
  assert (K2 : skels s2 = skels s).
  { unfold s2, push_rebuilt_params, s1. by destruct find_unused_parameters_, (_ && _). }
  rewrite <- L2, <- K2. apply mark_ok; [done| |done]. unfold valid. by rewrite L2.
Qed.

Lemma hooks_ok c0 f0 l : forall marked s,
  pass_inv c0 f0 marked s -> Forall (valid s) l -> NoDup l -> (forall i, i ∈ l -> i ∉ marked) ->
  expect_autograd_hooks_ s = true ->
  find_unused_parameters_ = false \/ has_marked_unused_parameters_ s = true ->
  exists s', for_each l autograd_hook s = (Ret tt, s') /\ pass_inv c0 f0 (rev l ++ marked) s' /\
    flags s' = flags s /\ variable_locators_ s' = variable_locators_ s /\ skels s' = skels s.
Proof.
  induction l as [|i l IH]; intros marked s Hi Hv Hnd Hm He Hu; [by exists s|].
  apply Forall_cons in Hv as [Hvi Hvl]. apply NoDup_cons in Hnd as [Hni Hnd].
  destruct (hook_ok c0 f0 marked s i Hi Hvi) as (s1 & E1 & Hi1 & F1 & L1 & K1); [|done..|].
  { apply Hm, list_elem_of_here. }
  pose proof F1 as F1'. unfold flags in F1'. injection F1' as A1 B1 _.
  destruct (IH (i :: marked) s1 Hi1) as (s2 & E2 & Hi2 & F2 & L2 & K2).
  - eapply Forall_impl; [exact Hvl|]. intros j. unfold valid. by rewrite L1.
  - done.
  - intros j Hj. rewrite not_elem_of_cons. split; [by intros ->|]. by apply Hm, list_elem_of_further.
  - congruence.
  - destruct Hu; [by left|right; congruence].
  - exists s2. cbn [for_each]. unfold bind. rewrite E1, E2. split; [done|].
    cbn [rev]. rewrite <- app_assoc. split_and!; [done|congruence..].
Qed.

(** *** The search for unused parameters *)

Section search.
Context (next_edges : nat -> list (option nat)) (nodes : gset nat) (seeds : list nat).
Definition edge (a b : nat) : Prop := Some b ∈ next_edges a.
Context (nodes_closed : forall a b, edge a b -> b ∈ nodes).

Definition reachable (n : nat) : Prop := exists a, a ∈ seeds /\ tc edge a n.

Lemma push_edges_spec es seen q :
  exists new, push_edges es seen q = (list_to_set new ∪ seen, new ++ q) /\ NoDup new /\
    (forall b, b ∈ new -> (b ∉ seen) /\ Some b ∈ es) /\
    (forall b, Some b ∈ es -> b ∈ new \/ b ∈ seen).
Proof.
  revert seen q. induction es as [|[n|] es IH]; intros seen q; cbn [push_edges].
  - exists []. split_and!; [f_equal; set_solver|constructor|by intros b ?%elem_of_nil|by intros b ?%elem_of_nil].
  - case_bool_decide as Hn.
    + destruct (IH seen q) as (new & -> & Hnd & H1 & H2). exists new. split_and!; [done..| |].
      * intros b Hb. destruct (H1 b Hb). split; [done|by apply list_elem_of_further].
      * intros b Hb. apply elem_of_cons in Hb as [[= ->]|Hb]; [by right|auto].
    + destruct (IH ({[n]} ∪ seen) (n :: q)) as (new & -> & Hnd & H1 & H2).
      exists (new ++ [n]). split_and!.
      * rewrite <- app_assoc, list_to_set_app_L. f_equal. cbn. set_solver.
      * apply NoDup_app. split_and!; [done| |apply NoDup_singleton].
        intros b Hb. destruct (H1 b Hb). set_solver.
      * intros b [Hb|Hb]%elem_of_app; [destruct (H1 b Hb) as [? ?]; split; [set_solver|by apply list_elem_of_further]|].
        apply list_elem_of_singleton in Hb as ->. split; [done|apply list_elem_of_here].
      * intros b Hb. apply elem_of_cons in Hb as [[= ->]|Hb]; [left; set_solver|].
        destruct (H2 b Hb); set_solver.
  - destruct (IH seen q) as (new & -> & Hnd & H1 & H2). exists new. split_and!; [done..| |].
    + intros b Hb. destruct (H1 b Hb). split; [done|by apply list_elem_of_further].
    + intros b Hb. apply elem_of_cons in Hb as [[=]|Hb]. auto.
Qed.

(** What holds of [seen] and [queue] whenever the loop condition is evaluated. *)
Record search_inv (seen : gset nat) (queue : list nat) : Prop := {
  si_nodes : seen ⊆ nodes;
  si_sound : forall n, n ∈ seen -> reachable n;
  si_queue : forall n, n ∈ queue -> n ∈ seeds \/ n ∈ seen;
  si_closed : forall a, a ∈ seeds \/ a ∈ seen -> a ∈ queue \/ forall b, edge a b -> b ∈ seen;
}.

Lemma search_step seen fn queue :
  search_inv seen (fn :: queue) ->
  exists new, push_edges (next_edges fn) seen queue = (list_to_set new ∪ seen, new ++ queue) /\
    search_inv (list_to_set new ∪ seen) (new ++ queue) /\
    (length new + size (nodes ∖ (list_to_set new ∪ seen)) = size (nodes ∖ seen))%nat.
Proof using Type nodes_closed.
  intros Hi. destruct (push_edges_spec (next_edges fn) seen queue) as (new & Etr & Hnd & H1 & H2).
  assert (Hnew : forall b, b ∈ new -> b ∈ nodes /\ (b ∉ seen) /\ edge fn b).
  { intros b Hb. destruct (H1 b Hb) as [Hs He]. split_and!; [by eapply nodes_closed|done|done]. }
  exists new. split; [done|]. split; [split|].
  - intros b. rewrite elem_of_union, elem_of_list_to_set. intros [Hb|Hb]; [by apply Hnew|].
    by apply Hi.
  - intros n. rewrite elem_of_union, elem_of_list_to_set. intros [Hn|Hn]; [|by apply Hi].
    destruct (Hnew n Hn) as (_ & _ & He).
    destruct (si_queue _ _ Hi fn (list_elem_of_here _ _)) as [Hf|Hf].
    + exists fn. split; [done|by apply tc_once].
    + destruct (si_sound _ _ Hi fn Hf) as (a & Ha & Hr). exists a. split; [done|].
      eapply tc_r; [exact Hr|done].
  - intros n [Hn|Hn]%elem_of_app; [right; set_solver|].
    destruct (si_queue _ _ Hi n (list_elem_of_further _ _ _ Hn)); [by left|right; set_solver].
  - intros a Ha. destruct (decide (a = fn)) as [->|Hne].
    { right. intros b Hb. destruct (H2 b Hb); set_solver. }
    rewrite elem_of_union, elem_of_list_to_set in Ha.
    destruct (decide (a ∈ new)) as [Hn|Hn]; [left; set_solver|].
    destruct (si_closed _ _ Hi a) as [Hq|Hc]; [tauto| |right; set_solver].
    apply elem_of_cons in Hq as [->|Hq]; [done|left; set_solver].
  - rewrite <- (size_list_to_set (C := gset nat) new Hnd).
    rewrite <- size_union by set_solver. f_equal. apply set_eq. intros x.
    rewrite elem_of_union, !elem_of_difference, elem_of_union, elem_of_list_to_set.
    destruct (decide (x ∈ new)) as [Hx|Hx]; [destruct (Hnew x Hx)|]; tauto.
Qed.

(** The search terminates and [seen] ends as the set of nodes reachable through
    at least one edge. *)
Lemma traverse_ok fuel seen queue :
  search_inv seen queue -> (length queue + size (nodes ∖ seen) <= fuel)%nat ->
  exists seen', traverse next_edges fuel seen queue = Some seen' /\
    forall n, n ∈ seen' <-> reachable n.
Proof using Type nodes_closed.
  revert seen queue. induction fuel as [|fuel IH]; intros seen queue Hi Hf.
  all: destruct queue as [|fn queue]; cbn [traverse].
  1,3: exists seen; split; [done|]; intros n; split; [apply Hi|];
    intros (a & Ha & Hr); assert (Hcl : forall a b, a ∈ seeds \/ a ∈ seen -> edge a b -> b ∈ seen)
      by (intros x y Hx Hxy; destruct (si_closed _ _ Hi x Hx) as [?%elem_of_nil|]; [done|auto]);
    assert (Ha' : a ∈ seeds \/ a ∈ seen) by (by left); clear Ha;
    induction Hr as [x y Hxy|x y z Hxy _ IHr]; [by eapply Hcl|apply IHr; right; by eapply Hcl].
  - cbn in Hf. lia.
  - destruct (search_step seen fn queue Hi) as (new & -> & Hi' & Hs).
    apply IH; [done|]. rewrite length_app. cbn in Hf. lia.
Qed.

Lemma search_init : search_inv ∅ seeds.
Proof. split; [set_solver..|by left|]. intros a [Ha|Ha]; [by left|set_solver]. Qed.
End search.

(** The buckets below [next_bucket_] have all their gradients, that one has not. *)
Lemma pass_front c0 f0 marked s b bk :
  pass_inv c0 f0 marked s -> buckets_ s !! b = Some bk ->
  ((b < next_bucket_ s)%nat -> forall r v, (r < nreps)%nat -> v ∈ variable_indices bk -> (r, v) ∈ marked) /\
  (b = next_bucket_ s -> exists r v, (r < nreps)%nat /\ v ∈ variable_indices bk /\ (r, v) ∉ marked).
Proof.
  intros (_ & _ & Hc) Hb. destruct (ci_next _ _ _ _ Hc) as (_ & N2 & N3).
  assert (Hx : c_counts (control_of s) !! b = Some (counts_of bk))
    by (cbn; by rewrite list_lookup_fmap, Hb).
  destruct (ci_counts _ _ _ _ Hc _ _ Hx) as [_ Hq]. cbn in Hq. split.
  - intros Hlt r v Hr Hv. pose proof (N2 b _ Hx Hlt) as Hz. cbn in Hz. rewrite Hq in Hz.
    destruct (decide ((r, v) ∈ marked)) as [|Hm]; [done|exfalso].
    pose proof (unfinished_ne marked r _ Hr (unmarked_ne marked r v _ Hv Hm)).
    destruct (unfinished marked (variable_indices bk)); [done|]. cbn in Hz. lia.
  - intros ->. pose proof (N3 _ Hx) as Hz. cbn in Hz. rewrite Hq in Hz.
    destruct (unfinished marked (variable_indices bk)) as [|r l] eqn:Eu; [done|].
    assert (r ∈ unfinished marked (variable_indices bk)) as [Hne Hr]%list_elem_of_filter
      by (rewrite Eu; apply list_elem_of_here).
    destruct (unmarked marked r (variable_indices bk)) as [|v l'] eqn:Em; [done|].
    assert (v ∈ unmarked marked r (variable_indices bk)) as [Hm Hv]%list_elem_of_filter
      by (rewrite Em; apply list_elem_of_here).
    exists r, v. apply elem_of_seq in Hr. split_and!; [lia|done|done].
Qed.

(** *** Initialization *)

(** What initialization establishes for the views of a bucket: they are of a
    known storage and of their parameter's type and device. *)
Definition view_ok (n : nat) (r v : nat) (view : option tensor) : Prop :=
  exists rep p w, replicas_ !! r = Some rep /\ rep !! v = Some p /\ view = Some w /\
    (sid w < n)%nat /\ topts w = p_opts p /\ tdev w = p_dev p /\ tsparse w = false.

Definition replica_ok (n : nat) (sparse : bool) (r : nat) (vars : list nat) (rv : list nat * list tensor)
  : Prop :=
  rv.1 = vars /\
  forall i v, vars !! i = Some v ->
    if sparse then exists rep p, replicas_ !! r = Some rep /\ rep !! v = Some p
    else view_ok n r v (rv.2 !! i).

Lemma layout_variables_ok rep vars : forall opts offset offs lens opts' total,
  layout_variables rep vars opts offset = Ret (offs, lens, opts', total) ->
  length offs = length vars /\ length lens = length vars /\
  (forall o, opts = Some o -> opts' = Some o) /\
  (vars <> [] -> exists dev ty, opts' = Some (dev, ty) /\
    Forall (fun v => exists p, rep !! v = Some p /\ p_dev p = dev /\ p_opts p = ty) vars).
Proof.
  induction vars as [|v vars IH]; intros opts offset offs lens opts' total Hl; cbn in Hl.
  { simplify_eq. done. }
  destruct (rep !! v) as [p|] eqn:Hp; [|done].
  set (o := match opts with None => _ | Some _ => _ end) in Hl.
  assert (Ho : forall x, o = Ret x -> x = (p_dev p, p_opts p) /\ forall y, opts = Some y -> y = x).
  { intros x. unfold o. destruct opts as [[dev ty]|]; [|intros; by simplify_eq].
    unfold ocheck. destruct (Z.eqb_spec (p_dev p) dev); [|done].
    destruct (Z.eqb_spec (p_opts p) ty); [|done]. cbn. intros; simplify_eq. split; [done|].
    by intros y [= <-]. }
  destruct o as [x| |]; cbn in Hl; [|done..]. destruct (Ho x eq_refl) as [-> Ho'].
  destruct (layout_variables rep vars _ _) as [[[[offs1 lens1] o1] tot]| |] eqn:Hr; cbn in Hl; [|done..].
  simplify_eq. destruct (IH _ _ _ _ _ _ Hr) as (L1 & L2 & Hk & Hne). cbn. split_and!; [lia..| |].
  - intros y Hy. rewrite (Ho' y Hy). by apply Hk.
  - intros _. exists (p_dev p), (p_opts p). split; [by apply Hk|]. constructor; [by exists p|].
    destruct vars as [|v' vars']; [constructor|]. destruct Hne as (dev & ty & E1 & Hall); [done|].
    rewrite (Hk _ eq_refl) in E1. by simplify_eq.
Qed.

Lemma bucket_views_ok r vars : forall offs lens t m,
  length offs = length vars -> length lens = length vars ->
  (initialize_bucket_views r vars offs lens t m).1 = zip_with (narrow t) offs lens /\
  next_sid (initialize_bucket_views r vars offs lens t m).2 = next_sid m.
Proof.
  induction vars as [|v vars IH]; intros [|o offs] [|l lens] t m H1 H2; try done. cbn in H1, H2 |- *.
  set (m1 := if gradient_as_bucket_view_ then _ else m).
  assert (Hm1 : next_sid m1 = next_sid m).
  { unfold m1, adopt_grad. destruct gradient_as_bucket_view_; [|done].
    destruct (grads m !! (r, v)); [|done]. by destruct (is_alias_of _ _). }
  destruct (IH offs lens t m1) as [I1 I2]; [lia..|].
  destruct (initialize_bucket_views r vars offs lens t m1) as [views m2]. cbn in *.
  by rewrite I1, I2.
Qed.

(** [s'] differs from [s] at most in memory, where storages were added. *)
Definition mem_only (s s' : state) : Prop :=
  exists m, s' = set_mem m s /\ (next_sid (mem s) <= next_sid m)%nat.

Lemma mem_only_refl s : mem_only s s.
Proof. exists (mem s). split; [by destruct s|lia]. Qed.
Lemma mem_only_trans s1 s2 s3 : mem_only s1 s2 -> mem_only s2 s3 -> mem_only s1 s3.
Proof. intros (m1 & -> & ?) (m2 & -> & ?). exists m2. cbn in *. split; [done|lia]. Qed.

Lemma at_Ret {A} (l : list A) i s x s' : at_ l i s = (Ret x, s') -> l !! i = Some x /\ s' = s.
Proof. unfold at_, lift. destruct (l !! i); intros; by simplify_eq. Qed.

Lemma make_replica_ok sparse r vars s rep s' :
  vars <> [] -> make_replica sparse r vars s = (Ret rep, s') ->
  mem_only s s' /\
  replica_ok (next_sid (mem s')) sparse r vars (variables rep, bucket_views_in rep).
Proof.
  intros Hne Hm. unfold make_replica in Hm.
  apply bind_Ret_inv in Hm as (ps & s1 & [Hps ->]%at_Ret & Hm). destruct sparse.
  - apply bind_Ret_inv in Hm as (v & s1 & [Hv ->]%at_Ret & Hm).
    apply bind_Ret_inv in Hm as (p & s1 & [Hp ->]%at_Ret & Hm).
    apply bind_Ret_inv in Hm as ([] & s1 & [Hl%Nat.eqb_eq ->]%assert_Ret_inv & Hm).
    cbv [ret] in Hm. simplify_eq. split; [apply mem_only_refl|].
    destruct vars as [|v' [|]]; try done. cbn in Hv. simplify_eq.
    split; [done|]. intros i w Hw. cbn. destruct i; cbn in Hw; [|done]. simplify_eq. eauto.
  - apply bind_Ret_inv in Hm as ([[[offs lens] opts] total] & s1 & [Hl ->]%lift_Ret_inv & Hm).
    destruct (layout_variables_ok _ _ _ _ _ _ _ _ Hl) as (L1 & L2 & _ & Hall).
    destruct (Hall Hne) as (dev & ty & -> & Hvs). cbn [default from_option id] in Hm.
    set (t := (alloc (replicate total zero) (T 0 0 0 ty dev 0 false) 0 (mem s)).1) in *.
    set (m := (alloc (replicate total zero) (T 0 0 0 ty dev 0 false) 0 (mem s)).2) in *.
    change (alloc (replicate total zero) (T 0 0 0 ty dev 0 false) 0 (mem s)) with (t, m) in Hm.
    destruct (bucket_views_ok r vars offs lens t m L1 L2) as [V1 V2].
    cbv beta iota in Hm.
    destruct (initialize_bucket_views r vars offs lens t m) as [views m2] eqn:Ev. cbn in V1, V2.
    injection Hm as <- <-. subst views. split; [exists m2; split; [done|]; rewrite V2; cbn; lia|].
    split; [done|]. cbn. intros i v Hv. rewrite Forall_lookup in Hvs.
    destruct (Hvs i v Hv) as (p & Hp & Hd & Ho). pose proof (lookup_lt_Some _ _ _ Hv).
    destruct (lookup_lt_is_Some_2 offs i ltac:(lia)) as [o Hoi].
    destruct (lookup_lt_is_Some_2 lens i ltac:(lia)) as [l Hli].
    exists ps, p, (narrow t o l). rewrite lookup_zip_with, Hoi, Hli. split_and!; try done.
    rewrite V2. cbn. lia.
Qed.

Lemma replica_ok_mono n n' sparse r vars rv :
  (n <= n')%nat -> replica_ok n sparse r vars rv -> replica_ok n' sparse r vars rv.
Proof.
  intros Hn [H1 H2]. split; [done|]. intros i v Hv. specialize (H2 i v Hv). destruct sparse; [done|].
  destruct H2 as (rep & p & w & ? & ? & ? & ? & ?). exists rep, p, w. split_and!; try tauto. lia.
Qed.

Lemma make_replicas_ok sparse n : forall r vars s reps s',
  vars <> [] -> make_replicas sparse r n vars s = (Ret reps, s') ->
  mem_only s s' /\ length reps = n /\
  forall j rep, reps !! j = Some rep ->
    replica_ok (next_sid (mem s')) sparse (r + j) vars (variables rep, bucket_views_in rep).
Proof.
  induction n as [|n IH]; intros r vars s reps s' Hne Hm; cbn in Hm.
  { cbv [ret] in Hm. simplify_eq. split_and!; [apply mem_only_refl|done|by intros []]. }
  apply bind_Ret_inv in Hm as (rep & s1 & H1 & Hm).
  apply bind_Ret_inv in Hm as (rest & s2 & H2 & Hm). cbv [ret] in Hm. simplify_eq.
  destruct (make_replica_ok _ _ _ _ _ _ Hne H1) as [M1 R1].
  destruct (IH _ _ _ _ _ Hne H2) as (M2 & Hl & R2). assert (Hn : (next_sid (mem s1) <= next_sid (mem s'))%nat) by (destruct M2 as (m & -> & Hn); exact Hn).
  split_and!; [by eapply mem_only_trans|cbn; lia|].
  intros [|j] x Hx; cbn in Hx; simplify_eq.
  - rewrite Nat.add_0_r. by eapply replica_ok_mono.
  - rewrite Nat.add_succ_r. by apply (R2 j).
Qed.

Lemma for_each_pure {A} (l : list A) (f : A -> M state unit) :
  (forall a s s', a ∈ l -> f a s = (Ret tt, s') -> s' = s) ->
  forall s s', for_each l f s = (Ret tt, s') -> s' = s.
Proof.
  induction l as [|a l IH]; intros Hf s s' Hl; cbn in Hl; [cbv [ret] in Hl; by simplify_eq|].
  apply bind_Ret_inv in Hl as ([] & s1 & H1 & H2).
  apply Hf in H1; [|apply list_elem_of_here]. subst s1. eapply IH; [|exact H2].
  intros b s1 s2 Hb. apply Hf. by apply list_elem_of_further.
Qed.

Lemma bucket_is_sparse_pure vars s sp s' : bucket_is_sparse vars s = (Ret sp, s') -> s' = s.
Proof.
  assert (Hsp : forall v s sp s', sparse_of v s = (Ret sp, s') -> s' = s).
  { intros v s0 sp0 s1 Hv. unfold sparse_of in Hv.
    apply bind_Ret_inv in Hv as (row & s2 & [_ ->]%at_Ret & [_ ->]%at_Ret). done. }
  unfold bucket_is_sparse. intros Hb.
  assert (Hgen : forall l, (do! for_each l (fun v => let! sp := sparse_of v in
      assert_ (negb sp) (CheckFailed "Buckets with more than one variable cannot include variables that expect a sparse gradient.")) in
      ret false) s = (Ret sp, s') -> s' = s).
  { intros l Hl. apply bind_Ret_inv in Hl as ([] & s1 & H1 & H2). cbv [ret] in H2. simplify_eq.
    eapply for_each_pure; [|exact H1]. intros v s0 s2 _ Hv.
    apply bind_Ret_inv in Hv as (x & s3 & ->%Hsp & [_ ->]%assert_Ret_inv). done. }
  destruct vars as [|v [|v' vars]]; [by apply (Hgen [])|by eapply Hsp|by apply (Hgen (v :: v' :: vars))].
Qed.

Lemma locate_ok b vars : forall intra s s',
  NoDup vars -> locate b intra vars s = (Ret tt, s') ->
  exists locs, s' = set_locators locs s /\ length locs = length (variable_locators_ s) /\
    (forall i v, vars !! i = Some v -> locs !! v = Some (b, (intra + i)%nat)) /\
    (forall v, v ∉ vars -> locs !! v = variable_locators_ s !! v).
Proof.
  induction vars as [|v vars IH]; intros intra s s' Hnd Hl; cbn [locate] in Hl.
  { cbv [ret] in Hl. simplify_eq. exists (variable_locators_ s'). split_and!; try done. by destruct s'. }
  apply NoDup_cons in Hnd as [Hv Hnd].
  apply bind_Ret_inv in Hl as (n & s1 & Hg & Hl). cbv [gets] in Hg. simplify_eq.
  apply bind_Ret_inv in Hl as ([] & s2 & [Hlt%Nat.ltb_lt ->]%assert_Ret_inv & Hl).
  apply bind_Ret_inv in Hl as ([] & s2 & Hm & Hl). cbv [modify] in Hm. simplify_eq.
  destruct (IH _ _ _ Hnd Hl) as (locs & -> & H1 & H2 & H3). cbn in H1, H3. rewrite length_insert in H1.
  exists locs. split_and!; [done|done| |].
  - intros [|i] w Hw; cbn in Hw; simplify_eq.
    + rewrite H3 by done. rewrite list_lookup_insert_eq by done. by rewrite Nat.add_0_r.
    + rewrite (H2 i w Hw). do 2 f_equal. lia.
  - intros w [Hne Hw]%not_elem_of_cons. rewrite H3 by done. by rewrite list_lookup_insert_ne.
Qed.

(** The buckets built so far. *)
Record built (n : nat) (done : list (list nat)) (s : state) : Prop := {
  bu_len : length (buckets_ s) = length done;
  bu_locs_len : length (variable_locators_ s) = n;
  bu_bucket : forall j bk, buckets_ s !! j = Some bk ->
    done !! j = Some (variable_indices bk) /\ variable_indices bk <> [] /\
    length (b_replicas bk) = nreps /\
    forall r rep, b_replicas bk !! r = Some rep ->
      replica_ok (next_sid (mem s)) (expect_sparse_gradient bk) r (variable_indices bk)
        (variables rep, bucket_views_in rep);
  bu_locs : forall j vs i v, done !! j = Some vs -> vs !! i = Some v ->
    variable_locators_ s !! v = Some (j, i);
}.

Lemma make_buckets_ok n rest : forall done s s',
  NoDup (concat (done ++ rest)) -> built n done s ->
  make_buckets (length done) rest s = (Ret tt, s') ->
  built n (done ++ rest) s' /\ colls s' = colls s /\ finalizers s' = finalizers s /\
  forward_work s' = forward_work s.
Proof.
  induction rest as [|vars rest IH]; intros done s s' Hnd Hb Hm; cbn [make_buckets] in Hm.
  { cbv [ret] in Hm. simplify_eq. by rewrite app_nil_r. }
  apply bind_Ret_inv in Hm as ([] & s1 & [Hne%Nat.ltb_lt ->]%assert_Ret_inv & Hm).
  apply bind_Ret_inv in Hm as (sparse & s1 & ->%bucket_is_sparse_pure & Hm).
  apply bind_Ret_inv in Hm as (reps & s1 & Hr & Hm).
  apply bind_Ret_inv in Hm as ([] & s2 & Hl & Hm).
  apply bind_Ret_inv in Hm as ([] & s3 & Hadd & Hm). cbv [modify] in Hadd. injection Hadd as <-.
  assert (Hvne : vars <> []) by (by intros ->; cbn in Hne; lia).
  change (done ++ vars :: rest) with (done ++ [vars] ++ rest) in *. rewrite app_assoc in *.
  destruct (make_replicas_ok _ _ _ _ _ _ _ Hvne Hr) as ((m & -> & Hn) & Hlr & Hrep).
  assert (Hndv : NoDup vars /\ forall j vs v, done !! j = Some vs -> v ∈ vs -> v ∉ vars).
  { rewrite !concat_app in Hnd. cbn in Hnd. rewrite app_nil_r in Hnd.
    apply NoDup_app in Hnd as (Hnd & _ & _). apply NoDup_app in Hnd as (_ & Hdis & Hndv).
    split; [done|]. intros j vs v Hj Hv Hin. apply (Hdis v); [|done].
    apply list_elem_of_In, in_concat. exists vs. split; apply list_elem_of_In; [|done].
    by eapply list_elem_of_lookup_2. }
  destruct Hndv as [Hndv Hdis].
  destruct (locate_ok _ _ _ _ _ Hndv Hl) as (locs & -> & L1 & L2 & L3). cbn in L1, L3.
  destruct (IH (done ++ [vars])
    (set_buckets (buckets_ s ++ [mkBucket reps vars 0 None None sparse]) (set_locators locs (set_mem m s))) s' Hnd)
    as (B & C & F & W); [| |done].
  2:{ rewrite length_app. cbn. rewrite Nat.add_1_r. exact Hm. }
  split; cbn [buckets_ variable_locators_ mem set_buckets set_locators set_mem].
  - rewrite !length_app, (bu_len _ _ _ Hb). done.
  - rewrite L1. apply Hb.
  - intros j bk Hj. apply lookup_app_Some in Hj as [Hj|[Hge Hj]].
    + destruct (bu_bucket _ _ _ Hb j bk Hj) as (H1 & H2 & H3 & H4). split_and!; try done.
      * by apply lookup_app_l_Some.
      * intros r rep Hrr. eapply replica_ok_mono; [exact Hn|]. by apply H4.
    + apply list_lookup_singleton_Some in Hj as [Hz <-]. cbn.
      rewrite (bu_len _ _ _ Hb) in Hge, Hz. split_and!; try done.
      * rewrite lookup_app_r by lia. by rewrite Hz.
  - intros j vs i v Hj Hv. apply lookup_app_Some in Hj as [Hj|[Hge Hj]].
    + rewrite L3; [by apply (bu_locs _ _ _ Hb j vs)|].
      eapply Hdis; [exact Hj|]. by eapply list_elem_of_lookup_2.
    + apply list_lookup_singleton_Some in Hj as [Hz <-].
      rewrite (L2 i v Hv). by replace j with (length done) by lia.
Qed.

(** The gradients at the time of a pass: of their parameter's type, in storages
    of their own unless gradients live in the buckets, and sparse where a sparse
    gradient is expected. *)
Definition grads_ok (s : state) : Prop :=
  forall b k r rv i v rep p, skels s !! b = Some k -> k_reps k !! r = Some rv -> rv.1 !! i = Some v ->
    replicas_ !! r = Some rep -> rep !! v = Some p ->
    if k_sparse k then exists g, grads (mem s) !! (r, v) = Some g /\ tsparse g = true
    else match grads (mem s) !! (r, v) with
         | None => True
         | Some g => topts g = p_opts p /\ tdev g = p_dev p /\ tsparse g = false /\
             (gradient_as_bucket_view_ = true \/ forall w, rv.2 !! i = Some w -> sid g <> sid w)
         end.

(** The buckets of a partition of the variables hold each variable once. *)
Lemma partition_bucket n (bi : list (list nat)) j vs :
  concat bi ≡ₚ seq 0 n -> bi !! j = Some vs -> NoDup vs /\ (length vs <= n)%nat.
Proof.
  intros Hp Hj. assert (Hnd : NoDup (concat bi)) by (rewrite Hp; apply NoDup_seq).
  apply list_elem_of_lookup_2 in Hj. apply list_elem_of_split in Hj as (l1 & l2 & ->).
  rewrite concat_app in Hnd, Hp. cbn in Hnd, Hp.
  apply NoDup_app in Hnd as (_ & _ & Hnd). apply NoDup_app in Hnd as (Hnd & _ & _). split; [done|].
  apply Permutation_length in Hp. rewrite !length_app, length_seq in Hp. lia.
Qed.

Lemma partition_find n (bi : list (list nat)) v :
  concat bi ≡ₚ seq 0 n -> (v < n)%nat ->
  exists j vs i, bi !! j = Some vs /\ vs !! i = Some v.
Proof.
  intros Hp Hv. assert (v ∈ concat bi) as Hvc by (rewrite Hp; apply elem_of_seq; lia).
  apply list_elem_of_In, in_concat in Hvc as (vs & Hvs & Hvin). apply list_elem_of_In in Hvs, Hvin.
  apply list_elem_of_lookup_1 in Hvs as [j Hj]. apply list_elem_of_lookup_1 in Hvin as [i Hi]. eauto.
Qed.

Lemma built_skel n bi s j k :
  built n bi s -> skels s !! j = Some k ->
  exists bk, buckets_ s !! j = Some bk /\ k = skel bk /\ bi !! j = Some (variable_indices bk).
Proof.
  intros Hb Hk. destruct (skels_lookup s j k Hk) as (bk & Hbk & ->). exists bk.
  split_and!; [done..|]. by apply (bu_bucket _ _ _ Hb).
Qed.

Lemma built_wf n bi s :
  built n bi s -> concat bi ≡ₚ seq 0 n ->
  Z.of_nat n < 2 ^ 63 -> Z.of_nat nreps < 2 ^ 63 -> wf (skels s) (variable_locators_ s).
Proof.
  intros Hb Hp Hn Hr. split.
  - intros v b i Hv. assert (Hvn : (v < n)%nat).
    { rewrite <- (bu_locs_len _ _ _ Hb). by eapply lookup_lt_Some. }
    destruct (partition_find n bi v Hp Hvn) as (j & vs & i' & Hj & Hi').
    rewrite (bu_locs _ _ _ Hb j vs i' v Hj Hi') in Hv. simplify_eq.
    assert (exists bk, buckets_ s !! b = Some bk) as [bk Hbk].
    { apply lookup_lt_is_Some_2. rewrite (bu_len _ _ _ Hb). by eapply lookup_lt_Some. }
    exists (skel bk). unfold skels. rewrite list_lookup_fmap, Hbk. split; [done|]. cbn.
    destruct (bu_bucket _ _ _ Hb b bk Hbk) as (E1 & _). congruence.
  - intros b k Hk. destruct (built_skel n bi s b k Hb Hk) as (bk & Hbk & -> & Hbi).
    destruct (bu_bucket _ _ _ Hb b bk Hbk) as (_ & H2 & H3 & H4). cbn. split_and!.
    + by eapply partition_bucket.
    + done.
    + by rewrite length_map.
    + apply Forall_lookup. intros r rv Hrv. rewrite list_lookup_fmap in Hrv.
      destruct (b_replicas bk !! r) as [rep|] eqn:Hrep; simplify_eq/=. by apply (H4 r rep).
  - intros b k v Hk Hv. destruct (built_skel n bi s b k Hb Hk) as (bk & Hbk & -> & Hbi). cbn in Hv.
    apply list_elem_of_lookup_1 in Hv as [i Hi]. exists i. by eapply (bu_locs _ _ _ Hb).
  - split; [done|]. intros b k Hk. destruct (built_skel n bi s b k Hb Hk) as (bk & Hbk & -> & Hbi). cbn.
    destruct (partition_bucket n bi b _ Hp Hbi). lia.
Qed.

Lemma built_data_ok n bi s : built n bi s -> grads_ok s -> data_ok (skels s) (mem s).
Proof.
  intros Hb Hg b k r rv i v Hk Hrv Hv. destruct (built_skel n bi s b k Hb Hk) as (bk & Hbk & -> & Hbi).
  destruct (bu_bucket _ _ _ Hb b bk Hbk) as (_ & _ & _ & H4).
  pose proof Hrv as Hrv'. cbn in Hrv'. rewrite list_lookup_fmap in Hrv'.
  destruct (b_replicas bk !! r) as [rep|] eqn:Hrep; simplify_eq/=.
  destruct (H4 r rep Hrep) as [Hvars Hviews]. cbn in Hvars, Hviews. rewrite Hvars in Hv.
  specialize (Hviews i v Hv). unfold grad_fits. cbn.
  pose proof (fun ps p => Hg b (skel bk) r _ i v ps p Hk Hrv) as Hgr. cbn in Hgr. rewrite Hvars in Hgr.
  destruct (expect_sparse_gradient bk).
  - destruct Hviews as (ps & p & Hps & Hpv). split; [eauto|]. by apply (Hgr ps p).
  - destruct Hviews as (ps & p & w & Hps & Hpv & Hw & Hsid & Ht & Hd & Hs). split; [eauto|].
    exists w. split_and!; [done..|]. specialize (Hgr ps p Hv Hps Hpv).
    destruct (grads (mem s) !! (r, v)) as [g|]; [|done]. destruct Hgr as (G1 & G2 & G3 & G4).
    apply check_grad_layout_Ret. rewrite type_equal_eq. split_and!; [congruence..|].
    destruct G4 as [|G4]; [by left|right; auto].
Qed.

Lemma built_ready n bi s :
  built n bi s -> concat bi ≡ₚ seq 0 n -> bi <> [] ->
  Z.of_nat n < 2 ^ 63 -> (0 < nreps)%nat -> Z.of_nat nreps < 2 ^ 63 ->
  grads_ok s ->
  match forward_work s with Some (result, false) => exists d, result = Ret d | _ => True end ->
  ready_state s.
Proof.
  intros Hb Hp Hne Hn Hr0 Hr Hg Hf.
  split; [by eapply built_wf|split; [by eapply built_data_ok|split_and!; [done| |done]]].
  intros Hz. apply (f_equal length) in Hz. rewrite (bu_len _ _ _ Hb) in Hz. by destruct bi.
Qed.

Lemma initialize_ok bi s s' rep0 :
  replicas_ !! 0%nat = Some rep0 -> NoDup (concat bi) ->
  initialize_buckets bi s = (Ret tt, s') -> built (length rep0) bi s'.
Proof.
  intros H0 Hnd Hi. unfold initialize_buckets in Hi.
  apply bind_Ret_inv in Hi as (e & s1 & Hg & Hi). cbv [gets] in Hg. simplify_eq.
  apply bind_Ret_inv in Hi as ([] & s2 & [_ ->]%assert_Ret_inv & Hi).
  apply bind_Ret_inv in Hi as (r0 & s2 & [Hr ->]%at_Ret & Hi). simplify_eq.
  apply bind_Ret_inv in Hi as ([] & s2 & Hm & Hi). cbv [modify] in Hm. injection Hm as <-.
  apply (make_buckets_ok (length rep0) bi []) in Hi as [Hb _]; [done|done|].
  split; cbn; [done|by rewrite length_replicate|by intros []|by intros []].
Qed.
(** The result of the search, as the list that is stored. *)
Lemma prepare_unused (iter : list VariableIndex -> list VariableIndex)
    (next_edges : nat -> list (option nat)) (nodes : gset nat) (fuel : nat)
    (outputs : list (option nat)) (s : state) :
  find_unused_parameters_ = true -> (forall l, iter l ≡ₚ l) ->
  (forall a b, Some b ∈ next_edges a -> b ∈ nodes) ->
  (length outputs + size nodes <= fuel)%nat ->
  exists u, prepare_for_backward iter next_edges fuel outputs s =
      (Ret tt, set_unused u (set_unused [] (set_marked false
         (set_buckets (map reset_pending (buckets_ s)) (set_next 0 (set_expect true s)))))) /\
    (NoDup all_variables -> NoDup u) /\
    forall i, i ∈ u <->
      i ∈ all_variables /\ exists a, acc_of i = Some a /\
        ~ exists root, Some root ∈ outputs /\ tc (edge next_edges) root a.
Proof.
  intros Hu Hit Hn Hf. unfold prepare_for_backward. rewrite Hu. cbn [negb].
  set (seeds := rev (omap id outputs)).
  assert (Hseed : forall x, x ∈ seeds <-> Some x ∈ outputs).
  { intros x. unfold seeds. rewrite <- (Permutation_rev (omap id outputs)).
    rewrite list_elem_of_omap. split; [intros (y & Hy & Hx); unfold id in Hx; by subst|].
    intros Hx. by exists (Some x). }
  assert (Hlen : (length seeds <= length outputs)%nat).
  { unfold seeds. rewrite length_rev. clear. induction outputs as [|[o|] l IH]; cbn in *; lia. }
  assert (Hsz : nodes ∖ ∅ = nodes) by set_solver.
  destruct (traverse_ok next_edges nodes seeds Hn fuel ∅ seeds) as (seen & Etr & Hs);
    [by apply search_init|rewrite Hsz; lia|].
  rewrite Etr. eexists. split; [done|]. unfold find_unused.
  split; [intros Hnd; rewrite Hit; apply NoDup_ListNoDup, List.NoDup_filter, NoDup_ListNoDup, Hnd|]. intros i. rewrite Hit, !list_elem_of_In, filter_In, <- list_elem_of_In.
  apply and_iff_compat_l. destruct (acc_of i) as [a|]; [|by split; [|intros (? & [=] & _)]].
  rewrite bool_decide_eq_true, Hs. unfold reachable. setoid_rewrite Hseed. split.
  - intros H. eauto.
  - by intros (? & [= <-] & H).
Qed.

Lemma acc_of_all i : i ∈ all_variables -> acc_of i <> None.
Proof.
  unfold all_variables. intros Hi%list_elem_of_In%in_concat. destruct Hi as (l & Hl & Hi).
  apply list_elem_of_In in Hl, Hi. apply elem_of_lookup_imap in Hl as (r & rep & -> & Hr).
  apply list_elem_of_fmap in Hi as (v & -> & Hv). apply elem_of_seq in Hv.
  unfold acc_of. cbn. rewrite Hr. cbn. destruct (lookup_lt_is_Some_2 rep v ltac:(lia)) as [p ->]. done.
Qed.

Lemma NoDup_all_variables : NoDup all_variables.
Proof.
  unfold all_variables.
  assert (H : forall n (l : list (list param)), NoDup (concat (imap (fun r rep => map (pair (n + r)%nat) (seq 0 (length rep))) l)) /\
    forall i, i ∈ concat (imap (fun r rep => map (pair (n + r)%nat) (seq 0 (length rep))) l) -> (n <= i.1)%nat).
  { intros n l. revert n. induction l as [|rep l IH]; intros n; cbn.
    { split; [constructor|by intros i ?%elem_of_nil]. }
    destruct (IH (S n)) as [I1 I2].
    assert (Hx : forall (A B : Type) (f g : nat -> A -> B) (l : list A), (forall i x, f i x = g i x) -> imap f l = imap g l)
      by (intros; apply imap_ext; auto).
    rewrite (Hx _ _ ((fun r rep => map (pair (n + r)%nat) (seq 0 (length rep))) ∘ S)
      (fun r rep => map (pair (S n + r)%nat) (seq 0 (length rep))))
      by (intros i x; cbn; by rewrite Nat.add_succ_r).
    rewrite Nat.add_0_r. split.
    - apply NoDup_app. split_and!; [|intros i Hi Hi'|done].
      + apply NoDup_fmap_2; [intros ? ? [=]; done|apply NoDup_seq].
      + apply list_elem_of_fmap in Hi as (v & -> & _). specialize (I2 _ Hi'). cbn in I2. lia.
    - intros i [Hi|Hi]%elem_of_app; [|specialize (I2 i Hi); lia].
      apply list_elem_of_fmap in Hi as (v & -> & _). cbn. lia. }
  apply (H 0%nat replicas_).
Qed.

(** ** Properties *)

(** [prepare_for_backward] with [find_unused_parameters] ends, for every
    graph whose nodes are finitely many, cyclic or not, and records as unused
    exactly the parameters whose gradient accumulator cannot be reached from
    the outputs. *)
Theorem reducer_finds_unused (iter : list VariableIndex -> list VariableIndex)
    (next_edges : nat -> list (option nat)) (nodes : gset nat) (fuel : nat)
    (outputs : list (option nat)) (s : state) :
  find_unused_parameters_ = true -> (forall l, iter l ≡ₚ l) ->
  (forall a b, Some b ∈ next_edges a -> b ∈ nodes) ->
  (length outputs + size nodes <= fuel)%nat ->
  exists s', prepare_for_backward iter next_edges fuel outputs s = (Ret tt, s') /\
    forall i, i ∈ unused_parameters_ s' <->
      i ∈ all_variables /\ exists a, acc_of i = Some a /\
        ~ exists root, Some root ∈ outputs /\ tc (edge next_edges) root a.
Proof.
  intros Hu Hit Hn Hf.
  destruct (prepare_unused iter next_edges nodes fuel outputs s Hu Hit Hn Hf) as (u & Ep & _ & Hun).
  eexists. split; [exact Ep|exact Hun].
Qed.

(** C1: in a backward pass the hooks may fire in any order, over any number of
    replicas.  As long as no parameter fires twice, every hook returns, and at
    every moment the bucket reductions that were started are those of buckets
    0, 1, ..., in this order and once each, up to the first bucket that still
    lacks a gradient; so all ranks issue the same sequence of collectives.
    When every parameter has fired, all buckets were started and exactly one
    finalizer was queued. *)
Theorem reducer_pass_in_order (iter : list VariableIndex -> list VariableIndex)
    (next_edges : nat -> list (option nat)) (fuel : nat) (outputs : list (option nat))
    (order : list VariableIndex) (s : state) :
  find_unused_parameters_ = false -> ready_state s ->
  NoDup order -> Forall (valid s) order ->
  exists s', (do! prepare_for_backward iter next_edges fuel outputs in for_each order autograd_hook) s
      = (Ret tt, s') /\
    length (buckets_ s') = length (buckets_ s) /\
    colls s' = colls s ++ map CBucket (seq 0 (next_bucket_ s')) /\
    (forall b bk, buckets_ s' !! b = Some bk ->
       ((b < next_bucket_ s')%nat -> forall r v, (r < nreps)%nat -> v ∈ variable_indices bk -> (r, v) ∈ order) /\
       (b = next_bucket_ s' -> exists r v, (r < nreps)%nat /\ v ∈ variable_indices bk /\ (r, v) ∉ order)) /\
    ((forall i, valid s i -> i ∈ order) ->
       next_bucket_ s' = length (buckets_ s) /\ finalizers s' = S (finalizers s)).
Proof.
  intros Hu Hrd Hnd Hv. unfold bind, prepare_for_backward. rewrite Hu. cbn [negb].
  pose proof (prepare_inv s [] Hrd) as Hi. set (s0 := set_unused _ _) in *.
  destruct (hooks_ok (colls s) (finalizers s) order [] s0 Hi) as (s' & Etr & Hi' & F & L & K);
    [done|done| |done|by left|].
  { intros i _. apply not_elem_of_nil. }
  rewrite app_nil_r in Hi'.
  apply (pass_inv_marked _ _ (rev order) order) in Hi'.
  2:{ intros i. by rewrite <- (Permutation_rev order). }
  pose proof Hi' as (Hwf & Hd & Hc).
  assert (Hlen : length (buckets_ s') = length (buckets_ s)).
  { apply (f_equal length) in K. unfold skels in K. cbn in K. by rewrite !length_map in K. }
  exists s'. split_and!; [done|done| | |].
  - etrans; [exact (ci_colls _ _ _ _ Hc)|]. unfold started. by rewrite Hu, andb_false_r, app_nil_r.
  - intros b bk Hb. by apply (pass_front (colls s) (finalizers s)).
  - intros Hall. destruct (pass_complete _ _ _ _ Hi') as (H1 & _ & H3); [|by rewrite H1].
    intros i [Hi1 Hi2]. apply Hall. split; [done|]. by rewrite L in Hi2.
Qed.

Lemma first_hook_ok c0 f0 (u : list VariableIndex) (i0 : VariableIndex) (s0 : state) :
  find_unused_parameters_ = true -> pass_inv c0 f0 [] s0 ->
  unused_parameters_ s0 = u -> expect_autograd_hooks_ s0 = true ->
  has_marked_unused_parameters_ s0 = false ->
  Forall (valid s0) u -> NoDup u -> valid s0 i0 -> i0 ∉ u ->
  exists s1, autograd_hook i0 s0 = (Ret tt, s1) /\ pass_inv c0 f0 (i0 :: rev u ++ []) s1 /\
    expect_autograd_hooks_ s1 = true /\ has_marked_unused_parameters_ s1 = true /\
    variable_locators_ s1 = variable_locators_ s0 /\ skels s1 = skels s0.
Proof.
  intros Hu Hi Hun Hex Hmk Hvu Hndu Hv Hnin.
  unfold autograd_hook. rewrite Hu. unfold bind, modify, gets. cbv beta.
  set (s0' := set_used _ s0). change (expect_autograd_hooks_ s0') with (expect_autograd_hooks_ s0).
  rewrite Hex. cbn [negb]. cbv beta.
  assert (Hpr : push_rebuilt_params i0 s0' = s0')
    by (unfold push_rebuilt_params, should_rebuild_buckets; by rewrite Hu).
  rewrite Hpr. change (has_marked_unused_parameters_ s0') with (has_marked_unused_parameters_ s0).
  rewrite Hmk. cbn [negb andb]. cbv beta.
  change (unused_parameters_ (set_marked true s0')) with (unused_parameters_ s0). rewrite Hun.
  destruct (marks_ok c0 f0 u [] (set_marked true s0')) as (s2 & E2 & Hi2 & F2 & L2 & K2).
  { exact Hi. } { exact Hvu. } { done. } { intros i _. apply not_elem_of_nil. }
  rewrite E2. unfold flags in F2. injection F2 as A2 B2 _.
  destruct (mark_ok c0 f0 (rev u ++ []) s2 i0 Hi2) as (s3 & E3 & Hi3 & F3 & L3 & K3).
  { unfold valid. by rewrite L2. }
  { by rewrite app_nil_r, <- (Permutation_rev u). }
  unfold flags in F3. injection F3 as A3 B3 _.
  exists s3. split_and!; [done|done|by rewrite A3, A2|by rewrite B3, B2|by rewrite L3, L2|by rewrite K3, K2].
Qed.

(** C2: with [find_unused_parameters] the first hook that fires also marks the
    parameters that got no gradient; when the parameters reachable from the
    outputs have fired, in any order, every bucket reduction has been started in
    bucket order, then the reduction of the used maps, and one finalizer is
    queued. *)
Theorem reducer_pass_unused (iter : list VariableIndex -> list VariableIndex)
    (next_edges : nat -> list (option nat)) (nodes : gset nat) (fuel : nat)
    (outputs : list (option nat)) (order : list VariableIndex) (s : state) :
  find_unused_parameters_ = true -> (forall l, iter l ≡ₚ l) ->
  (forall a b, Some b ∈ next_edges a -> b ∈ nodes) ->
  (length outputs + size nodes <= fuel)%nat ->
  ready_state s -> (forall i, valid s i <-> i ∈ all_variables) ->
  order <> [] -> NoDup order ->
  (forall i, i ∈ order <-> i ∈ all_variables /\ exists a, acc_of i = Some a /\
     exists root, Some root ∈ outputs /\ tc (edge next_edges) root a) ->
  exists s', (do! prepare_for_backward iter next_edges fuel outputs in for_each order autograd_hook) s
      = (Ret tt, s') /\
    colls s' = colls s ++ map CBucket (seq 0 (length (buckets_ s))) ++ [CUsedMaps] /\
    finalizers s' = S (finalizers s).
Proof.
  intros Hu Hit Hn Hf Hrd Hval Hne Hnd Hord.
  destruct (prepare_unused iter next_edges nodes fuel outputs s Hu Hit Hn Hf) as (u & Ep & Hndu & Hun).
  specialize (Hndu NoDup_all_variables). unfold bind at 1. rewrite Ep.
  pose proof (prepare_inv s u Hrd) as Hi. set (s0 := set_unused u (set_unused [] _)).
  change (set_unused u (set_marked false _)) with s0 in Hi.
  destruct order as [|i0 order]; [done|]. cbn [for_each].
  assert (Hvs0 : forall i, valid s0 i <-> i ∈ all_variables) by exact Hval.
  assert (Hdis : forall i, i ∈ i0 :: order -> i ∉ u).
  { intros i Hio Hiu. apply Hord in Hio as (_ & a & Ha & Hr). apply Hun in Hiu as (_ & a' & Ha' & Hnr).
    rewrite Ha in Ha'. injection Ha' as <-. by apply Hnr. }
  destruct (first_hook_ok (colls s) (finalizers s) u i0 s0) as (s1 & E1 & Hi1 & A1 & B1 & L1 & K1); try done.
  { apply Forall_forall. intros i Hiu. apply Hval. by apply Hun. }
  { apply Hval. apply (Hord i0), list_elem_of_here. }
  { apply Hdis, list_elem_of_here. }
  unfold bind at 1. rewrite E1.
  apply NoDup_cons in Hnd as [Hni Hnd].
  destruct (hooks_ok (colls s) (finalizers s) order (i0 :: rev u ++ []) s1 Hi1) as (s2 & E2 & Hi2 & _ & L2 & K2).
  { apply Forall_forall. intros i Hio. unfold valid. rewrite L1. apply Hval, Hord. by apply list_elem_of_further. }
  { done. }
  { intros i Hio. rewrite app_nil_r, not_elem_of_cons, <- (Permutation_rev u). split; [by intros ->|].
    apply Hdis. by apply list_elem_of_further. }
  { done. } { by right. }
  exists s2. split; [done|].
  destruct (pass_complete _ _ _ _ Hi2) as (H1 & H2 & H3).
  - intros i Hv. unfold valid in Hv. rewrite L2, L1 in Hv. apply Hval in Hv.
    rewrite elem_of_app, elem_of_cons, app_nil_r, <- (Permutation_rev u), <- (Permutation_rev order).
    destruct (decide (i ∈ i0 :: order)) as [Hin|Hin]; [apply elem_of_cons in Hin; tauto|].
    right. right. apply Hun. split; [done|]. destruct (acc_of i) as [a|] eqn:Ha.
    + exists a. split; [done|]. intros Hr. apply Hin, Hord. eauto.
    + exfalso. by apply (acc_of_all i).
  - split; [|done]. rewrite H2, Hu.
    assert (length (buckets_ s2) = length (buckets_ s)) as ->; [|done].
    rewrite <- (length_map skel (buckets_ s2)). fold (skels s2). rewrite K2, K1. unfold skels. cbn.
    by rewrite !length_map.
Qed.

(** A parameter that is marked again when its bucket replica has nothing
    pending is refused with an error, whichever parameter of the bucket it is;
    nothing is started and no counter wraps around. *)
Theorem reducer_double_mark_refused (c0 : list coll) (f0 : nat) (marked : list VariableIndex)
    (s : state) (r v b i : nat) (bk : Bucket) :
  pass_inv c0 f0 marked s -> valid s (r, v) -> variable_locators_ s !! v = Some (b, i) ->
  buckets_ s !! b = Some bk -> (forall w, w ∈ variable_indices bk -> (r, w) ∈ marked) ->
  mark_variable_ready (r, v) s =
    (Throw (CheckFailed "Expected to mark a variable ready only once. "), set_require true s).
Proof.
  intros (Hwf & _ & Hc) [Hr Hv] Hloc Hb Hall. cbn in Hr, Hv.
  destruct (located s r v Hwf Hr Hv) as (b' & i' & bk' & rep & Hloc' & Hb' & Hrep & _). simplify_eq.
  unfold mark_variable_ready, bind, assert_, lift, modify. cbn [fst snd].
  destruct (Nat.ltb_spec r (length replicas_)) as [_|]; [|unfold nreps in Hr; lia]. cbn [ocheck].
  destruct (Nat.ltb_spec v (length (variable_locators_ s))) as [_|]; [|lia]. cbn [ocheck].
  rewrite (at_Some _ _ _ _ Hloc). cbn [fst snd]. rewrite (at_Some _ _ _ _ Hb), (at_Some _ _ _ _ Hrep).
  assert (Hp : r_pending rep = 0); [|by rewrite Hp].
  destruct (ci_counts _ _ _ _ Hc b (counts_of bk)) as [Hn _]; [cbn; by rewrite list_lookup_fmap, Hb|].
  rewrite (Hn r (r_pending rep)); [|cbn; by rewrite list_lookup_fmap, Hrep].
  cbn. unfold unmarked. rewrite list_filter_none; [done|]. intros w Hw Hm. by apply Hm, Hall.
Qed.

(** C33: buckets that partition the parameters initialize to a state in which
    every parameter's locator leads to the one bucket and slot that holds it,
    every dense gradient has a view of the parameter's type in its bucket's
    storage, and a backward pass can start. *)
Theorem reducer_initialize_ready (bucket_indices : list (list nat)) (s s' : state)
    (rep0 : list param) :
  replicas_ !! 0%nat = Some rep0 -> concat bucket_indices ≡ₚ seq 0 (length rep0) ->
  rep0 <> [] -> Z.of_nat (length rep0) < 2 ^ 63 -> Z.of_nat nreps < 2 ^ 63 ->
  initialize_buckets bucket_indices s = (Ret tt, s') ->
  (forall v, (v < length rep0)%nat -> exists b i bk, variable_locators_ s' !! v = Some (b, i) /\
     buckets_ s' !! b = Some bk /\ variable_indices bk !! i = Some v) /\
  (grads_ok s' -> forward_work s' = None -> ready_state s').
Proof.
  intros H0 Hp Hne Hn Hr Hi.
  assert (Hb : built (length rep0) bucket_indices s').
  { eapply initialize_ok; [done| |exact Hi]. rewrite Hp. apply NoDup_seq. }
  assert (Hrp : (0 < nreps)%nat) by (unfold nreps; by eapply Nat.le_lt_trans, lookup_lt_Some; [|exact H0]).
  split.
  - intros v Hv. assert (v ∈ concat bucket_indices) as Hvc by (rewrite Hp; apply elem_of_seq; lia).
    apply list_elem_of_In, in_concat in Hvc as (vs & Hvs & Hvin). apply list_elem_of_In in Hvs, Hvin.
    apply list_elem_of_lookup_1 in Hvs as [j Hj]. apply list_elem_of_lookup_1 in Hvin as [i Hvi].
    destruct (lookup_lt_is_Some_2 (buckets_ s') j) as [bk Hbk].
    { rewrite (bu_len _ _ _ Hb). by eapply lookup_lt_Some. }
    exists j, i, bk. split_and!; [by eapply (bu_locs _ _ _ Hb)|done|].
    destruct (bu_bucket _ _ _ Hb j bk Hbk) as (E1 & _). congruence.
  - intros Hg Hfw. eapply built_ready; try done; [|by rewrite Hfw].
    intros ->. cbn in Hp. apply Permutation_length in Hp. rewrite length_seq in Hp. by destruct rep0.
Qed.
End reducer.

(** [expect_sparse_gradients] when the caller gives none. *)
Definition default_sparse (replicas : list (list param)) (esg : list (list bool)) : list (list bool) :=
  match esg with
  | [] => replicate (length replicas) (replicate (length (default [] (head replicas))) false)
  | _ => esg
  end.

(** ** A small model: two parameters in two buckets *)

Definition ex_param (acc : nat) (n : Z) : param :=
  mkParam [n] [1] 7 0 0 true (mkBTensor false 7 (0, 0) [n] 4) acc.
Definition ex_replicas : list (list param) := [[ex_param 10 2; ex_param 11 3]].
Definition ex_sparse : list (list bool) := default_sparse ex_replicas [].
Abbreviation ex_init := (initialize_buckets 0 ex_replicas ex_sparse false [[1%nat]; [0%nat]]).
Definition ex_state (find_unused : bool) : state := snd (ex_init (init_state ex_replicas find_unused)).

Lemma ex_init_ok find_unused :
  ex_init (init_state ex_replicas find_unused) = (Ret tt, ex_state find_unused).
Proof.
  assert (H : fst (ex_init (init_state ex_replicas find_unused)) = Ret tt)
    by (destruct find_unused; vm_compute; reflexivity).
  unfold ex_state. destruct (initialize_buckets _ _ _ _ _ _). cbn in *. by subst.
Qed.

Lemma ex_grads_ok find_unused : grads_ok ex_replicas false (ex_state find_unused).
Proof.
  intros b k r rv i v rep p Hb _ _ _ _.
  assert (k_sparse k = false) as ->; [|by destruct find_unused].
  destruct find_unused; destruct b as [|[|b]]; cbn in Hb; by simplify_eq.
Qed.

Lemma ex_ready find_unused : ready_state ex_replicas false (ex_state find_unused).
Proof.
  apply (built_ready ex_replicas false 2 [[1%nat]; [0%nat]]).
  - apply (initialize_ok 0 ex_replicas ex_sparse false [[1%nat]; [0%nat]]
      (init_state ex_replicas find_unused) (ex_state find_unused) (default [] (head ex_replicas)));
      [done| |apply ex_init_ok].
    cbn. repeat constructor; set_solver.
  - cbn. constructor.
  - done.
  - done.
  - cbn. lia.
  - done.
  - apply ex_grads_ok.
  - destruct find_unused; vm_compute; exact I.
Qed.

Lemma ex_locs find_unused : variable_locators_ (ex_state find_unused) = [(1, 0); (0, 0)]%nat.
Proof. destruct find_unused; vm_compute; reflexivity. Qed.
Lemma ex_vars find_unused : map k_vars (skels (ex_state find_unused)) = [[1]; [0]]%nat.
Proof. destruct find_unused; vm_compute; reflexivity. Qed.

(** The graph: output node 1 leads to the first parameter's accumulator. *)
Definition ex_edges (n : nat) : list (option nat) :=
  if Nat.eqb n 1 then [Some 2%nat; None] else if Nat.eqb n 2 then [Some 10%nat] else [].
Definition ex_nodes : gset nat := {[2%nat; 10%nat]}.

Lemma ex_edges_closed a b : Some b ∈ ex_edges a -> b ∈ ex_nodes.
Proof.
  unfold ex_edges, ex_nodes. destruct (Nat.eqb a 1); [set_solver|]. destruct (Nat.eqb a 2); set_solver.
Qed.

Lemma reducer_finds_unused_witness :
  exists s', prepare_for_backward (E := Z) ex_replicas true id ex_edges 4 [Some 1%nat]
      (init_state ex_replicas true) = (Ret tt, s') /\
    forall i, i ∈ unused_parameters_ s' <->
      i ∈ all_variables ex_replicas /\ exists a, acc_of ex_replicas i = Some a /\
        ~ exists root, Some root ∈ [Some 1%nat] /\ tc (edge ex_edges) root a.
Proof.
  apply (reducer_finds_unused ex_replicas true id ex_edges ex_nodes 4 [Some 1%nat]
    (init_state ex_replicas true)).
  - reflexivity.
  - intros l. reflexivity.
  - exact ex_edges_closed.
  - vm_compute. repeat constructor.
Defined.

Definition ex_pass (find_unused : bool) (order : list VariableIndex) : outcome unit * state :=
  (do! prepare_for_backward ex_replicas find_unused id ex_edges 4 [Some 1%nat] in
   for_each order (autograd_hook 0 (fun _ x => x) (fun _ x => x) (fun _ _ l => l) 2
                     ex_replicas find_unused false)) (ex_state find_unused).

Lemma reducer_pass_in_order_witness :
  exists s', ex_pass false [(0, 0); (0, 1)]%nat = (Ret tt, s') /\
    length (buckets_ s') = 2%nat /\
    colls s' = [] ++ map CBucket (seq 0 (next_bucket_ s')) /\
    (forall b bk, buckets_ s' !! b = Some bk ->
       ((b < next_bucket_ s')%nat -> forall r v, (r < nreps ex_replicas)%nat -> v ∈ variable_indices bk ->
          (r, v) ∈ [(0, 0); (0, 1)]%nat) /\
       (b = next_bucket_ s' -> exists r v, (r < nreps ex_replicas)%nat /\ v ∈ variable_indices bk /\
          (r, v) ∉ [(0, 0); (0, 1)]%nat)) /\
    ((forall i, valid ex_replicas (ex_state false) i -> i ∈ [(0, 0); (0, 1)]%nat) ->
       next_bucket_ s' = 2%nat /\ finalizers s' = 1%nat).
Proof.
  apply (reducer_pass_in_order 0 (fun _ x => x) (fun _ x => x) (fun _ _ l => l) 2 ex_replicas false false
    id ex_edges 4 [Some 1%nat] [(0, 0); (0, 1)]%nat (ex_state false)).
  - reflexivity.
  - exact (ex_ready false).
  - repeat constructor; set_solver.
  - repeat constructor.
Defined.

Lemma ex_valid i : valid ex_replicas (ex_state true) i <-> i ∈ all_variables ex_replicas.
Proof.
  destruct i as [[|r] v]; unfold valid, nreps; cbn; [|set_solver by lia].
  destruct v as [|[|v]]; set_solver by lia.
Qed.

Lemma ex_reach a : (exists root, Some root ∈ [Some 1%nat] /\ tc (edge ex_edges) root a) <-> a = 2%nat \/ a = 10%nat.
Proof.
  assert (He : forall x y, edge ex_edges x y <-> (x = 1%nat /\ y = 2%nat) \/ (x = 2%nat /\ y = 10%nat)).
  { intros x y. unfold edge, ex_edges. destruct (Nat.eqb_spec x 1), (Nat.eqb_spec x 2); set_solver by lia. }
  split.
  - intros (root & [= ->]%list_elem_of_singleton & Hr).
    assert (Hg : forall x y, tc (edge ex_edges) x y -> y = 2%nat \/ y = 10%nat).
    { intros x y Hxy. induction Hxy as [x y Hxy|x y z _ _ IH]; [apply He in Hxy; lia|done]. }
    by eapply Hg.
  - intros [->| ->]; exists 1%nat; (split; [set_solver|]).
    + apply tc_once, He. lia.
    + eapply tc_l; [apply He; left; done|]. apply tc_once, He. lia.
Qed.

Lemma reducer_pass_unused_witness :
  exists s', ex_pass true [(0, 0)]%nat = (Ret tt, s') /\
    colls s' = [] ++ map CBucket (seq 0 2) ++ [CUsedMaps] /\ finalizers s' = 1%nat.
Proof.
  apply (reducer_pass_unused 0 (fun _ x => x) (fun _ x => x) (fun _ _ l => l) 2 ex_replicas true false
    id ex_edges ex_nodes 4 [Some 1%nat] [(0, 0)]%nat (ex_state true)).
  - reflexivity.
  - intros l. reflexivity.
  - exact ex_edges_closed.
  - vm_compute. repeat constructor.
  - exact (ex_ready true).
  - exact ex_valid.
  - discriminate.
  - apply NoDup_singleton.
  - intros i. setoid_rewrite ex_reach. destruct i as [[|r] [|[|v]]]; cbn; set_solver by lia.
Defined.

Lemma prepared_vars (s : state (E := Z)) u :
  map k_vars (skels s) = map k_vars (skels (set_unused u (set_marked false
    (set_buckets (map reset_pending (buckets_ s)) (set_next 0 (set_expect true s)))))).
Proof. unfold skels. cbn. by rewrite !map_map. Qed.

Lemma reducer_double_mark_refused_witness :
  exists s, mark_variable_ready 0 (fun _ x => x) (fun _ x => x) (fun _ _ l => l) 2 ex_replicas false false
      (0, 0)%nat s =
    (Throw (CheckFailed "Expected to mark a variable ready only once. "), set_require true s).
Proof.
  destruct (hooks_ok 0 (fun _ x => x) (fun _ x => x) (fun _ _ l => l) 2 ex_replicas false false
    (colls (ex_state false)) (finalizers (ex_state false)) [(0, 0)]%nat [] _ (prepare_inv ex_replicas false false (ex_state false) [] (ex_ready false)))
    as (s & _ & Hi & _ & L & K).
  - repeat constructor.
  - apply NoDup_singleton.
  - intros i _. apply not_elem_of_nil.
  - reflexivity.
  - left. reflexivity.
  - assert (Ls : variable_locators_ s = [(1, 0); (0, 0)]%nat)
      by (etrans; [exact L|exact (ex_locs false)]).
    destruct Hi as (Hwf & Hrest). pose proof (wf_loc _ _ _ Hwf 0 1 0) as Hk. rewrite Ls in Hk.
    destruct (Hk eq_refl) as (k & Hk1 & _).
    destruct (skels_lookup s 1 k Hk1) as (bk & Hb & ->).
    assert (Hvs : variable_indices bk = [0]%nat).
    { pose proof (f_equal (map k_vars) K) as Kv. rewrite <- prepared_vars, ex_vars in Kv.
      apply (f_equal (fun l => l !! 1%nat)) in Kv. rewrite list_lookup_fmap, Hk1 in Kv. by simplify_eq/=. }
    exists s. apply (reducer_double_mark_refused 0 (fun _ x => x) (fun _ x => x) (fun _ _ l => l) 2
      ex_replicas false false (colls (ex_state false)) (finalizers (ex_state false)) [(0, 0)]%nat
      s 0 0 1 0 bk (conj Hwf Hrest)).
    + split; [cbn; lia|]. cbn [snd]. rewrite Ls. cbn. lia.
    + rewrite Ls. reflexivity.
    + exact Hb.
    + intros w Hw. rewrite Hvs in Hw. set_solver.
Defined.

Lemma reducer_initialize_ready_witness :
  (forall v, (v < 2)%nat -> exists b i bk, variable_locators_ (ex_state false) !! v = Some (b, i) /\
     buckets_ (ex_state false) !! b = Some bk /\ variable_indices bk !! i = Some v) /\
  (grads_ok ex_replicas false (ex_state false) -> forward_work (ex_state false) = None ->
   ready_state ex_replicas false (ex_state false)).
Proof.
  apply (reducer_initialize_ready 0 ex_replicas ex_sparse false [[1%nat]; [0%nat]]
    (init_state ex_replicas false) (ex_state false) (default [] (head ex_replicas))).
  - reflexivity.
  - cbn. constructor.
  - discriminate.
  - reflexivity.
  - reflexivity.
  - exact (ex_init_ok false).
Defined.
