(* ===== verification/RpcTypes.v ===== *)
(** * RPC identifiers, messages and the RRef wire protocol

    Models csrc/c10d/distributed/rpc/types.{h,cpp} (worker and globally unique
    ids, [SerializedPyObj], the thread-local pickle guard), message.{h,cpp}
    (message types and [Message]) and rref_proto.cpp (the encoding of the RRef
    control messages).  [jit::pickle] and [jit::unpickle] are not part of the
    repository: they are parameters. *)

From stdpp Require Import base option list gmap strings.
From Stdlib Require Import ZArith Lia.
From S2P Require Import Prelude.

#[local] Set Warnings "-register-all".

(** ** Globally unique ids *)

(** [worker_id_t] is int16_t and [local_id_t] is int64_t. *)
Record GloballyUniqueId := mkId { createdOn_ : Z; localId_ : Z }.

#[global] Instance GloballyUniqueId_eq_dec : EqDecision GloballyUniqueId.
Proof. solve_decision. Defined.

#[global] Instance GloballyUniqueId_countable : Countable GloballyUniqueId :=
  inj_countable' (fun i => (createdOn_ i, localId_ i)) (fun p => mkId p.1 p.2)
    (fun i => match i with mkId _ _ => eq_refl end).

Abbreviation RRefId := GloballyUniqueId.
Abbreviation ForkId := GloballyUniqueId.

Definition kLocalIdBits : Z := 48.

(** GloballyUniqueId::Hash: [(uint64_t(createdOn_) << 48) | localId_]. *)
Definition Hash (key : GloballyUniqueId) : Z :=
  Z.lor (uint64 (Z.shiftl (uint64 (createdOn_ key)) kLocalIdBits)) (uint64 (localId_ key)).

Definition id_ok (i : GloballyUniqueId) : Prop :=
  in_int16 (createdOn_ i) /\ in_int64 (localId_ i).

(** ** IValues

    The constructors of [at::IValue] the modelled code builds and takes apart. *)
Section ivalue.
Context {T : Type}.

Inductive IValue : Type :=
  | IInt (z : Z)
  | IString (s : bytes)
  | ITensor (t : T)
  | ITuple (l : list IValue)
  | IBool (b : bool)
  | IDict (d : list (Z * Z))   (* c10::Dict<int64_t, int64_t> *)
  | INone.

Definition toInt (v : IValue) : outcome Z :=
  match v with IInt z => Ret z | _ => Throw (AssertFailed "isInt()") end.
Definition toBool (v : IValue) : outcome bool :=
  match v with IBool b => Ret b | _ => Throw (AssertFailed "isBool()") end.
Definition toDict (v : IValue) : outcome (list (Z * Z)) :=
  match v with IDict d => Ret d | _ => Throw (AssertFailed "Expected GenericDict") end.
Definition toStringRef (v : IValue) : outcome bytes :=
  match v with IString s => Ret s | _ => Throw (AssertFailed "Expected String") end.
Definition toTensor (v : IValue) : outcome T :=
  match v with ITensor t => Ret t | _ => Throw (AssertFailed "Expected Tensor") end.
Definition toTuple (v : IValue) : outcome (list IValue) :=
  match v with ITuple l => Ret l | _ => Throw (AssertFailed "Expected Tuple") end.

Definition toIValue (i : GloballyUniqueId) : IValue :=
  ITuple [IInt (int64 (createdOn_ i)); IInt (int64 (localId_ i))].

Definition fromIValue (ivalue : IValue) : outcome GloballyUniqueId :=
  match ivalue with
  | ITuple ivalues =>
      match ivalues with
      | [v0; v1] =>
          let? i0 := toInt v0 in
          check! (i0 <=? 2 ^ 15 - 1)
            else CheckFailed "GloballyUniqueId createdOn out of range, got " in
          let createdOn := int16 i0 in
          let? i1 := toInt v1 in
          check! (i1 <=? 2 ^ 63 - 1)
            else CheckFailed "GloballyUniqueId localId out of range, got " in
          let localId := int64 i1 in
          Ret (mkId createdOn localId)
      | _ => Throw (CheckFailed "Constructing GloballyUniqueId from ivalue ")
      end
  | _ => Throw (AssertFailed "GloballyUniqueId::fromIValue expected ivalue to be a tuple.")
  end.

(** ** SerializedPyObj *)

Record SerializedPyObj := mkPyObj { payload_ : bytes; tensors_ : list T }.

Definition toIValues (o : SerializedPyObj) : list IValue :=
  map ITensor (tensors_ o) ++ [IString (payload_ o)].

(** The loop that converts the remaining values. *)
Fixpoint to_tensors (values : list IValue) : outcome (list T) :=
  match values with
  | [] => Ret []
  | v :: values =>
      let? t := toTensor v in
      let? ts := to_tensors values in
      Ret (t :: ts)
  end.

(** [values.back()] and [pop_back()] of an empty vector are undefined. *)
Definition fromIValues (values : list IValue) : outcome SerializedPyObj :=
  match last values with
  | None => Throw (Undefined "std::vector::back")
  | Some v =>
      let? payload := toStringRef v in
      let? tensors := to_tensors (removelast values) in
      Ret (mkPyObj payload tensors)
  end.
End ivalue.
Arguments IValue T : clear implicits.
Arguments SerializedPyObj T : clear implicits.

(** ** JitRRefPickleGuard: a thread-local flag *)

Definition enableJitRRefPickle (_ : bool) : bool := true.
Definition disableJitRRefPickle (_ : bool) : bool := false.

(** ** Messages *)

Inductive MessageType : Type :=
  | SCRIPT_CALL | SCRIPT_RET | PYTHON_CALL | PYTHON_RET
  | SCRIPT_REMOTE_CALL | PYTHON_REMOTE_CALL | REMOTE_RET
  | SCRIPT_RREF_FETCH_CALL | PYTHON_RREF_FETCH_CALL
  | SCRIPT_RREF_FETCH_RET | PYTHON_RREF_FETCH_RET
  | RREF_USER_DELETE | RREF_FORK_REQUEST | RREF_CHILD_ACCEPT | RREF_ACK
  | FORWARD_AUTOGRAD_REQ | FORWARD_AUTOGRAD_RESP
  | BACKWARD_AUTOGRAD_REQ | BACKWARD_AUTOGRAD_RESP
  | CLEANUP_AUTOGRAD_CONTEXT_REQ | CLEANUP_AUTOGRAD_CONTEXT_RESP
  | RUN_WITH_PROFILING_REQ | RUN_WITH_PROFILING_RESP
  | RREF_BACKWARD_REQ | RREF_BACKWARD_RESP
  | EXCEPTION | UNKNOWN.

#[global] Instance MessageType_eq_dec : EqDecision MessageType.
Proof. solve_decision. Defined.

Definition REQUEST_TYPE : Z := 0x100.
Definition RESPONSE_TYPE : Z := 0x200.

(** The values of the enumerators. *)
Definition MessageType_value (t : MessageType) : Z :=
  match t with
  | SCRIPT_CALL => Z.lor 0 REQUEST_TYPE
  | SCRIPT_RET => Z.lor 1 RESPONSE_TYPE
  | PYTHON_CALL => Z.lor 2 REQUEST_TYPE
  | PYTHON_RET => Z.lor 3 RESPONSE_TYPE
  | SCRIPT_REMOTE_CALL => Z.lor 4 REQUEST_TYPE
  | PYTHON_REMOTE_CALL => Z.lor 5 REQUEST_TYPE
  | REMOTE_RET => Z.lor 6 RESPONSE_TYPE
  | SCRIPT_RREF_FETCH_CALL => Z.lor 7 REQUEST_TYPE
  | PYTHON_RREF_FETCH_CALL => Z.lor 8 REQUEST_TYPE
  | SCRIPT_RREF_FETCH_RET => Z.lor 9 RESPONSE_TYPE
  | PYTHON_RREF_FETCH_RET => Z.lor 10 RESPONSE_TYPE
  | RREF_USER_DELETE => Z.lor 11 REQUEST_TYPE
  | RREF_FORK_REQUEST => Z.lor 12 REQUEST_TYPE
  | RREF_CHILD_ACCEPT => Z.lor 13 REQUEST_TYPE
  | RREF_ACK => Z.lor 14 RESPONSE_TYPE
  | FORWARD_AUTOGRAD_REQ => Z.lor 15 REQUEST_TYPE
  | FORWARD_AUTOGRAD_RESP => Z.lor 16 RESPONSE_TYPE
  | BACKWARD_AUTOGRAD_REQ => Z.lor 17 REQUEST_TYPE
  | BACKWARD_AUTOGRAD_RESP => Z.lor 18 RESPONSE_TYPE
  | CLEANUP_AUTOGRAD_CONTEXT_REQ => Z.lor 19 REQUEST_TYPE
  | CLEANUP_AUTOGRAD_CONTEXT_RESP => Z.lor 20 RESPONSE_TYPE
  | RUN_WITH_PROFILING_REQ => Z.lor 21 REQUEST_TYPE
  | RUN_WITH_PROFILING_RESP => Z.lor 22 RESPONSE_TYPE
  | RREF_BACKWARD_REQ => Z.lor 23 REQUEST_TYPE
  | RREF_BACKWARD_RESP => Z.lor 24 RESPONSE_TYPE
  | EXCEPTION => Z.lor 55 RESPONSE_TYPE
  | UNKNOWN => 60
  end.

(** [static_cast<MessageType>] of an integer.  A value that is no enumerator
    behaves as UNKNOWN here: it reaches the default branch of every switch. *)
Definition all_MessageTypes : list MessageType :=
  [SCRIPT_CALL; SCRIPT_RET; PYTHON_CALL; PYTHON_RET; SCRIPT_REMOTE_CALL; PYTHON_REMOTE_CALL;
   REMOTE_RET; SCRIPT_RREF_FETCH_CALL; PYTHON_RREF_FETCH_CALL; SCRIPT_RREF_FETCH_RET;
   PYTHON_RREF_FETCH_RET; RREF_USER_DELETE; RREF_FORK_REQUEST; RREF_CHILD_ACCEPT; RREF_ACK;
   FORWARD_AUTOGRAD_REQ; FORWARD_AUTOGRAD_RESP; BACKWARD_AUTOGRAD_REQ; BACKWARD_AUTOGRAD_RESP;
   CLEANUP_AUTOGRAD_CONTEXT_REQ; CLEANUP_AUTOGRAD_CONTEXT_RESP; RUN_WITH_PROFILING_REQ;
   RUN_WITH_PROFILING_RESP; RREF_BACKWARD_REQ; RREF_BACKWARD_RESP; EXCEPTION].
Definition MessageType_of_value (v : Z) : MessageType :=
  default UNKNOWN (List.find (fun t => MessageType_value t =? v) all_MessageTypes).

Lemma MessageType_of_value_value t : MessageType_of_value (MessageType_value t) = t.
Proof. by destruct t. Qed.

Record Message {T : Type} := mkMessage {
  payload : bytes;
  tensors : list T;
  type_ : MessageType;
  id_ : Z;
}.
Arguments Message T : clear implicits.

Definition isRequest {T} (m : Message T) : bool :=
  negb (Z.land REQUEST_TYPE (MessageType_value (type_ m)) =? 0).
Definition isResponse {T} (m : Message T) : bool :=
  negb (Z.land RESPONSE_TYPE (MessageType_value (type_ m)) =? 0).
Definition setId {T} (id : Z) (m : Message T) : Message T :=
  mkMessage T (payload m) (tensors m) (type_ m) id.
Definition createExceptionResponse {T} (exceptionStr : bytes) (id : Z) : Message T :=
  mkMessage T exceptionStr [] EXCEPTION id.

(** ** The RRef control messages *)

(** The commands of rref_proto.h that travel between RRef contexts. *)
Inductive RRefCommand (T : Type) : Type :=
  | ScriptRRefFetchCall (fromWorkerId : Z) (rrefId : RRefId)
  | PythonRRefFetchCall (fromWorkerId : Z) (rrefId : RRefId)
  | ScriptRRefFetchRet (values : list (IValue T))
  | PythonRRefFetchRet (values : list (IValue T))
  | RRefUserDelete (rrefId : RRefId) (forkId : ForkId)
  | RemoteRet (rrefId : RRefId) (forkId : ForkId)
  | RRefChildAccept (forkId : ForkId)
  | RRefForkRequest (rrefId : RRefId) (forkId : ForkId)
  | RRefAck.
Arguments ScriptRRefFetchCall {T}.
Arguments PythonRRefFetchCall {T}.
Arguments ScriptRRefFetchRet {T}.
Arguments PythonRRefFetchRet {T}.
Arguments RRefUserDelete {T}.
Arguments RemoteRet {T}.
Arguments RRefChildAccept {T}.
Arguments RRefForkRequest {T}.
Arguments RRefAck {T}.

Definition command_type {T} (c : RRefCommand T) : MessageType :=
  match c with
  | ScriptRRefFetchCall _ _ => SCRIPT_RREF_FETCH_CALL
  | PythonRRefFetchCall _ _ => PYTHON_RREF_FETCH_CALL
  | ScriptRRefFetchRet _ => SCRIPT_RREF_FETCH_RET
  | PythonRRefFetchRet _ => PYTHON_RREF_FETCH_RET
  | RRefUserDelete _ _ => RREF_USER_DELETE
  | RemoteRet _ _ => REMOTE_RET
  | RRefChildAccept _ => RREF_CHILD_ACCEPT
  | RRefForkRequest _ _ => RREF_FORK_REQUEST
  | RRefAck => RREF_ACK
  end.

Section rref_proto.
Context {T : Type}.
(** [jit::pickle] returns the payload and fills the tensor table;
    [jit::unpickle] reads them back. *)
Variable pickle : IValue T -> bytes * list T.
Variable unpickle : bytes -> list T -> outcome (IValue T).

(** toIValues and fromIValues of the anonymous namespace. *)
Definition message_toIValues (message : Message T) (type : MessageType) :
    outcome (list (IValue T)) :=
  check! bool_decide (type = type_ message)
    else AssertFailed "Expecting message of type " in
  let? value := unpickle (payload message) (tensors message) in
  toTuple value.

Definition message_fromIValues (ivalues : list (IValue T)) (type : MessageType) :
    Message T :=
  let '(payload, tensor_table) := pickle (ITuple ivalues) in
  mkMessage T payload tensor_table type (-1).

(** ForkMessageBase::toMessageImpl / fromMessage. *)
Definition fork_toMessage (rrefId forkId : GloballyUniqueId) (type : MessageType) :
    Message T :=
  message_fromIValues [toIValue rrefId; toIValue forkId] type.

Definition fork_fromMessage (message : Message T) (type : MessageType) :
    outcome (RRefId * ForkId) :=
  let? ivalues := message_toIValues message type in
  match ivalues with
  | [v0; v1] =>
      let? rrefId := fromIValue v0 in
      let? forkId := fromIValue v1 in
      Ret (rrefId, forkId)
  | _ => Throw (AssertFailed "ScriptUserDelete expects 2 IValue from message.")
  end.

(** ScriptRRefFetchCall / PythonRRefFetchCall::fromMessage. *)
Definition fetch_fromMessage (message : Message T) (type : MessageType)
    (limit size : string) : outcome (Z * RRefId) :=
  let? values := message_toIValues message type in
  match values with
  | [v0; v1] =>
      let? id := toInt v1 in
      check! ((- 2 ^ 15 <=? id) && (id <=? 2 ^ 15 - 1))
        else AssertFailed limit in
      let? rrefId := fromIValue v0 in
      Ret (int16 id, rrefId)
  | _ => Throw (AssertFailed size)
  end.

Definition toMessage (c : RRefCommand T) : Message T :=
  match c with
  | ScriptRRefFetchCall fromWorkerId rrefId
  | PythonRRefFetchCall fromWorkerId rrefId =>
      message_fromIValues [toIValue rrefId; IInt fromWorkerId] (command_type c)
  | ScriptRRefFetchRet values | PythonRRefFetchRet values =>
      message_fromIValues values (command_type c)
  | RRefUserDelete rrefId forkId | RemoteRet rrefId forkId
  | RRefForkRequest rrefId forkId => fork_toMessage rrefId forkId (command_type c)
  | RRefChildAccept forkId => message_fromIValues [toIValue forkId] RREF_CHILD_ACCEPT
  | RRefAck => mkMessage T [] [] RREF_ACK (-1)
  end.

Definition ScriptRRefFetchCall_fromMessage (message : Message T) :
    outcome (RRefCommand T) :=
  let? p := fetch_fromMessage message SCRIPT_RREF_FETCH_CALL
    "ScriptRRefFetchCall fromWorkerId exceeds worker_id_t limit."
    "ScriptRRefFetchCall expects 2 IValues from message" in
  Ret (ScriptRRefFetchCall p.1 p.2).

Definition PythonRRefFetchCall_fromMessage (message : Message T) :
    outcome (RRefCommand T) :=
  let? p := fetch_fromMessage message PYTHON_RREF_FETCH_CALL
    "PythonRRefFetchCall fromWorkerId exceeds worker_id_t limit."
    "PythonRRefFetchCall expects 2 IValues from message" in
  Ret (PythonRRefFetchCall p.1 p.2).

Definition ScriptRRefFetchRet_fromMessage (message : Message T) :
    outcome (RRefCommand T) :=
  let? values := message_toIValues message SCRIPT_RREF_FETCH_RET in
  check! bool_decide (length values = 1%nat)
    else AssertFailed "RRef of IValue should contain a single IValue, but got " in
  Ret (ScriptRRefFetchRet values).

Definition PythonRRefFetchRet_fromMessage (message : Message T) :
    outcome (RRefCommand T) :=
  let? values := message_toIValues message PYTHON_RREF_FETCH_RET in
  Ret (PythonRRefFetchRet values).

Definition RRefUserDelete_fromMessage (message : Message T) : outcome (RRefCommand T) :=
  let? p := fork_fromMessage message RREF_USER_DELETE in Ret (RRefUserDelete p.1 p.2).

Definition RemoteRet_fromMessage (message : Message T) : outcome (RRefCommand T) :=
  let? p := fork_fromMessage message REMOTE_RET in Ret (RemoteRet p.1 p.2).

Definition RRefChildAccept_fromMessage (message : Message T) : outcome (RRefCommand T) :=
  let? values := message_toIValues message RREF_CHILD_ACCEPT in
  match values with
  | [v] => let? forkId := fromIValue v in Ret (RRefChildAccept forkId)
  | _ => Throw (AssertFailed "Expect 1 IValues from message.")
  end.

Definition RRefForkRequest_fromMessage (message : Message T) : outcome (RRefCommand T) :=
  let? p := fork_fromMessage message RREF_FORK_REQUEST in Ret (RRefForkRequest p.1 p.2).

Definition RRefAck_fromMessage (message : Message T) : outcome (RRefCommand T) :=
  check! bool_decide (type_ message = RREF_ACK)
    else AssertFailed "Message type miss match, expect " in
  Ret RRefAck.

(** The cases of the switches of deserializeRequest and deserializeResponse
    that yield an RRef command; [None] is a case handled by another command. *)
Definition deserialize_rref (message : Message T) : option (outcome (RRefCommand T)) :=
  match type_ message with
  | SCRIPT_RREF_FETCH_CALL => Some (ScriptRRefFetchCall_fromMessage message)
  | PYTHON_RREF_FETCH_CALL => Some (PythonRRefFetchCall_fromMessage message)
  | SCRIPT_RREF_FETCH_RET => Some (ScriptRRefFetchRet_fromMessage message)
  | PYTHON_RREF_FETCH_RET => Some (PythonRRefFetchRet_fromMessage message)
  | RREF_USER_DELETE => Some (RRefUserDelete_fromMessage message)
  | REMOTE_RET => Some (RemoteRet_fromMessage message)
  | RREF_CHILD_ACCEPT => Some (RRefChildAccept_fromMessage message)
  | RREF_FORK_REQUEST => Some (RRefForkRequest_fromMessage message)
  | RREF_ACK => Some (RRefAck_fromMessage message)
  | _ => None
  end.
End rref_proto.

(** ** Theorems *)

#[local] Arguments fromIValue : simpl never.
#[local] Arguments toIValue : simpl never.

Lemma fromIValue_toIValue {T} i : id_ok i -> fromIValue (T := T) (toIValue i) = Ret i.
Proof.
  destruct i as [w l]. intros [Hw Hl]. unfold fromIValue, toIValue, obind, ocheck. simpl in *.
  assert (in_int64 w) by (unfold in_int16, in_int64 in *; lia).
  rewrite !int64_id, int16_id by done. unfold in_int16, in_int64 in *.
  destruct (Z.leb_spec w (2 ^ 15 - 1)); [|lia].
  destruct (Z.leb_spec l (2 ^ 63 - 1)); [|lia]. done.
Qed.

Lemma to_tensors_map {T} (ts : list T) : to_tensors (map ITensor ts) = Ret ts.
Proof. induction ts as [|t ts IH]; simpl; [done|]. by rewrite IH. Qed.

(** SerializedPyObj::fromIValues inverts toIValues, for every payload and
    every list of tensors; and what it accepts is exactly what toIValues
    produces: a list of tensors followed by one string. *)
Theorem pyobj_roundtrip {T} (values : list (IValue T)) (o : SerializedPyObj T) :
  fromIValues values = Ret o <-> values = toIValues o.
Proof.
  split.
  - unfold fromIValues. destruct (last values) as [v|] eqn:Hl; [|done].
    apply last_Some in Hl as [l' ->]. rewrite removelast_last.
    destruct v; simpl; try done.
    destruct (to_tensors l') as [ts|e|] eqn:Ht; simpl; intros H; simplify_eq.
    unfold toIValues; simpl. f_equal.
    revert ts Ht. induction l' as [|v l' IH]; simpl; intros ts Ht; [by simplify_eq|].
    destruct v; simpl in Ht; try done.
    destruct (to_tensors l') as [ts'|?|]; simpl in Ht; simplify_eq. simpl. by rewrite (IH ts').
  - intros ->. unfold fromIValues, toIValues. rewrite last_snoc, removelast_last.
    simpl. rewrite to_tensors_map. by destruct o.
Qed.

Definition command_ok {T} (c : RRefCommand T) : Prop :=
  match c with
  | ScriptRRefFetchCall w r | PythonRRefFetchCall w r => in_int16 w /\ id_ok r
  | ScriptRRefFetchRet values => length values = 1%nat
  | PythonRRefFetchRet _ | RRefAck => True
  | RRefUserDelete r f | RemoteRet r f | RRefForkRequest r f => id_ok r /\ id_ok f
  | RRefChildAccept f => id_ok f
  end.

(** Every RRef control message that is encoded with ids of the declared
    widths is decoded to the same command by the receiver, whatever the message
    id the agent stamps on it, provided unpickling inverts pickling. *)
Theorem rref_command_roundtrip {T} (pickle : IValue T -> bytes * list T) unpickle
    (c : RRefCommand T) (id : Z) :
  (forall v, unpickle (pickle v).1 (pickle v).2 = Ret v) ->
  command_ok c ->
  deserialize_rref unpickle (setId id (toMessage pickle c)) = Some (Ret c).
Proof.
  intros Hp Hc.
  assert (Hm : forall vs ty, message_toIValues unpickle
      (setId id (message_fromIValues pickle vs ty)) ty = Ret vs).
  { intros vs ty. unfold message_toIValues, message_fromIValues.
    pose proof (Hp (ITuple vs)). destruct (pickle (ITuple vs)). simpl in *.
    by rewrite bool_decide_true, H by done. }
  assert (Ht : type_ (setId id (toMessage pickle c)) = command_type c).
  { destruct c; try done; unfold toMessage, fork_toMessage, message_fromIValues;
      by destruct (pickle _). }
  unfold deserialize_rref. rewrite Ht.
  destruct c; simpl in *; f_equal;
    unfold ScriptRRefFetchCall_fromMessage, PythonRRefFetchCall_fromMessage,
      ScriptRRefFetchRet_fromMessage, PythonRRefFetchRet_fromMessage,
      RRefUserDelete_fromMessage, RemoteRet_fromMessage, RRefForkRequest_fromMessage,
      RRefChildAccept_fromMessage, fetch_fromMessage, fork_fromMessage, fork_toMessage;
    rewrite ?Hm; simpl; try done.
  1-2: destruct Hc as [Hw Hr]; unfold ocheck, in_int16 in *;
    (destruct (Z.leb_spec (- 2 ^ 15) fromWorkerId); [|lia]);
    (destruct (Z.leb_spec fromWorkerId (2 ^ 15 - 1)); [|lia]); simpl;
    rewrite fromIValue_toIValue by done; simpl; by rewrite int16_id.
  - by rewrite bool_decide_true.
  - destruct Hc. by rewrite !fromIValue_toIValue by done.
  - destruct Hc. by rewrite !fromIValue_toIValue by done.
  - by rewrite fromIValue_toIValue.
  - destruct Hc. by rewrite !fromIValue_toIValue by done.
Qed.

(** A pickler whose tensor table carries the value itself. *)
Inductive boxed : Type := Box (v : IValue boxed).
Definition box_pickle (v : IValue boxed) : bytes * list boxed := ([], [Box v]).
Definition box_unpickle (_ : bytes) (l : list boxed) : outcome (IValue boxed) :=
  match l with [Box v] => Ret v | _ => Throw (RuntimeError "unpickle") end.

Lemma rref_command_roundtrip_witness :
  deserialize_rref box_unpickle (setId 7 (toMessage box_pickle
    (RRefForkRequest (mkId 1 5) (mkId (-3) 9)))) =
  Some (Ret (RRefForkRequest (mkId 1 5) (mkId (-3) 9))).
Proof.
  apply (rref_command_roundtrip box_pickle box_unpickle); [reflexivity|].
  unfold command_ok, id_ok, in_int16, in_int64. simpl. lia.
Defined.

(** The id check of fromIValue is one sided: a createdOn below the range of
    worker_id_t is not refused but truncated, so an out-of-range id can decode
    to the id of another worker. *)
Theorem guid_decode_truncates {T} :
  fromIValue (T := T) (ITuple [IInt (-65533); IInt 4]) = Ret (mkId 3 4) /\
  fromIValue (T := T) (toIValue (mkId 3 4)) = Ret (mkId 3 4).
Proof. split; reflexivity. Qed.

Lemma testbit_small b n : 0 <= b < 2 ^ 48 -> 48 <= n -> Z.testbit b n = false.
Proof.
  intros Hb Hn. destruct (decide (b = 0)) as [->|]; [apply Z.testbit_0_l|].
  apply Z.bits_above_log2; [lia|]. apply Z.lt_le_trans with 48; [|done].
  apply Z.log2_lt_pow2; lia.
Qed.

Lemma Hash_local_bits k : 0 <= localId_ k < 2 ^ 48 -> Z.land (Hash k) (Z.ones 48) = localId_ k.
Proof.
  intros Hl. unfold Hash, kLocalIdBits.
  rewrite (uint64_id (localId_ k)) by (unfold in_uint64; lia).
  apply Z.bits_inj'. intros n Hn. unfold uint64, wrap.
  rewrite Z.land_spec, Z.lor_spec, Z.testbit_ones_nonneg by lia.
  destruct (Z.ltb_spec n 48).
  - rewrite Z.mod_pow2_bits_low, Z.shiftl_spec_low by lia. by rewrite andb_true_r.
  - by rewrite andb_false_r, testbit_small.
Qed.

Lemma Hash_worker_bits k :
  0 <= localId_ k < 2 ^ 48 -> Z.shiftr (Hash k) 48 = wrap 16 (createdOn_ k).
Proof.
  intros Hl. unfold Hash, kLocalIdBits.
  rewrite (uint64_id (localId_ k)) by (unfold in_uint64; lia).
  apply Z.bits_inj'. intros n Hn. unfold uint64, wrap.
  rewrite Z.shiftr_spec, Z.lor_spec by lia. rewrite (testbit_small (localId_ k)) by lia.
  rewrite orb_false_r. destruct (Z.ltb_spec n 16).
  - rewrite Z.mod_pow2_bits_low, Z.shiftl_spec_high by lia.
    replace (n + 48 - 48) with n by lia. rewrite !Z.mod_pow2_bits_low by lia. done.
  - rewrite !Z.mod_pow2_bits_high by lia. done.
Qed.

(** Two ids of the declared widths whose local parts fit in kLocalIdBits
    bits never collide in GloballyUniqueId::Hash, so the tables keyed by RRefId
    and ForkId have no hash collisions between distinct ids. *)
Theorem guid_hash_injective (a b : GloballyUniqueId) :
  in_int16 (createdOn_ a) -> in_int16 (createdOn_ b) ->
  0 <= localId_ a < 2 ^ 48 -> 0 <= localId_ b < 2 ^ 48 ->
  Hash a = Hash b -> a = b.
Proof.
  intros Ha Hb Hla Hlb H.
  pose proof (Hash_local_bits a Hla) as H1. rewrite H, Hash_local_bits in H1 by done.
  pose proof (Hash_worker_bits a Hla) as H2. rewrite H, Hash_worker_bits in H2 by done.
  assert (createdOn_ a = createdOn_ b).
  { rewrite <- (int16_id _ Ha), <- (int16_id _ Hb). unfold int16, swrap, wrap in *.
    by rewrite H2. }
  destruct a, b. simpl in *. by subst.
Qed.

Lemma guid_hash_injective_witness :
  Hash (mkId (-1) 7) = Hash (mkId (-1) 7) /\ mkId (-1) 7 = mkId (-1) 7.
Proof.
  split; [reflexivity|].
  apply (guid_hash_injective (mkId (-1) 7) (mkId (-1) 7)); unfold in_int16; simpl; lia.
Defined.
