(* ===== verification/RRefContext.v ===== *)
(** * RRefContext

    Models csrc/c10d/distributed/rpc/rref_context.{h,cpp}, the RRef classes of
    rref_impl.{h,cpp}, and the handlers of the RRef control messages in
    request_callback_no_python.cpp.

    One worker's context is a [context]: its tables, the RRef objects they point
    to, the pending-user states shared between pendingUsers_ and the
    thread-local userTable_, and the requests handed to the agent with the
    callback attached to each reply.  Each operation runs to completion under
    mutex_, so an operation is one transition; replies and other threads come in
    between as further operations. *)

From stdpp Require Import base option list gmap strings.
From Stdlib Require Import ZArith Lia.
From S2P Require Import Prelude RpcTypes.

#[local] Set Warnings "-clear-no-such-hyp".

Section rref.
(** [c10::TypePtr] with the two queries made on it, and the qualified name
    sent along with a fork. *)
Context {Ty : Type} `{EqDecision Ty}.
Variables TensorType PyObjectType : Ty.
Variable isSubtypeOfTensor : Ty -> bool.
Variable getTypeStr : Ty -> bytes.
(** [RpcAgent::getWorkerInfo(id)]: throws for an unknown worker. *)
Variable getWorkerInfo : Z -> outcome unit.
#[local] Set Default Proof Using "Type".
#[local] Set Proof Using Clear Unused.

(** ** RRef objects *)

Inductive RRefClass : Type :=
  | OwnerRRef
  | UserRRef (forkId : ForkId) (confirmedByOwner deletedOnOwner : bool).

Record RRef_ := mkRRef {
  ownerId_ : Z;
  rrefId_ : RRefId;
  rref_type : Ty;
  timedOut_ : bool;
  class_ : RRefClass;
}.

Definition isOwner (r : RRef_) : bool :=
  match class_ r with OwnerRRef => true | UserRRef _ _ _ => false end.
Definition isPyObj (r : RRef_) : bool := bool_decide (rref_type r = PyObjectType).
Definition confirmedByOwner (r : RRef_) : bool :=
  match class_ r with OwnerRRef => true | UserRRef _ c _ => c end.

(** UserRRef::confirm, RRef::setTimedOut, [deletedOnOwner_ = true]. *)
Definition confirm_rref (r : RRef_) : RRef_ :=
  match class_ r with
  | OwnerRRef => r
  | UserRRef f _ d => mkRRef (ownerId_ r) (rrefId_ r) (rref_type r) (timedOut_ r) (UserRRef f true d)
  end.
Definition setTimedOut (r : RRef_) : RRef_ :=
  mkRRef (ownerId_ r) (rrefId_ r) (rref_type r) true (class_ r).
Definition setDeletedOnOwner (r : RRef_) : RRef_ :=
  match class_ r with
  | OwnerRRef => r
  | UserRRef f c _ => mkRRef (ownerId_ r) (rrefId_ r) (rref_type r) (timedOut_ r) (UserRRef f c true)
  end.

Record RRefForkData := mkForkData {
  fd_ownerId : Z; fd_rrefId : RRefId; fd_forkId : ForkId; fd_parent : Z; fd_typeStr : bytes;
}.

(** ** The context *)

(** A PendingUserState: its RRef, whether future_ is completed, and the
    callbacks attached to future_ (indices of [waiters]). *)
Record PendingUserState := mkPending {
  ps_rref : nat; ps_completed : bool; ps_callbacks : list nat;
}.

(** The lambdas attached to the futures of sent requests. *)
Inductive callback : Type :=
  | CbDecrement
  | CbForkRequest (forkId : ForkId) (parent : Z).

(** A request handed to the agent; [rq_done] once its future is completed. *)
Record request := mkRequest {
  rq_to : Z; rq_cmd : RRefCommand unit; rq_callback : option callback; rq_done : bool;
}.

Record context := mkCtx {
  worker_id : Z;   (* agent_->getWorkerInfo().id_ *)
  nextLocalId_ : Z;
  heap : gmap nat (RRef_);   (* the RRef objects that are alive *)
  nextLoc : nat;
  owners_ : gmap RRefId nat;
  pendingOwners_ : gmap RRefId nat;   (* futures, by index in [ownerFutures] *)
  ownerFutures : list (option nat);   (* Future<intrusive_ptr<OwnerRRef>> *)
  forks_ : gmap RRefId (gset ForkId);
  pendingUsers_ : gmap ForkId nat;   (* PendingUserStates, by index in [pstates] *)
  pstates : list PendingUserState;
  confirmedUsers_ : gmap ForkId nat;   (* weak pointers *)
  pendingChildren_ : gmap ForkId nat;
  numPendingFutures_ : Z;   (* std::atomic<int64_t> *)
  destroyed_ : bool;
  tls : gmap nat (list nat * bool);   (* per thread: userTable_ and recording_ *)
  waiters : list (Z * bool);   (* remainingRRefs and whether the future is completed *)
  sent : list request;   (* the requests handed to the agent *)
  errorHandlers_ : option nat;   (* the object captured by the static handlers *)
  cv_notified : nat;   (* number of notify_all on deleteAllUsersCV_ *)
}.

Definition upd_nextLocalId_ (f : Z -> Z) (s : context) : context :=
    mkCtx (worker_id s) (f (nextLocalId_ s)) (heap s) (nextLoc s) (owners_ s) (pendingOwners_ s)
    (ownerFutures s) (forks_ s) (pendingUsers_ s) (pstates s) (confirmedUsers_ s)
    (pendingChildren_ s) (numPendingFutures_ s) (destroyed_ s) (tls s) (waiters s) (sent s)
    (errorHandlers_ s) (cv_notified s).
Definition upd_heap (f : gmap nat (RRef_) -> gmap nat (RRef_)) (s : context) : context :=
    mkCtx (worker_id s) (nextLocalId_ s) (f (heap s)) (nextLoc s) (owners_ s) (pendingOwners_ s)
    (ownerFutures s) (forks_ s) (pendingUsers_ s) (pstates s) (confirmedUsers_ s)
    (pendingChildren_ s) (numPendingFutures_ s) (destroyed_ s) (tls s) (waiters s) (sent s)
    (errorHandlers_ s) (cv_notified s).
Definition upd_nextLoc (f : nat -> nat) (s : context) : context :=
    mkCtx (worker_id s) (nextLocalId_ s) (heap s) (f (nextLoc s)) (owners_ s) (pendingOwners_ s)
    (ownerFutures s) (forks_ s) (pendingUsers_ s) (pstates s) (confirmedUsers_ s)
    (pendingChildren_ s) (numPendingFutures_ s) (destroyed_ s) (tls s) (waiters s) (sent s)
    (errorHandlers_ s) (cv_notified s).
Definition upd_owners_ (f : gmap RRefId nat -> gmap RRefId nat) (s : context) : context :=
    mkCtx (worker_id s) (nextLocalId_ s) (heap s) (nextLoc s) (f (owners_ s)) (pendingOwners_ s)
    (ownerFutures s) (forks_ s) (pendingUsers_ s) (pstates s) (confirmedUsers_ s)
    (pendingChildren_ s) (numPendingFutures_ s) (destroyed_ s) (tls s) (waiters s) (sent s)
    (errorHandlers_ s) (cv_notified s).
Definition upd_pendingOwners_ (f : gmap RRefId nat -> gmap RRefId nat) (s : context) : context :=
    mkCtx (worker_id s) (nextLocalId_ s) (heap s) (nextLoc s) (owners_ s) (f (pendingOwners_ s))
    (ownerFutures s) (forks_ s) (pendingUsers_ s) (pstates s) (confirmedUsers_ s)
    (pendingChildren_ s) (numPendingFutures_ s) (destroyed_ s) (tls s) (waiters s) (sent s)
    (errorHandlers_ s) (cv_notified s).
Definition upd_ownerFutures (f : list (option nat) -> list (option nat)) (s : context) : context :=
    mkCtx (worker_id s) (nextLocalId_ s) (heap s) (nextLoc s) (owners_ s) (pendingOwners_ s) (f
    (ownerFutures s)) (forks_ s) (pendingUsers_ s) (pstates s) (confirmedUsers_ s)
    (pendingChildren_ s) (numPendingFutures_ s) (destroyed_ s) (tls s) (waiters s) (sent s)
    (errorHandlers_ s) (cv_notified s).
Definition upd_forks_ (f : gmap RRefId (gset ForkId) -> gmap RRefId (gset ForkId)) (s : context) : context :=
    mkCtx (worker_id s) (nextLocalId_ s) (heap s) (nextLoc s) (owners_ s) (pendingOwners_ s)
    (ownerFutures s) (f (forks_ s)) (pendingUsers_ s) (pstates s) (confirmedUsers_ s)
    (pendingChildren_ s) (numPendingFutures_ s) (destroyed_ s) (tls s) (waiters s) (sent s)
    (errorHandlers_ s) (cv_notified s).
Definition upd_pendingUsers_ (f : gmap ForkId nat -> gmap ForkId nat) (s : context) : context :=
    mkCtx (worker_id s) (nextLocalId_ s) (heap s) (nextLoc s) (owners_ s) (pendingOwners_ s)
    (ownerFutures s) (forks_ s) (f (pendingUsers_ s)) (pstates s) (confirmedUsers_ s)
    (pendingChildren_ s) (numPendingFutures_ s) (destroyed_ s) (tls s) (waiters s) (sent s)
    (errorHandlers_ s) (cv_notified s).
Definition upd_pstates (f : list PendingUserState -> list PendingUserState) (s : context) : context :=
    mkCtx (worker_id s) (nextLocalId_ s) (heap s) (nextLoc s) (owners_ s) (pendingOwners_ s)
    (ownerFutures s) (forks_ s) (pendingUsers_ s) (f (pstates s)) (confirmedUsers_ s)
    (pendingChildren_ s) (numPendingFutures_ s) (destroyed_ s) (tls s) (waiters s) (sent s)
    (errorHandlers_ s) (cv_notified s).
Definition upd_confirmedUsers_ (f : gmap ForkId nat -> gmap ForkId nat) (s : context) : context :=
    mkCtx (worker_id s) (nextLocalId_ s) (heap s) (nextLoc s) (owners_ s) (pendingOwners_ s)
    (ownerFutures s) (forks_ s) (pendingUsers_ s) (pstates s) (f (confirmedUsers_ s))
    (pendingChildren_ s) (numPendingFutures_ s) (destroyed_ s) (tls s) (waiters s) (sent s)
    (errorHandlers_ s) (cv_notified s).
Definition upd_pendingChildren_ (f : gmap ForkId nat -> gmap ForkId nat) (s : context) : context :=
    mkCtx (worker_id s) (nextLocalId_ s) (heap s) (nextLoc s) (owners_ s) (pendingOwners_ s)
    (ownerFutures s) (forks_ s) (pendingUsers_ s) (pstates s) (confirmedUsers_ s) (f
    (pendingChildren_ s)) (numPendingFutures_ s) (destroyed_ s) (tls s) (waiters s) (sent s)
    (errorHandlers_ s) (cv_notified s).
Definition upd_numPendingFutures_ (f : Z -> Z) (s : context) : context :=
    mkCtx (worker_id s) (nextLocalId_ s) (heap s) (nextLoc s) (owners_ s) (pendingOwners_ s)
    (ownerFutures s) (forks_ s) (pendingUsers_ s) (pstates s) (confirmedUsers_ s)
    (pendingChildren_ s) (f (numPendingFutures_ s)) (destroyed_ s) (tls s) (waiters s) (sent s)
    (errorHandlers_ s) (cv_notified s).
Definition upd_destroyed_ (f : bool -> bool) (s : context) : context :=
    mkCtx (worker_id s) (nextLocalId_ s) (heap s) (nextLoc s) (owners_ s) (pendingOwners_ s)
    (ownerFutures s) (forks_ s) (pendingUsers_ s) (pstates s) (confirmedUsers_ s)
    (pendingChildren_ s) (numPendingFutures_ s) (f (destroyed_ s)) (tls s) (waiters s) (sent s)
    (errorHandlers_ s) (cv_notified s).
Definition upd_tls (f : gmap nat (list nat * bool) -> gmap nat (list nat * bool)) (s : context) : context :=
    mkCtx (worker_id s) (nextLocalId_ s) (heap s) (nextLoc s) (owners_ s) (pendingOwners_ s)
    (ownerFutures s) (forks_ s) (pendingUsers_ s) (pstates s) (confirmedUsers_ s)
    (pendingChildren_ s) (numPendingFutures_ s) (destroyed_ s) (f (tls s)) (waiters s) (sent s)
    (errorHandlers_ s) (cv_notified s).
Definition upd_waiters (f : list (Z * bool) -> list (Z * bool)) (s : context) : context :=
    mkCtx (worker_id s) (nextLocalId_ s) (heap s) (nextLoc s) (owners_ s) (pendingOwners_ s)
    (ownerFutures s) (forks_ s) (pendingUsers_ s) (pstates s) (confirmedUsers_ s)
    (pendingChildren_ s) (numPendingFutures_ s) (destroyed_ s) (tls s) (f (waiters s)) (sent s)
    (errorHandlers_ s) (cv_notified s).
Definition upd_sent (f : list request -> list request) (s : context) : context :=
    mkCtx (worker_id s) (nextLocalId_ s) (heap s) (nextLoc s) (owners_ s) (pendingOwners_ s)
    (ownerFutures s) (forks_ s) (pendingUsers_ s) (pstates s) (confirmedUsers_ s)
    (pendingChildren_ s) (numPendingFutures_ s) (destroyed_ s) (tls s) (waiters s) (f (sent s))
    (errorHandlers_ s) (cv_notified s).
Definition upd_errorHandlers_ (f : option nat -> option nat) (s : context) : context :=
    mkCtx (worker_id s) (nextLocalId_ s) (heap s) (nextLoc s) (owners_ s) (pendingOwners_ s)
    (ownerFutures s) (forks_ s) (pendingUsers_ s) (pstates s) (confirmedUsers_ s)
    (pendingChildren_ s) (numPendingFutures_ s) (destroyed_ s) (tls s) (waiters s) (sent s) (f
    (errorHandlers_ s)) (cv_notified s).
Definition upd_cv_notified (f : nat -> nat) (s : context) : context :=
    mkCtx (worker_id s) (nextLocalId_ s) (heap s) (nextLoc s) (owners_ s) (pendingOwners_ s)
    (ownerFutures s) (forks_ s) (pendingUsers_ s) (pstates s) (confirmedUsers_ s)
    (pendingChildren_ s) (numPendingFutures_ s) (destroyed_ s) (tls s) (waiters s) (sent s)
    (errorHandlers_ s) (f (cv_notified s)).

Definition init_context (me : Z) : context :=
  mkCtx me 0 ∅ 0 ∅ ∅ [] ∅ ∅ [] ∅ ∅ 0 false ∅ [] [] None 0.

Abbreviation op := (M context).

Definition tls_of (t : nat) (s : context) : list nat * bool := default ([], false) (tls s !! t).
Definition set_tls (t : nat) (x : list nat * bool) : context -> context :=
  upd_tls (fun m => <[t := x]> m).

(** Dereferencing an intrusive_ptr; a dangling one is undefined behaviour. *)
Definition deref (l : nat) : op RRef_ := fun s =>
  match heap s !! l with
  | Some r => (Ret r, s)
  | None => (Throw (Undefined "dangling RRef"), s)
  end.
Definition update_rref (l : nat) (f : RRef_ -> RRef_) : op unit :=
  let! r := deref l in
  modify (upd_heap (fun h => <[l := f r]> h)).
Definition alloc (r : RRef_) : op nat := fun s =>
  (Ret (nextLoc s), upd_nextLoc S (upd_heap (fun h => <[nextLoc s := r]> h) s)).

Definition notify_all : op unit := modify (upd_cv_notified S).

Definition genGloballyUniqueId : op GloballyUniqueId := fun s =>
  (Ret (mkId (worker_id s) (nextLocalId_ s)),
   upd_nextLocalId_ (fun n => int64 (n + 1)) s).

(** agent_->sendWithRetries(agent_->getWorkerInfo(to), cmd): the index of the
    request stands for the returned future. *)
Definition send (to : Z) (cmd : RRefCommand unit) : op nat :=
  do! lift (getWorkerInfo to) in fun s =>
  (Ret (length (sent s)), upd_sent (fun l => l ++ [mkRequest to cmd None false]) s).
Definition addCallback (fut : nat) (cb : callback) : op unit :=
  modify (upd_sent (alter (fun r => mkRequest (rq_to r) (rq_cmd r) (Some cb) (rq_done r)) fut)).
Definition incrPendingFutures : op unit := modify (upd_numPendingFutures_ (fun n => int64 (n + 1))).
Definition decrPendingFutures : op unit := modify (upd_numPendingFutures_ (fun n => int64 (n - 1))).

(** A JitFuture that completed: a value or an error message. *)
Definition handleException (err : option string) : op unit :=
  match err with None => ret tt | Some msg => throw (RuntimeError msg) end.

(** ** Forks of an OwnerRRef *)

(** [forks_[rrefId]] creates an empty set when the key is absent. *)
Definition forks_of (rrefId : RRefId) (s : context) : gset ForkId := default ∅ (forks_ s !! rrefId).
Definition set_forks (rrefId : RRefId) (f : gset ForkId) : context -> context :=
  upd_forks_ (fun m => <[rrefId := f]> m).

Definition addSelfAsFork (rref : nat) : op unit :=
  let! r := deref rref in
  let rrefId := rrefId_ r in
  do! modify (upd_owners_ (fun m => <[rrefId := rref]> m)) in
  let! rrefForks := gets (forks_of rrefId) in
  do! modify (set_forks rrefId rrefForks) in
  do! assert_ (negb (bool_decide (rrefId ∈ rrefForks)))
        (AssertFailed "Attempt to add self as fork twice ") in
  modify (set_forks rrefId ({[rrefId]} ∪ rrefForks)).

Definition addForkOfOwner (rrefId : RRefId) (forkId : ForkId) : op unit :=
  let! rrefForks := gets (forks_of rrefId) in
  do! modify (set_forks rrefId rrefForks) in
  do! assert_ (negb (bool_decide (forkId ∈ rrefForks)))
        (AssertFailed "Got fork notification twice on the same RRef ") in
  modify (set_forks rrefId ({[forkId]} ∪ rrefForks)).

Definition addForkOfOwnerIfNotPresent (rrefId : RRefId) (forkId : ForkId) : op unit :=
  let! rrefForks := gets (forks_of rrefId) in
  do! modify (set_forks rrefId rrefForks) in
  if bool_decide (forkId ∈ rrefForks) then ret tt
  else modify (set_forks rrefId ({[forkId]} ∪ rrefForks)).

(** Returns the OwnerRRef whose last fork went away. *)
Definition delForkOfOwner (rrefId : RRefId) (forkId : ForkId) : op (option nat) := fun s =>
  match forks_ s !! rrefId with
  | None => (Ret None, s)
  | Some rrefForks =>
      let rrefForks := rrefForks ∖ {[forkId]} in
      if bool_decide (rrefForks = ∅) then
        let deletedRRef := owners_ s !! rrefId in
        let s := upd_forks_ (delete rrefId) (upd_owners_ (delete rrefId) s) in
        (Ret deletedRRef,
         match deletedRRef with Some _ => upd_cv_notified S s | None => s end)
      else (Ret None, set_forks rrefId rrefForks s)
  end.

(** ** Pending and confirmed users *)

Definition addPendingChild (forkId : ForkId) (rref : nat) : op unit :=
  let! r := deref rref in
  do! assert_ (negb (isOwner r)) (AssertFailed "OwnerRRef should not have a pending child.") in
  let! present := gets (fun s => pendingChildren_ s !! forkId) in
  do! assert_ (bool_decide (present = None))
        (AssertFailed "Inconsistent states: attempt to add the same child fork twice.") in
  modify (upd_pendingChildren_ (fun m => <[forkId := rref]> m)).

Definition delPendingChild (forkId : ForkId) : op unit :=
  do! modify (upd_pendingChildren_ (delete forkId)) in
  notify_all.

Definition addPendingUser (t : nat) (forkId : ForkId) (rref : nat) : op unit :=
  let! r := deref rref in
  do! assert_ (negb (isOwner r)) (AssertFailed "Attempt to add an OwnerRRef as a pending User.") in
  let! state := gets (fun s => length (pstates s)) in
  do! modify (upd_pstates (fun l => l ++ [mkPending rref false []])) in
  let! tl := gets (tls_of t) in
  do! (if tl.2 then modify (set_tls t (tl.1 ++ [state], true)) else ret tt) in
  let! present := gets (fun s => pendingUsers_ s !! forkId) in
  do! assert_ (bool_decide (present = None))
        (AssertFailed "Inconsistent states: attempt to add the same UserRRef twice.") in
  modify (upd_pendingUsers_ (fun m => <[forkId := state]> m)).

(** [unordered_map::emplace] keeps an existing entry. *)
Definition addConfirmedUser (forkId : ForkId) (rref : nat) : op unit :=
  modify (upd_confirmedUsers_ (fun m =>
    match m !! forkId with Some _ => m | None => <[forkId := rref]> m end)).

(** The callback of waitForThreadLocalPendingRRefs: fetch_sub returns the old
    count. *)
Definition waiter_fire (w : nat) : op unit :=
  modify (upd_waiters (alter (fun p =>
    (uint64 (p.1 - 1), if p.1 =? 1 then true else p.2)) w)).

(** PendingUserState::confirm: confirms the UserRRef, then completes future_,
    which runs the attached callbacks. *)
Definition confirm (state : nat) : op unit :=
  let! p := gets (fun s => pstates s !! state) in
  match p with
  | None => throw (Undefined "dangling PendingUserState")
  | Some p =>
      do! update_rref (ps_rref p) confirm_rref in
      do! modify (upd_pstates (alter (fun p => mkPending (ps_rref p) true []) state)) in
      for_each (ps_callbacks p) waiter_fire
  end.

Definition delPendingUser (forkId : ForkId) : op unit :=
  let! found := gets (fun s => pendingUsers_ s !! forkId) in
  match found with
  | None => throw (AssertFailed "Inconsistent states: attempt to delete a non-exist UserRRef.")
  | Some deletedState =>
      let! p := gets (fun s => pstates s !! deletedState) in
      match p with
      | None => throw (Undefined "dangling PendingUserState")
      | Some p =>
          do! addConfirmedUser forkId (ps_rref p) in
          do! modify (upd_pendingUsers_ (delete forkId)) in
          do! confirm deletedState in
          notify_all
      end
  end.

Definition getPendingUser (forkId : ForkId) : op nat :=
  let! found := gets (fun s => pendingUsers_ s !! forkId) in
  match found with
  | None => throw (AssertFailed "Pending user with forkId ")
  | Some state =>
      let! p := gets (fun s => pstates s !! state) in
      match p with
      | None => throw (Undefined "dangling PendingUserState")
      | Some p => ret (ps_rref p)
      end
  end.

(** ** Waiting for the RRefs of a request's arguments *)

Definition recordThreadLocalPendingRRefs (t : nat) : op unit :=
  let! tl := gets (tls_of t) in
  do! assert_ (bool_decide (tl.1 = []))
        (AssertFailed "User RRef Table should be empty when start recording") in
  modify (set_tls t (tl.1, true)).

(** [state->future_.addCallback]: runs at once on a completed future. *)
Definition pstate_addCallback (w state : nat) : op unit :=
  let! p := gets (fun s => pstates s !! state) in
  match p with
  | None => throw (Undefined "dangling PendingUserState")
  | Some p =>
      if ps_completed p then waiter_fire w
      else modify (upd_pstates (alter (fun p =>
             mkPending (ps_rref p) (ps_completed p) (ps_callbacks p ++ [w])) state))
  end.

(** The returned future is an index of [waiters]. *)
Definition waitForThreadLocalPendingRRefs (t : nat) : op nat :=
  let! tl := gets (tls_of t) in
  let! future := gets (fun s => length (waiters s)) in
  do! (if bool_decide (tl.1 = []) then modify (upd_waiters (fun l => l ++ [(0, true)]))
       else
         do! modify (upd_waiters (fun l => l ++ [(Z.of_nat (length tl.1), false)])) in
         for_each tl.1 (pstate_addCallback future)) in
  do! modify (set_tls t ([], false)) in
  ret future.

Definition clearRecordedPendingRRefsOnError (t : nat) : op unit := modify (set_tls t ([], false)).

(** ** Creating RRefs *)

Definition createUserRRef_ids (ownerId : Z) (rrefId : RRefId) (forkId : ForkId) (type : Ty) : op nat :=
  let! me := gets worker_id in
  do! assert_ (negb (ownerId =? me)) (CheckFailed "RRef owner cannot create user RRef.") in
  alloc (mkRRef ownerId rrefId type false (UserRRef forkId false false)).

Definition createUserRRef (ownerId : Z) (type : Ty) : op nat :=
  let! me := gets worker_id in
  do! assert_ (negb (ownerId =? me)) (CheckFailed "Cannot create UserRRef on owner.") in
  let! rrefId := genGloballyUniqueId in
  let! forkId := genGloballyUniqueId in
  createUserRRef_ids ownerId rrefId forkId type.

Definition getOrCreateOwnerRRef (rrefId : RRefId) (type : Ty) : op nat :=
  let! found := gets (fun s => owners_ s !! rrefId) in
  match found with
  | None =>
      let! me := gets worker_id in
      let! rref := alloc (mkRRef me rrefId type false OwnerRRef) in
      do! modify (upd_owners_ (fun m => <[rrefId := rref]> m)) in
      let! pendingOwner := gets (fun s => pendingOwners_ s !! rrefId) in
      do! match pendingOwner with
          | None => ret tt
          | Some fut =>
              do! modify (upd_ownerFutures (alter (fun _ => Some rref) fut)) in
              modify (upd_pendingOwners_ (delete rrefId))
          end in
      ret rref
  | Some ownerRRef =>
      let! r := deref ownerRRef in
      do! (if bool_decide (type = TensorType) then
             assert_ (isSubtypeOfTensor (rref_type r))
               (AssertFailed "Expect OwnerRRef to be a sub-type of TensorType, but got ")
           else assert_ (bool_decide (rref_type r = type)) (AssertFailed "OwnerRRef type is ")) in
      ret ownerRRef
  end.

Definition getOrCreateRRef (d : RRefForkData) (type : Ty) : op nat :=
  let! me := gets worker_id in
  if fd_ownerId d =? me then getOrCreateOwnerRRef (fd_rrefId d) type
  else createUserRRef_ids (fd_ownerId d) (fd_rrefId d) (fd_forkId d) type.

Definition createOwnerRRef (type : Ty) : op nat :=
  let! me := gets worker_id in
  let! rrefId := genGloballyUniqueId in
  alloc (mkRRef me rrefId type false OwnerRRef).

(** The future returned: a pending one of the table, or one created completed. *)
Definition getOwnerRRef (rrefId : RRefId) (forceCreated : bool) : op nat :=
  let! found := gets (fun s => owners_ s !! rrefId) in
  match found with
  | None =>
      do! assert_ (negb forceCreated) (AssertFailed "Expected OwnerRRef with id ") in
      let! pendingOwner := gets (fun s => pendingOwners_ s !! rrefId) in
      match pendingOwner with
      | None =>
          let! futureOwner := gets (fun s => length (ownerFutures s)) in
          do! modify (upd_ownerFutures (fun l => l ++ [None])) in
          do! modify (upd_pendingOwners_ (fun m => <[rrefId := futureOwner]> m)) in
          ret futureOwner
      | Some fut => ret fut
      end
  | Some ownerRRef =>
      let! fut := gets (fun s => length (ownerFutures s)) in
      do! modify (upd_ownerFutures (fun l => l ++ [Some ownerRRef])) in
      ret fut
  end.

(** ** Sharing RRefs *)

(** RRef::fork and UserRRef::fork. *)
Definition fork (rref : nat) : op RRefForkData :=
  let! r := deref rref in
  do! (match class_ r with
       | UserRRef _ _ deletedOnOwner =>
           assert_ (negb deletedOnOwner) (CheckFailed " has been deleted. Cannot call fork")
       | OwnerRRef => ret tt
       end) in
  let! forkId := genGloballyUniqueId in
  let! me := gets worker_id in
  ret (mkForkData (ownerId_ r) (rrefId_ r) forkId me (getTypeStr (rref_type r))).

Definition prepareChildFork (rref : nat) : op RRefForkData :=
  let! r := deref rref in
  do! assert_ (negb (timedOut_ r)) (CheckFailed "RRef creation via rpc.remote() timed out") in
  let! rrefForkData := fork rref in
  do! (if isOwner r then
         do! addForkOfOwner (fd_rrefId rrefForkData) (fd_forkId rrefForkData) in
         modify (upd_owners_ (fun m => <[rrefId_ r := rref]> m))
       else addPendingChild (fd_forkId rrefForkData) rref) in
  ret rrefForkData.

Definition notifyOwnerAndParentOfFork (t : nat) (forkId : ForkId) (parent : Z) (rref : nat) : op unit :=
  let! r := deref rref in
  let! me := gets worker_id in
  if parent =? ownerId_ r then
    if parent =? me then
      let! deletedRRef := delForkOfOwner (rrefId_ r) forkId in
      match deletedRRef with
      | Some l =>
          let! d := deref l in
          assert_ (bool_decide (rrefId_ d = rrefId_ r)) (AssertFailed "Deleting a fork of ")
      | None => ret tt
      end
    else addConfirmedUser forkId rref
  else if isOwner r then
    do! incrPendingFutures in
    let! jitFuture := send parent (RRefChildAccept forkId) in
    addCallback jitFuture CbDecrement
  else
    do! incrPendingFutures in
    let! jitFuture := send (ownerId_ r) (RRefForkRequest (rrefId_ r) forkId) in
    do! addPendingUser t forkId rref in
    addCallback jitFuture (CbForkRequest forkId parent).

Definition finishForkRequest (forkId : ForkId) (parent : Z) : op unit :=
  do! delPendingUser forkId in
  do! incrPendingFutures in
  let! jitFuture := send parent (RRefChildAccept forkId) in
  addCallback jitFuture CbDecrement.

(** The lambdas: nothing is decremented when handleException throws. *)
Definition run_callback (cb : callback) (err : option string) : op unit :=
  match cb with
  | CbDecrement =>
      do! handleException err in
      decrPendingFutures
  | CbForkRequest forkId parent =>
      do! handleException err in
      do! finishForkRequest forkId parent in
      decrPendingFutures
  end.

(** The agent completes the future of request [i], once. *)
Definition on_response (i : nat) (err : option string) : op unit :=
  let! found := gets (fun s => sent s !! i) in
  match found with
  | Some (mkRequest to cmd cb false) =>
      do! modify (upd_sent (<[i := mkRequest to cmd cb true]>)) in
      match cb with Some cb => run_callback cb err | None => ret tt end
  | _ => ret tt
  end.

(** ** Deleting users and owners *)

Definition delUser (owner : Z) (rrefId : RRefId) (forkId : ForkId) : op unit :=
  let! destroyed := gets destroyed_ in
  do! (if destroyed then ret tt
       else
         do! incrPendingFutures in
         let! jitFuture := send owner (RRefUserDelete rrefId forkId) in
         addCallback jitFuture CbDecrement) in
  modify (upd_confirmedUsers_ (delete forkId)).

(** UserRRef::tryDel catches and logs every exception; RRef::tryDel does
    nothing. *)
Definition tryDel (rref : nat) : op unit :=
  let! r := deref rref in
  match class_ r with
  | UserRRef forkId _ false => fun s =>
      match delUser (ownerId_ r) (rrefId_ r) forkId s with
      | (Ret _, s') => update_rref rref setDeletedOnOwner s'
      | (Throw _, s') => (Ret tt, s')
      | (Block, s') => (Block, s')
      end
  | _ => ret tt
  end.

(** The last intrusive_ptr to [rref] goes away: release_resources, then the
    destructor. *)
Definition release (rref : nat) : op unit :=
  do! tryDel rref in
  modify (upd_heap (delete rref)).

Definition unforkedOwners (s : context) : list RRefId :=
  filter (fun rrefId => forks_ s !! rrefId = None) (map fst (map_to_list (owners_ s))).

Definition removeOwner (rrefId : RRefId) : op unit :=
  let! found := gets (fun s => owners_ s !! rrefId) in
  do! assert_ (bool_decide (found <> None)) (CheckFailed "Did not find OwnerRRef with RRefId: ") in
  modify (upd_owners_ (delete rrefId)).

Definition removeUnforkedOwners : op unit :=
  let! ids := gets unforkedOwners in
  for_each ids removeOwner.

(** [wait1] and [wait2] are what the other threads do to the context during the
    two waits on deleteAllUsersCV_.  A wait that times out is logged. *)
Definition delAllUsersAndUnforkedOwners (wait1 wait2 : context -> context) : op (bool * bool) :=
  do! modify wait1 in
  let! noPending := gets (fun s =>
    bool_decide (pendingUsers_ s = ∅) && bool_decide (pendingChildren_ s = ∅)) in
  let! tempConfirmedUsers := gets confirmedUsers_ in
  do! modify (upd_confirmedUsers_ (fun _ => ∅)) in
  do! for_each (map snd (map_to_list tempConfirmedUsers)) (fun user =>
        let! alive := gets (fun s => heap s !! user) in
        match alive with None => ret tt | Some _ => tryDel user end) in
  do! removeUnforkedOwners in
  do! modify wait2 in
  let! noOwner := gets (fun s => bool_decide (owners_ s = ∅)) in
  ret (noPending, noOwner).

Definition checkRRefLeaks (ignoreRRefLeak : bool) : op unit :=
  let! forks := gets forks_ in
  if bool_decide (forks = ∅) then ret tt
  else assert_ ignoreRRefLeak (CheckFailed "Leaking RRef ").

Definition destroyInstance (ignoreRRefLeak : bool) : op (list nat) :=
  do! modify (upd_destroyed_ (fun _ => true)) in
  do! checkRRefLeaks ignoreRRefLeak in
  let! deletedRRefs := gets (fun s =>
    filter (fun l => default false (isPyObj <$> heap s !! l) = true)
      (map snd (map_to_list (owners_ s)))) in
  do! modify (upd_owners_ (fun _ => ∅)) in
  do! modify (upd_pendingOwners_ (fun _ => ∅)) in
  ret deletedRRefs.

(** The four counters of getDebugInfo; [int numForks]. *)
Definition getDebugInfo : op (Z * Z * Z * Z) := gets (fun s =>
  (Z.of_nat (size (owners_ s)), numPendingFutures_ s, Z.of_nat (size (pendingUsers_ s)),
   foldl (fun n p => int32 (n + Z.of_nat (size (p : RRefId * gset ForkId).2))) 0
     (map_to_list (forks_ s)))).

(** ** Errors of remote calls *)

(** RRef::handleError.  The table of handlers is a function-local static: its
    lambdas capture the [this] of the first call. *)
Definition handleError (errorType : Z) (errMsg : string) (rref : nat) : op unit :=
  let! captured := gets errorHandlers_ in
  let this := default rref captured in
  do! modify (upd_errorHandlers_ (fun _ => Some this)) in
  if (errorType =? 1) || (errorType =? 2) then update_rref this setTimedOut
  else if errorType =? 0 then handleException (Some errMsg)
  else throw (Undefined "errorHandlers.find() == end()").

(** The completed future of a remote call: the deserialized response, or an
    error with the type getRPCErrorType parses from it. *)
Inductive remote_result : Type :=
  | RemoteOk (cmd : RRefCommand unit)
  | RemoteError (errorType : Z) (errMsg : string).

(** [dynamic_cast<RemoteRet*>]: a null pointer for another command. *)
Definition asRemoteRet (cmd : RRefCommand unit) : op (RRefId * ForkId) :=
  match cmd with
  | RemoteRet rrefId forkId => ret (rrefId, forkId)
  | _ => throw (Undefined "null RemoteRet")
  end.

Definition confirmPendingUser (result : remote_result) (expectedForkId : ForkId) : op unit :=
  do! (match result with
       | RemoteOk cmd =>
           let! rr := asRemoteRet cmd in
           assert_ (bool_decide (rr.2 = expectedForkId)) (AssertFailed "rr->forkId() == expectedForkId")
       | RemoteError errorType errMsg =>
           let! rref_ptr := getPendingUser expectedForkId in
           handleError errorType errMsg rref_ptr
       end) in
  delPendingUser expectedForkId.

Definition finishCreatingOwnerRRef (result : remote_result) (rrefId : RRefId) : op (option nat) :=
  match result with
  | RemoteError errorType errMsg =>
      let! fut := getOwnerRRef rrefId true in
      let! v := gets (fun s => ownerFutures s !! fut) in
      match v with
      | Some (Some rref_ptr) =>
          do! handleError errorType errMsg rref_ptr in
          let! r := deref rref_ptr in
          delForkOfOwner (rrefId_ r) (rrefId_ r)
      | _ => throw (AssertFailed "constValue of a future that is not completed")
      end
  | RemoteOk cmd =>
      let! rr := asRemoteRet cmd in
      do! assert_ (bool_decide (rr.1 = rr.2))
            (AssertFailed "Expecting an OwnerRRef as RemoteRet but got a fork.") in
      delForkOfOwner rr.1 rr.1
  end.

(** ** Handlers of the RRef control messages *)

(** RequestCallbackNoPython::handleRRefDelete: [rref->isPyObj()] on the pointer
    it is given. *)
Definition handleRRefDelete (rref : option nat) : op unit :=
  match rref with
  | None => throw (Undefined "null RRef")
  | Some l =>
      let! r := deref l in
      assert_ (negb (isPyObj r)) (CheckFailed "RRefs with python objects not supported!")
  end.

(** RequestCallbackImpl::handleRRefDelete drops the handler's pointer; when it
    was the last one, the object's [release] is a transition of its own. *)
Definition handleRRefDelete_python (rref : option nat) : op unit :=
  match rref with
  | None => ret tt
  | Some l => let! r := deref l in ret tt
  end.

Definition processRRefUserDelete_python (rrefId : RRefId) (forkId : ForkId) :
    op (RRefCommand unit) :=
  let! deletedRRef := delForkOfOwner rrefId forkId in
  do! handleRRefDelete_python deletedRRef in
  ret RRefAck.

Definition processRRefUserDelete (rrefId : RRefId) (forkId : ForkId) : op (RRefCommand unit) :=
  let! deletedRRef := delForkOfOwner rrefId forkId in
  do! handleRRefDelete deletedRRef in
  ret RRefAck.

Definition processRRefChildAccept (forkId : ForkId) : op (RRefCommand unit) :=
  do! delPendingChild forkId in
  ret RRefAck.

Definition processRRefForkRequest (rrefId : RRefId) (forkId : ForkId) : op (RRefCommand unit) :=
  do! addForkOfOwnerIfNotPresent rrefId forkId in
  ret RRefAck.

(** processBaseScriptRemoteCall and the [postProcessing] it runs once the
    operator has produced a value or an error; [returnType] is the type of the
    operator's result.  The value stored in the OwnerRRef is not modelled. *)
Definition processBaseScriptRemoteCall (rrefId : RRefId) (forkId : ForkId) (returnType : Ty) :
    op (RRefCommand unit) :=
  do! (if bool_decide (rrefId = forkId) then
         let! fut := getOwnerRRef rrefId true in ret tt
       else let! l := getOrCreateOwnerRRef rrefId returnType in ret tt) in
  do! (if bool_decide (rrefId = forkId) then ret tt else addForkOfOwner rrefId forkId) in
  ret (RemoteRet rrefId forkId).

(** ** The fork table of an OwnerRRef *)

Lemma context_eta (s : context) : s = upd_forks_ (fun m => m) s.
Proof. by destruct s. Qed.

Lemma addForkOfOwnerIfNotPresent_eq r f s :
  addForkOfOwnerIfNotPresent r f s = (Ret tt, set_forks r ({[f]} ∪ forks_of r s) s).
Proof.
  unfold addForkOfOwnerIfNotPresent, bind, gets, modify.
  assert (Hi : forall S1 S2, set_forks r S1 (set_forks r S2 s) = set_forks r S1 s).
  { intros. unfold set_forks, upd_forks_. simpl. by rewrite insert_insert_eq. }
  case_bool_decide as Hf; cbn -[set_forks forks_of]; [|by rewrite Hi].
  do 3 f_equal. set_solver.
Qed.

Lemma addForkOfOwner_eq r f s :
  addForkOfOwner r f s =
    if bool_decide (f ∈ forks_of r s)
    then (Throw (AssertFailed "Got fork notification twice on the same RRef "), s)
    else (Ret tt, set_forks r ({[f]} ∪ forks_of r s) s).
Proof.
  unfold addForkOfOwner, bind, gets, modify, assert_, lift, ocheck.
  case_bool_decide as Hf; cbn -[set_forks forks_of].
  - f_equal. unfold forks_of in *. unfold set_forks.
    destruct (forks_ s !! r) as [S'|] eqn:Hr; simpl in *; [|set_solver].
    rewrite (context_eta s) at 2. unfold upd_forks_. simpl. by rewrite insert_id.
  - f_equal. unfold set_forks, upd_forks_. simpl. by rewrite insert_insert_eq.
Qed.

(** What the owner of [r] promises: the set of registered forks, and whether the
    OwnerRRef is still kept alive. *)
Inductive fork_msg : Type := ForkMsg (f : ForkId) | DeleteMsg (f : ForkId).

Definition handle_fork_msg (r : RRefId) (m : fork_msg) : op (RRefCommand unit) :=
  match m with
  | ForkMsg f => processRRefForkRequest r f
  | DeleteMsg f => processRRefUserDelete_python r f
  end.

Fixpoint handle_fork_msgs (r : RRefId) (ms : list fork_msg) : op (list (RRefCommand unit)) :=
  match ms with
  | [] => ret []
  | m :: ms =>
      let! a := handle_fork_msg r m in
      let! l := handle_fork_msgs r ms in
      ret (a :: l)
  end.

Definition refset_step (st : gset ForkId * bool) (m : fork_msg) : gset ForkId * bool :=
  match m with
  | ForkMsg f => ({[f]} ∪ st.1, st.2)
  | DeleteMsg f =>
      if bool_decide (st.1 = ∅) then st
      else (st.1 ∖ {[f]}, st.2 && negb (bool_decide (st.1 ∖ {[f]} = ∅)))
  end.

Definition refset (r : RRefId) (s : context) : gset ForkId * bool :=
  (forks_of r s, bool_decide (is_Some (owners_ s !! r))).

Definition owner_live (r : RRefId) (s : context) : Prop :=
  forall l, owners_ s !! r = Some l -> is_Some (heap s !! l).
Definition fork_sets_ok (s : context) : Prop := forall r S, forks_ s !! r = Some S -> S <> ∅.

(** The tables of the other RRefs, and everything outside the two tables. *)
Definition others_kept (r : RRefId) (s s' : context) : Prop :=
  (forall r', r' <> r -> forks_ s' !! r' = forks_ s !! r' /\ owners_ s' !! r' = owners_ s !! r') /\
  heap s' = heap s /\ pendingUsers_ s' = pendingUsers_ s /\
  confirmedUsers_ s' = confirmedUsers_ s /\ pendingChildren_ s' = pendingChildren_ s.

Lemma handle_fork_msg_spec r m s :
  fork_sets_ok s -> owner_live r s ->
  exists s', handle_fork_msg r m s = (Ret RRefAck, s') /\
    refset r s' = refset_step (refset r s) m /\ others_kept r s s' /\
    fork_sets_ok s' /\ owner_live r s'.
Proof.
  intros Hok Hlive. destruct m as [f|f]; simpl.
  - unfold processRRefForkRequest, bind. rewrite addForkOfOwnerIfNotPresent_eq.
    eexists. split; [reflexivity|]. unfold refset, forks_of, set_forks, others_kept. simpl.
    rewrite lookup_insert_eq. split_and!; try done.
    + intros r' Hr. by rewrite lookup_insert_ne.
    + intros r' S'. simpl. destruct (decide (r' = r)) as [->|].
      * rewrite lookup_insert_eq. intros [= <-]. set_solver.
      * rewrite lookup_insert_ne by done. apply Hok.
  - unfold processRRefUserDelete_python, delForkOfOwner, bind, refset, forks_of.
    destruct (forks_ s !! r) as [S'|] eqn:Hr.
    2: { exists s. simpl. rewrite Hr. by case_bool_decide. }
    simpl. rewrite (bool_decide_false (S' = ∅)) by by apply (Hok r).
    case_bool_decide as He.
    + destruct (owners_ s !! r) as [l|] eqn:Ho; simpl.
      * destruct (Hlive l Ho) as [o Hl]. unfold bind, deref. simpl. rewrite Hl.
        eexists. split; [reflexivity|]. unfold others_kept. simpl. rewrite !lookup_delete_eq. simpl.
        rewrite He. split_and!; try done.
        -- intros r' ?. by rewrite !lookup_delete_ne.
        -- intros r' S''. simpl. rewrite lookup_delete_Some. intros [_ ?]. by eapply Hok.
        -- intros l'. simpl. by rewrite lookup_delete_eq.
      * eexists. split; [reflexivity|]. unfold others_kept. simpl. rewrite !lookup_delete_eq. simpl.
        rewrite He. split_and!; try done.
        -- intros r' ?. by rewrite !lookup_delete_ne.
        -- intros r' S''. simpl. rewrite lookup_delete_Some. intros [_ ?]. by eapply Hok.
        -- intros l'. simpl. by rewrite lookup_delete_eq.
    + eexists. split; [reflexivity|]. unfold others_kept, set_forks. simpl.
      rewrite lookup_insert_eq. simpl. rewrite andb_true_r. split_and!; try done.
      * intros r' ?. by rewrite lookup_insert_ne.
      * intros r' S''. simpl. destruct (decide (r' = r)) as [->|].
        -- rewrite lookup_insert_eq. by intros [= <-].
        -- rewrite lookup_insert_ne by done. apply Hok.
Qed.

Lemma others_kept_trans r s1 s2 s3 :
  others_kept r s1 s2 -> others_kept r s2 s3 -> others_kept r s1 s3.
Proof.
  intros (Hk1 & ? & ? & ? & ?) (Hk2 & ? & ? & ? & ?). split_and!; [|congruence..].
  intros r' Hr. destruct (Hk1 r' Hr), (Hk2 r' Hr). split; congruence.
Qed.

Lemma handle_fork_msgs_spec r ms s :
  fork_sets_ok s -> owner_live r s ->
  exists s', handle_fork_msgs r ms s = (Ret (replicate (length ms) RRefAck), s') /\
    refset r s' = foldl refset_step (refset r s) ms /\ others_kept r s s'.
Proof.
  revert s. induction ms as [|m ms IH]; intros s Hok Hl.
  { exists s. split_and!; done. }
  destruct (handle_fork_msg_spec r m s Hok Hl) as (s1 & Hs1 & Hr1 & Ho1 & Hok1 & Hl1).
  destruct (IH s1 Hok1 Hl1) as (s2 & Hs2 & Hr2 & Ho2).
  exists s2. simpl. unfold bind, ret. rewrite Hs1, Hs2. split_and!; [done| |].
  - by rewrite Hr2, Hr1.
  - by eapply others_kept_trans.
Qed.

(** A message delivered twice in a row has the effect of one delivery. *)
Lemma refset_step_twice st m : refset_step (refset_step st m) m = refset_step st m.
Proof.
  destruct st as [S' b]. destruct m as [f|f]; simpl.
  - f_equal. set_solver.
  - destruct (decide (S' = ∅)) as [He|He].
    { rewrite (bool_decide_true (S' = ∅)) by done. simpl. by rewrite bool_decide_true. }
    rewrite (bool_decide_false (S' = ∅)) by done. simpl.
    destruct (decide (S' ∖ {[f]} = ∅)) as [He'|He'].
    { by rewrite (bool_decide_true (_ ∖ _ = _)). }
    rewrite (bool_decide_false (S' ∖ {[f]} = ∅)) by done.
    replace (S' ∖ {[f]} ∖ {[f]}) with (S' ∖ {[f]}) by set_solver.
    by rewrite bool_decide_false, <- andb_assoc by done.
Qed.

Definition deliver_twice (ms : list fork_msg) : list fork_msg := ms ≫= fun m => [m; m].

Lemma refset_steps_twice ms st :
  foldl refset_step st (deliver_twice ms) = foldl refset_step st ms.
Proof.
  revert st. induction ms as [|m ms IH]; intros st; [done|].
  change (deliver_twice (m :: ms)) with (m :: m :: deliver_twice ms). simpl.
  by rewrite refset_step_twice.
Qed.

(** ** Table invariant

    No table points to a destroyed object, the objects have the class the table
    is for, and a pending user's state is pending. *)
Record ctx_inv (s : context) : Prop := {
  inv_next : forall l, is_Some (heap s !! l) -> (l < nextLoc s)%nat;
  inv_owners : forall r l, owners_ s !! r = Some l ->
    exists o, heap s !! l = Some o /\ isOwner o = true /\ rrefId_ o = r;
  inv_users : forall f p, pendingUsers_ s !! f = Some p ->
    exists st o, pstates s !! p = Some st /\ ps_completed st = false /\
      heap s !! ps_rref st = Some o /\ isOwner o = false;
  inv_users_inj : forall f1 f2 p,
    pendingUsers_ s !! f1 = Some p -> pendingUsers_ s !! f2 = Some p -> f1 = f2;
  inv_children : forall f l, pendingChildren_ s !! f = Some l ->
    exists o, heap s !! l = Some o /\ isOwner o = false;
  inv_forks : fork_sets_ok s;
  inv_tables : forall t p, p ∈ (tls_of t s).1 -> (p < length (pstates s))%nat;
  inv_tables_nodup : forall t, NoDup (tls_of t s).1;
}.

(** The part of the state the invariant is about. *)
Definition tables (s : context) :=
  (nextLoc s, heap s, owners_ s, pendingUsers_ s, pstates s, pendingChildren_ s, forks_ s, tls s).

Lemma ctx_inv_tables s s' : tables s' = tables s -> ctx_inv s -> ctx_inv s'.
Proof.
  unfold tables. intros [= H1 H2 H3 H4 H5 H6 H7 H8] [].
  split; unfold fork_sets_ok, tls_of in *; rewrite ?H1, ?H2, ?H3, ?H4, ?H5, ?H6, ?H7, ?H8; done.
Qed.

(** [safe m s Q]: run from [s], [m] does not reach undefined behaviour; if it
    returns, [Q] holds, and if it throws, the invariant does. *)
Definition undefined (e : exn) : bool := match e with Undefined _ => true | _ => false end.

Definition safe {A} (m : op A) (s : context) (Q : A -> context -> Prop) : Prop :=
  match m s with
  | (Ret a, s') => Q a s'
  | (Throw e, s') => undefined e = false /\ ctx_inv s'
  | (Block, _) => False
  end.

Definition keeps {A} (m : op A) : Prop := forall s, ctx_inv s -> safe m s (fun _ => ctx_inv).

Lemma safe_bind {A B} (m : op A) (k : A -> op B) s Q :
  safe m s (fun a s' => safe (k a) s' Q) -> safe (bind m k) s Q.
Proof. unfold safe, bind. by destruct (m s) as [[a|e|] s']. Qed.

Lemma safe_mono {A} (m : op A) s (Q Q' : A -> context -> Prop) :
  safe m s Q -> (forall a s', Q a s' -> Q' a s') -> safe m s Q'.
Proof. unfold safe. destruct (m s) as [[a|e|] s']; auto. Qed.

Lemma safe_assert b e s (Q : unit -> context -> Prop) :
  ctx_inv s -> undefined e = false -> (b = true -> Q tt s) -> safe (assert_ b e) s Q.
Proof. unfold safe, assert_, lift, ocheck. destruct b; auto. Qed.

Lemma safe_deref l o s (Q : RRef_ -> context -> Prop) :
  heap s !! l = Some o -> Q o s -> safe (deref l) s Q.
Proof. unfold safe, deref. by intros ->. Qed.

Lemma keeps_frame {A} (m : op A) :
  preserves tables m -> (forall s, match (m s).1 with Throw e => undefined e = false | Block => False | Ret _ => True end) ->
  keeps m.
Proof.
  intros Hp Hu s Hs. unfold safe. pose proof (Hp s) as Ht. pose proof (Hu s).
  destruct (m s) as [[a|e|] s']; simpl in *; [|split; [done|]|done];
    by apply (ctx_inv_tables s).
Qed.

(** The elementary updates. *)
Lemma inv_upd_heap s l o o' :
  ctx_inv s -> heap s !! l = Some o -> isOwner o' = isOwner o -> rrefId_ o' = rrefId_ o ->
  ctx_inv (upd_heap (fun h => <[l := o']> h) s).
Proof.
  intros [] Hl Ho Hr.
  assert (Hins : forall l' x, heap s !! l' = Some x ->
      exists x', <[l := o']> (heap s) !! l' = Some x' /\ isOwner x' = isOwner x /\ rrefId_ x' = rrefId_ x).
  { intros l' x Hx. destruct (decide (l' = l)) as [->|]; [rewrite lookup_insert_eq|rewrite lookup_insert_ne by done]; naive_solver. }
  split; simpl; try done.
  - intros l' [x Hx]. apply lookup_insert_Some in Hx as [[-> _]|[_ ?]]; eauto.
  - intros r l' H. destruct (inv_owners0 r l' H) as (x & Hx & ? & ?).
    destruct (Hins _ _ Hx) as (x' & ? & ? & ?). exists x'. split_and!; congruence.
  - intros f p H. destruct (inv_users0 f p H) as (st & x & ? & ? & Hx & ?).
    destruct (Hins _ _ Hx) as (x' & ? & ? & ?). exists st, x'. split_and!; congruence.
  - intros f l' H. destruct (inv_children0 f l' H) as (x & Hx & ?).
    destruct (Hins _ _ Hx) as (x' & ? & ? & ?). exists x'. split; congruence.
Qed.

Lemma inv_alloc s o :
  ctx_inv s ->
  ctx_inv (upd_nextLoc S (upd_heap (fun h => <[nextLoc s := o]> h) s)).
Proof.
  intros []. assert (Hne : forall l x, heap s !! l = Some x -> <[nextLoc s := o]> (heap s) !! l = Some x).
  { intros l x Hx. rewrite lookup_insert_ne; [done|]. intros <-. specialize (inv_next0 (nextLoc s)).
    rewrite Hx in inv_next0. assert (nextLoc s < nextLoc s)%nat by eauto. lia. }
  split; simpl; try done.
  - intros l [x Hx]. apply lookup_insert_Some in Hx as [[-> _]|[_ Hx]]; [lia|].
    assert (l < nextLoc s)%nat by eauto. lia.
  - naive_solver.
  - intros f p H. destruct (inv_users0 f p H) as (st & x & ?). exists st, x. naive_solver.
  - naive_solver.
Qed.

Lemma inv_add_owner s r l o :
  ctx_inv s -> heap s !! l = Some o -> isOwner o = true -> rrefId_ o = r ->
  ctx_inv (upd_owners_ (fun m => <[r := l]> m) s).
Proof.
  intros [] Hl Ho Hr. split; simpl; try done.
  intros r' l' H. apply lookup_insert_Some in H as [[<- <-]|[_ ?]]; eauto.
Qed.

Lemma inv_del_owner s r : ctx_inv s -> ctx_inv (upd_owners_ (delete r) s).
Proof.
  intros []. split; simpl; try done. intros r' l' H. apply lookup_delete_Some in H as [_ ?]; eauto.
Qed.

Lemma inv_set_forks s r F : ctx_inv s -> F <> ∅ -> ctx_inv (set_forks r F s).
Proof.
  intros [] HF. split; simpl; try done. intros r' S' H. simpl in H.
  apply lookup_insert_Some in H as [[<- <-]|[_ ?]]; eauto.
Qed.

Lemma inv_del_forks s r : ctx_inv s -> ctx_inv (upd_forks_ (delete r) s).
Proof.
  intros []. split; simpl; try done. intros r' S' H. simpl in H.
  apply lookup_delete_Some in H as [_ ?]; eauto.
Qed.

Lemma inv_add_child s f l o :
  ctx_inv s -> heap s !! l = Some o -> isOwner o = false ->
  ctx_inv (upd_pendingChildren_ (fun m => <[f := l]> m) s).
Proof.
  intros [] Hl Ho. split; simpl; try done.
  intros r' l' H. apply lookup_insert_Some in H as [[<- <-]|[_ ?]]; eauto.
Qed.

Lemma inv_del_child s f : ctx_inv s -> ctx_inv (upd_pendingChildren_ (delete f) s).
Proof.
  intros []. split; simpl; try done. intros r' l' H. apply lookup_delete_Some in H as [_ ?]; eauto.
Qed.

Lemma inv_new_pstate s st : ctx_inv s -> ctx_inv (upd_pstates (fun l => l ++ [st]) s).
Proof.
  intros []. split; simpl; try done.
  - intros f p H. destruct (inv_users0 f p H) as (st' & x & Hst & ?). exists st', x.
    rewrite lookup_app_l by by eapply lookup_lt_Some. done.
  - intros t p Hp. rewrite length_app. simpl. specialize (inv_tables0 t p Hp). lia.
Qed.

Lemma inv_set_table s t (tab : list nat) b :
  ctx_inv s -> (forall p, p ∈ tab -> (p < length (pstates s))%nat) -> NoDup tab ->
  ctx_inv (set_tls t (tab, b) s).
Proof.
  intros [] Ht Hn.
  assert (Hl : forall t', tls_of t' (set_tls t (tab, b) s) = if decide (t' = t) then (tab, b) else tls_of t' s).
  { intros t'. unfold tls_of. simpl.
    case_decide; [subst; by rewrite lookup_insert_eq|by rewrite lookup_insert_ne]. }
  split; try done.
  - intros t' p. rewrite Hl. case_decide; [apply Ht|apply inv_tables0].
  - intros t'. rewrite Hl. by case_decide.
Qed.

Lemma inv_add_user s f p st o :
  ctx_inv s -> pstates s !! p = Some st -> ps_completed st = false ->
  heap s !! ps_rref st = Some o -> isOwner o = false ->
  (forall f', pendingUsers_ s !! f' <> Some p) ->
  ctx_inv (upd_pendingUsers_ (fun m => <[f := p]> m) s).
Proof.
  intros [] Hp Hc Hl Ho Hfresh. split; simpl; try done.
  - intros f' p' H. apply lookup_insert_Some in H as [[<- <-]|[_ ?]]; naive_solver.
  - intros f1 f2 p' H1 H2.
    apply lookup_insert_Some in H1 as [[<- <-]|[? H1]]; apply lookup_insert_Some in H2 as [[<- E2]|[? H2]];
      naive_solver.
Qed.

Lemma inv_del_user s f : ctx_inv s -> ctx_inv (upd_pendingUsers_ (delete f) s).
Proof.
  intros []. split; simpl; try done.
  - intros f' p H. apply lookup_delete_Some in H as [_ ?]; eauto.
  - intros f1 f2 p H1 H2. apply lookup_delete_Some in H1 as [_ ?], H2 as [_ ?]; eauto.
Qed.

(** A state that no pending user has may be changed freely. *)
Lemma inv_alter_pstate s p g :
  ctx_inv s -> (forall f, pendingUsers_ s !! f <> Some p) ->
  ctx_inv (upd_pstates (alter g p) s).
Proof.
  intros [] Hp. split; simpl; try done.
  - intros f p' H. rewrite list_lookup_alter_ne by (intros ->; naive_solver). eauto.
  - intros t p' H. rewrite length_alter. eauto.
Qed.

(** The operations keep the invariant and stay defined. *)

Lemma safe_ret {A} (a : A) s (Q : A -> context -> Prop) : Q a s -> safe (ret a) s Q.
Proof. done. Qed.
Lemma safe_gets {A} (g : context -> A) s (Q : A -> context -> Prop) : Q (g s) s -> safe (gets g) s Q.
Proof. done. Qed.
Lemma safe_modify g s (Q : unit -> context -> Prop) : Q tt (g s) -> safe (modify g) s Q.
Proof. done. Qed.
Lemma safe_throw {A} e s (Q : A -> context -> Prop) :
  undefined e = false -> ctx_inv s -> safe (throw e) s Q.
Proof. done. Qed.

(** Step over the first command of the goal. *)
Ltac safe_step :=
  lazymatch goal with
  | |- safe (bind _ _) _ _ => apply safe_bind
  | |- safe (ret _) _ _ => apply safe_ret
  | |- safe (gets _) _ _ => apply safe_gets
  | |- safe (modify _) _ _ => apply safe_modify
  | |- safe (throw _) _ _ => apply safe_throw; [done|]
  | |- safe (assert_ _ _) _ _ => apply safe_assert; [|done|]
  end; cbn beta.

(** Updates outside the tables. *)
Ltac inv_frame := eapply ctx_inv_tables; [|eassumption]; reflexivity.

Lemma safe_for_each {A} (l : list A) (f : A -> op unit) s :
  ctx_inv s -> (forall a s, a ∈ l -> ctx_inv s -> safe (f a) s (fun _ => ctx_inv)) ->
  safe (for_each l f) s (fun _ => ctx_inv).
Proof.
  revert s. induction l as [|a l IH]; intros s Hs Hf; [done|]. simpl. apply safe_bind.
  eapply safe_mono; [apply Hf; [apply list_elem_of_here|done]|].
  intros [] s' Hs'. apply IH; [done|]. intros b s'' Hb. apply Hf. by apply list_elem_of_further.
Qed.

Lemma safe_addFork r f s : ctx_inv s -> safe (addForkOfOwner r f) s (fun _ => ctx_inv).
Proof.
  intros Hs. unfold safe. rewrite addForkOfOwner_eq. case_bool_decide; [done|].
  apply inv_set_forks; [done|set_solver].
Qed.

Lemma safe_addForkIfNotPresent r f s :
  ctx_inv s -> safe (addForkOfOwnerIfNotPresent r f) s (fun _ => ctx_inv).
Proof.
  intros Hs. unfold safe. rewrite addForkOfOwnerIfNotPresent_eq.
  apply inv_set_forks; [done|set_solver].
Qed.

(** [addSelfAsFork] is [addForkOfOwner] after the insertion into owners_, up to
    the message of the assertion. *)
Lemma safe_addSelfAsFork l o s :
  ctx_inv s -> heap s !! l = Some o -> isOwner o = true ->
  safe (addSelfAsFork l) s (fun _ => ctx_inv).
Proof.
  intros Hs Hl Ho. unfold addSelfAsFork. apply safe_bind, (safe_deref _ o); [done|].
  set (s1 := upd_owners_ (fun m => <[rrefId_ o := l]> m) s).
  assert (H1 : ctx_inv s1) by by apply (inv_add_owner s _ l o).
  do 2 (safe_step; safe_step). fold s1. safe_step. safe_step. safe_step.
  pose proof (addForkOfOwner_eq (rrefId_ o) (rrefId_ o) s1) as Heq.
  unfold addForkOfOwner, bind, gets, modify, assert_, lift, ocheck in Heq.
  unfold safe, assert_, lift, ocheck.
  destruct (bool_decide (rrefId_ o ∈ forks_of (rrefId_ o) s1)); simpl in *.
  - split; [done|]. assert (He : set_forks (rrefId_ o) (forks_of (rrefId_ o) s1) s1 = s1) by congruence.
    by rewrite He.
  - assert (He : set_forks (rrefId_ o) ({[rrefId_ o]} ∪ forks_of (rrefId_ o) s1)
        (set_forks (rrefId_ o) (forks_of (rrefId_ o) s1) s1) =
        set_forks (rrefId_ o) ({[rrefId_ o]} ∪ forks_of (rrefId_ o) s1) s1) by congruence.
    rewrite He. apply inv_set_forks; [done|set_solver].
Qed.

Lemma safe_delFork r f s :
  ctx_inv s ->
  safe (delForkOfOwner r f) s (fun res s' => ctx_inv s' /\ heap s' = heap s /\
    forall l, res = Some l -> owners_ s !! r = Some l).
Proof.
  intros Hs. unfold safe, delForkOfOwner. destruct (forks_ s !! r) as [F|] eqn:HF; [|done].
  case_bool_decide as He; simpl.
  - assert (ctx_inv (upd_forks_ (delete r) (upd_owners_ (delete r) s)))
      by by apply inv_del_forks, inv_del_owner.
    split_and!; [|by destruct (owners_ s !! r)|done].
    destruct (owners_ s !! r); [|done]. by inv_frame.
  - split_and!; [|done|done]. by apply inv_set_forks.
Qed.

Lemma safe_addPendingChild f l o s :
  ctx_inv s -> heap s !! l = Some o ->
  safe (addPendingChild f l) s (fun _ => ctx_inv).
Proof.
  intros Hs Hl. unfold addPendingChild. apply safe_bind, (safe_deref _ o); [done|].
  safe_step. safe_step; [done|]. intros Ho. apply negb_true_iff in Ho.
  do 2 safe_step. safe_step. safe_step; [done|]. intros _. safe_step.
  by apply (inv_add_child s f l o).
Qed.

Lemma safe_delPendingChild f s : ctx_inv s -> safe (delPendingChild f) s (fun _ => ctx_inv).
Proof. intros Hs. unfold delPendingChild, notify_all. do 2 safe_step.
  apply (ctx_inv_tables (upd_pendingChildren_ (delete f) s)); [done|]. by apply inv_del_child. Qed.

Lemma pendingUsers_fresh s f : ctx_inv s -> pendingUsers_ s !! f <> Some (length (pstates s)).
Proof.
  intros Hs H. destruct (inv_users s Hs f _ H) as (st & o & Hst & _).
  apply lookup_lt_Some in Hst. lia.
Qed.

Lemma safe_addPendingUser t f l o s :
  ctx_inv s -> heap s !! l = Some o ->
  safe (addPendingUser t f l) s (fun _ => ctx_inv).
Proof.
  intros Hs Hl. unfold addPendingUser. apply safe_bind, (safe_deref _ o); [done|].
  safe_step. safe_step; [done|]. intros Ho. apply negb_true_iff in Ho.
  do 2 safe_step. set (p := length (pstates s)). do 2 safe_step.
  set (s1 := upd_pstates (fun l0 => l0 ++ [mkPending l false []]) s).
  assert (H1 : ctx_inv s1) by by apply inv_new_pstate.
  assert (Hp : pstates s1 !! p = Some (mkPending l false [])) by (simpl; by rewrite lookup_app_r, Nat.sub_diag by lia).
  do 2 safe_step. safe_step. eapply safe_mono with
    (Q := fun _ s2 => ctx_inv s2 /\ pstates s2 = pstates s1 /\ heap s2 = heap s /\ pendingUsers_ s2 = pendingUsers_ s).
  { destruct (tls_of t s1) as [tab []] eqn:Ht; [|done]. simpl. safe_step. split; [|done].
    apply inv_set_table; [done|..].
    - intros q Hq. apply elem_of_app in Hq as [Hq|Hq].
      + apply (inv_tables s1 H1 t). by rewrite Ht.
      + apply list_elem_of_singleton in Hq as ->. by eapply lookup_lt_Some.
    - apply NoDup_app. split_and!; [| |apply NoDup_singleton].
      + pose proof (inv_tables_nodup s1 H1 t) as Hn. by rewrite Ht in Hn.
      + intros q Hq ->%list_elem_of_singleton.
        assert (Hlt : (p < length (pstates s))%nat); [|subst p; lia].
        apply (inv_tables s Hs t). change (tls_of t s) with (tls_of t s1). by rewrite Ht. }
  intros [] s2 (H2 & Ep & Eh & Eu). do 2 safe_step. safe_step. safe_step; [done|]. intros _. safe_step.
  eapply (inv_add_user s2 f p (mkPending l false []) o); try done; [by rewrite Ep|by rewrite Eh|].
  intros f'. rewrite Eu. by apply pendingUsers_fresh.
Qed.

Lemma safe_addConfirmedUser f l s :
  ctx_inv s -> safe (addConfirmedUser f l) s (fun _ s' => ctx_inv s' /\ tables s' = tables s).
Proof. intros Hs. unfold addConfirmedUser. safe_step. split; [|done]. by inv_frame. Qed.

Lemma safe_waiter_fire w s : ctx_inv s -> safe (waiter_fire w) s (fun _ => ctx_inv).
Proof. intros Hs. unfold waiter_fire. safe_step. by inv_frame. Qed.

Lemma safe_update_rref l o g s :
  ctx_inv s -> heap s !! l = Some o -> isOwner (g o) = isOwner o -> rrefId_ (g o) = rrefId_ o ->
  safe (update_rref l g) s (fun _ s' => ctx_inv s' /\
    pstates s' = pstates s /\ pendingUsers_ s' = pendingUsers_ s).
Proof.
  intros Hs Hl Ho Hr. unfold update_rref. apply safe_bind, (safe_deref _ o); [done|].
  safe_step. split; [|done]. by apply (inv_upd_heap s l o).
Qed.

Lemma confirm_rref_class o : isOwner (confirm_rref o) = isOwner o /\ rrefId_ (confirm_rref o) = rrefId_ o.
Proof. destruct o as [? ? ? ? []]; done. Qed.
Lemma setDeletedOnOwner_class o :
  isOwner (setDeletedOnOwner o) = isOwner o /\ rrefId_ (setDeletedOnOwner o) = rrefId_ o.
Proof. destruct o as [? ? ? ? []]; done. Qed.

Lemma safe_delPendingUser f s : ctx_inv s -> safe (delPendingUser f) s (fun _ => ctx_inv).
Proof.
  intros Hs. unfold delPendingUser. do 2 safe_step.
  destruct (pendingUsers_ s !! f) as [p|] eqn:Hf; [|by safe_step].
  destruct (inv_users s Hs f p Hf) as (st & o & Hp & Hc & Hl & Ho).
  do 2 safe_step. rewrite Hp. safe_step.
  eapply safe_mono; [by apply safe_addConfirmedUser|]. intros [] s1 [H1 Ht].
  injection Ht as En Eh Eo Eu Ep Ec Ef Et. do 2 safe_step.
  set (s2 := upd_pendingUsers_ (delete f) s1). assert (H2 : ctx_inv s2) by by apply inv_del_user.
  safe_step. unfold confirm. do 2 safe_step. simpl. rewrite Ep, Hp. safe_step.
  eapply safe_mono; [apply (safe_update_rref _ o); try apply confirm_rref_class; [done|]; simpl; by rewrite Eh|].
  intros [] s3 (H3 & Ep3 & Eu3). do 2 safe_step.
  eapply safe_mono; [apply safe_for_each|].
  - apply inv_alter_pstate; [done|]. intros f'. rewrite Eu3. simpl. rewrite Eu.
    rewrite lookup_delete_Some. intros [Hne Hf']. apply Hne. by apply (inv_users_inj s Hs f f' p).
  - intros w s4 _. apply safe_waiter_fire.
  - intros [] s4 H4. unfold notify_all. safe_step. by inv_frame.
Qed.

Lemma safe_getPendingUser f s :
  ctx_inv s -> safe (getPendingUser f) s (fun l s' => s' = s /\ is_Some (heap s !! l)).
Proof.
  intros Hs. unfold getPendingUser. do 2 safe_step.
  destruct (pendingUsers_ s !! f) as [p|] eqn:Hf; [|by safe_step].
  destruct (inv_users s Hs f p Hf) as (st & o & Hp & Hc & Hl & Ho).
  do 2 safe_step. rewrite Hp. safe_step. split; [done|]. by eexists.
Qed.

(** The agent's worker lookup returns or throws. *)
Definition lookup_defined : Prop :=
  forall w, match getWorkerInfo w with Ret _ => True | Throw e => undefined e = false | Block => False end.

Lemma inv_alter_callbacks s p g :
  ctx_inv s -> (forall st, ps_rref (g st) = ps_rref st /\ ps_completed (g st) = ps_completed st) ->
  ctx_inv (upd_pstates (alter g p) s).
Proof.
  intros [] Hg. split; simpl; try done.
  - intros f p' H. destruct (inv_users0 f p' H) as (st & o & Hp & Hc & Hl & Ho).
    destruct (decide (p' = p)) as [->|].
    + exists (g st), o. rewrite list_lookup_alter_eq, Hp. destruct (Hg st) as [-> ->]. done.
    + exists st, o. by rewrite list_lookup_alter_ne.
  - intros t p' H. rewrite length_alter. eauto.
Qed.

Lemma safe_pstate_addCallback w p s :
  ctx_inv s -> (p < length (pstates s))%nat ->
  safe (pstate_addCallback w p) s (fun _ s' => ctx_inv s' /\ length (pstates s') = length (pstates s)).
Proof.
  intros Hs Hp. unfold pstate_addCallback. do 2 safe_step.
  destruct (pstates s !! p) as [st|] eqn:Hst; [|apply lookup_ge_None in Hst; lia].
  destruct (ps_completed st); unfold waiter_fire; safe_step.
  - split; [by inv_frame|done].
  - split; [|simpl; by rewrite length_alter]. by apply inv_alter_callbacks.
Qed.

Lemma safe_add_callbacks w l s :
  ctx_inv s -> (forall p, p ∈ l -> (p < length (pstates s))%nat) ->
  safe (for_each l (pstate_addCallback w)) s (fun _ => ctx_inv).
Proof.
  revert s. induction l as [|p l IH]; intros s Hs Hl; [done|]. simpl. safe_step.
  eapply safe_mono; [apply safe_pstate_addCallback; [done|apply Hl, list_elem_of_here]|].
  intros [] s1 [H1 Hlen]. apply IH; [done|]. intros q Hq. rewrite Hlen. apply Hl.
  by apply list_elem_of_further.
Qed.

Lemma inv_clear_table s t b : ctx_inv s -> ctx_inv (set_tls t ([], b) s).
Proof. intros Hs. apply inv_set_table; [done| |constructor]. intros p Hp. by apply elem_of_nil in Hp. Qed.

Lemma safe_record t s : ctx_inv s -> safe (recordThreadLocalPendingRRefs t) s (fun _ => ctx_inv).
Proof.
  intros Hs. unfold recordThreadLocalPendingRRefs. do 2 safe_step. safe_step. safe_step; [done|].
  intros Ht%bool_decide_eq_true. safe_step. rewrite Ht. by apply inv_clear_table.
Qed.

Lemma safe_wait t s : ctx_inv s -> safe (waitForThreadLocalPendingRRefs t) s (fun _ => ctx_inv).
Proof.
  intros Hs. unfold waitForThreadLocalPendingRRefs. do 2 safe_step. do 2 safe_step. safe_step.
  eapply safe_mono with (Q := fun _ => ctx_inv).
  - case_bool_decide; [safe_step; by inv_frame|]. do 2 safe_step. apply safe_add_callbacks.
    + by inv_frame.
    + intros p Hp. by apply (inv_tables s Hs t).
  - intros [] s1 H1. do 3 safe_step. by apply inv_clear_table.
Qed.

Lemma safe_clear t s : ctx_inv s -> safe (clearRecordedPendingRRefsOnError t) s (fun _ => ctx_inv).
Proof. intros Hs. unfold clearRecordedPendingRRefsOnError. safe_step. by apply inv_clear_table. Qed.

Lemma safe_genId s (Q : GloballyUniqueId -> context -> Prop) :
  (forall i s', tables s' = tables s -> worker_id s' = worker_id s -> Q i s') ->
  safe genGloballyUniqueId s Q.
Proof. intros HQ. unfold safe, genGloballyUniqueId. by apply HQ. Qed.

Lemma safe_alloc o s :
  ctx_inv s -> safe (alloc o) s (fun l s' => ctx_inv s' /\ heap s' !! l = Some o).
Proof.
  intros Hs. unfold safe, alloc. split; [by apply inv_alloc|]. simpl. by rewrite lookup_insert_eq.
Qed.

Lemma safe_createUserRRef_ids ow r f ty s :
  ctx_inv s -> safe (createUserRRef_ids ow r f ty) s (fun _ => ctx_inv).
Proof.
  intros Hs. unfold createUserRRef_ids. do 2 safe_step. safe_step. safe_step; [done|]. intros _.
  eapply safe_mono; [by apply safe_alloc|]. by intros l s' [? _].
Qed.

Lemma safe_createUserRRef ow ty s : ctx_inv s -> safe (createUserRRef ow ty) s (fun _ => ctx_inv).
Proof.
  intros Hs. unfold createUserRRef. do 2 safe_step. safe_step. safe_step; [done|]. intros _.
  safe_step. apply safe_genId. intros i1 s1 H1 _. safe_step. apply safe_genId. intros i2 s2 H2 _.
  apply safe_createUserRRef_ids. eapply ctx_inv_tables; [exact H2|]. by eapply ctx_inv_tables.
Qed.

Lemma safe_createOwnerRRef ty s : ctx_inv s -> safe (createOwnerRRef ty) s (fun _ => ctx_inv).
Proof.
  intros Hs. unfold createOwnerRRef. do 2 safe_step. safe_step. apply safe_genId. intros i s1 H1 _.
  eapply safe_mono; [apply safe_alloc; by eapply ctx_inv_tables|]. by intros l s' [? _].
Qed.

Lemma safe_getOrCreateOwnerRRef r ty s :
  ctx_inv s -> safe (getOrCreateOwnerRRef r ty) s (fun _ => ctx_inv).
Proof.
  intros Hs. unfold getOrCreateOwnerRRef. do 2 safe_step.
  destruct (owners_ s !! r) as [l|] eqn:Hr.
  - destruct (inv_owners s Hs r l Hr) as (o & Hl & _). safe_step.
    apply (safe_deref _ o); [done|]. safe_step.
    case_bool_decide; (safe_step; [done|]; intros _; by safe_step).
  - do 2 safe_step. safe_step. eapply safe_mono; [by apply safe_alloc|]. intros l s1 [H1 Hl].
    do 2 safe_step. set (s2 := upd_owners_ _ s1).
    assert (H2 : ctx_inv s2) by by eapply inv_add_owner.
    do 2 safe_step. safe_step. eapply safe_mono with (Q := fun _ => ctx_inv).
    + destruct (pendingOwners_ s2 !! r); [|by safe_step]. do 3 safe_step. by inv_frame.
    + intros [] s3 H3. by safe_step.
Qed.

Lemma safe_getOrCreateRRef d ty s :
  ctx_inv s -> safe (getOrCreateRRef d ty) s (fun _ => ctx_inv).
Proof.
  intros Hs. unfold getOrCreateRRef. do 2 safe_step. destruct (_ =? _).
  - by apply safe_getOrCreateOwnerRRef.
  - by apply safe_createUserRRef_ids.
Qed.

(** The future of an existing OwnerRRef is created completed. *)
Lemma safe_getOwnerRRef r b s :
  ctx_inv s ->
  safe (getOwnerRRef r b) s (fun fut s' => tables s' = tables s /\ errorHandlers_ s' = errorHandlers_ s /\
    (b = true -> exists l, owners_ s !! r = Some l /\ ownerFutures s' !! fut = Some (Some l))).
Proof.
  intros Hs. unfold getOwnerRRef. do 2 safe_step. destruct (owners_ s !! r) as [l|] eqn:Hr.
  - do 2 safe_step. do 2 safe_step. safe_step. split_and!; [done..|]. intros _. exists l.
    split; [done|]. simpl. by rewrite lookup_app_r, Nat.sub_diag by lia.
  - safe_step. safe_step; [done|]. intros Hb%negb_true_iff. do 2 safe_step.
    destruct (pendingOwners_ s !! r); [by safe_step; split_and!; [..|rewrite Hb]|].
    do 2 safe_step. do 2 safe_step. do 2 safe_step. safe_step. by rewrite Hb.
Qed.

Lemma safe_fork l o s :
  ctx_inv s -> heap s !! l = Some o -> safe (fork l) s (fun _ s' => tables s' = tables s).
Proof.
  intros Hs Hl. unfold fork. apply safe_bind, (safe_deref _ o); [done|]. safe_step.
  assert (Hg : safe (let! forkId := genGloballyUniqueId in
      let! me := gets worker_id in
      ret (mkForkData (ownerId_ o) (rrefId_ o) forkId me (getTypeStr (rref_type o)))) s
      (fun _ s' => tables s' = tables s)).
  { safe_step. apply safe_genId. intros i s1 H1 _. do 3 safe_step. done. }
  destruct (class_ o); [by safe_step|]. safe_step; [done|]. by intros _.
Qed.

Lemma safe_prepareChildFork l o s :
  ctx_inv s -> heap s !! l = Some o ->
  safe (prepareChildFork l) s (fun _ => ctx_inv).
Proof.
  intros Hs Hl. unfold prepareChildFork. apply safe_bind, (safe_deref _ o); [done|].
  safe_step. safe_step; [done|]. intros _. safe_step. eapply safe_mono; [by eapply safe_fork|].
  intros d s1 Ht. cbn beta in Ht. assert (H1 : ctx_inv s1) by by eapply ctx_inv_tables.
  assert (Hl1 : heap s1 !! l = Some o) by (unfold tables in Ht; congruence).
  safe_step. eapply safe_mono with (Q := fun _ => ctx_inv); [|by intros [] s2 H2; safe_step].
  destruct (isOwner o) eqn:Ho; [|by apply (safe_addPendingChild _ _ o)].
  safe_step. eapply safe_mono with (Q := fun _ s2 => ctx_inv s2 /\ heap s2 = heap s1).
  - pose proof (safe_addFork (fd_rrefId d) (fd_forkId d) s1 H1) as Hk. unfold safe in *.
    rewrite addForkOfOwner_eq in *. by case_bool_decide.
  - intros [] s2 [H2 Eh]. safe_step. eapply inv_add_owner; [done| |done|done]. by rewrite Eh.
Qed.

Section agent.
Hypothesis Hinfo : lookup_defined.

Lemma safe_send to cmd s :
  ctx_inv s -> safe (send to cmd) s (fun _ s' => ctx_inv s' /\ heap s' = heap s).
Proof using Type Hinfo.
  intros Hs. unfold send, safe, bind, lift. specialize (Hinfo to).
  destruct (getWorkerInfo to); [|done|done]. split; [by inv_frame|done].
Qed.

Lemma safe_request to cmd cb s :
  ctx_inv s ->
  safe (do! incrPendingFutures in
        let! jitFuture := send to cmd in
        addCallback jitFuture cb) s (fun _ => ctx_inv).
Proof using Type Hinfo.
  intros Hs. unfold incrPendingFutures, addCallback. do 3 safe_step.
  eapply safe_mono; [apply safe_send; by inv_frame|]. intros i s1 [H1 _]. safe_step. by inv_frame.
Qed.

Lemma safe_notify t f parent l o s :
  ctx_inv s -> heap s !! l = Some o ->
  safe (notifyOwnerAndParentOfFork t f parent l) s (fun _ => ctx_inv).
Proof using Type Hinfo.
  intros Hs Hl. unfold notifyOwnerAndParentOfFork. apply safe_bind, (safe_deref _ o); [done|].
  do 2 safe_step. destruct (parent =? ownerId_ o); [destruct (parent =? worker_id s)|].
  - safe_step. eapply safe_mono; [by apply safe_delFork|]. intros [d|] s1 (H1 & Eh & Hd); [|by safe_step].
    destruct (inv_owners s Hs _ d (Hd d eq_refl)) as (od & Hod & _).
    safe_step. apply (safe_deref _ od); [by rewrite Eh|]. by safe_step.
  - eapply safe_mono; [by apply safe_addConfirmedUser|]. by intros [] s1 [].
  - destruct (isOwner o); [by apply safe_request|]. unfold incrPendingFutures. do 2 safe_step.
    safe_step. eapply safe_mono; [apply safe_send; by inv_frame|]. intros i s1 [H1 Eh].
    safe_step. eapply safe_mono; [apply (safe_addPendingUser _ _ _ o); [done|by rewrite Eh]|].
    intros [] s2 H2. unfold addCallback. safe_step. by inv_frame.
Qed.

Lemma safe_finishForkRequest f parent s :
  ctx_inv s -> safe (finishForkRequest f parent) s (fun _ => ctx_inv).
Proof using Type Hinfo.
  intros Hs. unfold finishForkRequest. safe_step.
  eapply safe_mono; [by apply safe_delPendingUser|]. intros [] s1 H1. by apply safe_request.
Qed.

Lemma safe_on_response i err s :
  ctx_inv s -> safe (on_response i err) s (fun _ => ctx_inv).
Proof using Type Hinfo.
  intros Hs. unfold on_response. do 2 safe_step.
  destruct (sent s !! i) as [[to cmd cb []]|]; [by safe_step| |by safe_step].
  do 2 safe_step. set (s1 := upd_sent _ s). assert (H1 : ctx_inv s1) by by inv_frame.
  destruct cb as [cb|]; [|by safe_step].
  unfold run_callback, handleException, decrPendingFutures.
  destruct cb as [|f parent]; destruct err as [msg|]; safe_step; safe_step; try done.
  - safe_step. by inv_frame.
  - safe_step. eapply safe_mono; [by apply safe_finishForkRequest|]. intros [] s2 H2.
    safe_step. by inv_frame.
Qed.

Lemma safe_delUser ow r f s :
  ctx_inv s -> safe (delUser ow r f) s (fun _ s' => ctx_inv s' /\ heap s' = heap s).
Proof using Type Hinfo.
  intros Hs. unfold delUser. do 2 safe_step. safe_step.
  eapply safe_mono with (Q := fun _ s' => ctx_inv s' /\ heap s' = heap s).
  - destruct (destroyed_ s); [done|]. unfold incrPendingFutures, addCallback. do 3 safe_step.
    eapply safe_mono; [apply safe_send; by inv_frame|]. intros i s1 [H1 Eh]. safe_step.
    split; [by inv_frame|done].
  - intros [] s1 [H1 Eh]. safe_step. split; [by inv_frame|done].
Qed.

Lemma safe_tryDel l o s :
  ctx_inv s -> heap s !! l = Some o -> safe (tryDel l) s (fun _ => ctx_inv).
Proof using Type Hinfo.
  intros Hs Hl. unfold tryDel. apply safe_bind, (safe_deref _ o); [done|].
  destruct (class_ o) as [|f c []]; try done.
  pose proof (safe_delUser (ownerId_ o) (rrefId_ o) f s Hs) as Hd. unfold safe in *.
  destruct (delUser _ _ _ s) as [[[]|e|] s1]; [|by destruct Hd|done]. destruct Hd as [H1 Eh].
  assert (Hu : safe (update_rref l setDeletedOnOwner) s1 (fun _ => ctx_inv)); [|done].
  eapply safe_mono; [apply (safe_update_rref _ o); try apply setDeletedOnOwner_class; [done|by rewrite Eh]|].
  by intros [] s2 [? _].
Qed.
End agent.

(** ** The operations as one transition system *)

Inductive action : Type :=
  | AddSelfAsFork (l : nat)
  | ForkRequest (r : RRefId) (f : ForkId)
  | UserDelete (r : RRefId) (f : ForkId)
  | ChildAccept (f : ForkId)
  | RemoteCall (r : RRefId) (f : ForkId) (ty : Ty)
  | AddPendingUser (t : nat) (f : ForkId) (l : nat)
  | Record_ (t : nat) | Wait (t : nat) | Clear (t : nat)
  | CreateUser (ow : Z) (ty : Ty) | CreateOwner (ty : Ty)
  | GetOrCreate (d : RRefForkData) (ty : Ty)
  | GetOwner (r : RRefId) (force : bool)
  | PrepareChildFork (l : nat)
  | Notify (t : nat) (f : ForkId) (parent : Z) (l : nat)
  | Response (i : nat) (err : option string)
  | TryDel (l : nat) | Release (l : nat)
  | DelAll
  | Destroy (ignoreRRefLeak : bool)
  | Confirm (res : remote_result) (f : ForkId)
  | FinishOwner (res : remote_result) (r : RRefId).

Definition forget {A} (m : op A) : op unit := do! m in ret tt.

Definition run (a : action) : op unit :=
  match a with
  | AddSelfAsFork l => addSelfAsFork l
  | ForkRequest r f => forget (processRRefForkRequest r f)
  | UserDelete r f => forget (processRRefUserDelete_python r f)
  | ChildAccept f => forget (processRRefChildAccept f)
  | RemoteCall r f ty => forget (processBaseScriptRemoteCall r f ty)
  | AddPendingUser t f l => addPendingUser t f l
  | Record_ t => recordThreadLocalPendingRRefs t
  | Wait t => forget (waitForThreadLocalPendingRRefs t)
  | Clear t => clearRecordedPendingRRefsOnError t
  | CreateUser ow ty => forget (createUserRRef ow ty)
  | CreateOwner ty => forget (createOwnerRRef ty)
  | GetOrCreate d ty => forget (getOrCreateRRef d ty)
  | GetOwner r b => forget (getOwnerRRef r b)
  | PrepareChildFork l => forget (prepareChildFork l)
  | Notify t f parent l => notifyOwnerAndParentOfFork t f parent l
  | Response i err => on_response i err
  | TryDel l => tryDel l
  | Release l => release l
  | DelAll => forget (delAllUsersAndUnforkedOwners id id)
  | Destroy b => forget (destroyInstance b)
  | Confirm res f => confirmPendingUser res f
  | FinishOwner res r => forget (finishCreatingOwnerRRef res r)
  end.

(** No strong pointer of the context to [l] is left. *)
Definition unreferenced (l : nat) (s : context) : Prop :=
  (forall r, owners_ s !! r <> Some l) /\
  (forall f, pendingChildren_ s !! f <> Some l) /\
  (forall f p st, pendingUsers_ s !! f = Some p -> pstates s !! p = Some st -> ps_rref st <> l).

(** A response to a remote call: a RemoteRet, or an error of a declared type
    while the object captured by the error handlers is alive. *)
Definition result_ok (res : remote_result) (s : context) : Prop :=
  match res with
  | RemoteOk cmd => exists r f, cmd = RemoteRet r f
  | RemoteError ty _ =>
      0 <= ty <= 2 /\ forall l, errorHandlers_ s = Some l -> is_Some (heap s !! l)
  end.

(** The callers pass live pointers of the right class; an object is destroyed
    only when nothing points to it. *)
Definition action_ok (a : action) (s : context) : Prop :=
  match a with
  | AddSelfAsFork l => exists o, heap s !! l = Some o /\ isOwner o = true
  | AddPendingUser _ _ l | PrepareChildFork l | Notify _ _ _ l | TryDel l => is_Some (heap s !! l)
  | Release l => is_Some (heap s !! l) /\ unreferenced l s
  | Confirm res _ | FinishOwner res _ => result_ok res s
  | _ => True
  end.

Lemma safe_forget {A} (m : op A) s :
  safe m s (fun _ => ctx_inv) -> safe (forget m) s (fun _ => ctx_inv).
Proof. intros H. apply safe_bind. eapply safe_mono; [exact H|]. intros a s' Hs'. by apply safe_ret. Qed.

Lemma safe_userDelete r f s :
  ctx_inv s -> safe (processRRefUserDelete_python r f) s (fun _ => ctx_inv).
Proof.
  intros Hs. unfold processRRefUserDelete_python, handleRRefDelete_python. safe_step.
  eapply safe_mono; [by apply safe_delFork|]. intros [d|] s1 (H1 & Eh & Hd); [|by do 3 safe_step].
  destruct (inv_owners s Hs _ d (Hd d eq_refl)) as (od & Hod & _).
  safe_step. safe_step. apply (safe_deref _ od); [by rewrite Eh|]. by do 2 safe_step.
Qed.

Lemma safe_remoteCall r f ty s :
  ctx_inv s -> safe (processBaseScriptRemoteCall r f ty) s (fun _ => ctx_inv).
Proof.
  intros Hs. unfold processBaseScriptRemoteCall. safe_step.
  eapply safe_mono with (Q := fun _ => ctx_inv).
  - case_bool_decide; safe_step.
    + eapply safe_mono; [by apply safe_getOwnerRRef|]. intros fut s1 [Ht _]. safe_step.
      by eapply ctx_inv_tables.
    + eapply safe_mono; [by apply safe_getOrCreateOwnerRRef|]. intros l s1 H1. by safe_step.
  - intros [] s1 H1. safe_step. eapply safe_mono with (Q := fun _ => ctx_inv);
      [|by intros [] s2 H2; safe_step].
    case_bool_decide; [by safe_step|]. by apply safe_addFork.
Qed.

Lemma safe_handleError ty msg l s :
  ctx_inv s -> is_Some (heap s !! l) -> 0 <= ty <= 2 ->
  (forall l', errorHandlers_ s = Some l' -> is_Some (heap s !! l')) ->
  safe (handleError ty msg l) s (fun _ => ctx_inv).
Proof.
  intros Hs Hl Hty Hh. unfold handleError. do 2 safe_step.
  assert (Hthis : is_Some (heap s !! default l (errorHandlers_ s))).
  { destruct (errorHandlers_ s) as [l'|] eqn:He; [by apply Hh|done]. }
  destruct Hthis as [o Ho]. do 2 safe_step.
  destruct ((ty =? 1) || (ty =? 2)) eqn:E1.
  - eapply safe_mono; [apply (safe_update_rref _ o); [by inv_frame|done|..]; by destruct o|].
    by intros [] s1 [? _].
  - apply orb_false_iff in E1 as [?%Z.eqb_neq ?%Z.eqb_neq]. rewrite (proj2 (Z.eqb_eq ty 0)) by lia.
    unfold handleException. safe_step. by inv_frame.
Qed.

Lemma safe_confirmPendingUser res f s :
  ctx_inv s -> result_ok res s -> safe (confirmPendingUser res f) s (fun _ => ctx_inv).
Proof.
  intros Hs Hr. unfold confirmPendingUser. safe_step.
  eapply safe_mono with (Q := fun _ => ctx_inv); [|intros [] s1; apply safe_delPendingUser].
  destruct res as [cmd|ty msg]; simpl in Hr.
  - destruct Hr as (r & f' & ->). unfold asRemoteRet. do 2 safe_step. by safe_step.
  - destruct Hr as [Hty Hh]. safe_step. eapply safe_mono; [by apply safe_getPendingUser|].
    intros l s1 [-> Hl]. by apply safe_handleError.
Qed.

Lemma handleError_heap ty msg l s l' :
  is_Some (heap s !! l') -> is_Some (heap (snd (handleError ty msg l s)) !! l').
Proof.
  intros Hl. unfold handleError, update_rref, deref, handleException. unfold bind, gets, modify, throw.
  simpl. repeat (case_match; simplify_eq/=; try done).
  rewrite lookup_insert_is_Some. destruct (decide (default l (errorHandlers_ s) = l')); auto.
Qed.

Lemma safe_snd {A} (m : op A) s (Q : A -> context -> Prop) (P : context -> Prop) :
  safe m s Q -> P (snd (m s)) -> safe m s (fun a s' => Q a s' /\ P s').
Proof. unfold safe. destruct (m s) as [[a|e|] s']; auto. Qed.

Lemma safe_finishCreatingOwnerRRef res r s :
  ctx_inv s -> result_ok res s -> safe (finishCreatingOwnerRRef res r) s (fun _ => ctx_inv).
Proof.
  intros Hs Hr. unfold finishCreatingOwnerRRef. destruct res as [cmd|ty msg]; simpl in Hr.
  - destruct Hr as (r' & f' & ->). unfold asRemoteRet. do 2 safe_step. safe_step. safe_step; [done|]. intros _.
    eapply safe_mono; [by apply safe_delFork|]. by intros d s1 [? _].
  - destruct Hr as [Hty Hh]. safe_step. eapply safe_mono; [by apply safe_getOwnerRRef|].
    intros fut s1 (Ht & Eh & Hf). destruct (Hf eq_refl) as (l & Hl & Hfut).
    assert (H1 : ctx_inv s1) by by eapply ctx_inv_tables.
    assert (Ehp : heap s1 = heap s) by (unfold tables in Ht; congruence).
    do 2 safe_step. rewrite Hfut. destruct (inv_owners s Hs r l Hl) as (o & Ho & _).
    assert (Hl1 : is_Some (heap s1 !! l)) by (rewrite Ehp; by eexists).
    safe_step. eapply safe_mono; [apply (safe_snd _ _ (fun _ => ctx_inv) (fun s2 => is_Some (heap s2 !! l)))|].
    + apply safe_handleError; [done..|]. intros l'. rewrite Eh, Ehp. apply Hh.
    + by apply handleError_heap.
    + intros [] s2 [H2 [o2 Ho2]]. safe_step. apply (safe_deref _ o2); [done|].
      eapply safe_mono; [by apply safe_delFork|]. by intros d s3 [? _].
Qed.

Lemma safe_removeUnforked s : ctx_inv s -> safe removeUnforkedOwners s (fun _ => ctx_inv).
Proof.
  intros Hs. unfold removeUnforkedOwners. do 2 safe_step. apply safe_for_each; [done|].
  intros r s1 _ H1. unfold removeOwner. do 2 safe_step. safe_step. safe_step; [done|]. intros _. safe_step.
  by apply inv_del_owner.
Qed.

Lemma safe_destroy b s : ctx_inv s -> safe (destroyInstance b) s (fun _ => ctx_inv).
Proof.
  intros Hs. unfold destroyInstance. do 3 safe_step. set (s1 := upd_destroyed_ _ s).
  assert (H1 : ctx_inv s1) by by inv_frame.
  eapply safe_mono with (Q := fun _ => ctx_inv).
  { unfold checkRRefLeaks. do 2 safe_step. case_bool_decide; by safe_step. }
  intros [] s2 H2. do 2 safe_step. do 2 safe_step. do 2 safe_step. safe_step.
  apply (ctx_inv_tables (upd_owners_ (fun _ => ∅) s2)); [done|].
  destruct H2. split; simpl; try done.
Qed.

Section agent_steps.
Hypothesis Hinfo : lookup_defined.

Lemma safe_delAll s : ctx_inv s -> safe (delAllUsersAndUnforkedOwners id id) s (fun _ => ctx_inv).
Proof using Type Hinfo.
  intros Hs. unfold delAllUsersAndUnforkedOwners. do 2 safe_step. do 2 safe_step. do 2 safe_step.
  do 2 safe_step. safe_step. eapply safe_mono; [apply safe_for_each; [by inv_frame|]|].
  - intros user s1 _ H1. do 2 safe_step. destruct (heap s1 !! user) as [o|] eqn:Ho; [|by safe_step].
    by apply (safe_tryDel Hinfo _ o).
  - intros [] s1 H1. safe_step. eapply safe_mono; [by apply safe_removeUnforked|].
    intros [] s2 H2. do 2 safe_step. do 2 safe_step. by safe_step.
Qed.

Lemma tryDel_refs l s :
  let s' := snd (tryDel l s) in
  owners_ s' = owners_ s /\ pendingChildren_ s' = pendingChildren_ s /\
  pendingUsers_ s' = pendingUsers_ s /\ pstates s' = pstates s.
Proof.
  unfold tryDel, bind, deref. destruct (heap s !! l) as [o|]; [|done]. simpl.
  destruct (class_ o) as [|f c []]; try done.
  unfold delUser, send, incrPendingFutures, addCallback, update_rref, deref, bind, gets, modify, lift, ret.
  repeat (case_match; simplify_eq/=; try done).
Qed.

Lemma safe_release l o s :
  ctx_inv s -> heap s !! l = Some o -> unreferenced l s -> safe (release l) s (fun _ => ctx_inv).
Proof using Type Hinfo.
  intros Hs Hl (Hu1 & Hu2 & Hu3). unfold release. safe_step.
  eapply safe_mono; [apply (safe_snd _ _ (fun _ => ctx_inv) (fun s' => owners_ s' = owners_ s /\
    pendingChildren_ s' = pendingChildren_ s /\ pendingUsers_ s' = pendingUsers_ s /\ pstates s' = pstates s));
    [by apply (safe_tryDel Hinfo _ o)|apply tryDel_refs]|].
  intros [] s1 [[] (Eo & Ec & Eu & Ep)]. safe_step. split; simpl; try done.
  - intros l' [x Hx]. apply lookup_delete_Some in Hx as [_ ?]; eauto.
  - intros r l' H. destruct (inv_owners0 r l' H) as (x & Hx & ?). exists x. split; [|done].
    rewrite lookup_delete_ne; [done|]. intros ->. apply (Hu1 r). by rewrite <- Eo.
  - intros f p H. destruct (inv_users0 f p H) as (st & x & Hp & ? & Hx & ?). exists st, x.
    split_and!; try done. rewrite lookup_delete_ne; [done|].
    intros E'. apply (Hu3 f p st); [by rewrite <- Eu|by rewrite <- Ep|done].
  - intros f l' H. destruct (inv_children0 f l' H) as (x & Hx & ?). exists x. split; [|done].
    rewrite lookup_delete_ne; [done|]. intros ->. apply (Hu2 f). by rewrite <- Ec.
Qed.

Lemma run_safe a s : ctx_inv s -> action_ok a s -> safe (run a) s (fun _ => ctx_inv).
Proof using Type Hinfo.
  intros Hs Ha. destruct a; simpl in *; try (apply safe_forget).
  - destruct Ha as (o & Ho & ?). by eapply safe_addSelfAsFork.
  - unfold processRRefForkRequest. safe_step. eapply safe_mono; [by apply safe_addForkIfNotPresent|].
    intros [] s1 H1. by safe_step.
  - by apply safe_userDelete.
  - unfold processRRefChildAccept. safe_step. eapply safe_mono; [by apply safe_delPendingChild|].
    intros [] s1 H1. by safe_step.
  - by apply safe_remoteCall.
  - destruct Ha. by eapply safe_addPendingUser.
  - by apply safe_record.
  - by apply safe_wait.
  - by apply safe_clear.
  - by apply safe_createUserRRef.
  - by apply safe_createOwnerRRef.
  - by apply safe_getOrCreateRRef.
  - eapply safe_mono; [by apply safe_getOwnerRRef|]. intros fut s1 [Ht _]. by eapply ctx_inv_tables.
  - destruct Ha. by eapply safe_prepareChildFork.
  - destruct Ha. by eapply safe_notify.
  - by apply safe_on_response.
  - destruct Ha. by eapply safe_tryDel.
  - destruct Ha as [[o Hl] ?]. by eapply safe_release.
  - by apply safe_delAll.
  - by apply safe_destroy.
  - by apply safe_confirmPendingUser.
  - by apply safe_finishCreatingOwnerRRef.
Qed.
End agent_steps.

(** Executions: any sequence of operations, whatever their outcomes. *)
Inductive step (s : context) : context -> Prop :=
  | step_run a : action_ok a s -> step s (snd (run a s)).

Inductive steps : context -> context -> Prop :=
  | steps_refl s : steps s s
  | steps_cons s1 s2 s3 : step s1 s2 -> steps s2 s3 -> steps s1 s3.

Lemma steps_inv s s' : lookup_defined -> steps s s' -> ctx_inv s -> ctx_inv s'.
Proof.
  intros Hi. induction 1 as [|s1 s2 s3 [a Ha] _ IH]; [done|]. intros H1. apply IH.
  pose proof (run_safe Hi a s1 H1 Ha) as Hr. unfold safe in Hr.
  destruct (run a s1) as [[[]|e|] s1']; [done|by destruct Hr|done].
Qed.

Lemma init_inv me : ctx_inv (init_context me).
Proof.
  split; simpl; try done.
  - intros l. rewrite lookup_empty. by intros [].
  - intros t p Hp. by apply elem_of_nil in Hp.
  - intros t. constructor.
Qed.

(** ** Relational frames *)

(** Decompose an operation down to its updates. *)
Ltac follows_step :=
  lazymatch goal with
  | |- follows _ (deref _) => intros ?; unfold deref; destruct (heap _ !! _); reflexivity
  | _ => Prelude.follows_step
  end.
Ltac follows_unfold :=
  unfold forget, addSelfAsFork, addForkOfOwner, addForkOfOwnerIfNotPresent, addPendingChild,
    delPendingChild, notify_all, addConfirmedUser, update_rref, getPendingUser,
    recordThreadLocalPendingRRefs, clearRecordedPendingRRefsOnError, createUserRRef_ids,
    createUserRRef, getOrCreateRRef, createOwnerRRef, fork,
    prepareChildFork, addCallback, incrPendingFutures, decrPendingFutures, handleException,
    finishForkRequest, run_callback, on_response, delUser, removeUnforkedOwners, removeOwner,
    delAllUsersAndUnforkedOwners, checkRRefLeaks, destroyInstance, handleError, asRemoteRet,
    confirmPendingUser, finishCreatingOwnerRRef, handleRRefDelete_python, processRRefForkRequest,
    processRRefUserDelete_python, processRRefChildAccept, processBaseScriptRemoteCall, send,
    notifyOwnerAndParentOfFork, release.
Ltac follows_unfold_get := unfold getOrCreateOwnerRRef, getOwnerRRef.
(** The operations on the pending-user states. *)
Ltac follows_unfold_users :=
  unfold delPendingUser, confirm, waiter_fire, pstate_addCallback,
    waitForThreadLocalPendingRRefs, addPendingUser.

(** *** OwnerRRefs stay in owners_ *)

Definition owners_grow (s s' : context) : Prop :=
  forall r, is_Some (owners_ s !! r) -> is_Some (owners_ s' !! r).

#[local] Instance owners_grow_preorder : PreOrder owners_grow.
Proof. split; [by intros s r|]. intros s1 s2 s3 H1 H2 r Hr. auto. Qed.

Lemma owners_grow_modify g : (forall s, owners_ (g s) = owners_ s) -> follows owners_grow (modify g).
Proof. intros Hg s r. simpl. by rewrite Hg. Qed.
Lemma owners_grow_insert r l : follows owners_grow (modify (upd_owners_ (fun m => <[r := l]> m))).
Proof. intros s r'. simpl. rewrite lookup_insert_is_Some. destruct (decide (r = r')); auto. Qed.

Ltac grow :=
  repeat (progress (follows_unfold; follows_unfold_users; follows_unfold_get));
  repeat first
    [ follows_step
    | apply owners_grow_insert
    | apply owners_grow_modify; reflexivity
    | solve [intros ? ?; done] ].

Lemma tryDel_grow l : follows owners_grow (tryDel l).
Proof. intros s r. destruct (tryDel_refs l s) as [-> _]. done. Qed.

Definition is_destroy (a : action) : bool := match a with Destroy _ => true | _ => false end.

(** The three operations that drop OwnerRRefs only drop unforked ones. *)
Definition drops_unforked {A} (m : op A) : Prop :=
  forall s r, is_Some (owners_ s !! r) -> owners_ (snd (m s)) !! r = None ->
    forks_ (snd (m s)) !! r = None.

Lemma grow_drops {A} (m : op A) : follows owners_grow m -> drops_unforked m.
Proof. intros Hm s r Hr Hn. destruct (Hm s r Hr) as [? H]. congruence. Qed.

Lemma delFork_drops r f : drops_unforked (delForkOfOwner r f).
Proof.
  intros s r' [l Hl]. unfold delForkOfOwner. destruct (forks_ s !! r) as [F|] eqn:HF; [|simpl; congruence].
  case_bool_decide; [|simpl; congruence]. destruct (owners_ s !! r); simpl;
    (destruct (decide (r' = r)) as [->|]; [by rewrite !lookup_delete_eq|by rewrite !lookup_delete_ne, Hl]).
Qed.

Lemma drops_then {A B} (m : op A) (k : A -> op B) :
  drops_unforked m -> (forall a s, owners_ (snd (k a s)) = owners_ s /\ forks_ (snd (k a s)) = forks_ s) ->
  drops_unforked (bind m k).
Proof.
  intros Hm Hk s r Hr. specialize (Hm s r Hr). unfold bind.
  destruct (m s) as [[a|e|] s'] eqn:E'; simpl in *; [|done..]. by destruct (Hk a s') as [-> ->].
Qed.

Lemma grow_then_drops {A B} (m : op A) (k : A -> op B) :
  follows owners_grow m -> (forall a, drops_unforked (k a)) -> drops_unforked (bind m k).
Proof.
  intros Hm Hk s r Hr. specialize (Hm s r Hr). unfold bind.
  destruct (m s) as [[a|e|] s'] eqn:E'; simpl in *; [by apply Hk| |];
    intros H; destruct Hm; congruence.
Qed.

Lemma removeOwner_forks : forall r, preserves forks_ (removeOwner r).
Proof. intros r. unfold removeOwner. eauto with frame. Qed.

Lemma removeOwner_owners r s : owners_ (snd (removeOwner r s)) = delete r (owners_ s).
Proof.
  unfold removeOwner, bind, gets. destruct (owners_ s !! r) as [l|] eqn:Hl; simpl; [done|].
  by rewrite delete_id.
Qed.

Lemma removeOwners_in ids s r :
  is_Some (owners_ s !! r) -> owners_ (snd (for_each ids removeOwner s)) !! r = None -> r ∈ ids.
Proof.
  revert s. induction ids as [|r' ids IH]; intros s [l Hl]; simpl; [congruence|].
  destruct (decide (r = r')) as [->|Hne]; [intros _; apply list_elem_of_here|].
  intros H. apply list_elem_of_further. pose proof (removeOwner_owners r' s) as Ho.
  assert (Hl' : owners_ (snd (removeOwner r' s)) !! r = Some l) by by rewrite Ho, lookup_delete_ne.
  unfold bind in H. destruct (removeOwner r' s) as [[[]|e|] s']; simpl in *; [|congruence..].
  by apply (IH s').
Qed.

Lemma removeUnforked_drops : drops_unforked removeUnforkedOwners.
Proof.
  intros s r Hr Hn.
  assert (Hp : preserves forks_ removeUnforkedOwners)
    by (unfold removeUnforkedOwners; eauto using removeOwner_forks with frame).
  rewrite Hp. apply removeOwners_in in Hn; [|done]. unfold unforkedOwners in Hn.
  by apply list_elem_of_filter in Hn as [? _].
Qed.

Lemma forget_drops {A} (m : op A) : drops_unforked m -> drops_unforked (forget m).
Proof. intros Hm. by apply drops_then. Qed.

Lemma run_drops a : is_destroy a = false -> drops_unforked (run a).
Proof.
  intros Ha. destruct a; try done; simpl;
    try (apply grow_drops; solve [grow]).
  - apply forget_drops. unfold processRRefUserDelete_python. apply drops_then; [apply delFork_drops|].
    intros [d|] s'; [|done]. unfold handleRRefDelete_python, bind, deref. by destruct (heap s' !! d).
  - unfold notifyOwnerAndParentOfFork. apply grow_then_drops; [grow|]. intros o.
    apply grow_then_drops; [grow|]. intros me.
    destruct (parent =? ownerId_ o); [|apply grow_drops; grow].
    destruct (parent =? me); [|apply grow_drops; grow].
    apply drops_then; [apply delFork_drops|].
    intros [d|] s'; [|done]. unfold bind, deref. by destruct (heap s' !! d).
  - apply grow_drops, tryDel_grow.
  - apply grow_drops. unfold release. apply (follows_bind _); [apply tryDel_grow|intros ?; grow].
  - apply forget_drops. unfold delAllUsersAndUnforkedOwners.
    do 4 (apply grow_then_drops; [grow|intros ?]).
    apply grow_then_drops; [|intros ?; apply drops_then; [apply removeUnforked_drops|done]].
    apply (follows_for_each _). intros l. apply (follows_bind _); [grow|]. intros [o|]; [|grow].
    apply tryDel_grow.
  - apply forget_drops. unfold finishCreatingOwnerRRef. destruct res as [cmd|ty msg].
    + apply grow_then_drops; [grow|]. intros rr. apply grow_then_drops; [grow|]. intros _.
      apply delFork_drops.
    + apply grow_then_drops; [grow|]. intros fut. apply grow_then_drops; [grow|].
      intros [[l|]|]; [|apply grow_drops; grow..].
      apply grow_then_drops; [grow|]. intros _. apply grow_then_drops; [grow|]. intros o.
      apply delFork_drops.
Qed.

(** *** Waiting for the users of a request's arguments *)

Definition pending (s : context) (p : nat) : Prop :=
  exists st, pstates s !! p = Some st /\ ps_completed st = false.
#[local] Instance pending_dec s p : Decision (pending s p).
Proof.
  refine (match pstates s !! p as o return (pstates s !! p = o -> Decision (pending s p)) with
  | Some st => fun H => if decide (ps_completed st = false) then left _ else right _
  | None => fun H => right _
  end eq_refl); unfold pending; rewrite H; naive_solver.
Defined.

(** Waiter [w] covers the states [l]: its counter is [k] plus the number of
    pending ones, and it is attached once to each pending one and to no other. *)
Record covers (k w : nat) (l : list nat) (s : context) : Prop := {
  cov_nodup : NoDup l;
  cov_range : forall p, p ∈ l -> (p < length (pstates s))%nat;
  cov_count : let n := (k + length (filter (pending s) l))%nat in
    Z.of_nat n < 2 ^ 64 /\ waiters s !! w = Some (Z.of_nat n, bool_decide (n = 0%nat));
  cov_attached : forall p st, pstates s !! p = Some st ->
    filter (eq w) (ps_callbacks st) =
      if decide (p ∈ l /\ ps_completed st = false) then [w] else [];
}.

Definition keeps_cover (w : nat) (l : list nat) (s s' : context) : Prop :=
  covers 0 w l s -> covers 0 w l s'.
#[local] Instance keeps_cover_preorder w l : PreOrder (keeps_cover w l).
Proof. split; [by intros s H|]. intros s1 s2 s3 H1 H2 H. apply H2, H1, H. Qed.

Lemma covers_frame k w l s s' :
  pstates s' = pstates s -> waiters s' !! w = waiters s !! w -> covers k w l s -> covers k w l s'.
Proof.
  intros Hp Hw []. assert (Hf : filter (pending s') l = filter (pending s) l).
  { apply list_filter_ext_in. intros p _. unfold pending. by rewrite Hp. }
  split; rewrite ?Hf, ?Hp, ?Hw; done.
Qed.

Lemma keeps_cover_modify w l g :
  (forall s, pstates (g s) = pstates s) -> (forall s, waiters (g s) = waiters s) ->
  follows (keeps_cover w l) (modify g).
Proof. intros Hp Hw s Hc. apply (covers_frame _ _ _ s); simpl; [apply Hp|by rewrite Hw|done]. Qed.

Lemma covers_new_pstate k w l s l0 :
  covers k w l s -> covers k w l (upd_pstates (fun ps => ps ++ [mkPending l0 false []]) s).
Proof.
  intros []. assert (Hlk : forall p, p ∈ l ->
    pstates (upd_pstates (fun ps => ps ++ [mkPending l0 false []]) s) !! p = pstates s !! p).
  { intros p Hp. simpl. rewrite lookup_app_l; [done|]. by apply cov_range0. }
  split; try done.
  - intros p Hp. simpl. rewrite length_app. specialize (cov_range0 p Hp). simpl. lia.
  - rewrite (list_filter_ext_in _ (pending s)); [done|]. intros p Hp. unfold pending. by rewrite Hlk.
  - intros p st. simpl. rewrite lookup_app_Some. intros [?|[Hge Hst]]; [by apply cov_attached0|].
    destruct (p - length (pstates s))%nat; [|done]. injection Hst as <-. simpl.
    rewrite decide_False; [done|]. intros [Hp _]. specialize (cov_range0 p Hp). lia.
Qed.

(** Firing a list of callbacks. *)
Lemma fire_cons w ws s :
  for_each (w :: ws) waiter_fire s = for_each ws waiter_fire (snd (waiter_fire w s)).
Proof. reflexivity. Qed.

Lemma fire_waiters ws s :
  let s' := snd (for_each ws waiter_fire s) in
  pstates s' = pstates s /\
  (forall w, w ∉ ws -> waiters s' !! w = waiters s !! w) /\ fst (for_each ws waiter_fire s) = Ret tt.
Proof.
  revert s. induction ws as [|w' ws IH]; intros s; [done|]. rewrite fire_cons.
  set (s1 := snd (waiter_fire w' s)). destruct (IH s1) as (Hp & Hw & Hr).
  split_and!; [by rewrite Hp| |exact Hr]. intros w Hn. apply not_elem_of_cons in Hn as [Hne Hn].
  rewrite Hw by done. simpl. by rewrite list_lookup_alter_ne.
Qed.

Lemma filter_eq_nil (w : nat) ws : filter (eq w) ws = [] -> w ∉ ws.
Proof.
  intros H Hin. assert (Hf : w ∈ filter (eq w) ws) by by apply list_elem_of_filter.
  rewrite H in Hf. by apply elem_of_nil in Hf.
Qed.

(** A waiter attached exactly once fires exactly once. *)
Lemma fire_once ws w s n d :
  filter (eq w) ws = [w] -> waiters s !! w = Some (n, d) ->
  waiters (snd (for_each ws waiter_fire s)) !! w = Some (uint64 (n - 1), if n =? 1 then true else d).
Proof.
  revert s. induction ws as [|w' ws IH]; intros s Hf Hw; [done|]. rewrite filter_cons in Hf.
  rewrite fire_cons. set (s1 := snd (waiter_fire w' s)). destruct (decide (w = w')) as [<-|Hne].
  - injection Hf as Hf. destruct (fire_waiters ws s1) as (_ & Hk & _).
    rewrite Hk by by apply filter_eq_nil. simpl. by rewrite list_lookup_alter_eq, Hw.
  - apply IH; [done|]. simpl. by rewrite list_lookup_alter_ne.
Qed.

Lemma covers_confirm w l p : follows (keeps_cover w l) (confirm p).
Proof.
  intros s HC. unfold confirm, bind at 1, gets. destruct (pstates s !! p) as [st|] eqn:Hst; [|done].
  unfold bind at 1. assert (Hu : let r := update_rref (ps_rref st) confirm_rref s in
    pstates r.2 = pstates s /\ waiters r.2 = waiters s).
  { unfold update_rref, bind, deref. by destruct (heap s !! ps_rref st). }
  destruct (update_rref (ps_rref st) confirm_rref s) as [[[]|e|] s1]; destruct Hu as [Hp1 Hw1]; simpl in *;
    try (apply (covers_frame _ _ _ s); [done|by rewrite Hw1|done]).
  unfold bind, modify. set (s2 := upd_pstates _ s1).
  pose proof (fire_waiters (ps_callbacks st) s2) as (Hp3 & Hw3 & _).
  set (s3 := snd (for_each (ps_callbacks st) waiter_fire s2)) in *.
  assert (Hlk : forall q, pstates s3 !! q =
    if decide (q = p) then Some (mkPending (ps_rref st) true []) else pstates s !! q).
  { intros q. rewrite Hp3. simpl. rewrite Hp1. case_decide; [subst; by rewrite list_lookup_alter_eq, Hst|].
    by rewrite list_lookup_alter_ne. }
  assert (Hpend : forall q, pending s3 q <-> pending s q /\ q <> p).
  { intros q. unfold pending. rewrite Hlk. case_decide; naive_solver. }
  destruct HC as [Hnd Hrg [Hlt Hct] Hat]. simpl in *.
  pose proof (Hat p st Hst) as Hatp. split.
  - done.
  - intros q Hq. rewrite Hp3. simpl. rewrite length_alter, Hp1. by apply Hrg.
  - destruct (decide (p ∈ l /\ ps_completed st = false)) as [[Hin Hc]|Hn].
    + pose proof (fire_once (ps_callbacks st) w s2 _ _ Hatp (eq_trans (f_equal (fun x => x !! w) Hw1) Hct)) as Hf.
      assert (Hn : length (filter (pending s) l) = S (length (filter (pending s3) l))).
      { apply (length_filter_remove _ _ l p); [done|done|by exists st|]. intros q _. apply Hpend. }
      fold s3 in Hf. rewrite Hn in Hf, Hlt. simpl. split; [lia|]. rewrite Hf. f_equal. f_equal.
      * rewrite uint64_id by (unfold in_uint64; lia). lia.
      * generalize (length (filter (pending s3) l)) as m. intros m.
        destruct (Z.eqb_spec (Z.of_nat (S m)) 1).
        -- rewrite bool_decide_true by lia. done.
        -- rewrite !bool_decide_false by lia. done.
    + rewrite (list_filter_ext_in (pending s3) (pending s)).
      * split; [done|]. rewrite Hw3 by by apply filter_eq_nil. simpl. by rewrite Hw1.
      * intros q Hq. rewrite Hpend. split; [tauto|]. intros Hpq. split; [done|]. intros ->.
        destruct Hpq as (st' & Hst' & Hc'). simplify_eq. tauto.
  - intros q st'. rewrite Hlk. destruct (decide (q = p)) as [Hq|Hq].
    + intros Hs'. assert (st' = mkPending (ps_rref st) true []) as -> by congruence. simpl.
      rewrite decide_False; [done|]. by intros [_ ?].
    + apply Hat.
Qed.

Lemma covers_other_callback w w' l p :
  w' <> w -> follows (keeps_cover w l) (pstate_addCallback w' p).
Proof.
  intros Hne s HC. unfold pstate_addCallback, bind, gets.
  destruct (pstates s !! p) as [st|] eqn:Hst; [|done].
  destruct (ps_completed st).
  - apply (covers_frame _ _ _ s); [done|simpl; by rewrite list_lookup_alter_ne|done].
  - destruct HC. set (s' := snd _).
    assert (Hlk : forall q, pstates s' !! q = if decide (q = p)
      then Some (mkPending (ps_rref st) (ps_completed st) (ps_callbacks st ++ [w'])) else pstates s !! q).
    { intros q. simpl. case_decide; [subst; by rewrite list_lookup_alter_eq, Hst|].
      by rewrite list_lookup_alter_ne. }
    assert (Hf : filter (pending s') l = filter (pending s) l).
    { apply list_filter_ext_in. intros q _. unfold pending. rewrite Hlk. case_decide; naive_solver. }
    split; rewrite ?Hf; try done.
    + intros q Hq. simpl. rewrite length_alter. eauto.
    + intros q st'. rewrite Hlk. destruct (decide (q = p)) as [Hq|Hq]; [|apply cov_attached0].
      intros Hs'. simplify_eq. simpl. rewrite filter_app, (cov_attached0 _ _ Hst).
      rewrite filter_cons_False by done. by rewrite app_nil_r.
Qed.

Create HintDb cover.

Ltac keep_cover :=
  repeat (progress (follows_unfold; follows_unfold_get));
  repeat first
    [ follows_step
    | apply keeps_cover_modify; reflexivity
    | solve [auto with cover nocore]
    | solve [intros ? ?; done] ].

Lemma covers_wait w l t : follows (keeps_cover w l) (waitForThreadLocalPendingRRefs t).
Proof.
  intros s HC. assert (Hw : (w < length (waiters s))%nat).
  { destruct HC as [_ _ [_ Hw] _]. by apply lookup_lt_Some in Hw. }
  unfold waitForThreadLocalPendingRRefs, bind at 1 2, gets.
  case_bool_decide.
  - apply (covers_frame _ _ _ s); [done|simpl; by rewrite lookup_app_l|done].
  - set (s1 := upd_waiters (fun l0 => l0 ++ [(Z.of_nat (length (tls_of t s).1), false)]) s).
    assert (H1 : covers 0 w l s1)
      by (apply (covers_frame _ _ _ s); [done|simpl; by rewrite lookup_app_l|done]).
    pose proof (follows_for_each (keeps_cover w l) (tls_of t s).1
      (pstate_addCallback (length (waiters s)))
      (fun p => covers_other_callback w (length (waiters s)) l p ltac:(lia)) s1 H1) as H2.
    unfold bind, modify, ret. fold s1.
    destruct (for_each _ _ s1) as [[[]|e|] s2]; simpl in *; try done.
    by apply (covers_frame _ _ _ s2).
Qed.

Lemma covers_addPendingUser w l t f p : follows (keeps_cover w l) (addPendingUser t f p).
Proof.
  unfold addPendingUser. follows_step; [follows_step|]. follows_step; [follows_step|].
  follows_step; [follows_step|].
  apply (follows_bind _); [intros s HC; by apply covers_new_pstate|intros ?]. keep_cover.
Qed.

Lemma covers_delPendingUser w l f : follows (keeps_cover w l) (delPendingUser f).
Proof.
  unfold delPendingUser. follows_step; [follows_step|]. follows_step; [|follows_step].
  follows_step; [follows_step|]. follows_step; [|follows_step].
  follows_step; [keep_cover|]. follows_step; [keep_cover|].
  follows_step; [apply covers_confirm|keep_cover].
Qed.

Lemma covers_delFork w l r f : follows (keeps_cover w l) (delForkOfOwner r f).
Proof.
  intros s HC. unfold delForkOfOwner. destruct (forks_ s !! r); [|done].
  case_bool_decide; [|by apply (covers_frame _ _ _ s)].
  destruct (owners_ s !! r); by apply (covers_frame _ _ _ s).
Qed.

Lemma covers_tryDel w l p : follows (keeps_cover w l) (tryDel p).
Proof.
  intros s HC. apply (covers_frame _ _ _ s); [by destruct (tryDel_refs p s) as (_ & _ & _ & ->)| |done].
  unfold tryDel, bind, deref. destruct (heap s !! p) as [o|]; [|done]. simpl.
  destruct (class_ o) as [|f c []]; try done.
  unfold delUser, send, incrPendingFutures, addCallback, update_rref, deref, bind, gets, modify, lift, ret.
  repeat (case_match; simplify_eq/=; try done).
Qed.

#[local] Hint Resolve covers_wait covers_addPendingUser covers_delPendingUser covers_delFork
  covers_tryDel covers_confirm : cover.

Lemma run_covers w l a : follows (keeps_cover w l) (run a).
Proof.
  destruct a; simpl; try solve [keep_cover].
Qed.

(** Callbacks name existing waiters. *)
Definition cb_ok (s : context) : Prop :=
  forall p st w, pstates s !! p = Some st -> w ∈ ps_callbacks st -> (w < length (waiters s))%nat.
Definition keeps_cb (s s' : context) : Prop :=
  (length (waiters s) <= length (waiters s'))%nat /\ (cb_ok s -> cb_ok s').
#[local] Instance keeps_cb_preorder : PreOrder keeps_cb.
Proof.
  split; [by intros s; split|]. intros s1 s2 s3 [H1 H1'] [H2 H2']. split; [lia|auto].
Qed.

Lemma keeps_cb_frame s s' :
  pstates s' = pstates s -> (length (waiters s) <= length (waiters s'))%nat -> keeps_cb s s'.
Proof.
  intros Hp Hw. split; [done|]. intros Hc p st w Hst Hin. rewrite Hp in Hst.
  specialize (Hc p st w Hst Hin). lia.
Qed.

Lemma keeps_cb_modify g :
  (forall s, pstates (g s) = pstates s) -> (forall s, waiters (g s) = waiters s) ->
  follows keeps_cb (modify g).
Proof. intros Hp Hw s. apply keeps_cb_frame; simpl; [apply Hp|by rewrite Hw]. Qed.

Lemma keeps_cb_fire w : follows keeps_cb (waiter_fire w).
Proof. intros s. apply keeps_cb_frame; [done|]. simpl. by rewrite length_alter. Qed.

Lemma keeps_cb_confirm p : follows keeps_cb (confirm p).
Proof.
  unfold confirm. follows_step; [follows_step|]. follows_step; [|follows_step].
  apply (follows_bind _); [unfold update_rref|intros ?].
  { follows_step; [follows_step|]. by apply keeps_cb_modify. }
  apply (follows_bind _); [|intros ?; apply (follows_for_each _), keeps_cb_fire].
  intros s. split; [done|]. intros Hc q st w. simpl. rewrite list_lookup_alter.
  destruct (decide (p = q)) as [<-|]; [|apply Hc].
  destruct (pstates s !! p); simpl; intros Hs; simplify_eq. by intros ?%elem_of_nil.
Qed.

Lemma keeps_cb_attach w p s :
  (w < length (waiters s))%nat -> keeps_cb s (snd (pstate_addCallback w p s)).
Proof.
  intros Hw. unfold pstate_addCallback, bind, gets. destruct (pstates s !! p) as [st|] eqn:Hst; [|done].
  destruct (ps_completed st); [apply keeps_cb_fire|]. split; [done|]. intros Hc q st' w'. simpl.
  destruct (decide (q = p)) as [->|]; [|rewrite list_lookup_alter_ne by done; apply Hc].
  rewrite list_lookup_alter_eq, Hst. simpl. intros Hs. simplify_eq. simpl.
  rewrite elem_of_app, list_elem_of_singleton. intros [?| ->]; [by apply (Hc p st)|done].
Qed.

Lemma keeps_cb_attach_all w l s :
  (w < length (waiters s))%nat -> keeps_cb s (snd (for_each l (pstate_addCallback w) s)).
Proof.
  revert s. induction l as [|p l IH]; intros s Hw; [done|]. simpl. unfold bind.
  pose proof (keeps_cb_attach w p s Hw) as Hp.
  destruct (pstate_addCallback w p s) as [[[]|e|] s']; simpl in *; [|done..].
  etrans; [done|]. apply IH. destruct Hp. lia.
Qed.

Lemma keeps_cb_wait t : follows keeps_cb (waitForThreadLocalPendingRRefs t).
Proof.
  intros s. unfold waitForThreadLocalPendingRRefs, bind at 1 2, gets. case_bool_decide.
  - apply keeps_cb_frame; [done|]. simpl. rewrite length_app. simpl. lia.
  - set (s1 := upd_waiters (fun l0 => l0 ++ [(Z.of_nat (length (tls_of t s).1), false)]) s).
    assert (H1 : keeps_cb s s1) by (apply keeps_cb_frame; [done|]; simpl; rewrite length_app; lia).
    assert (Hw : (length (waiters s) < length (waiters s1))%nat) by (simpl; rewrite length_app; simpl; lia).
    pose proof (keeps_cb_attach_all (length (waiters s)) (tls_of t s).1 s1 Hw) as H2.
    unfold bind, modify, ret. fold s1.
    destruct (for_each _ _ s1) as [[[]|e|] s2]; simpl in *; [|by etrans..].
    etrans; [exact H1|]. etrans; [exact H2|]. by apply keeps_cb_frame.
Qed.

Lemma keeps_cb_delFork r f : follows keeps_cb (delForkOfOwner r f).
Proof.
  intros s. unfold delForkOfOwner. destruct (forks_ s !! r); [|done].
  case_bool_decide; [|by apply keeps_cb_frame]. destruct (owners_ s !! r); by apply keeps_cb_frame.
Qed.

Lemma keeps_cb_new_pstate l0 :
  follows keeps_cb (modify (upd_pstates (fun ps => ps ++ [mkPending l0 false []]))).
Proof.
  intros s. split; [done|]. intros Hc p st w. simpl.
  rewrite lookup_app_Some. intros [?|[_ Hs]]; [by apply (Hc p)|].
  destruct (p - _)%nat; [|done]. injection Hs as <-. by intros ?%elem_of_nil.
Qed.

Lemma keeps_cb_tryDel p : follows keeps_cb (tryDel p).
Proof.
  intros s. apply keeps_cb_frame; [by destruct (tryDel_refs p s) as (_ & _ & _ & ->)|].
  unfold tryDel, bind, deref. destruct (heap s !! p) as [o|]; [|done]. simpl.
  destruct (class_ o) as [|f c []]; try done.
  unfold delUser, send, incrPendingFutures, addCallback, update_rref, deref, bind, gets, modify, lift, ret.
  repeat (case_match; simplify_eq/=; try done).
Qed.

Create HintDb cb.
#[local] Hint Resolve keeps_cb_wait keeps_cb_delFork keeps_cb_new_pstate keeps_cb_tryDel
  keeps_cb_confirm : cb.

Lemma run_keeps_cb a : follows keeps_cb (run a).
Proof.
  destruct a; simpl; repeat (progress (follows_unfold; follows_unfold_get)); unfold delPendingUser, addPendingUser, addConfirmedUser, notify_all;
    repeat first
    [ follows_step
    | solve [auto with cb nocore]
    | apply keeps_cb_modify; reflexivity
    | solve [intros ?; by apply keeps_cb_frame] ].
Qed.

Lemma reachable_cb s s' : steps s s' -> cb_ok s -> cb_ok s'.
Proof. induction 1 as [|s1 s2 s3 [a _] _ IH]; [done|]. intros H1. by apply IH, run_keeps_cb. Qed.

Lemma steps_covers w l s s' : steps s s' -> covers 0 w l s -> covers 0 w l s'.
Proof. induction 1 as [|s1 s2 s3 [a _] _ IH]; [done|]. intros H1. by apply IH, run_covers. Qed.

(** One more state is attached to the waiter. *)
Lemma decide_app_other {A} (l : list nat) (p q : nat) (c : bool) (x y : A) :
  q <> p ->
  (if decide (q ∈ l ++ [p] /\ c = false) then x else y) = (if decide (q ∈ l /\ c = false) then x else y).
Proof.
  intros Hqp. destruct (decide (q ∈ l /\ c = false)) as [[? ?]|Hn].
  - rewrite decide_True; [done|]. split; [apply elem_of_app; by left|done].
  - rewrite decide_False; [done|]. rewrite elem_of_app, list_elem_of_singleton. tauto.
Qed.

Lemma covers_attach_completed k w l p st s :
  covers (S k) w l s -> p ∉ l -> pstates s !! p = Some st -> ps_completed st = true ->
  covers k w (l ++ [p]) (upd_waiters (alter (fun p =>
    (uint64 (p.1 - 1), if p.1 =? 1 then true else p.2)) w) s).
Proof.
  intros [Hnd Hrg [Hlt Hct] Hat] Hp Hst Hc. set (s' := upd_waiters _ s).
  assert (Hf : filter (pending s') (l ++ [p]) = filter (pending s) l).
  { rewrite filter_app, (list_filter_none _ [p]), app_nil_r; [done|].
    intros q ->%list_elem_of_singleton (st' & Hst' & Hc'). simpl in Hst'. congruence. }
  split; [|intros q|rewrite Hf|].
  - apply NoDup_app. split_and!; [done| |apply NoDup_singleton]. by intros q Hq ->%list_elem_of_singleton.
  - simpl. rewrite elem_of_app, list_elem_of_singleton.
    intros [?| ->]; [by apply Hrg|by eapply lookup_lt_Some].
  - split; [lia|]. simpl. rewrite list_lookup_alter_eq, Hct. simpl. f_equal. f_equal.
    + rewrite uint64_id by (unfold in_uint64; lia). lia.
    + generalize (k + length (filter (pending s) l))%nat. intros [|m]; [done|].
      simpl. by destruct (Pos.of_succ_nat m).
  - intros q st' Hst'. simpl in Hst'. rewrite (Hat q st' Hst').
    destruct (decide (q = p)) as [->|Hqp]; [|by rewrite decide_app_other].
    assert (st' = st) as -> by congruence. by rewrite !decide_False by (intros [_ ?]; congruence).
Qed.

Lemma covers_attach_pending k w l p st s :
  covers (S k) w l s -> p ∉ l -> pstates s !! p = Some st -> ps_completed st = false ->
  covers k w (l ++ [p]) (upd_pstates (alter (fun p =>
    mkPending (ps_rref p) (ps_completed p) (ps_callbacks p ++ [w])) p) s).
Proof.
  intros [Hnd Hrg [Hlt Hct] Hat] Hp Hst Hc. set (s' := upd_pstates _ s).
  pose proof (Hat p st Hst) as Hatp. rewrite decide_False in Hatp by tauto.
  assert (Hlk : forall q, pstates s' !! q = if decide (q = p)
    then Some (mkPending (ps_rref st) false (ps_callbacks st ++ [w])) else pstates s !! q).
  { intros q. simpl. destruct (decide (q = p)) as [->|].
    - rewrite list_lookup_alter_eq, Hst. simpl. by rewrite Hc.
    - by rewrite list_lookup_alter_ne. }
  assert (Hf : filter (pending s') (l ++ [p]) = filter (pending s) l ++ [p]).
  { rewrite filter_app. f_equal.
    - apply list_filter_ext_in. intros q Hq. unfold pending. rewrite Hlk.
      rewrite decide_False; [done|]. by intros ->.
    - apply list_filter_all. intros q ->%list_elem_of_singleton. unfold pending. rewrite Hlk, decide_True by done.
      eexists. split; [reflexivity|done]. }
  split; [|intros q|rewrite Hf, length_app|].
  - apply NoDup_app. split_and!; [done| |apply NoDup_singleton]. by intros q Hq ->%list_elem_of_singleton.
  - simpl. rewrite length_alter, elem_of_app, list_elem_of_singleton.
    intros [?| ->]; [by apply Hrg|by eapply lookup_lt_Some].
  - simpl. replace (k + (length (filter (pending s) l) + 1))%nat
      with (S k + length (filter (pending s) l))%nat by lia. done.
  - intros q st'. rewrite Hlk. destruct (decide (q = p)) as [->|Hqp].
    + intros Hs. simplify_eq. simpl. rewrite filter_app, Hatp, filter_cons_True by done.
      rewrite decide_True; [done|]. split; [|done]. rewrite elem_of_app, list_elem_of_singleton. tauto.
    + intros Hst'. by rewrite (Hat q st' Hst'), decide_app_other.
Qed.

Lemma covers_attach k w l p s :
  covers (S k) w l s -> p ∉ l -> (p < length (pstates s))%nat ->
  exists s', pstate_addCallback w p s = (Ret tt, s') /\ covers k w (l ++ [p]) s' /\
    length (pstates s') = length (pstates s).
Proof.
  intros Hcov Hp Hlen. unfold pstate_addCallback, bind, gets.
  destruct (pstates s !! p) as [st|] eqn:Hst; [|apply lookup_ge_None in Hst; lia].
  destruct (ps_completed st) eqn:Hc; (eexists; split; [reflexivity|]).
  - split; [by eapply covers_attach_completed|done].
  - split; [by eapply covers_attach_pending|]. simpl. by rewrite length_alter.
Qed.

Lemma covers_attach_all w rest l s :
  covers (length rest) w l s -> NoDup (l ++ rest) ->
  (forall p, p ∈ rest -> (p < length (pstates s))%nat) ->
  exists s', for_each rest (pstate_addCallback w) s = (Ret tt, s') /\ covers 0 w (l ++ rest) s'.
Proof.
  revert l s. induction rest as [|p rest IH]; intros l s HC Hnd Hrg.
  - exists s. by rewrite app_nil_r.
  - assert (Hp : p ∉ l).
    { apply NoDup_app in Hnd as (_ & Hd & _). intros Hin. apply (Hd p Hin), list_elem_of_here. }
    destruct (covers_attach (length rest) w l p s HC Hp) as (s1 & Hs1 & HC1 & Hlen1);
      [apply Hrg, list_elem_of_here|].
    destruct (IH (l ++ [p]) s1 HC1) as (s2 & Hs2 & HC2).
    + by rewrite <- app_assoc.
    + intros q Hq. rewrite Hlen1. apply Hrg. by apply list_elem_of_further.
    + exists s2. simpl. unfold bind. rewrite Hs1, Hs2. split; [done|]. by rewrite <- app_assoc in HC2.
Qed.

Lemma wait_covers t s :
  ctx_inv s -> cb_ok s -> Z.of_nat (length (tls_of t s).1) < 2 ^ 64 ->
  exists w s', waitForThreadLocalPendingRRefs t s = (Ret w, s') /\ covers 0 w (tls_of t s).1 s' /\
    tls_of t s' = ([], false).
Proof.
  intros Hs Hc Hlen. exists (length (waiters s)).
  unfold waitForThreadLocalPendingRRefs, bind at 1 2, gets. set (tab := (tls_of t s).1) in *.
  assert (Hat : forall s1 p st, pstates s1 = pstates s -> pstates s1 !! p = Some st ->
    filter (eq (length (waiters s))) (ps_callbacks st) = []).
  { intros s1 p st Hp Hst. rewrite Hp in Hst. apply list_filter_none. intros w Hw <-.
    specialize (Hc p st _ Hst Hw). lia. }
  assert (Htls : forall s1, tls_of t (set_tls t ([], false) s1) = ([], false)).
  { intros s1. unfold tls_of. simpl. by rewrite lookup_insert_eq. }
  case_bool_decide as Htab.
  - eexists. split; [reflexivity|]. split; [|apply Htls]. rewrite Htab. split.
    + constructor.
    + intros p Hp. by apply elem_of_nil in Hp.
    + simpl. by rewrite lookup_app_r, Nat.sub_diag by lia.
    + intros p st Hst. rewrite decide_False by (intros [?%elem_of_nil _]; done). by apply (Hat s p).
  - set (s1 := upd_waiters (fun l0 => l0 ++ [(Z.of_nat (length tab), false)]) s).
    destruct (covers_attach_all (length (waiters s)) tab [] s1) as (s2 & Hs2 & HC2).
    + split.
      * constructor.
      * intros p Hp. by apply elem_of_nil in Hp.
      * simpl. rewrite Nat.add_0_r. split; [done|]. rewrite lookup_app_r, Nat.sub_diag by lia.
        rewrite bool_decide_false; [done|]. by destruct tab.
      * intros p st Hst. rewrite decide_False by (intros [?%elem_of_nil _]; done). by apply (Hat s1 p).
    + simpl. apply (inv_tables_nodup s Hs).
    + intros p Hp. by apply (inv_tables s Hs t).
    + unfold bind, modify, ret. fold s1. rewrite Hs2. eexists. split; [reflexivity|].
      split; [|apply Htls]. by apply (covers_frame _ _ _ s2).
Qed.

(** *** Futures of OwnerRRefs requested before they exist *)

Definition fut_ok (s : context) : Prop :=
  (forall r f, pendingOwners_ s !! r = Some f -> ownerFutures s !! f = Some None) /\
  (forall r1 r2 f, pendingOwners_ s !! r1 = Some f -> pendingOwners_ s !! r2 = Some f -> r1 = r2).

(** [f] was handed out for [r]: it is completed, or still the pending one. *)
Definition tracks (f : nat) (r : RRefId) (s : context) : Prop :=
  (exists l, ownerFutures s !! f = Some (Some l)) \/ pendingOwners_ s !! r = Some f.

Definition keeps_fut (s s' : context) : Prop :=
  fut_ok s -> fut_ok s' /\ forall f r, tracks f r s -> tracks f r s'.
#[local] Instance keeps_fut_preorder : PreOrder keeps_fut.
Proof.
  split; [by intros s H|]. intros s1 s2 s3 H1 H2 H. destruct (H1 H) as [Ha Hb].
  destruct (H2 Ha) as [Hc Hd]. split; auto.
Qed.

Lemma keeps_fut_frame s s' :
  pendingOwners_ s' = pendingOwners_ s -> ownerFutures s' = ownerFutures s -> keeps_fut s s'.
Proof. intros Hp Hf H. unfold fut_ok, tracks in *. by rewrite Hp, Hf. Qed.

Lemma keeps_fut_modify g :
  (forall s, pendingOwners_ (g s) = pendingOwners_ s) ->
  (forall s, ownerFutures (g s) = ownerFutures s) -> follows keeps_fut (modify g).
Proof. intros Hp Hf s. apply keeps_fut_frame; [apply Hp|apply Hf]. Qed.

(** A completed future does not change the pending ones. *)
Lemma keeps_fut_completed l : follows keeps_fut (modify (upd_ownerFutures (fun x => x ++ [Some l]))).
Proof.
  intros s [H1 H2]. split; [split; [|done]|].
  - intros r f Hr. simpl. rewrite lookup_app_l; [by apply (H1 r)|]. eapply lookup_lt_Some, H1, Hr.
  - intros f r [[l' Hl]|Hr]; [left|by right]. exists l'. simpl. rewrite lookup_app_l; [done|].
    by eapply lookup_lt_Some.
Qed.

(** A new pending future. *)
Lemma keeps_fut_new r s :
  pendingOwners_ s !! r = None ->
  keeps_fut s (upd_pendingOwners_ (fun m => <[r := length (ownerFutures s)]> m)
                (upd_ownerFutures (fun x => x ++ [None]) s)).
Proof.
  intros Hr [H1 H2]. assert (Hlt : forall r' f, pendingOwners_ s !! r' = Some f -> (f < length (ownerFutures s))%nat).
  { intros r' f Hf. eapply lookup_lt_Some, H1, Hf. }
  split; [split|]; simpl.
  - intros r' f Hf. apply lookup_insert_Some in Hf as [[<- <-]|[_ Hf]].
    + by rewrite lookup_app_r, Nat.sub_diag by lia.
    + rewrite lookup_app_l by eauto. by apply (H1 r').
  - intros r1 r2 f Hf1 Hf2.
    apply lookup_insert_Some in Hf1 as [[<- <-]|[? Hf1]]; apply lookup_insert_Some in Hf2 as [[<- Hx]|[? Hf2]];
      try done; [specialize (Hlt _ _ Hf2); lia|specialize (Hlt _ _ Hf1); lia|by eapply H2].
  - intros f r' [[l' Hl]|Hf]; [left|right].
    + exists l'. simpl. rewrite lookup_app_l; [done|]. by eapply lookup_lt_Some.
    + simpl. rewrite lookup_insert_ne; [done|]. intros ->. congruence.
Qed.

(** Completing the pending future of [r]. *)
Lemma keeps_fut_complete r fut l s :
  pendingOwners_ s !! r = Some fut ->
  keeps_fut s (upd_pendingOwners_ (delete r) (upd_ownerFutures (alter (fun _ => Some l) fut) s)).
Proof.
  intros Hr [H1 H2]. split; [split|]; simpl.
  - intros r' f Hf. apply lookup_delete_Some in Hf as [Hne Hf].
    rewrite list_lookup_alter_ne; [by apply (H1 r')|]. intros ->. by apply Hne, (H2 r r' f).
  - intros r1 r2 f Hf1 Hf2. apply lookup_delete_Some in Hf1 as [_ ?], Hf2 as [_ ?]. eauto.
  - intros f r' Ht. unfold tracks in *. simpl. destruct (decide (f = fut)) as [->|Hne].
    + left. exists l. by rewrite list_lookup_alter_eq, (H1 r).
    + rewrite list_lookup_alter_ne by done. destruct Ht as [?|Hf]; [by left|right].
      rewrite lookup_delete_ne; [done|]. intros ->. congruence.
Qed.

Lemma keeps_fut_getOwner r b : follows keeps_fut (getOwnerRRef r b).
Proof.
  intros s. unfold getOwnerRRef, bind at 1, gets at 1.
  destruct (owners_ s !! r) as [l|]; [apply (keeps_fut_completed l s)|].
  destruct b; [done|]. cbn -[keeps_fut]. unfold bind, gets.
  destruct (pendingOwners_ s !! r) eqn:Hr; [done|]. by apply keeps_fut_new.
Qed.

Lemma keeps_fut_getOrCreate r ty : follows keeps_fut (getOrCreateOwnerRRef r ty).
Proof.
  intros s. unfold getOrCreateOwnerRRef, bind at 1, gets at 1.
  destruct (owners_ s !! r) as [l|].
  - unfold bind, deref. destruct (heap s !! l); [|done].
    destruct (bool_decide (ty = TensorType)); unfold assert_, lift, ocheck; by case_match.
  - cbn -[keeps_fut]. unfold bind, gets, modify, alloc. cbn -[keeps_fut].
    destruct (pendingOwners_ s !! r) as [fut|] eqn:Hr; [|by apply keeps_fut_frame].
    etrans; [|apply (keeps_fut_complete r fut (nextLoc s)); exact Hr]. by apply keeps_fut_frame.
Qed.

Lemma keeps_fut_delFork r f : follows keeps_fut (delForkOfOwner r f).
Proof.
  intros s. unfold delForkOfOwner. destruct (forks_ s !! r); [|done].
  case_bool_decide; [|by apply keeps_fut_frame]. destruct (owners_ s !! r); by apply keeps_fut_frame.
Qed.

Lemma keeps_fut_tryDel p : follows keeps_fut (tryDel p).
Proof.
  intros s. unfold tryDel, bind, deref. destruct (heap s !! p) as [o|]; [|done]. simpl.
  destruct (class_ o) as [|f c []]; try done.
  unfold delUser, send, incrPendingFutures, addCallback, update_rref, deref, bind, gets, modify, lift, ret.
  repeat (case_match; simplify_eq/=); by apply keeps_fut_frame.
Qed.

Create HintDb fut.
#[local] Hint Resolve keeps_fut_getOwner keeps_fut_getOrCreate keeps_fut_delFork keeps_fut_tryDel : fut.

Lemma run_keeps_fut a : is_destroy a = false -> follows keeps_fut (run a).
Proof.
  intros Ha. destruct a; try done; simpl;
  repeat first
    [ solve [auto with fut nocore]
    | follows_step
    | apply keeps_fut_modify; reflexivity
    | solve [intros ?; by apply keeps_fut_frame]
    | progress follows_unfold
    | progress follows_unfold_users ].
Qed.

(** Executions before destroyInstance. *)
Inductive running : context -> context -> Prop :=
  | running_refl s : running s s
  | running_cons s1 a s2 :
      is_destroy a = false -> action_ok a s1 -> running (snd (run a s1)) s2 -> running s1 s2.

Lemma running_fut s s' : running s s' -> keeps_fut s s'.
Proof. induction 1; [done|]. etrans; [by apply run_keeps_fut|done]. Qed.

Lemma init_fut_ok me : fut_ok (init_context me).
Proof. split; simpl; intros *; by rewrite lookup_empty. Qed.

Lemma getOwner_tracks r s :
  fut_ok s -> exists fut s', getOwnerRRef r false s = (Ret fut, s') /\ tracks fut r s' /\ fut_ok s'.
Proof.
  intros Hs. pose proof (keeps_fut_getOwner r false s Hs) as [Hk _].
  revert Hk. unfold getOwnerRRef, bind, gets, modify, ret, assert_, lift, ocheck.
  destruct (owners_ s !! r) as [l|]; cbn -[fut_ok].
  - intros Hk. do 2 eexists. split; [reflexivity|]. split; [|exact Hk]. left. exists l. simpl.
    by rewrite lookup_app_r, Nat.sub_diag by lia.
  - destruct (pendingOwners_ s !! r) eqn:Hr; intros Hk; do 2 eexists; (split; [reflexivity|]);
      (split; [|exact Hk]); right; [done|]. simpl. by rewrite lookup_insert_eq.
Qed.

Lemma create_completes r ty s f :
  fut_ok s -> tracks f r s -> owners_ s !! r = None ->
  exists l s', getOrCreateOwnerRRef r ty s = (Ret l, s') /\ owners_ s' !! r = Some l /\
    exists l', ownerFutures s' !! f = Some (Some l') /\ (ownerFutures s !! f = Some None -> l' = l).
Proof.
  intros [H1 H2] Ht Ho. unfold getOrCreateOwnerRRef, bind at 1, gets at 1. rewrite Ho.
  unfold bind, gets, modify, alloc. cbn.
  destruct (pendingOwners_ s !! r) as [fut|] eqn:Hr; do 2 eexists; (split; [reflexivity|]); cbn;
    rewrite lookup_insert_eq; (split; [done|]).
  - destruct (decide (f = fut)) as [->|Hne].
    + exists (nextLoc s). by rewrite list_lookup_alter_eq, (H1 r).
    + rewrite list_lookup_alter_ne by done. destruct Ht as [[l Hl]|Hf]; [|congruence].
      exists l. split; [done|congruence].
  - destruct Ht as [[l Hl]|Hf]; [|congruence]. exists l. split; [done|congruence].
Qed.

(** ** Properties *)


(** C6: except for destroyInstance, whatever operation the context runs, an
    OwnerRRef leaves owners_ only when its fork set is gone: the owner keeps
    the object alive as long as some fork is registered. *)
Theorem rref_owner_kept_while_forked a s r :
  is_destroy a = false -> is_Some (owners_ s !! r) ->
  owners_ (snd (run a s)) !! r = None -> forks_ (snd (run a s)) !! r = None.
Proof. intros Ha. by apply run_drops. Qed.


(** C4: waitForThreadLocalPendingRRefs returns, clears the thread's table, and
    its future is completed exactly when every pending user the thread recorded
    has been confirmed, in every state reached by any later sequence of
    operations of any thread. *)
Theorem rref_wait_completes me t s :
  lookup_defined -> steps (init_context me) s -> Z.of_nat (length (tls_of t s).1) < 2 ^ 64 ->
  exists w s1, waitForThreadLocalPendingRRefs t s = (Ret w, s1) /\ tls_of t s1 = ([], false) /\
    forall s2, steps s1 s2 ->
      exists n d, waiters s2 !! w = Some (n, d) /\
        (d = true <-> forall p, p ∈ (tls_of t s).1 -> ~ pending s2 p).
Proof.
  intros Hi Hs Hlen. assert (H : ctx_inv s) by (eapply steps_inv; eauto using init_inv).
  assert (Hc : cb_ok s) by (eapply reachable_cb; [done|]; intros ? ? ? ?; done).
  destruct (wait_covers t s H Hc Hlen) as (w & s1 & Hw & HC & Ht).
  exists w, s1. split_and!; [done..|]. intros s2 H2. apply (steps_covers _ _ _ _ H2) in HC.
  destruct HC as [_ _ [_ Hct] _]. simpl in Hct. do 2 eexists. split; [exact Hct|].
  rewrite bool_decide_eq_true, length_zero_iff_nil. split.
  - intros Hn p Hp Hpend. assert (Hin : p ∈ filter (pending s2) (tls_of t s).1)
      by by apply list_elem_of_filter. rewrite Hn in Hin. by apply elem_of_nil in Hin.
  - intros Hn. by apply list_filter_none.
Qed.

(** A request for an OwnerRRef that does not exist yet gets a future that is
    neither lost nor forgotten: after any further operations before
    destroyInstance, creating the OwnerRRef completes it, with the pointer that
    owners_ now holds if it was still pending. *)
Theorem rref_owner_future_resolved me s r ty s2 :
  running (init_context me) s ->
  exists fut s1, getOwnerRRef r false s = (Ret fut, s1) /\
    (running s1 s2 -> owners_ s2 !! r = None ->
     exists l s3, getOrCreateOwnerRRef r ty s2 = (Ret l, s3) /\ owners_ s3 !! r = Some l /\
       exists l', ownerFutures s3 !! fut = Some (Some l') /\
         (ownerFutures s2 !! fut = Some None -> l' = l)).
Proof.
  intros Hs. assert (H : fut_ok s) by (eapply running_fut; eauto using init_fut_ok).
  destruct (getOwner_tracks r s H) as (fut & s1 & H1 & Ht & Hok). exists fut, s1.
  split; [done|]. intros H2 Ho. destruct (running_fut _ _ H2 Hok) as [Hok2 Hk2].
  apply create_completes; auto.
Qed.

(** Without Python bindings the handler of RREF_USER_DELETE dereferences a
    null pointer whenever the deletion is not the last one or is a retry,
    although the deletion itself succeeds and is acknowledged with Python. *)
Theorem rref_user_delete_null_deref r f s :
  fst (delForkOfOwner r f s) = Ret None ->
  fst (processRRefUserDelete r f s) = Throw (Undefined "null RRef") /\
  fst (processRRefUserDelete_python r f s) = Ret RRefAck.
Proof.
  unfold processRRefUserDelete, processRRefUserDelete_python, bind.
  destruct (delForkOfOwner r f s) as [[[l|]|e|] s']; simpl; intros H; try done.
Qed.
End rref.

(** ** Witnesses

    Worker 1 of four: it receives, in a request from worker 2, an RRef owned by
    worker 0 and waits for it to be confirmed. *)
Definition ex_info (w : Z) : outcome unit :=
  if (0 <=? w) && (w <? 4) then Ret tt else Throw (CheckFailed "unknown worker").
Abbreviation ex_run := (run true false (fun b => b) (fun _ => []) ex_info).
Abbreviation ex_steps := (steps true false (fun b => b) (fun _ => []) ex_info).

Lemma ex_lookup_defined : lookup_defined ex_info.
Proof. intros w. unfold ex_info. by destruct (_ && _). Qed.

Definition ex_rref : RRefId := mkId 0 7.
Definition ex_fork : ForkId := mkId 2 3.
Definition ex_data : RRefForkData := mkForkData 0 ex_rref ex_fork 2 [].
Definition ex_s0 : context (Ty := bool) := init_context 1.
Definition ex_s1 := snd (ex_run (Record_ 0) ex_s0).
Definition ex_s2 := snd (ex_run (GetOrCreate ex_data true) ex_s1).
Definition ex_s3 := snd (ex_run (Notify 0 ex_fork 2 0) ex_s2).

Lemma ex_notify_ok : action_ok (Notify 0 ex_fork 2 0) ex_s2.
Proof. vm_compute. by eexists. Qed.

Lemma ex_steps_s2 : ex_steps (init_context 1) ex_s2.
Proof.
  apply steps_cons with ex_s1; [by apply (step_run _ _ _ _ _ ex_s0 (Record_ 0))|].
  apply steps_cons with ex_s2; [by apply (step_run _ _ _ _ _ ex_s1 (GetOrCreate ex_data true))|].
  constructor.
Qed.

Lemma ex_steps_s3 : ex_steps (init_context 1) ex_s3.
Proof.
  apply steps_cons with ex_s1; [by apply (step_run _ _ _ _ _ ex_s0 (Record_ 0))|].
  apply steps_cons with ex_s2; [by apply (step_run _ _ _ _ _ ex_s1 (GetOrCreate ex_data true))|].
  apply steps_cons with ex_s3; [apply step_run, ex_notify_ok|]. constructor.
Qed.


(** Worker 0 owns an RRef with one fork, which is deleted. *)
Definition ex_owned : context (Ty := bool) :=
  snd (ex_run (RemoteCall (mkId 1 0) (mkId 1 1) true) (init_context 0)).

Lemma rref_owner_kept_while_forked_witness :
  owners_ ex_owned !! mkId 1 0 = Some 0%nat /\
  forks_ (snd (ex_run (UserDelete (mkId 1 0) (mkId 1 1)) ex_owned)) !! mkId 1 0 = None.
Proof.
  split; [vm_compute; reflexivity|].
  apply (rref_owner_kept_while_forked true false (fun b => b) (fun _ => []) ex_info
    (UserDelete (mkId 1 0) (mkId 1 1)) ex_owned (mkId 1 0)); [reflexivity| |].
  - exists 0%nat. vm_compute. reflexivity.
  - vm_compute. reflexivity.
Defined.

Lemma ex_owned_inv : ctx_inv ex_owned.
Proof.
  apply (steps_inv true false (fun b => b) (fun _ => []) ex_info (init_context 0) ex_owned
    ex_lookup_defined); [|apply init_inv].
  apply steps_cons with ex_owned; [|constructor].
  by apply (step_run _ _ _ _ _ (init_context 0) (RemoteCall (mkId 1 0) (mkId 1 1) true)).
Qed.

Lemma ex_owned_live : owner_live (mkId 1 0) ex_owned.
Proof.
  intros l Hl. destruct (inv_owners _ ex_owned_inv _ _ Hl) as (o & Ho & _). by exists o.
Qed.


Lemma rref_wait_completes_witness :
  (tls_of 0 ex_s3).1 = [0%nat] /\
  exists w s1, waitForThreadLocalPendingRRefs 0 ex_s3 = (Ret w, s1) /\ tls_of 0 s1 = ([], false).
Proof.
  split; [vm_compute; reflexivity|].
  destruct (rref_wait_completes true false (fun b => b) (fun _ => []) ex_info 1 0 ex_s3
    ex_lookup_defined ex_steps_s3) as (w & s1 & H1 & H2 & _); [vm_compute; reflexivity|].
  exists w, s1. by split.
Defined.

(** The reply of the owner completes the future. *)
Example ex_wait_reply :
  let '(o, s4) := waitForThreadLocalPendingRRefs 0 ex_s3 in
  let s5 := snd (ex_run (Response 0 None) s4) in
  o = Ret 0%nat /\ waiters s4 = [(1, false)] /\ waiters s5 = [(0, true)] /\
  pendingUsers_ s5 = ∅ /\ numPendingFutures_ s5 = 1.
Proof. vm_compute. done. Qed.

Lemma rref_owner_future_resolved_witness :
  exists fut s1, getOwnerRRef ex_rref false (init_context (Ty := bool) 0) = (Ret fut, s1) /\
    exists l s3, getOrCreateOwnerRRef true (fun b => b) ex_rref true s1 = (Ret l, s3) /\
      ownerFutures s3 !! fut = Some (Some l).
Proof.
  destruct (rref_owner_future_resolved true false (fun b => b) (fun _ => []) ex_info 0 (init_context 0)
    ex_rref true (snd (getOwnerRRef ex_rref false (init_context 0)))) as (fut & s1 & H1 & H2);
    [constructor|].
  exists fut, s1. split; [exact H1|]. rewrite H1 in H2. simpl in H2.
  assert (Hs1 : s1 = snd (getOwnerRRef ex_rref false (init_context (Ty := bool) 0))) by by rewrite H1.
  assert (Hf : fut = 0%nat) by (vm_compute in H1; congruence).
  destruct H2 as (l & s3 & H3 & _ & l' & H4 & H5); [constructor|by rewrite Hs1|].
  exists l, s3. split; [exact H3|]. rewrite H4, H5; [done|]. by rewrite Hs1, Hf.
Defined.

Lemma rref_user_delete_null_deref_witness :
  fst (processRRefUserDelete false (mkId 1 0) (mkId 3 9) ex_owned) = Throw (Undefined "null RRef").
Proof.
  apply (rref_user_delete_null_deref false (mkId 1 0) (mkId 3 9) ex_owned). vm_compute. reflexivity.
Defined.

(** RRef::handleError keeps its handlers in a function-local static whose
    lambdas capture the first RRef that ever failed: when a second remote call
    times out, the first RRef is marked again and the second one is not, so
    forking the RRef whose creation timed out is not refused. *)
Theorem rref_timeout_marks_first_rref :
  let mk n := mkRRef 0 (mkId 1 n) true false (UserRRef (mkId 1 (n + 1)) false false) in
  let s := upd_heap (fun _ => {[0%nat := mk 0; 1%nat := mk 2]}) (init_context 1) in
  let s1 := snd (handleError 1 "RPC timed out" 0 s) in
  let s2 := snd (handleError 1 "RPC timed out" 1 s1) in
  (timedOut_ <$> heap s2 !! 0%nat) = Some true /\
  (timedOut_ <$> heap s2 !! 1%nat) = Some false /\
  exists d, fst (prepareChildFork (fun _ : bool => []) 1 s2) = Ret d.
Proof. vm_compute. split_and!; [reflexivity..|]. eexists. reflexivity. Qed.

(** A retried RREF_FORK_REQUEST that arrives after the fork's
    RREF_USER_DELETE registers the deleted fork again; nothing will delete it a
    second time, so the fork set of the RRef never becomes empty. *)
Theorem rref_late_fork_request_leaks {Ty : Type} (me : Z) (r : RRefId) (f : ForkId) :
  exists s1,
    handle_fork_msgs r [ForkMsg f; DeleteMsg f; ForkMsg f] (init_context (Ty := Ty) me) =
      (Ret [RRefAck; RRefAck; RRefAck], s1) /\ forks_of r s1 = {[f]}.
Proof.
  destruct (handle_fork_msgs_spec r [ForkMsg f; DeleteMsg f; ForkMsg f] (init_context (Ty := Ty) me))
    as (s1 & Hs & Hr & _).
  - apply (inv_forks _ (init_inv me)).
  - by intros l.
  - exists s1. split; [done|]. change (forks_of r s1) with (refset r s1).1. rewrite Hr. simpl.
    unfold forks_of. simpl. rewrite lookup_empty. simpl. case_bool_decide; set_solver.
Qed.
