(* ===== verification/Wire.v ===== *)
(** * The RPC wire format

    Models csrc/c10d/distributed/rpc/utils.cpp: the sectioned wire format
    (wireSerialize, parseWireSections, wireDeserialize), the payload wrapping of
    the autograd and profiling messages (writeWrappedPayload,
    readWrappedPayload) and the error strings that carry an RPCErrorType.  The
    pickler, the unpickler and the big-endian integer codec belong to other
    libraries and are parameters. *)

From stdpp Require Import base option list gmap strings.
From Stdlib Require Import ZArith Lia.
From S2P Require Import Prelude Decimal RpcTypes.
Import Decimal.

#[local] Set Warnings "-clear-no-such-hyp".

(** ** Sections *)

Definition SPACE : byte := x20.
Definition NEWLINE : byte := x0a.

(** [while (ptr != endp && *ptr != c) ptr++]: the bytes before [c] and those
    after it, or [None] at the end of the data. *)
Fixpoint scan_to (c : byte) (l : bytes) : option (bytes * bytes) :=
  match l with
  | [] => None
  | b :: l =>
      if bool_decide (b = c) then Some ([], l)
      else match scan_to c l with Some (p, r) => Some (b :: p, r) | None => None end
  end.

(** The header loop, on the unread bytes: the entries and what follows the
    empty line.  Every iteration reads at least one byte, so as many iterations
    as bytes suffice. *)
Fixpoint parse_header (fuel : nat) (l : bytes) : outcome (list (bytes * Z) * bytes) :=
  match fuel with
  | O => Block
  | S fuel =>
      match l with
      | [] => Throw (RuntimeError "failed parse")
      | b :: l' =>
          if bool_decide (b = NEWLINE) then Ret ([], l')
          else
            match scan_to SPACE l with
            | None | Some (_, []) => Throw (RuntimeError "failed parse")
            | Some (name, l) =>
                match scan_to NEWLINE l with
                | None => Throw (RuntimeError "failed parse")
                | Some (size, l) =>
                    let? sz := stoll size in
                    let? rest := parse_header fuel l in
                    Ret ((name, uint64 sz) :: rest.1, rest.2)
                end
            end
      end
  end.

Abbreviation sections := (gmap bytes (Z * Z)).

(** The loop over the header entries: each section is an offset into the data
    and a size. *)
Fixpoint place_sections (ents : list (bytes * Z)) (ptr : Z) (out : sections) : sections * Z :=
  match ents with
  | [] => (out, ptr)
  | (name, size) :: ents => place_sections ents (uint64 (ptr + size)) (<[name := (ptr, size)]> out)
  end.

Definition parseWireSections (data : bytes) : outcome sections :=
  let? h := parse_header (S (length data)) data in
  let start := Z.of_nat (length data) - Z.of_nat (length h.2) in
  let '(out, ptr) := place_sections h.1 start ∅ in
  check! (ptr =? Z.of_nat (length data)) else RuntimeError "failed bounds" in
  Ret out.

(** Copying a section: outside the data it is undefined. *)
Definition read_section (data : bytes) (s : Z * Z) : outcome bytes :=
  if (0 <=? s.1) && (s.1 + s.2 <=? Z.of_nat (length data))
  then Ret (take (Z.to_nat s.2) (drop (Z.to_nat s.1) data))
  else Throw (Undefined "read past the end of the message").

Section wire.
Context {T : Type}.
Variable is_cpu : T -> bool.
(** The queries of [worthRecopying] and [Tensor::clone]. *)
Variables (has_storage : T -> bool) (storage_nbytes element_size numel : T -> Z).
Variable clone : T -> T.
(** The pickler: the metadata and the bytes of each tensor; the unpickler reads
    the metadata and asks for the tensor sections by name. *)
Variable pickle_tensors : list T -> bytes * list bytes.
Variable unpickle_tensors : bytes -> (bytes -> outcome bytes) -> outcome (list T).

Definition worthRecopying (t : T) : bool :=
  if negb (has_storage t) then false
  else
    let storageSize := storage_nbytes t in
    let usefulSize := element_size t * numel t in
    (8 * 1024 <=? storageSize) && (usefulSize * 2 <=? storageSize).

Definition cloneSparseTensors (tensors : list T) : list T :=
  map (fun t => if worthRecopying t then clone t else t) tensors.

Definition kMeta : bytes := str "meta".
Definition kPayload : bytes := str "payload".

(** The entries of the message, in order. *)
Definition wire_entries (payload : bytes) (tensors : list T) : list (bytes * bytes) :=
  (if bool_decide (payload = []) then [] else [(kPayload, payload)]) ++
  (if bool_decide (length tensors = 0%nat) then []
   else let '(metaEntry, tensorData) := pickle_tensors (cloneSparseTensors tensors) in
        (kMeta, metaEntry) :: imap (fun i d => (to_string (Z.of_nat i), d)) tensorData).

Definition wire_header (entries : list (bytes * bytes)) : bytes :=
  concat (map (fun e => e.1 ++ [SPACE] ++ to_string (Z.of_nat (length e.2)) ++ [NEWLINE]) entries)
  ++ [NEWLINE].

Definition wireSerialize (payload : bytes) (tensors : list T) : outcome bytes :=
  check! forallb is_cpu tensors else CheckFailed "ProcessGroup RPC backend only supports" in
  let entries := wire_entries payload tensors in
  Ret (wire_header entries ++ concat (map snd entries)).

(** [sectionReadFunc] *)
Definition sectionReadFunc (data : bytes) (secs : sections) (ename : bytes) : outcome bytes :=
  match secs !! ename with
  | None => Throw (RuntimeError "Couldn't find entity ")
  | Some s => if s.2 =? 0 then Ret [] else read_section data s
  end.

Definition wireDeserialize (data : bytes) : outcome (bytes * list T) :=
  let? secs := parseWireSections data in
  let? payload :=
    match secs !! kPayload with
    | Some s => if s.2 =? 0 then Ret [] else read_section data s
    | None => Ret []
    end in
  let? tensors :=
    match secs !! kMeta with
    | None => Ret []
    | Some s =>
        let? meta := read_section data s in
        unpickle_tensors meta (sectionReadFunc data secs)
    end in
  Ret (payload, tensors).

(** *** Round trip *)

Lemma scan_to_app c p r : c ∉ p -> scan_to c (p ++ c :: r) = Some (p, r).
Proof.
  induction p as [|b p IH]; intros Hc; simpl; [by rewrite bool_decide_true|].
  apply not_elem_of_cons in Hc as [Hne Hc]. rewrite bool_decide_false by done. by rewrite IH.
Qed.

Lemma scan_to_shorter c l p r : scan_to c l = Some (p, r) -> (length r < length l)%nat.
Proof.
  revert p r. induction l as [|b l IH]; intros p r; simpl; [done|].
  case_bool_decide; [intros ?; simplify_eq; lia|].
  destruct (scan_to c l) as [[p' r']|] eqn:Hs; intros H'; simplify_eq. specialize (IH _ _ eq_refl). lia.
Qed.

(** A printed size has no delimiter in it. *)
Lemma to_string_digits n c : 0 <= n -> c ∈ to_string n -> 48 <= Z_of_byte c < 58.
Proof.
  intros Hn. unfold to_string. destruct (Z.ltb_spec n 0); [lia|].
  destruct (digits_spec n Hn) as (ds & -> & _ & Hall & _).
  intros Hin. apply list_elem_of_In, in_map_iff in Hin as (d & <- & Hd).
  rewrite Forall_forall in Hall. apply list_elem_of_In, Hall in Hd. rewrite Z_of_digit by done. lia.
Qed.

Lemma to_string_no_delim n c : 0 <= n -> ~ (48 <= Z_of_byte c < 58) -> c ∉ to_string n.
Proof. intros Hn Hc Hin. by apply Hc, (to_string_digits n). Qed.

Lemma delims_not_digits :
  (forall n, 0 <= n -> SPACE ∉ to_string n) /\ (forall n, 0 <= n -> NEWLINE ∉ to_string n).
Proof.
  split; intros n Hn; apply to_string_no_delim; try done; vm_compute; intros [H _]; by apply H.
Qed.

Definition name_ok (n : bytes) : Prop := n <> [] /\ (SPACE ∉ n) /\ (NEWLINE ∉ n).

Definition size_of (e : bytes * bytes) : Z := Z.of_nat (length e.2).
Definition entry_ok (e : bytes * bytes) : Prop := name_ok e.1 /\ size_of e < 2 ^ 63.

Lemma header_cons e es : wire_header (e :: es) =
  e.1 ++ SPACE :: to_string (size_of e) ++ NEWLINE :: wire_header es.
Proof. unfold wire_header. simpl. rewrite <- !app_assoc. simpl. by rewrite <- !app_assoc. Qed.

Lemma parse_header_print es body fuel :
  Forall entry_ok es -> (length es < fuel)%nat ->
  parse_header fuel (wire_header es ++ body) =
    Ret (map (fun e => (e.1, size_of e)) es, body).
Proof.
  intros Hes. revert fuel. induction Hes as [|e es [(Hne & Hsp & Hnl) Hsz] _ IH]; intros fuel Hf;
    (destruct fuel as [|fuel]; [simpl in Hf; lia|]).
  - done.
  - rewrite header_cons. destruct e as [name d]. simpl in Hne, Hsp, Hnl.
    destruct name as [|b name]; [done|].
    cbn -[scan_to to_string wire_header]. rewrite bool_decide_false by set_solver.
    set (sz := to_string (size_of (b :: name, d))).
    assert (Hsc : scan_to SPACE (b :: (name ++ SPACE :: sz ++ NEWLINE :: wire_header es) ++ body) =
      Some (b :: name, sz ++ NEWLINE :: wire_header es ++ body)).
    { rewrite <- (scan_to_app SPACE (b :: name)) by done. f_equal. simpl. f_equal.
      rewrite <- app_assoc. simpl. by rewrite <- app_assoc. }
    rewrite Hsc. destruct (sz ++ NEWLINE :: wire_header es ++ body) as [|c r] eqn:E.
    { apply (f_equal length) in E. rewrite length_app in E. simpl in E. lia. }
    rewrite <- E. subst sz.
    rewrite scan_to_app by (apply delims_not_digits; unfold size_of; lia).
    assert (0 <= size_of (b :: name, d)) by (unfold size_of; lia).
    rewrite stoll_to_string by (unfold in_int64; lia). simpl.
    rewrite IH by (simpl in Hf; lia). simpl. rewrite uint64_id by (unfold in_uint64; lia). done.
Qed.

Lemma place_sections_end ents ptr out :
  0 <= ptr -> Forall (fun e => 0 <= e.2) ents ->
  ptr + sum_Z (map snd ents) < 2 ^ 64 ->
  (place_sections ents ptr out).2 = ptr + sum_Z (map snd ents).
Proof.
  revert ptr out. induction ents as [|[n sz] ents IH]; intros ptr out Hp Hall Hlt; simpl in *; [lia|].
  apply Forall_cons in Hall as [Hsz Hall]. simpl in Hsz.
  assert (0 <= sum_Z (map snd ents)) by (apply sum_Z_nonneg, Forall_map, Hall).
  rewrite uint64_id by (unfold in_uint64; lia). rewrite IH by (done || lia). lia.
Qed.

Lemma place_sections_other ents ptr out n :
  n ∉ map fst ents -> (place_sections ents ptr out).1 !! n = out !! n.
Proof.
  revert ptr out. induction ents as [|[m sz] ents IH]; intros ptr out Hn; simpl in *; [done|].
  apply not_elem_of_cons in Hn as [Hne Hn]. rewrite IH by done. by rewrite lookup_insert_ne.
Qed.

Lemma place_sections_lookup pre e post ptr out :
  0 <= ptr -> Forall (fun e => 0 <= e.2) (pre ++ e :: post) ->
  ptr + sum_Z (map snd (pre ++ e :: post)) < 2 ^ 64 -> NoDup (map fst (pre ++ e :: post)) ->
  (place_sections (pre ++ e :: post) ptr out).1 !! e.1 = Some (ptr + sum_Z (map snd pre), e.2).
Proof.
  revert ptr out. induction pre as [|[m sz] pre IH]; intros ptr out Hp Hall Hlt Hnd; simpl in *.
  - destruct e as [n sz]. simpl in *. apply NoDup_cons in Hnd as [Hn _].
    rewrite place_sections_other, lookup_insert_eq by done. by rewrite Z.add_0_r.
  - apply Forall_cons in Hall as [Hsz Hall]. simpl in Hsz. apply NoDup_cons in Hnd as [_ Hnd].
    assert (0 <= sum_Z (map snd (pre ++ e :: post))) by (apply sum_Z_nonneg, Forall_map, Hall).
    rewrite uint64_id by (unfold in_uint64; lia). rewrite IH by (done || lia). by rewrite Z.add_assoc.
Qed.

Lemma sum_sizes (es : list (bytes * bytes)) :
  sum_Z (map snd (map (fun e => (e.1, size_of e)) es)) = Z.of_nat (length (concat (map snd es))).
Proof.
  induction es as [|e es IH]; simpl; [done|]. rewrite IH, length_app. unfold size_of. lia.
Qed.

Definition wire_image (es : list (bytes * bytes)) : bytes := wire_header es ++ concat (map snd es).

(** What a reader finds in a printed message. *)
Abbreviation ents_of := (map (fun e : bytes * bytes => (e.1, size_of e))).

Lemma header_length l : (length l <= length (wire_header l))%nat.
Proof.
  induction l as [|x l IH]; [simpl; lia|]. rewrite header_cons.
  rewrite !length_app. simpl. rewrite length_app. simpl. lia.
Qed.

Lemma entries_ok es :
  Forall (fun e => name_ok e.1) es -> Z.of_nat (length (concat (map snd es))) < 2 ^ 63 ->
  Forall entry_ok es.
Proof.
  intros Hnames Hlen. rewrite <- sum_sizes in Hlen. apply Forall_forall. intros e He.
  split; [by eapply Forall_forall in Hnames|]. apply elem_of_Permutation in He as [es' He].
  rewrite (sum_Z_perm _ _ (Permutation_map snd (Permutation_map (fun e => (e.1, size_of e)) He))) in Hlen.
  simpl in Hlen. assert (0 <= sum_Z (map snd (ents_of es'))); [|lia].
  apply sum_Z_nonneg, Forall_map, Forall_map, Forall_forall. intros x _. unfold size_of. simpl. lia.
Qed.

(** The bytes of an entry lie after the header and the earlier entries. *)
Lemma read_printed pre e post :
  read_section (wire_image (pre ++ e :: post))
    (Z.of_nat (length (wire_header (pre ++ e :: post))) + sum_Z (map snd (ents_of pre)), size_of e)
  = Ret e.2.
Proof.
  set (h := wire_header (pre ++ e :: post)).
  assert (Himg : wire_image (pre ++ e :: post) =
    (h ++ concat (map snd pre)) ++ e.2 ++ concat (map snd post)).
  { unfold wire_image. fold h. by rewrite map_app, concat_app, app_assoc. }
  rewrite Himg, sum_sizes. unfold read_section. simpl.
  rewrite (proj2 (Z.leb_le _ _)) by lia.
  rewrite (proj2 (Z.leb_le _ _)) by (unfold size_of; rewrite !length_app; lia). simpl. f_equal.
  unfold size_of. rewrite <- Nat2Z.inj_add, !Nat2Z.id.
  rewrite drop_app_length' by by rewrite length_app. by rewrite take_app_length.
Qed.

Lemma parse_printed es :
  Forall (fun e => name_ok e.1) es -> NoDup (map fst es) ->
  Z.of_nat (length (wire_image es)) < 2 ^ 63 ->
  exists secs, parseWireSections (wire_image es) = Ret secs /\
    (forall n, n ∉ map fst es -> secs !! n = None) /\
    (forall e, e ∈ es -> exists s, secs !! e.1 = Some s /\ s.2 = size_of e /\
       read_section (wire_image es) s = Ret e.2).
Proof.
  intros Hnames Hnd Hlen. set (body := concat (map snd es)). set (ents := ents_of es).
  assert (Hbody : sum_Z (map snd ents) = Z.of_nat (length body)) by apply sum_sizes.
  assert (Htot : Z.of_nat (length (wire_image es)) =
    Z.of_nat (length (wire_header es)) + Z.of_nat (length body)).
  { unfold wire_image. rewrite length_app. fold body. lia. }
  assert (Hpos : Forall (fun e => 0 <= e.2) ents).
  { apply Forall_map, Forall_forall. intros e _. unfold size_of. simpl. lia. }
  assert (Hok : Forall entry_ok es) by (apply entries_ok; [done|fold body; lia]).
  assert (Hfst : map fst ents = map fst es) by (unfold ents; by rewrite map_map).
  assert (Hfuel : (length es < S (length (wire_image es)))%nat) by (pose proof (header_length es); lia).
  unfold parseWireSections.
  unfold wire_image at 2. rewrite parse_header_print by done. simpl. fold body ents.
  replace (Z.of_nat (length (wire_image es)) - Z.of_nat (length body))
    with (Z.of_nat (length (wire_header es))) by lia.
  set (ptr := Z.of_nat (length (wire_header es))) in *.
  pose proof (place_sections_end ents ptr ∅ ltac:(lia) Hpos ltac:(lia)) as Hend.
  pose proof (fun n => place_sections_other ents ptr ∅ n) as Hoth.
  pose proof (fun pre e post => place_sections_lookup pre e post ptr ∅) as Hlk.
  destruct (place_sections ents ptr ∅) as [out fin] eqn:Hpl. simpl in Hend, Hoth. rewrite Hend.
  rewrite (proj2 (Z.eqb_eq _ _)) by lia. exists out. split; [done|]. split.
  - intros n Hn. rewrite Hoth by by rewrite Hfst. apply lookup_empty.
  - intros e He. apply list_elem_of_split in He as (pre & post & ->).
    assert (Hents : ents = ents_of pre ++ (e.1, size_of e) :: ents_of post)
      by (unfold ents; by rewrite map_app).
    rewrite Hents in *. specialize (Hlk (ents_of pre) (e.1, size_of e) (ents_of post)).
    rewrite Hpl in Hlk. simpl in Hlk. eexists.
    split; [apply Hlk; [lia|done|lia|by rewrite Hfst]|]. split; [done|]. apply read_printed.
Qed.

Lemma to_string_inj a b : in_int64 a -> in_int64 b -> to_string a = to_string b -> a = b.
Proof.
  intros Ha Hb Hab. pose proof (stoll_to_string a Ha) as H1.
  rewrite Hab, stoll_to_string in H1 by done. congruence.
Qed.

Lemma number_name_ok n : 0 <= n -> name_ok (to_string n).
Proof.
  intros Hn. split; [apply to_string_nonempty|].
  split; by apply delims_not_digits.
Qed.

Lemma kNames_ok : name_ok kPayload /\ name_ok kMeta /\ kPayload <> kMeta.
Proof.
  assert (Hd : forall (c : byte) (l : bytes), bool_decide (c ∉ l) = true -> c ∉ l)
    by (intros c l; apply bool_decide_eq_true).
  unfold name_ok. split_and!; try done; apply Hd; vm_compute; reflexivity.
Qed.

Lemma kNames_not_number n : 0 <= n -> (kPayload <> to_string n) /\ (kMeta <> to_string n).
Proof.
  intros Hn. split; intros H.
  - assert (Hin : x70 ∈ to_string n) by (rewrite <- H; apply list_elem_of_here).
    apply to_string_digits in Hin; [|done]. vm_compute in Hin. by destruct Hin.
  - assert (Hin : x6d ∈ to_string n) by (rewrite <- H; apply list_elem_of_here).
    apply to_string_digits in Hin; [|done]. vm_compute in Hin. by destruct Hin.
Qed.

Definition numbered (l : list bytes) : list (bytes * bytes) :=
  imap (fun i d => (to_string (Z.of_nat i), d)) l.

Lemma numbered_names l n : n ∈ map fst (numbered l) ->
  exists i, (i < length l)%nat /\ n = to_string (Z.of_nat i).
Proof.
  intros Hn. apply list_elem_of_In, in_map_iff in Hn as (e & <- & He).
  apply list_elem_of_In, elem_of_lookup_imap in He as (i & d & -> & Hd).
  exists i. split; [by eapply lookup_lt_Some|done].
Qed.

Lemma numbered_nodup l : Z.of_nat (length l) < 2 ^ 63 -> NoDup (map fst (numbered l)).
Proof.
  intros Hl. apply NoDup_alt. intros i j n Hi Hj.
  unfold numbered in *. rewrite list_lookup_fmap, list_lookup_imap in Hi, Hj.
  destruct (l !! i) eqn:E1; [|done]. destruct (l !! j) eqn:E2; [|done]. simpl in *. simplify_eq.
  apply lookup_lt_Some in E1, E2.
  assert (Z.of_nat i = Z.of_nat j); [|lia].
  apply to_string_inj; [unfold in_int64; lia..|congruence].
Qed.

Lemma wire_entries_ok payload tensors :
  Z.of_nat (length (pickle_tensors (cloneSparseTensors tensors)).2) < 2 ^ 63 ->
  Forall (fun e => name_ok e.1) (wire_entries payload tensors) /\
  NoDup (map fst (wire_entries payload tensors)).
Proof.
  intros Hl. destruct kNames_ok as (Hp & Hm & Hpm).
  assert (Hnum : forall l, Forall (fun e => name_ok e.1) (numbered l)).
  { intros l. apply Forall_forall. intros e (i & d & -> & _)%elem_of_lookup_imap.
    apply number_name_ok. lia. }
  assert (Hnot : forall l, (kPayload ∉ map fst (numbered l)) /\ (kMeta ∉ map fst (numbered l))).
  { intros l. split; intros (i & _ & Hi)%numbered_names;
      pose proof (kNames_not_number (Z.of_nat i) ltac:(lia)); tauto. }
  unfold wire_entries. destruct (pickle_tensors (cloneSparseTensors tensors)) as [meta data].
  simpl in Hl. fold (numbered data). specialize (Hnum data). destruct (Hnot data).
  pose proof (numbered_nodup data Hl).
  pose proof (not_elem_of_nil kPayload).
  do 2 case_bool_decide; simpl;
    rewrite ?Forall_cons, ?Forall_nil, ?NoDup_cons, ?NoDup_nil, ?not_elem_of_cons; tauto.
Qed.

(** C37: what wireSerialize writes, wireDeserialize reads back: for every
    payload (the empty one included) and every list of CPU tensors, the receiver
    gets the payload and the tensors (with the sparse views recopied), provided
    the message is shorter than 2^63 bytes and the unpickler inverts the pickler
    when it is served the tensor sections by name. *)
Theorem wire_roundtrip payload tensors :
  (forall ts reader,
     (forall i d, (pickle_tensors ts).2 !! i = Some d -> reader (to_string (Z.of_nat i)) = Ret d) ->
     unpickle_tensors (pickle_tensors ts).1 reader = Ret ts) ->
  forallb is_cpu tensors = true ->
  Z.of_nat (length (pickle_tensors (cloneSparseTensors tensors)).2) < 2 ^ 63 ->
  Z.of_nat (length (wire_image (wire_entries payload tensors))) < 2 ^ 63 ->
  exists data, wireSerialize payload tensors = Ret data /\
    wireDeserialize data = Ret (payload, cloneSparseTensors tensors).
Proof.
  intros Hpick Hcpu Hn Hlen. unfold wireSerialize. rewrite Hcpu. simpl.
  set (es := wire_entries payload tensors) in *. exists (wire_image es). split; [done|].
  destruct (wire_entries_ok payload tensors Hn) as [Hnames Hnd]. fold es in Hnames, Hnd.
  destruct (parse_printed es Hnames Hnd Hlen) as (secs & Hparse & Hnone & Hsome).
  assert (Hread : forall n d, (n, d) ∈ es -> sectionReadFunc (wire_image es) secs n = Ret d).
  { intros n d Hin. destruct (Hsome _ Hin) as (s & Hs & Hsz & Hr). simpl in *.
    unfold sectionReadFunc. rewrite Hs, Hsz. destruct (Z.eqb_spec (size_of (n, d)) 0) as [Hz|]; [|done].
    unfold size_of in Hz. simpl in Hz. destruct d; [done|simpl in Hz; lia]. }
  unfold wireDeserialize. rewrite Hparse. simpl.
  assert (Hpay : (match secs !! kPayload with
    | Some s => if s.2 =? 0 then Ret [] else read_section (wire_image es) s
    | None => Ret [] end) = Ret payload).
  { destruct (decide (payload = [])) as [Hp|Hp].
    - rewrite Hnone; [by rewrite Hp|]. subst es. unfold wire_entries. rewrite bool_decide_true by done.
      case_bool_decide; [apply not_elem_of_nil|]. destruct (pickle_tensors _) as [meta data]. simpl.
      apply not_elem_of_cons. split; [apply kNames_ok|]. intros (i & _ & Hi)%numbered_names.
      by destruct (kNames_not_number (Z.of_nat i) ltac:(lia)).
    - assert (Hin : (kPayload, payload) ∈ es).
      { subst es. unfold wire_entries. rewrite bool_decide_false by done. apply list_elem_of_here. }
      pose proof (Hread _ _ Hin) as Hr. unfold sectionReadFunc in Hr.
      by destruct (secs !! kPayload). }
  rewrite Hpay. simpl.
  destruct (decide (length tensors = 0%nat)) as [Ht|Ht].
  - rewrite Hnone.
    + simpl. by destruct tensors.
    + subst es. unfold wire_entries. rewrite (bool_decide_true (length _ = _)), app_nil_r by done.
      case_bool_decide; [apply not_elem_of_nil|]. simpl. apply not_elem_of_cons.
      split; [apply not_eq_sym, kNames_ok|apply not_elem_of_nil].
  - specialize (Hpick (cloneSparseTensors tensors) (sectionReadFunc (wire_image es) secs)).
    assert (Hin : forall e, e = (kMeta, (pickle_tensors (cloneSparseTensors tensors)).1) \/
        e ∈ numbered (pickle_tensors (cloneSparseTensors tensors)).2 -> e ∈ es).
    { intros e He. subst es. unfold wire_entries. rewrite (bool_decide_false (length _ = _)) by done.
      apply elem_of_app. right. destruct (pickle_tensors _) as [meta data]. apply elem_of_cons.
      destruct He as [->|He]; [by left|by right]. }
    destruct (Hsome _ (Hin _ (or_introl eq_refl))) as (s & Hs & _ & Hr). simpl in Hs, Hr.
    rewrite Hs. simpl. rewrite Hr. simpl. rewrite Hpick; [done|].
    intros i d Hd. apply Hread, Hin. right. apply elem_of_lookup_imap. by exists i, d.
Qed.
End wire.

(** Every message is parsed to a result or refused: the fuel never runs out. *)
Lemma parse_header_fuel fuel l : (length l < fuel)%nat -> parse_header fuel l <> Block.
Proof.
  revert l. induction fuel as [|fuel IH]; intros l Hl; [lia|]. simpl.
  destruct l as [|b l']; [done|]. case_bool_decide; [done|].
  destruct (scan_to SPACE (b :: l')) as [[name l1]|] eqn:H1; [|done].
  destruct l1 as [|c l1]; [done|]. destruct (scan_to NEWLINE (c :: l1)) as [[sz l2]|] eqn:H2; [|done].
  apply scan_to_shorter in H1, H2. assert (Hr : parse_header fuel l2 <> Block) by (apply IH; lia).
  destruct (stoll sz) eqn:Hs; simpl; try done.
  - by destruct (parse_header fuel l2).
  - revert Hs. unfold stoll, sto. repeat case_match; done.
Qed.

Lemma parseWireSections_returns data : parseWireSections data <> Block.
Proof.
  unfold parseWireSections.
  pose proof (parse_header_fuel (S (length data)) data ltac:(lia)) as Hb.
  destruct (parse_header _ _) as [h|e|]; simpl; try done.
  destruct (place_sections _ _ _) as [out ptr]. unfold ocheck. by case_match.
Qed.

(** A pickler for tensors that are byte strings: the metadata has one byte per
    tensor. *)
Fixpoint read_all (reader : bytes -> outcome bytes) (i n : nat) : outcome (list bytes) :=
  match n with
  | O => Ret []
  | S n =>
      let? d := reader (to_string (Z.of_nat i)) in
      let? ds := read_all reader (S i) n in
      Ret (d :: ds)
  end.
Definition ex_pickle (ts : list bytes) : bytes * list bytes := (map (fun _ => x00) ts, ts).
Definition ex_unpickle (meta : bytes) (reader : bytes -> outcome bytes) : outcome (list bytes) :=
  read_all reader 0 (length meta).

Lemma ex_pickle_inverts ts reader :
  (forall i d, (ex_pickle ts).2 !! i = Some d -> reader (to_string (Z.of_nat i)) = Ret d) ->
  ex_unpickle (ex_pickle ts).1 reader = Ret ts.
Proof.
  unfold ex_unpickle. simpl. rewrite length_map. intros H.
  assert (Hg : forall k, (forall i d, ts !! i = Some d -> reader (to_string (Z.of_nat (k + i))) = Ret d) ->
    read_all reader k (length ts) = Ret ts); [|by apply (Hg 0%nat)].
  clear H. induction ts as [|t ts IH]; intros k Hk; [done|]. simpl.
  rewrite <- (Nat.add_0_r k) at 1. rewrite (Hk 0%nat t) by done. simpl.
  rewrite IH; [done|]. intros i d Hd. replace (S k + i)%nat with (k + S i)%nat by lia. by apply Hk.
Qed.

Abbreviation ex_serialize :=
  (wireSerialize (fun _ => true) (fun _ => false) (fun _ => 0) (fun _ => 1) (fun _ => 0)
    (fun t => t) ex_pickle).

Lemma wire_roundtrip_witness :
  exists data, ex_serialize (str "hi") [str "ab"; []] = Ret data /\
    wireDeserialize ex_unpickle data = Ret (str "hi", [str "ab"; []]).
Proof.
  apply (wire_roundtrip (fun _ => true) (fun _ => false) (fun _ => 0) (fun _ => 1) (fun _ => 0)
    (fun t => t) ex_pickle ex_unpickle (str "hi") [str "ab"; []] ex_pickle_inverts).
  - reflexivity.
  - vm_compute. reflexivity.
  - vm_compute. reflexivity.
Defined.

(** The bounds check of parseWireSections only compares the end of the last
    section: sizes are read with stoll and converted to size_t, so a negative
    size is accepted and undone by a later one; the section then lies outside
    the message and reading it is undefined. *)
Theorem wire_negative_size_accepted :
  let data := str "payload -3" ++ [NEWLINE] ++ str "x 3" ++ [NEWLINE; NEWLINE] in
  match parseWireSections data with
  | Ret secs => secs !! kPayload = Some (16, 2 ^ 64 - 3)
  | _ => False
  end /\
  wireDeserialize ex_unpickle data = Throw (Undefined "read past the end of the message").
Proof. split; vm_compute; reflexivity. Qed.

(** ** Wrapped payloads *)

Section wrapped.
Context {V : Type}.
(** THP_encodeInt64Buffer and THP_decodeInt64Buffer in big-endian order, and
    [jit::unpickle] of the additional payload. *)
Variable encodeInt64 : Z -> bytes.
Variable decodeInt64 : bytes -> Z.
Variable unpickle : bytes -> outcome (list V).

Definition writeWrappedPayload (originalPayload additionalPayload : bytes) : bytes :=
  originalPayload ++ additionalPayload ++ encodeInt64 (int64 (Z.of_nat (length additionalPayload))).

(** [payload] is the caller's copy, which is cut back to the original payload;
    [message] is the payload of the message itself.  The subtraction wraps, so
    the assertion on its sign always holds. *)
Definition readWrappedPayload (payload message : bytes) : outcome (list V * bytes) :=
  let indexToRead := uint64 (Z.of_nat (length payload) - 8) in
  check! (0 <=? indexToRead) else AssertFailed "indexToRead >= 0" in
  check! (indexToRead + 8 <=? Z.of_nat (length payload)) else Undefined "read past the payload" in
  let additionalPayloadSize := decodeInt64 (drop (Z.to_nat indexToRead) payload) in
  let payload := take (Z.to_nat indexToRead) payload in
  check! (uint64 additionalPayloadSize <? Z.of_nat (length payload))
    else AssertFailed "Wrong payload sizes: payload.size() is " in
  let start := (length payload - Z.to_nat additionalPayloadSize)%nat in
  let? tuple := unpickle (take (Z.to_nat additionalPayloadSize) (drop start message)) in
  Ret (tuple, take start payload).

(** ReadWrappedPayload undoes writeWrappedPayload: the receiver gets the
    pickled values of the additional payload and the original payload back,
    whenever the original payload is not empty; with an empty original payload
    the size assertion fails, because it demands a strictly smaller additional
    payload. *)
Theorem wrapped_payload_roundtrip original additional values :
  (forall z, in_int64 z -> length (encodeInt64 z) = 8%nat /\ decodeInt64 (encodeInt64 z) = z) ->
  Z.of_nat (length original) + Z.of_nat (length additional) + 8 < 2 ^ 63 ->
  unpickle additional = Ret values ->
  let w := writeWrappedPayload original additional in
  readWrappedPayload w w =
    if bool_decide (original = [])
    then Throw (AssertFailed "Wrong payload sizes: payload.size() is ")
    else Ret (values, original).
Proof.
  intros Hcodec Hlen Hun. unfold writeWrappedPayload, readWrappedPayload. simpl.
  remember (length additional) as n eqn:Hn'.
  assert (Hn : in_int64 (Z.of_nat n)) by (unfold in_int64; lia).
  rewrite int64_id by done. destruct (Hcodec _ Hn) as [Hl8 Hdec].
  set (w := original ++ additional ++ encodeInt64 (Z.of_nat n)).
  assert (Hw : length w = (length original + n + 8)%nat)
    by (unfold w; rewrite !length_app, Hl8; lia).
  assert (Hsplit : w = (original ++ additional) ++ encodeInt64 (Z.of_nat n)) by (unfold w; by rewrite app_assoc).
  rewrite Hw. rewrite uint64_id by (unfold in_uint64; lia).
  replace (Z.of_nat (length original + n + 8) - 8) with (Z.of_nat (length (original ++ additional)))
    by (rewrite length_app; lia).
  destruct (Z.leb_spec 0 (Z.of_nat (length (original ++ additional)))); [|lia]. simpl.
  destruct (Z.leb_spec (Z.of_nat (length (original ++ additional)) + 8) (Z.of_nat (length original + n + 8)));
    [|rewrite length_app in *; lia]. simpl.
  rewrite Nat2Z.id, Hsplit, drop_app_length, take_app_length, Hdec.
  rewrite uint64_id by (unfold in_uint64; lia). rewrite length_app, <- Hn'.
  unfold ocheck. case_bool_decide as Ho.
  - subst original. simpl. by rewrite Z.ltb_irrefl.
  - destruct (Z.ltb_spec (Z.of_nat n) (Z.of_nat (length original + n))) as [_|Hge]; simpl.
    2: { destruct original; [done|simpl in Hge; lia]. }
    rewrite Nat2Z.id. replace (length original + n - n)%nat with (length original) by lia.
    rewrite <- app_assoc, drop_app_length, (take_app_length' additional) by done.
    rewrite take_app_length.
    by rewrite Hun.
Qed.

(** A payload shorter than the trailing size field is not refused: the
    unsigned index wraps around and the size is read outside the buffer. *)
Theorem wrapped_payload_short_undefined payload message :
  (length payload < 8)%nat ->
  readWrappedPayload payload message = Throw (Undefined "read past the payload").
Proof.
  intros Hlen. unfold readWrappedPayload.
  assert (Hi : uint64 (Z.of_nat (length payload) - 8) = Z.of_nat (length payload) - 8 + 2 ^ 64).
  { unfold uint64, wrap. rewrite <- (Z.mod_add _ 1) by lia. rewrite Z.mod_small by lia. lia. }
  rewrite Hi. unfold obind at 1, ocheck at 1.
  destruct (Z.leb_spec 0 (Z.of_nat (length payload) - 8 + 2 ^ 64)); [|lia].
  unfold obind at 1, ocheck at 1.
  destruct (Z.leb_spec (Z.of_nat (length payload) - 8 + 2 ^ 64 + 8) (Z.of_nat (length payload)));
    [lia|done].
Qed.
End wrapped.

(** Eight bytes, most significant first. *)
Definition be_encode (z : Z) : bytes := rev (le_bytes 8 (uint64 z)).
Definition be_decode (l : bytes) : Z := int64 (le_value (rev l)).

Lemma be_codec z : in_int64 z -> length (be_encode z) = 8%nat /\ be_decode (be_encode z) = z.
Proof.
  intros Hz. unfold be_encode, be_decode. rewrite length_rev, le_bytes_length, rev_involutive.
  split; [done|]. rewrite le_value_bytes. change (256 ^ Z.of_nat 8) with (2 ^ 64).
  unfold uint64, wrap. rewrite Z.mod_mod by lia. transitivity (int64 z); [|by apply int64_id].
  unfold int64, swrap. by rewrite Z.mod_mod by lia.
Qed.

Lemma wrapped_payload_roundtrip_witness :
  let w := writeWrappedPayload be_encode (str "call") (str "meta") in
  readWrappedPayload be_decode (fun b => Ret [b]) w w = Ret ([str "meta"], str "call").
Proof.
  apply (wrapped_payload_roundtrip be_encode be_decode (fun b => Ret [b]) (str "call") (str "meta")
    [str "meta"] be_codec); reflexivity.
Defined.

Lemma wrapped_payload_short_undefined_witness :
  readWrappedPayload be_decode (fun b => Ret [b]) [x01] [x01] = Throw (Undefined "read past the payload").
Proof.
  apply (wrapped_payload_short_undefined be_decode (fun b => Ret [b]) [x01] [x01]). simpl. lia.
Defined.

(** ** Error strings *)

Definition COLON : byte := x3a.
Definition kRPCErrorPrefix : bytes := str "RPCErr".

Definition makeRPCError (rpcErrorStr : bytes) (errorType : Z) : bytes :=
  kRPCErrorPrefix ++ [COLON] ++ to_string errorType ++ [COLON] ++ rpcErrorStr.

(** [err.find(p)]: the rest of the string from the first occurrence on. *)
Fixpoint find_sub (p l : bytes) : option bytes :=
  if bool_decide (take (length p) l = p) then Some l
  else match l with [] => None | _ :: l => find_sub p l end.

(** [err] is the message of a future with an error; UNKNOWN_ERROR is 0. *)
Definition getRPCErrorType (err : bytes) : outcome Z :=
  match find_sub kRPCErrorPrefix err with
  | None => Ret 0
  | Some at_pos =>
      match scan_to COLON (drop (length kRPCErrorPrefix + 1) at_pos) with
      | None => Ret 0
      | Some (errStr, _) => stoi errStr
      end
  end.

(** The error type put into an error string by makeRPCError is the one
    getRPCErrorType extracts, whatever the text of the error, so time-outs and
    injected failures reach the handler registered for them. *)
Theorem rpc_error_type_roundtrip rpcErrorStr errorType :
  0 <= errorType < 2 ^ 31 -> getRPCErrorType (makeRPCError rpcErrorStr errorType) = Ret errorType.
Proof.
  intros Ht. unfold getRPCErrorType, makeRPCError.
  set (tail := to_string errorType ++ [COLON] ++ rpcErrorStr).
  assert (Hf : find_sub kRPCErrorPrefix (kRPCErrorPrefix ++ [COLON] ++ tail) =
    Some (kRPCErrorPrefix ++ [COLON] ++ tail)).
  { change (kRPCErrorPrefix ++ [COLON] ++ tail) with
      (x52 :: x50 :: x43 :: x45 :: x72 :: x72 :: COLON :: tail). cbn [find_sub].
    by rewrite bool_decide_true. }
  rewrite Hf. assert (Hd : drop (length kRPCErrorPrefix + 1) (kRPCErrorPrefix ++ [COLON] ++ tail) = tail)
    by done.
  rewrite Hd. unfold tail. simpl app. rewrite scan_to_app.
  - rewrite stoi_to_string by (unfold in_int32; lia). done.
  - apply to_string_no_delim; [lia|]. vm_compute. intros [_ H]. done.
Qed.

Lemma rpc_error_type_roundtrip_witness :
  getRPCErrorType (makeRPCError (str "RPC ran for more than set timeout") 1) = Ret 1.
Proof. apply rpc_error_type_roundtrip. lia. Defined.
