(* ===== verification/RpcCommands.v ===== *)
(** * RPC commands and their encoding

    Models the commands of csrc/c10d/distributed/rpc (script_call.cpp,
    script_remote_call.cpp, script_resp.cpp, python_call.cpp,
    python_remote_call.cpp, python_resp.cpp), those of
    autograd/rpc_messages, and deserializeRequest and deserializeResponse of
    rpc/utils.cpp, which take a message apart through any number of autograd and
    profiling wrappers.

    The pickler, the big-endian integer codec, the operator registry of the JIT
    and the conversions of profiler configurations and events are not part of
    the repository: they are parameters. *)

From stdpp Require Import base option list gmap strings.
From Stdlib Require Import ZArith Lia.
From S2P Require Import Prelude Decimal RpcTypes Wire.
Import Decimal.

(** ** Searching in strings *)

Fixpoint is_prefix (p s : bytes) : bool :=
  match p, s with
  | [], _ => true
  | b :: p, c :: s => bool_decide (b = c) && is_prefix p s
  | _ :: _, [] => false
  end.

(** The positions at which [p] occurs in [s], in increasing order. *)
Definition occurrences (p s : bytes) : list nat :=
  List.filter (fun i => is_prefix p (drop i s)) (seq 0 (S (length s))).

(** std::string::find and rfind; [None] is npos. *)
Definition str_find (p s : bytes) : option nat := head (occurrences p s).
Definition str_rfind (p s : bytes) : option nat := last (occurrences p s).

(** std::vector::back. *)
Definition back {A} (l : list A) : outcome A :=
  match last l with Some a => Ret a | None => Throw (Undefined "std::vector::back") end.

(** ** Commands *)

Record AutogradMetadata := mkMetadata { autogradContextId : Z; autogradMessageId : Z }.

#[global] Instance AutogradMetadata_eq_dec : EqDecision AutogradMetadata.
Proof. solve_decision. Defined.

Abbreviation DeviceMap := (gmap Z Z).

Section commands.
Context {T Op Cfg Ev : Type}.

Record ScriptCall := mkScriptCall {
  op_ : option Op; qualifiedName_ : option bytes; stack_ : list (IValue T); isAsyncExecution_ : bool;
}.

(** The subclasses of RpcCommandBase.  A wrapper holds the command it wraps, as
    it does on the receiving side. *)
Inductive RpcCommand : Type :=
  | CScriptCall (c : ScriptCall)
  | CPythonCall (obj : SerializedPyObj T) (isAsyncExecution : bool)
  | CScriptRemoteCall (c : ScriptCall) (retRRefId : RRefId) (retForkId : ForkId)
  | CPythonRemoteCall (obj : SerializedPyObj T) (retRRefId retForkId : IValue T)
      (isAsyncExecution : bool)
  | CRRef (c : RRefCommand T)
  | CRpcWithAutograd (fromWorkerId : Z) (messageType : MessageType) (metadata : AutogradMetadata)
      (wrappedRpc : RpcCommand) (wrappedMessageType : MessageType) (tensors : list T)
      (deviceMap : DeviceMap)
  | CPropagateGradientsReq (metadata : AutogradMetadata) (grads : list T) (retainGraph : bool)
  | CCleanupAutogradContextReq (context_id : Z)
  | CRpcWithProfilingReq (messageType : MessageType) (wrappedRpc : RpcCommand)
      (wrappedMessageType : MessageType) (tensors : list T) (profilerConfig : Cfg)
      (profilingKeyId : GloballyUniqueId)
  | CRRefBackwardReq (rrefId : RRefId) (autogradContextId : Z) (retainGraph : bool)
  | CScriptResp (value : IValue T)
  | CPythonResp (obj : SerializedPyObj T)
  | CRpcWithProfilingResp (messageType : MessageType) (wrappedRpc : RpcCommand)
      (wrappedMessageType : MessageType) (tensors : list T) (profiledEvents : list Ev)
      (profilingId : GloballyUniqueId).
End commands.
Arguments ScriptCall : clear implicits.
Arguments RpcCommand : clear implicits.

Definition BUILTIN_OP_NAMESPACE_ : bytes := str "torch.ops.aten.".
Definition ATEN_PREFIX_ : bytes := str "aten::".
Definition kProfileEventsStartIdx : nat := 3.

Section encoding.
Context {T Op Cfg Ev : Type}.
Variable pickle : IValue T -> bytes * list T.
Variable unpickle : bytes -> list T -> outcome (IValue T).
Variable encodeInt64 : Z -> bytes.
Variable decodeInt64 : bytes -> Z.
(** [toString(op->schema())], [op->schema().name()], the name that parseSchema
    finds in a schema string, and the operators registered for a name. *)
Variable schema_string : Op -> bytes.
Variable schema_name : Op -> bytes.
Variable parseSchema_name : bytes -> outcome bytes.
Variable getAllOperatorsFor : bytes -> list Op.
(** [toIValue] and [fromIValue] of ProfilerConfig and LegacyEvent. *)
Variable cfg_toIValue : Cfg -> IValue T.
Variable cfg_fromIValue : IValue T -> outcome Cfg.
Variable ev_toIValue : Ev -> IValue T.
Variable ev_fromIValue : IValue T -> outcome Ev.

Abbreviation Cmd := (RpcCommand T Op Cfg Ev).

(** jit::unpickle of a message, followed by [toTuple()->elements()]. *)
Definition unpickle_message (message : Message T) : outcome (list (IValue T)) :=
  let? value := unpickle (payload message) (tensors message) in toTuple value.

(** The same for the additional payload of a wrapper, with an empty table. *)
Definition unpickle_additional (b : bytes) : outcome (list (IValue T)) :=
  let? value := unpickle b [] in toTuple value.

(** *** ScriptCall *)

Definition ScriptCall_toIValues (c : ScriptCall T Op) : outcome (list (IValue T)) :=
  let ivalues := stack_ c in
  match op_ c, qualifiedName_ c with
  | Some op, qualifiedName =>
      check! bool_decide (qualifiedName = None)
        else CheckFailed "It is builtin operator call, qualifiedName_ should not be set." in
      let opName := schema_name op in
      check! bool_decide (str_find (str "::") opName = str_rfind (str "::") opName) &&
             bool_decide (str_rfind ATEN_PREFIX_ opName = Some 0%nat)
        else CheckFailed "Unexpected operator name " in
      Ret (ivalues ++ [IString (schema_string op);
                       IString (BUILTIN_OP_NAMESPACE_ ++ drop (length ATEN_PREFIX_) opName)])
  | None, Some qualifiedName =>
      Ret (ivalues ++ [IBool (isAsyncExecution_ c); IString qualifiedName])
  | None, None =>
      Throw (AssertFailed "Either builtin operator or TorchScript function name should be set.")
  end.

Definition matchOperator (str_schema : bytes) : outcome Op :=
  let? symbol := parseSchema_name str_schema in
  match List.find (fun op => bool_decide (schema_string op = str_schema)) (getAllOperatorsFor symbol) with
  | Some op => Ret op
  | None => Throw (CheckFailed "Cannot find matching operator for schema ")
  end.

(** Also returns the caller's vector, from which the trailing values are gone. *)
Definition ScriptCall_fromIValues (ivalues : list (IValue T)) :
    outcome (ScriptCall T Op * list (IValue T)) :=
  let? v := back ivalues in
  let? qualifiedName := toStringRef v in
  let ivalues := removelast ivalues in
  if bool_decide (str_rfind BUILTIN_OP_NAMESPACE_ qualifiedName = Some 0%nat) then
    let? v := back ivalues in
    let? str_schema := toStringRef v in
    let? op := matchOperator str_schema in
    let ivalues := removelast ivalues in
    Ret (mkScriptCall (Some op) None ivalues false, ivalues)
  else
    let? v := back ivalues in
    let? isAsyncExecution := toBool v in
    let ivalues := removelast ivalues in
    Ret (mkScriptCall None (Some qualifiedName) ivalues isAsyncExecution, ivalues).

Definition ScriptCall_toMessage (c : ScriptCall T Op) : outcome (Message T) :=
  let? ivalues := ScriptCall_toIValues c in
  Ret (message_fromIValues pickle ivalues SCRIPT_CALL).

Definition ScriptCall_fromMessage (message : Message T) : outcome Cmd :=
  let? values := unpickle_message message in
  let? p := ScriptCall_fromIValues values in
  Ret (CScriptCall p.1).

(** *** ScriptRemoteCall *)

Definition ScriptRemoteCall_toMessage (c : ScriptCall T Op) (retRRefId retForkId : GloballyUniqueId) :
    outcome (Message T) :=
  let? ivalues := ScriptCall_toIValues c in
  Ret (message_fromIValues pickle (ivalues ++ [toIValue retRRefId; toIValue retForkId])
         SCRIPT_REMOTE_CALL).

Definition ScriptRemoteCall_fromIValues (ivalues : list (IValue T)) : outcome Cmd :=
  let? v := back ivalues in
  let? retForkId := fromIValue v in
  let ivalues := removelast ivalues in
  let? v := back ivalues in
  let? retRRefId := fromIValue v in
  let ivalues := removelast ivalues in
  let? p := ScriptCall_fromIValues ivalues in
  let '(scriptCall, ivalues) := p in
  Ret (CScriptRemoteCall
         (match op_ scriptCall with
          | Some op => mkScriptCall (Some op) None ivalues false
          | None => mkScriptCall None (qualifiedName_ scriptCall) ivalues
                      (isAsyncExecution_ scriptCall)
          end) retRRefId retForkId).

Definition ScriptRemoteCall_fromMessage (message : Message T) : outcome Cmd :=
  let? values := unpickle_message message in ScriptRemoteCall_fromIValues values.

(** *** PythonCall and PythonRemoteCall *)

Definition PythonCall_toMessage (obj : SerializedPyObj T) (isAsyncExecution : bool) : Message T :=
  mkMessage T ((if isAsyncExecution then x01 else x00) :: payload_ obj) (tensors_ obj) PYTHON_CALL (-1).

Definition PythonCall_fromMessage (message : Message T) : outcome Cmd :=
  match payload message with
  | [] => Throw (AssertFailed "Failed to convert an RPC message to PythonCall, the payload should at ")
  | c :: payload =>
      check! bool_decide (c = x00) || bool_decide (c = x01) else AssertFailed "c == 0 || c == 1" in
      Ret (CPythonCall (mkPyObj payload (tensors message)) (bool_decide (c = x01)))
  end.

Definition PythonRemoteCall_toMessage (obj : SerializedPyObj T) (retRRefId retForkId : IValue T)
    (isAsyncExecution : bool) : Message T :=
  message_fromIValues pickle (toIValues obj ++ [retRRefId; retForkId; IBool isAsyncExecution])
    PYTHON_REMOTE_CALL.

Definition PythonRemoteCall_fromMessage (message : Message T) : outcome Cmd :=
  let? values := unpickle_message message in
  check! (3 <=? length values)%nat
    else AssertFailed "Expect at least 3 elements in the unpickled values, but got " in
  let? v := back values in
  let? isAsyncExecution := toBool v in
  let values := removelast values in
  let? retForkId := back values in
  let values := removelast values in
  let? retRRefId := back values in
  let values := removelast values in
  let? serializedPyObj := fromIValues values in
  Ret (CPythonRemoteCall serializedPyObj retRRefId retForkId isAsyncExecution).

(** *** Responses *)

Definition ScriptResp_toMessage (value : IValue T) : Message T :=
  let '(payload, tensor_table) := pickle value in mkMessage T payload tensor_table SCRIPT_RET (-1).

Definition ScriptResp_fromMessage (message : Message T) : outcome Cmd :=
  let? value := unpickle (payload message) (tensors message) in Ret (CScriptResp value).

Definition PythonResp_toMessage (obj : SerializedPyObj T) : Message T :=
  mkMessage T (payload_ obj) (tensors_ obj) PYTHON_RET (-1).

Definition PythonResp_fromMessage (message : Message T) : outcome Cmd :=
  Ret (CPythonResp (mkPyObj (payload message) (tensors message))).

(** *** Autograd messages *)

Definition CleanupAutogradContextReq_toMessage (context_id : Z) : Message T :=
  let '(payload, tensorTable) := pickle (IInt context_id) in
  mkMessage T payload tensorTable CLEANUP_AUTOGRAD_CONTEXT_REQ (-1).

Definition CleanupAutogradContextReq_fromMessage (message : Message T) : outcome Cmd :=
  let? v := unpickle (payload message) (tensors message) in
  let? context_id := toInt v in
  Ret (CCleanupAutogradContextReq context_id).

Definition CleanupAutogradContextResp_toMessage : Message T :=
  mkMessage T [] [] CLEANUP_AUTOGRAD_CONTEXT_RESP (-1).

Definition PropagateGradientsReq_toMessage (metadata : AutogradMetadata) (grads : list T)
    (retainGraph : bool) : Message T :=
  message_fromIValues pickle
    (map ITensor grads ++ [IInt (autogradContextId metadata); IInt (autogradMessageId metadata);
                           IBool retainGraph]) BACKWARD_AUTOGRAD_REQ.

Definition PropagateGradientsReq_fromMessage (message : Message T) : outcome Cmd :=
  let? tupleElements := unpickle_message message in
  check! (3 <=? length tupleElements)%nat else AssertFailed "tupleElements.size() >= 3" in
  let? v := back tupleElements in
  let? retainGraph := toBool v in
  let tupleElements := removelast tupleElements in
  let? v := back tupleElements in
  let? autogradMessageId := toInt v in
  let tupleElements := removelast tupleElements in
  let? v := back tupleElements in
  let? autogradContextId := toInt v in
  let tupleElements := removelast tupleElements in
  let? grads := to_tensors tupleElements in
  Ret (CPropagateGradientsReq (mkMetadata autogradContextId autogradMessageId) grads retainGraph).

Definition PropagateGradientsResp_toMessage : Message T :=
  mkMessage T [] [] BACKWARD_AUTOGRAD_RESP (-1).

Definition RRefBackwardReq_toMessage (rrefId : RRefId) (autogradContextId : Z) (retainGraph : bool) :
    Message T :=
  message_fromIValues pickle [toIValue rrefId; IInt autogradContextId; IBool retainGraph]
    RREF_BACKWARD_REQ.

Definition RRefBackwardReq_fromMessage (message : Message T) : outcome Cmd :=
  let? tupleElements := unpickle_message message in
  match tupleElements with
  | [v0; v1; v2] =>
      let? retainGraph := toBool v2 in
      let? autogradContextId := toInt v1 in
      let? rrefId := fromIValue v0 in
      Ret (CRRefBackwardReq rrefId autogradContextId retainGraph)
  | _ => Throw (AssertFailed "tupleElements.size() == 3")
  end.

Definition RRefBackwardResp_toMessage : Message T := mkMessage T [] [] RREF_BACKWARD_RESP (-1).

(** *** RpcWithAutograd *)

(** Filling a map with [insert], which keeps an entry that is there, keys and
    values narrowed to DeviceIndex. *)
Definition insert_device (m : DeviceMap) (e : Z * Z) : DeviceMap :=
  match m !! int8 e.1 with Some _ => m | None => <[int8 e.1 := int8 e.2]> m end.

(** The sending constructor followed by toMessageImpl. *)
Definition RpcWithAutograd_toMessage (fromWorkerId : Z) (messageType : MessageType)
    (metadata : AutogradMetadata) (wrappedMessage : Message T) (deviceMap : DeviceMap) :
    outcome (Message T) :=
  check! bool_decide (messageType = FORWARD_AUTOGRAD_REQ) || bool_decide (messageType = FORWARD_AUTOGRAD_RESP)
    else AssertFailed "messageType_ == MessageType::FORWARD_AUTOGRAD_REQ" in
  check! bool_decide (payload wrappedMessage <> []) else AssertFailed "!payload.empty()" in
  let '(additionalPayload, tensorTable) :=
    pickle (ITuple [IInt (MessageType_value (type_ wrappedMessage));
                    IInt (autogradContextId metadata); IInt (autogradMessageId metadata);
                    IInt fromWorkerId; IDict (map_to_list deviceMap)]) in
  check! bool_decide (length tensorTable = 0%nat) else AssertFailed "tensorTable.empty()" in
  Ret (mkMessage T (writeWrappedPayload encodeInt64 (payload wrappedMessage) additionalPayload)
         (tensors wrappedMessage) messageType (id_ wrappedMessage)).

(** RpcWithAutograd::fromMessage up to the construction of the wrapped message:
    the sender, the metadata, the device map and the wrapped message. *)
Definition RpcWithAutograd_open (message : Message T) :
    outcome (Z * AutogradMetadata * DeviceMap * Message T) :=
  check! bool_decide (type_ message = FORWARD_AUTOGRAD_REQ) || bool_decide (type_ message = FORWARD_AUTOGRAD_RESP)
    else AssertFailed "MessageType::FORWARD_AUTOGRAD_REQ == originalMessageType" in
  let? p := readWrappedPayload decodeInt64 unpickle_additional (payload message) (payload message) in
  match p.1 with
  | [v0; v1; v2; v3; v4] =>
      let? wrappedMessageType := toInt v0 in
      let? contextId := toInt v1 in
      let? messageId := toInt v2 in
      let? workerId := toInt v3 in
      let? c10DeviceMap := toDict v4 in
      Ret (int16 workerId, mkMetadata contextId messageId, foldl insert_device ∅ c10DeviceMap,
           mkMessage T p.2 (tensors message) (MessageType_of_value wrappedMessageType) (id_ message))
  | _ => Throw (AssertFailed "tupleElements.size() == 5")
  end.

(** *** RpcWithProfilingReq and RpcWithProfilingResp *)

Definition RpcWithProfilingReq_toMessage (messageType : MessageType) (wrappedMessage : Message T)
    (profilerConfig : Cfg) (profilingKeyId : GloballyUniqueId) : outcome (Message T) :=
  check! bool_decide (messageType = RUN_WITH_PROFILING_REQ)
    else AssertFailed "Incorrect message type, expected message type " in
  check! bool_decide (payload wrappedMessage <> [])
    else AssertFailed "Wrapped payload should not be empty." in
  let '(profilingPayload, _) :=
    pickle (ITuple [IInt (MessageType_value (type_ wrappedMessage)); cfg_toIValue profilerConfig;
                    toIValue profilingKeyId]) in
  Ret (mkMessage T (writeWrappedPayload encodeInt64 (payload wrappedMessage) profilingPayload)
         (tensors wrappedMessage) messageType (id_ wrappedMessage)).

Definition RpcWithProfilingReq_open (message : Message T) :
    outcome (Cfg * GloballyUniqueId * Message T) :=
  let? p := readWrappedPayload decodeInt64 unpickle_additional (payload message) (payload message) in
  match p.1 with
  | [v0; v1; v2] =>
      let? wrappedMsgType := toInt v0 in
      let? cfg := cfg_fromIValue v1 in
      let? profilerId := fromIValue v2 in
      let wrappedMessage :=
        mkMessage T p.2 (tensors message) (MessageType_of_value wrappedMsgType) (id_ message) in
      check! isRequest wrappedMessage
        else AssertFailed "Messages wrapped with profiling requests must be requests." in
      Ret (cfg, profilerId, wrappedMessage)
  | _ => Throw (AssertFailed "Expected payload of size ")
  end.

Definition RpcWithProfilingResp_toMessage (messageType : MessageType) (wrappedMessage : Message T)
    (profiledEvents : list Ev) (profilingId : GloballyUniqueId) : outcome (Message T) :=
  check! bool_decide (messageType = RUN_WITH_PROFILING_RESP) else AssertFailed "Incorrect Message type" in
  check! bool_decide (payload wrappedMessage <> [])
    else AssertFailed "Wrapped payload cannot be empty" in
  let '(profilingPayload, _) :=
    pickle (ITuple ([IInt (MessageType_value (type_ wrappedMessage)); toIValue profilingId;
                     IInt (int32 (Z.of_nat (length profiledEvents)))] ++ map ev_toIValue profiledEvents)) in
  Ret (mkMessage T (writeWrappedPayload encodeInt64 (payload wrappedMessage) profilingPayload)
         (tensors wrappedMessage) messageType (id_ wrappedMessage)).

(** The loop over the [n] event positions that follow the three header fields:
    each must exist. *)
Fixpoint read_events (n : nat) (elements : list (IValue T)) : outcome (list Ev) :=
  match n with
  | O => Ret []
  | S n =>
      match elements with
      | [] => Throw (CheckFailed "i < tupleElements.size()")
      | v :: elements =>
          let? e := ev_fromIValue v in
          let? es := read_events n elements in
          Ret (e :: es)
      end
  end.

Definition RpcWithProfilingResp_open (message : Message T) :
    outcome (list Ev * GloballyUniqueId * Message T) :=
  let? p := readWrappedPayload decodeInt64 unpickle_additional (payload message) (payload message) in
  match p.1 with
  | v0 :: v1 :: v2 :: events =>
      let? wrappedMsgType := toInt v0 in
      let? profilingId := fromIValue v1 in
      let? n := toInt v2 in
      let profiledEventsSize := int32 n in
      check! (0 <=? profiledEventsSize) else LengthError "vector::reserve" in
      let? remoteEvents := read_events (Z.to_nat profiledEventsSize) events in
      let wrappedMessage :=
        mkMessage T p.2 (tensors message) (MessageType_of_value wrappedMsgType) (id_ message) in
      check! isResponse wrappedMessage
        else AssertFailed "Messages wrapped with profiling response must be responses." in
      Ret (remoteEvents, profilingId, wrappedMessage)
  | _ => Throw (AssertFailed "Expected payload size of at least ")
  end.

(** *** deserializeRequest *)

(** RpcWithAutograd and RpcWithProfilingReq deserialize the request they wrap;
    [fuel] bounds the nesting. *)
Fixpoint deserializeRequest (fuel : nat) (request : Message T) : outcome Cmd :=
  match fuel with
  | O => Block
  | S fuel =>
      match type_ request with
      | SCRIPT_CALL => ScriptCall_fromMessage request
      | PYTHON_CALL => PythonCall_fromMessage request
      | SCRIPT_REMOTE_CALL => ScriptRemoteCall_fromMessage request
      | PYTHON_REMOTE_CALL => PythonRemoteCall_fromMessage request
      | SCRIPT_RREF_FETCH_CALL =>
          let? c := ScriptRRefFetchCall_fromMessage unpickle request in Ret (CRRef c)
      | PYTHON_RREF_FETCH_CALL =>
          let? c := PythonRRefFetchCall_fromMessage unpickle request in Ret (CRRef c)
      | RREF_USER_DELETE => let? c := RRefUserDelete_fromMessage unpickle request in Ret (CRRef c)
      | RREF_CHILD_ACCEPT => let? c := RRefChildAccept_fromMessage unpickle request in Ret (CRRef c)
      | RREF_FORK_REQUEST => let? c := RRefForkRequest_fromMessage unpickle request in Ret (CRRef c)
      | FORWARD_AUTOGRAD_REQ =>
          let? p := RpcWithAutograd_open request in
          let '(workerId, metadata, deviceMap, wrappedMessage) := p in
          let? wrappedRpc := deserializeRequest fuel wrappedMessage in
          Ret (CRpcWithAutograd workerId (type_ request) metadata wrappedRpc (type_ wrappedMessage)
                 (tensors wrappedMessage) deviceMap)
      | BACKWARD_AUTOGRAD_REQ => PropagateGradientsReq_fromMessage request
      | CLEANUP_AUTOGRAD_CONTEXT_REQ => CleanupAutogradContextReq_fromMessage request
      | RUN_WITH_PROFILING_REQ =>
          let? p := RpcWithProfilingReq_open request in
          let '(cfg, profilerId, wrappedMessage) := p in
          let? wrappedRpc := deserializeRequest fuel wrappedMessage in
          Ret (CRpcWithProfilingReq (type_ request) wrappedRpc (type_ wrappedMessage)
                 (tensors wrappedMessage) cfg profilerId)
      | RREF_BACKWARD_REQ => RRefBackwardReq_fromMessage request
      | _ => Throw (AssertFailed "Request type ")
      end
  end.

(** *** deserializeResponse *)

Section response.
Context {St : Type}.
(** What a response triggers on arrival: addRecvRpcBackward of autograd/utils.cpp
    and processRemoteProfiledEvents. *)
Variable addRecv : AutogradMetadata -> list T -> Z -> DeviceMap -> M St unit.
Variable processRemoteProfiledEvents : list Ev -> GloballyUniqueId -> M St unit.

(** Swaps keys and values, the first entry for a device winning. *)
Definition reverseDeviceMap (deviceMap : DeviceMap) : DeviceMap :=
  foldl (fun m e => match m !! e.2 with Some _ => m | None => <[e.2 := e.1]> m end) ∅
    (map_to_list deviceMap).

(** The command, [None] for the responses that are null pointers, and the type
    left in [wrappedMsgType].  The wrapper classes refuse to wrap a null. *)
Fixpoint deserializeResponse (fuel : nat) (response : Message T) (wrappedMsgType : MessageType) :
    M St (option Cmd * MessageType) :=
  match fuel with
  | O => fun s => (Block, s)
  | S fuel =>
      let leaf o := let! c := lift o in ret (Some c, wrappedMsgType) in
      let rref o := let! c := lift o in ret (Some (CRRef c), wrappedMsgType) in
      match type_ response with
      | SCRIPT_RET => leaf (ScriptResp_fromMessage response)
      | PYTHON_RET => leaf (PythonResp_fromMessage response)
      | REMOTE_RET => rref (RemoteRet_fromMessage unpickle response)
      | SCRIPT_RREF_FETCH_RET => rref (ScriptRRefFetchRet_fromMessage unpickle response)
      | PYTHON_RREF_FETCH_RET => rref (PythonRRefFetchRet_fromMessage unpickle response)
      | RREF_ACK => rref (RRefAck_fromMessage response)
      | FORWARD_AUTOGRAD_RESP =>
          let! p := lift (RpcWithAutograd_open response) in
          let '(workerId, metadata, deviceMap, wrappedMessage) := p in
          let! r := deserializeResponse fuel wrappedMessage (type_ wrappedMessage) in
          match r with
          | (None, _) => throw (AssertFailed "wrappedRpc cannot be null!")
          | (Some wrappedRpc, wrappedMessageType) =>
              do! addRecv metadata (tensors wrappedMessage) workerId (reverseDeviceMap deviceMap) in
              ret (Some wrappedRpc, wrappedMessageType)
          end
      | BACKWARD_AUTOGRAD_RESP | CLEANUP_AUTOGRAD_CONTEXT_RESP | RREF_BACKWARD_RESP =>
          ret (None, wrappedMsgType)
      | RUN_WITH_PROFILING_RESP =>
          let! p := lift (RpcWithProfilingResp_open response) in
          let '(remoteEvents, profilingId, wrappedMessage) := p in
          let! r := deserializeResponse fuel wrappedMessage (type_ wrappedMessage) in
          match r with
          | (None, _) => throw (AssertFailed "wrapped RPC cannot be null")
          | (Some wrappedRpc, wrappedMessageType) =>
              do! processRemoteProfiledEvents remoteEvents profilingId in
              ret (Some wrappedRpc, wrappedMessageType)
          end
      | _ => throw (AssertFailed "Response type ")
      end
  end.

(** deserializeRespToIValue: only a ScriptResp carries a value.  The null
    pointer of an empty response is dereferenced before its type is tested, but
    not read. *)
Definition deserializeRespToIValue (message : Message T) : M St (IValue T) :=
  let! r := deserializeResponse (S (length (payload message))) message (type_ message) in
  match r.2, r.1 with
  | SCRIPT_RET, Some (CScriptResp value) => ret value
  | _, _ => throw (AssertFailed "Response type ")
  end.
End response.
End encoding.

(** ** Round trips *)

#[local] Arguments fromIValue : simpl never.
#[local] Arguments toIValue : simpl never.

Fixpoint tensor_free {T} (v : IValue T) : bool :=
  match v with
  | ITensor _ => false
  | ITuple l => forallb tensor_free l
  | _ => true
  end.

Section roundtrip.
Context {T Op Cfg Ev : Type}.
Variable pickle : IValue T -> bytes * list T.
Variable unpickle : bytes -> list T -> outcome (IValue T).
Variable encodeInt64 : Z -> bytes.
Variable decodeInt64 : bytes -> Z.
Variable schema_string : Op -> bytes.
Variable schema_name : Op -> bytes.
Variable parseSchema_name : bytes -> outcome bytes.
Variable getAllOperatorsFor : bytes -> list Op.
Variable cfg_toIValue : Cfg -> IValue T.
Variable cfg_fromIValue : IValue T -> outcome Cfg.
Variable ev_toIValue : Ev -> IValue T.
Variable ev_fromIValue : IValue T -> outcome Ev.

Abbreviation Cmd := (RpcCommand T Op Cfg Ev).

(** What the sender puts on the wire for a command: a wrapper encodes the
    message of the command it wraps. *)
Fixpoint command_toMessage (c : Cmd) : outcome (Message T) :=
  match c with
  | CScriptCall c => ScriptCall_toMessage pickle schema_string schema_name c
  | CPythonCall obj isAsync => Ret (PythonCall_toMessage obj isAsync)
  | CScriptRemoteCall c r f => ScriptRemoteCall_toMessage pickle schema_string schema_name c r f
  | CPythonRemoteCall obj r f isAsync => Ret (PythonRemoteCall_toMessage pickle obj r f isAsync)
  | CRRef c => Ret (toMessage pickle c)
  | CRpcWithAutograd w ty md sub _ _ dm =>
      let? m := command_toMessage sub in RpcWithAutograd_toMessage pickle encodeInt64 w ty md m dm
  | CPropagateGradientsReq md grads retain => Ret (PropagateGradientsReq_toMessage pickle md grads retain)
  | CCleanupAutogradContextReq id => Ret (CleanupAutogradContextReq_toMessage pickle id)
  | CRpcWithProfilingReq ty sub _ _ cfg key =>
      let? m := command_toMessage sub in RpcWithProfilingReq_toMessage pickle encodeInt64 cfg_toIValue ty m cfg key
  | CRRefBackwardReq r ctx retain => Ret (RRefBackwardReq_toMessage pickle r ctx retain)
  | CScriptResp v => Ret (ScriptResp_toMessage pickle v)
  | CPythonResp obj => Ret (PythonResp_toMessage obj)
  | CRpcWithProfilingResp ty sub _ _ evs key =>
      let? m := command_toMessage sub in RpcWithProfilingResp_toMessage pickle encodeInt64 ev_toIValue ty m evs key
  end.

Definition op_ok (op : Op) : Prop :=
  bool_decide (str_find (str "::") (schema_name op) = str_rfind (str "::") (schema_name op)) &&
  bool_decide (str_rfind ATEN_PREFIX_ (schema_name op) = Some 0%nat) = true /\
  str_rfind BUILTIN_OP_NAMESPACE_
    (BUILTIN_OP_NAMESPACE_ ++ drop (length ATEN_PREFIX_) (schema_name op)) = Some 0%nat /\
  matchOperator schema_string parseSchema_name getAllOperatorsFor (schema_string op) = Ret op.

(** Exactly one of the operator and the function name is set; the operator is
    the one the receiver's registry finds for its schema, and the name of a
    TorchScript function does not look like that of a builtin operator. *)
Definition script_ok (c : ScriptCall T Op) : Prop :=
  match op_ c, qualifiedName_ c with
  | Some op, None => op_ok op /\ isAsyncExecution_ c = false
  | None, Some q => str_rfind BUILTIN_OP_NAMESPACE_ q <> Some 0%nat
  | _, _ => False
  end.

Definition wraps (sub : Cmd) (ty : MessageType) (ts : list T) : Prop :=
  exists m, command_toMessage sub = Ret m /\ ty = type_ m /\ ts = tensors m.

(** The requests a worker can send: fields in the range of their types, and the
    wrappers' copies of the type and the tensors those of the wrapped message. *)
Fixpoint request_ok (c : Cmd) : Prop :=
  match c with
  | CScriptCall c => script_ok c
  | CScriptRemoteCall c r f => script_ok c /\ id_ok r /\ id_ok f
  | CPythonCall _ _ | CPythonRemoteCall _ _ _ _ | CPropagateGradientsReq _ _ _
  | CCleanupAutogradContextReq _ => True
  | CRRef c => command_ok c /\ isRequest (toMessage pickle c) = true
  | CRpcWithAutograd w ty md sub wty ts dm =>
      in_int16 w /\ ty = FORWARD_AUTOGRAD_REQ /\
      map_Forall (fun k v => in_int8 k /\ in_int8 v) dm /\ request_ok sub /\ wraps sub wty ts
  | CRpcWithProfilingReq ty sub wty ts cfg key =>
      ty = RUN_WITH_PROFILING_REQ /\ id_ok key /\ request_ok sub /\ wraps sub wty ts
  | CRRefBackwardReq r ctx retain => id_ok r
  | CScriptResp _ | CPythonResp _ | CRpcWithProfilingResp _ _ _ _ _ _ => False
  end.

Hypothesis pickle_inverts : forall v, unpickle (pickle v).1 (pickle v).2 = Ret v.
Hypothesis pickle_nonempty : forall v, (pickle v).1 <> [].
Hypothesis pickle_tensor_free : forall v, tensor_free v = true -> (pickle v).2 = [].
Hypothesis codec : forall z, in_int64 z ->
  length (encodeInt64 z) = 8%nat /\ decodeInt64 (encodeInt64 z) = z.
Hypothesis cfg_inverts : forall c, cfg_fromIValue (cfg_toIValue c) = Ret c.
Hypothesis cfg_tensor_free : forall c, tensor_free (cfg_toIValue c) = true.
Hypothesis ev_inverts : forall e, ev_fromIValue (ev_toIValue e) = Ret e.
Hypothesis ev_tensor_free : forall e, tensor_free (ev_toIValue e) = true.

#[local] Set Default Proof Using "Type".

Lemma back_snoc {A} (l : list A) x : back (l ++ [x]) = Ret x.
Proof. unfold back. by rewrite last_snoc. Qed.

Lemma snoc2 {A} (l : list A) x y : l ++ [x; y] = (l ++ [x]) ++ [y].
Proof. by rewrite <- app_assoc. Qed.

Lemma snoc3 {A} (l : list A) x y z : l ++ [x; y; z] = (l ++ [x; y]) ++ [z].
Proof. by rewrite <- app_assoc. Qed.

Lemma unpickle_tuple vs ty id :
  unpickle_message unpickle (setId id (message_fromIValues pickle vs ty)) = Ret vs.
Proof using Type pickle_inverts.
  unfold unpickle_message, message_fromIValues. pose proof (pickle_inverts (ITuple vs)) as H.
  destruct (pickle (ITuple vs)). simpl in *. by rewrite H.
Qed.

Lemma type_message_fromIValues vs ty : type_ (message_fromIValues pickle vs ty) = ty.
Proof. unfold message_fromIValues. by destruct (pickle _). Qed.

Lemma payload_message_fromIValues vs ty : payload (message_fromIValues pickle vs ty) <> [].
Proof using Type pickle_nonempty.
  unfold message_fromIValues. pose proof (pickle_nonempty (ITuple vs)). by destruct (pickle _).
Qed.

Lemma unpickle_additional_ok v :
  tensor_free (ITuple v) = true ->
  unpickle_additional unpickle (pickle (ITuple v)).1 = Ret v.
Proof using Type pickle_inverts pickle_tensor_free.
  intros Hv. unfold unpickle_additional. pose proof (pickle_inverts (ITuple v)) as H.
  rewrite pickle_tensor_free in H by done. by rewrite H.
Qed.

Lemma wrapped_read payload values :
  tensor_free (ITuple values) = true -> payload <> [] ->
  let w := writeWrappedPayload encodeInt64 payload (pickle (ITuple values)).1 in
  Z.of_nat (length w) < 2 ^ 63 ->
  readWrappedPayload decodeInt64 (unpickle_additional unpickle) w w = Ret (values, payload).
Proof using Type pickle_inverts pickle_tensor_free codec.
  intros Hv Hne w Hlen. unfold w.
  rewrite (wrapped_payload_roundtrip encodeInt64 decodeInt64 _ _ _ values codec).
  - by rewrite bool_decide_false.
  - unfold w, writeWrappedPayload in Hlen. rewrite !length_app in Hlen.
    rewrite int64_id in Hlen by (unfold in_int64; lia).
    rewrite (proj1 (codec (Z.of_nat (length (pickle (ITuple values)).1)) ltac:(unfold in_int64; lia))) in Hlen.
    lia.
  - by apply unpickle_additional_ok.
Qed.

Lemma wrapped_longer payload additional :
  Z.of_nat (length (writeWrappedPayload encodeInt64 payload additional)) < 2 ^ 63 ->
  (length payload < length (writeWrappedPayload encodeInt64 payload additional))%nat.
Proof using Type codec.
  unfold writeWrappedPayload. rewrite !length_app. intros H.
  rewrite int64_id in * by (unfold in_int64; lia).
  rewrite (proj1 (codec (Z.of_nat (length additional)) ltac:(unfold in_int64; lia))). lia.
Qed.

Lemma insert_device_fold m l :
  Forall (fun e => in_int8 e.1 /\ in_int8 e.2) l -> foldl insert_device m l = m ∪ list_to_map l.
Proof.
  intros Hl. revert m. induction Hl as [|[k v] l [Hk Hv] _ IH]; intros m; simpl in *.
  - by rewrite (right_id_L ∅ (∪)).
  - rewrite IH, insert_union_singleton_l, (assoc_L (∪)). f_equal.
    unfold insert_device. simpl. rewrite !int8_id by done.
    apply map_eq. intros i. destruct (m !! k) as [v'|] eqn:Hm.
    + destruct (decide (i = k)) as [->|Hi].
      * symmetry. rewrite Hm. by apply lookup_union_Some_l.
      * rewrite lookup_union, lookup_singleton_ne by done. by destruct (m !! i).
    + destruct (decide (i = k)) as [->|Hi].
      * rewrite lookup_insert_eq, lookup_union, Hm, lookup_singleton_eq. done.
      * rewrite lookup_insert_ne, lookup_union, lookup_singleton_ne by done. by destruct (m !! i).
Qed.

Lemma device_map_roundtrip (dm : DeviceMap) :
  map_Forall (fun k v => in_int8 k /\ in_int8 v) dm ->
  foldl insert_device ∅ (map_to_list dm) = dm.
Proof.
  intros Hdm. rewrite insert_device_fold.
  - by rewrite (left_id_L ∅ (∪)), list_to_map_to_list.
  - apply Forall_forall. intros [k v] Hin. apply elem_of_map_to_list in Hin. by apply Hdm.
Qed.

(** *** Wrappers *)

Lemma autograd_open w ty md m dm m' id :
  RpcWithAutograd_toMessage pickle encodeInt64 w ty md m dm = Ret m' ->
  Z.of_nat (length (payload m')) < 2 ^ 63 -> in_int16 w ->
  map_Forall (fun k v => in_int8 k /\ in_int8 v) dm ->
  type_ m' = ty /\ (length (payload m) < length (payload m'))%nat /\
  RpcWithAutograd_open unpickle decodeInt64 (setId id m') = Ret (w, md, dm, setId id m).
Proof using Type pickle_inverts pickle_tensor_free codec.
  unfold RpcWithAutograd_toMessage, ocheck.
  destruct (bool_decide (ty = FORWARD_AUTOGRAD_REQ) || bool_decide (ty = FORWARD_AUTOGRAD_RESP)) eqn:Hty;
    simpl; [|done].
  destruct (decide (payload m = [])) as [He|Hne]; [by rewrite bool_decide_false by tauto|].
  rewrite bool_decide_true by done. simpl.
  pose proof (wrapped_read (payload m) [IInt (MessageType_value (type_ m));
    IInt (autogradContextId md); IInt (autogradMessageId md); IInt w; IDict (map_to_list dm)]
    eq_refl Hne) as Hr. simpl in Hr.
  destruct (pickle _) as [additional table]. simpl in Hr.
  destruct (decide (length table = 0%nat)); [rewrite bool_decide_true by done|by rewrite bool_decide_false].
  simpl. intros ? Hlen Hw Hdm. simplify_eq/=. split; [done|].
  split; [by apply wrapped_longer|].
  unfold RpcWithAutograd_open, ocheck. simpl. rewrite Hty. simpl. rewrite Hr by done. simpl.
  rewrite int16_id, device_map_roundtrip, MessageType_of_value_value by done. by destruct md.
Qed.

Lemma autograd_encode w ty md m dm :
  bool_decide (ty = FORWARD_AUTOGRAD_REQ) || bool_decide (ty = FORWARD_AUTOGRAD_RESP) = true ->
  payload m <> [] ->
  exists m', RpcWithAutograd_toMessage pickle encodeInt64 w ty md m dm = Ret m' /\
    type_ m' = ty /\ payload m' <> [].
Proof using Type pickle_tensor_free.
  intros Hty Hne. unfold RpcWithAutograd_toMessage, ocheck. rewrite Hty. cbn [obind].
  rewrite bool_decide_true by done. cbn [obind].
  pose proof (pickle_tensor_free (ITuple [IInt (MessageType_value (type_ m));
    IInt (autogradContextId md); IInt (autogradMessageId md); IInt w; IDict (map_to_list dm)]) eq_refl) as Ht.
  destruct (pickle _) as [a t]. simpl in Ht. subst. rewrite bool_decide_true by done. cbn [obind].
  eexists. split_and!; [done..|]. unfold writeWrappedPayload. simpl. by destruct (payload m).
Qed.

Lemma profiling_req_open ty m cfg key m' id :
  RpcWithProfilingReq_toMessage pickle encodeInt64 cfg_toIValue ty m cfg key = Ret m' ->
  Z.of_nat (length (payload m')) < 2 ^ 63 -> id_ok key -> isRequest m = true ->
  type_ m' = ty /\ (length (payload m) < length (payload m'))%nat /\
  RpcWithProfilingReq_open unpickle decodeInt64 cfg_fromIValue (setId id m') = Ret (cfg, key, setId id m).
Proof using Type pickle_inverts pickle_tensor_free codec cfg_inverts cfg_tensor_free.
  unfold RpcWithProfilingReq_toMessage, ocheck. case_bool_decide; simpl; [|done].
  case_bool_decide as Hne; simpl; [|done].
  pose proof (wrapped_read (payload m) [IInt (MessageType_value (type_ m)); cfg_toIValue cfg; toIValue key]) as Hr.
  simpl in Hr. rewrite cfg_tensor_free in Hr. specialize (Hr eq_refl Hne).
  destruct (pickle _) as [additional table]. simpl in Hr.
  intros ? Hlen Hk Hq. simplify_eq/=. split; [done|]. split; [by apply wrapped_longer|].
  unfold RpcWithProfilingReq_open. simpl. rewrite Hr by done. simpl.
  rewrite cfg_inverts. simpl. rewrite fromIValue_toIValue by done. simpl.
  rewrite MessageType_of_value_value. unfold isRequest, ocheck in *. simpl. by rewrite Hq.
Qed.

(** *** Leaves *)

Lemma script_values c :
  script_ok c ->
  exists vs, ScriptCall_toIValues schema_string schema_name c = Ret vs /\
    ScriptCall_fromIValues schema_string parseSchema_name getAllOperatorsFor vs = Ret (c, stack_ c).
Proof.
  unfold script_ok, ScriptCall_toIValues, ocheck. destruct c as [[op|] [q|] st a];
    cbn [op_ qualifiedName_ stack_ isAsyncExecution_]; try done.
  - intros [(Hn & Hr & Hm) ->]. rewrite bool_decide_true by done. cbn [obind].
    rewrite Hn. eexists. split; [reflexivity|].
    unfold ScriptCall_fromIValues. rewrite snoc2, back_snoc. simpl.
    rewrite bool_decide_true by done. rewrite removelast_last, back_snoc. simpl.
    rewrite Hm. simpl. by rewrite removelast_last.
  - intros Hq. eexists. split; [reflexivity|]. unfold ScriptCall_fromIValues.
    rewrite snoc2, back_snoc. simpl. rewrite bool_decide_false by done.
    rewrite removelast_last, back_snoc. simpl. by rewrite removelast_last.
Qed.

Lemma script_remote_values c r f :
  script_ok c -> id_ok r -> id_ok f ->
  exists vs, ScriptCall_toIValues schema_string schema_name c = Ret vs /\
    ScriptRemoteCall_fromIValues schema_string parseSchema_name getAllOperatorsFor
      (vs ++ [toIValue r; toIValue f]) = Ret (CScriptRemoteCall (Cfg := Cfg) (Ev := Ev) c r f).
Proof.
  intros Hc Hr Hf. destruct (script_values c Hc) as (vs & Hv & Hd). exists vs. split; [done|].
  unfold ScriptRemoteCall_fromIValues. rewrite snoc2, back_snoc. simpl.
  rewrite fromIValue_toIValue by done. simpl. rewrite removelast_last, back_snoc. simpl.
  rewrite fromIValue_toIValue by done. simpl. rewrite removelast_last, Hd. simpl.
  unfold script_ok in Hc. by destruct c as [[op|] [q|] st a]; simpl in *; try done;
    destruct Hc as [_ ->].
Qed.

Lemma pyobj_values (obj : SerializedPyObj T) : fromIValues (toIValues obj) = Ret obj.
Proof.
  unfold fromIValues, toIValues. rewrite last_snoc, removelast_last. simpl.
  rewrite to_tensors_map. by destruct obj.
Qed.

Lemma python_remote_decode obj r f a id :
  PythonRemoteCall_fromMessage unpickle (setId id (PythonRemoteCall_toMessage pickle obj r f a))
  = Ret (CPythonRemoteCall (Op := Op) (Cfg := Cfg) (Ev := Ev) obj r f a).
Proof using Type pickle_inverts.
  unfold PythonRemoteCall_fromMessage, PythonRemoteCall_toMessage. rewrite unpickle_tuple. cbn [obind].
  rewrite (proj2 (Nat.leb_le _ _)) by (rewrite length_app; simpl; lia). simpl.
  rewrite snoc3, back_snoc. simpl. rewrite removelast_last, snoc2, back_snoc. simpl.
  rewrite removelast_last, back_snoc. simpl. by rewrite removelast_last, pyobj_values.
Qed.

Lemma propagate_decode md grads retain id :
  PropagateGradientsReq_fromMessage unpickle
    (setId id (PropagateGradientsReq_toMessage pickle md grads retain))
  = Ret (CPropagateGradientsReq (Op := Op) (Cfg := Cfg) (Ev := Ev) md grads retain).
Proof using Type pickle_inverts.
  unfold PropagateGradientsReq_fromMessage, PropagateGradientsReq_toMessage. rewrite unpickle_tuple. cbn [obind].
  rewrite (proj2 (Nat.leb_le _ _)) by (rewrite length_app; simpl; lia). simpl.
  rewrite snoc3, back_snoc. simpl. rewrite removelast_last, snoc2, back_snoc. simpl.
  rewrite removelast_last, back_snoc. simpl. rewrite removelast_last, to_tensors_map. by destruct md.
Qed.

Lemma cleanup_decode ctx id :
  CleanupAutogradContextReq_fromMessage unpickle (setId id (CleanupAutogradContextReq_toMessage pickle ctx))
  = Ret (CCleanupAutogradContextReq (Op := Op) (Cfg := Cfg) (Ev := Ev) ctx).
Proof using Type pickle_inverts.
  unfold CleanupAutogradContextReq_fromMessage, CleanupAutogradContextReq_toMessage.
  pose proof (pickle_inverts (IInt ctx)) as H. destruct (pickle _). simpl in *. by rewrite H.
Qed.

Lemma python_call_decode (obj : SerializedPyObj T) a id :
  PythonCall_fromMessage (setId id (PythonCall_toMessage obj a))
  = Ret (CPythonCall (T := T) (Op := Op) (Cfg := Cfg) (Ev := Ev) obj a).
Proof. by destruct obj, a. Qed.

Lemma rref_backward_decode r ctx retain id :
  id_ok r ->
  RRefBackwardReq_fromMessage unpickle (setId id (RRefBackwardReq_toMessage pickle r ctx retain))
  = Ret (CRRefBackwardReq (Op := Op) (Cfg := Cfg) (Ev := Ev) r ctx retain).
Proof using Type pickle_inverts.
  intros Hr. unfold RRefBackwardReq_fromMessage, RRefBackwardReq_toMessage. rewrite unpickle_tuple. simpl.
  by rewrite fromIValue_toIValue.
Qed.

Abbreviation decode := (deserializeRequest unpickle decodeInt64 schema_string parseSchema_name
  getAllOperatorsFor cfg_fromIValue (T := T) (Ev := Ev)).

(** A request the encoder accepts is decoded from any non-empty fuel. *)
Definition decodes (c : Cmd) (m : Message T) : Prop :=
  isRequest m = true /\ payload m <> [] /\
  (Z.of_nat (length (payload m)) < 2 ^ 63 ->
   forall fuel id, (length (payload m) < fuel)%nat -> decode fuel (setId id m) = Ret c).

Lemma rref_type (c : RRefCommand T) : type_ (toMessage pickle c) = command_type c.
Proof.
  destruct c; try done; unfold toMessage, fork_toMessage; by rewrite ?type_message_fromIValues.
Qed.

Lemma rref_payload (c : RRefCommand T) : c <> RRefAck -> payload (toMessage pickle c) <> [].
Proof using Type pickle_nonempty.
  destruct c; try done; intros _; unfold toMessage, fork_toMessage; by apply payload_message_fromIValues.
Qed.

Lemma rref_decodes c : command_ok c -> isRequest (toMessage pickle c) = true ->
  decodes (CRRef c) (toMessage pickle c).
Proof using Type pickle_inverts pickle_nonempty.
  intros Hc Hq. split; [done|].
  assert (Hne : c <> RRefAck).
  { intros ->. unfold isRequest in Hq. by rewrite rref_type in Hq. }
  split; [by apply rref_payload|]. intros _ [|fuel] id Hf; [lia|].
  pose proof (rref_command_roundtrip pickle unpickle c id pickle_inverts Hc) as Hd.
  assert (Ht : type_ (setId id (toMessage pickle c)) = command_type c) by (simpl; apply rref_type).
  unfold deserialize_rref in Hd. unfold isRequest in Hq. rewrite rref_type in Hq.
  cbn [deserializeRequest]. rewrite Ht in Hd |- *.
  destruct c; simpl in Hd, Hq; try done; injection Hd as Hd; simpl; by rewrite Hd.
Qed.

(** *** Requests *)

Lemma leaf_decodes c vs ty :
  (forall id, decode 1 (setId id (message_fromIValues pickle vs ty)) = Ret c) ->
  negb (Z.land REQUEST_TYPE (MessageType_value ty) =? 0) = true ->
  ty <> FORWARD_AUTOGRAD_REQ -> ty <> RUN_WITH_PROFILING_REQ ->
  decodes c (message_fromIValues pickle vs ty).
Proof using Type pickle_nonempty.
  intros Hd Hq H1 H2. split; [|split; [by apply payload_message_fromIValues|]].
  - unfold isRequest. by rewrite type_message_fromIValues.
  - intros _ [|fuel] id Hf; [lia|]. rewrite <- (Hd id). cbn [deserializeRequest].
    change (type_ (setId id ?m)) with (type_ m). rewrite type_message_fromIValues. by destruct ty.
Qed.

Lemma script_decodes c : script_ok c ->
  exists m, command_toMessage (CScriptCall c) = Ret m /\ decodes (CScriptCall c) m.
Proof using Type pickle_inverts pickle_nonempty.
  intros Hc. destruct (script_values c Hc) as (vs & Hv & Hd). simpl. unfold ScriptCall_toMessage.
  rewrite Hv. eexists. split; [reflexivity|]. apply leaf_decodes; [|done..]. intros id.
  cbn [deserializeRequest]. change (type_ (setId id ?m)) with (type_ m).
  rewrite type_message_fromIValues. unfold ScriptCall_fromMessage. rewrite unpickle_tuple. simpl.
  by rewrite Hd.
Qed.

Lemma script_remote_decodes c r f : script_ok c -> id_ok r -> id_ok f ->
  exists m, command_toMessage (CScriptRemoteCall c r f) = Ret m /\ decodes (CScriptRemoteCall c r f) m.
Proof using Type pickle_inverts pickle_nonempty.
  intros Hc Hr Hf. destruct (script_remote_values c r f Hc Hr Hf) as (vs & Hv & Hd). simpl.
  unfold ScriptRemoteCall_toMessage. rewrite Hv. eexists. split; [reflexivity|].
  apply leaf_decodes; [|done..]. intros id.
  cbn [deserializeRequest]. change (type_ (setId id ?m)) with (type_ m).
  rewrite type_message_fromIValues. unfold ScriptRemoteCall_fromMessage. by rewrite unpickle_tuple.
Qed.

Lemma cleanup_decodes ctx :
  decodes (CCleanupAutogradContextReq ctx) (CleanupAutogradContextReq_toMessage pickle ctx).
Proof using Type pickle_inverts pickle_nonempty.
  assert (Ht : type_ (CleanupAutogradContextReq_toMessage pickle ctx) = CLEANUP_AUTOGRAD_CONTEXT_REQ)
    by (unfold CleanupAutogradContextReq_toMessage; by destruct (pickle _)).
  split; [|split].
  - unfold isRequest. by rewrite Ht.
  - unfold CleanupAutogradContextReq_toMessage. pose proof (pickle_nonempty (IInt ctx)). by destruct (pickle _).
  - intros _ [|fuel] id Hf; [lia|]. cbn [deserializeRequest]. change (type_ (setId id ?m)) with (type_ m).
    rewrite Ht. apply cleanup_decode.
Qed.

Lemma autograd_decodes w ty md sub wty ts dm m :
  request_ok (CRpcWithAutograd w ty md sub wty ts dm) -> command_toMessage sub = Ret m -> decodes sub m ->
  exists m', command_toMessage (CRpcWithAutograd w ty md sub wty ts dm) = Ret m' /\
    decodes (CRpcWithAutograd w ty md sub wty ts dm) m'.
Proof using Type pickle_inverts pickle_tensor_free codec.
  intros (Hw & -> & Hdm & _ & m0 & He0 & -> & ->) He (Hq & Hne & Hd).
  rewrite He in He0. injection He0 as <-. simpl. rewrite He. simpl.
  destruct (autograd_encode w FORWARD_AUTOGRAD_REQ md m dm) as (m' & Hm' & Ht & Hne'); [done..|].
  exists m'. split; [done|]. split; [unfold isRequest; by rewrite Ht|]. split; [done|].
  intros Hlen [|fuel] id Hf; [lia|]. cbn [deserializeRequest]. change (type_ (setId id m')) with (type_ m').
  destruct (autograd_open w _ md m dm m' id Hm' Hlen Hw Hdm) as (_ & Hl & ->). rewrite Ht. cbn [obind].
  rewrite Hd by lia. done.
Qed.

Lemma profiling_decodes ty sub wty ts cfg key m :
  request_ok (CRpcWithProfilingReq ty sub wty ts cfg key) -> command_toMessage sub = Ret m -> decodes sub m ->
  exists m', command_toMessage (CRpcWithProfilingReq ty sub wty ts cfg key) = Ret m' /\
    decodes (CRpcWithProfilingReq ty sub wty ts cfg key) m'.
Proof using Type pickle_inverts pickle_tensor_free codec cfg_inverts cfg_tensor_free.
  intros (-> & Hk & _ & m0 & He0 & -> & ->) He (Hq & Hne & Hd).
  rewrite He in He0. injection He0 as <-. simpl. rewrite He. simpl.
  assert (exists m', RpcWithProfilingReq_toMessage pickle encodeInt64 cfg_toIValue
    RUN_WITH_PROFILING_REQ m cfg key = Ret m' /\ type_ m' = RUN_WITH_PROFILING_REQ /\ payload m' <> [])
    as (m' & Hm' & Ht & Hne').
  { unfold RpcWithProfilingReq_toMessage. simpl. rewrite bool_decide_true by done. simpl.
    destruct (pickle _). eexists. split_and!; [done..|]. unfold writeWrappedPayload. simpl.
    by destruct (payload m). }
  exists m'. split; [done|]. split; [unfold isRequest; by rewrite Ht|]. split; [done|].
  intros Hlen [|fuel] id Hf; [lia|]. cbn [deserializeRequest]. change (type_ (setId id m')) with (type_ m').
  destruct (profiling_req_open _ m cfg key m' id Hm' Hlen Hk Hq) as (_ & Hl & ->). rewrite Ht. cbn [obind].
  rewrite Hd by lia. done.
Qed.

Lemma encode_decodes c : request_ok c -> exists m, command_toMessage c = Ret m /\ decodes c m.
Proof using Type pickle_inverts pickle_nonempty pickle_tensor_free codec cfg_inverts cfg_tensor_free.
  induction c; intros Hok; try (by destruct Hok).
  - by apply script_decodes.
  - eexists. split; [reflexivity|]. split; [done|]. split; [done|].
    intros _ [|fuel] id Hf; [lia|]. apply python_call_decode.
  - destruct Hok as (? & ? & ?). by apply script_remote_decodes.
  - eexists. split; [reflexivity|]. apply leaf_decodes; [|done..]. intros i.
    cbn [deserializeRequest]. change (type_ (setId i ?m)) with (type_ m).
    rewrite type_message_fromIValues. apply python_remote_decode.
  - eexists. split; [reflexivity|]. destruct Hok. by apply rref_decodes.
  - pose proof Hok as (_ & _ & _ & Hsub & _). destruct (IHc Hsub) as (m & He & Hd).
    by apply (autograd_decodes _ _ _ _ _ _ _ m).
  - eexists. split; [reflexivity|]. apply leaf_decodes; [|done..]. intros i.
    cbn [deserializeRequest]. change (type_ (setId i ?m)) with (type_ m).
    rewrite type_message_fromIValues. apply propagate_decode.
  - eexists. split; [reflexivity|]. apply cleanup_decodes.
  - pose proof Hok as (_ & _ & Hsub & _). destruct (IHc Hsub) as (m & He & Hd).
    by apply (profiling_decodes _ _ _ _ _ _ m).
  - eexists. split; [reflexivity|]. apply leaf_decodes; [|done..]. intros i.
    cbn [deserializeRequest]. change (type_ (setId i ?m)) with (type_ m).
    rewrite type_message_fromIValues. by apply rref_backward_decode.
Qed.

(** C27: every request a worker can send, a plain call, an RRef command or a
    distributed-autograd command, wrapped in any nesting of autograd and
    profiling wrappers, is encoded without an error, and deserializeRequest on
    the receiver gives the same command back, whatever message id the agent
    stamps on it; the length of the payload bounds the nesting. *)
Theorem rpc_request_roundtrip (c : Cmd) (id : Z) :
  request_ok c ->
  exists m, command_toMessage c = Ret m /\
    (Z.of_nat (length (payload m)) < 2 ^ 63 ->
     decode (S (length (payload m))) (setId id m) = Ret c).
Proof using Type pickle_inverts pickle_nonempty pickle_tensor_free codec cfg_inverts cfg_tensor_free.
  intros Hok. destruct (encode_decodes c Hok) as (m & He & _ & _ & Hd).
  exists m. split; [done|]. intros Hlen. apply Hd; [done|lia].
Qed.

(** *** Responses *)

Definition wraps_nonempty (sub : Cmd) (ty : MessageType) (ts : list T) : Prop :=
  exists m, command_toMessage sub = Ret m /\ payload m <> [] /\ ty = type_ m /\ ts = tensors m.

Fixpoint response_ok (c : Cmd) : Prop :=
  match c with
  | CScriptResp _ | CPythonResp _ => True
  | CRRef c => command_ok c /\ isResponse (toMessage pickle c) = true
  | CRpcWithAutograd w ty md sub wty ts dm =>
      in_int16 w /\ ty = FORWARD_AUTOGRAD_RESP /\
      map_Forall (fun k v => in_int8 k /\ in_int8 v) dm /\ response_ok sub /\ wraps_nonempty sub wty ts
  | CRpcWithProfilingResp ty sub wty ts evs key =>
      ty = RUN_WITH_PROFILING_RESP /\ id_ok key /\ Z.of_nat (length evs) < 2 ^ 31 /\
      response_ok sub /\ wraps_nonempty sub wty ts
  | _ => False
  end.

Fixpoint innermost (c : Cmd) : Cmd :=
  match c with
  | CRpcWithAutograd _ _ _ sub _ _ _ => innermost sub
  | CRpcWithProfilingResp _ sub _ _ _ _ => innermost sub
  | _ => c
  end.

Definition response_type (c : Cmd) : MessageType :=
  match command_toMessage (innermost c) with Ret m => type_ m | _ => UNKNOWN end.

Section effects.
Context {St : Type}.
Variable addRecv : AutogradMetadata -> list T -> Z -> DeviceMap -> M St unit.
Variable processEvents : list Ev -> GloballyUniqueId -> M St unit.

(** What the wrappers of a response do to the receiver, the innermost first. *)
Fixpoint effects (c : Cmd) : M St unit :=
  match c with
  | CRpcWithAutograd w _ md sub _ ts dm =>
      do! effects sub in addRecv md ts w (reverseDeviceMap dm)
  | CRpcWithProfilingResp _ sub _ _ evs key => do! effects sub in processEvents evs key
  | _ => ret tt
  end.

Abbreviation decodeResp := (deserializeResponse unpickle decodeInt64 ev_fromIValue addRecv processEvents
  (T := T) (Op := Op) (Cfg := Cfg)).

Definition decodes_resp (c : Cmd) (m : Message T) : Prop :=
  isResponse m = true /\
  (Z.of_nat (length (payload m)) < 2 ^ 63 ->
   forall fuel id s, (length (payload m) < fuel)%nat ->
     decodeResp fuel (setId id m) (type_ m) s =
     (do! effects c in ret (Some (innermost c), response_type c)) s).

Lemma read_events_ok evs rest :
  read_events ev_fromIValue (length evs) (map ev_toIValue evs ++ rest) = Ret evs.
Proof using Type ev_inverts.
  induction evs as [|e evs IH]; [done|]. simpl. rewrite ev_inverts. simpl. by rewrite IH.
Qed.

Lemma events_tensor_free evs : forallb tensor_free (map ev_toIValue evs) = true.
Proof using Type ev_tensor_free.
  induction evs as [|e evs IH]; [done|]. simpl. by rewrite ev_tensor_free.
Qed.

Lemma profiling_resp_open ty m evs key m' id :
  RpcWithProfilingResp_toMessage pickle encodeInt64 ev_toIValue ty m evs key = Ret m' ->
  Z.of_nat (length (payload m')) < 2 ^ 63 -> id_ok key -> isResponse m = true ->
  Z.of_nat (length evs) < 2 ^ 31 ->
  (length (payload m) < length (payload m'))%nat /\
  RpcWithProfilingResp_open unpickle decodeInt64 ev_fromIValue (setId id m') = Ret (evs, key, setId id m).
Proof using Type pickle_inverts pickle_tensor_free codec ev_inverts ev_tensor_free.
  unfold RpcWithProfilingResp_toMessage, ocheck. case_bool_decide; simpl; [|done].
  case_bool_decide as Hne; simpl; [|done].
  pose proof (wrapped_read (payload m) (IInt (MessageType_value (type_ m)) :: toIValue key ::
    IInt (int32 (Z.of_nat (length evs))) :: map ev_toIValue evs)) as Hr.
  assert (Htf : tensor_free (ITuple (IInt (MessageType_value (type_ m)) :: toIValue key ::
    IInt (int32 (Z.of_nat (length evs))) :: map ev_toIValue evs)) = true).
  { apply events_tensor_free. }
  specialize (Hr Htf Hne). simpl in Hr. destruct (pickle _) as [additional table]. simpl in Hr.
  intros ? Hlen Hk Hq Hev. simplify_eq/=. split; [by apply wrapped_longer|].
  unfold RpcWithProfilingResp_open. simpl. rewrite Hr by done. simpl.
  rewrite fromIValue_toIValue by done. simpl.
  rewrite !int32_id by (rewrite ?int32_id; unfold in_int32; lia).
  unfold ocheck. rewrite (proj2 (Z.leb_le _ _)) by lia. simpl.
  rewrite Nat2Z.id, <- (app_nil_r (map _ _)), read_events_ok. simpl.
  rewrite MessageType_of_value_value. unfold isResponse in *. simpl. by rewrite Hq.
Qed.

Lemma rref_response_decodes c :
  command_ok c -> isResponse (toMessage pickle c) = true -> decodes_resp (CRRef c) (toMessage pickle c).
Proof using Type pickle_inverts.
  intros Hc Hq. split; [done|]. intros _ [|fuel] id s Hf; [lia|].
  pose proof (rref_command_roundtrip pickle unpickle c id pickle_inverts Hc) as Hd.
  assert (Ht : type_ (setId id (toMessage pickle c)) = command_type c) by (simpl; apply rref_type).
  unfold deserialize_rref in Hd. unfold isResponse in Hq. rewrite rref_type in Hq.
  assert (Hr : response_type (CRRef c) = command_type c) by apply rref_type.
  rewrite Hr, rref_type. cbn [deserializeResponse]. rewrite Ht in Hd |- *.
  destruct c; simpl in Hd, Hq; try done; injection Hd as Hd; unfold bind, lift; simpl; by rewrite ?Hd.
Qed.

Lemma autograd_resp_decodes w ty md sub wty ts dm m :
  response_ok (CRpcWithAutograd w ty md sub wty ts dm) -> command_toMessage sub = Ret m -> decodes_resp sub m ->
  exists m', command_toMessage (CRpcWithAutograd w ty md sub wty ts dm) = Ret m' /\
    decodes_resp (CRpcWithAutograd w ty md sub wty ts dm) m'.
Proof using Type pickle_inverts pickle_tensor_free codec.
  intros (Hw & -> & Hdm & _ & m0 & He0 & Hne & -> & ->) He [Hq Hd].
  rewrite He in He0. injection He0 as <-. cbn [command_toMessage]. rewrite He. cbn [obind].
  destruct (autograd_encode w FORWARD_AUTOGRAD_RESP md m dm) as (m' & Hm' & Ht & _); [done..|].
  exists m'. split; [done|]. split; [unfold isResponse; by rewrite Ht|].
  intros Hlen [|fuel] id s Hf; [lia|]. cbn [deserializeResponse].
  change (type_ (setId id m')) with (type_ m').
  destruct (autograd_open w _ md m dm m' id Hm' Hlen Hw Hdm) as (_ & Hl & ->). rewrite Ht.
  unfold bind at 1. unfold lift at 1. cbn -[bind effects innermost]. unfold bind at 1.
  change (type_ (setId id m)) with (type_ m). rewrite Hd by lia.
  change (response_type (CRpcWithAutograd w FORWARD_AUTOGRAD_RESP md sub (type_ m) (tensors m) dm))
    with (response_type sub).
  cbn [effects innermost]. unfold bind, ret. destruct (effects sub s) as [[[]|e|] s']; done.
Qed.

Lemma profiling_resp_decodes ty sub wty ts evs key m :
  response_ok (CRpcWithProfilingResp ty sub wty ts evs key) -> command_toMessage sub = Ret m -> decodes_resp sub m ->
  exists m', command_toMessage (CRpcWithProfilingResp ty sub wty ts evs key) = Ret m' /\
    decodes_resp (CRpcWithProfilingResp ty sub wty ts evs key) m'.
Proof using Type pickle_inverts pickle_tensor_free codec ev_inverts ev_tensor_free.
  intros (-> & Hk & Hev & _ & m0 & He0 & Hne & -> & ->) He [Hq Hd].
  rewrite He in He0. injection He0 as <-. cbn [command_toMessage]. rewrite He. cbn [obind].
  assert (exists m', RpcWithProfilingResp_toMessage pickle encodeInt64 ev_toIValue
    RUN_WITH_PROFILING_RESP m evs key = Ret m' /\ type_ m' = RUN_WITH_PROFILING_RESP)
    as (m' & Hm' & Ht).
  { unfold RpcWithProfilingResp_toMessage. simpl. rewrite bool_decide_true by done. simpl.
    destruct (pickle _). by eexists. }
  exists m'. split; [done|]. split; [unfold isResponse; by rewrite Ht|].
  intros Hlen [|fuel] id s Hf; [lia|]. cbn [deserializeResponse].
  change (type_ (setId id m')) with (type_ m').
  destruct (profiling_resp_open _ m evs key m' id Hm' Hlen Hk Hq Hev) as (Hl & ->). rewrite Ht.
  unfold bind at 1. unfold lift at 1. cbn -[bind effects innermost]. unfold bind at 1.
  change (type_ (setId id m)) with (type_ m). rewrite Hd by lia.
  change (response_type (CRpcWithProfilingResp RUN_WITH_PROFILING_RESP sub (type_ m) (tensors m) evs key))
    with (response_type sub).
  cbn [effects innermost]. unfold bind, ret. destruct (effects sub s) as [[[]|e|] s']; done.
Qed.

Lemma encode_decodes_resp c : response_ok c -> exists m, command_toMessage c = Ret m /\ decodes_resp c m.
Proof using Type pickle_inverts pickle_tensor_free codec ev_inverts ev_tensor_free.
  induction c; intros Hok; try (by destruct Hok).
  - eexists. split; [reflexivity|]. destruct Hok. by apply rref_response_decodes.
  - pose proof Hok as (_ & _ & _ & Hsub & _). destruct (IHc Hsub) as (m & He & Hd).
    by apply (autograd_resp_decodes _ _ _ _ _ _ _ m).
  - eexists. split; [reflexivity|].
    assert (Ht : type_ (ScriptResp_toMessage pickle value) = SCRIPT_RET)
      by (unfold ScriptResp_toMessage; by destruct (pickle _)).
    split; [unfold isResponse; by rewrite Ht|]. intros _ [|fuel] id s Hf; [lia|].
    cbn [deserializeResponse]. change (type_ (setId id ?m)) with (type_ m).
    unfold response_type. cbn [innermost command_toMessage]. rewrite Ht.
    unfold bind, lift, ScriptResp_fromMessage, ScriptResp_toMessage.
    pose proof (pickle_inverts value) as Hv. destruct (pickle value). simpl in *. by rewrite Hv.
  - eexists. split; [reflexivity|]. split; [done|]. intros _ [|fuel] id s Hf; [lia|]. by destruct obj.
  - pose proof Hok as (_ & _ & _ & Hsub & _). destruct (IHc Hsub) as (m & He & Hd).
    by apply (profiling_resp_decodes _ _ _ _ _ _ m).
Qed.

(** Every response, wrapped in any nesting of autograd and profiling
    wrappers, is decoded to the innermost response and its type; on the way the
    receiver runs addRecvRpcBackward for each autograd wrapper, with the
    sender's metadata and the reversed device map, and records the remote events
    of each profiling wrapper, the innermost wrapper first. *)
Theorem rpc_response_roundtrip (c : Cmd) (id : Z) (s : St) :
  response_ok c ->
  exists m, command_toMessage c = Ret m /\
    (Z.of_nat (length (payload m)) < 2 ^ 63 ->
     decodeResp (S (length (payload m))) (setId id m) (type_ m) s =
     (do! effects c in ret (Some (innermost c), response_type c)) s).
Proof using Type pickle_inverts pickle_tensor_free codec ev_inverts ev_tensor_free.
  intros Hok. destruct (encode_decodes_resp c Hok) as (m & He & _ & Hd).
  exists m. split; [done|]. intros Hlen. apply Hd; [done|lia].
Qed.
End effects.
End roundtrip.

(** ** A concrete pickler

    Values are numbered and written bit by bit; tensors are inlined. *)

Fixpoint ivalue_tree (v : IValue unit) : gen_tree (Z + bytes + bool + list (Z * Z) + unit) :=
  match v with
  | IInt z => GenLeaf (inl (inl (inl (inl z))))
  | IString s => GenLeaf (inl (inl (inl (inr s))))
  | IBool b => GenLeaf (inl (inl (inr b)))
  | IDict d => GenLeaf (inl (inr d))
  | INone => GenLeaf (inr tt)
  | ITensor _ => GenNode 1 []
  | ITuple l => GenNode 0 (map ivalue_tree l)
  end.

Fixpoint tree_ivalue (t : gen_tree (Z + bytes + bool + list (Z * Z) + unit)) : IValue unit :=
  match t with
  | GenLeaf (inl (inl (inl (inl z)))) => IInt z
  | GenLeaf (inl (inl (inl (inr s)))) => IString s
  | GenLeaf (inl (inl (inr b))) => IBool b
  | GenLeaf (inl (inr d)) => IDict d
  | GenLeaf (inr _) => INone
  | GenNode 1 _ => ITensor tt
  | GenNode _ l => ITuple (map tree_ivalue l)
  end.

Lemma tree_ivalue_tree : forall v, tree_ivalue (ivalue_tree v) = v.
Proof.
  fix IH 1. intros [z|s|[]|l|b|d|]; simpl; try reflexivity.
  f_equal. rewrite map_map. induction l as [|v l IHl]; [reflexivity|].
  simpl. rewrite IH. f_equal. exact IHl.
Qed.

#[local] Instance ivalue_eq_dec : EqDecision (IValue unit).
Proof.
  intros v w. destruct (decide (ivalue_tree v = ivalue_tree w)) as [H|H].
  - left. by rewrite <- (tree_ivalue_tree v), H, tree_ivalue_tree.
  - right. congruence.
Defined.
#[local] Instance ivalue_countable : Countable (IValue unit) :=
  inj_countable' ivalue_tree tree_ivalue tree_ivalue_tree.

Fixpoint bits_of (p : positive) : bytes :=
  match p with xH => [x02] | xO p => x00 :: bits_of p | xI p => x01 :: bits_of p end.
Fixpoint of_bits (l : bytes) : positive :=
  match l with
  | x00 :: l => xO (of_bits l)
  | x01 :: l => xI (of_bits l)
  | _ => xH
  end.

Lemma of_bits_of p : of_bits (bits_of p) = p.
Proof. induction p; simpl; congruence. Qed.

Definition ex_pickle (v : IValue unit) : bytes * list unit := (bits_of (encode v), []).
Definition ex_unpickle (b : bytes) (_ : list unit) : outcome (IValue unit) :=
  match decode (of_bits b) with Some v => Ret v | None => Throw (RuntimeError "unpickle") end.

Lemma ex_commands_inverts v : ex_unpickle (ex_pickle v).1 (ex_pickle v).2 = Ret v.
Proof. unfold ex_unpickle, ex_pickle. simpl. by rewrite of_bits_of, decode_encode. Qed.
Lemma ex_pickle_nonempty v : (ex_pickle v).1 <> [].
Proof. unfold ex_pickle. simpl. by destruct (encode v). Qed.
Lemma ex_pickle_tensor_free v : tensor_free v = true -> (ex_pickle v).2 = [].
Proof. done. Qed.

Definition ex_unit_toIValue (_ : unit) : IValue unit := INone.
Definition ex_unit_fromIValue (_ : IValue unit) : outcome unit := Ret tt.
Lemma ex_unit_inverts e : ex_unit_fromIValue (ex_unit_toIValue e) = Ret e.
Proof. by destruct e. Qed.
Lemma ex_unit_tensor_free e : tensor_free (ex_unit_toIValue e) = true.
Proof. done. Qed.

Definition ex_request : RpcCommand unit unit unit unit :=
  CRpcWithAutograd 2 FORWARD_AUTOGRAD_REQ (mkMetadata 7 9)
    (CPythonCall (mkPyObj (str "f(x)") [tt]) true) PYTHON_CALL [tt] {[ 0 := 1 ]}.

Lemma rpc_request_roundtrip_witness :
  exists m, command_toMessage ex_pickle be_encode (fun _ : unit => []) (fun _ => []) ex_unit_toIValue ex_unit_toIValue
      ex_request = Ret m /\
    (Z.of_nat (length (payload m)) < 2 ^ 63 ->
     deserializeRequest ex_unpickle be_decode (fun _ : unit => []) Ret (fun _ => []) ex_unit_fromIValue
       (S (length (payload m))) (setId 5 m) = Ret ex_request).
Proof.
  apply (rpc_request_roundtrip ex_pickle ex_unpickle be_encode be_decode (fun _ => []) (fun _ => []) Ret
    (fun _ => []) ex_unit_toIValue ex_unit_fromIValue ex_unit_toIValue
    ex_commands_inverts ex_pickle_nonempty ex_pickle_tensor_free be_codec ex_unit_inverts ex_unit_tensor_free
    ex_request 5).
  split; [unfold in_int16; lia|]. split; [reflexivity|]. split; [|split; [exact I|]].
  - intros k v H. apply lookup_singleton_Some in H as [<- <-]. unfold in_int8. lia.
  - eexists. split; [reflexivity|]. by split.
Defined.

Definition ex_response : RpcCommand unit unit unit unit :=
  CRpcWithAutograd 2 FORWARD_AUTOGRAD_RESP (mkMetadata 7 9)
    (CPythonResp (mkPyObj (str "42") [tt])) PYTHON_RET [tt] {[ 0 := 1 ]}.

(** The receiver of the witness records the context ids and the devices. *)
Definition ex_addRecv (md : AutogradMetadata) (ts : list unit) (from : Z) (dm : DeviceMap) :
    M (list (Z * Z * DeviceMap)) unit :=
  modify (fun l => l ++ [(autogradContextId md, from, dm)]).

Lemma rpc_response_roundtrip_witness :
  exists m, command_toMessage ex_pickle be_encode (fun _ : unit => []) (fun _ => []) ex_unit_toIValue ex_unit_toIValue
      ex_response = Ret m /\
    (Z.of_nat (length (payload m)) < 2 ^ 63 ->
     deserializeResponse (Cfg := unit) (Op := unit) ex_unpickle be_decode ex_unit_fromIValue ex_addRecv
       (fun _ _ => ret tt) (S (length (payload m))) (setId 5 m) (type_ m) [] =
     (do! effects ex_addRecv (fun _ _ => ret tt) ex_response in
      ret (Some (CPythonResp (mkPyObj (str "42") [tt])), PYTHON_RET)) []).
Proof.
  apply (rpc_response_roundtrip ex_pickle ex_unpickle be_encode be_decode (fun _ => []) (fun _ => [])
    ex_unit_toIValue ex_unit_toIValue ex_unit_fromIValue
    ex_commands_inverts ex_pickle_tensor_free be_codec ex_unit_inverts ex_unit_tensor_free
    ex_addRecv (fun _ _ => ret tt) ex_response 5 []).
  split; [unfold in_int16; lia|]. split; [reflexivity|]. split; [|split; [exact I|]].
  - intros k v H. apply lookup_singleton_Some in H as [<- <-]. unfold in_int8. lia.
  - eexists. split; [reflexivity|]. by split.
Defined.

(** RpcWithAutograd and RpcWithProfilingResp refuse responses that have no
    payload: the answer to a backward pass or to a context clean-up cannot be
    wrapped. *)
Lemma rpc_empty_response_not_wrapped :
  forall m : Message unit,
  m = PropagateGradientsResp_toMessage \/ m = CleanupAutogradContextResp_toMessage \/
  m = RRefBackwardResp_toMessage ->
  (forall w md dm, exists e, RpcWithAutograd_toMessage ex_pickle be_encode w FORWARD_AUTOGRAD_RESP md m dm
     = Throw (AssertFailed e)) /\
  (forall (evs : list unit) key, exists e, RpcWithProfilingResp_toMessage ex_pickle be_encode ex_unit_toIValue
     RUN_WITH_PROFILING_RESP m evs key = Throw (AssertFailed e)).
Proof. intros m [->|[->| ->]]; split; intros; by eexists. Qed.
