(* ===== verification/AutogradContext.v ===== *)
(** * Distributed autograd contexts

    Models csrc/c10d/distributed/autograd/context/container.cpp
    (DistAutogradContainer: the sharded table of contexts, ids and thread-local
    current context) and context.cpp (DistAutogradContext: send and recv
    functions, gradients, outstanding RPCs), autograd/utils.cpp (what sending and
    receiving an RPC does to the context), the two autograd functions of
    autograd/functions, and rpc/profiler/remote_profiler_manager.cpp.

    A [worker] is the state of one process.  Objects held through shared_ptr
    (contexts, autograd functions, graph tasks, futures) live in lists and are
    named by their index; they are never reused, so an index held after the
    object left its table stays valid, as a shared_ptr does.  Every function
    holds the locks it needs for its whole duration, so a call is one step. *)

From stdpp Require Import base option list gmap strings.
From Stdlib Require Import ZArith Lia Sorted.
From S2P Require Import Prelude Decimal RpcTypes Wire RpcCommands.
Import Decimal.

Definition kAutoIncrementBits : Z := 48.
Definition kAutoIncrementMask : Z := Z.shiftl 1 kAutoIncrementBits - 1.
Definition kMaxWorkerId : Z := 65535.
Definition kInvalidContextId : Z := -1.
Definition kNumDefaultShards : Z := 128.
Definition REMOTE_PROFILING_KEY_PREFIX : bytes := str "#remote_op: ".

(** ** Data *)

(** What a callback on a future does: tell the graph task of a context about an
    error, or count down a wait for outstanding RPCs. *)
Inductive fut_callback : Type :=
  | CbOutstanding (context : nat)
  | CbWait (wait : nat).

(** [None] while pending, [Some None] for a value, [Some (Some e)] for an error. *)
Abbreviation result := (option (option exn)).

Record JitFuture := mkFuture { fut_result : result; fut_callbacks : list fut_callback }.

(** The parts of torch::autograd::GraphTask that are used here. *)
Record GraphTask := mkGraphTask {
  keep_graph_ : bool; has_error_ : bool; future_completed_ : bool; future_result_ : result;
}.

(** The State of clearAndWaitForOutstandingRpcsAsync. *)
Record WaitState := mkWait { w_future : result; w_remaining : Z; w_alreadySentError : bool }.

Section worker.
Context {T G : Type}.

(** SendRpcBackward: the tensors its edges lead to, and its gradients. *)
Record SendRpcBackward := mkSend { sb_inputs : list T; sb_grads : list (option G) }.

Record RecvRpcBackward := mkRecv {
  rb_metadata : AutogradMetadata; rb_context : nat; rb_fromWorkerId : Z; rb_deviceMap : DeviceMap;
}.

Record DistAutogradContext := mkContext {
  contextId_ : Z;
  knownWorkerIds_ : gset Z;
  sendAutogradFunctions_ : gmap Z nat;
  recvAutogradFunctions_ : gmap Z nat;
  accumulatedGrads_ : gmap nat G;   (* by variable *)
  graphTask_ : option nat;
  outStandingRpcs_ : list nat;   (* futures *)
}.

Definition upd_contextId_ (f : Z -> Z) (s : DistAutogradContext) : DistAutogradContext :=
    mkContext (f (contextId_ s)) (knownWorkerIds_ s) (sendAutogradFunctions_ s)
    (recvAutogradFunctions_ s) (accumulatedGrads_ s) (graphTask_ s) (outStandingRpcs_ s).
Definition upd_knownWorkerIds_ (f : gset Z -> gset Z) (s : DistAutogradContext) :
    DistAutogradContext := mkContext (contextId_ s) (f (knownWorkerIds_ s))
    (sendAutogradFunctions_ s) (recvAutogradFunctions_ s) (accumulatedGrads_ s) (graphTask_ s)
    (outStandingRpcs_ s).
Definition upd_sendAutogradFunctions_ (f : gmap Z nat -> gmap Z nat) (s : DistAutogradContext) :
    DistAutogradContext := mkContext (contextId_ s) (knownWorkerIds_ s) (f (sendAutogradFunctions_
    s)) (recvAutogradFunctions_ s) (accumulatedGrads_ s) (graphTask_ s) (outStandingRpcs_ s).
Definition upd_recvAutogradFunctions_ (f : gmap Z nat -> gmap Z nat) (s : DistAutogradContext) :
    DistAutogradContext := mkContext (contextId_ s) (knownWorkerIds_ s) (sendAutogradFunctions_ s)
    (f (recvAutogradFunctions_ s)) (accumulatedGrads_ s) (graphTask_ s) (outStandingRpcs_ s).
Definition upd_accumulatedGrads_ (f : gmap nat G -> gmap nat G) (s : DistAutogradContext) :
    DistAutogradContext := mkContext (contextId_ s) (knownWorkerIds_ s) (sendAutogradFunctions_ s)
    (recvAutogradFunctions_ s) (f (accumulatedGrads_ s)) (graphTask_ s) (outStandingRpcs_ s).
Definition upd_graphTask_ (f : option nat -> option nat) (s : DistAutogradContext) :
    DistAutogradContext := mkContext (contextId_ s) (knownWorkerIds_ s) (sendAutogradFunctions_ s)
    (recvAutogradFunctions_ s) (accumulatedGrads_ s) (f (graphTask_ s)) (outStandingRpcs_ s).
Definition upd_outStandingRpcs_ (f : list nat -> list nat) (s : DistAutogradContext) :
    DistAutogradContext := mkContext (contextId_ s) (knownWorkerIds_ s) (sendAutogradFunctions_ s)
    (recvAutogradFunctions_ s) (accumulatedGrads_ s) (graphTask_ s) (f (outStandingRpcs_ s)).

Definition newDistAutogradContext (contextId : Z) : DistAutogradContext :=
  mkContext contextId ∅ ∅ ∅ ∅ None [].

(** A message handed to the agent. *)
Inductive sent_message : Type :=
  | SentCleanup (dst : Z) (context_id : Z)
  | SentMessage (dst : Z) (message : Message T) (future : nat).

Record worker := mkWorker {
  next_context_id_ : Z;   (* std::atomic<int64_t> *)
  worker_id_ : Z;   (* int16_t *)
  initialized_ : bool;
  autograd_contexts_ : list (gmap Z nat);   (* the shards *)
  num_shards_ : Z;   (* uint32_t *)
  next_autograd_message_id_ : Z;
  max_id_ : Z;
  current_context_id_ : gmap nat Z;   (* per thread *)
  tl_context_ptr : gmap nat nat;   (* per thread; absent is null *)
  contexts : list DistAutogradContext;
  send_fns : list SendRpcBackward;
  recv_fns : list RecvRpcBackward;
  history : list (T * nat);   (* set_history: tensor and recv function *)
  futures : list JitFuture;
  graph_tasks : list GraphTask;
  waits : list WaitState;
  profiledRpcKeys_ : gmap GloballyUniqueId bytes;
  currentThreadLocalKey_ : gmap nat bytes;   (* per thread *)
  currentLocalId_ : Z;
  sent : list sent_message;
}.

Definition upd_next_context_id_ (f : Z -> Z) (s : worker) : worker := mkWorker (f
    (next_context_id_ s)) (worker_id_ s) (initialized_ s) (autograd_contexts_ s) (num_shards_ s)
    (next_autograd_message_id_ s) (max_id_ s) (current_context_id_ s) (tl_context_ptr s) (contexts
    s) (send_fns s) (recv_fns s) (history s) (futures s) (graph_tasks s) (waits s)
    (profiledRpcKeys_ s) (currentThreadLocalKey_ s) (currentLocalId_ s) (sent s).
Definition upd_worker_id_ (f : Z -> Z) (s : worker) : worker := mkWorker (next_context_id_ s) (f
    (worker_id_ s)) (initialized_ s) (autograd_contexts_ s) (num_shards_ s)
    (next_autograd_message_id_ s) (max_id_ s) (current_context_id_ s) (tl_context_ptr s) (contexts
    s) (send_fns s) (recv_fns s) (history s) (futures s) (graph_tasks s) (waits s)
    (profiledRpcKeys_ s) (currentThreadLocalKey_ s) (currentLocalId_ s) (sent s).
Definition upd_initialized_ (f : bool -> bool) (s : worker) : worker := mkWorker (next_context_id_
    s) (worker_id_ s) (f (initialized_ s)) (autograd_contexts_ s) (num_shards_ s)
    (next_autograd_message_id_ s) (max_id_ s) (current_context_id_ s) (tl_context_ptr s) (contexts
    s) (send_fns s) (recv_fns s) (history s) (futures s) (graph_tasks s) (waits s)
    (profiledRpcKeys_ s) (currentThreadLocalKey_ s) (currentLocalId_ s) (sent s).
Definition upd_autograd_contexts_ (f : list (gmap Z nat) -> list (gmap Z nat)) (s : worker) :
    worker := mkWorker (next_context_id_ s) (worker_id_ s) (initialized_ s) (f (autograd_contexts_
    s)) (num_shards_ s) (next_autograd_message_id_ s) (max_id_ s) (current_context_id_ s)
    (tl_context_ptr s) (contexts s) (send_fns s) (recv_fns s) (history s) (futures s) (graph_tasks
    s) (waits s) (profiledRpcKeys_ s) (currentThreadLocalKey_ s) (currentLocalId_ s) (sent s).
Definition upd_num_shards_ (f : Z -> Z) (s : worker) : worker := mkWorker (next_context_id_ s)
    (worker_id_ s) (initialized_ s) (autograd_contexts_ s) (f (num_shards_ s))
    (next_autograd_message_id_ s) (max_id_ s) (current_context_id_ s) (tl_context_ptr s) (contexts
    s) (send_fns s) (recv_fns s) (history s) (futures s) (graph_tasks s) (waits s)
    (profiledRpcKeys_ s) (currentThreadLocalKey_ s) (currentLocalId_ s) (sent s).
Definition upd_next_autograd_message_id_ (f : Z -> Z) (s : worker) : worker := mkWorker
    (next_context_id_ s) (worker_id_ s) (initialized_ s) (autograd_contexts_ s) (num_shards_ s) (f
    (next_autograd_message_id_ s)) (max_id_ s) (current_context_id_ s) (tl_context_ptr s)
    (contexts s) (send_fns s) (recv_fns s) (history s) (futures s) (graph_tasks s) (waits s)
    (profiledRpcKeys_ s) (currentThreadLocalKey_ s) (currentLocalId_ s) (sent s).
Definition upd_max_id_ (f : Z -> Z) (s : worker) : worker := mkWorker (next_context_id_ s)
    (worker_id_ s) (initialized_ s) (autograd_contexts_ s) (num_shards_ s)
    (next_autograd_message_id_ s) (f (max_id_ s)) (current_context_id_ s) (tl_context_ptr s)
    (contexts s) (send_fns s) (recv_fns s) (history s) (futures s) (graph_tasks s) (waits s)
    (profiledRpcKeys_ s) (currentThreadLocalKey_ s) (currentLocalId_ s) (sent s).
Definition upd_current_context_id_ (f : gmap nat Z -> gmap nat Z) (s : worker) : worker :=
    mkWorker (next_context_id_ s) (worker_id_ s) (initialized_ s) (autograd_contexts_ s)
    (num_shards_ s) (next_autograd_message_id_ s) (max_id_ s) (f (current_context_id_ s))
    (tl_context_ptr s) (contexts s) (send_fns s) (recv_fns s) (history s) (futures s) (graph_tasks
    s) (waits s) (profiledRpcKeys_ s) (currentThreadLocalKey_ s) (currentLocalId_ s) (sent s).
Definition upd_tl_context_ptr (f : gmap nat nat -> gmap nat nat) (s : worker) : worker := mkWorker
    (next_context_id_ s) (worker_id_ s) (initialized_ s) (autograd_contexts_ s) (num_shards_ s)
    (next_autograd_message_id_ s) (max_id_ s) (current_context_id_ s) (f (tl_context_ptr s))
    (contexts s) (send_fns s) (recv_fns s) (history s) (futures s) (graph_tasks s) (waits s)
    (profiledRpcKeys_ s) (currentThreadLocalKey_ s) (currentLocalId_ s) (sent s).
Definition upd_contexts (f : list DistAutogradContext -> list DistAutogradContext) (s : worker) :
    worker := mkWorker (next_context_id_ s) (worker_id_ s) (initialized_ s) (autograd_contexts_ s)
    (num_shards_ s) (next_autograd_message_id_ s) (max_id_ s) (current_context_id_ s)
    (tl_context_ptr s) (f (contexts s)) (send_fns s) (recv_fns s) (history s) (futures s)
    (graph_tasks s) (waits s) (profiledRpcKeys_ s) (currentThreadLocalKey_ s) (currentLocalId_ s)
    (sent s).
Definition upd_send_fns (f : list SendRpcBackward -> list SendRpcBackward) (s : worker) : worker
    := mkWorker (next_context_id_ s) (worker_id_ s) (initialized_ s) (autograd_contexts_ s)
    (num_shards_ s) (next_autograd_message_id_ s) (max_id_ s) (current_context_id_ s)
    (tl_context_ptr s) (contexts s) (f (send_fns s)) (recv_fns s) (history s) (futures s)
    (graph_tasks s) (waits s) (profiledRpcKeys_ s) (currentThreadLocalKey_ s) (currentLocalId_ s)
    (sent s).
Definition upd_recv_fns (f : list RecvRpcBackward -> list RecvRpcBackward) (s : worker) : worker
    := mkWorker (next_context_id_ s) (worker_id_ s) (initialized_ s) (autograd_contexts_ s)
    (num_shards_ s) (next_autograd_message_id_ s) (max_id_ s) (current_context_id_ s)
    (tl_context_ptr s) (contexts s) (send_fns s) (f (recv_fns s)) (history s) (futures s)
    (graph_tasks s) (waits s) (profiledRpcKeys_ s) (currentThreadLocalKey_ s) (currentLocalId_ s)
    (sent s).
Definition upd_history (f : list (T * nat) -> list (T * nat)) (s : worker) : worker := mkWorker
    (next_context_id_ s) (worker_id_ s) (initialized_ s) (autograd_contexts_ s) (num_shards_ s)
    (next_autograd_message_id_ s) (max_id_ s) (current_context_id_ s) (tl_context_ptr s) (contexts
    s) (send_fns s) (recv_fns s) (f (history s)) (futures s) (graph_tasks s) (waits s)
    (profiledRpcKeys_ s) (currentThreadLocalKey_ s) (currentLocalId_ s) (sent s).
Definition upd_futures (f : list JitFuture -> list JitFuture) (s : worker) : worker := mkWorker
    (next_context_id_ s) (worker_id_ s) (initialized_ s) (autograd_contexts_ s) (num_shards_ s)
    (next_autograd_message_id_ s) (max_id_ s) (current_context_id_ s) (tl_context_ptr s) (contexts
    s) (send_fns s) (recv_fns s) (history s) (f (futures s)) (graph_tasks s) (waits s)
    (profiledRpcKeys_ s) (currentThreadLocalKey_ s) (currentLocalId_ s) (sent s).
Definition upd_graph_tasks (f : list GraphTask -> list GraphTask) (s : worker) : worker :=
    mkWorker (next_context_id_ s) (worker_id_ s) (initialized_ s) (autograd_contexts_ s)
    (num_shards_ s) (next_autograd_message_id_ s) (max_id_ s) (current_context_id_ s)
    (tl_context_ptr s) (contexts s) (send_fns s) (recv_fns s) (history s) (futures s) (f
    (graph_tasks s)) (waits s) (profiledRpcKeys_ s) (currentThreadLocalKey_ s) (currentLocalId_ s)
    (sent s).
Definition upd_waits (f : list WaitState -> list WaitState) (s : worker) : worker := mkWorker
    (next_context_id_ s) (worker_id_ s) (initialized_ s) (autograd_contexts_ s) (num_shards_ s)
    (next_autograd_message_id_ s) (max_id_ s) (current_context_id_ s) (tl_context_ptr s) (contexts
    s) (send_fns s) (recv_fns s) (history s) (futures s) (graph_tasks s) (f (waits s))
    (profiledRpcKeys_ s) (currentThreadLocalKey_ s) (currentLocalId_ s) (sent s).
Definition upd_profiledRpcKeys_ (f : gmap GloballyUniqueId bytes -> gmap GloballyUniqueId bytes)
    (s : worker) : worker := mkWorker (next_context_id_ s) (worker_id_ s) (initialized_ s)
    (autograd_contexts_ s) (num_shards_ s) (next_autograd_message_id_ s) (max_id_ s)
    (current_context_id_ s) (tl_context_ptr s) (contexts s) (send_fns s) (recv_fns s) (history s)
    (futures s) (graph_tasks s) (waits s) (f (profiledRpcKeys_ s)) (currentThreadLocalKey_ s)
    (currentLocalId_ s) (sent s).
Definition upd_currentThreadLocalKey_ (f : gmap nat bytes -> gmap nat bytes) (s : worker) : worker
    := mkWorker (next_context_id_ s) (worker_id_ s) (initialized_ s) (autograd_contexts_ s)
    (num_shards_ s) (next_autograd_message_id_ s) (max_id_ s) (current_context_id_ s)
    (tl_context_ptr s) (contexts s) (send_fns s) (recv_fns s) (history s) (futures s) (graph_tasks
    s) (waits s) (profiledRpcKeys_ s) (f (currentThreadLocalKey_ s)) (currentLocalId_ s) (sent s).
Definition upd_currentLocalId_ (f : Z -> Z) (s : worker) : worker := mkWorker (next_context_id_ s)
    (worker_id_ s) (initialized_ s) (autograd_contexts_ s) (num_shards_ s)
    (next_autograd_message_id_ s) (max_id_ s) (current_context_id_ s) (tl_context_ptr s) (contexts
    s) (send_fns s) (recv_fns s) (history s) (futures s) (graph_tasks s) (waits s)
    (profiledRpcKeys_ s) (currentThreadLocalKey_ s) (f (currentLocalId_ s)) (sent s).
Definition upd_sent (f : list sent_message -> list sent_message) (s : worker) : worker := mkWorker
    (next_context_id_ s) (worker_id_ s) (initialized_ s) (autograd_contexts_ s) (num_shards_ s)
    (next_autograd_message_id_ s) (max_id_ s) (current_context_id_ s) (tl_context_ptr s) (contexts
    s) (send_fns s) (recv_fns s) (history s) (futures s) (graph_tasks s) (waits s)
    (profiledRpcKeys_ s) (currentThreadLocalKey_ s) (currentLocalId_ s) (f (sent s)).
End worker.
Arguments SendRpcBackward : clear implicits.
Arguments DistAutogradContext : clear implicits.
Arguments sent_message : clear implicits.
Arguments worker : clear implicits.

Section ops.
Context {T G : Type}.

Abbreviation op A := (M (worker T G) A).

(** ** The container *)

(** DistAutogradContainer::computeNumShards: [num_shards <<= 1] wraps, so the
    loop may not end; [fuel] bounds its iterations. *)
Fixpoint shard_loop (fuel : nat) (num_shards target : Z) : outcome Z :=
  if num_shards <? target then
    match fuel with
    | O => Block
    | S fuel => shard_loop fuel (uint32 (Z.shiftl num_shards 1)) target
    end
  else Ret num_shards.

Definition computeNumShards (num_hw_threads : Z) : outcome Z :=
  if num_hw_threads =? 0 then Ret kNumDefaultShards
  else shard_loop 32 1 (uint32 (num_hw_threads * 2)).

(** The constructor; [localId] is where RemoteProfilerManager starts counting. *)
Definition construct (num_shards localId : Z) : outcome (worker T G) :=
  check! Z.land num_shards (uint32 (num_shards - 1)) =? 0
    else AssertFailed "(num_shards & (num_shards - 1)) == 0" in
  Ret (mkWorker 0 0 false (replicate (Z.to_nat num_shards) ∅) num_shards 0 0 ∅ ∅ [] [] [] [] [] [] []
         ∅ ∅ localId []).

Definition init (worker_id : Z) : op unit :=
  do! assert_ ((0 <=? worker_id) && (worker_id <=? kMaxWorkerId))
    (CheckFailed "worker_id needs to be in the range [0, 65535]") in
  let! initialized := gets initialized_ in
  let! old := gets worker_id_ in
  do! assert_ (negb initialized || (worker_id =? old))
    (CheckFailed "Container is already initialized with worker_id: ") in
  if initialized then ret tt
  else
    let base := int64 (Z.shiftl worker_id kAutoIncrementBits) in
    do! modify (upd_worker_id_ (fun _ => int16 worker_id)) in
    do! modify (upd_next_context_id_ (fun _ => base)) in
    do! modify (upd_next_autograd_message_id_ (fun _ => base)) in
    do! modify (upd_max_id_ (fun _ => Z.lor kAutoIncrementMask base)) in
    modify (upd_initialized_ (fun _ => true)).

(** getInstance of an initialized container. *)
Definition getInstance : op unit :=
  let! initialized := gets initialized_ in
  assert_ initialized (CheckFailed "Need to initialize distributed autograd using ").

Definition shard_of (s : worker T G) (context_id : Z) : nat :=
  Z.to_nat (Z.land context_id (num_shards_ s - 1)).

Definition getShard (context_id : Z) : op (gmap Z nat) :=
  let! shard := gets (fun s => autograd_contexts_ s !! shard_of s context_id) in
  match shard with
  | Some m => ret m
  | None => throw (Undefined "autograd_contexts_[context_id & (num_shards_ - 1)]")
  end.

Definition updShard (context_id : Z) (f : gmap Z nat -> gmap Z nat) : op unit :=
  modify (fun s => upd_autograd_contexts_ (alter f (shard_of s context_id)) s).

Definition current_id (t : nat) (s : worker T G) : Z :=
  default kInvalidContextId (current_context_id_ s !! t).

Definition newAutogradMessageId : op Z :=
  let! next := gets next_autograd_message_id_ in
  let! max := gets max_id_ in
  do! assert_ (next <? max) (AssertFailed "next_autograd_message_id_ < max_id_") in
  do! modify (upd_next_autograd_message_id_ (fun n => int64 (n + 1))) in
  ret next.

(** [emplace] of a fresh context under an id: an entry that is there stays. *)
Definition emplaceContext (context_id : Z) : op nat :=
  let! shard := getShard context_id in
  match shard !! context_id with
  | Some c => ret c
  | None =>
      let! c := gets (fun s => length (contexts s)) in
      do! modify (upd_contexts (fun l => l ++ [newDistAutogradContext context_id])) in
      do! updShard context_id (insert context_id c) in
      ret c
  end.

Definition getOrCreateContext (context_id : Z) : op nat :=
  let! shard := getShard context_id in
  match shard !! context_id with
  | Some c => ret c
  | None => emplaceContext context_id
  end.

Definition newContext (t : nat) : op nat :=
  let! current := gets (current_id t) in
  do! assert_ (current =? kInvalidContextId)
    (CheckFailed "Already have an autograd context id for this thread.") in
  let! context_id := gets next_context_id_ in
  do! modify (upd_next_context_id_ (fun n => int64 (n + 1))) in
  do! modify (upd_current_context_id_ (insert t context_id)) in
  let! max := gets max_id_ in
  do! assert_ (context_id <? max) (AssertFailed "context_id < max_id_") in
  emplaceContext context_id.

Definition hasValidContext (t : nat) : op bool :=
  let! current := gets (current_id t) in ret (negb (current =? kInvalidContextId)).

Definition currentContext (t : nat) : op nat :=
  let! valid := hasValidContext t in
  do! assert_ valid (CheckFailed "Current thread doesn't have a valid autograd context. Please wrap your ") in
  let! current := gets (current_id t) in
  let! shard := getShard current in
  match shard !! current with
  | Some c => ret c
  | None => throw (CheckFailed "Couldn't find autograd context ")
  end.

Definition getContext (c : nat) : op (DistAutogradContext G) :=
  let! found := gets (fun s => contexts s !! c) in
  match found with Some x => ret x | None => throw (Undefined "dangling context") end.

Definition updContext (c : nat) (f : DistAutogradContext G -> DistAutogradContext G) : op unit :=
  modify (upd_contexts (alter f c)).

Definition getKnownWorkerIds (c : nat) : op (gset Z) :=
  let! x := getContext c in ret (knownWorkerIds_ x).

Definition eraseContextIdAndReset (t : nat) (context_id : Z) : op unit :=
  do! updShard context_id (delete context_id) in
  let! current := gets (current_id t) in
  if current =? context_id then modify (upd_current_context_id_ (insert t kInvalidContextId))
  else ret tt.

(** *** Releasing contexts *)

Section release.
(** Whether RpcAgent::getCurrentRpcAgent finds an agent, and the workers for
    which the agent refuses to send. *)
Variable agent_set : bool.
Variable send_throws : Z -> bool.

(** The callbacks of the clean-up futures only log. *)
Definition sendReleaseContextRpc (workerIds : gset Z) (context_id : Z) : op unit :=
  if agent_set then
    for_each (elements workerIds) (fun worker_id =>
      if send_throws worker_id then ret tt
      else modify (upd_sent (fun l => l ++ [SentCleanup worker_id context_id])))
  else ret tt.

Definition releaseContextIfPresent (t : nat) (context_id : Z) : op unit :=
  let! shard := getShard context_id in
  match shard !! context_id with
  | None => ret tt
  | Some c =>
      let! knownWorkerIds := getKnownWorkerIds c in
      do! eraseContextIdAndReset t context_id in
      sendReleaseContextRpc knownWorkerIds context_id
  end.

Definition releaseContext (t : nat) (context_id : Z) : op unit :=
  let! shard := getShard context_id in
  match shard !! context_id with
  | None => throw (CheckFailed "Could not find autograd context with id: ")
  | Some c =>
      let! knownWorkerIds := getKnownWorkerIds c in
      do! eraseContextIdAndReset t context_id in
      sendReleaseContextRpc knownWorkerIds context_id
  end.
End release.

Definition retrieveContext (context_id : Z) : op nat :=
  let! shard := getShard context_id in
  match shard !! context_id with
  | Some c => ret c
  | None => throw (CheckFailed "Could not find autograd context with id: ")
  end.

Definition isValidContext (context_id : Z) : op unit :=
  let! shard := getShard context_id in
  assert_ (bool_decide (is_Some (shard !! context_id)))
    (CheckFailed "Could not find autograd context with id: ").

Definition getWorkerId (s : worker T G) : Z := worker_id_ s.
Definition getMaxId (s : worker T G) : Z := max_id_ s.
Definition forceCurrentContextId (t : nat) (contextId : Z) : op unit :=
  modify (upd_current_context_id_ (insert t contextId)).
Definition setCurrentContextId (t : nat) (contextId : Z) : op unit :=
  let! current := gets (current_id t) in
  do! assert_ (current =? kInvalidContextId)
    (AssertFailed "Already have an autograd context id for this thread.") in
  forceCurrentContextId t contextId.
Definition clearCurrentContext (t : nat) : op unit := forceCurrentContextId t (-1).
Definition currentContextId (t : nat) (s : worker T G) : Z := current_id t s.
Definition numAutogradContexts (s : worker T G) : Z :=
  uint64 (sum_Z (map (fun shard : gmap Z nat => Z.of_nat (size shard)) (autograd_contexts_ s))).

(** ThreadLocalDistAutogradContext: the constructor returns the previous
    pointer, which the destructor puts back. *)
Definition tl_enter (t : nat) (new_context : option nat) : op (option nat) :=
  let! prev := gets (fun s => tl_context_ptr s !! t) in
  do! modify (upd_tl_context_ptr (partial_alter (fun _ => new_context) t)) in
  ret prev.
Definition tl_leave (t : nat) (prev_context_ptr : option nat) : op unit :=
  modify (upd_tl_context_ptr (partial_alter (fun _ => prev_context_ptr) t)).
Definition getContextPtr (t : nat) (s : worker T G) : option nat := tl_context_ptr s !! t.

(** ** The context *)

Definition addKnownWorkerId (c : nat) (workerId : Z) : op unit :=
  updContext c (fun x => mkContext (contextId_ x) ({[workerId]} ∪ knownWorkerIds_ x)
    (sendAutogradFunctions_ x) (recvAutogradFunctions_ x) (accumulatedGrads_ x) (graphTask_ x)
    (outStandingRpcs_ x)).

Definition addSendFunction (c : nat) (func : option nat) (autograd_message_id : Z) : op unit :=
  match func with
  | None => throw (AssertFailed "func != nullptr")
  | Some func =>
      let! x := getContext c in
      do! assert_ (bool_decide (sendAutogradFunctions_ x !! autograd_message_id = None))
        (AssertFailed "sendAutogradFunctions_.find(autograd_message_id) ==") in
      updContext c (fun x => mkContext (contextId_ x) (knownWorkerIds_ x)
        (<[autograd_message_id := func]> (sendAutogradFunctions_ x)) (recvAutogradFunctions_ x)
        (accumulatedGrads_ x) (graphTask_ x) (outStandingRpcs_ x))
  end.

Definition addRecvFunction (c : nat) (func : option nat) (autograd_message_id : Z) : op unit :=
  match func with
  | None => throw (AssertFailed "func != nullptr")
  | Some func =>
      let! x := getContext c in
      do! assert_ (bool_decide (recvAutogradFunctions_ x !! autograd_message_id = None))
        (AssertFailed "recvAutogradFunctions_.find(autograd_message_id) ==") in
      updContext c (fun x => mkContext (contextId_ x) (knownWorkerIds_ x) (sendAutogradFunctions_ x)
        (<[autograd_message_id := func]> (recvAutogradFunctions_ x))
        (accumulatedGrads_ x) (graphTask_ x) (outStandingRpcs_ x))
  end.

Definition sendFunctions (c : nat) : op (gmap Z nat) :=
  let! x := getContext c in ret (sendAutogradFunctions_ x).
Definition recvFunctions (c : nat) : op (gmap Z nat) :=
  let! x := getContext c in ret (recvAutogradFunctions_ x).

Definition retrieveSendFunction (c : nat) (autograd_message_id : Z) : op nat :=
  let! x := getContext c in
  match sendAutogradFunctions_ x !! autograd_message_id with
  | Some f => ret f
  | None => throw (CheckFailed "Could not find send function for autograd message id: ")
  end.

(** *** Gradients *)

(** What AccumulateGrad::accumulateGrad does with the old and the new gradient:
    it changes the old one in place, or hands a new one to the update callback. *)
Inductive accumulation : Type := InPlace (g : G) | Update (g : G).

Definition set_grads (x : DistAutogradContext G) (grads : gmap nat G) : DistAutogradContext G :=
  mkContext (contextId_ x) (knownWorkerIds_ x) (sendAutogradFunctions_ x) (recvAutogradFunctions_ x)
    grads (graphTask_ x) (outStandingRpcs_ x).

Section gradients.
Variable requires_grad_var : nat -> bool.
Variable callHooks : nat -> G -> G.
Variable accumulate : nat -> option G -> G -> accumulation.

(** The update callback calls Dict::insert, which keeps an entry that is there. *)
Definition accumulateGrad (c : nat) (variable : nat) (grad : option G) : op unit :=
  match grad with
  | None => throw (AssertFailed "grad.defined()")
  | Some grad =>
      do! assert_ (requires_grad_var variable) (AssertFailed "variable.requires_grad()") in
      let! x := getContext c in
      let old_grad := accumulatedGrads_ x !! variable in
      let new_grad := callHooks variable grad in
      match accumulate variable old_grad new_grad with
      | InPlace g =>
          updContext c (fun x => set_grads x (alter (fun _ => g) variable (accumulatedGrads_ x)))
      | Update g =>
          updContext c (fun x => set_grads x
            (match accumulatedGrads_ x !! variable with
             | Some _ => accumulatedGrads_ x
             | None => <[variable := g]> (accumulatedGrads_ x)
             end))
      end
  end.
End gradients.

Definition getGradients (c : nat) : op (gmap nat G) :=
  let! x := getContext c in ret (accumulatedGrads_ x).

(** [cb] gets the gradient and returns it, changed or not, with its verdict. *)
Definition runGradCallbackForVariable (c : nat) (variable : nat) (cb : G -> op (G * bool)) : op unit :=
  let! x := getContext c in
  match accumulatedGrads_ x !! variable with
  | None => throw (AssertFailed "The grad for the variable should exist in dist_autograd context.")
  | Some grad =>
      let! r := cb grad in
      if r.2 then updContext c (fun x => set_grads x (<[variable := r.1]> (accumulatedGrads_ x)))
      else ret tt
  end.

(** *** The graph task *)

Definition set_graph (x : DistAutogradContext G) (g : option nat) : DistAutogradContext G :=
  mkContext (contextId_ x) (knownWorkerIds_ x) (sendAutogradFunctions_ x) (recvAutogradFunctions_ x)
    (accumulatedGrads_ x) g (outStandingRpcs_ x).

Definition retrieveGraphTask (c : nat) : op nat :=
  let! x := getContext c in
  match graphTask_ x with Some g => ret g | None => throw (AssertFailed "graphTask_") end.

Definition setGraphTask (c : nat) (graphTask : nat) : op unit :=
  let! x := getContext c in
  do! assert_ (bool_decide (graphTask_ x = None))
    (AssertFailed "Cannot set GraphTask multiple times for the same autograd context") in
  updContext c (fun x => set_graph x (Some graphTask)).

Definition resetGraphTask (c : nat) : op unit := updContext c (fun x => set_graph x None).

(** *** Outstanding RPCs *)

Definition set_outstanding (x : DistAutogradContext G) (l : list nat) : DistAutogradContext G :=
  mkContext (contextId_ x) (knownWorkerIds_ x) (sendAutogradFunctions_ x) (recvAutogradFunctions_ x)
    (accumulatedGrads_ x) (graphTask_ x) l.

(** set_exception_without_signal, and setErrorIfNeeded by the one thread that sets
    future_completed_. *)
Definition set_exception (e : exn) (gt : GraphTask) : GraphTask :=
  if future_completed_ gt then mkGraphTask (keep_graph_ gt) true true (future_result_ gt)
  else mkGraphTask (keep_graph_ gt) true true
         (match future_result_ gt with None => Some (Some e) | r => r end).

(** The callback of addOutstandingRpc. *)
Definition outstanding_done (c : nat) (r : option exn) : op unit :=
  match r with
  | None => ret tt
  | Some e =>
      let! x := getContext c in
      match graphTask_ x with
      | None => ret tt
      | Some g =>
          modify (upd_graph_tasks (alter (set_exception e) g))
      end
  end.

(** The callback of clearAndWaitForOutstandingRpcsAsync. *)
Definition wait_step (r : option exn) (st : WaitState) : WaitState :=
  match r with
  | Some e =>
      if w_alreadySentError st then st
      else mkWait (match w_future st with None => Some (Some e) | f => f end) (w_remaining st) true
  | None =>
      let remaining := int32 (w_remaining st - 1) in
      mkWait (if remaining =? 0 then match w_future st with None => Some None | f => f end
              else w_future st) remaining (w_alreadySentError st)
  end.
Definition wait_done (w : nat) (r : option exn) : op unit :=
  modify (upd_waits (alter (wait_step r) w)).

Definition run_fut_callback (r : option exn) (cb : fut_callback) : op unit :=
  match cb with
  | CbOutstanding c => outstanding_done c r
  | CbWait w => wait_done w r
  end.

(** addCallback: a future that is completed runs the callback at once. *)
Definition addCallback (i : nat) (cb : fut_callback) : op unit :=
  let! f := gets (fun s => futures s !! i) in
  match f with
  | None => throw (Undefined "dangling future")
  | Some (mkFuture (Some r) _) => run_fut_callback r cb
  | Some (mkFuture None _) =>
      modify (upd_futures (alter (fun f => mkFuture (fut_result f) (fut_callbacks f ++ [cb])) i))
  end.

(** The agent completes a future; one that is completed stays as it is. *)
Definition complete (i : nat) (r : option exn) : op unit :=
  let! f := gets (fun s => futures s !! i) in
  match f with
  | Some (mkFuture None cbs) =>
      do! modify (upd_futures (<[i := mkFuture (Some r) []]>)) in
      for_each cbs (run_fut_callback r)
  | _ => ret tt
  end.

Definition addOutstandingRpc (c : nat) (jitFuture : nat) : op unit :=
  do! addCallback jitFuture (CbOutstanding c) in
  updContext c (fun x => set_outstanding x (outStandingRpcs_ x ++ [jitFuture])).

Definition clearOutstandingRpcs (c : nat) : op unit := updContext c (fun x => set_outstanding x []).

(** Returns the index of the wait, whose future is the result. *)
Definition clearAndWaitForOutstandingRpcsAsync (c : nat) : op nat :=
  let! x := getContext c in
  let outStandingRpcs := outStandingRpcs_ x in
  do! updContext c (fun x => set_outstanding x []) in
  let! w := gets (fun s => length (waits s)) in
  do! modify (upd_waits (fun l => l ++ [mkWait
    (if bool_decide (outStandingRpcs = []) then Some None else None)
    (int32 (Z.of_nat (length outStandingRpcs))) false])) in
  do! for_each outStandingRpcs (fun rpc => addCallback rpc (CbWait w)) in
  ret w.

(** ** Sending and receiving with autograd information *)

Section send.
Variable my_id : Z.   (* RpcAgent::getCurrentRpcAgent()->getWorkerInfo().id_ *)
Variable requires_grad : T -> bool.
(** torch::autograd::compute_requires_grad *)
Variable compute_requires_grad : list T -> bool.
Variable zeros_like : nat -> G.   (* input_metadata(i).zeros_like() *)
Variable pickle : IValue T -> bytes * list T.
Variable encodeInt64 : Z -> bytes.
(** [RpcAgent::send] may throw. *)
Variable agent_throws : Z -> option exn.

Definition agent_send (dst : Z) (message : Message T) : op nat :=
  match agent_throws dst with
  | Some e => throw e
  | None =>
      let! fut := gets (fun s => length (futures s)) in
      do! modify (upd_futures (fun l => l ++ [mkFuture None []])) in
      do! modify (upd_sent (fun l => l ++ [SentMessage dst message fut])) in
      ret fut
  end.

Definition addSendRpcBackward (autogradContext : nat) (autogradMetadata : AutogradMetadata)
    (tensors : list T) : op unit :=
  let tensors_with_grad := List.filter requires_grad tensors in
  let! grad_fn := gets (fun s => length (send_fns s)) in
  do! modify (upd_send_fns (fun l => l ++ [mkSend tensors_with_grad []])) in
  addSendFunction autogradContext (Some grad_fn) (autogradMessageId autogradMetadata).

Definition addRecvRpcBackward (autogradMetadata : AutogradMetadata) (tensors : list T)
    (fromWorkerId : Z) (deviceMap : DeviceMap) : op nat :=
  do! getInstance in
  let! autogradContext := getOrCreateContext (autogradContextId autogradMetadata) in
  do! (if negb (bool_decide (tensors = [])) && compute_requires_grad tensors then
         let! grad_fn := gets (fun s => length (recv_fns s)) in
         do! modify (upd_recv_fns (fun l => l ++
           [mkRecv autogradMetadata autogradContext fromWorkerId deviceMap])) in
         do! modify (upd_history (fun l => l ++
           map (fun t => (t, grad_fn)) (List.filter requires_grad tensors))) in
         addRecvFunction autogradContext (Some grad_fn) (autogradMessageId autogradMetadata)
       else ret tt) in
  ret autogradContext.

Definition getMessageWithAutograd (t : nat) (dstId : Z) (wrappedRpcMsg : Message T)
    (msgType : MessageType) (forceGradRecording : bool) (deviceMap : DeviceMap) : op (Message T) :=
  do! getInstance in
  let tensorsRequireGrad := compute_requires_grad (tensors wrappedRpcMsg) in
  let! valid := hasValidContext t in
  if negb valid || (negb forceGradRecording && negb tensorsRequireGrad) then ret wrappedRpcMsg
  else
    let! autogradContext := currentContext t in
    let! x := getContext autogradContext in
    let! messageId := newAutogradMessageId in
    let autogradMetadata := mkMetadata (contextId_ x) messageId in
    do! assert_ (bool_decide (msgType = FORWARD_AUTOGRAD_REQ) || bool_decide (msgType = FORWARD_AUTOGRAD_RESP))
      (AssertFailed "messageType_ == MessageType::FORWARD_AUTOGRAD_REQ") in
    do! (if tensorsRequireGrad
         then addSendRpcBackward autogradContext autogradMetadata (tensors wrappedRpcMsg)
         else ret tt) in
    do! addKnownWorkerId autogradContext dstId in
    lift (RpcWithAutograd_toMessage pickle encodeInt64 my_id msgType autogradMetadata wrappedRpcMsg deviceMap).

(** *** RemoteProfilerManager *)

Definition setCurrentKey (t : nat) (key : bytes) : op unit :=
  let! old := gets (fun s => currentThreadLocalKey_ s !! t) in
  match old with
  | Some _ => throw (CheckFailed "Cannot call RemoteProfilerManager::setCurrentKey when current key is already set.")
  | None => modify (upd_currentThreadLocalKey_ (insert t key))
  end.
Definition isCurrentKeySet (t : nat) (s : worker T G) : bool :=
  bool_decide (is_Some (currentThreadLocalKey_ s !! t)).
Definition unsetCurrentKey (t : nat) : op unit := modify (upd_currentThreadLocalKey_ (delete t)).
Definition saveRPCKey (id : GloballyUniqueId) (key : bytes) : op unit :=
  modify (upd_profiledRpcKeys_ (fun m => match m !! id with Some _ => m | None => <[id := key]> m end)).
Definition retrieveRPCProfilingKey (id : GloballyUniqueId) : op bytes :=
  let! key := gets (fun s => profiledRpcKeys_ s !! id) in
  match key with
  | Some key => ret key
  | None => throw (AssertFailed "it != profiledRpcKeys_.end()")
  end.
Definition eraseKey (id : GloballyUniqueId) : op unit :=
  let! key := gets (fun s => profiledRpcKeys_ s !! id) in
  match key with
  | Some _ => modify (upd_profiledRpcKeys_ (delete id))
  | None => throw (AssertFailed "it != profiledRpcKeys_.end()")
  end.
Definition getNextLocalId : op Z :=
  let! id := gets currentLocalId_ in
  do! modify (upd_currentLocalId_ (fun n => int64 (n + 1))) in
  ret id.
Definition getNextProfilerId : op GloballyUniqueId :=
  let! localId := getNextLocalId in ret (mkId my_id localId).
Definition getCurrentProfilingKey (t : nat) : op bytes :=
  let! key := gets (fun s => currentThreadLocalKey_ s !! t) in
  match key with
  | Some key => ret key
  | None => throw (CheckFailed "Must set currentThreadLocalKey_ before calling getCurrentProfilingKey")
  end.

Section profiling.
Context {Cfg Ev : Type}.
Variable cfg_toIValue : Cfg -> IValue T.
(** The thread's profiler: whether and how it is enabled. *)
Variable profilerConfig : option Cfg.
(** [event.name()], [event.setName] and addEventList of the profiler. *)
Variable ev_name : Ev -> bytes.
Variable ev_setName : bytes -> Ev -> Ev.
Variable addEventList : list Ev -> op unit.

Definition getMessageWithProfiling (t : nat) (wrappedRpcMessage : Message T) (msgType : MessageType)
    (profilerConfig : Cfg) : op (Message T) :=
  let! key := getCurrentProfilingKey t in
  let! globallyUniqueProfilingId := getNextProfilerId in
  do! saveRPCKey globallyUniqueProfilingId key in
  do! unsetCurrentKey t in
  lift (RpcWithProfilingReq_toMessage pickle encodeInt64 cfg_toIValue msgType wrappedRpcMessage
          profilerConfig globallyUniqueProfilingId).

Definition sendMessageWithAutograd (t : nat) (dst : Z) (deviceMap : DeviceMap)
    (wrappedRpcMsg : Message T) (forceGradRecording forceDisableProfiling : bool) : op nat :=
  let! msg := getMessageWithAutograd t dst wrappedRpcMsg FORWARD_AUTOGRAD_REQ forceGradRecording deviceMap in
  match profilerConfig with
  | Some cfg =>
      if forceDisableProfiling then agent_send dst msg
      else
        let! msgWithProfiling := getMessageWithProfiling t msg RUN_WITH_PROFILING_REQ cfg in
        agent_send dst msgWithProfiling
  | None => agent_send dst msg
  end.

(** processRemoteProfiledEvents of rpc/utils.cpp. *)
Definition processRemoteProfiledEvents (events : list Ev) (profilingId : GloballyUniqueId) : op unit :=
  do! assert_ (match profilerConfig with Some _ => true | None => false end)
    (CheckFailed "Profiler was expected to be enabled. This can happen in callback ") in
  let! key := retrieveRPCProfilingKey profilingId in
  do! eraseKey profilingId in
  let keyPrefixStr := key ++ REMOTE_PROFILING_KEY_PREFIX in
  addEventList (map (fun event => ev_setName (keyPrefixStr ++ ev_name event) event) events).

(** deserializeResponse with the handlers of this worker. *)
Definition receive_response {Op} (unpickle : bytes -> list T -> outcome (IValue T))
    (decodeInt64 : bytes -> Z) (ev_fromIValue : IValue T -> outcome Ev)
    (response : Message T) : op (option (RpcCommand T Op Cfg Ev) * MessageType) :=
  deserializeResponse unpickle decodeInt64 ev_fromIValue
    (fun md ts from dm => let! _ := addRecvRpcBackward md ts from dm in ret tt)
    processRemoteProfiledEvents (S (length (payload response))) response (type_ response).
End profiling.

(** ** The autograd functions *)

(** RecvRpcBackward::apply.  [alive] is whether the weak pointer to the context
    can be locked; a missing gradient is replaced by zeros. *)
Definition RecvRpcBackward_apply (to_tensor : G -> T) (func : nat) (alive : bool)
    (grads : list (option G)) : op unit :=
  let! found := gets (fun s => recv_fns s !! func) in
  match found with
  | None => throw (Undefined "dangling RecvRpcBackward")
  | Some f =>
      let outputGrads := imap (fun i g => match g with Some g => g | None => zeros_like i end) grads in
      do! assert_ alive (CheckFailed "Autograd context no longer valid! This usually ") in
      let! g := retrieveGraphTask (rb_context f) in
      let! gt := gets (fun s => graph_tasks s !! g) in
      match gt with
      | None => throw (Undefined "dangling GraphTask")
      | Some gt =>
          let! jitFuture := agent_send (rb_fromWorkerId f)
            (PropagateGradientsReq_toMessage pickle (rb_metadata f) (map to_tensor outputGrads) (keep_graph_ gt)) in
          addOutstandingRpc (rb_context f) jitFuture
      end
  end.

(** SendRpcBackward::apply moves the gradients out. *)
Definition SendRpcBackward_apply (func : nat) (inputs : list (option G)) : op (list (option G)) :=
  do! assert_ (bool_decide (length inputs = 0%nat)) (AssertFailed "SendRpcBackward should receive no inputs") in
  let! found := gets (fun s => send_fns s !! func) in
  match found with
  | None => throw (Undefined "dangling SendRpcBackward")
  | Some f =>
      do! assert_ (forallb (fun g => match g with Some _ => true | None => false end) (sb_grads f))
        (AssertFailed "BUG!: SendRpcBackward didn't receive valid gradients") in
      do! modify (upd_send_fns (<[func := mkSend (sb_inputs f) []]>)) in
      ret (sb_grads f)
  end.

Definition setGrads (func : nat) (grads : list (option G)) : op unit :=
  modify (upd_send_fns (alter (fun f => mkSend (sb_inputs f) grads) func)).
Definition getGrads (func : nat) : op (list (option G)) :=
  let! found := gets (fun s => send_fns s !! func) in
  match found with Some f => ret (sb_grads f) | None => throw (Undefined "dangling SendRpcBackward") end.
End send.
End ops.

(** ** The table of contexts is one map

    The abstract state of the container: the table, the ids to be issued and the
    current context of every thread. *)

Record spec := mkSpec {
  sp_next : Z; sp_message : Z; sp_max : Z; sp_worker : Z; sp_initialized : bool;
  sp_table : gmap Z nat; sp_current : gmap nat Z; sp_count : nat;
}.

Inductive cmd : Type :=
  | CInit (worker_id : Z)
  | CNewContext (t : nat)
  | CNewMessageId
  | CGetOrCreate (context_id : Z)
  | CRelease (t : nat) (context_id : Z)
  | CReleaseIfPresent (t : nat) (context_id : Z)
  | CRetrieve (context_id : Z)
  | CIsValid (context_id : Z)
  | CCurrent (t : nat)
  | CSetCurrent (t : nat) (context_id : Z)
  | CForceCurrent (t : nat) (context_id : Z)
  | CNumContexts.

(** [RNew]: the id and the object of a new context. *)
Inductive reply : Type :=
  | RUnit
  | RNew (context_id : Z) (c : nat)
  | RContext (c : nat)
  | RId (id : Z).

Definition spec_current (t : nat) (sp : spec) : Z := default kInvalidContextId (sp_current sp !! t).
Definition spec_set_table (f : gmap Z nat -> gmap Z nat) (sp : spec) : spec :=
  mkSpec (sp_next sp) (sp_message sp) (sp_max sp) (sp_worker sp) (sp_initialized sp)
    (f (sp_table sp)) (sp_current sp) (sp_count sp).
Definition spec_set_current (t : nat) (id : Z) (sp : spec) : spec :=
  mkSpec (sp_next sp) (sp_message sp) (sp_max sp) (sp_worker sp) (sp_initialized sp)
    (sp_table sp) (<[t := id]> (sp_current sp)) (sp_count sp).
Definition spec_create (id : Z) (sp : spec) : nat * spec :=
  match sp_table sp !! id with
  | Some c => (c, sp)
  | None => (sp_count sp,
      mkSpec (sp_next sp) (sp_message sp) (sp_max sp) (sp_worker sp) (sp_initialized sp)
        (<[id := sp_count sp]> (sp_table sp)) (sp_current sp) (S (sp_count sp)))
  end.
Definition spec_release (t : nat) (id : Z) (sp : spec) : spec :=
  let sp := spec_set_table (delete id) sp in
  if spec_current t sp =? id then spec_set_current t kInvalidContextId sp else sp.
Definition not_found : exn := CheckFailed "Could not find autograd context with id: ".

Definition spec_cmd (c : cmd) (sp : spec) : outcome reply * spec :=
  match c with
  | CInit w =>
      if negb ((0 <=? w) && (w <=? kMaxWorkerId)) then
        (Throw (CheckFailed "worker_id needs to be in the range [0, 65535]"), sp)
      else if sp_initialized sp && negb (w =? sp_worker sp) then
        (Throw (CheckFailed "Container is already initialized with worker_id: "), sp)
      else if sp_initialized sp then (Ret RUnit, sp)
      else
        let base := int64 (Z.shiftl w kAutoIncrementBits) in
        (Ret RUnit, mkSpec base base (Z.lor kAutoIncrementMask base) (int16 w) true
                      (sp_table sp) (sp_current sp) (sp_count sp))
  | CNewContext t =>
      if spec_current t sp =? kInvalidContextId then
        let id := sp_next sp in
        let sp := spec_set_current t id (mkSpec (int64 (id + 1)) (sp_message sp) (sp_max sp) (sp_worker sp)
          (sp_initialized sp) (sp_table sp) (sp_current sp) (sp_count sp)) in
        if id <? sp_max sp then let '(c, sp) := spec_create id sp in (Ret (RNew id c), sp)
        else (Throw (AssertFailed "context_id < max_id_"), sp)
      else (Throw (CheckFailed "Already have an autograd context id for this thread."), sp)
  | CNewMessageId =>
      if sp_message sp <? sp_max sp then
        (Ret (RId (sp_message sp)),
         mkSpec (sp_next sp) (int64 (sp_message sp + 1)) (sp_max sp) (sp_worker sp)
           (sp_initialized sp) (sp_table sp) (sp_current sp) (sp_count sp))
      else (Throw (AssertFailed "next_autograd_message_id_ < max_id_"), sp)
  | CGetOrCreate id => let '(c, sp) := spec_create id sp in (Ret (RContext c), sp)
  | CRelease t id =>
      match sp_table sp !! id with
      | None => (Throw not_found, sp)
      | Some _ => (Ret RUnit, spec_release t id sp)
      end
  | CReleaseIfPresent t id =>
      match sp_table sp !! id with
      | None => (Ret RUnit, sp)
      | Some _ => (Ret RUnit, spec_release t id sp)
      end
  | CRetrieve id =>
      match sp_table sp !! id with Some c => (Ret (RContext c), sp) | None => (Throw not_found, sp) end
  | CIsValid id =>
      match sp_table sp !! id with Some c => (Ret RUnit, sp) | None => (Throw not_found, sp) end
  | CCurrent t =>
      if spec_current t sp =? kInvalidContextId then
        (Throw (CheckFailed "Current thread doesn't have a valid autograd context. Please wrap your "), sp)
      else match sp_table sp !! spec_current t sp with
           | Some c => (Ret (RContext c), sp)
           | None => (Throw (CheckFailed "Couldn't find autograd context "), sp)
           end
  | CSetCurrent t id =>
      if spec_current t sp =? kInvalidContextId then (Ret RUnit, spec_set_current t id sp)
      else (Throw (AssertFailed "Already have an autograd context id for this thread."), sp)
  | CForceCurrent t id => (Ret RUnit, spec_set_current t id sp)
  | CNumContexts => (Ret (RId (uint64 (Z.of_nat (size (sp_table sp))))), sp)
  end.

Fixpoint spec_run (cs : list cmd) (sp : spec) : list (outcome reply) * spec :=
  match cs with
  | [] => ([], sp)
  | c :: cs =>
      let '(o, sp) := spec_cmd c sp in
      let '(os, sp) := spec_run cs sp in (o :: os, sp)
  end.

Section container.
Context {T G : Type}.
Variable agent_set : bool.
Variable send_throws : Z -> bool.
Implicit Types s : worker T G.

Definition run_cmd (c : cmd) : M (worker T G) reply :=
  match c with
  | CInit w => do! init w in ret RUnit
  | CNewContext t =>
      let! c := newContext t in
      let! x := getContext c in ret (RNew (contextId_ x) c)
  | CNewMessageId => let! id := newAutogradMessageId in ret (RId id)
  | CGetOrCreate id => let! c := getOrCreateContext id in ret (RContext c)
  | CRelease t id => do! releaseContext agent_set send_throws t id in ret RUnit
  | CReleaseIfPresent t id => do! releaseContextIfPresent agent_set send_throws t id in ret RUnit
  | CRetrieve id => let! c := retrieveContext id in ret (RContext c)
  | CIsValid id => do! isValidContext id in ret RUnit
  | CCurrent t => let! c := currentContext t in ret (RContext c)
  | CSetCurrent t id => do! setCurrentContextId t id in ret RUnit
  | CForceCurrent t id => do! forceCurrentContextId t id in ret RUnit
  | CNumContexts => let! n := gets numAutogradContexts in ret (RId n)
  end.

Fixpoint run_cmds (cs : list cmd) (s : worker T G) : list (outcome reply) * worker T G :=
  match cs with
  | [] => ([], s)
  | c :: cs =>
      let '(o, s) := run_cmd c s in
      let '(os, s) := run_cmds cs s in (o :: os, s)
  end.

(** The union of the shards. *)
Definition union_all (l : list (gmap Z nat)) : gmap Z nat := foldr (∪) ∅ l.
Definition table s : gmap Z nat := union_all (autograd_contexts_ s).

Definition abs s : spec :=
  mkSpec (next_context_id_ s) (next_autograd_message_id_ s) (max_id_ s) (worker_id_ s)
    (initialized_ s) (table s) (current_context_id_ s) (length (contexts s)).

(** An id is in the shard it hashes to, and names a context that has this id. *)
Record wf s : Prop := {
  wf_shards : exists k, 0 <= k /\ num_shards_ s = 2 ^ k /\
    length (autograd_contexts_ s) = Z.to_nat (2 ^ k);
  wf_placed : forall i shard id c, autograd_contexts_ s !! i = Some shard -> shard !! id = Some c ->
    i = shard_of s id;
  wf_context : forall i shard id c, autograd_contexts_ s !! i = Some shard -> shard !! id = Some c ->
    exists x, contexts s !! c = Some x /\ contextId_ x = id;
}.

#[local] Set Default Proof Using "Type".
#[local] Set Proof Using Clear Unused.

Lemma union_all_lookup (h : Z -> nat) l k :
  (forall i m id c, l !! i = Some m -> m !! id = Some c -> h id = i) ->
  union_all l !! k = l !! h k ≫= (fun m => m !! k).
Proof.
  intros Hl. assert (Hex : forall c, union_all l !! k = Some c ->
    exists i m, l !! i = Some m /\ m !! k = Some c).
  { clear Hl. induction l as [|m l IH]; intros c; simpl; [by rewrite lookup_empty|].
    intros [Hm|[_ Hm]]%lookup_union_Some_raw; [by exists O, m|].
    destruct (IH c Hm) as (i & m' & ? & ?). by exists (S i), m'. }
  assert (Hsome : forall i m c, l !! i = Some m -> m !! k = Some c -> is_Some (union_all l !! k)).
  { clear. induction l as [|m' l IH]; intros [|i] m c; simpl; try done.
    - intros [= ->] Hm. rewrite lookup_union, Hm. destruct (union_all l !! k); eauto.
    - intros Hi Hm. destruct (IH i m c Hi Hm) as [c' Hc]. rewrite lookup_union, Hc.
      destruct (m' !! k); eauto. }
  destruct (union_all l !! k) as [c|] eqn:Hk.
  - destruct (Hex c eq_refl) as (i & m & Hi & Hm). by rewrite (Hl i m k c Hi Hm), Hi.
  - destruct (l !! h k) as [m|] eqn:Hi; [|done]. simpl.
    destruct (m !! k) as [c|] eqn:Hm; [|done]. by destruct (Hsome _ _ _ Hi Hm).
Qed.

Lemma union_all_size (h : Z -> nat) l n :
  (forall i m id c, l !! i = Some m -> m !! id = Some c -> h id = (n + i)%nat) ->
  Z.of_nat (size (union_all l)) = sum_Z (map (fun m : gmap Z nat => Z.of_nat (size m)) l).
Proof.
  revert n. induction l as [|m l IH]; intros n Hl; simpl; [by rewrite map_size_empty|].
  rewrite map_size_disj_union.
  - rewrite Nat2Z.inj_add, (IH (S n)); [done|].
    intros i m' id c Hi Hm. rewrite (Hl (S i) m' id c Hi Hm). lia.
  - apply map_disjoint_spec. intros id c c' Hm Hu.
    pose proof (Hl O m id c eq_refl Hm) as H0.
    assert (Hex : exists i m', l !! i = Some m' /\ m' !! id = Some c').
    { clear -Hu. induction l as [|m l IH]; simpl in Hu; [by rewrite lookup_empty in Hu|].
      apply lookup_union_Some_raw in Hu as [Hm|[_ Hm]]; [by exists O, m|].
      destruct (IH Hm) as (i & m' & ? & ?). by exists (S i), m'. }
    destruct Hex as (i & m' & Hi & Hm'). pose proof (Hl (S i) m' id c' Hi Hm'). lia.
Qed.

Lemma shard_lt s id : wf s -> (shard_of s id < length (autograd_contexts_ s))%nat.
Proof.
  intros [(k & Hk & Hn & Hl) _ _]. rewrite Hl. unfold shard_of. rewrite Hn.
  replace (2 ^ k - 1) with (Z.ones k) by (rewrite Z.ones_equiv; lia).
  rewrite Z.land_ones by done. pose proof (Z.mod_pos_bound id (2 ^ k) ltac:(apply Z.pow_pos_nonneg; lia)).
  lia.
Qed.

Lemma table_lookup s id : wf s ->
  table s !! id = autograd_contexts_ s !! shard_of s id ≫= (fun m => m !! id).
Proof.
  intros Hwf. apply (union_all_lookup (shard_of s)). intros i m k c Hi Hm.
  symmetry. by eapply wf_placed.
Qed.

(** Every id has a shard, and its entry there is its entry in the table. *)
Lemma getShard_ok s id : wf s ->
  exists shard, autograd_contexts_ s !! shard_of s id = Some shard /\
    getShard id s = (Ret shard, s) /\ shard !! id = table s !! id.
Proof.
  intros Hwf. destruct (lookup_lt_is_Some_2 _ _ (shard_lt s id Hwf)) as [shard Hs].
  exists shard. split; [done|]. unfold getShard, bind, gets. rewrite Hs. split; [done|].
  by rewrite table_lookup, Hs.
Qed.

Lemma alter_shard_lookup (g : option nat -> option nat) s id i shard :
  autograd_contexts_ (upd_autograd_contexts_ (alter (partial_alter g id) (shard_of s id)) s) !! i = Some shard ->
  exists old, autograd_contexts_ s !! i = Some old /\
    forall k, shard !! k = if decide (i = shard_of s id /\ k = id) then g (old !! id) else old !! k.
Proof.
  cbn [autograd_contexts_ upd_autograd_contexts_]. intros Hi.
  destruct (decide (i = shard_of s id)) as [->|Hne].
  - rewrite list_lookup_alter_eq in Hi. apply fmap_Some in Hi as (old & Ho & ->).
    exists old. split; [done|]. intros k. destruct (decide (k = id)) as [->|Hk].
    + rewrite decide_True by done. apply lookup_partial_alter_eq.
    + rewrite decide_False by tauto. by apply lookup_partial_alter_ne.
  - rewrite list_lookup_alter_ne in Hi by done. exists shard. split; [done|].
    intros k. by rewrite decide_False by tauto.
Qed.

(** Changing the entry of an id in its shard changes it in the table. *)
Lemma place_table (g : option nat -> option nat) s id :
  wf s ->
  (forall c, g (table s !! id) = Some c -> exists x, contexts s !! c = Some x /\ contextId_ x = id) ->
  let s' := upd_autograd_contexts_ (alter (partial_alter g id) (shard_of s id)) s in
  wf s' /\ table s' = partial_alter g id (table s).
Proof.
  intros Hwf Hg s'.
  assert (Htab : forall old, autograd_contexts_ s !! shard_of s id = Some old -> old !! id = table s !! id)
    by (intros old Ho; by rewrite table_lookup, Ho).
  assert (Hwf' : wf s').
  { split.
    - destruct Hwf as [(k & Hk & Hn & Hl) _ _]. exists k. split_and!; [done..|].
      unfold s'. simpl. by rewrite length_alter.
    - intros i shard k c Hi Hc. apply alter_shard_lookup in Hi as (old & Ho & Hsh).
      rewrite Hsh in Hc. case_decide as Hd; [by destruct Hd as [-> ->]|].
      by apply (wf_placed s Hwf i old k c).
    - intros i shard k c Hi Hc. apply alter_shard_lookup in Hi as (old & Ho & Hsh).
      rewrite Hsh in Hc. case_decide as Hd; [|by apply (wf_context s Hwf i old k c)].
      destruct Hd as [-> ->]. apply Hg. by rewrite <- (Htab old). }
  split; [done|]. apply map_eq. intros k.
  rewrite table_lookup by done. change (shard_of s' k) with (shard_of s k).
  destruct (lookup_lt_is_Some_2 (autograd_contexts_ s') (shard_of s k)) as [shard Hs].
  { pose proof (shard_lt s' k Hwf'). done. }
  rewrite Hs. simpl. apply alter_shard_lookup in Hs as (old & Ho & ->).
  assert (Hk : old !! k = table s !! k) by (by rewrite table_lookup, Ho).
  destruct (decide (k = id)) as [->|Hne].
  - rewrite decide_True by done. by rewrite lookup_partial_alter_eq, Hk.
  - rewrite decide_False by tauto. by rewrite lookup_partial_alter_ne, Hk.
Qed.

Lemma wf_same s s' :
  wf s -> num_shards_ s' = num_shards_ s -> autograd_contexts_ s' = autograd_contexts_ s ->
  (forall c x, contexts s !! c = Some x -> exists x', contexts s' !! c = Some x' /\ contextId_ x' = contextId_ x) ->
  wf s'.
Proof.
  intros [Hs Hp Hc] Hn Ha Hx. split; unfold shard_of; rewrite ?Hn, ?Ha; [done|exact Hp|].
  intros i shard id c Hi Hid. destruct (Hc i shard id c Hi Hid) as (x & H1 & <-). by apply Hx.
Qed.

Lemma table_context s id c : wf s -> table s !! id = Some c ->
  exists x, contexts s !! c = Some x /\ contextId_ x = id.
Proof.
  intros Hwf. rewrite table_lookup by done.
  destruct (autograd_contexts_ s !! shard_of s id) as [m|] eqn:Hm; [|done]. simpl.
  by apply (wf_context s Hwf _ _ _ _ Hm).
Qed.

Lemma sends_frame (l : list Z) id s :
  exists msgs, for_each l (fun w => if send_throws w then ret tt
    else modify (upd_sent (fun l => l ++ [SentCleanup w id]))) s = (Ret tt, upd_sent (fun l => l ++ msgs) s) /\
  msgs = map (fun w => SentCleanup w id) (List.filter (fun w => negb (send_throws w)) l).
Proof.
  revert s. induction l as [|w l IH]; intros s; simpl.
  - exists []. split; [|done]. unfold ret. f_equal. destruct s. unfold upd_sent. simpl. by rewrite app_nil_r.
  - unfold bind. destruct (send_throws w); simpl.
    + destruct (IH s) as (msgs & -> & ->). by eexists.
    + destruct (IH (upd_sent (fun l => l ++ [SentCleanup w id]) s)) as (msgs & E & ->).
      eexists. split; [|reflexivity]. etransitivity; [exact E|].
      f_equal. unfold upd_sent. simpl. by rewrite <- app_assoc.
Qed.

(** The messages a release sends. *)
Definition release_messages (x : DistAutogradContext G) (id : Z) : list (sent_message T) :=
  if agent_set
  then map (fun w => SentCleanup w id) (List.filter (fun w => negb (send_throws w)) (elements (knownWorkerIds_ x)))
  else [].

Lemma sendRelease_ok ws id s :
  sendReleaseContextRpc agent_set send_throws ws id s =
  (Ret tt, upd_sent (fun l => l ++ (if agent_set
     then map (fun w => SentCleanup w id) (List.filter (fun w => negb (send_throws w)) (elements ws))
     else [])) s).
Proof.
  unfold sendReleaseContextRpc. destruct agent_set.
  - destruct (sends_frame (elements ws) id s) as (msgs & -> & ->). done.
  - unfold ret. f_equal. destruct s. unfold upd_sent. simpl. by rewrite app_nil_r.
Qed.

(** What releasing a context that is present does. *)
Definition released (t : nat) (id : Z) (x : DistAutogradContext G) (s : worker T G) : worker T G :=
  let s1 := upd_autograd_contexts_ (alter (delete id) (shard_of s id)) s in
  let s2 := if current_id t s =? id then upd_current_context_id_ (insert t kInvalidContextId) s1 else s1 in
  upd_sent (fun l => l ++ release_messages x id) s2.

Lemma release_ok t id s : wf s ->
  match table s !! id with
  | None => releaseContextIfPresent agent_set send_throws t id s = (Ret tt, s) /\
            releaseContext agent_set send_throws t id s = (Throw not_found, s)
  | Some c => exists x, contexts s !! c = Some x /\ contextId_ x = id /\
      releaseContextIfPresent agent_set send_throws t id s = (Ret tt, released t id x s) /\
      releaseContext agent_set send_throws t id s = (Ret tt, released t id x s)
  end.
Proof using Type agent_set send_throws.
  intros Hwf. destruct (getShard_ok s id Hwf) as (shard & Hs & Hg & Hid).
  unfold releaseContextIfPresent, releaseContext, bind. rewrite Hg, Hid.
  destruct (table s !! id) as [c|] eqn:Hc; [|done].
  destruct (table_context s id c Hwf Hc) as (x & Hx & Hxi). exists x. split_and!; [done..| |].
  all: unfold getKnownWorkerIds, getContext, eraseContextIdAndReset, updShard, bind, gets, modify, ret;
    rewrite Hx; simpl; change (current_id t (upd_autograd_contexts_ ?f s)) with (current_id t s);
    unfold released, release_messages; destruct (current_id t s =? id); by rewrite sendRelease_ok.
Qed.

Lemma released_ok t id x s : wf s -> is_Some (table s !! id) ->
  wf (released t id x s) /\ abs (released t id x s) = spec_release t id (abs s).
Proof using Type agent_set send_throws.
  intros Hwf Hid.
  destruct (place_table (fun _ => None) s id Hwf) as [Hwf1 Ht]; [done|].
  split.
  - eapply wf_same; [exact Hwf1|..]; unfold released; destruct (current_id t s =? id); try done; eauto.
  - unfold released, abs, spec_release, spec_current, spec_set_current, spec_set_table. simpl.
    change (partial_alter (fun _ => None) id) with (delete (M := gmap Z nat) id) in Ht.
    unfold current_id. destruct (default _ _ =? id); simpl; f_equal; exact Ht.
Qed.

Lemma emplace_ok id s : wf s ->
  exists c s', emplaceContext id s = (Ret c, s') /\ wf s' /\ spec_create id (abs s) = (c, abs s') /\
    getOrCreateContext id s = (Ret c, s') /\
    exists x, contexts s' !! c = Some x /\ contextId_ x = id.
Proof.
  intros Hwf. destruct (getShard_ok s id Hwf) as (shard & Hs & Hg & Hid).
  unfold spec_create. change (sp_table (abs s)) with (table s).
  destruct (table s !! id) as [c|] eqn:Hc.
  - exists c, s. unfold getOrCreateContext, emplaceContext, bind. rewrite !Hg, Hid.
    split_and!; try done. by apply table_context.
  - set (s1 := upd_contexts (fun l => l ++ [newDistAutogradContext id]) s).
    assert (Hwf1 : wf s1).
    { apply (wf_same s); try done. intros c x Hx. exists x. split; [|done]. by apply lookup_app_l_Some. }
    assert (Hnew : contexts s1 !! length (contexts s) = Some (newDistAutogradContext id)).
    { unfold s1. simpl. apply list_lookup_middle. done. }
    destruct (place_table (fun _ => Some (length (contexts s))) s1 id Hwf1) as [Hwf2 Ht].
    { intros c [= <-]. eauto. }
    eexists _, _. split.
    { unfold emplaceContext, bind. rewrite Hg, Hid. reflexivity. }
    split; [exact Hwf2|]. split.
    { f_equal. unfold abs. simpl. f_equal; [symmetry; exact Ht|]. rewrite length_app. simpl. lia. }
    split; [|by eexists].
    unfold getOrCreateContext, emplaceContext, bind. rewrite Hg, Hid. cbv beta iota. by rewrite Hg, Hid.
Qed.


Lemma run_release_ok t id s : wf s ->
  run_cmd (CRelease t id) s = (fst (spec_cmd (CRelease t id) (abs s)), snd (run_cmd (CRelease t id) s)) /\
  wf (snd (run_cmd (CRelease t id) s)) /\
  abs (snd (run_cmd (CRelease t id) s)) = snd (spec_cmd (CRelease t id) (abs s)) /\
  run_cmd (CReleaseIfPresent t id) s =
    (fst (spec_cmd (CReleaseIfPresent t id) (abs s)), snd (run_cmd (CRelease t id) s)) /\
  abs (snd (run_cmd (CRelease t id) s)) = snd (spec_cmd (CReleaseIfPresent t id) (abs s)).
Proof using Type agent_set send_throws.
  intros Hwf. pose proof (release_ok t id s Hwf) as H. cbn [run_cmd spec_cmd]. unfold bind.
  change (sp_table (abs s)) with (table s).
  destruct (table s !! id) as [c|] eqn:Hc.
  - destruct H as (x & _ & _ & -> & ->). simpl.
    destruct (released_ok t id x s Hwf) as [Hw Ha]; [by eexists|]. done.
  - destruct H as [-> ->]. done.
Qed.

Lemma run_new_ok t s : wf s ->
  exists s', run_cmd (CNewContext t) s = (fst (spec_cmd (CNewContext t) (abs s)), s') /\ wf s' /\
    abs s' = snd (spec_cmd (CNewContext t) (abs s)).
Proof.
  intros Hwf. cbn [run_cmd spec_cmd]. unfold newContext, bind, gets, modify, assert_, lift, ocheck.
  change (spec_current t (abs s)) with (current_id t s).
  destruct (current_id t s =? kInvalidContextId); [|by eexists].
  set (s1 := upd_current_context_id_ (insert t (next_context_id_ s))
    (upd_next_context_id_ (fun n => int64 (n + 1)) s)).
  assert (Hwf1 : wf s1) by (apply (wf_same s); eauto).
  change (max_id_ s1) with (max_id_ s). change (sp_next (abs s)) with (next_context_id_ s).
  change (sp_max (spec_set_current _ _ _)) with (max_id_ s).
  destruct (next_context_id_ s <? max_id_ s); [|by exists s1].
  destruct (emplace_ok (next_context_id_ s) s1 Hwf1) as (c & s2 & E & Hwf2 & Hsp & _ & x & Hx & Hxi).
  exists s2. rewrite E. unfold getContext, bind, gets. rewrite Hx. unfold ret. rewrite Hxi.
  change (spec_set_current _ _ _) with (abs s1). by rewrite Hsp.
Qed.

Lemma run_cmd_ok c s : wf s ->
  exists s', run_cmd c s = (fst (spec_cmd c (abs s)), s') /\ wf s' /\ abs s' = snd (spec_cmd c (abs s)).
Proof using Type agent_set send_throws.
  intros Hwf. destruct c as [w|t| |id|t id|t id|id|id|t|t id|t id|].
  - cbn [run_cmd spec_cmd]. unfold init, bind, assert_, lift, gets, modify, ret, ocheck.
    destruct ((0 <=? w) && (w <=? kMaxWorkerId)); cbn [negb]; [|by eexists].
    change (sp_initialized (abs s)) with (initialized_ s). change (sp_worker (abs s)) with (worker_id_ s).
    destruct (initialized_ s) eqn:Hi; cbn [negb orb andb].
    + destruct (w =? worker_id_ s); by eexists.
    + eexists. split; [reflexivity|]. split; [apply (wf_same s); eauto|done].
  - by apply run_new_ok.
  - cbn [run_cmd spec_cmd]. unfold newAutogradMessageId, bind, assert_, lift, gets, modify, ret, ocheck.
    change (sp_message (abs s)) with (next_autograd_message_id_ s). change (sp_max (abs s)) with (max_id_ s).
    destruct (next_autograd_message_id_ s <? max_id_ s); [|by eexists].
    eexists. split; [reflexivity|]. split; [apply (wf_same s); eauto|done].
  - destruct (emplace_ok id s Hwf) as (c & s' & _ & Hwf' & Hsp & E & _).
    exists s'. cbn [run_cmd spec_cmd]. unfold bind. by rewrite E, Hsp.
  - destruct (run_release_ok t id s Hwf) as (-> & ? & ? & _). eauto.
  - destruct (run_release_ok t id s Hwf) as (_ & ? & _ & -> & ?). eauto.
  - cbn [run_cmd spec_cmd]. destruct (getShard_ok s id Hwf) as (shard & Hs & Hg & Hid).
    unfold retrieveContext, bind. rewrite Hg, Hid. change (sp_table (abs s)) with (table s).
    destruct (table s !! id); by eexists.
  - cbn [run_cmd spec_cmd]. destruct (getShard_ok s id Hwf) as (shard & Hs & Hg & Hid).
    unfold isValidContext, bind. rewrite Hg, Hid. change (sp_table (abs s)) with (table s).
    destruct (table s !! id); by eexists.
  - cbn [run_cmd spec_cmd]. destruct (getShard_ok s (current_id t s) Hwf) as (shard & Hs & Hg & Hid).
    unfold currentContext, hasValidContext, bind, gets, assert_, lift, ret.
    change (spec_current t (abs s)) with (current_id t s). change (sp_table (abs s)) with (table s).
    destruct (current_id t s =? kInvalidContextId); simpl; [by eexists|].
    rewrite Hg, Hid. destruct (table s !! _); by eexists.
  - cbn [run_cmd spec_cmd]. unfold setCurrentContextId, bind, gets, assert_, lift.
    change (spec_current t (abs s)) with (current_id t s).
    destruct (current_id t s =? kInvalidContextId); simpl; [|by eexists].
    eexists. split; [reflexivity|]. split; [apply (wf_same s); eauto|done].
  - eexists. split; [reflexivity|]. split; [apply (wf_same s); eauto|done].
  - exists s. split; [|split; [exact Hwf|done]].
    cbn [run_cmd spec_cmd fst]. unfold bind, gets, ret, numAutogradContexts. do 4 f_equal.
    change (sp_table (abs s)) with (table s). symmetry. apply (union_all_size (shard_of s) _ 0).
    intros i m id c Hi Hm. simpl. symmetry. by eapply wf_placed.
Qed.

Lemma construct_wf k localId : 0 <= k < 32 ->
  exists s, construct (2 ^ k) localId = Ret s /\ wf s /\ abs s = mkSpec 0 0 0 0 false ∅ ∅ 0.
Proof.
  intros Hk. unfold construct, ocheck.
  rewrite uint32_id by (unfold in_uint32; pose proof (Z.pow_lt_mono_r 2 k 32); lia).
  assert (Z.land (2 ^ k) (2 ^ k - 1) = 0) as ->.
  { replace (2 ^ k - 1) with (Z.ones k) by (rewrite Z.ones_equiv; lia).
    rewrite Z.land_ones by lia. by rewrite Z.mod_same by (apply Z.pow_nonzero; lia). }
  simpl. eexists. split; [reflexivity|].
  assert (Hempty : forall n, union_all (replicate n ∅) = ∅).
  { induction n as [|n IH]; simpl; [done|]. rewrite IH. apply (left_id_L ∅ (∪)). }
  split; [|unfold abs, table; simpl; by rewrite Hempty]. split.
  - exists k. split_and!; [lia|done|]. simpl. apply length_replicate.
  - intros i m id c Hi Hm. simpl in Hi. apply lookup_replicate in Hi as [-> _]. done.
  - intros i m id c Hi Hm. simpl in Hi. apply lookup_replicate in Hi as [-> _]. done.
Qed.

(** *** The ids that are handed out *)

(** The ids of new contexts, and of new autograd messages, among the replies. *)
Definition context_ids (os : list (outcome reply)) : list Z :=
  omap (fun o => match o with Ret (RNew id _) => Some id | _ => None end) os.
Definition message_ids (cs : list cmd) (os : list (outcome reply)) : list Z :=
  omap (fun co => match co with (CNewMessageId, Ret (RId id)) => Some id | _ => None end) (zip cs os).

(** The worker an id says it was made by: its upper 16 bits. *)
Definition id_owner (id : Z) : Z := Z.land (Z.shiftr id kAutoIncrementBits) kMaxWorkerId.

Definition id_base (w : Z) : Z := int64 (Z.shiftl w kAutoIncrementBits).

Lemma id_base_spec w : 0 <= w <= kMaxWorkerId ->
  id_base w = (w - (if w <? 32768 then 0 else 65536)) * 2 ^ 48.
Proof.
  unfold kMaxWorkerId, id_base, int64, swrap, wrap, kAutoIncrementBits. intros Hw.
  rewrite Z.shiftl_mul_pow2 by lia. change (2 ^ (64 - 1)) with 9223372036854775808.
  rewrite Z.mod_small by lia.
  destruct (Z.ltb_spec w 32768), (Z.ltb_spec (w * 2 ^ 48) 9223372036854775808); lia.
Qed.

Lemma id_max_spec w : 0 <= w <= kMaxWorkerId ->
  Z.lor kAutoIncrementMask (id_base w) = id_base w + 2 ^ 48 - 1.
Proof.
  intros Hw. rewrite (id_base_spec w Hw). set (q := w - _).
  change kAutoIncrementMask with (Z.ones 48). rewrite Z.lor_comm, <- Z.shiftl_mul_pow2 by lia.
  assert (Hland : Z.land (Z.shiftl q 48) (Z.ones 48) = 0).
  { rewrite Z.land_ones, Z.shiftl_mul_pow2 by lia. apply Z.mod_mul. lia. }
  pose proof (Z.add_lor_land (Z.shiftl q 48) (Z.ones 48)) as H. rewrite Hland, Z.add_0_r in H.
  rewrite H, Z.shiftl_mul_pow2 by lia. change (Z.ones 48) with (2 ^ 48 - 1). lia.
Qed.

Lemma id_owner_spec w id : 0 <= w <= kMaxWorkerId -> id_base w <= id < id_base w + 2 ^ 48 ->
  id_owner id = w.
Proof.
  intros Hw. rewrite (id_base_spec w Hw). unfold id_owner, kAutoIncrementBits, kMaxWorkerId in *. intros Hid.
  change 65535 with (Z.ones 16). rewrite Z.land_ones, Z.shiftr_div_pow2 by lia.
  assert (id / 2 ^ 48 = w - (if w <? 32768 then 0 else 65536)) as ->.
  { symmetry. apply Z.div_unique_pos with (r := id - (w - (if w <? 32768 then 0 else 65536)) * 2 ^ 48); lia. }
  destruct (w <? 32768).
  - rewrite Z.sub_0_r. apply Z.mod_small. lia.
  - symmetry. apply Z.mod_unique_pos with (q := -1); lia.
Qed.

Record ids_inv (w n : Z) (sp : spec) : Prop := {
  ids_worker : 0 <= w <= kMaxWorkerId;
  ids_init : sp_initialized sp = true;
  ids_max : sp_max sp = id_base w + 2 ^ 48 - 1;
  ids_next : id_base w <= sp_next sp <= id_base w + n;
  ids_message : id_base w <= sp_message sp <= sp_max sp;
}.

Lemma ids_bounds w n sp : ids_inv w n sp -> n < 2 ^ 48 - 1 ->
  in_int64 (sp_next sp + 1) /\ (sp_message sp < sp_max sp -> in_int64 (sp_message sp + 1)) /\ sp_max sp <= 2 ^ 63 - 1.
Proof.
  intros [Hw _ Hm Hn Hg] Hl. rewrite (id_base_spec w Hw) in *. unfold kMaxWorkerId, in_int64 in *.
  destruct (w <? 32768) eqn:E; [apply Z.ltb_lt in E|apply Z.ltb_ge in E]; lia.
Qed.

Lemma spec_create_next id sp :
  sp_next (snd (spec_create id sp)) = sp_next sp /\ sp_message (snd (spec_create id sp)) = sp_message sp /\
  sp_max (snd (spec_create id sp)) = sp_max sp /\ sp_initialized (snd (spec_create id sp)) = sp_initialized sp.
Proof. unfold spec_create. by destruct (sp_table sp !! id). Qed.

(** The commands that leave the two counters alone. *)
#[local] Ltac ids_same Hsame :=
  repeat case_match; simpl; (split_and!; [by apply Hsame|lia|lia|done|done]).

Lemma spec_cmd_ids w n sp c : ids_inv w n sp -> n < 2 ^ 48 - 1 ->
  ids_inv w (n + 1) (snd (spec_cmd c sp)) /\
  sp_next sp <= sp_next (snd (spec_cmd c sp)) /\ sp_message sp <= sp_message (snd (spec_cmd c sp)) /\
  (forall id x, fst (spec_cmd c sp) = Ret (RNew id x) ->
     id = sp_next sp /\ id < sp_max sp /\ sp_next (snd (spec_cmd c sp)) = id + 1) /\
  (forall id, c = CNewMessageId -> fst (spec_cmd c sp) = Ret (RId id) ->
     id = sp_message sp /\ id < sp_max sp /\ sp_message (snd (spec_cmd c sp)) = id + 1).
Proof.
  intros Hinv Hn. destruct (ids_bounds w n sp Hinv Hn) as (Hb1 & Hb2 & _).
  assert (Hsame : forall sp', sp_next sp' = sp_next sp -> sp_message sp' = sp_message sp ->
    sp_max sp' = sp_max sp -> sp_initialized sp' = sp_initialized sp -> ids_inv w (n + 1) sp').
  { intros sp' E1 E2 E3 E4. destruct Hinv as [H1 H2 H3 H4 H5]. split; rewrite ?E1, ?E2, ?E3, ?E4; try done; lia. }
  pose proof (ids_init _ _ _ Hinv) as Hi.
  destruct c as [v|t| |id|t id|t id|id|id|t|t id|t id|]; cbn [spec_cmd].
  - rewrite Hi. ids_same Hsame.
  - destruct (spec_current t sp =? kInvalidContextId); [|ids_same Hsame].
    rewrite int64_id by done.
    change (sp_max (spec_set_current _ _ _)) with (sp_max sp).
    set (sp1 := spec_set_current _ _ _).
    destruct (spec_create_next (sp_next sp) sp1) as (E1 & E2 & E3 & E4).
    assert (H1 : ids_inv w (n + 1) sp1) by (destruct Hinv; split; simpl; try done; lia).
    destruct (Z.ltb_spec (sp_next sp) (sp_max sp)).
    + destruct (spec_create (sp_next sp) sp1) as [x sp2]. simpl in *.
      split_and!; [destruct H1; split; rewrite ?E1, ?E2, ?E3, ?E4; done|lia|lia| |done].
      intros id y [= <- _]. lia.
    + simpl. split_and!; [done|lia|lia|done|done].
  - destruct (Z.ltb_spec (sp_message sp) (sp_max sp)) as [Hlt|Hge]; simpl.
    + rewrite int64_id by auto. split_and!; [destruct Hinv; split; simpl; try done; lia|lia|lia|done|].
      intros id _ [= <-]. lia.
    + ids_same Hsame.
  - destruct (spec_create_next id sp) as (E1 & E2 & E3 & E4).
    destruct (spec_create id sp) as [x sp2]. simpl in *. ids_same Hsame.
  - unfold spec_release. ids_same Hsame.
  - unfold spec_release. ids_same Hsame.
  - ids_same Hsame.
  - ids_same Hsame.
  - ids_same Hsame.
  - ids_same Hsame.
  - ids_same Hsame.
  - ids_same Hsame.
Qed.

Lemma sorted_cons_from (l : list Z) id lo hi :
  StronglySorted Z.lt l -> Forall (fun i => lo <= i < hi) l -> id < lo -> id < hi ->
  StronglySorted Z.lt (id :: l) /\ Forall (fun i => id <= i < hi) (id :: l).
Proof.
  intros Hs Hl Hlo Hhi. split.
  - apply SSorted_cons; [done|]. eapply Forall_impl; [exact Hl|]. intros i Hi; cbv beta in *; lia.
  - apply Forall_cons. split; [lia|]. eapply Forall_impl; [exact Hl|]. intros i Hi; cbv beta in *; lia.
Qed.

Lemma Forall_from (l : list Z) lo lo' hi :
  lo <= lo' -> Forall (fun i => lo' <= i < hi) l -> Forall (fun i => lo <= i < hi) l.
Proof. intros H Hl. eapply Forall_impl; [exact Hl|]; intros i Hi; cbv beta in *; lia. Qed.

Lemma spec_run_ids w cs : forall n sp, ids_inv w n sp -> n + Z.of_nat (length cs) < 2 ^ 48 ->
  let os := fst (spec_run cs sp) in
  let hi := id_base w + 2 ^ 48 - 1 in
  (StronglySorted Z.lt (context_ids os) /\ Forall (fun id => sp_next sp <= id < hi) (context_ids os)) /\
  (StronglySorted Z.lt (message_ids cs os) /\ Forall (fun id => sp_message sp <= id < hi) (message_ids cs os)).
Proof.
  induction cs as [|c cs IH]; intros n sp Hinv Hlen os hi.
  { split; split; constructor. }
  rewrite length_cons in Hlen.
  destruct (spec_cmd_ids w n sp c Hinv ltac:(lia)) as (Hinv' & Hn & Hm & Hcid & Hmid).
  pose proof (ids_max _ _ _ Hinv) as Hmax.
  unfold os. cbn [spec_run]. destruct (spec_cmd c sp) as [o sp']. cbn [fst snd] in *.
  destruct (IH (n + 1) sp' Hinv' ltac:(lia)) as ([H1 H2] & [H3 H4]).
  destruct (spec_run cs sp') as [os' sp'']. cbn [fst snd] in *.
  unfold context_ids, message_ids. cbn [omap list_omap zip zip_with].
  fold (context_ids os') (message_ids cs os'). split.
  - destruct o as [[|id x| |]| |]; cbn; try (split; [done|by eapply Forall_from]).
    destruct (Hcid id x eq_refl) as (-> & Hlt & Hnext). apply (sorted_cons_from _ _ (sp_next sp')); try done; lia.
  - assert (Hskip : StronglySorted Z.lt (message_ids cs os') /\
      Forall (fun id => sp_message sp <= id < hi) (message_ids cs os')) by (split; [done|by eapply Forall_from]).
    destruct c; try exact Hskip. destruct o as [[| | |id]| |]; try exact Hskip.
    destruct (Hmid id eq_refl eq_refl) as (-> & Hlt & Hnext).
    apply (sorted_cons_from _ _ (sp_message sp')); try done; lia.
Qed.

Lemma spec_init_ids w : 0 <= w <= kMaxWorkerId ->
  ids_inv w 0 (snd (spec_cmd (CInit w) (mkSpec 0 0 0 0 false ∅ ∅ 0))) /\
  fst (spec_cmd (CInit w) (mkSpec 0 0 0 0 false ∅ ∅ 0)) = Ret RUnit.
Proof.
  intros Hw. cbn [spec_cmd]. rewrite (proj2 (andb_true_iff _ _)) by (split; apply Z.leb_le; lia).
  cbn [sp_initialized andb negb fst snd]. split; [|done].
  change (int64 (Z.shiftl w kAutoIncrementBits)) with (id_base w). rewrite (id_max_spec w Hw).
  split; cbn [sp_next sp_message sp_max sp_initialized]; (done || lia).
Qed.

Lemma run_cmds_ok cs : forall s, wf s ->
  fst (run_cmds cs s) = fst (spec_run cs (abs s)) /\ abs (snd (run_cmds cs s)) = snd (spec_run cs (abs s)).
Proof using Type agent_set send_throws.
  induction cs as [|c cs IH]; intros s Hwf; [done|].
  simpl. destruct (run_cmd_ok c s Hwf) as (s' & E & Hwf' & Ha'). rewrite E.
  destruct (spec_cmd c (abs s)) as [o sp]. simpl in Ha'. subst sp. destruct (IH s' Hwf') as [H1 H2].
  destruct (run_cmds cs s') as [os s'']. destruct (spec_run cs (abs s')) as [os' sp'].
  simpl in *. by rewrite H1.
Qed.

(** C25: the container is one table from ids to contexts, in spite of its
    shards: for every power of two of shards below 2^32, every sequence of
    calls of any threads returns what the reference map returns, call by call,
    errors included, and the number of contexts is the size of the map. *)
Theorem autograd_container_refines_map (k localId : Z) (cs : list cmd) :
  0 <= k < 32 ->
  exists s, construct (2 ^ k) localId = Ret s /\
    fst (run_cmds cs s) = fst (spec_run cs (mkSpec 0 0 0 0 false ∅ ∅ 0)) /\
    abs (snd (run_cmds cs s)) = snd (spec_run cs (mkSpec 0 0 0 0 false ∅ ∅ 0)).
Proof using Type agent_set send_throws.
  intros Hk. destruct (construct_wf k localId Hk) as (s & Hs & Hwf & <-). exists s. split; [done|].
  by apply run_cmds_ok.
Qed.

(** C36: after init with a worker id the ids of contexts and of messages that a
    container hands out are strictly increasing, carry that worker id in their
    upper 16 bits and are never the invalid id, whatever else is called
    (releases, re-initialisations, failing calls) in up to 2^48 - 2 calls: two
    workers, or two calls, never get the same id. *)
Theorem autograd_ids_unique (k localId w : Z) (cs : list cmd) :
  0 <= k < 32 -> 0 <= w <= kMaxWorkerId -> Z.of_nat (length cs) < 2 ^ 48 ->
  exists s, construct (2 ^ k) localId = Ret s /\ exists os, fst (run_cmds (CInit w :: cs) s) = Ret RUnit :: os /\
    (forall ids, ids = context_ids os \/ ids = message_ids cs os ->
      StronglySorted Z.lt ids /\ Forall (fun id => id_owner id = w /\ id <> kInvalidContextId /\ in_int64 (id + 1)) ids).
Proof using Type agent_set send_throws.
  intros Hk Hw Hlen. destruct (construct_wf k localId Hk) as (s & Hs & Hwf & Ha). exists s. split; [done|].
  destruct (run_cmds_ok (CInit w :: cs) s Hwf) as [-> _]. rewrite Ha. clear s Hs Hwf Ha.
  destruct (spec_init_ids w Hw) as [Hinv Hret]. cbn [spec_run].
  destruct (spec_cmd (CInit w) _) as [o sp]. cbn [fst snd] in *. subst o.
  pose proof (spec_run_ids w cs 0 sp Hinv Hlen) as H.
  destruct (spec_run cs sp) as [os sp']. cbn [fst] in *. exists os. split; [done|].
  assert (Hall : forall lo ids, id_base w <= lo -> Forall (fun id => lo <= id < id_base w + 2 ^ 48 - 1) ids ->
    Forall (fun id => id_owner id = w /\ id <> kInvalidContextId /\ in_int64 (id + 1)) ids).
  { intros lo ids Hlo Hids. eapply Forall_impl; [exact Hids|]. intros id Hid. cbv beta in Hid.
    split; [apply id_owner_spec; [done|lia]|]. pose proof (id_base_spec w Hw) as Hb.
    unfold kInvalidContextId, kMaxWorkerId, in_int64 in *.
    destruct (Z.ltb_spec w 32768); lia. }
  destruct H as [[H1 H2] [H3 H4]]. intros ids [-> | ->]; (split; [done|]); (eapply Hall; [|eassumption]); destruct Hinv; lia.
Qed.

(** *** The number of shards *)

Lemma shard_loop_ok target j : 0 <= j < 32 -> target <= 2 ^ j ->
  forall fuel i, 0 <= i <= j -> j - i <= Z.of_nat fuel -> (i = 0 \/ 2 ^ (i - 1) < target) ->
  exists k, shard_loop fuel (2 ^ i) target = Ret (2 ^ k) /\ i <= k <= j /\ target <= 2 ^ k /\
    (k = 0 \/ 2 ^ (k - 1) < target).
Proof.
  intros Hj Ht. induction fuel as [|fuel IH]; intros i Hi Hf Hlow.
  - assert (i = j) as -> by lia. exists j. simpl. destruct (Z.ltb_spec (2 ^ j) target); [lia|]. split_and!; done || lia.
  - simpl. destruct (Z.ltb_spec (2 ^ i) target) as [Hlt|Hge].
    + assert (i < j). { destruct (decide (i = j)) as [->|]; lia. }
      rewrite Z.shiftl_mul_pow2 by lia. change (2 ^ 1) with 2. rewrite Z.mul_comm, <- Z.pow_succ_r by lia.
      rewrite uint32_id by (unfold in_uint32; pose proof (Z.pow_le_mono_r 2 (Z.succ i) 31); lia).
      destruct (IH (Z.succ i)) as (k & Hk & H1 & H2 & H3); [lia..| |].
      * right. by replace (Z.succ i - 1) with i by lia.
      * exists k. split_and!; done || lia.
    + exists i. split_and!; done || lia.
Qed.

(** Up to 2^30 hardware threads the loop ends with a power of two that is at
    least twice, and less than four times, their number. *)
Lemma computeNumShards_ok hw : 0 <= hw <= 2 ^ 30 ->
  exists k, computeNumShards hw = Ret (2 ^ k) /\ 0 <= k < 32 /\
    (if hw =? 0 then 2 ^ k = kNumDefaultShards else hw * 2 <= 2 ^ k < hw * 4).
Proof.
  intros Hhw. unfold computeNumShards. destruct (Z.eqb_spec hw 0) as [->|Hne]; [by exists 7|].
  rewrite uint32_id by (unfold in_uint32; lia).
  destruct (shard_loop_ok (hw * 2) 31 ltac:(lia) ltac:(lia) 32 0) as (k & Hk & H1 & H2 & H3); [lia|lia|by left|].
  exists k. split_and!; [exact Hk|lia..|]. destruct H3 as [->|H3]; [lia|].
  destruct (decide (k = 0)) as [->|]; [lia|].
  replace k with (Z.succ (k - 1)) by lia. rewrite Z.pow_succ_r by lia. lia.
Qed.

(** Above 2^31 - 2^0 shards the counter wraps to zero and stays there. *)
Lemma shard_loop_zero target : 0 < target -> forall fuel, shard_loop fuel 0 target = Block.
Proof.
  intros Ht. induction fuel as [|fuel IH]; simpl; (destruct (Z.ltb_spec 0 target); [|lia]); [done|exact IH].
Qed.

Lemma computeNumShards_loops hw : 2 ^ 30 < hw < 2 ^ 31 ->
  forall fuel, shard_loop (32 + fuel) 1 (uint32 (hw * 2)) = Block.
Proof.
  intros Hhw fuel. rewrite uint32_id by (unfold in_uint32; lia).
  assert (Hi : forall n m, Z.of_nat n + Z.of_nat m = 31 -> 
    shard_loop (n + S fuel) (2 ^ Z.of_nat m) (hw * 2) = shard_loop (S fuel) (2 ^ 31) (hw * 2)).
  { induction n as [|n IH]; intros m Hm; [by replace (Z.of_nat m) with 31 by lia|].
    simpl. pose proof (Z.pow_le_mono_r 2 (Z.of_nat m) 30 ltac:(lia) ltac:(lia)).
    destruct (Z.ltb_spec (2 ^ Z.of_nat m) (hw * 2)); [|lia].
    rewrite Z.shiftl_mul_pow2, Z.mul_comm by lia. change (2 ^ 1) with 2. rewrite <- Z.pow_succ_r by lia.
    rewrite uint32_id by (unfold in_uint32; pose proof (Z.pow_le_mono_r 2 (Z.succ (Z.of_nat m)) 31); lia).
    rewrite <- Nat2Z.inj_succ. apply IH. lia. }
  change (32 + fuel)%nat with (31 + S fuel)%nat || replace (32 + fuel)%nat with (31 + S fuel)%nat by lia.
  etransitivity; [exact (Hi 31%nat 0%nat ltac:(lia))|].
  simpl. destruct (Z.ltb_spec (2 ^ 31) (hw * 2)); [|lia].
  change (uint32 (Z.shiftl _ 1)) with 0. by apply shard_loop_zero; lia.
Qed.
End container.

(** ** Waiting for the outstanding RPCs *)

(** The first error among the results, or completion once all [n] are values. *)
Fixpoint first_error (rs : list (option exn)) : option exn :=
  match rs with
  | [] => None
  | Some e :: _ => Some e
  | None :: rs => first_error rs
  end.
Definition verdict (n : nat) (rs : list (option exn)) : result :=
  match first_error rs with
  | Some e => Some (Some e)
  | None => if (length rs =? n)%nat then Some None else None
  end.

(** The results of futures of [l] that are there, in the order of the list. *)
Definition known_results {T G} (s : worker T G) (l : list nat) : list (option exn) :=
  omap (fun i => futures s !! i ≫= fut_result) l.
Definition pending {T G} (s : worker T G) (i : nat) : bool :=
  match futures s !! i with Some (mkFuture None _) => true | _ => false end.
(** The results the agent delivers for futures of [open], in order of arrival;
    a second result for the same future does not count. *)
Fixpoint arrivals (open : list nat) (evs : list (nat * option exn)) : list (option exn) :=
  match evs with
  | [] => []
  | (i, r) :: evs =>
      if bool_decide (i ∈ open) then r :: arrivals (List.filter (fun j => negb (j =? i)%nat) open) evs
      else arrivals open evs
  end.
Definition deliver {T G} (evs : list (nat * option exn)) : M (worker T G) unit :=
  for_each evs (fun ev => complete ev.1 ev.2).

Section waiting.
Context {T G : Type}.
Implicit Types s : worker T G.
#[local] Set Default Proof Using "Type".
#[local] Set Proof Using Clear Unused.

(** Callbacks of pending futures refer to contexts and waits that exist. *)
Definition callbacks_ok s : Prop :=
  forall i f cb, futures s !! i = Some f -> cb ∈ fut_callbacks f ->
    match cb with
    | CbOutstanding c => is_Some (contexts s !! c)
    | CbWait w => (w < length (waits s))%nat
    end.

Definition is_wait (w : nat) (cb : fut_callback) : bool :=
  match cb with CbWait w' => (w' =? w)%nat | CbOutstanding _ => false end.
Definition waits_in (w : nat) (cbs : list fut_callback) : nat := length (List.filter (is_wait w) cbs).

(** The state of a wait for [n] futures after the results [rs]. *)
Definition values (rs : list (option exn)) : list (option exn) :=
  List.filter (fun r => match r with None => true | Some _ => false end) rs.
Definition wait_state (n : nat) (rs : list (option exn)) : WaitState :=
  mkWait (verdict n rs) (Z.of_nat n - Z.of_nat (length (values rs))) (bool_decide (is_Some (first_error rs))).

Lemma first_error_app rs rs' :
  first_error (rs ++ rs') = match first_error rs with Some e => Some e | None => first_error rs' end.
Proof. induction rs as [|[e|] rs IH]; simpl; done. Qed.

Lemma values_length rs :
  (length (values rs) <= length rs)%nat /\
  match first_error rs with
  | None => length (values rs) = length rs
  | Some _ => (length (values rs) < length rs)%nat
  end.
Proof.
  unfold values. induction rs as [|[e|] rs [IH1 IH2]]; simpl; [done|lia|].
  destruct (first_error rs); lia.
Qed.

Lemma wait_step_ok n r rs : (length rs < n)%nat -> Z.of_nat n < 2 ^ 31 ->
  wait_step r (wait_state n rs) = wait_state n (rs ++ [r]).
Proof.
  intros Hlen Hn. destruct (values_length rs) as [H1 H2].
  unfold wait_state, verdict, wait_step. cbn [w_remaining w_future w_alreadySentError].
  rewrite first_error_app. unfold values. rewrite List.filter_app, !length_app. fold (values rs).
  destruct r as [e|]; cbn [List.filter length first_error].
  - destruct (first_error rs) as [e'|]; cbn; [do 2 f_equal; lia|].
    destruct (Nat.eqb_spec (length rs) n); [lia|]. f_equal. lia.
  - rewrite int32_id by (unfold in_int32; lia).
    destruct (first_error rs) as [e'|].
    + destruct (Z.eqb_spec (Z.of_nat n - Z.of_nat (length (values rs)) - 1) 0); [lia|]. f_equal. lia.
    + destruct (Nat.eqb_spec (length rs) n); [lia|]. rewrite H2.
      destruct (Z.eqb_spec (Z.of_nat n - Z.of_nat (length rs) - 1) 0), (Nat.eqb_spec (length rs + 1) n);
        try lia; f_equal; lia.
Qed.

Lemma callbacks_ok_frame s s' : callbacks_ok s -> futures s' = futures s ->
  length (contexts s') = length (contexts s) -> length (waits s') = length (waits s) -> callbacks_ok s'.
Proof.
  intros H Hf Hc Hw i f cb. rewrite Hf, Hw. intros Hi Hcb. specialize (H i f cb Hi Hcb).
  destruct cb; [|done]. apply lookup_lt_is_Some in H. apply lookup_lt_is_Some. lia.
Qed.

(** Running the callbacks of a future: a wait makes as many steps as it has
    callbacks among them; nothing else that matters here changes. *)
Lemma run_callbacks_ok w r cbs : forall s,
  (forall c, CbOutstanding c ∈ cbs -> is_Some (contexts s !! c)) ->
  exists s', for_each cbs (run_fut_callback r) s = (Ret tt, s') /\
    futures s' = futures s /\ contexts s' = contexts s /\ length (waits s') = length (waits s) /\
    waits s' !! w = Nat.iter (waits_in w cbs) (wait_step r) <$> waits s !! w.
Proof.
  induction cbs as [|cb cbs IH]; intros s Hc; simpl.
  - exists s. split_and!; try done. by destruct (waits s !! w).
  - unfold bind.
    assert (Hrest : forall s1, contexts s1 = contexts s -> forall c, CbOutstanding c ∈ cbs -> is_Some (contexts s1 !! c)).
    { intros s1 -> c Hin. apply Hc. by apply list_elem_of_further. }
    destruct cb as [c|w']; cbn [run_fut_callback].
    + assert (exists s1, outstanding_done c r s = (Ret tt, s1) /\ futures s1 = futures s /\
        contexts s1 = contexts s /\ waits s1 = waits s) as (s1 & -> & E1 & E2 & E3).
      { unfold outstanding_done, getContext, bind, gets, modify, ret. destruct r as [e|]; [|by exists s].
        destruct (Hc c) as [x ->]; [by apply list_elem_of_here|]. destruct (graphTask_ x); by eexists. }
      destruct (IH s1 (Hrest s1 E2)) as (s2 & -> & F1 & F2 & F3 & F4). exists s2.
      rewrite F1, F2, F3, F4, E1, E2, E3. done.
    + unfold wait_done, modify at 1. set (s1 := upd_waits _ s).
      destruct (IH s1 (Hrest s1 eq_refl)) as (s2 & -> & F1 & F2 & F3 & F4). exists s2.
      rewrite F1, F2, F3, F4. split_and!; try done; [by unfold s1; simpl; rewrite length_alter|].
      unfold s1, waits_in. simpl. destruct (Nat.eqb_spec w' w) as [->|Hne].
      * rewrite list_lookup_alter_eq. simpl. destruct (waits s !! w) as [st|]; [|done]. simpl.
        by rewrite <- Nat.iter_succ_r.
      * by rewrite list_lookup_alter_ne.
Qed.

(** A wait [w] for [n] futures, of which those of [open] are pending and the
    others gave the results [rs]. *)
Record wait_inv (n w : nat) (open : list nat) (rs : list (option exn)) s : Prop := {
  wi_callbacks : callbacks_ok s;
  wi_state : waits s !! w = Some (wait_state n rs);
  wi_open : forall i, i ∈ open -> pending s i = true;
  wi_counts : forall i cbs, futures s !! i = Some (mkFuture None cbs) ->
    waits_in w cbs = if bool_decide (i ∈ open) then 1%nat else 0%nat;
  wi_room : (length rs + length open <= n)%nat;
  wi_bound : Z.of_nat n < 2 ^ 31;
}.

Lemma elem_of_remove (i j : nat) open : j ∈ List.filter (fun j => negb (j =? i)%nat) open <-> j ∈ open /\ j <> i.
Proof. rewrite !list_elem_of_In, filter_In. destruct (Nat.eqb_spec j i); simpl; split; intros []; (done || by split). Qed.

Lemma length_remove (i : nat) open : i ∈ open ->
  (length (List.filter (fun j => negb (j =? i)%nat) open) < length open)%nat.
Proof.
  induction open as [|j open IH]; intros Hi; [by apply elem_of_nil in Hi|].
  cbn [List.filter]. destruct (Nat.eqb_spec j i) as [->|Hne]; cbn [negb length].
  - pose proof (List.filter_length_le (fun j => negb (j =? i)%nat) open). lia.
  - apply elem_of_cons in Hi as [->|Hi]; [done|]. specialize (IH Hi). lia.
Qed.

Lemma complete_wait n w open rs i r s : wait_inv n w open rs s ->
  exists s', complete i r s = (Ret tt, s') /\
    if bool_decide (i ∈ open) then wait_inv n w (List.filter (fun j => negb (j =? i)%nat) open) (rs ++ [r]) s'
    else wait_inv n w open rs s'.
Proof.
  intros [Hcb Hst Hop Hct Hroom Hb]. unfold complete, bind at 1, gets at 1.
  destruct (futures s !! i) as [[[r0|] cbs]|] eqn:Hi.
  1,3: exists s; (split; [done|]); rewrite bool_decide_false; [done|]; intros Hin;
    specialize (Hop i Hin); unfold pending in Hop; by rewrite Hi in Hop.
  unfold bind, modify. set (s1 := upd_futures _ s).
  destruct (run_callbacks_ok w r cbs s1) as (s2 & -> & F1 & F2 & F3 & F4).
  { intros c Hc. by apply (Hcb i _ (CbOutstanding c) Hi). }
  exists s2. split; [done|].
  assert (Hlook : forall j, j <> i -> futures s2 !! j = futures s !! j).
  { intros j Hj. rewrite F1. unfold s1. simpl. by rewrite list_lookup_insert_ne. }
  assert (Hself : futures s2 !! i = Some (mkFuture (Some r) [])).
  { rewrite F1. unfold s1. simpl. apply list_lookup_insert_eq. by eapply lookup_lt_Some. }
  assert (Hcb2 : callbacks_ok s2).
  { intros j f cb Hj Hin. destruct (decide (j = i)) as [->|Hne].
    - rewrite Hself in Hj. injection Hj as <-. by apply elem_of_nil in Hin.
    - rewrite Hlook in Hj by done. specialize (Hcb j f cb Hj Hin). destruct cb; [by rewrite F2|by rewrite F3]. }
  rewrite (Hct i cbs Hi) in F4. unfold s1 in F4. cbn [waits upd_futures] in F4. rewrite Hst in F4.
  case_bool_decide as Hin; cbn [Nat.iter nat_rect fmap option_fmap option_map] in F4.
  - pose proof (length_remove i open Hin). rewrite wait_step_ok in F4 by lia.
    split; try done.
    + intros j [Hj Hne]%elem_of_remove. specialize (Hop j Hj). unfold pending. by rewrite Hlook.
    + intros j cbs' Hj. destruct (decide (j = i)) as [->|Hne]; [by rewrite Hself in Hj|].
      rewrite Hlook in Hj by done. rewrite (Hct j cbs' Hj).
      destruct (decide (j ∈ open)).
      * rewrite !bool_decide_true; [done|by apply elem_of_remove|done].
      * rewrite !bool_decide_false; [done|by rewrite elem_of_remove; tauto|done].
    + rewrite length_app. simpl. lia.
  - split; try done.
    + intros j Hj. specialize (Hop j Hj). unfold pending. rewrite Hlook; [done|by intros ->].
    + intros j cbs' Hj. destruct (decide (j = i)) as [->|Hne]; [by rewrite Hself in Hj|].
      rewrite Hlook in Hj by done. by apply Hct.
Qed.

Lemma deliver_wait n w evs : forall open rs s, wait_inv n w open rs s ->
  exists s' open', deliver evs s = (Ret tt, s') /\ wait_inv n w open' (rs ++ arrivals open evs) s'.
Proof.
  induction evs as [|[i r] evs IH]; intros open rs s Hinv; cbn [arrivals].
  - exists s, open. by rewrite app_nil_r.
  - unfold deliver. cbn [for_each]. unfold bind. cbn [fst snd].
    destruct (complete_wait n w open rs i r s Hinv) as (s1 & -> & Hinv1).
    case_bool_decide; destruct (IH _ _ _ Hinv1) as (s2 & open' & E & Hinv2); exists s2, open'; (split; [exact E|]).
    + by rewrite <- app_assoc in Hinv2.
    + done.
Qed.

Lemma addCallback_wait n w open rs i s : wait_inv n w open rs s -> i ∉ open -> is_Some (futures s !! i) ->
  (length rs + length open < n)%nat ->
  exists s', addCallback i (CbWait w) s = (Ret tt, s') /\
    (forall j, (fut_result <$> futures s' !! j) = (fut_result <$> futures s !! j)) /\
    match futures s !! i ≫= fut_result with
    | Some r => wait_inv n w open (rs ++ [r]) s'
    | None => wait_inv n w (open ++ [i]) rs s'
    end.
Proof.
  intros [Hcb Hst Hop Hct Hroom Hb] Hi [[[r|] cbs] Hf] Hlt; unfold addCallback, bind, gets; rewrite Hf; simpl.
  - eexists. split; [reflexivity|]. split; [done|]. split; try done.
    + intros j f cb Hj Hin. specialize (Hcb j f cb Hj Hin). destruct cb; [done|]. simpl. by rewrite length_alter.
    + simpl. rewrite list_lookup_alter_eq, Hst. simpl. by rewrite wait_step_ok by lia.
    + rewrite length_app. simpl. lia.
  - eexists. split; [reflexivity|]. 
    assert (Hself : forall g, alter g i (futures s) !! i = Some (g (mkFuture None cbs)))
      by (intros g; by rewrite list_lookup_alter_eq, Hf).
    split.
    + intros j. simpl. destruct (decide (j = i)) as [->|Hne]; [by rewrite Hself, Hf|by rewrite list_lookup_alter_ne].
    + split; try done; cbn [futures upd_futures contexts waits].
      * intros j f cb. cbn [futures upd_futures contexts waits]. destruct (decide (j = i)) as [->|Hne].
        -- rewrite Hself. intros [= <-] [Hin|Hin%list_elem_of_singleton]%elem_of_app; [by apply (Hcb i _ cb Hf)|].
           subst cb. simpl. by eapply lookup_lt_Some.
        -- rewrite list_lookup_alter_ne by done. apply Hcb.
      * intros j [Hj|Hj%list_elem_of_singleton]%elem_of_app; unfold pending; simpl.
        -- rewrite list_lookup_alter_ne by (by intros ->). by apply Hop.
        -- subst j. by rewrite Hself.
      * intros j cbs' Hj. destruct (decide (j = i)) as [->|Hne].
        -- rewrite Hself in Hj. injection Hj as <-. unfold waits_in. simpl.
           rewrite List.filter_app, length_app. fold (waits_in w cbs). rewrite (Hct i cbs Hf).
           rewrite bool_decide_false by done. cbn. rewrite Nat.eqb_refl.
           by rewrite bool_decide_true by (apply elem_of_app; right; by apply list_elem_of_singleton).
        -- rewrite list_lookup_alter_ne in Hj by done. rewrite (Hct j cbs' Hj).
           destruct (decide (j ∈ open)).
           ++ rewrite !bool_decide_true; [done|by apply elem_of_app; left|done].
           ++ rewrite !bool_decide_false; [done| |done].
              intros [?|?%list_elem_of_singleton]%elem_of_app; done.
      * rewrite length_app. simpl. lia.
Qed.

Lemma pending_result s i : pending s i = true <-> (fut_result <$> futures s !! i) = Some None.
Proof. unfold pending. destruct (futures s !! i) as [[[r|] cbs]|]; split; done. Qed.

Lemma known_pending_length s l : (forall i, i ∈ l -> is_Some (futures s !! i)) ->
  (length (known_results s l) + length (List.filter (pending s) l) = length l)%nat.
Proof.
  induction l as [|i l IH]; intros Hl; [done|]. unfold known_results, pending. cbn [omap list_omap List.filter].
  fold (known_results s l) (pending s).
  specialize (IH ltac:(intros j Hj; apply Hl; by apply list_elem_of_further)).
  destruct (Hl i (list_elem_of_here _ _)) as [[[r|] cbs] ->]; simpl; lia.
Qed.

Lemma attach_waits n w l : forall open rs s, wait_inv n w open rs s -> NoDup l ->
  (forall i, i ∈ l -> (i ∉ open) /\ is_Some (futures s !! i)) -> (length rs + length open + length l <= n)%nat ->
  exists s', for_each l (fun rpc => addCallback rpc (CbWait w)) s = (Ret tt, s') /\
    wait_inv n w (open ++ List.filter (pending s) l) (rs ++ known_results s l) s'.
Proof.
  induction l as [|i l IH]; intros open rs s Hinv Hnd Hl Hlen; cbn [for_each].
  - exists s. simpl. by rewrite !app_nil_r.
  - apply NoDup_cons in Hnd as [Hi Hnd]. destruct (Hl i (list_elem_of_here _ _)) as [Hio Hsome].
    simpl in Hlen. destruct (addCallback_wait n w open rs i s Hinv Hio Hsome) as (s1 & E & Hsame & Hinv1); [lia|].
    unfold bind. rewrite E.
    assert (Hk : known_results s1 l = known_results s l).
    { unfold known_results. clear -Hsame. induction l as [|j l IH]; [done|]. cbn [omap list_omap].
      rewrite IH. specialize (Hsame j). by destruct (futures s1 !! j), (futures s !! j); simplify_eq/=; rewrite ?Hsame. }
    assert (Hp : List.filter (pending s1) l = List.filter (pending s) l).
    { apply filter_ext. intros j. apply eq_true_iff_eq. by rewrite !pending_result, Hsame. }
    assert (Hl1 : forall j, j ∈ l -> (j ∉ open) /\ j <> i /\ is_Some (futures s1 !! j)).
    { intros j Hj. destruct (Hl j ltac:(by apply list_elem_of_further)) as [Hjo [f Hf]]. split_and!; [done|by intros ->|].
      specialize (Hsame j). rewrite Hf in Hsame. by destruct (futures s1 !! j). }
    cbn [List.filter]. unfold known_results. cbn [omap list_omap]. fold (known_results s l).
    destruct Hsome as [[[r|] cbs] Hf]; unfold pending at 1; rewrite Hf in *; cbn in Hinv1 |- *.
    + destruct (IH open (rs ++ [r]) s1 Hinv1 Hnd) as (s2 & E2 & Hinv2).
      { intros j Hj. by destruct (Hl1 j Hj) as (? & ? & ?). }
      { rewrite length_app. simpl. lia. }
      exists s2. split; [exact E2|]. by rewrite Hk, Hp, <- app_assoc in Hinv2.
    + destruct (IH (open ++ [i]) rs s1 Hinv1 Hnd) as (s2 & E2 & Hinv2).
      { intros j Hj. destruct (Hl1 j Hj) as (? & ? & ?). split; [|done].
        rewrite elem_of_app, list_elem_of_singleton. tauto. }
      { rewrite length_app. simpl. lia. }
      exists s2. split; [exact E2|]. by rewrite Hk, Hp, <- app_assoc in Hinv2.
Qed.

Lemma arrivals_length evs : forall open, NoDup open -> (forall i, i ∈ open -> i ∈ evs.*1) ->
  length (arrivals open evs) = length open.
Proof.
  induction evs as [|[i r] evs IH]; intros open Hnd Hall.
  - destruct open as [|i open]; [done|]. by destruct (proj1 (elem_of_nil i) (Hall i (list_elem_of_here _ _))).
  - cbn [arrivals fmap list_fmap] in *. case_bool_decide as Hi.
    + simpl. rewrite IH.
      * clear -Hnd Hi. induction open as [|j open IH]; [by apply elem_of_nil in Hi|].
        apply NoDup_cons in Hnd as [Hj Hnd]. cbn [List.filter]. destruct (Nat.eqb_spec j i) as [->|Hne]; simpl.
        -- f_equal. clear -Hj. induction open as [|k open IH]; [done|]. apply not_elem_of_cons in Hj as [? ?].
           simpl. destruct (Nat.eqb_spec k i); [done|]. simpl. f_equal. by apply IH.
        -- f_equal. apply elem_of_cons in Hi as [->|Hi]; [done|]. by apply IH.
      * apply NoDup_ListNoDup, List.NoDup_filter, NoDup_ListNoDup, Hnd.
      * intros j [Hj Hne]%elem_of_remove. specialize (Hall j Hj). by apply elem_of_cons in Hall as [?|?].
    + apply IH; [done|]. intros j Hj. specialize (Hall j Hj). apply elem_of_cons in Hall as [->|?]; done.
Qed.

Lemma waits_in_fresh w cbs : (forall w', CbWait w' ∈ cbs -> (w' < w)%nat) -> waits_in w cbs = 0%nat.
Proof.
  unfold waits_in. induction cbs as [|[c|w'] cbs IH]; intros H; [done|simpl..].
  - apply IH. intros w' Hw'. apply H. by apply list_elem_of_further.
  - pose proof (H w' (list_elem_of_here _ _)). destruct (Nat.eqb_spec w' w); [lia|].
    apply IH. intros w'' Hw''. apply H. by apply list_elem_of_further.
Qed.

(** What clearAndWaitForOutstandingRpcsAsync sets up. *)
Lemma start_wait c x s : contexts s !! c = Some x -> callbacks_ok s -> NoDup (outStandingRpcs_ x) ->
  (forall i, i ∈ outStandingRpcs_ x -> is_Some (futures s !! i)) -> Z.of_nat (length (outStandingRpcs_ x)) < 2 ^ 31 ->
  exists s', clearAndWaitForOutstandingRpcsAsync c s = (Ret (length (waits s)), s') /\
    wait_inv (length (outStandingRpcs_ x)) (length (waits s)) (List.filter (pending s) (outStandingRpcs_ x))
      (known_results s (outStandingRpcs_ x)) s'.
Proof.
  intros Hx Hcb Hnd Hl Hn. unfold clearAndWaitForOutstandingRpcsAsync, getContext, updContext.
  unfold bind at 1 2, gets at 1. rewrite Hx. unfold ret at 1. unfold bind, gets, modify. cbn [waits upd_contexts].
  set (n := length (outStandingRpcs_ x)) in *. set (w := length (waits s)).
  set (s1 := upd_waits _ _).
  assert (Hinv : wait_inv n w [] [] s1).
  { split.
    - intros i f cb Hi Hin. specialize (Hcb i f cb Hi Hin). destruct cb.
      + apply lookup_lt_is_Some in Hcb. apply lookup_lt_is_Some. unfold s1. simpl. by rewrite length_alter.
      + unfold s1. simpl. rewrite length_app. lia.
    - unfold s1, w. cbn [waits upd_waits upd_contexts]. rewrite lookup_app_r, Nat.sub_diag by lia.
      cbn [lookup list_lookup]. f_equal. rewrite int32_id by (unfold in_int32; lia).
      unfold wait_state, verdict, n. by destruct (outStandingRpcs_ x).
    - intros i []%elem_of_nil.
    - intros i cbs Hi. rewrite bool_decide_false by (by intros ?%elem_of_nil).
      apply waits_in_fresh. intros w' Hw'. exact (Hcb i _ (CbWait w') Hi Hw').
    - simpl. lia.
    - done. }
  destruct (attach_waits n w (outStandingRpcs_ x) [] [] s1 Hinv Hnd) as (s2 & E & Hinv2).
  - intros i Hi. split; [apply not_elem_of_nil|]. by apply Hl.
  - simpl. done.
  - exists s2. rewrite E. done.
Qed.

(** *** The states in which a wait can start *)

(** The contexts and the RPCs of one worker: a context is created, an RPC is
    sent and becomes outstanding in a context, the agent completes a future, a
    wait starts. *)
Inductive rpc_op : Type :=
  | OpContext (context_id : Z)
  | OpSend (dst : Z) (message : Message T) (c : nat)
  | OpComplete (i : nat) (r : option exn)
  | OpWait (c : nat).

Definition run_rpc_op (agent_throws : Z -> option exn) (op : rpc_op) : M (worker T G) unit :=
  match op with
  | OpContext context_id => let! _ := emplaceContext context_id in ret tt
  | OpSend dst message c =>
      let! _ := getContext c in
      let! fut := agent_send agent_throws dst message in addOutstandingRpc c fut
  | OpComplete i r => complete i r
  | OpWait c => let! _ := clearAndWaitForOutstandingRpcsAsync c in ret tt
  end.
Definition run_rpc_ops agent_throws (ops : list rpc_op) s : worker T G :=
  foldl (fun s op => snd (run_rpc_op agent_throws op s)) s ops.

Definition rpcs_ok s : Prop :=
  callbacks_ok s /\
  forall c x, contexts s !! c = Some x ->
    NoDup (outStandingRpcs_ x) /\ forall i, i ∈ outStandingRpcs_ x -> is_Some (futures s !! i).

Lemma rpcs_ok_complete i r s : rpcs_ok s -> rpcs_ok (snd (complete i r s)).
Proof.
  intros [Hcb Hctx]. unfold complete, bind at 1, gets. destruct (futures s !! i) as [[[r0|] cbs]|] eqn:Hi; try done.
  unfold bind, modify. set (s1 := upd_futures _ s).
  destruct (run_callbacks_ok 0 r cbs s1) as (s2 & -> & F1 & F2 & F3 & _).
  { intros c Hc. by apply (Hcb i _ (CbOutstanding c) Hi). }
  simpl. split.
  - intros j f cb. rewrite F1, F2, F3. unfold s1. cbn [futures upd_futures contexts waits]. 
    destruct (decide (j = i)) as [->|Hne].
    + rewrite list_lookup_insert_eq by (by eapply lookup_lt_Some). intros [= <-] Hin. by apply elem_of_nil in Hin.
    + rewrite list_lookup_insert_ne by done. intros Hj Hin. exact (Hcb j f cb Hj Hin).
  - intros c x. rewrite F1, F2. unfold s1. cbn [futures upd_futures contexts]. intros Hx.
    destruct (Hctx c x Hx) as [Hnd Hl]. split; [done|]. intros j Hj. apply lookup_lt_is_Some.
    rewrite length_insert. apply lookup_lt_is_Some. by apply Hl.
Qed.
Definition callback_ok s (cb : fut_callback) : Prop :=
  match cb with
  | CbOutstanding c => is_Some (contexts s !! c)
  | CbWait w => (w < length (waits s))%nat
  end.

Lemma rpcs_ok_addCallback i cb s : rpcs_ok s -> callback_ok s cb -> is_Some (futures s !! i) ->
  exists s', addCallback i cb s = (Ret tt, s') /\ rpcs_ok s' /\ contexts s' = contexts s /\
    length (waits s') = length (waits s) /\ length (futures s') = length (futures s).
Proof.
  intros [Hcb Hctx] Hok [[[r|] cbs] Hf]; unfold addCallback, bind, gets; rewrite Hf.
  - destruct (run_callbacks_ok 0 r [cb] s) as (s2 & E & F1 & F2 & F3 & _).
    { intros c Hc%list_elem_of_singleton. by rewrite <- Hc in Hok. }
    cbn [for_each] in E. unfold bind in E. destruct (run_fut_callback r cb s) as [[[]| |] s3]; try done.
    injection E as ->. exists s2. split_and!; try done; [|by rewrite F1].
    split; [intros j f cb' Hj; rewrite F1 in Hj; rewrite F2, F3; by apply (Hcb j f cb')|by rewrite F1, F2].
  - eexists. split; [reflexivity|]. split_and!; try done; [|simpl; by rewrite length_alter].
    split.
    + intros j f cb'. cbn [futures upd_futures contexts waits]. destruct (decide (j = i)) as [->|Hne].
      * rewrite list_lookup_alter_eq, Hf. intros [= <-] [Hin| ->%list_elem_of_singleton]%elem_of_app; [|exact Hok].
        by apply (Hcb i _ cb' Hf).
      * rewrite list_lookup_alter_ne by done. apply Hcb.
    + intros c x Hx. destruct (Hctx c x Hx) as [Hnd Hl]. split; [done|]. intros j Hj. apply lookup_lt_is_Some.
      cbn [futures upd_futures]. rewrite length_alter. apply lookup_lt_is_Some. by apply Hl.
Qed.

Lemma rpcs_ok_frame s s' : rpcs_ok s -> futures s' = futures s -> (length (waits s) <= length (waits s'))%nat ->
  (forall c x, contexts s' !! c = Some x -> outStandingRpcs_ x = [] \/
     exists y, contexts s !! c = Some y /\ outStandingRpcs_ x = outStandingRpcs_ y) ->
  (length (contexts s) <= length (contexts s'))%nat -> rpcs_ok s'.
Proof.
  intros [Hcb Hctx] Hf Hw Hx Hc. split.
  - intros i f cb. rewrite Hf. intros Hi Hin. specialize (Hcb i f cb Hi Hin). destruct cb; [|lia].
    apply lookup_lt_is_Some in Hcb. apply lookup_lt_is_Some. lia.
  - intros c x H. rewrite Hf. destruct (Hx c x H) as [->|(y & Hy & ->)]; [|by apply (Hctx c)].
    split; [apply NoDup_nil_2|]. intros i []%elem_of_nil.
Qed.

Lemma rpcs_ok_context id s : rpcs_ok s -> rpcs_ok (snd (emplaceContext id s)).
Proof.
  intros Hok. unfold emplaceContext, getShard, updShard, bind, gets, modify, ret, throw.
  destruct (autograd_contexts_ s !! shard_of s id) as [m|]; [|exact Hok].
  destruct (m !! id); [exact Hok|]. cbn [snd]. apply (rpcs_ok_frame s); try done; simpl.
  - intros c x [Hx|[_ Hx]]%lookup_app_Some; [right; by exists x|left].
    apply list_lookup_singleton_Some in Hx as [_ <-]. done.
  - rewrite length_app. lia.
Qed.

Lemma rpcs_ok_send throws c dst m s : rpcs_ok s -> rpcs_ok (snd (run_rpc_op throws (OpSend dst m c) s)).
Proof.
  intros Hok. cbn [run_rpc_op]. unfold getContext, bind at 1 2, gets at 1.
  destruct (contexts s !! c) as [x|] eqn:Hx; [|done]. unfold ret at 1, agent_send, bind at 1.
  destruct (throws dst) as [e|]; [done|]. unfold bind, gets, modify, ret.
  set (s1 := upd_sent _ _).
  assert (Hok1 : rpcs_ok s1).
  { destruct Hok as [Hcb Hctx]. split.
    - intros i f cb. cbn. intros [Hi|[_ Hi]]%lookup_app_Some Hin; [by apply (Hcb i f)|].
      apply list_lookup_singleton_Some in Hi as [_ <-]. by apply elem_of_nil in Hin.
    - intros c' x' Hx'. destruct (Hctx c' x' Hx') as [Hnd Hl]. split; [done|]. intros i Hi. cbn.
      destruct (Hl i Hi) as [f Hf]. exists f. by apply lookup_app_l_Some. }
  unfold addOutstandingRpc, bind.
  destruct (rpcs_ok_addCallback (length (futures s)) (CbOutstanding c) s1 Hok1) as (s2 & -> & Hok2 & E1 & E2 & E3).
  - exists x. exact Hx.
  - cbn. rewrite lookup_app_r, Nat.sub_diag by lia. by eexists.
  - destruct Hok2 as [Hcb2 Hctx2]. assert (Hlen : length (futures s2) = S (length (futures s))).
    { rewrite E3. cbn. rewrite length_app. simpl. lia. }
    unfold updContext, modify. cbn [snd]. split.
    + intros i f cb Hi Hin. specialize (Hcb2 i f cb Hi Hin). destruct cb; [|done].
      apply lookup_lt_is_Some in Hcb2. apply lookup_lt_is_Some. cbn. by rewrite length_alter.
    + intros c' x'. cbn [contexts upd_contexts futures]. destruct (decide (c' = c)) as [->|Hne].
      * rewrite list_lookup_alter_eq, E1. change (contexts s1) with (contexts s). rewrite Hx. intros [= <-]. cbn.
        destruct Hok as [_ Hctx]. destruct (Hctx c x Hx) as [Hnd Hl].
        assert (Hlt : forall i, i ∈ outStandingRpcs_ x -> (i < length (futures s))%nat).
        { intros i Hi. apply lookup_lt_is_Some. by apply Hl. }
        split.
        -- apply NoDup_app. split_and!; [done| |apply NoDup_singleton].
           intros i Hi ->%list_elem_of_singleton. specialize (Hlt _ Hi). lia.
        -- intros i [Hi| ->%list_elem_of_singleton]%elem_of_app; apply lookup_lt_is_Some; [specialize (Hlt i Hi)|]; lia.
      * rewrite list_lookup_alter_ne by done. apply Hctx2.
Qed.

Lemma rpcs_ok_wait c s : rpcs_ok s -> rpcs_ok (snd (clearAndWaitForOutstandingRpcsAsync c s)).
Proof.
  intros Hok. unfold clearAndWaitForOutstandingRpcsAsync, getContext, updContext, bind at 1 2, gets at 1.
  destruct (contexts s !! c) as [x|] eqn:Hx; [|done]. unfold ret at 1, bind, gets, modify.
  set (s1 := upd_waits _ _).
  assert (Hok1 : rpcs_ok s1).
  { apply (rpcs_ok_frame s); try done; cbn; rewrite ?length_alter, ?length_app; [lia| |lia].
    intros c' x'. destruct (decide (c' = c)) as [->|Hne].
    - rewrite list_lookup_alter_eq, Hx. intros [= <-]. by left.
    - rewrite list_lookup_alter_ne by done. intros Hx'. right. by exists x'. }
  assert (Hl : forall i, i ∈ outStandingRpcs_ x -> is_Some (futures s1 !! i)) by apply (proj2 Hok c x Hx).
  assert (Hw : (length (waits s) < length (waits s1))%nat) by (cbn; rewrite length_app; simpl; lia).
  cbn [waits upd_contexts]. generalize dependent s1. generalize (outStandingRpcs_ x) as l.
  induction l as [|i l IH]; intros s1 Hok1 Hl Hw; cbn [for_each]; [done|]. unfold bind at 1.
  destruct (rpcs_ok_addCallback i (CbWait (length (waits s))) s1 Hok1 Hw) as (s2 & -> & Hok2 & E1 & E2 & E3).
  { apply Hl. apply list_elem_of_here. }
  apply IH; [done| |lia]. intros j Hj. apply lookup_lt_is_Some. rewrite E3. apply lookup_lt_is_Some.
  apply Hl. by apply list_elem_of_further.
Qed.

Lemma rpcs_ok_run throws ops : forall s, rpcs_ok s -> rpcs_ok (run_rpc_ops throws ops s).
Proof.
  induction ops as [|op ops IH]; intros s Hok; [done|]. apply IH. destruct op as [id|dst m c|i r|c].
  - pose proof (rpcs_ok_context id s Hok) as H. cbn [run_rpc_op]. unfold bind.
    by destruct (emplaceContext id s) as [[] s'].
  - by apply rpcs_ok_send.
  - by apply rpcs_ok_complete.
  - pose proof (rpcs_ok_wait c s Hok) as H. cbn [run_rpc_op]. unfold bind.
    by destruct (clearAndWaitForOutstandingRpcsAsync c s) as [[] s'].
Qed.

Lemma rpcs_ok_construct n localId s : construct n localId = Ret s -> rpcs_ok s.
Proof.
  unfold construct, ocheck. destruct (_ =? 0); [|done]. intros [= <-]. split; [by intros []|by intros []].
Qed.
(** The future returned by clearAndWaitForOutstandingRpcsAsync is completed
    exactly when all outstanding RPCs have delivered values, and carries the
    first error as soon as one of them fails.  In every state reached by creating
    contexts, sending RPCs, completing futures and waiting, and whatever
    completions the agent delivers afterwards, in any order, repeated or for other
    futures: the result is what the sequence of first results determines, and
    once every outstanding RPC is done there is a result. *)
Theorem autograd_wait_verdict (num_shards localId : Z) (s0 : worker T G) throws ops (c : nat)
    (x : DistAutogradContext G) (evs : list (nat * option exn)) :
  let s := run_rpc_ops throws ops s0 in
  let rpcs := outStandingRpcs_ x in
  construct num_shards localId = Ret s0 -> contexts s !! c = Some x -> Z.of_nat (length rpcs) < 2 ^ 31 ->
  exists w s1 s2 st, clearAndWaitForOutstandingRpcsAsync c s = (Ret w, s1) /\ deliver evs s1 = (Ret tt, s2) /\
    waits s2 !! w = Some st /\
    w_future st = verdict (length rpcs)
      (known_results s rpcs ++ arrivals (List.filter (pending s) rpcs) evs) /\
    ((forall i, i ∈ rpcs -> pending s i = true -> i ∈ evs.*1) -> is_Some (w_future st)).
Proof.
  intros s rpcs Hs0 Hx Hn.
  destruct (rpcs_ok_run throws ops s0 (rpcs_ok_construct _ _ _ Hs0)) as [Hcb Hctx].
  destruct (Hctx c x Hx) as [Hnd Hl].
  destruct (start_wait c x s Hx Hcb Hnd Hl Hn) as (s1 & E1 & Hinv1).
  destruct (deliver_wait _ _ evs _ _ _ Hinv1) as (s2 & open' & E2 & Hinv2).
  eexists _, s1, s2, _. split_and!; [exact E1|exact E2|apply (wi_state _ _ _ _ _ Hinv2)|done|].
  intros Hall. unfold wait_state, verdict. cbn [w_future]. destruct (first_error _); [done|].
  rewrite length_app, arrivals_length.
  - by rewrite known_pending_length, Nat.eqb_refl.
  - apply NoDup_ListNoDup, List.NoDup_filter, NoDup_ListNoDup, Hnd.
  - intros i Hi. apply list_elem_of_In, filter_In in Hi as [Hi Hp]. apply Hall; [|done]. by apply list_elem_of_In.
Qed.
End waiting.

(** *** Concrete instances *)

Lemma autograd_container_refines_map_witness :
  exists s : worker nat nat, construct (2 ^ 1) 0 = Ret s /\
    fst (run_cmds true (fun _ => false)
      [CInit 3; CNewContext 0; CNewContext 0; CGetOrCreate 7; CRelease 1 9; CRelease 0 844424930131968; CNumContexts] s) =
    [Ret RUnit; Ret (RNew 844424930131968 0);
     Throw (CheckFailed "Already have an autograd context id for this thread.");
     Ret (RContext 1); Throw not_found; Ret RUnit; Ret (RId 1)].
Proof.
  destruct (autograd_container_refines_map (T := nat) (G := nat) true (fun _ => false) 1 0
    [CInit 3; CNewContext 0; CNewContext 0; CGetOrCreate 7; CRelease 1 9; CRelease 0 844424930131968; CNumContexts]
    ltac:(lia)) as (s & Hs & Ho & _).
  exists s. split; [exact Hs|]. rewrite Ho. vm_compute. reflexivity.
Defined.

(** The worker with the last id: its ids are negative, just below the invalid id. *)
Lemma autograd_ids_unique_witness :
  exists s : worker nat nat, construct (2 ^ 7) 0 = Ret s /\ exists os,
    fst (run_cmds false (fun _ => false) [CInit 65535; CNewContext 0; CNewMessageId; CNewContext 1] s) = Ret RUnit :: os /\
    StronglySorted Z.lt (context_ids os) /\
    Forall (fun id => id_owner id = 65535 /\ id <> kInvalidContextId /\ in_int64 (id + 1)) (context_ids os).
Proof.
  destruct (autograd_ids_unique (T := nat) (G := nat) false (fun _ => false) 7 0 65535
    [CNewContext 0; CNewMessageId; CNewContext 1]) as (s & Hs & os & Ho & Hids).
  - lia.
  - unfold kMaxWorkerId. lia.
  - simpl. lia.
  - exists s. split; [exact Hs|]. exists os. split; [exact Ho|]. apply Hids. by left.
Defined.

(** Three RPCs: one is done before the wait, one fails, the last delivers twice. *)
Lemma autograd_wait_verdict_witness :
  exists (s : worker nat nat) w s1 s2 st,
    clearAndWaitForOutstandingRpcsAsync 0 s = (Ret w, s1) /\
    deliver [(2%nat, Some (RuntimeError "down")); (2%nat, None); (1%nat, None)] s1 = (Ret tt, s2) /\ waits s2 !! w = Some st /\
    w_future st = Some (Some (RuntimeError "down")).
Proof.
  pose (m := mkMessage nat [] [] SCRIPT_CALL 0).
  pose (s0 := mkWorker 0 0 false [∅] 1 0 0 ∅ ∅ ([] : list (DistAutogradContext nat)) [] ([] : list RecvRpcBackward) [] [] [] [] ∅ ∅ 0
    ([] : list (sent_message nat))).
  pose (ops := [OpContext 5; OpSend 1 m 0; OpSend 2 m 0; OpSend 3 m 0; OpComplete 0 None]).
  pose (s := run_rpc_ops (fun _ => None) ops s0).
  pose (x := mkContext 5 ∅ ∅ ∅ (∅ : gmap nat nat) None [0%nat; 1%nat; 2%nat]).
  destruct (autograd_wait_verdict 1 0 s0 (fun _ => None) ops 0 x
    [(2%nat, Some (RuntimeError "down")); (2%nat, None); (1%nat, None)]) as (w & s1 & s2 & st & E1 & E2 & E3 & E4 & _).
  - reflexivity.
  - vm_compute. reflexivity.
  - simpl. lia.
  - exists s, w, s1, s2, st. split; [exact E1|]. split; [exact E2|]. split; [exact E3|].
    rewrite E4. vm_compute. reflexivity.
Defined.
