(* ===== verification/AutogradCluster.v ===== *)
(** * Distributed autograd across workers

    Several workers (AutogradContext.v) and the messages between them: what the
    request callback of csrc/c10d/distributed/rpc/request_callback_no_python.cpp
    does with the messages of distributed autograd, how contexts spread with the
    RPCs of a forward pass, and how the clean-up messages release them again. *)

From stdpp Require Import base option list gmap relations.
From Stdlib Require Import ZArith Lia.
From S2P Require Import Prelude RpcTypes Wire RpcCommands AutogradContext.

(** ** The handlers *)

Section handlers.
Context {T G : Type}.
Variable my_id : Z.
Variable requires_grad : T -> bool.
Variable compute_requires_grad : list T -> bool.
Variable pickle : IValue T -> bytes * list T.
Variable encodeInt64 : Z -> bytes.

Abbreviation op A := (M (worker T G) A).

(** DistAutogradContextGuard around [body]: the destructor runs on every way out. *)
Definition DistAutogradContextGuard {A} (t : nat) (ctxId : Z) (body : op A) : op A := fun s =>
  let prevCtxId := currentContextId t s in
  let '(r, s) := (do! forceCurrentContextId t ctxId in body) s in
  match r with
  | Block => (Block, s)
  | _ => (r, snd (forceCurrentContextId t prevCtxId s))
  end.

(** processForwardAutogradReq: [processRpc] is the processing of the nested
    command; the result is what the callback of its future needs. *)
Definition processForwardAutogradReq (t : nat) (processRpc : op unit) (metadata : AutogradMetadata)
    (tensors : list T) (fromWorkerId : Z) (deviceMap : DeviceMap) : op (Z * Z) :=
  let! autogradContext :=
    addRecvRpcBackward requires_grad compute_requires_grad metadata tensors fromWorkerId (reverseDeviceMap deviceMap) in
  let! x := getContext autogradContext in
  do! DistAutogradContextGuard t (contextId_ x) processRpc in
  ret (fromWorkerId, contextId_ x).

(** The callback: the response of the nested command, or its error. *)
Definition forwardAutogradDone (t : nat) (fromWorkerId ctxId messageId : Z) (wrapped : Message T + exn) :
    op (Message T + exn) :=
  DistAutogradContextGuard t ctxId
    (match wrapped with
     | inr e => ret (inr e)
     | inl wrappedMsg =>
         let! msg := getMessageWithAutograd my_id requires_grad compute_requires_grad pickle encodeInt64 t
           fromWorkerId wrappedMsg FORWARD_AUTOGRAD_RESP false ∅ in
         ret (inl (setId messageId msg))
     end).

(** processCleanupAutogradContextReq: the response. *)
Definition processCleanupAutogradContextReq (agent_set : bool) (send_throws : Z -> bool) (t : nat)
    (cleanupContextId messageId : Z) : op (Message T) :=
  do! releaseContextIfPresent agent_set send_throws t cleanupContextId in
  ret (setId messageId CleanupAutogradContextResp_toMessage).

(** processBackwardAutogradReq up to the start of the engine: the context and
    the send function to execute. *)
Definition processBackwardAutogradReq (metadata : AutogradMetadata) (grads : list G) : op (nat * nat) :=
  let! autogradContext := retrieveContext (autogradContextId metadata) in
  let! sendFunction := retrieveSendFunction autogradContext (autogradMessageId metadata) in
  do! setGrads sendFunction (map Some grads) in
  ret (autogradContext, sendFunction).
End handlers.

(** ** What the operations of a forward pass do to a worker *)

(** The workers a context knows; none if it is not there. *)
Definition known_at {T G} (id : Z) (s : worker T G) : gset Z :=
  match table s !! id ≫= fun c => contexts s !! c with
  | Some x => knownWorkerIds_ x
  | None => ∅
  end.
Definition holds {T G} (id : Z) (s : worker T G) : Prop := is_Some (table s !! id).
#[global] Instance holds_dec {T G} id (s : worker T G) : Decision (holds id s).
Proof. unfold holds. apply _. Defined.

(** Contexts stay, keep their ids and forget no worker; new ones have ids in [P]. *)
Definition grows {T G} (P : Z -> Prop) (s s' : worker T G) : Prop :=
  wf s -> wf s' /\ table s ⊆ table s' /\
  (forall id, holds id s' -> holds id s \/ P id) /\
  (forall c x, contexts s !! c = Some x ->
     exists x', contexts s' !! c = Some x' /\ contextId_ x' = contextId_ x /\ knownWorkerIds_ x ⊆ knownWorkerIds_ x').

#[global] Instance grows_preorder {T G} (P : Z -> Prop) : PreOrder (grows (T := T) (G := G) P).
Proof.
  split.
  - intros s Hwf. split_and!; [done..|by left|]. intros c x Hx. by exists x.
  - intros s1 s2 s3 H12 H23 Hwf. destruct (H12 Hwf) as (Hwf2 & Ht & Hh & Hc).
    destruct (H23 Hwf2) as (Hwf3 & Ht' & Hh' & Hc'). split_and!; [done|by etrans| |].
    + intros id [H|H]%Hh'; [by apply Hh|by right].
    + intros c x Hx. destruct (Hc c x Hx) as (y & Hy & E & Hs). destruct (Hc' c y Hy) as (z & Hz & E' & Hs').
      exists z. split_and!; [done|by rewrite E'|by etrans].
Qed.

Section forward.
Context {T G : Type}.
Implicit Types s : worker T G.
#[local] Set Default Proof Using "Type".
#[local] Set Proof Using Clear Unused.

Lemma grows_weaken (P Q : Z -> Prop) s s' : (forall id, P id -> Q id) -> grows P s s' -> grows Q s s'.
Proof. intros HPQ H Hwf. destruct (H Hwf) as (? & ? & Hh & ?). split_and!; [done..| |done]. intros id [|]%Hh; auto. Qed.

Lemma grows_frame (P : Z -> Prop) s s' :
  autograd_contexts_ s' = autograd_contexts_ s -> num_shards_ s' = num_shards_ s ->
  (forall c x, contexts s !! c = Some x ->
     exists x', contexts s' !! c = Some x' /\ contextId_ x' = contextId_ x /\ knownWorkerIds_ x ⊆ knownWorkerIds_ x') ->
  grows P s s'.
Proof.
  intros Ha Hn Hc Hwf. assert (Ht : table s' = table s) by (unfold table; by rewrite Ha).
  unfold holds. rewrite Ht. split_and!; [|done|by left|done].
  apply (wf_same s); try done. intros c x Hx. destruct (Hc c x Hx) as (x' & ? & ? & _). by exists x'.
Qed.

Lemma grows_updContext (P : Z -> Prop) c (f : DistAutogradContext G -> DistAutogradContext G) :
  (forall x, contextId_ (f x) = contextId_ x /\ knownWorkerIds_ x ⊆ knownWorkerIds_ (f x)) ->
  follows (S := worker T G) (grows P) (updContext c f).
Proof.
  intros Hf s. apply grows_frame; [done..|]. intros c' x Hx. cbn. destruct (decide (c' = c)) as [->|Hne].
  - exists (f x). rewrite list_lookup_alter_eq, Hx. destruct (Hf x). done.
  - exists x. by rewrite list_lookup_alter_ne.
Qed.

Lemma grows_modify (P : Z -> Prop) (g : worker T G -> worker T G) :
  (forall s, autograd_contexts_ (g s) = autograd_contexts_ s /\ num_shards_ (g s) = num_shards_ s /\
     contexts (g s) = contexts s) -> follows (grows P) (modify g).
Proof.
  intros Hg s. destruct (Hg s) as (Ha & Hn & Hc). apply grows_frame; [done..|]. intros c x Hx. exists x.
  cbn. by rewrite Hc.
Qed.

Lemma grows_emplace id : follows (S := worker T G) (grows (eq id)) (emplaceContext id).
Proof.
  intros s Hwf. destruct (emplace_ok id s Hwf) as (c & s' & E & Hwf' & Hsp & _ & _). rewrite E.
  split; [done|]. unfold emplaceContext, bind in E. destruct (getShard_ok s id Hwf) as (m & Hm & Hg & Hid).
  rewrite Hg, Hid in E. unfold spec_create in Hsp. change (sp_table (abs s)) with (table s) in Hsp.
  destruct (table s !! id) as [c0|] eqn:Ht.
  - injection E as <- <-. split_and!; [done|by left|]. intros c x Hx. by exists x.
  - apply (f_equal (fun p => sp_table p.2)) in Hsp. cbn [snd sp_table] in Hsp.
    change (sp_table (abs ?x)) with (table x) in Hsp. unfold holds. cbn [snd]. rewrite <- Hsp.
    split_and!.
    + by apply insert_subseteq.
    + intros k. destruct (decide (k = id)) as [->|Hne]; [by right|]. rewrite lookup_insert_ne by done. by left.
    + apply (f_equal snd) in E. cbn in E. rewrite <- E.
      intros c' x Hx. exists x. split_and!; [|done..]. cbn. by apply lookup_app_l_Some.
Qed.


Lemma grows_addSend (P : Z -> Prop) c f m : follows (S := worker T G) (grows P) (addSendFunction c f m).
Proof. destruct f; unfold addSendFunction, getContext; repeat follows_step; by apply grows_updContext. Qed.
Lemma grows_addRecvFunction (P : Z -> Prop) c f m : follows (S := worker T G) (grows P) (addRecvFunction c f m).
Proof. destruct f; unfold addRecvFunction, getContext; repeat follows_step; by apply grows_updContext. Qed.

Variable requires_grad : T -> bool.
Variable compute_requires_grad : list T -> bool.

Lemma grows_addSendRpc (P : Z -> Prop) c md ts :
  follows (S := worker T G) (grows P) (addSendRpcBackward requires_grad c md ts).
Proof. unfold addSendRpcBackward. repeat follows_step; [by apply grows_modify|apply grows_addSend]. Qed.

Lemma grows_getOrCreate id : follows (S := worker T G) (grows (eq id)) (getOrCreateContext id).
Proof.
  intros s Hwf. destruct (emplace_ok id s Hwf) as (c & s' & E & _ & _ & E' & _).
  pose proof (grows_emplace id s Hwf) as H. by rewrite E' in *; rewrite E in H.
Qed.

(** addRecvRpcBackward makes the context of the message, if it is not there. *)
Lemma grows_addRecv md ts from dm :
  follows (S := worker T G) (grows (eq (autogradContextId md)))
    (addRecvRpcBackward requires_grad compute_requires_grad md ts from dm).
Proof.
  unfold addRecvRpcBackward, getInstance. repeat first
    [follows_step | apply grows_getOrCreate | apply grows_addRecvFunction | by apply grows_modify].
Qed.

Lemma grows_force (P : Z -> Prop) t id : follows (S := worker T G) (grows P) (forceCurrentContextId t id).
Proof. by apply grows_modify. Qed.

Section send.
Variable my_id : Z.
Variable pickle : IValue T -> bytes * list T.
Variable encodeInt64 : Z -> bytes.

Abbreviation getMessage := (getMessageWithAutograd (G := G) my_id requires_grad compute_requires_grad pickle encodeInt64).

Lemma grows_getMessage (P : Z -> Prop) t dst msg ty force dm : follows (grows P) (getMessage t dst msg ty force dm).
Proof.
  unfold getMessageWithAutograd, getInstance, hasValidContext, currentContext, getShard, getContext,
    newAutogradMessageId, addKnownWorkerId.
  repeat first [follows_step | apply grows_addSendRpc | by apply grows_modify |
    apply grows_updContext; intros x; simpl; set_solver].
Qed.

Lemma known_grows P id s s' : wf s -> grows P s s' -> known_at id s ⊆ known_at id s'.
Proof.
  intros Hwf Hg. destruct (Hg Hwf) as (_ & Ht & _ & Hc). unfold known_at.
  destruct (table s !! id) as [c|] eqn:Hid; simpl; [|set_solver].
  rewrite (lookup_weaken _ _ _ _ Hid Ht). simpl.
  destruct (contexts s !! c) as [x|] eqn:Hx; [|set_solver].
  by destruct (Hc c x Hx) as (x' & -> & _ & ?).
Qed.

Lemma currentContext_ok t s c s' : wf s -> currentContext t s = (Ret c, s') ->
  s' = s /\ table s !! current_id t s = Some c.
Proof.
  intros Hwf H. unfold currentContext, hasValidContext in H.
  apply bind_Ret_inv in H as (v & s1 & (? & ? & [= <- <-] & [= <- <-])%bind_Ret_inv & H).
  apply bind_Ret_inv in H as (? & s2 & [_ ->]%assert_Ret_inv & H).
  apply bind_Ret_inv in H as (cur & s3 & [= <- <-] & H).
  destruct (getShard_ok s (current_id t s) Hwf) as (m & _ & Hg & Hid).
  unfold bind in H. rewrite Hg, Hid in H.
  by destruct (table s !! current_id t s); [injection H as <- <-|].
Qed.

(** A message is sent as it is, or wrapped with the id of a context that from
    then on knows the destination. *)
Lemma getMessage_ok t dst msg ty force dm s m' s' : wf s ->
  getMessage t dst msg ty force dm s = (Ret m', s') ->
  m' = msg \/ exists md, RpcWithAutograd_toMessage pickle encodeInt64 my_id ty md msg dm = Ret m' /\
    dst ∈ known_at (autogradContextId md) s' /\ holds (autogradContextId md) s.
Proof.
  intros Hwf H. unfold getMessageWithAutograd, getInstance, hasValidContext in H.
  apply bind_Ret_inv in H as (? & s1 & (? & ? & [= <- <-] & [_ ->]%assert_Ret_inv)%bind_Ret_inv & H).
  apply bind_Ret_inv in H as (valid & s2 & (? & ? & [= <- <-] & [= <- <-])%bind_Ret_inv & H).
  destruct (_ || _); [injection H as <- <-; by left|]. right.
  apply bind_Ret_inv in H as (c & s1 & Hcur & H).
  destruct (currentContext_ok _ _ _ _ Hwf Hcur) as [-> Hc].
  destruct (table_context s _ c Hwf Hc) as (y & Hx & Hid).
  apply bind_Ret_inv in H as (? & s1 & Hget & H). unfold getContext, bind, gets in Hget. rewrite Hx in Hget.
  injection Hget as <- <-. apply bind_Ret_inv in H as (mid & s1 & Hmid & H).
  assert (Hg1 : grows (fun _ => False) s s1).
  { apply (follows_run _ _ _ _ _ Hmid). unfold newAutogradMessageId.
    repeat first [follows_step | by apply grows_modify]. }
  apply bind_Ret_inv in H as (? & s2 & [_ ->]%assert_Ret_inv & H).
  apply bind_Ret_inv in H as (? & s2 & Hsend & H).
  assert (Hg2 : grows (fun _ => False) s1 s2).
  { destruct (compute_requires_grad _); [|by injection Hsend as _ <-].
    exact (follows_run _ _ _ _ _ Hsend (grows_addSendRpc _ _ _ _)). }
  apply bind_Ret_inv in H as (? & s3 & Hadd & [Hm ->]%lift_Ret_inv). injection Hadd as <- <-.
  exists (mkMetadata (contextId_ y) mid). split; [done|]. cbn [autogradContextId]. rewrite Hid. split; [|by eexists].
  assert (Hg : grows (fun _ => False) s s2) by (by etrans). destruct (Hg Hwf) as (Hwf2 & Ht & _ & Hcs).
  destruct (Hcs c y Hx) as (x2 & Hx2 & _ & _).
  unfold known_at. change (table (upd_contexts _ s2)) with (table s2).
  rewrite (lookup_weaken _ _ _ _ Hc Ht). cbn. rewrite list_lookup_alter_eq, Hx2. cbn. set_solver.
Qed.
End send.
End forward.

(** ** The wire

    What the contexts need from the encoding: the receiver of a wrapped message
    opens it to the metadata, the device map and the message that were wrapped. *)

Class AutogradWire {T} (pickle : IValue T -> bytes * list T) (encodeInt64 : Z -> bytes)
    (open : Message T -> outcome (Z * AutogradMetadata * DeviceMap * Message T)) : Prop :=
  wire_open w ty md m dm m' id :
    RpcWithAutograd_toMessage pickle encodeInt64 w ty md m dm = Ret m' ->
    Z.of_nat (length (payload m')) < 2 ^ 63 -> in_int16 w ->
    map_Forall (fun k v => in_int8 k /\ in_int8 v) dm ->
    type_ m' = ty /\ open (setId id m') = Ret (w, md, dm, setId id m).

(** RpcWithAutograd::fromMessage keeps the promise when the pickler does. *)
#[global] Instance RpcWithAutograd_wire {T} (pickle : IValue T -> bytes * list T) unpickle encodeInt64 decodeInt64 :
  (forall v, unpickle (pickle v).1 (pickle v).2 = Ret v) ->
  (forall v, tensor_free v = true -> (pickle v).2 = []) ->
  (forall z, in_int64 z -> length (encodeInt64 z) = 8%nat /\ decodeInt64 (encodeInt64 z) = z) ->
  AutogradWire pickle encodeInt64 (RpcWithAutograd_open unpickle decodeInt64).
Proof.
  intros H1 H2 H3 w ty md m dm m' id Hm Hlen Hw Hdm.
  destruct (autograd_open pickle unpickle encodeInt64 decodeInt64 H1 H2 H3 w ty md m dm m' id) as (? & _ & ?); done.
Qed.

Definition is_forward (ty : MessageType) : bool :=
  bool_decide (ty = FORWARD_AUTOGRAD_REQ) || bool_decide (ty = FORWARD_AUTOGRAD_RESP).

(** ** The cluster *)

Section cluster.
Context {T G : Type}.
Variable requires_grad : T -> bool.
Variable compute_requires_grad : list T -> bool.
Variable pickle : IValue T -> bytes * list T.
Variable encodeInt64 : Z -> bytes.
Variable open : Message T -> outcome (Z * AutogradMetadata * DeviceMap * Message T).
Context `{!AutogradWire pickle encodeInt64 open}.

(** The workers by id, the messages of the forward pass in flight, and the
    clean-up messages in flight for the context [id] that is followed. *)
Variable id : Z.
Record cluster := mkCluster {
  procs : gmap Z (worker T G);
  forward : list (Z * Message T);
  cleanup : list Z;
}.

(** What a worker does on arrival of a request or a response: the wrapped ones
    attach a recv function to the context. *)
Definition receive_forward (m : Message T) : M (worker T G) unit :=
  if is_forward (type_ m) then
    let! p := lift (open m) in
    let '(fromWorkerId, metadata, deviceMap, wrappedMessage) := p in
    let! _ := addRecvRpcBackward requires_grad compute_requires_grad metadata (tensors wrappedMessage) fromWorkerId
      (reverseDeviceMap deviceMap) in
    ret tt
  else ret tt.

(** The steps of a forward pass: a thread sends a request or a response to
    [dst], or fails to; the guard of a handler sets or restores the current
    context of a thread; a message arrives, or is lost. *)
Inductive forward_step (c : cluster) : cluster -> Prop :=
  | FSend u s t dst msg ty force dm mid m' s' :
      procs c !! u = Some s ->
      is_forward (type_ msg) = false -> map_Forall (fun k v => in_int8 k /\ in_int8 v) dm ->
      getMessageWithAutograd u requires_grad compute_requires_grad pickle encodeInt64 t dst msg ty force dm s = (Ret m', s') ->
      Z.of_nat (length (payload m')) < 2 ^ 63 ->
      forward_step c (mkCluster (<[u := s']> (procs c)) (forward c ++ [(dst, setId mid m')]) (cleanup c))
  | FSendFails u s t dst msg ty force dm e s' :
      procs c !! u = Some s ->
      getMessageWithAutograd u requires_grad compute_requires_grad pickle encodeInt64 t dst msg ty force dm s = (Throw e, s') ->
      forward_step c (mkCluster (<[u := s']> (procs c)) (forward c) (cleanup c))
  | FCurrent u s t ctxId :
      procs c !! u = Some s ->
      forward_step c (mkCluster (<[u := snd (forceCurrentContextId t ctxId s)]> (procs c)) (forward c) (cleanup c))
  | FArrives k u m s o s' :
      forward c !! k = Some (u, m) -> procs c !! u = Some s -> receive_forward m s = (o, s') ->
      forward_step c (mkCluster (<[u := s']> (procs c)) (delete k (forward c)) (cleanup c))
  | FLost k :
      forward_step c (mkCluster (procs c) (delete k (forward c)) (cleanup c)).

(** A clean-up message arrives at [u], on any thread; the messages it makes the
    worker send are in flight then.  [dup]: the agent delivers it again later. *)
Definition cleanup_destinations (l : list (sent_message T)) : list Z :=
  omap (fun m => match m with SentCleanup dst i => if i =? id then Some dst else None | _ => None end) l.
Inductive cleanup_step (c : cluster) (dup : bool) : cluster -> Prop :=
  | CArrives k u s t mid m s' :
      cleanup c !! k = Some u -> procs c !! u = Some s ->
      processCleanupAutogradContextReq true (fun _ => false) t id mid (upd_sent (fun _ => []) s) = (Ret m, s') ->
      cleanup_step c dup (mkCluster (<[u := s']> (procs c)) (forward c)
        ((if dup then cleanup c else delete k (cleanup c)) ++ cleanup_destinations (sent s')))
  | CGone k u :
      cleanup c !! k = Some u -> procs c !! u = None ->
      cleanup_step c dup (mkCluster (procs c) (forward c) (if dup then cleanup c else delete k (cleanup c))).

(** [n] messages delivered for good, and any number of duplicates. *)
Inductive cleanup_run : nat -> cluster -> cluster -> Prop :=
  | run_done c : cleanup_run 0 c c
  | run_deliver n c c1 c2 : cleanup_step c false c1 -> cleanup_run n c1 c2 -> cleanup_run (S n) c c2
  | run_duplicate n c c1 c2 : cleanup_step c true c1 -> cleanup_run n c1 c2 -> cleanup_run n c c2.

(** The worker [u] releases the context, as the user asks it to. *)
Definition release (u : Z) (t : nat) (c : cluster) : option cluster :=
  s ← procs c !! u;
  match releaseContext true (fun _ => false) t id (upd_sent (fun _ => []) s) with
  | (Ret _, s') => Some (mkCluster (<[u := s']> (procs c)) (forward c) (cleanup c ++ cleanup_destinations (sent s')))
  | _ => None
  end.

#[local] Set Default Proof Using "Type".
#[local] Set Proof Using Clear Unused.

(** [u] knows [v] in the context. *)
Definition edge (c : cluster) (u v : Z) : Prop := exists s, procs c !! u = Some s /\ v ∈ known_at id s.
Definition procs_ok (c : cluster) : Prop := map_Forall (fun u s => in_int16 u /\ wf s) (procs c).

(** Who has the context can be reached from [root], and so can who is going to
    have it because of a message in flight. *)
Record forward_inv (root : Z) (c : cluster) : Prop := {
  fi_procs : procs_ok c;
  fi_root : exists s, procs c !! root = Some s /\ holds id s;
  fi_reach : forall u s, procs c !! u = Some s -> holds id s -> rtc (edge c) root u;
  fi_messages : forall u m, (u, m) ∈ forward c -> is_forward (type_ m) = true ->
    exists w md dm m0, open m = Ret (w, md, dm, m0) /\ (autogradContextId md = id -> rtc (edge c) root u);
}.

Lemma edges_grow (P : Z -> Prop) c u s s' fwd cl : procs_ok c -> procs c !! u = Some s -> grows P s s' ->
  forall x y, rtc (edge c) x y -> rtc (edge (mkCluster (<[u := s']> (procs c)) fwd cl)) x y.
Proof.
  intros Hok Hu Hg x y. apply rtc_subrel. clear x y. intros x y (sx & Hx & Hy). unfold edge. cbn [procs].
  destruct (decide (x = u)) as [->|Hne].
  - exists s'. rewrite lookup_insert_eq. split; [done|]. rewrite Hu in Hx. injection Hx as <-.
    apply (known_grows P id s s'); [|done|done]. by apply (Hok u s Hu).
  - exists sx. by rewrite lookup_insert_ne.
Qed.

Lemma forward_inv_grow root (P : Z -> Prop) c u s s' fwd :
  forward_inv root c -> procs c !! u = Some s -> grows P s s' -> (P id -> rtc (edge c) root u) ->
  (forall v m, (v, m) ∈ fwd -> is_forward (type_ m) = true -> exists w md dm m0, open m = Ret (w, md, dm, m0) /\
     (autogradContextId md = id -> rtc (edge c) root v \/ (v ∈ known_at id s' /\ holds id s))) ->
  forward_inv root (mkCluster (<[u := s']> (procs c)) fwd (cleanup c)).
Proof.
  intros [Hok (sr & Hr & Hrh) Hreach _] Hu Hg HP Hfwd.
  destruct (Hok u s Hu) as [Hu16 Hwf]. destruct (Hg Hwf) as (Hwf' & Ht & Hh & _).
  pose proof (edges_grow P c u s s' fwd (cleanup c) Hok Hu Hg) as Hrtc.
  split; cbn [procs].
  - intros v sv. cbn [procs]. destruct (decide (v = u)) as [->|Hne].
    + rewrite lookup_insert_eq. by intros [= <-].
    + rewrite lookup_insert_ne by done. apply Hok.
  - destruct (decide (root = u)) as [->|Hne].
    + exists s'. rewrite lookup_insert_eq. split; [done|]. rewrite Hr in Hu. injection Hu as ->.
      destruct Hrh as [cx Hcx]. exists cx. by eapply lookup_weaken.
    + exists sr. by rewrite lookup_insert_ne.
  - intros v sv. destruct (decide (v = u)) as [->|Hne].
    + rewrite lookup_insert_eq. intros [= <-] [H|H]%Hh; apply Hrtc; [by apply (Hreach u s)|by apply HP].
    + rewrite lookup_insert_ne by done. intros Hv Hvh. apply Hrtc. by apply (Hreach v sv).
  - cbn [forward]. intros v m Hin Hty. destruct (Hfwd v m Hin Hty) as (w & md & dm & m0 & Ho & Hid).
    exists w, md, dm, m0. split; [done|]. intros E. destruct (Hid E) as [H|[H Hs]]; [by apply Hrtc|].
    eapply rtc_r; [apply Hrtc; by apply (Hreach u s)|]. exists s'. cbn [procs]. by rewrite lookup_insert_eq.
Qed.

Lemma is_forward_setId (i : Z) (m : Message T) : is_forward (type_ (setId i m)) = is_forward (type_ m).
Proof. done. Qed.

Lemma old_messages root c : forward_inv root c ->
  forall (s s' : worker T G) v m, (v, m) ∈ forward c -> is_forward (type_ m) = true ->
  exists w md dm m0, open m = Ret (w, md, dm, m0) /\
     (autogradContextId md = id -> rtc (edge c) root v \/ (v ∈ known_at id s' /\ holds id s)).
Proof.
  intros Hinv s s' v m Hin Hty. destruct (fi_messages _ _ Hinv v m Hin Hty) as (w & md & dm & m0 & Ho & Hid).
  exists w, md, dm, m0. split; [done|]. left. auto.
Qed.

Lemma receive_grows root c u m s : forward_inv root c -> (u, m) ∈ forward c ->
  exists P : Z -> Prop, (P id -> rtc (edge c) root u) /\ grows P s (snd (receive_forward m s)).
Proof.
  intros Hinv Hin. unfold receive_forward. destruct (is_forward (type_ m)) eqn:Hty.
  - destruct (fi_messages _ _ Hinv u m Hin Hty) as (w & md & dm & m0 & Ho & Hid).
    exists (eq (autogradContextId md)). split; [exact Hid|]. unfold bind at 1, lift. rewrite Ho.
    refine (follows_bind _ _ _ (grows_addRecv requires_grad compute_requires_grad md _ _ _) _ s).
    intros. apply follows_ret. typeclasses eauto.
  - exists (fun _ => False). split; [done|]. cbn. reflexivity.
Qed.

Lemma forward_step_inv root c c' : forward_inv root c -> forward_step c c' -> forward_inv root c'.
Proof using Type AutogradWire0.
  intros Hinv Hstep. destruct Hstep as
    [u s t dst msg ty force dm mid m' s' Hu Hm Hdm Hget Hlen|u s t dst msg ty force dm e s' Hu Hget
    |u s t ctxId Hu|k u m s o s' Hk Hu Hrecv|k].
  - destruct (fi_procs _ _ Hinv u s Hu) as [Hu16 Hwf].
    apply (forward_inv_grow root (fun _ => False) c u s s'); [done|done| |done|].
    { apply (follows_run _ _ _ _ _ Hget). apply grows_getMessage. }
    intros v m [Hin|Hin%list_elem_of_singleton]%elem_of_app Hty; [by eapply old_messages|].
    injection Hin as -> ->. rewrite is_forward_setId in Hty.
    destruct (getMessage_ok _ _ _ _ _ _ _ _ _ _ _ _ _ _ Hwf Hget) as [->|(md & He & Hk & Hh)]; [by rewrite Hm in Hty|].
    destruct (wire_open u ty md msg dm m' mid He Hlen Hu16 Hdm) as [_ Ho].
    eexists _, md, dm, _. split; [exact Ho|]. intros E. rewrite E in *. by right.
  - apply (forward_inv_grow root (fun _ => False) c u s s'); [done|done| |done|by apply old_messages].
    apply (follows_run _ _ _ _ _ Hget). apply grows_getMessage.
  - apply (forward_inv_grow root (fun _ => False) c u s); [done|done| |done|by apply old_messages].
    apply grows_force.
  - pose proof (list_elem_of_lookup_2 _ _ _ Hk) as Hin.
    destruct (receive_grows root c u m s Hinv Hin) as (P & HP & Hg). rewrite Hrecv in Hg.
    apply (forward_inv_grow root P c u s s'); [done..|].
    intros v m1 Hin1%elem_of_delete. by apply old_messages.
  - destruct Hinv as [H1 H2 H3 H4]. split; [done..|]. cbn [forward]. intros v m Hin%elem_of_delete. by apply H4.
Qed.

(** *** Releasing *)

Lemma known_none (s : worker T G) : ~ holds id s -> known_at id s = ∅.
Proof. intros H. unfold known_at. by rewrite (proj2 (eq_None_not_Some _) H). Qed.

(** What a clean-up message does to a worker: the context is gone, and every
    worker it knew is told. *)
Lemma cleaned_ok t (s : worker T G) : wf s ->
  exists s', releaseContextIfPresent true (fun _ => false) t id (upd_sent (fun _ => []) s) = (Ret tt, s') /\
    (holds id s -> releaseContext true (fun _ => false) t id (upd_sent (fun _ => []) s) = (Ret tt, s')) /\
    wf s' /\ ~ holds id s' /\ cleanup_destinations (sent s') = elements (known_at id s).
Proof.
  intros Hwf. set (s0 := upd_sent (fun _ => []) s).
  assert (Hwf0 : wf s0) by (by apply (wf_same s); eauto).
  pose proof (release_ok true (fun _ => false) t id s0 Hwf0) as H. unfold holds, known_at.
  change (table s0) with (table s) in H. destruct (table s !! id) as [c|] eqn:Hc; cbn.
  - destruct H as (x & Hx & _ & E1 & E2). change (contexts s0) with (contexts s) in Hx. rewrite Hx.
    destruct (released_ok true (fun _ => false) t id x s0 Hwf0) as [Hwf' Ha]; [by exists c|].
    eexists. split; [exact E1|]. split; [done|]. split; [exact Hwf'|]. split.
    + apply (f_equal sp_table) in Ha. change (sp_table (abs ?y)) with (table y) in Ha. rewrite Ha.
      unfold spec_release. cbn. destruct (_ =? id); cbn; rewrite lookup_delete_eq; by intros [].
    + unfold released. replace (sent _) with (release_messages (T := T) true (fun _ => false) x id)
        by (by destruct (_ =? id)). unfold release_messages, cleanup_destinations.
      induction (elements (knownWorkerIds_ x)) as [|v l IH]; [done|]. cbn. rewrite Z.eqb_refl. by f_equal.
  - destruct H as [E _]. exists s0. split; [exact E|]. split; [by intros []|]. split; [done|].
    change (table s0) with (table s). rewrite Hc. split; [by intros []|]. by rewrite elements_empty.
Qed.

(** The messages in flight and those that releasing what is left will send. *)
Definition to_clean (c : cluster) : nat :=
  length (cleanup c) + map_fold (fun _ s n => size (known_at id s) + n)%nat 0%nat (procs c).

Lemma fold_insert (procs : gmap Z (worker T G)) u s s' : procs !! u = Some s ->
  (map_fold (fun _ s n => size (known_at id s) + n)%nat 0%nat (<[u := s']> procs) + size (known_at id s) =
   map_fold (fun _ s n => size (known_at id s) + n)%nat 0%nat procs + size (known_at id s'))%nat.
Proof.
  intros Hu. set (f := fun (_ : Z) (s : worker T G) n => (size (known_at id s) + n)%nat).
  assert (Hf : forall m (i : Z) (x : worker T G), m !! i = Some x -> map_fold f 0%nat m = f i x (map_fold f 0%nat (delete i m))).
  { intros m i x Hi. apply map_fold_delete_L; [|done]. unfold f. intros. lia. }
  rewrite (Hf (<[u := s']> procs) u s') by (by rewrite lookup_insert_eq).
  rewrite (Hf procs u s Hu), delete_insert_eq. unfold f. lia.
Qed.

(** [c0] is the cluster when the release begins.  Whoever was told, or told
    somebody, has no context; whoever was to be told has none or will be told. *)
Record cleanup_inv (c0 c : cluster) : Prop := {
  ci_procs : procs_ok c;
  ci_dom : forall u, is_Some (procs c0 !! u) -> is_Some (procs c !! u);
  ci_same : forall u s, procs c !! u = Some s -> holds id s ->
    exists s0, procs c0 !! u = Some s0 /\ holds id s0 /\ known_at id s = known_at id s0;
  ci_closed : forall u v s, edge c0 u v -> procs c !! u = Some s -> ~ holds id s ->
    v ∈ cleanup c \/ forall sv, procs c !! v = Some sv -> ~ holds id sv;
}.

Lemma cleanup_inv_clean c0 c u (s s' : worker T G) l l' :
  cleanup_inv c0 c -> procs c !! u = Some s -> wf s' -> ~ holds id s' ->
  (forall v, v ∈ cleanup c -> v = u \/ v ∈ l) -> l' = elements (known_at id s) ->
  cleanup_inv c0 (mkCluster (<[u := s']> (procs c)) (forward c) (l ++ l')).
Proof.
  intros [Hok Hdom Hsame Hcl] Hu Hwf' Hno Hl ->. split; unfold procs_ok; cbn [procs cleanup].
  - apply map_Forall_insert_2; [|done]. split; [by apply (Hok u s Hu)|done].
  - intros v Hv. apply lookup_insert_is_Some'. right. by apply Hdom.
  - intros v sv Hv Hh. destruct (decide (v = u)) as [->|Hne].
    + rewrite lookup_insert_eq in Hv. by injection Hv as <-.
    + rewrite lookup_insert_ne in Hv by done. by apply Hsame.
  - intros x y sx He Hx Hnx.
    assert (Hgone : y = u -> forall sy, <[u := s']> (procs c) !! y = Some sy -> ~ holds id sy).
    { intros -> sy. rewrite lookup_insert_eq. by intros [= <-]. }
    assert (Hold : (y ∈ cleanup c \/ forall sv, procs c !! y = Some sv -> ~ holds id sv) ->
      y ∈ l ++ elements (known_at id s) \/ forall sv, <[u := s']> (procs c) !! y = Some sv -> ~ holds id sv).
    { destruct (decide (y = u)) as [->|Hne]; [intros _; by right; apply Hgone|].
      intros [Hy|Hy]; [left; apply elem_of_app; left; destruct (Hl y Hy); done|].
      right. rewrite lookup_insert_ne by done. exact Hy. }
    destruct (decide (x = u)) as [->|Hne].
    + destruct (decide (holds id s)) as [Hh|Hh]; [|by apply Hold, (Hcl u y s)].
      destruct (Hsame u s Hu Hh) as (s0 & Hs0 & _ & E). left. apply elem_of_app. right.
      apply elem_of_elements. rewrite E. destruct He as (s1 & Hs1 & Hy). rewrite Hs0 in Hs1. by injection Hs1 as <-.
    + rewrite lookup_insert_ne in Hx by done. by apply Hold, (Hcl x y sx).
Qed.

Lemma delete_other (k : nat) (l : list Z) u v : l !! k = Some u -> v ∈ l -> v = u \/ v ∈ delete k l.
Proof.
  intros Hk Hv. apply list_elem_of_lookup in Hv as [i Hi]. destruct (decide (i = k)) as [->|Hne]; [left; congruence|].
  right. destruct (decide (i < k)%nat) as [Hlt|Hge].
  - apply (list_elem_of_lookup_2 _ i). by rewrite list_lookup_delete_lt.
  - apply (list_elem_of_lookup_2 _ (i - 1)). rewrite list_lookup_delete_ge by lia. by replace (S (i - 1)) with i by lia.
Qed.

Lemma length_delete_lookup {A} (k : nat) (l : list A) x : l !! k = Some x -> (length (delete k l) + 1 = length l)%nat.
Proof. intros Hk. rewrite length_delete by (by exists x). apply lookup_lt_Some in Hk. lia. Qed.

Lemma cleanup_step_inv c0 c dup c' : cleanup_inv c0 c -> cleanup_step c dup c' ->
  cleanup_inv c0 c' /\ (to_clean c' + (if dup then 0 else 1) <= to_clean c)%nat.
Proof.
  intros Hinv Hstep. destruct Hstep as [k u s t mid m s' Hk Hu Hrun|k u Hk Hu].
  - destruct (ci_procs _ _ Hinv u s Hu) as [_ Hwf]. unfold processCleanupAutogradContextReq, bind in Hrun.
    destruct (cleaned_ok t s Hwf) as (s1 & E & _ & Hwf' & Hno & Hd). rewrite E in Hrun. injection Hrun as _ <-. split.
    + apply (cleanup_inv_clean c0 c u s); try done. intros v Hv. destruct dup; [by right|]. by apply (delete_other k).
    + unfold to_clean. cbn [cleanup procs]. pose proof (fold_insert (procs c) u s s1 Hu) as Hf. rewrite Hd, length_app.
      rewrite (known_none s1 Hno), size_empty in Hf.
      change (length (elements (known_at id s))) with (size (known_at id s)).
      pose proof (length_delete_lookup k _ _ Hk). destruct dup; lia.
  - split.
    + destruct Hinv as [H1 H2 H3 H4]. split; [done..|]. cbn [procs cleanup]. intros x y sx He Hx Hn.
      destruct (H4 x y sx He Hx Hn) as [Hy|Hy]; [|by right]. destruct dup; [by left|].
      destruct (delete_other k _ u y Hk Hy) as [->|?]; [|by left]. right. by rewrite Hu.
    + unfold to_clean. cbn [cleanup procs]. pose proof (length_delete_lookup k _ _ Hk). destruct dup; lia.
Qed.

Lemma ci_dom_step c dup c' : cleanup_step c dup c' -> forall u, is_Some (procs c !! u) -> is_Some (procs c' !! u).
Proof. intros Hs v Hv; destruct Hs; cbn [procs]; [|done]. apply lookup_insert_is_Some'. by right. Qed.

Lemma cleanup_run_inv c0 n c c' : cleanup_run n c c' -> cleanup_inv c0 c ->
  cleanup_inv c0 c' /\ (n + to_clean c' <= to_clean c)%nat /\
  (forall u s, procs c !! u = Some s -> ~ holds id s -> forall s', procs c' !! u = Some s' -> ~ holds id s').
Proof.
  assert (Hkeep : forall x dup y, procs_ok x -> cleanup_step x dup y ->
    forall u s, procs x !! u = Some s -> ~ holds id s -> forall s', procs y !! u = Some s' -> ~ holds id s').
  { intros x dup y Hok Hs u s Hu Hn s' Hu'.
    destruct Hs as [k v sv t mid m s1 Hk Hv Hrun|k v Hk Hv]; cbn [procs] in *; [|by simplify_eq].
    destruct (decide (u = v)) as [->|Hne].
    - rewrite lookup_insert_eq in Hu'. injection Hu' as <-. destruct (Hok v sv Hv) as [_ Hwf].
      unfold processCleanupAutogradContextReq, bind in Hrun.
      destruct (cleaned_ok t sv Hwf) as (s2 & E & _ & _ & Hno & _). rewrite E in Hrun. by injection Hrun as _ <-.
    - rewrite lookup_insert_ne in Hu' by done. by simplify_eq. }
  induction 1 as [c|n c c1 c2 Hs _ IH|n c c1 c2 Hs _ IH]; intros Hinv.
  - split_and!; [done|lia|]. intros u s Hu Hn s' Hu'. by simplify_eq.
  - destruct (cleanup_step_inv c0 c false c1 Hinv Hs) as [Hinv1 Hm]. destruct (IH Hinv1) as (? & ? & Hrest).
    split_and!; [done|lia|]. intros u s Hu Hn. 
    destruct (ci_dom_step _ _ _ Hs u) as [s1 Hs1]; [by exists s|].
    apply (Hrest u s1 Hs1). by apply (Hkeep c false c1 (ci_procs _ _ Hinv) Hs u s Hu Hn).
  - destruct (cleanup_step_inv c0 c true c1 Hinv Hs) as [Hinv1 Hm]. destruct (IH Hinv1) as (? & ? & Hrest).
    split_and!; [done|lia|]. intros u s Hu Hn. 
    destruct (ci_dom_step _ _ _ Hs u) as [s1 Hs1]; [by exists s|].
    apply (Hrest u s1 Hs1). by apply (Hkeep c true c1 (ci_procs _ _ Hinv) Hs u s Hu Hn).
Qed.

Lemma release_inv root t c1 : forward_inv root c1 -> cleanup c1 = [] ->
  exists c2, release root t c1 = Some c2 /\ cleanup_inv c1 c2 /\ (to_clean c2 <= to_clean c1)%nat /\
    exists s2, procs c2 !! root = Some s2 /\ ~ holds id s2.
Proof.
  intros Hinv Hc1. destruct (fi_root _ _ Hinv) as (s & Hs & Hh). destruct (fi_procs _ _ Hinv root s Hs) as [_ Hwf].
  destruct (cleaned_ok t s Hwf) as (s' & _ & E & Hwf' & Hno & Hd). unfold release. rewrite Hs. cbn. rewrite (E Hh).
  eexists. split; [reflexivity|]. rewrite Hc1. split_and!.
  - apply (cleanup_inv_clean c1 c1 root s s' []); [|done..| |done].
    + split; [apply (fi_procs _ _ Hinv)|done| |].
      * intros u su Hu Hhu. by exists su.
      * intros u v su (su' & Hu' & Hv) Hu Hn. rewrite Hu in Hu'. injection Hu' as <-. exfalso.
        rewrite (known_none su Hn) in Hv. by apply elem_of_empty in Hv.
    + rewrite Hc1. intros v []%elem_of_nil.
  - unfold to_clean. cbn [cleanup procs]. pose proof (fold_insert (procs c1) root s s' Hs) as Hf.
    rewrite (known_none s' Hno), size_empty in Hf. rewrite Hd, Hc1. cbn [app length]. change (length (elements (known_at id s))) with (size (known_at id s)). lia.
  - exists s'. cbn [procs]. by rewrite lookup_insert_eq.
Qed.

Lemma cleanup_progress c0 c : cleanup_inv c0 c -> cleanup c <> [] -> exists c', cleanup_step c false c'.
Proof.
  intros Hinv Hne. destruct (cleanup c) as [|u l] eqn:Hc; [done|]. assert (Hk : cleanup c !! 0%nat = Some u) by (by rewrite Hc).
  destruct (procs c !! u) as [s|] eqn:Hu; [|eexists; by eapply CGone].
  destruct (ci_procs _ _ Hinv u s Hu) as [_ Hwf]. destruct (cleaned_ok 0 s Hwf) as (s' & E & _).
  refine (ex_intro _ _ (CArrives c false 0 u s 0%nat 0 _ s' Hk Hu _)). unfold processCleanupAutogradContextReq, bind. rewrite E. reflexivity.
Qed.

Lemma all_released root c0 c : forward_inv root c0 -> cleanup_inv c0 c -> cleanup c = [] ->
  (forall s, procs c !! root = Some s -> ~ holds id s) -> forall u s, procs c !! u = Some s -> ~ holds id s.
Proof.
  intros Hinv [_ Hdom Hsame Hcl] Hempty Hroot u s Hu Hh.
  destruct (Hsame u s Hu Hh) as (s0 & Hs0 & Hh0 & _). pose proof (fi_reach _ _ Hinv u s0 Hs0 Hh0) as Hr.
  assert (Hall : forall su, procs c !! u = Some su -> ~ holds id su); [|by apply (Hall s)].
  clear Hu Hh Hs0 Hh0 s s0 Hinv. induction Hr as [u|x y z Hxy _ IH]; [exact Hroot|]. apply IH.
  pose proof Hxy as (sx & Hx & _). destruct (Hdom x) as [sx' Hx']; [by exists sx|].
  destruct (Hcl x y sx' Hxy Hx' (Hroot sx' Hx')) as [Hy|Hy]; [|done]. rewrite Hempty in Hy. by apply elem_of_nil in Hy.
Qed.

(** C26: the clean-up protocol ends and is complete.  A context [id] starts at
    one worker; any interleaving of sends, arrivals, losses and failures of
    forward RPCs spreads it over the cluster; once none is in flight, the first
    worker releases it.  Then, in every order of delivery and with any number of
    duplicates, at most [to_clean] clean-up messages are delivered; while there is
    one in flight it can be delivered; and when there are none left, no worker has
    the context any more. *)
Theorem autograd_release_complete (root : Z) (t : nat) (c0 c1 : cluster) :
  procs_ok c0 -> forward c0 = [] -> cleanup c0 = [] ->
  (exists s, procs c0 !! root = Some s /\ holds id s) ->
  (forall u s, procs c0 !! u = Some s -> holds id s -> u = root) ->
  rtc forward_step c0 c1 -> forward c1 = [] ->
  exists c2, release root t c1 = Some c2 /\ forall n c3, cleanup_run n c2 c3 ->
    (n + length (cleanup c3) <= to_clean c1)%nat /\
    (cleanup c3 <> [] -> exists c4, cleanup_step c3 false c4) /\
    (cleanup c3 = [] -> forall u s, procs c3 !! u = Some s -> ~ holds id s).
Proof using Type AutogradWire0.
  intros Hok Hf0 Hc0 Hroot Honly Hrun Hf1. 
  assert (Hinv0 : forward_inv root c0).
  { split; [done..| |by rewrite Hf0; intros u m []%elem_of_nil]. intros u s Hu Hh. by rewrite (Honly u s Hu Hh). }
  assert (H1 : forward_inv root c1 /\ cleanup c1 = []).
  { clear -Hinv0 Hc0 Hrun AutogradWire0. induction Hrun as [c|c c' c'' Hs _ IH]; [done|].
    apply IH; [by destruct Hs|by eapply forward_step_inv]. }
  destruct H1 as [Hinv1 Hc1]. clear Hinv0 Hrun Hok Hf0 Hc0 Hroot Honly.
  destruct (release_inv root t c1 Hinv1 Hc1) as (c2 & E & Hinv2 & Hm2 & Hr2).
  exists c2. split; [done|]. intros n c3 Hrun.
  destruct (cleanup_run_inv c1 n c2 c3 Hrun Hinv2) as (Hinv3 & Hm3 & Hnone). split_and!.
  - unfold to_clean in *. lia.
  - intros Hne. by apply (cleanup_progress c1).
  - intros Hempty. apply (all_released root c1 c3); try done.
    intros s Hs. destruct (Hr2) as (s2 & Hs2 & Hn2). by apply (Hnone root s2).
Qed.
End cluster.

(** *** A concrete run: worker 0 makes a context and calls worker 1. *)

Definition ex_worker (w : Z) (cs : list cmd) : worker unit unit :=
  snd (run_cmds false (fun _ => false) (CInit w :: cs)
    (mkWorker 0 0 false [∅] 1 0 0 ∅ ∅ [] [] [] [] [] [] [] ∅ ∅ 0 [])).
Definition ex_c0 : cluster (T := unit) (G := unit) :=
  mkCluster {[ 0 := ex_worker 0 [CNewContext 0]; 1 := ex_worker 1 [] ]} [] [].
Definition ex_open := RpcWithAutograd_open ex_unpickle be_decode.
Definition ex_call : Message unit := mkMessage unit [Byte.x01] [] PYTHON_CALL 0.
Definition ex_sent : outcome (Message unit) * worker unit unit :=
  getMessageWithAutograd 0 (fun _ => true) (fun _ => true) ex_pickle be_encode 0 1 ex_call FORWARD_AUTOGRAD_REQ true ∅
    (ex_worker 0 [CNewContext 0]).
Definition ex_message : Message unit := match fst ex_sent with Ret m => m | _ => ex_call end.
Definition ex_c1 : cluster (T := unit) (G := unit) :=
  mkCluster (<[0 := snd ex_sent]> (procs ex_c0)) [(1, setId 7 ex_message)] [].
Definition ex_received : outcome unit * worker unit unit :=
  receive_forward (fun _ => true) (fun _ => true) ex_open (setId 7 ex_message) (ex_worker 1 []).
Definition ex_c2 : cluster (T := unit) (G := unit) := mkCluster (<[1 := snd ex_received]> (procs ex_c1)) [] [].

#[local] Instance ex_wire : AutogradWire ex_pickle be_encode ex_open :=
  RpcWithAutograd_wire ex_pickle ex_unpickle be_encode be_decode ex_commands_inverts ex_pickle_tensor_free be_codec.

Lemma run_cmds_wf {T G} agent_set send_throws cs : forall s : worker T G, wf s -> wf (snd (run_cmds agent_set send_throws cs s)).
Proof.
  induction cs as [|c cs IH]; intros s Hwf; [done|]. simpl.
  destruct (run_cmd_ok agent_set send_throws c s Hwf) as (s' & -> & Hwf' & _).
  specialize (IH s' Hwf'). by destruct (run_cmds agent_set send_throws cs s').
Qed.

Lemma ex_worker_wf w cs : wf (ex_worker w cs).
Proof.
  destruct (construct_wf (T := unit) (G := unit) 0 0 ltac:(lia)) as (s & Hs & Hwf & _).
  injection Hs as <-. by apply run_cmds_wf.
Qed.

Lemma ex_c0_procs u s : procs ex_c0 !! u = Some s ->
  (u = 0 /\ s = ex_worker 0 [CNewContext 0]) \/ (u = 1 /\ s = ex_worker 1 []).
Proof. unfold ex_c0. cbn [procs]. intros [[<- <-]|[? [<- <-]%lookup_singleton_Some]]%lookup_insert_Some; auto. Qed.

Lemma ex_forward_run : rtc (forward_step (fun _ => true) (fun _ => true) ex_pickle be_encode ex_open) ex_c0 ex_c2.
Proof.
  eapply rtc_l; [|apply rtc_once].
  - apply (FSend _ _ _ _ _ ex_c0 0 (ex_worker 0 [CNewContext 0]) 0 1 ex_call FORWARD_AUTOGRAD_REQ true ∅ 7
      ex_message (snd ex_sent)); [reflexivity|reflexivity|apply map_Forall_empty|vm_compute; reflexivity|vm_compute; reflexivity].
  - apply (FArrives _ _ _ _ _ ex_c1 0 1 (setId 7 ex_message) (ex_worker 1 []) (fst ex_received) (snd ex_received));
      [reflexivity|vm_compute; reflexivity|vm_compute; reflexivity].
Qed.

(** Worker 1 has the context before the release, and nobody afterwards. *)
Lemma autograd_release_complete_witness :
  holds 0 (snd ex_received) /\
  exists c2, release 0 0 0%nat ex_c2 = Some c2 /\ forall n c3, cleanup_run 0 n c2 c3 ->
    cleanup c3 = [] -> forall u s, procs c3 !! u = Some s -> ~ holds 0 s.
Proof.
  split; [by vm_compute; eexists|].
  destruct (autograd_release_complete (fun _ => true) (fun _ => true) ex_pickle be_encode ex_open 0 0 0%nat ex_c0 ex_c2)
    as (c2 & E & Hrun).
  - intros u s [[-> ->]|[-> ->]]%ex_c0_procs; (split; [unfold in_int16; lia|apply ex_worker_wf]).
  - reflexivity.
  - reflexivity.
  - eexists. split; [reflexivity|]. vm_compute. by eexists.
  - intros u s [[-> ->]|[-> ->]]%ex_c0_procs [c Hc]; [done|]. vm_compute in Hc. discriminate.
  - exact ex_forward_run.
  - reflexivity.
  - exists c2. split; [exact E|]. intros n c3 Hc3. by apply (Hrun n c3 Hc3).
Defined.
