(* ===== verification/DistEngine.v ===== *)
(** * The distributed autograd engine

    Models csrc/c10d/distributed/autograd/engine/dist_engine.cpp and dist_engine.h:
    the search of the local graph that computes the dependencies of a backward
    pass, the threads that execute one graph task together, and the life of a
    backward pass, from execute() or the first gradient that arrives to the
    cleanup.

    The local autograd engine (GraphTask, Node, ReadyQueue, evaluate_function) is
    a library outside the repository: nodes are numbers with their edges, and what
    the evaluation of a node gives is a parameter. *)

From stdpp Require Import base option list gmap sets relations strings.
From Stdlib Require Import ZArith Lia.
From S2P Require Import Prelude RpcTypes RpcCommands AutogradContext AutogradCluster.

#[local] Set Warnings "-clear-no-such-hyp".

(** ** The dependencies *)

Inductive node_kind : Type := AccumulateGrad | RecvRpcBackward_ | OtherNode.
#[global] Instance node_kind_eq_dec : EqDecision node_kind.
Proof. solve_decision. Defined.

(** The sets and lists that the search fills; an edge is a node and an input
    number. *)
Abbreviation edge := (nat * Z)%type.
Record search_state := mkSearch {
  seen : gset nat;
  queue : list nat;
  dependencies_ : gmap nat Z;   (* int *)
  outputEdges : list edge;
  recvBackwardEdges : list edge;
}.

Section graph.
(** next_edges() with the edges to no function, and what dynamic_cast finds. *)
Context (next_edges : nat -> list (option edge)) (kind : nat -> node_kind).

Definition is_leaf (n : nat) : bool := bool_decide (next_edges n = []).
Definition visit_edge (e : option edge) (s : search_state) : outcome search_state :=
  match e with
  | None => Ret s
  | Some edge =>
      let nextFn := edge.1 in
      let deps := <[nextFn := int32 (default 0 (dependencies_ s !! nextFn) + 1)]> (dependencies_ s) in
      if bool_decide (nextFn ∈ seen s) then
        Ret (mkSearch (seen s) (queue s) deps (outputEdges s) (recvBackwardEdges s))
      else
        let seen := {[nextFn]} ∪ seen s in
        let queue := queue s ++ [nextFn] in
        if is_leaf nextFn then
          check! bool_decide (kind nextFn <> OtherNode)
            else AssertFailed "dynamic_cast<AccumulateGrad*>(nextFn) || dynamic_cast<RecvRpcBackward*>(nextFn)" in
          Ret (mkSearch seen queue deps (outputEdges s ++ [edge])
                 (if bool_decide (kind nextFn = RecvRpcBackward_) then recvBackwardEdges s ++ [edge] else recvBackwardEdges s))
        else Ret (mkSearch seen queue deps (outputEdges s) (recvBackwardEdges s))
  end.
Fixpoint visit_edges (es : list (option edge)) (s : search_state) : outcome search_state :=
  match es with
  | [] => Ret s
  | e :: es => let? s := visit_edge e s in visit_edges es s
  end.
Definition pop_front (s : search_state) : search_state :=
  mkSearch (seen s) (tail (queue s)) (dependencies_ s) (outputEdges s) (recvBackwardEdges s).
(** The while loop; [Block] is fuel that ran out. *)
Fixpoint search (fuel : nat) (s : search_state) : outcome search_state :=
  match queue s with
  | [] => Ret s
  | fn :: _ =>
      match fuel with
      | O => Block
      | S fuel => let? s := visit_edges (next_edges fn) (pop_front s) in search fuel s
      end
  end.


(** *** What the search finds *)

Definition points_to (u n : nat) : Prop := exists nr, Some (n, nr) ∈ next_edges u.
(** The edges from [u] to [n]. *)
Definition leads (n : nat) (e : option edge) : Prop := fst <$> e = Some n.
#[global] Instance leads_dec n e : Decision (leads n e).
Proof. unfold leads. apply _. Defined.
Definition edges_to (n u : nat) : nat := length (filter (leads n) (next_edges u)).
Definition in_degree (us : list nat) (n : nat) : nat := sum_list_with (edges_to n) us.
Definition reachable (roots : list nat) (n : nat) : Prop := exists r, r ∈ roots /\ rtc points_to r n.
(** A leaf that is neither of the two functions that end a local graph. *)
Definition bad_leaf (n : nat) : Prop := is_leaf n = true /\ kind n = OtherNode.

(** [done]: the nodes taken from the queue; [found]: the nodes an edge led to, in the order they were seen. *)
Record search_inv (roots done found : list nat) (s : search_state) : Prop := {
  si_order : done ++ queue s = roots ++ found;
  si_nodup : NoDup (roots ++ found);
  si_seen : forall n, n ∈ seen s <-> n ∈ found;
  si_reach : forall n, n ∈ roots ++ found -> reachable roots n;
  si_edge : forall n, n ∈ found -> exists u, u ∈ roots ++ found /\ points_to u n;
  si_good : forall n, n ∈ found -> ~ bad_leaf n;
  si_outputs : map fst (outputEdges s) = filter (fun n => is_leaf n = true) found;
  si_recv : recvBackwardEdges s = filter (fun e => kind e.1 = RecvRpcBackward_) (outputEdges s);
  si_output_edges : forall e, e ∈ outputEdges s -> exists u, Some e ∈ next_edges u;
}.
(** What the visited edges have counted and found: those of [rest], and [es]. *)
Record counted (rest : list nat) (es : list (option edge)) (found : list nat) (s : search_state) : Prop := {
  ct_deps : forall n, dependencies_ s !! n =
    match (in_degree rest n + length (filter (leads n) es))%nat with O => None | k => Some (int32 (Z.of_nat k)) end;
  ct_rest : forall u n, u ∈ rest -> points_to u n -> n ∈ found;
  ct_es : forall e, Some e ∈ es -> e.1 ∈ found;
}.

Definition leaf_message : exn :=
  AssertFailed "dynamic_cast<AccumulateGrad*>(nextFn) || dynamic_cast<RecvRpcBackward*>(nextFn)".
(** A leaf of a wrong kind that the roots lead to. *)
Definition has_bad_leaf (roots : list nat) : Prop :=
  exists u n, reachable roots u /\ points_to u n /\ bad_leaf n.

(** *** The search is right *)

Lemma edges_to_points u n : points_to u n <-> edges_to n u <> 0%nat.
Proof.
  unfold edges_to, points_to. split.
  - intros [nr Hnr] H0%length_zero_iff_nil.
    assert (Some (n, nr) ∈ filter (leads n) (next_edges u)) as Hin by (by apply list_elem_of_filter).
    rewrite H0 in Hin. by apply not_elem_of_nil in Hin.
  - destruct (filter (leads n) (next_edges u)) as [|e l] eqn:E; [done|intros _].
    assert (e ∈ filter (leads n) (next_edges u)) as [Hl He]%list_elem_of_filter by (rewrite E; by left).
    unfold leads in Hl. destruct e as [[n' nr]|]; [|done]. injection Hl as ->. by exists nr.
Qed.

Lemma in_degree_snoc us u n : in_degree (us ++ [u]) n = (in_degree us n + edges_to n u)%nat.
Proof. unfold in_degree. rewrite sum_list_with_app. simpl. lia. Qed.

Lemma filter_snoc_leads n es e :
  length (filter (leads n) (es ++ [e])) = (length (filter (leads n) es) + if decide (leads n e) then 1 else 0)%nat.
Proof. rewrite filter_app, length_app, filter_cons. destruct (decide (leads n e)); simpl; lia. Qed.

(** One more edge to [m] is counted. *)
Lemma counted_deps m (deps : gmap nat Z) (f : nat -> nat) :
  (forall n, deps !! n = match f n with O => None | k => Some (int32 (Z.of_nat k)) end) ->
  forall n, <[m := int32 (default 0 (deps !! m) + 1)]> deps !! n =
    match (f n + if decide (m = n) then 1 else 0)%nat with O => None | k => Some (int32 (Z.of_nat k)) end.
Proof.
  intros Hd n. destruct (decide (m = n)) as [->|Hn].
  - rewrite lookup_insert_eq, Hd, Nat.add_comm. simpl. f_equal.
    destruct (f n) as [|k]; simpl; [done|]. rewrite int32_add. f_equal. lia.
  - rewrite lookup_insert_ne, Hd, Nat.add_0_r by done. done.
Qed.

Lemma reachable_step roots u n : reachable roots u -> points_to u n -> reachable roots n.
Proof. intros (r & Hr & Hu) Hp. exists r. split; [done|]. by eapply rtc_r. Qed.

(** A node that is seen for the first time. *)
Lemma search_inv_found roots done found s u n nr s' :
  search_inv roots done found s -> n ∉ roots -> n ∉ found -> u ∈ done -> Some (n, nr) ∈ next_edges u ->
  ~ bad_leaf n -> seen s' = {[n]} ∪ seen s -> queue s' = queue s ++ [n] ->
  outputEdges s' = outputEdges s ++ (if is_leaf n then [(n, nr)] else []) ->
  recvBackwardEdges s' = recvBackwardEdges s ++
    (if is_leaf n && bool_decide (kind n = RecvRpcBackward_) then [(n, nr)] else []) ->
  search_inv roots done (found ++ [n]) s'.
Proof.
  intros [Ho Hnd Hs Hr He Hg Hout Hrecv Hoe] Hroots Hfresh Hu Hedge Hgood Es Eq Eo Er.
  assert (u ∈ roots ++ found) as Hu' by (rewrite <- Ho, elem_of_app; by left).
  assert (points_to u n) as Hp by (by exists nr).
  split.
  - by rewrite Eq, (assoc_L (++)), Ho, (assoc_L (++)).
  - rewrite (assoc_L (++)). apply NoDup_app. split; [done|]. split; [|apply NoDup_singleton].
    intros x Hx ->%list_elem_of_singleton. apply elem_of_app in Hx as [?|?]; done.
  - intros x. rewrite Es, elem_of_union, elem_of_singleton, elem_of_app, list_elem_of_singleton, Hs. tauto.
  - intros x. rewrite (assoc_L (++)), elem_of_app, list_elem_of_singleton. intros [Hx| ->]; [by apply Hr|].
    eapply reachable_step; [by apply Hr|done].
  - intros x. rewrite elem_of_app, list_elem_of_singleton. intros [Hx| ->].
    + destruct (He x Hx) as (v & Hv & ?). exists v. rewrite (assoc_L (++)), elem_of_app. eauto.
    + exists u. rewrite (assoc_L (++)), elem_of_app. eauto.
  - intros x. rewrite elem_of_app, list_elem_of_singleton. intros [Hx| ->]; [by apply Hg|done].
  - rewrite Eo, map_app, Hout, filter_app, filter_cons, filter_nil. by destruct (is_leaf n).
  - rewrite Er, Eo, filter_app, <- Hrecv. f_equal. destruct (is_leaf n); simpl; [|done].
    rewrite filter_cons, filter_nil. simpl. case_bool_decide; by case_decide.
  - intros e. rewrite Eo, elem_of_app. intros [H|H]; [by apply Hoe|].
    destruct (is_leaf n); [apply list_elem_of_singleton in H as ->; by exists u|by apply not_elem_of_nil in H].
Qed.

Lemma counted_edge rest es found found' s s' n nr :
  counted rest es found s -> found ⊆ found' -> n ∈ found' ->
  dependencies_ s' = <[n := int32 (default 0 (dependencies_ s !! n) + 1)]> (dependencies_ s) ->
  counted rest (es ++ [Some (n, nr)]) found' s'.
Proof.
  intros [Hd Hr He] Hsub Hn E. split.
  - intros x. rewrite E, (counted_deps n _ _ Hd x), filter_snoc_leads, Nat.add_assoc.
    unfold leads at 5. simpl. by rewrite (decide_ext (n = x) (Some n = Some x) _ _ ltac:(split; congruence)).
  - intros u x Hu Hp. by apply Hsub, (Hr u).
  - intros e [H|[= ->]%list_elem_of_singleton]%elem_of_app; [by apply Hsub, He|done].
Qed.

Lemma visit_edge_ok roots rest u es e found s :
  (forall v n, points_to v n -> n ∉ roots) -> e ∈ next_edges u -> u ∈ rest ++ [u] ->
  search_inv roots (rest ++ [u]) found s -> counted rest es found s ->
  match visit_edge e s with
  | Ret s' => exists found', search_inv roots (rest ++ [u]) found' s' /\ counted rest (es ++ [e]) found' s'
  | Throw x => x = leaf_message /\ has_bad_leaf roots
  | Block => False
  end.
Proof.
  intros Hroots He Hu HI HC. destruct e as [[n nr]|]; simpl.
  2:{ exists found. split; [done|]. destruct HC as [Hd Hr Hes].
      split; [intros x|done|intros e [Hin|H%list_elem_of_singleton]%elem_of_app; [by apply Hes|done]].
      rewrite filter_snoc_leads, decide_False, Nat.add_0_r by done. apply Hd. }
  assert (points_to u n) as Hp by (by exists nr).
  case_bool_decide as Hseen.
  - apply (si_seen _ _ _ _ HI) in Hseen. exists found.
    split; [by destruct HI; split|]. by eapply counted_edge.
  - rewrite (si_seen _ _ _ _ HI) in Hseen. specialize (Hroots u n Hp).
    assert (u ∈ roots ++ found) as Hu' by (rewrite <- (si_order _ _ _ _ HI), elem_of_app; by left).
    destruct (is_leaf n) eqn:Eleaf.
    + case_bool_decide as Hk; simpl.
      * exists (found ++ [n]). split; [|by eapply counted_edge; [done|intros ?; rewrite elem_of_app; tauto|apply elem_of_app; right; by left|]].
        eapply search_inv_found; [done..|by intros []|done|done|by rewrite Eleaf|].
        rewrite Eleaf. simpl. by case_bool_decide; rewrite ?app_nil_r.
      * split; [done|]. exists u, n. split; [by apply HI|]. split; [done|]. split; [done|].
        by destruct (decide (kind n = OtherNode)).
    + exists (found ++ [n]). split; [|by eapply counted_edge; [done|intros ?; rewrite elem_of_app; tauto|apply elem_of_app; right; by left|]].
      eapply search_inv_found; [done..|by intros [? _]; congruence|done|done|by rewrite Eleaf, app_nil_r|].
      by rewrite Eleaf, app_nil_r.
Qed.

Lemma visit_edges_ok roots rest u es es' found s :
  (forall v n, points_to v n -> n ∉ roots) -> next_edges u = es ++ es' -> u ∈ rest ++ [u] ->
  search_inv roots (rest ++ [u]) found s -> counted rest es found s ->
  match visit_edges es' s with
  | Ret s' => exists found', search_inv roots (rest ++ [u]) found' s' /\ counted rest (es ++ es') found' s'
  | Throw x => x = leaf_message /\ has_bad_leaf roots
  | Block => False
  end.
Proof.
  intros Hroots. revert es found s. induction es' as [|e es' IH]; intros es found s E Hu HI HC; simpl.
  - exists found. by rewrite app_nil_r.
  - pose proof (visit_edge_ok roots rest u es e found s Hroots ltac:(rewrite E; apply elem_of_app; right; by left) Hu HI HC) as H.
    destruct (visit_edge e s) as [s1| |]; simpl; [|done..]. destruct H as (found1 & HI1 & HC1).
    specialize (IH (es ++ [e]) found1 s1). rewrite <- (assoc_L (++)) in IH. by apply IH.
Qed.

(** The node at the front is done. *)
Lemma counted_pop rest u found s : counted rest (next_edges u) found s -> counted (rest ++ [u]) [] found s.
Proof.
  intros [Hd Hr He]. split.
  - intros n. rewrite in_degree_snoc, filter_nil. simpl. rewrite Nat.add_0_r. apply Hd.
  - intros v n [Hv| ->%list_elem_of_singleton]%elem_of_app Hp; [by apply (Hr v)|].
    destruct Hp as [nr Hnr]. apply (He _ Hnr).
  - intros e H. by apply not_elem_of_nil in H.
Qed.

Lemma search_ok roots nodes fuel : forall rest found s,
  (forall v n, points_to v n -> n ∉ roots) -> (forall n, reachable roots n -> n ∈ nodes) ->
  search_inv roots rest found s -> counted rest [] found s -> (length nodes <= length rest + fuel)%nat ->
  match search fuel s with
  | Ret s' => exists found', search_inv roots (roots ++ found') found' s' /\ counted (roots ++ found') [] found' s'
  | Throw x => x = leaf_message /\ has_bad_leaf roots
  | Block => False
  end.
Proof.
  induction fuel as [|fuel IH]; intros rest found s Hroots Hfin HI HC Hfuel; simpl;
    destruct (queue s) as [|u q] eqn:Eq.
  1,3: pose proof (si_order _ _ _ _ HI) as Ho; rewrite Eq, app_nil_r in Ho; subst rest; by exists found.
  all: pose proof (si_order _ _ _ _ HI) as Ho; rewrite Eq in Ho.
  - exfalso. assert (length (roots ++ found) <= length nodes)%nat as Hle.
    { apply submseteq_length, NoDup_submseteq; [apply HI|]. intros n Hn. by apply Hfin, HI. }
    rewrite <- Ho, length_app in Hle. simpl in Hle. lia.
  - pose proof (visit_edges_ok roots rest u [] (next_edges u) found (pop_front s) Hroots eq_refl) as H.
    assert (u ∈ rest ++ [u]) as Hu by (apply elem_of_app; right; by left).
    assert (search_inv roots (rest ++ [u]) found (pop_front s)) as HI'.
    { destruct HI. split; [|done..]. simpl. by rewrite Eq, <- (assoc_L (++)). }
    assert (counted rest [] found (pop_front s)) as HC' by (by destruct HC; split).
    specialize (H Hu HI' HC'). destruct (visit_edges (next_edges u) (pop_front s)) as [s1| |]; simpl; [|done..].
    destruct H as (found1 & HI1 & HC1). apply (IH (rest ++ [u]) found1); [done|done|done|by apply counted_pop|].
    rewrite length_app. simpl. lia.
Qed.

(** What computeDependencies starts from: GraphRoot and the send functions. *)
Definition search_start (roots : list nat) : search_state := mkSearch ∅ roots ∅ [] [].

Lemma search_start_inv roots : NoDup roots ->
  search_inv roots [] [] (search_start roots) /\ counted [] [] [] (search_start roots).
Proof.
  intros Hnd. split.
  - split; simpl; rewrite ?app_nil_r; try done; try (intros n H; by apply not_elem_of_nil in H).
    + intros n. split; intros H; [by apply not_elem_of_empty in H|by apply not_elem_of_nil in H].
    + intros n Hn. by exists n.
  - split; simpl; [done|intros ? ? H; by apply not_elem_of_nil in H|intros ? H; by apply not_elem_of_nil in H].
Qed.

(** Everything reachable has been found. *)
Lemma counted_complete roots found s : counted (roots ++ found) [] found s ->
  forall n, reachable roots n -> n ∈ roots ++ found.
Proof.
  intros HC n (r & Hr & Hrn). assert (r ∈ roots ++ found) as Hin by (apply elem_of_app; by left).
  clear Hr. induction Hrn as [|u v w Huv _ IH]; [done|]. apply IH, elem_of_app. right.
  by apply (ct_rest _ _ _ _ HC u).
Qed.

(** What the search means: [reach] is any enumeration of the reachable nodes. *)
Record search_spec (roots reach : list nat) (s : search_state) : Prop := {
  ss_dependencies : forall n, dependencies_ s !! n =
    match in_degree reach n with O => None | k => Some (int32 (Z.of_nat k)) end;
  ss_nodup : NoDup (map fst (outputEdges s));
  ss_outputs : forall n, n ∈ map fst (outputEdges s) <-> is_leaf n = true /\ in_degree reach n <> 0%nat;
  ss_edges : forall e, e ∈ outputEdges s -> exists u, Some e ∈ next_edges u;
  ss_recv : recvBackwardEdges s = filter (fun e => kind e.1 = RecvRpcBackward_) (outputEdges s);
}.

Lemma in_degree_perm us vs n : us ≡ₚ vs -> in_degree us n = in_degree vs n.
Proof. intros H. unfold in_degree. by rewrite H. Qed.
Lemma in_degree_points us n : in_degree us n <> 0%nat <-> exists u, u ∈ us /\ points_to u n.
Proof.
  unfold in_degree. induction us as [|u us IH]; simpl.
  - split; [done|]. intros (u & H & _). by apply not_elem_of_nil in H.
  - setoid_rewrite elem_of_cons. split.
    + intros H. destruct (decide (edges_to n u = 0%nat)) as [E|E].
      * destruct IH as [IH _]. destruct IH as (v & ? & ?); [lia|]. eauto.
      * exists u. split; [by left|]. by apply edges_to_points.
    + intros (v & [->|Hv] & Hp).
      * apply edges_to_points in Hp. lia.
      * assert (sum_list_with (edges_to n) us <> 0%nat) by (apply IH; eauto). lia.
Qed.

Lemma search_result roots reach found s :
  (forall n, n ∈ reach <-> reachable roots n) -> NoDup reach ->
  search_inv roots (roots ++ found) found s -> counted (roots ++ found) [] found s ->
  search_spec roots reach s.
Proof.
  intros Hreach Hnd HI HC.
  assert (reach ≡ₚ roots ++ found) as Hp.
  { apply NoDup_Permutation; [done|apply HI|]. intros n. rewrite Hreach. split; [by apply (counted_complete _ _ _ HC)|apply HI]. }
  assert (forall n, in_degree reach n = in_degree (roots ++ found) n) as Hdeg by (intros n; by apply in_degree_perm).
  split.
  - intros n. rewrite Hdeg, (ct_deps _ _ _ _ HC n), filter_nil. simpl. by rewrite Nat.add_0_r.
  - rewrite (si_outputs _ _ _ _ HI). apply NoDup_filter. apply (NoDup_app roots), HI.
  - intros n. rewrite (si_outputs _ _ _ _ HI), list_elem_of_filter, Hdeg, in_degree_points. split.
    + intros [Hl Hn]. split; [done|]. by apply HI.
    + intros [Hl (u & Hu & Hp')]. split; [done|]. by apply (ct_rest _ _ _ _ HC u).
  - apply HI.
  - apply HI.
Qed.

Lemma search_from roots reach fuel : NoDup roots -> (forall u n, points_to u n -> n ∉ roots) ->
  (forall n, n ∈ reach <-> reachable roots n) -> NoDup reach -> (length reach <= fuel)%nat ->
  match search fuel (search_start roots) with
  | Ret s => search_spec roots reach s /\ ~ has_bad_leaf roots
  | Throw e => e = leaf_message /\ has_bad_leaf roots
  | Block => False
  end.
Proof.
  intros Hnd Hroots Hreach Hndr Hfuel. destruct (search_start_inv roots Hnd) as [HI HC].
  pose proof (search_ok roots reach fuel [] [] _ Hroots (fun n => proj2 (Hreach n)) HI HC Hfuel) as H.
  destruct (search fuel (search_start roots)) as [s| |]; [|done..]. destruct H as (found & HI' & HC').
  split; [by eapply search_result|]. intros (u & n & Hu & Hp & Hbad).
  apply (si_good _ _ _ _ HI' n); [|done]. apply (ct_rest _ _ _ _ HC' u); [by eapply counted_complete|done].
Qed.
End graph.

(** ** The threads of one graph task

    execute_graph_task_until_ready_queue_empty, as it is run by several threads on
    the same graph task: one for each send function whose gradients have arrived,
    one for the root of execute, and those that the global CPU thread launches.
    What evaluate_function pushes or throws, the order in which a ReadyQueue gives
    its tasks and the outcome of the post-processing belong to the local engine and
    are answers that a step is labelled with. *)

(** Where a thread is: before the push of its own task; at the test of the loop, with
    its queue; with a task in hand; before the decrement; before the last test. *)
Inductive pc : Type :=
  | TPush (fn : nat) (incrementOutstandingTasks : bool)
  | TTest (cpu_ready_queue : list nat)
  | TEval (fn : nat) (cpu_ready_queue : list nat)
  | TDec (cpu_ready_queue : list nat)
  | TCheck
  | TDone.

(** What execute_graph_task_until_ready_queue_empty shares: the counter of the graph
    task, its threads, and its tasks in the queue of the global CPU thread. *)
Record task_run := mkRun {
  outstanding_tasks_ : Z;
  task_threads : list pc;
  global_cpu_ready_queue_ : list nat;
}.

(** evaluate_function returns, with the tasks it has pushed to the two queues, or
    throws. *)
Inductive evaluation : Type :=
  | Evaluated (pushed pushed_global : list nat)
  | Threw (e : exn).

Inductive run_label : Type :=
  | LLaunch (fn : nat) (incrementOutstandingTasks : bool)
  | LPush (i : nat)
  | LTest (i k : nat)
  | LEval (i : nat) (r : evaluation)
  | LDec (i : nat)
  | LCheck (i : nat) (post_processing : option exn)
  | LGlobal (k : nat)
  | LError (e : exn).

(** Before any thread: one task for each send function. *)
Definition run_start (sendFunctions : list nat) : task_run :=
  mkRun (Z.of_nat (length sendFunctions)) [] [].

(** The functions of the local engine that end a graph task, as it documents them:
    with exit_on_error a task is completed when nothing is outstanding or after an
    error; the first thread that sets future_completed_ marks the future, with the
    outcome of the post-processing; an exception of a function is set on the task. *)
Class LocalEngine := {
  completed : Z -> bool -> bool;   (* outstanding_tasks_, has_error_ *)
  mark_as_completed_and_run_post_processing : option exn -> GraphTask -> GraphTask;
  thread_on_exception : exn -> GraphTask -> GraphTask;
  completed_spec : forall n error, completed n error = (n =? 0) || error;
  mark_spec : forall post gt, mark_as_completed_and_run_post_processing post gt =
    if future_completed_ gt then gt
    else mkGraphTask (keep_graph_ gt) (has_error_ gt) true (match future_result_ gt with None => Some post | r => r end);
  exception_spec : forall e gt, thread_on_exception e gt = set_exception e gt;
}.

Section threads.
Context {LE : LocalEngine}.

Definition set_thread (i : nat) (p : pc) (r : task_run) : task_run :=
  mkRun (outstanding_tasks_ r) (<[i := p]> (task_threads r)) (global_cpu_ready_queue_ r).
Definition add_tasks (n : Z) (r : task_run) : task_run :=
  mkRun (outstanding_tasks_ r + n) (task_threads r) (global_cpu_ready_queue_ r).
(** at::launch. *)
Definition launch (fn : nat) (incrementOutstandingTasks : bool) (r : task_run) : task_run :=
  mkRun (outstanding_tasks_ r) (task_threads r ++ [TPush fn incrementOutstandingTasks]) (global_cpu_ready_queue_ r).

(** The global CPU thread takes the task [k] and launches a thread for it; the graph
    task has not expired, and there is no shutdown. *)
Definition globalCpuThread (k : nat) (r : task_run) : option task_run :=
  fn ← global_cpu_ready_queue_ r !! k;
  Some (launch fn false (mkRun (outstanding_tasks_ r) (task_threads r) (delete k (global_cpu_ready_queue_ r)))).

(** [None]: the thread is not there. *)
Definition run_step (l : run_label) (gr : GraphTask * task_run) : option (GraphTask * task_run) :=
  let '(gt, r) := gr in
  match l with
  | LLaunch fn inc => Some (gt, launch fn inc r)
  | LPush i =>
      match task_threads r !! i with
      | Some (TPush fn inc) => Some (gt, set_thread i (TTest [fn]) (add_tasks (if inc then 1 else 0) r))
      | _ => None
      end
  | LTest i k =>
      match task_threads r !! i with
      | Some (TTest []) => Some (gt, set_thread i TCheck r)
      | Some (TTest q) =>
          fn ← q !! k;
          let q := delete k q in
          Some (gt, set_thread i (if has_error_ gt then TDec q else TEval fn q) r)
      | _ => None
      end
  | LEval i (Evaluated pushed pushed_global) =>
      match task_threads r !! i with
      | Some (TEval fn q) =>
          Some (gt, mkRun (outstanding_tasks_ r + Z.of_nat (length pushed) + Z.of_nat (length pushed_global))
                     (<[i := TDec (q ++ pushed)]> (task_threads r)) (global_cpu_ready_queue_ r ++ pushed_global))
      | _ => None
      end
  | LEval i (Threw e) =>
      match task_threads r !! i with
      | Some (TEval fn q) => Some (thread_on_exception e gt, set_thread i TCheck r)
      | _ => None
      end
  | LDec i =>
      match task_threads r !! i with
      | Some (TDec q) => Some (gt, set_thread i (TTest q) (add_tasks (-1) r))
      | _ => None
      end
  | LCheck i post =>
      match task_threads r !! i with
      | Some TCheck =>
          Some (if completed (outstanding_tasks_ r) (has_error_ gt) then mark_as_completed_and_run_post_processing post gt else gt, set_thread i TDone r)
      | _ => None
      end
  | LGlobal k =>
      r ← globalCpuThread k r;
      Some (gt, r)
  | LError e => Some (set_exception e gt, r)
  end.
Fixpoint run_steps (ls : list run_label) (gr : GraphTask * task_run) : option (GraphTask * task_run) :=
  match ls with
  | [] => Some gr
  | l :: ls => gr ← run_step l gr; run_steps ls gr
  end.
Definition fresh_task (keep_graph : bool) : GraphTask := mkGraphTask keep_graph false false None.

(** The send functions whose gradients have arrived. *)
Definition arrival (l : run_label) : option nat :=
  match l with LLaunch fn false => Some fn | _ => None end.
Definition arrived (ls : list run_label) : list nat := omap arrival ls.
(** A bound on the steps that a label makes possible. *)
Definition work (l : run_label) : nat :=
  match l with
  | LLaunch _ _ => 7
  | LEval _ (Evaluated pushed pushed_global) => 3 * length pushed + 7 * length pushed_global
  | LError _ => 1
  | _ => 0
  end.

(** *** The counter *)

(** The counted tasks of a thread. *)
Definition held (p : pc) : nat :=
  match p with
  | TPush _ inc => if inc then 0 else 1
  | TTest q => length q
  | TEval _ q | TDec q => S (length q)
  | TCheck | TDone => 0
  end.
(** A thread that will test for completion whatever the others do. *)
Definition will_check (p : pc) : Prop := p = TTest [] \/ p = TCheck \/ exists fn, p = TPush fn true.
Definition tasks (r : task_run) : nat := sum_list_with held (task_threads r) + length (global_cpu_ready_queue_ r).

Record run_inv (pending : nat) (gt : GraphTask) (r : task_run) : Prop := {
  ri_count : has_error_ gt = false -> outstanding_tasks_ r = Z.of_nat (pending + tasks r);
  ri_error : has_error_ gt = true -> future_completed_ gt = true;
  ri_result : future_completed_ gt = true <-> future_result_ gt <> None;
  ri_check : future_completed_ gt = false ->
    task_threads r = [] \/ 0 < outstanding_tasks_ r \/ Exists will_check (task_threads r);
}.

Lemma tasks_set i p p' r : task_threads r !! i = Some p ->
  (tasks (set_thread i p' r) + held p = tasks r + held p')%nat.
Proof. intros H. unfold tasks. simpl. pose proof (sum_insert held _ _ _ p' H). lia. Qed.

Lemma tasks_held i p r : task_threads r !! i = Some p -> (held p <= tasks r)%nat.
Proof. intros H. pose proof (tasks_set i p TDone r H). simpl in *. lia. Qed.

(** A thread that moves on keeps its word to check, or becomes bound to. *)
Lemma check_set i p p' ts : ts !! i = Some p -> (will_check p -> will_check p') ->
  Exists will_check ts -> Exists will_check (<[i := p']> ts).
Proof.
  intros Hi Hp (q & Hq & Hw)%Exists_exists. apply Exists_exists.
  apply list_elem_of_lookup in Hq as [j Hj]. destruct (decide (i = j)) as [->|Hij].
  - rewrite Hi in Hj. injection Hj as ->. exists p'. split; [|by apply Hp].
    apply list_elem_of_lookup. exists j. apply list_lookup_insert_eq. by eapply lookup_lt_Some.
  - exists q. split; [|done]. apply list_elem_of_lookup. exists j. by rewrite list_lookup_insert_ne.
Qed.
Lemma check_now i p p' ts : ts !! i = Some p -> will_check p' -> Exists will_check (<[i := p']> ts).
Proof.
  intros Hi Hp. apply Exists_exists. exists p'. split; [|done]. apply list_elem_of_lookup. exists i.
  apply list_lookup_insert_eq. by eapply lookup_lt_Some.
Qed.

(** The graph task is left alone, and there are counted tasks or a thread that will check. *)
Lemma run_inv_keep pending pending' gt r r' : run_inv pending gt r ->
  (outstanding_tasks_ r = Z.of_nat (pending + tasks r) -> outstanding_tasks_ r' = Z.of_nat (pending' + tasks r')) ->
  (outstanding_tasks_ r = Z.of_nat (pending + tasks r) -> future_completed_ gt = false ->
   (0 < outstanding_tasks_ r')%Z \/ Exists will_check (task_threads r')) ->
  run_inv pending' gt r'.
Proof.
  intros [Hc He Hr Hk] H1 H2. split; [auto|done|done|]. intros Hf.
  assert (has_error_ gt = false) as Hne by (destruct (has_error_ gt); [rewrite He in Hf; done|done]).
  destruct (H2 (Hc Hne) Hf); auto.
Qed.

Lemma set_exception_inv e pending gt r r' : run_inv pending gt r -> run_inv pending (set_exception e gt) r'.
Proof.
  intros [Hc He Hr Hk]. unfold set_exception. destruct (future_completed_ gt) eqn:E; split; simpl; try done.
  by destruct (future_result_ gt).
Qed.

Lemma run_step_inv l pending gt r gt' r' : run_inv pending gt r -> run_step l (gt, r) = Some (gt', r') ->
  (is_Some (arrival l) -> (0 < pending)%nat) ->
  run_inv (match arrival l with Some _ => pred pending | None => pending end) gt' r'.
Proof.
  intros HI Hs Hp. assert (future_completed_ gt = false ->
    task_threads r = [] \/ 0 < outstanding_tasks_ r \/ Exists will_check (task_threads r)) as Hk by apply HI.
  destruct l as [fn inc|i|i k|i ev|i|i post|k|e]; simpl in Hs.
  - injection Hs as <- <-. eapply run_inv_keep; [done|simpl; intros ->..].
    + unfold tasks. simpl. rewrite sum_list_with_app. simpl. destruct inc; simpl; [lia|]. specialize (Hp ltac:(done)). lia.
    + intros _. destruct inc; [right|left; specialize (Hp ltac:(done)); lia].
      apply Exists_app. right. apply Exists_cons_hd. right. right. by exists fn.
  - destruct (task_threads r !! i) as [[fn inc| | | | |]|] eqn:E; simplify_eq/=.
    pose proof (tasks_set i _ (TTest [fn]) r E) as Ht. pose proof (tasks_held i _ r E) as Hh. simpl in Ht, Hh.
    eapply run_inv_keep; [done|simpl; intros ->..].
    + unfold tasks in *. simpl in *. destruct inc; lia.
    + intros _. left. destruct inc; lia.
  - destruct (task_threads r !! i) as [[|[|x q]| | | |]|] eqn:E; simplify_eq/=.
    + pose proof (tasks_set i _ TCheck r E) as Ht. simpl in Ht.
      eapply run_inv_keep; [done|simpl; intros ->..].
      * unfold tasks in *. simpl in *. lia.
      * intros _. right. eapply check_now; [done|]. by right; left.
    + destruct ((x :: q) !! k) as [fn|] eqn:Ek; simplify_eq/=. pose proof (length_delete_list _ _ _ Ek) as Hl. simpl in Hl.
      pose proof (tasks_held i _ r E) as Hh. simpl in Hh.
      eapply run_inv_keep; [done| |simpl; intros ->; left; lia].
      pose proof (tasks_set i _ (if has_error_ gt' then TDec (delete k (x :: q)) else TEval fn (delete k (x :: q))) r E) as Ht.
      unfold tasks in *. simpl in *. intros ->. destruct (has_error_ gt'); simpl in *; lia.
  - destruct ev as [pushed pushed_global|e]; destruct (task_threads r !! i) as [[| |fn q| | |]|] eqn:E; simplify_eq/=.
    + pose proof (tasks_set i _ (TDec (q ++ pushed)) r E) as Ht. pose proof (tasks_held i _ r E) as Hh. simpl in Ht, Hh.
      eapply run_inv_keep; [done|simpl; intros ->..]; unfold tasks in *; simpl in *; [rewrite ?length_app in *; lia|].
      intros _. left. lia.
    + rewrite exception_spec. by eapply set_exception_inv.
  - destruct (task_threads r !! i) as [[| | |q| |]|] eqn:E; simplify_eq/=.
    pose proof (tasks_set i _ (TTest q) r E) as Ht. pose proof (tasks_held i _ r E) as Hh. simpl in Ht, Hh.
    eapply run_inv_keep; [done|simpl; intros ->..]; unfold tasks in *; simpl in *; [lia|].
    intros _. destruct q; simpl in *; [right; eapply check_now; [done|by left]|left; lia].
  - destruct (task_threads r !! i) as [[| | | | |]|] eqn:E; simplify_eq/=.
    pose proof (tasks_set i _ TDone r E) as Ht. simpl in Ht. rewrite completed_spec.
    destruct (Z.eqb_spec (outstanding_tasks_ r) 0) as [H0|H0]; simpl.
    + destruct HI as [Hc He Hr _]. rewrite mark_spec.
      destruct (future_completed_ gt) eqn:Ef; split; simpl; try done.
      * intros Hne. rewrite (Hc Hne). unfold tasks in *. simpl in *. lia.
      * by rewrite Ef.
      * by rewrite Ef.
      * intros Hne. rewrite (Hc Hne). unfold tasks in *. simpl in *. lia.
      * by destruct (future_result_ gt).
    + eapply (run_inv_keep pending) in HI as HI'; [|shelve..].
      destruct (has_error_ gt) eqn:Ee; [|exact HI'].
      rewrite mark_spec. by rewrite (ri_error _ _ _ HI Ee).
      Unshelve. all: simpl; intros Ho.
      * unfold tasks in *. simpl in *. lia.
      * intros _. left. lia.
  - unfold globalCpuThread in Hs. destruct (global_cpu_ready_queue_ r !! k) as [fn|] eqn:E; simplify_eq/=. pose proof (length_delete_list _ _ _ E) as Hl.
    eapply run_inv_keep; [done|simpl; intros ->..]; unfold tasks in *; simpl in *; [rewrite sum_list_with_app; simpl; lia|].
    intros _. left. lia.
  - injection Hs as <- <-. by eapply set_exception_inv.
Qed.

Lemma run_steps_app ls ls' gr :
  run_steps (ls ++ ls') gr = (gr ← run_steps ls gr; run_steps ls' gr).
Proof. revert gr. induction ls as [|l ls IH]; intros gr; simpl; [done|]. destruct (run_step l gr); simpl; [apply IH|done]. Qed.

Lemma run_steps_snoc ls l gr gr' : run_steps (ls ++ [l]) gr = Some gr' ->
  exists gr1, run_steps ls gr = Some gr1 /\ run_step l gr1 = Some gr'.
Proof.
  rewrite run_steps_app. intros (gr1 & E & H)%bind_Some. exists gr1. split; [done|].
  cbn [run_steps] in H. by destruct (run_step l gr1).
Qed.

(** Each send function arrives at most once. *)
Definition arrive_once (sends : list nat) (ls : list run_label) : Prop :=
  NoDup (arrived ls) /\ arrived ls ⊆ sends.

Lemma arrived_length sends ls : arrive_once sends ls -> (length (arrived ls) <= length sends)%nat.
Proof. intros [Hnd Hs]. by apply submseteq_length, NoDup_submseteq. Qed.
Lemma arrive_once_app sends ls ls' : arrive_once sends (ls ++ ls') -> arrive_once sends ls.
Proof.
  unfold arrive_once, arrived. rewrite omap_app. intros [[Hnd _]%NoDup_app Hs]. split; [done|].
  intros x Hx. apply Hs, elem_of_app. by left.
Qed.

Lemma run_inv_start sends keep : run_inv (length sends) (fresh_task keep) (run_start sends).
Proof.
  split; simpl; try done; [|by left]. intros _. unfold tasks. simpl. lia.
Qed.

Lemma run_reach_inv sends keep ls gt r : arrive_once sends ls ->
  run_steps ls (fresh_task keep, run_start sends) = Some (gt, r) ->
  run_inv (length sends - length (arrived ls)) gt r.
Proof.
  revert gt r. induction ls as [|l ls IH] using rev_ind; intros gt r Ho Hs.
  - injection Hs as <- <-. simpl. rewrite Nat.sub_0_r. apply run_inv_start.
  - destruct (run_steps_snoc _ _ _ _ Hs) as ([gt1 r1] & E & E1).
    specialize (IH gt1 r1 (arrive_once_app _ _ _ Ho) E).
    pose proof (arrived_length _ _ Ho) as Hl. unfold arrived in *. rewrite omap_app, length_app in *. simpl in *.
    pose proof (run_step_inv l _ _ _ _ _ IH E1) as H. destruct (arrival l); simpl in *.
    + replace (length sends - _)%nat with (pred (length sends - length (omap arrival ls))) by lia. apply H. lia.
    + rewrite Nat.add_0_r. apply H. by intros [].
Qed.

(** All that were to arrive have. *)
Lemma arrived_all sends ls : arrive_once sends ls -> (length sends <= length (arrived ls))%nat -> arrived ls ≡ₚ sends.
Proof. intros [Hnd Hs] Hl. apply submseteq_length_Permutation; [by apply NoDup_submseteq|done]. Qed.

Lemma no_tasks r : tasks r = 0%nat -> Forall (fun p => held p = 0%nat) (task_threads r) /\ global_cpu_ready_queue_ r = [].
Proof.
  unfold tasks. intros H. split; [|apply length_zero_iff_nil; lia]. apply Forall_forall. intros p Hp.
  pose proof (sum_list_with_in p held (task_threads r)) as Hin. specialize (Hin Hp). lia.
Qed.

(** A step that completes the task without an error is the last test of a thread. *)
Lemma completing_step l gt r gt' r' : run_step l (gt, r) = Some (gt', r') ->
  (has_error_ gt = true -> future_completed_ gt = true) -> (future_completed_ gt = true <-> future_result_ gt <> None) ->
  future_result_ gt = None -> future_result_ gt' = Some None ->
  has_error_ gt = false /\ has_error_ gt' = false /\ outstanding_tasks_ r = 0 /\ exists i, task_threads r !! i = Some TCheck /\ r' = set_thread i TDone r.
Proof.
  intros Hs He Hr Hn Hd.
  assert (future_completed_ gt = false) as Hf by (destruct (future_completed_ gt); [by apply Hr in Hn|done]).
  assert (has_error_ gt = false) as Hne by (destruct (has_error_ gt); [by rewrite He in Hf|done]).
  assert (forall e, future_result_ (set_exception e gt) <> Some None) as Hse.
  { intros e. unfold set_exception. rewrite Hf, Hn. done. }
  split; [done|]. destruct l as [fn inc|i|i k|i ev|i|i post|k|e]; simpl in Hs.
  6:{ destruct (task_threads r !! i) as [[| | | | |]|] eqn:E; simplify_eq/=. rewrite completed_spec in *.
      rewrite Hne, orb_false_r in *. destruct (Z.eqb_spec (outstanding_tasks_ r) 0); [|congruence].
      simpl. rewrite mark_spec, Hf. eauto. }
  all: unfold globalCpuThread in Hs; repeat case_match; simplify_eq/=; try congruence; rewrite ?exception_spec in Hd; try (by apply Hse in Hd).
  all: try (destruct (_ !! k); simplify_eq/=; congruence).
Qed.

(** A graph task completes without an error only when all is done: at the step
    that marks its future with a value, the gradients of every send function have
    arrived and their threads have nothing left, no task is in the queue of the
    global CPU thread, and no thread has thrown.  The one thread that may still have
    work is a root that has been launched but has not pushed its task. *)
Theorem engine_completes_last (sends : list nat) (keep : bool) (ls : list run_label) (l : run_label) gt r gt' r' :
  arrive_once sends (ls ++ [l]) ->
  run_steps ls (fresh_task keep, run_start sends) = Some (gt, r) -> run_step l (gt, r) = Some (gt', r') ->
  future_result_ gt = None -> future_result_ gt' = Some None ->
  arrived ls ≡ₚ sends /\ has_error_ gt' = false /\ global_cpu_ready_queue_ r' = [] /\
  Forall (fun p => p = TTest [] \/ p = TCheck \/ p = TDone \/ exists fn, p = TPush fn true) (task_threads r').
Proof.
  intros Ho Hr Hs Hn Hd. pose proof (run_reach_inv _ _ _ _ _ (arrive_once_app _ _ _ Ho) Hr) as HI.
  destruct (completing_step l gt r gt' r' Hs (ri_error _ _ _ HI) (ri_result _ _ _ HI) Hn Hd) as (Hne & Hne' & H0 & i & Hi & ->).
  pose proof (ri_count _ _ _ HI Hne) as Hc. rewrite H0 in Hc. destruct (no_tasks r) as [Hall Hg]; [lia|].
  split; [apply arrived_all; [by eapply arrive_once_app|lia]|]. split; [done|]. split; [done|].
  simpl. apply Forall_insert; [|by right; right; left].
    eapply Forall_impl; [exact Hall|]. intros [fn []|[]| | | |]; simpl; intros; try done; eauto 6.
Qed.

(** *** Termination and completion *)

(** What is still to be done, in steps. *)
Definition weight (p : pc) : nat :=
  match p with
  | TPush _ _ => 6
  | TTest q => 3 * length q + 2
  | TEval _ q => 3 * length q + 4
  | TDec q => 3 * length q + 3
  | TCheck => 1
  | TDone => 0
  end.
Definition potential (r : task_run) : nat :=
  sum_list_with weight (task_threads r) + 7 * length (global_cpu_ready_queue_ r).

Lemma potential_set i p p' r : task_threads r !! i = Some p ->
  (potential (set_thread i p' r) + weight p = potential r + weight p')%nat.
Proof. intros H. unfold potential. simpl. pose proof (sum_insert weight _ _ _ p' H). lia. Qed.

Lemma run_step_potential l gt r gt' r' : run_step l (gt, r) = Some (gt', r') ->
  (S (potential r') <= potential r + work l)%nat.
Proof.
  intros Hs. destruct l as [fn inc|i|i k|i ev|i|i post|k|e]; simpl in Hs.
  - simplify_eq/=. unfold potential. simpl. rewrite sum_list_with_app. simpl. lia.
  - destruct (task_threads r !! i) as [[fn inc| | | | |]|] eqn:E; simplify_eq/=.
    pose proof (potential_set i _ (TTest [fn]) r E). unfold potential in *. simpl in *. lia.
  - destruct (task_threads r !! i) as [[|[|x q]| | | |]|] eqn:E; simplify_eq/=.
    + pose proof (potential_set i _ TCheck r E). unfold potential in *. simpl in *. lia.
    + destruct ((x :: q) !! k) as [fn|] eqn:Ek; simplify_eq/=. pose proof (length_delete_list _ _ _ Ek) as Hl. simpl in Hl.
      pose proof (potential_set i _ (if has_error_ gt' then TDec (delete k (x :: q)) else TEval fn (delete k (x :: q))) r E) as H.
      unfold potential in *. simpl in *. destruct (has_error_ gt'); simpl in *; lia.
  - destruct ev as [pushed pushed_global|e]; destruct (task_threads r !! i) as [[| |fn q| | |]|] eqn:E; simplify_eq/=.
    + pose proof (potential_set i _ (TDec (q ++ pushed)) r E). unfold potential in *. simpl in *. rewrite ?length_app in *. lia.
    + pose proof (potential_set i _ TCheck r E). unfold potential in *. simpl in *. lia.
  - destruct (task_threads r !! i) as [[| | |q| |]|] eqn:E; simplify_eq/=.
    pose proof (potential_set i _ (TTest q) r E). unfold potential in *. simpl in *. lia.
  - destruct (task_threads r !! i) as [[| | | | |]|] eqn:E; simplify_eq/=.
    pose proof (potential_set i _ TDone r E). unfold potential in *. simpl in *. lia.
  - unfold globalCpuThread in Hs. destruct (global_cpu_ready_queue_ r !! k) as [fn|] eqn:E; simplify_eq/=. pose proof (length_delete_list _ _ _ E).
    unfold potential. simpl. rewrite sum_list_with_app. simpl. lia.
  - simplify_eq/=. lia.
Qed.

Lemma run_steps_potential ls : forall gr gr', run_steps ls gr = Some gr' ->
  (length ls + potential gr'.2 <= potential gr.2 + sum_list_with work ls)%nat.
Proof.
  induction ls as [|l ls IH]; intros gr gr' Hs; [injection Hs as <-; simpl; lia|].
  cbn [run_steps] in Hs. apply bind_Some in Hs as ([gt1 r1] & E & Hs). destruct gr as [gt r].
  apply run_step_potential in E. apply IH in Hs. simpl in *. lia.
Qed.

(** No thread ever waits: whatever the environment answers, it moves. *)
Lemma thread_moves gt r i p : task_threads r !! i = Some p -> p <> TDone ->
  forall ev post, exists l, l ∈ [LPush i; LTest i 0; LEval i ev; LDec i; LCheck i post] /\ is_Some (run_step l (gt, r)).
Proof.
  intros Hi Hp ev post. destruct p as [fn inc|q|fn q|q| |]; [| | | | |done].
  - exists (LPush i). split; [set_solver|]. simpl. rewrite Hi. eauto.
  - exists (LTest i 0). split; [set_solver|]. simpl. rewrite Hi. destruct q; simpl; eauto.
  - exists (LEval i ev). split; [set_solver|]. simpl. destruct ev; rewrite Hi; eauto.
  - exists (LDec i). split; [set_solver|]. simpl. rewrite Hi. eauto.
  - exists (LCheck i post). split; [set_solver|]. simpl. rewrite Hi. eauto.
Qed.

(** When all is quiet, somebody has completed the graph task. *)
Lemma run_quiescent sends keep ls gt r : arrive_once sends ls ->
  run_steps ls (fresh_task keep, run_start sends) = Some (gt, r) -> task_threads r <> [] -> arrived ls ≡ₚ sends ->
  Forall (fun p => p = TDone) (task_threads r) -> global_cpu_ready_queue_ r = [] -> future_result_ gt <> None.
Proof.
  intros Ho Hs Hne Hall Hdone Hg. pose proof (run_reach_inv _ _ _ _ _ Ho Hs) as HI. apply (ri_result _ _ _ HI).
  destruct (future_completed_ gt) eqn:Ef; [done|]. exfalso.
  destruct (ri_check _ _ _ HI Ef) as [?|[Hpos|Hw]]; [done| |].
  - assert (has_error_ gt = false) as Herr by (destruct (has_error_ gt) eqn:E; [by rewrite (ri_error _ _ _ HI E) in Ef|done]).
    rewrite (ri_count _ _ _ HI Herr), Hall in Hpos. unfold tasks in Hpos.
    rewrite Hg in Hpos. assert (sum_list_with held (task_threads r) = 0%nat) as H0.
    { clear -Hdone. by induction Hdone as [|p ps -> _ IH]. }
    rewrite H0 in Hpos. simpl in Hpos. lia.
  - apply Exists_exists in Hw as (p & Hp & Hw). rewrite Forall_forall in Hdone. apply Hdone in Hp as ->.
    by destruct Hw as [?|[?|[fn ?]]].
Qed.

(** C22: the threads of a graph task finish, and the task with them.  Every thread that
    is not done can move, whatever the local engine answers; the number of steps is
    bounded by the launched and the pushed tasks; and once the gradients of all send
    functions have arrived and all threads are done, the future of the graph task is
    completed, so that no backward pass waits for a task that nobody will run. *)
Theorem engine_task_completes (sends : list nat) (keep : bool) (ls : list run_label) gt r :
  arrive_once sends ls -> run_steps ls (fresh_task keep, run_start sends) = Some (gt, r) ->
  (length ls <= sum_list_with work ls)%nat /\
  (forall i p, task_threads r !! i = Some p -> p <> TDone -> forall ev post, exists l,
    l ∈ [LPush i; LTest i 0; LEval i ev; LDec i; LCheck i post] /\ is_Some (run_step l (gt, r))) /\
  (task_threads r <> [] -> arrived ls ≡ₚ sends -> Forall (fun p => p = TDone) (task_threads r) ->
   global_cpu_ready_queue_ r = [] -> future_result_ gt <> None).
Proof.
  intros Ho Hs. split; [|split; [intros i p; apply thread_moves|by eapply run_quiescent]].
  apply run_steps_potential in Hs. unfold potential, run_start in Hs. simpl in Hs. lia.
Qed.

End threads.

(** ** Backward passes *)

(** GraphTask::ExecInfo: the hooks of each capture are given by the AccumulateGrad
    function and the context of DistAccumulateGradCaptureHook. *)
Record ExecInfo := mkExecInfo { needed_ : bool; captures_ : option (list (list (nat * nat))) }.

(** What the engine reads of a root tensor. *)
Record root_var := mkRootVar {
  rv_requires_grad : bool; rv_numel : Z; rv_grad_fn : option nat; rv_output_nr : Z;
}.

(** The rest of a GraphTask, with the root of its gradients; [gd_sends] and
    [gd_launched] are a history: the send functions it was made for, and those that
    were launched. *)
Record graph_data (G : Type) := mkGraphData {
  gd_run : task_run;
  gd_dependencies : gmap nat Z;
  gd_exec_info : gmap nat ExecInfo;
  gd_root_grads : list G;
  gd_sends : list nat;
  gd_launched : list nat;
}.
Arguments mkGraphData {G}. Arguments gd_run {G}. Arguments gd_dependencies {G}. Arguments gd_exec_info {G}.
Arguments gd_root_grads {G}. Arguments gd_sends {G}. Arguments gd_launched {G}.

(** accumulateGradFuture, with what its callback has captured. *)
Record acc_future := mkAcc { acc_graph : nat; acc_outputs : list edge; acc_result : result }.

(** The 'uber' future: it waits for the gradients, then for the RPCs. *)
Inductive uber_stage : Type := UAcc (acc : nat) | UWait (w : nat) | UDone.
Record uber := mkUber { ub_context : nat; ub_stage : uber_stage; ub_result : result }.

(** A call of execute or executeSendFunctionAsync: after the section that holds
    initializedContextIdsLock_, at the waits of execute, and its end.  A send returns
    the uber future, or no number for a future that is completed.  [XTerminate]: a
    destructor has thrown. *)
Inductive call : Type :=
  | XRun (c : nat) (outputEdges : list edge)
  | XWaitGrad (acc c : nat)
  | XWaitRpc (w c : nat)
  | XDone (o : outcome unit)
  | XTerminate
  | SFirst (c sendFunction : nat) (outputEdges : list edge)
  | SOther (c sendFunction : nat)
  | SDone (o : outcome (option nat)).

Record engine (T G : Type) := mkEngine {
  wk : worker T G;
  initializedContextIds_ : gset Z;
  graphs : list (graph_data G);   (* by graph task *)
  accs : list acc_future;
  ubers : list uber;
  calls : list call;
}.
Arguments mkEngine {T G}. Arguments wk {T G}. Arguments initializedContextIds_ {T G}. Arguments graphs {T G}.
Arguments accs {T G}. Arguments ubers {T G}. Arguments calls {T G}.

Section engine_ops.
Context {T G : Type} {LE : LocalEngine}.
Abbreviation op A := (M (worker T G) A).
Abbreviation eop A := (M (engine T G) A).
Implicit Types s : engine T G.

Definition upd_wk (f : worker T G -> worker T G) s : engine T G :=
  mkEngine (f (wk s)) (initializedContextIds_ s) (graphs s) (accs s) (ubers s) (calls s).
Definition upd_ids (f : gset Z -> gset Z) s : engine T G :=
  mkEngine (wk s) (f (initializedContextIds_ s)) (graphs s) (accs s) (ubers s) (calls s).
Definition upd_graphs (f : list (graph_data G) -> list (graph_data G)) s : engine T G :=
  mkEngine (wk s) (initializedContextIds_ s) (f (graphs s)) (accs s) (ubers s) (calls s).
Definition upd_accs (f : list acc_future -> list acc_future) s : engine T G :=
  mkEngine (wk s) (initializedContextIds_ s) (graphs s) (f (accs s)) (ubers s) (calls s).
Definition upd_ubers (f : list uber -> list uber) s : engine T G :=
  mkEngine (wk s) (initializedContextIds_ s) (graphs s) (accs s) (f (ubers s)) (calls s).
Definition upd_calls (f : list call -> list call) s : engine T G :=
  mkEngine (wk s) (initializedContextIds_ s) (graphs s) (accs s) (ubers s) (f (calls s)).

(** An operation of the contexts. *)
Definition on_worker {A} (m : op A) : eop A := fun s =>
  let (o, w) := m (wk s) in (o, upd_wk (fun _ => w) s).

(** The local graph, whose functions are not 0; the number 0 stands for GraphRoot. *)
Variable next_edges : nat -> list (option edge).
Variable kind : nat -> node_kind.
(** A bound on the number of functions in the local graph. *)
Variable graph_size : nat.
(** The order in which an unordered_map gives the send functions. *)
Variable send_order : gmap Z nat -> list nat.
(** init_to_execute, validate_outputs and ones_like of the local engine and ATen; the
    use count of the future of a graph task, and the number of gradients it holds. *)
Variable init_to_execute : list (nat * Z) -> list edge -> gmap nat ExecInfo.
Variable validate_outputs : list edge -> list G -> outcome (list G).
Variable ones_like : root_var -> G.
Variable use_count : nat -> Z.
Variable captured : nat -> nat.

Definition graphRoot : nat := 0.
(** next_edges() with the edges of GraphRoot. *)
Definition edges_from (rootEdges : list edge) (fn : nat) : list (option edge) :=
  if (fn =? graphRoot)%nat then map Some rootEdges else next_edges fn.

Fixpoint root_edges (roots : list root_var) : outcome (list edge * list G) :=
  match roots with
  | [] => Ret ([], [])
  | root :: roots =>
      check! rv_requires_grad root else CheckFailed "requires_grad not set on root" in
      check! rv_numel root =? 1 else CheckFailed " is not a scalar, all roots need to be scalar" in
      match rv_grad_fn root with
      | None => Throw (CheckFailed " does not have a valid gradient function.")
      | Some fn =>
          let? eg := root_edges roots in
          Ret ((fn, rv_output_nr root) :: eg.1, ones_like root :: eg.2)
      end
  end.
Definition validateRootsAndRetrieveEdges (roots : list root_var) : outcome (list edge * list G) :=
  check! bool_decide (roots <> []) else CheckFailed "No tensors provided for gradient computation." in
  let? eg := root_edges roots in
  let? grads := validate_outputs eg.1 eg.2 in
  Ret (eg.1, grads).

(** The hooks that accumulate into the context, for captured AccumulateGrad functions. *)
Definition add_capture_hook (c fn : nat) (execInfo : ExecInfo) : ExecInfo :=
  match captures_ execInfo with
  | Some captures =>
      if bool_decide (kind fn = AccumulateGrad) then
        mkExecInfo (needed_ execInfo) (Some (map (fun hooks => hooks ++ [(fn, c)]) captures))
      else execInfo
  | None => execInfo
  end.
Definition mark_needed (e : edge) (exec_info : gmap nat ExecInfo) : gmap nat ExecInfo :=
  <[e.1 := mkExecInfo true (match exec_info !! e.1 with Some i => captures_ i | None => None end)]> exec_info.
Definition compute_exec_info (c : nat) (sends : list nat) (found : search_state) : gmap nat ExecInfo :=
  if bool_decide (outputEdges found = []) then ∅
  else
    let edges := map (fun f => (f, 0)) sends ++ [(graphRoot, 0)] in
    let exec_info := init_to_execute edges (outputEdges found) in
    foldr mark_needed (map_imap (fun fn i => Some (add_capture_hook c fn i)) exec_info) (recvBackwardEdges found).

(** Returns outputEdges.  The graph task is made first and moved into the context at
    the end; if setGraphTask throws it is dropped, so it is numbered after that. *)
Definition computeDependencies (c : nat) (rootEdges : list edge) (grads : list G) (retainGraph : bool) :
    eop (list edge) :=
  let! fns := on_worker (sendFunctions c) in
  let sends := send_order fns in
  let! found := lift (search (edges_from rootEdges) kind (S (length sends) + graph_size)
                        (search_start (graphRoot :: sends))) in
  let! g := gets (fun s => length (graph_tasks (wk s))) in
  do! on_worker (setGraphTask c g) in
  do! modify (upd_wk (upd_graph_tasks (fun l => l ++ [fresh_task retainGraph]))) in
  do! modify (upd_graphs (fun l => l ++ [mkGraphData (run_start sends) (dependencies_ found)
                (compute_exec_info c sends found) grads sends []])) in
  ret (outputEdges found).

(** at::launch of execute_graph_task_until_ready_queue_empty on a graph task. *)
Definition launch_task (g fn : nat) (incrementOutstandingTasks : bool) : eop unit :=
  modify (upd_graphs (alter (fun d =>
    mkGraphData (launch fn incrementOutstandingTasks (gd_run d)) (gd_dependencies d) (gd_exec_info d) (gd_root_grads d)
      (gd_sends d) (if incrementOutstandingTasks then gd_launched d else gd_launched d ++ [fn])) g)).

(** Returns the number of accumulateGradFuture. *)
Definition runEngineAndAccumulateGradients (c root : nat) (outputEdges : list edge)
    (incrementOutstandingTasks : bool) : eop nat :=
  do! on_worker (clearOutstandingRpcs c) in
  let! g := on_worker (retrieveGraphTask c) in
  do! launch_task g root incrementOutstandingTasks in
  let! acc := gets (fun s => length (accs s)) in
  do! modify (upd_accs (fun l => l ++ [mkAcc g outputEdges None])) in
  ret acc.

Definition cleanupBackwardPass (c : nat) : eop unit :=
  let! g := on_worker (retrieveGraphTask c) in
  do! assert_ (use_count g =? 1) (AssertFailed "futureGrads.use_count() == 1") in
  do! on_worker (resetGraphTask c) in
  do! on_worker (clearOutstandingRpcs c) in
  let! x := on_worker (getContext c) in
  modify (upd_ids (fun ids => ids ∖ {[contextId_ x]})).

(** *** The two calls, up to the end of the locked section *)

Definition finish {A} (m : eop A) (k : outcome A -> call) : engine T G -> call * engine T G := fun s =>
  let (o, s) := m s in (k o, s).
Definition push_call (m : engine T G -> call * engine T G) : engine T G -> engine T G := fun s =>
  let (p, s) := m s in upd_calls (fun l => l ++ [p]) s.

Definition execute_prologue (contextId : Z) (roots : list root_var) (retainGraph : bool) : eop call :=
  let! c := on_worker (retrieveContext contextId) in
  let! eg := lift (validateRootsAndRetrieveEdges roots) in
  let! x := on_worker (getContext c) in
  let! ids := gets initializedContextIds_ in
  do! assert_ (bool_decide (contextId_ x ∉ ids))
    (AssertFailed "initializedContextIds_.find(autogradContext->contextId()) == initializedContextIds_.end()") in
  let! outputEdges := computeDependencies c eg.1 eg.2 retainGraph in
  do! modify (upd_ids (fun ids => {[contextId_ x]} ∪ ids)) in
  ret (XRun c outputEdges).
Definition execute (contextId : Z) (roots : list root_var) (retainGraph : bool) : engine T G -> engine T G :=
  push_call (finish (execute_prologue contextId roots retainGraph) (fun o =>
    match o with Ret p => p | Throw e => XDone (Throw e) | Block => XDone Block end)).

Definition send_prologue (c sendFunction : nat) (retainGraph : bool) : eop call :=
  let! x := on_worker (getContext c) in
  let! ids := gets initializedContextIds_ in
  if bool_decide (contextId_ x ∈ ids) then ret (SOther c sendFunction)
  else
    let! outputEdges := computeDependencies c [] [] retainGraph in
    do! modify (upd_ids (fun ids => {[contextId_ x]} ∪ ids)) in
    ret (SFirst c sendFunction outputEdges).
Definition executeSendFunctionAsync (c sendFunction : nat) (retainGraph : bool) : engine T G -> call * engine T G :=
  finish (send_prologue c sendFunction retainGraph) (fun o =>
    match o with Ret p => p | Throw e => SDone (Throw e) | Block => SDone Block end).

(** All of RequestCallbackNoPython::processBackwardAutogradReq: the gradients are
    attached to the send function, and it is executed; the response follows the
    returned future. *)
Definition serve_gradients (md : AutogradMetadata) (grads : list G) (retainGraph : bool) :
    engine T G -> engine T G :=
  push_call (fun s =>
    match on_worker (processBackwardAutogradReq md grads) s with
    | (Ret (c, sendFunction), s) => executeSendFunctionAsync c sendFunction retainGraph s
    | (Throw e, s) => (SDone (Throw e), s)
    | (Block, s) => (SDone Block, s)
    end).

(** *** The rest of the calls *)

(** ~BackwardPassCleanupGuard, on the way out of execute. *)
Definition leave_guard (c : nat) (o : outcome unit) : engine T G -> call * engine T G :=
  finish (cleanupBackwardPass c) (fun r => match r with Ret _ => XDone o | _ => XTerminate end).

Definition wait_result (w : nat) s : result :=
  match waits (wk s) !! w with Some st => w_future st | None => None end.
Definition acc_done (acc : nat) s : result :=
  match accs s !! acc with Some a => acc_result a | None => None end.

(** [None]: the call waits, or has ended. *)
Definition call_step (p : call) s : option (call * engine T G) :=
  match p with
  | XRun c outputEdges =>
      Some (match runEngineAndAccumulateGradients c graphRoot outputEdges true s with
            | (Ret acc, s) => (XWaitGrad acc c, s)
            | (Throw e, s) => leave_guard c (Throw e) s
            | (Block, s) => (XDone Block, s)
            end)
  | XWaitGrad acc c =>
      match acc_done acc s with
      | None => None
      | Some (Some e) => Some (leave_guard c (Throw e) s)
      | Some None =>
          Some (match on_worker (clearAndWaitForOutstandingRpcsAsync c) s with
                | (Ret w, s) => (XWaitRpc w c, s)
                | (Throw e, s) => leave_guard c (Throw e) s
                | (Block, s) => (XDone Block, s)
                end)
      end
  | XWaitRpc w c =>
      match wait_result w s with
      | None => None
      | Some r => Some (leave_guard c (match r with None => Ret tt | Some e => Throw e end) s)
      end
  | SFirst c sendFunction outputEdges =>
      Some (finish (
        let! _ := on_worker (retrieveGraphTask c) in
        let! acc := runEngineAndAccumulateGradients c sendFunction outputEdges false in
        let! u := gets (fun s => length (ubers s)) in
        do! modify (upd_ubers (fun l => l ++ [mkUber c (UAcc acc) None])) in
        ret (Some u)) SDone s)
  | SOther c sendFunction =>
      Some (finish (
        let! g := on_worker (retrieveGraphTask c) in
        do! launch_task g sendFunction false in
        ret None) SDone s)
  | XDone _ | XTerminate | SDone _ => None
  end.

(** *** The callbacks *)

(** The callback on the future of the graph task. *)
Definition acc_callback (acc : nat) : eop unit :=
  let! a := gets (fun s => accs s !! acc) in
  match a with
  | Some (mkAcc g outputs None) =>
      let! gt := gets (fun s => graph_tasks (wk s) !! g) in
      match future_result_ <$> gt with
      | Some (Some r) =>
          let r := match r with
            | Some e => Some (RuntimeError "Error on Node ")
            | None => if (captured g =? length outputs)%nat then None
                      else Some (AssertFailed "grads.size() == outputEdges.size()")
            end in
          modify (upd_accs (<[acc := mkAcc g outputs (Some r)]>))
      | _ => ret tt
      end
  | _ => ret tt
  end.

Definition try {A} (m : eop A) : eop (outcome A) := fun s => let (o, s) := m s in (Ret o, s).
Definition set_uber (u : nat) (stage : uber_stage) (r : result) : eop unit :=
  modify (upd_ubers (alter (fun b => mkUber (ub_context b) stage (match ub_result b with None => r | r => r end)) u)).

(** The callback on accumulateGradFuture: with an error the pass is cleaned up, else
    the outstanding RPCs are waited for. *)
Definition uber_on_acc (u : nat) : eop unit :=
  let! b := gets (fun s => ubers s !! u) in
  match b with
  | Some (mkUber c (UAcc acc) _) =>
      let! r := gets (acc_done acc) in
      match r with
      | None => ret tt
      | Some (Some e) =>
          let! o := try (cleanupBackwardPass c) in
          set_uber u UDone (Some (Some (match o with Throw e' => e' | _ => e end)))
      | Some None =>
          let! o := try (on_worker (clearAndWaitForOutstandingRpcsAsync c)) in
          match o with
          | Ret w => set_uber u (UWait w) None
          | Throw e => set_uber u UDone (Some (Some e))
          | Block => ret tt
          end
      end
  | _ => ret tt
  end.
(** The callback on rpcFuture. *)
Definition uber_on_rpc (u : nat) : eop unit :=
  let! b := gets (fun s => ubers s !! u) in
  match b with
  | Some (mkUber c (UWait w) _) =>
      let! r := gets (wait_result w) in
      match r with
      | None => ret tt
      | Some r =>
          let! o := try (cleanupBackwardPass c) in
          set_uber u UDone (Some (match o with Throw e => Some e | _ => r end))
      end
  | _ => ret tt
  end.

(** The callbacks of the futures that have been completed, and of those that were
    completed before the callback was added. *)
Definition settle : eop unit :=
  let! n := gets (fun s => length (accs s)) in
  do! for_each (seq 0 n) acc_callback in
  let! n := gets (fun s => length (ubers s)) in
  do! for_each (seq 0 n) uber_on_acc in
  for_each (seq 0 n) uber_on_rpc.

(** *** Events *)

Variable agent_throws : Z -> option exn.
Variable agent_set : bool.
Variable send_throws : Z -> bool.

Inductive event : Type :=
  | EvExecute (contextId : Z) (roots : list root_var) (retainGraph : bool)
  | EvGradients (md : AutogradMetadata) (grads : list G) (retainGraph : bool)
  | EvCall (i : nat)
  | EvRun (g : nat) (l : run_label)
  | EvContainer (cm : cmd)
  | EvAddSend (c : nat) (func : option nat) (autograd_message_id : Z)
  | EvAddRecv (c : nat) (func : option nat) (autograd_message_id : Z)
  | EvOutstanding (dst : Z) (message : Message T) (c : nat)
  | EvRpc (i : nat) (r : option exn).

(** A thread of a graph task moves; threads are launched by the calls alone. *)
Definition is_launch (l : run_label) : bool := match l with LLaunch _ _ => true | _ => false end.
Definition run_event (g : nat) (l : run_label) s : engine T G :=
  match is_launch l, graph_tasks (wk s) !! g, graphs s !! g with
  | false, Some gt, Some d =>
      match run_step l (gt, gd_run d) with
      | Some (gt, r) =>
          upd_graphs (<[g := mkGraphData r (gd_dependencies d) (gd_exec_info d) (gd_root_grads d) (gd_sends d) (gd_launched d)]>)
            (upd_wk (upd_graph_tasks (<[g := gt]>)) s)
      | None => s
      end
  | _, _, _ => s
  end.
Definition raw_event (ev : event) s : engine T G :=
  match ev with
  | EvExecute contextId roots retainGraph => execute contextId roots retainGraph s
  | EvGradients md grads retainGraph => serve_gradients md grads retainGraph s
  | EvCall i =>
      match calls s !! i with
      | Some p => match call_step p s with Some (p, s) => upd_calls (<[i := p]>) s | None => s end
      | None => s
      end
  | EvRun g l => run_event g l s
  | EvContainer cm => snd (on_worker (run_cmd agent_set send_throws cm) s)
  | EvAddSend c func id => snd (on_worker (addSendFunction c func id) s)
  | EvAddRecv c func id => snd (on_worker (addRecvFunction c func id) s)
  | EvOutstanding dst message c => snd (on_worker (run_rpc_op agent_throws (OpSend dst message c)) s)
  | EvRpc i r => snd (on_worker (complete i r) s)
  end.
Definition step_event (s : engine T G) (ev : event) : engine T G := snd (settle (raw_event ev s)).
Definition run_events (evs : list event) (s : engine T G) : engine T G := foldl step_event s evs.
(** DistEngine() in a process with a container. *)
Definition newDistEngine (w : worker T G) : engine T G := mkEngine w ∅ [] [] [] [].

Definition numBackwardPasses s : Z := Z.of_nat (size (initializedContextIds_ s)).
(** getDebugInfo: the two counts, stored as int. *)
Definition getDebugInfo s : gmap string Z :=
  <["num_current_backward_passes"%string := int32 (numBackwardPasses s)]>
    {["num_autograd_contexts"%string := int32 (numAutogradContexts (wk s))]}.
End engine_ops.

(** ** The hook on captured gradients *)

Section hook.
Context {T G : Type}.
Abbreviation op A := (M (worker T G) A).
Variable requires_grad_var : nat -> bool.
Variable callHooks : nat -> G -> G.
Variable accumulate : nat -> option G -> G -> accumulation (G := G).
(** The hooks and the variable of an AccumulateGrad function. *)
Variable pre_hooks : nat -> list (list (option G) -> outcome (list (option G))).
Variable post_hooks : nat -> list (list (option G) -> outcome unit).
Variable variable : nat -> nat.

(** ThreadLocalDistAutogradContext: the destructor runs on an exception too. *)
Definition with_context {A} (t c : nat) (m : op A) : op A :=
  let! prev := tl_enter t (Some c) in
  fun w => let (o, w) := m w in (o, snd (tl_leave t prev w)).

(** DistAccumulateGradCaptureHook::operator(), of a function and a context. *)
Definition capture_hook (t accumulateGrad_ autogradContext_ : nat) (grad : option G) : op (option G) :=
  with_context t autogradContext_ (
    let! inputGrads := lift (foldl (fun g hook => let? g := g in hook g) (Ret [grad]) (pre_hooks accumulateGrad_)) in
    let! input := lift (match inputGrads with g :: _ => Ret g | [] => Throw (Undefined "inputGrads[0]") end) in
    do! (match input with
         | Some g => accumulateGrad requires_grad_var callHooks accumulate autogradContext_ (variable accumulateGrad_) (Some g)
         | None => ret tt
         end) in
    do! for_each (post_hooks accumulateGrad_) (fun hook => lift (hook inputGrads)) in
    ret input).

(** Whatever happens inside, the thread has its context back. *)
Lemma with_context_restores {A} t c (m : op A) w : getContextPtr t (snd (with_context t c m w)) = getContextPtr t w.
Proof.
  unfold with_context, tl_enter, bind, gets, modify, ret, getContextPtr.
  destruct (m _) as [o w']. simpl. apply lookup_partial_alter_eq.
Qed.
End hook.

(** *** What the operations of the contexts leave alone *)

Section worker_frame.
Context {T G : Type}.
Implicit Types w : worker T G.
Implicit Types m : M (worker T G) unit.
#[local] Set Default Proof Using "Type".
#[local] Set Proof Using Clear Unused.

Definition same_pass (x x' : DistAutogradContext G) : Prop :=
  contextId_ x' = contextId_ x /\ graphTask_ x' = graphTask_ x.
Definition failed_task (gt gt' : GraphTask) : Prop := exists e, gt' = set_exception e gt.

(** Contexts keep their ids and graph tasks, new ones have none, and graph tasks are
    at most told about errors. *)
Record wframe w w' : Prop := {
  fr_old : forall c x, contexts w !! c = Some x -> exists x', contexts w' !! c = Some x' /\ same_pass x x';
  fr_new : forall c x', contexts w' !! c = Some x' -> contexts w !! c = None -> graphTask_ x' = None;
  fr_tasks : Forall2 (rtc failed_task) (graph_tasks w) (graph_tasks w');
  fr_waits : (length (waits w) <= length (waits w'))%nat;
}.

#[global] Instance wframe_refl : Reflexive wframe.
Proof.
  intros w. split.
  - intros c x Hx. by exists x.
  - intros c x Hx. by rewrite Hx.
  - reflexivity.
  - done.
Qed.
#[global] Instance wframe_trans : Transitive wframe.
Proof.
  intros w1 w2 w3 [A1 A2 A3 A4] [B1 B2 B3 B4]. split.
  - intros c x Hx. destruct (A1 c x Hx) as (y & Hy & E1 & E2). destruct (B1 c y Hy) as (z & Hz & F1 & F2).
    exists z. split; [done|]. split; congruence.
  - intros c z Hz Hn. destruct (contexts w2 !! c) as [y|] eqn:Hy; [|by eapply B2].
    destruct (B1 c y Hy) as (z' & Hz' & _ & F2). rewrite Hz in Hz'. injection Hz' as ->. rewrite F2. by eapply A2.
  - by etrans.
  - lia.
Qed.

Definition keeps {A} (m : M (worker T G) A) : Prop := forall w, wframe w (snd (m w)).

Lemma keeps_bind {A B} (m : M (worker T G) A) (k : A -> M (worker T G) B) :
  keeps m -> (forall a, keeps (k a)) -> keeps (bind m k).
Proof.
  intros Hm Hk w. unfold bind. pose proof (Hm w) as H. destruct (m w) as [[a| |] w']; [|exact H..].
  simpl in H. etrans; [exact H|apply Hk].
Qed.
Lemma keeps_gets {A} (f : worker T G -> A) : keeps (gets f).
Proof. intros w. simpl. reflexivity. Qed.
Lemma keeps_ret {A} (a : A) : keeps (ret a).
Proof. intros w. simpl. reflexivity. Qed.
Lemma keeps_throw {A} e : keeps (throw e : M (worker T G) A).
Proof. intros w. simpl. reflexivity. Qed.
Lemma keeps_lift {A} (o : outcome A) : keeps (lift o).
Proof. intros w. simpl. reflexivity. Qed.
Lemma keeps_modify f : (forall w, contexts (f w) = contexts w) -> (forall w, graph_tasks (f w) = graph_tasks w) ->
  (forall w, (length (waits w) <= length (waits (f w)))%nat) -> keeps (modify f).
Proof.
  intros Hc Hg Hw w. simpl. split; rewrite ?Hc, ?Hg; [| | |done].
  - intros c x Hx. by exists x.
  - intros c x Hx. by rewrite Hx.
  - reflexivity.
Qed.
Lemma keeps_for_each {A} (l : list A) (f : A -> M (worker T G) unit) : (forall a, keeps (f a)) -> keeps (for_each l f).
Proof. intros Hf. induction l as [|a l IH]; simpl; [apply keeps_ret|]. apply keeps_bind; [apply Hf|intros []; exact IH]. Qed.
Lemma keeps_updContext c f : (forall x, same_pass x (f x)) -> keeps (updContext c f).
Proof.
  intros Hf w. simpl. split; cbn [contexts graph_tasks waits upd_contexts]; [| | |done].
  - intros c' x Hx. destruct (decide (c' = c)) as [->|Hne].
    + rewrite list_lookup_alter_eq, Hx. by exists (f x).
    + rewrite list_lookup_alter_ne by done. by exists x.
  - intros c' x' Hx Hn. apply lookup_ge_None in Hn. apply lookup_lt_Some in Hx. rewrite length_alter in Hx. lia.
  - reflexivity.
Qed.
Lemma keeps_match_option {A B} (o : option A) (f : A -> M (worker T G) B) (d : M (worker T G) B) :
  (forall a, keeps (f a)) -> keeps d -> keeps (match o with Some a => f a | None => d end).
Proof. destruct o; auto. Qed.
End worker_frame.

Create HintDb engine.
#[export] Hint Resolve keeps_gets keeps_ret keeps_throw keeps_lift : engine.
(** Closes [keeps] of a composition. *)
Ltac keeps_step :=
  first
  [ solve [auto with engine nocore]
  | apply keeps_bind; [|intros ?]
  | apply keeps_for_each; intros ?
  | apply keeps_modify; intros; solve [reflexivity | cbn; rewrite ?length_app, ?length_alter; lia]
  | apply keeps_updContext; intros; split; reflexivity
  | match goal with
    | |- keeps (match ?x with _ => _ end) => destruct x
    | |- keeps (assert_ _ _) => apply keeps_lift
    end ].
Ltac keeps := repeat keeps_step.

Section worker_ops.
Context {T G : Type}.
Implicit Types w : worker T G.
#[local] Set Default Proof Using "Type".
#[local] Set Proof Using Clear Unused.

Lemma keeps_outstanding_done c r : keeps (outstanding_done (T := T) (G := G) c r).
Proof.
  unfold outstanding_done, getContext. keeps. intros w. simpl. split; cbn [contexts graph_tasks waits upd_graph_tasks]; [| | |done].
  - intros c' x' Hx. by exists x'.
  - intros c' x' Hx. by rewrite Hx.
  - apply Forall2_same_length_lookup. split; [by rewrite length_alter|]. intros i gt gt' Hi Hi'.
    destruct (decide (i = n)) as [->|Hne].
    + rewrite list_lookup_alter_eq, Hi in Hi'. injection Hi' as <-. apply rtc_once. by eexists.
    + rewrite list_lookup_alter_ne, Hi in Hi' by done. by injection Hi' as <-.
Qed.
#[local] Hint Resolve keeps_outstanding_done : engine.
Lemma keeps_run_fut_callback r cb : keeps (run_fut_callback (T := T) (G := G) r cb).
Proof. destruct cb; simpl; [apply keeps_outstanding_done|unfold wait_done; keeps]. Qed.
#[local] Hint Resolve keeps_run_fut_callback : engine.
Lemma keeps_addCallback i cb : keeps (addCallback (T := T) (G := G) i cb).
Proof. unfold addCallback. keeps. Qed.
#[local] Hint Resolve keeps_addCallback : engine.
Lemma keeps_complete i r : keeps (complete (T := T) (G := G) i r).
Proof. unfold complete. keeps. Qed.
Lemma keeps_wait c : keeps (clearAndWaitForOutstandingRpcsAsync (T := T) (G := G) c).
Proof. unfold clearAndWaitForOutstandingRpcsAsync, getContext. keeps. Qed.
Lemma keeps_send agent_throws dst message c : keeps (run_rpc_op (T := T) (G := G) agent_throws (OpSend dst message c)).
Proof. cbn [run_rpc_op]. unfold getContext, agent_send, addOutstandingRpc. keeps. Qed.
Lemma keeps_clearOutstanding c : keeps (clearOutstandingRpcs (T := T) (G := G) c).
Proof. unfold clearOutstandingRpcs. keeps. Qed.
Lemma keeps_setGrads fn grads : keeps (setGrads (T := T) (G := G) fn grads).
Proof. unfold setGrads. keeps. Qed.

Lemma keeps_emplace id : keeps (emplaceContext (T := T) (G := G) id).
Proof.
  unfold emplaceContext, getShard, updShard. keeps. intros w. simpl. split; cbn [contexts graph_tasks waits upd_contexts]; [| | |done].
  - intros c x Hx. exists x. split; [by apply lookup_app_l_Some|done].
  - intros c x [Hx|[_ Hx]]%lookup_app_Some Hn; [by rewrite Hx in Hn|].
    apply list_lookup_singleton_Some in Hx as [_ <-]. done.
  - reflexivity.
Qed.
#[local] Hint Resolve keeps_emplace : engine.
Lemma keeps_cmd agent_set send_throws cm : keeps (run_cmd (T := T) (G := G) agent_set send_throws cm).
Proof.
  destruct cm; simpl; unfold init, newContext, newAutogradMessageId, getOrCreateContext, releaseContext, releaseContextIfPresent,
    retrieveContext, isValidContext, currentContext, hasValidContext, setCurrentContextId, forceCurrentContextId, getKnownWorkerIds,
    eraseContextIdAndReset, sendReleaseContextRpc, getShard, updShard, getContext; keeps.
Qed.
End worker_ops.
#[export] Hint Resolve keeps_addCallback keeps_complete keeps_wait keeps_send keeps_clearOutstanding keeps_setGrads keeps_cmd : engine.

(** *** Waits are counted *)

Section waits.
Context {T G : Type}.
Implicit Types w : worker T G.
#[local] Set Default Proof Using "Type".
#[local] Set Proof Using Clear Unused.

(** The callbacks of the wait [i] that pending futures hold. *)
Definition waiting (i : nat) (f : JitFuture) : nat :=
  match fut_result f with None => waits_in i (fut_callbacks f) | Some _ => 0 end.
Definition open_waits (i : nat) w : nat := sum_list_with (waiting i) (futures w).
(** A wait that is not over counts the callbacks that are still to run: those of the
    pending futures, and [extra]. *)
Definition waits_count (extra : nat -> nat) w : Prop :=
  forall i st, waits w !! i = Some st -> w_future st = None ->
    w_remaining st = int32 (Z.of_nat (open_waits i w + extra i)) /\ (0 < open_waits i w + extra i)%nat /\
    w_alreadySentError st = false.
Definition waits_ok w : Prop := waits_count (fun _ => 0%nat) w.
Definition worker_ok w : Prop := rpcs_ok w /\ waits_ok w.

Lemma waits_count_frame extra w w' : waits w' = waits w -> futures w' = futures w -> waits_count extra w -> waits_count extra w'.
Proof. intros Ew Ef H. unfold waits_count, open_waits. by rewrite Ew, Ef. Qed.
Lemma waits_count_ext extra extra' w : (forall i, extra i = extra' i) -> waits_count extra w -> waits_count extra' w.
Proof. intros He H i st Hi Hn. rewrite <- He. by apply H. Qed.

Lemma waits_in_cons i cb cbs : waits_in i (cb :: cbs) = (waits_in i [cb] + waits_in i cbs)%nat.
Proof. unfold waits_in. simpl. destruct (is_wait i cb); simpl; lia. Qed.

Lemma run_callback_count r cb extra w :
  (forall c, cb = CbOutstanding c -> is_Some (contexts w !! c)) ->
  waits_count (fun i => waits_in i [cb] + extra i)%nat w ->
  exists w', run_fut_callback r cb w = (Ret tt, w') /\ waits_count extra w' /\
    contexts w' = contexts w /\ futures w' = futures w /\ length (waits w') = length (waits w) /\
    (match cb with CbWait _ => graph_tasks w' = graph_tasks w | CbOutstanding _ => True end).
Proof.
  intros Hc HW. destruct cb as [c|j]; cbn [run_fut_callback].
  - unfold outstanding_done, getContext, bind, gets, modify, ret. destruct r as [e|].
    + destruct (Hc c eq_refl) as [x ->]. destruct (graphTask_ x); (eexists; split; [reflexivity|]);
        (split; [|done]); by apply (waits_count_frame _ w).
    + exists w. done.
  - unfold wait_done, modify. eexists. split; [reflexivity|]. split; [|split; [done|split; [done|split; [by simpl; rewrite length_alter|done]]]].
    intros i st. cbn [waits upd_waits]. change (open_waits i (upd_waits _ w)) with (open_waits i w).
    destruct (decide (i = j)) as [->|Hne].
    2:{ rewrite list_lookup_alter_ne by done. intros Hi Hn. specialize (HW i st Hi Hn).
        unfold waits_in in HW. simpl in HW. by destruct (Nat.eqb_spec j i). }
    rewrite list_lookup_alter_eq. destruct (waits w !! j) as [st0|] eqn:E; [|done]. intros [= <-]. specialize (HW j st0 E).
    unfold wait_step. destruct r as [e|].
    + destruct (w_alreadySentError st0) eqn:Ea; simpl; [|by destruct (w_future st0)].
      intros Hn. by destruct (HW Hn) as (_ & _ & ?).
    + cbn [w_future w_remaining]. unfold waits_in in HW. cbn [List.filter is_wait] in HW. rewrite Nat.eqb_refl in HW.
      destruct (w_future st0) eqn:Ef; [by destruct (_ =? 0)|]. destruct (HW eq_refl) as (Hr & _ & Ha). rewrite Hr.
      simpl length. replace (int32 (Z.of_nat (open_waits j w + (1 + extra j))) - 1) with
        (int32 (Z.of_nat (open_waits j w + (1 + extra j))) + (-1)) by lia. rewrite int32_add.
      replace (Z.of_nat (open_waits j w + (1 + extra j)) + -1) with (Z.of_nat (open_waits j w + extra j)) by lia.
      destruct (Z.eqb_spec (int32 (Z.of_nat (open_waits j w + extra j))) 0) as [H0|H0]; [done|]. intros _.
      split; [done|]. split; [|done]. destruct (open_waits j w + extra j)%nat; [done|lia].
Qed.

Lemma run_callbacks_count r cbs : forall w,
  (forall c, CbOutstanding c ∈ cbs -> is_Some (contexts w !! c)) -> waits_count (fun i => waits_in i cbs) w ->
  exists w', for_each cbs (run_fut_callback r) w = (Ret tt, w') /\ waits_ok w'.
Proof.
  induction cbs as [|cb cbs IH]; intros w Hc HW; simpl; [by exists w|].
  destruct (run_callback_count r cb (fun i => waits_in i cbs) w) as (w1 & E & HW1 & Ec & _).
  - intros c ->. apply Hc. by left.
  - refine (waits_count_ext _ _ _ _ HW). intros i. apply waits_in_cons.
  - unfold bind. rewrite E. apply IH; [|done]. intros c Hin. rewrite Ec. apply Hc. by right.
Qed.

Lemma worker_ok_complete i r w : worker_ok w -> worker_ok (snd (complete i r w)).
Proof.
  intros [Hr HW]. split; [by apply rpcs_ok_complete|]. unfold complete, bind, gets.
  destruct (futures w !! i) as [[[r0|] cbs]|] eqn:Hi; [done| |done]. unfold modify. cbn [fst snd].
  match goal with |- context [for_each _ _ ?w0] => set (w1 := w0) end.
  destruct (run_callbacks_count r cbs w1) as (w2 & -> & HW2); [| |done].
  - intros c Hc. exact (proj1 Hr i _ _ Hi Hc).
  - intros j st Hj Hn. specialize (HW j st Hj Hn). rewrite Nat.add_0_r in HW.
    assert (open_waits j w1 + waits_in j cbs = open_waits j w)%nat as ->; [|done].
    unfold open_waits. pose proof (sum_insert (waiting j) _ i _ (mkFuture (Some r) []) Hi) as H.
    unfold waiting at 2 4 in H. simpl in H. change (futures w1) with (<[i := mkFuture (Some r) []]> (futures w)). lia.
Qed.

(** A callback is added: it runs at once, or is counted later. *)
Lemma addCallback_count i cb extra w :
  is_Some (futures w !! i) -> (forall c, cb = CbOutstanding c -> is_Some (contexts w !! c)) ->
  waits_count (fun j => waits_in j [cb] + extra j)%nat w ->
  exists w', addCallback i cb w = (Ret tt, w') /\ waits_count extra w' /\ contexts w' = contexts w /\
    length (futures w') = length (futures w) /\ length (waits w') = length (waits w) /\
    (match cb with CbWait _ => graph_tasks w' = graph_tasks w | CbOutstanding _ => True end).
Proof.
  intros [[[r|] cbs] Hi] Hc HW; unfold addCallback, bind, gets; rewrite Hi.
  - destruct (run_callback_count r cb extra w Hc HW) as (w' & -> & H1 & H2 & H3 & H4 & H5). exists w'. by rewrite H3.
  - eexists. split; [reflexivity|]. split; [|split; [done|split; [by simpl; rewrite length_alter|by destruct cb]]].
    intros j st Hj Hn. specialize (HW j st Hj Hn).
    assert (forall w', futures w' = alter (fun f => mkFuture (fut_result f) (fut_callbacks f ++ [cb])) i (futures w) ->
      open_waits j w' + extra j = open_waits j w + (waits_in j [cb] + extra j))%nat as ->; [|done|reflexivity].
    intros w' E. unfold open_waits. rewrite E.
    pose proof (sum_alter (waiting j) (fun f => mkFuture (fut_result f) (fut_callbacks f ++ [cb])) _ i _ Hi) as H.
    unfold waiting at 2 4 in H. simpl in H. unfold waits_in in *. rewrite List.filter_app, length_app in H. lia.
Qed.

Lemma waits_in_one i j : waits_in i [CbWait j] = if decide (i = j) then 1%nat else 0%nat.
Proof. unfold waits_in. simpl. destruct (Nat.eqb_spec j i), (decide (i = j)); simpl; congruence. Qed.

(** clearAndWaitForOutstandingRpcsAsync attaches to the RPCs one after the other. *)
Lemma attach_count j l : forall w, (forall i, i ∈ l -> is_Some (futures w !! i)) ->
  waits_count (fun i => if decide (i = j) then length l else 0%nat) w ->
  exists w', for_each l (fun rpc => addCallback rpc (CbWait j)) w = (Ret tt, w') /\ waits_ok w' /\
    length (waits w') = length (waits w) /\ graph_tasks w' = graph_tasks w.
Proof.
  induction l as [|i l IH]; intros w Hl HW; simpl.
  - exists w. split; [done|]. split; [|done]. refine (waits_count_ext _ _ _ _ HW). intros i. by destruct (decide (i = j)).
  - destruct (addCallback_count i (CbWait j) (fun i => if decide (i = j) then length l else 0%nat) w) as (w1 & E & HW1 & _ & Hf & Hlen & Hg).
    + apply Hl. by left.
    + done.
    + refine (waits_count_ext _ _ _ _ HW). intros k. rewrite waits_in_one. by destruct (decide (k = j)).
    + unfold bind. rewrite E. destruct (IH w1) as (w2 & -> & H2 & H3 & H4); [|done|].
      * intros k Hk. apply lookup_lt_is_Some. rewrite Hf. apply lookup_lt_is_Some, Hl. by right.
      * exists w2. by rewrite H3, H4, Hg.
Qed.

Lemma fresh_wait i w : callbacks_ok w -> (length (waits w) <= i)%nat -> open_waits i w = 0%nat.
Proof.
  intros Hcb Hi. unfold open_waits.
  assert (forall f, f ∈ futures w -> waiting i f = 0%nat) as H.
  { intros f [k Hk]%list_elem_of_lookup. unfold waiting. destruct (fut_result f); [done|]. apply waits_in_fresh.
    intros i' Hin. specialize (Hcb k f _ Hk Hin). simpl in Hcb. lia. }
  induction (futures w) as [|f fs IH]; [done|]. simpl. rewrite H, IH; [done| |by left]. intros f' Hf'. apply H. by right.
Qed.

Lemma wait_unfold c x w : contexts w !! c = Some x ->
  clearAndWaitForOutstandingRpcsAsync c w =
  bind (for_each (outStandingRpcs_ x) (fun rpc => addCallback rpc (CbWait (length (waits w))))) (fun _ => ret (length (waits w)))
    (upd_waits (fun l => l ++ [mkWait (if bool_decide (outStandingRpcs_ x = []) then Some None else None)
                                 (int32 (Z.of_nat (length (outStandingRpcs_ x)))) false])
       (upd_contexts (alter (fun x => set_outstanding x []) c) w)).
Proof.
  intros Hx. unfold clearAndWaitForOutstandingRpcsAsync, getContext, updContext.
  unfold bind at 1 2, gets at 1. by rewrite Hx.
Qed.

Lemma worker_ok_wait c x w : worker_ok w -> contexts w !! c = Some x ->
  exists j w', clearAndWaitForOutstandingRpcsAsync c w = (Ret j, w') /\ (j < length (waits w'))%nat /\ worker_ok w' /\
    graph_tasks w' = graph_tasks w.
Proof.
  intros [Hr HW] Hx. pose proof (rpcs_ok_wait c w Hr) as Hr'. rewrite (wait_unfold c x w Hx) in *.
  unfold bind, ret in *. set (w1 := upd_waits _ _) in *.
  destruct (attach_count (length (waits w)) (outStandingRpcs_ x) w1) as (w2 & E & HW2 & Hlen & Hg).
  - intros i. apply (proj2 Hr c x Hx).
  - intros i st. unfold w1. cbn [waits upd_waits upd_contexts].
    change (open_waits i (upd_waits _ _)) with (open_waits i w). intros [Hi|[Hge Hi]]%lookup_app_Some Hn.
    + destruct (decide (i = length (waits w))) as [->|Hne]; [by apply lookup_lt_Some in Hi; lia|]. by apply HW.
    + apply list_lookup_singleton_Some in Hi as [Hi <-].
      assert (i = length (waits w)) as -> by lia. rewrite decide_True, fresh_wait by (apply Hr || done || lia).
      simpl in Hn |- *. destruct (outStandingRpcs_ x) as [|y l]; [by rewrite bool_decide_true in Hn|]. split; [done|]. simpl. lia.
  - rewrite E in *. exists (length (waits w)), w2. split; [done|]. split; [|by split; [split|]].
    rewrite Hlen. unfold w1. simpl. rewrite length_app. simpl. lia.
Qed.

Lemma worker_ok_frame w w' : worker_ok w -> futures w' = futures w -> waits w' = waits w ->
  (forall c x, contexts w' !! c = Some x -> outStandingRpcs_ x = [] \/
     exists y, contexts w !! c = Some y /\ outStandingRpcs_ x = outStandingRpcs_ y) ->
  (length (contexts w) <= length (contexts w'))%nat -> worker_ok w'.
Proof.
  intros [Hr HW] Hf Hw Hc Hl. split; [|by eapply waits_count_frame].
  eapply rpcs_ok_frame; [exact Hr|done|by rewrite Hw|done|done].
Qed.

Lemma worker_ok_context c f w : worker_ok w -> (forall x, outStandingRpcs_ (f x) = [] \/ outStandingRpcs_ (f x) = outStandingRpcs_ x) ->
  worker_ok (upd_contexts (alter f c) w).
Proof.
  intros HW Hf. eapply worker_ok_frame; [exact HW|done|done| |simpl; by rewrite length_alter].
  intros c' x'. cbn [contexts upd_contexts]. destruct (decide (c' = c)) as [->|Hne].
  - rewrite list_lookup_alter_eq. destruct (contexts w !! c) as [x|]; [|done]. intros [= <-].
    destruct (Hf x) as [?|?]; [by left|right]. by exists x.
  - rewrite list_lookup_alter_ne by done. intros Hx. right. by exists x'.
Qed.

Lemma worker_ok_send throws dst message c w : worker_ok w -> worker_ok (snd (run_rpc_op throws (OpSend dst message c) w)).
Proof.
  intros [Hr HW]. split; [by apply rpcs_ok_send|]. cbn [run_rpc_op]. unfold getContext, bind at 1 2, gets at 1.
  destruct (contexts w !! c) as [x|] eqn:Hx; [|done]. unfold ret at 1, agent_send, bind at 1.
  destruct (throws dst) as [e|]; [done|]. unfold bind, gets, modify, ret.
  set (w1 := upd_sent _ _). unfold addOutstandingRpc, bind, gets.
  destruct (addCallback_count (length (futures w)) (CbOutstanding c) (fun _ => 0%nat) w1) as (w2 & -> & HW2 & _).
  - cbn. rewrite lookup_app_r, Nat.sub_diag by lia. by eexists.
  - intros c' [= <-]. by exists x.
  - intros i st Hi Hn. specialize (HW i st Hi Hn).
    assert (open_waits i w1 = open_waits i w) as ->; [|exact HW].
    unfold open_waits. cbn [w1 futures upd_sent upd_futures]. rewrite sum_list_with_app. simpl. lia.
  - exact HW2.
Qed.

(** Operations that keep the RPCs and their waits consistent. *)
Definition stays_ok {A} (m : M (worker T G) A) : Prop := forall w, worker_ok w -> worker_ok (snd (m w)).

Lemma stays_ok_bind {A B} (m : M (worker T G) A) (k : A -> M (worker T G) B) :
  stays_ok m -> (forall a, stays_ok (k a)) -> stays_ok (bind m k).
Proof.
  intros Hm Hk w Hw. unfold bind. specialize (Hm w Hw). destruct (m w) as [[a| |] w']; [|exact Hm..].
  by apply Hk.
Qed.
Lemma stays_ok_same {A} (m : M (worker T G) A) : (forall w, futures (snd (m w)) = futures w /\ waits (snd (m w)) = waits w /\
  contexts (snd (m w)) = contexts w) -> stays_ok m.
Proof.
  intros H w Hw. destruct (H w) as (Ef & Ew & Ec). eapply worker_ok_frame; [exact Hw|done|done| |by rewrite Ec].
  intros c x. rewrite Ec. intros Hx. right. by exists x.
Qed.
Lemma stays_ok_for_each {A} (l : list A) (f : A -> M (worker T G) unit) : (forall a, stays_ok (f a)) -> stays_ok (for_each l f).
Proof. intros Hf. induction l as [|a l IH]; simpl; [by apply stays_ok_same|]. apply stays_ok_bind; [apply Hf|intros []; exact IH]. Qed.
Lemma stays_ok_new id : stays_ok (modify (upd_contexts (fun l => l ++ [newDistAutogradContext id]))).
Proof.
  intros w Hw. eapply worker_ok_frame; [exact Hw|done|done| |simpl; rewrite length_app; lia].
  intros c x [Hx|[_ Hx]]%lookup_app_Some; [right; by exists x|left]. by apply list_lookup_singleton_Some in Hx as [_ <-].
Qed.
Lemma stays_ok_context c f : (forall x, outStandingRpcs_ (f x) = [] \/ outStandingRpcs_ (f x) = outStandingRpcs_ x) -> stays_ok (updContext c f).
Proof. intros Hf w Hw. by apply worker_ok_context. Qed.
End waits.

Ltac stays_ok_step :=
  first
  [ apply stays_ok_new
  | apply stays_ok_same; intros; split; [reflexivity|split; reflexivity]
  | apply stays_ok_context; intros; right; reflexivity
  | apply stays_ok_bind; [|intros ?]
  | apply stays_ok_for_each; intros ?
  | match goal with |- stays_ok (match ?x with _ => _ end) => destruct x end ].
Ltac stays_ok := repeat stays_ok_step.

Section engine_operations.
Context {T G : Type}.
#[local] Set Default Proof Using "Type".

Lemma stays_ok_cmd agent_set send_throws cm : stays_ok (run_cmd (T := T) (G := G) agent_set send_throws cm).
Proof.
  destruct cm; simpl; unfold init, newContext, newAutogradMessageId, getOrCreateContext, emplaceContext, releaseContext,
    releaseContextIfPresent, retrieveContext, isValidContext, currentContext, hasValidContext, setCurrentContextId,
    forceCurrentContextId, getKnownWorkerIds, eraseContextIdAndReset, sendReleaseContextRpc, getShard, updShard, getContext; stays_ok.
Qed.
Lemma stays_ok_complete i r : stays_ok (complete (T := T) (G := G) i r).
Proof. intros w. apply worker_ok_complete. Qed.
Lemma stays_ok_send throws dst message c : stays_ok (run_rpc_op (T := T) (G := G) throws (OpSend dst message c)).
Proof. intros w. apply worker_ok_send. Qed.
Lemma stays_ok_addSend c fn id : stays_ok (addSendFunction (T := T) (G := G) c fn id).
Proof. unfold addSendFunction, getContext. stays_ok. Qed.
Lemma keeps_addSend c fn id : keeps (addSendFunction (T := T) (G := G) c fn id).
Proof. unfold addSendFunction, getContext. keeps. Qed.
Lemma stays_ok_addRecv c fn id : stays_ok (addRecvFunction (T := T) (G := G) c fn id).
Proof. unfold addRecvFunction, getContext. stays_ok. Qed.
Lemma keeps_addRecv c fn id : keeps (addRecvFunction (T := T) (G := G) c fn id).
Proof. unfold addRecvFunction, getContext. keeps. Qed.

(** What processBackwardAutogradReq does before the engine. *)
Lemma keeps_gradients md (grads : list G) : keeps (processBackwardAutogradReq (T := T) md grads).
Proof. unfold processBackwardAutogradReq, retrieveContext, retrieveSendFunction, getShard, getContext. keeps. Qed.
Lemma stays_ok_gradients md (grads : list G) : stays_ok (processBackwardAutogradReq (T := T) md grads).
Proof. unfold processBackwardAutogradReq, retrieveContext, retrieveSendFunction, setGrads, getShard, getContext. stays_ok. Qed.
End engine_operations.

(** *** The invariant of the passes *)

Section invariant.
Context {T G : Type} {LE : LocalEngine}.
Implicit Types s : engine T G.
Implicit Types w : worker T G.
#[local] Set Default Proof Using "Type".
#[local] Set Proof Using Clear Unused.

(** The context of the pass that a call, or an uber future, is responsible for. *)
Definition call_pass (p : call) : option nat :=
  match p with
  | XRun c _ | XWaitGrad _ c | XWaitRpc _ c | SFirst c _ _ => Some c
  | XDone _ | XTerminate | SOther _ _ | SDone _ => None
  end.
Definition uber_pass (b : uber) : option nat :=
  match ub_stage b with UDone => None | _ => Some (ub_context b) end.
Definition passes s : list nat := omap call_pass (calls s) ++ omap uber_pass (ubers s).

(** The graph task of a run is where its threads have brought it. *)
Definition run_reached (gt : GraphTask) (d : graph_data G) : Prop :=
  exists keep ls, run_steps ls (fresh_task keep, run_start (gd_sends d)) = Some (gt, gd_run d) /\ arrived ls = gd_launched d.

Record core (ps : list nat) s : Prop := {
  co_nodup : NoDup ps;
  co_pass : forall c, c ∈ ps -> exists x, contexts (wk s) !! c = Some x /\ is_Some (graphTask_ x) /\
    contextId_ x ∈ initializedContextIds_ s;
  co_id : forall id, id ∈ initializedContextIds_ s -> exists c x, c ∈ ps /\ contexts (wk s) !! c = Some x /\ contextId_ x = id;
  co_inj : forall c c' x x', c ∈ ps -> c' ∈ ps -> contexts (wk s) !! c = Some x -> contexts (wk s) !! c' = Some x' ->
    contextId_ x = contextId_ x' -> c = c';
  co_graph : forall c x g, contexts (wk s) !! c = Some x -> graphTask_ x = Some g -> c ∈ ps /\ (g < length (graphs s))%nat;
  co_worker : worker_ok (wk s);
  co_length : length (graphs s) = length (graph_tasks (wk s));
  co_runs : forall g gt d, graph_tasks (wk s) !! g = Some gt -> graphs s !! g = Some d -> run_reached gt d;
  co_accs : forall acc a, accs s !! acc = Some a -> exists d, graphs s !! acc_graph a = Some d /\ task_threads (gd_run d) <> [];
}.

Definition call_ok s (p : call) : Prop :=
  match p with
  | XWaitGrad acc _ => (acc < length (accs s))%nat
  | XWaitRpc i _ => (i < length (waits (wk s)))%nat
  | XTerminate => False
  | _ => True
  end.
Definition uber_ok s (b : uber) : Prop :=
  match ub_stage b with
  | UAcc acc => (acc < length (accs s))%nat /\ ub_result b = None
  | UWait i => (i < length (waits (wk s)))%nat /\ ub_result b = None
  | UDone => ub_result b <> None
  end.
(** [engine_inv]: [ps] are the passes; [indexed]: what calls and futures refer to is there. *)
Record indexed s : Prop := {
  ix_calls : Forall (call_ok s) (calls s);
  ix_ubers : Forall (uber_ok s) (ubers s);
}.
Definition engine_inv s : Prop := core (passes s) s /\ indexed s.

(** The callbacks have run. *)
Definition acc_settled s (acc : nat) : Prop :=
  forall a gt, accs s !! acc = Some a -> acc_result a = None -> graph_tasks (wk s) !! acc_graph a = Some gt -> future_result_ gt = None.
Definition uber_acc_settled s (u : nat) : Prop :=
  forall b acc, ubers s !! u = Some b -> ub_stage b = UAcc acc -> acc_done acc s = None.
Definition uber_rpc_settled s (u : nat) : Prop :=
  forall b i, ubers s !! u = Some b -> ub_stage b = UWait i -> wait_result i s = None.
Record settled s : Prop := {
  st_accs : forall acc, acc_settled s acc;
  st_uber_acc : forall u, uber_acc_settled s u;
  st_uber_rpc : forall u, uber_rpc_settled s u;
}.

Lemma core_perm ps ps' s : ps ≡ₚ ps' -> core ps s -> core ps' s.
Proof.
  intros Hp [H1 H2 H3 H4 H5 H6 H7 H8 H9]. split; try done.
  - by rewrite <- Hp.
  - intros c. rewrite <- Hp. apply H2.
  - intros id Hid. destruct (H3 id Hid) as (c & x & Hc & ?). exists c, x. by rewrite <- Hp.
  - intros c c' x x'. rewrite <- Hp. apply H4.
  - intros c x g. rewrite <- Hp. apply H5.
Qed.

(** The parts that [core] reads. *)
Lemma core_same ps s s' : wk s' = wk s -> initializedContextIds_ s' = initializedContextIds_ s -> graphs s' = graphs s ->
  accs s' = accs s -> core ps s -> core ps s'.
Proof. intros E1 E2 E3 E4 [H1 H2 H3 H4 H5 H6 H7 H8 H9]. split; rewrite ?E1, ?E2, ?E3, ?E4; done. Qed.

Lemma run_error gt d gt' : run_reached gt d -> rtc failed_task gt gt' -> run_reached gt' d.
Proof.
  intros Hr Hf. revert Hr. induction Hf as [|gt gt1 gt2 [e ->] _ IH]; [done|]. intros (keep & ls & E & Ha). apply IH.
  exists keep, (ls ++ [LError e]). rewrite run_steps_app, E. unfold arrived in *. rewrite omap_app, Ha. simpl. by rewrite app_nil_r.
Qed.

(** An operation of the contexts that leaves passes alone. *)
Lemma core_frame ps s w : wframe (wk s) w -> worker_ok w -> core ps s -> core ps (upd_wk (fun _ => w) s).
Proof.
  intros [F1 F2 F3 _] Hw [H1 H2 H3 H4 H5 H6 H7 H8 H9].
  assert (forall c x', contexts w !! c = Some x' -> is_Some (graphTask_ x') \/ c ∈ ps ->
    exists x, contexts (wk s) !! c = Some x /\ same_pass x x') as Hback.
  { intros c x' Hx' Hor. destruct (contexts (wk s) !! c) as [x|] eqn:Hx.
    - destruct (F1 c x Hx) as (y & Hy & Hs). rewrite Hx' in Hy. injection Hy as ->. by exists x.
    - destruct Hor as [Hg|Hin]; [rewrite (F2 c x' Hx' Hx) in Hg; by destruct Hg|].
      destruct (H2 c Hin) as (x & E & _). by rewrite Hx in E. }
  split; simpl; try done.
  - intros c Hc. destruct (H2 c Hc) as (x & Hx & Hg & Hid). destruct (F1 c x Hx) as (x' & Hx' & E1 & E2).
    exists x'. by rewrite E1, E2.
  - intros id Hid. destruct (H3 id Hid) as (c & x & Hc & Hx & E). destruct (F1 c x Hx) as (x' & Hx' & E1 & _).
    exists c, x'. by rewrite E1.
  - intros c c' x x' Hc Hc' Hx Hx' E. destruct (Hback c x Hx) as (y & Hy & Ey & _); [by right|].
    destruct (Hback c' x' Hx') as (y' & Hy' & Ey' & _); [by right|]. apply (H4 c c' y y'); congruence.
  - intros c x g Hx Hg. destruct (Hback c x Hx) as (y & Hy & _ & Ey); [left; by rewrite Hg|]. apply (H5 c y g); congruence.
  - rewrite H7. by apply Forall2_length in F3.
  - intros g gt d Hgt Hd. destruct (Forall2_lookup_r _ _ _ _ _ F3 Hgt) as (gt0 & Hgt0 & Hf).
    by eapply run_error; [eapply H8|].
Qed.

Lemma indexed_frame s s' : calls s' = calls s -> ubers s' = ubers s -> (length (accs s) <= length (accs s'))%nat ->
  (length (waits (wk s)) <= length (waits (wk s')))%nat -> indexed s -> indexed s'.
Proof.
  intros Ec Eu Ha Hw [H1 H2]. split; rewrite ?Ec, ?Eu.
  - eapply Forall_impl; [exact H1|]. intros []; simpl; try done; lia.
  - eapply Forall_impl; [exact H2|]. intros [c [acc|i|] r]; unfold uber_ok; simpl; try done; intros []; split; done || lia.
Qed.

(** Events that are operations of the contexts. *)
Lemma engine_inv_frame s w : wframe (wk s) w -> worker_ok w -> engine_inv s -> engine_inv (upd_wk (fun _ => w) s).
Proof.
  intros HF Hw [Hc Hi]. split.
  - change (passes (upd_wk (fun _ => w) s)) with (passes s). by apply core_frame.
  - eapply indexed_frame; [..|exact Hi]; try done. apply (fr_waits _ _ HF).
Qed.
Lemma engine_inv_keeps {A} (m : M (worker T G) A) s : keeps m -> (worker_ok (wk s) -> worker_ok (snd (m (wk s)))) ->
  engine_inv s -> engine_inv (snd (on_worker m s)).
Proof.
  intros Hk Hw Hinv. unfold on_worker. specialize (Hk (wk s)). specialize (Hw (co_worker _ _ (proj1 Hinv))).
  destruct (m (wk s)) as [o w]. simpl in *. by apply engine_inv_frame.
Qed.

(** *** A thread moves *)

Lemma run_step_threads l gt r gt' r' : run_step l (gt, r) = Some (gt', r') -> task_threads r <> [] -> task_threads r' <> [].
Proof.
  intros Hs Hne. assert (length (task_threads r) <= length (task_threads r'))%nat as Hle.
  { destruct l; simpl in Hs; unfold globalCpuThread in Hs; repeat case_match; simplify_eq/=; rewrite ?length_insert, ?length_app; try lia.
    all: try (destruct (_ !! k); simplify_eq/=; rewrite ?length_insert, ?length_app; lia). }
  intros E. rewrite E in Hle. destruct (task_threads r); simpl in Hle; [done|lia].
Qed.

Lemma engine_inv_run g l s : engine_inv s -> engine_inv (run_event g l s).
Proof.
  intros Hinv. unfold run_event. destruct (is_launch l) eqn:El; [done|].
  destruct (graph_tasks (wk s) !! g) as [gt|] eqn:Hgt; [|done]. destruct (graphs s !! g) as [d|] eqn:Hd; [|done].
  destruct (run_step l (gt, gd_run d)) as [[gt' r']|] eqn:Hs; [|done].
  destruct Hinv as [[H1 H2 H3 H4 H5 H6 H7 H8 H9] Hi]. set (d' := mkGraphData _ _ _ _ _ _).
  split; [|by eapply indexed_frame; [..|exact Hi]].
  change (passes _) with (passes s). split; simpl; try done; rewrite ?length_insert; try done.
  - intros g' gt1 d1. destruct (decide (g' = g)) as [->|Hne].
    + rewrite !list_lookup_insert_eq by (by eapply lookup_lt_Some). intros [= <-] [= <-].
      destruct (H8 g gt d Hgt Hd) as (keep & ls & E & Ha). exists keep, (ls ++ [l]).
      rewrite run_steps_app. cbn [gd_sends d']. rewrite E. cbn [mbind option_bind run_steps]. rewrite Hs. split; [done|].
      unfold arrived in *. rewrite omap_app, Ha. destruct l; simpl in *; rewrite ?app_nil_r; done.
    + rewrite !list_lookup_insert_ne by done. apply H8.
  - intros acc a Ha. destruct (H9 acc a Ha) as (d1 & Hd1 & Hne). destruct (decide (acc_graph a = g)) as [Hg|Hg]; [rewrite Hg in *|].
    + exists d'. rewrite list_lookup_insert_eq by (by eapply lookup_lt_Some). split; [done|].
      rewrite Hd in Hd1. injection Hd1 as <-. by eapply run_step_threads.
    + exists d1. by rewrite list_lookup_insert_ne.
Qed.

(** As many ids as passes. *)
Lemma ids_size ps s : core ps s -> size (initializedContextIds_ s) = length ps.
Proof.
  intros HC. pose (id_of := fun c => default 0 (contextId_ <$> contexts (wk s) !! c)).
  assert (forall c x, contexts (wk s) !! c = Some x -> id_of c = contextId_ x) as Hid by (intros c x Hx; unfold id_of; by rewrite Hx).
  assert (NoDup (id_of <$> ps)) as Hnd.
  { apply NoDup_fmap_2_strong; [|apply HC]. intros c c' Hc Hc' E.
    destruct (co_pass _ _ HC c Hc) as (x & Hx & _), (co_pass _ _ HC c' Hc') as (x' & Hx' & _).
    apply (co_inj _ _ HC c c' x x'); try done. by rewrite <- (Hid c x Hx), <- (Hid c' x' Hx'). }
  rewrite <- (length_fmap id_of), <- (size_list_to_set (C := gset Z) _ Hnd). f_equal. apply leibniz_equiv. intros id.
  rewrite elem_of_list_to_set, list_elem_of_fmap. split.
  - intros Hin. destruct (co_id _ _ HC id Hin) as (c & x & Hc & Hx & <-). exists c. by rewrite (Hid c x Hx).
  - intros (c & -> & Hc). destruct (co_pass _ _ HC c Hc) as (x & Hx & _ & Hin). by rewrite (Hid c x Hx).
Qed.
End invariant.

Section operations.
Context {T G : Type} {LE : LocalEngine}.
Implicit Types s : engine T G.
Implicit Types w : worker T G.
Variable next_edges : nat -> list (option edge).
Variable kind : nat -> node_kind.
Variable graph_size : nat.
Variable send_order : gmap Z nat -> list nat.
Variable init_to_execute : list (nat * Z) -> list edge -> gmap nat ExecInfo.
Variable use_count : nat -> Z.
#[local] Set Default Proof Using "Type".
#[local] Set Proof Using Clear Unused.
Abbreviation compute_deps :=
  (computeDependencies (T := T) (G := G) next_edges kind graph_size send_order init_to_execute).

(** The futures and the calls are left alone. *)
Record same_futures s s' : Prop := {
  sf_accs : accs s' = accs s;
  sf_ubers : ubers s' = ubers s;
  sf_calls : calls s' = calls s;
  sf_waits : waits (wk s') = waits (wk s);
  sf_tasks : graph_tasks (wk s') = graph_tasks (wk s);
}.

Lemma on_worker_eq {A} (m : M (worker T G) A) s o w : m (wk s) = (o, w) -> on_worker m s = (o, upd_wk (fun _ => w) s).
Proof. intros E. unfold on_worker. by rewrite E. Qed.
Lemma upd_wk_id s : upd_wk (fun _ => wk s) s = s.
Proof. by destruct s. Qed.

Lemma getContext_ok c x w : contexts w !! c = Some x -> getContext c w = (Ret x, w).
Proof. intros E. unfold getContext, bind, gets. by rewrite E. Qed.
Lemma retrieve_ok c x g w : contexts w !! c = Some x -> graphTask_ x = Some g -> retrieveGraphTask c w = (Ret g, w).
Proof. intros E Eg. unfold retrieveGraphTask, bind. rewrite (getContext_ok c x w E), Eg. done. Qed.

Lemma core_retrieve ps s c : core ps s -> c ∈ ps -> exists g, on_worker (retrieveGraphTask c) s = (Ret g, s).
Proof.
  intros HC Hc. destruct (co_pass _ _ HC c Hc) as (x & Hx & [g Hg] & _). exists g.
  rewrite (on_worker_eq _ s (Ret g) (wk s)) by (by eapply retrieve_ok). by rewrite upd_wk_id.
Qed.

(** What computeDependencies does: the state after a search that has found [found]. *)
Definition with_graph_task (c : nat) (sends : list nat) (found : search_state) (grads : list G) (retain : bool) s : engine T G :=
  upd_graphs (fun l => l ++ [mkGraphData (run_start sends) (dependencies_ found)
    (compute_exec_info kind init_to_execute c sends found) grads sends []])
  (upd_wk (fun w => upd_graph_tasks (fun l => l ++ [fresh_task retain])
     (upd_contexts (alter (fun x => set_graph x (Some (length (graph_tasks (wk s))))) c) w)) s).
Definition search_context (rootEdges : list edge) (x : DistAutogradContext G) : outcome search_state :=
  let sends := send_order (sendAutogradFunctions_ x) in
  search (edges_from next_edges rootEdges) kind (S (length sends) + graph_size) (search_start (graphRoot :: sends)).

Lemma computeDependencies_eq c x re gr rt s : contexts (wk s) !! c = Some x ->
  compute_deps c re gr rt s = match search_context re x with
    | Ret found =>
        match graphTask_ x with
        | None => (Ret (outputEdges found), with_graph_task c (send_order (sendAutogradFunctions_ x)) found gr rt s)
        | Some _ => (Throw (AssertFailed "Cannot set GraphTask multiple times for the same autograd context"), s)
        end
    | Throw e => (Throw e, s)
    | Block => (Block, s)
    end.
Proof.
  intros Hx. unfold computeDependencies, search_context.
  assert (on_worker (sendFunctions c) s = (Ret (sendAutogradFunctions_ x), s)) as E1.
  { rewrite (on_worker_eq _ s (Ret (sendAutogradFunctions_ x)) (wk s)); [by rewrite upd_wk_id|].
    unfold sendFunctions. by rewrite (bind_run _ _ _ _ _ (getContext_ok c x _ Hx)). }
  rewrite (bind_run _ _ _ _ _ E1). destruct (search _ _ _ _) as [found|e|]; [|done..].
  rewrite (bind_run (lift (Ret found)) _ s found s eq_refl).
  rewrite (bind_run (gets _) _ s (length (graph_tasks (wk s))) s eq_refl). destruct (graphTask_ x) as [g|] eqn:Eg.
  - apply bind_throw. erewrite on_worker_eq; [by rewrite upd_wk_id|]. unfold setGraphTask.
    rewrite (bind_run _ _ _ _ _ (getContext_ok c x _ Hx)). by rewrite Eg.
  - assert (on_worker (setGraphTask c (length (graph_tasks (wk s)))) s = (Ret tt, upd_wk (fun _ => upd_contexts
      (alter (fun x => set_graph x (Some (length (graph_tasks (wk s))))) c) (wk s)) s)) as E2; [|by rewrite (bind_run _ _ _ _ _ E2)].
    apply on_worker_eq. unfold setGraphTask. by rewrite (bind_run _ _ _ _ _ (getContext_ok c x _ Hx)), Eg.
Qed.

(** A pass begins. *)
Lemma start_pass ps c x re gr rt s : core ps s -> contexts (wk s) !! c = Some x -> contextId_ x ∉ initializedContextIds_ s ->
  (exists o, compute_deps c re gr rt s = (o, s) /\ forall outs, o <> Ret outs) \/
  (exists outs s1, compute_deps c re gr rt s = (Ret outs, s1) /\ initializedContextIds_ s1 = initializedContextIds_ s /\
     core (c :: ps) (upd_ids (fun ids => {[contextId_ x]} ∪ ids) s1) /\
     accs s1 = accs s /\ ubers s1 = ubers s /\ calls s1 = calls s /\ waits (wk s1) = waits (wk s)).
Proof.
  intros HC Hx Hid. rewrite (computeDependencies_eq c x re gr rt s Hx).
  destruct (search_context re x) as [found|e|]; [|left; by eexists..]. destruct (graphTask_ x) as [g|] eqn:Hg; [left; by eexists|right].
  eexists (outputEdges found), _. split; [reflexivity|]. split; [done|]. split; [|done].
  destruct HC as [H1 H2 H3 H4 H5 H6 H7 H8 H9].
  assert (c ∉ ps) as Hc.
  { intros Hc. destruct (H2 c Hc) as (y & Hy & _ & Hin). rewrite Hx in Hy. injection Hy as <-. done. }
  set (f := fun x : DistAutogradContext G => set_graph x (Some (length (graph_tasks (wk s))))).
  assert (forall c' x', alter f c (contexts (wk s)) !! c' = Some x' ->
    exists y, contexts (wk s) !! c' = Some y /\ contextId_ x' = contextId_ y /\
      graphTask_ x' = if decide (c' = c) then Some (length (graph_tasks (wk s))) else graphTask_ y) as Hback.
  { intros c' x'. destruct (decide (c' = c)) as [->|Hne].
    - rewrite list_lookup_alter_eq, Hx. intros [= <-]. by exists x.
    - rewrite list_lookup_alter_ne by done. by exists x'. }
  split; simpl.
  - by constructor.
  - intros c' [->|Hc']%elem_of_cons.
    + exists (f x). rewrite list_lookup_alter_eq, Hx. split; [done|]. split; [done|]. simpl. set_solver.
    + destruct (H2 c' Hc') as (y & Hy & Hgy & Hidy). exists y. rewrite list_lookup_alter_ne by (by intros ->). set_solver.
  - intros id [->%elem_of_singleton|Hin]%elem_of_union.
    + exists c, (f x). rewrite list_lookup_alter_eq, Hx. split; [by left|done].
    + destruct (H3 id Hin) as (c' & y & Hc' & Hy & Ey). exists c', y.
      rewrite list_lookup_alter_ne by (intros ->; done). split; [by right|done].
  - assert (forall c' y', c' ∈ ps -> contexts (wk s) !! c' = Some y' -> contextId_ x <> contextId_ y') as Hfresh.
    { intros c' y' Hc' Hy' E'. destruct (H2 c' Hc') as (y & Hy & _ & Hin). rewrite Hy' in Hy. injection Hy as <-. congruence. }
    intros c1 c2 x1 x2 Hc1 Hc2 (y1 & Hy1 & E1 & _)%Hback (y2 & Hy2 & E2 & _)%Hback E12.
    apply elem_of_cons in Hc1 as [->|Hc1], Hc2 as [->|Hc2]; [done|exfalso..|by apply (H4 c1 c2 y1 y2); congruence].
    + rewrite Hx in Hy1. injection Hy1 as <-. apply (Hfresh c2 y2); congruence.
    + rewrite Hx in Hy2. injection Hy2 as <-. apply (Hfresh c1 y1); congruence.
  - intros c' x' g (y & Hy & _ & Ey)%Hback Hg'. rewrite length_app. simpl. destruct (decide (c' = c)) as [->|Hne].
    + split; [by left|]. rewrite Ey in Hg'. injection Hg' as <-. lia.
    + rewrite Ey in Hg'. destruct (H5 c' y g Hy Hg'). split; [by right|lia].
  - apply (worker_ok_context c f) in H6; [exact H6|by right].
  - by rewrite !length_app, H7.
  - intros g gt d1 Hgt Hd1. apply lookup_app_Some in Hgt as [Hgt|[Hge Hgt]].
    + rewrite lookup_app_l in Hd1 by (rewrite H7; by eapply lookup_lt_Some). by apply (H8 g).
    + rewrite lookup_app_r, H7 in Hd1 by (by rewrite H7). apply list_lookup_singleton_Some in Hgt as [Hz <-].
      rewrite Hz in Hd1. injection Hd1 as <-. by exists rt, [].
  - intros acc a Ha. destruct (H9 acc a Ha) as (d1 & Hd1 & Hne). exists d1. split; [by apply lookup_app_l_Some|done].
Qed.

(** A task is launched. *)
Lemma core_launch ps g fn inc s : core ps s -> exists s', launch_task g fn inc s = (Ret tt, s') /\ core ps s' /\ same_futures s s' /\
  initializedContextIds_ s' = initializedContextIds_ s /\
  (forall d, graphs s !! g = Some d -> exists d', graphs s' !! g = Some d' /\ task_threads (gd_run d') <> []).
Proof.
  intros [H1 H2 H3 H4 H5 H6 H7 H8 H9]. eexists. split; [reflexivity|]. split; [|split; [done|split; [done|]]].
  - split; simpl; try done; rewrite ?length_alter; try done.
    + intros g' gt d1 Hgt. destruct (decide (g' = g)) as [->|Hne]; [|rewrite list_lookup_alter_ne by done; by apply H8].
      rewrite list_lookup_alter_eq. destruct (graphs s !! g) as [d|] eqn:Hd; [|done]. intros [= <-].
      destruct (H8 g gt d Hgt Hd) as (keep & ls & E & Ha). exists keep, (ls ++ [LLaunch fn inc]). simpl.
      rewrite run_steps_app, E. split; [done|]. unfold arrived in *. rewrite omap_app, Ha. by destruct inc; simpl; rewrite ?app_nil_r.
    + intros acc a Ha. destruct (H9 acc a Ha) as (d1 & Hd1 & Hne). destruct (decide (acc_graph a = g)) as [<-|Hg].
      * rewrite list_lookup_alter_eq, Hd1. eexists. split; [done|]. simpl. by destruct (task_threads (gd_run d1)).
      * rewrite list_lookup_alter_ne by done. by exists d1.
  - intros d Hd. simpl. rewrite list_lookup_alter_eq, Hd. eexists. split; [done|]. simpl. by destruct (task_threads (gd_run d)).
Qed.

(** The outstanding RPCs of a context are forgotten. *)
Lemma core_clear ps c s : core ps s -> exists s', on_worker (clearOutstandingRpcs c) s = (Ret tt, s') /\ core ps s' /\ same_futures s s' /\
  initializedContextIds_ s' = initializedContextIds_ s /\ graphs s' = graphs s.
Proof.
  intros HC. eexists. split; [reflexivity|]. split; [|done]. apply core_frame; [| |done].
  - apply (keeps_clearOutstanding c (wk s)).
  - apply (worker_ok_context c (fun x => set_outstanding x [])); [apply HC|by left].
Qed.

Lemma core_run_engine ps c root outs inc s : core ps s -> c ∈ ps -> exists s',
  runEngineAndAccumulateGradients c root outs inc s = (Ret (length (accs s)), s') /\ core ps s' /\
  initializedContextIds_ s' = initializedContextIds_ s /\ ubers s' = ubers s /\ calls s' = calls s /\
  length (accs s') = S (length (accs s)) /\ waits (wk s') = waits (wk s).
Proof.
  intros HC Hc. unfold runEngineAndAccumulateGradients.
  destruct (core_clear ps c s HC) as (s1 & E1 & HC1 & HS1 & Ei1 & _). rewrite (bind_run _ _ _ _ _ E1).
  destruct (co_pass _ _ HC1 c Hc) as (x & Hx & [g Hg] & _). destruct (co_graph _ _ HC1 c x g Hx Hg) as [_ Hlt].
  assert (on_worker (retrieveGraphTask c) s1 = (Ret g, s1)) as E2.
  { rewrite (on_worker_eq _ s1 (Ret g) (wk s1)) by (by eapply retrieve_ok). by rewrite upd_wk_id. }
  rewrite (bind_run _ _ _ _ _ E2). destruct (core_launch ps g root inc s1 HC1) as (s2 & E3 & HC2 & HS2 & Ei2 & Hd).
  rewrite (bind_run _ _ _ _ _ E3). eexists. split.
  { unfold bind, gets, modify, ret. by rewrite (sf_accs _ _ HS2), (sf_accs _ _ HS1). }
  split.
  - destruct HC2 as [H1 H2 H3 H4 H5 H6 H7 H8 H9]. split; simpl; try done.
    intros acc a [Ha|[_ Ha]]%lookup_app_Some; [by apply (H9 acc)|].
    apply list_lookup_singleton_Some in Ha as [_ <-]. simpl.
    destruct (graphs s1 !! g) as [d|] eqn:Ed; [by apply (Hd d)|]. apply lookup_ge_None in Ed. lia.
  - simpl. rewrite Ei2, Ei1, length_app, (sf_ubers _ _ HS2), (sf_ubers _ _ HS1), (sf_calls _ _ HS2), (sf_calls _ _ HS1),
      (sf_accs _ _ HS2), (sf_accs _ _ HS1), (sf_waits _ _ HS2), (sf_waits _ _ HS1).
    simpl. split_and!; done || lia.
Qed.

(** clearAndWaitForOutstandingRpcsAsync by the engine. *)
Lemma core_wait ps c s : core ps s -> c ∈ ps -> exists i s', on_worker (clearAndWaitForOutstandingRpcsAsync c) s = (Ret i, s') /\
  core ps s' /\ (i < length (waits (wk s')))%nat /\ (length (waits (wk s)) <= length (waits (wk s')))%nat /\
  accs s' = accs s /\ ubers s' = ubers s /\ calls s' = calls s /\ graph_tasks (wk s') = graph_tasks (wk s).
Proof.
  intros HC Hc. destruct (co_pass _ _ HC c Hc) as (x & Hx & _).
  destruct (worker_ok_wait c x (wk s) (co_worker _ _ HC) Hx) as (i & w & E & Hi & Hw & Hg).
  pose proof (keeps_wait c (wk s)) as HF. rewrite E in HF. simpl in HF.
  exists i, (upd_wk (fun _ => w) s). split; [by apply on_worker_eq|]. split; [by apply core_frame|].
  split; [done|]. split; [apply (fr_waits _ _ HF)|done].
Qed.

Lemma reset_ok c x w : contexts w !! c = Some x ->
  contexts (upd_contexts (alter (fun x => set_graph x None) c) w) !! c = Some (set_graph x None).
Proof. intros Hx. simpl. by rewrite list_lookup_alter_eq, Hx. Qed.

(** The end of a pass. *)
Lemma core_cleanup ps c s : (forall g, use_count g = 1) -> core (c :: ps) s -> exists s',
  cleanupBackwardPass use_count c s = (Ret tt, s') /\ core ps s' /\ same_futures s s'.
Proof using use_count.
  intros Huse HC. unfold cleanupBackwardPass.
  destruct (co_pass _ _ HC c) as (x & Hx & [g Hg] & _); [by left|].
  assert (on_worker (retrieveGraphTask c) s = (Ret g, s)) as E1.
  { rewrite (on_worker_eq _ s (Ret g) (wk s)) by (by eapply retrieve_ok). by rewrite upd_wk_id. }
  rewrite (bind_run _ _ _ _ _ E1), (bind_run (assert_ _ _) _ s tt s) by (by rewrite Huse).
  set (f := fun x : DistAutogradContext G => set_outstanding (set_graph x None) []).
  set (w := upd_contexts (alter (fun x => set_outstanding x []) c) (upd_contexts (alter (fun x => set_graph x None) c) (wk s))).
  assert (forall c' x', contexts w !! c' = Some x' -> exists y, contexts (wk s) !! c' = Some y /\ contextId_ x' = contextId_ y /\
    graphTask_ x' = if decide (c' = c) then None else graphTask_ y) as Hback.
  { intros c' x'. unfold w. cbn [contexts upd_contexts]. destruct (decide (c' = c)) as [->|Hne].
    - rewrite !list_lookup_alter_eq, Hx. intros [= <-]. by exists x.
    - rewrite !list_lookup_alter_ne by done. by exists x'. }
  assert (forall c' y, c' <> c -> contexts (wk s) !! c' = Some y -> contexts w !! c' = Some y) as Hforth.
  { intros c' y Hne Hy. unfold w. cbn [contexts upd_contexts]. by rewrite !list_lookup_alter_ne. }
  exists (upd_ids (fun ids => ids ∖ {[contextId_ x]}) (upd_wk (fun _ => w) s)). split.
  { rewrite (bind_run _ _ s tt (upd_wk (fun _ => upd_contexts (alter (fun x => set_graph x None) c) (wk s)) s)) by done.
    rewrite (bind_run _ _ _ tt (upd_wk (fun _ => w) s)) by done.
    rewrite (bind_run _ _ _ (set_outstanding (set_graph x None) []) (upd_wk (fun _ => w) s)); [done|].
    rewrite (on_worker_eq _ _ (Ret (set_outstanding (set_graph x None) [])) w); [done|]. apply getContext_ok.
    unfold w. cbn [contexts upd_contexts]. by rewrite !list_lookup_alter_eq, Hx. }
  split; [|done]. destruct HC as [[Hc H1]%NoDup_cons H2 H3 H4 H5 H6 H7 H8 H9].
  assert (forall c' y, c' ∈ ps -> contexts (wk s) !! c' = Some y -> contextId_ y <> contextId_ x) as Hother.
  { intros c' y Hc' Hy E. apply Hc. rewrite <- (H4 c' c y x); [done|by right|by left|done..]. }
  split; cbn [wk upd_wk upd_ids initializedContextIds_ graphs accs]; try done.
  - intros c' Hc'. destruct (H2 c') as (y & Hy & Hgy & Hidy); [by right|]. exists y.
    rewrite (Hforth c' y) by (done || by intros ->). specialize (Hother c' y Hc' Hy). set_solver.
  - intros id [Hin Hne]%elem_of_difference. destruct (H3 id Hin) as (c' & y & [->|Hc']%elem_of_cons & Hy & Ey).
    + rewrite Hx in Hy. injection Hy as <-. set_solver.
    + exists c', y. by rewrite (Hforth c' y) by (done || by intros ->).
  - intros c1 c2 x1 x2 Hc1 Hc2 (y1 & Hy1 & E1' & _)%Hback (y2 & Hy2 & E2' & _)%Hback E12.
    apply (H4 c1 c2 y1 y2); [by right|by right|done|done|congruence].
  - intros c' x' g' (y & Hy & _ & Ey)%Hback Hg'. rewrite Ey in Hg'. destruct (decide (c' = c)) as [->|Hne]; [done|].
    destruct (H5 c' y g' Hy Hg') as [[?|?]%elem_of_cons ?]; done.
  - apply worker_ok_context; [|by left]. by apply worker_ok_context; [|by right].
Qed.

(** *** The callbacks *)

Variable captured : nat -> nat.
Abbreviation settle_callbacks := (settle (T := T) (G := G) use_count captured).

(** The state after an uber future has moved on; [ps] are the other passes. *)
Lemma uber_set u b stage r s : ubers s !! u = Some b -> ub_result b = None ->
  set_uber u stage r s = (Ret tt, upd_ubers (<[u := mkUber (ub_context b) stage r]>) s).
Proof.
  intros Hb Hr. unfold set_uber, modify, upd_ubers. rewrite list_insert_alter. do 2 f_equal.
  apply list_alter_ext; [|done]. intros b' Hb'. rewrite Hb in Hb'. injection Hb' as <-. by rewrite Hr.
Qed.

Lemma indexed_uber u b s : indexed s -> uber_ok s b -> indexed (upd_ubers (<[u := b]>) s).
Proof. intros [H1 H2] Hb. split; simpl; [done|]. by apply Forall_insert. Qed.

Lemma passes_uber u b s : ubers s !! u = Some b -> exists rest, passes s ≡ₚ option_list (uber_pass b) ++ rest /\
  forall b', passes (upd_ubers (<[u := b']>) s) ≡ₚ option_list (uber_pass b') ++ rest.
Proof.
  intros Hb. destruct (omap_replace uber_pass (ubers s) u b b Hb) as (rest & E & _).
  exists (omap call_pass (calls s) ++ rest). unfold passes. split; [rewrite E; solve_Permutation|].
  intros b'. simpl. destruct (omap_replace uber_pass (ubers s) u b b' Hb) as (rest' & E1 & E2). rewrite E2.
  rewrite E in E1. apply (inj (app _)) in E1. rewrite E1. solve_Permutation.
Qed.

Lemma passes_uber_frame u b s s1 : ubers s1 = ubers s -> calls s1 = calls s ->
  passes (upd_ubers (<[u := b]>) s1) = passes (upd_ubers (<[u := b]>) s).
Proof. intros Eu Ec. unfold passes. simpl. by rewrite Eu, Ec. Qed.

Lemma acc_callback_ok acc s : engine_inv s -> exists s', acc_callback captured acc s = (Ret tt, s') /\ engine_inv s' /\
  length (accs s') = length (accs s) /\ acc_settled s' acc /\ (forall acc', acc_settled s acc' -> acc_settled s' acc').
Proof using captured.
  intros Hinv. unfold acc_callback, bind, gets, ret.
  assert (forall P : Prop, acc_settled s acc -> P -> exists s', (Ret tt, s) = (Ret tt, s') /\ engine_inv s' /\
    length (accs s') = length (accs s) /\ acc_settled s' acc /\ (forall acc', acc_settled s acc' -> acc_settled s' acc')) as Hsame.
  { intros P HP _. by exists s. }
  destruct (accs s !! acc) as [[g outputs [r|]]|] eqn:Ha.
  - apply (Hsame True); [|done]. intros a gt Ha'. rewrite Ha in Ha'. by injection Ha' as <-.
  - destruct (graph_tasks (wk s) !! g) as [gt|] eqn:Hg; simpl.
    2:{ apply (Hsame True); [|done]. intros a gt Ha'. rewrite Ha in Ha'. injection Ha' as <-. simpl. by rewrite Hg. }
    destruct (future_result_ gt) as [r|] eqn:Er.
    2:{ apply (Hsame True); [|done]. intros a gt' Ha'. rewrite Ha in Ha'. injection Ha' as <-. simpl. rewrite Hg. by intros _ [= <-]. }
    unfold modify. eexists. split; [reflexivity|]. set (a' := mkAcc g outputs (Some _)).
    assert (accs (upd_accs (<[acc := a']>) s) = <[acc := a']> (accs s)) as Eaccs by done.
    assert (length (<[acc := a']> (accs s)) = length (accs s)) as El by apply length_insert.
    split_and!; [split| | |].
    + change (passes _) with (passes s). destruct Hinv as [[H1 H2 H3 H4 H5 H6 H7 H8 H9] _]. split; try done.
      intros acc' a1. rewrite Eaccs. intros [[-> [<- _]]|[_ Hl]]%list_lookup_insert_Some; [|by apply (H9 acc')].
      by apply (H9 _ _ Ha).
    + eapply indexed_frame; [..|apply Hinv]; try done. simpl. lia.
    + simpl. lia.
    + intros a1 gt1. rewrite Eaccs, list_lookup_insert_eq by (by eapply lookup_lt_Some). by intros [= <-].
    + intros acc' Hs a1 gt1. rewrite Eaccs. intros [[-> [<- _]]|[_ Hl]]%list_lookup_insert_Some; [done|]. by apply Hs.
  - apply (Hsame True); [|done]. intros a gt Ha'. by rewrite Ha in Ha'.
Qed.

Definition others_settled s s' : Prop :=
  accs s' = accs s /\ graph_tasks (wk s') = graph_tasks (wk s) /\ length (ubers s') = length (ubers s).

Lemma uber_on_acc_ok u s : (forall g, use_count g = 1) -> engine_inv s -> exists s', uber_on_acc use_count u s = (Ret tt, s') /\
  engine_inv s' /\ others_settled s s' /\ uber_acc_settled s' u /\ (forall v, uber_acc_settled s v -> uber_acc_settled s' v).
Proof using use_count.
  intros Huse Hinv. unfold uber_on_acc. unfold bind at 1, gets at 1.
  assert (uber_acc_settled s u -> exists s', (Ret tt, s) = (Ret tt, s') /\ engine_inv s' /\ others_settled s s' /\
    uber_acc_settled s' u /\ (forall v, uber_acc_settled s v -> uber_acc_settled s' v)) as Hsame.
  { intros HP. by exists s. }
  destruct (ubers s !! u) as [[c [acc|i|] r0]|] eqn:Hb.
  4: apply Hsame; intros b acc Hb'; by rewrite Hb in Hb'.
  2,3: apply Hsame; intros b acc Hb'; rewrite Hb in Hb'; by injection Hb' as <-.
  unfold bind at 1, gets at 1. destruct (acc_done acc s) as [r|] eqn:Er.
  2:{ apply Hsame. intros b acc' Hb'. rewrite Hb in Hb'. injection Hb' as <-. by intros [= <-]. }
  destruct Hinv as [HC HI]. pose proof (proj1 (Forall_lookup _ _) (ix_ubers _ HI) u _ Hb) as [_ Hr0]. simpl in Hr0. subst r0.
  destruct (passes_uber u _ s Hb) as (rest & Hp & Hp'). simpl in Hp. pose proof (core_perm _ _ _ Hp HC) as HCr.
  assert (forall s1 stage r1, accs s1 = accs s -> ubers s1 = ubers s -> (forall acc, stage <> UAcc acc) -> forall v,
    uber_acc_settled s v \/ v = u -> uber_acc_settled (upd_ubers (<[u := mkUber c stage r1]>) s1) v) as Hset.
  { intros s1 stage r1 Ea Eu Hst v Hv b acc'. cbn [ubers upd_ubers]. rewrite Eu.
    intros [[-> [<- _]]|[Hne Hl]]%list_lookup_insert_Some; [intros Es; by destruct (Hst acc')|].
    destruct Hv as [Hv| ->]; [|done]. unfold acc_done. cbn [accs upd_ubers]. rewrite Ea. by apply Hv. }
  destruct r as [e|].
  - destruct (core_cleanup rest c s Huse HCr) as (s1 & E1 & HC1 & HS1). unfold try, bind. rewrite E1.
    rewrite (uber_set u (mkUber c (UAcc acc) None) _ _ s1) by (by rewrite ?(sf_ubers _ _ HS1)). cbn [ub_context].
    eexists. split; [reflexivity|]. split; [split|split; [|split; [|intros v Hv]]].
    + apply (core_perm rest); [|by eapply core_same; [..|exact HC1]].
      by rewrite (passes_uber_frame u _ s s1 (sf_ubers _ _ HS1) (sf_calls _ _ HS1)), Hp'.
    + apply indexed_uber; [|done]. eapply indexed_frame; [..|exact HI]; try apply HS1; by rewrite ?(sf_accs _ _ HS1), ?(sf_waits _ _ HS1).
    + split_and!; simpl; [apply HS1|apply HS1|by rewrite length_insert, (sf_ubers _ _ HS1)].
    + apply Hset; [apply HS1|apply HS1|done|by right].
    + apply Hset; [apply HS1|apply HS1|done|by left].
  - destruct (core_wait (c :: rest) c s HCr) as (i & s1 & E1 & HC1 & Hi & Hw & Ea & Eu & Ec & Eg); [by left|]. unfold try, bind. rewrite E1.
    rewrite (uber_set u (mkUber c (UAcc acc) None) _ _ s1) by (by rewrite ?Eu). cbn [ub_context].
    eexists. split; [reflexivity|]. split; [split|split; [|split; [|intros v Hv]]].
    + apply (core_perm (c :: rest)); [|by eapply core_same; [..|exact HC1]].
      by rewrite (passes_uber_frame u _ s s1 Eu Ec), Hp'.
    + apply indexed_uber; [|done]. eapply indexed_frame; [..|exact HI]; try done. by rewrite Ea.
    + split_and!; simpl; [done|done|by rewrite length_insert, Eu].
    + apply Hset; [done|done|done|by right].
    + apply Hset; [done|done|done|by left].
Qed.

Lemma uber_on_rpc_ok u s : (forall g, use_count g = 1) -> engine_inv s -> exists s', uber_on_rpc use_count u s = (Ret tt, s') /\
  engine_inv s' /\ others_settled s s' /\ uber_rpc_settled s' u /\ (forall v, uber_rpc_settled s v -> uber_rpc_settled s' v) /\
  (forall v, uber_acc_settled s v -> uber_acc_settled s' v).
Proof using use_count.
  intros Huse Hinv. unfold uber_on_rpc. unfold bind at 1, gets at 1.
  assert (uber_rpc_settled s u -> exists s', (Ret tt, s) = (Ret tt, s') /\ engine_inv s' /\ others_settled s s' /\
    uber_rpc_settled s' u /\ (forall v, uber_rpc_settled s v -> uber_rpc_settled s' v) /\
    (forall v, uber_acc_settled s v -> uber_acc_settled s' v)) as Hsame.
  { intros HP. by exists s. }
  destruct (ubers s !! u) as [[c [acc|i|] r0]|] eqn:Hb.
  4: apply Hsame; intros b i' Hb'; by rewrite Hb in Hb'.
  1,3: apply Hsame; intros b i' Hb'; rewrite Hb in Hb'; by injection Hb' as <-.
  unfold bind at 1, gets at 1. destruct (wait_result i s) as [r|] eqn:Er.
  2:{ apply Hsame. intros b acc' Hb'. rewrite Hb in Hb'. injection Hb' as <-. by intros [= <-]. }
  destruct Hinv as [HC HI]. pose proof (proj1 (Forall_lookup _ _) (ix_ubers _ HI) u _ Hb) as [_ Hr0]. simpl in Hr0. subst r0.
  destruct (passes_uber u _ s Hb) as (rest & Hp & Hp'). simpl in Hp. pose proof (core_perm _ _ _ Hp HC) as HCr.
  destruct (core_cleanup rest c s Huse HCr) as (s1 & E1 & HC1 & HS1). unfold try, bind. rewrite E1.
  rewrite (uber_set u (mkUber c (UWait i) None) _ _ s1) by (by rewrite ?(sf_ubers _ _ HS1)). cbn [ub_context].
  eexists. split; [reflexivity|]. split; [split|split; [|split; [|split; intros v Hv]]].
  - apply (core_perm rest); [|by eapply core_same; [..|exact HC1]].
    by rewrite (passes_uber_frame u _ s s1 (sf_ubers _ _ HS1) (sf_calls _ _ HS1)), Hp'.
  - apply indexed_uber; [|done]. eapply indexed_frame; [..|exact HI]; try apply HS1; by rewrite ?(sf_accs _ _ HS1), ?(sf_waits _ _ HS1).
  - split_and!; simpl; [apply HS1|apply HS1|by rewrite length_insert, (sf_ubers _ _ HS1)].
  - intros b i'. cbn [ubers upd_ubers]. rewrite (sf_ubers _ _ HS1).
    intros [[_ [<- _]]|[Hne _]]%list_lookup_insert_Some; [intros Es; discriminate|done].
  - intros b i'. cbn [ubers upd_ubers]. rewrite (sf_ubers _ _ HS1). unfold wait_result. cbn [wk upd_ubers]. rewrite (sf_waits _ _ HS1).
    intros [[_ [<- _]]|[Hne Hl]]%list_lookup_insert_Some; [intros Es; discriminate|by apply (Hv b i')].
  - intros b i'. cbn [ubers upd_ubers]. rewrite (sf_ubers _ _ HS1). unfold acc_done. cbn [accs upd_ubers]. rewrite (sf_accs _ _ HS1).
    intros [[_ [<- _]]|[Hne Hl]]%list_lookup_insert_Some; [intros Es; discriminate|by apply (Hv b i')].
Qed.

(** A loop of callbacks: each one settles its future and leaves the others settled. *)
Lemma for_each_settles (I : engine T G -> Prop) (P : nat -> engine T G -> Prop) (f : nat -> M (engine T G) unit) :
  (forall i s, I s -> exists s', f i s = (Ret tt, s') /\ I s' /\ P i s' /\ (forall j, P j s -> P j s')) ->
  forall l s, I s -> exists s', for_each l f s = (Ret tt, s') /\ I s' /\ (forall i, i ∈ l -> P i s') /\ (forall j, P j s -> P j s').
Proof.
  intros Hf. induction l as [|i l IH]; intros s Hs; simpl.
  - exists s. split; [done|]. split; [done|]. split; [|done]. intros i Hi. by apply not_elem_of_nil in Hi.
  - destruct (Hf i s Hs) as (s1 & E & H1 & HP & Hk). unfold bind. rewrite E.
    destruct (IH s1 H1) as (s2 & -> & H2 & HP2 & Hk2). exists s2. split; [done|]. split; [done|]. split; [|auto].
    intros j [->|Hj]%elem_of_cons; auto.
Qed.

Lemma settle_ok s : (forall g, use_count g = 1) -> engine_inv s -> exists s', settle_callbacks s = (Ret tt, s') /\ engine_inv s' /\ settled s'.
Proof using use_count captured.
  intros Huse Hinv. unfold settle. unfold bind at 1, gets at 1.
  destruct (for_each_settles (fun s1 => engine_inv s1 /\ length (accs s1) = length (accs s)) (fun i s => acc_settled s i)
    (acc_callback captured)) with (l := seq 0 (length (accs s))) (s := s) as (s1 & E1 & [Hinv1 Hl1] & Hacc & _); [|done|].
  { intros i s1 [H1 Hl]. destruct (acc_callback_ok i s1 H1) as (s2 & ? & ? & Hl2 & ? & ?). exists s2. rewrite Hl2. eauto. }
  assert (forall i, acc_settled s1 i) as Hacc1.
  { intros i. destruct (decide (i < length (accs s))%nat) as [Hi|Hi]; [apply Hacc, elem_of_seq; lia|].
    intros a gt Ha. apply lookup_lt_Some in Ha. lia. }
  unfold bind at 1. rewrite E1. unfold bind at 1, gets at 1.
  destruct (for_each_settles (fun s2 => engine_inv s2 /\ others_settled s1 s2) (fun u s => uber_acc_settled s u)
    (uber_on_acc use_count)) with (l := seq 0 (length (ubers s1))) (s := s1) as (s2 & E2 & [Hinv2 Ho2] & Hu & _); [|done|].
  { intros u s2 [H2 (Ea & Eg & El)]. destruct (uber_on_acc_ok u s2 Huse H2) as (s3 & ? & ? & (Ea' & Eg' & El') & ? & ?). exists s3.
    split; [done|]. split; [|done]. split; [done|]. split_and!; congruence. }
  assert (forall u, uber_acc_settled s2 u) as Hu2.
  { intros u. destruct (decide (u < length (ubers s1))%nat) as [Hi|Hi]; [apply Hu, elem_of_seq; lia|].
    intros b acc Hb. apply lookup_lt_Some in Hb. destruct Ho2 as (_ & _ & ?). lia. }
  unfold bind at 1. rewrite E2.
  destruct (for_each_settles (fun s3 => engine_inv s3 /\ others_settled s1 s3 /\ forall u, uber_acc_settled s3 u) (fun u s => uber_rpc_settled s u)
    (uber_on_rpc use_count)) with (l := seq 0 (length (ubers s1))) (s := s2) as (s3 & E3 & (Hinv3 & Ho3 & Hu3) & Hr & _); [|done|].
  { intros u s3 (H3 & (Ea & Eg & El) & Hua). destruct (uber_on_rpc_ok u s3 Huse H3) as (s4 & ? & ? & (Ea' & Eg' & El') & ? & ? & ?). exists s4.
    split; [done|]. split; [|done]. split; [done|]. split; [split_and!; congruence|]. auto. }
  exists s3. split; [done|]. split; [done|]. destruct Ho3 as (Ea & Eg & El). split; [|done|].
  - intros acc a gt. rewrite Ea, Eg. apply Hacc1.
  - intros u. destruct (decide (u < length (ubers s1))%nat) as [Hi|Hi]; [apply Hr, elem_of_seq; lia|].
    intros b i Hb. apply lookup_lt_Some in Hb. lia.
Qed.

(** *** The calls *)

Variables (validate_outputs : list edge -> list G -> outcome (list G)) (ones_like : root_var -> G).
Variables (agent_throws : Z -> option exn) (agent_set : bool) (send_throws : Z -> bool).
Abbreviation after_event := (raw_event (T := T) (G := G) next_edges kind graph_size send_order init_to_execute validate_outputs
  ones_like use_count agent_throws agent_set send_throws).
Abbreviation run_all := (run_events (T := T) (G := G) next_edges kind graph_size send_order init_to_execute validate_outputs
  ones_like use_count captured agent_throws agent_set send_throws).

(** What a call leads to: it answers for the passes of [p'], and may have left an uber
    future that answers for its own. *)
Definition moved s (rest : list nat) (p' : call) s' : Prop :=
  exists bs, ubers s' = ubers s ++ bs /\ calls s' = calls s /\
    core (option_list (call_pass p') ++ omap uber_pass bs ++ rest) s' /\ call_ok s' p' /\ Forall (uber_ok s') bs /\
    (length (accs s) <= length (accs s'))%nat /\ (length (waits (wk s)) <= length (waits (wk s')))%nat.

Lemma leave_moved c rest o s s1 : (forall g, use_count g = 1) -> core (c :: rest) s1 ->
  ubers s1 = ubers s -> calls s1 = calls s -> (length (accs s) <= length (accs s1))%nat ->
  (length (waits (wk s)) <= length (waits (wk s1)))%nat ->
  moved s rest (leave_guard use_count c o s1).1 (leave_guard use_count c o s1).2.
Proof using use_count.
  intros Huse HC Eu Ec Ha Hw. unfold leave_guard, finish. destruct (core_cleanup rest c s1 Huse HC) as (s2 & -> & HC2 & HS2).
  exists []. simpl. rewrite app_nil_r, (sf_ubers _ _ HS2), (sf_calls _ _ HS2), (sf_accs _ _ HS2), (sf_waits _ _ HS2).
  by split_and!.
Qed.

Lemma call_step_ok p s rest p' s' : (forall g, use_count g = 1) -> core (option_list (call_pass p) ++ rest) s -> call_ok s p ->
  call_step use_count p s = Some (p', s') -> moved s rest p' s'.
Proof using use_count.
  intros Huse HC Hok Hs. destruct p as [c outs|acc c|i c|o| |c fn outs|c fn|o]; simpl in Hs, HC; try done.
  - destruct (core_run_engine _ c graphRoot outs true s HC) as (s1 & E & HC1 & Ei & Eu & Ec & Ha & Hw); [by left|].
    rewrite E in Hs. simplify_eq. exists []. simpl. rewrite app_nil_r, Eu, Ec, Hw. split_and!; done || lia.
  - destruct (acc_done acc s) as [[e|]|]; [| |done].
    + injection Hs as Hs. pose proof (leave_moved c rest (Throw e) s s Huse HC eq_refl eq_refl) as H. rewrite Hs in H. by apply H.
    + destruct (core_wait _ c s HC) as (i & s1 & E & HC1 & Hi & Hw & Ea & Eu & Ec & Eg); [by left|]. rewrite E in Hs. simplify_eq.
      exists []. simpl. rewrite app_nil_r, Eu, Ec, Ea. split_and!; done || lia.
  - destruct (wait_result i s) as [r|]; [|done]. injection Hs as Hs.
    pose proof (leave_moved c rest (match r with None => Ret tt | Some e => Throw e end) s s Huse HC eq_refl eq_refl) as H.
    rewrite Hs in H. by apply H.
  - destruct (core_retrieve _ s c HC) as [g Eg]; [by left|].
    destruct (core_run_engine _ c fn outs false s HC) as (s1 & E & HC1 & Ei & Eu & Ec & Ha & Hw); [by left|].
    unfold finish in Hs. rewrite (bind_run _ _ _ _ _ Eg), (bind_run _ _ _ _ _ E) in Hs.
    unfold bind, gets, modify, ret in Hs. simplify_eq. exists [mkUber c (UAcc (length (accs s))) None]. simpl.
    rewrite Eu, Ec. split_and!; try done; [by eapply core_same; [..|exact HC1]| |lia|by rewrite Hw].
    constructor; [|done]. unfold uber_ok. simpl. split; [lia|done].
  - unfold finish in Hs. destruct (on_worker (retrieveGraphTask c) s) as [[g|e|] s1] eqn:E.
    all: assert (s1 = s) as ->.
    1,3,5: unfold on_worker in E; destruct (retrieveGraphTask c (wk s)) as [o w] eqn:Ew; simplify_eq;
      assert (w = wk s) as ->; [|apply upd_wk_id]; unfold retrieveGraphTask, getContext, bind, gets, ret, throw in Ew;
      repeat case_match; by simplify_eq.
    + rewrite (bind_run _ _ _ _ _ E) in Hs. destruct (core_launch rest g fn false s HC) as (s2 & E2 & HC2 & HS2 & Ei2 & _).
      rewrite (bind_run _ _ _ _ _ E2) in Hs. unfold ret in Hs. simplify_eq. exists [].
      simpl. rewrite app_nil_r, (sf_ubers _ _ HS2), (sf_calls _ _ HS2), (sf_accs _ _ HS2), (sf_waits _ _ HS2). by split_and!.
    + rewrite (bind_throw _ _ _ _ _ E) in Hs. simplify_eq. exists []. simpl. rewrite app_nil_r. by split_and!.
    + unfold bind in Hs. rewrite E in Hs. simplify_eq. exists []. simpl. rewrite app_nil_r. by split_and!.
Qed.

(** A call that moves is put back. *)
Lemma call_moves s i p p' s' rest : calls s !! i = Some p ->
  passes s ≡ₚ option_list (call_pass p) ++ rest -> moved s rest p' s' -> indexed s ->
  (forall q, omap call_pass (<[i := q]> (calls s)) ++ omap uber_pass (ubers s) ≡ₚ option_list (call_pass q) ++ rest) ->
  engine_inv (upd_calls (<[i := p']>) s').
Proof.
  intros Hi Hp (bs & Eu & Ec & HC & Hok & Hbs & Ha & Hw) HI Hins. split.
  - apply (core_perm (option_list (call_pass p') ++ omap uber_pass bs ++ rest)); [|by eapply core_same; [..|exact HC]].
    unfold passes. simpl. rewrite Ec, Eu, omap_app. 
    transitivity ((option_list (call_pass p') ++ rest) ++ omap uber_pass bs); [solve_Permutation|].
    rewrite <- (Hins p'). solve_Permutation.
  - assert (indexed (upd_ubers (fun _ => ubers s) s')) as [HI1 HI2] by (by eapply indexed_frame; [..|exact HI]).
    split; simpl.
    + apply Forall_insert; [exact HI1|exact Hok].
    + rewrite Eu. apply Forall_app. split; [exact HI2|exact Hbs].
Qed.

Lemma passes_call s i p : calls s !! i = Some p -> exists rest, passes s ≡ₚ option_list (call_pass p) ++ rest /\
  forall q, omap call_pass (<[i := q]> (calls s)) ++ omap uber_pass (ubers s) ≡ₚ option_list (call_pass q) ++ rest.
Proof.
  intros Hi. destruct (omap_replace call_pass (calls s) i p p Hi) as (rest & E & _).
  exists (rest ++ omap uber_pass (ubers s)). unfold passes. split; [rewrite E; solve_Permutation|]. intros q.
  destruct (omap_replace call_pass (calls s) i p q Hi) as (rest' & E1 & E2). rewrite E2.
  rewrite E in E1. apply (inj (app _)) in E1. rewrite E1. solve_Permutation.
Qed.

(** A call that begins. *)
Lemma push_ok s p s' : core (option_list (call_pass p) ++ passes s) s' -> indexed s -> call_ok s' p ->
  ubers s' = ubers s -> calls s' = calls s -> (length (accs s) <= length (accs s'))%nat ->
  (length (waits (wk s)) <= length (waits (wk s')))%nat -> engine_inv (upd_calls (fun l => l ++ [p]) s').
Proof.
  intros HC HI Hok Eu Ec Ha Hw. split.
  - eapply core_perm; [|by eapply core_same; [..|exact HC]]. unfold passes. simpl. rewrite Eu, Ec, omap_app.
    destruct (call_pass p) as [c|] eqn:E; simpl; rewrite E; solve_Permutation.
  - assert (indexed s') as [HI1 HI2] by (by eapply indexed_frame; [..|exact HI]). split; simpl; [|done].
    apply Forall_app. split; [done|]. by constructor.
Qed.
Lemma push_nothing s p : engine_inv s -> call_pass p = None -> call_ok s p -> engine_inv (upd_calls (fun l => l ++ [p]) s).
Proof. intros [HC HI] Hp Hok. apply (push_ok s p s); try done. by rewrite Hp. Qed.

(** *** Events *)

(** The first part of a call leaves the contexts alone when it fails. *)
Lemma engine_inv_pass c x re gr rt s (k : list edge -> call) (fail : outcome call -> call) :
  engine_inv s -> contexts (wk s) !! c = Some x -> contextId_ x ∉ initializedContextIds_ s ->
  (forall outs, call_pass (k outs) = Some c /\ forall s, call_ok s (k outs)) -> (forall o, call_pass (fail o) = None /\ forall s, call_ok s (fail o)) ->
  engine_inv (push_call (finish
    (let! outs := compute_deps c re gr rt in do! modify (upd_ids (fun ids => {[contextId_ x]} ∪ ids)) in ret (k outs))
    (fun o => match o with Ret p => p | Throw e => fail (Throw e) | Block => fail Block end)) s).
Proof.
  intros [HC HI] Hx Hid Hk Hf. unfold push_call, finish.
  destruct (start_pass (passes s) c x re gr rt s HC Hx Hid) as [(o & E & Ho)|(outs & s1 & E & Ei & HC1 & Ea & Eu & Ec & Ew)].
  - unfold bind. rewrite E. destruct o as [outs|e|]; [by destruct (Ho outs)|..].
    all: by apply push_nothing; [split|apply Hf|apply Hf].
  - unfold bind, modify, ret. rewrite E. destruct (Hk outs) as [Hp Hok]. apply (push_ok s); simpl; try done.
    + by rewrite Hp.
    + by rewrite Ea.
    + by rewrite Ew.
Qed.

Lemma push_finish {A} (m m' : M (engine T G) A) k s : m s = m' s -> push_call (finish m k) s = push_call (finish m' k) s.
Proof. intros E. unfold push_call, finish. by rewrite E. Qed.
Lemma push_fail {A} (m : M (engine T G) A) k s o p : m s = (o, s) -> k o = p -> engine_inv s -> call_pass p = None -> call_ok s p ->
  engine_inv (push_call (finish m k) s).
Proof. intros E <- Hinv Hp Hok. unfold push_call, finish. rewrite E. by apply push_nothing. Qed.
Lemma on_worker_read {A} (m : M (worker T G) A) s : snd (m (wk s)) = wk s -> exists o, on_worker m s = (o, s).
Proof. intros E. exists (fst (m (wk s))). unfold on_worker. destruct (m (wk s)) as [o w]. simpl in *. by rewrite E, upd_wk_id. Qed.
Lemma getContext_read c w : snd (getContext (T := T) (G := G) c w) = w.
Proof. unfold getContext, bind, gets. by destruct (contexts w !! c). Qed.
Lemma retrieveContext_read id w : snd (retrieveContext (T := T) (G := G) id w) = w.
Proof.
  unfold retrieveContext, getShard, bind, gets. destruct (_ !! shard_of w id) as [m|]; [|done]. simpl. by destruct (m !! id).
Qed.
Lemma on_getContext c s o s1 : on_worker (getContext c) s = (o, s1) -> s1 = s /\ forall x, o = Ret x -> contexts (wk s) !! c = Some x.
Proof.
  unfold on_worker, getContext, bind, gets. destruct (contexts (wk s) !! c) as [y|]; intros [= <- <-]; rewrite upd_wk_id; split; try done.
  by intros x [= ->].
Qed.

Lemma execute_ok id roots retain s : engine_inv s ->
  engine_inv (execute next_edges kind graph_size send_order init_to_execute validate_outputs ones_like id roots retain s).
Proof.
  intros Hinv. unfold execute, execute_prologue.
  destruct (on_worker_read (retrieveContext id) s (retrieveContext_read id _)) as [[c|e|] E1].
  2,3: by (eapply push_fail; [unfold bind; rewrite E1; reflexivity|reflexivity|..]).
  erewrite push_finish by (exact (bind_run _ _ _ _ _ E1)).
  destruct (validateRootsAndRetrieveEdges validate_outputs ones_like roots) as [eg|e|].
  2,3: by (eapply push_fail; [unfold bind, lift; reflexivity|reflexivity|..]).
  erewrite push_finish by (exact (bind_run (lift (Ret eg)) _ s eg s eq_refl)).
  destruct (on_worker (getContext c) s) as [o s1] eqn:E2. destruct (on_getContext c s o s1 E2) as [-> Hx].
  destruct o as [x|e|].
  2,3: by (eapply push_fail; [unfold bind; rewrite E2; reflexivity|reflexivity|..]).
  erewrite push_finish by (exact (bind_run _ _ _ _ _ E2)).
  erewrite push_finish by (exact (bind_run (gets _) _ s (initializedContextIds_ s) s eq_refl)).
  destruct (bool_decide (contextId_ x ∉ initializedContextIds_ s)) eqn:Hid.
  2: by (eapply push_fail; [unfold bind, assert_, lift; reflexivity|reflexivity|..]).
  erewrite push_finish by (exact (bind_run (assert_ true _) _ s tt s eq_refl)).
  apply bool_decide_eq_true in Hid. unfold compute_deps in *.
  refine (engine_inv_pass c x eg.1 eg.2 retain s (XRun c) (fun o => match o with Throw e => XDone (Throw e) | _ => XDone Block end)
    Hinv (Hx x eq_refl) Hid _ _); [done|by intros []].
Qed.

Lemma executeSend_ok c fn retain s : engine_inv s ->
  engine_inv (push_call (executeSendFunctionAsync next_edges kind graph_size send_order init_to_execute c fn retain) s).
Proof.
  intros Hinv. unfold executeSendFunctionAsync, send_prologue.
  destruct (on_worker (getContext c) s) as [o s1] eqn:E2. destruct (on_getContext c s o s1 E2) as [-> Hx].
  destruct o as [x|e|].
  2,3: by (eapply push_fail; [unfold bind; rewrite E2; reflexivity|reflexivity|..]).
  erewrite push_finish by (exact (bind_run _ _ _ _ _ E2)).
  erewrite push_finish by (exact (bind_run (gets _) _ s (initializedContextIds_ s) s eq_refl)).
  case_bool_decide as Hid; [by (eapply push_fail; [reflexivity|reflexivity|..])|].
  refine (engine_inv_pass c x [] [] retain s (SFirst c fn) (fun o => match o with Throw e => SDone (Throw e) | _ => SDone Block end)
    Hinv (Hx x eq_refl) Hid _ _); [done|by intros []].
Qed.

Lemma gradients_ok md grads retain s : engine_inv s ->
  engine_inv (serve_gradients next_edges kind graph_size send_order init_to_execute md grads retain s).
Proof.
  intros Hinv. pose proof (engine_inv_keeps _ s (keeps_gradients md grads) (stays_ok_gradients md grads _) Hinv) as H.
  unfold serve_gradients. destruct (on_worker _ s) as [o s1] eqn:E in H. simpl in H.
  unfold push_call at 1. rewrite E. destruct o as [[c fn]|e|].
  - by apply executeSend_ok.
  - by apply push_nothing.
  - by apply push_nothing.
Qed.

Lemma event_ok ev s : (forall g, use_count g = 1) -> engine_inv s -> engine_inv (after_event ev s).
Proof using use_count.
  intros Huse Hinv. destruct ev as [id roots retain|md grads retain|i|g l|cm|c fn id|c fn id|dst message c|i r]; cbn [raw_event].
  - by apply execute_ok.
  - by apply gradients_ok.
  - destruct (calls s !! i) as [p|] eqn:Hi; [|done]. destruct (call_step use_count p s) as [[p' s']|] eqn:Hs; [|done].
    destruct (passes_call s i p Hi) as (rest & Hp & Hins). destruct Hinv as [HC HI].
    eapply call_moves; [exact Hi|exact Hp| |done|exact Hins]. eapply call_step_ok; [done| | |exact Hs].
    + by eapply core_perm.
    + by eapply (proj1 (Forall_lookup _ _) (ix_calls _ HI)).
  - by apply engine_inv_run.
  - by apply engine_inv_keeps; [apply keeps_cmd|apply stays_ok_cmd|].
  - by apply engine_inv_keeps; [apply keeps_addSend|apply stays_ok_addSend|].
  - by apply engine_inv_keeps; [apply keeps_addRecv|apply stays_ok_addRecv|].
  - by apply engine_inv_keeps; [apply keeps_send|apply stays_ok_send|].
  - by apply engine_inv_keeps; [apply keeps_complete|apply stays_ok_complete|].
Qed.

(** *** Every history *)

Lemma engine_inv_start w num_shards localId : construct num_shards localId = Ret w ->
  engine_inv (newDistEngine w) /\ settled (newDistEngine w).
Proof.
  intros Hw. pose proof (rpcs_ok_construct _ _ _ Hw) as Hr. unfold construct, ocheck in Hw.
  destruct (_ =? 0); [|done]. injection Hw as <-.
  split; [split; split; simpl; try done; try apply Forall_nil_2|split; done].
  - apply NoDup_nil_2.
  - intros c Hc. by apply not_elem_of_nil in Hc.
Qed.

Lemma engine_history_inv evs : forall s, (forall g, use_count g = 1) -> engine_inv s -> settled s ->
  engine_inv (run_all evs s) /\ settled (run_all evs s).
Proof using use_count captured.
  induction evs as [|ev evs IH]; intros s Huse Hinv Hst; [done|]. cbn [run_events foldl].
  destruct (settle_ok (after_event ev s) Huse (event_ok ev s Huse Hinv)) as (s' & E & Hinv' & Hst'). specialize (IH s' Huse Hinv' Hst').
  unfold run_events in IH |- *. simpl. unfold step_event at 2 4. by rewrite E.
Qed.


(** *** Nobody waits in vain *)

Lemma open_waits_none i w : (forall j f, futures w !! j = Some f -> fut_result f <> None) -> open_waits i w = 0%nat.
Proof.
  intros H. unfold open_waits. assert (forall f, f ∈ futures w -> waiting i f = 0%nat) as Hz.
  { intros f [j Hj]%list_elem_of_lookup. unfold waiting. specialize (H j f Hj). by destruct (fut_result f). }
  clear H. induction (futures w) as [|f fs IH]; [done|]. simpl. rewrite Hz, IH; [done| |by left]. intros g Hg. apply Hz. by right.
Qed.

(** The graph tasks that are not completed have had all their gradients, and their
    threads are done. *)
Definition tasks_quiet s : Prop := forall g gt d, graph_tasks (wk s) !! g = Some gt -> graphs s !! g = Some d ->
  future_result_ gt = None -> NoDup (gd_sends d) /\ gd_launched d ≡ₚ gd_sends d /\
  Forall (fun p => p = TDone) (task_threads (gd_run d)) /\ global_cpu_ready_queue_ (gd_run d) = [].
Definition rpcs_quiet s : Prop := forall i f, futures (wk s) !! i = Some f -> fut_result f <> None.
(** No call can move: each one has ended, or waits. *)
Definition calls_quiet s : Prop := forall i p, calls s !! i = Some p -> call_step use_count p s = None.

Lemma quiet_acc ps s acc : core ps s -> settled s -> tasks_quiet s -> (acc < length (accs s))%nat -> acc_done acc s <> None.
Proof.
  intros HC HS HQ Hlt. unfold acc_done. destruct (lookup_lt_is_Some_2 _ _ Hlt) as [a Ha]. rewrite Ha. intros Hn.
  destruct (co_accs _ _ HC acc a Ha) as (d & Hd & Hne).
  assert (acc_graph a < length (graph_tasks (wk s)))%nat as Hg by (rewrite <- (co_length _ _ HC); by eapply lookup_lt_Some).
  apply lookup_lt_is_Some_2 in Hg as [gt Hgt]. pose proof (st_accs _ HS acc a gt Ha Hn Hgt) as Hr.
  destruct (co_runs _ _ HC _ gt d Hgt Hd) as (keep & ls & E & Hl). destruct (HQ _ gt d Hgt Hd Hr) as (Hnd & Hp & Hdone & Hq).
  eapply (run_quiescent (gd_sends d) keep ls gt (gd_run d)); try done; rewrite ?Hl; try done.
  split; rewrite Hl; [by rewrite Hp|]. by rewrite Hp.
Qed.
Lemma quiet_wait ps s i : core ps s -> rpcs_quiet s -> (i < length (waits (wk s)))%nat -> wait_result i s <> None.
Proof.
  intros HC HQ Hlt. unfold wait_result. destruct (lookup_lt_is_Some_2 _ _ Hlt) as [st Hst]. rewrite Hst. intros Hn.
  destruct (proj2 (co_worker _ _ HC) i st Hst Hn) as (_ & Hpos & _). rewrite (open_waits_none _ _ HQ) in Hpos. lia.
Qed.


(** *** Dependencies *)

Lemma marked e l exec_info : e ∈ l -> exists i, foldr mark_needed exec_info l !! e.1 = Some i /\ needed_ i = true.
Proof.
  induction l as [|e' l IH]; intros Hin; [by apply not_elem_of_nil in Hin|]. simpl. unfold mark_needed at 1.
  destruct (decide (e'.1 = e.1)) as [->|Hne]; [rewrite lookup_insert_eq; eauto|]. rewrite lookup_insert_ne by done.
  apply IH. apply elem_of_cons in Hin as [->|?]; done.
Qed.

(** C21: computeDependencies counts right.  For a context without a graph task, whose
    local graph, from GraphRoot and the send functions, is enumerated by [reach] and
    does not lead back to these roots: it throws, and changes nothing, exactly when a
    reachable leaf is neither an AccumulateGrad nor a RecvRpcBackward; otherwise the
    context gets a new graph task, in which the dependencies of a function are the
    edges that lead to it from reachable functions, one task is outstanding for each
    send function, the output edges lead to each leaf once, and every RecvRpcBackward
    among them is needed. *)
Theorem engine_dependencies (c : nat) x (rootEdges : list edge) (grads : list G) (retain : bool) s (reach : list nat) :
  let sends := send_order (sendAutogradFunctions_ x) in
  let edges := edges_from next_edges rootEdges in
  contexts (wk s) !! c = Some x -> graphTask_ x = None ->
  NoDup (graphRoot :: sends) -> (forall u n, points_to edges u n -> n ∉ graphRoot :: sends) ->
  (forall n, n ∈ reach <-> reachable edges (graphRoot :: sends) n) -> NoDup reach -> (length reach <= S (length sends) + graph_size)%nat ->
  match compute_deps c rootEdges grads retain s with
  | (Ret outs, s') => ~ has_bad_leaf edges kind (graphRoot :: sends) /\ exists found d,
      search_spec edges kind (graphRoot :: sends) reach found /\ outs = outputEdges found /\
      graphs s' = graphs s ++ [d] /\ graph_tasks (wk s') = graph_tasks (wk s) ++ [fresh_task retain] /\
      (graphTask_ <$> contexts (wk s') !! c) = Some (Some (length (graph_tasks (wk s)))) /\
      gd_dependencies d = dependencies_ found /\ outstanding_tasks_ (gd_run d) = Z.of_nat (length sends) /\
      (forall e, e ∈ outs -> kind e.1 = RecvRpcBackward_ -> exists i, gd_exec_info d !! e.1 = Some i /\ needed_ i = true)
  | (Throw e, s') => e = leaf_message /\ has_bad_leaf edges kind (graphRoot :: sends) /\ s' = s
  | (Block, _) => False
  end.
Proof.
  intros sends edges Hx Hg Hnd Hroots Hreach Hndr Hsize. rewrite (computeDependencies_eq c x _ _ _ _ Hx).
  pose proof (search_from edges kind (graphRoot :: sends) reach (S (length sends) + graph_size) Hnd Hroots Hreach Hndr Hsize) as H.
  unfold search_context. fold sends edges. destruct (search _ _ _ _) as [found|e|]; [|by destruct H|done].
  destruct H as [Hspec Hbad]. rewrite Hg. split; [done|]. eexists found, _. split; [done|]. split; [done|]. split; [reflexivity|].
  split; [done|]. split; [simpl; by rewrite list_lookup_alter_eq, Hx|]. split; [done|]. split; [done|].
  intros e He Hk. simpl. unfold compute_exec_info. rewrite bool_decide_false by (intros E; rewrite E in He; by apply not_elem_of_nil in He).
  apply marked. rewrite (ss_recv _ _ _ _ _ Hspec). by apply list_elem_of_filter.
Qed.
End operations.

(** ** Concrete instances *)

(** A GraphRoot leads to 1, 1 leads to the leaves 2 and 3, and the send functions 4
    and 5 lead to 2. *)
Module Example_engine.
#[refine] Instance local_engine : LocalEngine := {|
  completed := fun n error => (n =? 0) || error;
  mark_as_completed_and_run_post_processing := fun post gt =>
    if future_completed_ gt then gt
    else mkGraphTask (keep_graph_ gt) (has_error_ gt) true (match future_result_ gt with None => Some post | r => r end);
  thread_on_exception := set_exception;
|}.
Proof. all: done. Defined.
Definition next_edges (fn : nat) : list (option edge) :=
  match fn with
  | 1 => [Some (2, 0%Z); None; Some (3, 0%Z)]
  | 4 | 5 => [Some (2, 0%Z)]
  | _ => []
  end%nat.
Definition kind (fn : nat) : node_kind :=
  match fn with 2 => AccumulateGrad | 3 => RecvRpcBackward_ | _ => OtherNode end%nat.
Definition order (m : gmap Z nat) : list nat := (map_to_list m).*2.
Definition init_to_execute (edges : list (nat * Z)) (outputs : list edge) : gmap nat ExecInfo :=
  list_to_map (map (fun e => (e.1, mkExecInfo (bool_decide (e.1 = 2%nat)) (Some [[]]))) outputs).
Definition run := run_events (T := nat) (G := Z) next_edges kind 8 order init_to_execute (fun _ g => Ret g) (fun _ => 1)
  (fun _ => 1) (fun _ => 2%nat) (fun _ => None) true (fun _ => false).
Definition w0 : worker nat Z := match construct 1 0 with Ret w => w | _ => mkWorker 0 0 false [] 0 0 0 ∅ ∅ [] [] [] [] [] [] [] ∅ ∅ 0 [] end.
Definition id : Z := 2 ^ 48.
Definition root : root_var := mkRootVar true 1 (Some 1%nat) 0.
Definition request : Message nat := mkMessage nat [] [] SCRIPT_CALL 0.
(** A thread that evaluates one function: it pushes [pushed]. *)
Definition evaluate (i : nat) (pushed : list nat) : list run_label := [LTest i 0; LEval i (Evaluated pushed []); LDec i].
Definition last_test (i : nat) : list run_label := [LTest i 0; LCheck i None].
Definition on_task (ls : list run_label) : list (event (T := nat) (G := Z)) := map (EvRun 0) ls.

Definition setup : list (event (T := nat) (G := Z)) :=
  [EvContainer (CInit 1); EvContainer (CNewContext 0); EvAddSend 0 (Some 4%nat) 7].
(** execute on this worker; its last function sends an RPC. *)
Definition first_half : list (event (T := nat) (G := Z)) :=
  setup ++ [EvExecute id [root] true; EvCall 0] ++
  on_task ([LPush 0] ++ evaluate 0 [1%nat] ++ evaluate 0 [3%nat]) ++ [EvOutstanding 1 request 0] ++
  on_task (evaluate 0 [] ++ last_test 0).
(** The gradients of the send function arrive, then the response to the RPC. *)
Definition second_half : list (event (T := nat) (G := Z)) :=
  [EvGradients (mkMetadata id 7) [5] true; EvCall 1] ++ on_task ([LPush 1] ++ evaluate 1 [] ++ last_test 1) ++
  [EvCall 0; EvRpc 0 None; EvCall 0].
End Example_engine.
Import Example_engine.
#[local] Existing Instance local_engine.

(** Why the root is excepted in [engine_completes_last]: its task is counted by its
    own thread, and gradients that came before would complete the graph task. *)
Lemma late_root_is_not_counted :
  exists gt r, run_steps [LLaunch 0 true; LLaunch 7 false; LPush 1; LTest 1 0; LEval 1 (Evaluated [] []); LDec 1; LTest 1 0;
                          LCheck 1 None] (fresh_task false, run_start [7%nat]) = Some (gt, r) /\
    future_result_ gt = Some None /\ task_threads r !! 0%nat = Some (TPush 0 true).
Proof. eexists _, _. split; [vm_compute; reflexivity|]. by split. Qed.

Lemma example_middle : passes (run first_half (newDistEngine w0)) = [0%nat].
Proof. vm_compute. reflexivity. Qed.
Lemma example_end : let s := run (first_half ++ second_half) (newDistEngine w0) in
  calls s = [XDone (Ret tt); SDone (Ret None)] /\ passes s = [].
Proof. vm_compute. split; reflexivity. Qed.

Lemma engine_completes_last_witness : exists gt r gt' r',
  run_steps ([LLaunch 4 false; LPush 0] ++ evaluate 0 [] ++ [LTest 0 0]) (fresh_task false, run_start [4%nat]) = Some (gt, r) /\
  run_step (LCheck 0 None) (gt, r) = Some (gt', r') /\ future_result_ gt' = Some None /\
  arrived ([LLaunch 4 false; LPush 0] ++ evaluate 0 [] ++ [LTest 0 0]) ≡ₚ [4%nat].
Proof.
  eexists _, _, _, _. split; [vm_compute; reflexivity|]. split; [vm_compute; reflexivity|]. split; [reflexivity|].
  apply (engine_completes_last [4%nat] false ([LLaunch 4 false; LPush 0] ++ evaluate 0 [] ++ [LTest 0 0]) (LCheck 0 None)
    (mkGraphTask false false false None) (mkRun 0 [TCheck] []) (mkGraphTask false false true (Some None)) (mkRun 0 [TDone] [])).
  - split; [apply NoDup_singleton|]. vm_compute. set_solver.
  - vm_compute. reflexivity.
  - reflexivity.
  - reflexivity.
  - reflexivity.
Defined.

Lemma engine_task_completes_witness : exists gt r,
  run_steps ([LLaunch 0 true; LPush 0] ++ evaluate 0 [1%nat] ++ evaluate 0 [] ++ last_test 0) (fresh_task true, run_start []) = Some (gt, r) /\
  future_result_ gt <> None.
Proof.
  eexists _, _. split; [vm_compute; reflexivity|].
  refine (proj2 (proj2 (engine_task_completes [] true ([LLaunch 0 true; LPush 0] ++ evaluate 0 [1%nat] ++ evaluate 0 [] ++ last_test 0)
    (mkGraphTask true false true (Some None)) (mkRun 0 [TDone] []) _ _)) _ _ _ _).
  - split; [apply NoDup_nil_2|]. vm_compute. set_solver.
  - vm_compute. reflexivity.
  - done.
  - done.
  - by constructor.
  - done.
Defined.


Lemma example_quiet : let s := run (first_half ++ second_half) (newDistEngine w0) in
  tasks_quiet s /\ rpcs_quiet s /\ calls_quiet (fun _ => 1) s.
Proof.
  cbv zeta. set (s := run _ _). split; [|split].
  - intros g gt d Hgt _. assert (graph_tasks (wk s) = [mkGraphTask true false true (Some None)]) as E by (vm_compute; reflexivity).
    rewrite E in Hgt. apply list_lookup_singleton_Some in Hgt as [_ <-]. done.
  - intros i f Hf. assert (futures (wk s) = [mkFuture (Some None) []]) as E by (vm_compute; reflexivity).
    rewrite E in Hf. apply list_lookup_singleton_Some in Hf as [_ <-]. done.
  - intros i p Hp. assert (calls s = [XDone (Ret tt); SDone (Ret None)]) as E by exact (proj1 example_end).
    clearbody s. rewrite E in Hp. by destruct i as [|[|i]]; simplify_eq/=.
Qed.

Definition example_context : DistAutogradContext Z := mkContext id ∅ {[7 := 4%nat]} ∅ ∅ None [].
Lemma example_points u n : points_to (edges_from next_edges [(1%nat, 0)]) u n ->
  (u, n) ∈ [(0, 1); (1, 2); (1, 3); (4, 2); (5, 2)]%nat.
Proof.
  intros [nr H]. destruct u as [|[|[|[|[|[|u]]]]]]; cbn in H;
    repeat (apply elem_of_cons in H as [H|H]; [simplify_eq; vm_compute; set_solver|]); by apply not_elem_of_nil in H.
Qed.
Lemma example_order : order {[7 := 4%nat]} = [4%nat].
Proof. vm_compute. reflexivity. Qed.
Lemma example_reachable n : n ∈ [0; 4; 1; 2; 3]%nat <-> reachable (edges_from next_edges [(1%nat, 0)]) [graphRoot; 4%nat] n.
Proof.
  split.
  - assert (points_to (edges_from next_edges [(1%nat, 0)]) 0 1) as P1 by (exists 0; cbn; set_solver).
    assert (points_to (edges_from next_edges [(1%nat, 0)]) 1 2) as P2 by (exists 0; cbn; set_solver).
    assert (points_to (edges_from next_edges [(1%nat, 0)]) 1 3) as P3 by (exists 0; cbn; set_solver).
    repeat setoid_rewrite elem_of_cons. intros [->|[->|[->|[->|[->|H]]]]]; [exists 0%nat|exists 4%nat|exists 0%nat..|by apply not_elem_of_nil in H].
    all: split; [set_solver|]; eauto using rtc_refl, rtc_l.
  - intros (r & Hr & Hn).
    assert (r ∈ [0; 4; 1; 2; 3]%nat) as Hin by set_solver. clear Hr. induction Hn as [|u v w Hp%example_points _ IH]; [done|].
    apply IH. set_solver.
Qed.
Lemma engine_dependencies_witness :
  let s := run setup (newDistEngine w0) in contexts (wk s) !! 0%nat = Some example_context /\
  exists outs s', computeDependencies (T := nat) next_edges kind 8 order init_to_execute 0 [(1%nat, 0)] [1] true s = (Ret outs, s') /\
  exists d, graphs s' = [d] /\ outstanding_tasks_ (gd_run d) = 1 /\ gd_dependencies d !! 2%nat = Some 2.
Proof.
  cbv zeta. assert (contexts (wk (run setup (newDistEngine w0))) !! 0%nat = Some example_context) as Hx by (vm_compute; reflexivity).
  split; [exact Hx|].
  assert (graphs (run setup (newDistEngine w0)) = []) as Hg0 by (vm_compute; reflexivity).
  revert Hx Hg0. generalize (run setup (newDistEngine w0)) as s. intros s Hx Hg0.
  pose proof (engine_dependencies (T := nat) (G := Z) next_edges kind 8 order init_to_execute 0 example_context [(1%nat, 0)] [1] true
    s [0; 4; 1; 2; 3]%nat Hx eq_refl) as H. cbv zeta in H.
  change (sendAutogradFunctions_ example_context) with ({[7 := 4%nat]} : gmap Z nat) in H. rewrite example_order in H.
  specialize (H ltac:(repeat constructor; set_solver)
    ltac:(intros u n Hp%example_points; unfold graphRoot; set_solver) example_reachable ltac:(repeat constructor; set_solver)
    ltac:(simpl; lia)).
  destruct (computeDependencies _ _ _ _ _ _ _ _ _ _) as [[outs|e|] s'] eqn:E; [|exfalso|done].
  - exists outs, s'. split; [done|]. destruct H as (_ & found & d & Hs & _ & Eg & _ & _ & Ed & Et & _). exists d.
    split; [by rewrite Eg, Hg0|]. split; [by rewrite Et|].
    rewrite Ed, (ss_dependencies _ _ _ _ _ Hs). reflexivity.
  - destruct H as (_ & (u & n & Hu%example_reachable & Hp%example_points & Hl & Hk) & _).
    unfold is_leaf in Hl. set_solver.
Defined.

(** Two send functions: the thread that has begun the pass is overtaken by the other,
    whose RPC it then forgets; the uber future is completed while the RPC is open. *)
Definition overtaken : list (event (T := nat) (G := Z)) :=
  setup ++ [EvAddSend 0 (Some 5%nat) 8; EvGradients (mkMetadata id 7) [5] true; EvGradients (mkMetadata id 8) [5] true; EvCall 1] ++
  on_task ([LPush 0] ++ evaluate 0 []) ++ [EvOutstanding 1 request 0] ++ on_task (last_test 0) ++ [EvCall 0] ++
  on_task ([LPush 1] ++ evaluate 1 [] ++ last_test 1).
Lemma first_send_forgets_rpcs : exists s, s = run_events (T := nat) (G := Z) next_edges kind 8 order init_to_execute
    (fun _ g => Ret g) (fun _ => 1) (fun _ => 1) (fun _ => 1%nat) (fun _ => None) true (fun _ => false) overtaken (newDistEngine w0) /\
  map ub_result (ubers s) = [Some None] /\ map fut_result (futures (wk s)) = [None].
Proof. eexists. split; [reflexivity|]. vm_compute. split; reflexivity. Qed.
