(* ===== verification/RpcAgent.v ===== *)
(** * The RPC agent base class

    Models csrc/c10d/distributed/rpc/rpc_agent.cpp and rpc_agent.h: the names and
    ids of workers, the current agent of a process, and sendWithRetries with the
    map of RPCs to retry, the callback of every try and the retry thread.

    A call, the completion of a try by the agent, and a wake-up of the retry
    thread are one step each: between them the mutex is free.  The retry thread
    attaches its callbacks after it released the mutex; a try that completed by
    then runs its callback at that point, which is what a try that completes at
    once does here. *)

From stdpp Require Import base option list strings.
From Stdlib Require Import ZArith Lia.
From S2P Require Import Prelude Decimal RpcTypes.

(** ** Workers *)

Definition MAX_NAME_LEN : Z := 128.

Record WorkerInfo := mkWorkerInfo { name_ : bytes; worker_id_ : Z }.

(** std::isalnum of the C locale. *)
Definition isalnum (c : Z) : bool :=
  ((48 <=? c) && (c <=? 57)) || ((65 <=? c) && (c <=? 90)) || ((97 <=? c) && (c <=? 122)).
Definition valid_char (b : byte) : bool :=
  let c := Z_of_byte b in isalnum c || (c =? 45) || (c =? 95) || (c =? 58).

(** WorkerInfo(std::string, worker_id_t). *)
Definition WorkerInfo_small (name : bytes) (id : Z) : outcome WorkerInfo :=
  let validSize := (Z.of_nat (length name) <? MAX_NAME_LEN) && (0 <? Z.of_nat (length name)) in
  let validChar := forallb valid_char name in
  check! validSize && validChar else CheckFailed "Worker name must match ^[A-Za-z0-9-_:]*$, " in
  Ret (mkWorkerInfo name id).
(** WorkerInfo(std::string, int64_t) delegates to it with the id converted. *)
Definition WorkerInfo_wide (name : bytes) (id : Z) : outcome WorkerInfo :=
  let? info := WorkerInfo_small name (int16 id) in
  check! id <=? 32767 else CheckFailed "RPC worker id " in
  Ret info.

(** ** The current agent *)

(** [currentRpcAgent_]: the agent, by name. *)
Definition isCurrentRpcAgentSet : M (option nat) bool := gets (fun a => bool_decide (is_Some a)).
Definition getCurrentRpcAgent : M (option nat) nat :=
  let! agent := gets id in
  match agent with
  | Some a => ret a
  | None => throw (AssertFailed "Current RPC agent is not set!")
  end.
Definition setCurrentRpcAgent (rpcAgent : option nat) : M (option nat) unit :=
  let! previousAgent := gets id in
  match rpcAgent with
  | Some a =>
      (* atomic_compare_exchange_strong with nullptr *)
      do! (match previousAgent with None => modify (fun _ => Some a) | Some _ => ret tt end) in
      assert_ (bool_decide (previousAgent = None)) (AssertFailed "Current RPC agent is set!")
  | None =>
      do! modify (fun _ => None) in
      assert_ (bool_decide (previousAgent <> None)) (AssertFailed "Current RPC agent is not set!")
  end.

(** ** Retries *)

Section retry.
Context {T V : Type}.
(** float, with [>= 1] and the conversion of
    [rpcRetryDuration * pow(retryBackoff, retryCount)] to milliseconds. *)
Context {F : Type}.
Variable ge_one : F -> bool.
Variable backoff : Z -> F -> Z -> Z.

(** std::chrono::hours(10000), in nanoseconds. *)
Definition kLargeTimeDuration : Z := 10000 * 3600 * 10 ^ 9.

Record RpcRetryOptions := mkRetryOptions { maxRetries : Z; rpcRetryDuration : Z; retryBackoff : F }.

(** The result of a future: a value or an exception. *)
Abbreviation result := (V + exn)%type.

Record RpcRetryInfo := mkRetryInfo {
  to_ : WorkerInfo;
  message_ : Message T;
  originalFuture_ : option result;
  retryCount_ : Z;
  options_ : RpcRetryOptions;
}.

(** The future of one send with the arguments of its callback. *)
Record attempt := mkAttempt { at_result : option result; at_newTime : Z; at_rpc : nat }.

Inductive thread_state := NotStarted | Waiting (earliestTimeout : Z) | Exited.

Record agent := mkAgent {
  rpcAgentRunning_ : bool;
  rpcRetryMap_ : list (Z * list nat);   (* std::map in order of time, of sets *)
  rpcs : list RpcRetryInfo;
  attempts : list attempt;
  retry_thread : thread_state;
}.

Definition upd_running (f : bool -> bool) (s : agent) : agent :=
  mkAgent (f (rpcAgentRunning_ s)) (rpcRetryMap_ s) (rpcs s) (attempts s) (retry_thread s).
Definition upd_map (f : list (Z * list nat) -> list (Z * list nat)) (s : agent) : agent :=
  mkAgent (rpcAgentRunning_ s) (f (rpcRetryMap_ s)) (rpcs s) (attempts s) (retry_thread s).
Definition upd_rpcs (f : list RpcRetryInfo -> list RpcRetryInfo) (s : agent) : agent :=
  mkAgent (rpcAgentRunning_ s) (rpcRetryMap_ s) (f (rpcs s)) (attempts s) (retry_thread s).
Definition upd_attempts (f : list attempt -> list attempt) (s : agent) : agent :=
  mkAgent (rpcAgentRunning_ s) (rpcRetryMap_ s) (rpcs s) (f (attempts s)) (retry_thread s).
Definition upd_thread (f : thread_state -> thread_state) (s : agent) : agent :=
  mkAgent (rpcAgentRunning_ s) (rpcRetryMap_ s) (rpcs s) (attempts s) (f (retry_thread s)).

Definition new_agent : agent := mkAgent false [] [] [] NotStarted.

(** [rpcRetryMap_\[newTime\].emplace(rpc)]. *)
Fixpoint emplace (newTime : Z) (rpc : nat) (m : list (Z * list nat)) : list (Z * list nat) :=
  match m with
  | [] => [(newTime, [rpc])]
  | (t, l) :: m =>
      if newTime =? t then (t, if bool_decide (rpc ∈ l) then l else l ++ [rpc]) :: m
      else if newTime <? t then (newTime, [rpc]) :: (t, l) :: m
      else (t, l) :: emplace newTime rpc m
  end.

(** Time points are nanoseconds; the new one is cut to milliseconds. *)
Definition computeNewRpcRetryTime (now : Z) (options : RpcRetryOptions) (retryCount : Z) : Z :=
  let timedelta := backoff (rpcRetryDuration options) (retryBackoff options) retryCount in
  Z.quot (now + timedelta * 10 ^ 6) (10 ^ 6) * 10 ^ 6.

Abbreviation op A := (M agent A).

(** JitFuture::setError and markCompleted: a future is completed once. *)
Definition complete_original (rpc : nat) (r : result) : op unit :=
  let! info := gets (fun s => rpcs s !! rpc) in
  match info with
  | None => throw (Undefined "dangling RpcRetryInfo")
  | Some info =>
      match originalFuture_ info with
      | Some _ => throw (AssertFailed "Attempting to mark a completed Future as complete again.")
      | None =>
          modify (upd_rpcs (<[rpc := mkRetryInfo (to_ info) (message_ info) (Some r) (retryCount_ info) (options_ info)]>))
      end
  end.

Definition max_retries_error : exn := RuntimeError "The RPC has not succeeded after the specified number of max retries (".

Definition rpcRetryCallback (r : result) (newTime : Z) (earliestRpc : nat) : op unit :=
  match r with
  | inl value => complete_original earliestRpc (inl value)
  | inr e =>
      let! running := gets rpcAgentRunning_ in
      let! info := gets (fun s => rpcs s !! earliestRpc) in
      match info with
      | None => throw (Undefined "dangling RpcRetryInfo")
      | Some info =>
          if negb running then complete_original earliestRpc (inr e)
          else if retryCount_ info <? maxRetries (options_ info) then
            modify (upd_map (emplace newTime earliestRpc))
          else complete_original earliestRpc (inr max_retries_error)
      end
  end.

(** addCallback on the future of a send that may be completed already. *)
Definition attach_retry (r : option result) (newTime : Z) (rpc : nat) : op unit :=
  do! modify (upd_attempts (fun l => l ++ [mkAttempt r newTime rpc])) in
  match r with
  | Some r => rpcRetryCallback r newTime rpc
  | None => ret tt
  end.

(** A send gives a future, possibly completed, or throws. *)
Abbreviation send_fn := (WorkerInfo -> Message T -> option result + exn).

(** The returned future is [originalFuture_] of the new RpcRetryInfo. *)
Definition sendWithRetries (send : send_fn) (now : Z) (to : WorkerInfo) (message : Message T)
    (retryOptions : RpcRetryOptions) : op nat :=
  do! assert_ (0 <=? maxRetries retryOptions) (CheckFailed "maxRetries cannot be negative.") in
  do! assert_ (ge_one (retryBackoff retryOptions)) (CheckFailed "maxRetries cannot be exponentially decaying.") in
  do! assert_ (0 <=? rpcRetryDuration retryOptions) (CheckFailed "rpcRetryDuration cannot be negative.") in
  let newTime := computeNewRpcRetryTime now retryOptions 0 in
  let! jitFuture := lift (match send to message with inl f => Ret f | inr e => Throw e end) in
  let! rpc := gets (fun s => length (rpcs s)) in
  do! modify (upd_rpcs (fun l => l ++ [mkRetryInfo to message None 0 retryOptions])) in
  do! attach_retry jitFuture newTime rpc in
  ret rpc.

(** The second part of an iteration for one RPC: the callback of the new try. *)
Definition attach_next (now : Z) (p : option result * nat) : op unit :=
  let! info := gets (fun s => rpcs s !! p.2) in
  match info with
  | None => throw (Undefined "dangling RpcRetryInfo")
  | Some info =>
      let newTime := computeNewRpcRetryTime now (options_ info) (retryCount_ info) in
      do! modify (upd_rpcs (<[p.2 := mkRetryInfo (to_ info) (message_ info) (originalFuture_ info)
            (int32 (retryCount_ info + 1)) (options_ info)]>)) in
      attach_retry p.1 newTime p.2
  end.

Definition what (e : exn) : string :=
  match e with
  | RuntimeError w | SystemError _ w | InvalidArgument w | OutOfRange w | LengthError w
  | CheckFailed w | AssertFailed w | Undefined w => w
  end.

(** The sends of an iteration: the futures to attach to, and the RPCs whose
    send threw. *)
Fixpoint resend (send : send_fn) (infos : list RpcRetryInfo) (l : list nat) :
    list (option result * nat) * list (nat * exn) :=
  match l with
  | [] => ([], [])
  | rpc :: l =>
      let '(futures, errorFutures) := resend send infos l in
      match infos !! rpc with
      | None => (futures, errorFutures)
      | Some info =>
          match send (to_ info) (message_ info) with
          | inl f => ((f, rpc) :: futures, errorFutures)
          | inr e => (futures, (rpc, RuntimeError (what e)) :: errorFutures)
          end
      end
  end.

(** One iteration of retryExpiredRpcs after the wait.  [begin()] of an empty map
    must not be dereferenced. *)
Definition retryExpiredRpcs_iteration (send : send_fn) (now : Z) : op unit :=
  let! m := gets rpcRetryMap_ in
  match m with
  | [] => throw (Undefined "rpcRetryMap_.begin()->first")
  | (_, earliestRpcList) :: rest =>
      let! infos := gets rpcs in
      let '(futures, errorFutures) := resend send infos earliestRpcList in
      do! modify (upd_map (fun _ => rest)) in
      do! for_each futures (attach_next now) in
      for_each errorFutures (fun p => complete_original p.1 (inr p.2))
  end.

(** The earliest time point of the map, or the bound of the wait. *)
Definition earliest (m : list (Z * list nat)) (bound : Z) : Z :=
  match m with (t, _) :: _ => t | [] => bound end.

(** The inner loop runs up to its next wait. *)
Definition retry_wait (bound : Z) : op unit :=
  let! m := gets rpcRetryMap_ in
  modify (upd_thread (fun _ => Waiting (earliest m bound))).

(** The retry thread wakes up: a notification, the time-out or a spurious one. *)
Definition retry_wake (send : send_fn) (now : Z) : op unit :=
  let! th := gets retry_thread in
  match th with
  | Waiting earliestTimeout =>
      let! running := gets rpcAgentRunning_ in
      if negb running then modify (upd_thread (fun _ => Exited))
      else if earliestTimeout <=? now then
        do! retryExpiredRpcs_iteration send now in
        let! running := gets rpcAgentRunning_ in
        if running then retry_wait (now + kLargeTimeDuration) else modify (upd_thread (fun _ => Exited))
      else retry_wait earliestTimeout
  | _ => ret tt
  end.

Definition start (now : Z) : op unit :=
  do! modify (upd_running (fun _ => true)) in
  retry_wait (now + kLargeTimeDuration).

(** The flag; the thread is joined, so it has woken up when shutdown returns. *)
Definition shutdown : op unit :=
  do! modify (upd_running (fun _ => false)) in
  modify (upd_thread (fun th => match th with Waiting _ => Exited | th => th end)).

(** The agent completes the future of a send. *)
Definition complete_attempt (i : nat) (r : result) : op unit :=
  let! a := gets (fun s => attempts s !! i) in
  match a with
  | Some (mkAttempt None newTime rpc) =>
      do! modify (upd_attempts (<[i := mkAttempt (Some r) newTime rpc]>)) in
      rpcRetryCallback r newTime rpc
  | _ => ret tt
  end.

(** ** The life of a retried RPC *)

Inductive event : Type :=
  | ESend (send : send_fn) (now : Z) (to : WorkerInfo) (message : Message T) (options : RpcRetryOptions)
  | EComplete (i : nat) (r : result)
  | EWake (send : send_fn) (now : Z)
  | EShutdown.

Definition run_event (e : event) : op unit :=
  match e with
  | ESend send now to message options => do! sendWithRetries send now to message options in ret tt
  | EComplete i r => complete_attempt i r
  | EWake send now => retry_wake send now
  | EShutdown => shutdown
  end.
Definition run_events (es : list event) (s : agent) : agent := foldl (fun s e => snd (run_event e s)) s es.

(** How often an RPC is in the map, and the results of its tries, in order. *)
Definition scheduled (rpc : nat) (m : list (Z * list nat)) : nat :=
  length (List.filter (fun r => r =? rpc)%nat (concat (map snd m))).
Definition tries (rpc : nat) (l : list attempt) : list (option result) :=
  map at_result (List.filter (fun a => at_rpc a =? rpc)%nat l).
Definition failed (r : option result) : Prop := exists e, r = Some (inr e).

(** The states of an RPC: a try is on its way; it waits in the map; the last try
    gave a value; it was given up; or it is in the hands of the retry thread, or
    of the callback of a try that returned. *)
Inductive status : Type :=
  | InFlight
  | Scheduled
  | Done (v : V)
  | GivenUp (e : exn)
  | Taken
  | Returned (r : result).

Definition in_status (st : status) (info : RpcRetryInfo) (sched : nat) (rs : list (option result)) : Prop :=
  let n := retryCount_ info in
  0 <= n <= maxRetries (options_ info) /\ in_int32 (maxRetries (options_ info)) /\
  match st with
  | InFlight => originalFuture_ info = None /\ sched = 0%nat /\
      exists l, rs = l ++ [None] /\ Forall failed l /\ Z.of_nat (length l) = n
  | Scheduled => originalFuture_ info = None /\ sched = 1%nat /\
      Forall failed rs /\ Z.of_nat (length rs) = n + 1 /\ n < maxRetries (options_ info)
  | Done v => originalFuture_ info = Some (inl v) /\ sched = 0%nat /\
      exists l, rs = l ++ [Some (inl v)] /\ Forall failed l /\ Z.of_nat (length l) = n
  | GivenUp e => originalFuture_ info = Some (inr e) /\ sched = 0%nat /\
      Forall failed rs /\ Z.of_nat (length rs) = n + 1
  | Taken => originalFuture_ info = None /\ sched = 0%nat /\
      Forall failed rs /\ Z.of_nat (length rs) = n + 1 /\ n < maxRetries (options_ info)
  | Returned r => originalFuture_ info = None /\ sched = 0%nat /\
      exists l, rs = l ++ [Some r] /\ Forall failed l /\ Z.of_nat (length l) = n
  end.

Definition status_of (st : status) (rpc : nat) (s : agent) : Prop :=
  exists info, rpcs s !! rpc = Some info /\ in_status st info (scheduled rpc (rpcRetryMap_ s)) (tries rpc (attempts s)).
Definition stable (st : status) : bool := match st with Taken | Returned _ => false | _ => true end.

(** Nothing changed for the other RPCs. *)
Definition same_but (rpc : nat) (s s' : agent) : Prop :=
  length (rpcs s') = length (rpcs s) /\ rpcAgentRunning_ s' = rpcAgentRunning_ s /\ retry_thread s' = retry_thread s /\
  forall r, r <> rpc -> rpcs s' !! r = rpcs s !! r /\
    scheduled r (rpcRetryMap_ s') = scheduled r (rpcRetryMap_ s) /\ tries r (attempts s') = tries r (attempts s).

#[local] Set Default Proof Using "Type".
#[local] Set Proof Using Clear Unused.

Lemma same_but_trans rpc s1 s2 s3 : same_but rpc s1 s2 -> same_but rpc s2 s3 -> same_but rpc s1 s3.
Proof.
  intros (H1 & H2 & H3 & H4) (K1 & K2 & K3 & K4). split_and!; [congruence..|].
  intros r Hr. destruct (H4 r Hr) as (? & ? & ?), (K4 r Hr) as (? & ? & ?). split_and!; congruence.
Qed.

Lemma same_but_status rpc s s' st r : same_but rpc s s' -> r <> rpc -> status_of st r s -> status_of st r s'.
Proof.
  intros (_ & _ & _ & H) Hr (info & Hi & Hst). destruct (H r Hr) as (E1 & E2 & E3). exists info.
  by rewrite E1, E2, E3.
Qed.

Lemma filter_app_length {A} (p : A -> bool) l1 l2 :
  length (List.filter p (l1 ++ l2)) = (length (List.filter p l1) + length (List.filter p l2))%nat.
Proof. by rewrite List.filter_app, length_app. Qed.

Lemma scheduled_emplace newTime rpc r m : scheduled rpc m = 0%nat ->
  scheduled r (emplace newTime rpc m) = (scheduled r m + (if (rpc =? r)%nat then 1 else 0))%nat.
Proof.
  unfold scheduled. induction m as [|[t l] m IH]; intros H; cbn [emplace map concat snd].
  - cbn. destruct (rpc =? r)%nat; done.
  - cbn [map concat snd] in H. rewrite filter_app_length in H.
    destruct (newTime =? t); [|destruct (newTime <? t)]; cbn [map concat snd]; rewrite ?filter_app_length.
    + rewrite bool_decide_false.
      * rewrite filter_app_length. cbn. destruct (rpc =? r)%nat; cbn; lia.
      * intros Hin. assert (Hl : length (List.filter (fun r => (r =? rpc)%nat) l) = 0%nat) by lia.
        apply length_zero_iff_nil in Hl. apply list_elem_of_In in Hin.
        assert (Hf : In rpc (List.filter (fun r => (r =? rpc)%nat) l)) by (apply filter_In; by rewrite Nat.eqb_refl).
        by rewrite Hl in Hf.
    + cbn [List.filter]. destruct (rpc =? r)%nat; cbn [length]; rewrite ?filter_app_length; lia.
    + rewrite IH by lia. lia.
Qed.

Lemma tries_app r l a : tries r (l ++ [a]) = tries r l ++ (if (at_rpc a =? r)%nat then [at_result a] else []).
Proof. unfold tries. rewrite List.filter_app, map_app. cbn. by destruct (at_rpc a =? r)%nat. Qed.

Lemma complete_original_ok rpc r s info : rpcs s !! rpc = Some info -> originalFuture_ info = None ->
  exists s', complete_original rpc r s = (Ret tt, s') /\ same_but rpc s s' /\
    rpcs s' !! rpc = Some (mkRetryInfo (to_ info) (message_ info) (Some r) (retryCount_ info) (options_ info)) /\
    rpcRetryMap_ s' = rpcRetryMap_ s /\ attempts s' = attempts s.
Proof.
  intros Hi Ho. unfold complete_original, bind, gets, modify. rewrite Hi, Ho. eexists. split; [reflexivity|].
  split; [|split_and!; [|done..]]; unfold same_but; cbn [rpcs upd_rpcs rpcRetryMap_ attempts].
  - split_and!; [by rewrite length_insert|done..|]. intros r' Hr. by rewrite list_lookup_insert_ne.
  - apply list_lookup_insert_eq. by eapply lookup_lt_Some.
Qed.

(** The callback takes an RPC whose try returned to a stable state. *)
Lemma callback_ok r newTime rpc s : status_of (Returned r) rpc s ->
  exists s' st, rpcRetryCallback r newTime rpc s = (Ret tt, s') /\ same_but rpc s s' /\
    status_of st rpc s' /\ stable st = true.
Proof.
  intros (info & Hi & Hn & H32 & Ho & Hs & l & Hl & Hf & Hlen).
  assert (Hdone : forall e, r = inr e -> Forall failed (tries rpc (attempts s)) /\
    Z.of_nat (length (tries rpc (attempts s))) = retryCount_ info + 1).
  { intros e ->. rewrite Hl, length_app. simpl. split; [|lia]. apply Forall_app. split; [done|].
    apply Forall_singleton. by exists e. }
  assert (Hgive : forall e e', r = inr e -> exists s' st, complete_original rpc (inr e') s = (Ret tt, s') /\
    same_but rpc s s' /\ status_of st rpc s' /\ stable st = true).
  { intros e e' He. destruct (complete_original_ok rpc (inr e') s info Hi Ho) as (s' & E & Hsb & Hi' & Hm & Ha).
    destruct (Hdone e He) as [H1 H2]. exists s', (GivenUp e'). split_and!; try done. eexists. split; [exact Hi'|].
    rewrite Hm, Ha. done. }
  destruct r as [v|e]; cbn [rpcRetryCallback].
  - destruct (complete_original_ok rpc (inl v) s info Hi Ho) as (s' & E & Hsb & Hi' & Hm & Ha).
    exists s', (Done v). split_and!; try done. eexists. split; [exact Hi'|]. rewrite Hm, Ha. unfold in_status. split_and!; try done; [apply Hn|apply Hn|by exists l].
  - unfold bind, gets. rewrite Hi. destruct (rpcAgentRunning_ s) eqn:Hr; cbn [negb]; [|by apply (Hgive e)].
    destruct (Z.ltb_spec (retryCount_ info) (maxRetries (options_ info))); [|by apply (Hgive e)].
    unfold modify. eexists _, Scheduled. split; [reflexivity|]. split; [|split; [|done]].
    + split_and!; [done..|]. intros r' Hr'. cbn [rpcs rpcRetryMap_ attempts upd_map]. split; [done|]. split; [|done]. rewrite scheduled_emplace by done.
      destruct (Nat.eqb_spec rpc r'); [congruence|lia].
    + destruct (Hdone e eq_refl) as [H1 H2]. exists info. split; [done|].
      cbn [rpcs rpcRetryMap_ attempts upd_map]. rewrite scheduled_emplace, Hs, Nat.eqb_refl by done.
      unfold in_status. split_and!; done || lia.
Qed.

(** An RPC about to be sent once more. *)
Definition ready (rpc : nat) (s : agent) : Prop :=
  exists info, rpcs s !! rpc = Some info /\ 0 <= retryCount_ info <= maxRetries (options_ info) /\
    in_int32 (maxRetries (options_ info)) /\ originalFuture_ info = None /\ scheduled rpc (rpcRetryMap_ s) = 0%nat /\
    Forall failed (tries rpc (attempts s)) /\ Z.of_nat (length (tries rpc (attempts s))) = retryCount_ info.

Lemma attach_retry_ok r newTime rpc s : ready rpc s ->
  exists s' st, attach_retry r newTime rpc s = (Ret tt, s') /\ same_but rpc s s' /\ status_of st rpc s' /\ stable st = true.
Proof.
  intros (info & Hi & Hn & H32 & Ho & Hs & Hf & Hlen). unfold attach_retry, bind, modify.
  set (s1 := upd_attempts _ s).
  assert (Hsb : same_but rpc s s1).
  { split_and!; [done..|]. intros r' Hr'. split; [done|]. split; [done|]. unfold s1. cbn [attempts upd_attempts].
    rewrite tries_app. cbn [at_rpc]. destruct (Nat.eqb_spec rpc r'); [congruence|]. by rewrite app_nil_r. }
  assert (Ht : tries rpc (attempts s1) = tries rpc (attempts s) ++ [r]).
  { unfold s1. cbn [attempts upd_attempts]. rewrite tries_app. cbn [at_rpc]. by rewrite Nat.eqb_refl. }
  destruct r as [r|].
  - destruct (callback_ok r newTime rpc s1) as (s' & st & E & Hsb' & Hst & Hstab).
    { exists info. split; [done|]. unfold in_status. rewrite Ht. split_and!; try done; try apply Hn. by eexists. }
    exists s', st. split_and!; try done. by eapply same_but_trans.
  - exists s1, InFlight. split; [done|]. split; [done|]. split; [|done]. exists info. split; [done|].
    unfold in_status. rewrite Ht. split_and!; try done; try apply Hn. by eexists.
Qed.

Lemma attach_next_ok now p s : status_of Taken p.2 s ->
  exists s' st, attach_next now p s = (Ret tt, s') /\ same_but p.2 s s' /\ status_of st p.2 s' /\ stable st = true.
Proof.
  intros (info & Hi & Hn & H32 & Ho & Hs & Hf & Hlen & Hlt). unfold attach_next, bind, gets, modify. rewrite Hi.
  rewrite int32_id by (unfold in_int32 in *; lia). set (s1 := upd_rpcs _ s).
  assert (Hsb : same_but p.2 s s1).
  { unfold same_but, s1. cbn [rpcs upd_rpcs]. rewrite length_insert. split_and!; [done..|].
    intros r' Hr'. by rewrite list_lookup_insert_ne. }
  edestruct (attach_retry_ok p.1 (computeNewRpcRetryTime now (options_ info) (retryCount_ info)) p.2 s1)
    as (s' & st & E & Hsb' & Hst & Hstab).
  { eexists. split; [unfold s1; cbn [rpcs upd_rpcs]; apply list_lookup_insert_eq; by eapply lookup_lt_Some|].
    cbn [retryCount_ options_ originalFuture_]. split_and!; done || lia. }
  exists s', st. split_and!; try done. by eapply same_but_trans.
Qed.

Lemma give_up_ok (p : nat * exn) s : status_of Taken p.1 s ->
  exists s' st, complete_original p.1 (inr p.2) s = (Ret tt, s') /\ same_but p.1 s s' /\ status_of st p.1 s' /\ stable st = true.
Proof.
  intros (info & Hi & Hn & H32 & Ho & Hs & Hf & Hlen & Hlt).
  destruct (complete_original_ok p.1 (inr p.2) s info Hi Ho) as (s' & E & Hsb & Hi' & Hm & Ha).
  exists s', (GivenUp p.2). split_and!; try done. eexists. split; [exact Hi'|]. rewrite Hm, Ha.
  unfold in_status. split_and!; try done; apply Hn.
Qed.

(** Every RPC is in a stable state but those in the hands of the retry thread. *)
Definition retry_inv (taken : list nat) (s : agent) : Prop :=
  (forall r, (r < length (rpcs s))%nat ->
     if bool_decide (r ∈ taken) then status_of Taken r s else exists st, status_of st r s /\ stable st = true) /\
  (forall r, (length (rpcs s) <= r)%nat -> scheduled r (rpcRetryMap_ s) = 0%nat /\ tries r (attempts s) = []).

Lemma retry_inv_step rpc taken taken' st s s' : retry_inv taken s -> same_but rpc s s' -> (rpc < length (rpcs s))%nat ->
  status_of st rpc s' -> stable st = true -> (forall r, r <> rpc -> r ∈ taken' <-> r ∈ taken) -> (rpc ∉ taken') -> retry_inv taken' s'.
Proof.
  intros [Hst Hout] Hsb Hlt Hrpc Hstab Htk Hno. pose proof Hsb as (Hl & _ & _ & Hsame). split; intros r Hr; rewrite Hl in Hr.
  - destruct (decide (r = rpc)) as [->|Hne]; [rewrite bool_decide_false by done; by exists st|].
    specialize (Hst r Hr). rewrite (bool_decide_ext _ _ (Htk r Hne)).
    destruct (bool_decide (r ∈ taken)); [by eapply same_but_status|].
    destruct Hst as (st' & H1 & H2). exists st'. split; [by eapply same_but_status|done].
  - destruct (Hsame r ltac:(lia)) as (_ & -> & ->). by apply Hout.
Qed.

Lemma taken_all_ok {A} (f : A -> op unit) (idx : A -> nat) :
  (forall a s, status_of Taken (idx a) s ->
     exists s' st, f a s = (Ret tt, s') /\ same_but (idx a) s s' /\ status_of st (idx a) s' /\ stable st = true) ->
  forall l rest s, NoDup (map idx l ++ rest) -> retry_inv (map idx l ++ rest) s ->
  (forall r, r ∈ map idx l ++ rest -> (r < length (rpcs s))%nat) ->
  exists s', for_each l f s = (Ret tt, s') /\ retry_inv rest s' /\ length (rpcs s') = length (rpcs s) /\
    rpcAgentRunning_ s' = rpcAgentRunning_ s /\ retry_thread s' = retry_thread s.
Proof.
  intros Hf. induction l as [|a l IH]; intros rest s Hnd Hinv Hlt; cbn [map app] in *; [by exists s|].
  apply NoDup_cons in Hnd as [Ha Hnd]. cbn [for_each]. unfold bind.
  assert (Hla : (idx a < length (rpcs s))%nat) by (apply Hlt, list_elem_of_here).
  pose proof (proj1 Hinv (idx a) Hla) as Hst. rewrite bool_decide_true in Hst by apply list_elem_of_here.
  destruct (Hf a s Hst) as (s1 & st & -> & Hsb & Hst1 & Hstab). pose proof Hsb as (Hl1 & Hr1 & Ht1 & _).
  destruct (IH rest s1) as (s2 & E & Hinv2 & Hl2 & Hr2 & Ht2); [done| | |].
  - apply (retry_inv_step (idx a) (idx a :: map idx l ++ rest) _ st s); try done.
    intros r Hr. rewrite elem_of_cons. split; [by right|by intros [->|]].
  - intros r Hr. rewrite Hl1. by apply Hlt, list_elem_of_further.
  - exists s2. rewrite E. split_and!; congruence || done.
Qed.

Lemma resend_split send infos l : (forall r, r ∈ l -> is_Some (infos !! r)) ->
  map snd (fst (resend send infos l)) ++ map fst (snd (resend send infos l)) ≡ₚ l.
Proof.
  induction l as [|r l IH]; intros Hl; [done|]. cbn [resend].
  assert (Hrest : forall r', r' ∈ l -> is_Some (infos !! r')) by (intros r' Hr'; by apply Hl, list_elem_of_further).
  specialize (IH Hrest). destruct (resend send infos l) as [fs es]. cbn [fst snd] in *.
  destruct (Hl r (list_elem_of_here _ _)) as [info ->].
  destruct (send (to_ info) (message_ info)) as [f|e]; cbn [fst snd map app]; [by constructor|].
  rewrite <- Permutation_middle. by constructor.
Qed.

Lemma count_elem (r : nat) l : r ∈ l -> (0 < length (List.filter (fun r' => r' =? r)%nat l))%nat.
Proof.
  intros Hin%list_elem_of_In. assert (Hf : In r (List.filter (fun r' => r' =? r)%nat l))
    by (apply filter_In; by rewrite Nat.eqb_refl).
  destruct (List.filter _ l); [done|]. cbn. lia.
Qed.

Lemma count_zero (r : nat) l : r ∉ l -> length (List.filter (fun r' => r' =? r)%nat l) = 0%nat.
Proof.
  induction l as [|r' l IH]; [done|]. intros [Hne Hr]%not_elem_of_cons. cbn. destruct (Nat.eqb_spec r' r); [congruence|].
  by apply IH.
Qed.

Lemma count_NoDup (l : list nat) : (forall r, (length (List.filter (fun r' => r' =? r)%nat l) <= 1)%nat) -> NoDup l.
Proof.
  induction l as [|r l IH]; intros H; constructor.
  - intros Hin. specialize (H r). cbn in H. rewrite Nat.eqb_refl in H. cbn in H. pose proof (count_elem r l Hin). lia.
  - apply IH. intros r'. specialize (H r'). cbn in H. destruct (r =? r')%nat; cbn in H; lia.
Qed.

Lemma scheduled_cons r t l m :
  scheduled r ((t, l) :: m) = (length (List.filter (fun r' => r' =? r)%nat l) + scheduled r m)%nat.
Proof. unfold scheduled. cbn [map concat snd]. apply filter_app_length. Qed.

(** The statuses in which an RPC is in the map, and how often. *)
Lemma status_scheduled st r s : status_of st r s ->
  scheduled r (rpcRetryMap_ s) = match st with Scheduled => 1%nat | _ => 0%nat end.
Proof. intros (info & _ & _ & _ & H). by destruct st; destruct H as (_ & -> & _). Qed.

Lemma inv_scheduled s r : retry_inv [] s ->
  (scheduled r (rpcRetryMap_ s) <= 1)%nat /\
  ((0 < scheduled r (rpcRetryMap_ s))%nat -> (r < length (rpcs s))%nat /\ status_of Scheduled r s).
Proof.
  intros [Hst Hout]. destruct (decide (r < length (rpcs s))%nat) as [Hlt|Hge].
  - specialize (Hst r Hlt). rewrite bool_decide_false in Hst by apply not_elem_of_nil. destruct Hst as (st & Hst & Hs).
    pose proof (status_scheduled st r s Hst) as E. rewrite E. destruct st; split; try lia. done.
  - destruct (Hout r ltac:(lia)) as [-> _]. lia.
Qed.

(** The head of the map leaves it: its RPCs are in the hands of the thread. *)
Lemma take_head t l m s : retry_inv [] s -> rpcRetryMap_ s = (t, l) :: m ->
  NoDup l /\ (forall r, r ∈ l -> (r < length (rpcs s))%nat) /\ retry_inv l (upd_map (fun _ => m) s).
Proof.
  intros Hinv Hm. assert (Hs : forall r, scheduled r (rpcRetryMap_ s) =
    (length (List.filter (fun r' => r' =? r)%nat l) + scheduled r m)%nat) by (intros r; by rewrite Hm, scheduled_cons).
  split; [|split].
  - apply count_NoDup. intros r. destruct (inv_scheduled s r Hinv) as [H _]. rewrite Hs in H. lia.
  - intros r Hr. destruct (inv_scheduled s r Hinv) as [_ H]. apply H. rewrite Hs. pose proof (count_elem r l Hr). lia.
  - pose proof Hinv as [Hst Hout]. split; cbn [rpcs rpcRetryMap_ attempts upd_map].
    + intros r Hr. destruct (inv_scheduled s r Hinv) as [H1 H2]. rewrite Hs in *.
      case_bool_decide as Hin.
      * pose proof (count_elem r l Hin). destruct (H2 ltac:(lia)) as [_ (info & Hi & Hn & H32 & Ho & _ & Hf & Hlen & Hlt)].
        exists info. split; [done|]. cbn [rpcRetryMap_ upd_map attempts]. unfold in_status. split_and!; done || lia.
      * specialize (Hst r Hr). rewrite bool_decide_false in Hst by apply not_elem_of_nil.
        destruct Hst as (st & (info & Hi & Hin') & Hstab). exists st. split; [|done]. exists info. split; [done|].
        cbn [rpcRetryMap_ upd_map attempts]. rewrite Hs in Hin'.
        by rewrite (count_zero r l Hin) in Hin'.
    + intros r Hr. destruct (Hout r Hr) as [H1 H2]. rewrite Hs in H1. split; [lia|done].
Qed.

Lemma iteration_ok send now s t l m : retry_inv [] s -> rpcRetryMap_ s = (t, l) :: m ->
  exists s', retryExpiredRpcs_iteration send now s = (Ret tt, s') /\ retry_inv [] s' /\
    length (rpcs s') = length (rpcs s) /\ rpcAgentRunning_ s' = rpcAgentRunning_ s /\ retry_thread s' = retry_thread s.
Proof.
  intros Hinv Hm. destruct (take_head t l m s Hinv Hm) as (Hnd & Hlt & Hinv1).
  unfold retryExpiredRpcs_iteration. unfold bind at 1 2, gets at 1 2. rewrite Hm.
  assert (Hperm := resend_split send (rpcs s) l ltac:(intros r Hr; apply lookup_lt_is_Some; by apply Hlt)).
  destruct (resend send (rpcs s) l) as [fs es]. cbn [fst snd] in Hperm. unfold bind at 1, modify at 1.
  set (s1 := upd_map _ s) in *.
  assert (Hinv2 : retry_inv (map snd fs ++ map fst es) s1).
  { destruct Hinv1 as [H1 H2]. split; [|done]. intros r Hr. specialize (H1 r Hr).
    rewrite (bool_decide_ext (r ∈ map snd fs ++ map fst es) (r ∈ l)); [done|]. by rewrite Hperm. }
  destruct (taken_all_ok (attach_next now) snd (attach_next_ok now) fs (map fst es) s1) as (s2 & E & Hinv3 & Hl & Hr & Ht).
  - by rewrite Hperm.
  - done.
  - intros r Hr. apply Hlt. by rewrite <- Hperm.
  - unfold bind. rewrite E.
    destruct (taken_all_ok (fun p => complete_original p.1 (inr p.2)) fst give_up_ok es [] s2) as (s3 & E3 & Hinv4 & Hl' & Hr' & Ht').
    + rewrite app_nil_r. rewrite <- Hperm in Hnd. by apply NoDup_app in Hnd as (_ & _ & ?).
    + by rewrite app_nil_r.
    + rewrite app_nil_r, Hl. intros r Hin. apply Hlt. rewrite <- Hperm. apply elem_of_app. by right.
    + exists s3. rewrite Hl', Hl, Hr', Hr, Ht', Ht. done.
Qed.

Lemma retry_inv_frame s s' : retry_inv [] s -> rpcs s' = rpcs s -> rpcRetryMap_ s' = rpcRetryMap_ s ->
  attempts s' = attempts s -> retry_inv [] s'.
Proof.
  intros [H1 H2] Er Em Ea. unfold retry_inv, status_of. rewrite Er, Em, Ea. done.
Qed.

Definition options_ok (o : RpcRetryOptions) : Prop := in_int32 (maxRetries o).
Definition event_ok (e : event) : Prop :=
  match e with ESend _ _ _ _ o => options_ok o | _ => True end.

Lemma send_cases send now to m o s :
  (exists e, sendWithRetries send now to m o s = (Throw e, s)) \/
  (0 <= maxRetries o /\ exists f, sendWithRetries send now to m o s =
     (do! attach_retry f (computeNewRpcRetryTime now o 0) (length (rpcs s)) in ret (length (rpcs s)))
       (upd_rpcs (fun l => l ++ [mkRetryInfo to m None 0 o]) s)).
Proof.
  unfold sendWithRetries, assert_, lift, ocheck. destruct (Z.leb_spec 0 (maxRetries o)); [|left; by eexists].
  destruct (ge_one (retryBackoff o)); [|left; by eexists].
  destruct (0 <=? rpcRetryDuration o); [|left; by eexists].
  destruct (send to m) as [f|e]; [right|left; by eexists]. split; [done|]. exists f. reflexivity.
Qed.

(** A new RPC; the others stay as they are. *)
Lemma send_ok send now to m o s : options_ok o -> retry_inv [] s ->
  let s' := snd (sendWithRetries send now to m o s) in
  retry_inv [] s' /\ rpcAgentRunning_ s' = rpcAgentRunning_ s /\ retry_thread s' = retry_thread s /\
  forall r st, status_of st r s -> status_of st r s'.
Proof.
  intros Ho Hinv. destruct (send_cases send now to m o s) as [[e E]|[Hmax [f E]]]; cbv zeta; rewrite E; [done|].
  set (s1 := upd_rpcs _ s). pose proof Hinv as [Hst Hout]. destruct (Hout (length (rpcs s)) ltac:(lia)) as [Hs0 Ht0].
  destruct (attach_retry_ok f (computeNewRpcRetryTime now o 0) (length (rpcs s)) s1) as (s2 & st & E2 & Hsb & Hst2 & Hstab).
  { eexists. split; [unfold s1; cbn [rpcs upd_rpcs]; by rewrite lookup_app_r, Nat.sub_diag by lia|].
    change (rpcRetryMap_ s1) with (rpcRetryMap_ s). change (attempts s1) with (attempts s). rewrite Hs0, Ht0.
    cbn [retryCount_ options_ originalFuture_ length]. by split_and!. }
  unfold bind. rewrite E2. cbn [snd ret]. pose proof Hsb as (Hl & Hr & Hth & Hsame).
  assert (Hl1 : length (rpcs s1) = S (length (rpcs s))) by (unfold s1; cbn [rpcs upd_rpcs]; rewrite length_app; simpl; lia).
  assert (Hkeep : forall r st, status_of st r s -> status_of st r s2).
  { intros r st' (info & Hi & Hin). apply (same_but_status (length (rpcs s)) s1); [done| |].
    - apply lookup_lt_Some in Hi. lia.
    - exists info. split; [|done]. unfold s1. cbn [rpcs upd_rpcs]. by apply lookup_app_l_Some. }
  split; [|split_and!; done]. split; intros r Hlt; rewrite Hl, Hl1 in Hlt.
  - rewrite bool_decide_false by apply not_elem_of_nil.
    destruct (decide (r = length (rpcs s))) as [->|Hne]; [by exists st|].
    specialize (Hst r ltac:(lia)). rewrite bool_decide_false in Hst by apply not_elem_of_nil.
    destruct Hst as (st' & H & Hs'). exists st'. auto.
  - destruct (Hsame r ltac:(lia)) as (_ & -> & ->). apply Hout. lia.
Qed.

Lemma tries_middle r l1 a l2 :
  tries r (l1 ++ a :: l2) = tries r l1 ++ (if (at_rpc a =? r)%nat then [at_result a] else []) ++ tries r l2.
Proof. unfold tries. rewrite List.filter_app, map_app. cbn [List.filter]. by destruct (at_rpc a =? r)%nat. Qed.

(** The try that is completed is the last one of its RPC. *)
Lemma last_pending (l1 l2 l : list (option result)) : l1 ++ None :: l2 = l ++ [None] -> Forall failed l -> l1 = l /\ l2 = [].
Proof.
  intros E Hf. destruct l2 as [|x l2] using rev_ind; [apply app_inj_tail in E as [-> _]; done|].
  exfalso. rewrite app_comm_cons, app_assoc in E. apply app_inj_tail in E as [E _]. subst l.
  apply Forall_app in Hf as [_ Hf]. apply Forall_cons in Hf as [[e He] _]. done.
Qed.

Lemma app_eq_app_last (l1 l2 l : list (option result)) v : l1 ++ None :: l2 = l ++ [Some (inl v)] -> Forall failed l -> False.
Proof.
  intros E Hf. destruct l2 as [|x l2] using rev_ind; [by apply app_inj_tail in E as [_ ?]|].
  rewrite app_comm_cons, app_assoc in E. apply app_inj_tail in E as [E _]. subst l.
  apply Forall_app in Hf as [_ Hf]. apply Forall_cons in Hf as [[e He] _]. done.
Qed.

(** A completion runs the callback of one RPC, whose try was pending. *)
Lemma complete_attempt_run i r s t rpc : retry_inv [] s -> attempts s !! i = Some (mkAttempt None t rpc) ->
  None ∈ tries rpc (attempts s) /\
  exists s', complete_attempt i r s = (Ret tt, s') /\ same_but rpc s s' /\ retry_inv [] s'.
Proof.
  intros Hinv Hi. unfold complete_attempt, bind at 1, gets. rewrite Hi.
  unfold bind, modify. set (s1 := upd_attempts _ s).
  assert (Hlt : (i < length (attempts s))%nat) by (by eapply lookup_lt_Some).
  assert (Ht : forall r', tries r' (attempts s) = tries r' (take i (attempts s)) ++
    (if (rpc =? r')%nat then [None] else []) ++ tries r' (drop (S i) (attempts s))).
  { intros r'. rewrite (elem_of_list_split_mid _ i _ Hi) at 1. apply tries_middle. }
  assert (Ht1 : forall r', tries r' (attempts s1) = tries r' (take i (attempts s)) ++
    (if (rpc =? r')%nat then [Some r] else []) ++ tries r' (drop (S i) (attempts s))).
  { intros r'. unfold s1. cbn [attempts upd_attempts]. rewrite insert_take_drop by done. apply tries_middle. }
  pose proof Hinv as [Hst Hout].
  assert (Hrpc : (rpc < length (rpcs s))%nat).
  { destruct (decide (rpc < length (rpcs s))%nat) as [|Hge]; [done|]. destruct (Hout rpc ltac:(lia)) as [_ E].
    rewrite Ht, Nat.eqb_refl in E. by destruct (tries rpc (take i (attempts s))). }
  assert (Hsb : same_but rpc s s1).
  { split_and!; [done..|]. intros r' Hr'. split_and!; [done..|]. rewrite Ht, Ht1.
    destruct (Nat.eqb_spec rpc r'); [congruence|done]. }
  assert (Hret : status_of (Returned r) rpc s1).
  { specialize (Hst rpc Hrpc). rewrite bool_decide_false in Hst by apply not_elem_of_nil.
    destruct Hst as (st & (info & Hinfo & Hn & H32 & Hst) & Hstab). specialize (Ht rpc). specialize (Ht1 rpc).
    rewrite Nat.eqb_refl in Ht, Ht1. cbn [app] in Ht, Ht1. exists info. split; [done|]. unfold in_status.
    assert (Hnone : forall l, tries rpc (attempts s) = l -> Forall failed l -> False).
    { intros l <- Hf. rewrite Ht in Hf. apply Forall_app in Hf as [_ Hf]. apply Forall_cons in Hf as [[e He] _]. done. }
    destruct st; try done.
    - destruct Hst as (Ho & Hs & l & Hl & Hf & Hlen). rewrite Hl in Ht. symmetry in Ht.
      destruct (last_pending _ _ _ Ht Hf) as [E1 E2]. rewrite Ht1, E1, E2. split_and!; try done; try apply Hn. by exists l.
    - destruct Hst as (_ & _ & Hf & _). by destruct (Hnone _ eq_refl Hf).
    - destruct Hst as (_ & _ & l & Hl & Hf & _). rewrite Hl in Ht. symmetry in Ht.
      destruct (app_eq_app_last _ _ _ _ Ht Hf).
    - destruct Hst as (_ & _ & Hf & _). by destruct (Hnone _ eq_refl Hf). }
  split.
  { rewrite Ht, Nat.eqb_refl. apply elem_of_app. right. apply list_elem_of_here. }
  destruct (callback_ok r t rpc s1 Hret) as (s2 & st & E & Hsb2 & Hst2 & Hstab). exists s2.
  pose proof (same_but_trans _ _ _ _ Hsb Hsb2) as Hsb3. split; [exact E|]. split; [done|].
  apply (retry_inv_step rpc [] [] st s s2); try done. apply not_elem_of_nil.
Qed.

Lemma complete_attempt_ok i r s : retry_inv [] s -> retry_inv [] (snd (complete_attempt i r s)).
Proof.
  intros Hinv. destruct (attempts s !! i) as [[[r0|] t rpc]|] eqn:Hi.
  2: destruct (complete_attempt_run i r s t rpc Hinv Hi) as (_ & s' & -> & _ & ?); done.
  all: unfold complete_attempt, bind, gets; by rewrite Hi.
Qed.

Lemma retry_wait_inv bound s : retry_inv [] s -> retry_inv [] (snd (retry_wait bound s)).
Proof. intros H. by apply (retry_inv_frame s). Qed.

Lemma retry_wake_ok send now s : retry_inv [] s -> retry_inv [] (snd (retry_wake send now s)).
Proof.
  intros Hinv. unfold retry_wake, bind at 1, gets at 1. destruct (retry_thread s) as [|e|]; try exact Hinv.
  unfold bind at 1, gets at 1. destruct (rpcAgentRunning_ s) eqn:Hr; cbn [negb]; [|by apply (retry_inv_frame s)].
  destruct (e <=? now); [|by apply retry_wait_inv].
  destruct (rpcRetryMap_ s) as [|[t l] m] eqn:Hm.
  - unfold retryExpiredRpcs_iteration, bind, gets. by rewrite Hm.
  - destruct (iteration_ok send now s t l m Hinv Hm) as (s' & E & Hinv' & _ & Hr' & _). unfold bind, gets. rewrite E.
    destruct (rpcAgentRunning_ s'); [by apply retry_wait_inv|by apply (retry_inv_frame s')].
Qed.

Lemma run_events_inv es : Forall event_ok es -> forall s, retry_inv [] s -> retry_inv [] (run_events es s).
Proof.
  induction 1 as [|e es He _ IH]; intros s Hinv; [done|]. apply IH. destruct e as [send now to m o|i r|send now|]; cbn [run_event].
  - destruct (send_ok send now to m o s He Hinv) as [H _]. unfold bind. by destruct (sendWithRetries _ _ _ _ _ s) as [[] s'].
  - by apply complete_attempt_ok.
  - by apply retry_wake_ok.
  - by apply (retry_inv_frame s).
Qed.

Lemma start_inv now : retry_inv [] (snd (start now new_agent)).
Proof. split; intros r Hr; [by apply Nat.nlt_0_r in Hr|done]. Qed.

(** ** Theorems *)

Definition reachable (s : agent) : Prop :=
  exists now es, Forall event_ok es /\ s = run_events es (snd (start now new_agent)).

Lemma reachable_inv s : reachable s -> retry_inv [] s.
Proof. intros (now & es & Hes & ->). apply run_events_inv; [done|]. apply start_inv. Qed.

Lemma reachable_status s r info : reachable s -> rpcs s !! r = Some info ->
  exists st, stable st = true /\ in_status st info (scheduled r (rpcRetryMap_ s)) (tries r (attempts s)).
Proof.
  intros Hs Hi. destruct (reachable_inv s Hs) as [Hst _]. specialize (Hst r (lookup_lt_Some _ _ _ Hi)).
  rewrite bool_decide_false in Hst by apply not_elem_of_nil. destruct Hst as (st & (info' & Hi' & H) & Hstab).
  rewrite Hi in Hi'. injection Hi' as <-. by exists st.
Qed.

(** C35: sendWithRetries keeps its contract under every interleaving of calls,
    completions, wake-ups of the retry thread and shutdown: an RPC is tried at
    most maxRetries + 1 times; its future has a value only if its last try gave
    that value and all the others failed, and an error only if every try failed;
    and an RPC whose future is pending is in exactly one place, on its way in its
    last try or in the map of retries. *)
Theorem rpc_retry_contract (s : agent) (r : nat) (info : RpcRetryInfo) :
  reachable s -> rpcs s !! r = Some info ->
  let rs := tries r (attempts s) in
  Z.of_nat (length rs) <= maxRetries (options_ info) + 1 /\
  match originalFuture_ info with
  | Some (inl v) => exists l, rs = l ++ [Some (inl v)] /\ Forall failed l
  | Some (inr _) => Forall failed rs
  | None =>
      (scheduled r (rpcRetryMap_ s) = 1%nat /\ Forall failed rs /\ Z.of_nat (length rs) <= maxRetries (options_ info)) \/
      (scheduled r (rpcRetryMap_ s) = 0%nat /\ exists l, rs = l ++ [None] /\ Forall failed l)
  end.
Proof.
  intros Hs Hi rs. destruct (reachable_status s r info Hs Hi) as (st & Hstab & Hn & _ & H). fold rs in H.
  destruct st; try done.
  - destruct H as (-> & H0 & l & Hl & Hf & Hlen). rewrite Hl, length_app. split; [simpl; lia|]. right. split; [done|by exists l].
  - destruct H as (-> & H1 & Hf & Hlen & Hlt). split; [lia|]. left. split_and!; done || lia.
  - destruct H as (-> & H0 & l & Hl & Hf & Hlen). rewrite Hl, length_app. split; [simpl; lia|]. by exists l.
  - destruct H as (-> & H0 & Hf & Hlen). split; [lia|done].
Qed.

(** No RPC is forgotten while the agent runs: in every reachable state with no
    try on its way and nothing left in the map of retries, every future handed out
    by sendWithRetries is completed. *)
Theorem rpc_retry_all_decided (s : agent) (r : nat) (info : RpcRetryInfo) :
  reachable s -> rpcs s !! r = Some info ->
  (forall a, a ∈ attempts s -> at_result a <> None) -> rpcRetryMap_ s = [] ->
  is_Some (originalFuture_ info).
Proof.
  intros Hs Hi Hdone Hm. destruct (reachable_status s r info Hs Hi) as (st & Hstab & Hn & _ & H). rewrite Hm in H.
  destruct st; try done.
  - exfalso. destruct H as (_ & _ & l & Hl & _).
    assert (Hin : None ∈ tries r (attempts s)) by (rewrite Hl; apply elem_of_app; right; by apply list_elem_of_singleton).
    apply list_elem_of_In, in_map_iff in Hin as (a & Ha & Hin). apply filter_In in Hin as [Hin _].
    by apply (Hdone a); [apply list_elem_of_In|].
  - by destruct H as (_ & ? & _).
  - by destruct H as (-> & _).
  - by destruct H as (-> & _).
Qed.

Lemma stopped_keeps r e s : event_ok e -> retry_inv [] s -> rpcAgentRunning_ s = false ->
  (forall t, retry_thread s <> Waiting t) -> status_of Scheduled r s ->
  let s' := snd (run_event e s) in
  rpcAgentRunning_ s' = false /\ (forall t, retry_thread s' <> Waiting t) /\ status_of Scheduled r s'.
Proof.
  intros He Hinv Hrun Hth Hst. destruct e as [send now to m o|i res|send now|]; cbn [run_event].
  - destruct (send_ok send now to m o s He Hinv) as (_ & H1 & H2 & H3). unfold bind.
    destruct (sendWithRetries send now to m o s) as [[] s']; cbn [snd ret] in *; rewrite H1, H2; auto.
  - destruct (attempts s !! i) as [[[r0|] t rpc]|] eqn:Hi.
    + assert (complete_attempt i res s = (Ret tt, s)) as ->; [|done]. unfold complete_attempt, bind, gets. by rewrite Hi.
    + destruct (complete_attempt_run i res s t rpc Hinv Hi) as (Hnone & s' & -> & Hsb & _). cbn [snd].
      pose proof Hsb as (_ & -> & -> & _). split_and!; [done..|]. apply (same_but_status rpc s); [done| |done].
      intros ->. destruct Hst as (info & _ & _ & _ & _ & _ & Hf & _).
      rewrite Forall_forall in Hf. destruct (Hf None Hnone) as [e He']. done.
    + assert (complete_attempt i res s = (Ret tt, s)) as ->; [|done]. unfold complete_attempt, bind, gets. by rewrite Hi.
  - assert (retry_wake send now s = (Ret tt, s)) as ->; [|done].
    unfold retry_wake, bind, gets. destruct (retry_thread s) as [|t|]; [done|by destruct (Hth t)|done].
  - cbn. split; [done|]. split; [|done]. by destruct (retry_thread s).
Qed.

(** Shutdown strands the RPCs that wait for their next try: the retry thread
    leaves without looking at the map, and the future of such an RPC is never
    completed afterwards, whatever happens. *)
Theorem rpc_retry_shutdown_strands (s : agent) (r : nat) (es : list event) :
  reachable s -> Forall event_ok es -> (0 < scheduled r (rpcRetryMap_ s))%nat ->
  exists info, rpcs (run_events (EShutdown :: es) s) !! r = Some info /\ originalFuture_ info = None.
Proof.
  intros Hs Hes Hr. pose proof (reachable_inv s Hs) as Hinv.
  destruct (inv_scheduled s r Hinv) as [_ H]. destruct (H Hr) as [_ Hst]. clear H Hr Hs.
  cbn [run_events foldl]. fold (run_events es (snd (run_event EShutdown s))).
  set (s1 := snd (run_event EShutdown s)).
  assert (Hinv1 : retry_inv [] s1) by (by apply (retry_inv_frame s)).
  assert (H1 : rpcAgentRunning_ s1 = false /\ (forall t, retry_thread s1 <> Waiting t) /\ status_of Scheduled r s1).
  { split_and!; [done| |done]. unfold s1. cbn. by destruct (retry_thread s). }
  clearbody s1. clear s Hinv Hst. revert s1 Hinv1 H1.
  induction Hes as [|e es He Hes IH]; intros s Hinv (Hrun & Hth & Hst).
  - destruct Hst as (info & Hi & _ & _ & Ho & _). by exists info.
  - cbn [run_events foldl]. fold (run_events es (snd (run_event e s))). apply IH.
    + apply (run_events_inv [e]); [by constructor|done].
    + by apply stopped_keeps.
Qed.

(** The retry thread that nobody wakes for ten thousand hours dereferences the
    begin of an empty map. *)
Theorem rpc_retry_idle_undefined send (now now' : Z) : now + kLargeTimeDuration <= now' ->
  fst (retry_wake send now' (snd (start now new_agent))) = Throw (Undefined "rpcRetryMap_.begin()->first").
Proof. intros H. cbn. destruct (Z.leb_spec (now + kLargeTimeDuration) now'); [done|lia]. Qed.
End retry.

(** A worker has an id that fits its 16-bit type and a name of 1 to 127
    letters, digits, '-', '_' and ':'; an id above 32767 is refused, and one that
    fits is kept, but one below -32768 is accepted and wraps around. *)
Theorem worker_info_bounds (name : bytes) (id : Z) :
  match WorkerInfo_wide name id with
  | Ret info => in_int16 (worker_id_ info) /\ name_ info = name /\ id <= 32767 /\
      (1 <= Z.of_nat (length name) < MAX_NAME_LEN) /\ Forall (fun b => valid_char b = true) name /\
      (in_int16 id -> worker_id_ info = id)
  | Throw (CheckFailed _) => 32767 < id \/ ~ (1 <= Z.of_nat (length name) < MAX_NAME_LEN) \/
      ~ Forall (fun b => valid_char b = true) name
  | _ => False
  end.
Proof.
  unfold WorkerInfo_wide, WorkerInfo_small, ocheck.
  destruct (forallb valid_char name) eqn:Hc.
  - rewrite andb_true_r. destruct (Z.ltb_spec (Z.of_nat (length name)) MAX_NAME_LEN);
      [|simpl; right; left; lia]. destruct (Z.ltb_spec 0 (Z.of_nat (length name))); [|simpl; right; left; lia].
    cbn [andb obind]. destruct (Z.leb_spec id 32767); [|left; lia]. cbn [obind worker_id_ name_].
    split_and!; try done; try lia; [apply (swrap_range 16 id); lia..| |].
    + apply Forall_forall. intros b Hb. rewrite forallb_forall in Hc. by apply Hc, list_elem_of_In.
    + apply int16_id.
  - rewrite andb_false_r. simpl. right. right. intros Hf. apply not_true_iff_false in Hc. apply Hc.
    apply forallb_forall. intros b Hb. rewrite Forall_forall in Hf. by apply Hf, list_elem_of_In.
Qed.

(** *** Concrete runs: a clean-up message to worker 1 with one retry allowed *)

Definition ex_to : WorkerInfo := mkWorkerInfo (str "worker1") 1.
Definition ex_msg : Message unit := mkMessage unit [] [] RREF_USER_DELETE 0.
Definition ex_options : RpcRetryOptions (F := unit) := mkRetryOptions 1 1000 tt.
Definition ex_net (_ : WorkerInfo) (_ : Message unit) : option (nat + exn) + exn := inl None.
Definition ex_down : nat + exn := inr (RuntimeError "connection reset").

Abbreviation ex_run := (run_events (T := unit) (V := nat) (fun _ : unit => true) (fun d _ _ => d)).
Abbreviation ex_start := (snd (start (T := unit) (V := nat) (F := unit) 0 new_agent)).
Abbreviation ex_reachable := (reachable (T := unit) (V := nat) (fun _ : unit => true) (fun d _ _ => d)).
(** The first try failed and the RPC waits for its second one. *)
Definition ex_events1 := [ESend ex_net 0 ex_to ex_msg ex_options; EComplete 0 ex_down].
(** The thread is notified, then its time has come; the second try gives 7. *)
Definition ex_events2 := ex_events1 ++ [EWake ex_net 5; EWake ex_net (10 ^ 9); EComplete 1 (inl 7%nat)].
Definition ex_info (f : option (nat + exn)) (n : Z) : RpcRetryInfo := mkRetryInfo ex_to ex_msg f n ex_options.

Lemma ex_events_ok : Forall (event_ok (T := unit) (V := nat) (F := unit)) ex_events2.
Proof. repeat constructor; unfold options_ok, in_int32; simpl; lia. Qed.

Lemma ex_reachable1 : ex_reachable (ex_run ex_events1 ex_start).
Proof. exists 0, ex_events1. split; [|done]. pose proof ex_events_ok as H. by apply Forall_app in H as [? _]. Qed.
Lemma ex_reachable2 : ex_reachable (ex_run ex_events2 ex_start).
Proof. exists 0, ex_events2. split; [apply ex_events_ok|done]. Qed.

Lemma rpc_retry_contract_witness :
  rpcs (ex_run ex_events2 ex_start) !! 0%nat = Some (ex_info (Some (inl 7%nat)) 1) /\
  exists l, tries 0 (attempts (ex_run ex_events2 ex_start)) = l ++ [Some (inl 7%nat)] /\ Forall failed l.
Proof.
  split; [reflexivity|].
  exact (proj2 (rpc_retry_contract (fun _ : unit => true) (fun d _ _ => d) (ex_run ex_events2 ex_start) 0
    (ex_info (Some (inl 7%nat)) 1) ex_reachable2 eq_refl)).
Defined.

Lemma rpc_retry_all_decided_witness : is_Some (originalFuture_ (ex_info (Some (inl 7%nat)) 1)).
Proof.
  apply (rpc_retry_all_decided (fun _ : unit => true) (fun d _ _ => d) (ex_run ex_events2 ex_start) 0
    (ex_info (Some (inl 7%nat)) 1) ex_reachable2); [reflexivity| |reflexivity].
  intros a Ha. vm_compute in Ha.
  repeat (apply elem_of_cons in Ha as [->|Ha]; [done|]). by apply elem_of_nil in Ha.
Defined.

Lemma rpc_retry_shutdown_strands_witness :
  exists info, rpcs (ex_run [EShutdown; EWake ex_net (10 ^ 12)] (ex_run ex_events1 ex_start)) !! 0%nat = Some info /\
    originalFuture_ info = None.
Proof.
  apply (rpc_retry_shutdown_strands (fun _ : unit => true) (fun d _ _ => d) (ex_run ex_events1 ex_start) 0
    [EWake ex_net (10 ^ 12)] ex_reachable1); [repeat constructor|vm_compute; lia].
Defined.

Lemma rpc_retry_idle_undefined_witness :
  fst (retry_wake (F := unit) (fun d _ _ => d) ex_net kLargeTimeDuration ex_start) =
  Throw (Undefined "rpcRetryMap_.begin()->first").
Proof. apply (rpc_retry_idle_undefined (fun d _ _ => d) ex_net 0 kLargeTimeDuration). lia. Defined.
