(* ===== verification/TensorPipe.v ===== *)
(** * The TensorPipe agent: set-up, devices and messages

    Models csrc/c10d/distributed/rpc/tensorpipe_utils.cpp and the parts of
    tensorpipe_agent.{h,cpp} that do not depend on requests in progress: the
    options and device maps, the names and addresses exchanged through a store,
    the choice of transports and channels, the metrics, and the translation
    between RPC messages and TensorPipe messages.  TensorPipe itself, the pickler
    and tensors are not part of the repository: they are parameters. *)

From stdpp Require Import base option list gmap strings.
From Stdlib Require Import ZArith Lia.
From S2P Require Import Prelude Decimal RpcTypes Wire RpcAgent Store.
Import Decimal.
#[local] Set Warnings "-clear-no-such-hyp".

(** ** Devices *)

Inductive device : Type :=
  | Cpu
  | Cuda (index : Z)
  | OtherDevice (kind : Z).

#[global] Instance device_eq_dec : EqDecision device.
Proof. solve_decision. Defined.

Definition is_cpu (d : device) : bool := match d with Cpu => true | _ => false end.
(** Device::index, -1 when there is none. *)
Definition device_index (d : device) : Z := match d with Cuda i => i | _ => -1 end.
Definition indexToDevice (index : Z) : device := if index =? -1 then Cpu else Cuda index.

(** tensorpipe::DeviceMap *)
Abbreviation DeviceMap := (gmap Z Z).

Section devices.
Context {T : Type} (device_of : T -> device).

(** The loop: the indices, and whether there was a tensor on a device. *)
Fixpoint lookup_devices (tensors : list T) (deviceMap : DeviceMap) : outcome (list Z * bool) :=
  match tensors with
  | [] => Ret ([], false)
  | t :: tensors =>
      if is_cpu (device_of t) then
        let? rest := lookup_devices tensors deviceMap in
        Ret (-1 :: rest.1, rest.2)
      else
        match deviceMap !! device_index (device_of t) with
        | None => Throw (CheckFailed "TensorPipe RPC backend only supports CPU tensors by default")
        | Some index =>
            let? rest := lookup_devices tensors deviceMap in
            Ret (index :: rest.1, true)
        end
  end.
Definition getDevicesForTensors (tensors : list T) (deviceMap : DeviceMap) : outcome (list Z) :=
  let? r := lookup_devices tensors deviceMap in
  Ret (if r.2 then r.1 else []).

Definition getDevicesForRemote (deviceMaps reverseDeviceMaps_ : gmap bytes DeviceMap)
    (remoteName : bytes) (message : Message T) : outcome (list Z) :=
  let maps := if isRequest message then deviceMaps else reverseDeviceMaps_ in
  match maps !! remoteName with
  | None =>
      check! forallb (fun t => is_cpu (device_of t)) (tensors message)
        else CheckFailed "TensorPipe RPC backend only supports CPU tensors by default" in
      Ret []
  | Some deviceMap => getDevicesForTensors (tensors message) deviceMap
  end.
End devices.

Definition getDeviceMap (deviceMaps : gmap bytes DeviceMap) (dest : WorkerInfo) : DeviceMap :=
  default ∅ (deviceMaps !! name_ dest).

(** ** Options *)

Record TensorPipeRpcBackendOptions := mkOptions {
  numWorkerThreads : Z;
  transports : option (list bytes);
  channels : option (list bytes);
  deviceMaps : gmap bytes DeviceMap;
}.

(** The names in the registries. *)
Definition construct_options (transportNames cpuChannelNames cudaChannelNames : list bytes)
    (threads : Z) (transports channels : option (list bytes)) (maps : gmap bytes DeviceMap) :
    outcome TensorPipeRpcBackendOptions :=
  check! 0 <? threads else CheckFailed "num_worker_threads must be positive, got " in
  check! forallb (fun t => bool_decide (t ∈ transportNames)) (default [] transports)
    else CheckFailed "Unknown transport: " in
  check! forallb (fun c => bool_decide (c ∈ cudaChannelNames) || bool_decide (c ∈ cpuChannelNames)) (default [] channels)
    else CheckFailed "Unknown channel: " in
  Ret (mkOptions threads transports channels maps).

(** The entries of the new map replace those that are there. *)
Definition setDeviceMap (workerName : bytes) (deviceMap : DeviceMap) (maps : gmap bytes DeviceMap) :
    gmap bytes DeviceMap :=
  match maps !! workerName with
  | None => <[workerName := deviceMap]> maps
  | Some old => <[workerName := deviceMap ∪ old]> maps
  end.

(** ** Addresses *)

Definition kDefaultUvAddress : bytes := str "127.0.0.1".

(** guessUvAddress and guessIbvAddress; the look-ups of the transport give an
    address or an error. *)
Definition guessAddress (ifnameEnv : option bytes) (lookupAddrForIface : bytes -> option bytes)
    (lookupAddrForHostname : option bytes) : bytes :=
  match ifnameEnv with
  | Some ifname => default kDefaultUvAddress (lookupAddrForIface ifname)
  | None => default kDefaultUvAddress lookupAddrForHostname
  end.

(** The counter is a thread-local uint32_t. *)
Definition createUniqueShmAddr (thread_id pid : bytes) : M Z bytes :=
  let! threadLocalId := gets id in
  do! modify (fun n => uint32 (n + 1)) in
  ret (str "shm://tensorpipe_rpc_agent_" ++ thread_id ++ str "_" ++ pid ++ str "_" ++ to_string threadLocalId).

(** ** Names *)

Abbreviation name_tables := (gmap Z WorkerInfo * gmap bytes WorkerInfo)%type.

(** unordered_map::emplace keeps the entry that is there. *)
Definition emplace {K V} `{Countable K} (k : K) (v : V) (m : gmap K V) : gmap K V :=
  match m !! k with Some _ => m | None => <[k := v]> m end.

Section names.
Context {S : Type} (store_ : StoreOps S).
Definition kNames : bytes := str "names".
Definition kAddrs : bytes := str "addrs".

Definition emplace_worker (name : bytes) (id : Z) (t : name_tables) : outcome name_tables :=
  let? info := WorkerInfo_small name id in
  Ret (emplace id info t.1, emplace name info t.2).

(** The loop; the counter is a worker_id_t. *)
Fixpoint collect_loop (fuel : nat) (selfId worldSize workerId : Z) (t : name_tables) : M S name_tables :=
  match fuel with
  | O => lift Block
  | Datatypes.S fuel =>
      if workerId <? worldSize then
        if workerId =? selfId then collect_loop fuel selfId worldSize (int16 (workerId + 1)) t
        else
          let! workerName := PrefixStore.get store_ kNames (to_string workerId) in
          do! assert_ (bool_decide (t.2 !! workerName = None)) (CheckFailed "RPC worker name ") in
          let! t := lift (emplace_worker workerName workerId t) in
          collect_loop fuel selfId worldSize (int16 (workerId + 1)) t
      else ret t
  end.
Definition collectNames (selfName : bytes) (selfId worldSize : Z) : M S name_tables :=
  do! PrefixStore.set store_ kNames (to_string selfId) selfName in
  let! t := lift (emplace_worker selfName selfId (∅, ∅)) in
  collect_loop (Datatypes.S (Z.to_nat worldSize)) selfId worldSize 0 t.

(** startImpl: the addresses of all workers, in the order of the hash map. *)
Fixpoint collect_urls (names : list bytes) (urls : gmap bytes bytes) : M S (gmap bytes bytes) :=
  match names with
  | [] => ret urls
  | name :: names =>
      let! url := PrefixStore.get store_ kAddrs name in
      collect_urls names (emplace name url urls)
  end.
Definition exchange_urls (selfName address : bytes) (names : list bytes) : M S (gmap bytes bytes) :=
  do! PrefixStore.set store_ kAddrs selfName address in
  collect_urls names ∅.

(** getNetworkSourceInfo *)
Definition getNetworkSourceInfo (self : WorkerInfo) : M S (Z * bytes) :=
  let! addr := PrefixStore.get store_ kAddrs (name_ self) in
  ret (worker_id_ self, addr).
End names.

Definition getWorkerInfo_name (t : name_tables) (workerName : bytes) : outcome WorkerInfo :=
  match t.2 !! workerName with
  | Some info => Ret info
  | None => Throw (CheckFailed "Unknown destination worker ")
  end.
Definition getWorkerInfo_id (t : name_tables) (workerId : Z) : outcome WorkerInfo :=
  match t.1 !! workerId with
  | Some info => Ret info
  | None => Throw (CheckFailed "Unknown destination worker ")
  end.
(** In the order of the hash map. *)
Definition getWorkerInfos (t : name_tables) : list WorkerInfo := map snd (map_to_list t.2).
Definition findWorkerURL (urls : gmap bytes bytes) (worker : WorkerInfo) : outcome bytes :=
  match urls !! name_ worker with
  | Some url => Ret url
  | None => Throw (CheckFailed "Unknown worker name: ")
  end.

(** ** Transports and channels *)

Definition kShmTransportPriority : Z := 200.
Definition kIbvTransportPriority : Z := 100.
Definition kUvTransportPriority : Z := 0.
Definition kCmaChannelPriority : Z := 200.
Definition kMultiplexedUvChannelPriority : Z := 100.
Definition kBasicChannelPriority : Z := 0.
Definition kCudaIpcChannelPriority : Z := 300.
Definition kCudaGdrChannelPriority : Z := 200.
Definition kCudaXthChannelPriority : Z := 400.
Definition kCudaBasicChannelPriority : Z := 100.

(** A TransportRegistration or ChannelRegistration, and whether TensorPipe finds
    its context viable.  Channels have no address. *)
Record registration := mkRegistration { viable : bool; priority : Z; address : bytes }.

Fixpoint index_of (key : bytes) (l : list bytes) : option nat :=
  match l with
  | [] => None
  | k :: l => if bool_decide (k = key) then Some 0%nat else Datatypes.S <$> index_of key l
  end.

(** The priority by the position in the options, [Some (-1)] without the option,
    [None] when the key is skipped. *)
Definition listed_priority (options : option (list bytes)) (key : bytes) : option Z :=
  match options with
  | None => Some (-1)
  | Some l => (fun i => int64 (Z.of_nat (length l) - 1 - Z.of_nat i)) <$> index_of key l
  end.

(** The priority a key of a registry is registered with. *)
Definition chosen_priority (options : option (list bytes)) (key : bytes) (reg : registration) : option Z :=
  match listed_priority options key with
  | None => None
  | Some p => if viable reg then Some (if p =? -1 then priority reg else p) else None
  end.

Record bootstrap := mkBootstrap {
  registered : list (Z * bytes);   (* registerTransport, registerChannel *)
  addresses : list bytes;
  lowestPriority : Z;   (* int *)
  lowestPriorityTransport : bytes;
}.

Fixpoint register_transports (options : option (list bytes)) (registry : list (bytes * registration)) (b : bootstrap) : bootstrap :=
  match registry with
  | [] => b
  | (key, reg) :: registry =>
      register_transports options registry
        match chosen_priority options key reg with
        | None => b
        | Some p =>
            let lower := p <? lowestPriority b in
            mkBootstrap (registered b ++ [(p, key)]) (addresses b ++ [key ++ str "://" ++ address reg])
              (if lower then int32 p else lowestPriority b) (if lower then key else lowestPriorityTransport b)
        end
  end.

Fixpoint register_channels (options : option (list bytes)) (registry : list (bytes * registration)) : list (Z * bytes) :=
  match registry with
  | [] => []
  | (key, reg) :: registry =>
      match chosen_priority options key reg with
      | None => register_channels options registry
      | Some p => (p, key) :: register_channels options registry
      end
  end.

Definition no_transport : bootstrap := mkBootstrap [] [] INT_MAX [].

Section start.
Context {S : Type} (store_ : StoreOps S).
(** TensorPipe listens at addresses; the url of the listener for a transport. *)
Variable listener_url : list bytes -> bytes -> outcome bytes.

(** startImpl up to the start of the time-out thread: what is registered with
    the context, and the table of addresses. *)
Definition start_network (opts : TensorPipeRpcBackendOptions) (selfName : bytes)
    (transportRegistry cpuRegistry cudaRegistry : list (bytes * registration)) (names : list bytes) :
    M S (list (Z * bytes) * list (Z * bytes) * gmap bytes bytes) :=
  let b := register_transports (transports opts) transportRegistry no_transport in
  let chans := register_channels (channels opts) cpuRegistry ++ register_channels (channels opts) cudaRegistry in
  let! url := lift (listener_url (addresses b) (lowestPriorityTransport b)) in
  let! urls := exchange_urls store_ selfName url names in
  ret (registered b, chans, urls).
End start.

(** ** Metrics *)

Definition uint64_add (a b : Z) : Z := uint64 (a + b).

Record TimeSeriesMetricsTracker := mkTracker { currentSum_ : Z; currentCount_ : Z }.
Definition addData (dataPoint : Z) (t : TimeSeriesMetricsTracker) : TimeSeriesMetricsTracker :=
  mkTracker (uint64_add (currentSum_ t) dataPoint) (uint64_add (currentCount_ t) 1).
(** Division of a uint64_t by a float. *)
Definition computeAverage {F} (zero : F) (float_of_uint64 : Z -> F) (fdiv : F -> F -> F) (t : TimeSeriesMetricsTracker) : F :=
  if currentCount_ t =? 0 then zero else fdiv (float_of_uint64 (currentSum_ t)) (float_of_uint64 (currentCount_ t)).

Record AggregatedNetworkData := mkNetworkData {
  numCalls : Z; totalSentBytes : Z; totalRecvBytes : Z; totalErrors : Z }.
Definition no_network_data : AggregatedNetworkData := mkNetworkData 0 0 0 0.
Abbreviation NetworkDataDict := (gmap bytes AggregatedNetworkData).

Definition trackNetworkData (requestSize responseSize : Z) (destWorkerName : bytes) (m : NetworkDataDict) : NetworkDataDict :=
  let d := default no_network_data (m !! destWorkerName) in
  <[destWorkerName := mkNetworkData (uint64_add (numCalls d) 1) (uint64_add (totalSentBytes d) requestSize)
      (uint64_add (totalRecvBytes d) responseSize) (totalErrors d)]> m.
Definition trackNetworkError (requestSize : Z) (destWorkerName : bytes) (m : NetworkDataDict) : NetworkDataDict :=
  let d := default no_network_data (m !! destWorkerName) in
  <[destWorkerName := mkNetworkData (uint64_add (numCalls d) 1) (uint64_add (totalSentBytes d) requestSize)
      (totalRecvBytes d) (uint64_add (totalErrors d) 1)]> m.

(** ** Messages *)

(** tensorpipe::Message: the bytes its payloads and buffers point to. *)
Inductive tp_buffer : Type :=
  | CpuBuffer (data : bytes)
  | CudaBuffer (data : bytes).
Record tp_tensor := mkTpTensor { buffer : tp_buffer; metadata : bytes }.
Record tp_message := mkTpMessage { payloads : list bytes; tp_tensors : list tp_tensor }.

Definition buffer_data (b : tp_buffer) : bytes := match b with CpuBuffer d | CudaBuffer d => d end.

Definition kTpMessageTypeIdx : nat := 0.
Definition kTpMessageIdIdx : nat := 1.
Definition kTpMessagePayloadIdx : nat := 2.
Definition kTpMessagePickleIdx : nat := 3.
(** The size of the enum, and of int64_t. *)
Definition sizeof_MessageType : nat := 4.
Definition sizeof_int64 : nat := 8.

(** TensorpipeReadBuffers; a tensor is memory on a device. *)
Record ReadBuffers := mkReadBuffers {
  rb_type : bytes; rb_id : bytes; rb_payload : bytes; rb_pickle : bytes;
  rb_tensors : list (device * bytes);
}.

Section messages.
Context {T : Type} (device_of : T -> device).
Variables (has_storage : T -> bool) (storage_nbytes element_size numel : T -> Z).
Variable clone : T -> T.
(** torch::jit::Pickler: the program, and the tensors it set aside. *)
Variable pickle : list T -> bytes * list T.
(** jit::getWriteableTensorData, without copying to the CPU. *)
Variables (tensor_bytes : T -> bytes) (storageHasDeleter : T -> bool).
(** The Unpickler, which asks for tensor memory by name. *)
Variable unpickle : bytes -> (bytes -> outcome (device * bytes)) -> outcome (list T).

Definition tensor_metadata (deviceIndices : list Z) (i : nat) : outcome bytes :=
  match deviceIndices with
  | [] => Ret []
  | _ =>
      match deviceIndices !! i with
      | None => Throw (Undefined "deviceIndices[i]")
      | Some index => Ret (if index =? -1 then [] else to_string index)
      end
  end.

(** One turn of the loop over tensorDataVec.  The bytes of a tensor that does
    not own its memory are copied by the host. *)
Definition write_tensor (deviceIndices : list Z) (i : nat) (t : T) : outcome tp_tensor :=
  let? metadata := tensor_metadata deviceIndices i in
  if negb (storageHasDeleter t) then
    if is_cpu (device_of t) then Ret (mkTpTensor (CpuBuffer (tensor_bytes t)) metadata)
    else Throw (Undefined "copy of device memory by the host")
  else
    match device_of t with
    | Cpu => Ret (mkTpTensor (CpuBuffer (tensor_bytes t)) metadata)
    | Cuda _ => Ret (mkTpTensor (CudaBuffer (tensor_bytes t)) metadata)
    | OtherDevice _ => Throw (CheckFailed "Attempting to send a Tensor with unexpected device type ")
    end.
Fixpoint write_tensors (deviceIndices : list Z) (i : nat) (ts : list T) : outcome (list tp_tensor) :=
  match ts with
  | [] => Ret []
  | t :: ts =>
      let? e := write_tensor deviceIndices i t in
      let? es := write_tensors deviceIndices (Datatypes.S i) ts in
      Ret (e :: es)
  end.

Definition tensorpipeSerialize (rpcMessage : Message T) (deviceIndices : list Z) : outcome tp_message :=
  let ts := cloneSparseTensors has_storage storage_nbytes element_size numel clone (tensors rpcMessage) in
  let '(program, tensorDataVec) := pickle ts in
  let? es := write_tensors deviceIndices 0 tensorDataVec in
  Ret (mkTpMessage [le_bytes sizeof_MessageType (MessageType_value (type_ rpcMessage));
                    le_bytes sizeof_int64 (uint64 (id_ rpcMessage));
                    payload rpcMessage; program] es).

(** Memory for a tensor, zeroed or not: what it holds is overwritten. *)
Definition allocate_tensor (e : tp_tensor) : outcome (device * bytes) :=
  match buffer e with
  | CpuBuffer d => Ret (Cpu, repeat x00 (length d))
  | CudaBuffer d =>
      let? deviceIndex := stoi (metadata e) in
      Ret (Cuda deviceIndex, repeat x00 (length d))
  end.
Fixpoint allocate_tensors (es : list tp_tensor) : outcome (list (device * bytes)) :=
  match es with
  | [] => Ret []
  | e :: es =>
      let? b := allocate_tensor e in
      let? bs := allocate_tensors es in
      Ret (b :: bs)
  end.

(** Of the descriptor, the lengths, the kinds of buffers and the metadata. *)
Definition tensorpipeAllocate (m : tp_message) : outcome ReadBuffers :=
  match payloads m with
  | [ty; id; payload; program] =>
      check! (length ty =? sizeof_MessageType)%nat else AssertFailed "first payload expected to contain " in
      check! (length id =? sizeof_int64)%nat else AssertFailed "second payload expected to contain " in
      let? ts := allocate_tensors (tp_tensors m) in
      Ret (mkReadBuffers (repeat x00 sizeof_MessageType) (repeat x00 sizeof_int64)
             (repeat x00 (length payload)) (repeat x00 (length program)) ts)
  | _ => Throw (AssertFailed "message expected to contain 4 payloads, whereas it contained ")
  end.

(** Where the memory on a device is read from the pipe. *)
Definition tensorReadFunc (bs : list (device * bytes)) (ename : bytes) : outcome (device * bytes) :=
  let? index := stoll ename in
  match bs !! Z.to_nat index with
  | Some b => if 0 <=? index then Ret b else Throw (OutOfRange "vector::at")
  | None => Throw (OutOfRange "vector::at")
  end.

(** pickleReadFunc: a read of [n] bytes at [picklePos]. *)
Definition pickleReadFunc (pickleData : bytes) (n : nat) : M nat bytes :=
  let! picklePos := gets id in
  if (length pickleData <=? picklePos)%nat || (n =? 0)%nat then ret []
  else
    let toCopy := (Nat.min (picklePos + n) (length pickleData) - picklePos)%nat in
    do! modify (fun pos => (pos + toCopy)%nat) in
    ret (take toCopy (drop picklePos pickleData)).

Fixpoint check_devices (i : nat) (es : list tp_tensor) (ts : list T) : outcome unit :=
  match es with
  | [] => Ret tt
  | e :: es =>
      let? _ :=
        match metadata e with
        | [] => Ret tt
        | _ =>
            match ts !! i with
            | None => Throw (Undefined "tensors[i]")
            | Some t =>
                let? index := stoi (metadata e) in
                ocheck (bool_decide (device_of t = indexToDevice index)) (AssertFailed "Tensor ")
            end
        end in
      check_devices (Datatypes.S i) es ts
  end.

Definition tensorpipeDeserialize (message : tp_message) (buffers : ReadBuffers) : outcome (Message T) :=
  let? ts := unpickle (rb_pickle buffers) (tensorReadFunc (rb_tensors buffers)) in
  let? _ := check_devices 0 (tp_tensors message) ts in
  Ret (mkMessage T (rb_payload buffers) ts (MessageType_of_value (le_value (rb_type buffers)))
         (int64 (le_value (rb_id buffers)))).
End messages.

(** ** Properties *)

Section names_agree.
Context {S : Type} (store_ : StoreOps S) `{!StoreSpec store_}.
(** The names of the workers, of which there are [n]; this one is [self]. *)
Variables (name : Z -> bytes) (self n : Z).
#[local] Set Default Proof Using "Type".
#[local] Set Proof Using Clear Unused.

Definition names_distinct : Prop := forall i j, 0 <= i < n -> 0 <= j < n -> name i = name j -> i = j.
Definition rank_key (j : Z) : bytes := PrefixStore.joinKey kNames (to_string j).
(** The other workers have set their names. *)
Definition names_set (s : S) : Prop :=
  forall j, 0 <= j < n -> j <> self -> view s (rank_key j) = Some (name j).

(** The workers entered when the loop is at [k]. *)
Definition entered (k j : Z) : Prop := 0 <= j < n /\ (j < k \/ j = self).
Definition worker (j : Z) : WorkerInfo := mkWorkerInfo (name j) j.
Record collected (k : Z) (t : name_tables) : Prop := {
  cl_id : forall j i, t.1 !! j = Some i <-> entered k j /\ i = worker j;
  cl_name : forall nm i, t.2 !! nm = Some i <-> exists j, entered k j /\ nm = name j /\ i = worker j;
}.

Lemma collected_self k t : collected k t -> k = self -> collected (k + 1) t.
Proof.
  intros [H1 H2] ->. assert (He : forall j, entered self j <-> entered (self + 1) j) by (unfold entered; lia).
  split; [setoid_rewrite H1|setoid_rewrite H2]; by setoid_rewrite He.
Qed.
Lemma collected_next k t : collected k t -> 0 <= k < n -> k <> self -> t.2 !! name k = None ->
  collected (k + 1) (emplace k (worker k) t.1, emplace (name k) (worker k) t.2).
Proof.
  intros [H1 H2] Hk Hself Hnew.
  assert (He : forall j, entered (k + 1) j <-> entered k j \/ j = k) by (unfold entered; lia).
  assert (t.1 !! k = None) as Hk1.
  { destruct (t.1 !! k) eqn:E; [|done]. apply H1 in E as [E _]. unfold entered in E. lia. }
  unfold emplace. split; simpl; [rewrite Hk1|rewrite Hnew].
  - intros j i. rewrite lookup_insert_Some, He, H1. destruct (decide (j = k)) as [->|]; naive_solver.
  - intros nm i. rewrite lookup_insert_Some, H2. setoid_rewrite He. split.
    + intros [[<- <-]|[Hne (j & ? & ? & ?)]]; [exists k; tauto|exists j; tauto].
    + intros (j & [Hj| ->] & -> & ->); [|by left]. right. split; [|by exists j].
      intros E. assert (t.2 !! name j = Some (worker j)) as Hl by (apply H2; by exists j). congruence.
Qed.

Definition names_ok : Prop := 0 <= self < n /\ n <= 32767 /\
  (forall j, 0 <= j < n -> key_ok (rank_key j) /\ WorkerInfo_small (name j) j = Ret (worker j)).

(** The names seen so far differ. *)
Definition distinct_to (k : Z) : Prop := forall i j, entered k i -> entered k j -> name i = name j -> i = j.

Lemma collect_loop_ok fuel : forall k t s, names_ok -> inv s -> names_set s -> 0 <= k <= n ->
  (Z.to_nat (n - k) < fuel)%nat -> collected k t -> distinct_to k ->
  exists s', (exists t', collect_loop store_ fuel self n k t s = (Ret t', s') /\ collected n t' /\ names_distinct) \/
    (collect_loop store_ fuel self n k t s = (Throw (CheckFailed "RPC worker name "), s') /\ ~ names_distinct).
Proof.
  induction fuel as [|fuel IH]; intros k t s Hok Hi Hs Hk Hf Hc Hd; [lia|]. simpl.
  pose proof Hok as (Hself & Hmax & Hw).
  destruct (Z.ltb_spec k n) as [Hlt|Hge].
  - rewrite int16_id by (unfold in_int16; lia). destruct (Z.eqb_spec k self) as [Hks|Hks].
    + apply IH; try done; try lia; [by apply collected_self|]. subst. unfold distinct_to, entered in *.
      intros i j Hin Hjn. apply Hd; lia.
    + destruct (Hw k ltac:(lia)) as [Hkey Hinfo].
      destruct (get_law s (rank_key k) (name k) Hi Hkey (Hs k ltac:(lia) Hks)) as (s1 & E & Hi1 & V).
      rewrite (bind_run _ _ s (name k) s1 E). unfold bind, assert_, lift, ocheck.
      case_bool_decide as Hnew; simpl.
      * unfold emplace_worker. rewrite Hinfo. simpl. apply IH; try done; try lia.
        -- intros j Hj Hjs. rewrite V. by apply Hs.
        -- apply collected_next; done || lia.
        -- assert (forall j, entered k j -> name j <> name k) as Hfresh.
           { intros j Hj E'. assert (t.2 !! name j = Some (worker j)) as Hl by (apply (cl_name _ _ Hc); by exists j). congruence. }
           assert (He : forall j, entered (k + 1) j -> entered k j \/ j = k) by (unfold entered; lia).
           intros i j [Hin| ->]%He [Hjn| ->]%He E'; [by apply Hd|by destruct (Hfresh i)|by destruct (Hfresh j)|done].
      * exists s1. right. split; [done|]. intros Hdist. destruct (t.2 !! name k) as [i|] eqn:El; [|done].
        apply (cl_name _ _ Hc) in El as (j & Hj & Hn & _). unfold entered in Hj.
        assert (k = j) by (apply Hdist; lia || done). lia.
  - exists s. left. exists t. split; [done|]. assert (k = n) as -> by lia. split; [done|].
    intros i j Hin Hjn. apply Hd; unfold entered; lia.
Qed.

(** CollectNames: when the other workers have set their names in the store, every worker ends up with the same tables, which map the ids 0 to worldSize-1 to the workers and their names to the same workers; when two workers have the same name, the constructor throws instead. *)
Theorem tp_names_agree (s : S) :
  names_ok -> inv s -> val_ok (name self) -> names_set s ->
  let r := fst (collectNames store_ (name self) self n s) in
  (names_distinct -> exists t, r = Ret t /\
    (forall id i, t.1 !! id = Some i <-> 0 <= id < n /\ i = mkWorkerInfo (name id) id) /\
    (forall nm i, t.2 !! nm = Some i <-> exists id, 0 <= id < n /\ nm = name id /\ i = mkWorkerInfo (name id) id)) /\
  (~ names_distinct -> r = Throw (CheckFailed "RPC worker name ")).
Proof.
  intros Hok Hi Hv Hs. cbv zeta. pose proof Hok as (Hself & Hmax & Hw).
  destruct (Hw self Hself) as [Hkey Hinfo].
  destruct (set_law s (rank_key self) (name self) Hi Hkey Hv) as (s1 & E & Hi1 & V).
  set (t0 := (emplace self (worker self) ∅, emplace (name self) (worker self) ∅)).
  assert (collectNames store_ (name self) self n s = collect_loop store_ (Datatypes.S (Z.to_nat n)) self n 0 t0 s1) as ->.
  { unfold collectNames. rewrite (bind_run _ _ s tt s1 E). unfold emplace_worker. by rewrite Hinfo. }
  destruct (collect_loop_ok (Datatypes.S (Z.to_nat n)) 0 t0 s1)
    as (s2 & [(t & E2 & Hc & Hd)|[E2 Hd]]); try done; try lia.
  - intros j Hj Hjs. rewrite V. case_decide as Hjk; [|by apply Hs]. apply PrefixStore.joinKey_inj in Hjk.
    apply to_string_inj in Hjk; [done|unfold in_int64; lia..].
  - unfold t0, emplace. rewrite !lookup_empty. split; simpl.
    + intros j i. rewrite lookup_insert_Some, lookup_empty. unfold entered. naive_solver lia.
    + intros nm i. rewrite lookup_insert_Some, lookup_empty. unfold entered. split; [|naive_solver lia].
      intros [[<- <-]|[_ ?]]; [|done]. exists self. naive_solver lia.
  - intros i j ? ? _. unfold entered in *. lia.
  - rewrite E2. split; [|done]. intros _. exists t. split; [done|]. destruct Hc as [H1 H2]. unfold entered, worker in *.
    split; [intros id i; rewrite H1; naive_solver lia|]. intros nm i. rewrite H2. naive_solver lia.
  - rewrite E2. split; [by intros H; destruct (Hd H)|intros _; reflexivity].
Qed.
End names_agree.

(** Two workers of three have set their names. *)
Definition ex_names (j : Z) : bytes := if j =? 0 then str "ps" else if j =? 1 then str "trainer:1" else str "trainer:2".
Definition ex_store : HashStore.t :=
  HashStore.set_map (<[rank_key 0 := ex_names 0]> (<[rank_key 2 := ex_names 2]> ∅)) (HashStore.init 0).
Lemma tp_names_agree_witness :
  exists t, fst (collectNames HashStore.ops (ex_names 1) 1 3 ex_store) = Ret t /\
    t.1 !! 2 = Some (mkWorkerInfo (str "trainer:2") 2).
Proof.
  destruct (proj1 (tp_names_agree HashStore.ops ex_names 1 3 ex_store
    ltac:(split; [lia|]; split; [lia|]; intros j Hj; split; [exact I|];
          assert (j = 0 \/ j = 1 \/ j = 2) as [-> |[-> | ->]] by lia; vm_compute; reflexivity)
    I I ltac:(intros j Hj Hn; assert (j = 0 \/ j = 2) as [-> | ->] by lia; vm_compute; reflexivity))
    ltac:(intros i j Hi Hj E; assert (i = 0 \/ i = 1 \/ i = 2) as [-> |[-> | ->]] by lia;
          assert (j = 0 \/ j = 1 \/ j = 2) as [-> |[-> | ->]] by lia; first [reflexivity|vm_compute in E; discriminate E]))
    as (t & E & H1 & _).
  exists t. split; [exact E|]. apply H1. split; [lia|reflexivity].
Defined.

Section message_roundtrip.
Context {T : Type} (device_of : T -> device).
Variables (has_storage : T -> bool) (storage_nbytes element_size numel : T -> Z).
Variable clone : T -> T.
Variable pickle : list T -> bytes * list T.
Variables (tensor_bytes : T -> bytes) (storageHasDeleter : T -> bool).
Variable unpickle : bytes -> (bytes -> outcome (device * bytes)) -> outcome (list T).
(** The tensor with its memory on a device. *)
Variable moved : T -> device -> T.
#[local] Set Default Proof Using "Type".
#[local] Set Proof Using Clear Unused.

(** The pickler sets the tensors aside in order; the unpickler takes the memory
    of the i-th tensor from the reader. *)
Record pickler_laws : Prop := {
  pl_tensors : forall ts, (pickle ts).2 = ts;
  pl_restore : forall ts ds reader, length ds = length ts ->
    (forall i t d, ts !! i = Some t -> ds !! i = Some d -> reader (to_string (Z.of_nat i)) = Ret (d, tensor_bytes t)) ->
    unpickle (pickle ts).1 reader = Ret (zip_with moved ts ds);
  pl_device : forall t d, device_of (moved t d) = d;
  pl_clone : forall t, device_of (clone t) = device_of t;
}.

(** TensorPipe has read the message [m] into the buffers [b]. *)
Definition received (m : tp_message) (b got : ReadBuffers) : Prop :=
  payloads m = [rb_type got; rb_id got; rb_payload got; rb_pickle got] /\
  rb_tensors got = zip_with (fun e p => (p.1, buffer_data (buffer e))) (tp_tensors m) (rb_tensors b).

Section sent.
Variable deviceMap : DeviceMap.
Definition index_for (t : T) : Z := default (-1) (deviceMap !! device_index (device_of t)).
(** Where the tensor arrives. *)
Definition target (t : T) : device := if is_cpu (device_of t) then Cpu else Cuda (index_for t).
Definition metadata_for (t : T) : bytes := if is_cpu (device_of t) then [] else to_string (index_for t).
Definition entry_for (t : T) : tp_tensor :=
  mkTpTensor (if is_cpu (device_of t) then CpuBuffer (tensor_bytes t) else CudaBuffer (tensor_bytes t)) (metadata_for t).

(** The tensors that can be sent: on the CPU, or on a CUDA device with an index
    of the peer, in memory of their own. *)
Definition sendable (t : T) : Prop :=
  match device_of t with
  | Cpu => True
  | Cuda i => storageHasDeleter t = true /\ exists j, deviceMap !! i = Some j /\ 0 <= j < 2 ^ 31
  | OtherDevice _ => False
  end.

Lemma lookup_devices_ok ts r : lookup_devices device_of ts deviceMap = Ret r ->
  r.1 = map (fun t => if is_cpu (device_of t) then -1 else index_for t) ts /\
  r.2 = negb (forallb (fun t => is_cpu (device_of t)) ts).
Proof.
  revert r. induction ts as [|t ts IH]; simpl; intros r; [by intros [= <-]|]. unfold index_for.
  destruct (is_cpu (device_of t)); simpl.
  - destruct (lookup_devices device_of ts deviceMap) as [r'| |]; simpl; [|done..]. intros [= <-].
    destruct (IH r' eq_refl) as [-> ->]. done.
  - destruct (deviceMap !! _); [|done].
    destruct (lookup_devices device_of ts deviceMap) as [r'| |]; simpl; [|done..]. intros [= <-].
    destruct (IH r' eq_refl) as [-> _]. done.
Qed.

Lemma sendable_index t : sendable t -> is_cpu (device_of t) = false ->
  exists i, device_of t = Cuda i /\ storageHasDeleter t = true /\ 0 <= index_for t < 2 ^ 31.
Proof.
  unfold sendable, index_for. destruct (device_of t) as [|i|]; [done| |done]. simpl.
  intros [H1 (j & -> & Hj)] _. by exists i.
Qed.

(** The metadata of the i-th tensor is the one for its device. *)
Lemma metadata_ok ts indices i t : getDevicesForTensors device_of ts deviceMap = Ret indices ->
  Forall sendable ts -> ts !! i = Some t -> tensor_metadata indices i = Ret (metadata_for t).
Proof.
  unfold getDevicesForTensors. intros H Hs Ht.
  destruct (lookup_devices device_of ts deviceMap) as [r| |] eqn:E; simpl in H; simplify_eq.
  destruct (lookup_devices_ok _ _ E) as [E1 E2]. unfold metadata_for. destruct r.2.
  - rewrite E1. unfold tensor_metadata. destruct (map _ ts) eqn:Em; [by destruct ts|]. rewrite <- Em.
    rewrite list_lookup_fmap, Ht. simpl. destruct (is_cpu (device_of t)) eqn:Ec; [done|].
    pose proof (proj1 (Forall_lookup _ _) Hs i t Ht) as Hst.
    destruct (sendable_index t Hst Ec) as (_ & _ & _ & Hi). by rewrite (proj2 (Z.eqb_neq _ _)) by lia.
  - symmetry in E2. apply negb_false_iff, forallb_forall with (x := t) in E2; [by rewrite E2|].
    apply list_elem_of_In. by eapply list_elem_of_lookup_2.
Qed.

Lemma write_tensor_ok indices i t : sendable t -> tensor_metadata indices i = Ret (metadata_for t) ->
  write_tensor device_of tensor_bytes storageHasDeleter indices i t = Ret (entry_for t).
Proof.
  intros Ht H0. unfold write_tensor, entry_for. rewrite H0. simpl. destruct (is_cpu (device_of t)) eqn:Ec.
  - assert (device_of t = Cpu) as -> by (by destruct (device_of t)). by destruct (storageHasDeleter t).
  - by destruct (sendable_index t Ht Ec) as (d & -> & -> & _).
Qed.
Lemma write_tensors_ok indices ts : Forall sendable ts -> forall i,
  (forall k t, ts !! k = Some t -> tensor_metadata indices (i + k) = Ret (metadata_for t)) ->
  write_tensors device_of tensor_bytes storageHasDeleter indices i ts = Ret (map entry_for ts).
Proof.
  induction 1 as [|t ts Ht _ IH]; intros i Hm; simpl; [done|].
  pose proof (Hm 0%nat t eq_refl) as H0. rewrite Nat.add_0_r in H0. rewrite (write_tensor_ok _ _ _ Ht H0). simpl.
  rewrite IH; [done|]. intros k t' Hk. replace (Datatypes.S i + k)%nat with (i + Datatypes.S k)%nat by lia. by apply Hm.
Qed.

Lemma allocate_tensors_ok ts : Forall sendable ts ->
  allocate_tensors (map entry_for ts) = Ret (map (fun t => (target t, repeat x00 (length (tensor_bytes t)))) ts).
Proof.
  induction 1 as [|t ts Ht _ IH]; simpl; [done|]. rewrite IH. unfold allocate_tensor, entry_for, target, metadata_for.
  destruct (is_cpu (device_of t)) eqn:Ec; simpl; [done|].
  destruct (sendable_index t Ht Ec) as (_ & _ & _ & Hi). rewrite stoi_to_string by (unfold in_int32; lia). done.
Qed.

Lemma check_devices_ok ts : forall i ts', Forall sendable ts -> 
  (forall k t, ts !! k = Some t -> exists t', ts' !! (i + k)%nat = Some t' /\ device_of t' = target t) ->
  check_devices device_of i (map entry_for ts) ts' = Ret tt.
Proof.
  induction ts as [|t ts IH]; intros i ts' Hs Hd; simpl; [done|]. apply Forall_cons in Hs as [Ht Hs].
  assert (Hrest : check_devices device_of (Datatypes.S i) (map entry_for ts) ts' = Ret tt).
  { apply IH; [done|]. intros k t' Hk. destruct (Hd (Datatypes.S k) t' Hk) as (u & Hu & E). exists u. split; [|done].
    by replace (Datatypes.S i + k)%nat with (i + Datatypes.S k)%nat by lia. }
  destruct (Hd 0%nat t eq_refl) as (u & Hu & E). rewrite Nat.add_0_r in Hu. unfold metadata_for, target in *.
  destruct (is_cpu (device_of t)) eqn:Ec; simpl; [done|].
  destruct (sendable_index t Ht Ec) as (_ & _ & _ & Hi).
  destruct (to_string (index_for t)) as [|b l] eqn:Es; [by apply to_string_nonempty in Es|]. rewrite <- Es, Hu.
  rewrite stoi_to_string by (unfold in_int32; lia). simpl. unfold indexToDevice.
  rewrite (proj2 (Z.eqb_neq _ _)) by lia. by rewrite bool_decide_true.
Qed.
End sent.

Lemma lookup_devices_map f ts deviceMap : (forall t, device_of (f t) = device_of t) ->
  lookup_devices device_of (map f ts) deviceMap = lookup_devices device_of ts deviceMap.
Proof. intros H. induction ts as [|t ts IH]; simpl; [done|]. by rewrite H, IH. Qed.

Lemma four_inj (a b c d a' b' c' d' : bytes) : [a; b; c; d] = [a'; b'; c'; d'] -> a = a' /\ b = b' /\ c = c' /\ d = d'.
Proof. by intros [= -> -> -> ->]. Qed.
Lemma zip_with_fmap_r_map f ts : zip_with moved ts (map f ts) = map (fun t => moved t (f t)) ts.
Proof. induction ts as [|t ts IH]; simpl; [done|]. by rewrite IH. Qed.
Lemma int64_uint64 z : in_int64 z -> int64 (uint64 z mod 256 ^ Z.of_nat sizeof_int64) = z.
Proof.
  intros Hz. unfold sizeof_int64, uint64, wrap, int64, swrap. change (256 ^ Z.of_nat 8) with (2 ^ 64).
  rewrite !Z.mod_mod by lia. apply (int64_id z Hz).
Qed.

Abbreviation cloned := (cloneSparseTensors has_storage storage_nbytes element_size numel clone).

(** The metadata that goes with the indices of getDevicesForRemote. *)
Lemma remote_metadata maps reverseMaps remote msg indices i t : pickler_laws ->
  let deviceMap := default ∅ ((if isRequest msg then maps else reverseMaps) !! remote) in
  Forall (sendable deviceMap) (cloned (tensors msg)) ->
  getDevicesForRemote device_of maps reverseMaps remote msg = Ret indices -> cloned (tensors msg) !! i = Some t ->
  tensor_metadata indices i = Ret (metadata_for deviceMap t).
Proof.
  intros Hp deviceMap Hs Hd Ht. unfold getDevicesForRemote in Hd. subst deviceMap.
  assert (Hdev : forall t, device_of (if worthRecopying has_storage storage_nbytes element_size numel t then clone t else t) = device_of t)
    by (intros u; destruct (worthRecopying _ _ _ _ u); [apply (pl_clone Hp)|done]).
  destruct ((if isRequest msg then maps else reverseMaps) !! remote) as [dm|]; simpl in *.
  - apply (metadata_ok dm (cloned (tensors msg))); [|done|done]. unfold getDevicesForTensors, cloneSparseTensors in *.
    by rewrite (lookup_devices_map _ (tensors msg) dm Hdev).
  - destruct (forallb _ (tensors msg)) eqn:Ec; simpl in Hd; simplify_eq. unfold metadata_for.
    unfold cloneSparseTensors in Ht. rewrite list_lookup_fmap in Ht. destruct (tensors msg !! i) as [u|] eqn:Eu; simplify_eq/=.
    rewrite Hdev. by rewrite (proj1 (forallb_forall _ _) Ec u) by (apply list_elem_of_In; by eapply list_elem_of_lookup_2).
Qed.

End message_roundtrip.

(** A pickler that keeps one byte per tensor, for tensors that are memory on a
    device. *)
Definition ex_tensor : Type := (device * bytes)%type.
Definition ex_pickle (ts : list ex_tensor) : bytes * list ex_tensor := (map (fun _ => x00) ts, ts).
Fixpoint ex_restore (i : nat) (program : bytes) (reader : bytes -> outcome ex_tensor) : outcome (list ex_tensor) :=
  match program with
  | [] => Ret []
  | _ :: program =>
      let? t := reader (to_string (Z.of_nat i)) in
      let? ts := ex_restore (Datatypes.S i) program reader in
      Ret (t :: ts)
  end.
Definition ex_moved (t : ex_tensor) (d : device) : ex_tensor := (d, t.2).

Lemma ex_pickler_laws : pickler_laws fst (fun t => t) ex_pickle snd (ex_restore 0) ex_moved.
Proof.
  split; [done| |done|done]. intros ts ds reader Hl. unfold ex_pickle. simpl.
  assert (Hg : forall k, (forall i t d, ts !! i = Some t -> ds !! i = Some d ->
      reader (to_string (Z.of_nat (k + i))) = Ret (d, t.2)) ->
    ex_restore k (map (fun _ => x00) ts) reader = Ret (zip_with ex_moved ts ds)); [|by apply (Hg 0%nat)].
  revert ds Hl. induction ts as [|t ts IH]; intros [|d ds] Hl k Hk; [done|done|done|]. simpl.
  pose proof (Hk 0%nat t d eq_refl eq_refl) as H0. rewrite Nat.add_0_r in H0. rewrite H0. simpl.
  rewrite (IH ds); [done| |]; [by injection Hl|]. intros i t' d' Ht Hd.
  replace (Datatypes.S k + i)%nat with (k + Datatypes.S i)%nat by lia. by apply (Hk (Datatypes.S i)).
Qed.

Definition ex_maps : gmap bytes DeviceMap := {[ str "trainer" := {[ 0 := 2 ]} ]}.
Definition ex_message : Message ex_tensor := mkMessage _ (str "hi") [(Cpu, str "ab"); (Cuda 0, str "c")] SCRIPT_CALL 7.
