(* ===== verification/TensorPipeAgent.v ===== *)
(** * The TensorPipe agent: requests

    Models the part of csrc/c10d/distributed/rpc/tensorpipe_agent.cpp and
    tensorpipe_agent.h that deals with requests: send() with the callbacks of its
    pipe, the requests of other workers, the thread that times requests out, the
    counts of active calls, join() and shutdown.

    Several threads run at the same time: user threads and handlers that call
    send(), TensorPipe's event loop, the thread pool and the time-out thread.  A
    thread is a program counter; one of its steps goes from one critical section to
    the next, so that a step is what happens while one mutex is held.  The
    callCountMutex_ is held by join() during its allreduce and the
    timeoutMapMutex_ by the time-out thread between its test and its wait; a step
    that needs a mutex held by another thread is not possible ([Block]).  A callback
    of TensorPipe's event loop is one step, although it takes mutex_, the mutex of
    the pool and timeoutMapMutex_ in turn.

    TensorPipe reports the completion of a write, the arrival of a message or an
    error as an event, in the order in which the operations were started on a pipe.
    What a message becomes on the wire is in the file TensorPipe. *)

From stdpp Require Import base option list gmap strings.
From Stdlib Require Import ZArith Lia.
From S2P Require Import Prelude Decimal RpcTypes Wire RpcAgent TensorPipe.
Import Decimal.
#[local] Set Warnings "-clear-no-such-hyp".

Section agent.
Context {T : Type} (device_of : T -> device).

(** ** Data *)

Inductive fut_result : Type :=
  | FValue (message : Message T)
  | FError (what : bytes).

Record AtomicJitFuture := mkFuture { isComplete : bool; jitFuture : option fut_result }.

Record TimeoutMessageMetadata := mkTimeout { messageId : Z; responseFuture : nat; timeout : Z }.

(** A pipe to another worker.  The callbacks that wait: of a write with the id and
    the expiration time of the request, of a read with the expiration time that
    its closure has captured.  TensorPipe reports errors from the first one on. *)
Record ClientPipe := mkPipe {
  url : bytes;
  remoteName : bytes;
  readError_ : bool;
  pendingResponseMessage_ : gmap Z nat;
  writes : list (Z * Z);
  reads : list Z;
  broken : bool;
}.
Definition upd_pending (f : gmap Z nat -> gmap Z nat) (p : ClientPipe) : ClientPipe :=
  mkPipe (url p) (remoteName p) (readError_ p) (f (pendingResponseMessage_ p)) (writes p) (reads p) (broken p).
Definition upd_writes (f : list (Z * Z) -> list (Z * Z)) (p : ClientPipe) : ClientPipe :=
  mkPipe (url p) (remoteName p) (readError_ p) (pendingResponseMessage_ p) (f (writes p)) (reads p) (broken p).
Definition upd_reads (f : list Z -> list Z) (p : ClientPipe) : ClientPipe :=
  mkPipe (url p) (remoteName p) (readError_ p) (pendingResponseMessage_ p) (writes p) (f (reads p)) (broken p).
Definition set_broken (p : ClientPipe) : ClientPipe :=
  mkPipe (url p) (remoteName p) (readError_ p) (pendingResponseMessage_ p) (writes p) (reads p) true.
Definition set_readError_ (p : ClientPipe) : ClientPipe :=
  mkPipe (url p) (remoteName p) true (pendingResponseMessage_ p) (writes p) (reads p) (broken p).

(** A pipe from another worker. *)
Record ServerPipe := mkServerPipe { sp_remoteName : bytes; armed : bool }.

(** Where a call of send() is: [SRegistered] has left the section of mutex_,
    [SCounted] has increased the count, [STimed] has entered the time-out. *)
Inductive call : Type :=
  | SRegistered (to : Z) (f : nat) (message : Message T) (rpcTimeoutMs : option Z) (deviceMap : DeviceMap)
  | SCounted (to : Z) (f : nat) (message : Message T) (rpcTimeoutMs : option Z) (devices : list Z)
  | STimed (to : Z) (f : nat) (message : Message T) (devices : list Z) (expirationTime : Z).

(** What a thread does: a user thread; a task that completes a future, before and
    after markCompleted() or setError(); and the stages of a request of another
    worker (pipe and id). *)
Inductive task : Type :=
  | TUser
  | TMark (f : nat) (r : fut_result)
  | TMarked (f : nat)
  | TCount (pipe : nat) (message : Message T)   (* increaseCallCount(serverActiveCalls_) *)
  | TRequest (pipe : nat) (message : Message T)   (* queued in the pool *)
  | TServing (pipe : nat) (id : Z)   (* in cb_ *)
  | TReply (pipe : nat) (id : Z) (r : Message T + bytes)   (* decreaseCallCount(serverActiveCalls_) *)
  | TAsync (pipe : nat) (id : Z)   (* increaseCallCount(serverActiveAsyncCalls_) *)
  | TWaiting (pipe : nat) (id : Z)   (* the callback is attached *)
  | TDone (pipe : nat) (id : Z) (r : Message T + bytes)   (* the callback, before its first count *)
  | TDoneAsync (pipe : nat) (id : Z) (r : Message T + bytes)   (* before its second count *)
  | TRespond (pipe : nat) (id : Z) (r : Message T + bytes).   (* sendCompletedResponseMessage *)
Record thread := mkThread { task_ : task; sending : option call }.

(** The time-out thread: not started; about to test under the mutex; about to wait,
    with the mutex; waiting, until a time or a notification; with the futures it
    took from the map. *)
Inductive timer : Type :=
  | TimerNone
  | TimerTest
  | TimerHolds (until : option Z)
  | TimerWaits (until : option Z)
  | TimerMarks (timedOutFutures : list TimeoutMessageMetadata)
  | TimerExited.

(** join(): waiting for the count to be zero, in the barrier, in the allreduce. *)
Inductive join_pc : Type := JoinNone | JoinWaits | JoinBarrier | JoinHolds | JoinDone.
(** shutdown(): the flag is reset, the thread notified and joined, the context
    joined. *)
Inductive shutdown_pc : Type := ShutNone | ShutFlag | ShutNotified | ShutJoined | ShutContext | ShutDone.

#[global] Instance join_pc_eq_dec : EqDecision join_pc.
Proof. solve_decision. Defined.
#[global] Instance shutdown_pc_eq_dec : EqDecision shutdown_pc.
Proof. solve_decision. Defined.

Record tp_agent := mkAgent {
  workerInfo_ : WorkerInfo;
  opts_ : TensorPipeRpcBackendOptions;
  reverseDeviceMaps_ : gmap bytes DeviceMap;
  workerNameToURL_ : gmap bytes bytes;
  running_ : bool;   (* rpcAgentRunning_ *)
  connectedPipes_ : gmap Z ClientPipe;
  nextMessageID_ : Z;   (* uint64_t *)
  futures : list AtomicJitFuture;
  abandoned : list nat;   (* futures of calls of send() that threw after they were registered *)
  timeoutMap_ : gmap Z (list TimeoutMessageMetadata);   (* std::map, by time *)
  timeoutThread_ : timer;
  clientActiveCalls_ : Z;   (* int32_t *)
  serverActiveCalls_ : Z;
  serverActiveAsyncCalls_ : Z;
  threads : list thread;   (* user threads, the event loop and the thread pool *)
  listening : bool;   (* listener_ has an accept() armed *)
  serverPipes : list ServerPipe;
  join_ : join_pc;
  shutdown_ : shutdown_pc;
  requests : list (Z * Message T * list Z);   (* handed to the pipes: worker, message, devices *)
  responses : list (nat * Message T * list Z);   (* handed to the pipes to clients *)
}.

Definition upd_workerInfo_ (f : WorkerInfo -> WorkerInfo) (s : tp_agent) : tp_agent := mkAgent (f
    (workerInfo_ s)) (opts_ s) (reverseDeviceMaps_ s) (workerNameToURL_ s) (running_ s)
    (connectedPipes_ s) (nextMessageID_ s) (futures s) (abandoned s) (timeoutMap_ s)
    (timeoutThread_ s) (clientActiveCalls_ s) (serverActiveCalls_ s) (serverActiveAsyncCalls_ s)
    (threads s) (listening s) (serverPipes s) (join_ s) (shutdown_ s) (requests s) (responses s).
Definition upd_opts_ (f : TensorPipeRpcBackendOptions -> TensorPipeRpcBackendOptions) (s :
    tp_agent) : tp_agent := mkAgent (workerInfo_ s) (f (opts_ s)) (reverseDeviceMaps_ s)
    (workerNameToURL_ s) (running_ s) (connectedPipes_ s) (nextMessageID_ s) (futures s)
    (abandoned s) (timeoutMap_ s) (timeoutThread_ s) (clientActiveCalls_ s) (serverActiveCalls_ s)
    (serverActiveAsyncCalls_ s) (threads s) (listening s) (serverPipes s) (join_ s) (shutdown_ s)
    (requests s) (responses s).
Definition upd_reverseDeviceMaps_ (f : gmap bytes DeviceMap -> gmap bytes DeviceMap) (s :
    tp_agent) : tp_agent := mkAgent (workerInfo_ s) (opts_ s) (f (reverseDeviceMaps_ s))
    (workerNameToURL_ s) (running_ s) (connectedPipes_ s) (nextMessageID_ s) (futures s)
    (abandoned s) (timeoutMap_ s) (timeoutThread_ s) (clientActiveCalls_ s) (serverActiveCalls_ s)
    (serverActiveAsyncCalls_ s) (threads s) (listening s) (serverPipes s) (join_ s) (shutdown_ s)
    (requests s) (responses s).
Definition upd_workerNameToURL_ (f : gmap bytes bytes -> gmap bytes bytes) (s : tp_agent) :
    tp_agent := mkAgent (workerInfo_ s) (opts_ s) (reverseDeviceMaps_ s) (f (workerNameToURL_ s))
    (running_ s) (connectedPipes_ s) (nextMessageID_ s) (futures s) (abandoned s) (timeoutMap_ s)
    (timeoutThread_ s) (clientActiveCalls_ s) (serverActiveCalls_ s) (serverActiveAsyncCalls_ s)
    (threads s) (listening s) (serverPipes s) (join_ s) (shutdown_ s) (requests s) (responses s).
Definition upd_running_ (f : bool -> bool) (s : tp_agent) : tp_agent := mkAgent (workerInfo_ s)
    (opts_ s) (reverseDeviceMaps_ s) (workerNameToURL_ s) (f (running_ s)) (connectedPipes_ s)
    (nextMessageID_ s) (futures s) (abandoned s) (timeoutMap_ s) (timeoutThread_ s)
    (clientActiveCalls_ s) (serverActiveCalls_ s) (serverActiveAsyncCalls_ s) (threads s)
    (listening s) (serverPipes s) (join_ s) (shutdown_ s) (requests s) (responses s).
Definition upd_connectedPipes_ (f : gmap Z ClientPipe -> gmap Z ClientPipe) (s : tp_agent) :
    tp_agent := mkAgent (workerInfo_ s) (opts_ s) (reverseDeviceMaps_ s) (workerNameToURL_ s)
    (running_ s) (f (connectedPipes_ s)) (nextMessageID_ s) (futures s) (abandoned s) (timeoutMap_
    s) (timeoutThread_ s) (clientActiveCalls_ s) (serverActiveCalls_ s) (serverActiveAsyncCalls_
    s) (threads s) (listening s) (serverPipes s) (join_ s) (shutdown_ s) (requests s) (responses
    s).
Definition upd_nextMessageID_ (f : Z -> Z) (s : tp_agent) : tp_agent := mkAgent (workerInfo_ s)
    (opts_ s) (reverseDeviceMaps_ s) (workerNameToURL_ s) (running_ s) (connectedPipes_ s) (f
    (nextMessageID_ s)) (futures s) (abandoned s) (timeoutMap_ s) (timeoutThread_ s)
    (clientActiveCalls_ s) (serverActiveCalls_ s) (serverActiveAsyncCalls_ s) (threads s)
    (listening s) (serverPipes s) (join_ s) (shutdown_ s) (requests s) (responses s).
Definition upd_futures (f : list AtomicJitFuture -> list AtomicJitFuture) (s : tp_agent) :
    tp_agent := mkAgent (workerInfo_ s) (opts_ s) (reverseDeviceMaps_ s) (workerNameToURL_ s)
    (running_ s) (connectedPipes_ s) (nextMessageID_ s) (f (futures s)) (abandoned s) (timeoutMap_
    s) (timeoutThread_ s) (clientActiveCalls_ s) (serverActiveCalls_ s) (serverActiveAsyncCalls_
    s) (threads s) (listening s) (serverPipes s) (join_ s) (shutdown_ s) (requests s) (responses
    s).
Definition upd_abandoned (f : list nat -> list nat) (s : tp_agent) : tp_agent := mkAgent
    (workerInfo_ s) (opts_ s) (reverseDeviceMaps_ s) (workerNameToURL_ s) (running_ s)
    (connectedPipes_ s) (nextMessageID_ s) (futures s) (f (abandoned s)) (timeoutMap_ s)
    (timeoutThread_ s) (clientActiveCalls_ s) (serverActiveCalls_ s) (serverActiveAsyncCalls_ s)
    (threads s) (listening s) (serverPipes s) (join_ s) (shutdown_ s) (requests s) (responses s).
Definition upd_timeoutMap_ (f : gmap Z (list TimeoutMessageMetadata) -> gmap Z (list
    TimeoutMessageMetadata)) (s : tp_agent) : tp_agent := mkAgent (workerInfo_ s) (opts_ s)
    (reverseDeviceMaps_ s) (workerNameToURL_ s) (running_ s) (connectedPipes_ s) (nextMessageID_
    s) (futures s) (abandoned s) (f (timeoutMap_ s)) (timeoutThread_ s) (clientActiveCalls_ s)
    (serverActiveCalls_ s) (serverActiveAsyncCalls_ s) (threads s) (listening s) (serverPipes s)
    (join_ s) (shutdown_ s) (requests s) (responses s).
Definition upd_timeoutThread_ (f : timer -> timer) (s : tp_agent) : tp_agent := mkAgent
    (workerInfo_ s) (opts_ s) (reverseDeviceMaps_ s) (workerNameToURL_ s) (running_ s)
    (connectedPipes_ s) (nextMessageID_ s) (futures s) (abandoned s) (timeoutMap_ s) (f
    (timeoutThread_ s)) (clientActiveCalls_ s) (serverActiveCalls_ s) (serverActiveAsyncCalls_ s)
    (threads s) (listening s) (serverPipes s) (join_ s) (shutdown_ s) (requests s) (responses s).
Definition upd_clientActiveCalls_ (f : Z -> Z) (s : tp_agent) : tp_agent := mkAgent (workerInfo_
    s) (opts_ s) (reverseDeviceMaps_ s) (workerNameToURL_ s) (running_ s) (connectedPipes_ s)
    (nextMessageID_ s) (futures s) (abandoned s) (timeoutMap_ s) (timeoutThread_ s) (f
    (clientActiveCalls_ s)) (serverActiveCalls_ s) (serverActiveAsyncCalls_ s) (threads s)
    (listening s) (serverPipes s) (join_ s) (shutdown_ s) (requests s) (responses s).
Definition upd_serverActiveCalls_ (f : Z -> Z) (s : tp_agent) : tp_agent := mkAgent (workerInfo_
    s) (opts_ s) (reverseDeviceMaps_ s) (workerNameToURL_ s) (running_ s) (connectedPipes_ s)
    (nextMessageID_ s) (futures s) (abandoned s) (timeoutMap_ s) (timeoutThread_ s)
    (clientActiveCalls_ s) (f (serverActiveCalls_ s)) (serverActiveAsyncCalls_ s) (threads s)
    (listening s) (serverPipes s) (join_ s) (shutdown_ s) (requests s) (responses s).
Definition upd_serverActiveAsyncCalls_ (f : Z -> Z) (s : tp_agent) : tp_agent := mkAgent
    (workerInfo_ s) (opts_ s) (reverseDeviceMaps_ s) (workerNameToURL_ s) (running_ s)
    (connectedPipes_ s) (nextMessageID_ s) (futures s) (abandoned s) (timeoutMap_ s)
    (timeoutThread_ s) (clientActiveCalls_ s) (serverActiveCalls_ s) (f (serverActiveAsyncCalls_
    s)) (threads s) (listening s) (serverPipes s) (join_ s) (shutdown_ s) (requests s) (responses
    s).
Definition upd_threads (f : list thread -> list thread) (s : tp_agent) : tp_agent := mkAgent
    (workerInfo_ s) (opts_ s) (reverseDeviceMaps_ s) (workerNameToURL_ s) (running_ s)
    (connectedPipes_ s) (nextMessageID_ s) (futures s) (abandoned s) (timeoutMap_ s)
    (timeoutThread_ s) (clientActiveCalls_ s) (serverActiveCalls_ s) (serverActiveAsyncCalls_ s)
    (f (threads s)) (listening s) (serverPipes s) (join_ s) (shutdown_ s) (requests s) (responses
    s).
Definition upd_listening (f : bool -> bool) (s : tp_agent) : tp_agent := mkAgent (workerInfo_ s)
    (opts_ s) (reverseDeviceMaps_ s) (workerNameToURL_ s) (running_ s) (connectedPipes_ s)
    (nextMessageID_ s) (futures s) (abandoned s) (timeoutMap_ s) (timeoutThread_ s)
    (clientActiveCalls_ s) (serverActiveCalls_ s) (serverActiveAsyncCalls_ s) (threads s) (f
    (listening s)) (serverPipes s) (join_ s) (shutdown_ s) (requests s) (responses s).
Definition upd_serverPipes (f : list ServerPipe -> list ServerPipe) (s : tp_agent) : tp_agent :=
    mkAgent (workerInfo_ s) (opts_ s) (reverseDeviceMaps_ s) (workerNameToURL_ s) (running_ s)
    (connectedPipes_ s) (nextMessageID_ s) (futures s) (abandoned s) (timeoutMap_ s)
    (timeoutThread_ s) (clientActiveCalls_ s) (serverActiveCalls_ s) (serverActiveAsyncCalls_ s)
    (threads s) (listening s) (f (serverPipes s)) (join_ s) (shutdown_ s) (requests s) (responses
    s).
Definition upd_join_ (f : join_pc -> join_pc) (s : tp_agent) : tp_agent := mkAgent (workerInfo_ s)
    (opts_ s) (reverseDeviceMaps_ s) (workerNameToURL_ s) (running_ s) (connectedPipes_ s)
    (nextMessageID_ s) (futures s) (abandoned s) (timeoutMap_ s) (timeoutThread_ s)
    (clientActiveCalls_ s) (serverActiveCalls_ s) (serverActiveAsyncCalls_ s) (threads s)
    (listening s) (serverPipes s) (f (join_ s)) (shutdown_ s) (requests s) (responses s).
Definition upd_shutdown_ (f : shutdown_pc -> shutdown_pc) (s : tp_agent) : tp_agent := mkAgent
    (workerInfo_ s) (opts_ s) (reverseDeviceMaps_ s) (workerNameToURL_ s) (running_ s)
    (connectedPipes_ s) (nextMessageID_ s) (futures s) (abandoned s) (timeoutMap_ s)
    (timeoutThread_ s) (clientActiveCalls_ s) (serverActiveCalls_ s) (serverActiveAsyncCalls_ s)
    (threads s) (listening s) (serverPipes s) (join_ s) (f (shutdown_ s)) (requests s) (responses
    s).
Definition upd_requests (f : list (Z * Message T * list Z) -> list (Z * Message T * list Z)) (s :
    tp_agent) : tp_agent := mkAgent (workerInfo_ s) (opts_ s) (reverseDeviceMaps_ s)
    (workerNameToURL_ s) (running_ s) (connectedPipes_ s) (nextMessageID_ s) (futures s)
    (abandoned s) (timeoutMap_ s) (timeoutThread_ s) (clientActiveCalls_ s) (serverActiveCalls_ s)
    (serverActiveAsyncCalls_ s) (threads s) (listening s) (serverPipes s) (join_ s) (shutdown_ s)
    (f (requests s)) (responses s).
Definition upd_responses (f : list (nat * Message T * list Z) -> list (nat * Message T * list Z))
    (s : tp_agent) : tp_agent := mkAgent (workerInfo_ s) (opts_ s) (reverseDeviceMaps_ s)
    (workerNameToURL_ s) (running_ s) (connectedPipes_ s) (nextMessageID_ s) (futures s)
    (abandoned s) (timeoutMap_ s) (timeoutThread_ s) (clientActiveCalls_ s) (serverActiveCalls_ s)
    (serverActiveAsyncCalls_ s) (threads s) (listening s) (serverPipes s) (join_ s) (shutdown_ s)
    (requests s) (f (responses s)).

Abbreviation op A := (M tp_agent A).
#[local] Set Default Proof Using "Type".
#[local] Set Proof Using Clear Unused.

Definition new_agent (info : WorkerInfo) (opts : TensorPipeRpcBackendOptions) (reverse : gmap bytes DeviceMap)
    (urls : gmap bytes bytes) (users : nat) : tp_agent :=
  mkAgent info opts reverse urls true ∅ 0 [] [] ∅ TimerTest 0 0 0 (replicate users (mkThread TUser None)) true []
    JoinNone ShutNone [] [].

(** ** Mutexes and counts *)

(** Nobody else is in the critical section. *)
Definition lock_callCount : op unit :=
  let! j := gets join_ in
  if bool_decide (j = JoinHolds) then lift Block else ret tt.
Definition lock_timeoutMap : op unit :=
  let! t := gets timeoutThread_ in
  match t with TimerHolds _ => lift Block | _ => ret tt end.

Definition changeCallCount (upd : (Z -> Z) -> tp_agent -> tp_agent) (d : Z) : op unit :=
  do! lock_callCount in
  modify (upd (fun n => int32 (n + d))).
Definition increaseCallCount (upd : (Z -> Z) -> tp_agent -> tp_agent) : op unit := changeCallCount upd 1.
Definition decreaseCallCount (upd : (Z -> Z) -> tp_agent -> tp_agent) : op unit := changeCallCount upd (-1).

Definition set_task (k : nat) (t : task) : op unit := modify (upd_threads (<[k := mkThread t None]>)).
Definition set_call (k : nat) (c : option call) : op unit :=
  modify (upd_threads (alter (fun t => mkThread (task_ t) c) k)).
Definition end_thread (k : nat) : op unit := modify (upd_threads (delete k)).
Definition add_thread (t : task) (s : tp_agent) : tp_agent := upd_threads (fun l => l ++ [mkThread t None]) s.

Definition upd_pipe (to : Z) (f : ClientPipe -> ClientPipe) (s : tp_agent) : tp_agent :=
  upd_connectedPipes_ (alter f to) s.

(** ** Futures *)

(** markFutureAsComplete and markFutureWithError: the flag is set and a task is
    given to the pool, if the flag was not set. *)
Definition markFuture (f : nat) (r : fut_result) (s : tp_agent) : tp_agent :=
  match futures s !! f with
  | Some fut =>
      if isComplete fut then s
      else add_thread (TMark f r) (upd_futures (<[f := mkFuture true (jitFuture fut)]>) s)
  | None => s
  end.
Definition markFutureAsComplete (f : nat) (message : Message T) : tp_agent -> tp_agent := markFuture f (FValue message).
Definition markFutureWithError (f : nat) (errorMsg : bytes) : tp_agent -> tp_agent := markFuture f (FError errorMsg).

(** The task of the pool: markCompleted() or setError() ... *)
Definition run_mark (k f : nat) (r : fut_result) : op unit :=
  let! fut := gets (fun s => futures s !! f) in
  match fut with
  | Some (mkFuture flag None) =>
      do! modify (upd_futures (<[f := mkFuture flag (Some r)]>)) in
      set_task k (TMarked f)
  | Some (mkFuture _ (Some _)) => throw (AssertFailed "Attempting to mark a completed Future as complete again.")
  | None => throw (Undefined "dangling future")
  end.
(** ... and, when the callbacks of the future have run, the count. *)
Definition run_marked (k : nat) : op unit :=
  do! decreaseCallCount upd_clientActiveCalls_ in
  end_thread k.

(** ** Time-outs *)

(** The entries without the first one with the id. *)
Fixpoint erase_first (id : Z) (l : list TimeoutMessageMetadata) : list TimeoutMessageMetadata :=
  match l with
  | [] => []
  | e :: l => if messageId e =? id then l else e :: erase_first id l
  end.
Definition removeFromTimeoutMap (id expirationTime : Z) (m : gmap Z (list TimeoutMessageMetadata)) :
    gmap Z (list TimeoutMessageMetadata) :=
  let l := erase_first id (default [] (m !! expirationTime)) in
  match l with
  | [] => delete expirationTime m
  | _ => <[expirationTime := l]> m
  end.

(** time_point_cast to milliseconds of [now + timeout], in nanoseconds. *)
Definition computeRpcMessageExpiryTime (now timeout : Z) : Z :=
  Z.quot (now + timeout * 10 ^ 6) (10 ^ 6) * 10 ^ 6.

(** notify_one of timeoutThreadCV_. *)
Definition notify_timer (t : timer) : timer := match t with TimerWaits _ => TimerTest | _ => t end.

(** The key of begin(). *)
Definition earliestTimeout (m : gmap Z (list TimeoutMessageMetadata)) : option Z :=
  map_fold (fun t _ acc => Some (match acc with Some u => Z.min t u | None => t end)) None m.

Definition timeout_error (e : TimeoutMessageMetadata) : bytes :=
  makeRPCError (str "RPC ran for more than set timeout (" ++ to_string (timeout e) ++
    str " ms) and will now be marked with an error") 1.

(** A step of pollTimeoutRpcs at the time [now].  A wait ends here when its time
    has come; [EWake] is for the other reasons. *)
Definition pollTimeoutRpcs (now : Z) : op unit :=
  let! pc := gets timeoutThread_ in
  let! running := gets running_ in
  let! m := gets timeoutMap_ in
  match pc with
  | TimerTest =>
      if negb running then modify (upd_timeoutThread_ (fun _ => TimerExited))
      else
        match earliestTimeout m with
        | Some t =>
            if t <=? now then
              do! modify (upd_timeoutMap_ (delete t)) in
              modify (upd_timeoutThread_ (fun _ => TimerMarks (default [] (m !! t))))
            else modify (upd_timeoutThread_ (fun _ => TimerHolds (Some t)))
        | None => modify (upd_timeoutThread_ (fun _ => TimerHolds None))
        end
  | TimerHolds until => modify (upd_timeoutThread_ (fun _ => TimerWaits until))
  | TimerWaits (Some until) => if until <=? now then modify (upd_timeoutThread_ (fun _ => TimerTest)) else lift Block
  | TimerMarks (e :: l) =>
      do! modify (markFutureWithError (responseFuture e) (timeout_error e)) in
      modify (upd_timeoutThread_ (fun _ => TimerMarks l))
  | TimerMarks [] => modify (upd_timeoutThread_ (fun _ => TimerTest))
  | TimerNone | TimerWaits None | TimerExited => lift Block
  end.

(** ** Sending *)

Section sending.
Variable rpcTimeout : Z.   (* getRpcTimeout(), in milliseconds *)

(** Up to the end of the section of mutex_.  The id is that of the future: both
    are counted from 0. *)
Definition send_register (k : nat) (to : WorkerInfo) (requestMessage : Message T) (rpcTimeoutMs : option Z)
    (deviceMap : DeviceMap) : op unit :=
  do! assert_ (isRequest requestMessage) (CheckFailed "TensorPipeAgent::send(..) is only for sending requests.") in
  let! running := gets running_ in
  do! assert_ running (RuntimeError "Node ") in
  let! urls := gets workerNameToURL_ in
  let! address := lift (findWorkerURL urls to) in
  do! modify (upd_connectedPipes_ (emplace (worker_id_ to) (mkPipe address (name_ to) false ∅ [] [] false))) in
  let! f := gets (fun s => length (futures s)) in
  do! modify (upd_futures (fun l => l ++ [mkFuture false None])) in
  let! id := gets nextMessageID_ in
  do! modify (upd_nextMessageID_ (fun n => uint64 (n + 1))) in
  do! modify (upd_pipe (worker_id_ to) (upd_pending (<[id := f]>))) in
  set_call k (Some (SRegistered (worker_id_ to) f (setId (int64 id) requestMessage) rpcTimeoutMs deviceMap)).

(** The devices, which may throw, and the count. *)
Definition send_devices (to : Z) (message : Message T) (deviceMap : DeviceMap) (s : tp_agent) : outcome (list Z) :=
  let remote := match connectedPipes_ s !! to with Some p => remoteName p | None => [] end in
  if bool_decide (deviceMap = ∅)
  then getDevicesForRemote device_of (deviceMaps (opts_ s)) (reverseDeviceMaps_ s) remote message
  else getDevicesForTensors device_of (tensors message) deviceMap.
Definition send_count (k : nat) (to : Z) (f : nat) (message : Message T) (rpcTimeoutMs : option Z) (deviceMap : DeviceMap) : op unit :=
  let! devices := gets (send_devices to message deviceMap) in
  match devices with
  | Ret devices =>
      do! increaseCallCount upd_clientActiveCalls_ in
      set_call k (Some (SCounted to f message rpcTimeoutMs devices))
  | _ =>
      do! modify (upd_abandoned (fun l => l ++ [f])) in
      set_call k None
  end.

Definition send_timeout (now : Z) (k : nat) (to : Z) (f : nat) (message : Message T) (rpcTimeoutMs : option Z) (devices : list Z) : op unit :=
  let t := default rpcTimeout rpcTimeoutMs in
  if t =? 0 then set_call k (Some (STimed to f message devices 0))
  else
    let expirationTime := computeRpcMessageExpiryTime now t in
    do! lock_timeoutMap in
    do! modify (upd_timeoutMap_ (fun m =>
      <[expirationTime := default [] (m !! expirationTime) ++ [mkTimeout (uint64 (id_ message)) f t]]> m)) in
    do! modify (upd_timeoutThread_ notify_timer) in
    set_call k (Some (STimed to f message devices expirationTime)).

(** pipeWrite. *)
Definition send_write (k : nat) (to : Z) (message : Message T) (devices : list Z) (expirationTime : Z) : op unit :=
  do! modify (upd_pipe to (upd_writes (fun l => l ++ [(uint64 (id_ message), expirationTime)]))) in
  do! modify (upd_requests (fun l => l ++ [(to, message, devices)])) in
  set_call k None.

(** The callback of the oldest write of a pipe. *)
Definition on_write (to : Z) (error : option bytes) : op unit :=
  let! pipe := gets (fun s => connectedPipes_ s !! to) in
  match pipe with
  | Some p =>
      match writes p with
      | [] => lift Block
      | (id, expirationTime) :: rest =>
          match error with
          | Some what =>
              do! modify (upd_pipe to (fun p => set_broken (upd_writes (fun _ => rest) p))) in
              match pendingResponseMessage_ p !! id with
              | Some f => modify (markFutureWithError f what)
              | None => ret tt
              end
          | None =>
              if broken p then lift Block
              else modify (upd_pipe to (fun p => upd_reads (fun l => l ++ [expirationTime]) (upd_writes (fun _ => rest) p)))
          end
      end
  | None => lift Block
  end.

(** All futures of a pipe, in the order of its table. *)
Definition markAll (what : bytes) (l : list (Z * nat)) (s : tp_agent) : tp_agent :=
  foldl (fun s e => markFutureWithError e.2 what s) s l.

(** The id of a Message that was default-constructed, as a uint64_t. *)
Definition noMessageId : Z := uint64 (-1).

(** The callback of the oldest read of a pipe. *)
Definition on_read (to : Z) (r : bytes + Message T) : op unit :=
  let! pipe := gets (fun s => connectedPipes_ s !! to) in
  match pipe with
  | Some p =>
      match reads p with
      | [] => lift Block
      | expirationTime :: rest =>
          do! lock_timeoutMap in
          match r with
          | inl what =>
              do! modify (upd_pipe to (fun p => set_broken (set_readError_ (upd_pending (fun _ => ∅) (upd_reads (fun _ => rest) p))))) in
              do! modify (markAll what (map_to_list (pendingResponseMessage_ p))) in
              modify (upd_timeoutMap_ (removeFromTimeoutMap noMessageId expirationTime))
          | inr responseMessage =>
              if broken p then lift Block
              else
                let id := uint64 (id_ responseMessage) in
                do! assert_ (negb (readError_ p)) (AssertFailed "Shouldn't in error state") in
                match pendingResponseMessage_ p !! id with
                | None => throw (AssertFailed "message ID ")
                | Some f =>
                    do! modify (upd_pipe to (fun p => upd_pending (delete id) (upd_reads (fun _ => rest) p))) in
                    do! modify (upd_timeoutMap_ (removeFromTimeoutMap id expirationTime)) in
                    modify (if bool_decide (type_ responseMessage = EXCEPTION)
                            then markFutureWithError f (payload responseMessage)
                            else markFutureAsComplete f responseMessage)
                end
          end
      end
  | None => lift Block
  end.

(** ** Serving *)

(** onListenerAccepted *)
Definition on_accept (r : option bytes) : op unit :=
  let! l := gets listening in
  if l then
    match r with
    | None => modify (upd_listening (fun _ => false))
    | Some name => modify (upd_serverPipes (fun l => l ++ [mkServerPipe name true]))
    end
  else lift Block.

(** The callback of respond() on a pipe: an error, or a request, for which the
    next read is armed before it is dealt with. *)
Definition on_request (pipe : nat) (r : option (Message T)) : op unit :=
  let! p := gets (fun s => serverPipes s !! pipe) in
  match p with
  | Some (mkServerPipe name true) =>
      match r with
      | None => modify (upd_serverPipes (<[pipe := mkServerPipe name false]>))
      | Some message => modify (add_thread (TCount pipe message))
      end
  | _ => lift Block
  end.

(** What cb_ does: it throws, or returns a future that has a result, or one that
    has none yet. *)
Inductive cb_result : Type :=
  | CbThrows (e : exn)
  | CbDone (r : Message T + bytes)
  | CbLater.

Definition sendCompletedResponseMessage (pipe : nat) (id : Z) (r : Message T + bytes) : op unit :=
  let! running := gets running_ in
  if negb running then ret tt
  else
    let! remote := gets (fun s => match serverPipes s !! pipe with Some p => sp_remoteName p | None => [] end) in
    let! maps := gets (fun s => deviceMaps (opts_ s)) in
    let! reverse := gets reverseDeviceMaps_ in
    let answer :=
      match r with
      | inl m =>
          let m := setId id m in
          match getDevicesForRemote device_of maps reverse remote m with
          | Ret devices => (m, devices)
          | Throw e => (createExceptionResponse (str (what e)) id, [])
          | Block => (m, [])
          end
      | inr error => (createExceptionResponse error id, [])
      end in
    modify (upd_responses (fun l => l ++ [(pipe, answer.1, answer.2)])).

(** A step of the [k]-th thread, at the time [now]; [cb] is what the handler of a
    request comes to.  A thread inside send() goes on there. *)
Definition run_call (now : Z) (k : nat) (c : call) : op unit :=
  match c with
  | SRegistered to f message rpcTimeoutMs deviceMap => send_count k to f message rpcTimeoutMs deviceMap
  | SCounted to f message rpcTimeoutMs devices => send_timeout now k to f message rpcTimeoutMs devices
  | STimed to _ message devices expirationTime => send_write k to message devices expirationTime
  end.
Definition run_task (k : nat) (cb : cb_result) (t : task) : op unit :=
  match t with
  | TUser | TWaiting _ _ => lift Block
  | TMark f r => run_mark k f r
  | TMarked f => run_marked k
  | TCount pipe m =>
      do! increaseCallCount upd_serverActiveCalls_ in
      set_task k (TRequest pipe m)
  | TRequest pipe m => set_task k (TServing pipe (id_ m))
  | TServing pipe id =>
      match cb with
      | CbThrows e => set_task k (TReply pipe id (inr (str (what e))))
      | CbDone r => set_task k (TReply pipe id r)
      | CbLater => set_task k (TAsync pipe id)
      end
  | TReply pipe id r =>
      do! decreaseCallCount upd_serverActiveCalls_ in
      set_task k (TRespond pipe id r)
  | TAsync pipe id =>
      do! increaseCallCount upd_serverActiveAsyncCalls_ in
      set_task k (TWaiting pipe id)
  | TDone pipe id r =>
      do! decreaseCallCount upd_serverActiveCalls_ in
      set_task k (TDoneAsync pipe id r)
  | TDoneAsync pipe id r =>
      do! decreaseCallCount upd_serverActiveAsyncCalls_ in
      set_task k (TRespond pipe id r)
  | TRespond pipe id r =>
      do! sendCompletedResponseMessage pipe id r in
      end_thread k
  end.
Definition run_thread (now : Z) (k : nat) (cb : cb_result) : op unit :=
  let! t := gets (fun s => threads s !! k) in
  match t with
  | Some (mkThread _ (Some c)) => run_call now k c
  | Some (mkThread t None) => run_task k cb t
  | None => lift Block
  end.

(** User code runs: in a user thread, in a handler, in a callback of a future. *)
Definition in_user_code (t : task) : bool :=
  match t with TUser | TServing _ _ | TMarked _ => true | _ => false end.
(** It calls send(). *)
Definition send (k : nat) (to : WorkerInfo) (requestMessage : Message T) (rpcTimeoutMs : option Z) (deviceMap : DeviceMap) : op unit :=
  let! t := gets (fun s => threads s !! k) in
  match t with
  | Some (mkThread t None) => if in_user_code t then send_register k to requestMessage rpcTimeoutMs deviceMap else lift Block
  | _ => lift Block
  end.
(** The future of a handler completes: its callback starts. *)
Definition async_done (k : nat) (r : Message T + bytes) : op unit :=
  let! t := gets (fun s => threads s !! k) in
  match t with
  | Some (mkThread (TWaiting pipe id) None) => set_task k (TDone pipe id r)
  | _ => lift Block
  end.

(** ** join() and shutdown() *)

(** A step of join(): [arrived] when the barrier lets it pass, [total] what the
    allreduce gives. *)
Definition join (arrived : bool) (total : Z) : op unit :=
  let! j := gets join_ in
  let! n := gets clientActiveCalls_ in
  match j with
  | JoinNone => modify (upd_join_ (fun _ => JoinWaits))
  | JoinWaits => if n =? 0 then modify (upd_join_ (fun _ => JoinBarrier)) else lift Block
  | JoinBarrier => if arrived then modify (upd_join_ (fun _ => JoinHolds)) else lift Block
  | JoinHolds => modify (upd_join_ (fun _ => if total =? 0 then JoinDone else JoinWaits))
  | JoinDone => lift Block
  end.

(** Nothing is left that TensorPipe would have to call back. *)
Definition pipe_silent (p : ClientPipe) : bool := bool_decide (writes p = []) && bool_decide (reads p = []).
Definition context_joined (s : tp_agent) : bool :=
  forallb (fun e => pipe_silent e.2) (map_to_list (connectedPipes_ s)) && forallb (fun p => negb (armed p)) (serverPipes s) &&
  negb (listening s).
(** The thread pool is empty. *)
Definition idle_thread (t : thread) : bool :=
  match t with mkThread (TUser | TWaiting _ _) _ => true | _ => false end.

Definition shutdown : op unit :=
  let! pc := gets shutdown_ in
  match pc with
  | ShutNone =>
      do! modify (upd_running_ (fun _ => false)) in
      modify (upd_shutdown_ (fun _ => ShutFlag))
  | ShutFlag =>
      do! modify (upd_timeoutThread_ notify_timer) in
      modify (upd_shutdown_ (fun _ => ShutNotified))
  | ShutNotified =>
      let! t := gets timeoutThread_ in
      match t with
      | TimerExited => modify (upd_shutdown_ (fun _ => ShutJoined))
      | _ => lift Block
      end
  | ShutJoined =>
      let! silent := gets context_joined in
      if silent then modify (upd_shutdown_ (fun _ => ShutContext)) else lift Block
  | ShutContext =>
      let! idle := gets (fun s => forallb idle_thread (threads s)) in
      if idle then modify (upd_shutdown_ (fun _ => ShutDone)) else lift Block
  | ShutDone => lift Block
  end.

(** ** Runs *)

Inductive event : Type :=
  | ESend (k : nat) (to : WorkerInfo) (requestMessage : Message T) (rpcTimeoutMs : option Z) (deviceMap : DeviceMap)
  | EThread (now : Z) (k : nat) (cb : cb_result)
  | EWrite (to : Z) (error : option bytes)
  | ERead (to : Z) (r : bytes + Message T)
  | EAccept (r : option bytes)
  | ERequest (pipe : nat) (r : option (Message T))
  | EAsyncDone (k : nat) (r : Message T + bytes)
  | ETimer (now : Z)
  | EWake   (* a spurious wake-up of the time-out thread *)
  | EJoin (arrived : bool) (total : Z)
  | EShutdown.

Definition exec (e : event) : op unit :=
  match e with
  | ESend k to m t dm => send k to m t dm
  | EThread now k cb => run_thread now k cb
  | EWrite to error => on_write to error
  | ERead to r => on_read to r
  | EAccept r => on_accept r
  | ERequest pipe r => on_request pipe r
  | EAsyncDone k r => async_done k r
  | ETimer now => pollTimeoutRpcs now
  | EWake => modify (upd_timeoutThread_ notify_timer)
  | EJoin arrived total => join arrived total
  | EShutdown => shutdown
  end.

(** A step that is possible and does not end the process.  A call of send() that
    throws before it registers anything has no effect. *)
Definition step (e : event) (s s' : tp_agent) : Prop := exec e s = (Ret tt, s').

Inductive run (allowed : tp_agent -> event -> Prop) : tp_agent -> tp_agent -> Prop :=
  | run_nil s : run allowed s s
  | run_snoc s1 s2 s3 e : run allowed s1 s2 -> allowed s2 e -> step e s2 s3 -> run allowed s1 s3.

(** A list of events, as far as it is possible. *)
Fixpoint exec_all (allowed : tp_agent -> event -> bool) (es : list event) (s : tp_agent) : option tp_agent :=
  match es with
  | [] => Some s
  | e :: es =>
      if allowed s e then
        match exec e s with (Ret _, s') => exec_all allowed es s' | _ => None end
      else None
  end.

(** ** Queries *)

Definition setReverseDeviceMaps (reverseDeviceMaps : gmap bytes DeviceMap) : tp_agent -> tp_agent :=
  upd_reverseDeviceMaps_ (fun _ => reverseDeviceMaps).

Definition timeoutMapSize (s : tp_agent) : nat := size (timeoutMap_ s).
Definition numPendingResponses (s : tp_agent) : nat :=
  sum_list_with (fun e => size (pendingResponseMessage_ e.2)) (map_to_list (connectedPipes_ s)).
(** getMetrics without the numbers of the thread pool. *)
Definition getMetrics (gilAverage : option bytes) (s : tp_agent) : list (bytes * bytes) :=
  [(str "agent.client_active_calls", to_string (clientActiveCalls_ s));
   (str "agent.server_active_calls", to_string (serverActiveCalls_ s));
   (str "agent.server_active_async_calls", to_string (serverActiveAsyncCalls_ s))] ++
  match gilAverage with Some a => [(str "agent.gil_average_wait_time_us", a)] | None => [] end.

(** ** The steps as a relation

    What a step does, with the conditions the proofs below use. *)

(** What the quiet steps leave alone. *)
Definition batch (t : timer) : list TimeoutMessageMetadata := match t with TimerMarks l => l | _ => [] end.
Record quiet (s s' : tp_agent) : Prop := {
  qt_pipes : connectedPipes_ s' = connectedPipes_ s;
  qt_next : nextMessageID_ s' = nextMessageID_ s;
  qt_futures : futures s' = futures s;
  qt_abandoned : abandoned s' = abandoned s;
  qt_timeouts : timeoutMap_ s' = timeoutMap_ s;
  qt_batch : batch (timeoutThread_ s') = batch (timeoutThread_ s);
  qt_client : clientActiveCalls_ s' = clientActiveCalls_ s;
  qt_server : serverActiveCalls_ s' = serverActiveCalls_ s;
  qt_async : serverActiveAsyncCalls_ s' = serverActiveAsyncCalls_ s;
  qt_threads : threads s' = threads s;
  qt_requests : requests s' = requests s;
  qt_responses : responses s' = responses s;
}.

Definition new_call (k : nat) (c : option call) (t : task) (s : tp_agent) : tp_agent :=
  upd_threads (<[k := mkThread t c]>) s.
Definition pipe_to (to : WorkerInfo) (address : bytes) : ClientPipe := mkPipe address (name_ to) false ∅ [] [] false.
(** The state after send_register. *)
Definition registered_state (k : nat) (t : task) (to : WorkerInfo) (address : bytes) (m : Message T) (tmo : option Z)
    (dm : DeviceMap) (s : tp_agent) : tp_agent :=
  let id := nextMessageID_ s in
  let f := length (futures s) in
  new_call k (Some (SRegistered (worker_id_ to) f (setId (int64 id) m) tmo dm)) t
    (upd_pipe (worker_id_ to) (upd_pending (<[id := f]>))
      (upd_nextMessageID_ (fun n => uint64 (n + 1)) (upd_futures (fun l => l ++ [mkFuture false None])
        (upd_connectedPipes_ (emplace (worker_id_ to) (pipe_to to address)) s)))).

(** How the server's counts change when a thread goes from one stage to another. *)
Definition serving (t : task) : Z :=
  match t with TRequest _ _ | TServing _ _ | TReply _ _ _ | TAsync _ _ | TWaiting _ _ | TDone _ _ _ => 1 | _ => 0 end.
Definition serving_async (t : task) : Z :=
  match t with TWaiting _ _ | TDone _ _ _ | TDoneAsync _ _ _ => 1 | _ => 0 end.
Definition bump (d n : Z) : Z := if d =? 0 then n else int32 (n + d).
(** The stages of a request of another worker. *)
Inductive stage : task -> task -> Prop :=
  | stage_count p m : stage (TCount p m) (TRequest p m)
  | stage_start p m : stage (TRequest p m) (TServing p (id_ m))
  | stage_reply p id r : stage (TServing p id) (TReply p id r)
  | stage_async p id : stage (TServing p id) (TAsync p id)
  | stage_replied p id r : stage (TReply p id r) (TRespond p id r)
  | stage_waiting p id : stage (TAsync p id) (TWaiting p id)
  | stage_done p id r : stage (TWaiting p id) (TDone p id r)
  | stage_done_async p id r : stage (TDone p id r) (TDoneAsync p id r)
  | stage_done_respond p id r : stage (TDoneAsync p id r) (TRespond p id r).

(** What kind of event it is: a call of send() by a thread, an answer from a pipe, a
    request from another worker, an error of a pipe, a step of the time-out thread
    at a time, or another one. *)
Inductive kind : Type :=
  | KStep
  | KSend (k : nat)
  | KAnswer (w id : Z)
  | KRequest (pipe : nat) (id : Z)
  | KError
  | KTimer (now : Z).

Inductive effect (s : tp_agent) : kind -> tp_agent -> Prop :=
  | ef_quiet a s' : quiet s s' -> effect s a s'
  | ef_take t now : earliestTimeout (timeoutMap_ s) = Some t -> t <= now -> batch (timeoutThread_ s) = [] ->
      effect s (KTimer now) (upd_timeoutThread_ (fun _ => TimerMarks (default [] (timeoutMap_ s !! t))) (upd_timeoutMap_ (delete t) s))
  | ef_expire e l now : timeoutThread_ s = TimerMarks (e :: l) ->
      effect s (KTimer now) (upd_timeoutThread_ (fun _ => TimerMarks l) (markFuture (responseFuture e) (FError (timeout_error e)) s))
  | ef_register k t to address m tmo dm : threads s !! k = Some (mkThread t None) -> in_user_code t = true ->
      isRequest m = true -> running_ s = true -> effect s (KSend k) (registered_state k t to address m tmo dm s)
  | ef_count k t to f m tmo dm devices : threads s !! k = Some (mkThread t (Some (SRegistered to f m tmo dm))) ->
      join_ s <> JoinHolds ->
      effect s KStep (new_call k (Some (SCounted to f m tmo devices)) t (upd_clientActiveCalls_ (fun n => int32 (n + 1)) s))
  | ef_throw k t to f m tmo dm : threads s !! k = Some (mkThread t (Some (SRegistered to f m tmo dm))) ->
      (forall devices, send_devices to m dm s <> Ret devices) ->
      effect s KStep (new_call k None t (upd_abandoned (fun l => l ++ [f]) s))
  | ef_no_timeout k t to f m tmo devices : threads s !! k = Some (mkThread t (Some (SCounted to f m tmo devices))) ->
      default rpcTimeout tmo = 0 -> effect s KStep (new_call k (Some (STimed to f m devices 0)) t s)
  | ef_timeout k t to f m tmo devices now : threads s !! k = Some (mkThread t (Some (SCounted to f m tmo devices))) ->
      let timeout := default rpcTimeout tmo in
      let e := computeRpcMessageExpiryTime now timeout in
      timeout <> 0 ->
      effect s KStep (new_call k (Some (STimed to f m devices e)) t (upd_timeoutThread_ notify_timer (upd_timeoutMap_ (fun m0 =>
        <[e := default [] (m0 !! e) ++ [mkTimeout (uint64 (id_ m)) f timeout]]> m0) s)))
  | ef_write k t to f m devices e : threads s !! k = Some (mkThread t (Some (STimed to f m devices e))) ->
      effect s KStep (new_call k None t (upd_requests (fun l => l ++ [(to, m, devices)])
        (upd_pipe to (upd_writes (fun l => l ++ [(uint64 (id_ m), e)])) s)))
  | ef_write_failed to p id e rest what : connectedPipes_ s !! to = Some p -> writes p = (id, e) :: rest ->
      let s1 := upd_pipe to (fun p => set_broken (upd_writes (fun _ => rest) p)) s in
      effect s KError (match pendingResponseMessage_ p !! id with Some f => markFuture f (FError what) s1 | None => s1 end)
  | ef_written to p id e rest : connectedPipes_ s !! to = Some p -> writes p = (id, e) :: rest -> broken p = false ->
      effect s KStep (upd_pipe to (fun p => upd_reads (fun l => l ++ [e]) (upd_writes (fun _ => rest) p)) s)
  | ef_read_failed to p e rest what : connectedPipes_ s !! to = Some p -> reads p = e :: rest ->
      effect s KError (upd_timeoutMap_ (removeFromTimeoutMap noMessageId e) (markAll what (map_to_list (pendingResponseMessage_ p))
        (upd_pipe to (fun p => set_broken (set_readError_ (upd_pending (fun _ => ∅) (upd_reads (fun _ => rest) p)))) s)))
  | ef_read to p e rest m f r : connectedPipes_ s !! to = Some p -> reads p = e :: rest -> broken p = false ->
      let id := uint64 (id_ m) in
      pendingResponseMessage_ p !! id = Some f -> readError_ p = false ->
      r = (if bool_decide (type_ m = EXCEPTION) then FError (payload m) else FValue m) ->
      effect s (KAnswer to id) (markFuture f r (upd_timeoutMap_ (removeFromTimeoutMap id e)
        (upd_pipe to (fun p => upd_pending (delete id) (upd_reads (fun _ => rest) p)) s)))
  | ef_mark k f r flag : threads s !! k = Some (mkThread (TMark f r) None) -> futures s !! f = Some (mkFuture flag None) ->
      effect s KStep (new_call k None (TMarked f) (upd_futures (<[f := mkFuture flag (Some r)]>) s))
  | ef_marked k f : threads s !! k = Some (mkThread (TMarked f) None) -> join_ s <> JoinHolds ->
      effect s KStep (upd_threads (delete k) (upd_clientActiveCalls_ (fun n => int32 (n - 1)) s))
  | ef_stage k t t' : threads s !! k = Some (mkThread t None) -> stage t t' ->
      effect s KStep (new_call k None t' (upd_serverActiveCalls_ (bump (serving t' - serving t))
        (upd_serverActiveAsyncCalls_ (bump (serving_async t' - serving_async t)) s)))
  | ef_request p m : effect s (KRequest p (id_ m)) (add_thread (TCount p m) s)
  | ef_respond k p id r l : threads s !! k = Some (mkThread (TRespond p id r) None) ->
      l = [] \/ (running_ s = true /\ exists m devices, l = [(p, m, devices)] /\ id_ m = id) ->
      effect s KStep (upd_threads (delete k) (upd_responses (fun l0 => l0 ++ l) s)).

Lemma alter_known {A} (f : A -> A) (l : list A) (k : nat) x : l !! k = Some x -> alter f k l = <[k := f x]> l.
Proof.
  revert k. induction l as [|y l IH]; intros [|k] H; [done|done| |].
  - by injection H as ->.
  - change (y :: alter f k l = y :: <[k := f x]> l). f_equal. by apply IH.
Qed.

(** A step that only changes what a quiet step may. *)
Lemma quiet_step s (u : tp_agent -> tp_agent) : quiet s (u s) -> effect s KStep (u s).
Proof. apply ef_quiet. Qed.
Ltac is_quiet := apply ef_quiet; split; simpl; first [reflexivity|done].

Lemma lock_callCount_inv s s' : lock_callCount s = (Ret tt, s') -> s' = s /\ join_ s <> JoinHolds.
Proof. unfold lock_callCount, bind, gets, ret, lift. case_bool_decide; by intros [= ->]. Qed.
Lemma lock_timeoutMap_inv s s' : lock_timeoutMap s = (Ret tt, s') -> s' = s.
Proof. unfold lock_timeoutMap, bind, gets, ret, lift. destruct (timeoutThread_ s); by intros [=]. Qed.
Lemma change_inv upd d s s' : changeCallCount upd d s = (Ret tt, s') -> s' = upd (fun n => int32 (n + d)) s /\ join_ s <> JoinHolds.
Proof.
  unfold changeCallCount. intros (u & s1 & E1 & E2)%bind_Ret_inv. destruct u. apply lock_callCount_inv in E1 as [-> Hj].
  by injection E2 as <-.
Qed.
Lemma set_call_state k c s t c0 : threads s !! k = Some (mkThread t c0) -> 
  upd_threads (alter (fun t => mkThread (task_ t) c) k) s = new_call k c t s.
Proof. intros H. unfold new_call, upd_threads. by rewrite (alter_known _ _ _ _ H). Qed.

Lemma call_effect now k c t s s' : threads s !! k = Some (mkThread t (Some c)) -> run_call now k c s = (Ret tt, s') ->
  effect s KStep s'.
Proof.
  intros Hk. destruct c as [to f m tmo dm|to f m tmo devices|to f m devices e]; simpl.
  - unfold send_count. unfold bind at 1, gets. destruct (send_devices to m dm s) as [devices|e|] eqn:Ed.
    + intros ([] & s1 & E1 & E2)%bind_Ret_inv. apply change_inv in E1 as [-> Hj]. injection E2 as <-.
      erewrite (set_call_state k) by exact Hk. by apply (ef_count s k t to f m tmo dm).
    + intros [= <-]. erewrite (set_call_state k) by exact Hk. eapply ef_throw; [done|]. intros d E. by rewrite Ed in E.
    + intros [= <-]. erewrite (set_call_state k) by exact Hk. eapply ef_throw; [done|]. intros d E. by rewrite Ed in E.
  - unfold send_timeout. destruct (Z.eqb_spec (default rpcTimeout tmo) 0) as [E0|E0].
    + intros [= <-]. erewrite (set_call_state k) by exact Hk. by apply (ef_no_timeout s k t to f m tmo).
    + intros ([] & s1 & E1 & E2)%bind_Ret_inv. apply lock_timeoutMap_inv in E1 as ->. injection E2 as <-.
      erewrite (set_call_state k) by exact Hk. by apply (ef_timeout s k t to f m tmo).
  - intros [= <-]. erewrite (set_call_state k) by exact Hk. by apply (ef_write s k t to f).
Qed.

Lemma respond_effect k p id r s s' : threads s !! k = Some (mkThread (TRespond p id r) None) ->
  (do! sendCompletedResponseMessage p id r in end_thread k) s = (Ret tt, s') -> effect s KStep s'.
Proof.
  intros Hk. intros (u & s1 & E1 & [= <-])%bind_Ret_inv. destruct u.
  assert (exists l, s1 = upd_responses (fun l0 => l0 ++ l) s /\
    (l = [] \/ (running_ s = true /\ exists m devices, l = [(p, m, devices)] /\ id_ m = id))) as (l & -> & Hl).
  { revert E1. unfold sendCompletedResponseMessage, bind, gets, modify, ret. destruct (running_ s) eqn:Er; simpl; intros [= <-].
    - eexists. split; [reflexivity|]. right. split; [done|]. do 2 eexists. split; [reflexivity|].
      destruct r as [m|e]; [|done]. by destruct (getDevicesForRemote _ _ _ _ _).
    - exists []. split; [|by left]. unfold upd_responses. rewrite app_nil_r. by destruct s. }
  by eapply ef_respond.
Qed.

(** A stage that changes no count, and one that changes a count of the server. *)
Lemma stage_effect k t t' s : threads s !! k = Some (mkThread t None) -> stage t t' ->
  serving t' = serving t -> serving_async t' = serving_async t -> effect s KStep (new_call k None t' s).
Proof.
  intros Hk Hst E1 E2. pose proof (ef_stage s k t t' Hk Hst) as H. rewrite E1, E2, !Z.sub_diag in H. by destruct s.
Qed.
Lemma stage_server_effect k t t' d s s' : threads s !! k = Some (mkThread t None) -> stage t t' ->
  serving t' - serving t = d -> d <> 0 -> serving_async t' = serving_async t ->
  (do! changeCallCount upd_serverActiveCalls_ d in set_task k t') s = (Ret tt, s') -> effect s KStep s'.
Proof.
  intros Hk Hst E1 Hd E2 ([] & s1 & E3 & [= <-])%bind_Ret_inv. apply change_inv in E3 as [-> _].
  pose proof (ef_stage s k t t' Hk Hst) as H. rewrite E1, E2, Z.sub_diag in H. unfold bump in H.
  rewrite (proj2 (Z.eqb_neq d 0) Hd) in H. by destruct s.
Qed.
Lemma stage_async_effect k t t' d s s' : threads s !! k = Some (mkThread t None) -> stage t t' ->
  serving_async t' - serving_async t = d -> d <> 0 -> serving t' = serving t ->
  (do! changeCallCount upd_serverActiveAsyncCalls_ d in set_task k t') s = (Ret tt, s') -> effect s KStep s'.
Proof.
  intros Hk Hst E1 Hd E2 ([] & s1 & E3 & [= <-])%bind_Ret_inv. apply change_inv in E3 as [-> _].
  pose proof (ef_stage s k t t' Hk Hst) as H. rewrite E1, E2, Z.sub_diag in H. unfold bump in H.
  rewrite (proj2 (Z.eqb_neq d 0) Hd) in H. by destruct s.
Qed.

Lemma task_effect k cb t s s' : threads s !! k = Some (mkThread t None) -> run_task k cb t s = (Ret tt, s') -> effect s KStep s'.
Proof.
  intros Hk. destruct t; cbn [run_task]; try done.
  - unfold run_mark, bind, gets, modify. destruct (futures s !! f) as [[flag [r'|]]|] eqn:Ef; intros [= <-]. by eapply ef_mark.
  - intros ([] & s1 & E & [= <-])%bind_Ret_inv. apply change_inv in E as [-> Hj]. by eapply ef_marked.
  - by apply stage_server_effect with (t := TCount pipe message); [|constructor|..].
  - intros [= <-]. by apply (stage_effect k (TRequest pipe message)); [|constructor|..].
  - destruct cb; intros [= <-]; by apply (stage_effect k (TServing pipe id)); [|constructor|..].
  - by apply stage_server_effect with (t := TReply pipe id r); [|constructor|..].
  - by apply stage_async_effect with (t := TAsync pipe id); [|constructor|..].
  - by apply stage_server_effect with (t := TDone pipe id r); [|constructor|..].
  - by apply stage_async_effect with (t := TDoneAsync pipe id r); [|constructor|..].
  - by apply respond_effect.
Qed.

Lemma register_effect k t to m tmo dm s s' : threads s !! k = Some (mkThread t None) -> in_user_code t = true ->
  send_register k to m tmo dm s = (Ret tt, s') -> effect s (KSend k) s'.
Proof.
  intros Hk Ht. unfold send_register, assert_. intros (u & s1 & E1 & E)%bind_Ret_inv. destruct u.
  apply lift_Ret_inv in E1 as [E1 ->]. revert E. unfold bind at 1, gets at 1. intros (u & s1 & E2 & E)%bind_Ret_inv. destruct u.
  apply lift_Ret_inv in E2 as [E2 ->]. revert E. unfold bind at 1, gets at 1. intros (address & s1 & E3 & E)%bind_Ret_inv.
  apply lift_Ret_inv in E3 as [_ ->]. injection E as <-.
  destruct (isRequest m) eqn:Em; [|done]. destruct (running_ s) eqn:Er; [|done].
  erewrite (set_call_state k) by exact Hk. by apply (ef_register s k t to address m tmo dm).
Qed.

Lemma on_write_effect to error s s' : on_write to error s = (Ret tt, s') ->
  effect s (match error with Some _ => KError | None => KStep end) s'.
Proof.
  unfold on_write, bind, gets, modify. destruct (connectedPipes_ s !! to) as [p|] eqn:Ep; [|done].
  destruct (writes p) as [|[id e] rest] eqn:Ew; [done|]. destruct error as [what|].
  - pose proof (ef_write_failed s to p id e rest what Ep Ew) as H.
    destruct (pendingResponseMessage_ p !! id); by intros [= <-].
  - destruct (broken p) eqn:Eb; [done|]. intros [= <-]. by eapply ef_written.
Qed.
Lemma on_read_effect to r s s' : on_read to r s = (Ret tt, s') ->
  effect s (match r with inl _ => KError | inr m => KAnswer to (uint64 (id_ m)) end) s'.
Proof.
  unfold on_read. unfold bind at 1, gets at 1. destruct (connectedPipes_ s !! to) as [p|] eqn:Ep; [|done].
  destruct (reads p) as [|e rest] eqn:Er; [done|]. intros ([] & s1 & E1 & E)%bind_Ret_inv. apply lock_timeoutMap_inv in E1 as ->.
  destruct r as [what|m].
  - injection E as <-. by eapply ef_read_failed.
  - destruct (broken p) eqn:Eb; [done|]. apply bind_Ret_inv in E as (u & s1 & E1 & E). destruct u.
    apply assert_Ret_inv in E1 as [E1 ->]. apply negb_true_iff in E1.
    destruct (pendingResponseMessage_ p !! uint64 (id_ m)) as [f|] eqn:Ef; [|done]. injection E as <-.
    pose proof (ef_read s to p e rest m f _ Ep Er Eb Ef E1 eq_refl) as H. by destruct (bool_decide (type_ m = EXCEPTION)).
Qed.

Lemma poll_effect now s s' : pollTimeoutRpcs now s = (Ret tt, s') -> effect s (KTimer now) s'.
Proof.
  unfold pollTimeoutRpcs, bind, gets, modify, lift. destruct (timeoutThread_ s) as [| |u|[u|]|[|e l]|] eqn:Et; try done.
  - destruct (running_ s); simpl.
    + destruct (earliestTimeout (timeoutMap_ s)) as [t|] eqn:Ee.
      * destruct (Z.leb_spec t now).
        -- intros [= <-]. apply ef_take; [done|done|]. by rewrite Et.
        -- intros [= <-]. apply ef_quiet. split; simpl; try done. by rewrite Et.
      * intros [= <-]. apply ef_quiet. split; simpl; try done. by rewrite Et.
    + intros [= <-]. apply ef_quiet. split; simpl; try done. by rewrite Et.
  - intros [= <-]. apply ef_quiet. split; simpl; try done. by rewrite Et.
  - destruct (u <=? now); [|done]. intros [= <-]. apply ef_quiet. split; simpl; try done. by rewrite Et.
  - intros [= <-]. apply ef_quiet. split; simpl; try done. by rewrite Et.
  - intros [= <-]. by apply ef_expire.
Qed.

Lemma batch_notify t : batch (notify_timer t) = batch t.
Proof. by destruct t. Qed.
Lemma shutdown_effect s s' : shutdown s = (Ret tt, s') -> effect s KStep s'.
Proof.
  unfold shutdown, bind, gets, modify, lift. destruct (shutdown_ s).
  - intros [= <-]. apply ef_quiet. by split.
  - intros [= <-]. apply ef_quiet. split; simpl; try done. apply batch_notify.
  - destruct (timeoutThread_ s); intros [= <-]; apply ef_quiet; by split.
  - destruct (context_joined s); intros [= <-]; apply ef_quiet; by split.
  - destruct (forallb _ _); intros [= <-]; apply ef_quiet; by split.
  - done.
Qed.
Lemma join_effect arrived total s s' : join arrived total s = (Ret tt, s') -> effect s KStep s'.
Proof.
  unfold join, bind, gets, modify, lift.
  destruct (join_ s); [|destruct (clientActiveCalls_ s =? 0)|destruct arrived| |]; try done; intros [= <-]; apply ef_quiet; by split.
Qed.

Definition kind_of (e : event) : kind :=
  match e with
  | ESend k _ _ _ _ => KSend k
  | ERead to (inr m) => KAnswer to (uint64 (id_ m))
  | ERequest pipe (Some m) => KRequest pipe (id_ m)
  | ERead _ (inl _) | EWrite _ (Some _) => KError
  | ETimer now => KTimer now
  | _ => KStep
  end.
Lemma tp_step_effect e s s' : step e s s' -> effect s (kind_of e) s'.
Proof.
  unfold step. destruct e; cbn [exec kind_of].
  - unfold send, bind, gets, lift. destruct (threads s !! k) as [[t [c|]]|] eqn:Ek; [done| |done].
    destruct (in_user_code t) eqn:Ec; [|done]. by apply (register_effect k t).
  - unfold run_thread, bind, gets, lift. destruct (threads s !! k) as [[t [c|]]|] eqn:Ek; [| |done].
    + by apply (call_effect now k c t).
    + by apply task_effect.
  - intros H%on_write_effect. by destruct error.
  - intros H%on_read_effect. by destruct r.
  - unfold on_accept, bind, gets, lift. destruct (listening s); [|done]. destruct r; intros [= <-]; apply ef_quiet; by split.
  - unfold on_request, bind, gets, lift. destruct (serverPipes s !! pipe) as [[name []]|]; [|done..]. destruct r as [m|]; intros [= <-].
    + apply ef_request.
    + apply ef_quiet; by split.
  - unfold async_done, bind, gets, lift. destruct (threads s !! k) as [[[] [|]]|] eqn:Ek; try done. intros [= <-].
    by eapply stage_effect; [done|constructor|..].
  - apply poll_effect.
  - intros [= <-]. apply ef_quiet. split; simpl; try done. apply batch_notify.
  - apply join_effect.
  - apply shutdown_effect.
Qed.

(** ** The counts *)

Definition sumf {A} (w : A -> Z) (l : list A) : Z := sum_Z (map w l).

Lemma sumf_app {A} (w : A -> Z) l1 l2 : sumf w (l1 ++ l2) = sumf w l1 + sumf w l2.
Proof. unfold sumf. by rewrite map_app, sum_Z_app. Qed.
Lemma sumf_one {A} (w : A -> Z) x : sumf w [x] = w x.
Proof. unfold sumf. simpl. lia. Qed.
Lemma sumf_split {A} (w : A -> Z) (l : list A) k x : l !! k = Some x ->
  sumf w l = sumf w (take k l) + w x + sumf w (drop (S k) l).
Proof. intros H. rewrite <- (take_drop_middle l k x H) at 1. rewrite sumf_app. unfold sumf. simpl. lia. Qed.
Lemma sumf_insert {A} (w : A -> Z) (l : list A) k x y : l !! k = Some x -> sumf w (<[k := y]> l) = sumf w l - w x + w y.
Proof.
  intros H. rewrite (sumf_split w l k x H), insert_take_drop by (by eapply lookup_lt_Some).
  rewrite sumf_app. unfold sumf. simpl. lia.
Qed.
Lemma sumf_delete {A} (w : A -> Z) (l : list A) k x : l !! k = Some x -> sumf w (delete k l) = sumf w l - w x.
Proof. intros H. rewrite (sumf_split w l k x H), delete_take_drop, sumf_app. lia. Qed.
Lemma sumf_nonneg {A} (w : A -> Z) l : (forall x, x ∈ l -> 0 <= w x) -> 0 <= sumf w l.
Proof.
  intros H. induction l as [|x l IH]; [done|]. unfold sumf in *. simpl.
  pose proof (H x (list_elem_of_here _ _)). assert (0 <= sum_Z (map w l)) by (apply IH; intros; by apply H, list_elem_of_further). lia.
Qed.
Lemma sumf_zero {A} (w : A -> Z) l : (forall x, x ∈ l -> 0 <= w x) -> sumf w l = 0 -> forall x, x ∈ l -> w x = 0.
Proof.
  intros H Hs x Hx. apply list_elem_of_lookup in Hx as Hk. destruct Hk as [k Hk]. rewrite (sumf_split w l k x Hk) in Hs.
  pose proof (H x Hx). assert (0 <= sumf w (take k l)) by (apply sumf_nonneg; intros y Hy; apply H; by apply elem_of_take in Hy as (i & Hi & _); apply list_elem_of_lookup_2 in Hi).
  assert (0 <= sumf w (drop (S k) l)); [|lia]. apply sumf_nonneg. intros y Hy. apply H.
  apply list_elem_of_lookup in Hy as [i Hi]. rewrite lookup_drop in Hi. by eapply list_elem_of_lookup_2.
Qed.

(** Futures whose flag is not set; threads that complete a future; calls of send()
    before the count; and the threads the server's counts are about. *)
Definition open_ (fut : AtomicJitFuture) : Z := if isComplete fut then 0 else 1.
Definition completing (t : thread) : Z := match task_ t with TMark _ _ | TMarked _ => 1 | _ => 0 end.
Definition uncounted (t : thread) : Z := match sending t with Some (SRegistered _ _ _ _ _) => 1 | _ => 0 end.
Definition wserving (t : thread) : Z := serving (task_ t).
Definition wasync (t : thread) : Z := serving_async (task_ t).

Definition active_calls (s : tp_agent) : Z :=
  sumf open_ (futures s) + sumf completing (threads s) - sumf uncounted (threads s) - Z.of_nat (length (abandoned s)).
Record counted (s : tp_agent) : Prop := {
  ct_client : clientActiveCalls_ s = int32 (active_calls s);
  ct_server : serverActiveCalls_ s = int32 (sumf wserving (threads s));
  ct_async : serverActiveAsyncCalls_ s = int32 (sumf wasync (threads s));
}.

(** Only what the counts are about changes. *)
Lemma counted_same s s' : counted s -> clientActiveCalls_ s' = clientActiveCalls_ s -> serverActiveCalls_ s' = serverActiveCalls_ s ->
  serverActiveAsyncCalls_ s' = serverActiveAsyncCalls_ s -> futures s' = futures s -> abandoned s' = abandoned s ->
  sumf completing (threads s') = sumf completing (threads s) -> sumf uncounted (threads s') = sumf uncounted (threads s) ->
  sumf wserving (threads s') = sumf wserving (threads s) -> sumf wasync (threads s') = sumf wasync (threads s) -> counted s'.
Proof.
  intros [H1 H2 H3] E1 E2 E3 E4 E5 E6 E7 E8 E9. split; [rewrite E1, H1; unfold active_calls; by rewrite E4, E5, E6, E7| |].
  - by rewrite E2, E8.
  - by rewrite E3, E9.
Qed.

Lemma counted_markFuture f r s : counted s -> counted (markFuture f r s).
Proof.
  intros Hc. unfold markFuture. destruct (futures s !! f) as [fut|] eqn:Ef; [|done].
  destruct (isComplete fut) eqn:Ec; [done|]. destruct Hc as [H1 H2 H3].
  split; simpl; [rewrite H1|rewrite H2|rewrite H3]; f_equal; unfold active_calls; simpl;
    rewrite ?sumf_app, ?sumf_one, ?(sumf_insert _ _ _ _ _ Ef); unfold open_, completing, uncounted, wserving, wasync; simpl; rewrite ?Ec; lia.
Qed.
Lemma counted_markAll what l s : counted s -> counted (markAll what l s).
Proof. revert s. induction l as [|e l IH]; intros s Hc; simpl; [done|]. apply IH. by apply counted_markFuture. Qed.

(** A thread goes on in send(), or to another stage. *)
Lemma sums_new_call k t c c' s w : threads s !! k = Some (mkThread t c) ->
  sumf w (threads (new_call k c' t s)) = sumf w (threads s) - w (mkThread t c) + w (mkThread t c').
Proof. intros H. unfold new_call. simpl. by apply sumf_insert. Qed.
Lemma int32_shift a b c : a + b = c -> int32 (int32 a + b) = int32 c.
Proof. intros <-. apply int32_add. Qed.
Lemma bump_int32 d a : bump d (int32 a) = int32 (a + d).
Proof. unfold bump. destruct (Z.eqb_spec d 0) as [->|]; [by rewrite Z.add_0_r|apply int32_add]. Qed.

Lemma stage_shape t t' : stage t t' ->
  completing (mkThread t None) = 0 /\ completing (mkThread t' None) = 0.
Proof. by inversion 1. Qed.

Lemma counted_effect a s s' : effect s a s' -> counted s -> counted s'.
Proof.
  intros Heff Hc. pose proof Hc as [H1 H2 H3]. destruct Heff.
  - destruct H as []. apply (counted_same s); congruence.
  - by apply (counted_same s).
  - apply (counted_same (markFuture (responseFuture e) (FError (timeout_error e)) s)); try done. by apply counted_markFuture.
  - unfold registered_state. split; simpl; [rewrite H1|rewrite H2|rewrite H3]; f_equal; unfold active_calls; simpl;
      rewrite ?sumf_app, ?sumf_one, ?(sumf_insert _ _ _ _ _ H);
      unfold open_, completing, uncounted, wserving, wasync; simpl; lia.
  - split; simpl; [rewrite H1; apply int32_shift|rewrite H2; f_equal|rewrite H3; f_equal]; unfold active_calls; simpl;
      rewrite ?(sumf_insert _ _ _ _ _ H); unfold completing, uncounted, wserving, wasync; simpl; lia.
  - split; simpl; [rewrite H1; f_equal|rewrite H2; f_equal|rewrite H3; f_equal]; unfold active_calls; simpl;
      rewrite ?(sumf_insert _ _ _ _ _ H), ?length_app; unfold completing, uncounted, wserving, wasync; simpl; lia.
  - apply (counted_same s); try done; simpl; rewrite (sumf_insert _ _ _ _ _ H); unfold completing, uncounted, wserving, wasync; simpl; lia.
  - apply (counted_same s); try done; simpl; rewrite (sumf_insert _ _ _ _ _ H); unfold completing, uncounted, wserving, wasync; simpl; lia.
  - apply (counted_same s); try done; simpl; rewrite (sumf_insert _ _ _ _ _ H); unfold completing, uncounted, wserving, wasync; simpl; lia.
  - assert (counted s1) by (by apply (counted_same s)). case_match; [by apply counted_markFuture|done].
  - by apply (counted_same s).
  - eapply (counted_same (markAll _ _ _)); try done. apply counted_markAll. by apply (counted_same s).
  - apply counted_markFuture. by apply (counted_same s).
  - split; simpl; [rewrite H1; f_equal|rewrite H2; f_equal|rewrite H3; f_equal]; unfold active_calls; simpl;
      rewrite ?(sumf_insert _ _ _ _ _ H), ?(sumf_insert _ _ _ _ _ H0); unfold open_, completing, uncounted, wserving, wasync; simpl; lia.
  - split; simpl; [rewrite H1; apply int32_shift|rewrite H2; f_equal|rewrite H3; f_equal]; unfold active_calls; simpl;
      rewrite ?(sumf_delete _ _ _ _ H); unfold completing, uncounted, wserving, wasync; simpl; lia.
  - destruct (stage_shape _ _ H0) as [E1 E2].
    split; simpl; [rewrite H1; f_equal|rewrite H2, bump_int32; f_equal|rewrite H3, bump_int32; f_equal]; unfold active_calls; simpl;
      rewrite ?(sumf_insert _ _ _ _ _ H); rewrite ?E1, ?E2; unfold uncounted, wserving, wasync; simpl; lia.
  - apply (counted_same s); try done; simpl; rewrite sumf_app, sumf_one; unfold completing, uncounted, wserving, wasync; simpl; lia.
  - apply (counted_same s); try done; simpl; rewrite (sumf_delete _ _ _ _ H); unfold completing, uncounted, wserving, wasync; simpl; lia.
Qed.

(** ** The futures *)

(** The tasks that are about to complete a future: there is one when the flag is
    set and the future has no result, and none otherwise. *)
Definition marks (f : nat) (t : thread) : Z :=
  match task_ t with TMark f' _ => if bool_decide (f' = f) then 1 else 0 | _ => 0 end.
Definition owed (fut : option AtomicJitFuture) : Z := match fut with Some (mkFuture true None) => 1 | _ => 0 end.
Record futures_ok (s : tp_agent) : Prop := {
  fo_open : forall f fut, futures s !! f = Some fut -> isComplete fut = false -> jitFuture fut = None;
  fo_marks : forall f, sumf (marks f) (threads s) = owed (futures s !! f);
}.

Lemma futures_same s s' : futures_ok s -> futures s' = futures s ->
  (forall f, sumf (marks f) (threads s') = sumf (marks f) (threads s)) -> futures_ok s'.
Proof. intros [H1 H2] E1 E2. split; rewrite E1; [done|]. intros f. by rewrite E2, H2. Qed.

Lemma futures_markFuture f r s : futures_ok s -> futures_ok (markFuture f r s).
Proof.
  intros Ho. unfold markFuture. destruct (futures s !! f) as [fut|] eqn:Ef; [|done].
  destruct (isComplete fut) eqn:Ec; [done|]. destruct Ho as [H1 H2]. pose proof (H1 f fut Ef Ec) as En. rewrite En.
  assert (Hf : forall g, futures (upd_futures <[f:=mkFuture true None]> s) !! g = if decide (g = f) then Some (mkFuture true None) else futures s !! g).
  { intros g. simpl. destruct (decide (g = f)) as [->|]; [apply list_lookup_insert_eq; by eapply lookup_lt_Some|by apply list_lookup_insert_ne]. }
  split; simpl.
  - intros g fut'. rewrite Hf. destruct (decide (g = f)); [intros [= <-]; done|apply H1].
  - intros g. rewrite Hf, sumf_app, sumf_one, H2. unfold marks. simpl. destruct (decide (g = f)) as [->|].
    + rewrite bool_decide_true by done. rewrite Ef. destruct fut as [b j]. simpl in *. by subst.
    + rewrite bool_decide_false by congruence. lia.
Qed.
Lemma futures_markAll what l s : futures_ok s -> futures_ok (markAll what l s).
Proof. revert s. induction l as [|e l IH]; intros s Ho; simpl; [done|]. apply IH. by apply futures_markFuture. Qed.

Lemma futures_effect a s s' : effect s a s' -> futures_ok s -> futures_ok s'.
Proof.
  intros Heff Ho. pose proof Ho as [H1 H2]. destruct Heff.
  - destruct H as []. apply (futures_same s); [done|done|]. congruence.
  - by apply (futures_same s).
  - apply (futures_same (markFuture (responseFuture e) (FError (timeout_error e)) s)); try done. by apply futures_markFuture.
  - unfold registered_state. split; simpl.
    + intros f fut [Hf|[_ Hf]]%lookup_app_Some; [by apply H1 with f|]. apply list_lookup_singleton_Some in Hf as [_ <-]. done.
    + intros f. rewrite (sumf_insert _ _ _ _ _ H). unfold marks at 2 3. simpl. rewrite Z.sub_add, H2.
      destruct (decide (f < length (futures s))%nat); [by rewrite lookup_app_l|].
      rewrite lookup_app_r, (lookup_ge_None_2 (futures s)) by lia. destruct (f - length (futures s))%nat as [|[]]; done.
  - apply (futures_same s); try done. intros g. simpl. rewrite (sumf_insert _ _ _ _ _ H). unfold marks at 2 3. simpl. lia.
  - apply (futures_same s); try done. intros g. simpl. rewrite (sumf_insert _ _ _ _ _ H). unfold marks at 2 3. simpl. lia.
  - apply (futures_same s); try done. intros g. simpl. rewrite (sumf_insert _ _ _ _ _ H). unfold marks at 2 3. simpl. lia.
  - apply (futures_same s); try done. intros g. simpl. rewrite (sumf_insert _ _ _ _ _ H). unfold marks at 2 3. simpl. lia.
  - apply (futures_same s); try done. intros g. simpl. rewrite (sumf_insert _ _ _ _ _ H). unfold marks at 2 3. simpl. lia.
  - assert (futures_ok s1) by (by apply (futures_same s)). case_match; [by apply futures_markFuture|done].
  - by apply (futures_same s).
  - eapply (futures_same (markAll _ _ _)); try done. apply futures_markAll. by apply (futures_same s).
  - apply futures_markFuture. by apply (futures_same s).
  - assert (flag = true) as ->.
    { assert (sumf (marks f) (threads s) <> 0) as Hn.
      { intros E. assert (marks f (mkThread (TMark f r) None) = 0) as Em.
        - apply (sumf_zero (marks f) (threads s)); [|done|by eapply list_elem_of_lookup_2].
          intros t _. unfold marks. destruct (task_ t); try lia. case_bool_decide; lia.
        - unfold marks in Em. simpl in Em. by rewrite bool_decide_true in Em. }
      rewrite H2, H0 in Hn. by destruct flag. }
    assert (Hf : forall g, <[f:=mkFuture true (Some r)]> (futures s) !! g = if decide (g = f) then Some (mkFuture true (Some r)) else futures s !! g).
    { intros g. destruct (decide (g = f)) as [->|]; [apply list_lookup_insert_eq; by eapply lookup_lt_Some|by apply list_lookup_insert_ne]. }
    split; simpl.
    + intros g fut. rewrite Hf. destruct (decide (g = f)); [intros [= <-]; done|apply H1].
    + intros g. rewrite Hf, (sumf_insert _ _ _ _ _ H), H2. unfold marks. simpl. destruct (decide (g = f)) as [->|].
      * rewrite bool_decide_true, H0 by done. done.
      * rewrite bool_decide_false by congruence. lia.
  - apply (futures_same s); try done. intros g. simpl. rewrite (sumf_delete _ _ _ _ H). unfold marks at 2. simpl. lia.
  - apply (futures_same s); try done. intros g. simpl. rewrite (sumf_insert _ _ _ _ _ H).
    destruct H0; unfold marks at 2 3; simpl; lia.
  - apply (futures_same s); try done. intros g. simpl. rewrite sumf_app, sumf_one. unfold marks at 2. simpl. lia.
  - apply (futures_same s); try done. intros g. simpl. rewrite (sumf_delete _ _ _ _ H). unfold marks at 2. simpl. lia.
Qed.

(** ** The tables of requests *)

(** Every request of this agent has the number of its future as its id. *)
Definition call_of (c : call) : Z * nat * Message T :=
  match c with
  | SRegistered to f m _ _ | SCounted to f m _ _ | STimed to f m _ _ => (to, f, m)
  end.
Definition waits_in (s : tp_agent) (w : Z) (id : Z) (f : nat) : Prop :=
  exists p, connectedPipes_ s !! w = Some p /\ pendingResponseMessage_ p !! id = Some f.
Definition known (s : tp_agent) (id : Z) (f : nat) : Prop := id = Z.of_nat f /\ (f < length (futures s))%nat.
Definition entry_known (s : tp_agent) (e : TimeoutMessageMetadata) : Prop := known s (messageId e) (responseFuture e).

(** [lost]: futures that have been taken from the tables, about to be marked. *)
Record tracked (lost : list nat) (s : tp_agent) : Prop := {
  tr_next : nextMessageID_ s = Z.of_nat (length (futures s));
  tr_pending : forall w id f, waits_in s w id f -> known s id f;
  tr_unique : forall w1 w2 id f1 f2, waits_in s w1 id f1 -> waits_in s w2 id f2 -> w1 = w2;
  tr_open : forall f fut, futures s !! f = Some fut -> isComplete fut = false ->
    f ∈ lost \/ exists w, waits_in s w (Z.of_nat f) f;
  tr_calls : forall k t c, threads s !! k = Some (mkThread t (Some c)) ->
    known s (uint64 (id_ (call_of c).2)) (call_of c).1.2;
  tr_writes : forall w p id e, connectedPipes_ s !! w = Some p -> (id, e) ∈ writes p -> exists f, known s id f;
  tr_timeouts : forall t l e, timeoutMap_ s !! t = Some l -> e ∈ l -> entry_known s e;
  tr_batch : forall e, e ∈ batch (timeoutThread_ s) -> entry_known s e;
}.
Definition small (s : tp_agent) : Prop := Z.of_nat (length (futures s)) < 2 ^ 63.

Lemma markFuture_frame f r s : let s' := markFuture f r s in
  connectedPipes_ s' = connectedPipes_ s /\ nextMessageID_ s' = nextMessageID_ s /\ length (futures s') = length (futures s) /\
  abandoned s' = abandoned s /\ timeoutMap_ s' = timeoutMap_ s /\ timeoutThread_ s' = timeoutThread_ s /\
  requests s' = requests s /\ responses s' = responses s /\
  (threads s' = threads s \/ threads s' = threads s ++ [mkThread (TMark f r) None]).
Proof.
  unfold markFuture. destruct (futures s !! f) as [fut|]; [|by auto 10]. destruct (isComplete fut); [by auto 10|]. simpl.
  rewrite length_insert. auto 10.
Qed.
Lemma futures_of_mark f r s g : futures (markFuture f r s) !! g =
  (fun fut => if bool_decide (g = f) then mkFuture true (jitFuture fut) else fut) <$> futures s !! g.
Proof.
  unfold markFuture. destruct (futures s !! f) as [fut|] eqn:Ef.
  - destruct (isComplete fut) eqn:Ec; simpl.
    + case_bool_decide; subst; [rewrite Ef; simpl; destruct fut; simpl in *; by subst|]. by destruct (futures s !! g).
    + case_bool_decide; subst; [rewrite list_lookup_insert_eq by (by eapply lookup_lt_Some); by rewrite Ef|].
      rewrite list_lookup_insert_ne by done. by destruct (futures s !! g).
  - case_bool_decide; subst; [by rewrite Ef|]. by destruct (futures s !! g).
Qed.

(** [known] only depends on the number of futures. *)
Lemma known_le s s' id f : (length (futures s) <= length (futures s'))%nat -> known s id f -> known s' id f.
Proof. unfold known. intros ? []. split; [done|lia]. Qed.

Lemma tracked_markFuture lost f r s : tracked (f :: lost) s -> tracked lost (markFuture f r s).
Proof.
  intros Ht. destruct (markFuture_frame f r s) as (E1 & E2 & E3 & _ & E4 & E5 & _ & _ & Eth).
  assert (Hk : forall id g, known s id g -> known (markFuture f r s) id g) by (intros id g; apply known_le; lia).
  assert (Hw : forall w id g, waits_in (markFuture f r s) w id g <-> waits_in s w id g) by (intros; unfold waits_in; by rewrite E1).
  destruct Ht. split; rewrite ?E1, ?E2, ?E3, ?E4, ?E5; try done; try (intros; eauto; fail).
  - intros w id g H%Hw. eauto.
  - intros w1 w2 id f1 f2 H%Hw H'%Hw. eauto.
  - intros g fut. rewrite futures_of_mark. destruct (futures s !! g) as [fut0|] eqn:Eg; [|done]. intros [= <-] Hc.
    case_bool_decide as Hg; [done|]. destruct (tr_open0 g fut0 Eg Hc) as [[->|Hl]%elem_of_cons|[w Hw0]]; [done|by left|].
    right. exists w. by apply Hw.
  - intros k t c Hc. apply Hk. destruct Eth as [Eth|Eth]; rewrite Eth in Hc; [eauto|].
    apply lookup_app_Some in Hc as [Hc|[_ Hc]]; [eauto|]. by apply list_lookup_singleton_Some in Hc as [_ [=]].
  - intros w p id e Hp Hin. destruct (tr_writes0 w p id e Hp Hin) as [g Hg]. eauto.
  - intros t l e Hl He. apply Hk. by apply (tr_timeouts0 t l).
  - intros e He. apply Hk. by apply tr_batch0.
Qed.
Lemma tracked_weaken lost lost' s : tracked lost s -> (forall f, f ∈ lost -> f ∈ lost') -> tracked lost' s.
Proof. intros [] H. split; eauto. intros f fut Hf Hc. destruct (tr_open0 f fut Hf Hc); eauto. Qed.
Lemma tracked_mark lost f r s : tracked lost s -> tracked lost (markFuture f r s).
Proof. intros H. apply tracked_markFuture. eapply tracked_weaken; [exact H|]. intros g. apply list_elem_of_further. Qed.
Lemma tracked_markAll what l lost s : tracked (map snd l ++ lost) s -> tracked lost (markAll what l s).
Proof. revert s. induction l as [|e l IH]; intros s Ht; simpl; [done|]. apply IH. by apply tracked_markFuture. Qed.

Lemma lookup_upd_pipe s to g w : connectedPipes_ (upd_pipe to g s) !! w =
  if decide (w = to) then g <$> connectedPipes_ s !! w else connectedPipes_ s !! w.
Proof.
  simpl. destruct (decide (w = to)) as [->|]; [apply lookup_alter_eq|by apply lookup_alter_ne].
Qed.

(** An update of a pipe that keeps the table of pending responses, or forgets
    part of it. *)
Lemma tracked_pipe lost lost' to g s : tracked lost s ->
  (forall p id f, connectedPipes_ s !! to = Some p -> pendingResponseMessage_ (g p) !! id = Some f -> pendingResponseMessage_ p !! id = Some f) ->
  (forall f, f ∈ lost -> f ∈ lost') ->
  (forall p f, connectedPipes_ s !! to = Some p -> pendingResponseMessage_ p !! Z.of_nat f = Some f ->
    f ∈ lost' \/ pendingResponseMessage_ (g p) !! Z.of_nat f = Some f) ->
  (forall p id e, connectedPipes_ s !! to = Some p -> (id, e) ∈ writes (g p) -> (id, e) ∈ writes p \/ exists f, known s id f) ->
  tracked lost' (upd_pipe to g s).
Proof.
  intros Ht Hsub Hl Hkeep Hwr. pose proof (lookup_upd_pipe s to g) as Hp.
  assert (Hw : forall w id f, waits_in (upd_pipe to g s) w id f -> waits_in s w id f).
  { intros w id f (p & E & E2). rewrite Hp in E. destruct (decide (w = to)) as [->|]; [|by exists p].
    destruct (connectedPipes_ s !! to) as [p0|] eqn:E0; simplify_eq/=. exists p0. eauto. }
  destruct Ht. split; simpl; try done; try (intros; eauto; fail).
  - intros f fut Hf Hc. destruct (tr_open0 f fut Hf Hc) as [H|(w & p & E & E2)]; [left; eauto|].
    destruct (decide (w = to)) as [->|Hn].
    + destruct (Hkeep p f E E2) as [H|H]; [by left|]. right. exists to, (g p). split; [|done]. rewrite Hp, decide_True, E; done.
    + right. exists w, p. split; [|done]. by rewrite Hp, decide_False.
  - intros w p id e E Hin. simpl in Hp. rewrite Hp in E. destruct (decide (w = to)) as [->|]; [|eauto].
    destruct (connectedPipes_ s !! to) as [p0|] eqn:E0; simplify_eq/=. destruct (Hwr p0 id e eq_refl Hin); eauto.
Qed.

(** Only the calls in progress and the time-outs change, and the new ones are
    about known requests. *)
Lemma tracked_frame lost s s' : tracked lost s -> connectedPipes_ s' = connectedPipes_ s -> nextMessageID_ s' = nextMessageID_ s ->
  futures s' = futures s ->
  (forall k t c, threads s' !! k = Some (mkThread t (Some c)) -> (exists k' t' c', threads s !! k' = Some (mkThread t' (Some c')) /\
     (call_of c).1.2 = (call_of c').1.2 /\ (call_of c).2 = (call_of c').2)) ->
  (forall t l e, timeoutMap_ s' !! t = Some l -> e ∈ l -> entry_known s e) ->
  (forall e, e ∈ batch (timeoutThread_ s') -> entry_known s e) -> tracked lost s'.
Proof.
  intros [] E1 E2 E3 Hc Ht Hb. assert (Hk : forall id f, known s id f -> known s' id f) by (intros; unfold known; by rewrite E3).
  assert (Hw : forall w id f, waits_in s' w id f <-> waits_in s w id f) by (intros; unfold waits_in; by rewrite E1).
  split; unfold entry_known in *; rewrite ?E1, ?E2, ?E3; try done; try (intros; eauto; fail).
  - intros w id f H%Hw. eauto.
  - intros w1 w2 id f1 f2 H%Hw H'%Hw. eauto.
  - intros f fut Hf Hcm. destruct (tr_open0 f fut Hf Hcm) as [H|[w H]]; [by left|]. right. exists w. by apply Hw.
  - intros k t c H. destruct (Hc k t c H) as (k' & t' & c' & H' & -> & ->). eauto.
  - intros w p id e Hp Hin. destruct (tr_writes0 w p id e Hp Hin) as [f Hf]. eauto.
Qed.
Lemma same_calls s s' : threads s' = threads s ->
  (forall k t c, threads s' !! k = Some (mkThread t (Some c)) -> (exists k' t' c', threads s !! k' = Some (mkThread t' (Some c')) /\
     (call_of c).1.2 = (call_of c').1.2 /\ (call_of c).2 = (call_of c').2)).
Proof. intros -> k t c H. by exists k, t, c. Qed.
Lemma insert_calls s k t t1 c c' k0 t0 c0 : threads s !! k = Some (mkThread t c) ->
  <[k := mkThread t1 c']> (threads s) !! k0 = Some (mkThread t0 (Some c0)) ->
  match c' with None => True | Some d' => exists d, c = Some d /\ (call_of d').1.2 = (call_of d).1.2 /\ (call_of d').2 = (call_of d).2 end ->
  exists k' t' c'', threads s !! k' = Some (mkThread t' (Some c'')) /\ (call_of c0).1.2 = (call_of c'').1.2 /\ (call_of c0).2 = (call_of c'').2.
Proof.
  intros Hk [(<- & E & _)|[_ H]]%list_lookup_insert_Some Hc; [|by exists k0, t0, c0]. injection E as <- ->.
  destruct Hc as (d & -> & E1 & E2). by exists k, t, d.
Qed.
Lemma delete_calls s k k0 t0 c0 : delete k (threads s) !! k0 = Some (mkThread t0 (Some c0)) ->
  exists k' t' c'', threads s !! k' = Some (mkThread t' (Some c'')) /\ (call_of c0).1.2 = (call_of c'').1.2 /\ (call_of c0).2 = (call_of c'').2.
Proof.
  intros H%list_elem_of_lookup_2%elem_of_delete. apply list_elem_of_lookup in H as [i Hi]. by exists i, t0, c0.
Qed.

Lemma lookup_emplace {V} (k : Z) (v : V) m j : emplace k v m !! j = if decide (j = k) then Some (default v (m !! k)) else m !! j.
Proof.
  unfold emplace. destruct (decide (j = k)) as [->|Hn].
  - destruct (m !! k) eqn:E; [done|]. apply lookup_insert_eq.
  - destruct (m !! k); [done|]. by rewrite lookup_insert_ne.
Qed.

Lemma small_id s : small s -> 0 <= Z.of_nat (length (futures s)) < 2 ^ 63.
Proof. unfold small. lia. Qed.
Lemma uint64_int64 z : 0 <= z < 2 ^ 63 -> uint64 (int64 z) = z.
Proof. intros H. rewrite int64_id by (unfold in_int64; lia). apply uint64_id. unfold in_uint64. lia. Qed.

(** The pipes after a registration. *)
Lemma registered_pipes k t to a m tmo dm s w :
  connectedPipes_ (registered_state k t to a m tmo dm s) !! w =
    if decide (w = worker_id_ to)
    then Some (upd_pending (<[nextMessageID_ s := length (futures s)]>) (default (pipe_to to a) (connectedPipes_ s !! w)))
    else connectedPipes_ s !! w.
Proof.
  unfold registered_state, new_call. simpl. destruct (decide (w = worker_id_ to)) as [->|].
  - rewrite lookup_alter_eq, lookup_emplace, decide_True; done.
  - rewrite lookup_alter_ne by done. by rewrite lookup_emplace, decide_False.
Qed.
Lemma registered_waits k t to a m tmo dm s w id f :
  waits_in (registered_state k t to a m tmo dm s) w id f <->
  (w = worker_id_ to /\ id = nextMessageID_ s /\ f = length (futures s)) \/
  (waits_in s w id f /\ (w = worker_id_ to -> id <> nextMessageID_ s)).
Proof.
  unfold waits_in. setoid_rewrite registered_pipes. destruct (decide (w = worker_id_ to)) as [->|Hw]; [|naive_solver].
  split.
  - intros (p & [= <-] & E). cbn [pendingResponseMessage_ upd_pending] in E.
    apply lookup_insert_Some in E as [[<- <-]|[Hn E]]; [by left|]. right. split; [|done].
    destruct (connectedPipes_ s !! worker_id_ to) as [p0|]; [by exists p0|done].
  - intros [(_ & -> & ->)|[(p & E & E2) Hn]].
    + eexists. split; [done|]. simpl. by rewrite lookup_insert_eq.
    + rewrite E. eexists. split; [done|]. simpl. rewrite lookup_insert_ne; [done|]. intros En. by apply Hn.
Qed.

Lemma tracked_register k t to a m tmo dm s : tracked [] s -> threads s !! k = Some (mkThread t None) ->
  small (registered_state k t to a m tmo dm s) -> tracked [] (registered_state k t to a m tmo dm s).
Proof.
  intros Ht Hk Hs. set (s' := registered_state k t to a m tmo dm s) in *.
  assert (El : length (futures s') = S (length (futures s))) by (subst s'; unfold registered_state, new_call; simpl; rewrite length_app; simpl; lia).
  unfold small in Hs. rewrite El in Hs. pose proof (tr_next _ _ Ht) as Hn.
  assert (Hkn : forall id f, known s id f -> known s' id f) by (intros id f; apply known_le; lia).
  assert (Hnew : known s' (nextMessageID_ s) (length (futures s))) by (split; [done|lia]).
  assert (Hfresh : forall w f, ~ waits_in s w (nextMessageID_ s) f).
  { intros w f Hw. apply (tr_pending _ _ Ht) in Hw as [E ?]. lia. }
  pose proof (registered_waits k t to a m tmo dm s) as Hw. fold s' in Hw.
  pose proof Ht as []. split.
  - subst s'. unfold registered_state, new_call. simpl. rewrite length_app. simpl. rewrite Hn. unfold uint64. rewrite wrap_small by lia. lia.
  - intros w id f [(-> & -> & ->)|[H _]]%Hw; [done|eauto].
  - intros w1 w2 id f1 f2 [(-> & -> & ->)|[H1 _]]%Hw [(-> & E & ->)|[H2 _]]%Hw; [done| |subst|eauto]; by apply Hfresh in H2 || by apply Hfresh in H1.
  - intros f fut Hf Hc. change (futures s') with (futures s ++ [mkFuture false None]) in Hf.
    apply lookup_app_Some in Hf as [Hf|[Hge Hf]].
    + destruct (tr_open0 f fut Hf Hc) as [H|[w H]]; [by left|]. right. exists w. apply Hw. right. split; [done|].
      intros _ E. rewrite E in H. by apply Hfresh in H.
    + apply list_lookup_singleton_Some in Hf as [Hf _]. right. exists (worker_id_ to). apply Hw. left. split_and!; [done|lia|lia].
  - intros k0 t0 c0 H. change (threads s') with (<[k := mkThread t (Some (SRegistered (worker_id_ to) (length (futures s))
      (setId (int64 (nextMessageID_ s)) m) tmo dm))]> (threads s)) in H.
    apply list_lookup_insert_Some in H as [(<- & [= <- <-] & _)|[_ H]]; [|eauto]. simpl. by rewrite uint64_int64 by lia.
  - intros w p id e Hp Hin. subst s'. rewrite registered_pipes in Hp. destruct (decide (w = worker_id_ to)) as [->|].
    + injection Hp as <-. simpl in Hin. destruct (connectedPipes_ s !! worker_id_ to) as [p0|] eqn:Ep; [|by apply elem_of_nil in Hin].
      destruct (tr_writes0 _ p0 id e Ep Hin) as [f Hf]. eauto.
    + destruct (tr_writes0 w p id e Hp Hin) as [f Hf]. eauto.
  - intros t0 l e Hl He. apply Hkn. by apply (tr_timeouts0 t0 l).
  - intros e He. apply Hkn. by apply tr_batch0.
Qed.

Lemma erase_first_in id l e : e ∈ erase_first id l -> e ∈ l.
Proof.
  induction l as [|x l IH]; simpl; [done|]. destruct (messageId x =? id); [by apply list_elem_of_further|].
  intros [->|H]%elem_of_cons; [apply list_elem_of_here|]. by apply list_elem_of_further, IH.
Qed.
Lemma remove_timeout_in id t m t0 l e : removeFromTimeoutMap id t m !! t0 = Some l -> e ∈ l -> exists l', m !! t0 = Some l' /\ e ∈ l'.
Proof.
  unfold removeFromTimeoutMap. intros Hl He.
  assert ((t0 = t /\ l = erase_first id (default [] (m !! t))) \/ m !! t0 = Some l) as [[-> ->]|H]; [| |by exists l].
  - destruct (erase_first id (default [] (m !! t))) eqn:E.
    + apply lookup_delete_Some in Hl as [_ Hl]. by right.
    + apply lookup_insert_Some in Hl as [[<- <-]|[_ Hl]]; [by left|by right].
  - apply erase_first_in in He. destruct (m !! t) as [l'|]; [by exists l'|by apply elem_of_nil in He].
Qed.
Lemma tracked_remove lost id t s : tracked lost s -> tracked lost (upd_timeoutMap_ (removeFromTimeoutMap id t) s).
Proof.
  intros Ht. apply (tracked_frame lost s); try done.
  - by apply same_calls.
  - simpl. intros t0 l e Hl He. destruct (remove_timeout_in _ _ _ _ _ _ Hl He) as (l' & Hl' & He'). by apply (tr_timeouts _ _ Ht t0 l').
  - apply (tr_batch _ _ Ht).
Qed.

Lemma length_futures_effect a s s' : effect s a s' -> (length (futures s) <= length (futures s'))%nat.
Proof.
  assert (Hall : forall l what s, length (futures (markAll what l s)) = length (futures s)).
  { induction l as [|e l IH]; intros what s0; simpl; [done|]. rewrite IH. apply markFuture_frame. }
  destruct 1; unfold new_call, registered_state; simpl; rewrite ?length_insert, ?length_app; try lia.
  - by rewrite (qt_futures _ _ H).
  - destruct (markFuture_frame (responseFuture e) (FError (timeout_error e)) s) as (_ & _ & E & _). lia.
  - subst s1. destruct (pendingResponseMessage_ p !! id) as [f|]; [|done].
    destruct (markFuture_frame f (FError what) (upd_pipe to (fun p => set_broken (upd_writes (fun _ => rest) p)) s)) as (_ & _ & E & _).
    rewrite E. done.
  - rewrite Hall. done.
  - match goal with |- context [markFuture ?f ?r ?s0] => destruct (markFuture_frame f r s0) as (_ & _ & E & _) end. rewrite E. done.
Qed.

(** No error message has the number of a future. *)
Lemma tracked_effect a s s' : effect s a s' -> small s' -> tracked [] s -> tracked [] s'.
Proof.
  intros Heff Hsm Ht. assert (Hsm0 : small s) by (unfold small in *; pose proof (length_futures_effect _ s s' Heff); lia).
  destruct Heff.
  - destruct H as []. apply (tracked_frame [] s); try done.
    + by apply same_calls.
    + rewrite qt_timeouts0. apply (tr_timeouts _ _ Ht).
    + rewrite qt_batch0. apply (tr_batch _ _ Ht).
  - apply (tracked_frame [] s); try done.
    + by apply same_calls.
    + simpl. intros t0 l e [_ Hl]%lookup_delete_Some. by apply (tr_timeouts _ _ Ht t0 l).
    + simpl. intros e He. destruct (timeoutMap_ s !! t) as [l|] eqn:El; [|by apply elem_of_nil in He]. by apply (tr_timeouts _ _ Ht t l).
  - assert (tracked [] (markFuture (responseFuture e) (FError (timeout_error e)) s)) as Hm by (by apply tracked_mark).
    apply (tracked_frame [] _ _ Hm); try done.
    + by apply same_calls.
    + apply (tr_timeouts _ _ Hm).
    + simpl. intros e' He. apply (tr_batch _ _ Hm).
      destruct (markFuture_frame (responseFuture e) (FError (timeout_error e)) s) as (_ & _ & _ & _ & _ & -> & _).
      rewrite H. by apply list_elem_of_further.
  - by apply tracked_register.
  - apply (tracked_frame [] s); try done; [|apply (tr_timeouts _ _ Ht)|apply (tr_batch _ _ Ht)].
    intros k0 t0 c0 H1. eapply insert_calls; [exact H|exact H1|]. by eexists.
  - apply (tracked_frame [] s); try done; [|apply (tr_timeouts _ _ Ht)|apply (tr_batch _ _ Ht)].
    intros k0 t0 c0 H1. eapply insert_calls; [exact H|exact H1|]. done.
  - apply (tracked_frame [] s); try done; [|apply (tr_timeouts _ _ Ht)|apply (tr_batch _ _ Ht)].
    intros k0 t0 c0 H1. eapply insert_calls; [exact H|exact H1|]. by eexists.
  - apply (tracked_frame [] s); try done.
    + intros k0 t0 c0 H1. eapply insert_calls; [exact H|exact H1|]. by eexists.
    + simpl. intros t0 l x [[<- <-]|[_ Hl]]%lookup_insert_Some Hx; [|by apply (tr_timeouts _ _ Ht t0 l)].
      apply elem_of_app in Hx as [Hx| ->%list_elem_of_singleton].
      * destruct (timeoutMap_ s !! e) as [l|] eqn:El; [by apply (tr_timeouts _ _ Ht e l)|by apply elem_of_nil in Hx].
      * apply (tr_calls _ _ Ht k t _ H).
    + simpl. rewrite batch_notify. apply (tr_batch _ _ Ht).
  - set (s1 := upd_pipe to (upd_writes (fun l => l ++ [(uint64 (id_ m), e)])) s).
    assert (tracked [] s1) as H1.
    { apply (tracked_pipe [] []); try done; [by right|]. simpl. intros p id e' Hp [Hin| [= -> ->]%list_elem_of_singleton]%elem_of_app; [by left|].
      right. exists f. apply (tr_calls _ _ Ht k t _ H). }
    apply (tracked_frame [] s1); try done; [|apply (tr_timeouts _ _ H1)|apply (tr_batch _ _ H1)].
    intros k0 t0 c0 H2. eapply (insert_calls s1); [exact H|exact H2|done].
  - assert (tracked [] s1) as H1.
    { apply (tracked_pipe [] []); try done; [by right|]. simpl. intros p0 id0 e0 Hp Hin. simplify_eq. left. rewrite H0.
      by apply list_elem_of_further. }
    case_match; [by apply tracked_mark|done].
  - apply (tracked_pipe [] []); try done; [by right|]. simpl. intros p0 id0 e0 Hp Hin. simplify_eq. left. rewrite H0.
    by apply list_elem_of_further.
  - apply tracked_remove, tracked_markAll. rewrite app_nil_r. apply (tracked_pipe [] _); try done.
    + intros f Hf. by apply elem_of_nil in Hf.
    + simpl. intros p0 f Hp Hf. simplify_eq. left. apply list_elem_of_fmap. exists (Z.of_nat f, f). split; [done|].
      by apply elem_of_map_to_list.
    + simpl. intros p0 id0 e0 Hp Hin. by left.
  - apply tracked_markFuture, tracked_remove. apply (tracked_pipe [] _); try done.
    + simpl. intros p0 id0 f0 Hp [_ Hf]%lookup_delete_Some. done.
    + intros f0 Hf. by apply elem_of_nil in Hf.
    + simpl. intros p0 f0 Hp Hf. simplify_eq. destruct (decide (id = Z.of_nat f0)) as [E|Hn].
      * left. assert (f = f0) as ->; [|apply list_elem_of_here]. rewrite E in H2. congruence.
      * right. by rewrite lookup_delete_ne.
    + simpl. intros p0 id0 e0 Hp Hin. by left.
  - pose proof Ht as []. assert (El : forall f0, known s (Z.of_nat f0) f0 <-> (f0 < length (futures s))%nat) by (unfold known; naive_solver).
    split; unfold entry_known, known, waits_in in *; simpl; rewrite ?length_insert; try done.
    + intros g fut Hg Hc. destruct (decide (g = f)) as [->|Hn].
      * rewrite list_lookup_insert_eq in Hg by (by eapply lookup_lt_Some). injection Hg as <-. simpl in Hc. subst.
        by apply (tr_open0 f (mkFuture false None)).
      * rewrite list_lookup_insert_ne in Hg by done. by apply (tr_open0 g fut).
    + intros k0 t0 c0 [(_ & [=] & _)|[_ H1]]%list_lookup_insert_Some. by apply (tr_calls0 k0 t0 c0).
  - apply (tracked_frame [] s); try done; [|apply (tr_timeouts _ _ Ht)|apply (tr_batch _ _ Ht)].
    intros k0 t0 c0 H1. eapply delete_calls. exact H1.
  - apply (tracked_frame [] s); try done; [|apply (tr_timeouts _ _ Ht)|apply (tr_batch _ _ Ht)].
    intros k0 t0 c0 H1. eapply insert_calls; [exact H|exact H1|done].
  - apply (tracked_frame [] s); try done; [|apply (tr_timeouts _ _ Ht)|apply (tr_batch _ _ Ht)].
    intros k0 t0 c0 [H1|[_ H1]]%lookup_app_Some; [by exists k0, t0, c0|]. by apply list_lookup_singleton_Some in H1 as [_ [=]].
  - apply (tracked_frame [] s); try done; [|apply (tr_timeouts _ _ Ht)|apply (tr_batch _ _ Ht)].
    intros k0 t0 c0 H1. eapply delete_calls. exact H1.
Qed.

Record agent_inv (s : tp_agent) : Prop := {
  ai_counted : counted s;
  ai_futures : futures_ok s;
  ai_tracked : tracked [] s;
}.

Lemma sumf_replicate {A} (w : A -> Z) n x : sumf w (replicate n x) = Z.of_nat n * w x.
Proof. induction n as [|n IH]; [done|]. change (replicate (S n) x) with ([x] ++ replicate n x). rewrite sumf_app, sumf_one, IH. lia. Qed.
Lemma new_agent_inv info opts reverse urls users : agent_inv (new_agent info opts reverse urls users).
Proof.
  assert (Hz : forall z, z = 0 -> 0 = int32 z) by (by intros z ->).
  split; split; try done; simpl; unfold active_calls; simpl; rewrite ?sumf_replicate; unfold completing, uncounted, wserving, wasync; simpl;
    try (apply Hz; unfold sumf; simpl; lia).
  - intros f. rewrite sumf_replicate. unfold marks. simpl. lia.
  - intros w id f (p & Hp & _). simpl in Hp; by rewrite lookup_empty in Hp.
  - intros w1 w2 id f1 f2 (p & Hp & _). simpl in Hp; by rewrite lookup_empty in Hp.
  - intros k t c H. by apply lookup_replicate_1 in H as [[=] _].
  - intros e He. by apply elem_of_nil in He.
Qed.

Lemma run_grows allowed s s' : run allowed s s' -> (length (futures s) <= length (futures s'))%nat.
Proof. induction 1 as [|s1 s2 s3 e Hr IH Ha Hs]; [done|]. pose proof (length_futures_effect _ _ _ (tp_step_effect e s2 s3 Hs)). lia. Qed.

(** A property that every step preserves as long as the ids fit. *)
Lemma tp_run_inv (P : tp_agent -> Prop) allowed s s' : (forall s1 s2 e, allowed s1 e -> step e s1 s2 -> small s2 -> P s1 -> P s2) ->
  run allowed s s' -> small s' -> P s -> P s'.
Proof.
  intros Hst. induction 1 as [|s1 s2 s3 e Hr IH Ha Hs]; intros Hsm HP; [done|].
  assert (small s2) by (unfold small in *; pose proof (length_futures_effect _ _ _ (tp_step_effect e s2 s3 Hs)); lia). eauto.
Qed.
Lemma agent_inv_effect a s s' : effect s a s' -> small s' -> agent_inv s -> agent_inv s'.
Proof.
  intros He Hsm []. split; [by apply (counted_effect a s)|by apply (futures_effect a s)|by apply (tracked_effect a s)].
Qed.
Lemma agent_inv_run allowed s s' : run allowed s s' -> small s' -> agent_inv s -> agent_inv s'.
Proof. apply tp_run_inv. intros s1 s2 e _ Hs. eapply agent_inv_effect. by eapply tp_step_effect. Qed.

(** C9: whatever threads, pipes and the time-out thread do, clientActiveCalls_ is the number of requests whose future is not marked, plus those that a task of the pool is still completing, minus the calls of send() that have not counted yet or threw before they did; a future that is not marked is in the table of exactly one pipe; a marked one has its result, or exactly one task that will give it, so no future is completed twice; the counts of the server are those of the requests it serves. *)
Theorem tp_calls_counted (allowed : tp_agent -> event -> Prop) (info : WorkerInfo) opts reverse urls (users : nat) (s : tp_agent) :
  run allowed (new_agent info opts reverse urls users) s -> small s ->
  clientActiveCalls_ s = int32 (active_calls s) /\
  serverActiveCalls_ s = int32 (sumf wserving (threads s)) /\ serverActiveAsyncCalls_ s = int32 (sumf wasync (threads s)) /\
  (forall f fut, futures s !! f = Some fut ->
    if isComplete fut
    then sumf (marks f) (threads s) = match jitFuture fut with Some _ => 0 | None => 1 end
    else jitFuture fut = None /\ sumf (marks f) (threads s) = 0 /\
      exists w, forall w', (exists p, connectedPipes_ s !! w' = Some p /\ pendingResponseMessage_ p !! Z.of_nat f = Some f) <-> w' = w).
Proof.
  intros Hr Hsm. destruct (agent_inv_run allowed _ s Hr Hsm (new_agent_inv info opts reverse urls users)) as [[H1 H2 H3] [F1 F2] Ht].
  split_and!; [done..|]. intros f fut Hf. pose proof (F2 f) as Hm. rewrite Hf in Hm. destruct fut as [[] j]; simpl.
  - by destruct j.
  - pose proof (F1 f _ Hf eq_refl) as Hj. simpl in Hj. subst. split_and!; [done..|].
    destruct (tr_open _ _ Ht f _ Hf eq_refl) as [H|[w Hw]]; [by apply elem_of_nil in H|]. exists w. intros w'. split.
    + intros H. by apply (tr_unique _ _ Ht w' w (Z.of_nat f) f f).
    + by intros ->.
Qed.

(** ** No request is forgotten *)

(** The requests whose write has not been called back. *)
Definition call_id (w : Z) (t : thread) : option Z :=
  match sending t with Some c => if (call_of c).1.1 =? w then Some (Z.of_nat (call_of c).1.2) else None | None => None end.
Definition in_flight (w : Z) (p : ClientPipe) (s : tp_agent) : list Z := omap (call_id w) (threads s) ++ map fst (writes p).

Definition open_future (fs : list AtomicJitFuture) (f : nat) : Prop := exists fut, fs !! f = Some fut /\ isComplete fut = false.
(** As long as TensorPipe has reported no error, there are at most as many
    requests in the table of a pipe as there are callbacks and calls that will deal
    with them; after an error, an open request has its own, or a read will fail. *)
Record pipe_ok (ids : list Z) (p : ClientPipe) (fs : list AtomicJitFuture) : Prop := {
  po_nodup : NoDup ids;
  po_sub : broken p = false -> forall id, id ∈ ids -> is_Some (pendingResponseMessage_ p !! id);
  po_count : broken p = false -> (size (pendingResponseMessage_ p) <= length ids + length (reads p))%nat;
  po_broken : broken p = true -> forall f, pendingResponseMessage_ p !! Z.of_nat f = Some f -> open_future fs f ->
    Z.of_nat f ∈ ids \/ reads p <> [];
}.
Definition progress (s : tp_agent) : Prop := abandoned s = [] ->
  (forall w p, connectedPipes_ s !! w = Some p -> pipe_ok (in_flight w p s) p (futures s)) /\
  (forall k t c, threads s !! k = Some (mkThread t (Some c)) -> is_Some (connectedPipes_ s !! (call_of c).1.1)).

Lemma pigeonhole (ids : list Z) (m : gmap Z nat) k : NoDup ids -> (forall id, id ∈ ids -> is_Some (m !! id)) ->
  (size m <= length ids)%nat -> is_Some (m !! k) -> k ∈ ids.
Proof.
  intros Hnd Hsub Hsize [f Hf].
  assert (ids ⊆+ (map_to_list m).*1) as Hs.
  { apply NoDup_submseteq; [done|]. intros id [g Hg]%Hsub. apply list_elem_of_fmap. exists (id, g). split; [done|]. by apply elem_of_map_to_list. }
  apply submseteq_length_Permutation in Hs; [|by rewrite length_fmap, length_map_to_list].
  rewrite Hs. apply list_elem_of_fmap. exists (k, f). split; [done|]. by apply elem_of_map_to_list.
Qed.

Lemma pipe_ok_ids ids ids' p fs : ids' ≡ₚ ids -> pipe_ok ids p fs -> pipe_ok ids' p fs.
Proof. intros E []. split; [by rewrite E|..]; setoid_rewrite E; done. Qed.
Lemma pipe_ok_futures ids p fs fs' : (forall f, open_future fs' f -> open_future fs f) -> pipe_ok ids p fs -> pipe_ok ids p fs'.
Proof. intros H []. split; [done..|]. eauto. Qed.

Lemma open_mark f r s g : open_future (futures (markFuture f r s)) g <-> g <> f /\ open_future (futures s) g.
Proof.
  unfold open_future. setoid_rewrite futures_of_mark. destruct (futures s !! g) as [fut|]; simpl; [|naive_solver].
  case_bool_decide; naive_solver.
Qed.

Lemma omap_insert w (l : list thread) k t t' : l !! k = Some t -> call_id w t' = call_id w t ->
  omap (call_id w) (<[k := t']> l) ≡ₚ omap (call_id w) l.
Proof. intros Hk E. destruct (omap_replace (call_id w) l k t t' Hk) as (rest & H1 & H2). by rewrite H1, H2, E. Qed.
Lemma omap_delete w (l : list thread) k t : l !! k = Some t -> call_id w t = None -> omap (call_id w) (delete k l) = omap (call_id w) l.
Proof.
  intros Hk E. rewrite delete_take_drop, omap_app. rewrite <- (take_drop_middle l k t Hk) at 3. rewrite omap_app. simpl. by rewrite E.
Qed.
Lemma in_flight_mark w p f r s : in_flight w p (markFuture f r s) = in_flight w p s.
Proof.
  unfold in_flight. destruct (markFuture_frame f r s) as (_ & _ & _ & _ & _ & _ & _ & _ & [->| ->]); [done|].
  rewrite omap_app. simpl. by rewrite app_nil_r.
Qed.

Lemma progress_mark f r s : progress s -> progress (markFuture f r s).
Proof.
  destruct (markFuture_frame f r s) as (E1 & _ & _ & E2 & _ & _ & _ & _ & Eth). intros Hp Ha. rewrite E2 in Ha. destruct (Hp Ha) as [H1 H2].
  rewrite E1. split.
  - intros w p Hw. rewrite in_flight_mark. apply (pipe_ok_futures _ _ (futures s)); [|by apply H1]. intros g Hg. by apply open_mark in Hg as [_ Hg].
  - intros k t c Hk. destruct Eth as [Eth|Eth]; rewrite Eth in Hk; [eauto|]. apply lookup_app_Some in Hk as [Hk|[_ Hk]]; [eauto|].
    by apply list_lookup_singleton_Some in Hk as [_ [=]].
Qed.
Lemma progress_markAll what l s : progress s -> progress (markAll what l s).
Proof. revert s. induction l as [|e l IH]; intros s Hp; simpl; [done|]. by apply IH, progress_mark. Qed.

(** The calls in progress and the pipes stay, up to the order of the threads. *)
Lemma progress_frame s s' : progress s -> abandoned s' = abandoned s -> connectedPipes_ s' = connectedPipes_ s ->
  (forall f, open_future (futures s') f -> open_future (futures s) f) ->
  (forall w, omap (call_id w) (threads s') ≡ₚ omap (call_id w) (threads s)) ->
  (forall k t c, threads s' !! k = Some (mkThread t (Some c)) -> exists k' t' c', threads s !! k' = Some (mkThread t' (Some c')) /\
     (call_of c).1.1 = (call_of c').1.1) -> progress s'.
Proof.
  intros Hp E1 E2 Hf Hids Hc Ha. rewrite E1 in Ha. destruct (Hp Ha) as [H1 H2]. rewrite E2. split.
  - intros w p Hw. apply (pipe_ok_futures _ _ (futures s) _ Hf). eapply pipe_ok_ids; [|by apply H1]. unfold in_flight. by rewrite Hids.
  - intros k t c Hk. destruct (Hc k t c Hk) as (k' & t' & c' & Hk' & ->). eauto.
Qed.
Lemma progress_same s s' : progress s -> abandoned s' = abandoned s -> connectedPipes_ s' = connectedPipes_ s ->
  futures s' = futures s -> threads s' = threads s -> progress s'.
Proof. intros Hp E1 E2 E3 E4. apply (progress_frame s); rewrite ?E3, ?E4; try done. intros k t c Hk. by exists k, t, c. Qed.
(** One thread changes, and goes on with the call it is in, or is in none. *)
Lemma progress_thread s k t c t' c' g : progress s -> threads s !! k = Some (mkThread t c) ->
  match c' with
  | Some d' => exists d, c = Some d /\ (call_of d').1 = (call_of d).1
  | None => c = None
  end ->
  connectedPipes_ (g s) = connectedPipes_ s /\ abandoned (g s) = abandoned s /\ threads (g s) = threads s /\
    (forall f, open_future (futures (g s)) f -> open_future (futures s) f) ->
  progress (upd_threads (<[k := mkThread t' c']>) (g s)).
Proof.
  intros Hp Hk Hc Hg. destruct Hg as (E1 & E2 & E3 & E4). apply (progress_frame s); simpl; rewrite ?E1, ?E2, ?E3; try done.
  - intros w. apply (omap_insert w _ _ _ _ Hk). unfold call_id. simpl. destruct c' as [d'|]; [|by subst].
    destruct Hc as (d & -> & ->). done.
  - intros k0 t0 c0 [(<- & [= -> ->] & _)|[_ H]]%list_lookup_insert_Some; [|by exists k0, t0, c0].
    destruct Hc as (d & -> & E). exists k, t, d. by rewrite E.
Qed.
Lemma progress_delete s k t g : progress s -> threads s !! k = Some (mkThread t None) ->
  (forall s0, connectedPipes_ (g s0) = connectedPipes_ s0 /\ abandoned (g s0) = abandoned s0 /\ threads (g s0) = threads s0 /\
    futures (g s0) = futures s0) ->
  progress (upd_threads (delete k) (g s)).
Proof.
  intros Hp Hk Hg. destruct (Hg s) as (E1 & E2 & E3 & E4). apply (progress_frame s); simpl; rewrite ?E1, ?E2, ?E3, ?E4; try done.
  - intros w. by rewrite (omap_delete w _ _ _ Hk).
  - intros k0 t0 c0 H%list_elem_of_lookup_2%elem_of_delete. apply list_elem_of_lookup in H as [i Hi]. by exists i, t0, c0.
Qed.

(** One pipe changes. *)
Lemma progress_pipe s to p g : progress s -> connectedPipes_ s !! to = Some p ->
  (abandoned s = [] -> pipe_ok (in_flight to p s) p (futures s) -> pipe_ok (in_flight to (g p) s) (g p) (futures s)) ->
  progress (upd_pipe to g s).
Proof.
  intros Hp Hto Hok Ha. simpl in Ha. destruct (Hp Ha) as [H1 H2]. split.
  - intros w q Hw. rewrite lookup_upd_pipe in Hw. destruct (decide (w = to)) as [->|]; [|by apply H1].
    rewrite Hto in Hw. injection Hw as <-. change (in_flight to (g p) (upd_pipe to g s)) with (in_flight to (g p) s). apply Hok; [done|]. by apply H1.
  - intros k t c Hk. rewrite lookup_upd_pipe. destruct (decide _) as [E|]; [|by apply (H2 k t)]. rewrite E, Hto. by eexists.
Qed.

Lemma calls_without_pipe s w : progress s -> abandoned s = [] -> connectedPipes_ s !! w = None -> omap (call_id w) (threads s) = [].
Proof.
  intros Hp Ha Hn. destruct (Hp Ha) as [_ H2]. destruct (omap _ _) as [|i l] eqn:E; [done|]. exfalso.
  assert (i ∈ omap (call_id w) (threads s)) as Hi by (rewrite E; apply list_elem_of_here).
  apply list_elem_of_omap in Hi as ([t [c|]] & Ht & Hc); [|done]. unfold call_id in Hc. simpl in Hc.
  destruct (Z.eqb_spec (call_of c).1.1 w) as [<-|]; [|done]. apply list_elem_of_lookup in Ht as [k Hk].
  destruct (H2 k t c Hk) as [p Hp']. congruence.
Qed.

(** The ids in flight are ids of futures. *)
Lemma in_flight_known s w p : tracked [] s -> connectedPipes_ s !! w = Some p -> forall id, id ∈ in_flight w p s ->
  exists f, known s id f.
Proof.
  intros Ht Hw id [Hi|Hi]%elem_of_app.
  - apply list_elem_of_omap in Hi as ([t [c|]] & Hin & Hc); [|done]. unfold call_id in Hc. simpl in Hc.
    destruct (_ =? _); [|done]. injection Hc as <-. apply list_elem_of_lookup in Hin as [k Hk].
    destruct (tr_calls _ _ Ht k t c Hk) as [_ Hlt]. by exists (call_of c).1.2.
  - apply list_elem_of_fmap in Hi as ([id' e] & -> & Hin). simpl. by apply (tr_writes _ _ Ht w p id' e).
Qed.

Lemma progress_register k t to a m tmo dm s : tracked [] s -> progress s -> threads s !! k = Some (mkThread t None) ->
  progress (registered_state k t to a m tmo dm s).
Proof.
  intros Ht Hp Hk Ha. simpl in Ha. destruct (Hp Ha) as [H1 H2]. set (c := SRegistered (worker_id_ to) (length (futures s))
    (setId (int64 (nextMessageID_ s)) m) tmo dm).
  assert (Hth : threads (registered_state k t to a m tmo dm s) = <[k := mkThread t (Some c)]> (threads s)) by done.
  pose proof (tr_next _ _ Ht) as Hn.
  assert (Hopen : forall f, (f < length (futures s))%nat -> open_future (futures (registered_state k t to a m tmo dm s)) f -> open_future (futures s) f).
  { intros f Hf (fut & E & Hc). exists fut. split; [|done]. simpl in E. by rewrite lookup_app_l in E. }
  split.
  - intros w p Hw. rewrite registered_pipes in Hw. unfold in_flight. rewrite Hth.
    destruct (omap_replace (call_id w) (threads s) k _ (mkThread t (Some c)) Hk) as (rest & R1 & R2). simpl in R1.
    destruct (decide (w = worker_id_ to)) as [->|Hne].
    + injection Hw as <-. assert (call_id (worker_id_ to) (mkThread t (Some c)) = Some (nextMessageID_ s)) as Ec.
      { unfold call_id. simpl. by rewrite Z.eqb_refl, Hn. }
      rewrite Ec in R2. simpl in R2. set (p0 := default (pipe_to to a) (connectedPipes_ s !! worker_id_ to)).
      assert (Hp0 : pipe_ok (in_flight (worker_id_ to) p0 s) p0 (futures s) /\
        forall id, (id ∈ in_flight (worker_id_ to) p0 s \/ is_Some (pendingResponseMessage_ p0 !! id)) -> id < nextMessageID_ s).
      { subst p0. destruct (connectedPipes_ s !! worker_id_ to) as [p|] eqn:Ep; simpl.
        - split; [by apply H1|]. intros id [Hi|[f Hf]].
          + destruct (in_flight_known s _ p Ht Ep id Hi) as (f & -> & ?). lia.
          + assert (waits_in s (worker_id_ to) id f) as Hwt by (by exists p). apply (tr_pending _ _ Ht) in Hwt as [-> ?]. lia.
        - unfold in_flight. rewrite (calls_without_pipe s _ Hp Ha Ep). simpl. split; [split; simpl; [by apply NoDup_nil_2|intros _ id Hi; by apply elem_of_nil in Hi|intros _; rewrite map_size_empty; lia|done]|].
          intros id [Hi|[f Hf]]; [by apply elem_of_nil in Hi|]. by rewrite lookup_empty in Hf. }
      destruct Hp0 as [[N1 N2 N3 N4] Hlt].
      assert (Eids : omap (call_id (worker_id_ to)) (<[k := mkThread t (Some c)]> (threads s)) ++ map fst (writes p0) ≡ₚ
        nextMessageID_ s :: in_flight (worker_id_ to) p0 s) by (unfold in_flight; by rewrite R2, R1).
      eapply (pipe_ok_ids (nextMessageID_ s :: in_flight (worker_id_ to) p0 s)); [exact Eids|]. split; simpl.
      * constructor; [|done]. intros Hi. specialize (Hlt _ (or_introl Hi)). lia.
      * intros Hb id [->|Hi]%elem_of_cons; [rewrite lookup_insert_eq; by eexists|].
        rewrite lookup_insert_ne; [by apply N2|]. specialize (Hlt _ (or_introl Hi)). lia.
      * intros Hb. specialize (N3 Hb). rewrite map_size_insert. case_match; simpl; lia.
      * intros Hb f Hf Ho. apply lookup_insert_Some in Hf as [[E _]|[Hnf Hf]]; [left; rewrite E; apply list_elem_of_here|].
        specialize (Hlt _ (or_intror (mk_is_Some _ _ Hf))).
        destruct (N4 Hb f Hf) as [Hi|Hr]; [apply Hopen; [lia|done]|left; by apply list_elem_of_further|by right].
    + assert (call_id w (mkThread t (Some c)) = None) as Ec.
      { unfold call_id. simpl. by rewrite (proj2 (Z.eqb_neq _ _)). }
      rewrite Ec in R2. simpl in R2. eapply (pipe_ok_ids (in_flight w p s)); [unfold in_flight; by rewrite R2, R1|].
      destruct (H1 w p Hw) as [N1 N2 N3 N4]. split; [done..|]. intros Hb f Hf Ho. apply N4; [done..|]. apply Hopen; [|done].
      assert (waits_in s w (Z.of_nat f) f) as Hwt by (by exists p). apply (tr_pending _ _ Ht) in Hwt as [_ ?]. done.
  - intros k0 t0 c0 Hk0. rewrite Hth in Hk0. rewrite registered_pipes. destruct (decide _); [by eexists|].
    apply list_lookup_insert_Some in Hk0 as [(<- & [= <- <-] & _)|[_ Hk0]]; [done|by apply (H2 k0 t0)].
Qed.

(** The answer comes after the callback of the request's write. *)
Definition in_order (s : tp_agent) (a : kind) : Prop :=
  match a with
  | KAnswer w id => forall p, connectedPipes_ s !! w = Some p -> id ∉ in_flight w p s
  | _ => True
  end.

Lemma progress_write_failed s to p id e rest what : progress s -> connectedPipes_ s !! to = Some p -> writes p = (id, e) :: rest ->
  tracked [] s ->
  let s1 := upd_pipe to (fun p => set_broken (upd_writes (fun _ => rest) p)) s in
  progress (match pendingResponseMessage_ p !! id with Some f => markFuture f (FError what) s1 | None => s1 end).
Proof.
  intros Hp Hto Hw Ht s1.
  set (s2 := match pendingResponseMessage_ p !! id with Some f => markFuture f (FError what) s1 | None => s1 end).
  assert (Hfr : connectedPipes_ s2 = connectedPipes_ s1 /\ abandoned s2 = abandoned s1 /\
    (forall w q, in_flight w q s2 = in_flight w q s1) /\
    (forall f, open_future (futures s2) f -> open_future (futures s) f /\ pendingResponseMessage_ p !! id <> Some f) /\
    (forall k t c, threads s2 !! k = Some (mkThread t (Some c)) -> threads s !! k = Some (mkThread t (Some c)))).
  { subst s2. destruct (pendingResponseMessage_ p !! id) as [f|]; [|split_and!; [done..|by intros|done]].
    destruct (markFuture_frame f (FError what) s1) as (-> & _ & _ & -> & _ & _ & _ & _ & Eth). split_and!; [done..| | |].
    - intros w q. apply in_flight_mark.
    - intros g [Hg Ho]%open_mark. split; [done|congruence].
    - intros k t c Hk. destruct Eth as [Eth|Eth]; rewrite Eth in Hk; [done|].
      apply lookup_app_Some in Hk as [Hk|[_ Hk]]; [done|]. by apply list_lookup_singleton_Some in Hk as [_ [=]]. }
  destruct Hfr as (F1 & F2 & F3 & F4 & F5). intros Ha. rewrite F2 in Ha. destruct (Hp Ha) as [H1 H2]. rewrite F1. split.
  - intros w q Hq. rewrite F3. change (in_flight w q s1) with (in_flight w q s). unfold s1 in Hq. rewrite lookup_upd_pipe in Hq.
    destruct (decide (w = to)) as [->|]; [|eapply pipe_ok_futures; [|by apply H1]; intros g Hg; by apply F4].
    rewrite Hto in Hq. injection Hq as <-. destruct (H1 to p Hto) as [N1 N2 N3 N4].
    unfold in_flight in *. rewrite Hw in N1, N2, N3, N4. simpl in *.
    assert (Eids : omap (call_id to) (threads s) ++ id :: map fst rest ≡ₚ id :: (omap (call_id to) (threads s) ++ map fst rest)) by (by rewrite Permutation_middle).
    rewrite Eids in N1. apply NoDup_cons in N1 as N1'. destruct N1' as [Nid N1']. split; [done|done|done|]. simpl. intros _ f Hf Ho.
    destruct (F4 f Ho) as [Ho' Hne].
    assert (Hid : Z.of_nat f <> id) by (intros E; apply Hne; by rewrite <- E).
    assert (Z.of_nat f ∈ omap (call_id to) (threads s) ++ id :: map fst rest \/ reads p <> []) as [Hin|]; [|left|by right].
    + destruct (broken p) eqn:Eb; [by apply N4|]. destruct (reads p) eqn:Er; [left|by right].
      apply (pigeonhole _ (pendingResponseMessage_ p)); [by rewrite Eids|by apply N2| |by eexists].
      specialize (N3 eq_refl). simpl in N3. lia.
    + rewrite Eids in Hin. by apply elem_of_cons in Hin as [?|].
  - intros k t c Hk. apply F5 in Hk. unfold s1. rewrite lookup_upd_pipe. destruct (decide _) as [E|]; [|by apply (H2 k t)].
    rewrite E, Hto. by eexists.
Qed.

Lemma progress_effect a s s' : effect s a s' -> in_order s a -> tracked [] s -> progress s -> progress s'.
Proof.
  intros Heff Hord Ht Hp. destruct Heff.
  - destruct H as []. by apply (progress_same s).
  - by apply (progress_same s).
  - apply (progress_same (markFuture (responseFuture e) (FError (timeout_error e)) s)); try done. by apply progress_mark.
  - by apply progress_register.
  - apply (progress_thread s k t _ t _ (upd_clientActiveCalls_ (fun n => int32 (n + 1)))  Hp H); [by eexists|done].
  - intros Ha. simpl in Ha. by destruct (abandoned s).
  - apply (progress_thread s k t _ t _ (fun s => s) Hp H); [by eexists|done].
  - eapply (progress_thread s k t _ t _ (fun s => upd_timeoutThread_ notify_timer (upd_timeoutMap_ _ s)) Hp H); [by eexists|done].
  - intros Ha. simpl in Ha. destruct (Hp Ha) as [H1 H2]. destruct (H2 k t _ H) as [p Hto]. simpl in Hto.
    destruct (tr_calls _ _ Ht k t _ H) as [Eid _]. simpl in Eid.
    destruct (omap_replace (call_id to) (threads s) k _ (mkThread t None) H) as (rest & R1 & R2). simpl in R2.
    unfold call_id in R1 at 2. simpl in R1. rewrite Z.eqb_refl in R1. simpl in R1. split.
    + intros w q Hq. change (connectedPipes_ (upd_pipe to (upd_writes (fun l => l ++ [(uint64 (id_ m), e)])) s) !! w = Some q) in Hq.
      rewrite lookup_upd_pipe in Hq. unfold in_flight. simpl. destruct (decide (w = to)) as [->|Hne].
      * rewrite Hto in Hq. injection Hq as <-. apply (pipe_ok_ids (in_flight to p s)).
        -- unfold in_flight. simpl. rewrite R2, R1, map_app, Eid. simpl. solve_Permutation.
        -- destruct (H1 to p Hto) as []. by split.
      * eapply pipe_ok_ids; [|by apply H1]. unfold in_flight. rewrite (omap_insert w _ _ _ (mkThread t None) H); [done|].
        unfold call_id. simpl. rewrite (proj2 (Z.eqb_neq to w)); [done|congruence].
    + intros k0 t0 c0 Hk0. simpl in Hk0. apply list_lookup_insert_Some in Hk0 as [(_ & [=] & _)|[_ Hk0]].
      change (is_Some (connectedPipes_ (upd_pipe to (upd_writes (fun l => l ++ [(uint64 (id_ m), e)])) s) !! (call_of c0).1.1)).
      rewrite lookup_upd_pipe. destruct (decide _) as [E|]; [|by apply (H2 k0 t0)]. rewrite E, Hto. by eexists.
  - by apply (progress_write_failed s to p id e rest what).
  - eapply (progress_pipe s to p); [done|done|]. intros _ [N1 N2 N3 N4]. unfold in_flight in *. rewrite H0 in N1, N2, N3, N4. simpl in *.
    assert (Eids : omap (call_id to) (threads s) ++ id :: map fst rest ≡ₚ id :: (omap (call_id to) (threads s) ++ map fst rest)) by (by rewrite Permutation_middle).
    rewrite Eids in N1. apply NoDup_cons in N1 as [_ N1]. split; simpl; [done| | |by rewrite H1].
    + intros _ i Hi. apply N2; [done|]. rewrite Eids. by apply list_elem_of_further.
    + intros _. specialize (N3 H1). rewrite Eids in N3. simpl in N3. rewrite !length_app in *. simpl. lia.
  - eapply (progress_same (markAll _ _ _)); try done. apply progress_markAll. eapply (progress_pipe s to p); [done|done|].
    intros _ [N1 _ _ _]. by split.
  - apply progress_mark. eapply (progress_same (upd_pipe _ _ s)); try done. eapply (progress_pipe s to p); [done|done|].
    intros _ [N1 N2 N3 N4]. specialize (Hord p H). change (in_flight to (upd_pending (delete id) (upd_reads (fun _ => rest) p)) s) with (in_flight to p s).
    split; simpl; [done| | |by rewrite H1].
    + intros Hb i Hi. rewrite lookup_delete_ne; [by apply N2|]. intros ->. done.
    + intros Hb. specialize (N3 Hb). rewrite H0 in N3. simpl in N3. rewrite map_size_delete, H2. simpl.  lia.
  - apply (progress_thread s k (TMark f r) None (TMarked f) None (upd_futures (<[f := mkFuture flag (Some r)]>)) Hp H); [done|].
    split_and!; [done..|]. intros g (fut & Hg & Hc). simpl in Hg.
    apply list_lookup_insert_Some in Hg as [(<- & <- & Hlt)|[_ Hg]]; [by eexists|by exists fut].
  - by apply (progress_delete s k (TMarked f) (upd_clientActiveCalls_ (fun n => int32 (n - 1)))).
  - by apply (progress_thread s k t None t' None (fun s => upd_serverActiveCalls_ _ (upd_serverActiveAsyncCalls_ _ s)) Hp H).
  - apply (progress_frame s); try done.
    + intros w. simpl. rewrite omap_app. simpl. by rewrite app_nil_r.
    + simpl. intros k t c [Hk|[_ Hk]]%lookup_app_Some; [by exists k, t, c|]. by apply list_lookup_singleton_Some in Hk as [_ [=]].
  - by apply (progress_delete s k _ (upd_responses (fun l0 => l0 ++ l)) Hp H).
Qed.

Definition idle (t : thread) : bool := match t with mkThread (TUser | TWaiting _ _) None => true | _ => false end.
Definition unlocked (s : tp_agent) : Prop :=
  join_ s <> JoinHolds /\ match timeoutThread_ s with TimerHolds _ => False | _ => True end.

Lemma lock_free s : unlocked s -> lock_callCount s = (Ret tt, s) /\ lock_timeoutMap s = (Ret tt, s).
Proof.
  intros [Hj Ht]. unfold lock_callCount, lock_timeoutMap, bind, gets, ret. rewrite bool_decide_false by done.
  split; [done|]. by destruct (timeoutThread_ s).
Qed.
Lemma change_ok upd d s : unlocked s -> changeCallCount upd d s = (Ret tt, upd (fun n => int32 (n + d)) s).
Proof. intros Hu. unfold changeCallCount. by rewrite (bind_run _ _ _ _ _ (proj1 (lock_free s Hu))). Qed.

Lemma thread_can_step s k t : futures_ok s -> unlocked s -> threads s !! k = Some t -> idle t = false ->
  exists s', step (EThread 0 k CbLater) s s'.
Proof.
  intros [_ Hm] Hu Hk Hi. unfold step. cbn [exec]. unfold run_thread, bind at 1, gets at 1. rewrite Hk.
  destruct t as [t [[to f m tmo dm|to f m tmo devices|to f m devices e]|]]; cbn [run_call].
  - unfold send_count, bind at 1, gets. destruct (send_devices to m dm s); [|by eexists..].
    unfold increaseCallCount. rewrite (bind_run _ _ _ _ _ (change_ok upd_clientActiveCalls_ 1 s Hu)). by eexists.
  - unfold send_timeout. destruct (_ =? 0); [by eexists|]. rewrite (bind_run _ _ _ _ _ (proj2 (lock_free s Hu))). by eexists.
  - by eexists.
  - destruct t; try discriminate Hi; cbn [run_task].
    + assert (owed (futures s !! f) <> 0) as Hf.
      { rewrite <- Hm. intros E. apply list_elem_of_lookup_2 in Hk.
        pose proof (sumf_zero (marks f) (threads s) ltac:(intros x _; unfold marks; destruct (task_ x); try lia; case_bool_decide; lia) E _ Hk) as E2.
        unfold marks in E2. simpl in E2. by rewrite bool_decide_true in E2. }
      unfold run_mark, bind, gets. destruct (futures s !! f) as [[[] [|]]|]; try done. by eexists.
    + unfold run_marked, decreaseCallCount. rewrite (bind_run _ _ _ _ _ (change_ok upd_clientActiveCalls_ (-1) s Hu)). by eexists.
    + unfold increaseCallCount. rewrite (bind_run _ _ _ _ _ (change_ok upd_serverActiveCalls_ 1 s Hu)). by eexists.
    + by eexists.
    + by eexists.
    + unfold decreaseCallCount. rewrite (bind_run _ _ _ _ _ (change_ok upd_serverActiveCalls_ (-1) s Hu)). by eexists.
    + unfold increaseCallCount. rewrite (bind_run _ _ _ _ _ (change_ok upd_serverActiveAsyncCalls_ 1 s Hu)). by eexists.
    + unfold decreaseCallCount. rewrite (bind_run _ _ _ _ _ (change_ok upd_serverActiveCalls_ (-1) s Hu)). by eexists.
    + unfold decreaseCallCount. rewrite (bind_run _ _ _ _ _ (change_ok upd_serverActiveAsyncCalls_ (-1) s Hu)). by eexists.
    + unfold sendCompletedResponseMessage, bind, gets, ret, modify. destruct (running_ s); by eexists.
Qed.

Lemma idle_sums (l : list thread) : forallb idle l = true -> sumf completing l = 0 /\ sumf uncounted l = 0 /\
  (forall f, sumf (marks f) l = 0) /\ forall w, omap (call_id w) l = [].
Proof.
  induction l as [|[t c] l IH]; simpl; [done|]. intros [Ht Hl]%andb_true_iff. destruct (IH Hl) as (E1 & E2 & E3 & E4).
  unfold sumf in *. simpl. destruct t; try discriminate Ht; destruct c; try discriminate Ht; simpl; split_and!; try done; try lia.
Qed.

Definition ordered (s : tp_agent) (e : event) : Prop := in_order s (kind_of e).
Lemma progress_run s s' : run ordered s s' -> small s' -> agent_inv s /\ progress s -> agent_inv s' /\ progress s'.
Proof.
  apply (tp_run_inv (fun s => agent_inv s /\ progress s)). intros s1 s2 e Ho Hs Hsm [Ha Hp]. apply tp_step_effect in Hs. split.
  - by eapply agent_inv_effect.
  - eapply progress_effect; [done|done|apply Ha|done].
Qed.
Lemma new_agent_progress info opts reverse urls users : progress (new_agent info opts reverse urls users).
Proof.
  intros _. split; simpl; [intros w p Hw; by rewrite lookup_empty in Hw|].
  intros k t c H. by apply lookup_replicate_1 in H as [[=] _].
Qed.

(** What TensorPipe still has to call back. *)
Definition callback_owed (s : tp_agent) : Prop := exists w p, connectedPipes_ s !! w = Some p /\ (writes p <> [] \/ reads p <> []).

(** C10: as long as a request has no result, something will still happen to it: when no mutex is held, no call of send() threw half-way and answers come after the callback of the write of their request, either a thread can go on, or TensorPipe owes the callback of a read or a write, or all requests have their results and clientActiveCalls_ is 0; a pipe error does not change that. *)
Theorem tp_requests_finish (info : WorkerInfo) opts reverse urls (users : nat) (s : tp_agent) :
  run ordered (new_agent info opts reverse urls users) s -> small s -> abandoned s = [] -> unlocked s ->
  (exists now k cb s', step (EThread now k cb) s s') \/ callback_owed s \/
  (clientActiveCalls_ s = 0 /\ forall f fut, futures s !! f = Some fut -> is_Some (jitFuture fut)).
Proof.
  intros Hr Hsm Ha Hu.
  destruct (progress_run _ s Hr Hsm (conj (new_agent_inv info opts reverse urls users) (new_agent_progress info opts reverse urls users)))
    as [[[Hc _ _] Ho Ht] Hp]. destruct (Hp Ha) as [Hpipes _].
  destruct (forallb idle (threads s)) eqn:Ei.
  2: { left. apply not_true_iff_false in Ei. assert (exists k t, threads s !! k = Some t /\ idle t = false) as (k & t & Hk & Hi).
       { destruct (existsb (fun t => negb (idle t)) (threads s)) eqn:Ex.
         - apply existsb_exists in Ex as (t & Hin & Hi). apply list_elem_of_In, list_elem_of_lookup in Hin as [k Hk].
           exists k, t. split; [done|]. by apply negb_true_iff.
         - destruct Ei. apply forallb_forall. intros t Hin. destruct (idle t) eqn:E; [done|].
           assert (existsb (fun t => negb (idle t)) (threads s) = true) as Ex'; [|congruence]. apply existsb_exists. exists t. by rewrite E. }
       destruct (thread_can_step s k t Ho Hu Hk Hi) as [s' Hs]. by exists 0, k, CbLater, s'. }
  destruct (idle_sums _ Ei) as (E1 & E2 & E3 & E4).
  destruct (decide (map_Forall (fun _ p => writes p = [] /\ reads p = []) (connectedPipes_ s))) as [Hs|Hs].
  2: { right. left. apply map_not_Forall in Hs as (w & p & Hw & Hn); [|apply _]. exists w, p. split; [done|].
       destruct (writes p); [right|by left]. by destruct (reads p); [destruct Hn|]. }
  right. right.
  assert (Hopen : forall f fut, futures s !! f = Some fut -> isComplete fut = true).
  { intros f fut Hf. destruct (isComplete fut) eqn:Ec; [done|]. exfalso.
    destruct (tr_open _ _ Ht f fut Hf Ec) as [H|(w & p & Hw & Hpf)]; [by apply elem_of_nil in H|].
    destruct (Hs w p Hw) as [Ew Er]. destruct (Hpipes w p Hw) as [_ _ N3 N4].
    unfold in_flight in *. rewrite E4, Ew, Er in *. simpl in *. destruct (broken p).
    - destruct (N4 eq_refl f Hpf) as [Hin|Hne]; [by exists fut|by apply elem_of_nil in Hin|done].
    - specialize (N3 eq_refl). assert (pendingResponseMessage_ p = ∅) as E; [apply map_size_empty_iff; lia|]. by rewrite E, lookup_empty in Hpf. }
  split.
  - rewrite Hc. unfold active_calls. rewrite E1, E2, Ha. simpl. assert (sumf open_ (futures s) = 0) as ->; [|done].
    assert (forall x, x ∈ futures s -> open_ x = 0) as Hz.
    { intros x [f Hf]%list_elem_of_lookup. unfold open_. by rewrite (Hopen f x Hf). }
    clear -Hz. induction (futures s) as [|x l IH]; [done|]. unfold sumf in *. simpl. rewrite IH, Hz; [done|apply list_elem_of_here|].
    intros y Hy. by apply Hz, list_elem_of_further.
  - intros f fut Hf. pose proof (Hopen f fut Hf) as Ec. destruct Ho as [_ Hm]. specialize (Hm f). rewrite E3, Hf in Hm.
    destruct fut as [b [r|]]; [by eexists|]. simpl in *. by subst.
Qed.

(** ** Time-outs *)

Lemma earliest_spec m : match earliestTimeout m with
  | Some t => is_Some (m !! t) /\ forall t', is_Some (m !! t') -> t <= t'
  | None => m = ∅
  end.
Proof.
  unfold earliestTimeout. apply (map_fold_weak_ind (fun acc m => match acc with
    | Some t => is_Some (m !! t) /\ forall t', is_Some (m !! t') -> t <= t' | None => m = ∅ end)); [done|].
  intros t l m0 acc Hn IH. destruct acc as [u|].
  - destruct IH as [Hu Hmin]. split.
    + destruct (Z.min_spec t u) as [[_ ->]|[_ ->]]; [rewrite lookup_insert_eq; by eexists|].
      rewrite lookup_insert_ne; [done|]. intros ->. by rewrite Hn in Hu; destruct Hu.
    + intros t' [l' [[<- _]|[_ Hl]]%lookup_insert_Some]; [lia|]. specialize (Hmin t' ltac:(by eexists)). lia.
  - subst. split; [rewrite lookup_insert_eq; by eexists|]. intros t' [l' [[<- _]|[_ Hl]]%lookup_insert_Some]; [lia|].
    by rewrite lookup_empty in Hl.
Qed.

(** The request of an entry has been marked, or the entry is where the time-out
    thread will find it. *)
Definition pending_entry (t : Z) (e : TimeoutMessageMetadata) (s : tp_agent) : Prop :=
  (exists l, timeoutMap_ s !! t = Some l /\ e ∈ l) \/ e ∈ batch (timeoutThread_ s).
Definition marked (f : nat) (s : tp_agent) : Prop := exists fut, futures s !! f = Some fut /\ isComplete fut = true.

Lemma marked_mark f g r s : marked f s -> marked f (markFuture g r s).
Proof.
  intros (fut & E & Hc). unfold marked. rewrite futures_of_mark, E. eexists. split; [done|]. by case_bool_decide.
Qed.
Lemma marked_now f r s : (f < length (futures s))%nat -> marked f (markFuture f r s).
Proof.
  intros [fut E]%lookup_lt_is_Some. unfold marked. rewrite futures_of_mark, E. eexists. split; [done|]. by rewrite bool_decide_true.
Qed.
Lemma marked_markAll f what l s : marked f s -> marked f (markAll what l s).
Proof. revert s. induction l as [|e l IH]; intros s H; simpl; [done|]. by apply IH, marked_mark. Qed.
Lemma marked_effect a s s' f : effect s a s' -> marked f s -> marked f s'.
Proof.
  intros Heff Hm. destruct Heff; try exact Hm.
  - destruct Hm as (fut & E & Hc). exists fut. by rewrite (qt_futures _ _ H).
  - by apply (marked_mark f (responseFuture e) (FError (timeout_error e)) s).
  - destruct Hm as (fut & E & Hc). exists fut. split; [|done]. simpl. by apply lookup_app_l_Some.
  - case_match; [by apply marked_mark|done].
  - by apply (marked_markAll f).
  - by apply marked_mark.
  - destruct Hm as (fut & E & Hc). unfold marked. simpl. destruct (decide (f = f0)) as [->|].
    + rewrite list_lookup_insert_eq by (by eapply lookup_lt_Some). eexists. split; [done|]. rewrite E in H0. by injection H0 as ->.
    + rewrite list_lookup_insert_ne by done. by exists fut.
Qed.

Lemma entry_same s s' t e : timeoutMap_ s' = timeoutMap_ s -> timeoutThread_ s' = timeoutThread_ s -> pending_entry t e s -> pending_entry t e s'.
Proof. unfold pending_entry. by intros -> ->. Qed.
Lemma entry_mark f r s t e : pending_entry t e (markFuture f r s) <-> pending_entry t e s.
Proof. destruct (markFuture_frame f r s) as (_ & _ & _ & _ & E1 & E2 & _). unfold pending_entry. by rewrite E1, E2. Qed.
Lemma entry_markAll what l s t e : pending_entry t e (markAll what l s) <-> pending_entry t e s.
Proof. revert s. induction l as [|x l IH]; intros s; simpl; [done|]. rewrite IH. apply entry_mark. Qed.

(** What removeFromTimeoutMap leaves. *)
Lemma erase_first_keeps id l (e : TimeoutMessageMetadata) : e ∈ l -> messageId e <> id -> e ∈ erase_first id l.
Proof.
  intros H Hn. induction l as [|x l IH]; simpl; [done|]. apply elem_of_cons in H as [->|H].
  - rewrite (proj2 (Z.eqb_neq _ _) Hn). apply list_elem_of_here.
  - destruct (messageId x =? id); [done|]. by apply list_elem_of_further, IH.
Qed.
Lemma remove_keeps id t0 m t l (e : TimeoutMessageMetadata) : m !! t = Some l -> e ∈ l -> messageId e <> id ->
  exists l', removeFromTimeoutMap id t0 m !! t = Some l' /\ e ∈ l'.
Proof.
  intros Hl He Hn. unfold removeFromTimeoutMap. destruct (decide (t = t0)) as [->|Ht].
  - rewrite Hl. simpl. pose proof (erase_first_keeps id l e He Hn) as Hk. destruct (erase_first id l); [by apply elem_of_nil in Hk|].
    eexists. rewrite lookup_insert_eq. done.
  - exists l. split; [|done]. destruct (erase_first _ _); [by rewrite lookup_delete_ne|by rewrite lookup_insert_ne].
Qed.
Lemma entry_remove id t0 s t e : pending_entry t e s -> messageId e <> id ->
  pending_entry t e (upd_timeoutMap_ (removeFromTimeoutMap id t0) s).
Proof.
  intros [(l & Hl & He)|Hb] Hn; [left|by right]. by apply (remove_keeps id t0 (timeoutMap_ s) t l).
Qed.

Lemma entry_effect a s s' t e : effect s a s' -> small s -> tracked [] s -> entry_known s e -> pending_entry t e s ->
  marked (responseFuture e) s' \/ pending_entry t e s'.
Proof.
  intros Heff Hsm Ht Hk He. destruct Heff; try (right; exact He).
  - right. destruct He as [He|He]; [left; by rewrite (qt_timeouts _ _ H)|right; by rewrite (qt_batch _ _ H)].
  - right. destruct He as [(l & Hl & Hin)|He]; [|by match goal with Hb : batch (timeoutThread_ s) = [] |- _ => rewrite Hb in He; apply elem_of_nil in He end].
    destruct (decide (t = t0)) as [->|Hn]; [right; simpl; by rewrite Hl|left]. exists l. simpl. by rewrite lookup_delete_ne.
  - destruct He as [(l' & Hl & Hin)|He].
    + right. left. destruct (markFuture_frame (responseFuture e0) (FError (timeout_error e0)) s) as (_ & _ & _ & _ & E1 & _).
      exists l'. simpl. by rewrite E1.
    + rewrite H in He. apply elem_of_cons in He as [->|He]; [left|by right; right]. by apply (marked_now (responseFuture e0)), Hk.
  - right. destruct He as [(l & Hl & Hin)|He]; [left|right; simpl; by rewrite batch_notify]. simpl.
    destruct (decide (t = e0)) as [->|Hn]; [|exists l; by rewrite lookup_insert_ne].
    rewrite lookup_insert_eq. eexists. split; [done|]. rewrite Hl. simpl. apply elem_of_app. by left.
  - right. case_match; [by apply entry_mark|exact He].
  - right. apply entry_remove; [by apply entry_markAll|]. destruct Hk as [-> Hlt]. unfold noMessageId.
    assert (Z.of_nat (responseFuture e) < 2 ^ 63) by (unfold small in Hsm; lia). change (uint64 (-1)) with (2 ^ 64 - 1). lia.
  - destruct (decide (messageId e = id)) as [E|Hn].
    + left. assert (waits_in s to id f) as Hw by (by exists p). apply (tr_pending _ _ Ht) in Hw as [Ef Hlt].
      destruct Hk as [Ek _]. assert (responseFuture e = f) as -> by lia. by apply marked_now.
    + right. apply entry_mark. by apply entry_remove.
Qed.

(** A time-out that send() has entered is kept until the request is marked: in every later state, the request has been marked, or the time-out thread has taken its entry to mark it, or the entry is still in timeoutMap_ under its time; then, as soon as that time has come, a turn of the time-out thread takes the entries of the earliest time. *)
Theorem tp_timeouts_kept (allowed : tp_agent -> event -> Prop) (info : WorkerInfo) opts reverse urls (users : nat) (s1 s2 : tp_agent) t l e :
  run allowed (new_agent info opts reverse urls users) s1 -> run allowed s1 s2 -> small s2 ->
  timeoutMap_ s1 !! t = Some l -> e ∈ l ->
  (exists fut, futures s2 !! responseFuture e = Some fut /\ isComplete fut = true) \/
  e ∈ batch (timeoutThread_ s2) \/
  ((exists l', timeoutMap_ s2 !! t = Some l' /\ e ∈ l') /\
   forall now, timeoutThread_ s2 = TimerTest -> running_ s2 = true -> t <= now ->
     exists t0 l0 s3, t0 <= t /\ timeoutMap_ s2 !! t0 = Some l0 /\ step (ETimer now) s2 s3 /\
       timeoutThread_ s3 = TimerMarks l0 /\ timeoutMap_ s3 = delete t0 (timeoutMap_ s2)).
Proof.
  intros Hr1 Hr2 Hsm Hl He.
  assert (Hsm1 : small s1) by (unfold small in *; pose proof (run_grows _ _ _ Hr2); lia).
  pose proof (agent_inv_run allowed _ s1 Hr1 Hsm1 (new_agent_inv info opts reverse urls users)) as Hi.
  assert (Hkn : entry_known s1 e) by (apply (tr_timeouts _ _ (ai_tracked _ Hi) t l); done).
  assert (agent_inv s2 /\ entry_known s2 e /\ (marked (responseFuture e) s2 \/ pending_entry t e s2)) as (_ & _ & H).
  { apply (tp_run_inv (fun s => agent_inv s /\ entry_known s e /\ (marked (responseFuture e) s \/ pending_entry t e s)) allowed s1 s2);
      [|done|done|split_and!; [done|done|by right; left; exists l]].
    intros s s' ev _ Hs Hsm' (Ha & Hk & H). apply tp_step_effect in Hs. pose proof (length_futures_effect _ _ _ Hs) as Hlen. split_and!.
    - by eapply agent_inv_effect.
    - by apply (known_le s).
    - destruct H as [H|H]; [left; by eapply marked_effect|]. eapply entry_effect; [done| |apply Ha|done|done].
      unfold small in *. lia. }
  destruct H as [H|[(l' & Hl' & He')|H]]; [by left| |by right; left]. right. right. split; [by exists l'|].
  intros now Htm Hrun Hle. pose proof (earliest_spec (timeoutMap_ s2)) as Hes.
  destruct (earliestTimeout (timeoutMap_ s2)) as [t0|] eqn:Ee; [|by rewrite Hes, lookup_empty in Hl'].
  destruct Hes as [[l0 Hl0] Hmin]. assert (t0 <= t) by (apply Hmin; by eexists). exists t0, l0. eexists. split; [done|]. split; [done|].
  unfold step. cbn [exec]. unfold pollTimeoutRpcs, bind, gets, modify. rewrite Htm, Hrun, Ee. simpl.
  rewrite (proj2 (Z.leb_le _ _)) by lia. split; [reflexivity|]. simpl. by rewrite Hl0.
Qed.

(** ** Where the code does not do what it means to *)

(** C40: a call of send() that throws because of its tensors' devices has already entered its request in the table of the pipe; when an error of the pipe later marks it, clientActiveCalls_ is decreased for a request that was never counted: once all requests have their results, the count is minus the number of these calls, and join() waits for ever. *)
Theorem tp_failed_send_miscounts (allowed : tp_agent -> event -> Prop) (info : WorkerInfo) opts reverse urls (users : nat) (s : tp_agent) :
  run allowed (new_agent info opts reverse urls users) s -> small s ->
  (forall t, t ∈ threads s -> task_ t = TUser /\ sending t = None) ->
  (forall f fut, futures s !! f = Some fut -> is_Some (jitFuture fut)) ->
  clientActiveCalls_ s = int32 (- Z.of_nat (length (abandoned s))) /\
  ((0 < Z.of_nat (length (abandoned s)) < 2 ^ 31) -> join_ s = JoinWaits ->
   forall arrived total s', ~ step (EJoin arrived total) s s').
Proof.
  intros Hr Hsm Hth Hf. destruct (agent_inv_run allowed _ s Hr Hsm (new_agent_inv info opts reverse urls users)) as [[Hc _ _] [Fo _] _].
  assert (Ei : forallb idle (threads s) = true).
  { apply forallb_forall. intros [t c] Hin%list_elem_of_In. destruct (Hth _ Hin) as [Ht Hs]. simpl in *. by subst. }
  destruct (idle_sums _ Ei) as (E1 & E2 & _ & _).
  assert (sumf open_ (futures s) = 0) as E3.
  { assert (forall x, x ∈ futures s -> open_ x = 0) as Hz.
    { intros x [f Hx]%list_elem_of_lookup. unfold open_. destruct (isComplete x) eqn:Ec; [done|].
      pose proof (Fo f x Hx Ec) as Hn. destruct (Hf f x Hx) as [r Hr']. congruence. }
    clear -Hz. induction (futures s) as [|x l IH]; [done|]. unfold sumf in *. simpl. rewrite IH, Hz; [done|apply list_elem_of_here|].
    intros y Hy. by apply Hz, list_elem_of_further. }
  assert (clientActiveCalls_ s = int32 (- Z.of_nat (length (abandoned s)))) as Ecl.
  { rewrite Hc. unfold active_calls. by rewrite E1, E2, E3. }
  split; [done|]. intros Hn Hj arrived total s' Hs. unfold step in Hs. cbn [exec] in Hs. unfold join, bind, gets, lift in Hs.
  rewrite Hj, Ecl, int32_id in Hs by (unfold in_int32; lia). rewrite (proj2 (Z.eqb_neq _ _)) in Hs by lia. done.
Qed.

(** The state of a shutdown whose notification came too early. *)
Record stuck (s : tp_agent) : Prop := {
  sk_running : running_ s = false;
  sk_shutdown : shutdown_ s = ShutNotified;
  sk_timer : timeoutThread_ s = TimerWaits None;
  sk_calls : forall t, t ∈ threads s -> sending t = None;
}.
(** What only few of the operations change. *)
Record ignores {B} (g : tp_agent -> B) : Prop := {
  ig_threads : forall u s, g (upd_threads u s) = g s;
  ig_futures : forall u s, g (upd_futures u s) = g s;
  ig_pipes : forall u s, g (upd_connectedPipes_ u s) = g s;
  ig_timeouts : forall u s, g (upd_timeoutMap_ u s) = g s;
  ig_client : forall u s, g (upd_clientActiveCalls_ u s) = g s;
  ig_server : forall u s, g (upd_serverActiveCalls_ u s) = g s;
  ig_async : forall u s, g (upd_serverActiveAsyncCalls_ u s) = g s;
  ig_responses : forall u s, g (upd_responses u s) = g s;
}.
Ltac frame_modify Hg := apply preserves_modify; intros; unfold upd_pipe; repeat first
  [ rewrite (ig_threads _ Hg) | rewrite (ig_futures _ Hg) | rewrite (ig_pipes _ Hg) | rewrite (ig_timeouts _ Hg)
  | rewrite (ig_client _ Hg) | rewrite (ig_server _ Hg) | rewrite (ig_async _ Hg) | rewrite (ig_responses _ Hg) ]; reflexivity.
Ltac frame_step Hg := first
  [ apply preserves_bind; [|intros ?] | frame_modify Hg | apply preserves_gets | apply preserves_lift
  | apply preserves_throw | apply preserves_ret | apply preserves_assert | case_match ].

Section ignored.
Context {B} (g : tp_agent -> B) (Hg : ignores g).

Lemma ignored_mark f r s : g (markFuture f r s) = g s.
Proof using Hg. unfold markFuture, add_thread. repeat case_match; [done| |done]. by rewrite (ig_threads _ Hg), (ig_futures _ Hg). Qed.
Lemma ignored_markAll what l s : g (markAll what l s) = g s.
Proof using Hg. revert s. induction l as [|e l IH]; intros s; simpl; [done|]. rewrite IH. apply ignored_mark. Qed.
Lemma ignored_task k cb t : preserves g (run_task k cb t).
Proof using Hg.
  destruct t; cbn [run_task]; unfold run_mark, run_marked, increaseCallCount, decreaseCallCount, changeCallCount, lock_callCount,
    sendCompletedResponseMessage, set_task, end_thread; repeat frame_step Hg.
Qed.
Lemma ignored_on_write to error : preserves g (on_write to error).
Proof using Hg.
  unfold on_write. apply preserves_bind; [apply preserves_gets|]. intros [p|]; [|apply preserves_lift].
  destruct (writes p) as [|[id e] rest]; [apply preserves_lift|]. destruct error as [what|].
  - apply preserves_bind; [frame_modify Hg|]. intros _. destruct (_ !! id); [apply preserves_modify; intros; apply ignored_mark|apply preserves_ret].
  - destruct (broken p); [apply preserves_lift|frame_modify Hg].
Qed.
Lemma ignored_on_read to r : preserves g (on_read to r).
Proof using Hg.
  unfold on_read. apply preserves_bind; [apply preserves_gets|]. intros [p|]; [|apply preserves_lift].
  destruct (reads p) as [|e rest]; [apply preserves_lift|].
  apply preserves_bind; [unfold lock_timeoutMap; repeat frame_step Hg|]. intros _. destruct r as [what|m].
  - apply preserves_bind; [frame_modify Hg|]. intros _. apply preserves_bind; [apply preserves_modify; intros; apply ignored_markAll|].
    intros _. frame_modify Hg.
  - destruct (broken p); [apply preserves_lift|]. apply preserves_bind; [apply preserves_assert|]. intros _.
    destruct (_ !! _); [|apply preserves_throw]. apply preserves_bind; [frame_modify Hg|]. intros _.
    apply preserves_bind; [frame_modify Hg|]. intros _. apply preserves_modify. intros s0.
    destruct (bool_decide _); apply ignored_mark.
Qed.
Lemma ignored_async_done k r : preserves g (async_done k r).
Proof using Hg. unfold async_done, set_task. repeat frame_step Hg. Qed.
End ignored.

Abbreviation phase := (fun s : tp_agent => (running_ s, shutdown_ s, timeoutThread_ s)).
Lemma phase_ignores : ignores phase.
Proof. by split. Qed.

Lemma calls_effect a s s' : effect s a s' -> running_ s = false -> (forall t, t ∈ threads s -> sending t = None) ->
  forall t, t ∈ threads s' -> sending t = None.
Proof.
  intros Heff Hrun Hn.
  assert (Hm : forall f r s0, threads s0 = threads s -> forall t, t ∈ threads (markFuture f r s0) -> sending t = None).
  { intros f r s0 E t Ht. destruct (markFuture_frame f r s0) as (_ & _ & _ & _ & _ & _ & _ & _ & [E2|E2]); rewrite E2, E in Ht; [by apply Hn|].
    apply elem_of_app in Ht as [Ht| ->%list_elem_of_singleton]; [by apply Hn|done]. }
  assert (Hi : forall k t0, sending t0 = None -> forall t, t ∈ <[k := t0]> (threads s) -> sending t = None).
  { intros k t0 E t [i Ht]%list_elem_of_lookup. apply list_lookup_insert_Some in Ht as [(_ & <- & _)|[_ Ht]]; [done|].
    apply Hn. by eapply list_elem_of_lookup_2. }
  assert (Hd : forall k t, t ∈ delete k (threads s) -> sending t = None) by (intros k t Ht; apply Hn; by eapply elem_of_delete).
  assert (Hno : forall k t c, threads s !! k = Some (mkThread t (Some c)) -> False).
  { intros k t c Hk. apply list_elem_of_lookup_2, Hn in Hk. done. }
  destruct Heff; try done; try (by exfalso; eapply Hno); try (by apply Hi); try (by apply Hd).
  - by rewrite (qt_threads _ _ H).
  - by apply (Hm (responseFuture e) (FError (timeout_error e)) s).
  - congruence.
  - case_match; [by apply Hm|done].
  - assert (forall l s0, (forall t, t ∈ threads s0 -> sending t = None) -> forall t, t ∈ threads (markAll what l s0) -> sending t = None) as Ha.
    { induction l as [|x l IH]; intros s0 H1; simpl; [done|]. apply IH. intros t Ht.
      destruct (markFuture_frame x.2 (FError what) s0) as (_ & _ & _ & _ & _ & _ & _ & _ & [E2|E2]);
        unfold markFutureWithError in Ht; rewrite E2 in Ht; [by apply H1|].
      apply elem_of_app in Ht as [Ht| ->%list_elem_of_singleton]; [by apply H1|done]. }
    by apply Ha.
  - by apply Hm.
  - simpl. intros t [Ht| ->%list_elem_of_singleton]%elem_of_app; [by apply Hn|done].
Qed.

Lemma stuck_step e s s' : stuck s -> e <> EWake -> step e s s' -> stuck s'.
Proof.
  intros [H1 H2 H3 H4] Hne Hs. pose proof (calls_effect _ _ _ (tp_step_effect _ _ _ Hs) H1 H4) as H4'.
  assert (phase s' = phase s) as Hph; [|cbv beta in Hph; injection Hph as E1 E2 E3; split; [congruence..|done]].
  unfold step in Hs. assert (Hpres : preserves phase (exec e) -> phase s' = phase s) by (intros Hp; specialize (Hp s); by rewrite Hs in Hp).
  destruct e; cbn [exec] in *; try (by apply Hpres; first [apply ignored_on_write|apply ignored_on_read|apply ignored_async_done]; apply phase_ignores).
  - exfalso. unfold send, bind, gets, lift in Hs. destruct (threads s !! k) as [[t [c|]]|]; [done| |done]. destruct (in_user_code t); [|done].
    unfold send_register, bind, assert_, lift, gets in Hs. rewrite H1 in Hs. by destruct (isRequest requestMessage).
  - unfold run_thread, bind, gets in Hs. destruct (threads s !! k) as [[t [c|]]|] eqn:Ek; [|pose proof (ignored_task phase phase_ignores k cb t s) as Hp; by rewrite Hs in Hp|done].
    apply list_elem_of_lookup_2, H4 in Ek. done.
  - apply Hpres. unfold on_accept. repeat first [frame_step phase_ignores|by apply preserves_modify].
  - apply Hpres. unfold on_request. apply preserves_bind; [apply preserves_gets|]. intros [[name []]|]; [|apply preserves_lift..].
    destruct r; by apply preserves_modify.
  - unfold pollTimeoutRpcs, bind, gets in Hs. by rewrite H3 in Hs.
  - done.
  - apply Hpres. unfold join. repeat first [frame_step phase_ignores|by apply preserves_modify].
  - unfold shutdown, bind, gets in Hs. by rewrite H2, H3 in Hs.
Qed.

(** ShutdownImpl() notifies the time-out thread without holding timeoutMapMutex_: when the thread has tested that the agent is running, and does not wait yet, the notification is lost, and shutdown() then waits for the thread for ever, unless a spurious wake-up helps. *)
Theorem tp_shutdown_lost_wakeup (info : WorkerInfo) opts reverse urls (users : nat) :
  exists s, run (fun _ _ => True) (new_agent info opts reverse urls users) s /\ shutdown_ s = ShutNotified /\
    forall s', run (fun _ e => e <> EWake) s s' -> shutdown_ s' = ShutNotified /\ timeoutThread_ s' = TimerWaits None.
Proof.
  set (s0 := new_agent info opts reverse urls users).
  set (s1 := upd_timeoutThread_ (fun _ => TimerHolds None) s0).
  set (s2 := upd_shutdown_ (fun _ => ShutFlag) (upd_running_ (fun _ => false) s1)).
  set (s3 := upd_shutdown_ (fun _ => ShutNotified) (upd_timeoutThread_ notify_timer s2)).
  set (s4 := upd_timeoutThread_ (fun _ => TimerWaits None) s3). exists s4. split_and!; [|done|].
  - apply (run_snoc _ s0 s3 s4 (ETimer 0)); [|exact I|reflexivity]. apply (run_snoc _ s0 s2 s3 EShutdown); [|exact I|reflexivity].
    apply (run_snoc _ s0 s1 s2 EShutdown); [|exact I|reflexivity]. apply (run_snoc _ s0 s0 s1 (ETimer 0)); [constructor|exact I|reflexivity].
  - assert (stuck s4) as Hk.
    { split; try done. intros t Ht. apply list_elem_of_lookup in Ht as [i Ht]. change (threads s4) with (threads s0) in Ht.
      by apply lookup_replicate_1 in Ht as [-> _]. }
    intros s' Hr. assert (stuck s') as []; [|done]. induction Hr as [|sa sb sc e Hr IH Hne Hs]; [done|]. apply (stuck_step e sb); [by apply IH|exact Hne|done].
Qed.

Lemma exec_all_run allowed allowedb es : (forall s e, allowedb s e = true -> allowed s e) ->
  forall s0 s, run allowed s0 s -> match exec_all allowedb es s with Some s' => run allowed s0 s' | None => True end.
Proof.
  intros Ha. induction es as [|e es IH]; intros s0 s Hr; simpl; [done|]. destruct (allowedb s e) eqn:Eb; [|done].
  destruct (exec e s) as [[[]| |] s'] eqn:Es; [|done..]. apply IH. by eapply run_snoc; [|apply Ha|].
Qed.
Definition orderedb (s : tp_agent) (e : event) : bool :=
  match kind_of e with
  | KAnswer w id => match connectedPipes_ s !! w with Some p => bool_decide (id ∉ in_flight w p s) | None => true end
  | _ => true
  end.
Lemma orderedb_ok s e : orderedb s e = true -> ordered s e.
Proof.
  unfold orderedb, ordered, in_order. destruct (kind_of e) as [| |w id| | |]; try done. destruct (connectedPipes_ s !! w) as [p|]; [|done].
  intros H%bool_decide_eq_true p' [= <-]. done.
Qed.
End sending.
End agent.

(** ** Examples

    A tensor is a device here.  Worker 0 has one pipe, to worker 1. *)

Abbreviation ex_step := (exec (T := device) (fun d => d) 60000).
Abbreviation ex_exec := (exec_all (T := device) (fun d => d) 60000).
Definition ex_info : WorkerInfo := mkWorkerInfo (str "w0") 0.
Definition ex_to : WorkerInfo := mkWorkerInfo (str "w1") 1.
Definition ex_opts : TensorPipeRpcBackendOptions := mkOptions 16 None None ∅.
Definition ex_urls : gmap bytes bytes := {[ str "w1" := str "uv://10.0.0.2" ]}.
Definition ex_agent : tp_agent (T := device) := new_agent ex_info ex_opts ∅ ex_urls 2.
Definition ex_call (ts : list device) : Message device := mkMessage _ (str "f") ts SCRIPT_CALL (-1).
Definition ex_answer (id : Z) : Message device := mkMessage _ (str "r") [] SCRIPT_RET id.

(** A thread calls send() and gets to the end of it. *)
Definition ex_send (k : nat) (tmo : option Z) (now : Z) : list (event (T := device)) :=
  [ESend k ex_to (ex_call [Cpu]) tmo ∅; EThread now k CbLater; EThread now k CbLater; EThread now k CbLater].
Definition ex_after (es : list (event (T := device))) : tp_agent (T := device) := default ex_agent (ex_exec orderedb es ex_agent).

Lemma ex_run es : is_Some (ex_exec orderedb es ex_agent) ->
  run (fun d : device => d) 60000 ordered ex_agent (ex_after es).
Proof.
  intros [s E]. unfold ex_after. rewrite E. simpl.
  pose proof (exec_all_run (fun d => d) 60000 ordered orderedb es orderedb_ok ex_agent ex_agent (run_nil _ _ _ _)) as H. by rewrite E in H.
Qed.
Lemma ex_is_Some {A} (o : option A) : match o with Some _ => true | None => false end = true -> is_Some o.
Proof. destruct o; [by eexists|done]. Qed.

(** The request of thread 0 has been written, and its answer has come. *)
Definition ex_answered : list (event (T := device)) :=
  ex_send 0 None 0 ++ [EWrite 1 None; ERead 1 (inr (ex_answer 0)); EThread 0 2 CbLater].
Lemma ex_answered_runs : is_Some (ex_exec orderedb ex_answered ex_agent).
Proof. apply ex_is_Some. vm_compute. reflexivity. Qed.
Lemma ex_small es : (length (futures (ex_after es)) <? 10)%nat = true -> small (ex_after es).
Proof. intros H%Nat.ltb_lt. unfold small. lia. Qed.

Lemma tp_calls_counted_witness : clientActiveCalls_ (ex_after ex_answered) = int32 (active_calls (ex_after ex_answered)).
Proof.
  apply (tp_calls_counted (fun d => d) 60000 ordered ex_info ex_opts ∅ ex_urls 2 (ex_after ex_answered) (ex_run _ ex_answered_runs)).
  apply ex_small. vm_compute. reflexivity.
Defined.

(** ... and the task of the pool has finished. *)
Definition ex_finished : list (event (T := device)) := ex_answered ++ [EThread 0 2 CbLater].
Lemma ex_finished_runs : is_Some (ex_exec orderedb ex_finished ex_agent).
Proof. apply ex_is_Some. vm_compute. reflexivity. Qed.
Lemma ex_finished_open : abandoned (ex_after ex_finished) = [] /\ unlocked (ex_after ex_finished).
Proof. vm_compute. split; [reflexivity|]. split; [discriminate|exact I]. Qed.
Lemma tp_requests_finish_witness :
  (exists now k cb s', step (fun d => d) 60000 (EThread now k cb) (ex_after ex_finished) s') \/ callback_owed (ex_after ex_finished) \/
  (clientActiveCalls_ (ex_after ex_finished) = 0 /\
   forall f fut, futures (ex_after ex_finished) !! f = Some fut -> is_Some (jitFuture fut)).
Proof.
  apply (tp_requests_finish (fun d => d) 60000 ex_info ex_opts ∅ ex_urls 2 (ex_after ex_finished) (ex_run _ ex_finished_runs)).
  - apply ex_small. vm_compute. reflexivity.
  - exact (proj1 ex_finished_open).
  - exact (proj2 ex_finished_open).
Defined.

(** The request of thread 0 may take 5 ms. *)
Definition ex_entered : list (event (T := device)) := ex_send 0 (Some 5) 1234567.
Lemma ex_entered_runs : is_Some (ex_exec orderedb ex_entered ex_agent).
Proof. apply ex_is_Some. vm_compute. reflexivity. Qed.
Lemma tp_timeouts_kept_witness : let s := ex_after ex_entered in let e := mkTimeout 0 0 5 in
  (exists fut, futures s !! 0%nat = Some fut /\ isComplete fut = true) \/ e ∈ batch (timeoutThread_ s) \/
  ((exists l', timeoutMap_ s !! 6000000 = Some l' /\ e ∈ l') /\
   forall now, timeoutThread_ s = TimerTest -> running_ s = true -> 6000000 <= now ->
     exists t0 l0 s3, t0 <= 6000000 /\ timeoutMap_ s !! t0 = Some l0 /\ step (fun d => d) 60000 (ETimer now) s s3 /\
       timeoutThread_ s3 = TimerMarks l0 /\ timeoutMap_ s3 = delete t0 (timeoutMap_ s)).
Proof.
  apply (tp_timeouts_kept (fun d => d) 60000 ordered ex_info ex_opts ∅ ex_urls 2 (ex_after ex_entered) (ex_after ex_entered) 6000000
    [mkTimeout 0 0 5] (mkTimeout 0 0 5) (ex_run _ ex_entered_runs) (run_nil _ _ _ _)).
  - apply ex_small. vm_compute. reflexivity.
  - vm_compute. reflexivity.
  - apply list_elem_of_here.
Defined.

(** Thread 1 sends a tensor on a device without a device map; then the pipe fails. *)
Definition ex_failed : list (event (T := device)) :=
  EJoin false 0 :: ex_send 0 None 0 ++ [ESend 1 ex_to (ex_call [Cuda 0]) None ∅; EThread 0 1 CbLater; EWrite 1 None; ERead 1 (inl (str "eof"));
    EThread 0 2 CbLater; EThread 0 2 CbLater; EThread 0 2 CbLater; EThread 0 2 CbLater].
Lemma ex_failed_runs : is_Some (ex_exec orderedb ex_failed ex_agent).
Proof. apply ex_is_Some. vm_compute. reflexivity. Qed.
Lemma ex_failed_threads : threads (ex_after ex_failed) = replicate 2 (mkThread TUser None).
Proof. vm_compute. reflexivity. Qed.
Lemma ex_failed_futures : forallb (fun fut => match jitFuture fut with Some _ => true | None => false end) (futures (ex_after ex_failed)) = true.
Proof. vm_compute. reflexivity. Qed.
Lemma ex_failed_abandoned : abandoned (ex_after ex_failed) = [1%nat] /\ join_ (ex_after ex_failed) = JoinWaits.
Proof. vm_compute. split; reflexivity. Qed.
Lemma tp_failed_send_miscounts_witness : clientActiveCalls_ (ex_after ex_failed) = -1 /\
  forall arrived total s', ~ step (fun d => d) 60000 (EJoin arrived total) (ex_after ex_failed) s'.
Proof.
  destruct (tp_failed_send_miscounts (fun d => d) 60000 ordered ex_info ex_opts ∅ ex_urls 2 (ex_after ex_failed) (ex_run _ ex_failed_runs)) as [H1 H2].
  - apply ex_small. vm_compute. reflexivity.
  - intros t Ht. rewrite ex_failed_threads in Ht. apply list_elem_of_lookup in Ht as [i Ht]. apply lookup_replicate_1 in Ht as [-> _]. split; reflexivity.
  - intros f fut Hf. apply ex_is_Some. pose proof (proj1 (forallb_forall _ _) ex_failed_futures fut) as H. apply H.
    apply list_elem_of_In. eapply list_elem_of_lookup_2. exact Hf.
  - split; [rewrite H1, (proj1 ex_failed_abandoned); vm_compute; reflexivity|].
    apply H2; [rewrite (proj1 ex_failed_abandoned); vm_compute; split; reflexivity|exact (proj2 ex_failed_abandoned)].
Defined.

(** Two requests that are answered in the other order: each answer looks for its
    entry under the expiration time of the other request, and timeoutMap_ keeps
    both entries. *)
Example tp_timeout_entries_left :
  let es := ex_send 0 (Some 5) 0 ++ ex_send 1 (Some 7) 0 ++ [EWrite 1 None; EWrite 1 None; ERead 1 (inr (ex_answer 1)); ERead 1 (inr (ex_answer 0))] in
  match ex_exec orderedb es ex_agent with
  | Some s => numPendingResponses s = 0%nat /\ timeoutMapSize s = 2%nat
  | None => False
  end.
Proof. vm_compute. split; reflexivity. Qed.
