(* ===== verification/TensorPipeJoin.v ===== *)
(** * join() of several TensorPipe agents

    Models TensorPipeAgent::join of csrc/c10d/distributed/rpc/tensorpipe_agent.cpp
    on several workers at once: the agents of the file TensorPipeAgent, the pipes
    between them, and the barrier and the allreduce of the process group, by which
    the workers agree that no call is active any more. *)

From stdpp Require Import base option list gmap strings.
From Stdlib Require Import ZArith Lia.
From S2P Require Import Prelude Decimal RpcTypes RpcAgent TensorPipe TensorPipeAgent.
#[local] Set Warnings "-clear-no-such-hyp".

Section join.
Context {T : Type} (device_of : T -> device) (rpcTimeout : Z).
#[local] Set Default Proof Using "Type".
#[local] Set Proof Using Clear Unused.

Abbreviation agent := (tp_agent (T := T)).
Abbreviation tp_event := (event (T := T)).

(** The agents, by worker id; for a pipe of a server, its client; the requests and
    answers on their way (client, server, message); the results of the allreduces
    so far; and for every worker the number of rounds of join() it has been
    through, and the count that it gives to the allreduce of the current one. *)
Record cluster := mkCluster {
  agents : list agent;
  links : gmap (nat * nat) nat;
  to_server : list (nat * Z * Message T);
  to_client : list (nat * nat * Message T);
  sums : list Z;
  rounds : list nat;
  given : list Z;
}.

(** An agent made a step: what it gave to its pipes is on its way. *)
Definition drained (s : agent) : agent := upd_requests (fun _ => []) (upd_responses (fun _ => []) s).
Definition absorb (i : nat) (s : agent) (c : cluster) : cluster :=
  mkCluster (<[i := drained s]> (agents c)) (links c)
    (to_server c ++ map (fun r => (i, r.1.1, r.1.2)) (requests s))
    (to_client c ++ omap (fun r => (fun client => (client, i, r.1.2)) <$> links c !! (i, r.1.1)) (responses s))
    (sums c) (rounds c) (given c).
Definition at_agent (i : nat) (e : tp_event) (c : cluster) : option cluster :=
  match agents c !! i with
  | Some s => match exec device_of rpcTimeout e s with (Ret _, s') => Some (absorb i s' c) | _ => None end
  | None => None
  end.

Inductive cluster_event : Type :=
  | CLocal (i : nat) (e : tp_event)
  | CAccept (i j : nat)   (* the pipe from i is accepted by j *)
  | CDeliver (k p : nat)   (* the k-th request arrives at the pipe p of its server *)
  | CAnswer (k : nat)   (* the k-th answer arrives *)
  | CJoin (i : nat)   (* join() is called, or its wait for the count ends *)
  | CBarrier (i : nat)
  | CSum   (* all workers are in the allreduce *)
  | CLeave (i : nat)
  | CFail (i : nat) (e : tp_event).

(** Steps of a worker alone, and errors of its pipes. *)
Definition local_event (e : tp_event) : bool :=
  match e with
  | ESend _ _ _ _ _ | EThread _ _ _ | EWrite _ None | EAsyncDone _ _ | ETimer _ | EWake | EShutdown => true
  | _ => false
  end.
Definition fail_event (e : tp_event) : bool :=
  match e with
  | EWrite _ (Some _) | ERead _ (inl _) | ERequest _ None | EAccept None => true
  | _ => false
  end.
(** Worker [j] has arrived at the barrier of round [r]. *)
Definition arrived (r : nat) (js : join_pc * nat) : bool :=
  (r <? js.2)%nat || ((r =? js.2)%nat && (bool_decide (js.1 = JoinBarrier) || bool_decide (js.1 = JoinHolds))).
Definition holding (c : cluster) : bool :=
  forallb (fun s => bool_decide (join_ s = JoinHolds)) (agents c) && forallb (fun r => (r =? length (sums c))%nat) (rounds c).
(** The allreduce of int64_t. *)
Definition total_calls (c : cluster) : Z := int64 (sum_Z (given c)).

Definition cexec (e : cluster_event) (c : cluster) : option cluster :=
  match e with
  | CLocal i e => if local_event e then at_agent i e c else None
  | CAccept i j =>
      match agents c !! i, agents c !! j with
      | Some si, Some sj =>
          c' ← at_agent j (EAccept (Some (name_ (workerInfo_ si)))) c;
          Some (mkCluster (agents c') (<[(j, length (serverPipes sj)) := i]> (links c')) (to_server c') (to_client c') (sums c') (rounds c') (given c'))
      | _, _ => None
      end
  | CDeliver k p =>
      '(i, j, m) ← to_server c !! k;
      if (0 <=? j) && bool_decide (links c !! (Z.to_nat j, p) = Some i) then
        at_agent (Z.to_nat j) (ERequest p (Some m))
          (mkCluster (agents c) (links c) (delete k (to_server c)) (to_client c) (sums c) (rounds c) (given c))
      else None
  | CAnswer k =>
      '(i, j, m) ← to_client c !! k;
      at_agent i (ERead (Z.of_nat j) (inr m))
        (mkCluster (agents c) (links c) (to_server c) (delete k (to_client c)) (sums c) (rounds c) (given c))
  | CJoin i =>
      s ← agents c !! i;
      if bool_decide (join_ s = JoinNone) || bool_decide (join_ s = JoinWaits) then at_agent i (EJoin false 0) c else None
  | CBarrier i =>
      s ← agents c !! i; r ← rounds c !! i;
      if bool_decide (join_ s = JoinBarrier) && forallb (arrived r) (zip (map join_ (agents c)) (rounds c))
      then
        c' ← at_agent i (EJoin true 0) c;
        Some (mkCluster (agents c') (links c') (to_server c') (to_client c') (sums c') (rounds c') (<[i := clientActiveCalls_ s]> (given c')))
      else None
  | CSum => if holding c then Some (mkCluster (agents c) (links c) (to_server c) (to_client c) (sums c ++ [total_calls c]) (rounds c) (given c)) else None
  | CLeave i =>
      s ← agents c !! i; r ← rounds c !! i; total ← sums c !! r;
      if bool_decide (join_ s = JoinHolds) then
        c' ← at_agent i (EJoin false total) c;
        Some (mkCluster (agents c') (links c') (to_server c') (to_client c') (sums c') (<[i := S r]> (rounds c')) (given c'))
      else None
  | CFail i e => if fail_event e then at_agent i e c else None
  end.

Fixpoint cluster_run (es : list cluster_event) (c : cluster) : option cluster :=
  match es with [] => Some c | e :: es => c' ← cexec e c; cluster_run es c' end.

(** What the soundness of join() needs: no pipe fails, no request times out, the
    user threads of a worker do not call send() once it joins, every call of send()
    got through, and the counts fit their types. *)
Definition peaceful (s : agent) (e : tp_event) : Prop :=
  match e with
  | ESend k _ _ _ _ => forall c, threads s !! k = Some (mkThread TUser c) -> join_ s = JoinNone
  | ETimer now => match earliestTimeout (timeoutMap_ s) with Some t => now < t | None => True end
  | _ => True
  end.
Definition users_idle (s : agent) : Prop := forall t, t ∈ threads s -> task_ t = TUser -> sending t = None.
Definition calm (c : cluster) (e : cluster_event) : Prop :=
  match e with
  | CLocal i e => forall s, agents c !! i = Some s -> peaceful s e
  | CJoin i => forall s, agents c !! i = Some s -> users_idle s
  | CSum => Z.of_nat (length (agents c)) < 2 ^ 31 /\ forall i s, agents c !! i = Some s -> abandoned s = [] /\ active_calls s < 2 ^ 31
  | CFail _ _ => False
  | _ => True
  end.
Fixpoint along (P : cluster -> cluster_event -> Prop) (es : list cluster_event) (c : cluster) : Prop :=
  match es with
  | [] => True
  | e :: es => P c e /\ match cexec e c with Some c' => along P es c' | None => True end
  end.

(** A worker that has nothing to do: all its requests have results, and no thread
    does anything. *)
Record still (s : agent) : Prop := {
  sl_futures : forall f fut, futures s !! f = Some fut -> is_Some (jitFuture fut);
  sl_threads : forall t, t ∈ threads s -> t = mkThread TUser None;
}.

(** No call is active anywhere. *)
Definition quiescent (c : cluster) : Prop :=
  to_server c = [] /\ to_client c = [] /\ forall i s, agents c !! i = Some s -> still s.

(** Workers that have just started. *)
Definition initial (c : cluster) : Prop :=
  links c = ∅ /\ to_server c = [] /\ to_client c = [] /\ sums c = [] /\ length (given c) = length (agents c) /\
  forall i s, agents c !! i = Some s -> exists info opts reverse urls users, s = new_agent info opts reverse urls users.

(** ** Tickets

    A request that is not finished has one ticket: the call of send(), the request
    on its way, the thread of the server that deals with it, or the answer on its
    way.  [phi] weighs ids. *)

Definition item (t : task (T := T)) : option (nat * Z) :=
  match t with
  | TCount p m | TRequest p m => Some (p, id_ m)
  | TServing p id | TReply p id _ | TAsync p id | TWaiting p id | TDone p id _ | TDoneAsync p id _ | TRespond p id _ => Some (p, id)
  | TUser | TMark _ _ | TMarked _ => None
  end.
Definition call_w (phi : Z -> Z) (t : thread (T := T)) : Z :=
  match sending t with Some c => phi (uint64 (id_ (call_of c).2)) | None => 0 end.
Definition item_w (W : nat -> Z -> Z) (t : thread (T := T)) : Z := match item (task_ t) with Some (p, id) => W p id | None => 0 end.

Definition own (phi : Z -> Z) (s : agent) : Z :=
  sumf (call_w phi) (threads s) + sumf (fun r => phi (uint64 (id_ r.1.2))) (requests s).
Definition served (W : nat -> Z -> Z) (s : agent) : Z :=
  sumf (item_w W) (threads s) + sumf (fun r => W r.1.1 (id_ r.1.2)) (responses s).

Definition nonneg (phi : Z -> Z) : Prop := forall z, 0 <= phi z.
Definition nonnegW (W : nat -> Z -> Z) : Prop := forall p z, 0 <= W p z.

Lemma call_w_nonneg phi t : nonneg phi -> 0 <= call_w phi t.
Proof. intros H. unfold call_w. destruct (sending t); [apply H|lia]. Qed.
Lemma item_w_nonneg W t : nonnegW W -> 0 <= item_w W t.
Proof. intros H. unfold item_w. destruct (item (task_ t)) as [[p id]|]; [apply H|lia]. Qed.

Lemma sumf_ext {A} (v w : A -> Z) l : (forall x, x ∈ l -> v x = w x) -> sumf v l = sumf w l.
Proof.
  induction l as [|x l IH]; intros H; [done|]. unfold sumf in *. simpl. rewrite H by apply list_elem_of_here. f_equal. apply IH.
  intros y Hy. by apply H, list_elem_of_further.
Qed.
Lemma sumf_le {A} (v w : A -> Z) l : (forall x, x ∈ l -> v x <= w x) -> sumf v l <= sumf w l.
Proof.
  induction l as [|x l IH]; intros H; [done|]. unfold sumf in *. simpl.
  pose proof (H x (list_elem_of_here _ _)). assert (sum_Z (map v l) <= sum_Z (map w l)); [|lia]. apply IH. intros y Hy. by apply H, list_elem_of_further.
Qed.
Lemma sumf_plus {A} (v w : A -> Z) l : sumf (fun x => v x + w x) l = sumf v l + sumf w l.
Proof. induction l as [|x l IH]; [done|]. unfold sumf in *. simpl. lia. Qed.
Lemma sumf_map {A B} (w : B -> Z) (g : A -> B) l : sumf w (map g l) = sumf (fun x => w (g x)) l.
Proof. unfold sumf. by rewrite map_map. Qed.
Lemma sumf_omap {A B} (w : B -> Z) (g : A -> option B) l : sumf w (omap g l) = sumf (fun x => match g x with Some y => w y | None => 0 end) l.
Proof.
  induction l as [|x l IH]; [done|]. change (omap g (x :: l)) with (match g x with Some y => y :: omap g l | None => omap g l end).
  unfold sumf in *. destruct (g x) eqn:E; simpl; rewrite E, IH; lia.
Qed.

(** Marking a future gives no ticket and needs none. *)
Lemma mark_own phi f r s : own phi (markFuture f r s) = own phi s.
Proof.
  unfold own. destruct (markFuture_frame f r s) as (_ & _ & _ & _ & _ & _ & -> & _ & [-> | ->]); [done|].
  rewrite sumf_app, sumf_one. unfold call_w at 2. simpl. lia.
Qed.
Lemma mark_served W f r s : served W (markFuture f r s) = served W s.
Proof.
  unfold served. destruct (markFuture_frame f r s) as (_ & _ & _ & _ & _ & _ & _ & -> & [-> | ->]); [done|].
  rewrite sumf_app, sumf_one. unfold item_w at 2. simpl. lia.
Qed.
Lemma markAll_own phi what l s : own phi (markAll what l s) = own phi s.
Proof. revert s. induction l as [|e l IH]; intros s; simpl; [done|]. rewrite IH. apply mark_own. Qed.
Lemma markAll_served W what l s : served W (markAll what l s) = served W s.
Proof. revert s. induction l as [|e l IH]; intros s; simpl; [done|]. rewrite IH. apply mark_served. Qed.

(** An agent's own tickets: only the registration of a request adds one. *)
Lemma own_effect phi a s s' : effect device_of rpcTimeout s a s' -> nonneg phi -> tracked [] s -> small s' ->
  own phi s' <= own phi s \/
  (length (futures s') = S (length (futures s)) /\ own phi s' <= own phi s + phi (Z.of_nat (length (futures s)))).
Proof.
  intros Heff Hphi Ht Hsm. destruct Heff; try (left; unfold own, new_call; simpl; rewrite ?(sumf_insert _ _ _ _ _ H), ?(sumf_delete _ _ _ _ H);
    unfold call_w; simpl; try lia; fail).
  - left. unfold own. by rewrite (qt_threads _ _ H), (qt_requests _ _ H).
  - left. pose proof (mark_own phi (responseFuture e) (FError (timeout_error e)) s) as E. unfold own in *. simpl. by rewrite E.
  - right. unfold small, registered_state, new_call in *. simpl in *. rewrite length_app in *. simpl in *. split; [lia|].
    unfold own. simpl. rewrite (sumf_insert _ _ _ _ _ H). unfold call_w at 2 3. simpl.
    rewrite (tr_next _ _ Ht), uint64_int64 by lia. lia.
  - left. unfold own, new_call. simpl. rewrite (sumf_insert _ _ _ _ _ H). unfold call_w at 2 3. simpl. pose proof (Hphi (uint64 (id_ m))). lia.
  - left. unfold own, new_call. simpl. rewrite (sumf_insert _ _ _ _ _ H), sumf_app, sumf_one. unfold call_w at 2 3. simpl. lia.
  - left. subst s1. case_match; [rewrite mark_own|]; done.
  - left. pose proof (markAll_own phi what (map_to_list (pendingResponseMessage_ p)) (upd_pipe to (fun p => set_broken (set_readError_ (upd_pending (fun _ => ∅) (upd_reads (fun _ => rest) p)))) s)) as E.
    unfold own in *. simpl. by rewrite E.
  - left. by rewrite mark_own.
  - left. unfold own. simpl. rewrite sumf_app, sumf_one. unfold call_w at 2. simpl. lia.
Qed.

(** The tickets a server holds: only the arrival of a request adds one. *)
Definition arriving (W : nat -> Z -> Z) (a : kind) : Z := match a with KRequest p id => W p id | _ => 0 end.
Lemma served_effect W a s s' : effect device_of rpcTimeout s a s' -> nonnegW W -> served W s' <= served W s + arriving W a.
Proof.
  intros Heff HW. assert (Ha : 0 <= arriving W a) by (destruct a; simpl; try lia; apply HW).
  destruct Heff; try (unfold served, new_call; simpl; rewrite ?(sumf_insert _ _ _ _ _ H), ?(sumf_delete _ _ _ _ H);
    unfold item_w; simpl; lia; fail).
  - unfold served. rewrite (qt_threads _ _ H), (qt_responses _ _ H). lia.
  - pose proof (mark_served W (responseFuture e) (FError (timeout_error e)) s) as E. unfold served in *. simpl. rewrite E. simpl. lia.
  - subst s1. case_match; [rewrite mark_served|]; unfold served; simpl; lia.
  - pose proof (markAll_served W what (map_to_list (pendingResponseMessage_ p)) (upd_pipe to (fun p => set_broken (set_readError_ (upd_pending (fun _ => ∅) (upd_reads (fun _ => rest) p)))) s)) as E.
    unfold served in *. simpl. rewrite E. simpl. lia.
  - rewrite mark_served. unfold served. simpl. lia.
  - unfold served, new_call. simpl. rewrite (sumf_insert _ _ _ _ _ H). destruct H0; unfold item_w; simpl; lia.
  - unfold served. simpl. rewrite sumf_app, sumf_one. unfold item_w at 2. simpl. lia.
  - unfold served. simpl. rewrite (sumf_delete _ _ _ _ H). unfold item_w at 2. simpl. pose proof (HW p id).
    destruct H0 as [->|(_ & m & devices & -> & <-)]; [rewrite app_nil_r; lia|rewrite sumf_app, sumf_one; simpl; lia].
Qed.

(** ** What the open requests weigh *)

(** Sums over a list with the positions. *)
Fixpoint sumi {A} (f : nat -> A -> Z) (k : nat) (l : list A) : Z :=
  match l with [] => 0 | x :: l => f k x + sumi f (S k) l end.

Lemma sumi_ext {A} (f g : nat -> A -> Z) l k : (forall j x, l !! j = Some x -> f (k + j)%nat x = g (k + j)%nat x) -> sumi f k l = sumi g k l.
Proof.
  revert k. induction l as [|x l IH]; intros k H; simpl; [done|]. f_equal.
  - specialize (H 0%nat x eq_refl). by rewrite Nat.add_0_r in H.
  - apply IH. intros j y Hy. specialize (H (S j) y Hy). by rewrite Nat.add_succ_r in H.
Qed.
Lemma sumi_insert {A} (f : nat -> A -> Z) l j x y k : l !! j = Some x -> sumi f k (<[j := y]> l) = sumi f k l - f (k + j)%nat x + f (k + j)%nat y.
Proof.
  revert j k. induction l as [|z l IH]; intros [|j] k H; simpl in *; [done|done| |].
  - simplify_eq. rewrite Nat.add_0_r. lia.
  - rewrite (IH j (S k) H), Nat.add_succ_r. simpl. lia.
Qed.
Lemma sumi_snoc {A} (f : nat -> A -> Z) l x k : sumi f k (l ++ [x]) = sumi f k l + f (k + length l)%nat x.
Proof. revert k. induction l as [|y l IH]; intros k; simpl; [rewrite Nat.add_0_r; lia|]. rewrite IH, Nat.add_succ_r. simpl. lia. Qed.
Lemma sumi_ge {A} (f : nat -> A -> Z) l j x k : (forall i y, 0 <= f i y) -> l !! j = Some x -> 0 <= f (k + j)%nat x <= sumi f k l.
Proof.
  intros Hf. revert j k. induction l as [|z l IH]; intros [|j] k H; simpl in *; [done|done| |].
  - simplify_eq. rewrite Nat.add_0_r. pose proof (Hf k x). assert (forall k, 0 <= sumi f k l); [|specialize (H0 (S k)); lia].
    clear -Hf. induction l as [|y l IH]; intros k; simpl; [lia|]. pose proof (Hf k y). specialize (IH (S k)). lia.
  - destruct (IH j (S k) H) as [H1 H2]. rewrite Nat.add_succ_r. pose proof (Hf k z). simpl in *. lia.
Qed.
Lemma sumi_nonneg {A} (f : nat -> A -> Z) l k : (forall i y, 0 <= f i y) -> 0 <= sumi f k l.
Proof. intros Hf. destruct l as [|x l]; [done|]. destruct (sumi_ge f (x :: l) 0 x k Hf eq_refl). lia. Qed.

Definition open_w (phi : Z -> Z) (f : nat) (fut : AtomicJitFuture (T := T)) : Z := if isComplete fut then 0 else phi (Z.of_nat f).
Definition weight (phi : Z -> Z) (s : agent) : Z := sumi (open_w phi) 0 (futures s).

Lemma weight_ones (s : agent) : weight (fun _ => 1) s = sumf open_ (futures s).
Proof.
  unfold weight. generalize 0%nat. induction (futures s) as [|x l IH]; intros k; simpl; [done|]. rewrite IH. unfold sumf, open_w, open_. simpl. done.
Qed.

(** The steps of a calm agent that has nothing timed out. *)
Definition calm_kind (s : agent) (a : kind) : Prop :=
  match a with
  | KError => False
  | KTimer now => match earliestTimeout (timeoutMap_ s) with Some t => now < t | None => True end
  | _ => True
  end.
Definition answering (phi : Z -> Z) (a : kind) : Z := match a with KAnswer _ id => phi id | _ => 0 end.

Lemma calm_no_take (s : agent) t now : calm_kind s (KTimer now) -> earliestTimeout (timeoutMap_ s) = Some t -> t <= now -> False.
Proof. simpl. intros H E. rewrite E in H. lia. Qed.
Lemma calm_no_expire (s : agent) e l : batch (timeoutThread_ s) = [] -> timeoutThread_ s = TimerMarks (e :: l) -> False.
Proof. intros H E. by rewrite E in H. Qed.

Lemma weight_effect phi a s s' : effect device_of rpcTimeout s a s' -> nonneg phi -> calm_kind s a -> batch (timeoutThread_ s) = [] ->
  tracked [] s ->
  (length (futures s') = length (futures s) /\ weight phi s <= weight phi s' + answering phi a) \/
  (length (futures s') = S (length (futures s)) /\ weight phi s' = weight phi s + phi (Z.of_nat (length (futures s)))).
Proof.
  intros Heff Hphi Hcalm Hb Ht. assert (Ha : 0 <= answering phi a) by (destruct a; simpl; try lia; apply Hphi).
  destruct Heff; try (left; unfold weight; simpl; split; [done|lia]); try done.
  - left. unfold weight. rewrite (qt_futures _ _ H). split; [done|lia].
  - by exfalso; apply (calm_no_expire s e l).
  - right. unfold weight. simpl. rewrite length_app, sumi_snoc. simpl. split; [lia|]. done.
  - left. destruct (tr_pending _ _ Ht to id f) as [E Hlt]; [by exists p|]. simpl in Ha |- *. unfold markFuture. cbn [futures upd_timeoutMap_ upd_pipe upd_connectedPipes_].
    destruct (futures s !! f) as [fut|] eqn:Ef; [|split; [done|unfold weight; simpl; lia]].
    destruct (isComplete fut) eqn:Ec; [split; [done|unfold weight; simpl; lia]|]. unfold weight. simpl. rewrite length_insert. split; [done|].
    rewrite (sumi_insert _ _ _ _ _ _ Ef). unfold open_w at 3 4. simpl. rewrite Ec, E. lia.
  - left. unfold weight. simpl. rewrite length_insert. split; [done|]. rewrite (sumi_insert _ _ _ _ _ _ H0). unfold open_w at 3 4. simpl. lia.
Qed.

(** Tickets against weights. *)
Lemma ticket_effect phi a s s' : effect device_of rpcTimeout s a s' -> nonneg phi -> calm_kind s a -> batch (timeoutThread_ s) = [] ->
  tracked [] s -> small s' -> own phi s' - weight phi s' <= own phi s - weight phi s + answering phi a.
Proof.
  intros Heff Hphi Hc Hb Ht Hsm. assert (Ha : 0 <= answering phi a) by (destruct a; simpl; try lia; apply Hphi).
  pose proof (Hphi (Z.of_nat (length (futures s)))) as Hn.
  destruct (own_effect phi a s s' Heff Hphi Ht Hsm) as [H|[E H]], (weight_effect phi a s s' Heff Hphi Hc Hb Ht) as [[E' H']|[E' H']]; lia.
Qed.

Lemma batch_effect a s s' : effect device_of rpcTimeout s a s' -> calm_kind s a -> batch (timeoutThread_ s) = [] -> batch (timeoutThread_ s') = [].
Proof.
  intros Heff Hcalm Hb. destruct Heff; try exact Hb; try done.
  - by rewrite (qt_batch _ _ H).
  - by exfalso; apply (calm_no_take s t now).
  - by exfalso; apply (calm_no_expire s e l).
  - simpl. by rewrite batch_notify.
  - by destruct (markFuture_frame f r (upd_timeoutMap_ (removeFromTimeoutMap id e) (upd_pipe to (fun p => upd_pending (delete id) (upd_reads (fun _ => rest) p)) s)))
      as (_ & _ & _ & _ & _ & -> & _).
Qed.

(** What happens to the threads. *)
Inductive threads_change (l : list (thread (T := T))) (a : kind) : list thread -> Prop :=
  | tc_same : threads_change l a l
  | tc_mark f r : threads_change l a (l ++ [mkThread (TMark f r) None])
  | tc_request p m : a = KRequest p (id_ m) -> threads_change l a (l ++ [mkThread (TCount p m) None])
  | tc_call k t c0 c : l !! k = Some (mkThread t c0) -> c = None \/ is_Some c0 \/ a = KSend k -> threads_change l a (<[k := mkThread t c]> l)
  | tc_task k t t' : l !! k = Some (mkThread t None) -> t' <> TUser -> item t' = item t -> threads_change l a (<[k := mkThread t' None]> l)
  | tc_end k : threads_change l a (delete k l).
Lemma mark_threads f r s l a : threads s = l -> threads_change l a (threads (markFuture f r s)).
Proof. intros <-. destruct (markFuture_frame f r s) as (_ & _ & _ & _ & _ & _ & _ & _ & [-> | ->]); constructor. Qed.
Lemma threads_effect a s s' : effect device_of rpcTimeout s a s' -> calm_kind s a -> threads_change (threads s) a (threads s').
Proof.
  intros Heff Hc. destruct Heff; try done; try (by constructor); try (by apply mark_threads);
    try (by eapply tc_call; [exact H|first [by left|right; left; by eexists|by right; right]]).
  - rewrite (qt_threads _ _ H). constructor.
  - by eapply tc_task.
  - by eapply tc_task; [exact H|destruct H0|destruct H0].
Qed.
Lemma users_change l a l' : threads_change l a l' -> (forall t, t ∈ l -> task_ t = TUser -> sending t = None) ->
  (forall k c, a = KSend k -> l !! k <> Some (mkThread TUser c)) -> forall t, t ∈ l' -> task_ t = TUser -> sending t = None.
Proof.
  intros [| | |k t c0 c Hk Hc|k t t' Hk Hn _|k] Hl Hs u Hu Et; try (by apply Hl).
  - apply elem_of_app in Hu as [Hu| ->%list_elem_of_singleton]; [by apply Hl|done].
  - apply elem_of_app in Hu as [Hu| ->%list_elem_of_singleton]; [by apply Hl|done].
  - apply list_elem_of_lookup in Hu as [i [(-> & <- & _)|[_ Hu%list_elem_of_lookup_2]]%list_lookup_insert_Some]; [|by apply Hl].
    simpl in *. subst t. destruct Hc as [->|[[x ->]| ->]]; [done| |by exfalso; eapply Hs].
    apply list_elem_of_lookup_2, Hl in Hk; done.
  - apply list_elem_of_lookup in Hu as [i [(-> & <- & _)|[_ Hu%list_elem_of_lookup_2]]%list_lookup_insert_Some]; [done|by apply Hl].
  - apply Hl; [by eapply elem_of_delete|done].
Qed.
Lemma items_change l a l' n : threads_change l a l' -> (forall t p id, t ∈ l -> item (task_ t) = Some (p, id) -> (p < n)%nat) ->
  (forall p id, a = KRequest p id -> (p < n)%nat) -> forall t p id, t ∈ l' -> item (task_ t) = Some (p, id) -> (p < n)%nat.
Proof.
  intros [| |p0 m0 Ea|k t c0 c Hk Hc|k t t' Hk Hn Ei|k] Hl Hr u p id Hu Et; try (by eapply Hl).
  - apply elem_of_app in Hu as [Hu| ->%list_elem_of_singleton]; [by eapply Hl|done].
  - apply elem_of_app in Hu as [Hu| ->%list_elem_of_singleton]; [by eapply Hl|]. simpl in Et. simplify_eq. by eapply Hr.
  - apply list_elem_of_lookup in Hu as [i [(-> & <- & _)|[_ Hu%list_elem_of_lookup_2]]%list_lookup_insert_Some]; [|by eapply Hl].
    apply list_elem_of_lookup_2 in Hk. by eapply (Hl _ p id Hk).
  - apply list_elem_of_lookup in Hu as [i [(-> & <- & _)|[_ Hu%list_elem_of_lookup_2]]%list_lookup_insert_Some]; [|by eapply Hl].
    apply list_elem_of_lookup_2 in Hk. eapply (Hl _ p id Hk). simpl in *. by rewrite <- Ei.
  - eapply Hl; [by eapply elem_of_delete|done].
Qed.

(** While join() holds callCountMutex_ the count does not change. *)
Lemma mark_client f r (s : agent) : clientActiveCalls_ (markFuture f r s) = clientActiveCalls_ s.
Proof. unfold markFuture, add_thread. by repeat case_match. Qed.
Lemma client_locked a s s' : effect device_of rpcTimeout s a s' -> join_ s = JoinHolds -> clientActiveCalls_ s' = clientActiveCalls_ s.
Proof.
  intros Heff Hj. destruct Heff; try done.
  - apply (qt_client _ _ H).
  - apply (mark_client (responseFuture e) (FError (timeout_error e))).
  - case_match; [by rewrite mark_client|done].
  - simpl. generalize (map_to_list (pendingResponseMessage_ p)). intros l.
    assert (forall s0, clientActiveCalls_ (markAll what l s0) = clientActiveCalls_ s0) as ->; [|done].
    induction l as [|x l IH]; intros s0; simpl; [done|]. rewrite IH. apply mark_client.
  - by rewrite mark_client.
Qed.

(** What only join() and the listener change. *)
Definition fixed (s : agent) : join_pc * list ServerPipe := (join_ s, serverPipes s).
Lemma fixed_ignores : ignores fixed.
Proof. by split. Qed.
Ltac fixed_frame := first
  [ apply preserves_bind; [|intros ?] | apply preserves_modify; intros; reflexivity | apply preserves_gets | apply preserves_lift
  | apply preserves_throw | apply preserves_ret | apply preserves_assert | case_match ].
Lemma fixed_step e s s' : step device_of rpcTimeout e s s' ->
  match e with EJoin _ _ | EAccept _ | ERequest _ None => False | _ => True end -> fixed s' = fixed s.
Proof.
  intros Hs He. unfold step in Hs. assert (Hpres : preserves fixed (exec device_of rpcTimeout e) -> fixed s' = fixed s) by (intros Hp; specialize (Hp s); by rewrite Hs in Hp).
  destruct e; cbn [exec] in *; try done; try (by apply Hpres; first [apply ignored_on_write|apply ignored_on_read|apply ignored_async_done]; apply fixed_ignores).
  - apply Hpres. unfold send, send_register, set_call. repeat fixed_frame.
  - unfold run_thread, bind, gets in Hs. destruct (threads s !! k) as [[t [c|]]|] eqn:Ek; [| |done].
    + assert (Hp : preserves fixed (run_call device_of rpcTimeout now k c)); [|specialize (Hp s); by rewrite Hs in Hp].
      destruct c; cbn [run_call]; unfold send_count, send_timeout, send_write, set_call, increaseCallCount, changeCallCount, lock_callCount, lock_timeoutMap;
        repeat fixed_frame.
    + pose proof (ignored_task device_of fixed fixed_ignores k cb t s) as Hp. by rewrite Hs in Hp.
  - apply Hpres. unfold on_request. apply preserves_bind; [apply preserves_gets|]. intros [[name []]|]; [|apply preserves_lift..].
    destruct r; [by apply preserves_modify|done].
  - apply Hpres. unfold pollTimeoutRpcs. repeat first [fixed_frame|apply preserves_modify; intros; apply (ignored_mark _ fixed_ignores)].
  - apply Hpres. by apply preserves_modify.
  - apply Hpres. unfold shutdown. repeat fixed_frame.
Qed.

(** ** The invariant *)

(** The tickets of the requests of worker [i]. *)
Definition W_of (ls : gmap (nat * nat) nat) (phi : Z -> Z) (i j p : nat) (id : Z) : Z :=
  match ls !! (j, p) with Some i' => if bool_decide (i' = i) then phi (uint64 id) else 0 | None => 0 end.
Definition wire_w {A} (phi : Z -> Z) (i : nat) (r : nat * A * Message T) : Z :=
  if bool_decide (r.1.1 = i) then phi (uint64 (id_ r.2)) else 0.
Definition own_at (phi : Z -> Z) (i : nat) (l : list agent) : Z := match l !! i with Some s => own phi s | None => 0 end.
Definition tick (phi : Z -> Z) (i : nat) (c : cluster) : Z :=
  own_at phi i (agents c) + sumf (wire_w phi i) (to_server c) + sumf (wire_w phi i) (to_client c) +
  sumi (fun j s => served (W_of (links c) phi i j) s) 0 (agents c).

Lemma W_of_nonneg ls phi i j : nonneg phi -> nonnegW (W_of ls phi i j).
Proof. intros H p id. unfold W_of. destruct (ls !! (j, p)); [|lia]. case_bool_decide; [apply H|lia]. Qed.
Lemma own_drained phi s : own phi (drained s) + sumf (fun r => phi (uint64 (id_ r.1.2))) (requests s) = own phi s.
Proof. unfold own, drained. simpl. unfold sumf at 2. simpl. lia. Qed.
Lemma served_drained W s : served W (drained s) + sumf (fun r => W r.1.1 (id_ r.1.2)) (responses s) = served W s.
Proof. unfold served, drained. simpl. unfold sumf at 2. simpl. lia. Qed.

Lemma tick_absorb phi i j s s' c : agents c !! j = Some s ->
  tick phi i (absorb j s' c) = tick phi i c + (if bool_decide (i = j) then own phi s' - own phi s else 0) +
    served (W_of (links c) phi i j) s' - served (W_of (links c) phi i j) s.
Proof.
  intros Hj. unfold tick, absorb. simpl. rewrite (sumi_insert _ _ _ _ _ _ Hj), !sumf_app, sumf_map, sumf_omap. simpl.
  rewrite <- (served_drained (W_of (links c) phi i j) s'), <- (own_drained phi s').
  rewrite (sumf_ext _ (fun r => W_of (links c) phi i j r.1.1 (id_ r.1.2)) (responses s')).
  2:{ intros r _. unfold W_of. by destruct (links c !! (j, r.1.1)). }
  unfold own_at. case_bool_decide as Eij.
  - subst j. rewrite list_lookup_insert_eq by (by eapply lookup_lt_Some). rewrite Hj.
    rewrite (sumf_ext _ (fun r => phi (uint64 (id_ r.1.2))) (requests s')); [lia|]. intros r _. unfold wire_w. simpl. by rewrite bool_decide_true.
  - rewrite list_lookup_insert_ne by done. rewrite (sumf_ext _ (fun _ => 0) (requests s')).
    + rewrite (sumf_ext (fun _ => 0) (fun r => 0 * wire_w phi i (0%nat, r.1.1, r.1.2)) (requests s')) by done.
      assert (forall l : list (Z * Message T * list Z), sumf (fun r => 0 * wire_w phi i (0%nat, r.1.1, r.1.2)) l = 0) as ->; [|lia].
      induction l as [|r l IH]; [done|]. unfold sumf in *. simpl. lia.
    + intros r _. unfold wire_w. simpl. by rewrite bool_decide_false.
Qed.

Record cluster_ok (extra : nat -> (Z -> Z) -> Z) (c : cluster) : Prop := {
  co_agents : forall i s, agents c !! i = Some s -> agent_inv s;
  co_clean : forall i s, agents c !! i = Some s -> batch (timeoutThread_ s) = [] /\ requests s = [] /\ responses s = [];
  co_users : forall i s, agents c !! i = Some s -> join_ s <> JoinNone -> users_idle s;
  co_items : forall i s t p id, agents c !! i = Some s -> t ∈ threads s -> item (task_ t) = Some (p, id) -> (p < length (serverPipes s))%nat;
  co_pipes : forall i s p, agents c !! i = Some s -> (p < length (serverPipes s))%nat -> is_Some (links c !! (i, p));
  co_links : forall jp i, links c !! jp = Some i -> (i < length (agents c))%nat;
  co_requests : forall r, r ∈ to_server c -> (r.1.1 < length (agents c))%nat;
  co_answers : forall r, r ∈ to_client c -> (r.1.1 < length (agents c))%nat;
  co_tickets : forall i s phi, agents c !! i = Some s -> nonneg phi -> tick phi i c + extra i phi <= weight phi s;
}.
Definition nothing : nat -> (Z -> Z) -> Z := fun _ _ => 0.

Lemma agent_inv_drained (s : agent) : agent_inv s -> agent_inv (drained s).
Proof. intros [[] [] []]. split; split; assumption. Qed.

(** A step of a worker. *)
Lemma worker_step extra j e c s s' : cluster_ok extra c -> agents c !! j = Some s -> step device_of rpcTimeout e s s' ->
  calm_kind s (kind_of e) -> small s' ->
  (join_ s' <> JoinNone -> users_idle s /\ forall k cl, kind_of e = KSend k -> threads s !! k <> Some (mkThread TUser cl)) ->
  (forall p, (p < length (serverPipes s'))%nat -> is_Some (links c !! (j, p))) ->
  (length (serverPipes s) <= length (serverPipes s'))%nat ->
  (forall p id, kind_of e = KRequest p id -> (p < length (serverPipes s))%nat) ->
  (forall i phi, nonneg phi -> (if bool_decide (i = j) then answering phi (kind_of e) else 0) +
     arriving (W_of (links c) phi i j) (kind_of e) <= extra i phi) ->
  cluster_ok nothing (absorb j s' c).
Proof.
  intros [C1 C2 C3 C4 C5 C6 C7 C8 C9] Hj Hs Hcalm Hsm Hu Hp Hlen Hr Hx. pose proof (tp_step_effect _ _ _ _ _ Hs) as Heff.
  pose proof (C1 j s Hj) as Hi. destruct (C2 j s Hj) as (Hb & _ & _). pose proof (lookup_lt_Some _ _ _ Hj) as Hlt.
  assert (Hins : forall i x, agents (absorb j s' c) !! i = Some x -> (i = j /\ x = drained s') \/ (i <> j /\ agents c !! i = Some x)).
  { intros i x H. simpl in H. apply list_lookup_insert_Some in H as [(-> & -> & _)|[Hn H]]; [by left|by right]. }
  split; simpl; rewrite ?length_insert.
  - intros i x [[-> ->]|[_ H]]%Hins; [|by eapply C1]. apply agent_inv_drained. by apply (agent_inv_effect device_of rpcTimeout (kind_of e) s s').
  - intros i x [[-> ->]|[_ H]]%Hins; [|by eapply C2]. split_and!; [|done|done]. by apply (batch_effect (kind_of e) s s').
  - intros i x [[-> ->]|[_ H]]%Hins; [|by eapply C3]. intros Hn. destruct (Hu Hn) as [Hu1 Hu2].
    intros t Ht. eapply (users_change (threads s) (kind_of e)); [by eapply threads_effect|exact Hu1|exact Hu2|exact Ht].
  - intros i x t p id [[-> ->]|[_ H]]%Hins Ht Et; [|by eapply C4]. simpl.
    assert (p < length (serverPipes s))%nat; [|lia].
    eapply (items_change (threads s) (kind_of e) (threads s')); [by eapply threads_effect| |done|exact Ht|exact Et].
    intros t0 p0 id0 Ht0. by eapply C4.
  - intros i x p [[-> ->]|[_ H]]%Hins Hpl; [by apply Hp|by eapply C5].
  - apply C6.
  - intros r [H|H]%elem_of_app; [by apply C7|]. apply list_elem_of_fmap in H as (r0 & -> & _). done.
  - intros r [H|H]%elem_of_app; [by apply C8|]. apply list_elem_of_omap in H as (r0 & _ & E).
    destruct (links c !! (j, r0.1.1)) as [i'|] eqn:El; [|done]. simpl in E. simplify_eq. simpl. by eapply C6.
  - intros i x phi H Hphi. rewrite (tick_absorb phi i j s s' c Hj). specialize (Hx i phi Hphi). unfold nothing.
    pose proof (served_effect (W_of (links c) phi i j) _ _ _ Heff (W_of_nonneg _ _ _ _ Hphi)) as Hse.
    apply Hins in H as [[-> ->]|[Hn H]].
    + rewrite bool_decide_true in * by done. pose proof (C9 j s phi Hj Hphi).
      pose proof (ticket_effect phi _ _ _ Heff Hphi Hcalm Hb (ai_tracked _ Hi) Hsm). change (weight phi (drained s')) with (weight phi s'). lia.
    + rewrite bool_decide_false in * by done. pose proof (C9 i x phi H Hphi). lia.
Qed.

(** ** When the counts add up to zero *)

Definition joined (c : cluster) : Prop := forall i s, agents c !! i = Some s -> join_ s <> JoinNone.

Lemma sumf_total (w : agent -> Z) l b : (forall s, s ∈ l -> 0 <= w s < b) -> 0 <= sumf w l <= Z.of_nat (length l) * b.
Proof.
  induction l as [|s l IH]; intros H; [unfold sumf; simpl; lia|]. unfold sumf in *. simpl length. simpl sum_Z.
  pose proof (H s (list_elem_of_here _ _)). destruct IH; [|lia]. intros x Hx. by apply H, list_elem_of_further.
Qed.
Lemma wire_none {A} i phi (l : list (nat * A * Message T)) : nonneg phi -> 0 <= sumf (wire_w phi i) l.
Proof. intros H. apply sumf_nonneg. intros r _. unfold wire_w. case_bool_decide; [apply H|lia]. Qed.
Lemma wire_elem {A} i (l : list (nat * A * Message T)) : sumf (wire_w (fun _ => 1) i) l = 0 -> forall r, r ∈ l -> r.1.1 <> i.
Proof.
  intros H r Hr Ei. apply (sumf_zero (wire_w (fun _ => 1) i)) with (x := r) in H; [|intros x _; unfold wire_w; case_bool_decide; lia|done].
  unfold wire_w in H. by rewrite bool_decide_true in H.
Qed.

(** What a worker counts: all its requests, if none was abandoned. *)
Lemma ones_nonneg : nonneg (fun _ => 1).
Proof. intros z. lia. Qed.
Lemma uncounted_own s : sumf uncounted (threads s) <= own (fun _ => 1) s.
Proof.
  unfold own. assert (0 <= sumf (fun r : Z * Message T * list Z => 1) (requests s)) by (apply sumf_nonneg; lia).
  assert (sumf uncounted (threads s) <= sumf (call_w (fun _ => 1)) (threads s)); [|lia].
  apply sumf_le. intros t _. unfold uncounted, call_w. destruct (sending t) as [[]|]; lia.
Qed.
Lemma tick_own c i s : agents c !! i = Some s -> own (fun _ => 1) s + sumf (wire_w (fun _ => 1) i) (to_server c) +
  sumf (wire_w (fun _ => 1) i) (to_client c) + sumi (fun j s => served (W_of (links c) (fun _ => 1) i j) s) 0 (agents c) = tick (fun _ => 1) i c.
Proof. intros H. unfold tick, own_at. by rewrite H. Qed.
Lemma served_nonneg W s : nonnegW W -> 0 <= served W s.
Proof.
  intros H. unfold served. assert (0 <= sumf (item_w W) (threads s)) by (apply sumf_nonneg; intros t _; by apply item_w_nonneg).
  assert (0 <= sumf (fun r => W r.1.1 (id_ r.1.2)) (responses s)); [|lia]. apply sumf_nonneg. intros r _. apply H.
Qed.

Lemma sumf_idle {A} (w : A -> Z) l : (forall x, x ∈ l -> w x = 0) -> sumf w l = 0.
Proof.
  induction l as [|x l IH]; intros H; [done|]. unfold sumf in *. simpl. rewrite H by apply list_elem_of_here. apply IH.
  intros y Hy. by apply H, list_elem_of_further.
Qed.

Section settling.
Variable c : cluster.
Hypothesis Hok : cluster_ok nothing c.
Hypothesis Hbound : Z.of_nat (length (agents c)) < 2 ^ 31 /\ forall i s, agents c !! i = Some s -> abandoned s = [] /\ active_calls s < 2 ^ 31.

Lemma active_parts i s : agents c !! i = Some s ->
  active_calls s = sumf open_ (futures s) + sumf completing (threads s) - sumf uncounted (threads s) /\
  0 <= sumf completing (threads s) /\ tick (fun _ => 1) i c <= sumf open_ (futures s).
Proof using Hok Hbound.
  intros H. unfold active_calls. destruct (proj2 Hbound i s H) as [-> _]. pose proof (co_tickets _ _ Hok i s _ H ones_nonneg) as Ht.
  rewrite weight_ones in Ht. unfold nothing in Ht. split_and!; [simpl; lia| |lia]. apply sumf_nonneg. intros t _. unfold completing. destruct (task_ t); lia.
Qed.
Lemma tick_parts i s : agents c !! i = Some s -> sumf uncounted (threads s) <= own (fun _ => 1) s /\
  own (fun _ => 1) s <= tick (fun _ => 1) i c.
Proof using.
  intros H. split; [apply uncounted_own|]. rewrite <- (tick_own c i s H). pose proof (wire_none i _ (to_server c) ones_nonneg).
  pose proof (wire_none i _ (to_client c) ones_nonneg).
  pose proof (sumi_nonneg (fun j s => served (W_of (links c) (fun _ => 1) i j) s) (agents c) 0 (fun j s => served_nonneg _ s (W_of_nonneg _ _ i j ones_nonneg))). lia.
Qed.

Lemma all_inactive : int64 (sumf clientActiveCalls_ (agents c)) = 0 -> forall i s, agents c !! i = Some s -> active_calls s = 0.
Proof using Hok Hbound.
  intros Htot.
  assert (Hc : forall s, s ∈ agents c -> clientActiveCalls_ s = active_calls s /\ 0 <= active_calls s < 2 ^ 31).
  { intros s [i Hi]%list_elem_of_lookup. destruct (active_parts i s Hi) as (E & Hco & Ho), (tick_parts i s Hi) as [H1 H2].
    destruct (proj2 Hbound i s Hi) as [_ Hb]. split; [|lia]. destruct (co_agents _ _ Hok i s Hi) as [[-> _ _] _ _]. apply int32_id. unfold in_int32. lia. }
  assert (sumf clientActiveCalls_ (agents c) = sumf active_calls (agents c)) as E by (apply sumf_ext; intros s Hs; by apply Hc).
  pose proof (sumf_total active_calls (agents c) (2 ^ 31) (fun s Hs => proj2 (Hc s Hs))) as Hr.
  rewrite E, int64_id in Htot by (unfold in_int64; lia).
  intros i s Hi. apply (sumf_zero active_calls (agents c)); [|done|by eapply list_elem_of_lookup_2]. intros x Hx. by apply Hc.
Qed.

Lemma nothing_open i s : int64 (sumf clientActiveCalls_ (agents c)) = 0 -> agents c !! i = Some s ->
  sumf completing (threads s) = 0 /\ sumf open_ (futures s) = sumf uncounted (threads s) /\
  sumf (wire_w (fun _ => 1) i) (to_server c) = 0 /\ sumf (wire_w (fun _ => 1) i) (to_client c) = 0 /\
  forall j x, agents c !! j = Some x -> served (W_of (links c) (fun _ => 1) i j) x = 0.
Proof using Hok Hbound.
  intros Htot Hi. pose proof (all_inactive Htot i s Hi) as Ha. destruct (active_parts i s Hi) as (E & Hco & Ho), (tick_parts i s Hi) as [H1 H2].
  pose proof (tick_own c i s Hi) as Et. pose proof (wire_none i _ (to_server c) ones_nonneg). pose proof (wire_none i _ (to_client c) ones_nonneg).
  assert (Hn : forall j x, 0 <= served (W_of (links c) (fun _ => 1) i j) x) by (intros; by apply served_nonneg, W_of_nonneg, ones_nonneg).
  pose proof (sumi_nonneg _ (agents c) 0 Hn). split_and!; [lia..|]. intros j x Hj.
  pose proof (sumi_ge _ (agents c) j x 0 Hn Hj). simpl in *. lia.
Qed.

(** No thread of a worker has a request of another worker. *)
Lemma no_items i s t : int64 (sumf clientActiveCalls_ (agents c)) = 0 -> agents c !! i = Some s -> t ∈ threads s -> item (task_ t) = None.
Proof using Hok Hbound.
  intros Htot Hi Ht. destruct (item (task_ t)) as [[p id]|] eqn:Et; [|done]. exfalso.
  destruct (co_pipes _ _ Hok i s p Hi (co_items _ _ Hok i s t p id Hi Ht Et)) as [k Hk].
  destruct (lookup_lt_is_Some_2 _ _ (co_links _ _ Hok _ _ Hk)) as [x Hx].
  destruct (nothing_open k x Htot Hx) as (_ & _ & _ & _ & H). specialize (H i s Hi). unfold served in H.
  assert (nonnegW (W_of (links c) (fun _ => 1) k i)) as Hn by (by apply W_of_nonneg, ones_nonneg).
  assert (0 <= sumf (item_w (W_of (links c) (fun _ => 1) k i)) (threads s)) by (apply sumf_nonneg; intros y _; by apply item_w_nonneg).
  assert (0 <= sumf (fun r => W_of (links c) (fun _ => 1) k i r.1.1 (id_ r.1.2)) (responses s)) by (apply sumf_nonneg; intros r _; apply Hn).
  assert (item_w (W_of (links c) (fun _ => 1) k i) t = 0) as Hz.
  { apply (sumf_zero _ (threads s)); [intros y _; by apply item_w_nonneg|lia|done]. }
  unfold item_w in Hz. rewrite Et in Hz. unfold W_of in Hz. rewrite Hk, bool_decide_true in Hz; done.
Qed.

Lemma all_still : int64 (sumf clientActiveCalls_ (agents c)) = 0 -> joined c -> quiescent c.
Proof using Hok Hbound.
  intros Htot Hj. split_and!.
  - destruct (to_server c) as [|r l] eqn:E; [done|exfalso]. assert (Hr : r ∈ to_server c) by (rewrite E; apply list_elem_of_here).
    destruct (lookup_lt_is_Some_2 _ _ (co_requests _ _ Hok r Hr)) as [s Hs]. destruct (nothing_open _ s Htot Hs) as (_ & _ & H & _). by eapply wire_elem.
  - destruct (to_client c) as [|r l] eqn:E; [done|exfalso]. assert (Hr : r ∈ to_client c) by (rewrite E; apply list_elem_of_here).
    destruct (lookup_lt_is_Some_2 _ _ (co_answers _ _ Hok r Hr)) as [s Hs]. destruct (nothing_open _ s Htot Hs) as (_ & _ & _ & H & _). by eapply wire_elem.
  - intros i s Hi. destruct (nothing_open i s Htot Hi) as (Hc & Ho & _).
    assert (Hth : forall t, t ∈ threads s -> t = mkThread TUser None).
    { intros t Ht. pose proof (no_items i s t Htot Hi Ht) as Hn. pose proof (co_users _ _ Hok i s Hi (Hj i s Hi) t Ht) as Hu.
      assert (completing t = 0) as Hz by (apply (sumf_zero _ (threads s)); [intros y _; unfold completing; destruct (task_ y); lia|done|done]).
      unfold completing in Hz. destruct t as [[] cl]; simpl in *; try done. by rewrite Hu. }
    split; [|done]. intros f fut Hf. destruct (co_agents _ _ Hok i s Hi) as [_ [_ Fm] _]. specialize (Fm f).
    rewrite (sumf_idle _ (threads s)) in Fm by (intros t Ht; by rewrite (Hth t Ht)).
    rewrite (sumf_idle uncounted) in Ho by (intros t Ht; by rewrite (Hth t Ht)).
    assert (open_ fut = 0) as Hz.
    { apply (sumf_zero open_ (futures s)); [intros y _; unfold open_; destruct (isComplete y); lia|done|by eapply list_elem_of_lookup_2]. }
    unfold owed in Fm. rewrite Hf in Fm. unfold open_ in Hz. destruct fut as [[] [r|]]; simpl in *; try done; by eexists.
Qed.
End settling.

(** ** The steps of the workers together *)

Record cluster_inv (c : cluster) : Prop := {
  ci_ok : cluster_ok nothing c;
  ci_settled : 0 ∈ sums c -> quiescent c /\ joined c;
  ci_given : length (given c) = length (agents c) /\
    forall i s, agents c !! i = Some s -> join_ s = JoinHolds -> given c !! i = Some (clientActiveCalls_ s);
  ci_done : forall i s, agents c !! i = Some s -> join_ s = JoinDone -> 0 ∈ sums c;
}.

(** A worker that is still, and joins, stays still. *)
Lemma still_effect a s s' : effect device_of rpcTimeout s a s' -> calm_kind s a -> batch (timeoutThread_ s) = [] -> still s ->
  match a with KAnswer _ _ | KRequest _ _ => False | KSend k => threads s !! k <> Some (mkThread TUser None) | _ => True end ->
  still s' /\ requests s' = requests s /\ responses s' = responses s.
Proof.
  intros Heff Hc Hb [S1 S2] Ha.
  assert (Hno : forall k t c, threads s !! k = Some (mkThread t c) -> t = TUser /\ c = None) by (intros k t c H%list_elem_of_lookup_2; by apply S2 in H as [= -> ->]).
  destruct Heff; try done; try (by apply Hno in H as [? [=]]); try (by apply Hno in H as [[=] ?]); try (by split).
  - split; [split; [rewrite (qt_futures _ _ H)|rewrite (qt_threads _ _ H)]; done|]. by rewrite (qt_requests _ _ H), (qt_responses _ _ H).
  - by exfalso; apply (calm_no_expire s e l).
  - exfalso. apply Hno in H as Hn. destruct Hn as [-> _]. done.
  - exfalso. apply Hno in H as [-> _]. by inversion H0.
Qed.

Lemma small_drained (s : agent) : small s <-> small (drained s).
Proof. done. Qed.
Lemma at_agent_inv i e c c' : at_agent i e c = Some c' -> exists s s', agents c !! i = Some s /\ step device_of rpcTimeout e s s' /\ c' = absorb i s' c.
Proof.
  unfold at_agent. destruct (agents c !! i) as [s|] eqn:Ei; [|done]. destruct (exec device_of rpcTimeout e s) as [[[]| |] s'] eqn:Es; [|done..].
  intros [= <-]. by exists s, s'.
Qed.
Definition all_small (c : cluster) : Prop := forall i s, agents c !! i = Some s -> small s.
Lemma absorb_small i s' c : all_small (absorb i s' c) -> (i < length (agents c))%nat -> small s'.
Proof. intros H Hi. apply small_drained, (H i). simpl. by apply list_lookup_insert_eq. Qed.

(** A step of a worker that neither gets an answer nor a request. *)
Lemma inv_step j e c s s' : cluster_inv c -> agents c !! j = Some s -> step device_of rpcTimeout e s s' -> calm_kind s (kind_of e) -> small s' ->
  match kind_of e with KAnswer _ _ | KRequest _ _ => False | _ => True end ->
  (join_ s' <> JoinNone -> users_idle s /\ forall k cl, kind_of e = KSend k -> threads s !! k <> Some (mkThread TUser cl)) ->
  (join_ s <> JoinNone -> join_ s' <> JoinNone) -> (join_ s' = JoinDone -> 0 ∈ sums c) ->
  (join_ s' = JoinHolds -> given c !! j = Some (clientActiveCalls_ s')) ->
  (forall p, (p < length (serverPipes s'))%nat -> is_Some (links c !! (j, p))) ->
  (length (serverPipes s) <= length (serverPipes s'))%nat ->
  cluster_inv (absorb j s' c).
Proof.
  intros [Hok Hset [Hg1 Hg2] Hdone] Hj Hs Hcalm Hsm Hk Hu Hmono Hd Hg Hp Hlen. destruct (co_clean _ _ Hok j s Hj) as (Hb & _ & _). split.
  - apply (worker_step nothing j e c s s'); try done.
    + intros p id E. by rewrite E in Hk.
    + intros i phi _. unfold nothing. destruct (kind_of e); simpl; try done; by case_bool_decide.
  - intros H0. destruct (Hset H0) as [(Q1 & Q2 & Q3) Q4].
    pose proof (Hu (Hmono (Q4 j s Hj))) as [_ Hns].
    destruct (still_effect _ _ _ (tp_step_effect _ _ _ _ _ Hs) Hcalm Hb (Q3 j s Hj)) as (S1 & S2 & S3).
    { destruct (kind_of e); try done. by apply Hns. }
    destruct (co_clean _ _ Hok j s Hj) as (_ & R1 & R2). rewrite R1 in S2. rewrite R2 in S3. split.
    + split_and!; simpl; [by rewrite S2, app_nil_r|by rewrite S3, app_nil_r|].
      intros i x [(-> & <- & _)|[_ H]]%list_lookup_insert_Some; [|by eapply Q3]. destruct S1. by split.
    + intros i x. simpl. intros [(-> & <- & _)|[_ H]]%list_lookup_insert_Some; [|by eapply Q4]. simpl. by apply Hmono, (Q4 i s).
  - simpl. rewrite length_insert. split; [done|]. intros i x [(-> & <- & _)|[_ H]]%list_lookup_insert_Some; [done|by apply Hg2].
  - intros i x. simpl. intros [(-> & <- & _)|[_ H]]%list_lookup_insert_Some; [|by eapply Hdone]. done.
Qed.

Lemma pipes_step e s s' : step device_of rpcTimeout e s s' -> (forall name, e <> EAccept (Some name)) ->
  length (serverPipes s') = length (serverPipes s).
Proof.
  intros Hs He. assert (match e with EJoin _ _ | EAccept _ | ERequest _ None => False | _ => True end -> length (serverPipes s') = length (serverPipes s)) as Hf.
  { intros H. pose proof (fixed_step e s s' Hs H) as E. unfold fixed in E. by injection E as _ ->. }
  destruct e as [| | | |[name|]|pipe [m|]| | | |arrived total|]; try (by apply Hf); [by exfalso; apply (He name)|..]; unfold step in Hs; cbn [exec] in Hs.
  - unfold on_accept, bind, gets, lift in Hs. destruct (listening s); [|done]. by injection Hs as <-.
  - unfold on_request, bind, gets, lift in Hs. destruct (serverPipes s !! pipe) as [[name []]|]; [|done..]. injection Hs as <-. apply length_insert.
  - unfold join, bind, gets, modify, lift in Hs.
    destruct (join_ s); [|destruct (clientActiveCalls_ s =? 0)|destruct arrived| |]; try done; by injection Hs as <-.
Qed.
Lemma join_step arrived total s s' : step device_of rpcTimeout (EJoin arrived total) s s' ->
  join_ s' <> JoinNone /\ (join_ s' = JoinDone -> join_ s = JoinHolds /\ total = 0).
Proof.
  unfold step. cbn [exec]. unfold join, bind, gets, modify, lift.
  destruct (join_ s); [|destruct (clientActiveCalls_ s =? 0)|destruct arrived|destruct (Z.eqb_spec total 0)|]; try done; by intros [= <-].
Qed.

Lemma joins_inv c j s s' arrived total : cluster_inv c -> agents c !! j = Some s -> step device_of rpcTimeout (EJoin arrived total) s s' ->
  small s' -> users_idle s -> (join_ s = JoinHolds -> total = 0 -> 0 ∈ sums c) ->
  (join_ s' = JoinHolds -> given c !! j = Some (clientActiveCalls_ s')) -> cluster_inv (absorb j s' c).
Proof.
  intros Hinv Hj Hs Hsm Hu Hz Hg. destruct (join_step _ _ _ _ Hs) as [H1 H2]. pose proof (pipes_step _ _ _ Hs ltac:(done)) as Hl.
  apply (inv_step j (EJoin arrived total) c s s'); try done.
  - intros Hd. destruct (H2 Hd). by apply Hz.
  - intros p Hp. apply (co_pipes _ _ (ci_ok _ Hinv) j s p Hj). by rewrite <- Hl.
  - lia.
Qed.

Lemma local_inv c i e c' : cluster_inv c -> (forall s, agents c !! i = Some s -> peaceful s e) -> local_event e = true -> at_agent i e c = Some c' ->
  all_small c' -> cluster_inv c'.
Proof.
  intros Hinv Hp Hl (s & s' & Hi & Hs & ->)%at_agent_inv Hsm. specialize (Hp s Hi). pose proof (lookup_lt_Some _ _ _ Hi) as Hlt.
  assert (fixed s' = fixed s) as [= Ej Ep] by (apply (fixed_step e); [done|]; by destruct e as [| |? []| | | | | | | |]).
  apply (inv_step i e c s s'); try done.
  - by destruct e as [| |? []| | | | | | | |].
  - by apply (absorb_small i s' c).
  - by destruct e as [| |? []| | | | | | | |].
  - rewrite Ej. intros Hn. split; [by apply (co_users _ _ (ci_ok _ Hinv) i s)|]. intros k cl Ek Hk. destruct e as [| |? []|? []| |? []| | | | |]; try done.
    injection Ek as ->. by apply Hn, (Hp cl).
  - by rewrite Ej.
  - rewrite Ej. by apply (ci_done _ Hinv i s).
  - rewrite Ej. intros Hh. rewrite (client_locked _ _ _ (tp_step_effect _ _ _ _ _ Hs) Hh). by apply (ci_given _ Hinv).
  - intros p. rewrite Ep. by apply (co_pipes _ _ (ci_ok _ Hinv) i s).
  - by rewrite Ep.
Qed.

(** A pipe to a worker is accepted. *)
Lemma served_ext W W' s n : (forall t p id, t ∈ threads s -> item (task_ t) = Some (p, id) -> (p < n)%nat) -> responses s = [] ->
  (forall p id, (p < n)%nat -> W p id = W' p id) -> served W s = served W' s.
Proof.
  intros Hi Hr HW. unfold served. rewrite Hr. f_equal. apply sumf_ext. intros t Ht. unfold item_w.
  destruct (item (task_ t)) as [[p id]|] eqn:Et; [|done]. apply HW. by eapply Hi.
Qed.
Definition with_link (j p i : nat) (c : cluster) : cluster :=
  mkCluster (agents c) (<[(j, p) := i]> (links c)) (to_server c) (to_client c) (sums c) (rounds c) (given c).
Lemma link_inv c i j si sj : cluster_inv c -> agents c !! i = Some si -> agents c !! j = Some sj ->
  cluster_inv (with_link j (length (serverPipes sj)) i c).
Proof.
  intros [[C1 C2 C3 C4 C5 C6 C7 C8 C9] Hset Hgiv Hdone] Hi Hj. split; [|exact Hset|exact Hgiv|exact Hdone]. split; try done; simpl.
  - intros k s p Hk Hp. apply lookup_insert_is_Some'. right. by eapply C5.
  - intros jp k [[_ <-]|[_ H]]%lookup_insert_Some; [by eapply lookup_lt_Some|by eapply C6].
  - intros k s phi Hk Hphi. rewrite <- (C9 k s phi Hk Hphi) at 1. unfold tick. simpl.
    rewrite (sumi_ext _ (fun j s => served (W_of (links c) phi k j) s)); [done|]. intros l x Hx. simpl.
    apply (served_ext _ _ x (length (serverPipes x))); [intros t p id Ht Et; by eapply C4|by apply (C2 l x)|].
    intros p id Hp. unfold W_of. rewrite lookup_insert_ne; [done|]. intros [= -> El]. rewrite Hj in Hx. simplify_eq. lia.
Qed.
Lemma accept_inv c i j si sj c1 : cluster_inv c -> agents c !! i = Some si -> agents c !! j = Some sj ->
  at_agent j (EAccept (Some (name_ (workerInfo_ si)))) c = Some c1 -> all_small c1 ->
  cluster_inv (with_link j (length (serverPipes sj)) i c1).
Proof.
  intros Hinv Hi Hj (s & s' & Hs0 & Hs & ->)%at_agent_inv Hsm. rewrite Hj in Hs0. injection Hs0 as <-.
  pose proof (lookup_lt_Some _ _ _ Hj) as Hlt. destruct (co_clean _ _ (ci_ok _ Hinv) j sj Hj) as (_ & _ & Hr).
  pose proof (absorb_small j s' c Hsm Hlt) as Hsm'.
  assert (s' = upd_serverPipes (fun l => l ++ [mkServerPipe (name_ (workerInfo_ si)) true]) sj) as E.
  { unfold step in Hs. cbn [exec] in Hs. unfold on_accept, bind, gets, lift in Hs. destruct (listening sj); [|done]. by injection Hs as <-. }
  assert (with_link j (length (serverPipes sj)) i (absorb j s' c) = absorb j s' (with_link j (length (serverPipes sj)) i c)) as ->.
  { unfold with_link, absorb. simpl. by rewrite E; simpl; rewrite Hr. }
  apply (inv_step j _ (with_link j (length (serverPipes sj)) i c) sj s' (link_inv c i j si sj Hinv Hi Hj) Hj Hs); subst s'; try done.
  - intros Hn. split; [by apply (co_users _ _ (ci_ok _ Hinv) j sj)|done].
  - by apply (ci_done _ Hinv j sj).
  - intros Hh. by apply (proj2 (ci_given _ Hinv) j sj).
  - intros p. simpl. rewrite length_app. simpl. intros Hp. apply lookup_insert_is_Some'.
    destruct (decide (p = length (serverPipes sj))) as [->|Hn]; [by left|right]. apply (co_pipes _ _ (ci_ok _ Hinv) j sj p Hj). lia.
  - simpl. rewrite length_app. lia.
Qed.

(** The count is given to the allreduce. *)
Definition with_given (i : nat) (n : Z) (c : cluster) : cluster :=
  mkCluster (agents c) (links c) (to_server c) (to_client c) (sums c) (rounds c) (<[i := n]> (given c)).
Lemma given_inv c i n s : cluster_inv c -> agents c !! i = Some s -> join_ s <> JoinHolds -> cluster_inv (with_given i n c).
Proof.
  intros [Hok Hset [Hg1 Hg2] Hdone] Hi Hj. split; [by destruct Hok|exact Hset| |exact Hdone]. simpl. rewrite length_insert. split; [done|].
  intros k x Hk Hx. rewrite list_lookup_insert_ne; [by apply Hg2|]. intros ->. congruence.
Qed.
Lemma join_client arrived total s s' : step device_of rpcTimeout (EJoin arrived total) s s' ->
  clientActiveCalls_ s' = clientActiveCalls_ s /\ (join_ s' = JoinHolds -> join_ s = JoinBarrier).
Proof.
  unfold step. cbn [exec]. unfold join, bind, gets, modify, lift.
  destruct (join_ s); [|destruct (clientActiveCalls_ s =? 0)|destruct arrived|destruct (total =? 0)|]; try done; by intros [= <-].
Qed.

(** A request or an answer arrives. *)
Definition carried (r : nat * Message T) (i : nat) (phi : Z -> Z) : Z := if bool_decide (r.1 = i) then phi (uint64 (id_ r.2)) else 0.
Definition without_request (k : nat) (c : cluster) : cluster :=
  mkCluster (agents c) (links c) (delete k (to_server c)) (to_client c) (sums c) (rounds c) (given c).
Definition without_answer (k : nat) (c : cluster) : cluster :=
  mkCluster (agents c) (links c) (to_server c) (delete k (to_client c)) (sums c) (rounds c) (given c).

Lemma request_ok c k i j m : cluster_ok nothing c -> to_server c !! k = Some (i, j, m) -> cluster_ok (carried (i, m)) (without_request k c).
Proof.
  intros [C1 C2 C3 C4 C5 C6 C7 C8 C9] Hk. split; try done; simpl.
  - intros r Hr. apply C7. by eapply elem_of_delete.
  - intros l s phi Hl Hphi. pose proof (C9 l s phi Hl Hphi) as H. unfold tick, nothing, carried in *. simpl in *.
    rewrite (sumf_delete _ _ _ _ Hk). unfold wire_w at 2. simpl. lia.
Qed.
Lemma answer_ok c k i j m : cluster_ok nothing c -> to_client c !! k = Some (i, j, m) -> cluster_ok (carried (i, m)) (without_answer k c).
Proof.
  intros [C1 C2 C3 C4 C5 C6 C7 C8 C9] Hk. split; try done; simpl.
  - intros r Hr. apply C8. by eapply elem_of_delete.
  - intros l s phi Hl Hphi. pose proof (C9 l s phi Hl Hphi) as H. unfold tick, nothing, carried in *. simpl in *.
    rewrite (sumf_delete _ _ _ _ Hk). unfold wire_w at 3. simpl. lia.
Qed.

(** The worker's part of an arrival. *)
Lemma arrival_inv c c0 extra j e c' : cluster_inv c -> (0 ∈ sums c -> False) -> agents c0 = agents c -> sums c0 = sums c -> given c0 = given c -> cluster_ok extra c0 ->
  (match e with ERequest _ (Some _) | ERead _ (inr _) => True | _ => False end) ->
  (forall i phi, nonneg phi -> (if bool_decide (i = j) then answering phi (kind_of e) else 0) +
     arriving (W_of (links c0) phi i j) (kind_of e) <= extra i phi) ->
  at_agent j e c0 = Some c' -> all_small c' -> cluster_inv c'.
Proof.
  intros Hinv Hno Ea Es Eg Hok He Hx (s & s' & Hj & Hs & ->)%at_agent_inv Hsm. pose proof (lookup_lt_Some _ _ _ Hj) as Hlt.
  assert (fixed s' = fixed s) as [= Ej Ep] by (apply (fixed_step e); [done|]; by destruct e as [| | | | |? []| | | | |]).
  split.
  - apply (worker_step extra j e c0 s s'); try done.
    + by destruct e as [| | |? []| |? []| | | | |].
    + by apply (absorb_small j s' c0).
    + rewrite Ej. intros Hn. split; [by apply (co_users _ _ Hok j s)|]. by destruct e as [| | |? []| |? []| | | | |].
    + intros p. rewrite Ep. by apply (co_pipes _ _ Hok j s).
    + by rewrite Ep.
    + intros p id Ek. destruct e as [| | |? []| |pipe [m|]| | | | |]; try done. injection Ek as -> _.
      unfold step in Hs. cbn [exec] in Hs. unfold on_request, bind, gets, lift in Hs.
      destruct (serverPipes s !! p) eqn:E; [by eapply lookup_lt_Some|done].
  - simpl. rewrite Es. by intros H%Hno.
  - simpl. rewrite Eg, Ea in *. rewrite length_insert. destruct (ci_given _ Hinv) as [Hg1 Hg2]. split; [done|].
    intros i x [(-> & <- & _)|[_ H]]%list_lookup_insert_Some Hh; [|by apply Hg2]. simpl in *. rewrite Ej in Hh.
    rewrite (client_locked _ _ _ (tp_step_effect _ _ _ _ _ Hs) Hh). by apply Hg2.
  - intros i x. simpl. rewrite Es, Ea in *. intros [(-> & <- & _)|[_ H]]%list_lookup_insert_Some; [|by apply (ci_done _ Hinv i x)].
    simpl. rewrite Ej. by apply (ci_done _ Hinv i s).
Qed.

(** The sum. *)
Lemma sum_inv c : cluster_inv c -> calm c CSum -> holding c = true ->
  cluster_inv (mkCluster (agents c) (links c) (to_server c) (to_client c) (sums c ++ [total_calls c]) (rounds c) (given c)).
Proof.
  intros [Hok Hset [Hg1 Hg2] Hdone] Hcalm [Hh _]%andb_true_iff. pose proof (fun i s (H : agents c !! i = Some s) =>
    proj1 (forallb_forall _ _) Hh s (proj1 (list_elem_of_In _ _) (list_elem_of_lookup_2 _ _ _ H))) as Hall. simpl in Hall.
  assert (Hj : joined c). { intros i s Hi E. specialize (Hall i s Hi). apply bool_decide_eq_true in Hall. congruence. }
  assert (given c = map clientActiveCalls_ (agents c)) as Eg.
  { apply list_eq. intros i. rewrite list_lookup_fmap. destruct (agents c !! i) as [s|] eqn:Ei.
    - apply Hg2; [done|]. exact (proj1 (bool_decide_eq_true _) (Hall i s Ei)).
    - apply lookup_ge_None. rewrite Hg1. by apply lookup_ge_None. }
  split.
  - by destruct Hok.
  - simpl. intros [H0|H0%list_elem_of_singleton]%elem_of_app; [by apply Hset|]. split; [|done]. unfold total_calls in H0. rewrite Eg in H0. by apply (all_still c Hok Hcalm (eq_sym H0)).
  - done.
  - simpl. intros i s Hi Ed. specialize (Hall i s Hi). apply bool_decide_eq_true in Hall. congruence.
Qed.

Lemma leave_rounds c rs : cluster_inv c -> cluster_inv (mkCluster (agents c) (links c) (to_server c) (to_client c) (sums c) rs (given c)).
Proof. intros [[] ? ? ?]. by split. Qed.

Lemma cluster_step e c c' : cluster_inv c -> calm c e -> cexec e c = Some c' -> all_small c' -> cluster_inv c'.
Proof.
  intros Hinv Hcalm Hx Hsm. pose proof (ci_ok _ Hinv) as Hok. destruct e as [i e|i j|k p|k|i|i| |i|i e]; cbn [cexec] in Hx; try done.
  - destruct (local_event e) eqn:El; [|done]. by apply (local_inv c i e c').
  - destruct (agents c !! i) as [si|] eqn:Ei; [|done]. destruct (agents c !! j) as [sj|] eqn:Ej; [|done].
    destruct (at_agent j _ c) as [c1|] eqn:E1; [|done]. injection Hx as <-. by apply (accept_inv c i j si sj c1).
  - destruct (to_server c !! k) as [[[i j] m]|] eqn:Ek; [|done]. simpl in Hx. destruct ((0 <=? j) && bool_decide (links c !! (Z.to_nat j, p) = Some i)) eqn:Eb; [|done].
    apply andb_true_iff in Eb as [_ El%bool_decide_eq_true].
    apply (arrival_inv c (without_request k c) (carried (i, m)) (Z.to_nat j) (ERequest p (Some m)) c'); try done.
    + intros H0. destruct (ci_settled _ Hinv H0) as [(Q & _) _]. by rewrite Q in Ek.
    + by apply (request_ok c k i j m).
    + intros l phi _. unfold carried. simpl. unfold W_of. rewrite El. by case_bool_decide.
  - destruct (to_client c !! k) as [[[i j] m]|] eqn:Ek; [|done]. simpl in Hx.
    apply (arrival_inv c (without_answer k c) (carried (i, m)) i (ERead (Z.of_nat j) (inr m)) c'); try done.
    + intros H0. destruct (ci_settled _ Hinv H0) as [(_ & Q & _) _]. by rewrite Q in Ek.
    + by apply (answer_ok c k i j m).
    + intros l phi _. unfold carried. simpl. rewrite (bool_decide_ext (l = i) (i = l)) by done. case_bool_decide; lia.
  - destruct (agents c !! i) as [s|] eqn:Ei; [|done]. simpl in Hx. destruct (_ || _) eqn:Eb; [|done].
    apply at_agent_inv in Hx as (s0 & s' & Hs0 & Hs & ->). rewrite Ei in Hs0. injection Hs0 as <-.
    apply (joins_inv c i s s' false 0); [done..| |by apply Hcalm| |].
    + apply (absorb_small i s' c Hsm). by eapply lookup_lt_Some.
    + intros E. by rewrite E in Eb.
    + intros Hh. apply join_client in Hs as [_ Hb]. apply Hb in Hh. by rewrite Hh in Eb.
  - destruct (agents c !! i) as [s|] eqn:Ei; [|done]. simpl in Hx. destruct (rounds c !! i); [|done]. simpl in Hx. destruct (_ && _) eqn:Eb; [|done].
    apply andb_true_iff in Eb as [Eb%bool_decide_eq_true _].
    destruct (at_agent i _ c) as [c1|] eqn:E1; [|done]. injection Hx as <-.
    apply at_agent_inv in E1 as (s0 & s' & Hs0 & Hs & ->). rewrite Ei in Hs0. injection Hs0 as <-.
    assert (i < length (agents c))%nat as Hlt by (by eapply lookup_lt_Some).
    apply (joins_inv (with_given i (clientActiveCalls_ s) c) i s s' true 0); [|done..| | |by rewrite Eb|].
    + apply (given_inv c i _ s); [done..|]. by rewrite Eb.
    + by apply (absorb_small i s' c Hsm).
    + apply (co_users _ _ Hok i s Ei). by rewrite Eb.
    + intros _. apply join_client in Hs as [-> _]. simpl. apply list_lookup_insert_eq. by rewrite (proj1 (ci_given _ Hinv)).
  - destruct (holding c) eqn:Eh; [|done]. injection Hx as <-. by apply sum_inv.
  - destruct (agents c !! i) as [s|] eqn:Ei; [|done]. simpl in Hx. destruct (rounds c !! i) as [r|]; [|done]. simpl in Hx.
    destruct (sums c !! r) as [total|] eqn:Et; [|done]. simpl in Hx. destruct (bool_decide _) eqn:Eb; [|done]. apply bool_decide_eq_true in Eb.
    destruct (at_agent i _ c) as [c1|] eqn:E1; [|done]. injection Hx as <-. apply leave_rounds.
    apply at_agent_inv in E1 as (s0 & s' & Hs0 & Hs & ->). rewrite Ei in Hs0. injection Hs0 as <-.
    apply (joins_inv c i s s' false total); [done..| | | |].
    + apply (absorb_small i s' c Hsm). by eapply lookup_lt_Some.
    + apply (co_users _ _ Hok i s Ei). by rewrite Eb.
    + intros _ ->. by eapply list_elem_of_lookup_2.
    + intros Hh. apply join_client in Hs as [_ Hb]. apply Hb in Hh. congruence.
Qed.

Lemma back_small i e c c' : at_agent i e c = Some c' -> all_small c' -> all_small c.
Proof.
  intros (s & s' & Hi & Hs & ->)%at_agent_inv Hsm k x Hk. destruct (decide (k = i)) as [->|Hn].
  - assert (x = s) as -> by congruence. pose proof (absorb_small i s' c Hsm ltac:(by eapply lookup_lt_Some)) as H.
    pose proof (length_futures_effect _ _ _ _ _ (tp_step_effect _ _ _ _ _ Hs)). unfold small in *. lia.
  - apply (Hsm k). simpl. by rewrite list_lookup_insert_ne.
Qed.
Lemma cexec_small e c c' : cexec e c = Some c' -> all_small c' -> all_small c.
Proof.
  intros Hx Hsm. destruct e as [i e|i j|k p|k|i|i| |i|i e]; cbn [cexec] in Hx.
  - destruct (local_event e); [|done]. by eapply back_small.
  - destruct (agents c !! i); [|done]. destruct (agents c !! j); [|done]. destruct (at_agent j _ c) as [c1|] eqn:E; [|done].
    injection Hx as <-. by eapply back_small.
  - destruct (to_server c !! k) as [[[i j] m]|]; [|done]. simpl in Hx. destruct (_ && _); [|done]. by apply back_small in Hx.
  - destruct (to_client c !! k) as [[[i j] m]|]; [|done]. simpl in Hx. by apply back_small in Hx.
  - destruct (agents c !! i); [|done]. simpl in Hx. destruct (_ || _); [|done]. by eapply back_small.
  - destruct (agents c !! i); [|done]. simpl in Hx. destruct (rounds c !! i); [|done]. simpl in Hx. destruct (_ && _); [|done].
    destruct (at_agent i _ c) as [c1|] eqn:E; [|done]. injection Hx as <-. by eapply back_small.
  - destruct (holding c); [|done]. by injection Hx as <-.
  - destruct (agents c !! i); [|done]. simpl in Hx. destruct (rounds c !! i); [|done]. simpl in Hx. destruct (sums c !! _); [|done]. simpl in Hx.
    destruct (bool_decide _); [|done]. destruct (at_agent i _ c) as [c1|] eqn:E; [|done]. injection Hx as <-. by eapply back_small.
  - destruct (fail_event e); [|done]. by eapply back_small.
Qed.
Lemma run_small es c c' : cluster_run es c = Some c' -> all_small c' -> all_small c.
Proof.
  revert c. induction es as [|e es IH]; intros c Hr Hsm; simpl in Hr; [by injection Hr as ->|].
  destruct (cexec e c) as [c1|] eqn:E; [|done]. simpl in Hr. eapply cexec_small; [done|]. by eapply IH.
Qed.

Lemma run_inv_calm es c c' : cluster_inv c -> along calm es c -> cluster_run es c = Some c' -> all_small c' -> cluster_inv c'.
Proof.
  revert c. induction es as [|e es IH]; intros c Hi Ha Hr Hsm; simpl in *; [by injection Hr as <-|].
  destruct Ha as [Hc Ha]. destruct (cexec e c) as [c1|] eqn:E; [|done]. simpl in Hr. apply (IH c1); [|done..].
  apply (cluster_step e c c1); [done..|]. by eapply run_small.
Qed.

Lemma initial_inv c : initial c -> cluster_inv c.
Proof.
  intros (E1 & E2 & E3 & E4 & E5 & Hag).
  assert (Hz : forall i s, agents c !! i = Some s -> agent_inv s /\ (forall t, t ∈ threads s -> t = mkThread TUser None) /\
      batch (timeoutThread_ s) = [] /\ requests s = [] /\ responses s = [] /\ serverPipes s = [] /\ join_ s = JoinNone /\ futures s = []).
  { intros i s Hi. destruct (Hag i s Hi) as (info & opts & reverse & urls & users & ->). split; [apply new_agent_inv|].
    split; [|done]. intros t [k Ht]%list_elem_of_lookup. by apply lookup_replicate_1 in Ht as [-> _]. }
  split; [split|by rewrite E4; intros H%elem_of_nil|split; [done|]|].
  - intros i s Hi. by apply (Hz i s).
  - intros i s Hi. by destruct (Hz i s Hi) as (_ & _ & ? & ? & ? & _).
  - intros i s Hi _ t Ht _. destruct (Hz i s Hi) as (_ & Hth & _). by rewrite (Hth t Ht).
  - intros i s t p id Hi Ht Et. destruct (Hz i s Hi) as (_ & Hth & _). by rewrite (Hth t Ht) in Et.
  - intros i s p Hi Hp. destruct (Hz i s Hi) as (_ & _ & _ & _ & _ & E & _). rewrite E in Hp. simpl in Hp. lia.
  - intros jp i H. by rewrite E1, lookup_empty in H.
  - intros r H. rewrite E2 in H. by apply elem_of_nil in H.
  - intros r H. rewrite E3 in H. by apply elem_of_nil in H.
  - intros i s phi Hi Hphi. unfold tick, nothing, own_at. rewrite Hi, E2, E3.
    assert (own phi s = 0) as ->.
    { unfold own. destruct (Hz i s Hi) as (_ & Hth & _ & -> & _). rewrite sumf_idle by (intros t Ht; by rewrite (Hth t Ht)). done. }
    rewrite (sumi_ext _ (fun _ _ => 0)).
    + assert (forall (l : list agent) k, sumi (fun _ _ => 0) k l = 0) as -> by (induction l as [|x l IH]; intros k; simpl; [done|by rewrite IH]).
      unfold weight. destruct (Hz i s Hi) as (_ & _ & _ & _ & _ & _ & _ & ->). unfold sumf. simpl. lia.
    + intros j x Hx. destruct (Hz j x Hx) as (_ & Hth & _ & _ & Hr & _). unfold served. rewrite Hr, sumf_idle by (intros t Ht; by rewrite (Hth t Ht)). done.
  - intros i s Hi E. destruct (Hz i s Hi) as (_ & _ & _ & _ & _ & _ & Ej & _). congruence.
  - intros i s Hi E. destruct (Hz i s Hi) as (_ & _ & _ & _ & _ & _ & Ej & _). congruence.
Qed.

(** C8: join() is sound: in every run of several workers, with their messages delivered in any order, when join() has returned at some worker, no call is active at any worker: every request has its result, no message is on its way, and no thread works on a request. This needs that no pipe fails and no request times out, that the user threads do not call send() after they have called join(), and that the counts fit their types. *)
Theorem tp_join_sound (es : list cluster_event) (c0 c : cluster) i s :
  initial c0 -> along calm es c0 -> cluster_run es c0 = Some c -> all_small c ->
  agents c !! i = Some s -> join_ s = JoinDone -> quiescent c.
Proof.
  intros Hini Hcalm Hr Hsm Hi Ej. pose proof (run_inv_calm es c0 c (initial_inv c0 Hini) Hcalm Hr Hsm) as [_ Hset _ Hdone].
  apply Hset. by apply (Hdone i s).
Qed.

(** [calm] can be tested. *)
Definition peacefulb (s : agent) (e : tp_event) : bool :=
  match e with
  | ESend k _ _ _ _ => match threads s !! k with Some (mkThread TUser _) => bool_decide (join_ s = JoinNone) | _ => true end
  | ETimer now => match earliestTimeout (timeoutMap_ s) with Some t => now <? t | None => true end
  | _ => true
  end.
Definition calmb (c : cluster) (e : cluster_event) : bool :=
  match e with
  | CLocal i e => match agents c !! i with Some s => peacefulb s e | None => true end
  | CJoin i => match agents c !! i with Some s => forallb (fun t => match t with mkThread TUser (Some _) => false | _ => true end) (threads s) | None => true end
  | CSum => (Z.of_nat (length (agents c)) <? 2 ^ 31) &&
      forallb (fun s => bool_decide (abandoned s = []) && (active_calls s <? 2 ^ 31)) (agents c)
  | CFail _ _ => false
  | _ => true
  end.
Fixpoint alongb (es : list cluster_event) (c : cluster) : bool :=
  match es with [] => true | e :: es => calmb c e && match cexec e c with Some c' => alongb es c' | None => true end end.

Lemma calmb_ok c e : calmb c e = true -> calm c e.
Proof.
  destruct e as [i e| | | |i| | | |]; simpl; try done.
  - intros H s Hs. rewrite Hs in H. destruct e; simpl in *; try done.
    + intros cl Hk. rewrite Hk in H. by apply bool_decide_eq_true in H.
    + destruct (earliestTimeout _); [by apply Z.ltb_lt|done].
  - intros H s Hs t Ht Et. rewrite Hs in H. pose proof (proj1 (forallb_forall _ _) H t (proj1 (list_elem_of_In _ _) Ht)) as Hn.
    destruct t as [[] [cl|]]; simpl in *; done.
  - intros [H1%Z.ltb_lt H2]%andb_true_iff. split; [done|]. intros i s Hs.
    pose proof (proj1 (forallb_forall _ _) H2 s (proj1 (list_elem_of_In _ _) (list_elem_of_lookup_2 _ _ _ Hs))) as Hn.
    apply andb_true_iff in Hn as [Hn%bool_decide_eq_true Hl%Z.ltb_lt]. done.
Qed.
Lemma alongb_ok es c : alongb es c = true -> along calm es c.
Proof.
  revert c. induction es as [|e es IH]; intros c; simpl; [done|]. intros [H1%calmb_ok H2]%andb_true_iff. split; [done|].
  destruct (cexec e c); [by apply IH|done].
Qed.
Definition all_smallb (c : cluster) : bool := forallb (fun s => Z.of_nat (length (futures s)) <? 2 ^ 63) (agents c).
Lemma all_smallb_ok c : all_smallb c = true -> all_small c.
Proof.
  intros H i s Hs. pose proof (proj1 (forallb_forall _ _) H s (proj1 (list_elem_of_In _ _) (list_elem_of_lookup_2 _ _ _ Hs))) as Hn.
  by apply Z.ltb_lt in Hn.
Qed.
End join.

(** ** Two workers *)

Definition ex_worker (i : Z) : tp_agent (T := device) :=
  new_agent (mkWorkerInfo (str "w" ++ Decimal.to_string i) i) (mkOptions 16 None None ∅) ∅
    {[ str "w0" := str "uv://10.0.0.1"; str "w1" := str "uv://10.0.0.2" ]} 1.
Definition ex_start : cluster (T := device) := mkCluster [ex_worker 0; ex_worker 1] ∅ [] [] [] [0%nat; 0%nat] [0; 0].
Definition ex_thread (i k : nat) : cluster_event (T := device) := CLocal i (EThread 0 k CbLater).
(** Worker 0 sends a request to worker 1, whose handler is called. *)
Definition ex_request (tmo : Z) : list (cluster_event (T := device)) :=
  [CLocal 0 (ESend 0 (mkWorkerInfo (str "w1") 1) (mkMessage _ (str "f") [] SCRIPT_CALL (-1)) (Some tmo) ∅);
   ex_thread 0 0; ex_thread 0 0; ex_thread 0 0; CLocal 0 (EWrite 1 None); CAccept 0 1; CDeliver 0 0; ex_thread 1 1; ex_thread 1 1].
(** The handler returns, and its answer arrives. *)
Definition ex_reply : list (cluster_event (T := device)) :=
  [CLocal 1 (EThread 0 1 (CbDone (inl (mkMessage _ (str "r") [] SCRIPT_RET (-1))))); ex_thread 1 1; ex_thread 1 1;
   CAnswer 0; ex_thread 0 1; ex_thread 0 1].
(** The request times out. *)
Definition ex_expiry : list (cluster_event (T := device)) :=
  [CLocal 0 (ETimer (5 * 10 ^ 6)); CLocal 0 (ETimer (5 * 10 ^ 6)); ex_thread 0 1; ex_thread 0 1].
(** Both workers call join(). *)
Definition ex_join : list (cluster_event (T := device)) :=
  [CJoin 0; CJoin 1; CJoin 0; CJoin 1; CBarrier 0; CBarrier 1; CSum; CLeave 0; CLeave 1].

Abbreviation ex_crun := (cluster_run (T := device) (fun d => d) 60000).
Definition ex_end (es : list (cluster_event (T := device))) : cluster (T := device) := default ex_start (ex_crun es ex_start).
Definition ex_calm_run : list (cluster_event (T := device)) := ex_request 0 ++ ex_reply ++ ex_join.
Lemma ex_start_initial : initial ex_start.
Proof. split_and!; try done. intros [|[|i]] s [= <-]; by do 5 eexists. Qed.
Lemma ex_calm_run_calm : alongb (fun d => d) 60000 ex_calm_run ex_start = true.
Proof. vm_compute. reflexivity. Qed.
Lemma ex_calm_run_ends : match ex_crun ex_calm_run ex_start with Some _ => true | None => false end = true.
Proof. vm_compute. reflexivity. Qed.
Lemma ex_crun_end es : match ex_crun es ex_start with Some _ => true | None => false end = true -> ex_crun es ex_start = Some (ex_end es).
Proof. unfold ex_end. by destruct (ex_crun es ex_start). Qed.
Lemma ex_calm_run_small : all_smallb (ex_end ex_calm_run) = true.
Proof. vm_compute. reflexivity. Qed.
Lemma ex_calm_run_joined : match agents (ex_end ex_calm_run) !! 0%nat with Some s => bool_decide (join_ s = JoinDone) | None => false end = true.
Proof. vm_compute. reflexivity. Qed.
Lemma tp_join_sound_witness : quiescent (ex_end ex_calm_run).
Proof.
  pose proof ex_calm_run_joined as Hj. destruct (agents (ex_end ex_calm_run) !! 0%nat) as [s|] eqn:Es; [|discriminate Hj].
  apply (tp_join_sound (fun d => d) 60000 ex_calm_run ex_start (ex_end ex_calm_run) 0 s ex_start_initial (alongb_ok _ _ _ _ ex_calm_run_calm)
    (ex_crun_end ex_calm_run ex_calm_run_ends) (all_smallb_ok _ ex_calm_run_small) Es).
  exact (proj1 (bool_decide_eq_true _) Hj).
Defined.

(** Join() relies on every call of a server having a call of a client; after a time-out this is not so: two workers, of which one has called a function of the other that runs longer than the time-out, without any other failure, go through join(), although the function is still running. *)
Theorem tp_join_misses_timed_out : exists (es : list (cluster_event (T := device))) c s t p id,
  ex_crun es ex_start = Some c /\ (forall e, e ∈ es -> match e with CFail _ _ => False | _ => True end) /\
  (forall x, x ∈ agents c -> join_ x = JoinDone) /\ agents c !! 1%nat = Some s /\ t ∈ threads s /\ task_ t = TServing p id.
Proof.
  exists (ex_request 5 ++ ex_expiry ++ ex_join), (ex_end (ex_request 5 ++ ex_expiry ++ ex_join)).
  assert (Hend : match ex_crun (ex_request 5 ++ ex_expiry ++ ex_join) ex_start with
    | Some c => match agents c with [a; b] => (join_ a, join_ b, threads b) | _ => (JoinNone, JoinNone, []) end
    | None => (JoinNone, JoinNone, []) end = (JoinDone, JoinDone, [mkThread TUser None; mkThread (TServing 0 0) None])) by (vm_compute; reflexivity).
  unfold ex_end. destruct (ex_crun _ _) as [c|]; [|done]. simpl. destruct (agents c) as [|a [|b [|]]]; try done.
  injection Hend as Ea Eb Et. exists b, (mkThread (TServing 0 0) None), 0%nat, 0. split_and!; [done| |  |done| |done].
  - intros e He. assert (forallb (fun e => match e with CFail _ _ => false | _ => true end) (ex_request 5 ++ ex_expiry ++ ex_join) = true) as Hb by reflexivity.
    pose proof (proj1 (forallb_forall _ _) Hb e (proj1 (list_elem_of_In _ _) He)) as Hf. by destruct e.
  - intros x [->|[->|H%elem_of_nil]%elem_of_cons]%elem_of_cons; done.
  - rewrite Et. apply list_elem_of_further, list_elem_of_here.
Qed.
