(* ===== verification/ProcessGroupAgent.v ===== *)
(** * The agent on a process group

    Models csrc/c10d/distributed/rpc/process_group_agent.cpp: the tables of
    requests that wait for their response and of their time-outs, sending and
    receiving, the thread that times requests out, and the counters with which
    sync() detects that no message is left.

    One task of the thread pool, one message handed over by the listener, one
    wake-up of the time-out thread and one completion of a request that is
    processed asynchronously are one step each. *)

From stdpp Require Import base option list gmap sets sorting strings.
From Stdlib Require Import ZArith Lia.
From S2P Require Import Prelude Decimal RpcTypes Wire RpcAgent.
Import Decimal.
#[local] Set Warnings "-clear-no-such-hyp".

(** std::chrono::time_point::max(), in nanoseconds. *)
Definition kInfiniteTimeoutTimePoint : Z := 2 ^ 63 - 1.

(** ** Counters *)

(** [++counters_\[dst\]] on a vector. *)
Definition MessageCounter_increment (dst : Z) (counters : list Z) : outcome (list Z) :=
  match counters !! Z.to_nat dst with
  | Some c => if 0 <=? dst then Ret (<[Z.to_nat dst := int64 (c + 1)]> counters)
              else Throw (Undefined "counters_[dst]")
  | None => Throw (Undefined "counters_[dst]")
  end.

Section agent.
Context {T : Type}.

(** ** Data *)

(** The value of a future is the response, or null for messages without one. *)
Inductive fut_result : Type :=
  | FValue (response : option (Message T))
  | FError (what : bytes).

Record FutureInfo := mkFutureInfo { future_ : nat; endTime_ : Z; dstRank_ : Z; timeout_ : Z }.

(** What travels between two processes: preamble and payload. *)
Record packet := mkPacket { p_type : MessageType; p_id : Z; p_payload : bytes }.

(** SendWork, the message for oneself, and RecvWork. *)
Inductive task : Type :=
  | TSend (to : WorkerInfo) (message : Message T)
  | TSelf (message : Message T)
  | TRecv (from : WorkerInfo) (p : packet).

Record pg_agent := mkPgAgent {
  rank_ : Z;   (* pg_->getRank() *)
  size_ : Z;   (* pg_->getSize() *)
  nameMap_ : gmap bytes Z;
  allWorkerInfo_ : list WorkerInfo;
  running_ : bool;   (* rpcAgentRunning_ *)
  listenLoopException_ : option exn;
  nextId_ : Z;   (* std::atomic<int64_t> *)
  futures_ : gmap Z FutureInfo;
  futureTimeouts_ : gmap Z (gset Z);
  timeoutThreadEnabled_ : bool;
  jitFutures : list (option fut_result);   (* the JitFuture objects *)
  clientActiveCalls_ : Z;   (* std::atomic<int32_t> *)
  serverActiveCalls_ : Z;
  serverActiveAsyncCalls_ : Z;
  sendCounts_ : list Z;   (* MessageCounter *)
  recvCounts_ : list Z;
  threadPool_ : list task;   (* not started yet *)
  asyncCalls : list (Z * Z);   (* callbacks on futures of requests: sender, id *)
  outgoing : list (Z * packet);   (* handed to the process group *)
}.

Definition upd_rank_ (f : Z -> Z) (s : pg_agent) : pg_agent := mkPgAgent (f (rank_ s)) (size_ s)
    (nameMap_ s) (allWorkerInfo_ s) (running_ s) (listenLoopException_ s) (nextId_ s) (futures_ s)
    (futureTimeouts_ s) (timeoutThreadEnabled_ s) (jitFutures s) (clientActiveCalls_ s)
    (serverActiveCalls_ s) (serverActiveAsyncCalls_ s) (sendCounts_ s) (recvCounts_ s)
    (threadPool_ s) (asyncCalls s) (outgoing s).
Definition upd_size_ (f : Z -> Z) (s : pg_agent) : pg_agent := mkPgAgent (rank_ s) (f (size_ s))
    (nameMap_ s) (allWorkerInfo_ s) (running_ s) (listenLoopException_ s) (nextId_ s) (futures_ s)
    (futureTimeouts_ s) (timeoutThreadEnabled_ s) (jitFutures s) (clientActiveCalls_ s)
    (serverActiveCalls_ s) (serverActiveAsyncCalls_ s) (sendCounts_ s) (recvCounts_ s)
    (threadPool_ s) (asyncCalls s) (outgoing s).
Definition upd_nameMap_ (f : gmap bytes Z -> gmap bytes Z) (s : pg_agent) : pg_agent := mkPgAgent
    (rank_ s) (size_ s) (f (nameMap_ s)) (allWorkerInfo_ s) (running_ s) (listenLoopException_ s)
    (nextId_ s) (futures_ s) (futureTimeouts_ s) (timeoutThreadEnabled_ s) (jitFutures s)
    (clientActiveCalls_ s) (serverActiveCalls_ s) (serverActiveAsyncCalls_ s) (sendCounts_ s)
    (recvCounts_ s) (threadPool_ s) (asyncCalls s) (outgoing s).
Definition upd_allWorkerInfo_ (f : list WorkerInfo -> list WorkerInfo) (s : pg_agent) : pg_agent
    := mkPgAgent (rank_ s) (size_ s) (nameMap_ s) (f (allWorkerInfo_ s)) (running_ s)
    (listenLoopException_ s) (nextId_ s) (futures_ s) (futureTimeouts_ s) (timeoutThreadEnabled_
    s) (jitFutures s) (clientActiveCalls_ s) (serverActiveCalls_ s) (serverActiveAsyncCalls_ s)
    (sendCounts_ s) (recvCounts_ s) (threadPool_ s) (asyncCalls s) (outgoing s).
Definition upd_running_ (f : bool -> bool) (s : pg_agent) : pg_agent := mkPgAgent (rank_ s) (size_
    s) (nameMap_ s) (allWorkerInfo_ s) (f (running_ s)) (listenLoopException_ s) (nextId_ s)
    (futures_ s) (futureTimeouts_ s) (timeoutThreadEnabled_ s) (jitFutures s) (clientActiveCalls_
    s) (serverActiveCalls_ s) (serverActiveAsyncCalls_ s) (sendCounts_ s) (recvCounts_ s)
    (threadPool_ s) (asyncCalls s) (outgoing s).
Definition upd_listenLoopException_ (f : option exn -> option exn) (s : pg_agent) : pg_agent :=
    mkPgAgent (rank_ s) (size_ s) (nameMap_ s) (allWorkerInfo_ s) (running_ s) (f
    (listenLoopException_ s)) (nextId_ s) (futures_ s) (futureTimeouts_ s) (timeoutThreadEnabled_
    s) (jitFutures s) (clientActiveCalls_ s) (serverActiveCalls_ s) (serverActiveAsyncCalls_ s)
    (sendCounts_ s) (recvCounts_ s) (threadPool_ s) (asyncCalls s) (outgoing s).
Definition upd_nextId_ (f : Z -> Z) (s : pg_agent) : pg_agent := mkPgAgent (rank_ s) (size_ s)
    (nameMap_ s) (allWorkerInfo_ s) (running_ s) (listenLoopException_ s) (f (nextId_ s))
    (futures_ s) (futureTimeouts_ s) (timeoutThreadEnabled_ s) (jitFutures s) (clientActiveCalls_
    s) (serverActiveCalls_ s) (serverActiveAsyncCalls_ s) (sendCounts_ s) (recvCounts_ s)
    (threadPool_ s) (asyncCalls s) (outgoing s).
Definition upd_futures_ (f : gmap Z FutureInfo -> gmap Z FutureInfo) (s : pg_agent) : pg_agent :=
    mkPgAgent (rank_ s) (size_ s) (nameMap_ s) (allWorkerInfo_ s) (running_ s)
    (listenLoopException_ s) (nextId_ s) (f (futures_ s)) (futureTimeouts_ s)
    (timeoutThreadEnabled_ s) (jitFutures s) (clientActiveCalls_ s) (serverActiveCalls_ s)
    (serverActiveAsyncCalls_ s) (sendCounts_ s) (recvCounts_ s) (threadPool_ s) (asyncCalls s)
    (outgoing s).
Definition upd_futureTimeouts_ (f : gmap Z (gset Z) -> gmap Z (gset Z)) (s : pg_agent) : pg_agent
    := mkPgAgent (rank_ s) (size_ s) (nameMap_ s) (allWorkerInfo_ s) (running_ s)
    (listenLoopException_ s) (nextId_ s) (futures_ s) (f (futureTimeouts_ s))
    (timeoutThreadEnabled_ s) (jitFutures s) (clientActiveCalls_ s) (serverActiveCalls_ s)
    (serverActiveAsyncCalls_ s) (sendCounts_ s) (recvCounts_ s) (threadPool_ s) (asyncCalls s)
    (outgoing s).
Definition upd_timeoutThreadEnabled_ (f : bool -> bool) (s : pg_agent) : pg_agent := mkPgAgent
    (rank_ s) (size_ s) (nameMap_ s) (allWorkerInfo_ s) (running_ s) (listenLoopException_ s)
    (nextId_ s) (futures_ s) (futureTimeouts_ s) (f (timeoutThreadEnabled_ s)) (jitFutures s)
    (clientActiveCalls_ s) (serverActiveCalls_ s) (serverActiveAsyncCalls_ s) (sendCounts_ s)
    (recvCounts_ s) (threadPool_ s) (asyncCalls s) (outgoing s).
Definition upd_jitFutures (f : list (option fut_result) -> list (option fut_result)) (s :
    pg_agent) : pg_agent := mkPgAgent (rank_ s) (size_ s) (nameMap_ s) (allWorkerInfo_ s)
    (running_ s) (listenLoopException_ s) (nextId_ s) (futures_ s) (futureTimeouts_ s)
    (timeoutThreadEnabled_ s) (f (jitFutures s)) (clientActiveCalls_ s) (serverActiveCalls_ s)
    (serverActiveAsyncCalls_ s) (sendCounts_ s) (recvCounts_ s) (threadPool_ s) (asyncCalls s)
    (outgoing s).
Definition upd_clientActiveCalls_ (f : Z -> Z) (s : pg_agent) : pg_agent := mkPgAgent (rank_ s)
    (size_ s) (nameMap_ s) (allWorkerInfo_ s) (running_ s) (listenLoopException_ s) (nextId_ s)
    (futures_ s) (futureTimeouts_ s) (timeoutThreadEnabled_ s) (jitFutures s) (f
    (clientActiveCalls_ s)) (serverActiveCalls_ s) (serverActiveAsyncCalls_ s) (sendCounts_ s)
    (recvCounts_ s) (threadPool_ s) (asyncCalls s) (outgoing s).
Definition upd_serverActiveCalls_ (f : Z -> Z) (s : pg_agent) : pg_agent := mkPgAgent (rank_ s)
    (size_ s) (nameMap_ s) (allWorkerInfo_ s) (running_ s) (listenLoopException_ s) (nextId_ s)
    (futures_ s) (futureTimeouts_ s) (timeoutThreadEnabled_ s) (jitFutures s) (clientActiveCalls_
    s) (f (serverActiveCalls_ s)) (serverActiveAsyncCalls_ s) (sendCounts_ s) (recvCounts_ s)
    (threadPool_ s) (asyncCalls s) (outgoing s).
Definition upd_serverActiveAsyncCalls_ (f : Z -> Z) (s : pg_agent) : pg_agent := mkPgAgent (rank_
    s) (size_ s) (nameMap_ s) (allWorkerInfo_ s) (running_ s) (listenLoopException_ s) (nextId_ s)
    (futures_ s) (futureTimeouts_ s) (timeoutThreadEnabled_ s) (jitFutures s) (clientActiveCalls_
    s) (serverActiveCalls_ s) (f (serverActiveAsyncCalls_ s)) (sendCounts_ s) (recvCounts_ s)
    (threadPool_ s) (asyncCalls s) (outgoing s).
Definition upd_sendCounts_ (f : list Z -> list Z) (s : pg_agent) : pg_agent := mkPgAgent (rank_ s)
    (size_ s) (nameMap_ s) (allWorkerInfo_ s) (running_ s) (listenLoopException_ s) (nextId_ s)
    (futures_ s) (futureTimeouts_ s) (timeoutThreadEnabled_ s) (jitFutures s) (clientActiveCalls_
    s) (serverActiveCalls_ s) (serverActiveAsyncCalls_ s) (f (sendCounts_ s)) (recvCounts_ s)
    (threadPool_ s) (asyncCalls s) (outgoing s).
Definition upd_recvCounts_ (f : list Z -> list Z) (s : pg_agent) : pg_agent := mkPgAgent (rank_ s)
    (size_ s) (nameMap_ s) (allWorkerInfo_ s) (running_ s) (listenLoopException_ s) (nextId_ s)
    (futures_ s) (futureTimeouts_ s) (timeoutThreadEnabled_ s) (jitFutures s) (clientActiveCalls_
    s) (serverActiveCalls_ s) (serverActiveAsyncCalls_ s) (sendCounts_ s) (f (recvCounts_ s))
    (threadPool_ s) (asyncCalls s) (outgoing s).
Definition upd_threadPool_ (f : list task -> list task) (s : pg_agent) : pg_agent := mkPgAgent
    (rank_ s) (size_ s) (nameMap_ s) (allWorkerInfo_ s) (running_ s) (listenLoopException_ s)
    (nextId_ s) (futures_ s) (futureTimeouts_ s) (timeoutThreadEnabled_ s) (jitFutures s)
    (clientActiveCalls_ s) (serverActiveCalls_ s) (serverActiveAsyncCalls_ s) (sendCounts_ s)
    (recvCounts_ s) (f (threadPool_ s)) (asyncCalls s) (outgoing s).
Definition upd_asyncCalls (f : list (Z * Z) -> list (Z * Z)) (s : pg_agent) : pg_agent :=
    mkPgAgent (rank_ s) (size_ s) (nameMap_ s) (allWorkerInfo_ s) (running_ s)
    (listenLoopException_ s) (nextId_ s) (futures_ s) (futureTimeouts_ s) (timeoutThreadEnabled_
    s) (jitFutures s) (clientActiveCalls_ s) (serverActiveCalls_ s) (serverActiveAsyncCalls_ s)
    (sendCounts_ s) (recvCounts_ s) (threadPool_ s) (f (asyncCalls s)) (outgoing s).
Definition upd_outgoing (f : list (Z * packet) -> list (Z * packet)) (s : pg_agent) : pg_agent :=
    mkPgAgent (rank_ s) (size_ s) (nameMap_ s) (allWorkerInfo_ s) (running_ s)
    (listenLoopException_ s) (nextId_ s) (futures_ s) (futureTimeouts_ s) (timeoutThreadEnabled_
    s) (jitFutures s) (clientActiveCalls_ s) (serverActiveCalls_ s) (serverActiveAsyncCalls_ s)
    (sendCounts_ s) (recvCounts_ s) (threadPool_ s) (asyncCalls s) (f (outgoing s)).

Abbreviation op A := (M pg_agent A).

(** ** Names *)

(** The tensor with the name, and the C string in a tensor. *)
Definition nameTensor (workerName : bytes) : bytes :=
  workerName ++ repeat x00 (Z.to_nat MAX_NAME_LEN - length workerName).
Fixpoint c_string (b : bytes) : bytes :=
  match b with
  | [] => []
  | c :: b => if bool_decide (c = x00) then [] else c :: c_string b
  end.

(** collectNames after the allgather; [i] is the rank of the next tensor. *)
Fixpoint collectNames (i : Z) (outputNames : list bytes) (nameMap : gmap bytes Z) : outcome (gmap bytes Z) :=
  match outputNames with
  | [] => Ret nameMap
  | tensor :: outputNames =>
      let peerName := c_string tensor in
      check! bool_decide (nameMap !! peerName = None) else CheckFailed "RpcAgent name " in
      collectNames (i + 1) outputNames (<[peerName := i]> nameMap)
  end.

(** [tmpWorkerIds\[entry.second\] = entry.first] for all entries. *)
Definition names_by_rank (worldSize : nat) (nameMap : gmap bytes Z) : list bytes :=
  foldl (fun l e => <[Z.to_nat e.2 := e.1]> l) (replicate worldSize []) (map_to_list nameMap).

Fixpoint make_infos (rank : Z) (names : list bytes) : outcome (list WorkerInfo) :=
  match names with
  | [] => Ret []
  | name :: names =>
      let? info := WorkerInfo_small name rank in
      let? infos := make_infos (rank + 1) names in
      Ret (info :: infos)
  end.

(** The constructor; [gathered] is what the allgather of the names returns. *)
Definition ProcessGroupAgent_construct (workerName : bytes) (rank size : Z) (gathered : list bytes) : outcome pg_agent :=
  let? info := WorkerInfo_wide workerName rank in
  let? nameMap := collectNames 0 gathered ∅ in
  match nameMap !! name_ info with
  | None => Throw (CheckFailed "Failed to resolve worker ")
  | Some r =>
      check! rank =? r else CheckFailed "Resolved worker rank " in
      let? infos := make_infos 0 (names_by_rank (Z.to_nat size) nameMap) in
      Ret (mkPgAgent rank size nameMap infos false None 0 ∅ ∅ false [] 0 0 0
             (replicate (Z.to_nat size) 0) (replicate (Z.to_nat size) 0) [] [] [])
  end.

Definition getWorkerInfo_name (workerName : bytes) : op WorkerInfo :=
  let! id := gets (fun s => nameMap_ s !! workerName) in
  match id with
  | None => throw (CheckFailed "Unknown destination worker ")
  | Some id =>
      let! info := gets (fun s => allWorkerInfo_ s !! Z.to_nat id) in
      match info with Some info => ret info | None => throw (Undefined "allWorkerInfo_[idIter->second]") end
  end.
Definition getWorkerInfo (id : Z) : op WorkerInfo :=
  let! info := gets (fun s => allWorkerInfo_ s !! Z.to_nat id) in
  match info with
  | Some info => if 0 <=? id then ret info else throw (CheckFailed "Invalid destination: ")
  | None => throw (CheckFailed "Invalid destination: ")
  end.
(** [allWorkerInfo_\[id\]] *)
Definition workerInfo_at (id : Z) : op WorkerInfo :=
  let! info := gets (fun s => allWorkerInfo_ s !! Z.to_nat id) in
  match info with
  | Some info => if 0 <=? id then ret info else throw (Undefined "allWorkerInfo_[id]")
  | None => throw (Undefined "allWorkerInfo_[id]")
  end.

(** ** Futures *)

Definition new_future (r : option fut_result) : op nat :=
  let! f := gets (fun s => length (jitFutures s)) in
  do! modify (upd_jitFutures (fun l => l ++ [r])) in
  ret f.
(** setError and markCompleted. *)
Definition complete_future (f : nat) (r : fut_result) : op unit :=
  let! old := gets (fun s => jitFutures s !! f) in
  match old with
  | Some None => modify (upd_jitFutures (<[f := Some r]>))
  | Some (Some _) => throw (AssertFailed "Attempting to mark a completed Future as complete again.")
  | None => throw (Undefined "dangling future")
  end.

(** The earliest key of futureTimeouts_; infinity when it is empty. *)
Definition min_end_time (m : gmap Z (gset Z)) : Z :=
  map_fold (fun t _ acc => Z.min t acc) kInfiniteTimeoutTimePoint m.

(** Both tables forget a request; the future it is about. *)
Definition erase_future (id : Z) (info : FutureInfo) : op nat :=
  do! modify (upd_futures_ (delete id)) in
  let! at_time := gets (fun s => default ∅ (futureTimeouts_ s !! endTime_ info)) in
  do! modify (upd_futureTimeouts_ (<[endTime_ info := at_time]>)) in
  do! assert_ (bool_decide (id ∈ at_time))
    (AssertFailed "Error: could not find future in futureTimeouts map, race condition.") in
  let rest := at_time ∖ {[id]} in
  do! modify (upd_futureTimeouts_ (fun m =>
    if bool_decide (rest = ∅) then delete (endTime_ info) m else <[endTime_ info := rest]> m)) in
  ret (future_ info).

Definition markFutureWithError (id : Z) (errorMsg : bytes) : op unit :=
  let! info := gets (fun s => futures_ s !! id) in
  match info with
  | None => ret tt
  | Some info =>
      let! f := erase_future id info in
      do! modify (upd_clientActiveCalls_ (fun n => int32 (n - 1))) in
      complete_future f (FError errorMsg)
  end.

(** ** Sending *)

Section network.
Variable wireSerialize : bytes -> list T -> outcome bytes.
Variable wireDeserialize : bytes -> outcome (bytes * list T).
(** ProcessGroup::send of the preamble and the payload. *)
Variable pg_send : Z -> packet -> option exn.
Variable rpcTimeout : Z.   (* getRpcTimeout(), in milliseconds *)

(** A request is entered in the tables and gets its id; other messages have
    nothing to wait for.  [rpcTimeoutMs]: [None] for the unset time-out. *)
Definition register (now : Z) (to : WorkerInfo) (message : Message T) (rpcTimeoutMs : option Z)
    (requestId : Z) (future : nat) : op (Message T) :=
  if isRequest message then
    let timeout := default rpcTimeout rpcTimeoutMs in
    let endTime := if timeout =? 0 then kInfiniteTimeoutTimePoint else now + timeout * 10 ^ 6 in
    do! modify (upd_futures_ (fun m => match m !! requestId with
      | Some _ => m
      | None => <[requestId := mkFutureInfo future endTime (worker_id_ to) timeout]> m end)) in
    do! modify (upd_futureTimeouts_ (fun m => <[endTime := {[requestId]} ∪ default ∅ (m !! endTime)]> m)) in
    do! modify (upd_clientActiveCalls_ (fun n => int32 (n + 1))) in
    ret (setId requestId message)
  else
    do! complete_future future (FValue None) in
    ret message.

(** A message for oneself skips the process group. *)
Definition route (to : WorkerInfo) (message : Message T) : op unit :=
  let! rank := gets rank_ in
  if worker_id_ to =? rank then modify (upd_threadPool_ (fun l => l ++ [TSelf message]))
  else
    let! info := workerInfo_at (worker_id_ to) in
    modify (upd_threadPool_ (fun l => l ++ [TSend info message])).

Definition send (now : Z) (to : WorkerInfo) (message : Message T) (rpcTimeoutMs : option Z) : op nat :=
  let! stored := gets listenLoopException_ in
  do! (match stored with Some e => throw e | None => ret tt end) in
  let! running := gets running_ in
  do! assert_ running (RuntimeError "Node ") in
  let! size := gets size_ in
  do! assert_ (worker_id_ to <? int16 size) (CheckFailed "Destination rank is out of bound, got ") in
  do! modify (upd_nextId_ (fun n => int64 (n + 1))) in
  let! requestId := gets nextId_ in
  let! future := new_future None in
  let! message := register now to message rpcTimeoutMs requestId future in
  do! route to message in
  ret future.

(** handleSend up to the waits on the sends. *)
Definition handleSend (to : WorkerInfo) (message : Message T) : op unit :=
  let! serializedPayload := lift (wireSerialize (payload message) (tensors message)) in
  let dst := worker_id_ to in
  let p := mkPacket (type_ message) (id_ message) serializedPayload in
  let! counts := gets sendCounts_ in
  let! counts := lift (MessageCounter_increment dst counts) in
  do! modify (upd_sendCounts_ (fun _ => counts)) in
  match pg_send dst p with
  | Some e => throw e
  | None => modify (upd_outgoing (fun l => l ++ [(dst, p)]))
  end.

(** A try block; undefined behaviour is not caught. *)
Definition try_catch {A} (m : op A) (handler : exn -> op A) : op A := fun s =>
  match m s with
  | (Throw (Undefined w), s') => (Throw (Undefined w), s')
  | (Throw e, s') => handler e s'
  | r => r
  end.

(** The task of enqueueSend. *)
Definition run_send (to : WorkerInfo) (message : Message T) : op unit :=
  try_catch (handleSend to message) (fun e =>
    let! rank := gets rank_ in
    let errorStr := str "Encountered exception in ProcessGroupAgent::enqueueSend: " ++ str (what e) ++
      str " on node: " ++ to_string rank in
    let exceptionMsg := createExceptionResponse errorStr (id_ message) in
    if isRequest message then markFutureWithError (id_ message) errorStr
    else if isResponse message then handleSend to exceptionMsg
    else ret tt).

(** The task of sendToSelf. *)
Definition run_self (message : Message T) : op unit :=
  let! rank := gets rank_ in
  match wireSerialize (payload message) (tensors message) with
  | Ret serialized =>
      let! counts := gets sendCounts_ in
      let! counts := lift (MessageCounter_increment rank counts) in
      do! modify (upd_sendCounts_ (fun _ => counts)) in
      let! info := getWorkerInfo rank in
      modify (upd_threadPool_ (fun l => l ++ [TRecv info (mkPacket (type_ message) (id_ message) serialized)]))
  | Throw e => markFutureWithError (id_ message) (str (what e))
  | Block => ret tt
  end.

(** ** Receiving *)

(** What the request callback does with a request: it throws, or returns a
    future with a response or an error in it, or one that is still pending. *)
Inductive cb_result : Type :=
  | CbThrows (e : exn)
  | CbDone (r : Message T + bytes)
  | CbLater.
Variable cb : Message T -> cb_result.

Definition respond (now : Z) (to : WorkerInfo) (id : Z) (r : Message T + bytes) : op unit :=
  let! _ := send now to (match r with inl m => m | inr e => createExceptionResponse e id end) None in
  ret tt.

(** Whether recvCounts_ is to be incremented. *)
Definition handleRecv (now : Z) (from : WorkerInfo) (p : packet) : op bool :=
  let! data := lift (wireDeserialize (p_payload p)) in
  let message := mkMessage T data.1 data.2 (p_type p) (p_id p) in
  if isRequest message then
    do! modify (upd_serverActiveCalls_ (fun n => int32 (n + 1))) in
    match (match cb message with CbThrows e => CbDone (inr (str (what e))) | r => r end) with
    | CbDone r =>
        do! modify (upd_serverActiveCalls_ (fun n => int32 (n - 1))) in
        do! respond now from (id_ message) r in
        ret true
    | _ =>
        do! modify (upd_serverActiveAsyncCalls_ (fun n => int32 (n + 1))) in
        do! modify (upd_asyncCalls (fun l => l ++ [(worker_id_ from, p_id p)])) in
        ret true
    end
  else if isResponse message then
    let! info := gets (fun s => futures_ s !! id_ message) in
    match info with
    | None => ret false
    | Some info =>
        let! f := erase_future (id_ message) info in
        do! modify (upd_clientActiveCalls_ (fun n => int32 (n - 1))) in
        do! complete_future f (if bool_decide (type_ message = EXCEPTION) then FError (payload message)
                               else FValue (Some message)) in
        ret true
    end
  else throw (AssertFailed "unrecognized message type ").

Definition count_recv (from : Z) : op unit :=
  let! counts := gets recvCounts_ in
  let! counts := lift (MessageCounter_increment from counts) in
  modify (upd_recvCounts_ (fun _ => counts)).

(** The task of enqueueRecv. *)
Definition run_recv (now : Z) (from : WorkerInfo) (p : packet) : op unit :=
  try_catch (let! count := handleRecv now from p in
             if count then count_recv (worker_id_ from) else ret tt)
    (fun _ => count_recv (worker_id_ from)).

(** The future of a request that was processed asynchronously is completed. *)
Definition async_done (now : Z) (k : nat) (r : Message T + bytes) : op unit :=
  let! call := gets (fun s => asyncCalls s !! k) in
  match call with
  | None => ret tt
  | Some (fromId, requestId) =>
      do! modify (upd_asyncCalls (delete k)) in
      do! modify (upd_serverActiveCalls_ (fun n => int32 (n - 1))) in
      do! modify (upd_serverActiveAsyncCalls_ (fun n => int32 (n - 1))) in
      let! info := getWorkerInfo fromId in
      respond now info requestId r
  end.

(** The listener got a message from [srcRank]. *)
Definition listen (srcRank : Z) (p : packet) : op unit :=
  let! running := gets running_ in
  if running then
    let! info := workerInfo_at srcRank in
    modify (upd_threadPool_ (fun l => l ++ [TRecv info p]))
  else ret tt.

(** A thread of the pool takes the [k]-th task. *)
Definition run_task (now : Z) (k : nat) : op unit :=
  let! t := gets (fun s => threadPool_ s !! k) in
  do! modify (upd_threadPool_ (delete k)) in
  match t with
  | None => ret tt
  | Some (TSend to message) => run_send to message
  | Some (TSelf message) => run_self message
  | Some (TRecv from p) => run_recv now from p
  end.
End network.

(** ** Time-outs *)

Definition TIMEOUT : Z := 1.   (* RPCErrorType *)
Definition timeout_error (timeout : Z) : bytes :=
  makeRPCError (str "RPC ran for more than set timeout (" ++ to_string timeout ++
    str " ms) and will now be marked with an error") TIMEOUT.

(** One entry of futureTimeouts_. *)
Fixpoint take_futures (ids : list Z) : op (list FutureInfo) :=
  match ids with
  | [] => ret []
  | id :: ids =>
      let! info := gets (fun s => futures_ s !! id) in
      match info with
      | None => throw (AssertFailed "Race Condition - Expected future does not exist in map")
      | Some info =>
          do! modify (upd_futures_ (delete id)) in
          let! infos := take_futures ids in ret (info :: infos)
      end
  end.
(** The entries in the order of their times, up to the first that is not due. *)
Fixpoint take_due (now : Z) (times : list Z) : op (list FutureInfo) :=
  match times with
  | [] => ret []
  | t :: times =>
      if now <? t then ret []
      else
        let! ids := gets (fun s => elements (default ∅ (futureTimeouts_ s !! t))) in
        let! infos := take_futures ids in
        do! modify (upd_futureTimeouts_ (delete t)) in
        let! rest := take_due now times in
        ret (infos ++ rest)
  end.
Definition processTimedOutFutures (now : Z) : op (list FutureInfo) :=
  let! times := gets (fun s => merge_sort Z.le (elements (dom (futureTimeouts_ s)))) in
  take_due now times.

Definition time_out (info : FutureInfo) : op unit :=
  let! r := gets (fun s => jitFutures s !! future_ info) in
  match r with
  | Some (Some (FError _)) => ret tt
  | _ =>
      do! modify (upd_clientActiveCalls_ (fun n => int32 (n - 1))) in
      do! complete_future (future_ info) (FError (timeout_error (timeout_ info))) in
      count_recv (dstRank_ info)
  end.

(** The time-out thread wakes up at [now] from its wait with [minEndTime]; it
    waits again, with a new bound, when the predicate holds; it goes on when the
    time has come.  The result is the bound of its next wait, if it goes on. *)
Definition pollTimedOutRPCs (now minEndTime : Z) : op (option Z) :=
  let! enabled := gets timeoutThreadEnabled_ in
  let! minEndTimeInMap := gets (fun s => min_end_time (futureTimeouts_ s)) in
  if negb enabled then ret None
  else if minEndTimeInMap <? minEndTime then ret (Some minEndTimeInMap)
  else if (now <? minEndTime) || (minEndTime =? kInfiniteTimeoutTimePoint) then ret (Some minEndTime)
  else
    let! timedOutFutures := processTimedOutFutures now in
    do! for_each timedOutFutures time_out in
    let! next := gets (fun s => min_end_time (futureTimeouts_ s)) in
    ret (Some next).

(** ** Termination *)

(** The entry of a snapshot, [2 * worldSize] counters: received, then sent. *)
Definition snapshot (s : pg_agent) : list Z := recvCounts_ s ++ sendCounts_ s.
Definition recv_cnt (worldSize : nat) (peer : list Z) (from : nat) : Z := nth from (take worldSize peer) 0.
Definition sent_cnt (worldSize : nat) (peer : list Z) (to : nat) : Z := nth to (drop worldSize peer) 0.

(** hasPendingMessage after the allgather of the snapshots. *)
Definition hasPendingMessage (worldSize : nat) (peerCounts : list (list Z)) : bool :=
  existsb (fun from => existsb (fun to =>
    negb (sent_cnt worldSize (nth from peerCounts []) to =? recv_cnt worldSize (nth to peerCounts []) from))
    (seq 0 worldSize)) (seq 0 worldSize).

(** The condition join() waits for after sync(). *)
Definition join_ready (s : pg_agent) : bool :=
  bool_decide (futures_ s = ∅) && bool_decide (futureTimeouts_ s = ∅).

Definition startImpl : op unit := modify (upd_timeoutThreadEnabled_ (fun _ => true)).
Definition shutdownImpl : op unit := modify (upd_timeoutThreadEnabled_ (fun _ => false)).

(** ** The tables stay in sync *)

#[local] Set Default Proof Using "Type".
#[local] Set Proof Using Clear Unused.

(** What the constructor sets up and no operation changes, and the senders of
    the tasks of the pool. *)
Record config (s : pg_agent) : Prop := {
  cf_size : 0 <= size_ s <= 32767;
  cf_counts : length (recvCounts_ s) = Z.to_nat (size_ s);
  cf_infos : forall i info, allWorkerInfo_ s !! i = Some info -> 0 <= worker_id_ info < size_ s;
  cf_pool : forall from p, TRecv from p ∈ threadPool_ s -> 0 <= worker_id_ from < size_ s;
}.

(** [lost]: the requests that timed out and are in the hands of the time-out
    thread. *)
Record tables (lost : list FutureInfo) (s : pg_agent) : Prop := {
  tb_futures : forall id info, futures_ s !! id = Some info ->
    jitFutures s !! future_ info = Some None /\ id <= nextId_ s /\ 0 <= dstRank_ info < size_ s /\
    exists ids, futureTimeouts_ s !! endTime_ info = Some ids /\ id ∈ ids;
  tb_timeouts : forall t ids, futureTimeouts_ s !! t = Some ids -> ids <> ∅ /\
    forall id, id ∈ ids -> exists info, futures_ s !! id = Some info /\ endTime_ info = t;
  tb_distinct : forall id1 id2 i1 i2, futures_ s !! id1 = Some i1 -> futures_ s !! id2 = Some i2 ->
    future_ i1 = future_ i2 -> id1 = id2;
  tb_pending : forall f, jitFutures s !! f = Some None ->
    (exists id info, futures_ s !! id = Some info /\ future_ info = f) \/ f ∈ map future_ lost;
  tb_lost : NoDup (map future_ lost) /\ forall f, f ∈ map future_ lost -> jitFutures s !! f = Some None /\
    forall id info, futures_ s !! id = Some info -> future_ info <> f;
  tb_lost_dst : forall info, info ∈ lost -> 0 <= dstRank_ info < size_ s;
  tb_active : clientActiveCalls_ s = int32 (Z.of_nat (size (futures_ s) + length lost));
}.

(** A request leaves both tables. *)
Lemma erase_future_ok lost id info s : tables lost s -> futures_ s !! id = Some info ->
  exists s', erase_future id info s = (Ret (future_ info), s') /\
    futures_ s' = delete id (futures_ s) /\ jitFutures s' = jitFutures s /\ nextId_ s' = nextId_ s /\
    clientActiveCalls_ s' = clientActiveCalls_ s /\ sendCounts_ s' = sendCounts_ s /\ recvCounts_ s' = recvCounts_ s /\
    threadPool_ s' = threadPool_ s /\ outgoing s' = outgoing s /\ size_ s' = size_ s /\
    allWorkerInfo_ s' = allWorkerInfo_ s /\
    (forall t ids, futureTimeouts_ s' !! t = Some ids <->
       ids <> ∅ /\ exists ids0, futureTimeouts_ s !! t = Some ids0 /\
         ids = if decide (t = endTime_ info) then ids0 ∖ {[id]} else ids0).
Proof.
  intros Ht Hi. destruct (tb_futures _ _ Ht id info Hi) as (_ & _ & _ & ids & Hids & Hin).
  unfold erase_future, bind, gets, modify, assert_, lift, ocheck, ret.
  cbn [futureTimeouts_ upd_futures_]. rewrite Hids. change (default ∅ (Some ids)) with ids. rewrite bool_decide_true by done.
  eexists. split; [reflexivity|]. split_and!; try done. intros t ids'.
  cbn [futureTimeouts_ upd_futureTimeouts_ upd_futures_]. set (rest := ids ∖ {[id]}).
  assert (Hne : forall ids0, futureTimeouts_ s !! t = Some ids0 -> ids0 <> ∅) by (intros ids0 H; by apply (tb_timeouts _ _ Ht t)).
  case_decide as Hd; [subst t|].
  - case_bool_decide as Hr.
    + rewrite lookup_delete_eq. split; [done|]. intros (Hn & ids0 & H0 & ->). rewrite Hids in H0. by simplify_eq.
    + rewrite lookup_insert_eq. split; [intros [= <-]; split; [done|by exists ids]|].
      intros (_ & ids0 & H0 & ->). rewrite Hids in H0. by simplify_eq.
  - assert ((if bool_decide (rest = ∅) then delete (endTime_ info) (<[endTime_ info := ids]> (futureTimeouts_ s))
      else <[endTime_ info := rest]> (<[endTime_ info := ids]> (futureTimeouts_ s))) !! t = futureTimeouts_ s !! t) as ->.
    { case_bool_decide; [rewrite lookup_delete_ne by done|rewrite lookup_insert_ne by done]; by rewrite lookup_insert_ne. }
    split; [intros H; split; [by apply Hne|by exists ids']|]. by intros (_ & ids0 & H0 & ->).
Qed.

Lemma size_delete_Z (m : gmap Z FutureInfo) id info : m !! id = Some info -> size m = S (size (delete id m)).
Proof.
  intros Hi. rewrite <- (insert_delete_id m id info Hi) at 1. rewrite map_size_insert_None; [done|]. apply lookup_delete_eq.
Qed.

(** A tracked request is completed: by its response, or with an error. *)
Lemma finish_ok lost id info r s : tables lost s -> futures_ s !! id = Some info ->
  exists s', (let! f := erase_future id info in
              do! modify (upd_clientActiveCalls_ (fun n => int32 (n - 1))) in complete_future f r) s = (Ret tt, s') /\
    tables lost s' /\ jitFutures s' = <[future_ info := Some r]> (jitFutures s) /\ futures_ s' = delete id (futures_ s) /\
    sendCounts_ s' = sendCounts_ s /\ recvCounts_ s' = recvCounts_ s /\ threadPool_ s' = threadPool_ s /\
    outgoing s' = outgoing s /\ size_ s' = size_ s /\ allWorkerInfo_ s' = allWorkerInfo_ s /\ nextId_ s' = nextId_ s.
Proof.
  intros Ht Hi. destruct (erase_future_ok lost id info s Ht Hi) as (s1 & E & Ef & Ej & En & Ea & Es & Er & Ep & Eo & Ez & Ei & Etm).
  destruct (tb_futures _ _ Ht id info Hi) as (Hp & _ & _).
  unfold bind, modify. rewrite E. unfold complete_future, bind, gets, modify.
  cbn [jitFutures upd_clientActiveCalls_]. rewrite Ej, Hp. eexists. split; [reflexivity|].
  split; [|cbn; rewrite Ej; split_and!; done].
  pose proof (lookup_lt_Some _ _ _ Hp) as Hlt.
  assert (Hother : forall f, f <> future_ info -> <[future_ info := Some r]> (jitFutures s) !! f = jitFutures s !! f)
    by (intros f Hf; by rewrite list_lookup_insert_ne).
  split; cbn [futures_ jitFutures nextId_ size_ futureTimeouts_ clientActiveCalls_ upd_jitFutures upd_clientActiveCalls_];
    rewrite ?Ef, ?Ej, ?En, ?Ez.
  - intros k i [Hne Hk]%lookup_delete_Some. destruct (tb_futures _ _ Ht k i Hk) as (Hkp & Hkn & Hkd & ids & Hids & Hin).
    rewrite Hother by (intros Hf; apply Hne; by apply (tb_distinct _ _ Ht id k info i)).
    split; [done|]. split; [done|]. split; [done|]. exists (if decide (endTime_ i = endTime_ info) then ids ∖ {[id]} else ids).
    assert (k ∈ (if decide (endTime_ i = endTime_ info) then ids ∖ {[id]} else ids)) by (case_decide; set_solver).
    split; [|done]. apply Etm. split; [set_solver|]. by exists ids.
  - intros t ids (Hne & ids0 & H0 & ->)%Etm. split; [done|]. intros k Hk.
    assert (Hk0 : k ∈ ids0 /\ (t = endTime_ info -> k <> id)) by (case_decide; set_solver).
    destruct (proj2 (tb_timeouts _ _ Ht t ids0 H0) k (proj1 Hk0)) as (i & Hki & Et). exists i. split; [|done].
    rewrite lookup_delete_ne; [done|]. intros ->. apply (proj2 Hk0); [|done]. rewrite Hi in Hki. by injection Hki as <-.
  - intros k1 k2 i1 i2 [_ H1]%lookup_delete_Some [_ H2]%lookup_delete_Some. by apply (tb_distinct _ _ Ht).
  - intros f Hf. destruct (decide (f = future_ info)) as [->|Hne].
    { by rewrite list_lookup_insert_eq in Hf. }
    rewrite Hother in Hf by done. destruct (tb_pending _ _ Ht f Hf) as [(k & i & Hk & Hfi)|]; [left|by right].
    exists k, i. split; [|done]. rewrite lookup_delete_ne; [done|]. intros ->. rewrite Hi in Hk. injection Hk as ->. congruence.
  - destruct (tb_lost _ _ Ht) as [Hnd Hl]. split; [done|]. intros f Hf. destruct (Hl f Hf) as [Hfp Hfn].
    rewrite Hother by (intros ->; by apply (Hfn id info)). split; [done|]. intros k i [_ Hk]%lookup_delete_Some. by apply (Hfn k).
  - apply (tb_lost_dst _ _ Ht).
  - rewrite Ea, (tb_active _ _ Ht), (size_delete_Z _ _ _ Hi).
    replace (int32 (Z.of_nat (S (size (delete id (futures_ s))) + length lost)) - 1) with
      (int32 (Z.of_nat (S (size (delete id (futures_ s))) + length lost)) + -1) by lia.
    rewrite int32_add. f_equal. lia.
Qed.

Definition is_recv (t : task) : bool := match t with TRecv _ _ => true | _ => false end.
Definition tables_frame (s s' : pg_agent) : Prop :=
  futures_ s' = futures_ s /\ futureTimeouts_ s' = futureTimeouts_ s /\ jitFutures s' = jitFutures s /\
  nextId_ s' = nextId_ s /\ clientActiveCalls_ s' = clientActiveCalls_ s /\ size_ s' = size_ s /\
  recvCounts_ s' = recvCounts_ s /\ allWorkerInfo_ s' = allWorkerInfo_ s /\
  (forall t, t ∈ threadPool_ s' -> t ∈ threadPool_ s \/ is_recv t = false).
Lemma tables_same lost s s' : tables lost s -> futures_ s' = futures_ s -> futureTimeouts_ s' = futureTimeouts_ s ->
  jitFutures s' = jitFutures s -> nextId_ s' = nextId_ s -> clientActiveCalls_ s' = clientActiveCalls_ s ->
  size_ s' = size_ s -> tables lost s'.
Proof. intros [] E1 E2 E3 E4 E5 E6. split; rewrite ?E1, ?E2, ?E3, ?E4, ?E5, ?E6; done. Qed.
Lemma config_same s s' : config s -> size_ s' = size_ s -> length (recvCounts_ s') = length (recvCounts_ s) ->
  allWorkerInfo_ s' = allWorkerInfo_ s -> (forall t, t ∈ threadPool_ s' -> t ∈ threadPool_ s \/ is_recv t = false) -> config s'.
Proof.
  intros [H1 H2 H3 H4] E1 E2 E3 E4. split; rewrite ?E1, ?E2, ?E3; try done.
  intros from p [Hin|Hf]%E4; [by apply (H4 from p)|done].
Qed.

(** A new request is entered in both tables. *)
Lemma new_request_ok id t dst timeout s s' : tables [] s -> nextId_ s < id -> 0 <= dst < size_ s -> size_ s' = size_ s ->
  futures_ s' = <[id := mkFutureInfo (length (jitFutures s)) t dst timeout]> (futures_ s) ->
  futureTimeouts_ s' = <[t := {[id]} ∪ default ∅ (futureTimeouts_ s !! t)]> (futureTimeouts_ s) ->
  jitFutures s' = jitFutures s ++ [None] -> nextId_ s' = id -> clientActiveCalls_ s' = int32 (clientActiveCalls_ s + 1) ->
  tables [] s'.
Proof.
  intros Ht Hid Hdst Ez Ef Et Ej En Ea. set (f := length (jitFutures s)) in *.
  assert (Hnew : futures_ s !! id = None).
  { destruct (futures_ s !! id) as [i|] eqn:E; [|done]. destruct (tb_futures _ _ Ht id i E) as (_ & ? & _). lia. }
  assert (Hold : forall k i, futures_ s !! k = Some i -> (future_ i < f)%nat).
  { intros k i Hk. destruct (tb_futures _ _ Ht k i Hk) as (Hp & _). by apply lookup_lt_Some in Hp. }
  assert (Hset : default ∅ (futureTimeouts_ s !! t) = ∅ \/ futureTimeouts_ s !! t = Some (default ∅ (futureTimeouts_ s !! t))).
  { destruct (futureTimeouts_ s !! t); [by right|by left]. }
  set (old := default ∅ (futureTimeouts_ s !! t)) in *.
  split; rewrite ?Ef, ?Et, ?Ej, ?En, ?Ez.
  - intros k i [[<- <-]|[Hne Hk]]%lookup_insert_Some; cbn [future_ endTime_].
    + split; [by rewrite lookup_app_r, Nat.sub_diag by lia|]. split; [lia|]. split; [done|]. exists ({[id]} ∪ old).
      rewrite lookup_insert_eq. set_solver.
    + destruct (tb_futures _ _ Ht k i Hk) as (Hp & Hn & Hd & ids & Hids & Hin). split; [by apply lookup_app_l_Some|].
      split; [lia|]. split; [done|].
      destruct (decide (endTime_ i = t)) as [<-|Hnt].
      * exists ({[id]} ∪ old). rewrite lookup_insert_eq. split; [done|]. unfold old. rewrite Hids. set_solver.
      * exists ids. by rewrite lookup_insert_ne.
  - intros t' ids [[<- <-]|[Hne Hids]]%lookup_insert_Some.
    + split; [set_solver|]. intros k [->%elem_of_singleton|Hk]%elem_of_union.
      * eexists. by rewrite lookup_insert_eq.
      * destruct Hset as [E|E]; [set_solver|]. destruct (proj2 (tb_timeouts _ _ Ht t old E) k Hk) as (i & Hi & ?).
        exists i. rewrite lookup_insert_ne by congruence. done.
    + destruct (tb_timeouts _ _ Ht t' ids Hids) as [Hn Hk]. split; [done|]. intros k Hin. destruct (Hk k Hin) as (i & Hi & ?).
      exists i. rewrite lookup_insert_ne by congruence. done.
  - intros k1 k2 i1 i2 [[<- <-]|[N1 H1]]%lookup_insert_Some [[<- <-]|[N2 H2]]%lookup_insert_Some; cbn [future_]; try done.
    + intros E. specialize (Hold k2 i2 H2). lia.
    + intros E. specialize (Hold k1 i1 H1). lia.
    + by apply (tb_distinct _ _ Ht).
  - intros g [Hg|[Hge Hg]]%lookup_app_Some; left.
    + destruct (tb_pending _ _ Ht g Hg) as [(k & i & Hk & Hfi)|[]%elem_of_nil].
      exists k, i. rewrite lookup_insert_ne by congruence. done.
    + exists id. eexists. rewrite lookup_insert_eq. split; [done|]. cbn. apply list_lookup_singleton_Some in Hg as [Hg _]. fold f in Hg, Hge. lia.
  - split; [constructor|]. intros g []%elem_of_nil.
  - intros i []%elem_of_nil.
  - rewrite Ea, (tb_active _ _ Ht), int32_add, map_size_insert_None by done. f_equal. cbn. lia.
Qed.

(** Steps that keep the tables and issue no id; steps that issue at most one. *)
Definition agent_inv (s : pg_agent) : Prop := config s /\ tables [] s.
Definition quiet (s s' : pg_agent) : Prop := (agent_inv s -> agent_inv s') /\ nextId_ s' = nextId_ s.
Definition issues_one (s s' : pg_agent) : Prop :=
  agent_inv s -> 0 <= nextId_ s < 2 ^ 63 - 1 -> agent_inv s' /\ nextId_ s <= nextId_ s' <= nextId_ s + 1.

#[local] Instance quiet_preorder : PreOrder quiet.
Proof. split; [done|]. intros s1 s2 s3 [H1 E1] [H2 E2]. split; [auto|congruence]. Qed.

Lemma quiet_one s s' : quiet s s' -> issues_one s s'.
Proof. intros [H E] Ht Hn. rewrite E. split; [auto|lia]. Qed.
Lemma quiet_one_quiet s1 s2 s3 s4 : quiet s1 s2 -> issues_one s2 s3 -> quiet s3 s4 -> issues_one s1 s4.
Proof.
  intros [H1 E1] H2 [H3 E3] Ht Hn. rewrite <- E1 in Hn. destruct (H2 (H1 Ht) Hn) as [Ht3 Hn3].
  rewrite E3, <- E1. split; [auto|lia].
Qed.

Lemma quiet_frame s s' : tables_frame s s' -> quiet s s'.
Proof.
  intros (E1 & E2 & E3 & E4 & E5 & E6 & E7 & E8 & E9). split; [|done]. intros [Hc Ht].
  split; [by apply (config_same s); rewrite ?E7|by apply (tables_same [] s)].
Qed.
Lemma quiet_modify g : (forall s, tables_frame s (g s)) -> follows quiet (modify g).
Proof. intros H s. apply quiet_frame, H. Qed.

Lemma quiet_finish id info r s : futures_ s !! id = Some info ->
  quiet s (snd ((let! f := erase_future id info in
    do! modify (upd_clientActiveCalls_ (fun n => int32 (n - 1))) in complete_future f r) s)).
Proof.
  intros Hi. split.
  - intros [Hc Ht]. destruct (finish_ok [] id info r s Ht Hi) as (s' & -> & Ht' & _ & _ & _ & Er & Ep & _ & Ez & Ei & _).
    split; [|done]. apply (config_same s); cbn [snd]; rewrite ?Er, ?Ep; auto.
  - unfold erase_future, complete_future, bind, gets, modify, assert_, lift, ocheck, ret, throw.
    destruct (bool_decide _); [|done]. cbn [jitFutures upd_clientActiveCalls_ upd_futureTimeouts_ upd_futures_].
    by destruct (jitFutures s !! future_ info) as [[]|].
Qed.

Lemma quiet_mark id msg : follows quiet (markFutureWithError id msg).
Proof.
  intros s. unfold markFutureWithError, bind at 1, gets. destruct (futures_ s !! id) as [info|] eqn:Hi; [|done].
  by apply quiet_finish.
Qed.

Lemma quiet_count from : follows quiet (count_recv from).
Proof.
  intros s. unfold count_recv, bind, gets, lift, modify. destruct (MessageCounter_increment from (recvCounts_ s)) as [l| |] eqn:E; [|done..].
  split; [|done]. intros [Hc Ht]. split; [|by apply (tables_same [] s)]. apply (config_same s); try done; [|by left].
  cbn. revert E. unfold MessageCounter_increment. destruct (recvCounts_ s !! Z.to_nat from); [|done].
  destruct (0 <=? from); [|done]. intros [= <-]. apply length_insert.
Qed.

(** Adding tasks that are no receives. *)
Lemma quiet_add_task t : is_recv t = false -> follows quiet (modify (upd_threadPool_ (fun l => l ++ [t]))).
Proof.
  intros Ht. apply quiet_modify. intros s. unfold tables_frame. split_and!; try done. cbn. intros t' [H|H%list_elem_of_singleton]%elem_of_app; [by left|].
  subst. by right.
Qed.
Lemma quiet_add_recv from p s : (config s -> 0 <= worker_id_ from < size_ s) ->
  quiet s (upd_threadPool_ (fun l => l ++ [TRecv from p]) s).
Proof.
  intros H. split; [|done]. intros [Hc Ht]. split; [|by apply (tables_same [] s)].
  destruct Hc as [H1 H2 H3 H4]. split; try done. cbn. intros f p' [Hin|Hin%list_elem_of_singleton]%elem_of_app; [by apply (H4 f p')|].
  injection Hin as -> ->. apply H. by split.
Qed.

Ltac quiet_tac := repeat first
  [ follows_step | apply quiet_mark | apply quiet_count | by apply quiet_add_task
  | apply quiet_modify; intros ?; unfold tables_frame; split_and!; try done; cbn; by eauto using elem_of_delete ].

Section network_tables.
Variable wireSerialize : bytes -> list T -> outcome bytes.
Variable wireDeserialize : bytes -> outcome (bytes * list T).
Variable rpcTimeout : Z.

Lemma quiet_handleSend pg_send to m : follows quiet (handleSend wireSerialize pg_send to m).
Proof. unfold handleSend. quiet_tac. Qed.

Lemma follows_try {A} (R : pg_agent -> pg_agent -> Prop) `{!PreOrder R} (m : op A) h :
  follows R m -> (forall e, follows R (h e)) -> follows R (try_catch m h).
Proof.
  intros Hm Hh s. unfold try_catch. specialize (Hm s). destruct (m s) as [[a|e|] s1]; [done| |done].
  cbn in Hm. destruct e; try (by etrans; [exact Hm|apply Hh]). done.
Qed.

Lemma quiet_run_send pg_send to m : follows quiet (run_send wireSerialize pg_send to m).
Proof.
  unfold run_send. apply follows_try; [apply _|apply quiet_handleSend|]. intros e.
  quiet_tac. apply quiet_handleSend.
Qed.

Lemma quiet_run_self m : follows quiet (run_self wireSerialize m).
Proof.
  unfold run_self. apply follows_bind; [apply _|quiet_tac|intros rank]. destruct (wireSerialize _ _); [|quiet_tac..].
  do 3 (apply follows_bind; [apply _|quiet_tac|intros ?]). intros s. unfold getWorkerInfo, bind, gets. destruct (allWorkerInfo_ s !! Z.to_nat rank) as [info|] eqn:Hi; [|done].
  destruct (0 <=? rank); [|done]. cbn. apply quiet_add_recv. intros Hc. by apply (cf_infos _ Hc (Z.to_nat rank)).
Qed.

Lemma quiet_listen src p : follows quiet (listen src p).
Proof.
  unfold listen. apply follows_bind; [apply _|quiet_tac|intros []]; [|quiet_tac].
  intros s. unfold workerInfo_at, bind, gets. destruct (allWorkerInfo_ s !! Z.to_nat src) as [info|] eqn:Hi; [|done].
  destruct (0 <=? src); [|done]. cbn. apply quiet_add_recv. intros Hc. by apply (cf_infos _ Hc (Z.to_nat src)).
Qed.

(** A message that is no request has a completed future. *)
Lemma new_done_ok s s' r : tables [] s -> jitFutures s' = jitFutures s ++ [Some r] -> nextId_ s <= nextId_ s' ->
  futures_ s' = futures_ s -> futureTimeouts_ s' = futureTimeouts_ s -> clientActiveCalls_ s' = clientActiveCalls_ s ->
  size_ s' = size_ s -> tables [] s'.
Proof.
  intros Ht Ej En Ef Et Ea Ez. split; rewrite ?Ef, ?Et, ?Ej, ?Ea, ?Ez.
  - intros id info Hi. destruct (tb_futures _ _ Ht id info Hi) as (Hp & Hn & Hd & Hids).
    split; [by apply lookup_app_l_Some|]. split; [lia|]. by split.
  - apply (tb_timeouts _ _ Ht).
  - apply (tb_distinct _ _ Ht).
  - intros f [Hf|[_ Hf]]%lookup_app_Some; [by apply (tb_pending _ _ Ht)|].
    by apply list_lookup_singleton_Some in Hf as [_ ?].
  - split; [constructor|]. intros f []%elem_of_nil.
  - intros i []%elem_of_nil.
  - apply (tb_active _ _ Ht).
Qed.

Lemma quiet_route to m : follows quiet (route to m).
Proof. unfold route, workerInfo_at. quiet_tac. Qed.

(** The id and the entry, or the completed future, of a message. *)
Lemma register_ok now to m t s : agent_inv s -> 0 <= nextId_ s < 2 ^ 63 - 1 -> 0 <= worker_id_ to < size_ s ->
  let s1 := upd_jitFutures (fun l => l ++ [None]) (upd_nextId_ (fun n => int64 (n + 1)) s) in
  exists m' s2, register rpcTimeout now to m t (nextId_ s + 1) (length (jitFutures s)) s1 = (Ret m', s2) /\
    agent_inv s2 /\ nextId_ s2 = nextId_ s + 1.
Proof.
  intros [Hc Ht] Hn Hto s1. assert (En : nextId_ s1 = nextId_ s + 1) by (apply int64_id; unfold in_int64; lia).
  unfold register. destruct (isRequest m).
  - unfold bind, modify, ret. eexists _, _. split; [reflexivity|]. split; [|exact En].
    split; [apply (config_same s); try done; by left|].
    eapply (new_request_ok (nextId_ s + 1)); [exact Ht|lia|exact Hto|done| |reflexivity|reflexivity|exact En|reflexivity].
    change (futures_ (upd_clientActiveCalls_ _ (upd_futureTimeouts_ _ (upd_futures_ ?f s1)))) with (f (futures_ s)).
    cbv beta. destruct (futures_ s !! (nextId_ s + 1)) as [i|] eqn:E; [|done].
    destruct (tb_futures _ _ Ht _ i E) as (_ & ? & _). lia.
  - unfold complete_future, bind, gets, modify, ret.
    replace (jitFutures s1 !! length (jitFutures s)) with (Some (None (A := fut_result)))
      by (unfold s1; cbn [jitFutures upd_jitFutures upd_nextId_]; by rewrite lookup_app_r, Nat.sub_diag by lia).
    eexists _, _. split; [reflexivity|]. split; [|exact En].
    split; [apply (config_same s); try done; by left|].
    apply (new_done_ok s _ (FValue None)); try done; [|cbn [nextId_ upd_jitFutures]; lia].
    cbn [jitFutures upd_jitFutures]. unfold s1. cbn [jitFutures upd_jitFutures upd_nextId_].
    rewrite insert_app_r_alt, Nat.sub_diag by lia. done.
Qed.

(** send enters a request in both tables, completes the future of any other
    message, and otherwise only adds a task. *)
Lemma send_one now to m t s : 0 <= worker_id_ to -> issues_one s (snd (send rpcTimeout now to m t s)).
Proof.
  intros Hto Hinv Hn. unfold send, new_future, bind, gets, throw, ret, assert_, lift, ocheck, modify.
  destruct (listenLoopException_ s); [split; [done|cbn; lia]|].
  destruct (running_ s); [|split; [done|cbn; lia]].
  destruct (Z.ltb_spec (worker_id_ to) (int16 (size_ s))) as [Hlt|]; [|split; [done|cbn; lia]].
  pose proof (cf_size _ (proj1 Hinv)) as Hsz. rewrite int16_id in Hlt by (unfold in_int16; lia).
  cbn [nextId_ upd_nextId_ jitFutures]. rewrite int64_id by (unfold in_int64; lia).
  destruct (register_ok now to m t s Hinv Hn ltac:(lia)) as (m' & s2 & E & Ht2 & Hn2).
  cbn zeta in E. rewrite E. destruct (quiet_route to m' s2) as [Hq En].
  destruct (route to m' s2) as [[u|e|] s3]; cbn [snd] in *; (split; [auto|lia]).
Qed.

Lemma one_quiet {A} (m : op A) : follows quiet m -> follows issues_one m.
Proof. intros H s. apply quiet_one, H. Qed.
Lemma one_then_quiet {A B} (m : op A) (k : A -> op B) :
  follows issues_one m -> (forall a, follows quiet (k a)) -> follows issues_one (bind m k).
Proof.
  intros Hm Hk s. unfold bind. pose proof (Hm s) as H. destruct (m s) as [[a|e|] s1]; cbn in *; [|done..].
  apply (quiet_one_quiet s s s1); [done|done|apply Hk].
Qed.
Lemma quiet_then_one {A B} (m : op A) (k : A -> op B) :
  follows quiet m -> (forall a, follows issues_one (k a)) -> follows issues_one (bind m k).
Proof.
  intros Hm Hk s. unfold bind. pose proof (Hm s) as H. destruct (m s) as [[a|e|] s1]; cbn in *;
    [|by apply quiet_one..].
  apply (quiet_one_quiet s s1 (snd (k a s1)) (snd (k a s1))); [done|apply Hk|done].
Qed.

Lemma respond_one now to id r s : 0 <= worker_id_ to -> issues_one s (snd (respond rpcTimeout now to id r s)).
Proof.
  intros Hto. unfold respond, bind. 
  pose proof (send_one now to (match r with inl m => m | inr e => createExceptionResponse e id end) None s Hto) as H.
  by destruct (send rpcTimeout now to _ None s) as [[u|e|] s1].
Qed.

Lemma handleRecv_one cb now from p s : 0 <= worker_id_ from ->
  issues_one s (snd (handleRecv wireDeserialize rpcTimeout cb now from p s)).
Proof.
  intros Hfrom. unfold handleRecv. revert s. change (follows issues_one (handleRecv wireDeserialize rpcTimeout cb now from p)).
  unfold handleRecv. apply quiet_then_one; [quiet_tac|]. intros data.
  destruct (isRequest _).
  - apply quiet_then_one; [quiet_tac|]. intros _.
    destruct (match cb _ with CbThrows e => _ | r => r end); try solve [apply one_quiet; quiet_tac].
    apply quiet_then_one; [quiet_tac|]. intros _. apply one_then_quiet; [intros s; by apply respond_one|]. intros. quiet_tac.
  - apply one_quiet. destruct (isResponse _); [|quiet_tac]. intros s. unfold bind at 1, gets.
    cbn [id_]. destruct (futures_ s !! p_id p) as [info|] eqn:Hi; [|done].
    set (r := if bool_decide _ then _ else _). pose proof (quiet_finish (p_id p) info r s Hi) as H. revert H.
    unfold bind, modify, ret. destruct (erase_future (p_id p) info s) as [[f|e|] s1]; [|done..].
    by destruct (complete_future f r (upd_clientActiveCalls_ _ s1)) as [[[]|e|] s2].
Qed.

Lemma run_recv_one cb now from p s : 0 <= worker_id_ from ->
  issues_one s (snd (run_recv wireDeserialize rpcTimeout cb now from p s)).
Proof.
  intros Hfrom. unfold run_recv, try_catch.
  assert (H : follows issues_one (let! count := handleRecv wireDeserialize rpcTimeout cb now from p in
             if count then count_recv (worker_id_ from) else ret tt)).
  { apply one_then_quiet; [intros s'; by apply handleRecv_one|]. intros []; [apply quiet_count|quiet_tac]. }
  specialize (H s). destruct (bind _ _ s) as [[a|e|] s1]; [done| |done]. cbn in H.
  destruct e; try (apply (quiet_one_quiet s s s1); [done|done|apply quiet_count]). done.
Qed.

Lemma run_task_one pg_send cb now k : follows issues_one (run_task wireSerialize wireDeserialize pg_send rpcTimeout cb now k).
Proof.
  intros s. unfold run_task, bind, gets, modify. destruct (threadPool_ s !! k) as [t|] eqn:Hk.
  - set (s1 := upd_threadPool_ (delete k) s). assert (Hq : quiet s s1).
    { apply quiet_frame. unfold tables_frame. split_and!; try done. intros t' Ht'. left. exact (elem_of_delete k _ _ Ht'). }
    destruct t as [to m|m|from p].
    + apply quiet_one. etrans; [exact Hq|apply quiet_run_send].
    + apply quiet_one. etrans; [exact Hq|apply quiet_run_self].
    + intros Hinv Hn. assert (Hfrom : 0 <= worker_id_ from).
      { apply (cf_pool _ (proj1 Hinv) from p). by eapply list_elem_of_lookup_2. }
      exact (quiet_one_quiet s s1 _ _ Hq (run_recv_one cb now from p s1 Hfrom) (PreOrder_Reflexive _) Hinv Hn).
  - apply quiet_one, quiet_frame. unfold tables_frame. split_and!; try done. intros t' Ht'. left. exact (elem_of_delete k _ _ Ht').
Qed.

Lemma async_done_one now k r : follows issues_one (async_done rpcTimeout now k r).
Proof.
  unfold async_done. apply quiet_then_one; [quiet_tac|]. intros [[from id]|]; [|apply one_quiet; quiet_tac].
  do 3 (apply quiet_then_one; [quiet_tac|intros _]). intros s Hinv Hn. unfold getWorkerInfo, bind, gets.
  destruct (allWorkerInfo_ s !! Z.to_nat from) as [info|] eqn:Hi; [|split; [done|cbn; lia]].
  destruct (0 <=? from); [|split; [done|cbn; lia]]. cbn [ret]. apply respond_one; [|done..].
  by destruct (cf_infos _ (proj1 Hinv) (Z.to_nat from) info Hi).
Qed.
End network_tables.

(** *** Time-outs *)

Definition delete_all (l : list Z) (m : gmap Z FutureInfo) : gmap Z FutureInfo := foldl (fun m id => delete id m) m l.

Lemma delete_all_lookup l m k : delete_all l m !! k = if bool_decide (k ∈ l) then None else m !! k.
Proof.
  revert m. induction l as [|id l IH]; intros m; cbn [delete_all foldl]; [by rewrite bool_decide_false by apply not_elem_of_nil|].
  fold (delete_all l (delete id m)). rewrite IH. destruct (decide (k ∈ l)) as [Hin|Hin].
  - rewrite !bool_decide_true; [done|by apply list_elem_of_further|done].
  - rewrite bool_decide_false by done. destruct (decide (k = id)) as [->|Hne].
    + rewrite lookup_delete_eq, bool_decide_true; [done|by apply list_elem_of_here].
    + rewrite lookup_delete_ne by done. rewrite bool_decide_false; [done|]. by intros [?|?]%elem_of_cons.
Qed.

Lemma delete_all_size l m : NoDup l -> (forall id, id ∈ l -> is_Some (m !! id)) ->
  size m = (size (delete_all l m) + length l)%nat.
Proof.
  revert m. induction l as [|id l IH]; intros m Hnd Hl; cbn [delete_all foldl length]; [lia|].
  apply NoDup_cons in Hnd as [Hid Hnd]. destruct (Hl id (list_elem_of_here _ _)) as [info Hi].
  rewrite (size_delete_Z m id info Hi), (IH (delete id m)); [unfold delete_all; lia|done|].
  intros k Hk. rewrite lookup_delete_ne by (by intros ->). apply Hl. by apply list_elem_of_further.
Qed.

Lemma take_futures_run l : forall s, NoDup l -> (forall id, id ∈ l -> is_Some (futures_ s !! id)) ->
  exists infos, take_futures l s = (Ret infos, upd_futures_ (delete_all l) s) /\
    Forall2 (fun id info => futures_ s !! id = Some info) l infos.
Proof.
  induction l as [|id l IH]; intros s Hnd Hl; cbn [take_futures].
  - exists []. split; [by destruct s|constructor].
  - apply NoDup_cons in Hnd as [Hid Hnd]. destruct (Hl id (list_elem_of_here _ _)) as [info Hi].
    unfold bind, gets, modify, ret. rewrite Hi.
    destruct (IH (upd_futures_ (delete id) s) Hnd) as (infos & -> & Hf).
    { intros k Hk. cbn [futures_ upd_futures_]. rewrite lookup_delete_ne by (by intros ->). apply Hl. by apply list_elem_of_further. }
    exists (info :: infos). split; [by destruct s|]. constructor; [done|].
    eapply Forall2_impl; [exact Hf|]. cbn [futures_ upd_futures_]. by intros k i [_ ?]%lookup_delete_Some.
Qed.

(** One time point: its requests leave both tables. *)
Lemma take_entry lost t ids s : tables lost s -> futureTimeouts_ s !! t = Some ids ->
  exists infos, take_futures (elements ids) s = (Ret infos, upd_futures_ (delete_all (elements ids)) s) /\
    tables (lost ++ infos) (upd_futureTimeouts_ (delete t) (upd_futures_ (delete_all (elements ids)) s)) /\
    (forall info, info ∈ infos <-> exists id, futures_ s !! id = Some info /\ endTime_ info = t).
Proof.
  intros Ht Hids. destruct (tb_timeouts _ _ Ht t ids Hids) as [Hne Hin].
  assert (Hsome : forall id, id ∈ elements ids -> is_Some (futures_ s !! id)).
  { intros id Hid%elem_of_elements. destruct (Hin id Hid) as (i & Hi & _). by exists i. }
  destruct (take_futures_run (elements ids) s (NoDup_elements ids) Hsome) as (infos & E & Hf).
  exists infos. split; [exact E|].
  assert (Hiff : forall id info, futures_ s !! id = Some info -> (id ∈ elements ids <-> endTime_ info = t)).
  { intros id info Hi. rewrite elem_of_elements. split.
    - intros Hid. destruct (Hin id Hid) as (i & Hi' & E'). congruence.
    - intros E'. destruct (tb_futures _ _ Ht id info Hi) as (_ & _ & _ & ids' & Hids' & Hid). rewrite E' in Hids'. congruence. }
  assert (Hinfos : forall info, info ∈ infos <-> exists id, futures_ s !! id = Some info /\ endTime_ info = t).
  { intros info. split.
    - intros [k Hk]%list_elem_of_lookup. destruct (Forall2_lookup_r _ _ _ _ _ Hf Hk) as (id & Hid & Hi).
      exists id. split; [done|]. apply (Hiff id info Hi). by eapply list_elem_of_lookup_2.
    - intros (id & Hi & E'). apply (Hiff id info Hi) in E'. apply list_elem_of_lookup in E' as [k Hk].
      destruct (Forall2_lookup_l _ _ _ _ _ Hf Hk) as (i & Hi' & Hfi). simplify_eq/=. by eapply list_elem_of_lookup_2. }
  split; [|exact Hinfos].
  assert (Hfut : forall id info, delete_all (elements ids) (futures_ s) !! id = Some info <->
    futures_ s !! id = Some info /\ endTime_ info <> t).
  { intros id info. rewrite delete_all_lookup. case_bool_decide as Hd.
    - split; [done|]. intros [Hi Hn]. by apply (Hiff id info Hi) in Hd.
    - split; [|by intros [? _]]. intros Hi. split; [done|]. intros E'. by apply Hd, (Hiff id info Hi). }
  split; cbn [futures_ jitFutures nextId_ size_ futureTimeouts_ clientActiveCalls_ upd_futures_ upd_futureTimeouts_].
  - intros id info [Hi Hn]%Hfut. destruct (tb_futures _ _ Ht id info Hi) as (H1 & H2 & H3 & ids' & H4 & H5).
    split; [done|]. split; [done|]. split; [done|]. exists ids'. by rewrite lookup_delete_ne.
  - intros t' ids' [Hn Ht']%lookup_delete_Some. destruct (tb_timeouts _ _ Ht t' ids' Ht') as [H1 H2]. split; [done|].
    intros id Hid. destruct (H2 id Hid) as (i & Hi & E'). exists i. split; [|done]. apply Hfut. split; [done|congruence].
  - intros id1 id2 i1 i2 [H1 _]%Hfut [H2 _]%Hfut. by apply (tb_distinct _ _ Ht).
  - intros f Hf0. rewrite map_app, elem_of_app. destruct (tb_pending _ _ Ht f Hf0) as [(id & i & Hi & Hfi)|]; [|by auto].
    destruct (decide (endTime_ i = t)) as [E'|Hn].
    + right. right. rewrite <- Hfi. apply list_elem_of_fmap_2, Hinfos. by exists id.
    + left. exists id, i. split; [|done]. by apply Hfut.
  - destruct (tb_lost _ _ Ht) as [Hnd Hl]. split.
    + rewrite map_app. apply NoDup_app. split; [done|]. split.
      * intros f Hf0 Hf1. destruct (Hl f Hf0) as [_ Hno]. apply list_elem_of_fmap in Hf1 as (i & -> & Hi%Hinfos).
        destruct Hi as (id & Hi & _). by apply (Hno id i).
      * clear -Hf Ht. pose proof (NoDup_elements ids) as Hnd. induction Hf as [|id info l infos Hi Hf IH]; [constructor|].
        apply NoDup_cons in Hnd as [Hid Hnd]. cbn [map]. constructor; [|by apply IH].
        intros (i & E' & [k Hk]%list_elem_of_lookup)%list_elem_of_fmap.
        destruct (Forall2_lookup_r _ _ _ _ _ Hf Hk) as (id' & Hid' & Hi').
        apply Hid. rewrite (tb_distinct _ _ Ht id id' info i Hi Hi' E'). by eapply list_elem_of_lookup_2.
    + intros f. rewrite map_app, elem_of_app. intros [Hf0|Hf0].
      * destruct (Hl f Hf0) as [H1 H2]. split; [done|]. intros id info [Hi _]%Hfut. by apply (H2 id).
      * apply list_elem_of_fmap in Hf0 as (i & -> & (id & Hi & E')%Hinfos).
        split; [by apply (tb_futures _ _ Ht id i Hi)|]. intros id2 i2 [Hi2 Hn]%Hfut Ef.
        rewrite (tb_distinct _ _ Ht id2 id i2 i Hi2 Hi Ef) in Hi2. congruence.
  - intros info [Hin'|Hin']%elem_of_app; [by apply (tb_lost_dst _ _ Ht)|].
    apply Hinfos in Hin' as (id & Hi & _). by apply (tb_futures _ _ Ht id info Hi).
  - rewrite (tb_active _ _ Ht). f_equal. rewrite length_app, (delete_all_size (elements ids) (futures_ s)); [|apply NoDup_elements|done].
    rewrite (Forall2_length _ _ _ Hf). lia.
Qed.

Lemma take_due_ok now times : forall lost s, StronglySorted Z.le times -> NoDup times ->
  tables lost s -> (forall t, t ∈ times <-> is_Some (futureTimeouts_ s !! t)) ->
  exists infos s', take_due now times s = (Ret infos, s') /\ tables (lost ++ infos) s' /\
    (exists f g, s' = upd_futureTimeouts_ f (upd_futures_ g s)) /\
    (forall info, info ∈ infos <-> exists id, futures_ s !! id = Some info /\ endTime_ info <= now) /\
    (forall id info, futures_ s' !! id = Some info <-> futures_ s !! id = Some info /\ now < endTime_ info).
Proof.
  induction times as [|t times IH]; intros lost s Hsort Hnd Ht Hkeys; cbn [take_due].
  - assert (Hnone : forall id info, futures_ s !! id = Some info -> False).
    { intros id info Hi. destruct (tb_futures _ _ Ht id info Hi) as (_ & _ & _ & ids & Hids & _).
      apply (not_elem_of_nil (endTime_ info)), Hkeys. by exists ids. }
    exists [], s. split; [done|]. rewrite app_nil_r. split; [done|]. split; [exists (fun m => m), (fun m => m); by destruct s|].
    split; [|naive_solver]. intros info. split; [by intros ?%elem_of_nil|]. intros (id & Hi & _). by destruct (Hnone id info).
  - apply StronglySorted_inv in Hsort as [Hsort Hle]. apply NoDup_cons in Hnd as [Htn Hnd].
    rewrite Forall_forall in Hle.
    destruct (Z.ltb_spec now t) as [Hlt|Hge].
    + assert (Hlate : forall id info, futures_ s !! id = Some info -> now < endTime_ info).
      { intros id info Hi. destruct (tb_futures _ _ Ht id info Hi) as (_ & _ & _ & ids & Hids & _).
        assert (Hin : endTime_ info ∈ t :: times) by (apply Hkeys; by exists ids).
        apply elem_of_cons in Hin as [->|Hin]; [done|]. specialize (Hle _ Hin). lia. }
      exists [], s. split; [done|]. rewrite app_nil_r. split; [done|]. split; [exists (fun m => m), (fun m => m); by destruct s|].
      split; [|split; [eauto|by intros []]]. intros info. split; [by intros ?%elem_of_nil|]. intros (id & Hi & ?).
      specialize (Hlate id info Hi). lia.
    + destruct (proj1 (Hkeys t) (list_elem_of_here _ _)) as [ids Hids].
      destruct (take_entry lost t ids s Ht Hids) as (infos1 & E1 & Ht1 & Hin1).
      unfold bind, gets, modify, ret. rewrite Hids. change (default ∅ (Some ids)) with ids. rewrite E1.
      set (s1 := upd_futureTimeouts_ _ (upd_futures_ _ s)) in *.
      assert (Hf1 : forall id info, futures_ s1 !! id = Some info <-> futures_ s !! id = Some info /\ endTime_ info <> t).
      { intros id info. unfold s1. cbn [futures_ upd_futures_ upd_futureTimeouts_]. rewrite delete_all_lookup.
        case_bool_decide as Hd; rewrite elem_of_elements in Hd.
        - split; [done|]. intros [Hi Hn]. destruct (proj2 (tb_timeouts _ _ Ht t ids Hids) id Hd) as (i & Hi' & E').
          congruence.
        - split; [|by intros [? _]]. intros Hi. split; [done|]. intros E'. apply Hd.
          destruct (tb_futures _ _ Ht id info Hi) as (_ & _ & _ & ids' & Hids' & Hid). rewrite E', Hids in Hids'. congruence. }
      destruct (IH (lost ++ infos1) s1 Hsort Hnd Ht1) as (infos2 & s2 & E2 & Ht2 & (f & g & Es2) & Hin2 & Hf2).
      { intros t'. unfold s1. cbn [futureTimeouts_ upd_futureTimeouts_ upd_futures_]. split.
        - intros Hin. rewrite lookup_delete_ne by (by intros ->). apply Hkeys. by apply list_elem_of_further.
        - intros [ids' [Hn Hids']%lookup_delete_Some]. assert (Hin : t' ∈ t :: times) by (apply Hkeys; by exists ids').
          by apply elem_of_cons in Hin as [->|?]. }
      exists (infos1 ++ infos2), s2. rewrite E2. split; [done|]. split; [by rewrite app_assoc|].
      split; [exists (fun m => f (delete t m)), (fun m => g (delete_all (elements ids) m)); by rewrite Es2|].
      split.
      * intros info. rewrite elem_of_app, Hin1, Hin2. split.
        -- intros [(id & Hi & <-)|(id & [Hi _]%Hf1 & ?)]; exists id; done.
        -- intros (id & Hi & Hn). destruct (decide (endTime_ info = t)); [left; by exists id|].
           right. exists id. by rewrite Hf1.
      * intros id info. rewrite Hf2, Hf1. split; [by intros [[? _] ?]|]. intros [Hi Hn]. split; [|done]. split; [done|lia].
Qed.

(** A counter that exists goes up by one. *)
Definition count (dst : Z) (counters : list Z) : list Z := alter (fun c => int64 (c + 1)) (Z.to_nat dst) counters.
Lemma increment_ok dst l : 0 <= dst < Z.of_nat (length l) -> MessageCounter_increment dst l = Ret (count dst l).
Proof.
  intros Hd. unfold MessageCounter_increment, count. destruct (lookup_lt_is_Some_2 l (Z.to_nat dst)) as [c Hc]; [lia|].
  rewrite Hc. destruct (Z.leb_spec 0 dst); [|lia]. f_equal. apply list_eq. intros j.
  destruct (decide (j = Z.to_nat dst)) as [->|Hne].
  - rewrite list_lookup_insert_eq by (by eapply lookup_lt_Some). by rewrite list_lookup_alter_eq, Hc.
  - by rewrite list_lookup_insert_ne, list_lookup_alter_ne.
Qed.

(** The time-out thread completes one future and counts the response it gives up. *)
Lemma time_out_ok info lost s : config s -> tables (info :: lost) s ->
  exists s', time_out info s = (Ret tt, s') /\ config s' /\ tables lost s' /\
    jitFutures s' = <[future_ info := Some (FError (timeout_error (timeout_ info)))]> (jitFutures s) /\
    futures_ s' = futures_ s /\ recvCounts_ s' = count (dstRank_ info) (recvCounts_ s) /\
    nextId_ s' = nextId_ s /\ size_ s' = size_ s.
Proof.
  intros Hc Ht. destruct (tb_lost _ _ Ht) as [Hnd Hl]. cbn [map] in Hnd, Hl. apply NoDup_cons in Hnd as [Hn Hnd].
  destruct (Hl (future_ info) (list_elem_of_here _ _)) as [Hp Hno].
  pose proof (tb_lost_dst _ _ Ht info (list_elem_of_here _ _)) as Hd.
  unfold time_out, complete_future, count_recv, bind, gets, modify, lift. rewrite Hp.
  cbn [jitFutures upd_clientActiveCalls_]. rewrite Hp. cbn [recvCounts_ upd_jitFutures upd_clientActiveCalls_].
  rewrite increment_ok by (rewrite (cf_counts _ Hc); pose proof (cf_size _ Hc); lia).
  eexists. split; [reflexivity|]. split; [|split; [|done]].
  - apply (config_same s); try done; [|by left]. cbn. apply length_alter.
  - assert (Hother : forall f, f <> future_ info ->
      <[future_ info := Some (FError (timeout_error (timeout_ info)))]> (jitFutures s) !! f = jitFutures s !! f)
      by (intros f Hf; by rewrite list_lookup_insert_ne).
    split; cbn [futures_ jitFutures nextId_ size_ futureTimeouts_ clientActiveCalls_ upd_jitFutures upd_clientActiveCalls_ upd_recvCounts_].
    + intros id i Hi. rewrite Hother by (by apply (Hno id)). by apply (tb_futures _ _ Ht).
    + apply (tb_timeouts _ _ Ht).
    + apply (tb_distinct _ _ Ht).
    + intros f Hf. destruct (decide (f = future_ info)) as [->|Hne].
      { rewrite list_lookup_insert_eq in Hf; [done|by eapply lookup_lt_Some]. }
      rewrite Hother in Hf by done. destruct (tb_pending _ _ Ht f Hf) as [|Hin]; [by left|right].
      cbn [map] in Hin. by apply elem_of_cons in Hin as [?|?].
    + split; [done|]. intros f Hf. rewrite Hother by (by intros ->). apply Hl. by apply list_elem_of_further.
    + intros i Hi. apply (tb_lost_dst _ _ Ht). by apply list_elem_of_further.
    + rewrite (tb_active _ _ Ht). cbn [length].
      replace (int32 (Z.of_nat (size (futures_ s) + S (length lost))) - 1) with
        (int32 (Z.of_nat (size (futures_ s) + S (length lost))) + -1) by lia.
      rewrite int32_add. f_equal. lia.
Qed.

Lemma time_out_all infos : forall s, config s -> tables infos s ->
  exists s', for_each infos time_out s = (Ret tt, s') /\ config s' /\ tables [] s' /\
    (forall info, info ∈ infos -> jitFutures s' !! future_ info = Some (Some (FError (timeout_error (timeout_ info))))) /\
    (forall f, f ∉ map future_ infos -> jitFutures s' !! f = jitFutures s !! f) /\
    futures_ s' = futures_ s /\ recvCounts_ s' = foldl (fun l info => count (dstRank_ info) l) (recvCounts_ s) infos /\
    nextId_ s' = nextId_ s.
Proof.
  induction infos as [|info infos IH]; intros s Hc Ht; cbn [for_each].
  - exists s. split_and!; try done. intros i []%elem_of_nil.
  - destruct (time_out_ok info infos s Hc Ht) as (s1 & E & Hc1 & Ht1 & Ej & Ef & Er & En & _).
    destruct (IH s1 Hc1 Ht1) as (s2 & E2 & Hc2 & Ht2 & Hdone & Hsame & Ef2 & Er2 & En2).
    unfold bind. rewrite E, E2. exists s2. destruct (tb_lost _ _ Ht) as [Hnd Hl]. cbn [map] in *.
    apply NoDup_cons in Hnd as [Hn _]. destruct (Hl (future_ info) (list_elem_of_here _ _)) as [Hp _].
    split; [done|]. split; [done|]. split; [done|]. split; [|split; [|split; [congruence|split; [|congruence]]]].
    + intros i [->|Hi]%elem_of_cons; [|by apply Hdone]. rewrite Hsame by done. rewrite Ej.
      apply list_lookup_insert_eq. by eapply lookup_lt_Some.
    + intros f [Hf1 Hf2]%not_elem_of_cons. rewrite Hsame by done. rewrite Ej. by rewrite list_lookup_insert_ne.
    + cbn [foldl]. by rewrite <- Er.
Qed.

(** What the time-out thread does when its time has come. *)
Lemma process_ok now s : agent_inv s ->
  exists infos s', (let! infos := processTimedOutFutures now in for_each infos time_out) s = (Ret tt, s') /\ agent_inv s' /\
    NoDup (map future_ infos) /\
    (forall info, info ∈ infos <-> exists id, futures_ s !! id = Some info /\ endTime_ info <= now) /\
    (forall info, info ∈ infos -> jitFutures s' !! future_ info = Some (Some (FError (timeout_error (timeout_ info))))) /\
    (forall f, f ∉ map future_ infos -> jitFutures s' !! f = jitFutures s !! f) /\
    (forall id info, futures_ s' !! id = Some info <-> futures_ s !! id = Some info /\ now < endTime_ info) /\
    recvCounts_ s' = foldl (fun l info => count (dstRank_ info) l) (recvCounts_ s) infos /\ nextId_ s' = nextId_ s.
Proof.
  intros [Hc Ht]. set (times := merge_sort Z.le (elements (dom (futureTimeouts_ s)))).
  assert (Hperm : times ≡ₚ elements (dom (futureTimeouts_ s))) by apply merge_sort_Permutation.
  destruct (take_due_ok now times [] s) as (infos & s1 & E1 & Ht1 & (f & g & Es1) & Hin & Hf1).
  - apply Sorted_StronglySorted; [apply _|]. by apply (Sorted_merge_sort Z.le).
  - rewrite Hperm. apply NoDup_elements.
  - done.
  - intros t. rewrite Hperm, elem_of_elements. apply elem_of_dom.
  - assert (Hc1 : config s1) by (apply (config_same s); [done|by rewrite Es1..|rewrite Es1; by left]).
    destruct (time_out_all infos s1 Hc1 Ht1) as (s2 & E2 & Hc2 & Ht2 & Hdone & Hsame & Ef2 & Er2 & En2).
    exists infos, s2. unfold processTimedOutFutures, bind, gets. fold times. rewrite E1, E2.
    split; [done|]. split; [done|]. split; [apply (tb_lost _ _ Ht1)|]. split; [done|]. split; [done|].
    split; [intros h Hh; rewrite (Hsame h Hh); by rewrite Es1|].
    split; [by rewrite Ef2|]. rewrite Er2, En2, Es1. done.
Qed.

(** *** The constructor *)

Lemma make_infos_ids names : forall rank infos, make_infos rank names = Ret infos ->
  forall i info, infos !! i = Some info -> worker_id_ info = rank + Z.of_nat i /\ (i < length names)%nat.
Proof.
  induction names as [|name names IH]; cbn [make_infos]; intros rank infos; [by intros [= <-]|].
  unfold WorkerInfo_small, ocheck. destruct (_ && _); cbn [obind]; [|done].
  destruct (make_infos (rank + 1) names) as [l| |] eqn:E; cbn [obind]; [|done..]. intros [= <-] [|i] info; cbn [lookup list_lookup length].
  - intros [= <-]. cbn. lia.
  - intros Hi. destruct (IH _ _ E i info Hi). lia.
Qed.

Lemma names_by_rank_length n m : length (names_by_rank n m) = n.
Proof.
  unfold names_by_rank. generalize (map_to_list m). intros l.
  assert (H : forall acc, length (foldl (fun (l : list bytes) (e : bytes * Z) => <[Z.to_nat e.2 := e.1]> l) acc l) = length acc).
  { induction l as [|e l IH]; intros acc; cbn [foldl]; [done|]. by rewrite IH, length_insert. }
  rewrite H. apply length_replicate.
Qed.

Lemma construct_inv name rank size gathered s : 0 <= size <= 32767 ->
  ProcessGroupAgent_construct name rank size gathered = Ret s -> agent_inv s /\ nextId_ s = 0.
Proof.
  intros Hsize. unfold ProcessGroupAgent_construct, ocheck.
  destruct (WorkerInfo_wide name rank) as [info| |]; cbn [obind]; [|done..].
  destruct (collectNames 0 gathered ∅) as [m| |]; cbn [obind]; [|done..].
  destruct (m !! name_ info) as [r|]; [|done]. destruct (rank =? r); [|done].
  destruct (make_infos 0 (names_by_rank (Z.to_nat size) m)) as [infos| |] eqn:E; cbn [obind]; [|done..].
  intros [= <-]. split; [|done]. split.
  - split; cbn; [done|apply length_replicate| |by intros ? ? []%elem_of_nil].
    intros i w Hi. destruct (make_infos_ids _ _ _ E i w Hi) as [-> Hlt]. rewrite names_by_rank_length in Hlt. lia.
  - split; cbn; try done; [split; [constructor|by intros f []%elem_of_nil]|by intros i []%elem_of_nil].
Qed.

(** *** Runs *)

Section runs.
Variable wireSerialize : bytes -> list T -> outcome bytes.
Variable wireDeserialize : bytes -> outcome (bytes * list T).
Variable rpcTimeout : Z.
Variable pg_send : Z -> packet -> option exn.
Variable cb : Message T -> cb_result.

(** RpcAgent::start and shutdown, without the retry thread of RpcAgent. *)
Definition agent_start : op unit := do! modify (upd_running_ (fun _ => true)) in startImpl.
Definition agent_shutdown : op unit := do! modify (upd_running_ (fun _ => false)) in shutdownImpl.

Inductive event : Type :=
  | EStart
  | EShutdown
  | ESend (now : Z) (to : WorkerInfo) (message : Message T) (rpcTimeoutMs : option Z)
  | ETask (now : Z) (k : nat)
  | EListen (srcRank : Z) (p : packet)
  | EAsyncDone (now : Z) (k : nat) (r : Message T + bytes)
  | EPoll (now minEndTime : Z).

Definition step (e : event) (s : pg_agent) : pg_agent :=
  match e with
  | EStart => snd (agent_start s)
  | EShutdown => snd (agent_shutdown s)
  | ESend now to message t => snd (send rpcTimeout now to message t s)
  | ETask now k => snd (run_task wireSerialize wireDeserialize pg_send rpcTimeout cb now k s)
  | EListen srcRank p => snd (listen srcRank p s)
  | EAsyncDone now k r => snd (async_done rpcTimeout now k r s)
  | EPoll now minEndTime => snd (pollTimedOutRPCs now minEndTime s)
  end.
Definition run_events (l : list event) (s : pg_agent) : pg_agent := foldl (fun s e => step e s) s l.

(** send does not check that the id it is given is not negative. *)
Definition event_ok (e : event) : Prop := match e with ESend _ to _ _ => 0 <= worker_id_ to | _ => True end.

(** The iteration of the time-out thread after its wait. *)
Lemma poll_due now minEndTime s : timeoutThreadEnabled_ s = true -> minEndTime <= min_end_time (futureTimeouts_ s) ->
  minEndTime <= now -> minEndTime <> kInfiniteTimeoutTimePoint -> forall s',
  (let! infos := processTimedOutFutures now in for_each infos time_out) s = (Ret tt, s') ->
  pollTimedOutRPCs now minEndTime s = (Ret (Some (min_end_time (futureTimeouts_ s'))), s').
Proof.
  intros He Hm Hd Hi s'. unfold pollTimedOutRPCs, bind, gets, ret. rewrite He. cbn [negb].
  destruct (Z.ltb_spec (min_end_time (futureTimeouts_ s)) minEndTime); [lia|].
  destruct (Z.ltb_spec now minEndTime); [lia|]. destruct (Z.eqb_spec minEndTime kInfiniteTimeoutTimePoint); [done|].
  cbn [orb]. destruct (processTimedOutFutures now s) as [[l| |] s1]; [|done..]. by intros ->.
Qed.

Lemma poll_idle now minEndTime s : timeoutThreadEnabled_ s = false \/ min_end_time (futureTimeouts_ s) < minEndTime \/
  now < minEndTime \/ minEndTime = kInfiniteTimeoutTimePoint ->
  exists r, pollTimedOutRPCs now minEndTime s = (Ret r, s).
Proof.
  intros H. unfold pollTimedOutRPCs, bind, gets, ret. destruct (timeoutThreadEnabled_ s); [|by eexists]. cbn [negb].
  destruct (Z.ltb_spec (min_end_time (futureTimeouts_ s)) minEndTime); [by eexists|].
  destruct (Z.ltb_spec now minEndTime); [by eexists|]. destruct (Z.eqb_spec minEndTime kInfiniteTimeoutTimePoint); [by eexists|].
  destruct H as [?|[?|[?|?]]]; [done|lia..|done].
Qed.

Lemma poll_one now minEndTime : follows issues_one (pollTimedOutRPCs now minEndTime).
Proof.
  intros s Hinv Hn.
  assert (H : (timeoutThreadEnabled_ s = false \/ min_end_time (futureTimeouts_ s) < minEndTime \/
    now < minEndTime \/ minEndTime = kInfiniteTimeoutTimePoint) \/ (timeoutThreadEnabled_ s = true /\
    minEndTime <= min_end_time (futureTimeouts_ s) /\ minEndTime <= now /\ minEndTime <> kInfiniteTimeoutTimePoint))
    by (destruct (timeoutThreadEnabled_ s); lia).
  destruct H as [H|(H1 & H2 & H3 & H4)].
  - destruct (poll_idle _ _ _ H) as [r ->]. cbn [snd]. split; [done|lia].
  - destruct (process_ok now s Hinv) as (infos & s' & E & Hinv' & _ & _ & _ & _ & _ & _ & En).
    rewrite (poll_due now minEndTime s H1 H2 H3 H4 s' E). cbn [snd]. split; [done|lia].
Qed.

Lemma step_one e s : event_ok e -> issues_one s (step e s).
Proof.
  intros He. destruct e; cbn [step].
  - apply quiet_one, quiet_frame. unfold tables_frame. split_and!; try done. by left.
  - apply quiet_one, quiet_frame. unfold tables_frame. split_and!; try done. by left.
  - by apply send_one.
  - apply run_task_one.
  - apply quiet_one, quiet_listen.
  - apply async_done_one.
  - apply poll_one.
Qed.

Definition reachable (s : pg_agent) : Prop := exists name rank size gathered s0 l,
  0 <= size <= 32767 /\ ProcessGroupAgent_construct name rank size gathered = Ret s0 /\
  Forall event_ok l /\ Z.of_nat (length l) < 2 ^ 63 - 1 /\ s = run_events l s0.

Lemma run_inv l : forall s n, Forall event_ok l -> agent_inv s -> 0 <= nextId_ s <= n ->
  n + Z.of_nat (length l) <= 2 ^ 63 - 1 -> agent_inv (run_events l s).
Proof.
  induction l as [|e l IH]; intros s n Hok Hinv Hn Hl; [done|]. apply Forall_cons in Hok as [He Hok].
  cbn [length] in Hl. destruct (step_one e s He Hinv) as [Hinv' Hn']; [lia|].
  apply (IH (step e s) (n + 1) Hok Hinv'); lia.
Qed.
Lemma agent_reachable_inv s : reachable s -> agent_inv s.
Proof.
  intros (name & rank & size & gathered & s0 & l & Hsize & E & Hok & Hl & ->).
  destruct (construct_inv _ _ _ _ _ Hsize E) as [Hinv Hn]. apply (run_inv l s0 0); [done..|lia|lia].
Qed.

(** A completed future keeps its result. *)
Definition settled (s s' : pg_agent) : Prop :=
  forall f r, jitFutures s !! f = Some (Some r) -> jitFutures s' !! f = Some (Some r).
#[local] Instance settled_preorder : PreOrder settled.
Proof. split; [by intros s f r|]. intros s1 s2 s3 H1 H2 f r H. by apply H2, H1. Qed.
Lemma settled_modify g : (forall s, jitFutures (g s) = jitFutures s) -> follows settled (modify g).
Proof. intros H s f r. cbn. by rewrite H. Qed.
Lemma settled_complete f r : follows settled (complete_future f r).
Proof.
  intros s f' r' H. unfold complete_future, bind, gets. destruct (jitFutures s !! f) as [[]|] eqn:E; [done| |done].
  cbn. rewrite list_lookup_insert_ne; [done|]. intros ->. congruence.
Qed.
Lemma settled_new r : follows settled (new_future r).
Proof. intros s f r' H. cbn. by apply lookup_app_l_Some. Qed.

Ltac settled_tac := repeat first
  [ follows_step | apply settled_complete | apply settled_new | by apply settled_modify
  | apply follows_try; [apply _| |intros ?] ].
Lemma settled_mark id msg : follows settled (markFutureWithError id msg).
Proof. unfold markFutureWithError, erase_future. settled_tac. Qed.
Lemma settled_send now to m t : follows settled (send rpcTimeout now to m t).
Proof. unfold send, register, route, workerInfo_at. settled_tac. Qed.
Lemma settled_handleSend to m : follows settled (handleSend wireSerialize pg_send to m).
Proof. unfold handleSend. settled_tac. Qed.
Lemma settled_count from : follows settled (count_recv from).
Proof. unfold count_recv. settled_tac. Qed.
Lemma settled_respond now to id r : follows settled (respond rpcTimeout now to id r).
Proof. unfold respond. apply follows_bind; [apply _|apply settled_send|intros ?; settled_tac]. Qed.
Lemma settled_task now k : follows settled (run_task wireSerialize wireDeserialize pg_send rpcTimeout cb now k).
Proof.
  unfold run_task, run_send, run_self, run_recv, handleRecv, erase_future, getWorkerInfo.
  settled_tac; first [apply settled_handleSend | apply settled_mark | apply settled_count | apply settled_respond].
Qed.
Lemma settled_take_due now times : follows settled (take_due now times).
Proof.
  assert (H : forall ids, follows settled (take_futures ids)).
  { intros ids. induction ids as [|id ids IH]; cbn [take_futures]; settled_tac. exact IH. }
  induction times as [|t times IH]; cbn [take_due]; settled_tac; [apply H|exact IH].
Qed.
Lemma settled_step e : forall s, settled s (step e s).
Proof.
  destruct e; cbn [step]; match goal with |- forall s, settled s (snd (?m s)) => change (follows settled m) end.
  - unfold agent_start, startImpl. settled_tac.
  - unfold agent_shutdown, shutdownImpl. settled_tac.
  - apply settled_send.
  - apply settled_task.
  - unfold listen, workerInfo_at. settled_tac.
  - unfold async_done, getWorkerInfo. settled_tac. apply settled_respond.
  - unfold pollTimedOutRPCs, processTimedOutFutures, time_out. settled_tac; first [apply settled_take_due|apply settled_count].
Qed.
Lemma settled_run l : forall s, settled s (run_events l s).
Proof.
  induction l as [|e l IH]; intros s; [done|]. cbn. etrans; [apply settled_step|apply IH].
Qed.

(** *** What the time-out thread guarantees *)

Lemma min_end_time_le m t ids : m !! t = Some ids -> min_end_time m <= t.
Proof.
  unfold min_end_time. revert t ids. apply (map_fold_weak_ind (fun acc m => forall t ids, m !! t = Some ids -> acc <= t)).
  - intros t ids. by rewrite lookup_empty.
  - intros t0 ids0 m0 acc _ IH t ids [[<- _]|[_ H]]%lookup_insert_Some; [lia|]. specialize (IH t ids H). lia.
Qed.
Lemma min_end_time_in m : min_end_time m = kInfiniteTimeoutTimePoint \/ is_Some (m !! min_end_time m).
Proof.
  unfold min_end_time.
  apply (map_fold_weak_ind (fun acc m => acc = kInfiniteTimeoutTimePoint \/ is_Some (m !! acc))); [by left|].
  intros t ids m0 acc _ IH. destruct (Z.min_spec t acc) as [[_ ->]|[_ ->]].
  - right. rewrite lookup_insert_eq. by eexists.
  - destruct IH as [IH|[x Hx]]; [by left|right]. destruct (decide (t = acc)) as [->|]; [rewrite lookup_insert_eq|rewrite lookup_insert_ne by done]; by eexists.
Qed.

Definition due (now : Z) (info : FutureInfo) : bool := endTime_ info <=? now.
(** The requests to [dst] that are due. *)
Definition due_to (now dst : Z) (m : gmap Z FutureInfo) : nat :=
  size (filter (fun e => due now e.2 = true /\ dstRank_ e.2 = dst) m).

(** Exactly the requests that are due are completed with the time-out error,
    leave the table and are counted as received. *)
Record times_out (now : Z) (s s' : pg_agent) : Prop := {
  to_due : forall id info, futures_ s !! id = Some info -> due now info = true ->
    futures_ s' !! id = None /\ jitFutures s' !! future_ info = Some (Some (FError (timeout_error (timeout_ info))));
  to_table : forall id info, futures_ s' !! id = Some info <-> futures_ s !! id = Some info /\ due now info = false;
  to_others : forall f, (forall id info, futures_ s !! id = Some info -> due now info = true -> future_ info <> f) ->
    jitFutures s' !! f = jitFutures s !! f;
  to_counts : forall dst, 0 <= dst ->
    recvCounts_ s' !! Z.to_nat dst = Nat.iter (due_to now dst (futures_ s)) (fun c => int64 (c + 1)) <$> recvCounts_ s !! Z.to_nat dst;
}.

Lemma foldl_count infos : forall l dst, 0 <= dst -> Forall (fun info => 0 <= dstRank_ info) infos ->
  foldl (fun l info => count (dstRank_ info) l) l infos !! Z.to_nat dst =
  Nat.iter (length (filter (fun info => dstRank_ info = dst) infos)) (fun c => int64 (c + 1)) <$> l !! Z.to_nat dst.
Proof.
  induction infos as [|info infos IH]; intros l dst Hd Hpos; cbn [foldl]; [by destruct (l !! Z.to_nat dst)|].
  apply Forall_cons in Hpos as [Hp Hpos]. rewrite IH by done. rewrite filter_cons. unfold count.
  destruct (decide (dstRank_ info = dst)) as [->|Hne]; [|by rewrite list_lookup_alter_ne by lia].
  rewrite list_lookup_alter_eq. destruct (l !! Z.to_nat dst) as [c|]; [|done]. cbn [fmap option_fmap option_map length].
  by rewrite Nat.iter_succ_r.
Qed.

Lemma due_count lost now dst infos s : tables lost s -> NoDup (map future_ infos) ->
  (forall info, info ∈ infos <-> exists id, futures_ s !! id = Some info /\ endTime_ info <= now) ->
  length (filter (fun info => dstRank_ info = dst) infos) = due_to now dst (futures_ s).
Proof.
  intros Ht Hnd Hin. unfold due_to. rewrite <- length_map_to_list, <- (length_fmap snd (map_to_list _)).
  apply Permutation_length, NoDup_Permutation.
  - apply NoDup_filter. by apply (NoDup_fmap_1 future_).
  - apply NoDup_fmap_2_strong; [|apply NoDup_map_to_list]. intros [k1 i1] [k2 i2] H1 H2 E. cbn in E. subst i2.
    apply elem_of_map_to_list, map_lookup_filter_Some in H1 as [H1 _], H2 as [H2 _].
    by rewrite (tb_distinct _ _ Ht k1 k2 i1 i1 H1 H2 eq_refl).
  - intros info. rewrite list_elem_of_filter, Hin. split.
    + intros [Hd (id & Hi & Hle)]. apply list_elem_of_fmap. exists (id, info). split; [done|].
      apply elem_of_map_to_list, map_lookup_filter_Some. split; [done|]. cbn. split; [|done]. unfold due. by apply Z.leb_le.
    + intros ([id i] & -> & H)%list_elem_of_fmap. apply elem_of_map_to_list, map_lookup_filter_Some in H as [Hi [Hd Hr]].
      cbn in *. split; [done|]. exists id. split; [done|]. by apply Z.leb_le.
Qed.

Lemma process_times_out now s : agent_inv s ->
  exists s', (let! infos := processTimedOutFutures now in for_each infos time_out) s = (Ret tt, s') /\ agent_inv s' /\
    times_out now s s'.
Proof.
  intros Hinv. destruct (process_ok now s Hinv) as (infos & s' & E & Hinv' & Hnd & Hin & Hdone & Hsame & Hf & Hr & _).
  exists s'. split; [done|]. split; [done|]. destruct Hinv as [_ Ht].
  assert (Hdue : forall id info, futures_ s !! id = Some info -> due now info = true -> info ∈ infos).
  { intros id info Hi Hd. apply Hin. exists id. split; [done|]. by apply Z.leb_le. }
  split.
  - intros id info Hi Hd. split; [|by eapply Hdone, Hdue]. destruct (futures_ s' !! id) as [i|] eqn:E'; [|done].
    apply Hf in E' as [Hi' Hlt]. assert (i = info) as -> by congruence. apply Z.leb_le in Hd. lia.
  - intros id info. rewrite Hf. unfold due. by rewrite Z.leb_gt.
  - intros f Hno. apply Hsame. intros (info & -> & (id & Hi & Hle)%Hin)%list_elem_of_fmap.
    apply (Hno id info Hi); [by apply Z.leb_le|done].
  - intros dst Hd. rewrite Hr, foldl_count; [|done|].
    + by rewrite (due_count [] now dst infos s Ht Hnd Hin).
    + apply Forall_forall. intros info (id & Hi & _)%Hin. by apply (tb_futures _ _ Ht id info Hi).
Qed.

Lemma nothing_due now s : (forall id info, futures_ s !! id = Some info -> now < endTime_ info) -> times_out now s s.
Proof.
  intros H. assert (Hd : forall id info, futures_ s !! id = Some info -> due now info = false).
  { intros id info Hi. apply Z.leb_gt. by eapply H. }
  split.
  - intros id info Hi E. by rewrite (Hd id info Hi) in E.
  - intros id info. naive_solver.
  - done.
  - intros dst _. assert (due_to now dst (futures_ s) = 0%nat) as ->.
    { unfold due_to. apply map_size_empty_iff, map_empty_filter. intros id info Hi [E _]. cbn in E.
      by rewrite (Hd id info Hi) in E. }
    cbn. by destruct (recvCounts_ s !! Z.to_nat dst).
Qed.

(** The thread waits, wakes up with the bound it waited for, and so on. *)
Fixpoint poll_wakes (n : nat) (now minEndTime : Z) : op (option Z) :=
  match n with
  | O => ret (Some minEndTime)
  | S n =>
      let! next := pollTimedOutRPCs now minEndTime in
      match next with None => ret None | Some next => poll_wakes n now next end
  end.

Lemma later_than lost now s : tables lost s -> now < min_end_time (futureTimeouts_ s) ->
  forall id info, futures_ s !! id = Some info -> now < endTime_ info.
Proof.
  intros Ht Hlt id info Hi. destruct (tb_futures _ _ Ht id info Hi) as (_ & _ & _ & ids & Hids & _).
  apply min_end_time_le in Hids. lia.
Qed.
Lemma min_end_time_later lost now s : tables lost s -> now < kInfiniteTimeoutTimePoint ->
  (forall id info, futures_ s !! id = Some info -> now < endTime_ info) -> now < min_end_time (futureTimeouts_ s).
Proof.
  intros Ht Hinf Hall. destruct (min_end_time_in (futureTimeouts_ s)) as [->|[ids Hids]]; [done|].
  destruct (tb_timeouts _ _ Ht _ _ Hids) as [Hne Hin]. apply set_choose_L in Hne as [id Hid].
  destruct (Hin id Hid) as (info & Hi & <-). by eapply Hall.
Qed.

(** Nothing is due: the thread waits on. *)
Lemma poll_waits now m s : timeoutThreadEnabled_ s = true -> now < min_end_time (futureTimeouts_ s) ->
  now < m \/ m = kInfiniteTimeoutTimePoint -> now < kInfiniteTimeoutTimePoint ->
  exists next, pollTimedOutRPCs now m s = (Ret (Some next), s) /\ now < next.
Proof.
  intros He Hm Hlt Hinf. unfold pollTimedOutRPCs, bind, gets, ret. rewrite He. cbn [negb].
  destruct (Z.ltb_spec (min_end_time (futureTimeouts_ s)) m); [by eexists|].
  destruct Hlt as [Hlt|Hm'].
  - rewrite (proj2 (Z.ltb_lt now m) Hlt). cbn [orb]. by eexists.
  - rewrite (proj2 (Z.eqb_eq m kInfiniteTimeoutTimePoint) Hm'), orb_true_r. exists m. split; [done|lia].
Qed.

Definition same_enabled (s s' : pg_agent) : Prop := timeoutThreadEnabled_ s' = timeoutThreadEnabled_ s.
#[local] Instance same_enabled_preorder : PreOrder same_enabled.
Proof. split; [done|]. unfold same_enabled. intros s1 s2 s3 H1 H2. congruence. Qed.
Lemma process_same_enabled now : follows same_enabled (let! infos := processTimedOutFutures now in for_each infos time_out).
Proof.
  assert (Hm : forall g : pg_agent -> pg_agent, (forall s, same_enabled s (g s)) -> follows same_enabled (modify g)) by (intros g Hg s; apply Hg).
  assert (Hf : forall ids, follows same_enabled (take_futures ids)).
  { intros ids. induction ids as [|id ids IH]; cbn [take_futures]; repeat first [done|follows_step|by apply Hm]. }
  assert (Hd : forall times, follows same_enabled (take_due now times)).
  { intros times. induction times as [|t times IH]; cbn [take_due]; repeat first [done|follows_step|by apply Hm|apply Hf]. }
  unfold processTimedOutFutures, time_out, complete_future, count_recv. repeat first [follows_step|by apply Hm|apply Hd].
Qed.

(** An iteration that waited for no more than the earliest end time. *)
Lemma poll_once now m s : agent_inv s -> timeoutThreadEnabled_ s = true -> now < kInfiniteTimeoutTimePoint ->
  m <= min_end_time (futureTimeouts_ s) ->
  exists next s', pollTimedOutRPCs now m s = (Ret (Some next), s') /\ now < next /\ agent_inv s' /\
    timeoutThreadEnabled_ s' = true /\ times_out now s s'.
Proof.
  intros Hinv He Hinf Hle. destruct (decide (now < m \/ m = kInfiniteTimeoutTimePoint)) as [Hw|Hw].
  - assert (Hlt : now < min_end_time (futureTimeouts_ s)) by lia.
    destruct (poll_waits now m s He Hlt Hw Hinf) as (n1 & E1 & H1). exists n1, s. split_and!; try done.
    eapply nothing_due, later_than; [apply Hinv|done].
  - destruct (process_times_out now s Hinv) as (s' & E & Hinv' & Hto).
    eexists _, s'. rewrite (poll_due now m s He Hle ltac:(lia) ltac:(lia) s' E). split; [done|].
    split; [|split; [done|split; [|done]]].
    + eapply min_end_time_later; [apply Hinv'|done|]. intros id info [_ Hi]%(to_table _ _ _ Hto). by apply Z.leb_gt.
    + rewrite <- He. exact (follows_run same_enabled _ s _ s' E (process_same_enabled now)).
Qed.

Lemma two_wakes now m s : agent_inv s -> timeoutThreadEnabled_ s = true -> now < kInfiniteTimeoutTimePoint ->
  exists next s', poll_wakes 2 now m s = (Ret (Some next), s') /\ now < next /\ agent_inv s' /\ times_out now s s'.
Proof.
  intros Hinv He Hinf. cbn [poll_wakes]. unfold bind. destruct (Z.lt_ge_cases (min_end_time (futureTimeouts_ s)) m) as [Hlt|Hge].
  - assert (pollTimedOutRPCs now m s = (Ret (Some (min_end_time (futureTimeouts_ s))), s)) as ->.
    { unfold pollTimedOutRPCs, bind, gets, ret. rewrite He. cbn [negb]. by rewrite (proj2 (Z.ltb_lt _ m) Hlt). }
    destruct (poll_once now _ s Hinv He Hinf (Z.le_refl _)) as (next & s' & -> & Hn & Hinv' & _ & Hto).
    by exists next, s'.
  - destruct (poll_once now m s Hinv He Hinf Hge) as (n1 & s' & -> & H1 & Hinv' & He' & Hto).
    assert (Hlt' : now < min_end_time (futureTimeouts_ s')).
    { eapply min_end_time_later; [apply Hinv'|done|]. intros id info [_ Hi]%(to_table _ _ _ Hto). by apply Z.leb_gt. }
    destruct (poll_waits now n1 s' He' Hlt' (or_introl H1) Hinf) as (n2 & -> & H2). by exists n2, s'.
Qed.

(** ** What the tables promise *)


(** Two wake-ups of the time-out thread of ProcessGroupAgent, whatever
    bound it waited for, deal exactly with the requests that are due: each is
    completed with the time-out error, leaves the table and is counted once as
    received from its destination, every other future and entry is as before,
    and the bound of the next wait is later than now. *)
Theorem pg_timeouts_exact (s : pg_agent) (now minEndTime : Z) : reachable s -> timeoutThreadEnabled_ s = true ->
  now < kInfiniteTimeoutTimePoint ->
  exists next s', poll_wakes 2 now minEndTime s = (Ret (Some next), s') /\ now < next /\ times_out now s s'.
Proof.
  intros Hinv%agent_reachable_inv He Hinf.
  destruct (two_wakes now minEndTime s Hinv He Hinf) as (next & s' & E & H1 & _ & H2). by exists next, s'.
Qed.

(** In every reachable state a response for a request in the table
    completes its future, with the response or the error it carries, and is
    counted as received; a response whose request is gone (it timed out, or the
    response came twice) changes nothing and is not counted.  A completed
    future keeps its result through everything that happens later. *)
Theorem pg_response_once (s : pg_agent) (now : Z) (from : WorkerInfo) (p : packet) (data : bytes * list T) (l : list event) :
  reachable s -> wireDeserialize (p_payload p) = Ret data ->
  let m := mkMessage T data.1 data.2 (p_type p) (p_id p) in
  isRequest m = false -> isResponse m = true ->
  exists s', handleRecv wireDeserialize rpcTimeout cb now from p s = (Ret (bool_decide (is_Some (futures_ s !! p_id p))), s') /\
    (forall info, futures_ s !! p_id p = Some info ->
       futures_ s' = delete (p_id p) (futures_ s) /\
       jitFutures s' = <[future_ info := Some (if bool_decide (p_type p = EXCEPTION) then FError data.1 else FValue (Some m))]> (jitFutures s)) /\
    (futures_ s !! p_id p = None -> s' = s) /\
    (forall f r, jitFutures s' !! f = Some (Some r) -> jitFutures (run_events l s') !! f = Some (Some r)).
Proof.
  intros [Hc Ht]%agent_reachable_inv Hdata m Hreq Hresp.
  unfold handleRecv, lift, bind at 1. rewrite Hdata. cbn zeta. fold m. rewrite Hreq, Hresp.
  unfold bind at 1, gets. cbn [id_ m]. destruct (futures_ s !! p_id p) as [info|] eqn:Hi.
  - set (r := if bool_decide _ then _ else _).
    destruct (finish_ok [] (p_id p) info r s Ht Hi) as (s' & E & _ & Ej & Ef & _).
    exists s'. split.
    + revert E. unfold bind, modify, ret. destruct (erase_future (p_id p) info s) as [[f| |] s1]; [|done..].
      destruct (complete_future f r _) as [[u| |] s2]; [|done..]. intros [= _ <-]. rewrite bool_decide_true by (by eexists). done.
    + split; [by intros i [= <-]|]. split; [done|]. intros f r'. apply settled_run.
  - exists s. split; [by rewrite bool_decide_false by (by intros [])|]. split; [done|]. split; [done|].
    intros f r'. apply settled_run.
Qed.
End runs.
End agent.

(** ** Witnesses *)

Module Example_agent.
Definition ser (b : bytes) (_ : list unit) : outcome bytes := Ret b.
Definition de (b : bytes) : outcome (bytes * list unit) := Ret (b, []).
Definition net_ok (_ : Z) (_ : packet) : option exn := None.
Definition call : Message unit := mkMessage unit (str "f") [] PYTHON_CALL 0.
Definition reply (m : Message unit) : cb_result (T := unit) := CbDone (inl (mkMessage unit (str "r") [] PYTHON_RET (id_ m))).
Definition names : list bytes := [nameTensor (str "a"); nameTensor (str "b")].
Definition worker (rank : Z) : outcome (pg_agent (T := unit)) :=
  ProcessGroupAgent_construct (if rank =? 0 then str "a" else str "b") rank 2 names.
Definition get {A} (d : A) (o : outcome A) : A := match o with Ret a => a | _ => d end.
Definition none : pg_agent (T := unit) := mkPgAgent 0 0 ∅ [] false None 0 ∅ ∅ false [] 0 0 0 [] [] [] [] [].
Definition w0 : pg_agent (T := unit) := get none (worker 0).
Abbreviation run := (run_events ser de 60000 net_ok reply).
(** Two requests to worker 1, the second without a time-out; both are sent. *)
Definition events1 : list (event (T := unit)) :=
  [EStart; ESend 5 (mkWorkerInfo (str "b") 1) call None; ESend 6 (mkWorkerInfo (str "b") 1) call (Some 0); ETask 7 0; ETask 8 0].
Definition response (id : Z) : packet := mkPacket PYTHON_RET id (str "r").

Lemma worker_ok : worker 0 = Ret w0.
Proof. vm_compute. reflexivity. Qed.
Lemma reachable1 : reachable ser de 60000 net_ok reply (run events1 w0).
Proof.
  exists (str "a"), 0, 2, names, w0, events1. split; [lia|]. split; [exact worker_ok|].
  split; [repeat constructor; cbn; lia|]. split; [cbn; lia|reflexivity].
Qed.
End Example_agent.
Import Example_agent.


Lemma pg_timeouts_exact_witness : exists next s',
  poll_wakes 2 (10 ^ 12) kInfiniteTimeoutTimePoint (run events1 w0) = (Ret (Some next), s') /\
  10 ^ 12 < next /\ times_out (10 ^ 12) (run events1 w0) s'.
Proof.
  apply (pg_timeouts_exact ser de 60000 net_ok reply (run events1 w0) (10 ^ 12) kInfiniteTimeoutTimePoint reachable1);
    [vm_compute; reflexivity|unfold kInfiniteTimeoutTimePoint; lia].
Defined.

Lemma pg_response_once_witness : exists s',
  handleRecv de 60000 reply 9 (mkWorkerInfo (str "b") 1) (response 1) (run events1 w0) = (Ret true, s') /\
  jitFutures s' !! 0%nat = Some (Some (FValue (Some (mkMessage unit (str "r") [] PYTHON_RET 1)))).
Proof.
  destruct (pg_response_once ser de 60000 net_ok reply (run events1 w0) 9 (mkWorkerInfo (str "b") 1) (response 1)
    (str "r", []) [] reachable1 eq_refl eq_refl eq_refl) as (s' & E & H & _).
  exists s'. split; [rewrite E; vm_compute; reflexivity|].
  destruct (H (mkFutureInfo 0 (5 + 60000 * 10 ^ 6) 1 60000)) as [_ ->]; vm_compute; reflexivity.
Defined.
