(* ===== verification/SyncDetection.v ===== *)
(** * Detecting that no message is left

    Models sync() of csrc/c10d/distributed/rpc/process_group_agent.cpp over a
    process group: the agents of ProcessGroupAgent.v, the messages under way
    between them, threadPool_.waitWorkComplete() and the snapshots of the
    counters that hasPendingMessage compares after its allgather.

    A step of a cluster is a step of one agent, the arrival of one message, or
    one of the two reads of sync() at one agent, or the end of the wait of join() after it; messages may overtake each
    other.  Requests do not time out here and the process group does not fail. *)

From stdpp Require Import base option list gmap sets strings.
From Stdlib Require Import ZArith Lia.
From S2P Require Import Prelude Decimal RpcTypes Wire RpcAgent ProcessGroupAgent.
Import Decimal.

Section sync.
Context {T : Type}.
Variable wireSerialize : bytes -> list T -> outcome bytes.
Variable wireDeserialize : bytes -> outcome (bytes * list T).
Variable rpcTimeout : Z.
Variable cb : Message T -> cb_result (T := T).

Abbreviation worker := (pg_agent (T := T)).
Abbreviation op A := (M worker A).
Definition pg_send_ok (_ : Z) (_ : packet) : option exn := None.
Abbreviation local_step := (step wireSerialize wireDeserialize rpcTimeout pg_send_ok cb).

(** ** Clusters *)

Record cluster := mkCluster {
  agents : list worker;
  net : list (nat * (Z * packet));   (* sender, destination, message *)
  waited : list bool;   (* waitWorkComplete() has returned *)
  snaps : list (option (list Z));
  joined : list bool;   (* the wait of join() is over *)
}.

Inductive cluster_event : Type :=
  | CLocal (i : nat) (e : event (T := T))
  | CDeliver (k : nat)
  | CWait (i : nat)
  | CSnapshot (i : nat)
  | CJoin (i : nat).

Definition exec (e : cluster_event) (c : cluster) : cluster :=
  match e with
  | CLocal i e =>
      match agents c !! i with
      | None => c
      | Some s =>
          let s' := local_step e s in
          mkCluster (<[i := upd_outgoing (fun _ => []) s']> (agents c)) (net c ++ map (pair i) (outgoing s')) (waited c) (snaps c) (joined c)
      end
  | CDeliver k =>
      match net c !! k with
      | None => c
      | Some (src, (dst, p)) =>
          match agents c !! Z.to_nat dst with
          | None => c
          | Some s =>
              mkCluster (<[Z.to_nat dst := snd (listen (Z.of_nat src) p s)]> (agents c)) (delete k (net c)) (waited c) (snaps c) (joined c)
          end
      end
  | CWait i => mkCluster (agents c) (net c) (<[i := true]> (waited c)) (snaps c) (joined c)
  | CJoin i => mkCluster (agents c) (net c) (waited c) (snaps c) (<[i := true]> (joined c))
  | CSnapshot i =>
      match agents c !! i with
      | None => c
      | Some s => mkCluster (agents c) (net c) (waited c) (<[i := Some (snapshot s)]> (snaps c)) (joined c)
      end
  end.

(** No task is queued, and no request is processed asynchronously. *)
Definition idle (s : worker) : Prop := threadPool_ s = [].
Definition passive (s : worker) : Prop := threadPool_ s = [] /\ asyncCalls s = [].

(** The snapshots that the allgather distributes. *)
Definition gathered_snaps (c : cluster) : list (list Z) := map (default []) (snaps c).
(** What sync() concludes, and what it should mean. *)
Definition sync_done (c : cluster) : Prop :=
  (forall i, (i < length (agents c))%nat -> exists x, snaps c !! i = Some (Some x)) /\ hasPendingMessage (length (agents c)) (gathered_snaps c) = false.
Definition quiescent (c : cluster) : Prop :=
  net c = [] /\ forall i s, agents c !! i = Some s -> passive s.

(** When an event can happen: once waitWorkComplete() has returned, which it
    does with an empty pool, the application sends nothing; the handlers of an
    agent that is not passive may.  join() goes on after sync() when its agent
    waits for no response. *)
Definition allowed (c : cluster) (e : cluster_event) : Prop :=
  match e with
  | CLocal i (ESend _ to _ _) => 0 <= worker_id_ to /\
      (waited c !! i = Some false \/ exists s, agents c !! i = Some s /\ ~ passive s)
  | CLocal i (ETask _ _) | CLocal i (EAsyncDone _ _ _) => True
  | CLocal _ _ => False
  | CDeliver _ => True
  | CWait i => exists s, agents c !! i = Some s /\ idle s
  | CSnapshot i => waited c !! i = Some true /\ snaps c !! i = Some None
  | CJoin i => sync_done c /\ exists s, agents c !! i = Some s /\ join_ready s = true
  end.

Fixpoint cluster_run (l : list cluster_event) (c : cluster) : cluster :=
  match l with [] => c | e :: l => cluster_run l (exec e c) end.
(** Every event of the run satisfies [P] where it happens. *)
Fixpoint along (P : cluster -> cluster_event -> Prop) (l : list cluster_event) (c : cluster) : Prop :=
  match l with [] => True | e :: l => P c e /\ along P l (exec e c) end.

(** The agent is passive when its counters are read. *)
Definition snapshot_passive (c : cluster) (e : cluster_event) : Prop :=
  match e with CSnapshot i => exists s, agents c !! i = Some s /\ passive s | _ => True end.

(** [n] agents that were just constructed and started. *)
Record initial (n : nat) (c : cluster) : Prop := {
  in_agents : length (agents c) = n;
  in_agent : forall i s, agents c !! i = Some s -> exists name gathered s0,
    ProcessGroupAgent_construct name (Z.of_nat i) (Z.of_nat n) gathered = Ret s0 /\ s = snd (agent_start s0);
  in_net : net c = [];
  in_waited : waited c = replicate n false;
  in_snaps : snaps c = replicate n None;
  in_joined : joined c = replicate n false;
}.

(** ** What one step does to the counters and queues *)

#[local] Set Warnings "-clear-no-such-hyp".
#[local] Set Default Proof Using "Type".
#[local] Set Proof Using Clear Unused.

Definition recv_from (i : Z) (t : task (T := T)) : bool :=
  match t with TRecv from _ => worker_id_ from =? i | _ => false end.
(** The messages of [i] in the pool, and those on their way from [i] to [j]. *)
Definition queued (s : worker) (i : Z) : nat := length (filter (fun t => recv_from i t = true) (threadPool_ s)).
Definition in_flight (l : list (nat * (Z * packet))) (i : nat) (j : Z) : nat :=
  length (filter (fun e => e.1 = i /\ e.2.1 = j) l).

(** Counters, messages sent and messages received stay. *)
Definition calm (s s' : worker) : Prop :=
  rank_ s' = rank_ s /\ sendCounts_ s' = sendCounts_ s /\ recvCounts_ s' = recvCounts_ s /\
  allWorkerInfo_ s' = allWorkerInfo_ s /\ outgoing s' = outgoing s /\ forall i, queued s' i = queued s i.
#[local] Instance calm_preorder : PreOrder calm.
Proof.
  split; [by repeat split|]. intros s1 s2 s3 (A1&A2&A3&A4&A5&A6) (B1&B2&B3&B4&B5&B6). unfold calm.
  rewrite B1, B2, B3, B4, B5. split_and!; try done. intros i. by rewrite B6.
Qed.
Lemma calm_modify g : (forall s, calm s (g s)) -> follows calm (modify g).
Proof. intros H s. apply H. Qed.
Lemma calm_complete f r : follows calm (complete_future f r).
Proof. unfold complete_future. repeat first [follows_step|by apply calm_modify]. Qed.

Lemma queued_app s t i : is_recv t = false -> queued (upd_threadPool_ (fun l => l ++ [t]) s) i = queued s i.
Proof.
  intros Ht. unfold queued. cbn. rewrite filter_app, length_app, filter_cons_False, filter_nil; [cbn; lia|].
  by destruct t.
Qed.
Lemma calm_enqueue t : is_recv t = false -> follows calm (modify (upd_threadPool_ (fun l => l ++ [t]))).
Proof. intros Ht s. unfold calm. split_and!; try done. intros i. by apply queued_app. Qed.

Ltac calm_tac := repeat first [ follows_step | by apply calm_modify | apply calm_complete | by apply calm_enqueue ].
Lemma calm_erase id info : follows calm (erase_future id info).
Proof. unfold erase_future. calm_tac. Qed.
Lemma calm_mark id msg : follows calm (markFutureWithError (T := T) id msg).
Proof. unfold markFutureWithError. calm_tac. apply calm_erase. Qed.
Lemma calm_send now to m t : follows calm (send rpcTimeout now to m t).
Proof. unfold send, new_future, register, route, workerInfo_at. calm_tac. Qed.
Lemma calm_respond now to id r : follows calm (respond rpcTimeout now to id r).
Proof. unfold respond. apply follows_bind; [apply _|apply calm_send|intros ?; calm_tac]. Qed.
Lemma calm_handleRecv now from p : follows calm (handleRecv wireDeserialize rpcTimeout cb now from p).
Proof. unfold handleRecv. calm_tac; first [apply calm_respond|apply calm_erase]. Qed.
Lemma calm_async now k r : follows calm (async_done rpcTimeout now k r).
Proof. unfold async_done, getWorkerInfo. calm_tac. apply calm_respond. Qed.

(** A counter of one peer. *)
Definition cnt (l : list Z) (i : Z) : Z := nth (Z.to_nat i) l 0.
Definition outs (s : worker) (j : Z) : Z := Z.of_nat (length (filter (fun o => o.1 = j) (outgoing s))).
Definition owed (s : worker) (i : Z) : Z := cnt (recvCounts_ s) i + Z.of_nat (queued s i).
Definition excess (s : worker) (j : Z) : Z := outs s j - cnt (sendCounts_ s) j.
(** No counter is about to wrap. *)
Definition small (s : worker) : Prop :=
  Forall (fun c => 0 <= c < 2 ^ 63 - 1) (sendCounts_ s) /\ Forall (fun c => 0 <= c < 2 ^ 63 - 1) (recvCounts_ s).

(** What a step of an agent does to its accounts: what it was sent is received
    or queued at most once, and what it sends is counted. *)
Record effect (s s' : worker) : Prop := {
  ef_rank : rank_ s' = rank_ s;
  ef_infos : allWorkerInfo_ s' = allWorkerInfo_ s;
  ef_lengths : length (sendCounts_ s') = length (sendCounts_ s) /\ length (recvCounts_ s') = length (recvCounts_ s);
  ef_send : forall j, 0 <= j -> cnt (sendCounts_ s) j <= cnt (sendCounts_ s') j <= cnt (sendCounts_ s) j + 1;
  ef_recv : forall i, 0 <= i -> cnt (recvCounts_ s) i <= cnt (recvCounts_ s') i;
  ef_owed : forall i, 0 <= i -> i <> rank_ s -> owed s' i <= owed s i;
  ef_excess : forall j, 0 <= j -> j <> rank_ s -> excess s' j <= excess s j;
  ef_self : owed s' (rank_ s) + excess s' (rank_ s) <= owed s (rank_ s) + excess s (rank_ s);
  ef_dst : (forall o, o ∈ outgoing s -> 0 <= o.1 < Z.of_nat (length (sendCounts_ s))) ->
    forall o, o ∈ outgoing s' -> 0 <= o.1 < Z.of_nat (length (sendCounts_ s));
}.

Lemma calm_effect s s' : 0 <= rank_ s -> calm s s' -> effect s s'.
Proof.
  intros Hr (E1 & E2 & E3 & E4 & E5 & E6).
  assert (Ho : forall i, owed s' i = owed s i) by (intros i; unfold owed; by rewrite E3, E6).
  assert (Hx : forall j, excess s' j = excess s j) by (intros j; unfold excess, outs; by rewrite E2, E5).
  split; rewrite ?E1, ?E2, ?E3, ?E5; try done; intros; rewrite ?Ho, ?Hx; lia || auto.
Qed.

Lemma increment_inv d l l' : MessageCounter_increment d l = Ret l' ->
  0 <= d < Z.of_nat (length l) /\ l' = count d l.
Proof.
  intros E. assert (Hd : 0 <= d < Z.of_nat (length l)).
  { unfold MessageCounter_increment in E. destruct (l !! Z.to_nat d) eqn:El; [|done].
    apply lookup_lt_Some in El. destruct (Z.leb_spec 0 d); [lia|done]. }
  split; [done|]. rewrite increment_ok in E by done. by injection E.
Qed.
Lemma cnt_count d l i : 0 <= d < Z.of_nat (length l) -> Forall (fun c => 0 <= c < 2 ^ 63 - 1) l -> 0 <= i ->
  cnt (count d l) i = cnt l i + (if i =? d then 1 else 0).
Proof.
  intros Hd Hl Hi. unfold cnt, count. rewrite !nth_lookup. destruct (Z.eqb_spec i d) as [->|Hne].
  - rewrite list_lookup_alter_eq. destruct (lookup_lt_is_Some_2 l (Z.to_nat d)) as [c Hc]; [lia|]. rewrite Hc. cbn.
    rewrite Forall_forall in Hl. assert (0 <= c < 2 ^ 63 - 1) by (apply Hl; by eapply list_elem_of_lookup_2).
    rewrite int64_id; [done|unfold in_int64; lia].
  - rewrite list_lookup_alter_ne by lia. lia.
Qed.

(** One message is counted and handed to the process group. *)
Lemma sent_effect s s' dst p : small s -> 0 <= dst < Z.of_nat (length (sendCounts_ s)) -> 0 <= rank_ s ->
  rank_ s' = rank_ s -> allWorkerInfo_ s' = allWorkerInfo_ s -> recvCounts_ s' = recvCounts_ s ->
  (forall i, queued s' i = queued s i) -> sendCounts_ s' = count dst (sendCounts_ s) ->
  outgoing s' = outgoing s ++ [(dst, p)] -> effect s s'.
Proof.
  intros [Hs _] Hd Hr E1 E2 E3 E4 E5 E6.
  assert (Hc : forall j, 0 <= j -> cnt (sendCounts_ s') j = cnt (sendCounts_ s) j + (if j =? dst then 1 else 0))
    by (intros j Hj; rewrite E5; by apply cnt_count).
  assert (Ho : forall i, owed s' i = owed s i) by (intros i; unfold owed; by rewrite E3, E4).
  assert (Hx : forall j, 0 <= j -> excess s' j = excess s j).
  { intros j Hj. unfold excess. rewrite (Hc j Hj). unfold outs. rewrite E6, filter_app, length_app, filter_cons, filter_nil.
    cbn [fst]. case_decide; destruct (Z.eqb_spec j dst); try congruence; cbn [length]; lia. }
  split; rewrite ?E1, ?E3; try done.
  - split; [|done]. rewrite E5. apply length_alter.
  - intros j Hj. rewrite (Hc j Hj). destruct (j =? dst); lia.
  - intros. by rewrite Ho.
  - intros. by rewrite Hx.
  - rewrite Ho, Hx by done. lia.
  - intros Hall o. rewrite E6. intros [?| ->%list_elem_of_singleton]%elem_of_app; auto.
Qed.

Lemma queued_add_recv s from p i :
  queued (upd_threadPool_ (fun l => l ++ [TRecv from p]) s) i = (queued s i + (if (worker_id_ from =? i)%Z then 1 else 0))%nat.
Proof.
  unfold queued. cbn. rewrite filter_app, length_app, filter_cons, filter_nil. cbn. by destruct (_ =? _).
Qed.

Lemma handleSend_effect to m s : small s -> 0 <= rank_ s ->
  let r := handleSend wireSerialize pg_send_ok to m s in effect s (snd r) /\ (fst r = Ret tt \/ snd r = s).
Proof.
  intros Hs Hr. unfold handleSend, bind, lift, gets, modify, pg_send_ok.
  destruct (wireSerialize _ _) as [b|e| ]; [|split; [by apply calm_effect|by right]..].
  destruct (MessageCounter_increment _ _) as [l|e| ] eqn:E; [|split; [by apply calm_effect|by right]..].
  apply increment_inv in E as [Hd ->]. cbn zeta. split; [|by left].
  by eapply sent_effect.
Qed.

Lemma run_send_effect to m s : small s -> 0 <= rank_ s -> effect s (snd (run_send wireSerialize pg_send_ok to m s)).
Proof.
  intros Hs Hr. unfold run_send, try_catch. destruct (handleSend_effect to m s Hs Hr) as [He Hor].
  destruct (handleSend wireSerialize pg_send_ok to m s) as [[u|e| ] s1]; cbn [fst snd] in *; [done| |done].
  destruct Hor as [?| ->]; [done|].
  assert (H : effect s (snd ((let! rank := gets rank_ in
    let errorStr := str "Encountered exception in ProcessGroupAgent::enqueueSend: " ++ str (what e) ++
      str " on node: " ++ to_string rank in
    let exceptionMsg := createExceptionResponse errorStr (id_ m) in
    if isRequest m then markFutureWithError (id_ m) errorStr
    else if isResponse m then handleSend wireSerialize pg_send_ok to exceptionMsg else ret tt) s))).
  { unfold bind, gets. destruct (isRequest m); [apply calm_effect; [done|]; apply calm_mark|].
    destruct (isResponse m); [by apply handleSend_effect|]. by apply calm_effect. }
  by destruct e.
Qed.

(** The infos are in the order of the ranks. *)
Definition ranked (s : worker) : Prop := forall k info, allWorkerInfo_ s !! k = Some info -> worker_id_ info = Z.of_nat k.

Lemma run_self_effect m s : small s -> ranked s -> 0 <= rank_ s -> effect s (snd (run_self wireSerialize m s)).
Proof.
  intros Hs Hk Hr. unfold run_self, bind at 1, gets at 1. destruct (wireSerialize _ _) as [b|e| ].
  2:{ apply calm_effect; [done|]. apply calm_mark. }
  2:{ by apply calm_effect. }
  unfold bind, gets, lift, modify. destruct (MessageCounter_increment _ _) as [l|e| ] eqn:E; [|by apply calm_effect..].
  apply increment_inv in E as [Hd ->]. set (s1 := upd_sendCounts_ _ s).
  assert (Hc : forall j, 0 <= j -> cnt (sendCounts_ s1) j = cnt (sendCounts_ s) j + (if j =? rank_ s then 1 else 0))
    by (intros j Hj; by apply cnt_count; [|apply Hs|]).
  assert (Hlen : length (sendCounts_ s1) = length (sendCounts_ s)) by apply length_alter.
  assert (Hx : forall j, 0 <= j -> excess s1 j = excess s j - (if j =? rank_ s then 1 else 0)).
  { intros j Hj. unfold excess. rewrite (Hc j Hj). unfold outs. cbn. lia. }
  assert (H1 : effect s s1).
  { assert (Ho : forall i, owed s1 i = owed s i) by done. split; try done.
    - intros j Hj. rewrite (Hc j Hj). destruct (j =? rank_ s); lia.
    - intros j Hj _. rewrite (Hx j Hj). destruct (j =? rank_ s); lia.
    - rewrite Ho, (Hx _ Hr). destruct (rank_ s =? rank_ s); lia. }
  unfold getWorkerInfo, bind, gets. change (allWorkerInfo_ s1) with (allWorkerInfo_ s).
  destruct (allWorkerInfo_ s !! Z.to_nat (rank_ s)) as [info|] eqn:Hi; [|done].
  destruct (0 <=? rank_ s); [|done]. cbn [ret snd]. apply Hk in Hi. rewrite Z2Nat.id in Hi by done.
  set (s2 := upd_threadPool_ _ s1).
  assert (Hq : forall i, owed s2 i = owed s i + (if i =? rank_ s then 1 else 0)).
  { intros i. unfold owed, s2. rewrite queued_add_recv, Hi, (Z.eqb_sym i).
    change (queued s1 i) with (queued s i). change (recvCounts_ (upd_threadPool_ _ s1)) with (recvCounts_ s).
    destruct (rank_ s =? i); lia. }
  assert (Hx2 : forall j, excess s2 j = excess s1 j) by done.
  destruct H1. split; try done.
  - intros i Hpos Hne. rewrite Hq. destruct (Z.eqb_spec i (rank_ s)); [done|lia].
  - rewrite Hq, Hx2, Hx, Z.eqb_refl by done. lia.
Qed.

Lemma calm_small s s' : calm s s' -> small s -> small s'.
Proof. intros (E1 & E2 & E3 & E4 & E5 & E6) [H1 H2]. split; by rewrite ?E2, ?E3. Qed.
Lemma calm_then_effect s1 s2 s3 : calm s1 s2 -> effect s2 s3 -> effect s1 s3.
Proof.
  intros (E1 & E2 & E3 & E4 & E5 & E6) [].
  assert (Ho : forall i, owed s2 i = owed s1 i) by (intros i; unfold owed; by rewrite E3, E6).
  assert (Hx : forall j, excess s2 j = excess s1 j) by (intros j; unfold excess, outs; by rewrite E2, E5).
  split; rewrite <- ?E1, <- ?E2, <- ?E3, <- ?E4, <- ?E5; try done; intros; rewrite <- ?Ho, <- ?Hx; auto.
Qed.

Lemma queued_delete k t s i : threadPool_ s !! k = Some t ->
  queued s i = (queued (upd_threadPool_ (delete k) s) i + (if recv_from i t then 1 else 0))%nat.
Proof.
  intros Hk. unfold queued. cbn. rewrite delete_take_drop. rewrite <- (take_drop_middle (threadPool_ s) k t Hk) at 1.
  rewrite !filter_app, !length_app, filter_cons. case_decide as Hd; [rewrite Hd; cbn [length]; lia|].
  apply not_true_is_false in Hd. rewrite Hd. lia.
Qed.

Lemma received_effect s s' from : small s -> 0 <= rank_ s -> rank_ s' = rank_ s -> allWorkerInfo_ s' = allWorkerInfo_ s ->
  sendCounts_ s' = sendCounts_ s -> outgoing s' = outgoing s ->
  (forall i, queued s i = (queued s' i + (if (from =? i)%Z then 1 else 0))%nat) ->
  recvCounts_ s' = recvCounts_ s \/
    (0 <= from < Z.of_nat (length (recvCounts_ s)) /\ recvCounts_ s' = count from (recvCounts_ s)) -> effect s s'.
Proof.
  intros [_ Hs] Hr E1 E2 E3 E4 Hq Hrec.
  assert (Hc : forall i, 0 <= i -> cnt (recvCounts_ s) i <= cnt (recvCounts_ s') i <= cnt (recvCounts_ s) i + (if i =? from then 1 else 0)).
  { intros i Hi. destruct Hrec as [->|[Hf ->]]; [destruct (i =? from); lia|]. rewrite cnt_count by done. destruct (i =? from); lia. }
  assert (Ho : forall i, 0 <= i -> owed s' i <= owed s i).
  { intros i Hi. unfold owed. rewrite (Hq i). specialize (Hc i Hi). rewrite (Z.eqb_sym i from) in Hc.
    destruct (from =? i); lia. }
  assert (Hx : forall j, excess s' j = excess s j) by (intros j; unfold excess, outs; by rewrite E3, E4).
  split; rewrite ?E1, ?E2, ?E3, ?E4; try done; intros; rewrite ?Hx; try lia; auto.
  - split; [done|]. destruct Hrec as [->|[_ ->]]; [done|apply length_alter].
  - apply Hc. done.
  - specialize (Ho (rank_ s) Hr). lia.
Qed.

Lemma run_recv_result now from p s : exists s2, calm s s2 /\
  let s3 := snd (run_recv wireDeserialize rpcTimeout cb now from p s) in
  s3 = s2 \/ (0 <= worker_id_ from < Z.of_nat (length (recvCounts_ s2)) /\
              s3 = upd_recvCounts_ (fun _ => count (worker_id_ from) (recvCounts_ s2)) s2).
Proof.
  assert (Hcount : forall s2, snd (count_recv (T := T) (worker_id_ from) s2) = s2 \/
    (0 <= worker_id_ from < Z.of_nat (length (recvCounts_ s2)) /\
     snd (count_recv (worker_id_ from) s2) = upd_recvCounts_ (fun _ => count (worker_id_ from) (recvCounts_ s2)) s2)).
  { intros s2. unfold count_recv, bind, gets, lift, modify. destruct (MessageCounter_increment _ _) as [l|e| ] eqn:E; [|by left..].
    apply increment_inv in E as [Hd ->]. by right. }
  exists (snd (handleRecv wireDeserialize rpcTimeout cb now from p s)). split; [apply calm_handleRecv|].
  unfold run_recv, try_catch, bind. destruct (handleRecv _ _ _ now from p s) as [[[]|e|] s2]; cbn [snd fst ret]; [|by left| |by left].
  - specialize (Hcount s2). destruct (count_recv (worker_id_ from) s2) as [[u|e| ] s3] eqn:E; cbn [snd] in *; [done| |done].
    destruct e; try done; unfold count_recv, bind, gets, lift, modify, MessageCounter_increment in E;
      destruct (recvCounts_ s2 !! _); try destruct (0 <=? _); done.
  - destruct e; cbn [snd]; first [by left|apply Hcount].
Qed.

Lemma run_task_effect now k s : small s -> ranked s -> 0 <= rank_ s ->
  effect s (snd (run_task wireSerialize wireDeserialize pg_send_ok rpcTimeout cb now k s)).
Proof.
  intros Hs Hk Hr. unfold run_task, bind, gets, modify. destruct (threadPool_ s !! k) as [t|] eqn:Ht.
  2:{ apply calm_effect; [done|]. unfold calm. split_and!; try done. intros i. unfold queued. cbn.
      rewrite delete_take_drop, take_ge, drop_ge, app_nil_r by (apply lookup_ge_None in Ht; lia). done. }
  set (s1 := upd_threadPool_ (delete k) s). pose proof (fun i => queued_delete k t s i Ht) as Hq. fold s1 in Hq.
  destruct t as [to m|m|from p].
  - apply (calm_then_effect s s1); [|by apply run_send_effect]. unfold calm. split_and!; try done.
    intros i. rewrite (Hq i). cbn. lia.
  - apply (calm_then_effect s s1); [|by apply run_self_effect]. unfold calm. split_and!; try done.
    intros i. rewrite (Hq i). cbn. lia.
  - destruct (run_recv_result now from p s1) as (s2 & (E1 & E2 & E3 & E4 & E5 & E6) & Hor).
    change (snd (run_recv wireDeserialize rpcTimeout cb now from p s1)) with
      (snd (run_recv wireDeserialize rpcTimeout cb now from p s1)) in Hor. cbv zeta in Hor.
    assert (Hlen : recvCounts_ s2 = recvCounts_ s) by (rewrite E3; done).
    destruct Hor as [->|[Hf ->]]; apply (received_effect s _ (worker_id_ from)); try done;
      try (by intros i; rewrite (Hq i), <- (E6 i)); [by left|]. right. rewrite <- Hlen. by split.
Qed.

(** ** Every message is counted where it was sent *)

Definition local_event (e : event (T := T)) : Prop :=
  match e with ESend _ _ _ _ | ETask _ _ | EAsyncDone _ _ _ => True | _ => False end.
Lemma step_effect e s : local_event e -> small s -> ranked s -> 0 <= rank_ s -> effect s (local_step e s).
Proof.
  intros He Hs Hk Hr. destruct e; try done; cbn [step].
  - apply calm_effect; [done|]. apply calm_send.
  - by apply run_task_effect.
  - apply calm_effect; [done|]. apply calm_async.
Qed.

Lemma in_flight_sent l i (o : list (Z * packet)) a j :
  in_flight (l ++ map (pair i) o) a j = (in_flight l a j + (if decide (a = i) then length (filter (fun o => o.1 = j) o) else 0))%nat.
Proof.
  unfold in_flight. rewrite filter_app, length_app. f_equal. induction o as [|[d p] o IH]; cbn [map]; [by case_decide|].
  rewrite !filter_cons. cbn [fst snd]. repeat case_decide; cbn [length]; naive_solver lia.
Qed.
Lemma in_flight_delete l k src dst p a j : l !! k = Some (src, (dst, p)) ->
  in_flight l a j = (in_flight (delete k l) a j + (if decide (a = src /\ j = dst) then 1 else 0))%nat.
Proof.
  intros Hk. unfold in_flight. rewrite delete_take_drop. rewrite <- (take_drop_middle l k _ Hk) at 1.
  rewrite !filter_app, !length_app, filter_cons. cbn [fst snd]. repeat case_decide; cbn [length]; naive_solver lia.
Qed.

Record shape (n i : nat) (s : worker) : Prop := {
  sh_rank : rank_ s = Z.of_nat i;
  sh_ranked : ranked s;
  sh_send : length (sendCounts_ s) = n;
  sh_recv : length (recvCounts_ s) = n;
  sh_out : outgoing s = [];
}.
(** After [m] steps. *)
Record counted (n : nat) (m : Z) (c : cluster) : Prop := {
  ct_agents : length (agents c) = n;
  ct_shape : forall i s, agents c !! i = Some s -> shape n i s;
  ct_net : forall a d p, (a, (d, p)) ∈ net c -> (a < n)%nat /\ 0 <= d < Z.of_nat n;
  ct_balance : forall i j si sj, agents c !! i = Some si -> agents c !! j = Some sj ->
    0 <= cnt (recvCounts_ sj) (Z.of_nat i) /\
    owed sj (Z.of_nat i) + Z.of_nat (in_flight (net c) i (Z.of_nat j)) <= cnt (sendCounts_ si) (Z.of_nat j) <= m;
}.

Lemma Forall_cnt (P : Z -> Prop) l : (forall i, (i < length l)%nat -> P (cnt l (Z.of_nat i))) -> Forall P l.
Proof.
  intros H. apply Forall_lookup. intros i x Hi. specialize (H i (lookup_lt_Some _ _ _ Hi)). unfold cnt in H.
  by rewrite Nat2Z.id, nth_lookup, Hi in H.
Qed.
Lemma counted_small n m c i s : counted n m c -> m < 2 ^ 63 - 1 -> agents c !! i = Some s -> small s.
Proof.
  intros Hc Hm Hi. destruct (ct_shape _ _ _ Hc i s Hi). split; apply Forall_cnt; intros k Hk;
    (destruct (lookup_lt_is_Some_2 (agents c) k) as [sk Hsk]; [rewrite (ct_agents _ _ _ Hc); lia|]).
  - destruct (ct_balance _ _ _ Hc i k s sk Hi Hsk) as [H1 H2]. unfold owed in H2. lia.
  - destruct (ct_balance _ _ _ Hc k i sk s Hsk Hi) as [H1 H2]. unfold owed in H2. lia.
Qed.
Lemma counted_later n m c : counted n m c -> counted n (m + 1) c.
Proof.
  intros []. split; try done. intros i j si sj Hi Hj. destruct (ct_balance0 i j si sj Hi Hj). lia.
Qed.

(** Replacing one agent. *)
Lemma insert_cases {A} (i j : nat) (x y : A) (l : list A) : <[i := x]> l !! j = Some y -> (j = i /\ y = x) \/ (j <> i /\ l !! j = Some y).
Proof. intros [(<- & -> & _)|[? ?]]%list_lookup_insert_Some; auto. Qed.

Lemma outs_nil s j : outgoing s = [] -> outs s j = 0.
Proof. unfold outs. by intros ->. Qed.

Lemma counted_local n m c i e s : counted n m c -> m < 2 ^ 63 - 1 -> local_event e -> agents c !! i = Some s ->
  counted n (m + 1) (exec (CLocal i e) c).
Proof.
  intros Hc Hm He Hi. pose proof (ct_shape _ _ _ Hc i s Hi) as [Hr Hk Hls Hlr Ho].
  pose proof (step_effect e s He (counted_small n m c i s Hc Hm Hi) Hk ltac:(lia)) as Hef.
  cbn [exec]. rewrite Hi. set (s' := local_step e s) in *. set (s1 := upd_outgoing _ s').
  assert (Hx0 : forall j, excess s j = - cnt (sendCounts_ s) j) by (intros j; unfold excess; rewrite outs_nil by done; lia).
  assert (How : forall k, owed s1 k = owed s' k) by done.
  split; cbn [agents net].
  - rewrite length_insert. apply Hc.
  - intros k x [[-> ->]|[_ Hx]]%insert_cases; [|by apply Hc]. split; [by rewrite <- Hr, <- (ef_rank _ _ Hef)| | | |done].
    + unfold ranked. change (allWorkerInfo_ s1) with (allWorkerInfo_ s'). by rewrite (ef_infos _ _ Hef).
    + rewrite <- Hls. apply Hef.
    + rewrite <- Hlr. apply Hef.
  - intros a d p [Hin|Hin]%elem_of_app; [by apply Hc in Hin|]. apply list_elem_of_fmap in Hin as (o & [= -> Eo] & Hin).
    apply lookup_lt_Some in Hi. rewrite (ct_agents _ _ _ Hc) in Hi. split; [done|]. subst o.
    rewrite <- Hls. refine (ef_dst _ _ Hef _ (d, p) Hin). rewrite Ho. by intros ? ?%elem_of_nil.
  - intros a b sa sb Ha Hb. rewrite in_flight_sent, Nat2Z.inj_add. set (sent := if decide (a = i) then _ else _).
    assert (Hsent : Z.of_nat sent = if decide (a = i) then outs s' (Z.of_nat b) else 0) by (unfold sent, outs; by case_decide).
    assert (Hold : forall x y, agents c !! a = Some x -> agents c !! b = Some y -> _) by (exact (ct_balance _ _ _ Hc a b)).
    pose proof (ef_send _ _ Hef (Z.of_nat b) ltac:(lia)) as Hse.
    pose proof (ef_recv _ _ Hef (Z.of_nat a) ltac:(lia)) as Hre.
    apply insert_cases in Ha as [[-> ->]|[Hai Ha]]; apply insert_cases in Hb as [[-> ->]|[Hbi Hb]].
    + specialize (Hold s s Hi Hi). rewrite Hsent, decide_True by done. rewrite How. pose proof (ef_self _ _ Hef) as Hself.
      rewrite Hr, Hx0 in Hself. unfold excess in Hself. cbn [sendCounts_ recvCounts_ s1 upd_outgoing]. lia.
    + specialize (Hold s sb Hi Hb). rewrite Hsent, decide_True by done.
      pose proof (ef_excess _ _ Hef (Z.of_nat b) ltac:(lia) ltac:(lia)) as Hex. rewrite Hx0 in Hex. unfold excess in Hex.
      cbn [sendCounts_ recvCounts_ s1 upd_outgoing]. lia.
    + specialize (Hold sa s Ha Hi). rewrite Hsent, decide_False by done. rewrite How.
      pose proof (ef_owed _ _ Hef (Z.of_nat a) ltac:(lia) ltac:(lia)).
      cbn [sendCounts_ recvCounts_ s1 upd_outgoing]. lia.
    + specialize (Hold sa sb Ha Hb). rewrite Hsent, decide_False by done. lia.
Qed.

(** A message that arrives is queued, or dropped by an agent that does not run. *)
Lemma listen_effect i p s : ranked s -> let s' := snd (listen (Z.of_nat i) p s) in
  rank_ s' = rank_ s /\ allWorkerInfo_ s' = allWorkerInfo_ s /\ sendCounts_ s' = sendCounts_ s /\
  recvCounts_ s' = recvCounts_ s /\ outgoing s' = outgoing s /\
  forall k, (queued s' k <= queued s k + (if decide (k = Z.of_nat i) then 1 else 0))%nat.
Proof.
  intros Hk. unfold listen, workerInfo_at, bind, gets. cbn zeta.
  destruct (running_ s); [|split_and!; [done..|intros; cbn; lia]].
  destruct (allWorkerInfo_ s !! Z.to_nat (Z.of_nat i)) as [info|] eqn:Hi; [|split_and!; [done..|intros; cbn; lia]].
  destruct (0 <=? Z.of_nat i); [|split_and!; [done..|intros; cbn; lia]]. cbn [ret modify snd]. split_and!; try done.
  intros k. rewrite queued_add_recv. apply Hk in Hi. rewrite Hi, Nat2Z.id.
  destruct (Z.eqb_spec (Z.of_nat i) k); case_decide; (lia || congruence).
Qed.

Lemma counted_deliver n m c k : counted n m c -> counted n m (exec (CDeliver k) c).
Proof.
  intros Hc. cbn [exec]. destruct (net c !! k) as [[src [dst p]]|] eqn:Hk; [|done].
  destruct (agents c !! Z.to_nat dst) as [s|] eqn:Hs; [|done].
  destruct (ct_net _ _ _ Hc src dst p) as [Hsrc Hdst]; [by eapply list_elem_of_lookup_2|].
  pose proof (ct_shape _ _ _ Hc _ s Hs) as [Hr Hrk Hls Hlr Ho].
  destruct (listen_effect src p s Hrk) as (E1 & E2 & E3 & E4 & E5 & Hq). set (s' := snd (listen _ p s)) in *.
  split; cbn [agents net].
  - rewrite length_insert. apply Hc.
  - intros i x [[-> ->]|[_ Hx]]%insert_cases; [|by apply Hc].
    split; unfold ranked; by rewrite ?E1, ?E2, ?E3, ?E4, ?E5.
  - intros a d p' Hin%elem_of_delete. by apply Hc in Hin.
  - intros a b sa sb Ha Hb. pose proof (in_flight_delete _ _ _ _ _ a (Z.of_nat b) Hk) as Hf.
    assert (Hsa : exists sa0, agents c !! a = Some sa0 /\ sendCounts_ sa = sendCounts_ sa0).
    { apply insert_cases in Ha as [[-> ->]|[_ Ha]]; [by exists s|by exists sa]. }
    destruct Hsa as (sa0 & Ha0 & ->).
    apply insert_cases in Hb as [[-> ->]|[Hne Hb]].
    + pose proof (ct_balance _ _ _ Hc a _ sa0 s Ha0 Hs) as Hbal. specialize (Hq (Z.of_nat a)). rewrite E4. unfold owed in *.
      rewrite E4. rewrite Z2Nat.id in * by lia. repeat case_decide; intuition lia.
    + pose proof (ct_balance _ _ _ Hc a b sa0 sb Ha0 Hb) as Hbal.
      rewrite decide_False in Hf by (intros [_ ?]; subst dst; by rewrite Nat2Z.id in Hne). rewrite Nat.add_0_r in Hf. by rewrite <- Hf.
Qed.

(** ** Snapshots *)

(** Snapshots that already contradict each other, whatever happens later. *)
Definition mismatch (n : nat) (c : cluster) : Prop := exists i j xj si,
  snaps c !! j = Some (Some xj) /\ agents c !! i = Some si /\ (i < n)%nat /\ (j < n)%nat /\
  recv_cnt n xj i < cnt (sendCounts_ si) (Z.of_nat j) /\
  (forall xi, snaps c !! i = Some (Some xi) -> recv_cnt n xj i < sent_cnt n xi j).
(** Nothing happened to an agent since its snapshot. *)
Definition undisturbed (c : cluster) : Prop := forall i x s,
  snaps c !! i = Some (Some x) -> agents c !! i = Some s -> passive s /\ x = snapshot s.
Record waves (n : nat) (c : cluster) : Prop := {
  wv_length : length (snaps c) = n;
  wv_waited : forall i x, snaps c !! i = Some (Some x) -> waited c !! i = Some true;
  wv_state : undisturbed c \/ mismatch n c;
}.

Lemma snapshot_recv n i s k : shape n i s -> recv_cnt n (snapshot s) k = cnt (recvCounts_ s) (Z.of_nat k).
Proof. intros []. unfold recv_cnt, snapshot, cnt. by rewrite Nat2Z.id, take_app_length' by done. Qed.
Lemma snapshot_sent n i s k : shape n i s -> sent_cnt n (snapshot s) k = cnt (sendCounts_ s) (Z.of_nat k).
Proof. intros []. unfold sent_cnt, snapshot, cnt. by rewrite Nat2Z.id, drop_app_length' by done. Qed.

Lemma mismatch_later n c c' : snaps c' = snaps c ->
  (forall i s, agents c !! i = Some s -> exists s', agents c' !! i = Some s' /\
     forall j, 0 <= j -> cnt (sendCounts_ s) j <= cnt (sendCounts_ s') j) -> mismatch n c -> mismatch n c'.
Proof.
  intros E H (i & j & xj & si & H1 & H2 & H3 & H4 & H5 & H6). destruct (H i si H2) as (s' & Hs' & Hmon).
  exists i, j, xj, s'. rewrite E. split_and!; try done. specialize (Hmon (Z.of_nat j) ltac:(lia)). lia.
Qed.

(** An agent with nothing to do does nothing. *)
Lemma passive_step s e : passive s -> match e with ETask _ _ | EAsyncDone _ _ _ => True | _ => False end ->
  let s' := local_step e s in passive s' /\ snapshot s' = snapshot s.
Proof.
  intros [Hp Ha] He. destruct e; try done; cbn [step].
  - unfold run_task, bind, gets, modify. rewrite Hp, lookup_nil. unfold passive. cbn. rewrite Hp. by destruct k.
  - unfold async_done, bind, gets, ret. rewrite Ha. cbn. done.
Qed.

Lemma waves_local n m c i e : counted n m c -> m < 2 ^ 63 - 1 -> waves n c -> allowed c (CLocal i e) ->
  waves n (exec (CLocal i e) c).
Proof.
  intros Hc Hm Hw Hal. assert (He : local_event e) by (by destruct e).
  cbn [exec]. destruct (agents c !! i) as [s|] eqn:Hi; [|done].
  destruct Hw as [Hl Hwt Hst]. split; [done|done|]. destruct Hst as [Hu|Hm']; [left|right].
  - intros k x s' Hx [[-> ->]|[_ Hk]]%insert_cases; [|by apply (Hu k)]. destruct (Hu i x s Hx Hi) as [Hp ->].
    assert (Hev : match e with ETask _ _ | EAsyncDone _ _ _ => True | _ => False end).
    { destruct e; try done. destruct Hal as [_ [Hal|(s0 & Hs0 & Hal)]]; [|congruence].
      apply Hwt in Hx. cbn in Hx. congruence. }
    destruct (passive_step s e Hp Hev) as [[H1 H2] H3]. done.
  - apply (mismatch_later n c); [done| |exact Hm']. cbn [agents]. intros k sk Hk. destruct (decide (k = i)) as [->|Hne].
    + eexists. split; [apply list_lookup_insert_eq; by eapply lookup_lt_Some|]. intros j Hj.
      assert (sk = s) as -> by congruence. pose proof (ct_shape _ _ _ Hc i s Hi) as [Hr Hk' _ _ _].
      apply (ef_send _ _ (step_effect e s He (counted_small n m c i s Hc Hm Hi) Hk' ltac:(lia)) j Hj).
    + exists sk. split; [by rewrite list_lookup_insert_ne|done].
Qed.

(** A message that reaches an agent after its snapshot was sent by an agent
    that had counted it when it was passive. *)
Lemma waves_deliver n m c k : counted n m c -> waves n c -> waves n (exec (CDeliver k) c).
Proof.
  intros Hc Hw. cbn [exec]. destruct (net c !! k) as [[src [dst p]]|] eqn:Hk; [|done].
  destruct (agents c !! Z.to_nat dst) as [s|] eqn:Hs; [|done].
  destruct (ct_net _ _ _ Hc src dst p) as [Hsrc Hdst]; [by eapply list_elem_of_lookup_2|].
  destruct (lookup_lt_is_Some_2 (agents c) src) as [si Hsi]; [by rewrite (ct_agents _ _ _ Hc)|].
  pose proof (ct_shape _ _ _ Hc _ s Hs) as Hsh.
  destruct (listen_effect src p s (sh_ranked _ _ _ Hsh)) as (_ & _ & Esend & _).
  assert (Hlater : forall i0 s0, agents c !! i0 = Some s0 -> exists s', <[Z.to_nat dst := snd (listen (Z.of_nat src) p s)]> (agents c) !! i0 = Some s' /\
     forall j, 0 <= j -> cnt (sendCounts_ s0) j <= cnt (sendCounts_ s') j).
  { intros i0 s0 Hi0. destruct (decide (i0 = Z.to_nat dst)) as [->|Hne].
    - eexists. split; [apply list_lookup_insert_eq; by eapply lookup_lt_Some|]. intros j _. rewrite Esend.
      assert (s0 = s) as -> by congruence. lia.
    - exists s0. split; [by rewrite list_lookup_insert_ne|done]. }
  destruct Hw as [Hl Hwt Hst]. split; [done|done|].
  destruct Hst as [Hu|Hm']; [|right; by apply (mismatch_later n c)].
  destruct (snaps c !! Z.to_nat dst) as [[x|]|] eqn:Hx.
  - right. destruct (Hu _ x s Hx Hs) as [_ ->].
    pose proof (ct_balance _ _ _ Hc src (Z.to_nat dst) si s Hsi Hs) as [_ Hbal].
    pose proof (in_flight_delete _ _ _ _ _ src dst Hk) as Hf. rewrite decide_True in Hf by done.
    unfold owed in Hbal. rewrite Z2Nat.id in Hbal by lia.
    eapply (mismatch_later n c); [done|exact Hlater|]. exists src, (Z.to_nat dst), (snapshot s), si.
    rewrite (snapshot_recv n _ s src Hsh), Z2Nat.id by lia. split_and!; try done; [lia|lia|].
    intros xi Hxi. destruct (Hu src xi si Hxi Hsi) as [_ ->].
    rewrite (snapshot_sent n src si _ (ct_shape _ _ _ Hc src si Hsi)), Z2Nat.id by lia. lia.
  - left. intros i y s' Hy [[-> ->]|[_ Hi]]%insert_cases; [cbn in Hy; congruence|by apply (Hu i)].
  - left. intros i y s' Hy [[-> ->]|[_ Hi]]%insert_cases; [cbn in Hy; congruence|by apply (Hu i)].
Qed.

Lemma waves_snapshot n m c i : counted n m c -> waves n c -> allowed c (CSnapshot i) -> snapshot_passive c (CSnapshot i) ->
  waves n (exec (CSnapshot i) c).
Proof.
  intros Hc [Hl Hwt Hst] [Hwi Hsn] (s & Hi & Hp). cbn [exec]. rewrite Hi.
  split; cbn [snaps waited].
  - by rewrite length_insert.
  - intros k x [[-> _]|[_ Hx]]%insert_cases; [done|by eapply Hwt].
  - destruct Hst as [Hu|(a & b & xb & sa & H1 & H2 & H3 & H4 & H5 & H6)]; [left|right].
    + intros k x s' [[-> [= ->]]|[_ Hx]]%insert_cases Hs'; [|by apply (Hu k)]. cbn in Hs'. by assert (s' = s) as -> by congruence.
    + exists a, b, xb, sa. cbn [snaps agents]. rewrite list_lookup_insert_ne by congruence. split_and!; try done.
      intros xa [[-> [= ->]]|[_ Hx]]%insert_cases; [|by apply H6]. assert (sa = s) as -> by congruence.
      by rewrite (snapshot_sent n i s b (ct_shape _ _ _ Hc i s Hi)).
Qed.

Lemma counted_exec n m c e : counted n m c -> m < 2 ^ 63 - 1 -> allowed c e -> counted n (m + 1) (exec e c).
Proof.
  intros Hc Hm Hal. destruct e as [i e|k|i|i|i].
  - destruct (agents c !! i) as [s|] eqn:Hi.
    + apply (counted_local n m c i e s); try done. by destruct e.
    + cbn [exec]. rewrite Hi. by apply counted_later.
  - by apply counted_later, counted_deliver.
  - apply counted_later in Hc as []. by split.
  - cbn [exec]. destruct (agents c !! i); apply counted_later in Hc as []; by split.
  - apply counted_later in Hc as []. by split.
Qed.
Lemma waves_exec n m c e : counted n m c -> m < 2 ^ 63 - 1 -> waves n c -> allowed c e -> snapshot_passive c e -> waves n (exec e c).
Proof.
  intros Hc Hm Hw Hal Hp. destruct e as [i e|k|i|i|i].
  - by eapply waves_local.
  - by eapply waves_deliver.
  - destruct Hw as [Hl Hwt Hst]. split; [done| |done]. cbn [exec waited snaps]. intros k x Hx.
    apply Hwt in Hx. destruct (decide (k = i)) as [->|]; [|by rewrite list_lookup_insert_ne].
    apply list_lookup_insert_eq. by eapply lookup_lt_Some.
  - by eapply waves_snapshot.
  - by destruct Hw.
Qed.

Lemma initial_counted n c : initial n c -> counted n 0 c.
Proof.
  intros [Hl Hag Hnet _ _ _].
  assert (Hs : forall i s, agents c !! i = Some s -> shape n i s /\ sendCounts_ s = replicate n 0 /\
    recvCounts_ s = replicate n 0 /\ threadPool_ s = []).
  { intros i s Hi. destruct (Hag i s Hi) as (name & gathered & s0 & E & ->).
    unfold ProcessGroupAgent_construct, ocheck in E.
    destruct (WorkerInfo_wide name _) as [info| |]; cbn [obind] in E; [|done..].
    destruct (collectNames 0 gathered ∅) as [m| |]; cbn [obind] in E; [|done..].
    destruct (m !! name_ info) as [r|]; [|done]. destruct (_ =? r); [|done].
    destruct (make_infos 0 _) as [infos| |] eqn:Ei; cbn [obind] in E; [|done..].
    injection E as <-. cbn. rewrite Nat2Z.id. split; [|done].
    split; cbn; rewrite ?Nat2Z.id, ?length_replicate; try done.
    intros k w Hk. destruct (make_infos_ids _ _ _ Ei k w Hk). lia. }
  split; [done|intros i s Hi; by apply Hs|intros a d p; rewrite Hnet; by intros ?%elem_of_nil|].
  intros i j si sj Hi Hj. destruct (Hs i si Hi) as (_ & E1 & _). destruct (Hs j sj Hj) as (_ & _ & E2 & E3).
  assert (Hz : forall k, cnt (replicate n 0) k = 0).
  { intros k. unfold cnt. rewrite nth_lookup. destruct (replicate n 0 !! Z.to_nat k) eqn:E; [|done].
    by apply lookup_replicate in E as [-> _]. }
  unfold owed, queued. rewrite E1, E2, E3, Hnet, !Hz. unfold in_flight. cbn. lia.
Qed.

Lemma initial_waves n c : initial n c -> waves n c.
Proof.
  intros [_ _ _ _ Hsn _].
  assert (Hno : forall i x, snaps c !! i = Some (Some x) -> False) by (intros i x; rewrite Hsn; by intros [? _]%lookup_replicate).
  split; [by rewrite Hsn, length_replicate|intros i x Hx; by destruct (Hno i x)|].
  left. intros i x s Hx. by destruct (Hno i x).
Qed.

Lemma run_waves n l : forall m c, counted n m c -> waves n c -> along allowed l c -> along snapshot_passive l c ->
  m + Z.of_nat (length l) < 2 ^ 63 - 1 ->
  counted n (m + Z.of_nat (length l)) (cluster_run l c) /\ waves n (cluster_run l c).
Proof.
  induction l as [|e l IH]; intros m c Hc Hw Hal Hp Hm; cbn [cluster_run length].
  - rewrite Z.add_0_r. done.
  - destruct Hal as [Ha Hal], Hp as [Hpe Hp]. cbn [length] in Hm.
    replace (m + Z.of_nat (S (length l))) with (m + 1 + Z.of_nat (length l)) by lia.
    apply IH; [|apply (waves_exec n m); try done; lia|done|done|lia]. apply counted_exec; [done|lia|done].
Qed.

Lemma no_pending n peers i j : hasPendingMessage n peers = false -> (i < n)%nat -> (j < n)%nat ->
  sent_cnt n (nth i peers []) j = recv_cnt n (nth j peers []) i.
Proof.
  unfold hasPendingMessage. intros H Hi Hj. destruct (Z.eq_dec (sent_cnt n (nth i peers []) j) (recv_cnt n (nth j peers []) i)) as [|Hne]; [done|].
  exfalso. apply not_true_iff_false in H. apply H. apply existsb_exists. exists i. split; [apply in_seq; lia|].
  apply existsb_exists. exists j. split; [apply in_seq; lia|]. by rewrite (proj2 (Z.eqb_neq _ _) Hne).
Qed.
Lemma gathered_nth c i x : snaps c !! i = Some (Some x) -> nth i (gathered_snaps c) [] = x.
Proof. intros Hx. unfold gathered_snaps. by rewrite nth_lookup, list_lookup_fmap, Hx. Qed.

End sync.

(** ** Witnesses, and what goes wrong *)

Import Example_agent.
Module Example_sync.
Definition to (k : Z) : WorkerInfo := mkWorkerInfo (if k =? 0 then str "a" else str "b") k.
Definition start (k : Z) : pg_agent (T := unit) := snd (agent_start (get none (worker k))).
Definition two : cluster (T := unit) := mkCluster [start 0; start 1] [] [false; false] [None; None] [false; false].
Definition later (_ : Message unit) : cb_result (T := unit) := CbLater.
Definition answer : Message unit := mkMessage unit (str "r") [] PYTHON_RET 1.

Lemma two_initial : initial 2 two.
Proof.
  split; try done. intros [|[|i]] s Hi; [| |done].
  - exists (str "a"), names, (get none (worker 0)). split; [vm_compute; reflexivity|by injection Hi].
  - exists (str "b"), names, (get none (worker 1)). split; [vm_compute; reflexivity|by injection Hi].
Qed.

(** A request and its response, then sync() at both agents. *)
Definition calm_run : list (cluster_event (T := unit)) :=
  [CLocal 0 (ESend 5 (to 1) call None); CLocal 0 (ETask 6 0); CDeliver 0; CLocal 1 (ETask 7 0); CLocal 1 (ETask 8 0);
   CDeliver 0; CLocal 0 (ETask 9 0); CWait 0; CWait 1; CSnapshot 0; CSnapshot 1].
(** Worker 1 processes the request asynchronously: the pools are empty and the
    counters agree.  Then its handler calls worker 0 and completes. *)
Definition busy_run : list (cluster_event (T := unit)) :=
  [CLocal 0 (ESend 5 (to 1) call None); CLocal 0 (ETask 6 0); CDeliver 0; CLocal 1 (ETask 7 0);
   CWait 0; CWait 1; CSnapshot 0; CSnapshot 1; CJoin 1;
   CLocal 1 (ESend 8 (to 0) call None); CLocal 1 (EAsyncDone 9 0 (inl answer)); CLocal 1 (ETask 10 1);
   CDeliver 0; CLocal 0 (ETask 11 0); CJoin 0].

Abbreviation run2 f := (cluster_run ser de 60000 f).
Definition agent_at (c : cluster (T := unit)) (i : nat) : pg_agent := default none (agents c !! i).
Lemma has_agent (P : pg_agent (T := unit) -> Prop) c i : (i <? length (agents c))%nat = true -> P (agent_at c i) ->
  exists s, agents c !! i = Some s /\ P s.
Proof.
  intros Hi%Nat.ltb_lt HP. unfold agent_at in HP. destruct (lookup_lt_is_Some_2 _ _ Hi) as [s Hs]. rewrite Hs in HP. by exists s.
Qed.
Lemma sync_done_two c : length (agents c) = 2%nat -> forallb (fun o : option (list Z) => bool_decide (is_Some o)) (snaps c) = true ->
  length (snaps c) = 2%nat -> hasPendingMessage 2 (gathered_snaps c) = false -> sync_done (T := unit) c.
Proof.
  intros Hl Hf Hs Hp. split; [|by rewrite Hl]. rewrite Hl. intros i Hi.
  destruct (lookup_lt_is_Some_2 (snaps c) i) as [o Ho]; [lia|]. rewrite forallb_forall in Hf.
  specialize (Hf o). rewrite bool_decide_eq_true in Hf. destruct Hf as [x ->]; [|by exists x].
  apply list_elem_of_In. by eapply list_elem_of_lookup_2.
Qed.

Ltac allow := first
  [ exact I
  | split; [vm_compute; discriminate|left; vm_compute; reflexivity]
  | split; [vm_compute; discriminate|right; apply has_agent; [vm_compute; reflexivity|intros [_ H]; vm_compute in H; discriminate]]
  | split; vm_compute; reflexivity
  | apply has_agent; [vm_compute; reflexivity|vm_compute; reflexivity]
  | apply has_agent; [vm_compute; reflexivity|split; vm_compute; reflexivity]
  | split; [apply sync_done_two; vm_compute; reflexivity|apply has_agent; vm_compute; reflexivity] ].
Ltac allow_all := repeat first [exact I | split; [allow|]].

Lemma calm_allowed : along ser de 60000 reply allowed calm_run two.
Proof. unfold calm_run. cbn [along]. allow_all. Qed.
Lemma calm_passive : along ser de 60000 reply snapshot_passive calm_run two.
Proof. unfold calm_run. cbn [along]. allow_all. Qed.
Lemma busy_allowed : along ser de 60000 later allowed busy_run two.
Proof. unfold busy_run. cbn [along]. allow_all. Qed.
End Example_sync.
Import Example_sync.


(** C39: join() of ProcessGroupAgent can lose messages.  The counters match while
    a request is processed asynchronously, and threadPool_.waitWorkComplete()
    does not wait for that: in a run of two agents that the code allows sync()
    ends at both, join() passes its wait at both, and yet worker 1 still has a
    request to send, with a future that waits for its response. *)
Theorem pg_join_loses_requests : exists c l,
  initial 2 c /\ along ser de 60000 later allowed l c /\
  let c' := run2 later l c in
  sync_done c' /\ joined c' = [true; true] /\ ~ quiescent c' /\
  exists s, agents c' !! 1%nat = Some s /\ threadPool_ s <> [] /\ join_ready s = false /\ jitFutures s !! 0%nat = Some None.
Proof.
  exists two, busy_run. split; [exact two_initial|]. split; [exact busy_allowed|]. cbn zeta.
  assert (H : exists s, agents (run2 later busy_run two) !! 1%nat = Some s /\
    threadPool_ s <> [] /\ join_ready s = false /\ jitFutures s !! 0%nat = Some None).
  { apply has_agent; [vm_compute; reflexivity|]. split; [vm_compute; discriminate|]. split; vm_compute; reflexivity. }
  split; [apply sync_done_two; vm_compute; reflexivity|]. split; [vm_compute; reflexivity|]. split; [|exact H].
  intros [_ Hq]. destruct H as (s & Hs & Hne & _). exact (Hne (proj1 (Hq 1%nat s Hs))).
Qed.
