(* ===== verification/NCCL.v ===== *)
(** * NCCL: communicators, types, keys and argument checks

    Models csrc/c10d/distributed/c10d/NCCLUtils.hpp and NCCLUtils.cpp, and the
    helper functions of ProcessGroupNCCL.cpp: error codes, the class NCCLComm, the
    types and operations of NCCL, the keys of communicators in caches and in the
    store, the checks of tensors.

    NCCL, CUDA and ATen are libraries outside the repository.  A call of one of
    them is a value of [call]; a handler of the calls, which may change an external
    state, is a parameter.  The calls that have returned are logged.  The code is
    that for an NCCL of version 2.7 or later, with error checks and point-to-point
    operations. *)

From stdpp Require Import base option list gmap strings.
From Stdlib Require Import ZArith Lia.
From S2P Require Import Prelude Decimal NetUtils ProcessGroup Tensors.
Import Decimal.

(** ** Results *)

(** ncclResult_t; the results that the code does not name are [ncclOther]. *)
Inductive ncclResult_t : Type :=
  | ncclSuccess | ncclUnhandledCudaError | ncclSystemError | ncclInternalError
  | ncclInvalidArgument | ncclInvalidUsage | ncclOther (code : Z).
#[global] Instance ncclResult_eq_dec : EqDecision ncclResult_t.
Proof. solve_decision. Defined.

Definition errorMessage (error : ncclResult_t) : bytes :=
  match error with
  | ncclUnhandledCudaError => str "ncclUnhandledCudaError: Call to CUDA function failed."
  | ncclSystemError => str "ncclSystemError: System call (socket, malloc, munmap, etc) failed."
  | ncclInternalError => str "ncclInternalError: Internal check failed. This is either a bug in NCCL or due to memory corruption"
  | ncclInvalidArgument => str "ncclInvalidArgument: Invalid value for an argument (such as invalid pointer, device count, ip:host pair, etc)."
  | ncclInvalidUsage => str "ncclInvalidUsage: This usually reflects invalid usage of NCCL library (such as too many async ops, too many collectives at once, mixing streams in a group, etc)."
  | _ => str "Unknown NCCL error"
  end.

(** [status] and [version] are the answers of ncclGetVersion; the string is
    computed once, [versionString] holds it from then on. *)
Definition version_string (status : ncclResult_t) (version : Z) : bytes :=
  if negb (bool_decide (status = ncclSuccess)) || (version <? 100) then str "Unknown NCCL version"
  else
    let ncclMajor := Z.quot version 1000 in
    let ncclMinor := Z.quot (Z.rem version 1000) 100 in
    let ncclPatch := Z.rem version (ncclMajor * 1000 + ncclMinor * 100) in
    to_string ncclMajor ++ str "." ++ to_string ncclMinor ++ str "." ++ to_string ncclPatch.
Definition getNcclVersion (status : ncclResult_t) (version : Z) : M (option bytes) bytes := fun versionString =>
  let s := default (version_string status version) versionString in (Ret s, Some s).
Definition ncclGetErrorWithVersion (ncclGetErrorString : ncclResult_t -> bytes) (error : ncclResult_t) (status : ncclResult_t) (version : Z)
  : M (option bytes) bytes :=
  let! v := getNcclVersion status version in ret (ncclGetErrorString error ++ str ", NCCL version " ++ v).

Definition C10D_NCCL_CHECK (result : ncclResult_t) : outcome unit :=
  ocheck (bool_decide (result = ncclSuccess)) (RuntimeError "NCCL error in: ").

(** ** Data types and reductions *)

Inductive ncclDataType_t : Type :=
  | ncclInt8 | ncclUint8 | ncclFloat | ncclDouble | ncclInt32 | ncclInt64 | ncclHalf.
Inductive ncclRedOp_t : Type := ncclMin | ncclMax | ncclSum | ncclProd.

(** at::kBool, the eleventh type after kByte. *)
Definition kBool : ScalarType := kOther 11.

Definition ncclDataType : list (ScalarType * ncclDataType_t) :=
  [(kChar, ncclInt8); (kByte, ncclUint8); (kFloat, ncclFloat); (kDouble, ncclDouble);
   (kInt, ncclInt32); (kLong, ncclInt64); (kHalf, ncclHalf); (kBool, ncclUint8)].
Definition ncclOp : list (ReduceOp * ncclRedOp_t) :=
  [(MIN, ncclMin); (MAX, ncclMax); (SUM, ncclSum); (PRODUCT, ncclProd)].

(** std::map::find *)
Definition map_find {K V} `{EqDecision K} (k : K) (m : list (K * V)) : option V :=
  snd <$> find (fun p => bool_decide (p.1 = k)) m.

Definition getNcclDataType (type : ScalarType) : outcome ncclDataType_t :=
  match map_find type ncclDataType with
  | Some t => Ret t
  | None => Throw (CheckFailed "Input tensor data type is not supported for NCCL process group: ")
  end.

Definition getNcclReduceOp (reduceOp : ReduceOp) (input : ScalarType) : outcome ncclRedOp_t :=
  if bool_decide (reduceOp = SUM) && bool_decide (input = kBool) then Ret ncclMax
  else
    match map_find reduceOp ncclOp with
    | Some op => Ret op
    | None =>
        match reduceOp with
        | BAND => Throw (RuntimeError "Cannot use ReduceOp.BAND with NCCL")
        | BOR => Throw (RuntimeError "Cannot use ReduceOp.BOR with NCCL")
        | BXOR => Throw (RuntimeError "Cannot use ReduceOp.BXOR with NCCL")
        | _ => Throw (RuntimeError "Unhandled ReduceOp")
        end
    end.

(** ** Keys *)

Definition getKeyFromDevices (devices : list Device) : bytes :=
  fold_left (fun deviceList device =>
    match deviceList with
    | [] => to_string (device_index device)
    | _ => deviceList ++ str "," ++ to_string (device_index device)
    end) devices [].

Definition getKeySendRecv (myRank peer : Z) : bytes :=
  let lowRank := if myRank <? peer then myRank else peer in
  let highRank := if myRank <? peer then peer else myRank in
  to_string lowRank ++ str ":" ++ to_string highRank.

(** A ncclUniqueId is its NCCL_UNIQUE_ID_BYTES bytes.  [oss << std::hex <<
    static_cast<int>(b)] writes no leading zero. *)
Definition hex_digit (d : Z) : byte := if d <? 10 then byte_of_Z (48 + d) else byte_of_Z (87 + d).
Definition hex_byte (b : byte) : bytes :=
  let z := Z_of_byte b in
  if z <? 16 then [hex_digit z] else [hex_digit (z / 16); hex_digit (z mod 16)].
Definition buildNcclUniqueIdStr (ncclID : bytes) : bytes := flat_map hex_byte ncclID.

Definition kNCCLAbortedCommStoreKey : bytes := str "NCCLABORTEDCOMM".
Definition getNcclAbortedCommStoreKey (ncclIdStr : bytes) : bytes :=
  kNCCLAbortedCommStoreKey ++ str ":" ++ ncclIdStr.

(** ** Calls of the libraries *)

(** A CUDA tensor; ATen computes [is_non_overlapping_and_dense]. *)
Record CudaTensor := mkCuda { tensor :> Tensor; is_non_overlapping_and_dense : bool }.
Definition device_of (t : Tensor) : Device := tdevice (base t).
Definition get_device (t : Tensor) : Z := device_index (device_of t).
Definition getDeviceList (tensors : list CudaTensor) : list Device := map (fun t : CudaTensor => device_of t) tensors.

(** Communicators are pointers, streams and events are numbered. *)
Abbreviation comm_t := (option nat).
Abbreviation stream_t := nat.
Abbreviation event_t := nat.

Inductive call : Type :=
  | ncclGetUniqueId
  | ncclCommInitRank (numRanks : Z) (commId : bytes) (rank : Z)
  | ncclCommAbort (comm : comm_t)
  | ncclCommGetAsyncError (comm : comm_t)
  | ncclGroupStart
  | ncclGroupEnd
  | ncclAllReduce (input output : Tensor) (count : Z) (datatype : ncclDataType_t) (op : ncclRedOp_t) (comm : comm_t) (stream : stream_t)
  | ncclBcast (buff : Tensor) (count : Z) (datatype : ncclDataType_t) (root : Z) (comm : comm_t) (stream : stream_t)
  | ncclReduce (input output : Tensor) (count : Z) (datatype : ncclDataType_t) (op : ncclRedOp_t) (root : Z) (comm : comm_t) (stream : stream_t)
  | ncclAllGather (input output : Tensor) (count : Z) (datatype : ncclDataType_t) (comm : comm_t) (stream : stream_t)
  | ncclReduceScatter (input output : Tensor) (count : Z) (datatype : ncclDataType_t) (op : ncclRedOp_t) (comm : comm_t) (stream : stream_t)
  | all2all_single_equal_split (input output : Tensor) (size : Z) (comm : comm_t) (stream : stream_t)
  | all2all_single_unequal_split (input : Tensor) (send_lengths send_offsets : list Z) (output : Tensor) (recv_lengths recv_offsets : list Z)
      (type : ScalarType) (comm : comm_t) (stream : stream_t)
  | all2all (outputTensors inputTensors : list CudaTensor) (comm : comm_t) (stream : stream_t)
  | nccl_send (input : Tensor) (comm : comm_t) (stream : stream_t) (dst : Z)
  | nccl_recv (output : Tensor) (comm : comm_t) (stream : stream_t) (src : Z)
  | event_record (event : event_t) (stream : stream_t)
  | event_block (event : event_t) (stream : stream_t)
  | event_query (event : event_t)
  | getCurrentCUDAStream (device_index : Z)
  | getStreamFromPool (isHighPriority : bool)
  | recordStream (t : Tensor) (stream : stream_t)
  | set_index (device_index : Z)
  | cudaDeviceSynchronize
  | getNumGPUs
  | at_empty_byte (device_index : Z)
  | empty_strided (sizes strides : list Z) (like : Tensor)
  | select (t : Tensor) (j : nat)
  | copy_async (dst src : Tensor) (stream : stream_t)
  | steady_clock_now
  | sleep_for (millis : Z).

Definition answer (c : call) : Type :=
  match c with
  | ncclGetUniqueId => ncclResult_t * bytes
  | ncclCommInitRank _ _ _ => ncclResult_t * comm_t
  | ncclCommGetAsyncError _ => ncclResult_t * ncclResult_t
  | ncclCommAbort _ | ncclGroupStart | ncclGroupEnd | ncclAllReduce _ _ _ _ _ _ _ | ncclBcast _ _ _ _ _ _
  | ncclReduce _ _ _ _ _ _ _ _ | ncclAllGather _ _ _ _ _ _ | ncclReduceScatter _ _ _ _ _ _ _ => ncclResult_t
  | event_query _ => bool
  | getCurrentCUDAStream _ | getStreamFromPool _ => stream_t
  | getNumGPUs | steady_clock_now => Z
  | at_empty_byte _ | empty_strided _ _ _ => CudaTensor
  | select _ _ => Tensor
  | _ => unit
  end.

Section library.
Context {E : Type} (handle : forall c : call, M E (answer c)).
#[local] Set Default Proof Using "Type".
#[local] Set Proof Using Clear Unused.

(** The calls that have returned, with their answers, and the external state. *)
Record world := mkWorld { calls : list (sigT answer); ext : E }.

Definition sys (c : call) : M world (answer c) := fun w =>
  match handle c (ext w) with
  | (Ret a, e) => (Ret a, mkWorld (calls w ++ [existT c a]) e)
  | (Throw x, e) => (Throw x, mkWorld (calls w) e)
  | (Block, e) => (Block, mkWorld (calls w) e)
  end.
(** Another library that changes the external state: the store. *)
Definition in_ext {A} (m : M E A) : M world A := fun w => let '(o, e) := m (ext w) in (o, mkWorld (calls w) e).

(** ** NCCLComm *)

Record NCCLComm := mkComm {
  ncclComm_ : comm_t;
  ncclId_ : bytes;
  aborted_ : bool;
  ncclAsyncErr_ : ncclResult_t;
}.
Definition new_NCCLComm : NCCLComm := mkComm None [] false ncclSuccess.

Abbreviation Mc := (M (NCCLComm * world)).
Definition lib {S A} (m : M world A) : M (S * world) A := fun s => let '(o, w) := m s.2 in (o, (s.1, w)).
Definition this {S A} (f : S -> A) : M (S * world) A := gets (fun s => f s.1).
Definition put {S} (f : S -> S) : M (S * world) unit := modify (fun s => (f s.1, s.2)).

Definition NCCLComm_ncclCommAbort : Mc unit :=
  let! aborted := this aborted_ in
  if (aborted : bool) then ret tt
  else
    let! comm := this ncclComm_ in
    let! r := lib (sys (ncclCommAbort comm)) in
    do! lift (C10D_NCCL_CHECK r) in
    put (fun c => mkComm None (ncclId_ c) true
      (if bool_decide (ncclAsyncErr_ c = ncclSuccess) then ncclSystemError else ncclAsyncErr_ c)).

Definition getNcclComm : Mc comm_t :=
  let! aborted := this aborted_ in
  if (aborted : bool) then throw (RuntimeError "NCCL communicator was aborted.") else this ncclComm_.
Definition isAborted : Mc bool := this aborted_.
Definition getNcclId : Mc bytes := this ncclId_.

(** ncclCommGetAsyncError() writes the error into the communicator object. *)
Definition checkForNcclError : Mc ncclResult_t :=
  let! err := this ncclAsyncErr_ in
  if bool_decide (err <> ncclSuccess) then ret err
  else
    let! comm := this ncclComm_ in
    let! r := lib (sys (ncclCommGetAsyncError comm)) in
    do! put (fun c => mkComm (ncclComm_ c) (ncclId_ c) (aborted_ c) (snd (r : ncclResult_t * ncclResult_t))) in
    do! lift (C10D_NCCL_CHECK (fst (r : ncclResult_t * ncclResult_t))) in
    this ncclAsyncErr_.

(** ~NCCLComm; C10D_NCCL_ASSERT takes the process down. *)
Definition NCCLComm_destructor : Mc unit :=
  let! comm := this ncclComm_ in
  let! aborted := this aborted_ in
  if bool_decide (is_Some comm) && negb aborted then
    let! r := lib (sys (ncclCommAbort comm)) in
    lift (ocheck (bool_decide (r = ncclSuccess)) (Undefined "abort()"))
  else ret tt.

(** NCCLComm::create; [None]: ncclCommInitRank has failed, and the destructor of
    the new object has run. *)
Definition NCCLComm_create (numRanks rank : Z) (commId : bytes) : M world NCCLComm :=
  let! r := sys (ncclCommInitRank numRanks commId rank) in
  let comm := mkComm (snd (r : ncclResult_t * comm_t)) [] false ncclSuccess in
  match C10D_NCCL_CHECK (fst (r : ncclResult_t * comm_t)) with
  | Ret _ => ret (mkComm (ncclComm_ comm) commId (aborted_ comm) (ncclAsyncErr_ comm))
  | Throw e => fun w => let '(o, s) := NCCLComm_destructor (comm, w) in
               (match o with Ret _ => Throw e | Throw e' => Throw e' | Block => Block end, s.2)
  | Block => lift Block
  end.

(** The move constructor swaps the handle, the flag and the error with a new
    object; the ids stay. *)
Definition NCCLComm_move (other : NCCLComm) : NCCLComm * NCCLComm :=
  (mkComm (ncclComm_ other) (ncclId_ new_NCCLComm) (aborted_ other) (ncclAsyncErr_ other),
   mkComm (ncclComm_ new_NCCLComm) (ncclId_ other) (aborted_ new_NCCLComm) (ncclAsyncErr_ new_NCCLComm)).

(** ** Checks of tensors *)

Definition check_gpu_single_tensor (t : CudaTensor) : outcome unit :=
  check! is_cuda t && negb (is_sparse t) else RuntimeError "Tensors must be CUDA and dense" in
  ocheck (is_contiguous t) (RuntimeError "Tensors must be contiguous").

Fixpoint check_gpu_tensors_loop (first : CudaTensor) (usedDevices : gset Z) (l : list CudaTensor) : outcome unit :=
  match l with
  | [] => Ret tt
  | t :: l =>
      check! is_cuda t && negb (is_sparse t) else RuntimeError "Tensors must be CUDA and dense" in
      check! bool_decide (scalar_type t = scalar_type first) else RuntimeError "Tensors must have identical type" in
      check! bool_decide (tsizes (base t) = tsizes (base first)) else RuntimeError "Tensors must have identical size" in
      check! bool_decide (tstrides (base t) = tstrides (base first)) else RuntimeError "Tensors must have identical strides" in
      check! is_non_overlapping_and_dense t else RuntimeError "Tensors must be non-overlapping and dense" in
      check! negb (bool_decide (get_device t ∈ usedDevices)) else RuntimeError "Tensors must be on distinct GPU devices" in
      check_gpu_tensors_loop first ({[get_device t]} ∪ usedDevices) l
  end.

Definition check_gpu_tensors (tensors : list CudaTensor) : M world unit :=
  do! assert_ (negb (Nat.eqb (length tensors) 0)) (RuntimeError "Tensor list must be nonempty") in
  let! numGPUs := sys getNumGPUs in
  do! assert_ (Z.of_nat (length tensors) <=? uint64 numGPUs)
    (RuntimeError "Tensor list mustn't be larger than the number of available GPUs") in
  let! first := lift (at_index tensors 0) in
  lift (check_gpu_tensors_loop first ∅ tensors).

(** The i-th round of the loop; newLikeFlat() allocates the result. *)
Definition flatten_device (tensor_lists : list (list CudaTensor)) (other : list CudaTensor) (world_size : Z) (i : nat) : M world CudaTensor :=
  let num_devices := length tensor_lists in
  let! l := lift (at_index tensor_lists i) in
  let! o := lift (at_index other i) in
  do! assert_ (Z.of_nat (length l) =? uint64 (world_size * Z.of_nat num_devices))
    (RuntimeError "Tensor list input to scatter/gather must match number of collective participants") in
  let! front := lift (at_index l 0) in
  do! assert_ (get_device front =? get_device o)
    (RuntimeError "Corresponding input/output tensors to scatter/gather must all reside on the same device") in
  do! for_each l (fun t => assert_ (numel t =? numel o)
    (RuntimeError "All tensor operands to scatter/gather must have the same number of elements")) in
  let! shape := lift (newLikeFlat_device (map (map (fun t : CudaTensor => base t)) tensor_lists) i) in
  sys (empty_strided (fst (shape : list Z * list Z)) (snd (shape : list Z * list Z)) front).
Fixpoint flatten_loop (tensor_lists : list (list CudaTensor)) (other : list CudaTensor) (world_size : Z) (i n : nat) : M world (list CudaTensor) :=
  match n with
  | O => ret []
  | S n =>
      let! t := flatten_device tensor_lists other world_size i in
      let! l := flatten_loop tensor_lists other world_size (S i) n in
      ret (t :: l)
  end.
Definition flatten_for_scatter_gather (tensor_lists : list (list CudaTensor)) (other : list CudaTensor) (world_size : Z)
  : M world (list CudaTensor) :=
  do! assert_ (Nat.eqb (length tensor_lists) (length other))
    (RuntimeError "Tensor list operands to scatter/gather must have the same length") in
  flatten_loop tensor_lists other world_size 0 (length tensor_lists).
End library.
