(* ===== verification/ProcessGroupNCCL.v ===== *)
(** * ProcessGroupNCCL

    Models csrc/c10d/distributed/c10d/ProcessGroupNCCL.cpp and
    ProcessGroupNCCL.hpp: the WorkNCCL objects with their wait, the cache of
    communicators and the distribution of their ids through the store, the
    collectives and point-to-point operations as the calls of NCCL and CUDA that
    they make.  The threads of a process group are in the file NCCLThreads.

    Objects that several owners share (NCCLComm) are in a heap.  A function runs on
    the state of what it can reach: [cst] for functions that see only
    communicators, a WorkNCCL with it for those of WorkNCCL, the group with it for
    those of ProcessGroupNCCL.  A thread is a program counter; one of its steps is
    what happens while one mutex is held, or one call of the store.  A call of a
    user thread is one step: it is the only writer of the caches.

    The store is any implementation of the interface in the file Store. *)

From stdpp Require Import base option list gmap strings relations.
From Stdlib Require Import ZArith Lia.
From S2P Require Import Prelude Decimal NetUtils ProcessGroup Store Tensors NCCL.
Import Decimal.

(** ** Options *)

Definition kWatchdogThreadSleepMillis : Z := 10000.
Definition kWorkCleanupThreadSleepMillis : Z := 1000.
Definition kWaitForAbortCommStoreKey : Z := 1000.
Definition kSynchronizeBusyWaitMillis : Z := 10.
Definition kProcessGroupNCCLOpTimeoutMillis : Z := 10 * 1000.
Definition kNoTimeout : Z := 0.

Record Options := mkOptions { opTimeout : Z; isHighPriorityStream : bool }.
Definition new_Options : Options := mkOptions kProcessGroupNCCLOpTimeoutMillis false.
Definition Options_create (timeout : Z) (isHighStream : bool) : Options := new_Options.

(** The members that the constructor sets for good; [profiling]: a profiler is
    active. *)
Record config := mkConfig {
  rank_ : Z;
  size_ : Z;
  blockingWait_ : bool;
  asyncErrorHandling_ : bool;
  opTimeout_ : Z;
  isHighPriorityStream_ : bool;
  profiling : bool;
}.

(** A read-write element of a std::vector without a check of bounds. *)
Abbreviation at_ := at_index.
(** Operations on the second part of a state. *)
Definition below {S T A} (m : M T A) : M (S * T) A := fun s => let '(o, t) := m s.2 in (o, (s.1, t)).
Definition indices {A} (l : list A) : list nat := seq 0 (length l).

Section work.
Context {E : Type} (handle : forall c : call, M E (answer c)) (store : StoreOps E).
#[local] Set Default Proof Using "Type".
#[local] Set Proof Using Clear Unused.
Abbreviation sys c := (sys handle c).

(** ** Communicators *)

Abbreviation heap := (gmap nat NCCLComm).
Abbreviation cst := (heap * world (E := E))%type.

Definition on_comm {A} (c : nat) (m : M (NCCLComm * world) A) : M cst A := fun s =>
  match s.1 !! c with
  | Some comm => let '(o, (comm', w)) := m (comm, s.2) in (o, (<[c := comm']> s.1, w))
  | None => (Throw (Undefined "NCCLComm"), s)
  end.
(** [ptr->m()] of a std::shared_ptr *)
Definition on_ptr {A} (p : option nat) (m : M (NCCLComm * world) A) : M cst A :=
  match p with Some c => on_comm c m | None => throw (Undefined "null shared_ptr") end.

Fixpoint checkForNCCLErrorsInternal (ncclComms : list (option nat)) : M cst (option exn) :=
  match ncclComms with
  | [] => ret None
  | ncclComm :: ncclComms =>
      let! ncclAsyncErr := on_ptr ncclComm (checkForNcclError handle) in
      if bool_decide (ncclAsyncErr <> ncclSuccess) then ret (Some (RuntimeError "NCCL error: "))
      else checkForNCCLErrorsInternal ncclComms
  end.

(** ** WorkNCCL

    [store_]: whether the work has the store.  [future_] is None before it is made,
    else its value. *)
Record WorkNCCL := mkWorkNCCL {
  work : Work;
  devices_ : list Device;
  cudaEvents_ : list event_t;
  ncclComms_ : list (option nat);
  barrierTensors_ : list CudaTensor;
  w_blockingWait_ : bool;
  w_opTimeout_ : Z;
  workStartTime_ : Z;
  store_ : bool;
  outputs_ : option (list CudaTensor);
  future_ : option (list CudaTensor);
}.

Definition upd_work (f : Work -> Work) (w : WorkNCCL) : WorkNCCL :=
  mkWorkNCCL (f (work w)) (devices_ w) (cudaEvents_ w) (ncclComms_ w) (barrierTensors_ w) (w_blockingWait_ w) (w_opTimeout_ w)
    (workStartTime_ w) (store_ w) (outputs_ w) (future_ w).
Definition set_exception (e : option exn) (w : Work) : Work :=
  mkWork (completed_ w) e (wk_rank_ w) (opType_ w) (recordFunctionEndCallback_ w) (end_runs w).
Definition set_completed (w : Work) : Work :=
  mkWork true (exception_ w) (wk_rank_ w) (opType_ w) (recordFunctionEndCallback_ w) (end_runs w).

(** The constructor; [events] are the new CUDAEvent objects.  opTimeout_ has no
    value before it is assigned. *)
Definition new_WorkNCCL (devices : list Device) (events : list event_t) (now rank : Z) (opType : OpType) (profiled : bool) : WorkNCCL :=
  mkWorkNCCL (new_Work rank opType profiled) devices events (repeat None (length devices)) [] false 0 now false None None.
(** The copy constructor *)
Definition copy_WorkNCCL (w : WorkNCCL) : WorkNCCL :=
  let base := new_Work (wk_rank_ (work w)) (opType_ (work w)) false in
  mkWorkNCCL (mkWork (completed_ (work w)) (exception_ (work w)) (wk_rank_ base) (opType_ base)
      (recordFunctionEndCallback_ base) (end_runs base))
    (devices_ w) (cudaEvents_ w) (ncclComms_ w) [] (w_blockingWait_ w) (w_opTimeout_ w) (workStartTime_ w) false None None.

(** [operator<<]; [show] prints the sizes of a tensor. *)
Definition WorkNCCL_show (show : list Z -> bytes) (w : WorkNCCL) : outcome bytes :=
  let op := str (opTypeToString (opType_ (work w))) in
  match outputs_ w with
  | Some outputs =>
      let? t := at_ outputs 0 in
      Ret (str "WorkNCCL(" ++ str "OpType=" ++ op ++ str ", TensorShape=" ++ show (tsizes (base (tensor t))) ++
           str ", Timeout(ms)=" ++ to_string (w_opTimeout_ w) ++ str ")")
  | None => Ret (str "WorkNCCL(" ++ str "OpType=" ++ op ++ str ", Timeout(ms)=" ++ to_string (w_opTimeout_ w) ++ str ")")
  end.

Abbreviation Mw := (M (WorkNCCL * cst)).
Definition self {S A} (f : WorkNCCL -> A) : M (WorkNCCL * S) A := gets (fun s => f s.1).
Definition change {S} (f : WorkNCCL -> WorkNCCL) : M (WorkNCCL * S) unit := modify (fun s => (f s.1, s.2)).
Definition exception : Mw (option exn) := self (fun w => exception_ (work w)).
Definition on_lib {S A} (m : M world A) : M (S * cst) A := below (below m).

Definition checkAndSetException : Mw unit :=
  let! e := exception in
  match e with
  | Some _ => ret tt
  | None =>
      let! comms := self ncclComms_ in
      let! exception_ptr := below (checkForNCCLErrorsInternal comms) in
      change (upd_work (set_exception exception_ptr))
  end.
Definition setException (e : exn) : Mw unit := change (upd_work (set_exception (Some e))).

Fixpoint query_all (w : WorkNCCL) (idx : list nat) : M cst bool :=
  match idx with
  | [] => ret true
  | i :: idx =>
      let! event := lift (at_ (cudaEvents_ w) i) in
      let! finished := below (sys (event_query event)) in
      if (finished : bool) then query_all w idx else ret false
  end.
Definition finishedGPUExecutionInternal : Mw bool :=
  let! w := self id in below (query_all w (indices (devices_ w))).
Definition finishedGPUExecution : Mw bool := do! checkAndSetException in finishedGPUExecutionInternal.

Definition isCompleted : Mw bool :=
  do! checkAndSetException in
  let! e := exception in
  match e with Some _ => ret true | None => finishedGPUExecutionInternal end.
Definition isSuccess : Mw bool :=
  let! e := exception in
  match e with
  | Some _ => ret false
  | None =>
      let! comms := self ncclComms_ in
      let! errors := below (checkForNCCLErrorsInternal comms) in
      match errors with Some _ => ret false | None => finishedGPUExecutionInternal end
  end.

Definition checkAndThrowException : Mw unit :=
  do! checkAndSetException in
  let! e := exception in
  match e with Some e => throw e | None => ret tt end.

Definition handleNCCLGuard : Mw unit :=
  do! change (upd_work set_completed) in
  let! e := exception in
  match e with Some e => throw e | None => ret tt end.

Definition synchronizeStreams : Mw unit :=
  let! w := self id in
  for_each (indices (devices_ w)) (fun i =>
    let! device := lift (at_ (devices_ w) i) in
    let! currentStream := on_lib (sys (getCurrentCUDAStream (device_index device))) in
    let! event := lift (at_ (cudaEvents_ w) i) in
    on_lib (sys (event_block event currentStream))).

(** Time points are in nanoseconds. *)
Definition timedOut : Mw bool :=
  let! currentTimepoint := on_lib (sys steady_clock_now) in
  let! w := self id in
  ret (w_opTimeout_ w <=? Z.quot (currentTimepoint - workStartTime_ w) 1000000).

(** The abort of one communicator by a wait that has timed out: its key in the
    store has the rank as value. *)
Definition abort_and_publish (c : option nat) : Mw unit :=
  do! below (on_ptr c (NCCLComm_ncclCommAbort handle)) in
  let! ncclId := below (on_ptr c getNcclId) in
  let storeKey := getNcclAbortedCommStoreKey (buildNcclUniqueIdStr ncclId) in
  let! w := self id in
  do! assert_ (store_ w) (Undefined "null store_") in
  on_lib (in_ext (store_set store storeKey (to_string (wk_rank_ (work w))))).

(** One round of the loop of synchronizeInternal(); [true]: the loop ends. *)
Definition wait_round : Mw bool :=
  let! completed := isCompleted in
  if (completed : bool) then ret true
  else
    let! late := timedOut in
    if (late : bool) then
      let! comms := self ncclComms_ in
      do! for_each comms abort_and_publish in
      let! _now := on_lib (sys steady_clock_now) in
      throw (RuntimeError "Caught collective operation timeout: ")
    else
      do! checkAndThrowException in
      do! on_lib (sys (sleep_for kSynchronizeBusyWaitMillis)) in
      ret false.
(** [Block]: the loop has not ended after [fuel] rounds. *)
Fixpoint wait_loop (fuel : nat) : Mw unit :=
  match fuel with
  | O => lift Block
  | S fuel => let! stop := wait_round in if (stop : bool) then ret tt else wait_loop fuel
  end.

(** The end of synchronizeInternal(): the work of a barrier blocks the host. *)
Definition synchronize_devices (w : WorkNCCL) : Mw unit :=
  if Nat.eqb (length (barrierTensors_ w)) 0 then ret tt
  else for_each (devices_ w) (fun device =>
         do! on_lib (sys (set_index (device_index device))) in on_lib (sys cudaDeviceSynchronize)).
Definition synchronizeInternal (fuel : nat) (timeout : Z) : Mw unit :=
  do! synchronizeStreams in
  let! w := self id in
  do! (if w_blockingWait_ w then
         let _workTimeout := if timeout =? kNoTimeout then w_opTimeout_ w else timeout in
         do! wait_loop fuel in checkAndThrowException
       else ret tt) in
  synchronize_devices w.
Definition synchronize (fuel : nat) : Mw unit := synchronizeInternal fuel kNoTimeout.
Definition wait (fuel : nat) (timeout : Z) : Mw bool := do! synchronizeInternal fuel timeout in ret true.

Definition WorkNCCL_abort : Mw unit := throw (CheckFailed "ProcessGroupNCCL::WorkNCCL::abort not implemented.").
(** [return *outputs_] *)
Definition result : Mw (list CudaTensor) :=
  let! o := self outputs_ in match o with Some l => ret l | None => throw (Undefined "null outputs_") end.
Definition getFuture : Mw (option (list CudaTensor)) := self future_.
End work.

(** ** The process group *)

(** [ncclActiveGroupCounter_], [current_device] and [free_mutex] (the mutex of the
    caching allocator, held or not) are those of the user thread and its process. *)
Record group := mkGroup {
  ncclCommCounter_ : Z;
  devNCCLCommMap_ : gmap bytes (list nat);
  ncclIdToCommMap_ : gmap bytes (list nat);
  ncclStreams_ : gmap bytes (list stream_t);
  ncclEvents_ : gmap bytes (list event_t);
  usedDeviceIdxs_ : list Z;
  terminateProcessGroup_ : bool;
  workMetaList_ : list WorkNCCL;
  abortedComms_ : gset bytes;
  ncclActiveGroupCounter_ : Z;
  free_mutex : bool;
  current_device : Z;
  next_event : nat;
}.
Definition upd_ncclCommCounter_ (f : Z -> Z) (g : group) : group :=
  mkGroup (f (ncclCommCounter_ g)) (devNCCLCommMap_ g) (ncclIdToCommMap_ g) (ncclStreams_ g) (ncclEvents_ g) (usedDeviceIdxs_ g)
    (terminateProcessGroup_ g) (workMetaList_ g) (abortedComms_ g) (ncclActiveGroupCounter_ g) (free_mutex g) (current_device g) (next_event g).
Definition upd_devNCCLCommMap_ (f : (gmap bytes (list nat)) -> (gmap bytes (list nat))) (g : group) : group :=
  mkGroup (ncclCommCounter_ g) (f (devNCCLCommMap_ g)) (ncclIdToCommMap_ g) (ncclStreams_ g) (ncclEvents_ g) (usedDeviceIdxs_ g)
    (terminateProcessGroup_ g) (workMetaList_ g) (abortedComms_ g) (ncclActiveGroupCounter_ g) (free_mutex g) (current_device g) (next_event g).
Definition upd_ncclIdToCommMap_ (f : (gmap bytes (list nat)) -> (gmap bytes (list nat))) (g : group) : group :=
  mkGroup (ncclCommCounter_ g) (devNCCLCommMap_ g) (f (ncclIdToCommMap_ g)) (ncclStreams_ g) (ncclEvents_ g) (usedDeviceIdxs_ g)
    (terminateProcessGroup_ g) (workMetaList_ g) (abortedComms_ g) (ncclActiveGroupCounter_ g) (free_mutex g) (current_device g) (next_event g).
Definition upd_ncclStreams_ (f : (gmap bytes (list stream_t)) -> (gmap bytes (list stream_t))) (g : group) : group :=
  mkGroup (ncclCommCounter_ g) (devNCCLCommMap_ g) (ncclIdToCommMap_ g) (f (ncclStreams_ g)) (ncclEvents_ g) (usedDeviceIdxs_ g)
    (terminateProcessGroup_ g) (workMetaList_ g) (abortedComms_ g) (ncclActiveGroupCounter_ g) (free_mutex g) (current_device g) (next_event g).
Definition upd_ncclEvents_ (f : (gmap bytes (list event_t)) -> (gmap bytes (list event_t))) (g : group) : group :=
  mkGroup (ncclCommCounter_ g) (devNCCLCommMap_ g) (ncclIdToCommMap_ g) (ncclStreams_ g) (f (ncclEvents_ g)) (usedDeviceIdxs_ g)
    (terminateProcessGroup_ g) (workMetaList_ g) (abortedComms_ g) (ncclActiveGroupCounter_ g) (free_mutex g) (current_device g) (next_event g).
Definition upd_usedDeviceIdxs_ (f : (list Z) -> (list Z)) (g : group) : group :=
  mkGroup (ncclCommCounter_ g) (devNCCLCommMap_ g) (ncclIdToCommMap_ g) (ncclStreams_ g) (ncclEvents_ g) (f (usedDeviceIdxs_ g))
    (terminateProcessGroup_ g) (workMetaList_ g) (abortedComms_ g) (ncclActiveGroupCounter_ g) (free_mutex g) (current_device g) (next_event g).
Definition upd_terminateProcessGroup_ (f : bool -> bool) (g : group) : group :=
  mkGroup (ncclCommCounter_ g) (devNCCLCommMap_ g) (ncclIdToCommMap_ g) (ncclStreams_ g) (ncclEvents_ g) (usedDeviceIdxs_ g)
    (f (terminateProcessGroup_ g)) (workMetaList_ g) (abortedComms_ g) (ncclActiveGroupCounter_ g) (free_mutex g) (current_device g) (next_event g).
Definition upd_workMetaList_ (f : (list WorkNCCL) -> (list WorkNCCL)) (g : group) : group :=
  mkGroup (ncclCommCounter_ g) (devNCCLCommMap_ g) (ncclIdToCommMap_ g) (ncclStreams_ g) (ncclEvents_ g) (usedDeviceIdxs_ g)
    (terminateProcessGroup_ g) (f (workMetaList_ g)) (abortedComms_ g) (ncclActiveGroupCounter_ g) (free_mutex g) (current_device g) (next_event g).
Definition upd_abortedComms_ (f : (gset bytes) -> (gset bytes)) (g : group) : group :=
  mkGroup (ncclCommCounter_ g) (devNCCLCommMap_ g) (ncclIdToCommMap_ g) (ncclStreams_ g) (ncclEvents_ g) (usedDeviceIdxs_ g)
    (terminateProcessGroup_ g) (workMetaList_ g) (f (abortedComms_ g)) (ncclActiveGroupCounter_ g) (free_mutex g) (current_device g) (next_event g).
Definition upd_ncclActiveGroupCounter_ (f : Z -> Z) (g : group) : group :=
  mkGroup (ncclCommCounter_ g) (devNCCLCommMap_ g) (ncclIdToCommMap_ g) (ncclStreams_ g) (ncclEvents_ g) (usedDeviceIdxs_ g)
    (terminateProcessGroup_ g) (workMetaList_ g) (abortedComms_ g) (f (ncclActiveGroupCounter_ g)) (free_mutex g) (current_device g) (next_event g).
Definition upd_free_mutex (f : bool -> bool) (g : group) : group :=
  mkGroup (ncclCommCounter_ g) (devNCCLCommMap_ g) (ncclIdToCommMap_ g) (ncclStreams_ g) (ncclEvents_ g) (usedDeviceIdxs_ g)
    (terminateProcessGroup_ g) (workMetaList_ g) (abortedComms_ g) (ncclActiveGroupCounter_ g) (f (free_mutex g)) (current_device g) (next_event g).
Definition upd_current_device (f : Z -> Z) (g : group) : group :=
  mkGroup (ncclCommCounter_ g) (devNCCLCommMap_ g) (ncclIdToCommMap_ g) (ncclStreams_ g) (ncclEvents_ g) (usedDeviceIdxs_ g)
    (terminateProcessGroup_ g) (workMetaList_ g) (abortedComms_ g) (ncclActiveGroupCounter_ g) (free_mutex g) (f (current_device g)) (next_event g).
Definition upd_next_event (f : nat -> nat) (g : group) : group :=
  mkGroup (ncclCommCounter_ g) (devNCCLCommMap_ g) (ncclIdToCommMap_ g) (ncclStreams_ g) (ncclEvents_ g) (usedDeviceIdxs_ g)
    (terminateProcessGroup_ g) (workMetaList_ g) (abortedComms_ g) (ncclActiveGroupCounter_ g) (free_mutex g) (current_device g) (f (next_event g)).

(** Two containers: std::set<int>, and emplace() of a map. *)
Fixpoint set_insert (x : Z) (l : list Z) : list Z :=
  match l with
  | [] => [x]
  | y :: l' => if x <? y then x :: l else if x =? y then l else y :: set_insert x l'
  end.
Definition emplace {V} (k : bytes) (v : V) (m : gmap bytes V) : gmap bytes V :=
  match m !! k with Some _ => m | None => <[k := v]> m end.
Fixpoint repeat_M {S} (n : nat) (m : M S unit) : M S unit :=
  match n with O => ret tt | Datatypes.S n => do! m in repeat_M n m end.

Section group.
Context {E : Type} (handle : forall c : call, M E (answer c)) (store : StoreOps E) (NCCL_UNIQUE_ID_BYTES : Z) (cfg : config).
#[local] Set Default Proof Using "Type".
#[local] Set Proof Using Clear Unused.
Abbreviation sys c := (NCCL.sys handle c).
Abbreviation heap := (gmap nat NCCLComm).
Abbreviation cst := (heap * world (E := E))%type.
Abbreviation st := (group * cst)%type.
Abbreviation Mg := (M st).

Definition grp {A} (f : group -> A) : Mg A := gets (fun s => f s.1).
Definition upd (f : group -> group) : Mg unit := modify (fun s => (f s.1, s.2)).
Definition lsys {A} (m : M (world (E := E)) A) : Mg A := below (below m).
Definition nccl_check (m : M (world (E := E)) ncclResult_t) : Mg unit := let! r := lsys m in lift (C10D_NCCL_CHECK r).

(** *** Guards *)

(** The scope of an OptionalCUDAGuard, and its [set_index]. *)
Definition gpuGuard {A} (m : Mg A) : Mg A := fun s =>
  let '(o, s') := m s in (o, (upd_current_device (fun _ => current_device s.1) s'.1, s'.2)).
Definition guard_set_index (i : Z) : Mg unit :=
  do! lsys (sys (set_index i)) in upd (upd_current_device (fun _ => i)).

(** AutoNcclGroup.  The mutex is not recursive.  A destructor that throws while an
    exception propagates takes the process down. *)
Definition lock_free_mutex : Mg unit := fun s =>
  if free_mutex s.1 then (Block, s) else (Ret tt, (upd_free_mutex (fun _ => true) s.1, s.2)).
Definition AutoNcclGroup_ctor : Mg unit := do! lock_free_mutex in nccl_check (sys ncclGroupStart).
Definition AutoNcclGroup_dtor : Mg unit :=
  do! nccl_check (sys ncclGroupEnd) in upd (upd_free_mutex (fun _ => false)).
Definition AutoNcclGroup {A} (m : Mg A) : Mg A := fun s =>
  match AutoNcclGroup_ctor s with
  | (Ret _, s1) =>
      match m s1 with
      | (Ret a, s2) => (do! AutoNcclGroup_dtor in ret a) s2
      | (Throw e, s2) =>
          match AutoNcclGroup_dtor s2 with
          | (Ret _, s3) => (Throw e, s3)
          | (Throw _, s3) => (Throw (Undefined "std::terminate"), s3)
          | (Block, s3) => (Block, s3)
          end
      | (Block, s2) => (Block, s2)
      end
  | (Throw e, s1) => (Throw e, s1)
  | (Block, s1) => (Block, s1)
  end.

Definition groupStart : Mg unit :=
  do! nccl_check (sys ncclGroupStart) in upd (upd_ncclActiveGroupCounter_ (fun c => uint64 (c + 1))).
Definition groupEnd : Mg unit :=
  do! nccl_check (sys ncclGroupEnd) in upd (upd_ncclActiveGroupCounter_ (fun c => uint64 (c - 1))).

(** *** Communicators *)

(** [ncclID]: the id before the call.  The result is the id after it. *)
Definition broadcastUniqueNCCLID (ncclID : bytes) (opType : OpType) (p2pKey : bytes) (p2pRank : Z) : Mg bytes :=
  let! storeKey :=
    if negb (isP2POp opType) then
      let! c := grp ncclCommCounter_ in
      do! upd (upd_ncclCommCounter_ (fun c => uint64 (c + 1))) in
      ret (to_string c)
    else ret p2pKey in
  if (rank_ cfg =? 0) || (isP2POp opType && (p2pRank =? 0)) then
    do! lsys (in_ext (store_set store storeKey ncclID)) in ret ncclID
  else
    let! vec := lsys (in_ext (store_get store storeKey)) in
    do! assert_ (Z.of_nat (length vec) =? NCCL_UNIQUE_ID_BYTES) (CheckFailed "vec.size() == NCCL_UNIQUE_ID_BYTES") in
    ret vec.

(** std::make_shared *)
Definition new_comm (c : NCCLComm) : Mg nat := fun s =>
  let o := fresh (dom s.2.1) in (Ret o, (s.1, (<[o := c]> s.2.1, s.2.2))).
(** [ncclComms[i] = NCCLComm::create(...)] *)
Definition create_comm (numRanks rank : Z) (ncclID : bytes) : Mg nat :=
  let! comm := lsys (NCCLComm_create handle numRanks rank ncclID) in new_comm comm.
Definition new_events (n : nat) : Mg (list event_t) :=
  let! e := grp next_event in do! upd (upd_next_event (Nat.add n)) in ret (seq e n).

(** The number of NCCL ranks and the rank of the i-th device. *)
Definition nccl_rank (n i : nat) (opType : OpType) (p2pRank : Z) (isSendRecvSelf : bool) : Z * Z :=
  if negb (isP2POp opType) then (int32 (size_ cfg * Z.of_nat n), int32 (rank_ cfg * Z.of_nat n + Z.of_nat i))
  else if isSendRecvSelf then (1, 0) else (2, p2pRank).

(** The loop that creates a communicator and a stream per device. *)
Fixpoint create_comms (n i : nat) (devices : list Device) (opType : OpType) (p2pRank : Z) (isSendRecvSelf : bool) (ncclID : bytes)
  : Mg (list nat * list stream_t) :=
  match devices with
  | [] => ret ([], [])
  | device :: devices =>
      let '(numRanks, rank) := nccl_rank n i opType p2pRank isSendRecvSelf in
      do! guard_set_index (device_index device) in
      let! c := create_comm numRanks rank ncclID in
      let! stream := lsys (sys (getStreamFromPool (isHighPriorityStream_ cfg))) in
      let! r := create_comms n (S i) devices opType p2pRank isSendRecvSelf ncclID in
      ret (c :: fst (r : list nat * list stream_t), stream :: snd (r : list nat * list stream_t))
  end.

(** The part of getNCCLComm() that makes the communicators, the streams and the
    events of a new entry of the cache: their id and the communicators. *)
Definition create_entry (devicesKey : bytes) (devices : list Device) (opType : OpType) (p2pRank : Z) (isSendRecvSelf : bool)
  : Mg (bytes * list nat) :=
  let! ncclID :=
    if (rank_ cfg =? 0) || (isP2POp opType && (p2pRank =? 0)) then
      let! r := lsys (sys ncclGetUniqueId) in
      do! lift (C10D_NCCL_CHECK (fst (r : ncclResult_t * bytes))) in
      ret (snd (r : ncclResult_t * bytes))
    else ret [] in
  let! ncclID := if (isSendRecvSelf : bool) then ret ncclID else broadcastUniqueNCCLID ncclID opType devicesKey p2pRank in
  let! r := gpuGuard (
    let! active := grp (fun g => Z.to_nat (ncclActiveGroupCounter_ g)) in
    do! repeat_M active (nccl_check (sys ncclGroupEnd)) in
    do! nccl_check (sys ncclGroupStart) in
    let! r := create_comms (length devices) 0 devices opType p2pRank isSendRecvSelf ncclID in
    do! nccl_check (sys ncclGroupEnd) in
    do! repeat_M active (nccl_check (sys ncclGroupStart)) in
    ret r) in
  let ncclComms := fst (r : list nat * list stream_t) in
  do! upd (upd_ncclStreams_ (emplace devicesKey (snd (r : list nat * list stream_t)))) in
  let! events := new_events (length devices) in
  do! upd (upd_ncclEvents_ (emplace devicesKey events)) in
  ret (ncclID, ncclComms).

Definition getNCCLComm (devicesKey : bytes) (devices : list Device) (opType : OpType) (p2pRank : Z) (isSendRecvSelf : bool)
  : Mg (list nat) :=
  do! assert_ (negb (Nat.eqb (length devicesKey) 0))
    (RuntimeError "Not able to create/get the NCCL Communicator since the GPU devices are not known") in
  do! for_each devices (fun device => upd (upd_usedDeviceIdxs_ (set_insert (device_index device)))) in
  let! cached := grp devNCCLCommMap_ in
  match cached !! devicesKey with
  | Some ncclComms => ret ncclComms
  | None =>
      let! r := create_entry devicesKey devices opType p2pRank isSendRecvSelf in
      let '(ncclID, ncclComms) := r in
      do! upd (upd_ncclIdToCommMap_ (emplace (buildNcclUniqueIdStr ncclID) ncclComms)) in
      do! upd (upd_devNCCLCommMap_ (emplace devicesKey ncclComms)) in
      let! m := grp devNCCLCommMap_ in
      ret (default [] (m !! devicesKey))
  end.

(** *** Launching operations *)

Definition syncStreams (devices : list Device) (ncclEvents : list event_t) (ncclStreams : list stream_t) : Mg unit :=
  for_each (indices devices) (fun i =>
    let! device := lift (at_ devices i) in
    let! ncclStream := lift (at_ ncclStreams i) in
    let! ncclEvent := lift (at_ ncclEvents i) in
    let! current := lsys (sys (getCurrentCUDAStream (device_index device))) in
    do! lsys (sys (event_record ncclEvent current)) in
    lsys (sys (event_block ncclEvent ncclStream))).

(** The CUDA guard, [recordStream] and the launch of the i-th tensor. *)
Definition record_input (devices : list Device) (tensors : list CudaTensor) (streams : list stream_t) (i : nat) : Mg unit :=
  let! device := lift (at_ devices i) in
  do! guard_set_index (device_index device) in
  let! ncclStream := lift (at_ streams i) in
  let! t := lift (at_ tensors i) in
  lsys (sys (recordStream t ncclStream)).
Definition launch (devices : list Device) (ncclComms : list nat) (streams : list stream_t)
    (fn : nat -> comm_t -> stream_t -> M (world (E := E)) ncclResult_t) (i : nat) : Mg unit :=
  let! device := lift (at_ devices i) in
  do! guard_set_index (device_index device) in
  let! ncclStream := lift (at_ streams i) in
  let! c := lift (at_ ncclComms i) in
  let! comm := below (on_comm c getNcclComm) in
  nccl_check (fn i comm ncclStream).
(** The loop that records the events of the work and keeps its communicators. *)
Fixpoint record_work (events : list event_t) (ncclComms : list nat) (streams : list stream_t) (idx : list nat) : Mg (list (option nat)) :=
  match idx with
  | [] => ret []
  | i :: idx =>
      let! ncclStream := lift (at_ streams i) in
      let! event := lift (at_ events i) in
      do! lsys (sys (event_record event ncclStream)) in
      let! c := lift (at_ ncclComms i) in
      let! l := record_work events ncclComms streams idx in
      ret (Some c :: l)
  end.

Definition initWork (devices : list Device) (opType : OpType) (profiled : bool) : Mg WorkNCCL :=
  let! now := lsys (sys steady_clock_now) in
  let! events := new_events (length devices) in
  ret (new_WorkNCCL devices events now (rank_ cfg) opType profiled).

Definition workEnqueue (w : WorkNCCL) : Mg unit :=
  let! stop := grp terminateProcessGroup_ in
  if (stop : bool) then ret tt else upd (upd_workMetaList_ (fun l => l ++ [copy_WorkNCCL w])).

(** The assignments to the new work, and its profiling callback. *)
Definition finish_work (comms : list (option nat)) (outputs : option (list CudaTensor)) (future : option (list CudaTensor)) (w : WorkNCCL) : WorkNCCL :=
  mkWorkNCCL (work w) (devices_ w) (cudaEvents_ w) comms (barrierTensors_ w) (blockingWait_ cfg) (opTimeout_ cfg)
    (workStartTime_ w) true outputs future.
Definition end_profiling (w : Work) : Work :=
  mkWork (completed_ w) (exception_ w) (wk_rank_ w) (opType_ w) (recordFunctionEndCallback_ w)
    (if recordFunctionEndCallback_ w then S (end_runs w) else end_runs w).

Definition collective (inputs outputs : list CudaTensor) (fn : CudaTensor -> CudaTensor -> comm_t -> stream_t -> M (world (E := E)) ncclResult_t)
    (pre post : list stream_t -> M (world (E := E)) unit) (opType : OpType) (titled : bool) : Mg WorkNCCL :=
  let devices := getDeviceList inputs in
  let key := getKeyFromDevices devices in
  let! ncclComms := getNCCLComm key devices opType 0 false in
  let! events := grp (fun g => default [] (ncclEvents_ g !! key)) in
  let! streams := grp (fun g => default [] (ncclStreams_ g !! key)) in
  do! syncStreams devices events streams in
  let can_profile := Nat.eqb (length outputs) 1 in
  let! w := initWork devices opType (can_profile && titled && profiling cfg) in
  let! comms := gpuGuard (
    do! lsys (pre streams) in
    do! for_each (indices inputs) (record_input devices inputs streams) in
    do! AutoNcclGroup (for_each (indices inputs) (launch devices ncclComms streams (fun i comm stream =>
      let! input := lift (at_ inputs i) in
      let! output := lift (at_ outputs i) in
      fn input output comm stream))) in
    do! lsys (post streams) in
    record_work (cudaEvents_ w) ncclComms streams (indices inputs)) in
  let w := upd_work end_profiling (finish_work comms (Some outputs) (Some outputs) w) in
  do! (if asyncErrorHandling_ cfg then workEnqueue w else ret tt) in
  ret w.

Definition pointToPoint (tensors : list CudaTensor) (fn : CudaTensor -> comm_t -> stream_t -> Z -> M (world (E := E)) ncclResult_t)
    (peer : Z) (opType : OpType) (pre post : list stream_t -> M (world (E := E)) unit) : Mg WorkNCCL :=
  let devices := getDeviceList tensors in
  let key := getKeySendRecv (rank_ cfg) peer in
  let p2pRank := if rank_ cfg <=? peer then 0 else 1 in
  let isSendRecvSelf := rank_ cfg =? peer in
  let! ncclComms := getNCCLComm key devices opType p2pRank isSendRecvSelf in
  let! events := grp (fun g => default [] (ncclEvents_ g !! key)) in
  let! streams := grp (fun g => default [] (ncclStreams_ g !! key)) in
  do! syncStreams devices events streams in
  let! w := initWork devices opType false in
  let outputs := if bool_decide (opType = RECV) then Some tensors else None in
  let! comms := gpuGuard (
    do! lsys (pre streams) in
    do! for_each (indices tensors) (record_input devices tensors streams) in
    do! AutoNcclGroup (for_each (indices tensors) (launch devices ncclComms streams (fun i comm stream =>
      let p2pTargetRank := if isSendRecvSelf then 0 else 1 - p2pRank in
      let! t := lift (at_ tensors i) in
      fn t comm stream p2pTargetRank))) in
    do! lsys (post streams) in
    record_work (cudaEvents_ w) ncclComms streams (indices tensors)) in
  ret (finish_work comms outputs outputs w).

(** *** The collectives *)

Definition no_process (_ : list stream_t) : M (world (E := E)) unit := ret tt.
Definition with_type {A} (t : Tensor) (k : ncclDataType_t -> M (world (E := E)) A) : M (world (E := E)) A :=
  let! datatype := lift (getNcclDataType (scalar_type t)) in k datatype.

Definition allreduce (tensors : list CudaTensor) (reduceOp : ReduceOp) : Mg WorkNCCL :=
  do! lsys (check_gpu_tensors handle tensors) in
  collective tensors tensors (fun input output comm stream =>
    with_type input (fun datatype =>
    let! op := lift (getNcclReduceOp reduceOp (scalar_type input)) in
    sys (ncclAllReduce input output (numel input) datatype op comm stream)))
    no_process no_process ALLREDUCE true.

(** [opts.rootRank * tensors.size() + opts.rootTensor], a size_t that NCCL takes as
    an int. *)
Definition root_of (rootRank rootTensor : Z) (n : nat) : Z := int32 (uint64 (rootRank * Z.of_nat n + rootTensor)).

Definition broadcast (tensors : list CudaTensor) (rootRank rootTensor : Z) : Mg WorkNCCL :=
  do! lsys (check_gpu_tensors handle tensors) in
  collective tensors tensors (fun input output comm stream =>
    with_type input (fun datatype =>
    sys (ncclBcast input (numel input) datatype (root_of rootRank rootTensor (length tensors)) comm stream)))
    no_process no_process BROADCAST true.

Definition reduce (tensors : list CudaTensor) (reduceOp : ReduceOp) (rootRank rootTensor : Z) : Mg WorkNCCL :=
  do! lsys (check_gpu_tensors handle tensors) in
  collective tensors tensors (fun input output comm stream =>
    with_type input (fun datatype =>
    let! op := lift (getNcclReduceOp reduceOp (scalar_type input)) in
    sys (ncclReduce input output (numel input) datatype op (root_of rootRank rootTensor (length tensors)) comm stream)))
    no_process no_process REDUCE true.

(** The copies between the lists of tensors and the flat tensors, on the NCCL
    streams; [to_flat]: into the flat tensors. *)
Definition copy_flattened (to_flat : bool) (tensors : list (list CudaTensor)) (flattened : list CudaTensor) (streams : list stream_t)
  : M (world (E := E)) unit :=
  for_each (indices tensors) (fun i =>
    let! stream := lift (at_ streams i) in
    let! l0 := lift (at_ tensors 0) in
    for_each (indices l0) (fun j =>
      let! l := lift (at_ tensors i) in
      let! t := lift (at_ l j) in
      do! sys (recordStream t stream) in
      let! flat := lift (at_ flattened i) in
      let! part := sys (select flat j) in
      if to_flat then sys (copy_async part t stream) else sys (copy_async t part stream))).

Definition allgather (outputTensors : list (list CudaTensor)) (inputTensors : list CudaTensor) : Mg WorkNCCL :=
  do! lsys (check_gpu_tensors handle inputTensors) in
  let! outputFlattened := lsys (flatten_for_scatter_gather handle outputTensors inputTensors (size_ cfg)) in
  do! lsys (check_gpu_tensors handle outputFlattened) in
  collective inputTensors outputFlattened (fun input output comm stream =>
    do! sys (recordStream output stream) in
    with_type input (fun datatype => sys (ncclAllGather input output (numel input) datatype comm stream)))
    no_process (copy_flattened false outputTensors outputFlattened) ALLGATHER true.

Definition reduce_scatter (outputTensors : list CudaTensor) (inputTensors : list (list CudaTensor)) (reduceOp : ReduceOp) : Mg WorkNCCL :=
  do! lsys (check_gpu_tensors handle outputTensors) in
  let! inputFlattened := lsys (flatten_for_scatter_gather handle inputTensors outputTensors (size_ cfg)) in
  do! lsys (check_gpu_tensors handle inputFlattened) in
  collective inputFlattened outputTensors (fun input output comm stream =>
    do! sys (recordStream output stream) in
    with_type input (fun datatype =>
    let! op := lift (getNcclReduceOp reduceOp (scalar_type input)) in
    sys (ncclReduceScatter input output (numel output) datatype op comm stream)))
    (copy_flattened true inputTensors inputFlattened) no_process REDUCE_SCATTER true.

(** barrier(): the devices, their tensors, an allreduce.  The work takes over the
    tensors. *)
Definition barrier_devices (device_ids : list Z) : Mg (list Device) :=
  let! used := grp usedDeviceIdxs_ in
  match device_ids, used with
  | _ :: _, _ => ret (map (mkDevice kCUDA) device_ids)
  | [], [] =>
      let! numGPUs := lsys (sys getNumGPUs) in
      ret [mkDevice kCUDA (int16 (Z.rem (rank_ cfg) numGPUs))]
  | [], _ => ret (map (mkDevice kCUDA) used)
  end.
Fixpoint barrier_tensors (devices : list Device) : Mg (list CudaTensor) :=
  match devices with
  | [] => ret []
  | device :: devices =>
      do! guard_set_index (device_index device) in
      let! t := lsys (sys (at_empty_byte (device_index device))) in
      let! l := barrier_tensors devices in ret (t :: l)
  end.
Definition set_barrierTensors_ (l : list CudaTensor) (w : WorkNCCL) : WorkNCCL :=
  mkWorkNCCL (work w) (devices_ w) (cudaEvents_ w) (ncclComms_ w) l (w_blockingWait_ w) (w_opTimeout_ w) (workStartTime_ w)
    (store_ w) (outputs_ w) (future_ w).
Definition barrier (device_ids : list Z) : Mg WorkNCCL :=
  let! devices := barrier_devices device_ids in
  gpuGuard (
    let! barrierTensors := barrier_tensors devices in
    let! w := allreduce barrierTensors SUM in
    ret (set_barrierTensors_ barrierTensors w)).

(** checkSplitSizes() of Utils.hpp reads the size after its test of the number of
    splits. *)
Definition size0 (t : Tensor) : outcome Z :=
  match tsizes (base t) with [] => Throw (CheckFailed "Dimension specified as 0 but tensor has no dimensions") | d :: _ => Ret d end.
Definition checkSplitSizes_of (split_sizes : list Z) (t : Tensor) : outcome unit :=
  check! Nat.eqb (length split_sizes) 0 || (Z.of_nat (length split_sizes) =? uint64 (size_ cfg))
    else CheckFailed "Number of tensor splits not equal to group size" in
  let? dim0 := size0 t in checkSplitSizes split_sizes dim0 (size_ cfg).

Definition alltoall_base (outputTensor inputTensor : CudaTensor) (outputSplitSizes inputSplitSizes : list Z) : Mg WorkNCCL :=
  do! lift (check_gpu_single_tensor outputTensor) in
  do! lift (check_gpu_single_tensor inputTensor) in
  if Nat.eqb (length outputSplitSizes) 0 && Nat.eqb (length inputSplitSizes) 0 then
    collective [inputTensor] [outputTensor] (fun input output comm stream =>
      do! sys (recordStream output stream) in
      do! sys (all2all_single_equal_split input output (size_ cfg) comm stream) in
      ret ncclSuccess)
      no_process no_process ALLTOALL_BASE true
  else
    do! lift (checkSplitSizes_of inputSplitSizes inputTensor) in
    do! lift (checkSplitSizes_of outputSplitSizes outputTensor) in
    collective [inputTensor] [outputTensor] (fun input output comm stream =>
      let lengths l (t : CudaTensor) :=
        lift (let? dim0 := size0 t in computeLengthsAndOffsets l dim0 (numel t) (Z.to_nat (size_ cfg))) in
      let! send := lengths inputSplitSizes input in
      let! recv := lengths outputSplitSizes output in
      do! sys (recordStream output stream) in
      do! sys (all2all_single_unequal_split input (fst (fst (send : list Z * list Z * Z))) (snd (fst (send : list Z * list Z * Z)))
        output (fst (fst (recv : list Z * list Z * Z))) (snd (fst (recv : list Z * list Z * Z))) (scalar_type input) comm stream) in
      ret ncclSuccess)
      no_process no_process ALLTOALL_BASE true.

Definition alltoall (outputTensors inputTensors : list CudaTensor) : Mg WorkNCCL :=
  let! output0 := lift (at_ outputTensors 0) in
  do! for_each (indices outputTensors) (fun r =>
    let! output := lift (at_ outputTensors r) in
    do! lift (check_gpu_single_tensor output) in
    let! input := lift (at_ inputTensors r) in
    do! lift (check_gpu_single_tensor input) in
    assert_ (bool_decide (device_of output0 = device_of output) && bool_decide (device_of output0 = device_of input))
      (CheckFailed "Tensors must be on the same device")) in
  let! input0 := lift (at_ inputTensors 0) in
  collective [input0] [output0] (fun _ _ comm stream =>
    do! sys (all2all outputTensors inputTensors comm stream) in ret ncclSuccess)
    no_process no_process ALLTOALL false.

Definition send (tensors : list CudaTensor) (dstRank : Z) : Mg WorkNCCL :=
  do! lsys (check_gpu_tensors handle tensors) in
  pointToPoint tensors (fun input comm stream dst => do! sys (nccl_send input comm stream dst) in ret ncclSuccess)
    dstRank SEND no_process no_process.
Definition recv (tensors : list CudaTensor) (srcRank : Z) : Mg WorkNCCL :=
  do! lsys (check_gpu_tensors handle tensors) in
  pointToPoint tensors (fun output comm stream src => do! sys (nccl_recv output comm stream src) in ret ncclSuccess)
    srcRank RECV no_process no_process.

(** The functions of the interface. *)
Inductive nccl_op : Type :=
  | OpBroadcast (tensors : list CudaTensor) (rootRank rootTensor : Z)
  | OpAllreduce (tensors : list CudaTensor) (reduceOp : ReduceOp)
  | OpAllreduceCoalesced (tensors : list CudaTensor)
  | OpReduce (tensors : list CudaTensor) (reduceOp : ReduceOp) (rootRank rootTensor : Z)
  | OpAllgather (outputTensors : list (list CudaTensor)) (inputTensors : list CudaTensor)
  | OpAllgatherBase (outputbuffer inputbuffer : CudaTensor)
  | OpAllgatherCoalesced (outputTensorLists : list (list CudaTensor)) (inputTensors : list CudaTensor)
  | OpReduceScatter (outputTensors : list CudaTensor) (inputTensors : list (list CudaTensor)) (reduceOp : ReduceOp)
  | OpBarrier (device_ids : list Z)
  | OpAlltoallBase (outputTensor inputTensor : CudaTensor) (outputSplitSizes inputSplitSizes : list Z)
  | OpAlltoall (outputTensors inputTensors : list CudaTensor)
  | OpSend (tensors : list CudaTensor) (dstRank : Z)
  | OpRecv (tensors : list CudaTensor) (srcRank : Z)
  | OpGather (outputTensors : list (list CudaTensor)) (inputTensors : list CudaTensor)
  | OpScatter (outputTensors : list CudaTensor) (inputTensors : list (list CudaTensor))
  | OpRecvAnysource (tensors : list CudaTensor).

Definition nccl_call (op : nccl_op) : Mg WorkNCCL :=
  match op with
  | OpBroadcast l r t => broadcast l r t
  | OpAllreduce l o => allreduce l o
  | OpAllreduceCoalesced _ => throw (RuntimeError "allreduce_coalesced is currently not supported with NCCL")
  | OpReduce l o r t => reduce l o r t
  | OpAllgather o i => allgather o i
  | OpAllgatherBase _ _ => throw (RuntimeError "no support for allgather_base in NCCL process group")
  | OpAllgatherCoalesced _ _ => throw (RuntimeError "ProcessGroupNCCL does not support allgather_coalesced")
  | OpReduceScatter o i op => reduce_scatter o i op
  | OpBarrier ids => barrier ids
  | OpAlltoallBase o i osizes isizes => alltoall_base o i osizes isizes
  | OpAlltoall o i => alltoall o i
  | OpSend l r => send l r
  | OpRecv l r => recv l r
  | OpGather _ _ => throw (RuntimeError "ProcessGroupNCCL does not support gather")
  | OpScatter _ _ => throw (RuntimeError "ProcessGroupNCCL does not support scatter")
  | OpRecvAnysource _ => throw (RuntimeError "ProcessGroupNCCL does not support recvAnysource")
  end.
End group.

(** *** Construction *)

Section construction.
Context {E : Type} (handle : forall c : call, M E (answer c)).

(** The two environment variables; the threads start with the result. *)
Definition construct (rank size : Z) (options : Options) (env_blocking env_async : option bytes) (profiling : bool)
  : M (world (E := E)) config :=
  let! numGPUs := sys handle getNumGPUs in
  do! assert_ (negb (numGPUs =? 0)) (CheckFailed "ProcessGroupNCCL is only supported with GPUs, no GPUs found!") in
  let! blockingWait := lift (parseEnvVarFlag env_blocking) in
  let! asyncErrorHandling := lift (parseEnvVarFlag env_async) in
  ret (mkConfig rank size blockingWait (if blockingWait && asyncErrorHandling then false else asyncErrorHandling)
    (opTimeout options) (isHighPriorityStream options) profiling).
End construction.
Definition new_group : group := mkGroup 0 ∅ ∅ ∅ ∅ [] false [] ∅ 0 false 0 0.
