(* ===== verification/NCCLThreads.v ===== *)
(** * The threads of ProcessGroupNCCL

    Models the watchdog, the clean-up loop and the destructor of
    csrc/c10d/distributed/c10d/ProcessGroupNCCL.cpp, the system of these threads
    and the user's, and proves that no communicator is aborted twice.

    A step of the watchdog is a scan of the cache or of the list of works (while the
    mutex is held), or the treatment of one id: the order in which an unordered
    container is traversed is a choice of the step.  An exception that leaves the
    clean-up thread or the destructor ends the process ([down]), as does undefined
    behaviour. *)

From stdpp Require Import base option list gmap strings relations.
From Stdlib Require Import ZArith Lia.
From S2P Require Import Prelude Decimal NetUtils ProcessGroup Store Tensors NCCL ProcessGroupNCCL.
Import Decimal.

Section threads.
Context {E : Type} (handle : forall c : call, M E (answer c)) (store : StoreOps E) (NCCL_UNIQUE_ID_BYTES : Z) (cfg : config).
#[local] Set Default Proof Using "Type".
#[local] Set Proof Using Clear Unused.
Abbreviation heap := (gmap nat NCCLComm).
Abbreviation cst := (heap * world (E := E))%type.
Abbreviation st := (group * cst)%type.
Abbreviation Mg := (M st).
Abbreviation Mw := (M (WorkNCCL * cst)).

(** A method of the i-th work of workMetaList_. *)
Definition on_work_at {A} (i : nat) (m : Mw A) : Mg A := fun s =>
  match workMetaList_ s.1 !! i with
  | Some w =>
      let '(o, (w', c)) := m (w, s.2) in
      (o, (upd_workMetaList_ (fun l => <[i := w']> l) s.1, c))
  | None => (Throw (Undefined "iterator"), s)
  end.

(** ** The watchdog *)

(** [ncclComm->ncclCommAbort(); abortedCommIds.emplace(...)] for a list *)
Fixpoint abort_comms (comms : list (option nat)) (ids : gset bytes) : M cst (gset bytes) :=
  match comms with
  | [] => ret ids
  | c :: comms =>
      do! on_ptr c (NCCLComm_ncclCommAbort handle) in
      let! id := on_ptr c getNcclId in
      abort_comms comms ({[buildNcclUniqueIdStr id]} ∪ ids)
  end.
Fixpoint comm_ids (comms : list nat) (ids : gset bytes) : M cst (gset bytes) :=
  match comms with
  | [] => ret ids
  | c :: comms => let! id := on_comm c getNcclId in comm_ids comms ({[buildNcclUniqueIdStr id]} ∪ ids)
  end.

(** The scan of the cache, in the [order] of devNCCLCommMap_. *)
Fixpoint scan_comms (order : list (bytes * list nat)) (abortedCommIds allCommIds : gset bytes) : M cst (gset bytes * gset bytes) :=
  match order with
  | [] => ret (abortedCommIds, allCommIds)
  | (_, ncclComms) :: order =>
      let! allCommIds := comm_ids ncclComms allCommIds in
      let! errors := checkForNCCLErrorsInternal handle (Some <$> ncclComms) in
      match errors with
      | Some _ =>
          if blockingWait_ cfg || asyncErrorHandling_ cfg then
            let! abortedCommIds := abort_comms (Some <$> ncclComms) abortedCommIds in
            scan_comms order abortedCommIds allCommIds
          else scan_comms order abortedCommIds allCommIds
      | None => scan_comms order abortedCommIds allCommIds
      end
  end.

(** The body of the loop of abortTimedOutCollectives(). *)
Definition abort_if_timed_out (abortedCommIds : gset bytes) : Mw (gset bytes) :=
  do! checkAndSetException handle in
  let! e := exception in
  match e with
  | Some _ => ret abortedCommIds
  | None =>
      let! late := timedOut handle in
      if (late : bool) then
        let! _now := on_lib (NCCL.sys handle steady_clock_now) in
        do! setException (RuntimeError "Watchdog caught collective operation timeout: ") in
        let! comms := self ncclComms_ in
        below (abort_comms comms abortedCommIds)
      else ret abortedCommIds
  end.
Fixpoint abort_timed_out_loop (idx : list nat) (abortedCommIds : gset bytes) : Mg (gset bytes) :=
  match idx with
  | [] => ret abortedCommIds
  | i :: idx => let! ids := on_work_at i (abort_if_timed_out abortedCommIds) in abort_timed_out_loop idx ids
  end.
Definition abortTimedOutCollectives (abortedCommIds : gset bytes) : Mg (gset bytes) :=
  let! l := gets (fun s => workMetaList_ s.1) in abort_timed_out_loop (indices l) abortedCommIds.

(** An aborted id goes into abortedComms_ and the store. *)
Definition record_aborted (abortedCommId : bytes) : Mg unit :=
  do! upd (upd_abortedComms_ (fun ids => {[abortedCommId]} ∪ ids)) in
  below (below (in_ext (store_set store (getNcclAbortedCommStoreKey abortedCommId) (to_string (rank_ cfg))))).
(** The first half of the try block: the key is waited for and read. *)
Definition find_in_store (commId : bytes) : Mg bytes :=
  let storeKey := getNcclAbortedCommStoreKey commId in
  do! below (below (in_ext (store_wait_for store [storeKey] kWaitForAbortCommStoreKey))) in
  below (below (in_ext (store_get store storeKey))).
(** The second half, with mutex_ held. *)
Definition abort_found (commId : bytes) : Mg unit :=
  let! m := gets (fun s => ncclIdToCommMap_ s.1) in
  match m !! commId with
  | None => throw (AssertFailed "it != ncclIdToCommMap_.end()")
  | Some ncclComms =>
      do! below (for_each ncclComms (fun c => on_comm c (NCCLComm_ncclCommAbort handle))) in
      upd (upd_abortedComms_ (fun ids => {[commId]} ∪ ids))
  end.
(** [try { m } catch (std::exception&) {}]: undefined behaviour is not caught. *)
Definition undefined (e : exn) : bool := match e with Undefined _ => true | _ => false end.
Definition catch_std {S A} (m : M S A) (caught : M S A) : M S A := fun s =>
  match m s with
  | (Throw e, s') => if undefined e then (Throw e, s') else caught s'
  | r => r
  end.

(** ncclCommWatchdogInternal(): where the thread is, with the ids that are left.
    [WExit]: the thread has ended, by an exception or not. *)
Inductive wd_pc : Type :=
  | WTop
  | WScanned (abortedCommIds allCommIds : gset bytes)
  | WRecord (todo allCommIds : gset bytes)
  | WCheck (todo : gset bytes)
  | WFound (commId : bytes) (todo : gset bytes)
  | WSleep
  | WExit (e : option exn).

(** The choices of a step: an order of the cache, one of the ids. *)
Record choice := mkChoice { c_order : list (bytes * list nat); c_id : bytes }.
Definition wd_allows (pc : wd_pc) (c : choice) (s : st) : Prop :=
  match pc with
  | WTop => c_order c ≡ₚ map_to_list (devNCCLCommMap_ s.1)
  | WRecord todo _ | WCheck todo => todo = ∅ \/ c_id c ∈ todo
  | _ => True
  end.

Definition wd_step (c : choice) (pc : wd_pc) : Mg wd_pc :=
  match pc with
  | WTop =>
      let! stop := gets (fun s => terminateProcessGroup_ s.1) in
      if (stop : bool) then ret (WExit None)
      else let! r := below (scan_comms (c_order c) ∅ ∅) in ret (WScanned (fst (r : gset bytes * gset bytes)) (snd (r : gset bytes * gset bytes)))
  | WScanned ids all =>
      let! ids := if asyncErrorHandling_ cfg then abortTimedOutCollectives ids else ret ids in
      ret (if blockingWait_ cfg then WRecord ids all else WSleep)
  | WRecord todo all =>
      if decide (todo = ∅) then ret (WCheck all)
      else do! record_aborted (c_id c) in ret (WRecord (todo ∖ {[c_id c]}) all)
  | WCheck todo =>
      if decide (todo = ∅) then ret WSleep
      else
        let! known := gets (fun s => bool_decide (c_id c ∈ abortedComms_ s.1)) in
        if (known : bool) then ret (WCheck (todo ∖ {[c_id c]}))
        else catch_std (do! find_in_store (c_id c) in ret (WFound (c_id c) (todo ∖ {[c_id c]}))) (ret (WCheck (todo ∖ {[c_id c]})))
  | WFound id todo => catch_std (do! abort_found id in ret (WCheck todo)) (ret (WCheck todo))
  | WSleep => ret WTop
  | WExit e => ret (WExit e)
  end.

(** ** The clean-up thread *)

(** [n] works are left from the [i]-th on. *)
Fixpoint cleanup_loop (n i : nat) : Mg unit :=
  match n with
  | O => ret tt
  | S n =>
      let! completed := on_work_at i (isCompleted handle) in
      if (completed : bool) then
        let! stop := gets (fun s => terminateProcessGroup_ s.1) in
        do! (if (stop : bool) then ret tt else on_work_at i handleNCCLGuard) in
        do! upd (upd_workMetaList_ (fun l => delete i l)) in
        cleanup_loop n i
      else cleanup_loop n (S i)
  end.
(** [CLoop done]: at the head of the loop. *)
Inductive cl_pc : Type := CLoop (done : bool) | CExit.
Definition cl_step (pc : cl_pc) : Mg cl_pc :=
  match pc with
  | CLoop done =>
      let! stop := gets (fun s => terminateProcessGroup_ s.1) in
      if (stop && done)%bool then ret CExit
      else
        let! l := gets (fun s => workMetaList_ s.1) in
        do! cleanup_loop (length l) 0 in
        let! l := gets (fun s => workMetaList_ s.1) in
        ret (CLoop (Nat.eqb (length l) 0))
  | CExit => ret CExit
  end.

(** ** The destructor *)

Inductive ds_pc : Type := DNone | DJoinWatchdog | DAbort | DJoinCleanup | DDone.
#[global] Instance ds_pc_eq_dec : EqDecision ds_pc.
Proof. solve_decision. Defined.
Definition abort_cache (order : list (bytes * list nat)) : M cst unit :=
  for_each order (fun p => for_each p.2 (fun c => on_comm c (NCCLComm_ncclCommAbort handle))).
(** The members are destroyed at the end. *)
Definition destroy_members (g : group) : group :=
  mkGroup (ncclCommCounter_ g) ∅ ∅ ∅ ∅ [] (terminateProcessGroup_ g) [] ∅ (ncclActiveGroupCounter_ g)
    (free_mutex g) (current_device g) (next_event g).
Definition ds_step (c : choice) (wd : wd_pc) (cl : cl_pc) (pc : ds_pc) : Mg ds_pc :=
  match pc with
  | DNone => ret DNone
  | DJoinWatchdog => match wd with WExit _ => ret DAbort | _ => lift Block end
  | DAbort => do! below (abort_cache (c_order c)) in ret DJoinCleanup
  | DJoinCleanup =>
      if asyncErrorHandling_ cfg then
        match cl with CExit => do! upd destroy_members in ret DDone | _ => lift Block end
      else do! upd destroy_members in ret DDone
  | DDone => ret DDone
  end.

(** ** The system *)

Record sys := mkSys {
  state : st;
  works : gmap nat WorkNCCL;
  wd : wd_pc;
  cl : cl_pc;
  ds : ds_pc;
  down : bool;
}.

(** The methods of a WorkNCCL that a user calls; a blocking wait is a sequence of
    rounds. *)
Inductive work_call : Type :=
  | WcRound | WcThrow | WcIsCompleted | WcIsSuccess | WcFinished | WcSynchronizeStreams.
Definition ignore {S A} (m : M S A) : M S unit := let! _x := m in ret tt.
Definition run_work (c : work_call) : Mw unit :=
  match c with
  | WcRound => ignore (wait_round handle store)
  | WcThrow => checkAndThrowException handle
  | WcIsCompleted => ignore (isCompleted handle)
  | WcIsSuccess => ignore (isSuccess handle)
  | WcFinished => ignore (finishedGPUExecution handle)
  | WcSynchronizeStreams => synchronizeStreams handle
  end.

(** Whether a shared_ptr to the communicator exists. *)
Definition referenced (S : sys) (c : nat) : Prop :=
  (exists k l, devNCCLCommMap_ (state S).1 !! k = Some l /\ c ∈ l) \/
  (exists k l, ncclIdToCommMap_ (state S).1 !! k = Some l /\ c ∈ l) \/
  (exists w, w ∈ workMetaList_ (state S).1 /\ Some c ∈ ncclComms_ w) \/
  (exists i w, works S !! i = Some w /\ Some c ∈ ncclComms_ w).

(** What becomes of the system after a step with an outcome: [Block]: the step is
    not taken. *)
Definition settle {A} (S : sys) (o : outcome A) (s : st) (ok : A -> st -> sys) (thrown : exn -> st -> sys) : sys :=
  match o with
  | Ret a => ok a s
  | Throw e =>
      if undefined e then mkSys s (works S) (wd S) (cl S) (ds S) true else thrown e s
  | Block => S
  end.
Definition with_state (S : sys) (s : st) : sys := mkSys s (works S) (wd S) (cl S) (ds S) (down S).
Definition go_down (S : sys) (s : st) : sys := mkSys s (works S) (wd S) (cl S) (ds S) true.

Definition wd_turn (c : choice) (S : sys) : sys :=
  let '(o, s) := wd_step c (wd S) (state S) in
  settle S o s (fun pc s => mkSys s (works S) pc (cl S) (ds S) (down S))
    (fun e s => mkSys s (works S) (WExit (Some e)) (cl S) (ds S) (down S)).
Definition cl_turn (S : sys) : sys :=
  let '(o, s) := cl_step (cl S) (state S) in
  settle S o s (fun pc s => mkSys s (works S) (wd S) pc (ds S) (down S)) (fun _ s => go_down S s).
Definition ds_turn (c : choice) (S : sys) : sys :=
  let '(o, s) := ds_step c (wd S) (cl S) (ds S) (state S) in
  settle S o s (fun pc s => mkSys s (works S) (wd S) (cl S) pc (down S)) (fun _ s => go_down S s).

(** The turns of the user and of the rest of the world.  The destructor runs when
    no operation does. *)
Inductive user_turn (env : E -> E -> Prop) : sys -> sys -> Prop :=
  | UIdle S : user_turn env S S
  | UCall S op :
      ds S = DNone ->
      user_turn env S
        (let '(o, s) := nccl_call handle store NCCL_UNIQUE_ID_BYTES cfg op (state S) in
         settle S o s
           (fun w s => mkSys s (<[fresh (dom (works S)) := w]> (works S)) (wd S) (cl S) (ds S) (down S))
           (fun _ s => with_state S s))
  | UGroup S (start : bool) :
      user_turn env S
        (let '(o, s) := (if start then groupStart handle else groupEnd handle) (state S) in
         settle S o s (fun _ s => with_state S s) (fun _ s => with_state S s))
  | UWork S i w c :
      works S !! i = Some w ->
      user_turn env S
        (let '(o, (w', b)) := run_work c (w, (state S).2) in
         settle S o ((state S).1, b)
           (fun _ s => mkSys s (<[i := w']> (works S)) (wd S) (cl S) (ds S) (down S))
           (fun _ s => mkSys s (<[i := w']> (works S)) (wd S) (cl S) (ds S) (down S)))
  | UDrop S i : user_turn env S (mkSys (state S) (delete i (works S)) (wd S) (cl S) (ds S) (down S))
  | URelease S c comm :
      (state S).2.1 !! c = Some comm -> ~ referenced S c ->
      user_turn env S
        (let '(o, (_, w)) := NCCLComm_destructor handle (comm, (state S).2.2) in
         settle S o ((state S).1, (delete c (state S).2.1, w)) (fun _ s => with_state S s) (fun _ s => go_down S s))
  | UDestroy S :
      ds S = DNone ->
      user_turn env S
        (mkSys (upd_terminateProcessGroup_ (fun _ => true) (state S).1, (state S).2) (works S) (wd S) (cl S) DJoinWatchdog (down S))
  | UEnv S e :
      env (ext (state S).2.2) e ->
      user_turn env S (with_state S ((state S).1, ((state S).2.1, mkWorld (calls (state S).2.2) e))).

Inductive thread : Type := TWatchdog | TCleanup | TDestructor | TUser.
Inductive turn (env : E -> E -> Prop) : thread -> sys -> sys -> Prop :=
  | turn_wd S c : down S = false -> wd_allows (wd S) c (state S) -> turn env TWatchdog S (wd_turn c S)
  | turn_cl S : down S = false -> turn env TCleanup S (cl_turn S)
  | turn_ds S c :
      down S = false -> c_order c ≡ₚ map_to_list (devNCCLCommMap_ (state S).1) ->
      turn env TDestructor S (ds_turn c S)
  | turn_user S S' : down S = false -> user_turn env S S' -> turn env TUser S S'
  | turn_down S t : down S = true -> turn env t S S.

(** A schedule is a sequence of turns. *)
Inductive run (env : E -> E -> Prop) : list thread -> sys -> sys -> Prop :=
  | run_nil S : run env [] S S
  | run_cons t sched S S1 S2 : turn env t S S1 -> run env sched S1 S2 -> run env (t :: sched) S S2.

Definition initial (e : E) : sys :=
  mkSys (new_group, (∅, mkWorld [] e)) ∅ WTop (if asyncErrorHandling_ cfg then CLoop false else CExit) DNone false.
Definition reachable (env : E -> E -> Prop) (S : sys) : Prop := exists e sched, run env sched (initial e) S.
End threads.

(** ** Frames

    Which calls only log: all but those that make, ask or abort a communicator. *)
Definition harmless (c : call) : bool :=
  match c with ncclCommInitRank _ _ _ | ncclCommAbort _ | ncclCommGetAsyncError _ => false | _ => true end.
(** An update that leaves the cache, the list of works and the flag alone. *)
Definition neutral (f : group -> group) : Prop :=
  forall g, devNCCLCommMap_ (f g) = devNCCLCommMap_ g /\ workMetaList_ (f g) = workMetaList_ g /\
    terminateProcessGroup_ (f g) = terminateProcessGroup_ g.

Create HintDb nccl.

Section frames.
Context {E : Type} (handle : forall c : call, M E (answer c)) (store : StoreOps E) (N : Z) (cfg : config).
#[local] Set Default Proof Using "Type".
#[local] Set Proof Using Clear Unused.
Abbreviation heap := (gmap nat NCCLComm).
Abbreviation cst := (heap * world (E := E))%type.
Abbreviation st := (group * cst)%type.

(** A relation that the elementary steps of all functions respect. *)
Class Framed (R : st -> st -> Prop) : Prop := {
  fr_pre :: PreOrder R;
  fr_sys : forall c g h w, harmless c = true -> R (g, (h, w)) (g, (h, snd (NCCL.sys handle c w)));
  fr_ext : forall A (m : M E A) g h w, R (g, (h, w)) (g, (h, snd (in_ext m w)));
  fr_abort : forall c g x, R (g, x) (g, snd (on_comm c (NCCLComm_ncclCommAbort handle) x));
  fr_check : forall c g x, R (g, x) (g, snd (on_comm c (checkForNcclError handle) x));
  fr_create : forall n r id s, R s (snd (create_comm handle n r id s));
  fr_upd : forall f s, neutral f -> R s (f s.1, s.2);
}.

Context (R : st -> st -> Prop) `{!Framed R}.
#[local] Set Default Proof Using "Type + Framed0".

(** The relation on the parts of the state. *)
Definition Rc (x x' : cst) : Prop := forall g, R (g, x) (g, x').
Definition Rw (w w' : world (E := E)) : Prop := forall h, Rc (h, w) (h, w').
Definition Rm (x x' : WorkNCCL * cst) : Prop := Rc x.2 x'.2.
#[global] Instance Rc_pre : PreOrder Rc.
Proof. split; [intros x g; reflexivity|]. intros x y z H1 H2 g. etrans; [apply H1|apply H2]. Qed.
#[global] Instance Rw_pre : PreOrder Rw.
Proof. split; [intros x h; reflexivity|]. intros x y z H1 H2 h. etrans; [apply H1|apply H2]. Qed.
#[global] Instance Rm_pre : PreOrder Rm.
Proof. split; [intros x g; reflexivity|]. intros x y z H1 H2 g. etrans; [apply H1|apply H2]. Qed.

Lemma fol_sys c : harmless c = true -> follows Rw (NCCL.sys handle c).
Proof. intros H w h g. by apply fr_sys. Qed.
Lemma fol_ext {A} (m : M E A) : follows Rw (in_ext m).
Proof. intros w h g. apply fr_ext. Qed.
Lemma fol_below_w {A} (m : M (world (E := E)) A) : follows Rw m -> follows Rc (below m).
Proof using Type. intros H [h w] g. unfold below. cbn. specialize (H w h g). by destruct (m w). Qed.
Lemma fol_below_c {A} (m : M cst A) : follows Rc m -> follows R (below m).
Proof using Type. intros H [g x]. unfold below. cbn. specialize (H x g). by destruct (m x). Qed.
Lemma fol_below_m {A} (m : M cst A) : follows Rc m -> follows Rm (below m).
Proof using Type. intros H [w x] g. unfold below. cbn. specialize (H x g). by destruct (m x). Qed.
Lemma fol_upd f : neutral f -> follows R (upd f).
Proof. intros H s. by apply fr_upd. Qed.
Lemma fol_change f : follows Rm (change f).
Proof. intros x g. cbn. reflexivity. Qed.
Lemma fol_grp {A} (f : group -> A) : follows R (grp f).
Proof. intros s. unfold grp, gets. cbn. reflexivity. Qed.
Lemma fol_on_comm_same {A} c (m : M (NCCLComm * world (E := E)) A) : (forall x, (m x).2 = x) -> follows Rc (on_comm c m).
Proof.
  intros H [h w] g. unfold on_comm. cbn. destruct (h !! c) as [comm|] eqn:Ec; [|reflexivity].
  specialize (H (comm, w)). destruct (m (comm, w)) as [o [comm' w']]. cbn in H. injection H as -> ->. cbn.
  rewrite insert_id by done. reflexivity.
Qed.
Lemma getNcclId_same (x : NCCLComm * world (E := E)) : (getNcclId x).2 = x.
Proof. by destruct x. Qed.
Lemma getNcclComm_same (x : NCCLComm * world (E := E)) : (getNcclComm x).2 = x.
Proof. destruct x as [c w]. unfold getNcclComm, this. unfold_M. cbn. by destruct (aborted_ c). Qed.
Lemma fol_abort c : follows Rc (on_comm c (NCCLComm_ncclCommAbort handle)).
Proof. intros x g. apply fr_abort. Qed.
Lemma fol_check c : follows Rc (on_comm c (checkForNcclError handle)).
Proof. intros x g. apply fr_check. Qed.
Lemma fol_gpuGuard {A} (m : M st A) : follows R m -> follows R (gpuGuard m).
Proof.
  intros H s. unfold gpuGuard. specialize (H s). destruct (m s) as [o s']. cbn in *. etrans; [exact H|]. by apply fr_upd.
Qed.
Lemma fol_catch {A} (m k : M st A) : follows R m -> follows R k -> follows R (catch_std m k).
Proof.
  intros Hm Hk s. unfold catch_std. pose proof (Hm s) as H. destruct (m s) as [[a|e|] s']; cbn in *; [done| |done].
  destruct (undefined e); [done|]. etrans; [exact H|apply Hk].
Qed.

Ltac fol_step :=
  match goal with
  | |- follows _ (bind _ _) => apply follows_bind; [typeclasses eauto| |intros ?]
  | |- follows _ (ret _) => apply follows_ret; typeclasses eauto
  | |- follows _ (throw _) => apply follows_throw; typeclasses eauto
  | |- follows _ (lift _) => apply follows_lift; typeclasses eauto
  | |- follows _ (assert_ _ _) => apply follows_assert; typeclasses eauto
  | |- follows _ (gets _) => apply follows_gets; typeclasses eauto
  | |- follows _ (for_each _ _) => apply follows_for_each; [typeclasses eauto|intros ?]
  | |- follows _ (grp _) => apply fol_grp
  | |- follows _ (self _) => apply follows_gets; typeclasses eauto
  | |- follows _ exception => apply follows_gets; typeclasses eauto
  | |- follows _ (change _) => apply fol_change
  | |- follows _ (upd _) => apply fol_upd; intros ?; repeat split
  | |- follows _ (nccl_check _) => unfold nccl_check
  | |- follows _ (lsys _) => unfold lsys
  | |- follows _ (on_lib _) => unfold on_lib
  | |- follows _ (gpuGuard _) => apply fol_gpuGuard
  | |- follows _ (catch_std _ _) => apply fol_catch
  | |- follows _ (below _) => first [apply fol_below_c | apply fol_below_w | apply fol_below_m]
  | |- follows _ (NCCL.sys _ ?c) => exact (fol_sys c eq_refl)
  | |- follows _ (in_ext _) => apply fol_ext
  | |- follows _ (on_comm _ (NCCLComm_ncclCommAbort _)) => apply fol_abort
  | |- follows _ (on_comm _ (checkForNcclError _)) => apply fol_check
  | |- follows _ (on_comm _ getNcclId) => apply fol_on_comm_same, getNcclId_same
  | |- follows _ (on_comm _ getNcclComm) => apply fol_on_comm_same, getNcclComm_same
  | |- follows _ (on_ptr ?p _) => unfold on_ptr
  | |- follows _ (match ?x with _ => _ end) => destruct x
  | |- follows _ _ => solve [eauto with nccl]
  end.
Ltac fol := repeat fol_step.

Lemma fol_AutoNcclGroup {A} (m : M st A) : follows R m -> follows R (AutoNcclGroup handle m).
Proof.
  assert (follows R (AutoNcclGroup_ctor handle)) as Hc.
  { unfold AutoNcclGroup_ctor. fol. intros s. unfold lock_free_mutex. destruct (free_mutex s.1); [reflexivity|]. by apply fr_upd. }
  assert (follows R (AutoNcclGroup_dtor handle)) as Hd by (unfold AutoNcclGroup_dtor; fol).
  intros Hm s. unfold AutoNcclGroup. pose proof (Hc s) as H1. destruct (AutoNcclGroup_ctor handle s) as [[[]|e|] s1]; cbn in *; [|done..].
  etrans; [exact H1|]. pose proof (Hm s1) as H2. destruct (m s1) as [[a|e|] s2]; cbn in *; [| |done].
  - etrans; [exact H2|]. apply (follows_bind R _ (fun _ => ret a) Hd). intros _. fol.
  - etrans; [exact H2|]. pose proof (Hd s2) as H3. by destruct (AutoNcclGroup_dtor handle s2) as [[[]|e'|] s3].
Qed.
#[local] Hint Resolve fol_AutoNcclGroup : nccl.

(** *** The functions on communicators and works *)
Lemma fol_checkForNCCLErrorsInternal l : follows Rc (checkForNCCLErrorsInternal handle l).
Proof. induction l as [|p l IH]; cbn; fol. Qed.
#[local] Hint Resolve fol_checkForNCCLErrorsInternal : nccl.
Lemma fol_query_all w l : follows Rc (query_all handle w l).
Proof. induction l as [|i l IH]; cbn; fol. Qed.
#[local] Hint Resolve fol_query_all : nccl.
Lemma fol_checkAndSetException : follows Rm (checkAndSetException handle).
Proof. unfold checkAndSetException. fol. Qed.
#[local] Hint Resolve fol_checkAndSetException : nccl.
Lemma fol_isCompleted : follows Rm (isCompleted handle).
Proof. unfold isCompleted, finishedGPUExecutionInternal. fol. Qed.
Lemma fol_isSuccess : follows Rm (isSuccess handle).
Proof. unfold isSuccess, finishedGPUExecutionInternal. fol. Qed.
Lemma fol_finishedGPUExecution : follows Rm (finishedGPUExecution handle).
Proof. unfold finishedGPUExecution, finishedGPUExecutionInternal. fol. Qed.
Lemma fol_checkAndThrowException : follows Rm (checkAndThrowException handle).
Proof. unfold checkAndThrowException. fol. Qed.
Lemma fol_handleNCCLGuard : follows Rm handleNCCLGuard.
Proof. unfold handleNCCLGuard. fol. Qed.
Lemma fol_synchronizeStreams : follows Rm (synchronizeStreams handle).
Proof. unfold synchronizeStreams. fol. Qed.
Lemma fol_timedOut : follows Rm (timedOut handle).
Proof. unfold timedOut. fol. Qed.
#[local] Hint Resolve fol_isCompleted fol_isSuccess fol_finishedGPUExecution fol_checkAndThrowException fol_handleNCCLGuard
  fol_synchronizeStreams fol_timedOut : nccl.
Lemma fol_wait_round : follows Rm (wait_round handle store).
Proof. unfold wait_round, abort_and_publish. fol. Qed.
#[local] Hint Resolve fol_wait_round : nccl.
Lemma fol_run_work c : follows Rm (run_work handle store c).
Proof. destruct c; cbn; unfold ignore; fol. Qed.
#[local] Hint Resolve fol_run_work : nccl.

(** *** The functions of the group *)
Lemma fol_repeat_M n (m : M st unit) : follows R m -> follows R (repeat_M n m).
Proof. intros H. induction n as [|n IH]; cbn; fol. Qed.
Lemma fol_create_comm n r id : follows R (create_comm handle n r id).
Proof. intros s. apply fr_create. Qed.
#[local] Hint Resolve fol_create_comm : nccl.
Lemma fol_broadcastUniqueNCCLID id op key r : follows R (broadcastUniqueNCCLID store N cfg id op key r).
Proof. unfold broadcastUniqueNCCLID. fol. Qed.
Lemma fol_guard_set_index i : follows R (guard_set_index handle i).
Proof. unfold guard_set_index. fol. Qed.
Lemma fol_new_events n : follows R (new_events n).
Proof. unfold new_events. fol. Qed.
#[local] Hint Resolve fol_broadcastUniqueNCCLID fol_guard_set_index fol_new_events : nccl.
Lemma fol_create_comms n i l op r self id : follows R (create_comms handle cfg n i l op r self id).
Proof. revert i. induction l as [|d l IH]; intros i; cbn [create_comms]; fol. Qed.
#[local] Hint Resolve fol_create_comms : nccl.
Lemma fol_create_entry key l op r self : follows R (create_entry handle store N cfg key l op r self).
Proof. unfold create_entry. fol; apply fol_repeat_M; fol. Qed.
Lemma fol_syncStreams l evs strs : follows R (syncStreams handle l evs strs).
Proof. unfold syncStreams. fol. Qed.
Lemma fol_record_input l ts strs i : follows R (record_input handle l ts strs i).
Proof. unfold record_input. fol. Qed.
Lemma fol_launch l cs strs fn i : (forall i c s, follows Rw (fn i c s)) -> follows R (launch handle l cs strs fn i).
Proof. intros H. unfold launch. fol. Qed.
Lemma fol_record_work evs cs strs l : follows R (record_work handle evs cs strs l).
Proof. induction l as [|i l IH]; cbn [record_work]; fol. Qed.
Lemma fol_initWork l op p : follows R (initWork handle cfg l op p).
Proof. unfold initWork. fol. Qed.
#[local] Hint Resolve fol_create_entry fol_syncStreams fol_record_input fol_record_work fol_initWork : nccl.
Lemma fol_check_gpu_tensors l : follows Rw (check_gpu_tensors handle l).
Proof. unfold check_gpu_tensors. fol. Qed.
Lemma fol_flatten l o n : follows Rw (flatten_for_scatter_gather handle l o n).
Proof.
  unfold flatten_for_scatter_gather. fol. generalize 0%nat as i. induction (length l) as [|k IH]; intros i; cbn [flatten_loop]; [fol|].
  unfold flatten_device. fol.
Qed.
Lemma fol_copy_flattened b l f s : follows Rw (copy_flattened handle b l f s).
Proof. unfold copy_flattened. fol. Qed.
#[local] Hint Resolve fol_check_gpu_tensors fol_flatten fol_copy_flattened : nccl.
Lemma fol_with_type {A} t (k : ncclDataType_t -> M (world (E := E)) A) : (forall d, follows Rw (k d)) -> follows Rw (with_type t k).
Proof. intros H. unfold with_type. fol. Qed.
Lemma fol_no_process l : follows Rw (no_process (E := E) l).
Proof. unfold no_process. fol. Qed.
Lemma fol_barrier_devices l : follows R (barrier_devices handle cfg l).
Proof. unfold barrier_devices. fol. Qed.
Lemma fol_barrier_tensors l : follows R (barrier_tensors handle l).
Proof. induction l as [|d l IH]; cbn [barrier_tensors]; fol. Qed.
#[local] Hint Resolve fol_no_process fol_barrier_devices fol_barrier_tensors : nccl.
Lemma fol_groupStart : follows R (groupStart handle).
Proof. unfold groupStart. fol. Qed.
Lemma fol_groupEnd : follows R (groupEnd handle).
Proof. unfold groupEnd. fol. Qed.

(** *** The threads *)
Lemma fol_abort_comms l ids : follows Rc (abort_comms handle l ids).
Proof. revert ids. induction l as [|p l IH]; intros ids; cbn [abort_comms]; fol. Qed.
Lemma fol_comm_ids l ids : follows Rc (comm_ids (E := E) l ids).
Proof. revert ids. induction l as [|p l IH]; intros ids; cbn [comm_ids]; fol. Qed.
#[local] Hint Resolve fol_abort_comms fol_comm_ids : nccl.
Lemma fol_scan_comms l a b : follows Rc (scan_comms handle cfg l a b).
Proof. revert a b. induction l as [|[k p] l IH]; intros a b; cbn [scan_comms]; fol. Qed.
Lemma fol_abort_if_timed_out ids : follows Rm (abort_if_timed_out handle ids).
Proof. unfold abort_if_timed_out, setException. fol. Qed.
Lemma fol_record_aborted id : follows R (record_aborted store cfg id).
Proof. unfold record_aborted. fol. Qed.
Lemma fol_find_in_store id : follows R (find_in_store (E := E) store id).
Proof. unfold find_in_store. fol. Qed.
Lemma fol_abort_found id : follows R (abort_found handle id).
Proof. unfold abort_found. fol. Qed.
Lemma fol_abort_cache l : follows Rc (abort_cache handle l).
Proof. unfold abort_cache. fol. Qed.
#[local] Hint Resolve fol_scan_comms fol_abort_if_timed_out fol_record_aborted fol_find_in_store fol_abort_found fol_abort_cache : nccl.

(** *** Relations that see no update of the group *)
Class FramedAll : Prop := { fr_all :: Framed R; fr_upd_all : forall f s, R s (f s.1, s.2) }.
Section framed_all.
Context {Hall : FramedAll}.
#[local] Set Default Proof Using "Type + Framed0 + Hall".
Lemma fol_upd_all f : follows R (upd f).
Proof. intros s. apply fr_upd_all. Qed.
Ltac folA := repeat first [ match goal with |- follows _ (upd _) => apply fol_upd_all end | fol_step ].
Lemma fol_getNCCLComm key l op r self : follows R (getNCCLComm handle store N cfg key l op r self).
Proof. unfold getNCCLComm. folA. Qed.
Lemma fol_workEnqueue w : follows R (workEnqueue (E := E) w).
Proof. unfold workEnqueue. folA. Qed.
#[local] Hint Resolve fol_getNCCLComm fol_workEnqueue : nccl.
Lemma fol_collective ins outs fn pre post op titled :
  (forall i o c s, follows Rw (fn i o c s)) -> (forall s, follows Rw (pre s)) -> (forall s, follows Rw (post s)) ->
  follows R (collective handle store N cfg ins outs fn pre post op titled).
Proof.
  intros Hf Hpre Hpost. unfold collective. folA. apply fol_AutoNcclGroup. fol. apply fol_launch. intros. fol.
Qed.
Lemma fol_pointToPoint ts fn peer op pre post :
  (forall t c s r, follows Rw (fn t c s r)) -> (forall s, follows Rw (pre s)) -> (forall s, follows Rw (post s)) ->
  follows R (pointToPoint handle store N cfg ts fn peer op pre post).
Proof.
  intros Hf Hpre Hpost. unfold pointToPoint. folA. apply fol_AutoNcclGroup. fol. apply fol_launch. intros. fol.
Qed.
Ltac folO := repeat first
  [ apply fol_collective; intros | apply fol_pointToPoint; intros
  | match goal with |- follows _ (with_type _ _) => apply fol_with_type; intros ? end | fol_step ].
Lemma fol_allreduce l op : follows R (allreduce handle store N cfg l op).
Proof. unfold allreduce. folO. Qed.
#[local] Hint Resolve fol_allreduce : nccl.
Lemma fol_nccl_call op : follows R (nccl_call handle store N cfg op).
Proof.
  destruct op; cbn [nccl_call];
    unfold broadcast, reduce, allgather, reduce_scatter, barrier, alltoall_base, alltoall, send, recv; folO.
Qed.
Lemma fol_on_work_at {A} i (m : M (WorkNCCL * cst) A) : follows Rm m -> follows R (on_work_at i m).
Proof.
  intros H [g x]. unfold on_work_at. cbn. destruct (workMetaList_ g !! i) as [w|]; [|reflexivity].
  specialize (H (w, x) g). destruct (m (w, x)) as [o [w' x']]. cbn in *. etrans; [exact H|]. apply (fr_upd_all _ (g, x')).
Qed.
Lemma fol_abortTimedOutCollectives ids : follows R (abortTimedOutCollectives handle ids).
Proof.
  unfold abortTimedOutCollectives. folA. revert ids. induction (indices _) as [|i l IH]; intros ids; cbn [abort_timed_out_loop]; fol.
  by apply fol_on_work_at, fol_abort_if_timed_out.
Qed.
#[local] Hint Resolve fol_abortTimedOutCollectives : nccl.
Lemma fol_wd_step c pc : follows R (wd_step handle store cfg c pc).
Proof. destruct pc; cbn [wd_step]; folA. Qed.
Lemma fol_cl_step pc : follows R (cl_step handle pc).
Proof.
  destruct pc as [b|]; cbn [cl_step]; folA. generalize 0%nat as i. induction (length _) as [|n IH]; intros i; cbn [cleanup_loop]; folA;
    apply fol_on_work_at; fol.
Qed.
Lemma fol_ds_step c wd cl pc : follows R (ds_step handle cfg c wd cl pc).
Proof. destruct pc; cbn [ds_step]; folA. Qed.
End framed_all.
End frames.
#[export] Hint Resolve fol_AutoNcclGroup fol_checkForNCCLErrorsInternal fol_query_all fol_checkAndSetException fol_isCompleted fol_isSuccess
  fol_finishedGPUExecution fol_checkAndThrowException fol_synchronizeStreams fol_timedOut fol_wait_round fol_run_work
  fol_create_comm fol_create_comms fol_guard_set_index fol_create_entry fol_syncStreams
  fol_record_input fol_record_work fol_initWork fol_check_gpu_tensors fol_flatten fol_copy_flattened fol_no_process fol_barrier_devices
  fol_barrier_tensors fol_abort_comms fol_scan_comms fol_abort_if_timed_out
  fol_abort_found fol_abort_cache : nccl.
#[export] Hint Extern 0 (Framed _ _) => typeclasses eauto : nccl.

(** Decomposition of [follows R m] for a framed [R]; the handler is that of the
    context. *)
Ltac framed_by lem :=
  match goal with
  | h : forall c : call, M _ (answer c) |- follows ?R _ =>
      let F := fresh in
      first [ assert (Framed h R) as F by typeclasses eauto
            | match R with Rc ?R' => assert (Framed h R') as F by typeclasses eauto end
            | match R with Rw ?R' => assert (Framed h R') as F by typeclasses eauto end
            | match R with Rm ?R' => assert (Framed h R') as F by typeclasses eauto end ];
      simple eapply lem; try exact F; clear F
  end.
Ltac follow_step :=
  match goal with
  | |- follows _ (bind _ _) => apply follows_bind; [typeclasses eauto| |intros ?]
  | |- follows _ (ret _) => apply follows_ret; typeclasses eauto
  | |- follows _ (throw _) => apply follows_throw; typeclasses eauto
  | |- follows _ (lift _) => apply follows_lift; typeclasses eauto
  | |- follows _ (assert_ _ _) => apply follows_assert; typeclasses eauto
  | |- follows _ (gets _) => apply follows_gets; typeclasses eauto
  | |- follows _ (for_each _ _) => apply follows_for_each; [typeclasses eauto|intros ?]
  | |- follows _ (grp _) => apply follows_gets; typeclasses eauto
  | |- follows _ (self _) => apply follows_gets; typeclasses eauto
  | |- follows _ exception => apply follows_gets; typeclasses eauto
  | |- follows _ (upd _) => framed_by fol_upd; intros ?; repeat split
  | |- follows _ (nccl_check _) => unfold nccl_check
  | |- follows _ (lsys _) => unfold lsys
  | |- follows _ (on_lib _) => unfold on_lib
  | |- follows _ (gpuGuard _) => framed_by fol_gpuGuard
  | |- follows _ (catch_std _ _) => framed_by fol_catch
  | |- follows (Rc _) (below _) => apply fol_below_w
  | |- follows (Rm _) (below _) => apply fol_below_m
  | |- follows _ (below _) => apply fol_below_c
  | |- follows _ (NCCL.sys _ ?c) => exact (fol_sys _ _ c eq_refl)
  | |- follows _ (in_ext _) => framed_by fol_ext
  | |- follows _ (repeat_M _ _) => framed_by fol_repeat_M
  | |- follows _ (with_type _ _) => framed_by fol_with_type; intros ?
  | |- follows _ (new_events _) => framed_by fol_new_events
  | |- follows _ (find_in_store _ _) => framed_by fol_find_in_store
  | |- follows _ (record_aborted _ _ _) => framed_by fol_record_aborted
  | |- follows _ (comm_ids _ _) => framed_by fol_comm_ids
  | |- follows _ (broadcastUniqueNCCLID _ _ _ _ _ _ _) => framed_by fol_broadcastUniqueNCCLID
  | |- follows _ handleNCCLGuard => framed_by fol_handleNCCLGuard
  | |- follows _ (on_comm _ (NCCLComm_ncclCommAbort _)) => framed_by fol_abort
  | |- follows _ (on_comm _ (checkForNcclError _)) => framed_by fol_check
  | |- follows _ (on_comm _ getNcclId) => framed_by fol_on_comm_same; apply getNcclId_same
  | |- follows _ (on_comm _ getNcclComm) => framed_by fol_on_comm_same; apply getNcclComm_same
  | |- follows _ (match ?x with _ => _ end) => destruct x
  | |- follows _ _ => solve [eauto with nccl]
  end.
Ltac follow := repeat follow_step.

(** ** A communicator is aborted at most once

    Of a logged call: the communicators it has made, those it was given, and those
    it has aborted. *)
Definition created (x : sigT answer) : list nat :=
  match x with existT c a =>
    match c return answer c -> list nat with
    | ncclCommInitRank _ _ _ => fun r => option_list (snd r) | _ => fun _ => []
    end a
  end.
Definition passed (x : sigT answer) : list comm_t :=
  match projT1 x with ncclCommAbort h => [h] | ncclCommGetAsyncError h => [h] | _ => [] end.
Definition aborted (x : sigT answer) : list nat :=
  match x with existT c a =>
    match c return answer c -> list nat with
    | ncclCommAbort h => fun r => if bool_decide (r = ncclSuccess) then option_list h else []
    | _ => fun _ => []
    end a
  end.
(** A call that succeeds in making a communicator answers with one. *)
Definition init_ok (x : sigT answer) : Prop :=
  match x with existT c a =>
    match c return answer c -> Prop with
    | ncclCommInitRank _ _ _ => fun r => fst r = ncclSuccess -> is_Some (snd r) | _ => fun _ => True
    end a
  end.
(** What NCCL promises: communicators are new and not null. *)
Definition good_inits (l : list (sigT answer)) : Prop := NoDup (l ≫= created) /\ Forall init_ok l.
(** Only communicators that were made and not aborted are aborted or asked for
    errors. *)
Definition safe_log (l : list (sigT answer)) : Prop :=
  forall l1 x l2, l = l1 ++ x :: l2 -> forall h, h ∈ passed x -> exists n, h = Some n /\ n ∈ l1 ≫= created /\ n ∉ l1 ≫= aborted.

Lemma safe_log_snoc l x :
  safe_log (l ++ [x]) <-> safe_log l /\ forall h, h ∈ passed x -> exists n, h = Some n /\ n ∈ l ≫= created /\ n ∉ l ≫= aborted.
Proof.
  split.
  - intros H. split; [intros l1 y l2 ->|]; [|by apply (H l x [])].
    apply (H l1 y (l2 ++ [x])). by rewrite <- app_assoc.
  - intros [H Hx] l1 y l2 E. destruct l2 as [|z l2 _] using rev_ind.
    + apply app_inj_tail in E as [-> ->]. exact Hx.
    + rewrite app_comm_cons, app_assoc in E. apply app_inj_tail in E as [-> ->]. by apply (H l1 y l2).
Qed.
Lemma good_inits_prefix l l' : l `prefix_of` l' -> good_inits l' -> good_inits l.
Proof. intros [k ->] [H1 H2]. rewrite bind_app in H1. apply NoDup_app in H1 as [H1 _]. by apply Forall_app in H2 as [H2 _]. Qed.

Section owners.
Context {E : Type} (handle : forall c : call, M E (answer c)).
#[local] Set Default Proof Using "Type".
#[local] Set Proof Using Clear Unused.
Abbreviation heap := (gmap nat NCCLComm).
Abbreviation cst := (heap * world (E := E))%type.
Abbreviation st := (group * cst)%type.

(** The communicator objects own what they refer to, unless they are aborted. *)
Definition owned (x : cst) : Prop :=
  safe_log (calls x.2) /\
  (forall c m, x.1 !! c = Some m -> aborted_ m = false ->
     exists h, ncclComm_ m = Some h /\ h ∈ calls x.2 ≫= created /\ h ∉ calls x.2 ≫= aborted) /\
  (forall c1 c2 m1 m2, x.1 !! c1 = Some m1 -> x.1 !! c2 = Some m2 -> aborted_ m1 = false -> aborted_ m2 = false ->
     ncclComm_ m1 = ncclComm_ m2 -> c1 = c2).
(** An aborted communicator has an error. *)
Definition marked (x : cst) : Prop := forall c m, x.1 !! c = Some m -> aborted_ m = true -> ncclAsyncErr_ m <> ncclSuccess.
Definition keeps_owned (s s' : st) : Prop :=
  calls s.2.2 `prefix_of` calls s'.2.2 /\ (marked s.2 -> marked s'.2) /\
  (good_inits (calls s'.2.2) -> marked s.2 -> owned s.2 -> owned s'.2).
#[global] Instance keeps_owned_pre : PreOrder keeps_owned.
Proof.
  split; [by intros s; split_and!|]. intros s1 s2 s3 (P1 & M1 & H1) (P2 & M2 & H2). split_and!; [by etrans|by auto|].
  intros G Mk O. apply H2; [done|by auto|]. apply H1; [|done..]. by eapply good_inits_prefix.
Qed.
Lemma keeps_intro g (h h' : heap) (w w' : world (E := E)) l : calls w' = calls w ++ l -> (marked (h, w) -> marked (h', w')) ->
  (marked (h, w) -> good_inits (calls w') -> owned (h, w) -> owned (h', w')) -> keeps_owned (g, (h, w)) (g, (h', w')).
Proof. intros Hl Hm Ho. split_and!; cbn; [rewrite Hl; by eexists|done|]. auto. Qed.
Lemma marked_insert (h : heap) (w w' : world (E := E)) c m' :
  (aborted_ m' = true -> ncclAsyncErr_ m' <> ncclSuccess) -> marked (h, w) -> marked (<[c := m']> h, w').
Proof. intros Hm H c1 m1 H1. cbn in H1. apply lookup_insert_Some in H1 as [[<- <-]|[_ H1]]; [done|]. by apply (H c1). Qed.

Lemma sys_calls c (w : world (E := E)) :
  let '(o, w') := NCCL.sys handle c w in
  calls w' = calls w ++ match o with Ret a => [existT c a] | _ => [] end.
Proof. unfold NCCL.sys. destruct (handle c (ext w)) as [[a|e|] e']; cbn; by rewrite ?app_nil_r. Qed.

(** A logged call that makes and aborts nothing. *)
Lemma owned_log (h : heap) (w w' : world (E := E)) l : calls w' = calls w ++ l ->
  l ≫= created = [] -> l ≫= aborted = [] -> l ≫= passed = [] -> (length l <= 1)%nat -> owned (h, w) -> owned (h, w').
Proof.
  intros Hl Hc Ha Hp Hn (O1 & O2 & O3). unfold owned in *. cbn in *. rewrite Hl, !bind_app, Hc, Ha, !app_nil_r.
  split_and!; [|done..]. destruct l as [|x [|y l]]; cbn in Hn; [by rewrite app_nil_r| |lia].
  apply safe_log_snoc. split; [done|]. intros p Hx. cbn in Hp. rewrite app_nil_r in Hp. rewrite Hp in Hx. by apply elem_of_nil in Hx.
Qed.
Lemma keeps_sys c g (h : heap) w : harmless c = true -> keeps_owned (g, (h, w)) (g, (h, snd (NCCL.sys handle c w))).
Proof.
  intros Hc. pose proof (sys_calls c w) as H. destruct (NCCL.sys handle c w) as [o w']. cbn.
  apply (keeps_intro _ _ _ _ _ _ H); [done|]. intros _ _.
  apply (owned_log _ _ _ _ H); destruct o; try done; try (cbn; lia); by destruct c.
Qed.

(** A call on a communicator object that is not aborted. *)
Lemma owned_passed (h : heap) (w : world (E := E)) c m x :
  owned (h, w) -> h !! c = Some m -> aborted_ m = false -> passed x = [ncclComm_ m] -> safe_log (calls w ++ [x]).
Proof.
  intros (O1 & O2 & _) Hc Ha Hp. apply safe_log_snoc. split; [done|]. intros p Hx. rewrite Hp in Hx.
  apply list_elem_of_singleton in Hx as ->. destruct (O2 c m Hc Ha) as (n & ? & ? & ?). by exists n.
Qed.
(** The object of [c] changes and keeps its communicator, or is aborted. *)
Lemma owned_insert (h : heap) (w w' : world (E := E)) c m m' x :
  owned (h, w) -> h !! c = Some m -> aborted_ m = false ->
  calls w' = calls w ++ [x] -> passed x = [ncclComm_ m] -> created x = [] ->
  (aborted_ m' = true /\ aborted x = option_list (ncclComm_ m) \/
   aborted_ m' = false /\ ncclComm_ m' = ncclComm_ m /\ aborted x = []) ->
  owned (<[c := m']> h, w').
Proof.
  intros O Hc Ha Hl Hp Hcr Hm. pose proof (owned_passed _ _ _ _ _ O Hc Ha Hp) as Hs. destruct O as (O1 & O2 & O3).
  unfold owned in *. cbn in *. rewrite Hl, !bind_app. cbn. rewrite Hcr, !app_nil_r. split_and!; [done| |].
  - intros c1 m1 H1 A1. destruct (decide (c1 = c)) as [->|Hne].
    + rewrite lookup_insert_eq in H1. injection H1 as <-. destruct Hm as [[? _]|(_ & -> & ->)]; [congruence|].
      rewrite app_nil_r. by apply (O2 c m).
    + rewrite lookup_insert_ne in H1 by done. destruct (O2 _ _ H1 A1) as (n & En & ? & Hna). exists n. split_and!; [done..|].
      intros [?|Hx]%elem_of_app; [done|]. destruct Hm as [[_ Hab]|(_ & _ & Hab)]; rewrite Hab in Hx; [|by apply elem_of_nil in Hx].
      destruct (ncclComm_ m) as [k|] eqn:Ek; [|by apply elem_of_nil in Hx]. apply list_elem_of_singleton in Hx as ->.
      apply Hne, (O3 c1 c m1 m); [done..|]. by rewrite En, Ek.
  - intros c1 c2 m1 m2 H1 H2 A1 A2 Eq.
    apply lookup_insert_Some in H1 as [[<- <-]|[N1 H1]]; apply lookup_insert_Some in H2 as [[<- <-]|[N2 H2]]; [done|..].
    + destruct Hm as [[? _]|(_ & Em & _)]; [congruence|]. apply (O3 c c2 m m2); [done..|congruence].
    + destruct Hm as [[? _]|(_ & Em & _)]; [congruence|]. apply (O3 c1 c m1 m); [done..|congruence].
    + by apply (O3 c1 c2 m1 m2).
Qed.

Lemma lib_eq {S A} (m : M (world (E := E)) A) (s : S * world (E := E)) : lib m s = let '(o, w) := m s.2 in (o, (s.1, w)).
Proof. reflexivity. Qed.

(** A call that does not return. *)
Lemma keeps_stuck g (h : heap) c m (w w' : world (E := E)) : h !! c = Some m -> calls w' = calls w ++ [] ->
  keeps_owned (g, (h, w)) (g, (<[c := m]> h, w')).
Proof.
  intros Hc Hl. rewrite insert_id by done. apply (keeps_intro _ _ _ _ _ _ Hl); [done|]. intros _ _.
  apply (owned_log _ _ _ _ Hl); try done. cbn. lia.
Qed.
Lemma keeps_abort c g (x : cst) : keeps_owned (g, x) (g, snd (on_comm c (NCCLComm_ncclCommAbort handle) x)).
Proof.
  destruct x as [h w]. unfold on_comm. cbn. destruct (h !! c) as [m|] eqn:Hc; [|reflexivity].
  unfold NCCLComm_ncclCommAbort, this, put. unfold_M. cbn. destruct (aborted_ m) eqn:Ha; cbn; [by rewrite insert_id|].
  unfold lib. cbn. pose proof (sys_calls (ncclCommAbort (ncclComm_ m)) w) as Hs.
  destruct (NCCL.sys handle (ncclCommAbort (ncclComm_ m)) w) as [[r|e|] w']; cbn in Hs |- *; [|by apply keeps_stuck..].
  unfold C10D_NCCL_CHECK, ocheck. case_bool_decide as Hr; cbn; apply (keeps_intro _ _ _ _ _ _ Hs).
  - apply marked_insert. intros _. cbn. case_bool_decide; congruence.
  - intros _ _ O. eapply owned_insert; [exact O|done..|]. left. cbn. by rewrite bool_decide_true.
  - apply marked_insert. congruence.
  - intros _ _ O. eapply owned_insert; [exact O|done..|]. right. cbn. by rewrite bool_decide_false.
Qed.
Lemma keeps_check c g (x : cst) : keeps_owned (g, x) (g, snd (on_comm c (checkForNcclError handle) x)).
Proof.
  destruct x as [h w]. unfold on_comm. cbn. destruct (h !! c) as [m|] eqn:Hc; [|reflexivity].
  unfold checkForNcclError, this, put. unfold_M. cbn. case_bool_decide as He; cbn; [by rewrite insert_id|].
  unfold lib. cbn. pose proof (sys_calls (ncclCommGetAsyncError (ncclComm_ m)) w) as Hs.
  destruct (NCCL.sys handle (ncclCommGetAsyncError (ncclComm_ m)) w) as [[r|e|] w']; cbn in Hs |- *; [|by apply keeps_stuck..].
  assert (keeps_owned (g, (h, w)) (g, (<[c := mkComm (ncclComm_ m) (ncclId_ m) (aborted_ m) r.2]> h, w'))) as H.
  { destruct (aborted_ m) eqn:Ha.
    - assert (marked (h, w) -> False) as F by (intros Mk; by apply (Mk c m Hc Ha)).
      split_and!; cbn; [rewrite Hs; by eexists|by intros ?%F|by intros _ ?%F].
    - apply (keeps_intro _ _ _ _ _ _ Hs); [apply marked_insert; cbn; congruence|].
      intros _ _ O. eapply owned_insert; [exact O|done..|]. by right. }
  unfold C10D_NCCL_CHECK, ocheck. by case_bool_decide.
Qed.

Lemma aborted_passed x n : n ∈ aborted x -> Some n ∈ passed x.
Proof.
  destruct x as [c a]. destruct c; cbn; intros H; try by apply elem_of_nil in H.
  case_bool_decide; [|by apply elem_of_nil in H]. destruct comm as [k|]; [|by apply elem_of_nil in H].
  apply list_elem_of_singleton in H as ->. by apply list_elem_of_singleton.
Qed.
Lemma aborted_created (l : list (sigT answer)) n : safe_log l -> n ∈ l ≫= aborted -> n ∈ l ≫= created.
Proof.
  intros Hs (x & Hn & Hx)%list_elem_of_bind. apply list_elem_of_split in Hx as (l1 & l2 & ->).
  destruct (Hs l1 x l2 eq_refl (Some n)) as (k & [= <-] & Hk & _); [by apply aborted_passed|].
  rewrite bind_app. apply elem_of_app. by left.
Qed.
(** A new object with a communicator that NCCL has just made. *)
Lemma owned_new (h : heap) (w w' : world (E := E)) c n x :
  h !! c = None -> calls w' = calls w ++ [x] -> created x = [n] -> aborted x = [] -> passed x = [] ->
  forall id err, good_inits (calls w') -> owned (h, w) -> owned (<[c := mkComm (Some n) id false err]> h, w').
Proof.
  intros Hf Hl Hcr Hab Hp id err [Hg _] (O1 & O2 & O3). rewrite Hl, bind_app in Hg. cbn in Hg. rewrite Hcr in Hg.
  apply NoDup_app in Hg as (_ & Hg & _).
  assert (n ∉ calls w ≫= created) as Hn by (intros Hn; apply (Hg n Hn); by apply list_elem_of_singleton).
  unfold owned in *. cbn in *. rewrite Hl, !bind_app. cbn. rewrite Hcr, Hab, !app_nil_r. split_and!.
  - apply safe_log_snoc. split; [done|]. rewrite Hp. by intros p ?%elem_of_nil.
  - intros c1 m1 [[<- <-]|[N1 H1]]%lookup_insert_Some A1.
    + exists n. split_and!; [done|apply elem_of_app; right; by apply list_elem_of_singleton|].
      intros Ha. by apply Hn, aborted_created.
    + destruct (O2 _ _ H1 A1) as (k & ? & ? & ?). exists k. split_and!; [done| |done]. apply elem_of_app. by left.
  - assert (forall c2 m2, h !! c2 = Some m2 -> aborted_ m2 = false -> Some n = ncclComm_ m2 -> False) as F.
    { intros c2 m2 H2 A2 Eq. destruct (O2 _ _ H2 A2) as (k & Ek & ? & _). rewrite Ek in Eq. by injection Eq as ->. }
    intros c1 c2 m1 m2 H1 H2 A1 A2 Eq.
    apply lookup_insert_Some in H1 as [[<- <-]|[N1 H1]]; apply lookup_insert_Some in H2 as [[<- <-]|[N2 H2]]; [done|..].
    + by destruct (F c2 m2).
    + by destruct (F c1 m1).
    + by apply (O3 c1 c2 m1 m2).
Qed.

(** The destructor. *)
Lemma owned_delete (h : heap) (w : world (E := E)) c : owned (h, w) -> owned (delete c h, w).
Proof.
  intros (O1 & O2 & O3). split_and!; cbn; [done| |].
  - intros c1 m1 [_ H1]%lookup_delete_Some. by apply (O2 c1).
  - intros c1 c2 m1 m2 [_ H1]%lookup_delete_Some [_ H2]%lookup_delete_Some. by apply (O3 c1 c2).
Qed.
Lemma marked_delete (h : heap) (w w' : world (E := E)) c : marked (h, w) -> marked (delete c h, w').
Proof. intros H c1 m1 H1. cbn in H1. apply lookup_delete_Some in H1 as [_ H1]. by apply (H c1). Qed.
Lemma keeps_delete g (h : heap) c m (w w' : world (E := E)) o : h !! c = Some m ->
  NCCLComm_destructor handle (m, w) = (o, (m, w')) -> keeps_owned (g, (h, w)) (g, (delete c h, w')).
Proof.
  intros Hc. unfold NCCLComm_destructor, this. unfold_M. cbn.
  destruct (bool_decide (is_Some (ncclComm_ m)) && negb (aborted_ m)) eqn:Hd.
  - apply andb_true_iff in Hd as [Hs%bool_decide_eq_true Ha%negb_true_iff]. unfold lib. cbn.
    pose proof (sys_calls (ncclCommAbort (ncclComm_ m)) w) as Hl.
    destruct (NCCL.sys handle (ncclCommAbort (ncclComm_ m)) w) as [[r|e|] w1]; cbn in Hl |- *;
      intros [= _ <-]; apply (keeps_intro _ _ _ _ _ _ Hl); try apply marked_delete.
    + intros _ _ O. destruct (decide (r = ncclSuccess)) as [->|Hr].
      * rewrite <- (delete_insert_eq h c (mkComm None [] true ncclSystemError)). apply owned_delete.
        eapply owned_insert; [exact O|done..|]. by left.
      * apply owned_delete. rewrite <- (insert_id h c m) by done.
        eapply owned_insert; [exact O|done..|]. right. cbn. by rewrite bool_decide_false.
    + intros _ _ O. apply owned_delete. apply (owned_log _ _ _ _ Hl); try done. cbn. lia.
    + intros _ _ O. apply owned_delete. apply (owned_log _ _ _ _ Hl); try done. cbn. lia.
  - intros [= _ <-]. apply (keeps_intro _ _ _ _ _ []); [by rewrite app_nil_r|apply marked_delete|]. intros _ _. apply owned_delete.
Qed.
Lemma destructor_same m (w : world (E := E)) o m' w' : NCCLComm_destructor handle (m, w) = (o, (m', w')) -> m' = m.
Proof.
  unfold NCCLComm_destructor, this, lib. unfold_M. cbn. destruct (_ && _); [|congruence].
  cbn. destruct (NCCL.sys handle _ w) as [[r|e|] w1]; cbn; congruence.
Qed.

Lemma keeps_create n r id (s : st) : keeps_owned s (snd (create_comm handle n r id s)).
Proof.
  destruct s as [g [h w]]. unfold create_comm, lsys, below, NCCLComm_create. unfold bind at 1 2. cbn -[NCCLComm_destructor].
  pose proof (sys_calls (ncclCommInitRank n id r) w) as Hl.
  destruct (NCCL.sys handle (ncclCommInitRank n id r) w) as [[[res p]|e|] w1]; cbn -[NCCLComm_destructor] in Hl |- *.
  - set (c := fresh (dom h)). assert (h !! c = None) as Hf by (apply not_elem_of_dom, is_fresh).
    assert (forall m, aborted_ m = false -> ncclComm_ m = p -> is_Some p ->
      keeps_owned (g, (h, w)) (g, (<[c := m]> h, w1))) as Hn.
    { intros m Ha Hp [k ->]. apply (keeps_intro _ _ _ _ _ _ Hl); [apply marked_insert; congruence|]. intros _ G O.
      destruct m as [? ? ? ?]; cbn in *; subst. eapply owned_new; try done. }
    unfold C10D_NCCL_CHECK, ocheck. case_bool_decide as Hr; cbn -[NCCLComm_destructor].
    + destruct p as [k|]; [by apply Hn|]. apply (keeps_intro _ _ _ _ _ _ Hl); [apply marked_insert; cbn; congruence|].
      intros _ [_ G]. rewrite Hl in G. apply Forall_app in G as [_ G]. inversion G as [|? ? G1 _]. cbn in G1. by destruct (G1 Hr).
    + set (m := mkComm p [] false ncclSuccess). destruct (NCCLComm_destructor handle (m, w1)) as [o [m' w2]] eqn:Ed.
      pose proof (destructor_same _ _ _ _ _ Ed) as ->.
      assert (keeps_owned (g, (h, w)) (g, (h, w2))) as H; [|by destruct o].
      destruct p as [k|].
      * etrans; [by apply (Hn m)|]. rewrite <- (delete_insert_id h c m) at 2 by done.
        eapply keeps_delete; [apply lookup_insert_eq|exact Ed].
      * cbn in Ed. injection Ed as _ <-. apply (keeps_intro _ _ _ _ _ _ Hl); [done|]. intros _ _.
        by apply (owned_log _ _ _ _ Hl); try done; cbn; lia.
  - apply (keeps_intro _ _ _ _ _ _ Hl); [done|]. intros _ _. by apply (owned_log _ _ _ _ Hl); try done; cbn; lia.
  - apply (keeps_intro _ _ _ _ _ _ Hl); [done|]. intros _ _. by apply (owned_log _ _ _ _ Hl); try done; cbn; lia.
Qed.

#[global] Instance keeps_owned_framed : Framed handle keeps_owned.
Proof.
  split; [typeclasses eauto|by intros; apply keeps_sys| |by intros; apply keeps_abort|by intros; apply keeps_check
    |by intros; apply keeps_create|].
  - intros A m g h w. unfold in_ext. destruct (m (ext w)) as [o e]. cbn.
    apply (keeps_intro _ _ _ _ _ []); [by rewrite app_nil_r|done|]. done.
  - intros f [g x] _. by split_and!.
Qed.
#[global] Instance keeps_owned_all : FramedAll handle keeps_owned.
Proof. split; [typeclasses eauto|]. intros f [g x]. by split_and!. Qed.

(** *** Every turn *)
Context (store : StoreOps E) (N : Z) (cfg : config) (env : E -> E -> Prop).
Lemma settle_state {A} (S : sys (E := E)) (o : outcome A) s ok thrown :
  (forall a s, state (ok a s) = s) -> (forall e s, state (thrown e s) = s) ->
  state (settle S o s ok thrown) = s \/ state (settle S o s ok thrown) = state S.
Proof. intros H1 H2. destruct o as [a|e|]; cbn; [by left| |by right]. destruct (undefined e); by left. Qed.
Lemma settle_keeps {A} (R : st -> st -> Prop) `{!PreOrder R} (S : sys (E := E)) (o : outcome A) s ok thrown :
  (forall a s, state (ok a s) = s) -> (forall e s, state (thrown e s) = s) -> R (state S) s ->
  R (state S) (state (settle S o s ok thrown)).
Proof. intros H1 H2 H. destruct (settle_state S o s ok thrown H1 H2) as [-> | ->]; [done|reflexivity]. Qed.
Lemma turn_keeps t S S' : turn handle store N cfg env t S S' -> keeps_owned (state S) (state S').
Proof.
  destruct 1 as [S c _ _|S _|S c _ _|S S' _ H|S t _].
  - unfold wd_turn. pose proof (fol_wd_step handle store cfg keeps_owned c (wd S) (state S)) as H.
    destruct (wd_step _ _ _ _ _ _) as [o s]. by apply settle_keeps; [typeclasses eauto|..].
  - unfold cl_turn. pose proof (fol_cl_step handle keeps_owned (cl S) (state S)) as H.
    destruct (cl_step _ _ _) as [o s]. by apply settle_keeps; [typeclasses eauto|..].
  - unfold ds_turn. pose proof (fol_ds_step handle cfg keeps_owned c (wd S) (cl S) (ds S) (state S)) as H.
    destruct (ds_step _ _ _ _ _ _ _) as [o s]. by apply settle_keeps; [typeclasses eauto|..].
  - destruct H as [S|S op _|S start|S i w c _|S i|S c m Hc _|S _|S e _]; [done|..].
    + pose proof (fol_nccl_call handle store N cfg keeps_owned op (state S)) as H.
      destruct (nccl_call _ _ _ _ _ _) as [o s]. by apply settle_keeps; [typeclasses eauto|..].
    + assert (follows keeps_owned (if start then groupStart handle else groupEnd handle)) as H
        by (destruct start; [apply fol_groupStart|apply fol_groupEnd]; typeclasses eauto).
      specialize (H (state S)). revert H. generalize (if start then groupStart handle else groupEnd handle). intros m H.
      destruct (m (state S)) as [o s]. by apply settle_keeps; [typeclasses eauto|..].
    + pose proof (fol_run_work handle store keeps_owned c (w, (state S).2) (state S).1) as H.
      destruct (run_work _ _ _ _) as [o [w' x]]. destruct (state S) as [g y] eqn:Es. cbn in *. rewrite <- Es in H |- *.
      by apply settle_keeps; [typeclasses eauto|..].
    + reflexivity.
    + destruct (NCCLComm_destructor _ _) as [o [m' w]] eqn:Ed. pose proof (destructor_same _ _ _ _ _ Ed) as ->.
      apply settle_keeps; [typeclasses eauto|done..|]. destruct (state S) as [g [h w0]]. by eapply keeps_delete.
    + by split_and!.
    + destruct (state S) as [g [h w]]. apply (keeps_intro _ _ _ _ _ []); [by rewrite app_nil_r|done|done].
  - reflexivity.
Qed.
Lemma run_keeps sched S S' : run handle store N cfg env sched S S' -> keeps_owned (state S) (state S').
Proof. induction 1 as [S|t sched S S1 S2 Ht _ IH]; [reflexivity|]. etrans; [by eapply turn_keeps|done]. Qed.
Lemma initial_owned e : owned (state (initial (E := E) cfg e)).2 /\ marked (state (initial (E := E) cfg e)).2.
Proof.
  split; [|by intros c m H]. split_and!; [|by intros c m H..]. intros l1 x l2 H. by destruct l1.
Qed.

(** C12: in every run of the threads of a process group, if NCCL never makes a
    communicator twice, every communicator that is passed to ncclCommAbort() or
    ncclCommGetAsyncError() was made before and has not been aborted before: the
    watchdog, waits that time out, the destructors of the group and of NCCLComm
    never abort one twice. *)
Theorem nccl_aborted_once (S : sys (E := E)) :
  reachable handle store N cfg env S -> good_inits (calls (state S).2.2) -> safe_log (calls (state S).2.2).
Proof.
  intros (e & sched & Hr) Hg. destruct (run_keeps _ _ _ Hr) as (_ & _ & H). destruct (initial_owned e) as [Ho Hm].
  by destruct (H Hg Hm Ho).
Qed.
End owners.

(** ** An example: a HashStore, a clock and libraries that answer the same *)
Module Demo.
Abbreviation E := (HashStore.t * Z)%type.
Definition on_store {A} (m : M HashStore.t A) : M E A := fun e => let '(o, s) := m e.1 in (o, (s, e.2)).
Definition store : StoreOps E := {|
  store_set k v := on_store (HashStore.set k v); store_get k := on_store (HashStore.get k);
  store_add k i := on_store (HashStore.add k i); store_deleteKey k := on_store (HashStore.deleteKey k);
  store_check ks := on_store (HashStore.check ks); store_getNumKeys := on_store HashStore.getNumKeys;
  store_wait ks := on_store (HashStore.wait ks); store_wait_for ks t := on_store (HashStore.wait_for ks t);
|}.
Definition tensor (sizes : list Z) (type : ScalarType) (device : Z) (ref : nat) : CudaTensor :=
  mkCuda (mkT (mkTensor type kStrided (mkDevice kCUDA device) sizes [1]) ref true) true.
Definition unique_id : bytes := repeat x0a 128.

(** [err]: the asynchronous error of every communicator; [done]: whether events
    have happened; sleeping advances the clock. *)
Definition handle (err : ncclResult_t) (done : bool) (c : call) : M E (answer c) := fun e =>
  match c return outcome (answer c) * E with
  | ncclGetUniqueId => (Ret (ncclSuccess, unique_id), e)
  | ncclCommInitRank _ _ rank => (Ret (ncclSuccess, Some (Z.to_nat rank)), e)
  | ncclCommGetAsyncError _ => (Ret (ncclSuccess, err), e)
  | event_query _ => (Ret done, e)
  | getNumGPUs => (Ret 8, e)
  | steady_clock_now => (Ret e.2, e)
  | sleep_for ms => (Ret tt, (e.1, e.2 + Z.max 0 ms * 1000000))
  | getCurrentCUDAStream _ | getStreamFromPool _ => (Ret 0%nat, e)
  | at_empty_byte d => (Ret (tensor [1] kByte d 0), e)
  | empty_strided sizes _ like => (Ret (mkCuda like true), e)
  | select t _ => (Ret t, e)
  | ncclCommAbort _ | ncclGroupStart | ncclGroupEnd | ncclAllReduce _ _ _ _ _ _ _ | ncclBcast _ _ _ _ _ _
  | ncclReduce _ _ _ _ _ _ _ _ | ncclAllGather _ _ _ _ _ _ | ncclReduceScatter _ _ _ _ _ _ _ => (Ret ncclSuccess, e)
  | _ => (Ret tt, e)
  end.
Definition e0 : E := (HashStore.init 0, 0).
Definition cfg : config := mkConfig 0 2 false true 1000 false false.
Definition no_env (e e' : E) : Prop := False.
Definition x : CudaTensor := tensor [4] kFloat 0 1.
End Demo.

(** A communicator with an error: the watchdog aborts it, the destructor does not
    do so again. *)
Lemma nccl_aborted_once_witness :
  exists S : sys (E := Demo.E), ds S = DJoinCleanup /\ calls (state S).2.2 ≫= aborted = [0%nat] /\ safe_log (calls (state S).2.2).
Proof.
  assert (exists S : sys (E := Demo.E), reachable (Demo.handle ncclSystemError false) Demo.store 128 Demo.cfg Demo.no_env S /\ ds S = DJoinCleanup /\
    calls (state S).2.2 ≫= aborted = [0%nat] /\ good_inits (calls (state S).2.2)) as (S & Hr & Hd & Ha & Hg).
  { eexists. split; [|split; [|split]].
    - exists Demo.e0, [TUser; TWatchdog; TUser; TWatchdog; TWatchdog; TWatchdog; TDestructor; TDestructor].
      econstructor; [|econstructor; [|econstructor; [|econstructor; [|econstructor; [|econstructor; [|econstructor; [|econstructor; [|constructor]]]]]]]].
      + apply turn_user; [reflexivity|]. by apply (UCall _ _ _ _ _ _ (OpAllreduce [Demo.x] SUM)).
      + apply (turn_wd _ _ _ _ _ _ (mkChoice [(str "0", [0%nat])] [])); [reflexivity|]. vm_compute. reflexivity.
      + apply turn_user; [vm_compute; reflexivity|]. apply UDestroy. vm_compute. reflexivity.
      + apply (turn_wd _ _ _ _ _ _ (mkChoice [] [])); [vm_compute; reflexivity|]. exact I.
      + apply (turn_wd _ _ _ _ _ _ (mkChoice [] [])); [vm_compute; reflexivity|]. exact I.
      + apply (turn_wd _ _ _ _ _ _ (mkChoice [(str "0", [0%nat])] [])); [vm_compute; reflexivity|]. vm_compute. reflexivity.
      + apply (turn_ds _ _ _ _ _ _ (mkChoice [(str "0", [0%nat])] [])); [vm_compute; reflexivity|]. vm_compute. reflexivity.
      + apply (turn_ds _ _ _ _ _ _ (mkChoice [(str "0", [0%nat])] [])); [vm_compute; reflexivity|]. vm_compute. reflexivity.
    - vm_compute. reflexivity.
    - vm_compute. reflexivity.
    - split; [vm_compute; repeat constructor; intros H; inversion H|].
      vm_compute. repeat constructor; try (intros; eexists; reflexivity). }
  exists S. split; [exact Hd|split; [exact Ha|]]. exact (nccl_aborted_once _ _ _ _ _ S Hr Hg).
Defined.
