(* ===== verification/NCCLDestructor.v ===== *)
(** * The destructor of ProcessGroupNCCL

    Proves that ~ProcessGroupNCCL() (csrc/c10d/distributed/c10d/ProcessGroupNCCL.cpp)
    finishes: whatever the watchdog, the clean-up thread and the user were doing, it
    joins the threads after finitely many turns of each, or the process has gone
    down.  The clean-up thread ends because the destructor aborts the cached
    communicators before it joins it, and each work of the list has one of them. *)

From stdpp Require Import base option list gmap strings relations.
From Stdlib Require Import ZArith Lia.
From S2P Require Import Prelude Decimal NetUtils ProcessGroup Store Tensors NCCL ProcessGroupNCCL NCCLThreads.
Import Decimal.
#[local] Set Warnings "-clear-no-such-hyp".

(** ** The destructor finishes *)

Section destructor.
Context {E : Type} (handle : forall c : call, M E (answer c)) (store : StoreOps E) (N : Z) (cfg : config).
#[local] Set Default Proof Using "Type".
#[local] Set Proof Using Clear Unused.
Abbreviation heap := (gmap nat NCCLComm).
Abbreviation cst := (heap * world (E := E))%type.
Abbreviation st := (group * cst)%type.
Abbreviation sys := (sys (E := E)).

(** Communicators are not lost, an abort and an error stay. *)
Definition heap_le (h h' : heap) : Prop :=
  forall c m, h !! c = Some m -> exists m', h' !! c = Some m' /\
    (aborted_ m = true -> aborted_ m' = true) /\ (ncclAsyncErr_ m <> ncclSuccess -> ncclAsyncErr_ m' <> ncclSuccess).
#[global] Instance heap_le_pre : PreOrder heap_le.
Proof.
  split; [by intros h c m H; exists m|]. intros h1 h2 h3 H1 H2 c m H.
  destruct (H1 c m H) as (m2 & E2 & ? & ?). destruct (H2 c m2 E2) as (m3 & E3 & ? & ?). exists m3. auto.
Qed.
Lemma heap_le_insert (h : heap) c m m' : h !! c = Some m -> (aborted_ m = true -> aborted_ m' = true) ->
  (ncclAsyncErr_ m <> ncclSuccess -> ncclAsyncErr_ m' <> ncclSuccess) -> heap_le h (<[c := m']> h).
Proof.
  intros Hc Ha He c1 m1 H1. destruct (decide (c1 = c)) as [->|Hne].
  - rewrite lookup_insert_eq. simplify_eq. by exists m'.
  - rewrite lookup_insert_ne by done. by exists m1.
Qed.

(** What the threads do to the group: works leave the list, their communicators
    stay. *)
Definition thread_rel (s s' : st) : Prop :=
  devNCCLCommMap_ s'.1 = devNCCLCommMap_ s.1 /\ terminateProcessGroup_ s'.1 = terminateProcessGroup_ s.1 /\
  (ncclComms_ <$> workMetaList_ s'.1) `sublist_of` (ncclComms_ <$> workMetaList_ s.1) /\ heap_le s.2.1 s'.2.1.
#[global] Instance thread_rel_pre : PreOrder thread_rel.
Proof.
  split; [by intros s; split_and!|]. intros s1 s2 s3 (A1 & B1 & C1 & D1) (A2 & B2 & C2 & D2). split_and!; by etrans.
Qed.
Lemma thread_rel_heap g (x x' : cst) : heap_le x.1 x'.1 -> thread_rel (g, x) (g, x').
Proof. intros H. by split_and!. Qed.

#[global] Instance thread_rel_framed : Framed handle thread_rel.
Proof.
  split.
  - typeclasses eauto.
  - intros c g h w _. by apply thread_rel_heap.
  - intros A m g h w. by apply thread_rel_heap.
  - intros c g [h w]. apply thread_rel_heap. unfold on_comm. cbn. destruct (h !! c) as [m|] eqn:Hc; [|done].
    unfold NCCLComm_ncclCommAbort, this, put, lib. unfold_M. cbn. destruct (aborted_ m) eqn:Ha; cbn; [by rewrite insert_id|].
    destruct (NCCL.sys handle _ w) as [[r|e|] w']; cbn; [|by rewrite insert_id..].
    unfold C10D_NCCL_CHECK, ocheck. case_bool_decide; cbn; [|by rewrite insert_id].
    eapply heap_le_insert; [done..|]. cbn. by case_bool_decide.
  - intros c g [h w]. apply thread_rel_heap. unfold on_comm. cbn. destruct (h !! c) as [m|] eqn:Hc; [|done].
    unfold checkForNcclError, this, put, lib. unfold_M. cbn. case_bool_decide as He; cbn; [by rewrite insert_id|].
    destruct (NCCL.sys handle _ w) as [[r|e|] w']; cbn; [|by rewrite insert_id..].
    assert (heap_le h (<[c := mkComm (ncclComm_ m) (ncclId_ m) (aborted_ m) r.2]> h)) as H.
    { eapply heap_le_insert; [done..|]. intros ?. by destruct He. }
    unfold C10D_NCCL_CHECK, ocheck. by case_bool_decide.
  - intros n r id [g [h w]]. unfold create_comm, lsys, below, bind at 1. cbn -[NCCLComm_create].
    destruct (NCCLComm_create handle n r id w) as [[m|e|] w']; cbn -[fresh]; [|done..].
    apply thread_rel_heap. intros c m1 H1. exists m1. cbn -[fresh]. rewrite lookup_insert_ne; [done|].
    intros Hf. apply elem_of_dom_2 in H1. rewrite <- Hf in H1. by apply is_fresh in H1.
  - intros f [g x] Hf. destruct (Hf g) as (H1 & H2 & H3). split_and!; cbn; rewrite ?H2; done.
Qed.

(** *** The invariant of the group

    Cached communicators exist; a work of the list has a communicator, and all of
    its communicators are cached. *)
Definition work_ok (cache : gmap bytes (list nat)) (comms : list (option nat)) : Prop :=
  exists l, comms = Some <$> l /\ l <> [] /\ forall c, c ∈ l -> exists k l', cache !! k = Some l' /\ c ∈ l'.
Definition group_ok (s : st) : Prop :=
  (forall k l c, devNCCLCommMap_ s.1 !! k = Some l -> c ∈ l -> is_Some (s.2.1 !! c)) /\
  Forall (work_ok (devNCCLCommMap_ s.1)) (ncclComms_ <$> workMetaList_ s.1).
Definition all_aborted (s : st) : Prop :=
  forall k l c, devNCCLCommMap_ s.1 !! k = Some l -> c ∈ l -> exists m, s.2.1 !! c = Some m /\ aborted_ m = true.

Lemma sublist_Forall {A} (P : A -> Prop) l k : l `sublist_of` k -> Forall P k -> Forall P l.
Proof. induction 1; inversion 1; subst; auto. Qed.
Lemma heap_le_some (h h' : heap) c : heap_le h h' -> is_Some (h !! c) -> is_Some (h' !! c).
Proof. intros H [m Hm]. destruct (H c m Hm) as (m' & ? & _). eauto. Qed.
Lemma thread_rel_ok s s' : thread_rel s s' -> group_ok s -> group_ok s'.
Proof.
  intros (Hd & _ & Hl & Hh) [H1 H2]. split; rewrite Hd; [|by eapply sublist_Forall].
  intros k l c Hk Hc. eapply heap_le_some; [done|]. by eapply H1.
Qed.
Lemma thread_rel_aborted s s' : thread_rel s s' -> all_aborted s -> all_aborted s'.
Proof.
  intros (Hd & _ & _ & Hh) H k l c Hk Hc. rewrite Hd in Hk. destruct (H k l c Hk Hc) as (m & Hm & Ha).
  destruct (Hh c m Hm) as (m' & ? & ? & _). exists m'. auto.
Qed.

(** Calls of the user: from [P], with the result and the state in [Q]. *)
Definition ok {A} (P : st -> Prop) (m : M st A) (Q : A -> st -> Prop) : Prop :=
  forall s, group_ok s -> P s -> group_ok (snd (m s)) /\ forall a, fst (m s) = Ret a -> Q a (snd (m s)).
Lemma ok_bind {A B} P (m : M st A) Q (k : A -> M st B) Q' :
  ok P m Q -> (forall a, ok (Q a) (k a) Q') -> ok P (bind m k) Q'.
Proof.
  intros Hm Hk s Hg Hp. unfold bind. destruct (Hm s Hg Hp) as [Hg1 HQ]. destruct (m s) as [[a|e|] s1]; cbn in *; [|done..].
  apply Hk; [done|by apply HQ].
Qed.
Lemma ok_neutral {A} (P : st -> Prop) (m : M st A) :
  follows thread_rel m -> (forall s s', thread_rel s s' -> P s -> P s') -> ok P m (fun _ => P).
Proof. intros Hm HP s Hg Hs. specialize (Hm s). split; [by eapply thread_rel_ok|]. intros a _. by eapply HP. Qed.
Lemma ok_ret {A} (a : A) (P : st -> Prop) (Q : A -> st -> Prop) : (forall s, P s -> Q a s) -> ok P (ret a) Q.
Proof. intros H s Hg Hs. split; [done|]. intros ? [= <-]. by apply H. Qed.
Lemma ok_strengthen {A} (P P' : st -> Prop) (m : M st A) Q : (forall s, P s -> P' s) -> ok P' m Q -> ok P m Q.
Proof. intros H Hm s Hg Hs. apply Hm; [done|by apply H]. Qed.
Definition true_st (_ : st) : Prop := True.
Lemma ok_true {A} (m : M st A) : follows thread_rel m -> ok true_st m (fun _ => true_st).
Proof. intros H. by apply ok_neutral. Qed.

(** The cache has the communicators under the key. *)
Definition cached (key : bytes) (l : list nat) (s : st) : Prop := devNCCLCommMap_ s.1 !! key = Some l.
Lemma cached_stable key l s s' : thread_rel s s' -> cached key l s -> cached key l s'.
Proof. intros (Hd & _) H. unfold cached. by rewrite Hd. Qed.

Definition in_heap (l : list nat) (s : st) : Prop := forall c, c ∈ l -> is_Some (s.2.1 !! c).
Lemma in_heap_stable l s s' : thread_rel s s' -> in_heap l s -> in_heap l s'.
Proof. intros (_ & _ & _ & Hh) H c Hc. eapply heap_le_some; [done|by apply H]. Qed.
Lemma ok_create_comm P n r id : (forall s s', thread_rel s s' -> P s -> P s') ->
  ok P (create_comm handle n r id) (fun c s => in_heap [c] s /\ P s).
Proof.
  intros HP s Hg Hs. pose proof (fol_create_comm handle thread_rel n r id s) as H.
  split; [by eapply thread_rel_ok|]. intros c Hc. split; [|by eapply HP].
  revert Hc. unfold create_comm, bind. destruct (lsys _ s) as [[m|e|] s1]; cbn -[fresh]; [|done..]. intros [= <-].
  intros c1 ->%list_elem_of_singleton. cbn -[fresh]. rewrite lookup_insert_eq. eauto.
Qed.
Lemma ok_frame {A} (P F : st -> Prop) (m : M st A) Q :
  follows thread_rel m -> (forall s s', thread_rel s s' -> F s -> F s') -> ok P m Q -> ok (fun s => P s /\ F s) m (fun a s => Q a s /\ F s).
Proof.
  intros Hm HF H s Hg [Hp Hf]. destruct (H s Hg Hp) as [Hg' HQ]. split; [done|]. intros a Ha. split; [by apply HQ|].
  eapply HF; [apply Hm|done].
Qed.

Lemma ok_seq {A B} (m : M st A) (k : A -> M st B) Q' :
  follows thread_rel m -> (forall a, ok true_st (k a) Q') -> ok true_st (bind m k) Q'.
Proof. intros Hm Hk. eapply ok_bind; [by apply ok_true|exact Hk]. Qed.
Lemma ok_seq_stable {A B} (P : st -> Prop) (m : M st A) (k : A -> M st B) Q' :
  follows thread_rel m -> (forall s s', thread_rel s s' -> P s -> P s') -> (forall a, ok P (k a) Q') -> ok P (bind m k) Q'.
Proof. intros Hm HP Hk. eapply ok_bind; [by apply ok_neutral|exact Hk]. Qed.
Lemma ok_gpuGuard {A} (P : st -> Prop) (m : M st A) (Q : A -> st -> Prop) :
  (forall a s s', thread_rel s s' -> Q a s -> Q a s') -> ok P m Q -> ok P (gpuGuard m) Q.
Proof.
  intros HQ H s Hg Hp. unfold gpuGuard. specialize (H s Hg Hp). destruct (m s) as [o s'] eqn:Em. cbn in *.
  assert (thread_rel s' (upd_current_device (fun _ => current_device s.1) s'.1, s'.2)) as Hr by (by split_and!).
  destruct H as [Hg' Ha]. split; [by eapply thread_rel_ok|]. intros a ->. eapply HQ; [done|by apply Ha].
Qed.
Lemma ok_create_comms n i l op r self id : ok true_st (create_comms handle cfg n i l op r self id) (fun x => in_heap (fst x)).
Proof.
  revert i. induction l as [|d l IH]; intros i; cbn [create_comms]; [apply ok_ret; by intros s _ c ?%elem_of_nil|].
  destruct (nccl_rank _ _ _ _ _ _) as [nr rk]. apply ok_seq; [follow|intros _].
  eapply ok_bind; [by apply ok_create_comm|intros c].
  apply ok_seq_stable; [follow|intros s s' Hr [Hc Ht]; split; [by eapply in_heap_stable|done]|intros str].
  eapply ok_bind; [eapply ok_strengthen; [|apply (ok_frame true_st (in_heap [c])); [|by apply in_heap_stable|apply IH]]|].
  - intros s [H _]. by split.
  - follow.
  - intros [cs strs]. apply ok_ret. intros s [H1 H2] c1 [->|H]%elem_of_cons; [|by apply H1]. apply H2. by apply list_elem_of_singleton.
Qed.

Lemma ok_create_entry key l op r self : ok true_st (create_entry handle store N cfg key l op r self) (fun x => in_heap (snd x)).
Proof.
  unfold create_entry. apply ok_seq; [follow|intros id]. apply ok_seq; [follow|intros id'].
  eapply ok_bind with (Q := fun x => in_heap (fst x)).
  - apply ok_gpuGuard; [intros a s s'; apply in_heap_stable|].
    apply ok_seq; [follow|intros active]. apply ok_seq; [follow|intros _]. apply ok_seq; [follow|intros _].
    eapply ok_bind; [apply ok_create_comms|intros x].
    apply ok_seq_stable; [follow|by apply in_heap_stable|intros _].
    apply ok_seq_stable; [follow|by apply in_heap_stable|intros _]. by apply ok_ret.
  - intros [cs strs]. apply ok_seq_stable; [follow|by apply in_heap_stable|intros _].
    apply ok_seq_stable; [follow|by apply in_heap_stable|intros evs].
    apply ok_seq_stable; [follow|by apply in_heap_stable|intros _]. by apply ok_ret.
Qed.
Lemma ok_getNCCLComm key l op r self :
  ok true_st (getNCCLComm handle store N cfg key l op r self) (fun cs s => cached key cs s /\ key <> []).
Proof.
  unfold getNCCLComm. intros s Hg _. unfold bind at 1. unfold assert_, lift, ocheck.
  destruct (negb (Nat.eqb (length key) 0)) eqn:Hk; [|by split].
  assert (key <> []) as Hne by (by intros ->). clear Hk. revert s Hg.
  cut (ok true_st (do! for_each l (fun device => upd (upd_usedDeviceIdxs_ (set_insert (device_index device)))) in
    let! cached := grp devNCCLCommMap_ in
    match cached !! key with
    | Some ncclComms => ret ncclComms
    | None =>
        let! r := create_entry handle store N cfg key l op r self in
        let '(ncclID, ncclComms) := r in
        do! upd (upd_ncclIdToCommMap_ (emplace (buildNcclUniqueIdStr ncclID) ncclComms)) in
        do! upd (upd_devNCCLCommMap_ (emplace key ncclComms)) in
        let! m := grp devNCCLCommMap_ in
        ret (default [] (m !! key))
    end) (fun cs s => cached key cs s /\ key <> [])); [intros H s Hg; by apply H|].
  apply ok_seq; [follow|intros _].
  intros s Hg _. unfold grp at 1, gets at 1, bind at 1. cbn -[create_entry].
  destruct (devNCCLCommMap_ s.1 !! key) as [cs|] eqn:Ec; [split; [done|]; by intros a [= <-]|].
  pose proof (ok_create_entry key l op r self s Hg I) as [Hg' Hc].
  pose proof (fol_create_entry handle store N cfg thread_rel key l op r self s) as (Hd & _).
  unfold bind, upd, modify, grp, gets, ret in *.
  destruct (create_entry _ _ _ _ _ _ _ _ _ s) as [[[id cs]|e|] s1]; cbn in *; [|by split..].
  specialize (Hc _ eq_refl). cbn in Hc. rewrite <- Hd in Ec.
  assert (emplace key cs (devNCCLCommMap_ s1.1) = <[key := cs]> (devNCCLCommMap_ s1.1)) as He by (unfold emplace; by rewrite Ec).
  split; [|intros a [= <-]; unfold cached; cbn; by rewrite He, lookup_insert_eq].
  destruct Hg' as [G1 G2]. split; cbn; rewrite He.
  - intros k l' c [[<- <-]|[_ Hl]]%lookup_insert_Some Hin; [by apply Hc|by eapply G1].
  - eapply Forall_impl; [exact G2|]. intros w (lw & -> & Hn & Hin). exists lw. split_and!; [done..|].
    intros c Hcl. destruct (Hin c Hcl) as (k & l' & Hk & Hl). exists k, l'. split; [|done].
    rewrite lookup_insert_ne; [done|]. intros ->. congruence.
Qed.

Lemma record_work_result evs cs strs idx s x s' : record_work handle evs cs strs idx s = (Ret x, s') ->
  exists l, x = Some <$> l /\ length l = length idx /\ forall c, c ∈ l -> c ∈ cs.
Proof.
  revert s x s'. induction idx as [|i idx IH]; intros s x s' H; cbn [record_work] in H.
  - injection H as <- _. exists []. split_and!; [done..|]. by intros c ?%elem_of_nil.
  - apply bind_Ret_inv in H as (str & s1 & _ & H). apply bind_Ret_inv in H as (ev & s2 & _ & H).
    apply bind_Ret_inv in H as ([] & s3 & _ & H). apply bind_Ret_inv in H as (c & s4 & Hc & H).
    apply bind_Ret_inv in H as (x' & s5 & Hx & H). injection H as <- _.
    destruct (IH _ _ _ Hx) as (l & -> & Hl & Hin). exists (c :: l). cbn. split_and!; [done|by rewrite Hl|].
    apply lift_Ret_inv in Hc as [Hc _]. unfold at_index in Hc. destruct (cs !! i) as [c'|] eqn:Ei; [|done]. injection Hc as ->.
    intros c1 [->|H1]%elem_of_cons; [by eapply list_elem_of_lookup_2|by apply Hin].
Qed.
Lemma ok_workEnqueue P w : (forall s, P s -> work_ok (devNCCLCommMap_ s.1) (ncclComms_ w)) ->
  ok P (workEnqueue (E := E) w) (fun _ => true_st).
Proof.
  intros H s Hg Hp. unfold workEnqueue. unfold bind, grp, gets, upd, modify, ret. cbn. destruct (terminateProcessGroup_ s.1); [done|].
  split; [|done]. destruct Hg as [G1 G2]. split; cbn; [done|]. rewrite fmap_app. apply Forall_app. split; [done|].
  apply Forall_singleton. by apply H.
Qed.
Lemma getKeyFromDevices_nil : getKeyFromDevices [] = [].
Proof. reflexivity. Qed.
Definition works_cached (x : list (option nat)) (s : st) : Prop := work_ok (devNCCLCommMap_ s.1) x.
Lemma works_cached_stable x s s' : thread_rel s s' -> works_cached x s -> works_cached x s'.
Proof. intros (Hd & _) H. unfold works_cached. by rewrite Hd. Qed.
Lemma ok_record_work key cs evs strs idx : idx <> [] ->
  ok (cached key cs) (record_work handle evs cs strs idx) works_cached.
Proof.
  intros Hne s Hg Hc. pose proof (fol_record_work handle thread_rel evs cs strs idx s) as Hr.
  split; [by eapply thread_rel_ok|]. intros x Hx. destruct (record_work _ _ _ _ _ s) as [o s'] eqn:Eq. cbn in *. subst o.
  destruct (record_work_result _ _ _ _ _ _ _ Eq) as (l & -> & Hl & Hin). exists l. split_and!; [done| |].
  - intros ->. by destruct idx.
  - intros c H. exists key, cs. split; [by eapply cached_stable|by apply Hin].
Qed.
Lemma ok_collective ins outs fn pre post op titled :
  (forall i o c s, follows (Rw thread_rel) (fn i o c s)) -> (forall s, follows (Rw thread_rel) (pre s)) ->
  (forall s, follows (Rw thread_rel) (post s)) ->
  ok true_st (collective handle store N cfg ins outs fn pre post op titled) (fun _ => true_st).
Proof.
  intros Hf Hpre Hpost. unfold collective. eapply ok_bind; [apply ok_getNCCLComm|intros cs].
  destruct ins as [|i ins']; [intros s _ [_ Hk]; by destruct Hk|]. set (ins := i :: ins').
  eapply ok_strengthen with (P' := cached (getKeyFromDevices (getDeviceList ins)) cs); [by intros s [? _]|].
  set (P := cached _ cs). assert (forall s s', thread_rel s s' -> P s -> P s') as HP by apply cached_stable.
  do 4 (apply ok_seq_stable; [follow|done|intros ?]).
  eapply ok_bind with (Q := works_cached).
  - apply ok_gpuGuard; [by apply works_cached_stable|].
    apply ok_seq_stable; [follow|done|intros _]. apply ok_seq_stable; [follow|done|intros _].
    apply ok_seq_stable; [|done|intros _].
    { framed_by (@fol_AutoNcclGroup). follow. framed_by (@fol_launch). intros. follow. }
    apply ok_seq_stable; [follow|done|intros _]. by apply ok_record_work.
  - intros x. eapply ok_bind with (Q := fun _ => true_st); [|intros _; by apply ok_ret].
    destruct (asyncErrorHandling_ cfg); [|by apply ok_ret]. by apply ok_workEnqueue.
Qed.
Lemma ok_pointToPoint ts fn peer op pre post :
  (forall t c s r, follows (Rw thread_rel) (fn t c s r)) -> (forall s, follows (Rw thread_rel) (pre s)) ->
  (forall s, follows (Rw thread_rel) (post s)) ->
  ok true_st (pointToPoint handle store N cfg ts fn peer op pre post) (fun _ => true_st).
Proof.
  intros Hf Hpre Hpost. unfold pointToPoint. eapply ok_bind; [apply ok_getNCCLComm|intros cs].
  eapply ok_strengthen with (P' := true_st); [done|].
  do 4 (apply ok_seq; [follow|intros ?]). apply ok_seq; [|intros x; by apply ok_ret].
  follow. framed_by (@fol_AutoNcclGroup). follow. framed_by (@fol_launch). intros. follow.
Qed.
Lemma ok_throw {A} e (P : st -> Prop) (Q : A -> st -> Prop) : ok P (throw e) Q.
Proof. by intros s Hg _. Qed.
Ltac ok_step :=
  match goal with
  | |- ok _ (collective _ _ _ _ _ _ _ _ _ _ _) _ => apply ok_collective; intros; follow
  | |- ok _ (pointToPoint _ _ _ _ _ _ _ _ _ _) _ => apply ok_pointToPoint; intros; follow
  | |- ok _ (throw _) _ => apply ok_throw
  | |- ok _ (if ?b then _ else _) _ => destruct b
  | |- ok _ (bind _ _) _ => apply ok_seq; [solve [follow]|intros ?]
  end.
Lemma ok_allreduce l op : ok true_st (allreduce handle store N cfg l op) (fun _ => true_st).
Proof. unfold allreduce. repeat ok_step. Qed.
Lemma ok_nccl_call op : ok true_st (nccl_call handle store N cfg op) (fun _ => true_st).
Proof.
  destruct op; cbn [nccl_call]; unfold broadcast, reduce, allgather, reduce_scatter, barrier, alltoall_base, alltoall, send, recv;
    repeat first [match goal with |- ok _ (allreduce _ _ _ _ _ _) _ => apply ok_allreduce end | ok_step].
  apply ok_gpuGuard; [done|]. apply ok_seq; [follow|intros ts]. eapply ok_bind; [apply ok_allreduce|intros w]. by apply ok_ret.
Qed.

(** *** What the threads do *)
Definition same_comms {A} (m : M (WorkNCCL * cst) A) : Prop := preserves (fun x => ncclComms_ x.1) m.
Lemma same_below {A} (m : M cst A) : same_comms (below m).
Proof. intros [w x]. unfold below. cbn. by destruct (m x). Qed.
Lemma same_change f : same_comms (change (S := cst) (upd_work f)).
Proof. by intros [w x]. Qed.
Ltac same := repeat first [ apply preserves_bind; [|intros ?] | apply same_below | apply same_change | apply preserves_gets | apply preserves_ret
  | apply preserves_throw | match goal with |- preserves _ (match ?x with _ => _ end) => destruct x end | eassumption ].
Lemma same_checkAndSetException : same_comms (checkAndSetException handle).
Proof. unfold checkAndSetException, exception, self, same_comms. same. Qed.
Lemma same_isCompleted : same_comms (isCompleted handle).
Proof.
  pose proof same_checkAndSetException. unfold isCompleted, exception, self, finishedGPUExecutionInternal, same_comms in *. same.
Qed.
Lemma same_abort_if_timed_out ids : same_comms (abort_if_timed_out handle ids).
Proof.
  pose proof same_checkAndSetException. unfold abort_if_timed_out, exception, self, timedOut, setException, on_lib, same_comms in *. same.
Qed.
Lemma same_handleNCCLGuard : same_comms (handleNCCLGuard (E := E)).
Proof. unfold handleNCCLGuard, exception, self, same_comms. same. Qed.

Lemma rel_on_work_at {A} i (m : M (WorkNCCL * cst) A) : follows (Rm thread_rel) m -> same_comms m -> follows thread_rel (on_work_at i m).
Proof.
  intros Hm Hs [g x]. unfold on_work_at. cbn. destruct (workMetaList_ g !! i) as [w|] eqn:Ew; [|done].
  specialize (Hm (w, x) g). specialize (Hs (w, x)). cbn in Hs. destruct (m (w, x)) as [o [w' x']]. cbn in *.
  destruct Hm as (_ & _ & _ & Hh). split_and!; cbn; [done..| |exact Hh].
  rewrite list_fmap_insert, Hs, list_insert_id; [done|]. by rewrite list_lookup_fmap, Ew.
Qed.
Lemma rel_abort_timed_out ids : follows thread_rel (abortTimedOutCollectives handle ids).
Proof.
  unfold abortTimedOutCollectives. follow. revert ids. induction (indices _) as [|i l IH]; intros ids; cbn [abort_timed_out_loop]; [follow|].
  apply follows_bind; [typeclasses eauto| |intros ?; apply IH]. apply rel_on_work_at; [follow|apply same_abort_if_timed_out].
Qed.
Lemma rel_wd_step c pc : follows thread_rel (wd_step handle store cfg c pc).
Proof. destruct pc; cbn [wd_step]; follow. apply rel_abort_timed_out. Qed.
Lemma rel_delete i : follows thread_rel (upd (upd_workMetaList_ (fun l => delete i l))).
Proof. intros [g x]. split_and!; cbn; [done..| |done]. rewrite list_fmap_delete. apply sublist_delete. Qed.
Lemma rel_cleanup_loop n i : follows thread_rel (cleanup_loop handle n i).
Proof.
  revert i. induction n as [|n IH]; intros i; cbn [cleanup_loop];
    repeat first [apply rel_delete | follow_step | apply rel_on_work_at | apply IH | apply same_isCompleted | apply same_handleNCCLGuard].
Qed.
Lemma rel_cl_step pc : follows thread_rel (cl_step handle pc).
Proof. destruct pc as [b|]; cbn [cl_step]; follow. apply rel_cleanup_loop. Qed.

(** *** After the abort of the cache, one scan empties the list of works *)
Definition doomed (h : heap) (comms : list (option nat)) : Prop :=
  exists c l m, comms = Some c :: l /\ h !! c = Some m /\ ncclAsyncErr_ m <> ncclSuccess.
Lemma group_doomed s : marked s.2 -> group_ok s -> all_aborted s -> Forall (doomed s.2.1) (ncclComms_ <$> workMetaList_ s.1).
Proof.
  intros Hm [_ Hg] Ha. eapply Forall_impl; [exact Hg|]. intros comms (l & -> & Hn & Hin). destruct l as [|c l]; [done|].
  destruct (Hin c) as (k & l' & Hk & Hl); [apply list_elem_of_here|]. destruct (Ha k l' c Hk Hl) as (m & Hc & Hab).
  exists c, (Some <$> l), m. split_and!; [done..|]. by apply (Hm c).
Qed.
Lemma doomed_completed w x : doomed x.1 (ncclComms_ w) -> exists w', isCompleted handle (w, x) = (Ret true, (w', x)).
Proof.
  intros (c & l & m & Ew & Hc & He).
  assert (checkForNCCLErrorsInternal handle (ncclComms_ w) x = (Ret (Some (RuntimeError "NCCL error: ")), x)) as Hx.
  { rewrite Ew. cbn. unfold bind, on_comm. rewrite Hc. unfold checkForNcclError, this. unfold_M. cbn.
    rewrite bool_decide_true by done. cbn. rewrite insert_id by done. rewrite bool_decide_true by done. by destruct x. }
  unfold isCompleted, checkAndSetException, exception, self, change, below. unfold_M. cbn.
  destruct (exception_ (work w)) as [e|] eqn:Ee; cbn; [rewrite Ee; by exists w|]. rewrite Hx. cbn. by eexists.
Qed.
Lemma cleanup_all n s : terminateProcessGroup_ s.1 = true -> n = length (workMetaList_ s.1) ->
  Forall (doomed s.2.1) (ncclComms_ <$> workMetaList_ s.1) ->
  exists g, cleanup_loop handle n 0 s = (Ret tt, (g, s.2)) /\ workMetaList_ g = [].
Proof.
  revert s. induction n as [|n IH]; intros [g x] Ht Hn Hd; cbn [fst snd] in *.
  - exists g. split; [done|]. by apply nil_length_inv.
  - destruct (workMetaList_ g) as [|w ws] eqn:El; [done|]. cbn in Hn, Hd. injection Hn as Hn.
    apply Forall_cons in Hd as [Hw Hd]. destruct (doomed_completed w x Hw) as [w' Hw'].
    cbn [cleanup_loop]. unfold bind at 1, on_work_at. cbn [fst snd]. rewrite El. cbn [lookup list_lookup]. rewrite Hw'.
    set (g1 := upd_workMetaList_ (fun l => delete 0%nat l) (upd_workMetaList_ (fun l => <[0%nat := w']> l) g)).
    assert (workMetaList_ g1 = ws) as E1 by (cbn; by rewrite El).
    unfold bind at 1 2 3, gets, upd, modify, ret. cbn [fst snd terminateProcessGroup_ upd_workMetaList_]. rewrite Ht.
    destruct (IH (g1, x)) as (g2 & H2 & E2); cbn [fst snd]; rewrite ?E1; [done..|]. by exists g2.
Qed.

(** A loop whose rounds each establish something that stays. *)
Lemma for_each_all {S A} (R : S -> S -> Prop) `{!PreOrder R} (P : A -> S -> Prop) (l : list A) (f : A -> M S unit) s s' :
  (forall a, follows R (f a)) -> (forall a s s', R s s' -> P a s -> P a s') ->
  (forall a s s', f a s = (Ret tt, s') -> P a s') -> for_each l f s = (Ret tt, s') -> forall a, a ∈ l -> P a s'.
Proof.
  intros Hf HR HP. revert s. induction l as [|b l IH]; intros s H a Ha; [by apply elem_of_nil in Ha|].
  cbn in H. apply bind_Ret_inv in H as ([] & s1 & H1 & H2). apply elem_of_cons in Ha as [->|Ha]; [|by eapply IH].
  pose proof (follows_for_each R l f Hf s1) as Hr. rewrite H2 in Hr. eapply HR; [exact Hr|by eapply HP].
Qed.
Definition comm_aborted (c : nat) (x : cst) : Prop := exists m, x.1 !! c = Some m /\ aborted_ m = true.
Lemma comm_aborted_stable c (x x' : cst) : Rc thread_rel x x' -> comm_aborted c x -> comm_aborted c x'.
Proof.
  intros H (m & Hm & Ha). destruct (H new_group) as (_ & _ & _ & Hh). destruct (Hh c m Hm) as (m' & ? & ? & _). exists m'. auto.
Qed.
Lemma abort_aborts c (x x' : cst) : on_comm c (NCCLComm_ncclCommAbort handle) x = (Ret tt, x') -> comm_aborted c x'.
Proof.
  unfold on_comm. destruct x as [h w]. cbn. destruct (h !! c) as [m|] eqn:Hc; [|done].
  unfold NCCLComm_ncclCommAbort, this, put, lib. unfold_M. cbn. destruct (aborted_ m) eqn:Ha; cbn.
  - intros [= <-]. exists m. cbn. by rewrite lookup_insert_eq.
  - destruct (NCCL.sys handle _ w) as [[r|e|] w']; cbn; [|done..].
    unfold C10D_NCCL_CHECK, ocheck. case_bool_decide; cbn; [|done]. intros [= <-]. eexists. cbn. by rewrite lookup_insert_eq.
Qed.
Lemma abort_cache_aborts order (x x' : cst) : abort_cache handle order x = (Ret tt, x') ->
  forall k l c, (k, l) ∈ order -> c ∈ l -> comm_aborted c x'.
Proof.
  intros H k l c Hk. revert c.
  refine (for_each_all (Rc thread_rel) (fun p x => forall c, c ∈ p.2 -> comm_aborted c x) order _ x x' _ _ _ H (k, l) Hk).
  - intros p. follow.
  - intros p y y' Hr Hp c Hc. eapply comm_aborted_stable; [exact Hr|by apply Hp].
  - intros p y y' Hp. refine (for_each_all (Rc thread_rel) comm_aborted _ _ y y' _ comm_aborted_stable abort_aborts Hp).
    intros c. exact (fol_abort handle thread_rel c).
Qed.

(** *** Steps that return

    The libraries and the store return or throw; [find_in_store] waits for at most
    the given time, and the key it then reads is there. *)
Definition returns {S A} (m : M S A) : Prop := forall s, fst (m s) <> Block.
Context (lib_returns : forall c, returns (handle c)).
Context (set_returns : forall k v, returns (store_set store k v)).
Context (find_returns : forall k, returns (do! store_wait_for store [k] kWaitForAbortCommStoreKey in store_get store k)).

Lemma returns_bind {S A B} (m : M S A) (k : A -> M S B) : returns m -> (forall a, returns (k a)) -> returns (bind m k).
Proof. intros Hm Hk s. unfold bind. specialize (Hm s). destruct (m s) as [[a|e|] s']; cbn in *; [apply Hk|done..]. Qed.
Lemma returns_for_each {S A} (l : list A) (f : A -> M S unit) : (forall a, returns (f a)) -> returns (for_each l f).
Proof. intros H. induction l as [|a l IH]; cbn; [done|]. by apply returns_bind. Qed.
Lemma returns_below {S T A} (m : M T A) : returns m -> returns (below (S := S) m).
Proof. intros H [s t]. unfold below. specialize (H t). cbn. by destruct (m t). Qed.
Lemma returns_sys c : returns (NCCL.sys handle c).
Proof using lib_returns. intros w. unfold NCCL.sys. specialize (lib_returns c (ext w)). by destruct (handle c (ext w)) as [[a|e|] e']. Qed.
Lemma returns_lib {S A} (m : M (world (E := E)) A) : returns m -> returns (lib (S := S) m).
Proof. intros H [s w]. unfold lib. specialize (H w). cbn. by destruct (m w). Qed.
Lemma returns_ext {A} (m : M E A) : returns m -> returns (in_ext m).
Proof. intros H w. unfold in_ext. specialize (H (ext w)). by destruct (m (ext w)). Qed.
Lemma returns_on_comm {A} c (m : M (NCCLComm * world (E := E)) A) : returns m -> returns (on_comm c m).
Proof. intros H [h w]. unfold on_comm. cbn. destruct (h !! c) as [k|]; [|done]. specialize (H (k, w)). by destruct (m (k, w)) as [? [? ?]]. Qed.
Lemma returns_check b e : returns (lift (S := NCCLComm * world (E := E)) (ocheck b e)).
Proof. intros s. by destruct b. Qed.
Lemma returns_on_work_at {A} i (m : M (WorkNCCL * cst) A) : returns m -> returns (on_work_at i m).
Proof. intros H [g x]. unfold on_work_at. cbn. destruct (workMetaList_ g !! i) as [w|]; [|done]. specialize (H (w, x)). by destruct (m (w, x)) as [? [? ?]]. Qed.
Lemma returns_catch {S A} (m k : M S A) : returns m -> returns k -> returns (catch_std m k).
Proof. intros Hm Hk s. unfold catch_std. specialize (Hm s). destruct (m s) as [[a|e|] s']; cbn in *; [done| |done]. destruct (undefined e); [done|apply Hk]. Qed.
Lemma returns_at {S A} (l : list A) i : returns (lift (S := S) (at_index l i)).
Proof. intros s. unfold at_index, lift. cbn. by destruct (l !! i). Qed.
Ltac rtn_step :=
  match goal with
  | |- returns (bind _ _) => apply returns_bind; [|intros ?]
  | |- returns (for_each _ _) => apply returns_for_each; intros ?
  | |- returns (below _) => apply returns_below
  | |- returns (lib _) => apply returns_lib
  | |- returns (on_lib _) => unfold on_lib
  | |- returns (NCCL.sys _ ?c) => exact (returns_sys c)
  | |- returns (in_ext _) => apply returns_ext
  | |- returns (on_comm _ _) => apply returns_on_comm
  | |- returns (on_ptr ?p _) => destruct p; cbn
  | |- returns (on_work_at _ _) => apply returns_on_work_at
  | |- returns (catch_std _ _) => apply returns_catch
  | |- returns (lift (at_index _ _)) => apply returns_at
  | |- returns (lift (C10D_NCCL_CHECK _)) => apply returns_check
  | |- returns (match ?x with _ => _ end) => destruct x
  | |- returns (gets _) => by intros ?
  | |- returns (ret _) => by intros ?
  | |- returns (throw _) => by intros ?
  | |- returns _ => assumption || (by intros ?) || apply set_returns || solve [auto]
  end.
Ltac rtn := repeat rtn_step.
Lemma returns_abort : returns (NCCLComm_ncclCommAbort handle).
Proof using lib_returns. unfold NCCLComm_ncclCommAbort, this, put, modify. rtn. Qed.
Lemma returns_checkError : returns (checkForNcclError handle).
Proof using lib_returns. unfold checkForNcclError, this, put, modify. rtn. Qed.
Lemma returns_checkErrors l : returns (checkForNCCLErrorsInternal handle l).
Proof using lib_returns. pose proof returns_checkError. induction l as [|p l IH]; cbn; rtn. Qed.
Lemma returns_checkAndSet : returns (checkAndSetException handle).
Proof using lib_returns. pose proof returns_checkErrors. unfold checkAndSetException, exception, self, change, modify. rtn. Qed.
Lemma returns_query w l : returns (query_all handle w l).
Proof using lib_returns. induction l as [|i l IH]; cbn; rtn. Qed.
Lemma returns_isCompleted : returns (isCompleted handle).
Proof using lib_returns.
  pose proof returns_checkAndSet. pose proof returns_query. unfold isCompleted, finishedGPUExecutionInternal, exception, self. rtn.
Qed.
Lemma returns_abort_comms l ids : returns (abort_comms handle l ids).
Proof using lib_returns. pose proof returns_abort. revert ids. induction l as [|p l IH]; intros ids; cbn; rtn. Qed.
Lemma returns_comm_ids l ids : returns (comm_ids (E := E) l ids).
Proof. revert ids. induction l as [|p l IH]; intros ids; cbn; rtn. Qed.
Lemma returns_scan l a b : returns (scan_comms handle cfg l a b).
Proof using lib_returns.
  pose proof returns_abort_comms. pose proof returns_comm_ids. pose proof returns_checkErrors.
  revert a b. induction l as [|[k p] l IH]; intros a b; cbn; rtn.
Qed.
Lemma returns_abort_if_timed_out ids : returns (abort_if_timed_out handle ids).
Proof using lib_returns.
  pose proof returns_abort_comms. pose proof returns_checkAndSet.
  unfold abort_if_timed_out, timedOut, setException, exception, self, change, modify. rtn.
Qed.
Lemma returns_find id : returns (find_in_store (E := E) store id).
Proof using find_returns.
  intros [g [h w]]. specialize (find_returns (getNcclAbortedCommStoreKey id) (ext w)). unfold find_in_store, bind, below, in_ext in *.
  cbn in *. destruct (store_wait_for _ _ _ _) as [[u|e|] e']; cbn in *; [|done..].
  by destruct (store_get _ _ _) as [[u'|e|] e2].
Qed.
Lemma returns_abort_found id : returns (abort_found handle id).
Proof using lib_returns. pose proof returns_abort. unfold abort_found, upd, modify. rtn. Qed.
Lemma returns_wd_step c pc : returns (wd_step handle store cfg c pc).
Proof using lib_returns set_returns find_returns.
  pose proof returns_scan. pose proof returns_find. pose proof returns_abort_found.
  destruct pc; cbn [wd_step]; unfold record_aborted, upd, modify; rtn.
  unfold abortTimedOutCollectives. rtn. pose proof returns_abort_if_timed_out. generalize (indices a). intros idx.
  generalize abortedCommIds. induction idx as [|i idx IH]; intros ids; cbn; rtn.
Qed.
Lemma returns_cl_step pc : returns (cl_step handle pc).
Proof using lib_returns.
  pose proof returns_isCompleted. destruct pc as [b|]; cbn [cl_step]; rtn. generalize 0%nat as i.
  induction (length a0) as [|n IH]; intros i; cbn; unfold handleNCCLGuard, exception, self, change, upd, modify; rtn.
Qed.
Lemma returns_abort_cache l : returns (abort_cache handle l).
Proof using lib_returns. pose proof returns_abort. unfold abort_cache. rtn. Qed.

(** *** The invariant of the system *)
Definition sys_inv (S : sys) : Prop :=
  marked (state S).2 /\ group_ok (state S) /\ (ds S <> DNone -> terminateProcessGroup_ (state S).1 = true) /\
  (ds S = DJoinCleanup -> all_aborted (state S)).
Context (env : E -> E -> Prop).

(** The state changes as by the threads, and the destructor is where it was. *)
Lemma inv_rel S S' : marked (state S').2 -> thread_rel (state S) (state S') -> ds S' = ds S -> sys_inv S -> sys_inv S'.
Proof.
  intros Hm Hr Hd (_ & Hg & Ht & Ha). split_and!; [done|by eapply thread_rel_ok| |].
  - intros H. destruct Hr as (_ & -> & _). apply Ht. by rewrite <- Hd.
  - intros H. eapply thread_rel_aborted; [done|]. apply Ha. by rewrite <- Hd.
Qed.
Lemma settle_rel {A} (S : sys) (o : outcome A) s ok thrown :
  (forall a s, state (ok a s) = s) -> (forall e s, state (thrown e s) = s) -> thread_rel (state S) s ->
  thread_rel (state S) (state (settle S o s ok thrown)).
Proof. apply settle_keeps. typeclasses eauto. Qed.
Lemma settle_ds {A} (S : sys) (o : outcome A) s ok thrown :
  (forall a s, ds (ok a s) = ds S) -> (forall e s, ds (thrown e s) = ds S) -> ds (settle S o s ok thrown) = ds S.
Proof. intros H1 H2. destruct o as [a|e|]; cbn; [done| |done]. by destruct (undefined e). Qed.

Lemma wd_turn_rel c S : thread_rel (state S) (state (wd_turn handle store cfg c S)) /\ ds (wd_turn handle store cfg c S) = ds S.
Proof.
  unfold wd_turn. pose proof (rel_wd_step c (wd S) (state S)) as H. destruct (wd_step _ _ _ _ _ _) as [o s].
  split; [by apply settle_rel|by apply settle_ds].
Qed.
Lemma cl_turn_rel S : thread_rel (state S) (state (cl_turn handle S)) /\ ds (cl_turn handle S) = ds S.
Proof.
  unfold cl_turn. pose proof (rel_cl_step (cl S) (state S)) as H. destruct (cl_step _ _ _) as [o s].
  split; [by apply settle_rel|by apply settle_ds].
Qed.
Lemma group_ok_release S c m w : ~ referenced S c -> (state S).2.1 !! c = Some m -> group_ok (state S) ->
  group_ok ((state S).1, (delete c (state S).2.1, w)) /\
  (all_aborted (state S) -> all_aborted ((state S).1, (delete c (state S).2.1, w))).
Proof.
  intros Hn Hc [G1 G2]. assert (forall k l c', devNCCLCommMap_ (state S).1 !! k = Some l -> c' ∈ l -> c' <> c) as Hne.
  { intros k l c' Hk Hl ->. apply Hn. left. eauto. }
  split; [split; cbn; [|done]|intros Ha]; intros k l c' Hk Hl; cbn in *; rewrite lookup_delete_ne by (by apply not_eq_sym, (Hne k l)); eauto.
Qed.
Lemma user_group_rel S (start : bool) : thread_rel (state S) ((if start then groupStart handle else groupEnd handle) (state S)).2.
Proof.
  assert (follows thread_rel (groupStart handle) /\ follows thread_rel (groupEnd handle)) as [H1 H2]
    by (split; [apply fol_groupStart|apply fol_groupEnd]; typeclasses eauto).
  destruct start; [apply H1|apply H2].
Qed.
Lemma user_work_rel S w c : thread_rel (state S) ((state S).1, (run_work handle store c (w, (state S).2)).2.2).
Proof. pose proof (fol_run_work handle store thread_rel c (w, (state S).2) (state S).1) as H. by destruct (state S). Qed.

Lemma ds_turn_inv c S : c_order c ≡ₚ map_to_list (devNCCLCommMap_ (state S).1) ->
  marked (state (ds_turn handle cfg c S)).2 -> sys_inv S -> down (ds_turn handle cfg c S) = true \/ sys_inv (ds_turn handle cfg c S).
Proof.
  intros Hp. unfold ds_turn. destruct (ds S) eqn:Ed; cbn [ds_step]; unfold bind, below, upd, modify, ret, lift.
  - intros Hm (H1 & H2 & H3 & H4). right. split_and!; cbn; [done..|congruence].
  - intros Hm Hi. right. destruct (wd S); try exact Hi. destruct Hi as (H1 & H2 & H3 & H4). split_and!; cbn; [done..| |congruence].
    intros _. apply H3. by rewrite Ed.
  - destruct (abort_cache handle (c_order c) (state S).2) as [[[]|e|] x] eqn:Ea; cbn; intros Hm Hi; [|destruct (undefined e); by left|by right].
    right. assert (thread_rel (state S) ((state S).1, x)) as Hr.
    { pose proof (fol_abort_cache handle thread_rel (c_order c) (state S).2 (state S).1) as H. rewrite Ea in H. by destruct (state S). }
    destruct Hi as (H1 & H2 & H3 & H4). split_and!; cbn; [done|by eapply thread_rel_ok| |].
    + intros _. apply H3. by rewrite Ed.
    + intros _ k l c1 Hk Hc1. cbn in *. eapply abort_cache_aborts; [exact Ea| |exact Hc1]. rewrite Hp. by apply elem_of_map_to_list.
  - intros Hm Hi. right. assert (sys_inv (mkSys (destroy_members (state S).1, (state S).2) (works S) (wd S) (cl S) DDone (down S))) as Hd.
    { destruct Hi as (H1 & H2 & H3 & H4). split_and!; cbn; [done| | |congruence].
      - split; cbn; [intros k l c1 Hk; by rewrite lookup_empty in Hk|constructor].
      - intros _. apply H3. by rewrite Ed. }
    destruct (asyncErrorHandling_ cfg); [|exact Hd]. by destruct (cl S).
  - intros Hm (H1 & H2 & H3 & H4). right. split_and!; cbn; [done..| |congruence]. intros _. apply H3. by rewrite Ed.
Qed.
Lemma user_turn_inv S S' : user_turn handle store N cfg env S S' -> marked (state S').2 -> sys_inv S -> sys_inv S'.
Proof.
  destruct 1 as [S|S op Hd|S start|S i w c _|S i|S c m Hc Hn|S Hd|S e _]; intros Hm Hi; [done|..].
  - pose proof (ok_nccl_call op (state S) (proj1 (proj2 Hi)) I) as [Hg _]. revert Hm.
    destruct (nccl_call _ _ _ _ _ _) as [o s]. cbn in Hg. intros Hm.
    destruct o as [a|e|]; cbn in *; [|destruct (undefined e)|done]; split_and!; cbn in *; congruence || done.
  - pose proof (user_group_rel S start) as Hr. revert Hm Hr. generalize (if start then groupStart handle else groupEnd handle).
    intros m Hm Hr. destruct (m (state S)) as [o s].
    eapply inv_rel; [exact Hm|by apply settle_rel|by apply settle_ds|done].
  - pose proof (user_work_rel S w c) as Hr. revert Hm. destruct (run_work _ _ _ _) as [o [w' x]]. intros Hm.
    eapply inv_rel; [exact Hm|by apply settle_rel|by apply settle_ds|done].
  - done.
  - revert Hm. destruct (NCCLComm_destructor _ _) as [o [m' w]]. destruct (group_ok_release S c m w Hn Hc (proj1 (proj2 Hi))) as [H1 H2].
    destruct Hi as (I1 & I2 & I3 & I4). intros Hm. destruct o as [a|e|]; cbn in *; [|destruct (undefined e)|done]; split_and!; auto.
  - destruct Hi as (I1 & I2 & I3 & I4). split_and!; cbn; [done..|congruence].
  - eapply inv_rel; [exact Hm|by split_and!|done..].
Qed.
Lemma turn_inv t S S' : turn handle store N cfg env t S S' -> sys_inv S -> down S' = true \/ sys_inv S'.
Proof.
  intros Ht Hi. pose proof (turn_keeps _ _ _ _ _ _ _ _ Ht) as (_ & Hm & _). specialize (Hm (proj1 Hi)).
  destruct Ht as [S c _ _|S _|S c _ Hp|S S' _ H|S t Hd]; [..|by left].
  - right. destruct (wd_turn_rel c S) as [H1 H2]. by eapply inv_rel.
  - right. destruct (cl_turn_rel S) as [H1 H2]. by eapply inv_rel.
  - by apply ds_turn_inv.
  - right. by eapply user_turn_inv.
Qed.
Lemma run_sys_inv sched S S' : run handle store N cfg env sched S S' -> sys_inv S -> down S' = true \/ sys_inv S'.
Proof.
  induction 1 as [S|t sched S S1 S2 Ht Hr IH]; intros Hi; [by right|]. destruct (turn_inv _ _ _ Ht Hi) as [Hd|Hi1]; [|by apply IH].
  left. clear IH Hi Ht. revert Hd. induction Hr as [S1|t' sched' S1 S1' S2 Ht' _ IH]; intros Hd; [done|]. apply IH.
  by destruct Ht'; try congruence.
Qed.
Lemma initial_sys_inv e : sys_inv (initial (E := E) cfg e).
Proof.
  split_and!; cbn; [by intros c m H| |by intros []|done]. split; cbn; [|constructor]. intros k l c Hk. by rewrite lookup_empty in Hk.
Qed.

(** *** Progress *)
Definition weight (s : st) : nat := sum_list_with length (ncclComms_ <$> workMetaList_ s.1).
Definition wd_measure (s : st) (pc : wd_pc) : nat :=
  match pc with
  | WExit _ => 0
  | WTop => 1
  | WSleep => 2
  | WCheck todo => 3 + 2 * size todo
  | WFound _ todo => 4 + 2 * size todo
  | WRecord todo all => 4 + size todo + 2 * size all
  | WScanned ids all => 5 + size ids + weight s + 2 * size all
  end.
Definition cl_measure (pc : cl_pc) : nat := match pc with CLoop false => 2 | CLoop true => 1 | CExit => 0 end.
Definition ds_measure (pc : ds_pc) : nat :=
  match pc with DNone => 4 | DJoinWatchdog => 3 | DAbort => 2 | DJoinCleanup => 1 | DDone => 0 end.
Definition measure (S : sys) : nat := (wd_measure (state S) (wd S) + cl_measure (cl S) + ds_measure (ds S))%nat.

Lemma sum_sublist {A} (f : A -> nat) l k : l `sublist_of` k -> (sum_list_with f l <= sum_list_with f k)%nat.
Proof. induction 1; cbn; lia. Qed.
Lemma rel_weight s s' : thread_rel s s' -> (weight s' <= weight s)%nat.
Proof. intros (_ & _ & H & _). by apply sum_sublist. Qed.
Lemma wd_measure_rel s s' pc : thread_rel s s' -> (wd_measure s' pc <= wd_measure s pc)%nat.
Proof. intros H%rel_weight. destruct pc; cbn; lia. Qed.

Lemma abort_comms_size l ids x ids' x' : abort_comms handle l ids x = (Ret ids', x') -> (size ids' <= size ids + length l)%nat.
Proof.
  revert ids x. induction l as [|p l IH]; intros ids x H; cbn in H.
  - injection H as -> _. cbn. lia.
  - apply bind_Ret_inv in H as ([] & x1 & _ & H). apply bind_Ret_inv in H as (id & x2 & _ & H). apply IH in H.
    pose proof (size_union_alt {[buildNcclUniqueIdStr id]} ids) as Hs. rewrite size_singleton in Hs.
    pose proof (subseteq_size (ids ∖ {[buildNcclUniqueIdStr id]}) ids ltac:(set_solver)). cbn. lia.
Qed.
Lemma same_run {A} (m : M (WorkNCCL * cst) A) x a x' : same_comms m -> m x = (Ret a, x') -> ncclComms_ x'.1 = ncclComms_ x.1.
Proof. intros H E1. specialize (H x). by rewrite E1 in H. Qed.
Lemma abort_if_timed_out_size ids x ids' x' :
  abort_if_timed_out handle ids x = (Ret ids', x') -> (size ids' <= size ids + length (ncclComms_ x.1))%nat.
Proof.
  unfold abort_if_timed_out. intros H. apply bind_Ret_inv in H as ([] & x1 & H1 & H).
  pose proof (same_run _ _ _ _ same_checkAndSetException H1) as <-.
  apply bind_Ret_inv in H as (e & x2 & [= <- <-] & H). destruct (exception_ _); [injection H as -> _; lia|].
  apply bind_Ret_inv in H as (late & x3 & H3 & H).
  assert (same_comms (timedOut handle)) as Hs by (unfold timedOut, on_lib, self, same_comms; same).
  pose proof (same_run _ _ _ _ Hs H3) as <-. destruct late; [|injection H as -> _; lia].
  apply bind_Ret_inv in H as (now & x4 & H4 & H). pose proof (same_run _ _ _ _ (same_below _) H4) as <-.
  apply bind_Ret_inv in H as ([] & x5 & H5 & H). pose proof (same_run _ _ _ _ (same_change _) H5) as <-.
  apply bind_Ret_inv in H as (comms & x6 & [= <- <-] & H). unfold below in H.
  destruct (abort_comms handle _ _ _) as [[r|e|] y] eqn:Ea; [|done..]. injection H as -> _. by eapply abort_comms_size.
Qed.
(** The elements of a list, by their indices. *)
Lemma sum_indices (L : list (list (option nat))) :
  sum_list_with (fun i => length (default [] (L !! i))) (seq 0 (length L)) = sum_list_with length L.
Proof.
  induction L as [|x L IH]; [done|]. cbn [length seq sum_list_with lookup list_lookup default from_option].
  assert (forall l, sum_list_with (fun i => length (default [] ((x :: L) !! i))) (S <$> l) =
    sum_list_with (fun i => length (default [] (L !! i))) l) as Hl.
  { induction l as [|i l IHl]; cbn; [done|]. by rewrite <- IHl. }
  by rewrite <- fmap_S_seq, Hl, IH.
Qed.
Lemma on_work_at_run {A} i (m : M (WorkNCCL * cst) A) s a s' : same_comms m -> on_work_at i m s = (Ret a, s') ->
  ncclComms_ <$> workMetaList_ s'.1 = ncclComms_ <$> workMetaList_ s.1 /\
  exists w w', workMetaList_ s.1 !! i = Some w /\ m (w, s.2) = (Ret a, w').
Proof.
  intros Hs. unfold on_work_at. destruct (workMetaList_ s.1 !! i) as [w|] eqn:Ew; [|done]. specialize (Hs (w, s.2)).
  destruct (m (w, s.2)) as [o [w' x']] eqn:Em. cbn in *. intros [= -> <-]. split; [|by eexists _, _].
  cbn. rewrite list_fmap_insert, Hs, list_insert_id; [done|]. by rewrite list_lookup_fmap, Ew.
Qed.
Lemma abort_timed_out_size ids s ids' s' :
  abortTimedOutCollectives handle ids s = (Ret ids', s') -> (size ids' <= size ids + weight s)%nat.
Proof.
  unfold abortTimedOutCollectives, weight. intros H. apply bind_Ret_inv in H as (l & s1 & [= <- <-] & H). unfold indices in H.
  rewrite <- sum_indices, length_fmap. set (L := ncclComms_ <$> workMetaList_ s.1).
  assert (ncclComms_ <$> workMetaList_ s.1 = L) as HL by done. clearbody L. revert H HL. generalize (seq 0 (length (workMetaList_ s.1))) as idx.
  intros idx. revert ids s. induction idx as [|i idx IH]; intros ids s H HL; cbn [abort_timed_out_loop sum_list_with] in H |- *; [unfold ret in H; injection H as -> _; lia|].
  apply bind_Ret_inv in H as (ids1 & s1 & H1 & H).
  destruct (on_work_at_run _ _ _ _ _ (same_abort_if_timed_out ids) H1) as (Hl & w & w' & Ew & Hw).
  apply abort_if_timed_out_size in Hw. apply IH in H; [|by rewrite Hl]. cbn in Hw.
  assert (L !! i = Some (ncclComms_ w)) as -> by (rewrite <- HL, list_lookup_fmap, Ew; done). cbn. lia.
Qed.

(** The thread whose turn makes progress. *)
Definition helper (S : sys) : thread :=
  match ds S with
  | DJoinWatchdog => match wd S with WExit _ => TDestructor | _ => TWatchdog end
  | DJoinCleanup => if asyncErrorHandling_ cfg then match cl S with CExit => TDestructor | _ => TCleanup end else TDestructor
  | _ => TDestructor
  end.
(** A turn of [t] decreases the measure, or changes nothing that matters and is not
    the helper's. *)
Definition progress (t : thread) (S S' : sys) : Prop :=
  (measure S' < measure S)%nat \/ (measure S' <= measure S)%nat /\ helper S' = helper S /\ t <> helper S.

Lemma size_pick (todo : gset bytes) id : id ∈ todo -> (size (todo ∖ {[id]}) < size todo)%nat.
Proof. intros H. apply subset_size. set_solver. Qed.
Lemma wd_step_decreases c pc s pc' s' : wd_allows pc c s -> terminateProcessGroup_ s.1 = true -> (forall e, pc <> WExit e) ->
  wd_step handle store cfg c pc s = (Ret pc', s') -> (wd_measure s' pc' < wd_measure s pc)%nat.
Proof.
  intros Hc Ht He H. destruct pc as [|ids all|todo all|todo|id todo| |e]; cbn [wd_step] in H; [..|by destruct (He e)].
  - apply bind_Ret_inv in H as (b & s1 & [= <- <-] & H). rewrite Ht in H. injection H as <- _. cbn. lia.
  - apply bind_Ret_inv in H as (ids' & s1 & H1 & H). injection H as <- <-.
    assert (size ids' <= size ids + weight s)%nat as Hs.
    { destruct (asyncErrorHandling_ cfg); [by eapply abort_timed_out_size|]. injection H1 as -> _. lia. }
    destruct (blockingWait_ cfg); cbn; lia.
  - cbn in Hc. destruct (decide (todo = ∅)) as [->|Hn]; [injection H as <- _; cbn; rewrite size_empty; lia|].
    apply bind_Ret_inv in H as ([] & s1 & _ & H). injection H as <- _. destruct Hc as [?|Hin]; [done|].
    pose proof (size_pick _ _ Hin). cbn. lia.
  - cbn in Hc. destruct (decide (todo = ∅)) as [->|Hn]; [injection H as <- _; cbn; rewrite size_empty; lia|].
    destruct Hc as [?|Hin]; [done|]. pose proof (size_pick _ _ Hin).
    apply bind_Ret_inv in H as (b & s1 & [= <- <-] & H). destruct (bool_decide _); [injection H as <- _; cbn; lia|]. unfold catch_std in H.
    destruct ((let! _ := find_in_store store (c_id c) in _) s) as [[a|e|] s1] eqn:Ef; cbn in H; [|destruct (undefined e); [done|]|done].
    + injection H as <- _. apply bind_Ret_inv in Ef as (v & s2 & _ & Ef). injection Ef as <- _. cbn. lia.
    + injection H as <- _. cbn. lia.
  - unfold catch_std in H. destruct ((let! _ := abort_found handle id in _) s) as [[a|e|] s1] eqn:Ef; cbn in H; [|destruct (undefined e); [done|]|done].
    + injection H as <- _. apply bind_Ret_inv in Ef as (v & s2 & _ & Ef). injection Ef as <- _. cbn. lia.
    + injection H as <- _. cbn. lia.
  - injection H as <- _. cbn. lia.
Qed.
Lemma wd_turn_progress c S : wd_allows (wd S) c (state S) -> terminateProcessGroup_ (state S).1 = true ->
  down (wd_turn handle store cfg c S) = true \/ progress TWatchdog S (wd_turn handle store cfg c S).
Proof using lib_returns set_returns find_returns.
  intros Hc Ht. unfold wd_turn. pose proof (returns_wd_step c (wd S) (state S)) as Hb.
  pose proof (rel_wd_step c (wd S) (state S)) as Hr. pose proof (wd_step_decreases c (wd S) (state S)) as Hd.
  destruct (wd_step _ _ _ _ _ _) as [[pc'|e|] s'] eqn:Ew; cbn in *; [|destruct (undefined e); [by left|]|done]; right.
  - destruct (wd S) as [| | | | | |e] eqn:Epc.
    7: { injection Ew as <- <-. right. unfold measure, helper. cbn. rewrite Epc. split_and!; [done..|]. by repeat case_match. }
    all: left; unfold measure; cbn; rewrite Epc; specialize (Hd _ _ Hc Ht ltac:(done) eq_refl); cbn in Hd |- *; lia.
  - destruct (wd S) as [| | | | | |e'] eqn:Epc; [left; unfold measure; cbn; rewrite Epc; cbn; lia..|]. done.
Qed.
Lemma cl_step_loop b s : terminateProcessGroup_ s.1 = true -> cl_step handle (CLoop b) s =
  if b then (Ret CExit, s)
  else (do! cleanup_loop handle (length (workMetaList_ s.1)) 0 in
        let! l := gets (fun s => workMetaList_ s.1) in ret (CLoop (Nat.eqb (length l) 0))) s.
Proof. intros Ht. cbn [cl_step]. unfold bind at 1, gets at 1. rewrite Ht. cbn. by destruct b. Qed.
Lemma cl_turn_progress S : sys_inv S -> terminateProcessGroup_ (state S).1 = true ->
  down (cl_turn handle S) = true \/ progress TCleanup S (cl_turn handle S).
Proof using lib_returns.
  intros Hi Ht. unfold cl_turn. pose proof (returns_cl_step (cl S) (state S)) as Hb.
  pose proof (rel_cl_step (cl S) (state S)) as Hr.
  destruct (cl S) as [b|] eqn:Epc.
  2: { cbn. right. right. unfold measure, helper. cbn. rewrite Epc. split_and!; [done..|]. by repeat case_match. }
  rewrite cl_step_loop in * by done. destruct b.
  { cbn. right. left. unfold measure. cbn. rewrite Epc. cbn. lia. }
  destruct (decide (ds S = DJoinCleanup)) as [Ed|Ed].
  - destruct Hi as (I1 & I2 & _ & I4). destruct (cleanup_all _ (state S) Ht eq_refl (group_doomed _ I1 I2 (I4 Ed))) as (g & Hg & El).
    unfold bind in *. rewrite Hg in *. cbn in *. rewrite El in *. cbn in *. right. left. unfold measure. cbn. rewrite Epc. cbn.
    pose proof (wd_measure_rel _ _ (wd S) Hr). lia.
  - destruct ((do! cleanup_loop _ _ _ in _) (state S)) as [[pc|e|] s'] eqn:Ec; cbn in *; [|destruct (undefined e); by left|done].
    right. apply bind_Ret_inv in Ec as ([] & s1 & _ & Ec). injection Ec as <- ->.
    pose proof (wd_measure_rel _ _ (wd S) Hr) as Hw. destruct (Nat.eqb _ _); [left|right]; unfold measure, helper; cbn; rewrite Epc; cbn; [lia|].
    split_and!; [lia| |]; destruct (ds S); try done; by repeat case_match.
Qed.
Lemma ds_turn_progress c S : ds S <> DNone -> ds S <> DDone ->
  down (ds_turn handle cfg c S) = true \/ progress TDestructor S (ds_turn handle cfg c S).
Proof using lib_returns.
  intros Hn Hd. unfold ds_turn. destruct (ds S) eqn:Ed; try done; cbn [ds_step]; unfold bind, below, upd, modify, ret, lift.
  - destruct (wd S) eqn:Ew; cbn; right;
      [right; unfold measure, helper; rewrite ?Ed, ?Ew; by split_and!..|left; unfold measure; cbn; rewrite Ed; cbn; lia].
  - pose proof (returns_abort_cache (c_order c) (state S).2) as Hb.
    pose proof (fol_abort_cache handle thread_rel (c_order c) (state S).2 (state S).1) as Hr.
    destruct (abort_cache _ _ _) as [[[]|e|] x]; cbn in *; [|destruct (undefined e); by left|done].
    right. left. unfold measure. cbn. rewrite Ed. cbn.
    assert (thread_rel (state S) ((state S).1, x)) as Hr' by (by destruct (state S)).
    pose proof (wd_measure_rel _ _ (wd S) Hr'). cbn in *. lia.
  - assert (forall s, state S = s -> (wd_measure (destroy_members s.1, s.2) (wd S) <= wd_measure s (wd S))%nat) as Hw
      by (intros s _; destruct (wd S); cbn; lia).
    specialize (Hw _ eq_refl). unfold progress, measure, helper. rewrite Ed.
    destruct (asyncErrorHandling_ cfg); [destruct (cl S) eqn:Ec|]; cbn; right; rewrite ?Ed, ?Ec; cbn; [right; by split_and!|left; lia..].
Qed.
(** A turn that leaves the program counters alone and works with the group as the
    threads do. *)
Lemma rel_progress S S' : thread_rel (state S) (state S') -> wd S' = wd S -> cl S' = cl S -> ds S' = ds S ->
  progress TUser S S'.
Proof.
  intros Hr Hw Hc Hd. right. unfold measure, helper. rewrite Hw, Hc, Hd. pose proof (wd_measure_rel _ _ (wd S) Hr).
  split_and!; [lia|done|]. by repeat case_match.
Qed.
Lemma settle_progress {A} (S : sys) (o : outcome A) s ok thrown :
  (forall a s, state (ok a s) = s /\ wd (ok a s) = wd S /\ cl (ok a s) = cl S /\ ds (ok a s) = ds S) ->
  (forall e s, down (thrown e s) = true \/ state (thrown e s) = s /\ wd (thrown e s) = wd S /\ cl (thrown e s) = cl S /\ ds (thrown e s) = ds S) ->
  thread_rel (state S) s -> down (settle S o s ok thrown) = true \/ progress TUser S (settle S o s ok thrown).
Proof.
  intros H1 H2 Hr. destruct o as [a|e|]; cbn.
  - right. destruct (H1 a s) as (E1 & ? & ? & ?). apply rel_progress; [by rewrite E1|done..].
  - destruct (undefined e); [by left|]. destruct (H2 e s) as [?|(E1 & ? & ? & ?)]; [by left|right].
    apply rel_progress; [by rewrite E1|done..].
  - right. by apply rel_progress.
Qed.
Lemma weight_progress S S' : weight (state S') = weight (state S) -> wd S' = wd S -> cl S' = cl S -> ds S' = ds S -> progress TUser S S'.
Proof.
  intros Hr Hw Hc Hd. right. unfold measure, helper. rewrite Hw, Hc, Hd.
  assert (wd_measure (state S') (wd S) = wd_measure (state S) (wd S)) as -> by (destruct (wd S); cbn; rewrite ?Hr; done).
  split_and!; [lia|done|]. by repeat case_match.
Qed.
Lemma user_turn_progress S S' : user_turn handle store N cfg env S S' -> ds S <> DNone -> down S' = true \/ progress TUser S S'.
Proof.
  destruct 1 as [S|S op Hd|S start|S i w c _|S i|S c m Hc Hn|S Hd|S e _]; intros Hds; [|by destruct Hds| | | | |by destruct Hds|].
  - right. by apply rel_progress.
  - pose proof (user_group_rel S start) as Hr. revert Hr. generalize (if start then groupStart handle else groupEnd handle).
    intros m Hr. destruct (m (state S)) as [o s]. apply settle_progress; [done|by right|done].
  - pose proof (user_work_rel S w c) as Hr. destruct (run_work _ _ _ _) as [o [w' x]]. apply settle_progress; [done|by right|done].
  - right. by apply rel_progress.
  - destruct (NCCLComm_destructor _ _) as [o [m' w]]. destruct o as [a|e|]; cbn; [|destruct (undefined e); by left|].
    + right. by apply weight_progress.
    + right. by apply rel_progress.
  - right. apply rel_progress; [by split_and!|done..].
Qed.
Lemma turn_progress t S S' : turn handle store N cfg env t S S' -> sys_inv S -> ds S <> DNone -> ds S <> DDone ->
  down S' = true \/ progress t S S'.
Proof using lib_returns set_returns find_returns.
  intros Ht Hi Hn Hd. pose proof (proj1 (proj2 (proj2 Hi)) Hn) as Hterm.
  destruct Ht as [S c _ Hc|S _|S c _ _|S S' _ H|S t Hdown]; [..|by left].
  - by apply wd_turn_progress.
  - by apply cl_turn_progress.
  - by apply ds_turn_progress.
  - by apply user_turn_progress.
Qed.

(** Destruction does not go back. *)
Definition finished (S : sys) : Prop := ds S = DDone \/ down S = true.
Lemma user_turn_ds S S' : user_turn handle store N cfg env S S' -> ds S <> DNone -> ds S' = ds S.
Proof.
  destruct 1 as [S|S op Hd|S start|S i w c _|S i|S c m Hc Hn|S Hd|S e _]; intros Hds; [done|by destruct Hds| | |done| |by destruct Hds|done].
  - generalize (if start then groupStart handle else groupEnd handle). intros m. destruct (m (state S)) as [o s]. by apply settle_ds.
  - destruct (run_work _ _ _ _) as [o [w' x]]. by apply settle_ds.
  - destruct (NCCLComm_destructor _ _) as [o [m' w]]. by apply settle_ds.
Qed.
Lemma turn_ds_stays t S S' : turn handle store N cfg env t S S' -> ds S <> DNone ->
  down S' = true \/ ds S' <> DNone /\ (ds S = DDone -> ds S' = DDone).
Proof.
  intros Ht Hn. destruct Ht as [S c _ Hc|S _|S c _ _|S S' _ H|S t Hdown]; [..|by left].
  - right. destruct (wd_turn_rel c S) as [_ ->]. done.
  - right. destruct (cl_turn_rel S) as [_ ->]. done.
  - unfold ds_turn. destruct (ds S) eqn:Ed; try done; cbn [ds_step]; unfold bind, below, upd, modify, ret, lift.
    + right. destruct (wd S); cbn; by rewrite ?Ed.
    + destruct (abort_cache _ _ _) as [[[]|e|] x]; cbn; [by right|destruct (undefined e); by left|right; by rewrite Ed].
    + right. destruct (asyncErrorHandling_ cfg); [destruct (cl S)|]; cbn; by rewrite ?Ed.
    + by right.
  - right. by rewrite (user_turn_ds _ _ H Hn).
Qed.
Lemma down_stays sched S S' : run handle store N cfg env sched S S' -> down S = true -> down S' = true.
Proof. induction 1 as [S|t sched S S1 S2 Ht _ IH]; intros Hd; [done|]. apply IH. by destruct Ht; try congruence. Qed.
Lemma finished_stays sched S S' : run handle store N cfg env sched S S' -> finished S -> finished S'.
Proof.
  induction 1 as [S|t sched S S1 S2 Ht _ IH]; intros Hf; [done|]. apply IH. destruct Hf as [Hd|Hd].
  - destruct (turn_ds_stays _ _ _ Ht) as [?|[_ H]]; [by rewrite Hd|by right|left; by apply H].
  - right. by destruct Ht; try congruence.
Qed.

(** A round in which the helper has a turn decreases the measure. *)
Definition done_or (P : sys -> Prop) (S : sys) : Prop := finished S \/ (sys_inv S /\ ds S <> DNone /\ P S).
Lemma round_decreases sched S S' : run handle store N cfg env sched S S' -> sys_inv S -> ds S <> DNone ->
  done_or (fun S' => (measure S' <= measure S)%nat /\ (helper S ∈ sched -> (measure S' < measure S)%nat)) S'.
Proof using lib_returns set_returns find_returns.
  induction 1 as [S|t sched S S1 S2 Ht Hr IH]; intros Hi Hn; [right; split_and!; [done..|intros Hin; by apply elem_of_nil in Hin]|].
  destruct (decide (ds S = DDone)) as [Ed|Ed].
  { left. eapply (finished_stays (t :: sched)); [by econstructor|by left]. }
  destruct (turn_progress _ _ _ Ht Hi Hn Ed) as [Hd|Hp]; [left; right; by eapply down_stays|].
  destruct (turn_inv _ _ _ Ht Hi) as [Hd|Hi1]; [left; right; by eapply down_stays|].
  destruct (turn_ds_stays _ _ _ Ht Hn) as [Hd|[Hn1 _]]; [left; right; by eapply down_stays|].
  destruct (IH Hi1 Hn1) as [Hf|(Hi2 & Hn2 & Hle & Hlt)]; [by left|]. right. split_and!; [done..| |].
  - destruct Hp as [?|[? _]]; lia.
  - intros Hin. destruct Hp as [?|(? & Hh & Hne)]; [lia|]. apply elem_of_cons in Hin as [?|Hin]; [by subst|].
    rewrite <- Hh in Hin. specialize (Hlt Hin). lia.
Qed.
(** Every thread has a turn. *)
Definition fair (sched : list thread) : Prop := TWatchdog ∈ sched /\ TCleanup ∈ sched /\ TDestructor ∈ sched.
Lemma fair_helper sched S : fair sched -> helper S ∈ sched.
Proof. intros (H1 & H2 & H3). unfold helper. by repeat case_match. Qed.
Lemma run_app l1 l2 S S' : run handle store N cfg env (l1 ++ l2) S S' ->
  exists S1, run handle store N cfg env l1 S S1 /\ run handle store N cfg env l2 S1 S'.
Proof.
  revert S. induction l1 as [|t l1 IH]; intros S H; cbn in H; [exists S; split; [constructor|done]|].
  inversion H as [|? ? ? S1 ? Ht Hr]; subst. destruct (IH _ Hr) as (S2 & H1 & H2). exists S2. split; [by econstructor|done].
Qed.
Lemma measure_zero S : measure S = 0%nat -> ds S = DDone.
Proof. unfold measure. destruct (ds S); cbn; lia || done. Qed.
Lemma rounds_finish rounds S S' : Forall fair rounds -> (measure S <= length rounds)%nat -> sys_inv S -> ds S <> DNone ->
  run handle store N cfg env (concat rounds) S S' -> finished S'.
Proof using lib_returns set_returns find_returns.
  intros Hf. revert S. induction Hf as [|r rounds Hr Hf IH]; intros S Hm Hi Hn Hrun; cbn in *.
  - inversion Hrun; subst. left. apply measure_zero. lia.
  - apply run_app in Hrun as (S1 & H1 & H2). destruct (round_decreases _ _ _ H1 Hi Hn) as [Hfin|(Hi1 & Hn1 & _ & Hlt)].
    + by eapply finished_stays.
    + apply (IH S1); [|done..]. specialize (Hlt (fair_helper r S Hr)). lia.
Qed.
Lemma turn_exists t S : exists S', turn handle store N cfg env t S S'.
Proof.
  destruct (down S) eqn:Ed; [exists S; by constructor|]. destruct t.
  - assert (exists c, wd_allows (wd S) c (state S)) as [c Hc]; [|eexists; by eapply turn_wd].
    destruct (wd S) as [|ids all|todo all|todo|id todo| |e] eqn:Ew; cbn; try by exists (mkChoice [] []).
    + by exists (mkChoice (map_to_list (devNCCLCommMap_ (state S).1)) []).
    + destruct (set_choose_or_empty todo) as [[id Hid]|He]; [exists (mkChoice [] id); by right|].
      exists (mkChoice [] []). left. by apply leibniz_equiv.
    + destruct (set_choose_or_empty todo) as [[id Hid]|He]; [exists (mkChoice [] id); by right|].
      exists (mkChoice [] []). left. by apply leibniz_equiv.
  - eexists. by apply turn_cl.
  - exists (ds_turn handle cfg (mkChoice (map_to_list (devNCCLCommMap_ (state S).1)) []) S). by apply turn_ds.
  - exists S. apply turn_user; [done|constructor].
Qed.
Lemma run_exists sched S : exists S', run handle store N cfg env sched S S'.
Proof.
  revert S. induction sched as [|t sched IH]; intros S; [exists S; constructor|].
  destruct (turn_exists t S) as [S1 H1]. destruct (IH S1) as [S2 H2]. exists S2. by econstructor.
Qed.

(** C11: the destructor finishes.  From every reachable state in which it has
    started, the threads can always go on, and after enough rounds in each of which
    the watchdog, the clean-up thread and the destructor have a turn (the user and
    the rest of the world may have more), it has joined both threads or the process
    is down: no loop keeps a thread from seeing the flag, and the clean-up thread
    does not wait for works that never complete. *)
Theorem nccl_destructor_finishes (S : sys) :
  reachable handle store N cfg env S -> ds S <> DNone ->
  (forall sched, exists S', run handle store N cfg env sched S S') /\
  exists n, forall rounds S', Forall fair rounds -> (n <= length rounds)%nat ->
    run handle store N cfg env (concat rounds) S S' -> ds S' = DDone \/ down S' = true.
Proof using lib_returns set_returns find_returns.
  intros (e & sched & Hr) Hn. split; [intros; apply run_exists|].
  destruct (run_sys_inv _ _ _ Hr (initial_sys_inv e)) as [Hd|Hi].
  - exists 0%nat. intros rounds S' _ _ Hrun. right. by eapply down_stays.
  - exists (measure S). intros rounds S' Hf Hlen Hrun. exact (rounds_finish _ _ _ Hf Hlen Hi Hn Hrun).
Qed.
End destructor.

(** The user allreduces a tensor and destroys the group while the event has not
    happened: the work never completes. *)
Lemma nccl_destructor_finishes_witness :
  exists S, ds S = DJoinWatchdog /\ length (workMetaList_ (state S).1) = 1%nat /\
    exists n, forall rounds S', Forall fair rounds -> (n <= length rounds)%nat ->
      run (Demo.handle ncclSuccess false) Demo.store 128 Demo.cfg Demo.no_env (concat rounds) S S' -> ds S' = DDone \/ down S' = true.
Proof.
  assert (exists S, reachable (Demo.handle ncclSuccess false) Demo.store 128 Demo.cfg Demo.no_env S /\ ds S = DJoinWatchdog /\
    length (workMetaList_ (state S).1) = 1%nat) as (S & Hr & Hd & Hl).
  { eexists. split; [|split].
    - exists Demo.e0, [TUser; TUser]. econstructor; [|econstructor; [|constructor]].
      + apply turn_user; [reflexivity|]. by apply (UCall _ _ _ _ _ _ (OpAllreduce [Demo.x] SUM)).
      + apply turn_user; [vm_compute; reflexivity|]. apply UDestroy. vm_compute. reflexivity.
    - reflexivity.
    - vm_compute. reflexivity. }
  exists S. split; [exact Hd|split; [exact Hl|]].
  refine (proj2 (nccl_destructor_finishes (Demo.handle ncclSuccess false) Demo.store 128 Demo.cfg _ _ _ Demo.no_env S Hr _)).
  - intros c e. destruct c; discriminate.
  - intros k v e. discriminate.
  - intros k [h t]. cbn. unfold bind, Demo.on_store. cbn. unfold HashStore.wait_for, HashStore.cv_wait, HashStore.wait_pred. cbn.
    unfold HashStore.has. destruct (HashStore.map_ h !! _) as [v|] eqn:Ev; [|discriminate]. cbn. unfold HashStore.get. by rewrite Ev.
  - rewrite Hd. discriminate.
Defined.
