(* ===== verification/NCCLWait.v ===== *)
(** * Time-outs and aborts across ranks

    Proves that a blocking wait of WorkNCCL ends, with a verdict, and that the abort
    of a communicator by one rank reaches the others through the store
    (csrc/c10d/distributed/c10d/ProcessGroupNCCL.cpp: synchronizeInternal and
    ncclCommWatchdogInternal). *)

From stdpp Require Import base option list gmap strings relations.
From Stdlib Require Import ZArith Lia.
From S2P Require Import Prelude Decimal NetUtils ProcessGroup Store Tensors NCCL ProcessGroupNCCL NCCLThreads NCCLDestructor.
Import Decimal.
#[local] Set Warnings "-clear-no-such-hyp".

(** ** A blocking wait ends *)

Section wait.
Context {E : Type} (handle : forall c : call, M E (answer c)) (store : StoreOps E) (clock : E -> Z).
#[local] Set Default Proof Using "Type".
#[local] Set Proof Using Clear Unused.
Abbreviation heap := (gmap nat NCCLComm).
Abbreviation cst := (heap * world (E := E))%type.

(** std::chrono::steady_clock is read by [steady_clock_now], in nanoseconds; it does
    not go back, and sleep_for() sleeps for at least the given time.  No call waits
    for ever. *)
Context (lib_returns : forall c, returns (handle c)) (set_returns : forall k v, returns (store_set store k v)).
Context (clock_now : forall e, fst (handle steady_clock_now e) = Ret (clock e)).
Context (clock_mono : forall c e, clock e <= clock (snd (handle c e))).
Context (clock_sleep : forall ms e, clock e + ms * 1000000 <= clock (snd (handle (sleep_for ms) e))).

Definition time (x : WorkNCCL * cst) : Z := clock (ext x.2.2).
(** The work keeps its communicators, its time-out and its start; time goes on. *)
Definition later (x x' : WorkNCCL * cst) : Prop :=
  time x <= time x' /\ w_opTimeout_ x'.1 = w_opTimeout_ x.1 /\ workStartTime_ x'.1 = workStartTime_ x.1.
#[global] Instance later_pre : PreOrder later.
Proof. split; [by intros x; split_and!|]. intros x y z (A1 & A2 & A3) (B1 & B2 & B3). split_and!; [lia|congruence..]. Qed.
Definition later_c (x x' : cst) : Prop := clock (ext x.2) <= clock (ext x'.2).
#[global] Instance later_c_pre : PreOrder later_c.
Proof. split; [intros x; unfold later_c; lia|]. intros x y z H1 H2. unfold later_c in *. lia. Qed.
Definition later_w (w w' : world (E := E)) : Prop := clock (ext w) <= clock (ext w').
#[global] Instance later_w_pre : PreOrder later_w.
Proof. split; [intros x; unfold later_w; lia|]. intros x y z H1 H2. unfold later_w in *. lia. Qed.

Lemma later_sys c : follows later_w (NCCL.sys handle c).
Proof using clock_mono. intros w. unfold NCCL.sys, later_w. pose proof (clock_mono c (ext w)). by destruct (handle c (ext w)) as [[a|e|] e']. Qed.
Lemma later_below_w {A} (m : M (world (E := E)) A) : follows later_w m -> follows later_c (below m).
Proof. intros H [h w]. unfold below, later_c. cbn. specialize (H w). by destruct (m w). Qed.
Lemma later_below_c {A} (m : M cst A) : follows later_c m -> follows later (below m).
Proof. intros H [w x]. unfold below, later, time. cbn. specialize (H x). by destruct (m x). Qed.
Lemma later_on_comm {A} c (m : M (NCCLComm * world (E := E)) A) :
  (forall k w, later_w w (snd (m (k, w))).2) -> follows later_c (on_comm c m).
Proof.
  intros H [h w]. unfold on_comm, later_c. cbn. destruct (h !! c) as [k|]; [|cbn; lia]. specialize (H k w).
  by destruct (m (k, w)) as [o [k' w']].
Qed.
Lemma later_abort k w : later_w w (snd (NCCLComm_ncclCommAbort handle (k, w))).2.
Proof using clock_mono.
  unfold NCCLComm_ncclCommAbort, this, put, lib. unfold_M. cbn. destruct (aborted_ k); cbn; [reflexivity|].
  pose proof (later_sys (ncclCommAbort (ncclComm_ k)) w) as H. destruct (NCCL.sys handle _ w) as [[r|e|] w']; cbn in *; [|done..].
  unfold C10D_NCCL_CHECK, ocheck. by case_bool_decide.
Qed.
Lemma later_checkError k w : later_w w (snd (checkForNcclError handle (k, w))).2.
Proof using clock_mono.
  unfold checkForNcclError, this, put, lib. unfold_M. cbn. case_bool_decide; cbn; [reflexivity|].
  pose proof (later_sys (ncclCommGetAsyncError (ncclComm_ k)) w) as H'. destruct (NCCL.sys handle _ w) as [[r|e|] w']; cbn in *; [|done..].
  unfold C10D_NCCL_CHECK, ocheck. by case_bool_decide.
Qed.
Lemma later_getNcclId (k : NCCLComm) (w : world (E := E)) : later_w w (snd (getNcclId (k, w))).2.
Proof. reflexivity. Qed.
Lemma later_change f : follows later (change (S := cst) (upd_work f)).
Proof. intros [w x]. by split_and!. Qed.
Ltac later_step :=
  match goal with
  | |- follows _ (bind _ _) => apply follows_bind; [typeclasses eauto| |intros ?]
  | |- follows _ (ret _) => apply follows_ret; typeclasses eauto
  | |- follows _ (throw _) => apply follows_throw; typeclasses eauto
  | |- follows _ (lift _) => apply follows_lift; typeclasses eauto
  | |- follows _ (assert_ _ _) => apply follows_assert; typeclasses eauto
  | |- follows _ (gets _) => apply follows_gets; typeclasses eauto
  | |- follows _ (self _) => apply follows_gets; typeclasses eauto
  | |- follows _ exception => apply follows_gets; typeclasses eauto
  | |- follows _ (for_each _ _) => apply follows_for_each; [typeclasses eauto|intros ?]
  | |- follows _ (change _) => apply later_change
  | |- follows _ (on_lib _) => unfold on_lib
  | |- follows later (below _) => apply later_below_c
  | |- follows later_c (below _) => apply later_below_w
  | |- follows _ (NCCL.sys _ ?c) => exact (later_sys c)
  | |- follows _ (on_ptr ?p _) => unfold on_ptr
  | |- follows _ (on_comm _ _) => apply later_on_comm; intros; first [apply later_abort|apply later_checkError|apply later_getNcclId]
  | |- follows _ (match ?x with _ => _ end) => destruct x
  | |- follows _ _ => assumption || solve [auto]
  end.
Ltac later := repeat later_step.
Lemma later_checkErrors l : follows later_c (checkForNCCLErrorsInternal handle l).
Proof using clock_mono. induction l as [|p l IH]; cbn; later. Qed.
Lemma later_query w l : follows later_c (query_all handle w l).
Proof using clock_mono. induction l as [|i l IH]; cbn; later. Qed.
Lemma later_checkAndSet : follows later (checkAndSetException handle).
Proof using clock_mono. pose proof later_checkErrors. unfold checkAndSetException. later. Qed.
Lemma later_isCompleted : follows later (isCompleted handle).
Proof using clock_mono. pose proof later_checkAndSet. pose proof later_query. unfold isCompleted, finishedGPUExecutionInternal. later. Qed.
Lemma later_timedOut : follows later (timedOut handle).
Proof using clock_mono. unfold timedOut. later. Qed.
Lemma later_checkAndThrow : follows later (checkAndThrowException handle).
Proof using clock_mono. pose proof later_checkAndSet. unfold checkAndThrowException. later. Qed.
Lemma later_synchronizeStreams : follows later (synchronizeStreams handle).
Proof using clock_mono. unfold synchronizeStreams. later. Qed.

(** *** The loop *)
Lemma returns_timedOut : returns (timedOut handle).
Proof using lib_returns.
  unfold timedOut, on_lib, self. apply returns_bind; [|by intros]. by apply returns_below, returns_below, returns_sys.
Qed.
Lemma returns_checkAndThrow : returns (checkAndThrowException handle).
Proof using lib_returns.
  unfold checkAndThrowException, exception, self. apply returns_bind; [by apply returns_checkAndSet|intros _].
  apply returns_bind; [by intros|]. intros [e|]; by intros.
Qed.
Lemma returns_abort_and_publish c : returns (abort_and_publish handle store c).
Proof using lib_returns set_returns.
  unfold abort_and_publish, on_ptr, self, on_lib. destruct c as [c|]; [|by intros]. apply returns_bind.
  { by apply returns_below, returns_on_comm, returns_abort. }
  intros _. apply returns_bind; [by apply returns_below, returns_on_comm|intros id]. apply returns_bind; [by intros|intros w].
  apply returns_bind; [intros s; by destruct (store_ w)|intros _]. by apply returns_below, returns_below, returns_ext.
Qed.
Lemma returns_wait_round : returns (wait_round handle store).
Proof using lib_returns set_returns.
  unfold wait_round, self, on_lib. apply returns_bind; [by apply returns_isCompleted|intros [|]; [by intros|]].
  apply returns_bind; [apply returns_timedOut|intros [|]].
  - apply returns_bind; [by intros|intros l]. apply returns_bind; [apply returns_for_each, returns_abort_and_publish|intros _].
    apply returns_bind; [apply returns_below, returns_below; intros ?; by apply returns_sys|by intros].
  - apply returns_bind; [apply returns_checkAndThrow|intros _].
    apply returns_bind; [apply returns_below, returns_below; intros ?; by apply returns_sys|by intros].
Qed.

(** The time point at which a work has timed out. *)
Definition deadline (w : WorkNCCL) : Z := workStartTime_ w + w_opTimeout_ w * 1000000.
Lemma deadline_later x x' : later x x' -> deadline x'.1 = deadline x.1.
Proof. intros (_ & H1 & H2). unfold deadline. by rewrite H1, H2. Qed.
Lemma timedOut_false x x' : timedOut handle x = (Ret false, x') -> time x < deadline x.1.
Proof using clock_now.
  destruct x as [w [h wo]]. unfold timedOut, on_lib, below, self, NCCL.sys. unfold_M. cbn.
  pose proof (clock_now (ext wo)) as Hn. destruct (handle steady_clock_now (ext wo)) as [o e']. cbn in Hn. subst o. cbn.
  intros [= H _]. apply Z.leb_gt in H. unfold time, deadline. cbn.
  destruct (decide (clock (ext wo) < workStartTime_ w + w_opTimeout_ w * 1000000)); [done|].
  pose proof (Z.quot_le_mono (w_opTimeout_ w * 1000000) (clock (ext wo) - workStartTime_ w) 1000000 ltac:(lia) ltac:(lia)) as Hq.
  rewrite Z.quot_mul in Hq by lia. lia.
Qed.
Lemma wait_round_false x x' : wait_round handle store x = (Ret false, x') ->
  later x x' /\ time x < deadline x.1 /\ time x + 10000000 <= time x'.
Proof using clock_mono clock_now clock_sleep.
  unfold wait_round. intros H. apply bind_Ret_inv in H as (c & x1 & H1 & H). destruct c; [done|].
  pose proof (later_isCompleted x) as L1. rewrite H1 in L1. cbn in L1.
  apply bind_Ret_inv in H as (l & x2 & H2 & H). pose proof (later_timedOut x1) as L2. rewrite H2 in L2. cbn in L2.
  destruct l; [apply bind_Ret_inv in H as (? & ? & _ & H); apply bind_Ret_inv in H as (? & ? & _ & H);
    apply bind_Ret_inv in H as (? & ? & _ & H); done|].
  apply timedOut_false in H2. apply bind_Ret_inv in H as ([] & x3 & H3 & H).
  pose proof (later_checkAndThrow x2) as L3. rewrite H3 in L3. cbn in L3.
  apply bind_Ret_inv in H as (u & x4 & H4 & H). injection H as <-.
  assert (time x3 + 10000000 <= time x4 /\ later x3 x4) as [Hs L4].
  { assert (follows later (on_lib (S := WorkNCCL) (NCCL.sys handle (sleep_for kSynchronizeBusyWaitMillis)))) as Hf by later.
    specialize (Hf x3). rewrite H4 in Hf. split; [|done]. clear Hf. destruct x3 as [w3 [h3 wo3]].
    revert H4. unfold on_lib, below, NCCL.sys, time. cbn. pose proof (clock_sleep kSynchronizeBusyWaitMillis (ext wo3)) as Hc.
    unfold kSynchronizeBusyWaitMillis in *. destruct (handle _ (ext wo3)) as [[a|e|] e']; [|done..]. intros [= _ <-]. cbn in *. lia. }
  assert (later x x3) as L by (etrans; [done|etrans; [done|done]]). rewrite <- (deadline_later _ _ L1).
  split_and!; [by etrans|destruct L1; lia|destruct L; lia].
Qed.
Lemma wait_loop_ends fuel x : deadline x.1 - time x < 10000000 * (Z.of_nat fuel - 1) -> (0 < fuel)%nat ->
  fst (wait_loop handle store fuel x) <> Block.
Proof using lib_returns set_returns clock_mono clock_now clock_sleep.
  revert x. induction fuel as [|fuel IH]; intros x Hd Hf; [lia|]. cbn [wait_loop]. unfold bind.
  pose proof (returns_wait_round x) as Hb. destruct (wait_round handle store x) as [[b|e|] x1] eqn:Hr; [|done..].
  destruct b; [done|]. apply wait_round_false in Hr as (L & H1 & H2). apply IH; [|lia].
  rewrite (deadline_later _ _ L). lia.
Qed.
Lemma checkAndThrow_none x u x' : checkAndThrowException handle x = (Ret u, x') -> exception_ (work x'.1) = None.
Proof.
  unfold checkAndThrowException. intros H. apply bind_Ret_inv in H as (? & x1 & _ & H).
  apply bind_Ret_inv in H as (e & x2 & [= <- <-] & H). destruct (exception_ (work x1.1)) eqn:Ee; [done|]. by injection H as _ <-.
Qed.

Lemma returns_synchronizeStreams : returns (synchronizeStreams handle).
Proof using lib_returns.
  unfold synchronizeStreams, self, on_lib. apply returns_bind; [by intros|intros w0]. apply returns_for_each. intros i.
  apply returns_bind; [apply returns_at|intros d].
  apply returns_bind; [apply returns_below, returns_below; exact (returns_sys handle lib_returns (getCurrentCUDAStream _))|intros s].
  apply returns_bind; [apply returns_at|intros e]. apply returns_below, returns_below. exact (returns_sys handle lib_returns (event_block e s)).
Qed.
Lemma keeps_work_on_lib {A} (m : M (world (E := E)) A) : preserves (fun x : WorkNCCL * cst => x.1) (on_lib m).
Proof. intros [w [h wo]]. unfold on_lib, below. cbn. by destruct (m wo). Qed.
Lemma keeps_work_synchronizeStreams : preserves (fun x : WorkNCCL * cst => x.1) (synchronizeStreams handle).
Proof.
  unfold synchronizeStreams, self. apply preserves_bind; [apply preserves_gets|intros w]. apply preserves_for_each. intros i.
  apply preserves_bind; [apply preserves_lift|intros d]. apply preserves_bind; [apply keeps_work_on_lib|intros s].
  apply preserves_bind; [apply preserves_lift|intros e]. apply keeps_work_on_lib.
Qed.
Lemma returns_synchronize_devices w : returns (synchronize_devices handle w).
Proof using lib_returns.
  unfold synchronize_devices. destruct (Nat.eqb _ _); [by intros|]. apply returns_for_each. intros d. unfold on_lib.
  apply returns_bind; [|intros _]; apply returns_below, returns_below.
  - exact (returns_sys handle lib_returns (set_index _)).
  - exact (returns_sys handle lib_returns cudaDeviceSynchronize).
Qed.
Lemma keeps_work_synchronize_devices w : preserves (fun x : WorkNCCL * cst => x.1) (synchronize_devices handle w).
Proof.
  unfold synchronize_devices. destruct (Nat.eqb _ _); [apply preserves_ret|]. apply preserves_for_each. intros d.
  apply preserves_bind; [|intros _]; apply keeps_work_on_lib.
Qed.

(** C15: a wait of a work in blocking mode ends, whatever the libraries answer:
    after enough rounds of its loop it returns or throws, and when it returns the
    work has no exception.  The number of rounds that is enough does not depend on
    the argument of wait(): the loop ends at the time-out of the group. *)
Theorem nccl_blocking_wait_ends (w : WorkNCCL) (x : cst) :
  w_blockingWait_ w = true ->
  exists n, forall fuel timeout, (n <= fuel)%nat ->
    fst (wait handle store fuel timeout (w, x)) <> Block /\
    (fst (wait handle store fuel timeout (w, x)) = Ret true ->
       exception_ (work (snd (wait handle store fuel timeout (w, x))).1) = None).
Proof using lib_returns set_returns clock_mono clock_now clock_sleep.
  intros Hb. exists (Z.to_nat (Z.max 0 (deadline w - time (w, x)) + 2)). intros fuel timeout Hf.
  unfold wait, synchronizeInternal. pose proof (returns_synchronizeStreams (w, x)) as H1.
  pose proof (later_synchronizeStreams (w, x)) as L1. pose proof (keeps_work_synchronizeStreams (w, x)) as K1.
  unfold bind, self, gets. destruct (synchronizeStreams handle (w, x)) as [[[]|e|] x1]; cbn in H1, L1, K1 |- *; [|by split..].
  rewrite K1, Hb.
  pose proof (wait_loop_ends fuel x1) as H2. rewrite (deadline_later _ _ L1) in H2. destruct L1 as [Lt _]. cbn [fst] in H2.
  specialize (H2 ltac:(lia) ltac:(lia)). destruct (wait_loop handle store fuel x1) as [[[]|e|] x2]; cbn in H2 |- *; [|by split..].
  pose proof (returns_checkAndThrow x2) as H3. destruct (checkAndThrowException handle x2) as [[[]|e|] x3] eqn:H4; cbn in H3 |- *; [|by split..].
  pose proof (checkAndThrow_none _ _ _ H4) as Hn. pose proof (returns_synchronize_devices w x3) as H5.
  pose proof (keeps_work_synchronize_devices w x3) as K5.
  destruct (synchronize_devices handle w x3) as [[[]|e|] x4]; cbn in H5, K5 |- *; [|by split..]. split; [done|]. intros _. by rewrite K5.
Qed.
End wait.

(** ** An abort reaches the other ranks *)

Section propagation.
Context {E : Type} (handle : forall c : call, M E (answer c)) (store : StoreOps E) `{!StoreSpec store} (cfg : config).
#[local] Set Default Proof Using "Type".
#[local] Set Proof Using Clear Unused.
Abbreviation heap := (gmap nat NCCLComm).
Abbreviation cst := (heap * world (E := E))%type.
Abbreviation st := (group * cst)%type.
#[local] Opaque getNcclAbortedCommStoreKey.

(** What an external state has in its store. *)
Definition same_view (e e' : E) : Prop := inv e' /\ forall k, view e' k = view e k.
(** NCCL aborts, and the libraries do not touch the store.  A wait for a key that is
    there returns; a wait or a read of a key that is not changes nothing. *)
Context (abort_ok : forall h e, fst (handle (ncclCommAbort h) e) = Ret ncclSuccess).
Context (lib_view : forall c e, inv e -> same_view e (snd (handle c e))).
Context (steady_returns : forall e, exists t, fst (handle steady_clock_now e) = Ret t).
Context (wait_ok : forall e k t, inv e -> key_ok k -> is_Some (view e k) -> fst (store_wait_for store [k] t e) = Ret tt).
Context (wait_view : forall e k t, inv e -> key_ok k -> same_view e (snd (store_wait_for store [k] t e))).
Context (get_view : forall e k, inv e -> key_ok k -> same_view e (snd (store_get store k e))).
Context (keys : forall id, key_ok (getNcclAbortedCommStoreKey id)) (rank_value : val_ok (to_string (rank_ cfg))).

(** *** The rank that aborts *)
(** The communicator is aborted and its key has the rank. *)
Definition published (rank : Z) (c : nat) (x : cst) : Prop :=
  inv (ext x.2) /\ exists m, x.1 !! c = Some m /\ aborted_ m = true /\
    view (ext x.2) (getNcclAbortedCommStoreKey (buildNcclUniqueIdStr (ncclId_ m))) = Some (to_string rank).
Lemma abort_returns c (x : cst) m : x.1 !! c = Some m -> inv (ext x.2) ->
  exists m' x', on_comm c (NCCLComm_ncclCommAbort handle) x = (Ret tt, x') /\ x'.1 = <[c := m']> x.1 /\ aborted_ m' = true /\
    ncclId_ m' = ncclId_ m /\ same_view (ext x.2) (ext x'.2).
Proof using abort_ok lib_view.
  intros Hc Hi. destruct x as [h w]. unfold on_comm. cbn in *. rewrite Hc.
  unfold NCCLComm_ncclCommAbort, this, put, lib. unfold_M. cbn. destruct (aborted_ m) eqn:Ha; cbn.
  - exists m, (<[c := m]> h, w). by split_and!.
  - unfold NCCL.sys. pose proof (abort_ok (ncclComm_ m) (ext w)) as H. pose proof (lib_view (ncclCommAbort (ncclComm_ m)) (ext w) Hi) as Hv.
    destruct (handle _ (ext w)) as [o e']. cbn in H, Hv. subst o. cbn.
    eexists _, _. split; [reflexivity|]. split; [reflexivity|]. done.
Qed.
(** The communicators of before, with their ids. *)
Definition comms_kept (h h' : heap) : Prop :=
  forall c m, h !! c = Some m -> exists m', h' !! c = Some m' /\ ncclId_ m' = ncclId_ m /\ (aborted_ m = true -> aborted_ m' = true).
#[global] Instance comms_kept_pre : PreOrder comms_kept.
Proof.
  split; [by intros h c m H; exists m|]. intros h1 h2 h3 H1 H2 c m H.
  destruct (H1 c m H) as (m2 & E2 & ? & ?). destruct (H2 c m2 E2) as (m3 & E3 & ? & ?). exists m3. split_and!; [done|congruence|auto].
Qed.
Lemma abort_and_publish_run c (w : WorkNCCL) (x : cst) m : x.1 !! c = Some m -> inv (ext x.2) -> store_ w = true ->
  wk_rank_ (work w) = rank_ cfg ->
  exists x', abort_and_publish handle store (Some c) (w, x) = (Ret tt, (w, x')) /\ published (rank_ cfg) c x' /\ comms_kept x.1 x'.1 /\
    forall k v, view (ext x.2) k = Some v -> v = to_string (rank_ cfg) -> view (ext x'.2) k = Some v.
Proof using abort_ok lib_view keys rank_value.
  intros Hc Hi Hs Hr. destruct (abort_returns c x m Hc Hi) as (m' & [h1 w1] & Ha & Hh & Hab & Hid & Hi1 & Hv1). cbn in Hh, Hi1, Hv1.
  unfold abort_and_publish, bind, below, on_ptr, self, gets, on_lib. cbn -[getNcclAbortedCommStoreKey]. rewrite Ha.
  cbn -[getNcclAbortedCommStoreKey]. unfold on_comm. cbn -[getNcclAbortedCommStoreKey]. subst h1.
  rewrite lookup_insert_eq. cbn -[getNcclAbortedCommStoreKey]. rewrite Hs. cbn -[getNcclAbortedCommStoreKey]. rewrite insert_insert_eq.
  destruct (set_law (ext w1) (getNcclAbortedCommStoreKey (buildNcclUniqueIdStr (ncclId_ m'))) (to_string (rank_ cfg)) Hi1 (keys _) rank_value)
    as (e2 & Hset & Hi2 & Hv2).
  unfold below, in_ext. cbn -[getNcclAbortedCommStoreKey]. rewrite Hr, Hset. cbn -[getNcclAbortedCommStoreKey].
  eexists. split; [reflexivity|]. cbn -[getNcclAbortedCommStoreKey]. split_and!.
  - split; [done|]. exists m'. cbn. rewrite lookup_insert_eq. split_and!; [done..|]. rewrite Hv2. by rewrite decide_True.
  - intros c1 m1 H1. destruct (decide (c1 = c)) as [->|Hne].
    + rewrite lookup_insert_eq. exists m'. simplify_eq. auto.
    + rewrite lookup_insert_ne by done. by exists m1.
  - intros k v Hk ->. rewrite Hv2. case_decide; [done|]. by rewrite Hv1.
Qed.
Lemma published_stays c x x' : published (rank_ cfg) c x -> comms_kept x.1 x'.1 -> inv (ext x'.2) ->
  (forall k v, view (ext x.2) k = Some v -> v = to_string (rank_ cfg) -> view (ext x'.2) k = Some v) -> published (rank_ cfg) c x'.
Proof.
  intros (_ & m & Hm & Ha & Hk) Hc Hi Hv. split; [done|]. destruct (Hc c m Hm) as (m' & Hm' & Hid & Ha'). exists m'.
  split_and!; [done|by apply Ha'|]. rewrite Hid. by eapply Hv.
Qed.
Lemma publish_all l (w : WorkNCCL) (x : cst) : (forall c, c ∈ l -> is_Some (x.1 !! c)) -> inv (ext x.2) -> store_ w = true ->
  wk_rank_ (work w) = rank_ cfg ->
  exists x', for_each (Some <$> l) (abort_and_publish handle store) (w, x) = (Ret tt, (w, x')) /\ inv (ext x'.2) /\
    (forall c, c ∈ l -> published (rank_ cfg) c x') /\ comms_kept x.1 x'.1 /\
    forall k v, view (ext x.2) k = Some v -> v = to_string (rank_ cfg) -> view (ext x'.2) k = Some v.
Proof using abort_ok lib_view keys rank_value.
  revert x. induction l as [|c l IH]; intros x Hl Hi Hs Hr.
  - exists x. split_and!; [done..|by intros c ?%elem_of_nil|done|done].
  - destruct (Hl c (list_elem_of_here _ _)) as [m Hm].
    destruct (abort_and_publish_run c w x m Hm Hi Hs Hr) as (x1 & H1 & P1 & K1 & V1).
    destruct (IH x1) as (x2 & H2 & I2 & P2 & K2 & V2); [| |done..|].
    { intros c1 Hc1. destruct (Hl c1 (list_elem_of_further _ _ _ Hc1)) as [m1 Hm1]. destruct (K1 c1 m1 Hm1) as (m2 & ? & _). eauto. }
    { apply P1. }
    exists x2. split_and!; [|done| |by etrans|by auto].
    + cbn. unfold bind. by rewrite H1.
    + intros c1 [->|Hc1]%elem_of_cons; [by eapply published_stays|by apply P2].
Qed.

(** *** The rank that looks into the store *)
(** Steps of the watchdog that return, in any order of the ids. *)
Inductive wd_steps (cfg' : config) : wd_pc -> st -> wd_pc -> st -> Prop :=
  | wd_refl pc s : wd_steps cfg' pc s pc s
  | wd_more c pc s pc1 s1 pc2 s2 :
      wd_allows pc c s -> wd_step handle store cfg' c pc s = (Ret pc1, s1) -> wd_steps cfg' pc1 s1 pc2 s2 -> wd_steps cfg' pc s pc2 s2.
Definition keeps_view (x x' : cst) : Prop := inv (ext x.2) -> same_view (ext x.2) (ext x'.2).
#[global] Instance keeps_view_pre : PreOrder keeps_view.
Proof.
  split; [by intros x H; split|]. intros x y z H1 H2 Hi. destruct (H1 Hi) as [Hi1 V1]. destruct (H2 Hi1) as [Hi2 V2].
  split; [done|]. intros k. by rewrite V2.
Qed.
Lemma view_abort c : follows keeps_view (on_comm c (NCCLComm_ncclCommAbort handle)).
Proof using lib_view.
  intros [h w] Hi. unfold on_comm. cbn in *. destruct (h !! c) as [m|]; [|done].
  unfold NCCLComm_ncclCommAbort, this, put, lib. unfold_M. cbn. destruct (aborted_ m); cbn; [done|].
  unfold NCCL.sys. pose proof (lib_view (ncclCommAbort (ncclComm_ m)) (ext w) Hi) as Hv.
  destruct (handle _ (ext w)) as [[r|e|] e']; cbn in *; [|done..]. unfold C10D_NCCL_CHECK, ocheck. by case_bool_decide.
Qed.

(** What the watchdog knows of the id: its communicators, and its key in the store. *)
Section watchdog.
Context (cfg' : config) (id : bytes) (l : list nat).
Definition knows (s : st) : Prop :=
  ncclIdToCommMap_ s.1 !! id = Some l /\ in_heap l s /\ inv (ext s.2.2) /\
  is_Some (view (ext s.2.2) (getNcclAbortedCommStoreKey id)).
Definition l_aborted (s : st) : Prop := forall c, c ∈ l -> comm_aborted c s.2.
Definition waits_for (pc : wd_pc) (s : st) : Prop :=
  match pc with
  | WCheck todo => id ∈ todo /\ id ∉ abortedComms_ s.1
  | WFound i todo => i = id \/ id ∈ todo /\ id ∉ abortedComms_ s.1
  | _ => False
  end.
Lemma find_keeps i (s : st) : knows s ->
  let '(o, s') := find_in_store store i s in
  knows s' /\ s'.1 = s.1 /\ s'.2.1 = s.2.1 /\ (i = id -> is_Some (match o with Ret v => Some v | _ => None end)).
Proof using wait_ok wait_view get_view keys.
  intros (Hm & Hh & Hi & Hv). destruct s as [g [h w]]. cbn in *.
  unfold find_in_store, bind, below, in_ext. cbn -[getNcclAbortedCommStoreKey].
  destruct (wait_view (ext w) (getNcclAbortedCommStoreKey i) kWaitForAbortCommStoreKey Hi (keys i)) as [Hi1 Hv1].
  pose proof (wait_ok (ext w) (getNcclAbortedCommStoreKey i) kWaitForAbortCommStoreKey Hi (keys i)) as Hw.
  destruct (store_wait_for store _ _ (ext w)) as [o e1]. cbn -[getNcclAbortedCommStoreKey] in *.
  assert (is_Some (view e1 (getNcclAbortedCommStoreKey id))) as Hv1' by (by rewrite Hv1).
  destruct o as [[]|e|]; cbn -[getNcclAbortedCommStoreKey]; [| |].
  - destruct (get_view e1 (getNcclAbortedCommStoreKey i) Hi1 (keys i)) as [Hi2 Hv2].
    destruct (store_get store _ e1) as [o2 e2] eqn:Eg. cbn -[getNcclAbortedCommStoreKey] in *. split_and!; [|done..|].
    + split_and!; [done..|]. cbn -[getNcclAbortedCommStoreKey]. by rewrite Hv2.
    + intros ->. destruct Hv1' as [v Hv']. destruct (get_law e1 _ v Hi1 (keys id) Hv') as (e3 & Hg & _). rewrite Hg in Eg. injection Eg as <- _. by eexists.
  - split_and!; [|done..|]; [by split_and!|]. intros ->. by specialize (Hw Hv).
  - split_and!; [|done..|]; [by split_and!|]. intros ->. by specialize (Hw Hv).
Qed.
Lemma still_there (i j : bytes) (todo : gset bytes) : i ∈ todo -> j <> i -> i ∈ todo ∖ {[j]}.
Proof. intros H Hn. apply elem_of_difference. split; [done|]. apply not_elem_of_singleton. congruence. Qed.
Lemma abort_all (ks : list nat) (x : cst) : (forall c, c ∈ ks -> is_Some (x.1 !! c)) -> inv (ext x.2) ->
  fst (for_each ks (fun c => on_comm c (NCCLComm_ncclCommAbort handle)) x) = Ret tt.
Proof using abort_ok lib_view.
  revert x. induction ks as [|c ks IH]; intros x Hk Hi; [done|]. cbn. unfold bind.
  destruct (Hk c (list_elem_of_here _ _)) as [m Hm]. destruct (abort_returns c x m Hm Hi) as (m' & x1 & -> & Hh & _ & _ & Hi1 & _).
  apply IH; [|done]. intros c1 H1. rewrite Hh. destruct (decide (c1 = c)) as [->|Hne]; [by rewrite lookup_insert_eq|].
  rewrite lookup_insert_ne by done. by apply Hk, list_elem_of_further.
Qed.
Lemma abort_found_keeps i (s : st) : knows s ->
  let '(o, s') := abort_found handle i s in
  knows s' /\ (i <> id -> id ∉ abortedComms_ s.1 -> id ∉ abortedComms_ s'.1) /\ (i = id -> o = Ret tt /\ l_aborted s').
Proof using abort_ok lib_view.
  intros (Hm & Hh & Hi & Hv). destruct s as [g x]. cbn in *. unfold abort_found, bind at 1, gets.
  cbn. destruct (ncclIdToCommMap_ g !! i) as [ks|] eqn:Ek; [|split_and!; [done|done|intros ->; congruence]].
  unfold bind, below. set (ab := fun c => on_comm c (NCCLComm_ncclCommAbort handle)).
  assert (follows keeps_view (for_each ks ab)) as Hkv by (apply follows_for_each; [typeclasses eauto|intros c; apply view_abort]).
  assert (follows (Rc (thread_rel (E := E))) (for_each ks ab)) as Hf.
  { pose proof (Rc_pre handle thread_rel). apply follows_for_each; [done|]. intros c. exact (fol_abort handle thread_rel c). }
  specialize (Hkv x Hi). specialize (Hf x). cbn. pose proof (abort_all ks x) as Hr.
  assert (forall x', for_each ks ab x = (Ret tt, x') -> forall c, c ∈ ks -> comm_aborted c x') as Ha.
  { intros x' H. refine (@for_each_all _ _ (Rc thread_rel) (Rc_pre handle thread_rel) comm_aborted ks ab x x' _ comm_aborted_stable (abort_aborts handle) H).
    intros c. exact (fol_abort handle thread_rel c). }
  fold ab in Hr. destruct (for_each ks ab x) as [o x']. cbn in *. destruct Hkv as [Hi' Hv'].
  assert (in_heap l (g, x')) as Hh' by (eapply (in_heap_stable l (g, x)); [apply Hf|done]).
  assert (i = id -> o = Ret tt) as Ho by (intros ->; simplify_eq; by apply Hr).
  assert (forall g', ncclIdToCommMap_ g' = ncclIdToCommMap_ g -> knows (g', x')) as Hk.
  { intros g' Eg. unfold knows. cbn. rewrite Eg, Hv'. by split_and!. }
  destruct o as [[]|e|]; cbn; (split; [by apply Hk|]); (split; [|intros Ei]); try done; try (by specialize (Ho Ei)).
  - intros Hn H. apply not_elem_of_union. split; [|done]. apply not_elem_of_singleton. congruence.
  - split; [done|]. simplify_eq. intros c Hc. cbn. by eapply Ha.
Qed.
Lemma wd_step_waits c pc s pc' s' : wd_allows pc c s -> wd_step handle store cfg' c pc s = (Ret pc', s') ->
  knows s -> waits_for pc s -> knows s' /\ (waits_for pc' s' \/ l_aborted s').
Proof using abort_ok lib_view wait_ok wait_view get_view keys.
  intros _. destruct pc as [| | |todo|i todo| |]; cbn [waits_for wd_step]; try done.
  - intros H Hk [Hin Hnot]. destruct (decide (todo = ∅)) as [->|_]; [by apply elem_of_empty in Hin|].
    unfold bind at 1, gets in H. cbn in H. case_bool_decide as Hb.
    { injection H as <- <-. split; [done|]. left. split; [|done]. apply (still_there); [done|congruence]. }
    unfold catch_std, bind in H. pose proof (find_keeps (c_id c) s Hk) as Hf.
    destruct (find_in_store store (c_id c) s) as [[v|e|] s1]; cbn in H; destruct Hf as (Hk1 & E1 & _ & Hr).
    + injection H as <- <-. split; [done|]. left. cbn. rewrite E1. destruct (decide (c_id c = id)); [by left|right; split; [by apply (still_there)|done]].
    + destruct (undefined e); [done|]. injection H as <- <-. split; [done|]. left. cbn. rewrite E1.
      split; [|done]. apply (still_there); [done|]. intros Eq. by destruct (Hr Eq).
    + done.
  - intros H Hk Hw. unfold catch_std, bind in H. pose proof (abort_found_keeps i s Hk) as Hf.
    destruct (abort_found handle i s) as [o s1]. destruct Hf as (Hk1 & Hn & Ha).
    assert (pc' = WCheck todo /\ s' = s1) as [-> ->].
    { destruct o as [v|e|]; cbn in H; [by injection H as <- <-| |done]. destruct (undefined e); [done|]. by injection H as <- <-. }
    split; [done|]. destruct (decide (i = id)) as [->|Hne]; [right; by apply Ha|]. destruct Hw as [->|[Hin Hnot]]; [done|].
    left. split; [done|by apply Hn].
Qed.
Lemma l_aborted_steps pc s pc' s' : wd_steps cfg' pc s pc' s' -> l_aborted s -> l_aborted s'.
Proof.
  induction 1 as [|c pc s pc1 s1 pc2 s2 _ Hs _ IH]; [done|]. intros H. apply IH. intros k Hk.
  pose proof (rel_wd_step handle store cfg' c pc s) as Hr. rewrite Hs in Hr. destruct Hr as (_ & _ & _ & Hh).
  eapply comm_aborted_stable; [|by apply H]. intros g. by apply thread_rel_heap.
Qed.
Lemma pass_aborts pc s s' : wd_steps cfg' pc s WSleep s' -> knows s -> waits_for pc s -> l_aborted s'.
Proof using abort_ok lib_view wait_ok wait_view get_view keys.
  intros H. remember WSleep as pc2 eqn:E2. induction H as [pc s|c pc s pc1 s1 pc2 s2 Hal Hs Hn IH]; intros Hk Hw; [by subst|].
  destruct (wd_step_waits c pc s pc1 s1 Hal Hs Hk Hw) as [Hk1 [Hw1|Ha]]; [by apply IH|by eapply l_aborted_steps].
Qed.
End watchdog.

End propagation.

(** ** An example

    The HashStore of the demonstration is a store. *)
#[local, refine] Instance demo_store_spec : StoreSpec Demo.store := {|
  view e k := HashStore.map_ e.1 !! k;
  inv _ := True; key_ok _ := True; keys_ok _ := True; val_ok _ := True;
|}.
Proof.
  - done.
  - intros [s t] k v _ _ _. destruct (@set_law _ _ HashStore.spec s k v I I I) as (s' & H & _ & Hv).
    exists (s', t). cbn in *. unfold Demo.on_store. cbn. by injection H as <-.
  - intros [s t] k v _ _ Hk. destruct (@get_law _ _ HashStore.spec s k v I I Hk) as (s' & H & _ & Hv).
    exists (s', t). cbn in *. unfold Demo.on_store. cbn. by rewrite H.
  - intros [s t] k _ _ Hk v. pose proof (@get_absent_law _ _ HashStore.spec s k I I Hk v) as H. cbn in *.
    unfold Demo.on_store. cbn. by destruct (HashStore.get k s) as [o s'].
  - intros [s t] k i n _ _ Hi Hn. destruct (@add_law _ _ HashStore.spec s k i n I I Hi Hn) as (s' & H & _ & Hv).
    exists (s', t). cbn in *. unfold Demo.on_store. cbn. by rewrite H.
  - intros [s t] ks _ _. destruct (@check_law _ _ HashStore.spec s ks I I) as (s' & H & _ & Hv).
    exists (s', t). cbn in *. unfold Demo.on_store. cbn. by rewrite H.
Defined.

Definition demo_id : bytes := buildNcclUniqueIdStr [x0a].
Definition demo_work : WorkNCCL :=
  mkWorkNCCL (new_Work 0 ALLREDUCE false) [mkDevice kCUDA 0] [0%nat] [Some 0%nat] [] true 1000 0 true None None.
Definition demo_heap : gmap nat NCCLComm := {[0%nat := mkComm (Some 0%nat) [x0a] false ncclSuccess]}.
Definition demo_late : Demo.E := (HashStore.init 0, 1000000000).
(** A group that has the communicator under its id. *)
Definition demo_group : group :=
  mkGroup 1 ∅ {[demo_id := [0%nat]]} ∅ ∅ [] false [] ∅ 0 false 0 0.

Definition demo_cfg : config := mkConfig 1 2 true false 1000 false false.
(** After the round of the wait, and after the pass of the other rank's watchdog. *)
Definition demo_x : gmap nat NCCLComm * world :=
  (snd (wait_round (Demo.handle ncclSuccess false) Demo.store (demo_work, (demo_heap, mkWorld [] demo_late)))).2.
Definition demo_wd (pc : wd_pc) (s : group * (gmap nat NCCLComm * world)) : group * (gmap nat NCCLComm * world) :=
  snd (wd_step (Demo.handle ncclSuccess false) Demo.store demo_cfg (mkChoice [] demo_id) pc s).
Definition demo_s : group * (gmap nat NCCLComm * world) :=
  demo_wd (WCheck ∅) (demo_wd (WFound demo_id ∅) (demo_wd (WCheck {[demo_id]}) (demo_group, (demo_heap, mkWorld [] (ext demo_x.2))))).
Lemma wd_more' {E} handle (store : StoreOps E) cfg c pc s pc1 pc2 s2 :
  wd_allows pc c s -> fst (wd_step handle store cfg c pc s) = Ret pc1 ->
  wd_steps handle store cfg pc1 (snd (wd_step handle store cfg c pc s)) pc2 s2 -> wd_steps handle store cfg pc s pc2 s2.
Proof.
  intros Hc H. destruct (wd_step handle store cfg c pc s) as [o s1] eqn:Hs. cbn in *. subst o. by eapply wd_more.
Qed.

(** The events do not happen: the wait throws, within the bound. *)
Lemma nccl_blocking_wait_ends_witness :
  fst (wait (Demo.handle ncclSuccess false) Demo.store 200 0 (demo_work, (demo_heap, mkWorld [] Demo.e0))) =
    Throw (RuntimeError "Caught collective operation timeout: ") /\
  exists n, forall fuel timeout, (n <= fuel)%nat ->
    fst (wait (Demo.handle ncclSuccess false) Demo.store fuel timeout (demo_work, (demo_heap, mkWorld [] Demo.e0))) <> Block.
Proof.
  split; [vm_compute; reflexivity|].
  unshelve epose proof (nccl_blocking_wait_ends (Demo.handle ncclSuccess false) Demo.store (fun e => e.2) _ _ _ _ _
    demo_work (demo_heap, mkWorld [] Demo.e0) eq_refl) as [n Hn].
  - intros c e. destruct c; discriminate.
  - intros k v e. discriminate.
  - reflexivity.
  - intros c e. destruct c; cbn; lia.
  - intros ms e. cbn. lia.
  - exists n. intros fuel timeout Hf. by apply (Hn fuel timeout).
Defined.

