(* ===== verification/NCCLIds.v ===== *)
(** * The ids of communicators

    Proves that the ranks of a ProcessGroupNCCL agree on the id of every
    communicator that a collective creates: broadcastUniqueNCCLID() of
    csrc/c10d/distributed/c10d/ProcessGroupNCCL.cpp, called by any ranks in any
    order over one store. *)

From stdpp Require Import base option list gmap strings.
From Stdlib Require Import ZArith Lia.
From S2P Require Wire.
From S2P Require Import Prelude Decimal NetUtils ProcessGroup Store Tensors NCCL ProcessGroupNCCL NCCLThreads NCCLDestructor NCCLWait.
Import Decimal.

Section ids.
Context {E : Type} (store : StoreOps E) `{!StoreSpec store} (N : Z) (conf : nat -> config).
#[local] Set Default Proof Using "Type".
#[local] Set Proof Using Clear Unused.

(** The groups of the ranks, the store, and the ids that calls have returned, with
    their rank and the number of the communicator. *)
Record ranks := mkRanks { groups : nat -> group; shared : E; ids : list (nat * Z * bytes) }.
Definition call_of (i : nat) (id : bytes) (op : OpType) (key : bytes) (R : ranks) :=
  broadcastUniqueNCCLID store N (conf i) id op key 0 (groups R i, (∅, mkWorld [] (shared R))).
(** The call of rank [i] with the number of its counter. *)
Definition exchange (i : nat) (id : bytes) (op : OpType) (key : bytes) (R : ranks) : ranks :=
  let '(o, s) := call_of i id op key R in
  mkRanks (fun j => if decide (j = i) then s.1 else groups R j) (ext s.2.2)
    (match o with Ret id' => (i, ncclCommCounter_ (groups R i), id') :: ids R | _ => ids R end).

(** [n] calls of any ranks; others may use the store with other keys. *)
Inductive exchanges : nat -> ranks -> Prop :=
  | ex_start e : inv e -> (forall c, 0 <= c -> view e (to_string c) = None) -> exchanges 0 (mkRanks (fun _ => new_group) e [])
  | ex_call n R i id op key :
      exchanges n R -> isP2POp op = false -> (i = 0%nat -> val_ok id) -> exchanges (S n) (exchange i id op key R)
  | ex_other n R e :
      exchanges n R -> inv e -> (forall c, 0 <= c -> view e (to_string c) = view (shared R) (to_string c)) ->
      exchanges n (mkRanks (groups R) e (ids R)).

(** The rank of a group, and the store: a read of a key that is not there changes
    nothing. *)
Context (conf_rank : forall i, rank_ (conf i) = Z.of_nat i).
Context (counter_key : forall c, 0 <= c -> key_ok (to_string c)).
Context (get_view : forall e k, inv e -> key_ok k -> same_view store e (snd (store_get store k e))).

(** The counter of a group, and what a rank other than 0 reads. *)
Abbreviation count R i := (ncclCommCounter_ (groups R i)).
Record agreed (n : nat) (R : ranks) : Prop := {
  ag_inv : inv (shared R);
  ag_count : forall i, 0 <= count R i <= Z.of_nat n;
  ag_set : forall c, 0 <= c < count R 0 -> is_Some (view (shared R) (to_string c));
  ag_unset : forall c, count R 0 <= c < 2 ^ 63 -> view (shared R) (to_string c) = None;
  ag_ids : forall i c id, (i, c, id) ∈ ids R -> 0 <= c < 2 ^ 63 /\ view (shared R) (to_string c) = Some id;
}.

Lemma call_rank0 id op key R : isP2POp op = false -> inv (shared R) -> 0 <= count R 0 -> val_ok id ->
  exists e, call_of 0 id op key R =
      (Ret id, (upd_ncclCommCounter_ (fun c => uint64 (c + 1)) (groups R 0%nat), (∅, mkWorld [] e))) /\ inv e /\
    forall k, view e k = if decide (k = to_string (count R 0)) then Some id else view (shared R) k.
Proof using conf_rank counter_key.
  intros Hop Hi Hc Hv. destruct (set_law (shared R) (to_string (count R 0)) id Hi (counter_key _ Hc) Hv) as (e & Hs & Hi' & Hv').
  exists e. split; [|done]. unfold call_of, broadcastUniqueNCCLID. rewrite Hop, conf_rank. change (Z.of_nat 0 =? 0) with true.
  cbn [negb orb]. unfold bind, grp, upd, gets, modify, lsys, below, in_ext. cbn. by rewrite Hs.
Qed.
Lemma call_other i id op key R : isP2POp op = false -> i <> 0%nat -> inv (shared R) -> 0 <= count R i ->
  let '(o, s) := call_of i id op key R in
  s.1 = upd_ncclCommCounter_ (fun c => uint64 (c + 1)) (groups R i) /\ same_view store (shared R) (ext s.2.2) /\
  (forall id', o = Ret id' -> view (shared R) (to_string (count R i)) = Some id') /\
  (forall id', view (shared R) (to_string (count R i)) = Some id' -> Z.of_nat (length id') = N -> o = Ret id').
Proof using conf_rank counter_key get_view.
  intros Hop Hne Hi Hc. unfold call_of, broadcastUniqueNCCLID. rewrite Hop, conf_rank.
  assert ((Z.of_nat i =? 0) = false) as -> by (apply Z.eqb_neq; lia).
  unfold bind, grp, upd, gets, modify, lsys, below, in_ext, assert_, lift, ocheck. cbn.
  pose proof (get_view (shared R) (to_string (count R i)) Hi (counter_key _ Hc)) as Hg.
  pose proof (get_law (shared R) (to_string (count R i))) as Hl. pose proof (get_absent_law (shared R) (to_string (count R i))) as Ha.
  destruct (store_get store _ (shared R)) as [o e]. cbn in Hg.
  assert (forall id', o = Ret id' -> view (shared R) (to_string (count R i)) = Some id') as H1.
  { intros id' ->. destruct (view (shared R) (to_string (count R i))) as [v|] eqn:Hv.
    - destruct (Hl v Hi (counter_key _ Hc) eq_refl) as (e' & [= <- _] & _). done.
    - by destruct (Ha Hi (counter_key _ Hc) eq_refl id'). }
  assert (forall id', view (shared R) (to_string (count R i)) = Some id' -> o = Ret id') as H2.
  { intros id' Hv. destruct (Hl id' Hi (counter_key _ Hc) Hv) as (e' & [= -> _] & _). done. }
  destruct o as [v|x|]; cbn; [destruct (Z.of_nat (length v) =? N) eqn:Hn; cbn|..];
    (split; [done|split; [done|split; [first [exact H1|by intros ? ?]|]]]); intros id' Hv Hl'; specialize (H2 id' Hv); try done.
  - injection H2 as ->. by apply Z.eqb_neq in Hn.
Qed.

Lemma keys_differ a b : 0 <= a < 2 ^ 63 -> 0 <= b < 2 ^ 63 -> to_string a = to_string b -> a = b.
Proof. intros Ha Hb. apply Wire.to_string_inj; unfold in_int64; lia. Qed.
Lemma count_next c n : 0 <= c <= Z.of_nat n -> Z.of_nat (S n) < 2 ^ 63 -> uint64 (c + 1) = c + 1.
Proof. intros. apply uint64_id. unfold in_uint64. lia. Qed.

Lemma exchange_agreed n R i id op key : Z.of_nat (S n) < 2 ^ 63 -> isP2POp op = false -> (i = 0%nat -> val_ok id) ->
  agreed n R -> agreed (S n) (exchange i id op key R).
Proof using conf_rank counter_key get_view.
  intros Hn Hop Hv [Hi Hc Hs Hu Hids]. pose proof (Hc i) as Hci. unfold exchange. destruct (decide (i = 0%nat)) as [->|Hne].
  - destruct (call_rank0 id op key R Hop Hi ltac:(lia) (Hv eq_refl)) as (e & -> & Hi' & Hv'). cbn.
    pose proof (count_next _ _ Hci Hn) as Hnx. split; cbn [groups shared ids ext fst snd]; rewrite ?Hnx.
    + done.
    + intros j. case_decide; [cbn; lia|]. specialize (Hc j). lia.
    + intros c Hcc. rewrite decide_True in Hcc by done. cbn in Hcc. rewrite Hv'. destruct (decide (to_string c = _)); [eauto|].
      apply Hs. destruct (decide (c = count R 0)); [by subst|lia].
    + intros c Hcc. rewrite decide_True in Hcc by done. cbn in Hcc. rewrite Hv'.
      destruct (decide (to_string c = _)) as [Hk|_]; [apply keys_differ in Hk; lia|apply Hu; lia].
    + intros j c id'. intros [[= -> -> ->]|Hin]%elem_of_cons.
      * split; [lia|]. rewrite Hv'. by rewrite decide_True.
      * destruct (Hids _ _ _ Hin) as [Hb Hvw]. split; [done|]. rewrite Hv'.
        destruct (decide (to_string c = _)) as [Hk|_]; [|done]. apply keys_differ in Hk; [|lia..]. subst c. rewrite Hu in Hvw by lia. done.
  - pose proof (call_other i id op key R Hop Hne Hi ltac:(lia)) as Hcall. destruct (call_of i id op key R) as [o s].
    destruct Hcall as (Hg & [Hi' Hv'] & Hret & _). pose proof (count_next _ _ Hci Hn) as Hnx.
    split; cbn [groups shared ids].
    + done.
    + intros j. case_decide; [subst; rewrite Hg; cbn; lia|]. specialize (Hc j). lia.
    + intros c. rewrite decide_False by congruence. intros Hcc. rewrite Hv'. by apply Hs.
    + intros c. rewrite decide_False by congruence. intros Hcc. rewrite Hv'. by apply Hu.
    + intros j c id' Hin. rewrite Hv'. destruct o as [v| |]; [|by eapply Hids..].
      apply elem_of_cons in Hin as [[= -> -> ->]|Hin]; [|by eapply Hids]. split; [lia|by apply Hret].
Qed.
Lemma exchanges_agreed n R : exchanges n R -> Z.of_nat n < 2 ^ 63 -> agreed n R.
Proof using conf_rank counter_key get_view.
  induction 1 as [e Hi He|n R i id op key _ IH Hop Hv|n R e _ IH Hi He]; intros Hn.
  - split; cbn; [done|intros _; lia|lia|intros c Hc; apply He; lia|by intros i c id ?%elem_of_nil].
  - apply exchange_agreed; [done..|]. apply IH. lia.
  - destruct (IH Hn) as [_ Hc Hs Hu Hids]. split; cbn; [done|done| | |].
    + intros c Hcc. rewrite He by lia. by apply Hs.
    + intros c Hcc. pose proof (Hc 0%nat). rewrite He by lia. by apply Hu.
    + intros i c id Hin. destruct (Hids _ _ _ Hin) as [Hb Hvw]. rewrite He by lia. done.
Qed.

(** C14: the ranks agree on the ids of communicators: in any order of calls of
    broadcastUniqueNCCLID() for collectives, and whatever other keys are written to
    the store meanwhile, two ranks that have an id for their communicator of the
    same number have the same id; and once rank 0 has made its call for a number,
    the call of any other rank for it returns that id (and does not time out). *)
Theorem nccl_ids_agree n R : exchanges n R -> Z.of_nat n < 2 ^ 63 ->
  (forall i j c id id', (i, c, id) ∈ ids R -> (j, c, id') ∈ ids R -> id = id') /\
  (forall i id id' op key, (0%nat, count R i, id) ∈ ids R -> Z.of_nat (length id) = N -> isP2POp op = false -> i <> 0%nat ->
    fst (call_of i id' op key R) = Ret id).
Proof using conf_rank counter_key get_view.
  intros H Hn. destruct (exchanges_agreed _ _ H Hn) as [Hi Hc Hs Hu Hids]. split.
  - intros i j c id id' H1 H2. destruct (Hids _ _ _ H1) as [_ V1]. destruct (Hids _ _ _ H2) as [_ V2]. congruence.
  - intros i id id' op key H1 Hl Hop Hne. destruct (Hids _ _ _ H1) as [_ V1].
    pose proof (call_other i id' op key R Hop Hne Hi ltac:(apply Hc)) as Hcall.
    destruct (call_of i id' op key R) as [o s]. destruct Hcall as (_ & _ & _ & Hret). by apply Hret.
Qed.
End ids.

(** Rank 0 gives its id, rank 1 reads it. *)
#[local] Existing Instance demo_store_spec.
Definition demo_conf (i : nat) : config := mkConfig (Z.of_nat i) 2 false true 1000 false false.
Definition demo_ranks : ranks :=
  exchange Demo.store 1 demo_conf 1 [] ALLREDUCE (str "0")
    (exchange Demo.store 1 demo_conf 0 [x0a] ALLREDUCE (str "0") (mkRanks (fun _ => new_group) Demo.e0 [])).
Lemma nccl_ids_agree_witness :
  ids demo_ranks = [(1%nat, 0, [x0a]); (0%nat, 0, [x0a])] /\
  forall i j c id id', (i, c, id) ∈ ids demo_ranks -> (j, c, id') ∈ ids demo_ranks -> id = id'.
Proof.
  split; [vm_compute; reflexivity|]. refine (proj1 (nccl_ids_agree Demo.store 1 demo_conf _ _ _ 2 demo_ranks _ _)).
  - intros i. reflexivity.
  - intros c _. exact I.
  - intros [s t] k _ _. split; [exact I|]. intros k'. cbn. unfold Demo.on_store, HashStore.get, HashStore.cv_wait, HashStore.has. unfold_M. cbn.
    destruct (HashStore.map_ s !! k) as [v|] eqn:Hk; cbn; [done|]. by destruct (_ =? _).
  - unfold demo_ranks. apply ex_call; [apply ex_call; [apply ex_start; [exact I|]|reflexivity|]|reflexivity|].
    + intros c _. cbn. apply lookup_empty.
    + intros _. exact I.
    + intros H. discriminate H.
  - reflexivity.
Defined.
